(* ===== verification/_CoqProject ===== *)
-Q . S2P
Prelude.v
Reader.v
Token.v
Lexer.v
LexerSpec.v
Grammar.v
GrammarSpec.v
TableBuilder.v
TableSpec.v
Parser.v
ParserSpec.v
Graphs.v
SyncRuntime.v
SyncSpec.v
Channels.v
ChannelSpec.v
Contexts.v
Tasks.v
Transactions.v
TransactionSpec.v
Value.v
ValueSpec.v
Bytecode.v
BytecodeSpec.v
Serialize.v
GrammarText.v
SerializeSpec.v
Execution.v
Support.v
DataOps.v
Machine.v
MachineSpec.v
Actors.v
ActorSpec.v
Ast.v
SymbolTable.v
TypeNames.v
AstBuilder.v
AstSorts.v
AstTrees.v
AstBuilderSpec.v
FrontEnd.v
SyncAnalysis.v
SyncAnalysisSpec.v
SyncModule.v
SyncScript.v
EffectResume.v
TypeInfo.v
TypeInfoSpec.v
SemanticState.v
TypeResolver.v
Builtins.v
SemanticCalls.v
SemanticVisitors.v
TypeResolverSpec.v
SemanticFrame.v
SemanticSpec.v
SemanticExamples.v
GenState.v
Resolver.v
Generator.v
GeneratorSpec.v
Comptime.v
OperatorTypes.v
MachineRun.v
GeneratorRun.v
CompileSpec.v
FunctionSpec.v
Programs.v
Crypto.v
Fips.v
CryptoSpec.v
Json.v
JsonSpec.v
NativeModules.v
NativeModulesSpec.v
