(* ===== verification/Prelude.v ===== *)
(** * The Aura compiler and virtual machine: a verification library

    Aura is a small language with structures, enumerations, interfaces,
    effects, actors, transactions and threads.  The program of this repository
    reads its grammar from a text, builds SLR tables from it, parses a source
    file, generates bytecode, and runs it on a stack machine.  Paths below are
    relative to the root of the repository; every definition has the name of
    the function, method or type that it translates, where Rocq allows it.

    ** The parts, in the order in which a program goes through them

    Front end.
    - [Reader], [Token], [Lexer] ([src/lexer/], [src/errors/Error.h]): the
      character reader over a [std::stringstream] with its state bits, the
      keywords and the five lexical rules, [Lexer::Get] and [Peek].
      [LexerSpec]: a token is the longest lexeme of an independent description;
      reading to the end returns and cuts the whole input into white space,
      comments and longest tokens; what [Peek] breaks.
    - [Grammar] ([src/rulesBuilder/]): the text of a grammar, FIRST, FOLLOW and
      guide sets.  [GrammarSpec]: they are the textbook relations, and both
      fixpoint loops end.
    - [TableBuilder], [Parser] ([src/parser/]): the LR(0) automaton, the action
      and goto tables, the parse loop with its three stacks.  [TableSpec] and
      [ParserSpec]: building ends, the tables are the SLR tables, no step of
      the loop leaves its stacks, an accepted input is a sentence and the tree
      returned is a parse tree of it.

    - [GrammarText]: the text of the grammar of Aura that the compiler contains.
    - [AstBuilder] ([src/ast/builder/]): the transformation of the parse tree into
      the syntax tree, pointer by pointer.  [AstSorts], [AstTrees] and
      [AstBuilderSpec] follow it over every parse tree of the grammar, and
      [FrontEnd] joins lexer, parser and builder: the program that is built is
      well sorted, and no null pointer is followed on the way.  The builder reads
      a node it destroyed for every [iter] statement; what this gives is the
      parameter [after_free], and the theorem says what follows when the read is
      undefined and when the memory is as it was.

    Semantic analysis ([src/ast/sematic/]).
    - [TypeInfo]: the types of the analyzer, whose elements are shared objects on
      a heap; comparison, substitution, what can be sent to another thread.
      [TypeInfoSpec]: [Equals] is an equivalence relation and ends where no type
      is inside itself, and does not end where one is.
    - [SemanticState]: the environment of names and the registries, and the scopes
      that a visitor opens and closes ([ScopeExit]).
    - [TypeResolver]: type names read from their text, [IsAssignable], the binding
      of generic parameters, modules and effects.  [TypeResolverSpec]: which lists
      of parameters are accepted, and the names whose resolution does not end.
    - [Builtins] ([src/builtin/]): the table of the built-in modules.
    - [SemanticCalls], [SemanticVisitors]: the analysis of calls and assignments,
      and a visitor for every node.  [SemanticFrame] and [SemanticSpec]: a visit
      puts every stack and depth back, and in an accepted program every node
      stands where it may.  [SemanticExamples]: programs analyzed by the kernel.
    - [OperatorTypes]: the type that the analyzer gives to an operator is the type
      of what the evaluator of [Comptime] computes: in double precision too the
      sums, differences and products of integers are integers, their quotients
      are not, and [float] is only said where fractions occur.
    - [EffectResume]: the count of the calls of [resume] in a handler.
    - [Graphs]: paths and cycles of finite graphs, for the three components that
      keep one.
    - [SyncAnalysis] ([src/ast/SyncGraphAnalyzer.cpp], [src/ast/common/]): the
      static analysis of locks and joins.  [SyncAnalysisSpec]: it ends on every
      tree and keeps its graphs acyclic.  [SyncScript]: a script of locks that it
      accepts gets no deadlock from the runtime.

    Code generation.
    - [Ast] ([src/ast/core/], [src/ast/nodes/]): the syntax tree.
    - [SymbolTable], [TypeNames], [GenState], [Resolver], [Generator]
      ([src/ast/SymbolTable.cpp], [src/ast/common/SemanticAnalyzerSupport.h],
      [src/bytecode/]): the state of the generator, the resolution of the types
      of expressions, and every visitor.  [GeneratorSpec]: a visit of any tree
      only appends to the chunk and restores scopes, contracts and effects.
    - [Comptime]: the tree-walking evaluator of the same sources, which gives
      simple programs a meaning without a machine.
    - [Bytecode], [Serialize] ([src/vm/core/OpCode.h], [src/vm/execution/chunk/],
      [src/Compiler.cpp]): instructions, constants, jumps, and the file format,
      with [BytecodeSpec] (what is written is what is fetched, second operands
      included, jumps land where the statements say) and [SerializeSpec] (the bytes determine the chunk).

    Execution.
    - [Value] ([src/vm/core/values/]): the variant, its arithmetic in [double],
      comparison, printing; [ValueSpec]: where it is exact, what it refuses,
      when printing ends.
    - [Execution] ([src/vm/runtime/ExecutionContext*.cpp]): the value stack, the
      frames, the scopes and the handlers of one thread.
    - [Support], [DataOps], [Machine] ([src/vm/execution/]): every instruction,
      [Dispatch], [Run] and [Interpret], with the runs that iterators and
      effects start inside an instruction.  [MachineSpec]: the limits of the
      stacks in every run of any bytecode, at any depth of nested runs (a machine
      that is watched between its rounds does the same as the machine), the
      isolation of a frame, and what a call and its return do.
    - [MachineRun], [GeneratorRun], [CompileSpec], [FunctionSpec]: the code of a
      function, run from its call to its return, returns what the evaluator of
      [Comptime] returns for its body.
    - [Programs]: whole programs compiled and run by the kernel.

    Native modules without input and output ([src/vm/runtime/stdlib/]).
    - [Crypto]: SHA-256, HMAC, base64url, the comparison without early exit.
      [Fips]: SHA-256 and HMAC from FIPS 180-4 and RFC 2104, without the program.
      [CryptoSpec]: the program computes them; base64url gives its bytes back;
      when the comparison is equality.
    - [Json]: the parser that checks a text and drops its white space, the cache,
      the lookup of a field, strings in both directions; [JsonSpec]: it accepts
      exactly a grammar of JSON and always returns.
    - [NativeModules]: what the machine calls under the names of these modules and
      of [std.text]; [NativeModulesSpec]: every call of them answers, a text comes
      back from an object, [split] is undone by joining, and they are native
      functions as the theorem on the limits of the machine expects them.

    Shared runtime ([src/vm/runtime/SharedRuntime*.cpp],
    [ExecutionContextTransactions.cpp], [ExecutionContextSync.cpp]).
    - [SyncRuntime], [SyncSpec]: threads, mutexes and the wait graph; it never
      has a cycle, and every operation is described on every branch.
    - [Channels], [ChannelSpec]: senders and receivers as critical sections
      under any scheduler, with spurious wake-ups; order, capacity, closing, and
      which wake-ups can be lost.
    - [SyncModule] ([src/vm/runtime/stdlib/sync/]): the native functions that a
      program calls for them.
    - [Contexts]: trees of cancellation contexts, and exactly which of them a
      cancellation reaches.
    - [Tasks], [Actors]: the threads of tasks and of actors, as steps that
      interleave; [ActorSpec]: the order of a mailbox, the answers of queries, and
      which of them can wait for ever.
    - [Transactions], [TransactionSpec]: the views of a transaction, what a commit
      publishes, drops and cannot write, rollback, and the order in which the
      mutexes are locked and given back.

    ** How the model is built

    - Errors: a C++ function that may throw is a [result]; undefined behaviour
      is an exception of its own ([undefined_behaviour]) that no handler of the
      model catches, so a theorem that a call returns also says that it is
      defined.  Stateful code is in the monads [st] (the state is lost when it
      throws) and [est] (the state of the throw is kept, for the machine).
    - Integers: [size_t] and positions are [nat] where a bound on the input or
      a limit of the code keeps them small, and are reduced modulo 2^64 where
      the code subtracts ([Support.size_t]); bytes, slots, operands and
      [int64_t] are [Z] with the wrap-around or the check written out; a
      [double] is a [spec_float] of the Standard Library.
    - Memory: shared pointers are addresses in a finite map, or in a list in the
      analyzer, so that aliasing is as in the code; objects that nothing writes are
      values.
    - Hash tables are finite maps; where the code iterates over one, the model does
      so in the order of the map, which is one that the code may take.
    - Loops without a structural bound take fuel.  The loops of the lexer,
      FIRST and FOLLOW, the table builder, the wait graph, the contexts,
      printing and the parser of JSON have theorems that the fuel they are called with suffices; the
      machine and the generator may run without end, and their theorems hold
      for every fuel, or say of a given run how it ends.  The semantic analyzer
      recurses over type names and types, which may be cyclic: its theorems hold
      for every fuel, and [Equals] is shown to end on the heaps without cycles.
    - Concurrency: code under a mutex is one step.  [Channels], [Tasks] and
      [Actors] interleave the critical sections of all calls; elsewhere a run of
      the program is a sequence of whole calls.  To the machine other threads are
      a parameter ([DataOps.peers]).

    ** What is not modelled

    Input and output: the driver ([main.cpp], the rest of [src/Compiler.cpp]), the
    package loader and linker ([src/linker/]), which read files, and the native
    modules for files, sockets, databases, maps and time, and the conversions of
    texts to numbers ([src/vm/runtime/stdlib/]); to the machine every native function
    is a parameter ([Machine.NativeFunction]).  The generator of assembly text
    ([src/asmGenerator/]), which only its tests use, and the debug output of the
    machine.  Tests, samples and documentation. *)

From stdpp Require Export base gmap strings list fin_maps relations.
From stdpp Require Export ssreflect.
From Stdlib Require Export Ascii.
From Stdlib Require Import Lia.

#[export] Set Warnings "-rewrite-rw,-clear-no-such-hyp,-register-all".


(** ** C++ exceptions and results

    A function that may throw returns a [result].  [Throw] carries the
    exception class and its [what()] text.  [Diverge] is the value of a loop
    whose fuel ran out; the header says for which loops the fuel is shown to
    suffice. *)

Inductive exn :=
  | runtime_error (what : string)
  | overflow_error (what : string)
  | underflow_error (what : string)
  | out_of_range (what : string)
  | bad_variant_access
  | invalid_argument (what : string)
  | undefined_behaviour (what : string).

Inductive result (A : Type) :=
  | Ok (a : A)
  | Throw (e : exn)
  | Diverge.
Arguments Ok {A} _.
Arguments Throw {A} _.
Arguments Diverge {A}.

#[export] Instance exn_eq_dec : EqDecision exn.
Proof. solve_decision. Defined.

#[export] Instance result_eq_dec `{EqDecision A} : EqDecision (result A).
Proof. solve_decision. Defined.

#[export] Instance result_ret : MRet result := λ A a, Ok a.
#[export] Instance result_bind : MBind result := λ A B k m,
  match m with Ok a => k a | Throw e => Throw e | Diverge => Diverge end.
#[export] Instance result_fmap : FMap result := λ A B f m,
  match m with Ok a => Ok (f a) | Throw e => Throw e | Diverge => Diverge end.

(** A state and exception monad: C++ member functions of a class with state
    [S].  The state after a throw is not kept: no caller in the modelled code
    catches an exception and then reads the object. *)
Definition st (S A : Type) : Type := S → result (A * S).

#[export] Instance st_ret S : MRet (st S) := λ A a s, Ok (a, s).
#[export] Instance st_bind S : MBind (st S) := λ A B k m s,
  match m s with
  | Ok (a, s') => k a s'
  | Throw e => Throw e
  | Diverge => Diverge
  end.

Definition st_throw {S A} (e : exn) : st S A := λ _, Throw e.
Definition st_diverge {S A} : st S A := λ _, Diverge.
Definition st_get {S} : st S S := λ s, Ok (s, s).
Definition st_put {S} (s : S) : st S unit := λ _, Ok (tt, s).
Definition st_modify {S} (f : S → S) : st S unit := λ s, Ok (tt, f s).

(** The same with the state kept when an exception is thrown, for code whose
    callers catch it and go on with the object. *)
Definition est (S A : Type) : Type := S → S * result A.

#[export] Instance est_ret S : MRet (est S) := λ A a s, (s, Ok a).
#[export] Instance est_bind S : MBind (est S) := λ A B k m s,
  match m s with
  | (s', Ok a) => k a s'
  | (s', Throw e) => (s', Throw e)
  | (s', Diverge) => (s', Diverge)
  end.

Definition est_throw {S A} (e : exn) : est S A := λ s, (s, Throw e).
Definition est_get {S} : est S S := λ s, (s, Ok s).
Definition est_modify {S} (f : S → S) : est S unit := λ s, (f s, Ok tt).
(** A computation without state, and one on a part of the state. *)
Definition est_lift {S A} (r : result A) : est S A := λ s, (s, r).
Definition est_zoom {S T A} (get : S → T) (set : T → S → S) (m : st T A) : est S A := λ s,
  match m (get s) with
  | Ok (a, t) => (set t s, Ok a)
  | Throw e => (s, Throw e)
  | Diverge => (s, Diverge)
  end.

(** Short-circuit conditions on computations with effects, as C++'s [&&] and
    [||] evaluate their operands. *)
Definition st_andb {S} (a b : st S bool) : st S bool :=
  x ← a; if (x : bool) then b else mret false.
Definition st_orb {S} (a b : st S bool) : st S bool :=
  x ← a; if (x : bool) then mret true else b.
Definition st_notb {S} (a : st S bool) : st S bool := x ← a; mret (negb x).

(** ** Notation scope of the library *)
Declare Scope aura_scope.
Delimit Scope aura_scope with aura.
Notation "a '&&!' b" := (st_andb a b) (at level 40, left associativity) : aura_scope.
Notation "a '||!' b" := (st_orb a b) (at level 50, left associativity) : aura_scope.
Notation "'!!!' a" := (st_notb a) (at level 35, right associativity) : aura_scope.
Open Scope aura_scope.

(** ** Inversion lemmas for the monads *)

Lemma result_bind_Ok {A B} (m : result A) (k : A → result B) b :
  (m ≫= k) = Ok b ↔ ∃ a, m = Ok a ∧ k a = Ok b.
Proof. destruct m; cbn; naive_solver. Qed.

Lemma st_bind_Ok {S A B} (m : st S A) (k : A → st S B) s r :
  (m ≫= k) s = Ok r ↔ ∃ a s', m s = Ok (a, s') ∧ k a s' = Ok r.
Proof. unfold mbind, st_bind. destruct (m s) as [[]| |]; naive_solver. Qed.

Lemma st_bind_run {S A B} (m : st S A) (k : A → st S B) s a s' :
  m s = Ok (a, s') → (m ≫= k) s = k a s'.
Proof. unfold mbind, st_bind. by intros ->. Qed.

Lemma st_andb_true {S} (a b : st S bool) s s' :
  a s = Ok (true, s') → st_andb a b s = b s'.
Proof. intros H. unfold st_andb. by rewrite (st_bind_run _ _ _ _ _ H). Qed.

Lemma st_andb_false {S} (a b : st S bool) s s' :
  a s = Ok (false, s') → st_andb a b s = Ok (false, s').
Proof. intros H. unfold st_andb. by rewrite (st_bind_run _ _ _ _ _ H). Qed.

Lemma st_andb_assoc {S} (a b c : st S bool) s :
  st_andb (st_andb a b) c s = st_andb a (st_andb b c) s.
Proof.
  unfold st_andb, mbind, st_bind, mret, st_ret.
  by destruct (a s) as [[[] ?]| |].
Qed.

Lemma st_orb_true {S} (a b : st S bool) s s' :
  a s = Ok (true, s') → st_orb a b s = Ok (true, s').
Proof. intros H. unfold st_orb. by rewrite (st_bind_run _ _ _ _ _ H). Qed.

Lemma st_orb_false {S} (a b : st S bool) s s' :
  a s = Ok (false, s') → st_orb a b s = b s'.
Proof. intros H. unfold st_orb. by rewrite (st_bind_run _ _ _ _ _ H). Qed.

Lemma st_notb_run {S} (a : st S bool) s x s' :
  a s = Ok (x, s') → st_notb a s = Ok (negb x, s').
Proof. intros H. unfold st_notb. by rewrite (st_bind_run _ _ _ _ _ H). Qed.

(** Simplify the ends of monadic computations. *)
Ltac run_ret := cbn [mret st_ret result_ret].
(** Take one step of a monadic computation with a known first result. *)
Ltac run_with H := rewrite (st_bind_run _ _ _ _ _ H); cbn beta iota.

(** ** Loops "repeat until nothing changed"

    [bool changed = true; while (changed) { changed = false; ... }]: [step]
    is the body, returning the new state and [changed]. *)
Fixpoint while_changed {S} (step : S → S * bool) (n : nat) (s : S) : result S :=
  match n with
  | 0 => Diverge
  | S n => let '(s', changed) := step s in
           if (changed : bool) then while_changed step n s' else Ok s'
  end.

Lemma while_changed_spec {S} (step : S → S * bool) (I Q : S → Prop) (μ : S → nat) B n s :
  (∀ s, I s → I (step s).1) →
  (∀ s, I s → (step s).2 = true → μ s < μ (step s).1) →
  (∀ s, I s → (step s).2 = false → Q (step s).1) →
  (∀ s, I s → μ s ≤ B) →
  I s → B < n + μ s →
  ∃ s', while_changed step n s = Ok s' ∧ I s' ∧ Q s'.
Proof.
  intros HI Hμ HQ HB. revert s. induction n as [|n IH]; intros s Hs Hn.
  { specialize (HB s Hs). lia. }
  cbn. specialize (HI s Hs). specialize (Hμ s Hs). specialize (HQ s Hs).
  destruct (step s) as [s' []] eqn:E; cbn in *.
  - apply IH; [done|]. specialize (Hμ eq_refl). lia.
  - by exists s'; auto.
Qed.

Lemma while_changed_inv {S} (step : S → S * bool) (I : S → Prop) n s s' :
  (∀ s, I s → I (step s).1) → I s → while_changed step n s = Ok s' → I s'.
Proof.
  intros HI. revert s. induction n as [|n IH]; intros s Hs; cbn; [done|].
  specialize (HI s Hs). destruct (step s) as [s1 []]; cbn in *; [by apply IH|by intros [= <-]].
Qed.

Lemma while_changed_ext {S} (f g : S → S * bool) n s :
  (∀ s, f s = g s) → while_changed f n s = while_changed g n s.
Proof.
  intros Hfg. revert s. induction n as [|n IH]; intros s; cbn; [done|].
  rewrite Hfg. destruct (g s) as [s' []]; [apply IH|done].
Qed.

(** ** Generic lists *)

Section lists.
Context {A : Type}.
Implicit Types (l k : list A) (p : A → bool).

(** Longest prefix whose elements satisfy [p], and what follows it. *)
Fixpoint takeWhile p l : list A :=
  match l with
  | [] => []
  | x :: l => if p x then x :: takeWhile p l else []
  end.

Fixpoint dropWhile p l : list A :=
  match l with
  | [] => []
  | x :: l' => if p x then dropWhile p l' else l
  end.

Lemma takeWhile_dropWhile p l : takeWhile p l ++ dropWhile p l = l.
Proof. induction l as [|x l IH]; [done|]. cbn. destruct (p x); [|done]. cbn. by f_equal. Qed.

Lemma takeWhile_Forall p l : Forall (λ x, p x = true) (takeWhile p l).
Proof. induction l as [|x l IH]; cbn; [done|]. destruct (p x) eqn:?; [by constructor|done]. Qed.

Lemma dropWhile_head p l x k : dropWhile p l = x :: k → p x = false.
Proof.
  induction l as [|y l IH]; cbn; [done|]. destruct (p y) eqn:?; [done|].
  intros [= -> ->]. done.
Qed.

Lemma takeWhile_app p l k :
  Forall (λ x, p x = true) l → takeWhile p (l ++ k) = l ++ takeWhile p k.
Proof. induction 1 as [|x l Hx ? IH]; [done|]. cbn. by rewrite Hx IH. Qed.

Lemma length_dropWhile p l : length (dropWhile p l) ≤ length l.
Proof. rewrite -{2}(takeWhile_dropWhile p l) length_app. lia. Qed.

Lemma suffix_snoc_inv l k x : l `suffix_of` k ++ [x] → l = [] ∨ ∃ l', l = l' ++ [x].
Proof.
  intros [m Hm]. destruct l as [|y l' _] using rev_ind; [by left|right].
  rewrite app_assoc in Hm. apply app_inj_tail in Hm as [_ ->]. by exists l'.
Qed.
End lists.

(** A map filled by assignments holds only what was assigned. *)
Lemma foldl_insert_lookup {K V} `{Countable K} (l : list (K * V)) (m : gmap K V) k v :
  foldl (λ m kv, <[kv.1 := kv.2]> m) m l !! k = Some v → (k, v) ∈ l ∨ m !! k = Some v.
Proof.
  revert m. induction l as [|[k' v'] l IH]; intros m; cbn; [by right|].
  intros Hl. destruct (IH _ Hl) as [?|Hm]; [left; by right|].
  destruct (decide (k' = k)) as [->|].
  - rewrite lookup_insert_eq in Hm. simplify_eq. left. left.
  - rewrite lookup_insert_ne // in Hm. by right.
Qed.

(** ** The total weight of the values of a map *)

Section weight.
Context {K V : Type} `{Countable K}.
Implicit Types (f : V → nat) (m : gmap K V).

Definition weight f m : nat := sum_list_with (λ kv, f kv.2) (map_to_list m).

Lemma weight_insert_None f m k x : m !! k = None → weight f (<[k := x]> m) = f x + weight f m.
Proof. intros Hk. unfold weight. by rewrite map_to_list_insert. Qed.

Lemma weight_delete f m k x : m !! k = Some x → weight f m = f x + weight f (delete k m).
Proof. intros Hk. by rewrite -{1}(insert_delete_id m k x Hk) weight_insert_None ?lookup_delete_eq. Qed.

Lemma weight_insert f m k x y : m !! k = Some x → weight f (<[k := y]> m) + f x = weight f m + f y.
Proof.
  intros Hk. rewrite (weight_delete f m k x Hk).
  rewrite (weight_delete f (<[k := y]> m) k y) ?lookup_insert_eq //.
  rewrite delete_insert_eq. lia.
Qed.

Lemma weight_empty f : weight f ∅ = 0.
Proof. unfold weight. by rewrite map_to_list_empty. Qed.

Lemma weight_zero f m : weight f m = 0 ↔ ∀ k x, m !! k = Some x → f x = 0.
Proof.
  split.
  - intros Hw k x Hk. rewrite (weight_delete f m k x Hk) in Hw. lia.
  - induction m as [|k x m Hk IH] using map_ind; intros Hall; [apply weight_empty|].
    rewrite weight_insert_None // IH ?(Hall k x) ?lookup_insert_eq //.
    intros k' x' Hk'. apply (Hall k'). rewrite lookup_insert_ne //. congruence.
Qed.

Lemma weight_pos f m : 0 < weight f m → ∃ k x, m !! k = Some x ∧ 0 < f x.
Proof.
  induction m as [|k x m Hk IH] using map_ind; intros Hw; [rewrite weight_empty in Hw; lia|].
  rewrite weight_insert_None // in Hw. destruct (decide (0 < f x)).
  - exists k, x. by rewrite lookup_insert_eq.
  - destruct IH as (k' & x' & Hk' & ?); [lia|]. exists k', x'. rewrite lookup_insert_ne //. congruence.
Qed.
End weight.

(** [alter] of an existing entry. *)
Lemma alter_Some {K V} `{Countable K} (m : gmap K V) f k x :
  m !! k = Some x → alter f k m = <[k := f x]> m.
Proof.
  intros Hk. apply map_eq. intros j. destruct (decide (j = k)) as [-> |].
  - by rewrite lookup_alter_eq Hk lookup_insert_eq.
  - by rewrite lookup_alter_ne // lookup_insert_ne.
Qed.

(** [last] and removal of the last element: [back]/[pop_back] of a vector. *)
Definition pop_back {A} (l : list A) : list A := take (pred (length l)) l.

Lemma pop_back_snoc {A} (l : list A) x : pop_back (l ++ [x]) = l.
Proof. unfold pop_back. rewrite length_app /= Nat.add_1_r /=. by rewrite take_app_length. Qed.

Create HintDb aura.
Create Rewrite HintDb aura.
#[export] Hint Rewrite @pop_back_snoc @length_app @takeWhile_dropWhile : aura.
#[export] Hint Resolve takeWhile_Forall length_dropWhile : aura.
