(* ===== verification/Reader.v ===== *)
(** * The character reader of the lexer

    [src/lexer/reader/Reader.h] and [Reader.cpp].  The [std::stringstream] is
    modelled with its state bits, because the reader's [EndOfFile] is a [peek]
    that sets them and its [Unget] only works while they allow it.  [size_t]
    counters are [nat]: they are bounded by the length of the input. *)

From S2P Require Import Prelude.
From Stdlib Require Import Lia.

(** ** The part of [std::stringstream] the reader uses *)

Record stringstream := Stream {
  buf : list ascii;
  gpos : nat;
  eofbit : bool;
  failbit : bool;
  badbit : bool;
}.

Definition stream_good (s : stringstream) : bool :=
  negb (eofbit s) && negb (failbit s) && negb (badbit s).

Definition stream_setfail (s : stringstream) : stringstream :=
  Stream (buf s) (gpos s) (eofbit s) true (badbit s).

(** [peek]: the sentry fails, and sets [failbit], on a stream that is not
    good; otherwise the character at the get position, or end of file, which
    sets [eofbit].  [None] is [std::char_traits<char>::eof()]. *)
Definition stream_peek (s : stringstream) : option ascii * stringstream :=
  if stream_good s then
    match buf s !! gpos s with
    | Some c => (Some c, s)
    | None => (None, Stream (buf s) (gpos s) true (failbit s) (badbit s))
    end
  else (None, stream_setfail s).

(** [get]: as [peek], moving the get position; end of file sets both bits. *)
Definition stream_get (s : stringstream) : option ascii * stringstream :=
  if stream_good s then
    match buf s !! gpos s with
    | Some c => (Some c, Stream (buf s) (S (gpos s)) (eofbit s) (failbit s) (badbit s))
    | None => (None, Stream (buf s) (gpos s) true true (badbit s))
    end
  else (None, stream_setfail s).

(** [unget]: clears [eofbit] first; then a stream that is not good gets
    [failbit], and a get position at the start gets [badbit]. *)
Definition stream_unget (s : stringstream) : stringstream :=
  let s := Stream (buf s) (gpos s) false (failbit s) (badbit s) in
  if stream_good s then
    match gpos s with
    | 0 => Stream (buf s) 0 false (failbit s) true
    | S p => Stream (buf s) p false (failbit s) (badbit s)
    end
  else stream_setfail s.

(** [clear()] followed by [seekg(0, beg)]. *)
Definition stream_rewind (s : stringstream) : stringstream :=
  Stream (buf s) 0 false false false.

(** ** class Reader *)
Module Reader.

Record t := Mk {
  m_input : stringstream;
  m_count : nat;
  m_lineCount : nat;
  m_prevCount : nat;
  m_record : list ascii;
}.

Definition newline : ascii := "010"%char.

(** [Reader(const std::string&)] *)
Definition init (str : list ascii) : t :=
  Mk (Stream str 0 false false false) 0 0 0 [].

(** [static_cast<char>] of a [peek]/[get] result: end of file is [-1], the
    character ['\xFF']. *)
Definition to_char (c : option ascii) : ascii :=
  match c with Some c => c | None => "255"%char end.

Definition with_input (s : stringstream) (r : t) : t :=
  Mk s (m_count r) (m_lineCount r) (m_prevCount r) (m_record r).

(** The counter update of [Get] and [Seek]. *)
Definition advance (ch : ascii) (r : t) : t :=
  if decide (ch = newline)
  then Mk (m_input r) 0 (S (m_lineCount r)) (m_count r) (m_record r)
  else Mk (m_input r) (S (m_count r)) (m_lineCount r) (m_prevCount r) (m_record r).

Definition EndOfFile : st t bool := λ r,
  let '(c, s) := stream_peek (m_input r) in
  Ok (bool_decide (c = None), with_input s r).

Definition Empty : st t bool := EndOfFile.

Definition Peek : st t ascii := λ r,
  let '(c, s) := stream_peek (m_input r) in
  Ok (to_char c, with_input s r).

Definition Get : st t ascii :=
  eof ← EndOfFile;
  if (eof : bool)
  then st_throw (runtime_error "EOF Error: tried to get char from an empty reader")
  else λ r,
    let '(c, s) := stream_get (m_input r) in
    let ch := to_char c in
    let r := advance ch (with_input s r) in
    Ok (ch, Mk (m_input r) (m_count r) (m_lineCount r) (m_prevCount r) (m_record r ++ [ch])).

Definition Unget : st t unit := λ r,
  match last (m_record r) with
  | None => Throw (runtime_error "Cannot unget: no characters consumed")
  | Some lastChar =>
      if decide (lastChar = newline) then
        match m_lineCount r with
        | 0 => Throw (runtime_error "Cannot unget newline: no newlines to undo")
        | S lines => Ok (tt, Mk (stream_unget (m_input r)) (m_prevCount r) lines
                               (m_prevCount r) (pop_back (m_record r)))
        end
      else
        match m_count r with
        | 0 => Throw (runtime_error "Cannot unget: count underflow")
        | S count => Ok (tt, Mk (stream_unget (m_input r)) count (m_lineCount r)
                               (m_prevCount r) (pop_back (m_record r)))
        end
  end.

Definition Count (r : t) : nat := m_count r.
Definition LineCount (r : t) : nat := m_lineCount r.

(** One round of the loop of [Seek]. *)
Definition seek_step : st t unit := λ r,
  let '(c, s) := stream_peek (m_input r) in
  match c with
  | None => Throw (runtime_error "Seek beyond EOF")
  | Some _ =>
      let '(c, s) := stream_get s in
      Ok (tt, advance (to_char c) (with_input s r))
  end.

Fixpoint seek_loop (n : nat) : st t unit :=
  match n with
  | 0 => mret tt
  | S n => _ ← seek_step; seek_loop n
  end.

Definition Seek (pos : nat) : st t unit := λ r,
  seek_loop pos (Mk (stream_rewind (m_input r)) 0 0 0 []).

Definition Record_ : st t unit := λ r,
  Ok (tt, Mk (m_input r) (m_count r) (m_lineCount r) (m_prevCount r) []).

Definition StopRecord (r : t) : list ascii := m_record r.

(** ** What the reader's state means

    [col pre] and [lines pre]: the column and the line a reader is at after
    the characters [pre]. *)
Fixpoint position (pre : list ascii) (lc : nat * nat) : nat * nat :=
  match pre with
  | [] => lc
  | c :: pre => position pre (if decide (c = newline) then (S lc.1, 0) else (lc.1, S lc.2))
  end.

Definition lines (pre : list ascii) : nat := (position pre (0, 0)).1.
Definition col (pre : list ascii) : nat := (position pre (0, 0)).2.

(** The reader has consumed [pre] and has [rest] before it. *)
Record at_ (r : t) (pre rest : list ascii) : Prop := {
  at_buf : buf (m_input r) = pre ++ rest;
  at_pos : gpos (m_input r) = length pre;
  at_bad : badbit (m_input r) = false;
  at_good : rest ≠ [] → eofbit (m_input r) = false ∧ failbit (m_input r) = false;
  at_count : m_count r = col pre;
  at_line : m_lineCount r = lines pre;
  at_record : m_record r `suffix_of` pre;
}.

(** Right after a [Get], possibly followed by one [peek]: the last character
    can be given back. *)
Definition can_unget (r : t) : Prop :=
  failbit (m_input r) = false ∧ m_record r ≠ [].

(** ** Lemmas *)

Lemma position_app a b lc : position (a ++ b) lc = position b (position a lc).
Proof. revert lc. induction a as [|c a IH]; intros lc; cbn; [done|apply IH]. Qed.

Lemma lines_snoc pre c :
  lines (pre ++ [c]) = if decide (c = newline) then S (lines pre) else lines pre.
Proof. unfold lines. rewrite position_app. cbn. by case_decide. Qed.

Lemma col_snoc pre c :
  col (pre ++ [c]) = if decide (c = newline) then 0 else S (col pre).
Proof. unfold col. rewrite position_app. cbn. by case_decide. Qed.

Lemma with_input_id r : with_input (m_input r) r = r.
Proof. by destruct r. Qed.

Lemma at_stream_good r pre c rest :
  at_ r pre (c :: rest) → stream_good (m_input r) = true.
Proof.
  intros H. unfold stream_good. rewrite (at_bad _ _ _ H).
  by destruct (at_good _ _ _ H ltac:(done)) as [-> ->].
Qed.

Lemma at_lookup r pre c rest :
  at_ r pre (c :: rest) → buf (m_input r) !! gpos (m_input r) = Some c.
Proof.
  intros H. rewrite (at_buf _ _ _ H) (at_pos _ _ _ H).
  by rewrite lookup_app_r ?Nat.sub_diag.
Qed.

Lemma stream_peek_cons r pre c rest :
  at_ r pre (c :: rest) → stream_peek (m_input r) = (Some c, m_input r).
Proof.
  intros H. unfold stream_peek.
  by rewrite (at_stream_good _ _ _ _ H) (at_lookup _ _ _ _ H).
Qed.

Lemma stream_peek_nil r pre :
  at_ r pre [] → ∃ s, stream_peek (m_input r) = (None, s)
    ∧ buf s = buf (m_input r) ∧ gpos s = gpos (m_input r) ∧ badbit s = false
    ∧ (stream_good (m_input r) = true → failbit s = failbit (m_input r)).
Proof.
  intros H. unfold stream_peek. destruct (stream_good _) eqn:Hg.
  - rewrite (at_buf _ _ _ H) (at_pos _ _ _ H) app_nil_r lookup_ge_None_2; [|done].
    eexists. repeat split. by rewrite -(at_bad _ _ _ H).
  - eexists. repeat split; [by rewrite -(at_bad _ _ _ H)|done].
Qed.

Lemma EndOfFile_cons r pre c rest :
  at_ r pre (c :: rest) → EndOfFile r = Ok (false, r).
Proof.
  intros H. unfold EndOfFile. rewrite (stream_peek_cons _ _ _ _ H).
  by rewrite with_input_id.
Qed.

Lemma Peek_cons r pre c rest : at_ r pre (c :: rest) → Peek r = Ok (c, r).
Proof.
  intros H. unfold Peek. rewrite (stream_peek_cons _ _ _ _ H).
  by rewrite with_input_id.
Qed.

Lemma EndOfFile_nil r pre :
  at_ r pre [] → ∃ r', EndOfFile r = Ok (true, r') ∧ at_ r' pre []
    ∧ (stream_good (m_input r) = true → can_unget r → can_unget r').
Proof.
  intros H. destruct (stream_peek_nil _ _ H) as (s & Hs & Hb & Hg & Hbad & Hf).
  exists (with_input s r). unfold EndOfFile. rewrite Hs. split_and!; [done| |].
  - destruct H. split; cbn; congruence || done.
  - intros Hgood [? ?]. split; cbn; [by rewrite Hf|done].
Qed.

Lemma stream_get_cons r pre c rest :
  at_ r pre (c :: rest) →
  stream_get (m_input r)
  = (Some c, Stream (buf (m_input r)) (S (gpos (m_input r))) false false false).
Proof.
  intros H. unfold stream_get.
  rewrite (at_stream_good _ _ _ _ H) (at_lookup _ _ _ _ H) (at_bad _ _ _ H).
  by destruct (at_good _ _ _ H ltac:(done)) as [-> ->].
Qed.

(** Moving over one character keeps the position of the reader right. *)
Lemma advance_at r pre c rest record :
  at_ r pre (c :: rest) → record `suffix_of` pre ++ [c] →
  let s := Stream (buf (m_input r)) (S (gpos (m_input r))) false false false in
  let r1 := advance c (with_input s r) in
  at_ (Mk s (m_count r1) (m_lineCount r1) (m_prevCount r1) record) (pre ++ [c]) rest.
Proof.
  intros H Hrec s r1. subst s r1. destruct H.
  split; cbn; try done.
  - by rewrite at_buf0 -app_assoc.
  - rewrite at_pos0 length_app /=. lia.
  - rewrite col_snoc. unfold advance. case_decide; cbn; [done|by f_equal].
  - rewrite lines_snoc. unfold advance. case_decide; cbn; [by f_equal|done].
Qed.

Lemma advance_input c r : m_input (advance c r) = m_input r.
Proof. unfold advance. by case_decide. Qed.
Lemma advance_record c r : m_record (advance c r) = m_record r.
Proof. unfold advance. by case_decide. Qed.
Lemma advance_prev c r :
  m_prevCount (advance c r) = if decide (c = newline) then m_count r else m_prevCount r.
Proof. unfold advance. by case_decide. Qed.

Lemma advance_eta c r : let r' := advance c r in
  r' = Mk (m_input r) (m_count r') (m_lineCount r') (m_prevCount r') (m_record r').
Proof. unfold advance. by case_decide. Qed.

Lemma Get_cons r pre c rest :
  at_ r pre (c :: rest) → ∃ r', Get r = Ok (c, r') ∧ at_ r' (pre ++ [c]) rest
    ∧ can_unget r' ∧ stream_good (m_input r') = true
    ∧ m_record r' = m_record r ++ [c]
    ∧ m_prevCount r' = (if decide (c = newline) then m_count r else m_prevCount r).
Proof.
  intros H. unfold Get. run_with (EndOfFile_cons _ _ _ _ H).
  rewrite (stream_get_cons _ _ _ _ H) advance_input advance_record. cbn.
  eexists; split; [done|]. split_and!; [|split|..]; cbn; try done.
  - apply (advance_at r pre c rest); [done|]. destruct (at_record _ _ _ H) as [k ->].
    exists k. by rewrite app_assoc.
  - by destruct (m_record r).
  - by rewrite advance_prev.
Qed.

Lemma Get_nil r pre :
  at_ r pre [] →
  Get r = Throw (runtime_error "EOF Error: tried to get char from an empty reader").
Proof.
  intros H. unfold Get. destruct (EndOfFile_nil _ _ H) as (r' & Hr & _). by run_with Hr.
Qed.

Lemma Unget_snoc r pre c rest :
  at_ r (pre ++ [c]) rest → can_unget r → c ≠ newline →
  ∃ r', Unget r = Ok (tt, r') ∧ at_ r' pre (c :: rest).
Proof.
  intros H [Hf Hrec] Hc. unfold Unget.
  destruct (suffix_snoc_inv _ _ _ (at_record _ _ _ H)) as [|[k Hk]]; [done|].
  rewrite Hk last_snoc decide_False //.
  rewrite (at_count _ _ _ H) col_snoc decide_False //.
  eexists; split; [done|]. destruct H.
  assert (stream_unget (m_input r)
    = Stream (buf (m_input r)) (length pre) false false false) as ->.
  { unfold stream_unget, stream_good. cbn. rewrite Hf at_bad0 /= at_pos0.
    by rewrite length_app /= Nat.add_1_r. }
  split; cbn; try done.
  - by rewrite at_buf0 -app_assoc.
  - by rewrite at_line0 lines_snoc decide_False.
  - rewrite pop_back_snoc. rewrite Hk in at_record0.
    destruct at_record0 as [m Hm]. exists m. rewrite app_assoc in Hm.
    by apply app_inj_tail in Hm as [-> _].
Qed.

Lemma init_at str : at_ (init str) [] str.
Proof. split; cbn; auto; done. Qed.

Lemma seek_loop_spec n r pre rest :
  at_ r pre rest → m_record r = [] →
  if decide (n ≤ length rest)
  then ∃ r', seek_loop n r = Ok (tt, r') ∧ at_ r' (pre ++ take n rest) (drop n rest)
             ∧ m_record r' = []
  else seek_loop n r = Throw (runtime_error "Seek beyond EOF").
Proof.
  revert r pre rest. induction n as [|n IH]; intros r pre rest H Hrec.
  { case_decide; [|lia]. exists r. by rewrite take_0 drop_0 app_nil_r. }
  destruct rest as [|c rest].
  { case_decide; [cbn in *; lia|]. cbn [seek_loop].
    destruct (stream_peek_nil _ _ H) as (s & Hs & _).
    unfold mbind, st_bind, seek_step. by rewrite Hs. }
  assert (∃ r1, seek_step r = Ok (tt, r1) ∧ at_ r1 (pre ++ [c]) rest ∧ m_record r1 = [])
    as (r1 & Hs & H1 & Hr1).
  { unfold seek_step. rewrite (stream_peek_cons _ _ _ _ H) (stream_get_cons _ _ _ _ H) /=.
    eexists; split; [done|]. split; [|by rewrite advance_record].
    rewrite advance_eta. apply (advance_at r pre c rest); [done|].
    rewrite advance_record /= Hrec. apply suffix_nil. }
  cbn [seek_loop length take drop]. run_with Hs.
  specialize (IH _ _ _ H1 Hr1). rewrite -app_assoc /= in IH.
  case_decide; case_decide; try lia; done.
Qed.

Lemma rewind_at r pre rest :
  at_ r pre rest →
  at_ (Mk (stream_rewind (m_input r)) 0 0 0 []) [] (pre ++ rest).
Proof. intros []. by split. Qed.

Lemma Seek_spec pos r pre rest :
  at_ r pre rest →
  if decide (pos ≤ length (pre ++ rest))
  then ∃ r', Seek pos r = Ok (tt, r')
             ∧ at_ r' (take pos (pre ++ rest)) (drop pos (pre ++ rest))
  else Seek pos r = Throw (runtime_error "Seek beyond EOF").
Proof.
  intros H. unfold Seek.
  pose proof (seek_loop_spec pos _ _ _ (rewind_at _ _ _ H) eq_refl) as Hs.
  case_decide; [|done]. destruct Hs as (r' & Hr' & Hat & _). by exists r'.
Qed.

(** ** Properties *)

Lemma Unget_last r r' c rec :
  stream_good (m_input r) = true → gpos (m_input r) ≠ 0 → m_record r = rec ++ [c] →
  Unget r = Ok (tt, r') →
  m_input r' = Stream (buf (m_input r)) (pred (gpos (m_input r))) false false false
  ∧ m_record r' = rec
  ∧ if decide (c = newline)
    then m_count r' = m_prevCount r ∧ S (m_lineCount r') = m_lineCount r
    else S (m_count r') = m_count r ∧ m_lineCount r' = m_lineCount r.
Proof.
  intros Hg Hp Hr. unfold Unget. rewrite Hr last_snoc pop_back_snoc.
  assert (stream_unget (m_input r)
    = Stream (buf (m_input r)) (pred (gpos (m_input r))) false false false) as ->.
  { unfold stream_good in Hg. unfold stream_unget, stream_good. cbn.
    destruct (m_input r) as [b [|p] [] [] []]; cbn in *; done. }
  case_decide; case_match; intros [= <-]; cbn; done.
Qed.

(** Giving back the character just read restores the reader: the stream
    with its state bits, the line, the column and the record are those before
    the [Get], whichever character was read.  In particular a newline given
    back restores the column of the previous line. *)
Theorem Get_Unget_roundtrip r pre c rest :
  at_ r pre (c :: rest) →
  ∃ r1 r2, Get r = Ok (c, r1) ∧ Unget r1 = Ok (tt, r2)
    ∧ m_input r2 = m_input r ∧ Count r2 = Count r ∧ LineCount r2 = LineCount r
    ∧ StopRecord r2 = StopRecord r.
Proof.
  intros H. destruct (Get_cons _ _ _ _ H) as (r1 & Hg & Hat & _ & Hgood & Hrec & Hprev).
  assert (∃ r2, Unget r1 = Ok (tt, r2)) as [r2 Hu].
  { unfold Unget. rewrite Hrec last_snoc (at_count _ _ _ Hat) (at_line _ _ _ Hat).
    rewrite lines_snoc col_snoc. case_decide; eauto. }
  assert (gpos (m_input r1) ≠ 0) as Hnz by (rewrite (at_pos _ _ _ Hat) length_app /=; lia).
  destruct (Unget_last r1 r2 c _ Hgood Hnz Hrec Hu) as (Hi & Hrc & Hc).
  exists r1, r2. split_and!; try done.
  - rewrite Hi (at_pos _ _ _ Hat) (at_buf _ _ _ Hat) length_app Nat.add_1_r -app_assoc /=.
    pose proof (at_good _ _ _ H ltac:(done)) as [He Hf].
    pose proof (at_buf _ _ _ H). pose proof (at_pos _ _ _ H). pose proof (at_bad _ _ _ H).
    destruct (m_input r); cbn in *. congruence.
  - unfold Count. rewrite (at_count _ _ _ Hat) col_snoc in Hc. case_decide.
    2: { rewrite (at_count _ _ _ H). lia. }
    by rewrite (proj1 Hc) Hprev.
  - unfold LineCount. rewrite (at_line _ _ _ Hat) lines_snoc in Hc.
    rewrite (at_line _ _ _ H). repeat case_decide; (done || lia).
Qed.

Lemma Get_Unget_roundtrip_witness :
  let r := init ["010"%char; "x"%char] in
  at_ r [] ["010"%char; "x"%char]
  ∧ ∃ r1 r2, Get r = Ok ("010"%char, r1) ∧ Unget r1 = Ok (tt, r2)
    ∧ m_input r2 = m_input r ∧ Count r2 = Count r ∧ LineCount r2 = LineCount r
    ∧ StopRecord r2 = StopRecord r.
Proof.
  intros r. split; [apply init_at|].
  apply (Get_Unget_roundtrip r [] "010"%char ["x"%char]). apply init_at.
Defined.

End Reader.
