(* ===== verification/Token.v ===== *)
(** * Tokens, keywords and terminal names

    [src/errors/Error.h], [src/lexer/Token.h], [src/lexer/KeywoardMap.cpp] and
    [src/parser/RemapToken.h].  The constructors keep the enumerators' names.
    [ERROR] is an enumerator of both [TokenType] and the parser's
    [ActionType]; the latter lives in its own module. *)

From S2P Require Import Prelude.
From Stdlib Require Import Lia.

(** [enum class Error] *)
Module Error.
Inductive t :=
  | NONE
  | UNEXPECTED_CHARACTER
  | INVALID_NUMBER
  | UNCLOSED_STRING
  | EMPTY_INPUT
  | INVALID_ID
  | TERM_EXPECTED
  | PARAN_CLOSE_EXPECTED.

#[export] Instance t_eq_dec : EqDecision t.
Proof. solve_decision. Defined.
End Error.

(** [enum class TokenType] *)
Module TokenType.
Inductive t :=
  | ERROR
  | EOF_TOKEN
  | PARAN_OPEN
  | PARAN_CLOSE
  | CURLY_OPEN
  | CURLY_CLOSE
  | BRACKET_OPEN
  | BRACKET_CLOSE
  | SEMICOLON
  | COMMA
  | COLON
  | DOT
  | ELLIPSIS
  | PIPE
  | ARROW
  | OP_PLUS
  | OP_MINUS
  | OP_MUL
  | OP_DIVISION
  | OP_ASSIGNMENT
  | OP_EQUAL
  | OP_NOT_EQUAL
  | OP_LESS
  | OP_GREATER
  | OP_LESS_OR_EQUAL
  | OP_GREATER_OR_EQUAL
  | OP_AMPERSAND
  | OP_DOUBLE_AMPERSAND
  | OP_DOUBLE_PIPE
  | KW_AND
  | KW_OR
  | KW_NOT
  | KW_MOD
  | KW_DIV
  | KW_MODULE
  | KW_IMPORT
  | KW_AS
  | KW_EXPORT
  | KW_TYPE
  | KW_STRUCT
  | KW_ENUM
  | KW_INTERFACE
  | KW_IMPLEMENTS
  | KW_FN
  | KW_VAR
  | KW_CONST
  | KW_SHARED
  | KW_THREAD_LOCAL
  | KW_ACTOR
  | KW_STATE
  | KW_MSG
  | KW_QUERY
  | KW_EFFECT
  | KW_IF
  | KW_ELSE
  | KW_WHILE
  | KW_ITER
  | KW_OF
  | KW_RETURN
  | KW_UNSAFE
  | KW_TRUE
  | KW_FALSE
  | KW_NULL
  | KW_VOID
  | KW_NEVER
  | KW_INT
  | KW_FLOAT
  | KW_BOOL
  | KW_STRING
  | KW_MAP
  | KW_PTR
  | KW_REF
  | KW_REQUIRES
  | KW_ENSURES
  | KW_INVARIANT
  | KW_RAISES
  | KW_WITH
  | KW_DROP
  | KW_TAKE
  | KW_REVERSE
  | KW_FILTER
  | KW_TRANSFORM
  | KW_HANDLE
  | KW_TRANSACTION
  | KW_CONTEXT
  | KW_COMPTIME
  | KW_GO
  | KW_AWAIT
  | KW_PRINT
  | INTEGER_LITERAL
  | FLOAT_LITERAL
  | STRING_LITERAL
  | ID.

#[export] Instance t_eq_dec : EqDecision t.
Proof. solve_decision. Defined.
End TokenType.
Export (hints) Error TokenType.

(** [struct Token].  [value] is a [std::string], kept as the list of its
    characters. *)
Record Token := MkToken {
  tok_type : TokenType.t;
  value : list ascii;
  pos : nat;
  line : nat;
  error : Error.t;
}.

#[export] Instance Token_eq_dec : EqDecision Token.
Proof. solve_decision. Defined.

Abbreviation chars := String.list_ascii_of_string.

(** ** class KeywordMap *)
Module KeywordMap.
Import TokenType.

(** The assignments of the constructor, in order. *)
Definition entries : list (string * TokenType.t) := [
  ("module", KW_MODULE);
  ("import", KW_IMPORT);
  ("as", KW_AS);
  ("export", KW_EXPORT);
  ("type", KW_TYPE);
  ("struct", KW_STRUCT);
  ("enum", KW_ENUM);
  ("interface", KW_INTERFACE);
  ("implements", KW_IMPLEMENTS);
  ("fn", KW_FN);
  ("var", KW_VAR);
  ("const", KW_CONST);
  ("shared", KW_SHARED);
  ("thread_local", KW_THREAD_LOCAL);
  ("actor", KW_ACTOR);
  ("state", KW_STATE);
  ("msg", KW_MSG);
  ("query", KW_QUERY);
  ("effect", KW_EFFECT);
  ("if", KW_IF);
  ("else", KW_ELSE);
  ("while", KW_WHILE);
  ("iter", KW_ITER);
  ("of", KW_OF);
  ("return", KW_RETURN);
  ("unsafe", KW_UNSAFE);
  ("true", KW_TRUE);
  ("false", KW_FALSE);
  ("null", KW_NULL);
  ("void", KW_VOID);
  ("never", KW_NEVER);
  ("int", KW_INT);
  ("float", KW_FLOAT);
  ("bool", KW_BOOL);
  ("string", KW_STRING);
  ("map", KW_MAP);
  ("ptr", KW_PTR);
  ("ref", KW_REF);
  ("requires", KW_REQUIRES);
  ("ensures", KW_ENSURES);
  ("invariant", KW_INVARIANT);
  ("raises", KW_RAISES);
  ("with", KW_WITH);
  ("drop", KW_DROP);
  ("take", KW_TAKE);
  ("reverse", KW_REVERSE);
  ("filter", KW_FILTER);
  ("transform", KW_TRANSFORM);
  ("handle", KW_HANDLE);
  ("transaction", KW_TRANSACTION);
  ("context", KW_CONTEXT);
  ("comptime", KW_COMPTIME);
  ("go", KW_GO);
  ("await", KW_AWAIT);
  ("print", KW_PRINT);
  ("and", KW_AND);
  ("or", KW_OR);
  ("not", KW_NOT);
  ("mod", KW_MOD);
  ("div", KW_DIV)
].

(** [KeywordMap()]: each [m_map[k] = v] overwrites an earlier one. *)
Definition m_map : gmap string TokenType.t :=
  foldl (λ m kv, <[kv.1 := kv.2]> m) ∅ entries.

Definition Lookup (id : list ascii) : TokenType.t :=
  match m_map !! String.string_of_list_ascii id with
  | Some ty => ty
  | None => ID
  end.
End KeywordMap.

Module KeywordMapFacts.
Import KeywordMap.

Lemma Lookup_cases id :
  Lookup id = TokenType.ID ∨ (String.string_of_list_ascii id, Lookup id) ∈ entries.
Proof.
  unfold Lookup, m_map. case_match eqn:E; [right|by left].
  by apply foldl_insert_lookup in E as [|].
Qed.

(** A property of all keywords, by computation on the table. *)
Lemma entries_forall (P : string * TokenType.t → Prop) `{∀ kv, Decision (P kv)} kv :
  forallb (λ kv, bool_decide (P kv)) entries = true → kv ∈ entries → P kv.
Proof.
  intros Hall Hin. apply list_elem_of_In in Hin.
  rewrite forallb_forall in Hall. by apply Hall, bool_decide_eq_true in Hin.
Qed.

Lemma entry_not_special kv :
  kv ∈ entries → kv.2 ≠ TokenType.EOF_TOKEN ∧ kv.2 ≠ TokenType.ERROR ∧ kv.2 ≠ TokenType.ID.
Proof.
  apply (entries_forall (λ kv, kv.2 ≠ TokenType.EOF_TOKEN ∧ kv.2 ≠ TokenType.ERROR
    ∧ kv.2 ≠ TokenType.ID)). by vm_compute.
Qed.
End KeywordMapFacts.

(** Proofs use the table through lemmas; only [vm_compute] opens it. *)
#[global] Opaque KeywordMap.m_map.
#[global] Arguments KeywordMap.Lookup : simpl never.

(** [remapToken::RemapTokenTypeToString]: the grammar's name of a token. *)
Definition RemapTokenTypeToString (t : Token) : string :=
  match tok_type t with
  | TokenType.EOF_TOKEN => "EOF"
  | TokenType.ID => "identifier"
  | TokenType.INTEGER_LITERAL => "integer_literal"
  | TokenType.FLOAT_LITERAL => "float_literal"
  | TokenType.STRING_LITERAL => "string_literal"
  | TokenType.KW_MODULE => "module"
  | TokenType.KW_IMPORT => "import"
  | TokenType.KW_AS => "as"
  | TokenType.KW_EXPORT => "export"
  | TokenType.KW_VAR => "var"
  | TokenType.KW_CONST => "const"
  | TokenType.KW_FN => "fn"
  | TokenType.KW_TYPE => "type"
  | TokenType.KW_STRUCT => "struct"
  | TokenType.KW_ENUM => "enum"
  | TokenType.KW_INTERFACE => "interface"
  | TokenType.KW_IMPLEMENTS => "implements"
  | TokenType.KW_SHARED => "shared"
  | TokenType.KW_THREAD_LOCAL => "thread_local"
  | TokenType.KW_ACTOR => "actor"
  | TokenType.KW_STATE => "state"
  | TokenType.KW_MSG => "msg"
  | TokenType.KW_QUERY => "query"
  | TokenType.KW_EFFECT => "effect"
  | TokenType.KW_COMPTIME => "comptime"
  | TokenType.KW_GO => "go"
  | TokenType.KW_AWAIT => "await"
  | TokenType.KW_PRINT => "print"
  | TokenType.KW_IF => "if"
  | TokenType.KW_ELSE => "else"
  | TokenType.KW_WHILE => "while"
  | TokenType.KW_ITER => "iter"
  | TokenType.KW_OF => "of"
  | TokenType.KW_RETURN => "return"
  | TokenType.KW_HANDLE => "handle"
  | TokenType.KW_WITH => "with"
  | TokenType.KW_TRANSACTION => "transaction"
  | TokenType.KW_UNSAFE => "unsafe"
  | TokenType.KW_INT => "int"
  | TokenType.KW_FLOAT => "float"
  | TokenType.KW_BOOL => "bool"
  | TokenType.KW_STRING => "string"
  | TokenType.KW_MAP => "map"
  | TokenType.KW_VOID => "void"
  | TokenType.KW_NEVER => "never"
  | TokenType.KW_PTR => "ptr"
  | TokenType.KW_REF => "ref"
  | TokenType.KW_TRUE => "true"
  | TokenType.KW_FALSE => "false"
  | TokenType.KW_NULL => "null"
  | TokenType.KW_REQUIRES => "requires"
  | TokenType.KW_ENSURES => "ensures"
  | TokenType.KW_INVARIANT => "invariant"
  | TokenType.KW_RAISES => "raises"
  | TokenType.KW_DROP => "drop"
  | TokenType.KW_TAKE => "take"
  | TokenType.KW_REVERSE => "reverse"
  | TokenType.KW_FILTER => "filter"
  | TokenType.KW_TRANSFORM => "transform"
  | TokenType.SEMICOLON => ";"
  | TokenType.COLON => ":"
  | TokenType.COMMA => ","
  | TokenType.DOT => "."
  | TokenType.ELLIPSIS => "..."
  | TokenType.PIPE => "|"
  | TokenType.PARAN_OPEN => "("
  | TokenType.PARAN_CLOSE => ")"
  | TokenType.CURLY_OPEN => "{"
  | TokenType.CURLY_CLOSE => "}"
  | TokenType.BRACKET_OPEN => "["
  | TokenType.BRACKET_CLOSE => "]"
  | TokenType.ARROW => "->"
  | TokenType.OP_ASSIGNMENT => "="
  | TokenType.OP_PLUS => "+"
  | TokenType.OP_MINUS => "-"
  | TokenType.OP_MUL => "*"
  | TokenType.OP_DIVISION => "/"
  | TokenType.KW_MOD => "mod"
  | TokenType.KW_DIV => "div"
  | TokenType.OP_EQUAL => "=="
  | TokenType.OP_NOT_EQUAL => "!="
  | TokenType.OP_LESS => "<"
  | TokenType.OP_GREATER => ">"
  | TokenType.OP_LESS_OR_EQUAL => "<="
  | TokenType.OP_GREATER_OR_EQUAL => ">="
  | TokenType.OP_AMPERSAND => "&"
  | TokenType.OP_DOUBLE_AMPERSAND => "&&"
  | TokenType.OP_DOUBLE_PIPE => "||"
  | TokenType.KW_NOT => "not"
  | TokenType.KW_AND => "and"
  | TokenType.KW_OR => "or"
  | _ => String.string_of_list_ascii (value t)
  end.
