(* ===== verification/Lexer.v ===== *)
(** * The lexer

    [src/lexer/rules/*.cpp] and [src/lexer/Lexer.cpp].  Each rule is written
    over the reader's operations, loop by loop; the fuel of a loop is one more
    than the size of the input, and the theorems show it is never used up. *)

From S2P Require Import Prelude Reader Token.
From Stdlib Require Import Lia.

(** ** <cctype> in the "C" locale *)

Definition isalpha (c : ascii) : bool :=
  let n := N_of_ascii c in
  ((65 <=? n) && (n <=? 90) || (97 <=? n) && (n <=? 122))%N.
Definition isdigit (c : ascii) : bool :=
  let n := N_of_ascii c in ((48 <=? n) && (n <=? 57))%N.
Definition isalnum (c : ascii) : bool := isalpha c || isdigit c.

Definition ident_start (c : ascii) : bool := isalpha c || bool_decide (c = "_"%char).
Definition ident_char (c : ascii) : bool := isalnum c || bool_decide (c = "_"%char).

(** The fuel of the loops over the input. *)
Definition input_fuel : st Reader.t nat := λ r,
  Ok (S (length (buf (Reader.m_input r))), r).

(** [reader.Peek() == c] *)
Definition peek_is (c : ascii) : st Reader.t bool :=
  ch ← Reader.Peek; mret (bool_decide (ch = c)).

Definition peek_sat (p : ascii → bool) : st Reader.t bool :=
  ch ← Reader.Peek; mret (p ch).

(** [while (!EndOfFile() && p(Peek())) value += Get();] and the equivalent
    loop with a [break]. *)
Fixpoint read_while (p : ascii → bool) (n : nat) (value : list ascii)
    : st Reader.t (list ascii) :=
  match n with
  | 0 => st_diverge
  | S n =>
      more ← !!! Reader.EndOfFile &&! peek_sat p;
      if (more : bool) then
        ch ← Reader.Get;
        read_while p n (value ++ [ch])
      else mret value
  end.

(** ** whitespaceRule *)
Module whitespaceRule.

Fixpoint line_comment (n : nat) : st Reader.t unit :=
  match n with
  | 0 => st_diverge
  | S n =>
      eof ← Reader.EndOfFile;
      if (eof : bool) then mret tt else
      c ← Reader.Get;
      if decide (c = Reader.newline) then mret tt else line_comment n
  end.

Fixpoint block_comment (n : nat) : st Reader.t unit :=
  match n with
  | 0 => st_diverge
  | S n =>
      eof ← Reader.EndOfFile;
      if (eof : bool) then mret tt else
      c ← Reader.Get;
      closed ← mret (bool_decide (c = "*"%char))
                 &&! (!!! Reader.EndOfFile) &&! peek_is "/"%char;
      if (closed : bool) then _ ← Reader.Get; mret tt
      else block_comment n
  end.

Fixpoint skip_loop (n : nat) : st Reader.t unit :=
  match n with
  | 0 => st_diverge
  | S n' =>
      eof ← Reader.EndOfFile;
      if (eof : bool) then mret tt else
      ch ← Reader.Peek;
      if decide (ch = " "%char ∨ ch = "009"%char ∨ ch = "013"%char) then
        _ ← Reader.Get; skip_loop n'
      else if decide (ch = Reader.newline) then
        _ ← Reader.Get; skip_loop n'
      else if decide (ch = "/"%char) then
        _ ← Reader.Get;
        eof ← Reader.EndOfFile;
        if (eof : bool) then Reader.Unget else
        next ← Reader.Peek;
        if decide (next = "/"%char) then
          _ ← Reader.Get; _ ← line_comment n; skip_loop n'
        else if decide (next = "*"%char) then
          _ ← Reader.Get; _ ← block_comment n; skip_loop n'
        else Reader.Unget
      else mret tt
  end.

Definition SkipWhitespacesAndComments : st Reader.t unit :=
  n ← input_fuel; skip_loop n.
End whitespaceRule.

(** ** identifierRule *)
Module identifierRule.

(** [value.find("::") != npos] *)
Fixpoint contains_scope (l : list ascii) : bool :=
  match l with
  | a :: (b :: _) as l' =>
      bool_decide (a = ":"%char ∧ b = ":"%char) || contains_scope l'
  | _ => false
  end.

Fixpoint scope_loop (n : nat) (value : list ascii) : st Reader.t (list ascii) :=
  match n with
  | 0 => st_diverge
  | S n' =>
      colon ← !!! Reader.EndOfFile &&! peek_is ":"%char;
      if (colon : bool) then
        _ ← Reader.Get;
        single ← Reader.EndOfFile ||! !!! (peek_is ":"%char);
        if (single : bool) then _ ← Reader.Unget; mret value else
        _ ← Reader.Get;
        let value := value ++ chars "::" in
        eof ← Reader.EndOfFile;
        if (eof : bool) then mret value else
        next ← Reader.Peek;
        if negb (isalpha next) && bool_decide (next ≠ "_"%char) then mret value else
        ch ← Reader.Get;
        value ← read_while ident_char n (value ++ [ch]);
        scope_loop n' value
      else mret value
  end.

Definition ParseIdentifier (pos line : nat) : st Reader.t Token :=
  first ← Reader.Peek;
  if negb (isalpha first) && bool_decide (first ≠ "_"%char)
  then mret (MkToken TokenType.ERROR [] pos line Error.UNEXPECTED_CHARACTER) else
  n ← input_fuel;
  ch ← Reader.Get;
  value ← read_while ident_char n [ch];
  value ← scope_loop n value;
  if negb (contains_scope value) then
    let kwType := KeywordMap.Lookup value in
    if decide (kwType ≠ TokenType.ID)
    then mret (MkToken kwType value pos line Error.NONE)
    else mret (MkToken TokenType.ID value pos line Error.NONE)
  else mret (MkToken TokenType.ID value pos line Error.NONE).
End identifierRule.

(** ** numberRule *)
Module numberRule.

Definition ParseNumber (pos line : nat) : st Reader.t Token :=
  n ← input_fuel;
  value ← read_while isdigit n [];
  dot ← !!! Reader.EndOfFile &&! peek_is "."%char;
  if (dot : bool) then
    _ ← Reader.Get;
    decimal ← !!! Reader.EndOfFile &&! peek_sat isdigit;
    if (decimal : bool) then
      value ← read_while isdigit n (value ++ ["."%char]);
      mret (MkToken TokenType.FLOAT_LITERAL value pos line Error.NONE)
    else
      _ ← Reader.Unget;
      mret (MkToken TokenType.INTEGER_LITERAL value pos line Error.NONE)
  else mret (MkToken TokenType.INTEGER_LITERAL value pos line Error.NONE).
End numberRule.

(** ** stringRule *)
Module stringRule.

Definition quote : ascii := "034"%char.
Definition backslash : ascii := "092"%char.

Fixpoint string_loop (n : nat) (pos line : nat) (value : list ascii) : st Reader.t Token :=
  match n with
  | 0 => st_diverge
  | S n =>
      eof ← Reader.EndOfFile;
      if (eof : bool)
      then mret (MkToken TokenType.ERROR value pos line Error.UNCLOSED_STRING) else
      ch ← Reader.Get;
      let value := value ++ [ch] in
      if decide (ch = backslash) then
        eof ← Reader.EndOfFile;
        if negb eof then
          ch ← Reader.Get; string_loop n pos line (value ++ [ch])
        else string_loop n pos line value
      else if decide (ch = quote)
      then mret (MkToken TokenType.STRING_LITERAL value pos line Error.NONE)
      else if decide (ch = Reader.newline)
      then mret (MkToken TokenType.ERROR value pos line Error.UNCLOSED_STRING)
      else string_loop n pos line value
  end.

Definition ParseString (pos line : nat) : st Reader.t Token :=
  n ← input_fuel;
  ch ← Reader.Get;
  string_loop n pos line [ch].
End stringRule.

(** ** operatorRule *)
Module operatorRule.
Import TokenType.

(** The two-character operators, tried in this order. *)
Definition double_ops : list (string * TokenType.t) := [
  ("==", OP_EQUAL);
  ("!=", OP_NOT_EQUAL);
  ("<=", OP_LESS_OR_EQUAL);
  (">=", OP_GREATER_OR_EQUAL);
  ("->", ARROW);
  ("&&", OP_DOUBLE_AMPERSAND);
  ("||", OP_DOUBLE_PIPE)
].

(** The [switch] on a single character; the remaining cases are errors. *)
Definition single_ops : list (string * TokenType.t) := [
  ("(", PARAN_OPEN);
  (")", PARAN_CLOSE);
  ("{", CURLY_OPEN);
  ("}", CURLY_CLOSE);
  ("[", BRACKET_OPEN);
  ("]", BRACKET_CLOSE);
  (";", SEMICOLON);
  (",", COMMA);
  (":", COLON);
  (".", DOT);
  ("|", PIPE);
  ("+", OP_PLUS);
  ("-", OP_MINUS);
  ("*", OP_MUL);
  ("/", OP_DIVISION);
  ("=", OP_ASSIGNMENT);
  ("<", OP_LESS);
  (">", OP_GREATER);
  ("&", OP_AMPERSAND)
].

Fixpoint find_op (text : list ascii) (ops : list (string * TokenType.t)) : option TokenType.t :=
  match ops with
  | [] => None
  | (s, ty) :: ops => if decide (text = chars s) then Some ty else find_op text ops
  end.

Definition single (ch : ascii) (pos line : nat) : Token :=
  match find_op [ch] single_ops with
  | Some ty => MkToken ty [ch] pos line Error.NONE
  | None => MkToken ERROR [ch] pos line Error.UNEXPECTED_CHARACTER
  end.

Definition ParseOperator (pos line : nat) : st Reader.t Token :=
  ch ← Reader.Get;
  eof ← Reader.EndOfFile;
  if negb eof then
    next ← Reader.Peek;
    if decide (ch = "."%char ∧ next = "."%char) then
      _ ← Reader.Get;
      third ← !!! Reader.EndOfFile &&! peek_is "."%char;
      if (third : bool) then
        _ ← Reader.Get;
        mret (MkToken ELLIPSIS (chars "...") pos line Error.NONE)
      else mret (MkToken ERROR (chars "..") pos line Error.UNEXPECTED_CHARACTER)
    else
      match find_op [ch; next] double_ops with
      | Some ty =>
          _ ← Reader.Get;
          mret (MkToken ty [ch; next] pos line Error.NONE)
      | None => mret (single ch pos line)
      end
  else mret (single ch pos line).
End operatorRule.

(** ** class Lexer *)
Module Lexer.

(** [m_reader] is the whole state: the keyword map is a constant. *)
Definition init (input : list ascii) : Reader.t := Reader.init input.

Definition SkipWhitespaces : st Reader.t unit :=
  whitespaceRule.SkipWhitespacesAndComments.

(** [m_reader.Count()] and [m_reader.LineCount()]. *)
Definition Count : st Reader.t nat := λ r, Ok (Reader.Count r, r).
Definition LineCount : st Reader.t nat := λ r, Ok (Reader.LineCount r, r).

Definition with_position (rule : nat → nat → st Reader.t Token) : st Reader.t Token :=
  pos ← Count; line ← LineCount; rule pos line.

Definition Id : st Reader.t Token := with_position identifierRule.ParseIdentifier.
Definition Number : st Reader.t Token := with_position numberRule.ParseNumber.
Definition String_ : st Reader.t Token := with_position stringRule.ParseString.
Definition SpecialChar : st Reader.t Token := with_position operatorRule.ParseOperator.

Definition Get : st Reader.t Token :=
  _ ← SkipWhitespaces;
  eof ← Reader.EndOfFile;
  if (eof : bool) then
    with_position (λ pos line, mret (MkToken TokenType.EOF_TOKEN [] pos line Error.NONE))
  else
    ch ← Reader.Peek;
    if isalpha ch || bool_decide (ch = "_"%char) then Id
    else if isdigit ch then Number
    else if decide (ch = stringRule.quote) then String_
    else SpecialChar.

Definition Empty : st Reader.t bool := _ ← SkipWhitespaces; Reader.EndOfFile.

Definition Peek : st Reader.t Token :=
  empty ← Empty;
  if (empty : bool) then
    with_position (λ pos line, mret (MkToken TokenType.ERROR [] pos line Error.EMPTY_INPUT))
  else
    pos ← Count;
    token ← Get;
    _ ← Reader.Seek pos;
    mret token.

(** The token sequence a client obtains by calling [Get] until the end of
    file, as the parser does; [n] bounds the number of calls. *)
Fixpoint tokens (n : nat) : st Reader.t (list Token) :=
  match n with
  | 0 => st_diverge
  | S n =>
      t ← Get;
      if decide (tok_type t = TokenType.EOF_TOKEN) then mret [t]
      else ts ← tokens n; mret (t :: ts)
  end.

Definition tokenize (input : list ascii) : result (list Token) :=
  fst <$> tokens (S (length input)) (init input).
End Lexer.
