(* ===== verification/LexerSpec.v ===== *)
(** * Specification of the lexer and its correctness

    An inductive description of what is skipped between tokens ([skips]) and
    of the text of one token ([lexeme]), and the proofs that the rules of
    [Lexer] read exactly that, from any position of the input. *)

From S2P Require Import Prelude Reader Token Lexer.
From Stdlib Require Import Lia.

(** ** Specification *)

Definition head_not (p : ascii → bool) (l : list ascii) : Prop :=
  match l with c :: _ => p c = false | [] => True end.

Definition is_space (c : ascii) : Prop :=
  c = " "%char ∨ c = "009"%char ∨ c = "013"%char ∨ c = Reader.newline.

Definition starts_trivia (l : list ascii) : Prop :=
  match l with
  | [] => False
  | c :: l => is_space c
      ∨ c = "/"%char ∧ (head l = Some "/"%char ∨ head l = Some "*"%char)
  end.

(** Does the text hold the end of a block comment? *)
Fixpoint has_close (l : list ascii) : bool :=
  match l with
  | [] => false
  | c :: l => (bool_decide (c = "*"%char) && bool_decide (head l = Some "/"%char))
              || has_close l
  end.

(** [skips t rest]: [t], followed by [rest], is what separates two tokens:
    white space, line comments and block comments, as much as there is. *)
Inductive skips : list ascii → list ascii → Prop :=
  | skips_stop rest :
      ¬ starts_trivia rest → skips [] rest
  | skips_space c t rest :
      is_space c → skips t rest → skips (c :: t) rest
  | skips_line body t rest :
      Reader.newline ∉ body → skips t rest →
      skips (chars "//" ++ body ++ Reader.newline :: t) rest
  | skips_line_eof body :
      Reader.newline ∉ body → skips (chars "//" ++ body) []
  | skips_block body t rest :
      has_close (body ++ ["*"%char]) = false → skips t rest →
      skips (chars "/*" ++ body ++ chars "*/" ++ t) rest
  | skips_block_eof body :
      has_close body = false → skips (chars "/*" ++ body) [].

(** The [::]-separated tail of a qualified identifier. *)
Inductive scope_tail : list ascii → list ascii → Prop :=
  | scope_stop rest :
      ¬ chars "::" `prefix_of` rest → scope_tail [] rest
  | scope_dangling rest :
      head_not ident_start rest → scope_tail (chars "::") rest
  | scope_segment c t s rest :
      ident_start c = true → Forall (λ c, ident_char c = true) t →
      head_not ident_char (s ++ rest) → scope_tail s rest →
      scope_tail (chars "::" ++ c :: t ++ s) rest.

Inductive string_body : list ascii → Prop :=
  | body_nil : string_body []
  | body_plain c b :
      c ≠ stringRule.backslash → c ≠ stringRule.quote → c ≠ Reader.newline →
      string_body b → string_body (c :: b)
  | body_escape c b :
      string_body b → string_body (stringRule.backslash :: c :: b).

Definition ident_type (v : list ascii) : TokenType.t :=
  if identifierRule.contains_scope v then TokenType.ID else KeywordMap.Lookup v.

(** [lexeme text ty err rest]: before [rest], the longest token is [text],
    of type [ty]. *)
Inductive lexeme : list ascii → TokenType.t → Error.t → list ascii → Prop :=
  | lex_ident c t s rest :
      ident_start c = true → Forall (λ c, ident_char c = true) t →
      head_not ident_char (s ++ rest) → scope_tail s rest →
      lexeme (c :: t ++ s) (ident_type (c :: t ++ s)) Error.NONE rest
  | lex_int d rest :
      d ≠ [] → Forall (λ c, isdigit c = true) d → head_not isdigit rest →
      (head rest = Some "."%char → head_not isdigit (tail rest)) →
      lexeme d TokenType.INTEGER_LITERAL Error.NONE rest
  | lex_float d1 d2 rest :
      d1 ≠ [] → d2 ≠ [] →
      Forall (λ c, isdigit c = true) d1 → Forall (λ c, isdigit c = true) d2 →
      head_not isdigit rest →
      lexeme (d1 ++ "."%char :: d2) TokenType.FLOAT_LITERAL Error.NONE rest
  | lex_string b rest :
      string_body b →
      lexeme (stringRule.quote :: b ++ [stringRule.quote])
        TokenType.STRING_LITERAL Error.NONE rest
  | lex_string_newline b rest :
      string_body b →
      lexeme (stringRule.quote :: b ++ [Reader.newline])
        TokenType.ERROR Error.UNCLOSED_STRING rest
  | lex_string_eof b e :
      string_body b → e = [] ∨ e = [stringRule.backslash] →
      lexeme (stringRule.quote :: b ++ e) TokenType.ERROR Error.UNCLOSED_STRING []
  | lex_ellipsis rest :
      lexeme (chars "...") TokenType.ELLIPSIS Error.NONE rest
  | lex_dotdot rest :
      head rest ≠ Some "."%char →
      lexeme (chars "..") TokenType.ERROR Error.UNEXPECTED_CHARACTER rest
  | lex_double s ty rest :
      (s, ty) ∈ operatorRule.double_ops → lexeme (chars s) ty Error.NONE rest
  | lex_single s ty rest :
      (s, ty) ∈ operatorRule.single_ops →
      (∀ s' ty', (s', ty') ∈ operatorRule.double_ops →
                 ¬ chars s' `prefix_of` chars s ++ rest) →
      ¬ (s = "." ∧ head rest = Some "."%char) →
      lexeme (chars s) ty Error.NONE rest
  | lex_unexpected c rest :
      (∀ s ty, (s, ty) ∈ operatorRule.single_ops → chars s ≠ [c]) →
      (∀ s' ty', (s', ty') ∈ operatorRule.double_ops →
                 ¬ chars s' `prefix_of` c :: rest) →
      ident_start c = false → isdigit c = false → c ≠ stringRule.quote →
      lexeme [c] TokenType.ERROR Error.UNEXPECTED_CHARACTER rest.

(** One call of [Lexer::Get] on the input [rest] found after [pre]: [t] is
    skipped, [tok] is returned and [rest'] remains. *)
Record got (pre rest t : list ascii) (tok : Token) (rest' : list ascii) : Prop := {
  got_split : rest = t ++ value tok ++ rest';
  got_skips : skips t (value tok ++ rest');
  got_pos : pos tok = Reader.col (pre ++ t);
  got_line : line tok = Reader.lines (pre ++ t);
  got_token :
    if decide (tok_type tok = TokenType.EOF_TOKEN)
    then value tok = [] ∧ rest' = [] ∧ error tok = Error.NONE
    else value tok ≠ [] ∧ lexeme (value tok) (tok_type tok) (error tok) rest';
}.

(** ** The reader's operations along the input *)

Import Reader (at_, can_unget).

Lemma EndOfFile_spec r pre rest :
  at_ r pre rest →
  ∃ r', Reader.EndOfFile r = Ok (bool_decide (rest = []), r') ∧ at_ r' pre rest
    ∧ (stream_good (Reader.m_input r) = true → can_unget r → can_unget r')
    ∧ (rest ≠ [] → r' = r).
Proof.
  intros H. destruct rest as [|c rest].
  - destruct (Reader.EndOfFile_nil _ _ H) as (r' & ? & ? & ?). by exists r'.
  - exists r. rewrite (Reader.EndOfFile_cons _ _ _ _ H). by split_and!.
Qed.

Lemma peek_sat_cons p r pre c rest :
  at_ r pre (c :: rest) → peek_sat p r = Ok (p c, r).
Proof. intros H. unfold peek_sat. by run_with (Reader.Peek_cons _ _ _ _ H). Qed.

Definition head_sat (p : ascii → bool) (l : list ascii) : bool :=
  match l with c :: _ => p c | [] => false end.

(** [!EndOfFile() && p(Peek())] *)
Lemma more_spec p r pre rest :
  at_ r pre rest →
  ∃ r', (!!! Reader.EndOfFile &&! peek_sat p) r = Ok (head_sat p rest, r')
    ∧ at_ r' pre rest
    ∧ (stream_good (Reader.m_input r) = true → can_unget r → can_unget r').
Proof.
  intros H. destruct rest as [|c rest].
  - destruct (Reader.EndOfFile_nil _ _ H) as (r' & He & ? & ?). exists r'.
    split; [|done]. rewrite (st_andb_false _ _ r r'); [done|].
    by rewrite (st_notb_run _ _ _ _ He).
  - exists r. split; [|done]. rewrite (st_andb_true _ _ r r).
    + apply (peek_sat_cons _ _ _ _ _ H).
    + by rewrite (st_notb_run _ _ _ _ (Reader.EndOfFile_cons _ _ _ _ H)).
Qed.

Lemma input_fuel_spec r pre rest :
  at_ r pre rest → input_fuel r = Ok (S (length (pre ++ rest)), r).
Proof. intros H. unfold input_fuel. by rewrite (Reader.at_buf _ _ _ H). Qed.

Lemma read_while_spec p n v r pre rest :
  at_ r pre rest → length rest < n →
  ∃ r', read_while p n v r = Ok (v ++ takeWhile p rest, r')
    ∧ at_ r' (pre ++ takeWhile p rest) (dropWhile p rest).
Proof.
  revert v r pre rest. induction n as [|n IH]; intros v r pre rest H Hn; [lia|].
  cbn [read_while]. destruct (more_spec p _ _ _ H) as (r1 & Hm & H1 & _). run_with Hm.
  destruct rest as [|c rest]; cbn [head_sat takeWhile dropWhile].
  { exists r1. by rewrite !app_nil_r. }
  destruct (p c) eqn:Hc.
  - destruct (Reader.Get_cons _ _ _ _ H1) as (r2 & Hg & H2 & _). run_with Hg.
    destruct (IH (v ++ [c]) _ _ _ H2 ltac:(cbn in *; lia)) as (r' & Hr & H').
    exists r'. by rewrite Hr -!app_assoc /= in H' |- *.
  - exists r1. by rewrite !app_nil_r.
Qed.

(** ** Trivia *)

Lemma line_comment_spec n r pre rest :
  at_ r pre rest → length rest < n →
  ∃ body rest' r', whitespaceRule.line_comment n r = Ok (tt, r')
    ∧ rest = body ++ rest' ∧ at_ r' (pre ++ body) rest'
    ∧ ((∃ b, body = b ++ [Reader.newline] ∧ Reader.newline ∉ b)
       ∨ rest' = [] ∧ Reader.newline ∉ body).
Proof.
  revert r pre rest. induction n as [|n IH]; intros r pre rest H Hn; [lia|].
  cbn [whitespaceRule.line_comment].
  destruct (EndOfFile_spec _ _ _ H) as (r1 & He & H1 & _). run_with He.
  destruct rest as [|c rest].
  { exists [], [], r1. rewrite !app_nil_r. split_and!; try done. right; set_solver. }
  rewrite bool_decide_false //. cbn iota.
  destruct (Reader.Get_cons _ _ _ _ H1) as (r2 & Hg & H2 & _). run_with Hg.
  destruct (decide (c = Reader.newline)) as [->|Hc].
  { exists [Reader.newline], rest, r2. split_and!; try done. left. exists []. set_solver. }
  destruct (IH _ _ _ H2 ltac:(cbn in *; lia)) as (body & rest' & r' & Hr & -> & H' & Hb).
  exists (c :: body), rest', r'. rewrite -app_assoc in H'. split_and!; try done.
  destruct Hb as [(b & -> & Hb)|[-> Hb]]; [left; exists (c :: b)|right]; set_solver.
Qed.

Lemma block_comment_spec n r pre rest :
  at_ r pre rest → length rest < n →
  ∃ body rest' r', whitespaceRule.block_comment n r = Ok (tt, r')
    ∧ rest = body ++ rest' ∧ at_ r' (pre ++ body) rest'
    ∧ ((∃ b, body = b ++ chars "*/" ∧ has_close (b ++ ["*"%char]) = false)
       ∨ rest' = [] ∧ has_close body = false).
Proof.
  revert r pre rest. induction n as [|n IH]; intros r pre rest H Hn; [lia|].
  cbn [whitespaceRule.block_comment]. destruct rest as [|c rest].
  { destruct (Reader.EndOfFile_nil _ _ H) as (r1 & He & H1 & _). run_with He.
    exists [], [], r1. rewrite !app_nil_r. split_and!; try done. by right. }
  run_with (Reader.EndOfFile_cons _ _ _ _ H). rename r into r1, H into H1.
  destruct (Reader.Get_cons _ _ _ _ H1) as (r2 & Hg & H2 & _). run_with Hg.
  destruct (more_spec (λ ch, bool_decide (ch = "/"%char)) _ _ _ H2) as (r3 & Hm & H3 & _).
  assert (∃ r4, (mret (bool_decide (c = "*"%char))
      &&! (!!! Reader.EndOfFile) &&! peek_is "/"%char) r2
    = Ok (bool_decide (c = "*"%char) && head_sat (λ ch, bool_decide (ch = "/"%char)) rest, r4)
    ∧ at_ r4 (pre ++ [c]) rest) as (r4 & Hcl & H4).
  { rewrite st_andb_assoc. case_bool_decide; cbn [andb].
    - exists r3. split; [|done]. by rewrite (st_andb_true _ _ r2 r2).
    - exists r2. split; [|done]. by rewrite (st_andb_false _ _ r2 r2). }
  run_with Hcl.
  destruct (bool_decide (c = "*"%char)) eqn:Hc; [apply bool_decide_eq_true in Hc as ->|].
  2: apply bool_decide_eq_false in Hc.
  all: cbn [andb].
  - destruct rest as [|c' rest]; cbn [head_sat].
    { destruct (IH _ _ _ H4 ltac:(cbn in *; lia)) as (body & rest' & r' & Hr & Heq & H' & _).
      symmetry in Heq. apply app_nil in Heq as [-> ->].
      exists ["*"%char], [], r'. rewrite !app_nil_r in H'. split_and!; try done. by right. }
    case_bool_decide as Hc'.
    { subst c'. destruct (Reader.Get_cons _ _ _ _ H4) as (r5 & Hg5 & H5 & _). run_with Hg5.
      exists (chars "*/"), rest, r5. rewrite -app_assoc in H5. split_and!; try done.
      left. by exists []. }
    destruct (IH _ _ _ H4 ltac:(cbn in *; lia)) as (body & rest' & r' & Hr & Heq & H' & Hb).
    exists ("*"%char :: body), rest', r'. rewrite -app_assoc in H'.
    split_and!; [done|by rewrite Heq|done|].
    destruct Hb as [(b & -> & Hb)|[-> Hb]]; [left; exists ("*"%char :: b)|right];
      (split; [done|]); cbn [has_close app]; rewrite Hb orb_false_r.
    + destruct b as [|b0 b]; [done|]. cbn in Heq |- *.
      rewrite (bool_decide_false (Some b0 = Some "/"%char)); [done|naive_solver].
    + destruct body as [|b0 b]; [done|]. cbn in Heq |- *.
      rewrite (bool_decide_false (Some b0 = Some "/"%char)); [done|naive_solver].
  - destruct (IH _ _ _ H4 ltac:(cbn in *; lia)) as (body & rest' & r' & Hr & -> & H' & Hb).
    exists (c :: body), rest', r'. rewrite -app_assoc in H'. split_and!; try done.
    destruct Hb as [(b & -> & Hb)|[-> Hb]]; [left; exists (c :: b)|right];
      (split; [done|]); cbn [has_close app]; by rewrite Hb bool_decide_false.
Qed.

(** A [/] that starts no comment is given back. *)
Lemma unget_slash r r' pre rest :
  at_ r (pre ++ ["/"%char]) rest → can_unget r →
  Reader.Unget r = Ok (tt, r') → at_ r' pre ("/"%char :: rest).
Proof.
  intros H Hc Hu. destruct (Reader.Unget_snoc _ _ _ _ H Hc ltac:(done)) as (r2 & Hu2 & ?).
  rewrite Hu in Hu2. by simplify_eq.
Qed.

Lemma is_space_char c :
  ¬ is_space c ↔ ¬ (c = " "%char ∨ c = "009"%char ∨ c = "013"%char) ∧ c ≠ Reader.newline.
Proof. unfold is_space. tauto. Qed.

Lemma skips_line_ext b t rest : Reader.newline ∉ b → skips t rest →
  skips ("/"%char :: "/"%char :: (b ++ [Reader.newline]) ++ t) rest.
Proof. intros. rewrite -app_assoc. by apply (skips_line b). Qed.

Lemma skips_block_ext b t rest : has_close (b ++ ["*"%char]) = false → skips t rest →
  skips ("/"%char :: "*"%char :: (b ++ chars "*/") ++ t) rest.
Proof. intros. rewrite -app_assoc. by apply (skips_block b). Qed.

Lemma skip_loop_spec n r pre rest :
  at_ r pre rest → length rest < n →
  ∃ t rest' r', whitespaceRule.skip_loop n r = Ok (tt, r')
    ∧ rest = t ++ rest' ∧ at_ r' (pre ++ t) rest' ∧ skips t rest'.
Proof.
  revert r pre rest. induction n as [|n IH]; intros r pre rest H Hn; [lia|].
  cbn [whitespaceRule.skip_loop]. destruct rest as [|c rest].
  { destruct (Reader.EndOfFile_nil _ _ H) as (r1 & He & H1 & _). run_with He.
    exists [], [], r1. rewrite !app_nil_r. split_and!; try done. apply skips_stop; cbn; tauto. }
  run_with (Reader.EndOfFile_cons _ _ _ _ H). run_with (Reader.Peek_cons _ _ _ _ H).
  destruct (Reader.Get_cons _ _ _ _ H) as (r1 & Hg & H1 & Hcu & Hgood & _).
  assert (∀ (Hs : is_space c), ∃ t rest' r',
    (_ ← Reader.Get; whitespaceRule.skip_loop n) r = Ok (tt, r')
    ∧ c :: rest = t ++ rest' ∧ at_ r' (pre ++ t) rest' ∧ skips t rest') as Hspace.
  { intros Hs. destruct (IH _ _ _ H1 ltac:(cbn in *; lia)) as (t & rest' & r' & Hr & -> & H' & Ht).
    exists (c :: t), rest', r'. rewrite -app_assoc in H'.
    split_and!; try done; [by run_with Hg|by constructor]. }
  destruct (decide _) as [Hs|Hs1]; [apply Hspace; unfold is_space; tauto|].
  destruct (decide _) as [Hs|Hs2]; [apply Hspace; unfold is_space; tauto|].
  clear Hspace. assert (¬ is_space c) as Hs by (unfold is_space; tauto).
  destruct (decide (c = "/"%char)) as [->|Hc].
  2: { exists [], (c :: rest), r. rewrite app_nil_r. split_and!; try done.
       apply skips_stop. cbn. tauto. }
  run_with Hg.
  assert (∀ r2, at_ r2 (pre ++ ["/"%char]) rest → can_unget r2 →
    head rest ≠ Some "/"%char → head rest ≠ Some "*"%char →
    ∃ t rest' r', Reader.Unget r2 = Ok (tt, r')
      ∧ "/"%char :: rest = t ++ rest' ∧ at_ r' (pre ++ t) rest' ∧ skips t rest') as Hback.
  { intros r2 H2 Hcu2 Hn1 Hn2.
    destruct (Reader.Unget_snoc _ _ _ _ H2 Hcu2 ltac:(done)) as (r' & Hu & H').
    exists [], ("/"%char :: rest), r'. rewrite app_nil_r. split_and!; try done.
    apply skips_stop. cbn. tauto. }
  destruct rest as [|c rest].
  { destruct (Reader.EndOfFile_nil _ _ H1) as (r2 & He & H2 & Hcu2). run_with He. by auto. }
  run_with (Reader.EndOfFile_cons _ _ _ _ H1). run_with (Reader.Peek_cons _ _ _ _ H1).
  destruct (Reader.Get_cons _ _ _ _ H1) as (r2 & Hg2 & H2 & _).
  destruct (decide (c = "/"%char)) as [->|Hc1]; [|destruct (decide (c = "*"%char)) as [->|Hc2]].
  - run_with Hg2. destruct (line_comment_spec (S n) _ _ _ H2 ltac:(cbn in *; lia))
      as (body & rest1 & r3 & Hl & -> & H3 & Hb). run_with Hl.
    destruct (IH _ _ _ H3 ltac:(rewrite /= length_app in Hn; lia))
      as (t & rest' & r' & Hr & -> & H' & Ht).
    exists (chars "//" ++ body ++ t), rest', r'. rewrite -!app_assoc /= in H' |- *.
    split_and!; try done. destruct Hb as [(b & -> & Hb)|[Hnil Hb]].
    + by apply skips_line_ext.
    + apply app_nil in Hnil as [-> ->]. rewrite app_nil_r. by apply skips_line_eof.
  - run_with Hg2. destruct (block_comment_spec (S n) _ _ _ H2 ltac:(cbn in *; lia))
      as (body & rest1 & r3 & Hl & -> & H3 & Hb). run_with Hl.
    destruct (IH _ _ _ H3 ltac:(rewrite /= length_app in Hn; lia))
      as (t & rest' & r' & Hr & -> & H' & Ht).
    exists (chars "/*" ++ body ++ t), rest', r'. rewrite -!app_assoc /= in H' |- *.
    split_and!; try done. destruct Hb as [(b & -> & Hb)|[Hnil Hb]].
    + by apply skips_block_ext.
    + apply app_nil in Hnil as [-> ->]. rewrite app_nil_r. by apply skips_block_eof.
  - apply (Hback r1); cbn; congruence || done.
Qed.

Lemma skip_spec r pre rest :
  at_ r pre rest →
  ∃ t rest' r', Lexer.SkipWhitespaces r = Ok (tt, r')
    ∧ rest = t ++ rest' ∧ at_ r' (pre ++ t) rest' ∧ skips t rest'.
Proof.
  intros H. unfold Lexer.SkipWhitespaces, whitespaceRule.SkipWhitespacesAndComments.
  run_with (input_fuel_spec _ _ _ H). apply skip_loop_spec; [done|].
  rewrite length_app. lia.
Qed.

(** ** Numbers and strings *)

(** What a rule does from [rest]: it reads one lexeme, of type [ty] and with
    error [err], and labels it with the position it was given. *)
Definition reads (rule : nat → nat → st Reader.t Token) (r : Reader.t)
    (pre rest : list ascii) : Prop :=
  ∀ pos line, ∃ v ty err rest' r',
    rule pos line r = Ok (MkToken ty v pos line err, r')
    ∧ rest = v ++ rest' ∧ at_ r' (pre ++ v) rest'
    ∧ v ≠ [] ∧ ty ≠ TokenType.EOF_TOKEN ∧ lexeme v ty err rest'.

Lemma head_not_dropWhile p l : head_not p (dropWhile p l).
Proof. destruct (dropWhile p l) eqn:E; [done|]. by eapply dropWhile_head. Qed.

Lemma head_sat_false p l : head_sat p l = false ↔ head_not p l.
Proof. by destruct l. Qed.

Lemma read_while_split p n v r pre rest :
  at_ r pre rest → length rest < n →
  ∃ a rest' r', read_while p n v r = Ok (v ++ a, r') ∧ rest = a ++ rest'
    ∧ at_ r' (pre ++ a) rest' ∧ Forall (λ c, p c = true) a ∧ head_not p rest'
    ∧ (head_sat p rest = true → a ≠ []).
Proof.
  intros H Hn. destruct (read_while_spec p n v r pre rest H Hn) as (r' & Hr & H').
  exists (takeWhile p rest), (dropWhile p rest), r'. split_and!; try done.
  - by rewrite takeWhile_dropWhile.
  - apply takeWhile_Forall.
  - apply head_not_dropWhile.
  - destruct rest; cbn; [done|]. by intros ->.
Qed.

Lemma ParseNumber_reads r pre c rest :
  at_ r pre (c :: rest) → isdigit c = true →
  reads numberRule.ParseNumber r pre (c :: rest).
Proof.
  intros H Hc pos line. unfold numberRule.ParseNumber.
  run_with (input_fuel_spec _ _ _ H). set (n := S _).
  assert (length (c :: rest) < n) as Hn by (unfold n; rewrite length_app; cbn; lia).
  destruct (read_while_split isdigit n [] _ _ _ H Hn)
    as (d & rest1 & r1 & Hr & Hd & H1 & Hall & Hstop & Hne).
  specialize (Hne Hc). rewrite Hd in Hn |- *. clear Hd Hc. run_with Hr.
  destruct (more_spec (λ ch, bool_decide (ch = "."%char)) _ _ _ H1) as (r2 & Hm & H2 & _).
  run_with Hm.
  assert (∀ r', at_ r' (pre ++ d) rest1 →
    (head rest1 = Some "."%char → head_not isdigit (tail rest1)) →
    ∃ v ty err rest' r'',
      Ok (MkToken TokenType.INTEGER_LITERAL d pos line Error.NONE, r')
        = Ok (MkToken ty v pos line err, r'')
      ∧ d ++ rest1 = v ++ rest' ∧ at_ r'' (pre ++ v) rest'
      ∧ v ≠ [] ∧ ty ≠ TokenType.EOF_TOKEN ∧ lexeme v ty err rest') as Hint.
  { intros r' Hr' Hdot. eexists d, _, _, rest1, r'. split_and!; try done. by constructor. }
  destruct rest1 as [|c1 rest1]; cbn [head_sat].
  { by apply Hint. }
  case_bool_decide as Hc1; [subst c1|].
  2: { apply Hint; [done|]. cbn. congruence. }
  destruct (Reader.Get_cons _ _ _ _ H2) as (r3 & Hg & H3 & Hcu & Hgood & _). run_with Hg.
  destruct (more_spec isdigit _ _ _ H3) as (r4 & Hm4 & H4 & Hcu4). run_with Hm4.
  destruct (head_sat isdigit rest1) eqn:Hdig.
  - destruct (read_while_split isdigit n (d ++ ["."%char]) _ _ _ H4
      ltac:(rewrite length_app in Hn; cbn in *; lia))
      as (d2 & rest' & r' & Hr' & -> & H' & Hall2 & Hstop2 & Hne2).
    run_with Hr'. eexists (d ++ "."%char :: d2), _, _, rest', r'.
    rewrite -!app_assoc in H' |- *. split_and!; try done; [by destruct d|].
    by constructor; auto.
  - apply head_sat_false in Hdig. specialize (Hcu4 Hgood Hcu).
    destruct (Reader.Unget_snoc _ _ _ _ H4 Hcu4 ltac:(done)) as (r5 & Hu & H5).
    run_with Hu. by apply Hint.
Qed.

Lemma string_body_snoc b c :
  string_body b → c ≠ stringRule.backslash → c ≠ stringRule.quote → c ≠ Reader.newline →
  string_body (b ++ [c]).
Proof.
  induction 1; intros; cbn; [|apply body_plain; auto|apply body_escape; auto].
  apply body_plain; auto using body_nil.
Qed.

Lemma string_body_escape_snoc b c :
  string_body b → string_body (b ++ [stringRule.backslash; c]).
Proof.
  induction 1; cbn; [|apply body_plain; auto|apply body_escape; auto].
  apply body_escape, body_nil.
Qed.

Lemma string_loop_spec n pos line b r pre rest :
  at_ r pre rest → length rest < n → string_body b →
  ∃ v ty err rest' r',
    stringRule.string_loop n pos line (stringRule.quote :: b) r
      = Ok (MkToken ty (stringRule.quote :: b ++ v) pos line err, r')
    ∧ rest = v ++ rest' ∧ at_ r' (pre ++ v) rest'
    ∧ ty ≠ TokenType.EOF_TOKEN ∧ lexeme (stringRule.quote :: b ++ v) ty err rest'.
Proof.
  revert b r pre rest. induction n as [n IHn] using lt_wf_ind.
  intros b r pre rest H Hn Hb. destruct n as [|n]; [lia|].
  cbn [stringRule.string_loop]. destruct rest as [|c rest].
  { destruct (Reader.EndOfFile_nil _ _ H) as (r1 & He & H1 & _). run_with He.
    eexists [], _, _, [], r1. rewrite !app_nil_r. split_and!; try done.
    rewrite -(app_nil_r b). apply lex_string_eof; [done|by left]. }
  run_with (Reader.EndOfFile_cons _ _ _ _ H).
  destruct (Reader.Get_cons _ _ _ _ H) as (r1 & Hg & H1 & _). run_with Hg.
  destruct (decide (c = stringRule.backslash)) as [->|Hc1]; [|destruct (decide (c = stringRule.quote))
    as [->|Hc2]; [|destruct (decide (c = Reader.newline)) as [->|Hc3]]].
  - destruct rest as [|c rest].
    + destruct (Reader.EndOfFile_nil _ _ H1) as (r2 & He & H2 & _). run_with He. cbn [negb].
      destruct n as [|n]; [cbn in Hn; lia|]. cbn [stringRule.string_loop].
      destruct (Reader.EndOfFile_nil _ _ H2) as (r3 & He3 & H3 & _). run_with He3.
      eexists [stringRule.backslash], _, _, [], r3. split_and!; try done.
      apply lex_string_eof; [done|by right].
    + run_with (Reader.EndOfFile_cons _ _ _ _ H1). cbn [negb].
      destruct (Reader.Get_cons _ _ _ _ H1) as (r2 & Hg2 & H2 & _). run_with Hg2.
      rewrite -app_assoc /=.
      destruct (IHn n ltac:(lia) _ _ _ _ H2 ltac:(cbn in *; lia) (string_body_escape_snoc _ c Hb))
        as (v & ty & err & rest' & r' & Hr & -> & H' & Hty & Hl).
      exists (stringRule.backslash :: c :: v), ty, err, rest', r'.
      rewrite -!app_assoc /= in Hr H' Hl |- *. by rewrite Hr.
  - eexists [stringRule.quote], _, _, rest, r1. split_and!; try done. by constructor.
  - eexists [Reader.newline], _, _, rest, r1. split_and!; try done. by constructor.
  - destruct (IHn n ltac:(lia) _ _ _ _ H1 ltac:(cbn in *; lia)
      (string_body_snoc _ c Hb Hc1 Hc2 Hc3))
      as (v & ty & err & rest' & r' & Hr & -> & H' & Hty & Hl).
    exists (c :: v), ty, err, rest', r'. rewrite -!app_assoc /= in Hr H' Hl |- *. by rewrite Hr.
Qed.

Lemma ParseString_reads r pre rest :
  at_ r pre (stringRule.quote :: rest) →
  reads stringRule.ParseString r pre (stringRule.quote :: rest).
Proof.
  intros H pos line. unfold stringRule.ParseString. run_with (input_fuel_spec _ _ _ H).
  destruct (Reader.Get_cons _ _ _ _ H) as (r1 & Hg & H1 & _). run_with Hg.
  destruct (string_loop_spec (S (length (pre ++ stringRule.quote :: rest))) pos line []
    _ _ _ H1 ltac:(rewrite length_app /=; lia) body_nil)
    as (v & ty & err & rest' & r' & Hr & -> & H' & Hty & Hl).
  exists (stringRule.quote :: v), ty, err, rest', r'. rewrite -app_assoc in H'.
  by split_and!.
Qed.

(** ** Identifiers *)

Lemma ident_start_alpha c :
  negb (isalpha c) && bool_decide (c ≠ "_"%char) = negb (ident_start c).
Proof. unfold ident_start. by destruct (isalpha c); repeat case_bool_decide. Qed.

Lemma scope_loop_spec m n v r pre rest :
  at_ r pre rest → length rest < n → n ≤ m →
  ∃ s rest' r', identifierRule.scope_loop n v r = Ok (v ++ s, r')
    ∧ rest = s ++ rest' ∧ at_ r' (pre ++ s) rest' ∧ scope_tail s rest'.
Proof.
  revert v r pre rest. induction n as [|n IH]; intros v r pre rest H Hn Hm; [lia|].
  cbn [identifierRule.scope_loop].
  destruct (more_spec (λ ch, bool_decide (ch = ":"%char)) _ _ _ H) as (r1 & Hm1 & H1 & _).
  run_with Hm1.
  assert (∀ r', at_ r' pre rest → ¬ chars "::" `prefix_of` rest →
    ∃ s rest' r'', Ok (v, r') = Ok (v ++ s, r'') ∧ rest = s ++ rest'
      ∧ at_ r'' (pre ++ s) rest' ∧ scope_tail s rest') as Hstop.
  { intros r' Hr' Hp. exists [], rest, r'. rewrite !app_nil_r. split_and!; try done.
    by constructor. }
  destruct rest as [|c rest]; cbn [head_sat].
  { apply Hstop; [done|]. by intros [k ?]. }
  case_bool_decide as Hc; [subst c|].
  2: { apply Hstop; [done|]. intros [k Hk]. naive_solver. }
  destruct (Reader.Get_cons _ _ _ _ H1) as (r2 & Hg & H2 & Hcu & Hgood & _). run_with Hg.
  assert (∀ r', at_ r' (pre ++ [":"%char]) rest → can_unget r' → head rest ≠ Some ":"%char →
    ∃ s rest' r'', (_ ← Reader.Unget; mret v) r' = Ok (v ++ s, r'')
      ∧ ":"%char :: rest = s ++ rest' ∧ at_ r'' (pre ++ s) rest' ∧ scope_tail s rest') as Hback.
  { intros r' Hr' Hcu' Hh.
    destruct (Reader.Unget_snoc _ _ _ _ Hr' Hcu' ltac:(done)) as (r'' & Hu & H'').
    run_with Hu. apply Hstop; [done|]. intros [k Hk]. destruct rest; naive_solver. }
  destruct rest as [|c rest].
  { destruct (Reader.EndOfFile_nil _ _ H2) as (r3 & He & H3 & Hcu3).
    run_with (st_orb_true _ (!!! peek_is ":"%char) _ _ He). by apply Hback; auto. }
  pose proof (Reader.EndOfFile_cons _ _ _ _ H2) as He.
  pose proof (peek_sat_cons (λ ch, bool_decide (ch = ":"%char)) _ _ _ _ H2) as Hp.
  assert ((Reader.EndOfFile ||! !!! peek_is ":"%char) r2
    = Ok (negb (bool_decide (c = ":"%char)), r2)) as Hor.
  { rewrite (st_orb_false _ _ _ _ He). by rewrite (st_notb_run _ _ _ _ Hp). }
  run_with Hor. case_bool_decide as Hc; cbn [negb]; [subst c|].
  2: { apply Hback; cbn; congruence || done. }
  destruct (Reader.Get_cons _ _ _ _ H2) as (r3 & Hg3 & H3 & _). run_with Hg3.
  assert (∀ r', at_ r' ((pre ++ [":"%char]) ++ [":"%char]) rest → head_not ident_start rest →
    ∃ s rest' r'', Ok (v ++ chars "::", r') = Ok (v ++ s, r'')
      ∧ ":"%char :: ":"%char :: rest = s ++ rest' ∧ at_ r'' (pre ++ s) rest'
      ∧ scope_tail s rest') as Hdangle.
  { intros r' Hr' Hh. exists (chars "::"), rest, r'. rewrite -app_assoc in Hr'.
    split_and!; try done. by constructor. }
  destruct rest as [|c rest].
  { destruct (Reader.EndOfFile_nil _ _ H3) as (r4 & He4 & H4 & _). run_with He4. by apply Hdangle. }
  run_with (Reader.EndOfFile_cons _ _ _ _ H3). run_with (Reader.Peek_cons _ _ _ _ H3).
  rewrite ident_start_alpha. destruct (ident_start c) eqn:Hstart; cbn [negb].
  2: { by apply Hdangle. }
  destruct (Reader.Get_cons _ _ _ _ H3) as (r4 & Hg4 & H4 & _). run_with Hg4.
  destruct (read_while_split ident_char (S n) ((v ++ chars "::") ++ [c]) _ _ _ H4
    ltac:(cbn in *; lia)) as (t & rest1 & r5 & Hr5 & -> & H5 & Hall & Hnot & _).
  run_with Hr5.
  destruct (IH (((v ++ chars "::") ++ [c]) ++ t) _ _ _ H5
    ltac:(cbn in Hn; rewrite length_app in Hn; lia) ltac:(lia))
    as (s & rest' & r' & Hr & -> & H' & Hs).
  exists (chars "::" ++ c :: t ++ s), rest', r'.
  rewrite -!app_assoc /= in Hr H' |- *.
  split_and!; [done|by rewrite -app_assoc|done|by apply (scope_segment c t s rest')].
Qed.

Lemma ident_type_not_eof v : ident_type v ≠ TokenType.EOF_TOKEN.
Proof.
  unfold ident_type. destruct (identifierRule.contains_scope v); [done|].
  destruct (KeywordMapFacts.Lookup_cases v) as [->|Hin]; [done|].
  apply (KeywordMapFacts.entry_not_special _ Hin).
Qed.

Lemma ParseIdentifier_reads r pre c rest :
  at_ r pre (c :: rest) → ident_start c = true →
  reads identifierRule.ParseIdentifier r pre (c :: rest).
Proof.
  intros H Hc pos line. unfold identifierRule.ParseIdentifier.
  run_with (Reader.Peek_cons _ _ _ _ H). rewrite ident_start_alpha Hc. cbn [negb].
  run_with (input_fuel_spec _ _ _ H). set (n := S _).
  assert (length (c :: rest) < n) as Hn by (unfold n; rewrite length_app; cbn; lia).
  destruct (Reader.Get_cons _ _ _ _ H) as (r1 & Hg & H1 & _). run_with Hg.
  destruct (read_while_split ident_char n [c] _ _ _ H1 ltac:(cbn in *; lia))
    as (t & rest1 & r2 & Hr2 & -> & H2 & Hall & Hnot & _). run_with Hr2.
  destruct (scope_loop_spec n n ([c] ++ t) _ _ _ H2
    ltac:(cbn in Hn; rewrite length_app in Hn; lia) ltac:(lia))
    as (s & rest' & r' & Hr & -> & H' & Hs). run_with Hr.
  exists (c :: t ++ s), (ident_type (c :: t ++ s)), Error.NONE, rest', r'.
  rewrite -!app_assoc in H' |- *. split_and!; try done.
  - change ([c] ++ t ++ s) with (c :: t ++ s). unfold ident_type.
    by destruct (identifierRule.contains_scope _); [|case_decide as Hid;
      [|rewrite Hid]].
  - by rewrite /= -app_assoc.
  - apply ident_type_not_eof.
  - by constructor.
Qed.

(** ** Operators *)

Lemma find_op_Some text ops ty :
  operatorRule.find_op text ops = Some ty → ∃ s, (s, ty) ∈ ops ∧ text = chars s.
Proof.
  induction ops as [|[s ty'] ops IH]; cbn; [done|].
  case_decide; [intros [= <-]; exists s; split; [left|done]|].
  intros (s' & ? & ?)%IH. exists s'. split; [by right|done].
Qed.

Lemma find_op_None text ops s ty :
  operatorRule.find_op text ops = None → (s, ty) ∈ ops → text ≠ chars s.
Proof.
  induction ops as [|[s' ty'] ops IH]; cbn; [set_solver|].
  case_decide; [done|]. intros Hf [?|?]%elem_of_cons; [naive_solver|by apply IH].
Qed.

(** The shapes of the operator tables, by computation. *)
Lemma double_op_shape s ty :
  (s, ty) ∈ operatorRule.double_ops →
  length (chars s) = 2 ∧ ty ≠ TokenType.EOF_TOKEN.
Proof.
  intros Hin. apply list_elem_of_In in Hin.
  assert (forallb (λ kv, bool_decide (length (chars kv.1) = 2 ∧ kv.2 ≠ TokenType.EOF_TOKEN))
    operatorRule.double_ops = true) as Hall by by vm_compute.
  rewrite forallb_forall in Hall. by apply Hall, bool_decide_eq_true in Hin.
Qed.

Lemma single_op_shape s ty :
  (s, ty) ∈ operatorRule.single_ops →
  length (chars s) = 1 ∧ ty ≠ TokenType.EOF_TOKEN.
Proof.
  intros Hin. apply list_elem_of_In in Hin.
  assert (forallb (λ kv, bool_decide (length (chars kv.1) = 1 ∧ kv.2 ≠ TokenType.EOF_TOKEN))
    operatorRule.single_ops = true) as Hall by by vm_compute.
  rewrite forallb_forall in Hall. by apply Hall, bool_decide_eq_true in Hin.
Qed.

Lemma chars_inj s1 s2 : chars s1 = chars s2 → s1 = s2.
Proof.
  intros H. rewrite -(String.string_of_list_ascii_of_string s1) H.
  apply String.string_of_list_ascii_of_string.
Qed.

(** A double operator at the head of the input is found by the table. *)
Lemma double_prefix_None c rest s ty :
  match rest with
  | next :: _ => operatorRule.find_op [c; next] operatorRule.double_ops = None
  | [] => True
  end → (s, ty) ∈ operatorRule.double_ops → ¬ chars s `prefix_of` c :: rest.
Proof.
  intros Hn Hin [k Hk]. destruct (double_op_shape _ _ Hin) as [Hlen _].
  destruct (chars s) as [|a [|b []]] eqn:Hs; try done. cbn in Hk.
  destruct rest as [|next rest]; [done|]. injection Hk as -> -> _.
  by apply (find_op_None _ _ _ _ Hn Hin).
Qed.

(** The [switch]: one character, when no longer operator is there. *)
Lemma single_lexeme c rest pos line :
  match rest with
  | next :: _ => operatorRule.find_op [c; next] operatorRule.double_ops = None
                 ∧ ¬ (c = "."%char ∧ next = "."%char)
  | [] => True
  end →
  ident_start c = false → isdigit c = false → c ≠ stringRule.quote →
  ∃ ty err, operatorRule.single c pos line = MkToken ty [c] pos line err
    ∧ ty ≠ TokenType.EOF_TOKEN ∧ lexeme [c] ty err rest.
Proof.
  intros Hnext Hid Hdig Hq. unfold operatorRule.single.
  assert (∀ s' ty', (s', ty') ∈ operatorRule.double_ops → ¬ chars s' `prefix_of` c :: rest)
    as Hdouble.
  { intros s' ty'. apply double_prefix_None. destruct rest; naive_solver. }
  destruct (operatorRule.find_op [c] operatorRule.single_ops) as [ty|] eqn:Hf.
  - exists ty, Error.NONE. destruct (find_op_Some _ _ _ Hf) as (s & Hin & Hs).
    split; [done|]. split; [by apply (single_op_shape _ _ Hin)|].
    rewrite Hs. apply lex_single; [done| |].
    + intros s' ty' Hin'. rewrite -Hs. by apply (Hdouble s' ty').
    + intros [-> Hh]. injection Hs as ->. destruct rest; naive_solver.
  - exists TokenType.ERROR, Error.UNEXPECTED_CHARACTER. split_and!; try done.
    constructor; try done. intros s ty Hin Hs. by eapply (find_op_None _ _ _ _ Hf Hin).
Qed.

Lemma ParseOperator_reads r pre c rest :
  at_ r pre (c :: rest) →
  ident_start c = false → isdigit c = false → c ≠ stringRule.quote →
  reads operatorRule.ParseOperator r pre (c :: rest).
Proof.
  intros H Hid Hdig Hq pos line. unfold operatorRule.ParseOperator.
  destruct (Reader.Get_cons _ _ _ _ H) as (r1 & Hg & H1 & _). run_with Hg.
  destruct rest as [|next rest].
  { destruct (Reader.EndOfFile_nil _ _ H1) as (r2 & He & H2 & _). run_with He. cbn [negb].
    destruct (single_lexeme c [] pos line) as (ty & err & Hs & Hty & Hl); try done.
    exists [c], ty, err, [], r2. by rewrite Hs. }
  run_with (Reader.EndOfFile_cons _ _ _ _ H1). cbn [negb].
  run_with (Reader.Peek_cons _ _ _ _ H1).
  destruct (Reader.Get_cons _ _ _ _ H1) as (r2 & Hg2 & H2 & _).
  case_decide as Hdot.
  - destruct Hdot as [-> ->]. run_with Hg2.
    destruct (more_spec (λ ch, bool_decide (ch = "."%char)) _ _ _ H2) as (r3 & Hm & H3 & _).
    run_with Hm. destruct (head_sat _ rest) eqn:Hh.
    + destruct rest as [|c rest]; [done|]. apply bool_decide_eq_true in Hh as ->.
      destruct (Reader.Get_cons _ _ _ _ H3) as (r4 & Hg4 & H4 & _). run_with Hg4.
      eexists (chars "..."), _, _, rest, r4. rewrite -!app_assoc in H4.
      split_and!; try done. constructor.
    + eexists (chars ".."), _, _, rest, r3. rewrite -!app_assoc in H3.
      split_and!; try done. constructor. destruct rest; [done|].
      apply bool_decide_eq_false in Hh. cbn. congruence.
  - destruct (operatorRule.find_op [c; next] operatorRule.double_ops) as [ty|] eqn:Hf.
    + run_with Hg2. destruct (find_op_Some _ _ _ Hf) as (s & Hin & Hs).
      eexists [c; next], _, _, rest, r2. rewrite -!app_assoc in H2.
      split_and!; try done; [by apply (double_op_shape _ _ Hin)|].
      rewrite Hs. by constructor.
    + destruct (single_lexeme c (next :: rest) pos line) as (ty & err & Hs & Hty & Hl); try done.
      exists [c], ty, err, (next :: rest), r1. by rewrite Hs.
Qed.

(** ** [Lexer::Get] *)

Lemma with_position_reads rule r pre rest :
  at_ r pre rest → reads rule r pre rest →
  ∃ v ty err rest' r',
    Lexer.with_position rule r
      = Ok (MkToken ty v (Reader.col pre) (Reader.lines pre) err, r')
    ∧ rest = v ++ rest' ∧ at_ r' (pre ++ v) rest'
    ∧ v ≠ [] ∧ ty ≠ TokenType.EOF_TOKEN ∧ lexeme v ty err rest'.
Proof.
  intros H Hr. unfold Lexer.with_position.
  run_with (eq_refl : Lexer.Count r = Ok (Reader.Count r, r)).
  run_with (eq_refl : Lexer.LineCount r = Ok (Reader.LineCount r, r)).
  unfold Reader.Count, Reader.LineCount.
  rewrite (Reader.at_count _ _ _ H) (Reader.at_line _ _ _ H). apply Hr.
Qed.

Lemma Get_spec r pre rest :
  at_ r pre rest →
  ∃ t tok rest' r', Lexer.Get r = Ok (tok, r') ∧ got pre rest t tok rest'
    ∧ at_ r' (pre ++ t ++ value tok) rest'.
Proof.
  intros H. destruct (skip_spec _ _ _ H) as (t & rest1 & r1 & Hs & -> & H1 & Hskips).
  unfold Lexer.Get. run_with Hs. destruct rest1 as [|c rest1].
  { destruct (Reader.EndOfFile_nil _ _ H1) as (r2 & He & H2 & _). run_with He.
    eexists t, _, [], r2. split; [done|]. cbn. split; [|by rewrite app_nil_r].
    split; cbn; try done; [apply (Reader.at_count _ _ _ H2)|apply (Reader.at_line _ _ _ H2)]. }
  run_with (Reader.EndOfFile_cons _ _ _ _ H1). run_with (Reader.Peek_cons _ _ _ _ H1).
  match goal with |- context [(?f r1)] => set (res := f r1) end.
  assert (∃ v ty err rest' r',
    res = Ok (MkToken ty v (Reader.col (pre ++ t)) (Reader.lines (pre ++ t)) err, r')
    ∧ c :: rest1 = v ++ rest' ∧ at_ r' ((pre ++ t) ++ v) rest'
    ∧ v ≠ [] ∧ ty ≠ TokenType.EOF_TOKEN ∧ lexeme v ty err rest')
    as (v & ty & err & rest' & r' & Hr & Heq & H' & Hv & Hty & Hl).
  { subst res. change (isalpha c || bool_decide (c = "_"%char)) with (ident_start c).
    destruct (ident_start c) eqn:Hid; [|destruct (isdigit c) eqn:Hdig; [|case_decide as Hq]].
    - by apply with_position_reads, ParseIdentifier_reads.
    - by apply with_position_reads, ParseNumber_reads.
    - subst c. by apply with_position_reads, ParseString_reads.
    - by apply with_position_reads, ParseOperator_reads. }
  eexists t, _, rest', r'. split; [done|]. cbn. split; [|by rewrite app_assoc].
  split; cbn; rewrite -?Heq; try done. by rewrite decide_False.
Qed.

(** A token stream that covers the input: the skipped texts and the tokens'
    texts, in order, make it up; the last token is the end of file. *)
Inductive covers : list ascii → list ascii → list Token → Prop :=
  | covers_eof pre rest t tok :
      got pre rest t tok [] → tok_type tok = TokenType.EOF_TOKEN →
      covers pre rest [tok]
  | covers_token pre rest t tok rest' toks :
      got pre rest t tok rest' → tok_type tok ≠ TokenType.EOF_TOKEN →
      covers (pre ++ t ++ value tok) rest' toks →
      covers pre rest (tok :: toks).

Lemma tokens_spec n r pre rest :
  at_ r pre rest → length rest < n →
  ∃ toks r', Lexer.tokens n r = Ok (toks, r') ∧ covers pre rest toks
    ∧ length toks ≤ S (length rest).
Proof.
  revert r pre rest. induction n as [|n IH]; intros r pre rest H Hn; [lia|].
  cbn [Lexer.tokens]. destruct (Get_spec _ _ _ H) as (t & tok & rest' & r' & Hg & Hgot & H').
  run_with Hg. pose proof (got_token _ _ _ _ _ Hgot) as Htok. case_decide as Heof.
  - destruct Htok as (Hv & -> & _). exists [tok], r'. split_and!; [done| |cbn; lia].
    by apply covers_eof with t.
  - destruct Htok as [Hv _].
    assert (length rest' < length rest).
    { rewrite (got_split _ _ _ _ _ Hgot) !length_app. destruct (value tok); [done|cbn; lia]. }
    destruct (IH _ _ _ H' ltac:(lia)) as (toks & r'' & Hr & Hc & Hlen). run_with Hr.
    exists (tok :: toks), r''. split_and!; [done| |cbn; lia].
    by apply covers_token with t rest'.
Qed.

(** ** Properties of the lexer *)

Lemma tokenize_spec input :
  ∃ toks, Lexer.tokenize input = Ok toks ∧ covers [] input toks
    ∧ length toks ≤ S (length input).
Proof.
  destruct (tokens_spec (S (length input)) _ _ _ (Reader.init_at input) ltac:(lia))
    as (toks & r & Hr & Hc & Hl).
  exists toks. unfold Lexer.tokenize, Lexer.init. by rewrite Hr.
Qed.

(** What each call of [Get] passes: the skipped text and the token's own. *)
Definition pieces (ts : list (list ascii)) (toks : list Token) : list (list ascii) :=
  zip_with (λ t tok, t ++ value tok) ts toks.

(** The input from [rest] on is cut into pieces; at each of them [Get] skips
    exactly the white space and comments [t] and takes the longest token; only
    the last token is the end of file. *)
Record segmented (pre rest : list ascii) (ts : list (list ascii)) (toks : list Token) : Prop := {
  seg_length : length ts = length toks;
  seg_text : rest = concat (pieces ts toks);
  seg_got i t tok : ts !! i = Some t → toks !! i = Some tok →
    got (pre ++ concat (take i (pieces ts toks))) (concat (drop i (pieces ts toks))) t tok
      (concat (drop (S i) (pieces ts toks)));
  seg_eof i tok : toks !! i = Some tok → tok_type tok = TokenType.EOF_TOKEN ↔ S i = length toks;
}.

Lemma covers_segmented pre rest toks : covers pre rest toks → ∃ ts, segmented pre rest ts toks.
Proof.
  induction 1 as [pre rest t tok Hgot Heof|pre rest t tok rest' toks Hgot Hty Hc (ts & [Hl Hr Hg He])].
  - exists [t]. pose proof (got_split _ _ _ _ _ Hgot) as E. rewrite app_nil_r in E. split.
    + done.
    + cbn. by rewrite app_nil_r.
    + intros [|i] t' tok'; [|done]. cbn. intros [= <-] [= <-]. by rewrite !app_nil_r -E.
    + intros [|i] tok'; [|done]. by intros [= <-].
  - exists (t :: ts). pose proof (got_split _ _ _ _ _ Hgot) as E. rewrite app_assoc Hr in E.
    assert (toks ≠ []) as Hne by (by destruct Hc). split.
    + cbn. by rewrite Hl.
    + cbn. by rewrite -E.
    + intros [|i] t' tok'; cbn.
      * intros [= <-] [= <-]. rewrite app_nil_r -/(pieces ts toks) -E -Hr. exact Hgot.
      * intros Ht Htok. specialize (Hg i t' tok' Ht Htok). by rewrite app_assoc.
    + intros [|i] tok'; cbn.
      * intros [= <-]. split; [by intros ?%Hty|]. destruct toks; [done|]. cbn. lia.
      * intros Htok. rewrite (He i tok' Htok). lia.
Qed.

(** C7. [Lexer::Get] is total and correct: from any point of any input it
    skips exactly the white space and comments there, returns the longest
    token of the language with its type and error, labelled with the column
    and the line of its first character, and leaves the reader right after
    the token; at the end of the input it returns [EOF_TOKEN]. *)
Theorem Lexer_Get_correct r pre rest :
  at_ r pre rest →
  ∃ t tok rest' r', Lexer.Get r = Ok (tok, r') ∧ got pre rest t tok rest'
    ∧ at_ r' (pre ++ t ++ value tok) rest'.
Proof. apply Get_spec. Qed.

Lemma Lexer_Get_correct_witness :
  let r := Reader.init (chars " /**/x::y+") in
  at_ r [] (chars " /**/x::y+")
  ∧ ∃ t tok rest' r', Lexer.Get r = Ok (tok, r')
      ∧ got [] (chars " /**/x::y+") t tok rest' ∧ at_ r' ([] ++ t ++ value tok) rest'.
Proof.
  intros r. split; [apply Reader.init_at|].
  apply (Lexer_Get_correct r [] (chars " /**/x::y+")). apply Reader.init_at.
Defined.

(** C8. Tokenizing any input ends, without an exception and with at most one
    token per character and the end of file, and no character is lost: the
    input is cut into pieces, each of them white space and comments, all that
    stand there, and then the longest token, labelled with its position; the
    end of file is the last token and no other one. *)
Theorem tokenize_total_lossless input :
  ∃ toks ts, Lexer.tokenize input = Ok toks ∧ length toks ≤ S (length input)
    ∧ segmented [] input ts toks.
Proof.
  destruct (tokenize_spec input) as (toks & Ht & Hc & Hl).
  destruct (covers_segmented _ _ _ Hc) as (ts & ?). by exists toks, ts.
Qed.

(** The name the parser gives to a token. *)
Definition terminal_of (ty : TokenType.t) (v : list ascii) : string :=
  match ty with
  | TokenType.ID => "identifier"
  | TokenType.INTEGER_LITERAL => "integer_literal"
  | TokenType.FLOAT_LITERAL => "float_literal"
  | TokenType.STRING_LITERAL => "string_literal"
  | _ => String.string_of_list_ascii v
  end.

(** Types whose tokens are named by their text. *)
Definition is_text (ty : TokenType.t) : bool :=
  bool_decide (ty ∉ [TokenType.ID; TokenType.INTEGER_LITERAL; TokenType.FLOAT_LITERAL;
                     TokenType.STRING_LITERAL]).

Lemma terminal_of_keyword ty v :
  is_text ty = true → terminal_of ty v = String.string_of_list_ascii v.
Proof. by destruct ty. Qed.

Lemma keyword_is_text kv : kv ∈ KeywordMap.entries → is_text kv.2 = true.
Proof.
  apply (KeywordMapFacts.entries_forall (λ kv, is_text kv.2 = true)). by vm_compute.
Qed.

Lemma remap_table (l : list (string * TokenType.t)) s ty p n e :
  forallb (λ kv, bool_decide (RemapTokenTypeToString
    (MkToken kv.2 (chars kv.1) 0 0 Error.NONE) = kv.1)) l = true →
  (s, ty) ∈ l → RemapTokenTypeToString (MkToken ty (chars s) p n e) = s.
Proof.
  intros Hall Hin. apply list_elem_of_In in Hin. rewrite forallb_forall in Hall.
  apply Hall, bool_decide_eq_true in Hin. cbn in Hin. by rewrite -{2}Hin.
Qed.

Lemma remap_keyword v p n e :
  KeywordMap.Lookup v ≠ TokenType.ID →
  RemapTokenTypeToString (MkToken (KeywordMap.Lookup v) v p n e)
  = String.string_of_list_ascii v.
Proof.
  intros Hid. destruct (KeywordMapFacts.Lookup_cases v) as [?|Hin]; [done|].
  rewrite -{2}(String.list_ascii_of_string_of_list_ascii v).
  by apply (remap_table KeywordMap.entries); [vm_compute|].
Qed.

Lemma remap_lexeme v ty err rest p n :
  lexeme v ty err rest →
  RemapTokenTypeToString (MkToken ty v p n err) = terminal_of ty v.
Proof.
  assert (∀ l s ty, (s, ty) ∈ l →
    forallb (λ kv, bool_decide (RemapTokenTypeToString
      (MkToken kv.2 (chars kv.1) 0 0 Error.NONE) = kv.1
      ∧ terminal_of kv.2 (chars kv.1) = kv.1)) l = true →
    RemapTokenTypeToString (MkToken ty (chars s) p n Error.NONE) = terminal_of ty (chars s))
    as Htable.
  { intros l s ty' Hin Hall. apply list_elem_of_In in Hin. rewrite forallb_forall in Hall.
    apply Hall, bool_decide_eq_true in Hin as [Hr Ht]. cbn in *. by rewrite Ht -{2}Hr. }
  destruct 1; try done.
  - unfold ident_type. destruct (identifierRule.contains_scope _); [done|].
    destruct (decide (KeywordMap.Lookup (c :: t ++ s) = TokenType.ID)) as [->|Hid]; [done|].
    rewrite remap_keyword //.
    destruct (KeywordMapFacts.Lookup_cases (c :: t ++ s)) as [|Hin]; [done|].
    by rewrite terminal_of_keyword; [|apply (keyword_is_text _ Hin)].
  - by apply (Htable operatorRule.double_ops); [|vm_compute].
  - by apply (Htable operatorRule.single_ops); [|vm_compute].
Qed.

(** Between the lexer and the grammar nothing is renamed: the terminal
    the parser looks up for a token read by the lexer is the text of the
    token, for every keyword, operator and punctuation mark (the error token
    [!] included), and the class name for identifiers and literals. *)
Theorem remap_token_text v ty err rest p n :
  lexeme v ty err rest →
  RemapTokenTypeToString (MkToken ty v p n err) = terminal_of ty v.
Proof. apply remap_lexeme. Qed.

Lemma remap_token_text_witness :
  lexeme (chars "with") (ident_type (chars "with")) Error.NONE []
  ∧ RemapTokenTypeToString (MkToken (ident_type (chars "with")) (chars "with") 3 1 Error.NONE)
    = terminal_of (ident_type (chars "with")) (chars "with").
Proof.
  assert (lexeme (chars "with") (ident_type (chars "with")) Error.NONE []) as H.
  { apply (lex_ident "w"%char (chars "ith") [] []); [done|by repeat constructor|done|].
    constructor. by intros [k Hk]. }
  split; [exact H|]. apply (remap_token_text _ _ _ _ 3 1 H).
Defined.

(** On the first line the column is the offset in the input. *)
Lemma position_mono l n c : n ≤ (Reader.position l (n, c)).1.
Proof.
  revert n c. induction l as [|x l IH]; intros n c; cbn; [lia|].
  case_decide; cbn; [specialize (IH (S n) 0)|specialize (IH n (S c))]; lia.
Qed.

Lemma position_first_line l n c :
  (Reader.position l (n, c)).1 = n → (Reader.position l (n, c)).2 = c + length l.
Proof.
  revert n c. induction l as [|x l IH]; intros n c; cbn; [lia|].
  case_decide; cbn.
  - pose proof (position_mono l (S n) 0). lia.
  - intros Hl. rewrite IH; [lia|done].
Qed.

Lemma position_col_le l n c : (Reader.position l (n, c)).2 ≤ c + length l.
Proof.
  revert n c. induction l as [|x l IH]; intros n c; cbn; [lia|].
  case_decide; cbn; [specialize (IH (S n) 0)|specialize (IH n (S c))]; lia.
Qed.

Lemma skips_stopped t rest : skips t rest → ¬ starts_trivia rest.
Proof. induction 1; try done; cbn; tauto. Qed.

Lemma skips_nothing t rest : skips t rest → ¬ starts_trivia (t ++ rest) → t = [].
Proof. destruct 1; cbn; unfold is_space; naive_solver. Qed.

Lemma Empty_spec r pre rest :
  at_ r pre rest →
  ∃ t rest1 r1, skips t rest1 ∧ rest = t ++ rest1 ∧ at_ r1 (pre ++ t) rest1
    ∧ Lexer.Empty r = Ok (bool_decide (rest1 = []), r1).
Proof.
  intros H. destruct (skip_spec _ _ _ H) as (t & rest1 & r1 & Hs & -> & H1 & Hskips).
  destruct (EndOfFile_spec _ _ _ H1) as (r2 & He & H2 & _).
  exists t, rest1, r2. split_and!; try done. unfold Lexer.Empty. by run_with Hs.
Qed.

(** [Lexer::Peek] returns the token the next [Get] would return and then
    seeks to the *column* of that token, counted from the start of the whole
    input: on the first line the token is left to be read, on any other line
    the reader ends up in the first line.  At the end of the input the token
    is the [EMPTY_INPUT] error. *)
Theorem Lexer_Peek_position r pre rest :
  at_ r pre rest →
  ∃ t rest1, rest = t ++ rest1 ∧ skips t rest1 ∧
    if decide (rest1 = [])
    then ∃ r', Lexer.Peek r = Ok (MkToken TokenType.ERROR [] (Reader.col (pre ++ t))
                 (Reader.lines (pre ++ t)) Error.EMPTY_INPUT, r') ∧ at_ r' (pre ++ t) []
    else ∃ tok rest' r', Lexer.Peek r = Ok (tok, r') ∧ got pre rest t tok rest'
      ∧ (let k := Reader.col (pre ++ t) in
         at_ r' (take k (pre ++ rest)) (drop k (pre ++ rest)))
      ∧ (Reader.lines (pre ++ t) = 0 → at_ r' (pre ++ t) rest1).
Proof.
  intros H. destruct (Empty_spec _ _ _ H) as (t & rest1 & r1 & Hsk & -> & H1 & He).
  exists t, rest1. split_and!; try done. unfold Lexer.Peek. run_with He.
  case_decide as Hnil.
  { subst rest1. rewrite bool_decide_true //. exists r1. split; [|done].
    by rewrite -(Reader.at_count _ _ _ H1) -(Reader.at_line _ _ _ H1). }
  rewrite bool_decide_false //. cbn iota.
  run_with (eq_refl : Lexer.Count r1 = Ok (Reader.Count r1, r1)).
  destruct (Get_spec _ _ _ H1) as (t2 & tok & rest' & r2 & Hg & Hgot & H2). run_with Hg.
  assert (t2 = []) as ->.
  { eapply skips_nothing; [apply (got_skips _ _ _ _ _ Hgot)|].
    rewrite -(got_split _ _ _ _ _ Hgot). by eapply skips_stopped. }
  pose proof (Reader.Seek_spec (Reader.Count r1) _ _ _ H2) as Hseek.
  replace (((pre ++ t) ++ [] ++ value tok) ++ rest') with (pre ++ t ++ rest1) in Hseek.
  2: { rewrite (got_split _ _ _ _ _ Hgot) /=. by rewrite -!app_assoc. }
  unfold Reader.Count in Hseek |- *. rewrite (Reader.at_count _ _ _ H1) in Hseek |- *.
  rewrite decide_True in Hseek.
  2: { pose proof (position_col_le (pre ++ t) 0 0). unfold Reader.col.
       rewrite !length_app in H0 |- *. lia. }
  destruct Hseek as (r' & Hs & Hat). run_with Hs. exists tok, rest', r'.
  split_and!; [done| |done|].
  - destruct Hgot. rewrite !app_nil_r in got_pos0, got_line0. split; try done.
    + by rewrite got_split0.
    + cbn in got_split0. by rewrite -got_split0.
  - intros Hl. rewrite /Reader.col (position_first_line _ 0 0 Hl) /= app_assoc in Hat.
    by rewrite take_app_length drop_app_length in Hat.
Qed.

Lemma Lexer_Peek_position_witness :
  let r := Reader.init (chars "a b") in
  at_ r [] (chars "a b")
  ∧ ∃ t rest1, chars "a b" = t ++ rest1 ∧ skips t rest1 ∧
    if decide (rest1 = [])
    then ∃ r', Lexer.Peek r = Ok (MkToken TokenType.ERROR [] (Reader.col ([] ++ t))
                 (Reader.lines ([] ++ t)) Error.EMPTY_INPUT, r') ∧ at_ r' ([] ++ t) []
    else ∃ tok rest' r', Lexer.Peek r = Ok (tok, r') ∧ got [] (chars "a b") t tok rest'
      ∧ (let k := Reader.col ([] ++ t) in
         at_ r' (take k ([] ++ chars "a b")) (drop k ([] ++ chars "a b")))
      ∧ (Reader.lines ([] ++ t) = 0 → at_ r' ([] ++ t) rest1).
Proof.
  intros r. split; [apply Reader.init_at|].
  apply (Lexer_Peek_position r [] (chars "a b")). apply Reader.init_at.
Defined.

(** The defect of C5 on a two-line input: after [ab], [Peek] announces [c] of
    the second line, and the next [Get] returns [ab] again. *)
Lemma Peek_multiline_defect :
  let input := chars "ab" ++ [Reader.newline] ++ chars "c" in
  (t1 ← Lexer.Get; t2 ← Lexer.Peek; t3 ← Lexer.Get;
   mret (value t1, value t2, value t3)) (Lexer.init input) ≫= (λ x, Ok x.1)
  = Ok (chars "ab", chars "c", chars "ab").
Proof. by vm_compute. Qed.
