(* ===== verification/Grammar.v ===== *)
(** * The grammar reader and the FIRST and FOLLOW sets

    [src/rulesBuilder/RulesBuilder.h] and [RulesBuilder.cpp].  The unordered
    containers are read by membership and enumerated only into sets, so they
    are [gset] and [gmap].  [m_guides[sym]] and [follows[sym]] create an empty
    entry for a missing key; an absent entry is read as the empty set. *)

From S2P Require Import Prelude.
From Stdlib Require Import Lia.

(** [struct GuidedRule] *)
Record GuidedRule := MkRule {
  lhs : string;
  rhs : list string;
  guides : gset string;
}.

Abbreviation Rules := (list GuidedRule).
Abbreviation SymbolSets := (gmap string (gset string)).

(** [map[key]] on a map of sets. *)
Definition sets_of (m : SymbolSets) (A : string) : gset string := default ∅ (m !! A).

(** [map[key].insert(begin, end)] *)
Definition sets_insert (A : string) (X : gset string) (m : SymbolSets) : SymbolSets :=
  <[A := sets_of m A ∪ X]> m.

(** ** class RulesBuilder *)
Module RulesBuilder.

Record t := Mk {
  m_rules : Rules;
  m_nonTerms : gset string;
  m_lexemes : gset string;
  m_guides : SymbolSets;
}.

(** *** Reading the grammar text: [Init] *)

(** [std::isspace] in the "C" locale. *)
Definition isspace (c : ascii) : bool :=
  let n := N_of_ascii c in ((n =? 32) || (9 <=? n) && (n <=? 13))%N.

(** [while (ss >> word)]: the words between white space. *)
Fixpoint split_words (text : list ascii) (word : list ascii) : list (list ascii) :=
  match text with
  | [] => if decide (word = []) then [] else [word]
  | c :: text =>
      if isspace c
      then if decide (word = []) then split_words text [] else word :: split_words text []
      else split_words text (word ++ [c])
  end.

Definition quote : ascii := "034"%char.

(** [word.substr(1, word.size() - 2)] for a quoted word. *)
Definition unquote (word : list ascii) : list ascii :=
  if decide (2 ≤ length word ∧ head word = Some quote ∧ last word = Some quote)
  then pop_back (tail word) else word.

Record init_state := MkInit {
  is_rules : Rules;
  is_nonTerms : gset string;
  currentLhs : string;
  currentRhs : list string;
  expectEq : bool;
}.

Definition init_word (s : init_state) (word : list ascii) : init_state :=
  let w := String.string_of_list_ascii word in
  if decide (currentLhs s = "") then
    MkInit (is_rules s) (is_nonTerms s ∪ {[w]}) w (currentRhs s) true
  else if expectEq s then
    if decide (w = "=")
    then MkInit (is_rules s) (is_nonTerms s) (currentLhs s) (currentRhs s) false
    else s
  else if decide (w = ";") then
    MkInit (is_rules s ++ [MkRule (currentLhs s) (currentRhs s) ∅]) (is_nonTerms s) "" [] false
  else if decide (w = "|") then
    MkInit (is_rules s ++ [MkRule (currentLhs s) (currentRhs s) ∅]) (is_nonTerms s)
      (currentLhs s) [] false
  else if decide (w = "EPSILON") then s
  else MkInit (is_rules s) (is_nonTerms s) (currentLhs s)
         (currentRhs s ++ [String.string_of_list_ascii (unquote word)]) false.

Definition start_rule : GuidedRule := MkRule "_S_PRIME_" ["program"] ∅.

Definition collect_lexemes (rules : Rules) (nonTerms : gset string) : gset string :=
  list_to_set (filter (λ sym, sym ∉ nonTerms) (rules ≫= rhs)).

(** [RulesBuilder(std::string const&)], that is [Init]. *)
Definition Init (content : list ascii) : t :=
  let s := foldl init_word (MkInit [start_rule] {["_S_PRIME_"]} "" [] false)
             (split_words content []) in
  Mk (is_rules s) (is_nonTerms s) (collect_lexemes (is_rules s) (is_nonTerms s)) ∅.

(** *** [GetFirst] *)

Definition EPSILON : string := "EPSILON".

Section first.
Variables (lexemes : gset string) (g : SymbolSets).

Fixpoint first_loop (rhs : list string) (first : gset string) : gset string :=
  match rhs with
  | [] => first
  | sym :: rest =>
      if decide (sym ∈ lexemes) then first ∪ {[sym]} else
      let symFirst := sets_of g sym in
      let first := first ∪ (symFirst ∖ {[EPSILON]}) in
      if decide (EPSILON ∉ symFirst) then first
      else match rest with
           | [] => first ∪ {[EPSILON]}
           | _ => first_loop rest first
           end
  end.

Definition first_of (rhs : list string) : gset string :=
  match rhs with
  | [] => {[EPSILON]}
  | _ => first_loop rhs ∅
  end.
End first.

Definition GetFirst (b : t) (rhs : list string) : gset string :=
  first_of (m_lexemes b) (m_guides b) rhs.

(** *** [BuildGuidedRules], the FIRST sets *)

(** The body for one rule; the flag is [changed]. *)
Definition guides_rule (lexemes : gset string) (s : SymbolSets * bool) (r : GuidedRule)
    : SymbolSets * bool :=
  let '(g, changed) := s in
  let first := first_of lexemes g (rhs r) in
  let g' := sets_insert (lhs r) first g in
  (g', changed || bool_decide (size (sets_of g (lhs r)) < size (sets_of g' (lhs r)))).

Definition guides_pass (lexemes : gset string) (rules : Rules) (g : SymbolSets)
    : SymbolSets * bool :=
  foldl (guides_rule lexemes) (g, false) rules.

(** Enough rounds: every round that changes something adds a symbol to the
    set of a nonterminal. *)
Definition fixpoint_fuel (b : t) : nat :=
  S (size (m_nonTerms b) * (2 + size (m_lexemes b))).

Definition empty_sets (nonTerms : gset string) : SymbolSets := gset_to_gmap ∅ nonTerms.

Definition build_guides (b : t) : result t :=
  g ← while_changed (guides_pass (m_lexemes b) (m_rules b)) (fixpoint_fuel b)
        (empty_sets (m_nonTerms b));
  Ok (Mk (m_rules b) (m_nonTerms b) (m_lexemes b) g).

(** *** FOLLOW sets *)

(** The body for the position [rhs[i] = B], with [rest] after it. *)
Definition follow_symbol (b : t) (A B : string) (rest : list string)
    (s : SymbolSets * bool) : SymbolSets * bool :=
  let '(follows, changed) := s in
  if decide (B ∈ m_nonTerms b) then
    let firstRest := GetFirst b rest in
    let oldSize := size (sets_of follows B) in
    let follows := sets_insert B (firstRest ∖ {[EPSILON]}) follows in
    let follows :=
      if decide (EPSILON ∈ firstRest ∨ rest = [])
      then sets_insert B (sets_of follows A) follows else follows in
    (follows, changed || bool_decide (oldSize < size (sets_of follows B)))
  else s.

Fixpoint follow_rule (b : t) (A : string) (rhs : list string)
    (s : SymbolSets * bool) : SymbolSets * bool :=
  match rhs with
  | [] => s
  | B :: rest => follow_rule b A rest (follow_symbol b A B rest s)
  end.

Definition follow_pass (b : t) (follows : SymbolSets) : SymbolSets * bool :=
  foldl (λ s r, follow_rule b (lhs r) (rhs r) s) (follows, false) (m_rules b).

Definition compute_follows (b : t) (init : SymbolSets) : result SymbolSets :=
  while_changed (follow_pass b) (fixpoint_fuel b) init.

(** [GetFollows] *)
Definition GetFollows (b : t) : result SymbolSets :=
  compute_follows b (sets_insert "_S_PRIME_" {["EOF"]} (empty_sets (m_nonTerms b))).

(** [BuildGuidedRules]: the FIRST sets are kept in the builder; the guided
    rules are returned. *)
Definition guided_rule (b : t) (follows : SymbolSets) (r : GuidedRule) : GuidedRule :=
  let first := GetFirst b (rhs r) in
  MkRule (lhs r) (rhs r)
    ((first ∖ {[EPSILON]})
     ∪ if decide (EPSILON ∈ first) then sets_of follows (lhs r) else ∅).

Definition BuildGuidedRules (b : t) : result (Rules * t) :=
  b ← build_guides b;
  follows ← compute_follows b (sets_insert "program" {["EOF"]} ∅);
  Ok (guided_rule b follows <$> m_rules b, b).

End RulesBuilder.
