(* ===== verification/GrammarSpec.v ===== *)
(** * FIRST and FOLLOW: specification and correctness

    The sets computed by [RulesBuilder] are those of the textbook: FIRST by
    derivations, FOLLOW as the least relation closed under its two rules; and
    both fixpoint loops end. *)

From S2P Require Import Prelude Token Grammar.
From Stdlib Require Import Lia.
Import RulesBuilder.

(** ** Specification *)

Section spec.
Variable rules : Rules.

(** One derivation step of a sentential form. *)
Inductive step : list string → list string → Prop :=
  | step_rule u r v :
      r ∈ rules → step (u ++ lhs r :: v) (u ++ rhs r ++ v).

Definition derives : list string → list string → Prop := rtc step.

Variables (lexemes nonTerms : gset string).

(** [FIRST α t]: [α] derives a form that starts with the terminal [t]; the
    marker [EPSILON] stands for the empty form. *)
Definition FIRST (α : list string) (t : string) : Prop :=
  t ∈ lexemes ∧ (∃ β, derives α (t :: β)) ∨ t = EPSILON ∧ derives α [].

(** The least relation with [FOLLOW start end] closed under the rules. *)
Inductive FOLLOW (start : string) : string → string → Prop :=
  | follow_start : FOLLOW start start "EOF"
  | follow_first r α B β t :
      r ∈ rules → rhs r = α ++ B :: β → B ∈ nonTerms →
      FIRST β t → t ≠ EPSILON → FOLLOW start B t
  | follow_lhs r α B β t :
      r ∈ rules → rhs r = α ++ B :: β → B ∈ nonTerms →
      derives β [] → FOLLOW start (lhs r) t → FOLLOW start B t.
End spec.

(** The shape of a builder after [Init]. *)
Record wf (b : t) : Prop := {
  wf_lhs r : r ∈ m_rules b → lhs r ∈ m_nonTerms b;
  wf_disjoint s : s ∈ m_lexemes b → s ∉ m_nonTerms b;
  wf_symbol r s : r ∈ m_rules b → s ∈ rhs r → s ∈ m_lexemes b ∨ s ∈ m_nonTerms b;
  wf_start : ∃ rs, m_rules b = start_rule :: rs;
}.

(** ** Saturation

    Both loops run passes of insertions of a contribution, computed from the
    sets so far, into the set of a nonterminal. *)

Definition eqv (g g' : SymbolSets) : Prop := ∀ A, sets_of g A = sets_of g' A.

#[export] Instance eqv_equiv : Equivalence eqv.
Proof. split; repeat intro; congruence || (etrans; eauto). Qed.

#[export] Instance sets_of_proper : Proper (eqv ==> (=) ==> (=)) sets_of.
Proof. by intros g g' Hg A _ <-. Qed.

Lemma sets_of_insert A X g B :
  sets_of (sets_insert A X g) B = if decide (A = B) then sets_of g A ∪ X else sets_of g B.
Proof.
  unfold sets_insert, sets_of at 1. destruct (decide (A = B)) as [->|].
  - by rewrite lookup_insert_eq.
  - by rewrite lookup_insert_ne.
Qed.

Lemma sets_insert_twice A X Y g :
  sets_insert A Y (sets_insert A X g) = sets_insert A (X ∪ Y) g.
Proof.
  unfold sets_insert at 1 3. rewrite sets_of_insert decide_True // -assoc_L.
  unfold sets_insert. by rewrite insert_insert_eq.
Qed.

Lemma sets_of_empty nonTerms A : sets_of (empty_sets nonTerms) A = ∅.
Proof. unfold sets_of, empty_sets. rewrite lookup_gset_to_gmap. by case_guard. Qed.

(** An insertion: the target and the contribution. *)
Definition insertion : Type := string * (SymbolSets → gset string).

Definition ins_step (s : SymbolSets * bool) (i : insertion) : SymbolSets * bool :=
  let '(g, changed) := s in
  let g' := sets_insert i.1 (i.2 g) g in
  (g', changed || bool_decide (size (sets_of g i.1) < size (sets_of g' i.1))).

Definition ins_pass (l : list insertion) (g : SymbolSets) : SymbolSets * bool :=
  foldl ins_step (g, false) l.

Section saturate.
Variables (K U : gset string) (P : string → string → Prop) (l : list insertion).

(** [P A t]: what may be in the set of [A]. *)
Definition sound (g : SymbolSets) : Prop := ∀ A t, t ∈ sets_of g A → P A t.

Hypothesis P_bounded : ∀ A t, P A t → t ∈ U.
Hypothesis l_target : ∀ i, i ∈ l → i.1 ∈ K.
Hypothesis l_sound : ∀ i g t, i ∈ l → sound g → t ∈ i.2 g → P i.1 t.
Hypothesis l_proper : ∀ i g g', i ∈ l → eqv g g' → i.2 g = i.2 g'.

Definition weight (g : SymbolSets) : nat :=
  sum_list_with (λ A, size (sets_of g A)) (elements K).

Lemma sum_list_with_le {A} (f h : A → nat) (k : list A) :
  (∀ x, x ∈ k → f x ≤ h x) → sum_list_with f k ≤ sum_list_with h k.
Proof.
  induction k as [|x k IH]; cbn; intros Hle; [done|].
  pose proof (Hle x ltac:(left)). specialize (IH ltac:(intros; apply Hle; by right)). lia.
Qed.

Lemma sum_list_with_lt {A} (f h : A → nat) (k : list A) x :
  x ∈ k → (∀ x, x ∈ k → f x ≤ h x) → f x < h x → sum_list_with f k < sum_list_with h k.
Proof.
  induction k as [|y k IH]; cbn; [set_solver|]. intros Hx Hle Hlt.
  pose proof (Hle y ltac:(left)).
  pose proof (sum_list_with_le f h k ltac:(intros; apply Hle; by right)).
  apply elem_of_cons in Hx as [->|Hx]; [lia|].
  specialize (IH Hx ltac:(intros; apply Hle; by right) Hlt). lia.
Qed.

Definition grows (g g' : SymbolSets) : Prop := ∀ A, sets_of g A ⊆ sets_of g' A.

Lemma insert_grows A X g : grows g (sets_insert A X g).
Proof. intros B. rewrite sets_of_insert. case_decide; set_solver. Qed.

Lemma grows_trans g1 g2 g3 : grows g1 g2 → grows g2 g3 → grows g1 g3.
Proof. intros H1 H2 A. etrans; [apply H1|apply H2]. Qed.

Lemma grows_weight g g' : grows g g' → weight g ≤ weight g'.
Proof. intros H. apply sum_list_with_le. intros A _. by apply subseteq_size. Qed.

Lemma weight_bound g : sound g → weight g ≤ size K * size U.
Proof.
  intros Hs. unfold weight. rewrite /size /set_size.
  assert (∀ k, sum_list_with (λ A, size (sets_of g A)) k ≤ length k * size U) as Hk.
  { induction k as [|A k IH]; cbn; [done|].
    pose proof (subseteq_size (sets_of g A) U ltac:(intros x Hx; eauto)). lia. }
  apply Hk.
Qed.

(** What one pass does, from any starting flag. *)
Lemma pass_spec k g ch :
  (∀ i, i ∈ k → i ∈ l) → sound g →
  let s' := foldl ins_step (g, ch) k in
  sound s'.1 ∧ grows g s'.1
  ∧ (s'.2 = true → ch = true ∨ weight g < weight s'.1)
  ∧ (s'.2 = false → ch = false ∧ eqv g s'.1 ∧ ∀ i, i ∈ k → i.2 g ⊆ sets_of g i.1).
Proof.
  revert g ch. induction k as [|i k IH]; intros g ch Hk Hg; cbn.
  { split_and!; [done|intros A; done|by left|].
    intros ->. split_and!; [done|done|set_solver]. }
  set (g1 := sets_insert i.1 (i.2 g) g). set (b := bool_decide _).
  assert (i ∈ l) as Hi by (apply Hk; left).
  assert (sound g1) as Hg1.
  { intros A t. unfold g1. rewrite sets_of_insert. case_decide; [subst A|apply Hg].
    intros [Ht|Ht]%elem_of_union; [by apply Hg|by eapply l_sound]. }
  destruct (IH g1 (ch || b) ltac:(intros; apply Hk; by right) Hg1)
    as (Hs & Hgr & Ht & Hf). cbn in *.
  pose proof (insert_grows i.1 (i.2 g) g) as Hgr1. fold g1 in Hgr1.
  split_and!; [done|by eapply grows_trans| |].
  - intros H'. destruct (Ht H') as [Hor|Hw].
    + apply orb_true_iff in Hor as [?|Hb]; [by left|right].
      apply bool_decide_eq_true in Hb.
      apply Nat.lt_le_trans with (weight g1); [|by apply grows_weight].
      apply sum_list_with_lt with i.1; [by apply elem_of_elements, l_target| |done].
      intros A _. by apply subseteq_size.
    + right. pose proof (grows_weight _ _ Hgr1). lia.
  - intros H'. destruct (Hf H') as (Hor & Heq & Hcl).
    apply orb_false_iff in Hor as [-> Hb]. apply bool_decide_eq_false in Hb.
    assert (sets_of g i.1 = sets_of g1 i.1) as Hsame.
    { apply set_eq. intros x. split; [apply Hgr1|].
      intros Hx. destruct (decide (x ∈ sets_of g i.1)); [done|].
      exfalso. apply Hb, subset_size. split; [apply Hgr1|]. intros Hsub. by apply Hsub in Hx. }
    assert (eqv g g1) as Hgg1.
    { intros A. destruct (decide (i.1 = A)) as [<-|Hne]; [done|].
      unfold g1. by rewrite sets_of_insert decide_False. }
    split_and!; [done|by etrans|]. intros i' [->|Hi']%elem_of_cons.
    + rewrite Hsame. unfold g1. rewrite sets_of_insert decide_True //. set_solver.
    + rewrite (l_proper i' g g1 (Hk _ ltac:(by right)) Hgg1) Hgg1. by apply Hcl.
Qed.

Lemma saturate n g :
  sound g → size K * size U < n →
  ∃ g', while_changed (ins_pass l) n g = Ok g' ∧ sound g' ∧ grows g g'
    ∧ ∀ i, i ∈ l → i.2 g' ⊆ sets_of g' i.1.
Proof.
  intros Hg Hn.
  destruct (while_changed_spec (ins_pass l) (λ g', sound g' ∧ grows g g')
    (λ g', ∀ i, i ∈ l → i.2 g' ⊆ sets_of g' i.1) weight (size K * size U) n g)
    as (g' & ? & [? ?] & ?); try done.
  - intros g1 [H1 H1']. destruct (pass_spec l g1 false) as (? & ? & _); try done.
    split; [done|by eapply grows_trans].
  - intros g1 [H1 H1'] Hc. destruct (pass_spec l g1 false) as (_ & _ & Ht & _); try done.
    by destruct (Ht Hc).
  - intros g1 [H1 H1'] Hc. destruct (pass_spec l g1 false) as (_ & _ & _ & Hf); try done.
    destruct (Hf Hc) as (_ & Heq & Hcl). intros i Hi.
    rewrite -(l_proper i g1 _ Hi Heq) -Heq. by apply Hcl.
  - intros g1 [H1 _]. by apply weight_bound.
  - split; [done|]. by intros A.
  - lia.
  - by exists g'.
Qed.
End saturate.

(** ** FIRST of a form, from the sets *)

Section first_of.
Variable lexemes : gset string.
Hypothesis epsilon_not_lexeme : EPSILON ∉ lexemes.

(** Membership in [first_of], by recursion on the form. *)
Fixpoint in_first (g : SymbolSets) (α : list string) (t : string) : Prop :=
  match α with
  | [] => t = EPSILON
  | s :: α => if decide (s ∈ lexemes) then t = s
              else t ∈ sets_of g s ∧ t ≠ EPSILON
                   ∨ EPSILON ∈ sets_of g s ∧ in_first g α t
  end.

Lemma first_loop_spec g s α acc t :
  t ∈ first_loop lexemes g (s :: α) acc ↔ t ∈ acc ∨ in_first g (s :: α) t.
Proof.
  revert s acc. induction α as [|s' α IH]; intros s acc; cbn [first_loop in_first].
  - case_decide; [set_solver|]. case_decide; set_solver.
  - case_decide; [set_solver|]. case_decide as He; [set_solver|].
    rewrite IH. cbn [in_first]. set_solver.
Qed.

Lemma first_of_spec g α t : t ∈ first_of lexemes g α ↔ in_first g α t.
Proof.
  destruct α as [|s α]; [cbn; set_solver|]. unfold first_of.
  rewrite first_loop_spec. set_solver.
Qed.

Lemma in_first_app g α β t :
  in_first g (α ++ β) t ↔ (in_first g α t ∧ t ≠ EPSILON) ∨ (in_first g α EPSILON ∧ in_first g β t).
Proof.
  induction α as [|s α IH]; cbn; [naive_solver|]. case_decide; [naive_solver|].
  rewrite IH. naive_solver.
Qed.

Lemma first_of_proper g g' α : eqv g g' → first_of lexemes g α = first_of lexemes g' α.
Proof.
  intros Hg. apply set_eq. intros t. rewrite !first_of_spec.
  induction α as [|s α IH]; cbn; [done|]. case_decide; [done|]. by rewrite IH (Hg s).
Qed.
End first_of.

(** ** Derivations *)

Section derivations.
Variable rules : Rules.
Implicit Types (α β u v : list string).

Lemma step_context u v α β : step rules α β → step rules (u ++ α ++ v) (u ++ β ++ v).
Proof.
  destruct 1 as [u' r v' Hr].
  replace (u ++ (u' ++ lhs r :: v') ++ v) with ((u ++ u') ++ lhs r :: (v' ++ v))
    by by rewrite -!app_assoc.
  replace (u ++ (u' ++ rhs r ++ v') ++ v) with ((u ++ u') ++ rhs r ++ (v' ++ v))
    by by rewrite -!app_assoc.
  by constructor.
Qed.

Lemma derives_context u v α β :
  derives rules α β → derives rules (u ++ α ++ v) (u ++ β ++ v).
Proof.
  induction 1 as [|α1 α2 α3 Hs _ IH]; [done|].
  eapply rtc_l; [by apply step_context|done].
Qed.

Lemma derives_rule r : r ∈ rules → derives rules [lhs r] (rhs r).
Proof.
  intros Hr. apply rtc_once. pose proof (step_rule rules [] r [] Hr) as Hs.
  by rewrite app_nil_r in Hs.
Qed.

Lemma derives_app α α' β β' :
  derives rules α α' → derives rules β β' → derives rules (α ++ β) (α' ++ β').
Proof.
  intros H1 H2. transitivity (α' ++ β).
  - apply (derives_context [] β _ _ H1).
  - pose proof (derives_context α' [] _ _ H2) as H. by rewrite !app_nil_r in H.
Qed.
End derivations.

(** ** The FIRST fixpoint *)

Section first_fixpoint.
Variable b : t.
Hypothesis Hwf : wf b.
Hypothesis Heps : EPSILON ∉ m_lexemes b.

Definition first_insertion (r : GuidedRule) : insertion :=
  (lhs r, λ g, first_of (m_lexemes b) g (rhs r)).

Lemma guides_pass_ins g :
  guides_pass (m_lexemes b) (m_rules b) g = ins_pass (first_insertion <$> m_rules b) g.
Proof.
  unfold guides_pass, ins_pass. generalize (g, false). induction (m_rules b) as [|r rs IH];
    intros s; cbn; [done|]. rewrite IH. by destruct s.
Qed.

(** What may be in the FIRST set of a nonterminal. *)
Definition first_of_nonterm (A t : string) : Prop :=
  FIRST (m_rules b) (m_lexemes b) [A] t.

Lemma in_first_sound g α t :
  sound first_of_nonterm g → in_first (m_lexemes b) g α t →
  FIRST (m_rules b) (m_lexemes b) α t.
Proof.
  intros Hg. revert t. induction α as [|s α IH]; intros t; cbn.
  { intros ->. right. split; [done|]. constructor. }
  case_decide as Hs.
  { intros ->. left. split; [done|]. exists α. constructor. }
  intros [[Ht Hne]|[He Ht]].
  - destruct (Hg _ _ Ht) as [[Hl [β Hd]]|[? _]]; [|done].
    left. split; [done|]. exists (β ++ α). apply (derives_context _ [] α _ _ Hd).
  - destruct (Hg _ _ He) as [[Hl _]|[_ Hd]]; [done|].
    pose proof (derives_context _ [] α _ _ Hd) as Hctx. cbn in Hctx.
    destruct (IH _ Ht) as [[Hl [β Hβ]]|[-> Hβ]]; [left|right]; (split; [done|]).
    + exists β. by etrans.
    + by etrans.
Qed.

Definition first_closed (g : SymbolSets) : Prop :=
  ∀ r, r ∈ m_rules b → first_of (m_lexemes b) g (rhs r) ⊆ sets_of g (lhs r).

Lemma in_first_step g α β t :
  first_closed g → step (m_rules b) α β →
  in_first (m_lexemes b) g β t → in_first (m_lexemes b) g α t.
Proof.
  intros Hcl [u r v Hr]. rewrite !in_first_app; [|done..]. cbn.
  rewrite decide_False; [|intros ?%(wf_disjoint _ Hwf); by apply H, (wf_lhs _ Hwf)].
  assert (∀ t, in_first (m_lexemes b) g (rhs r) t → t ∈ sets_of g (lhs r)) as Hin.
  { intros t' ?. by apply (Hcl r Hr), first_of_spec. }
  naive_solver.
Qed.

Lemma in_first_complete g α t :
  first_closed g → FIRST (m_rules b) (m_lexemes b) α t → in_first (m_lexemes b) g α t.
Proof.
  intros Hcl.
  assert (∀ β, derives (m_rules b) α β → in_first (m_lexemes b) g β t →
    in_first (m_lexemes b) g α t) as Hback.
  { induction 1 as [|α1 α2 α3 Hs _ IH]; [done|]. intros H. by eapply in_first_step, IH. }
  intros [[Ht [β Hβ]]|[-> Hd]]; (eapply Hback; [done|]); cbn; [|done].
  by rewrite decide_True.
Qed.

Lemma fixpoint_fuel_enough (U : gset string) :
  size U ≤ 1 + size (m_lexemes b) → size (m_nonTerms b) * size U < fixpoint_fuel b.
Proof. unfold fixpoint_fuel. intros. nia. Qed.

Lemma build_guides_spec :
  ∃ g, build_guides b = Ok (Mk (m_rules b) (m_nonTerms b) (m_lexemes b) g)
    ∧ sound first_of_nonterm g ∧ first_closed g.
Proof.
  destruct (saturate (m_nonTerms b) ({[EPSILON]} ∪ m_lexemes b) first_of_nonterm
    (first_insertion <$> m_rules b)) with (n := fixpoint_fuel b) (g := empty_sets (m_nonTerms b))
    as (g & Hg & Hs & _ & Hcl).
  - intros A t [[? _]|[-> _]]; set_solver.
  - intros i (r & -> & Hr)%list_elem_of_fmap. by apply (wf_lhs _ Hwf).
  - intros i g t (r & -> & Hr)%list_elem_of_fmap Hg Ht. cbn in *.
    apply first_of_spec, (in_first_sound g) in Ht; [|done..].
    destruct Ht as [[Hl [β Hβ]]|[-> Hβ]]; [left|right]; (split; [done|]).
    + exists β. etrans; [by apply derives_rule|done].
    + etrans; [by apply derives_rule|done].
  - intros i g g' (r & -> & Hr)%list_elem_of_fmap Hgg. by apply first_of_proper.
  - intros A t. rewrite sets_of_empty. set_solver.
  - apply fixpoint_fuel_enough. rewrite size_union_alt size_singleton.
    pose proof (subseteq_size (m_lexemes b ∖ {[EPSILON]}) (m_lexemes b)). set_solver by lia.
  - exists g. unfold build_guides. split_and!; [|done|].
    + by rewrite (while_changed_ext _ _ _ _ guides_pass_ins) Hg.
    + intros r Hr. apply (Hcl (first_insertion r)). by apply list_elem_of_fmap_2.
Qed.

Lemma first_of_correct g α t :
  sound first_of_nonterm g → first_closed g →
  t ∈ first_of (m_lexemes b) g α ↔ FIRST (m_rules b) (m_lexemes b) α t.
Proof.
  intros Hs Hc. rewrite first_of_spec; [|done]. split.
  - by apply in_first_sound.
  - by apply in_first_complete.
Qed.
End first_fixpoint.

(** ** The FOLLOW fixpoint *)

Section follow_fixpoint.
Variable b : t.
Hypothesis Hwf : wf b.
Hypothesis Heps : EPSILON ∉ m_lexemes b.
Hypothesis Hsound : sound (first_of_nonterm b) (m_guides b).
Hypothesis Hclosed : first_closed b (m_guides b).

Lemma GetFirst_correct α t :
  t ∈ GetFirst b α ↔ FIRST (m_rules b) (m_lexemes b) α t.
Proof. by apply first_of_correct. Qed.

Definition nullable (α : list string) : Prop := EPSILON ∈ GetFirst b α.

(** The contribution of the occurrence of [B] before [rest] in a rule of [A]. *)
Definition follow_contrib (A B : string) (rest : list string) (f : SymbolSets) : gset string :=
  (GetFirst b rest ∖ {[EPSILON]})
  ∪ if decide (EPSILON ∈ GetFirst b rest ∨ rest = [])
    then sets_of (sets_insert B (GetFirst b rest ∖ {[EPSILON]}) f) A else ∅.

Fixpoint rule_insertions (A : string) (rhs : list string) : list insertion :=
  match rhs with
  | [] => []
  | B :: rest =>
      (if decide (B ∈ m_nonTerms b) then [(B, follow_contrib A B rest)] else [])
      ++ rule_insertions A rest
  end.

Definition follow_insertions : list insertion :=
  m_rules b ≫= λ r, rule_insertions (lhs r) (rhs r).

Lemma follow_symbol_ins A B rest s :
  B ∈ m_nonTerms b → follow_symbol b A B rest s = ins_step s (B, follow_contrib A B rest).
Proof.
  intros HB. destruct s as [f ch]. unfold follow_symbol, ins_step, follow_contrib.
  rewrite decide_True //. cbn [fst snd].
  case_decide; [by rewrite sets_insert_twice|]. by rewrite right_id_L.
Qed.

Lemma follow_rule_ins A rhs s :
  follow_rule b A rhs s = foldl ins_step s (rule_insertions A rhs).
Proof.
  revert s. induction rhs as [|B rest IH]; intros s; cbn [follow_rule rule_insertions foldl]; [done|].
  rewrite IH foldl_app. case_decide as HB.
  - by rewrite follow_symbol_ins.
  - destruct s. cbn. by rewrite decide_False.
Qed.

Lemma follow_pass_ins f : follow_pass b f = ins_pass follow_insertions f.
Proof.
  unfold follow_pass, ins_pass, follow_insertions. generalize (f, false).
  induction (m_rules b) as [|r rs IH]; intros s; cbn; [done|].
  by rewrite foldl_app IH follow_rule_ins.
Qed.

Lemma rule_insertions_elem A rhs i :
  i ∈ rule_insertions A rhs ↔
  ∃ α B β, rhs = α ++ B :: β ∧ B ∈ m_nonTerms b ∧ i = (B, follow_contrib A B β).
Proof.
  induction rhs as [|B rest IH]; cbn.
  { split; [set_solver|]. intros (α & ? & ? & H & _). by destruct α. }
  rewrite elem_of_app IH. split.
  - intros [Hi|(α & B' & β & -> & ? & ->)].
    + case_decide; [|set_solver]. apply list_elem_of_singleton in Hi as ->. by exists [], B, rest.
    + by exists (B :: α), B', β.
  - intros ([|x α] & B' & β & [= -> ->] & HB & ->); [left|right].
    + rewrite decide_True //. by apply list_elem_of_singleton.
    + by exists α, B', β.
Qed.

Lemma follow_insertions_elem i :
  i ∈ follow_insertions ↔
  ∃ r α B β, r ∈ m_rules b ∧ rhs r = α ++ B :: β ∧ B ∈ m_nonTerms b
    ∧ i = (B, follow_contrib (lhs r) B β).
Proof.
  unfold follow_insertions. rewrite list_elem_of_bind. split.
  - intros (r & (α & B & β & ?)%rule_insertions_elem & ?). exists r, α, B, β. naive_solver.
  - intros (r & α & B & β & ? & ?). exists r. rewrite rule_insertions_elem. naive_solver.
Qed.

Section start.
Variable start : string.

Definition follow_of (B t : string) : Prop :=
  FOLLOW (m_rules b) (m_lexemes b) (m_nonTerms b) start B t.

Lemma follow_bounded B t : follow_of B t → t ∈ ({["EOF"]} ∪ m_lexemes b : gset string).
Proof.
  induction 1 as [|? ? ? ? ? ? ? ? Hf Hne|]; [set_solver| |done].
  destruct Hf as [[? _]|[? _]]; set_solver.
Qed.

Lemma compute_follows_spec init :
  sound follow_of init → "EOF" ∈ sets_of init start →
  ∃ f, compute_follows b init = Ok f ∧ ∀ B t, t ∈ sets_of f B ↔ follow_of B t.
Proof.
  intros Hinit Hstart.
  destruct (saturate (m_nonTerms b) ({["EOF"]} ∪ m_lexemes b) follow_of follow_insertions)
    with (n := fixpoint_fuel b) (g := init) as (f & Hf & Hs & Hgr & Hcl); try done.
  - apply follow_bounded.
  - intros i (r & α & B & β & Hr & _ & HB & ->)%follow_insertions_elem. done.
  - intros i f t (r & α & B & β & Hr & Hrhs & HB & ->)%follow_insertions_elem Hf. cbn.
    unfold follow_contrib. intros [[Ht Hne]%elem_of_difference|Ht]%elem_of_union.
    + apply GetFirst_correct in Ht. eapply follow_first; try done. set_solver.
    + case_decide as Hn; [|set_solver].
      assert (derives (m_rules b) β []) as Hβ.
      { destruct Hn as [[[? _]|[_ ?]]%GetFirst_correct| ->]; [done|done|constructor]. }
      rewrite sets_of_insert in Ht. case_decide as HBA.
      * subst B. apply elem_of_union in Ht as [Ht|[Ht Hne]%elem_of_difference].
        -- eapply follow_lhs; try done. by apply Hf.
        -- apply GetFirst_correct in Ht. eapply follow_first; try done. set_solver.
      * eapply follow_lhs; try done. by apply Hf.
  - intros i f f' (r & α & B & β & Hr & Hrhs & HB & ->)%follow_insertions_elem Hff. cbn.
    unfold follow_contrib. case_decide; [|done]. rewrite !sets_of_insert.
    by rewrite (Hff (lhs r)) (Hff B).
  - apply fixpoint_fuel_enough. rewrite size_union_alt size_singleton.
    pose proof (subseteq_size (m_lexemes b ∖ {["EOF"]}) (m_lexemes b)). set_solver by lia.
  - exists f. split.
    { unfold compute_follows. by rewrite (while_changed_ext _ _ _ _ follow_pass_ins). }
    intros B t. split; [apply Hs|].
    induction 1 as [|r α B β t Hr Hrhs HB Hft Hne|r α B β t Hr Hrhs HB Hn _ IH].
    + by apply Hgr.
    + apply (Hcl (B, follow_contrib (lhs r) B β)).
      { apply follow_insertions_elem. naive_solver. }
      cbn. unfold follow_contrib. apply GetFirst_correct in Hft. set_solver.
    + apply (Hcl (B, follow_contrib (lhs r) B β)).
      { apply follow_insertions_elem. naive_solver. }
      cbn. unfold follow_contrib. rewrite decide_True.
      2: { left. apply GetFirst_correct. by right. }
      rewrite sets_of_insert. case_decide; set_solver.
Qed.
End start.
End follow_fixpoint.

(** The seed of the loop: [{start}] has the end of the input. *)
Lemma seed_sound b start init :
  (∀ A, sets_of init A = ∅) →
  sound (follow_of b start) (sets_insert start {["EOF"]} init).
Proof.
  intros Hi A t. rewrite sets_of_insert !Hi. case_decide; [subst A|set_solver].
  rewrite left_id_L elem_of_singleton. intros ->. constructor.
Qed.

Lemma seed_start start init : "EOF" ∈ sets_of (sets_insert start {["EOF"]} init) start.
Proof. rewrite sets_of_insert decide_True //. set_solver. Qed.

(** ** The grammar text *)

Record init_ok (s : init_state) : Prop := {
  io_lhs r : r ∈ is_rules s → lhs r ∈ is_nonTerms s;
  io_current : currentLhs s ≠ "" → currentLhs s ∈ is_nonTerms s;
  io_start : ∃ rs, is_rules s = start_rule :: rs;
}.

Lemma init_word_ok s w : init_ok s → init_ok (init_word s w).
Proof.
  intros [Hl Hc [rs Hs]]. unfold init_word.
  assert (∀ r : GuidedRule, r ∈ is_rules s ++ [MkRule (currentLhs s) (currentRhs s) ∅] →
    currentLhs s ≠ "" → lhs r ∈ is_nonTerms s) as Hpush.
  { intros r [?|Hr]%elem_of_app ?; [by apply Hl|]. apply list_elem_of_singleton in Hr as ->. by apply Hc. }
  case_decide; [|destruct (expectEq s); repeat case_decide]; split; cbn;
    first [by rewrite Hs; eexists | done | by auto | set_solver].
Qed.

Lemma Init_ok content : wf (Init content).
Proof.
  unfold Init. set (s := foldl _ _ _).
  assert (init_ok s) as [Hl Hc Hs].
  { unfold s. generalize (split_words content []). intros ws.
    assert (init_ok (MkInit [start_rule] {["_S_PRIME_"]} "" [] false)) as Hi.
    { split; cbn; [set_solver|done|by exists []]. }
    revert Hi. generalize (MkInit [start_rule] {["_S_PRIME_"]} "" [] false).
    induction ws as [|w ws IH]; intros s0 H0; cbn; [done|]. by apply IH, init_word_ok. }
  split; cbn; try done; unfold collect_lexemes.
  - intros x. rewrite elem_of_list_to_set list_elem_of_filter. naive_solver.
  - intros r x Hr Hx. destruct (decide (x ∈ is_nonTerms s)); [by right|left].
    rewrite elem_of_list_to_set list_elem_of_filter list_elem_of_bind. naive_solver.
Qed.

Lemma wf_guides b g : wf b → wf (Mk (m_rules b) (m_nonTerms b) (m_lexemes b) g).
Proof. by intros []. Qed.

(** [GetFollows] has an entry for every nonterminal. *)
Lemma compute_follows_total b init f :
  compute_follows b init = Ok f → (∀ A, A ∈ m_nonTerms b → is_Some (init !! A)) →
  ∀ A, A ∈ m_nonTerms b → is_Some (f !! A).
Proof.
  unfold compute_follows. intros Hf Hi.
  eapply (while_changed_inv _ (λ f, ∀ A, A ∈ m_nonTerms b → is_Some (f !! A))); [|exact Hi|exact Hf].
  clear f init Hf Hi. intros f Hf. rewrite follow_pass_ins. unfold ins_pass.
  generalize (follow_insertions b) false. intros l. revert f Hf.
  induction l as [|i l IH]; intros f Hf ch; cbn; [done|]. apply IH.
  intros A HA. unfold sets_insert. destruct (decide (A = i.1)) as [-> |].
  - rewrite lookup_insert_eq. by eexists.
  - rewrite lookup_insert_ne //. by apply Hf.
Qed.

(** The FOLLOW sets the table builder is given. *)
Lemma follows_spec b :
  wf b → EPSILON ∉ m_lexemes b →
  ∃ guided b' follows, BuildGuidedRules b = Ok (guided, b')
    ∧ m_rules b' = m_rules b ∧ m_nonTerms b' = m_nonTerms b ∧ GetFollows b' = Ok follows
    ∧ (∀ B t, t ∈ sets_of follows B ↔
         FOLLOW (m_rules b) (m_lexemes b) (m_nonTerms b) "_S_PRIME_" B t)
    ∧ ∀ A, A ∈ m_nonTerms b → is_Some (follows !! A).
Proof.
  intros Hwf Heps. destruct (build_guides_spec b Hwf Heps) as (g & Hb & Hs & Hc).
  unfold BuildGuidedRules. rewrite Hb. cbn [mbind result_bind]. set (b' := Mk _ _ _ g).
  destruct (compute_follows_spec b' (wf_guides b g Hwf) Heps Hs Hc "program"
    (sets_insert "program" {["EOF"]} ∅)) as (f & Hf & _); [by apply seed_sound|apply seed_start|].
  rewrite Hf. eexists _, b'.
  destruct (compute_follows_spec b' (wf_guides b g Hwf) Heps Hs Hc "_S_PRIME_"
    (sets_insert "_S_PRIME_" {["EOF"]} (empty_sets (m_nonTerms b')))) as (f' & Hf' & Hfol).
  { apply seed_sound, sets_of_empty. }
  { apply seed_start. }
  exists f'. split_and!; try done. apply (compute_follows_total b' _ _ Hf').
  intros A HA. unfold sets_insert. destruct (decide (A = "_S_PRIME_")) as [-> |].
  - rewrite lookup_insert_eq. by eexists.
  - rewrite lookup_insert_ne //. unfold empty_sets. rewrite lookup_gset_to_gmap option_guard_True //.
Qed.

(** ** Properties of the grammar front end *)

(** Whatever the grammar text, reading it gives a well-formed builder:
    every rule defines a nonterminal, every symbol of a right-hand side is a
    terminal or a nonterminal and never both, and the first rule is the
    augmented start rule. *)
Theorem Init_wf content :
  let b := Init content in
  wf b ∧ m_guides b = ∅ ∧ (∀ s, s ∈ m_lexemes b → ∃ r, r ∈ m_rules b ∧ s ∈ rhs r).
Proof.
  split_and!; [apply Init_ok|done|]. intros s. cbn.
  unfold collect_lexemes. rewrite elem_of_list_to_set list_elem_of_filter list_elem_of_bind.
  naive_solver.
Qed.

(** C10. [BuildGuidedRules] ends, and the sets it leaves in the builder answer
    [GetFirst] with FIRST of any form; the guide sets of the rules it returns
    are the prediction sets of the rules. *)
Theorem BuildGuidedRules_first b :
  wf b → EPSILON ∉ m_lexemes b →
  ∃ guided b', BuildGuidedRules b = Ok (guided, b')
    ∧ m_rules b' = m_rules b ∧ m_nonTerms b' = m_nonTerms b ∧ m_lexemes b' = m_lexemes b
    ∧ (∀ α t, t ∈ GetFirst b' α ↔ FIRST (m_rules b) (m_lexemes b) α t)
    ∧ Forall2 (λ r r', lhs r' = lhs r ∧ rhs r' = rhs r ∧ ∀ t, t ∈ guides r' ↔
        FIRST (m_rules b) (m_lexemes b) (rhs r) t ∧ t ≠ EPSILON
        ∨ derives (m_rules b) (rhs r) []
          ∧ FOLLOW (m_rules b) (m_lexemes b) (m_nonTerms b) "program" (lhs r) t)
      (m_rules b) guided.
Proof.
  intros Hwf Heps. destruct (build_guides_spec b Hwf Heps) as (g & Hb & Hs & Hc).
  unfold BuildGuidedRules. rewrite Hb. cbn [mbind result_bind].
  set (b' := Mk _ _ _ g).
  destruct (compute_follows_spec b' (wf_guides b g Hwf) Heps Hs Hc "program"
    (sets_insert "program" {["EOF"]} ∅)) as (f & Hf & Hfol).
  { by apply seed_sound. }
  { apply seed_start. }
  rewrite Hf. eexists _, b'. split; [done|]. split_and!; try done.
  { intros α t. apply (GetFirst_correct b' (wf_guides b g Hwf) Heps Hs Hc). }
  apply Forall2_fmap_r, Forall_Forall2_diag, Forall_forall. intros r Hr.
  unfold compose, guided_rule. cbn [lhs rhs guides]. split_and!; try done. intros t.
  rewrite elem_of_union elem_of_difference elem_of_singleton.
  rewrite (GetFirst_correct b' (wf_guides b g Hwf) Heps Hs Hc (rhs r) t).
  assert (EPSILON ∈ GetFirst b' (rhs r) ↔ derives (m_rules b) (rhs r) []) as Hnull.
  { rewrite (GetFirst_correct b' (wf_guides b g Hwf) Heps Hs Hc). unfold FIRST. cbn. naive_solver. }
  case_decide as Hn; rewrite Hnull in Hn; rewrite ?Hfol; set_solver.
Qed.

(** The expression grammar used by the witnesses. *)
Definition expr_grammar : list ascii := chars
  "program = expr ; expr = term tail ; tail = plus term tail | EPSILON ; term = identifier | open expr close ;".

Lemma expr_grammar_epsilon : EPSILON ∉ m_lexemes (Init expr_grammar).
Proof. refine (bool_decide_unpack _ _). by vm_compute. Qed.

Lemma BuildGuidedRules_first_witness :
  let b := Init expr_grammar in
  wf b ∧ (EPSILON ∉ m_lexemes b)
  ∧ ∃ guided b', BuildGuidedRules b = Ok (guided, b')
    ∧ m_rules b' = m_rules b ∧ m_nonTerms b' = m_nonTerms b ∧ m_lexemes b' = m_lexemes b
    ∧ (∀ α t, t ∈ GetFirst b' α ↔ FIRST (m_rules b) (m_lexemes b) α t)
    ∧ Forall2 (λ r r', lhs r' = lhs r ∧ rhs r' = rhs r ∧ ∀ t, t ∈ guides r' ↔
        FIRST (m_rules b) (m_lexemes b) (rhs r) t ∧ t ≠ EPSILON
        ∨ derives (m_rules b) (rhs r) []
          ∧ FOLLOW (m_rules b) (m_lexemes b) (m_nonTerms b) "program" (lhs r) t)
      (m_rules b) guided.
Proof.
  pose proof expr_grammar_epsilon as He.
  split_and!; [apply Init_ok|exact He|].
  apply (BuildGuidedRules_first (Init expr_grammar) (Init_ok _) He).
Defined.

(** C9. [GetFollows], called on the builder [BuildGuidedRules] leaves, ends
    and computes exactly the FOLLOW relation of the augmented grammar. *)
Theorem GetFollows_correct b guided b' :
  wf b → EPSILON ∉ m_lexemes b → BuildGuidedRules b = Ok (guided, b') →
  ∃ follows, GetFollows b' = Ok follows ∧ ∀ B t, t ∈ sets_of follows B ↔
    FOLLOW (m_rules b) (m_lexemes b) (m_nonTerms b) "_S_PRIME_" B t.
Proof.
  intros Hwf Heps Hb'. destruct (build_guides_spec b Hwf Heps) as (g & Hb & Hs & Hc).
  unfold BuildGuidedRules in Hb'. rewrite Hb in Hb'. cbn [mbind result_bind] in Hb'.
  apply result_bind_Ok in Hb' as (? & _ & [= _ <-]).
  apply (compute_follows_spec _ (wf_guides b g Hwf) Heps Hs Hc "_S_PRIME_").
  - apply seed_sound, sets_of_empty.
  - apply seed_start.
Qed.

Lemma GetFollows_correct_witness :
  let b := Init expr_grammar in
  ∃ guided b', wf b ∧ (EPSILON ∉ m_lexemes b) ∧ BuildGuidedRules b = Ok (guided, b')
  ∧ ∃ follows, GetFollows b' = Ok follows ∧ ∀ B t, t ∈ sets_of follows B ↔
    FOLLOW (m_rules b) (m_lexemes b) (m_nonTerms b) "_S_PRIME_" B t.
Proof.
  pose proof expr_grammar_epsilon as He.
  destruct (BuildGuidedRules (Init expr_grammar)) as [[guided b']|e|] eqn:Hb;
    [|by vm_compute in Hb..].
  exists guided, b'. split_and!; [apply Init_ok|exact He|exact Hb|].
  apply (GetFollows_correct (Init expr_grammar) guided b' (Init_ok _) He Hb).
Defined.
