(* ===== verification/TableBuilder.v ===== *)
(** * The SLR table builder

    [src/parser/ParserTypes.h], [TableBuilder.h] and [TableBuilder.cpp].  The
    iteration order of [std::set] decides the numbering of the states and
    which of two reductions wins, so the sets are kept as the sorted lists
    their iteration visits. *)

From S2P Require Import Prelude Grammar.
From Stdlib Require Import Lia.

(** ** [std::set] as a sorted list *)

Section ordered_set.
Context {A : Type} `{EqDecision A} (ltb : A → A → bool).

(** [insert(x)]; the flag is [.second]: was [x] new? *)
Fixpoint oset_insert (x : A) (l : list A) : list A * bool :=
  match l with
  | [] => ([x], true)
  | y :: k =>
      if decide (x = y) then (l, false)
      else if ltb x y then (x :: l, true)
      else let '(k', new) := oset_insert x k in (y :: k', new)
  end.

Definition oset_of_list (l : list A) : list A :=
  foldl (λ s x, (oset_insert x s).1) [] l.
End ordered_set.

(** ** [ParserTypes.h] *)

Module ActionType.
Inductive t := SHIFT | REDUCE | ACCEPT | ERROR.

#[export] Instance t_eq_dec : EqDecision t.
Proof. solve_decision. Defined.
End ActionType.
Export (hints) ActionType.

(** [struct Action]: [type] and [value]. *)
Record Action := MkAction { act_type : ActionType.t; act_value : nat }.

#[export] Instance Action_eq_dec : EqDecision Action.
Proof. solve_decision. Defined.

(** [struct LR0Item] and its [operator<]. *)
Record LR0Item := MkItem { ruleIndex : nat; dotPosition : nat }.

#[export] Instance LR0Item_eq_dec : EqDecision LR0Item.
Proof. solve_decision. Defined.

Definition item_ltb (x y : LR0Item) : bool :=
  if decide (ruleIndex x ≠ ruleIndex y)
  then ruleIndex x <? ruleIndex y
  else dotPosition x <? dotPosition y.

Abbreviation LR0State := (list LR0Item).

Definition state_insert (x : LR0Item) (s : LR0State) : LR0State * bool :=
  oset_insert item_ltb x s.

(** [std::string]'s [operator<]: by unsigned characters. *)
Definition symbol_ltb (a b : string) : bool := bool_decide (String.compare a b = Lt).

(** [std::map<int, std::map<std::string, T>>]: [table[i][sym] = v]. *)
Abbreviation table T := (gmap nat (gmap string T)).

Definition row {T} (t : table T) (i : nat) : gmap string T := default ∅ (t !! i).
Definition table_set {T} (i : nat) (sym : string) (v : T) (t : table T) : table T :=
  <[i := <[sym := v]> (row t i)]> t.

(** ** class TableBuilder *)
Module TableBuilder.

Section builder.
(** [m_rules], [m_nonTerms] and [m_follows] do not change. *)
Variables (rules : Rules) (nonTerms : gset string) (follows : SymbolSets).

(** [m_rules[i].rhs[d]] when [d] is in range. *)
Definition rhs_at (i d : nat) : option string := r ← rules !! i; rhs r !! d.

(** [Closure]: the items [{k, 0}] of the rules of one symbol. *)
Definition add_rules_of (sym : string) (s : LR0State * bool) : LR0State * bool :=
  foldl (λ s k,
    match rules !! k with
    | Some r =>
        if decide (lhs r = sym)
        then let '(state, new) := state_insert (MkItem k 0) s.1 in (state, s.2 || new)
        else s
    | None => s
    end) s (seq 0 (length rules)).

Definition closure_item (s : LR0State * bool) (item : LR0Item) : LR0State * bool :=
  match rhs_at (ruleIndex item) (dotPosition item) with
  | Some nextSymbol => if decide (nextSymbol ∈ nonTerms) then add_rules_of nextSymbol s else s
  | None => s
  end.

(** One round over a copy [current] of the state. *)
Definition closure_pass (current : LR0State) : LR0State * bool :=
  foldl closure_item (current, false) current.

(** Each round that changes something adds an item [{k, 0}]. *)
Definition Closure (state : LR0State) : result LR0State :=
  while_changed closure_pass (S (length rules)) state.

Definition goto_kernel (state : LR0State) (str : string) : LR0State :=
  foldl (λ s item,
    match rhs_at (ruleIndex item) (dotPosition item) with
    | Some sym =>
        if decide (sym = str)
        then (state_insert (MkItem (ruleIndex item) (S (dotPosition item))) s).1 else s
    | None => s
    end) [] state.

Definition GoTo (state : LR0State) (str : string) : result LR0State :=
  Closure (goto_kernel state str).

Definition GetPossibleSymbols (state : LR0State) : list string :=
  oset_of_list symbol_ltb
    (omap (λ item, rhs_at (ruleIndex item) (dotPosition item)) state).

(** The members that change: [m_states], [m_actionTable], [m_gotoTable]. *)
Record t := Mk {
  m_states : list LR0State;
  m_actionTable : table Action;
  m_gotoTable : table nat;
}.

(** The index of the first equal state. *)
Fixpoint find_state (state : LR0State) (states : list LR0State) (i : nat) : option nat :=
  match states with
  | [] => None
  | s :: states => if decide (s = state) then Some i else find_state state states (S i)
  end.

Definition GetOrAddState (state : LR0State) (states : list LR0State)
    : nat * list LR0State :=
  match find_state state states 0 with
  | Some i => (i, states)
  | None => (length states, states ++ [state])
  end.

(** The body of the loop over the symbols of state [i]. *)
Definition build_symbol (i : nat) (state : LR0State) (tb : t) (sym : string) : result t :=
  next ← GoTo state sym;
  if decide (next = []) then Ok tb else
  let '(nextIdx, states) := GetOrAddState next (m_states tb) in
  if decide (sym ∈ nonTerms)
  then Ok (Mk states (m_actionTable tb) (table_set i sym nextIdx (m_gotoTable tb)))
  else Ok (Mk states (table_set i sym (MkAction ActionType.SHIFT nextIdx) (m_actionTable tb))
             (m_gotoTable tb)).

Fixpoint build_symbols (i : nat) (state : LR0State) (syms : list string) (tb : t) : result t :=
  match syms with
  | [] => Ok tb
  | sym :: syms => tb ← build_symbol i state tb sym; build_symbols i state syms tb
  end.

(** A reduction by rule [k] on [f]: an existing shift is kept, an existing
    reduction is replaced. *)
Definition set_reduce (i k : nat) (actions : table Action) (f : string) : table Action :=
  match row actions i !! f with
  | Some (MkAction ActionType.SHIFT _) => actions
  | _ => table_set i f (MkAction ActionType.REDUCE k) actions
  end.

(** The body of the loop over the items of state [i].  [followLhs] is a set
    whose members are handled independently of each other. *)
Definition build_item (i : nat) (actions : table Action) (item : LR0Item) : result (table Action) :=
  match rules !! ruleIndex item with
  | None => Throw (undefined_behaviour "m_rules[item.ruleIndex]")
  | Some rule =>
      if decide (dotPosition item = length (rhs rule)) then
        if decide (lhs rule = "_S_PRIME_")
        then Ok (table_set i "EOF" (MkAction ActionType.ACCEPT 0) actions)
        else match follows !! lhs rule with
             | None => Throw (out_of_range "unordered_map::at")
             | Some followLhs =>
                 Ok (foldl (set_reduce i (ruleIndex item)) actions (elements followLhs))
             end
      else Ok actions
  end.

Fixpoint build_items (i : nat) (items : list LR0Item) (actions : table Action)
    : result (table Action) :=
  match items with
  | [] => Ok actions
  | item :: items => actions ← build_item i actions item; build_items i items actions
  end.

(** One round of the loop over [i]. *)
Definition build_state (i : nat) (state : LR0State) (tb : t) : result t :=
  tb ← build_symbols i state (GetPossibleSymbols state) tb;
  actions ← build_items i state (m_actionTable tb);
  Ok (Mk (m_states tb) actions (m_gotoTable tb)).

Fixpoint build_loop (fuel i : nat) (tb : t) : result t :=
  match fuel with
  | 0 => Diverge
  | S fuel =>
      match m_states tb !! i with
      | None => Ok tb
      | Some state => tb ← build_state i state tb; build_loop fuel (S i) tb
      end
  end.

Definition Build (fuel : nat) : result t :=
  start ← Closure [MkItem 0 0];
  build_loop fuel 0 (Mk [start] ∅ ∅).
End builder.

End TableBuilder.
