(* ===== verification/TableSpec.v ===== *)
(** * The SLR tables: specification and correctness

    The states are the reachable sets of the LR(0) automaton, closed under
    prediction, each once; the tables record its transitions and the SLR
    reductions. *)

From S2P Require Import Prelude Token Grammar GrammarSpec TableBuilder.
From Stdlib Require Import Lia Sorted.
Import TableBuilder.

(** ** Sorted sets *)

Section ordered_set_facts.
Context {A : Type} `{EqDecision A} (ltb : A → A → bool).

Lemma oset_insert_elem x l y : y ∈ (oset_insert ltb x l).1 ↔ y = x ∨ y ∈ l.
Proof.
  induction l as [|z l IH]; cbn; [set_solver|].
  case_decide; [set_solver|]. destruct (ltb x z); [set_solver|].
  destruct (oset_insert ltb x l) as [k new]. cbn in *. set_solver.
Qed.


Lemma oset_insert_flag x l :
  (oset_insert ltb x l).2 = false → x ∈ l ∧ (oset_insert ltb x l).1 = l.
Proof.
  induction l as [|z l IH]; cbn; [done|]. case_decide; [set_solver|].
  destruct (ltb x z); [done|]. destruct (oset_insert ltb x l) as [k new]. cbn in *.
  intros Hf. destruct (IH Hf) as [? ->]. set_solver.
Qed.

(** Strictly sorted lists are the values of a [std::set]. *)
Definition osorted (l : list A) : Prop := StronglySorted (λ x y, ltb x y = true) l.

Hypothesis ltb_trans : ∀ x y z, ltb x y = true → ltb y z = true → ltb x z = true.
Hypothesis ltb_total : ∀ x y, x ≠ y → ltb x y = false → ltb y x = true.
Hypothesis ltb_irrefl : ∀ x, ltb x x = false.

Lemma oset_insert_sorted x l : osorted l → osorted (oset_insert ltb x l).1.
Proof.
  induction 1 as [|z l Hs IH Hall]; cbn.
  { repeat constructor. }
  case_decide as Hxz; [by constructor|]. destruct (ltb x z) eqn:Hlt.
  - constructor; [by constructor|]. constructor; [done|].
    eapply Forall_impl; [done|]. eauto.
  - destruct (oset_insert ltb x l) as [k new] eqn:E. cbn in *. constructor; [done|].
    apply Forall_forall. intros y Hy.
    pose proof (oset_insert_elem x l y) as He. rewrite E in He. apply He in Hy as [->|Hy]; [by auto|].
    rewrite Forall_forall in Hall. by apply Hall.
Qed.

Lemma oset_insert_true x l :
  osorted l → (oset_insert ltb x l).2 = true → x ∉ l.
Proof.
  induction 1 as [|z l Hs IH Hall]; cbn; [set_solver|].
  case_decide as Hxz; [done|]. destruct (ltb x z) eqn:Hlt.
  - intros _ [?|Hx]%elem_of_cons; [done|]. rewrite Forall_forall in Hall.
    pose proof (ltb_trans _ _ _ Hlt (Hall _ Hx)) as Hxx. by rewrite ltb_irrefl in Hxx.
  - destruct (oset_insert ltb x l) as [k new]. cbn in *. intros Hn. set_solver.
Qed.

Lemma osorted_eq l1 l2 :
  osorted l1 → osorted l2 → (∀ x, x ∈ l1 ↔ x ∈ l2) → l1 = l2.
Proof.
  intros H1. revert l2. induction H1 as [|x l1 Hs1 IH Hall1]; intros l2 H2 Heq.
  { destruct l2 as [|y l2]; [done|]. destruct (Heq y) as [_ Hy]. by set_solver. }
  destruct H2 as [|y l2 Hs2 Hall2].
  { destruct (Heq x) as [Hx _]. by set_solver. }
  rewrite !Forall_forall in Hall1, Hall2.
  assert (x = y) as ->.
  { destruct (decide (x = y)) as [|Hne]; [done|].
    assert (x ∈ l2) as Hx by (destruct (Heq x); set_solver).
    assert (y ∈ l1) as Hy by (destruct (Heq y); set_solver).
    pose proof (ltb_trans _ _ _ (Hall1 _ Hy) (Hall2 _ Hx)) as Hxx.
    by rewrite ltb_irrefl in Hxx. }
  f_equal. apply IH; [done|]. intros z. specialize (Heq z). set_unfold.
  assert (z ∈ l1 → z ≠ y) by (intros Hz ->; specialize (Hall1 _ Hz); by rewrite ltb_irrefl in Hall1).
  assert (z ∈ l2 → z ≠ y) by (intros Hz ->; specialize (Hall2 _ Hz); by rewrite ltb_irrefl in Hall2).
  tauto.
Qed.
End ordered_set_facts.

Lemma item_ltb_trans x y z :
  item_ltb x y = true → item_ltb y z = true → item_ltb x z = true.
Proof.
  unfold item_ltb. repeat case_decide; rewrite !Nat.ltb_lt; lia.
Qed.
Lemma item_ltb_total x y : x ≠ y → item_ltb x y = false → item_ltb y x = true.
Proof.
  destruct x as [i d], y as [j e]. unfold item_ltb. cbn.
  repeat case_decide; rewrite ?Nat.ltb_lt ?Nat.ltb_ge; try lia.
  intros Hne ?. destruct (decide (d = e)); [|lia]. destruct Hne. f_equal; lia.
Qed.
Lemma item_ltb_irrefl x : item_ltb x x = false.
Proof. unfold item_ltb. case_decide; [done|]. apply Nat.ltb_irrefl. Qed.

Abbreviation sorted_items := (osorted item_ltb).

Lemma state_insert_elem x s y : y ∈ (state_insert x s).1 ↔ y = x ∨ y ∈ s.
Proof. apply oset_insert_elem. Qed.

Lemma state_insert_sorted x s : sorted_items s → sorted_items (state_insert x s).1.
Proof. apply oset_insert_sorted; eauto using item_ltb_trans, item_ltb_total. Qed.

(** ** The LR(0) automaton *)

Section automaton.
Variables (rules : Rules) (nonTerms : gset string).

(** The items predicted from those of [s]. *)
Inductive closed (s : LR0Item → Prop) : LR0Item → Prop :=
  | closed_base x : s x → closed s x
  | closed_predict x k r :
      closed s x → rhs_at rules (ruleIndex x) (dotPosition x) = Some (lhs r) →
      lhs r ∈ nonTerms → rules !! k = Some r → closed s (MkItem k 0).

(** The items of [s] moved over the symbol [X]. *)
Inductive moved (s : LR0Item → Prop) (X : string) : LR0Item → Prop :=
  | moved_item k d :
      s (MkItem k d) → rhs_at rules k d = Some X → moved s X (MkItem k (S d)).

(** The contents of [Closure] and [GoTo]. *)
Definition is_closure (s c : LR0State) : Prop :=
  sorted_items c ∧ ∀ x, x ∈ c ↔ closed (λ y, y ∈ s) x.
Definition is_goto (s : LR0State) (X : string) (c : LR0State) : Prop :=
  sorted_items c ∧ ∀ x, x ∈ c ↔ closed (moved (λ y, y ∈ s) X) x.

(** The rules predicted by an item, in the order of the scan. *)
Definition predicted (item : LR0Item) : list nat :=
  match rhs_at rules (ruleIndex item) (dotPosition item) with
  | Some B => if decide (B ∈ nonTerms)
              then filter (λ k, lhs <$> rules !! k = Some B) (seq 0 (length rules)) else []
  | None => []
  end.

Lemma predicted_elem item k :
  k ∈ predicted item ↔
  ∃ r, rhs_at rules (ruleIndex item) (dotPosition item) = Some (lhs r)
    ∧ lhs r ∈ nonTerms ∧ rules !! k = Some r.
Proof.
  unfold predicted. destruct (rhs_at _ _ _) as [B|]; [|set_solver]. case_decide.
  - rewrite list_elem_of_filter elem_of_seq. split.
    + intros [(r & Hr & Hk)%fmap_Some _]. exists r. by subst.
    + intros (r & [= ->] & _ & Hk). rewrite Hk. split; [done|].
      apply lookup_lt_Some in Hk. lia.
  - set_solver.
Qed.

Definition add_item (s : LR0State * bool) (k : nat) : LR0State * bool :=
  let '(state, new) := state_insert (MkItem k 0) s.1 in (state, s.2 || new).

Lemma add_rules_of_filter B s :
  add_rules_of rules B s
  = foldl add_item s (filter (λ k, lhs <$> rules !! k = Some B) (seq 0 (length rules))).
Proof.
  unfold add_rules_of. generalize (seq 0 (length rules)). intros ks. revert s.
  induction ks as [|k ks IH]; intros s; cbn [foldl]; [done|]. rewrite filter_cons.
  destruct (rules !! k) as [r|] eqn:Hk; cbn.
  - case_decide as Hr; case_decide as Hr'; try naive_solver.
  - case_decide as Hr; [done|]. apply IH.
Qed.

Lemma closure_pass_items current :
  closure_pass rules nonTerms current = foldl add_item (current, false) (current ≫= predicted).
Proof.
  unfold closure_pass. generalize (current, false).
  induction current as [|item l IH]; intros s; [done|]. rewrite bind_cons foldl_app -IH. cbn [foldl]. f_equal. unfold closure_item, predicted.
  destruct (rhs_at _ _ _); [|done]. case_decide; [apply add_rules_of_filter|done].
Qed.

Lemma add_item_run k s :
  sorted_items s.1 →
  sorted_items (add_item s k).1 ∧ (∀ x, x ∈ (add_item s k).1 ↔ x = MkItem k 0 ∨ x ∈ s.1)
  ∧ ((add_item s k).2 = true → s.2 = true ∨ MkItem k 0 ∉ s.1)
  ∧ ((add_item s k).2 = false → s.2 = false ∧ MkItem k 0 ∈ s.1).
Proof.
  intros Hs. unfold add_item. pose proof (state_insert_elem (MkItem k 0) s.1) as He.
  pose proof (state_insert_sorted (MkItem k 0) _ Hs).
  pose proof (oset_insert_flag item_ltb (MkItem k 0) s.1) as Hf.
  pose proof (oset_insert_true item_ltb item_ltb_trans item_ltb_total item_ltb_irrefl (MkItem k 0) s.1 Hs) as Ht.
  unfold state_insert in *. destruct (oset_insert _ _ _) as [st new]. cbn in *.
  rewrite orb_true_iff orb_false_iff. naive_solver.
Qed.

Lemma add_items_spec ks s :
  sorted_items s.1 →
  let s' := foldl add_item s ks in
  sorted_items s'.1 ∧ (∀ x, x ∈ s'.1 ↔ x ∈ s.1 ∨ ∃ k, k ∈ ks ∧ x = MkItem k 0)
  ∧ (s'.2 = true → s.2 = true ∨ ∃ k, k ∈ ks ∧ MkItem k 0 ∉ s.1)
  ∧ (s'.2 = false → ∀ k, k ∈ ks → MkItem k 0 ∈ s.1).
Proof.
  revert s. induction ks as [|k ks IH]; intros s Hs; cbn.
  { split_and!; [done|set_solver|by left|set_solver]. }
  destruct (add_item_run k s Hs) as (Hs1 & He1 & Ht1 & Hf1).
  destruct (IH _ Hs1) as (Hs' & He & Ht & Hf).
  assert ((foldl add_item (add_item s k) ks).2 = false → (add_item s k).2 = false) as Hmono.
  { generalize (add_item s k). clear. induction ks as [|k ks IH]; intros s; cbn; [done|].
    intros H. specialize (IH _ H). unfold add_item in IH. destruct (state_insert _ _).
    by apply orb_false_iff in IH as [? _]. }
  split_and!; [done| | |].
  - intros x. rewrite He He1. set_solver.
  - intros Hn. destruct (Ht Hn) as [Hn1|(k' & Hk' & Hx)].
    + destruct (Ht1 Hn1); [by left|right]. exists k. set_solver.
    + right. exists k'. rewrite He1 in Hx. set_solver.
  - intros Hn. destruct (Hf1 (Hmono Hn)) as [_ Hk]. intros k' [-> |Hk']%elem_of_cons; [done|].
    destruct (proj1 (He1 _) (Hf Hn _ Hk')) as [[= ->]|]; done.
Qed.

(** The number of rules a state has the initial item of. *)
Definition initials (s : LR0State) : nat :=
  length (filter (λ k, MkItem k 0 ∈ s) (seq 0 (length rules))).

Lemma initials_bound s : initials s ≤ length rules.
Proof. unfold initials. etrans; [apply length_filter|]. by rewrite length_seq. Qed.

Lemma filter_length_lt {A} (P Q : A → Prop) `{!∀ x, Decision (P x), !∀ x, Decision (Q x)} l x :
  (∀ y, P y → Q y) → x ∈ l → ¬ P x → Q x → length (filter P l) < length (filter Q l).
Proof.
  intros HPQ Hx HP HQ.
  assert (∀ l, length (filter P l) ≤ length (filter Q l)) as Hle.
  { clear l Hx. intros l. induction l as [|y l IH]; [done|]. rewrite !filter_cons.
    case_decide; case_decide; cbn; [lia|naive_solver|lia|lia]. }
  induction Hx as [z l|z y l Hx IH]; rewrite !filter_cons.
  - rewrite decide_False // decide_True //. cbn. specialize (Hle l). lia.
  - specialize (IH HP HQ). case_decide; case_decide; cbn; [lia|naive_solver|lia|lia].
Qed.

Lemma Closure_spec s :
  sorted_items s → ∃ c, Closure rules nonTerms s = Ok c ∧ is_closure s c.
Proof.
  intros Hs. unfold Closure.
  destruct (while_changed_spec (closure_pass rules nonTerms)
    (λ c, sorted_items c ∧ (∀ x, x ∈ s → x ∈ c) ∧ ∀ x, x ∈ c → closed (λ y, y ∈ s) x)
    (λ c, ∀ x k, x ∈ c → k ∈ predicted x → MkItem k 0 ∈ c)
    initials (length rules) (S (length rules)) s) as (c & -> & (Hc & Hsub & Hsound) & Hclosed).
  - intros c (Hc & Hsub & Hsound). rewrite closure_pass_items.
    destruct (add_items_spec (c ≫= predicted) (c, false) Hc) as (Hs' & He & _ & _).
    split_and!; [done|set_solver|]. intros x [?|(k & Hk & ->)]%He; [by apply Hsound|].
    apply list_elem_of_bind in Hk as (y & (r & Hr & Hn & Hk)%predicted_elem & Hy).
    eapply closed_predict; try done. by apply Hsound.
  - intros c (Hc & _) Hch. rewrite closure_pass_items in Hch |- *.
    destruct (add_items_spec (c ≫= predicted) (c, false) Hc) as (_ & He & Ht & _).
    destruct (Ht Hch) as [?|(k & Hk & Hkc)]; [done|].
    pose proof Hk as Hk'.
    apply list_elem_of_bind in Hk' as (y & (r & _ & _ & Hrk)%predicted_elem & _).
    unfold initials. eapply (filter_length_lt _ _ _ k); [|apply elem_of_seq|done|].
    + intros k'. rewrite He. by left.
    + apply lookup_lt_Some in Hrk. lia.
    + rewrite He. right. by exists k.
  - intros c (Hc & _) Hch. rewrite closure_pass_items in Hch |- *.
    destruct (add_items_spec (c ≫= predicted) (c, false) Hc) as (_ & He & _ & Hf).
    intros x k Hx Hk. apply He. left.
    assert (x ∈ c) as Hxc.
    { apply He in Hx as [?|(k' & Hk' & ->)]; [done|]. by apply (Hf Hch). }
    apply (Hf Hch). apply list_elem_of_bind. by exists x.
  - intros c _. apply initials_bound.
  - split_and!; [done|done|]. intros x Hx. by constructor.
  - lia.
  - exists c. split; [done|]. split; [done|]. intros x. split; [apply Hsound|].
    induction 1 as [x Hx|x k r _ IH Hr Hn Hk]; [by apply Hsub|].
    apply (Hclosed x); [done|]. apply predicted_elem. by exists r.
Qed.

Lemma goto_kernel_elem s X x :
  (x ∈ goto_kernel rules s X ↔ moved (λ y, y ∈ s) X x) ∧ sorted_items (goto_kernel rules s X).
Proof.
  unfold goto_kernel.
  assert (∀ l acc, sorted_items acc →
    let k := foldl (λ s item, match rhs_at rules (ruleIndex item) (dotPosition item) with
      | Some sym => if decide (sym = X)
        then (state_insert (MkItem (ruleIndex item) (S (dotPosition item))) s).1 else s
      | None => s end) acc l in
    (x ∈ k ↔ x ∈ acc ∨ moved (λ y, y ∈ l) X x) ∧ sorted_items k) as Hl.
  { induction l as [|[i d] l IH]; intros acc Hacc; cbn.
    { split; [|done]. split; [by left|]. intros [?|Hm]; [done|]. by inversion Hm; set_solver. }
    destruct (rhs_at rules i d) as [Y|] eqn:HY; [case_decide as HX|].
    - destruct (IH (state_insert (MkItem i (S d)) acc).1) as [-> ?];
        [by apply state_insert_sorted|]. split; [|done]. rewrite state_insert_elem. subst Y. split.
      + intros [[->|?]|Hm]; [right; by repeat econstructor|by left|right].
        inversion Hm; subst. econstructor; [by right|done].
      + intros [?|Hm]; [by left; right|]. inversion Hm as [k e [Hin|Hin]%elem_of_cons]; subst.
        * simplify_eq. by left; left.
        * right. by constructor.
    - destruct (IH acc Hacc) as [-> ?]. split; [|done]. f_equiv. split; intros Hm; inversion Hm; subst.
      + constructor; [by right|done].
      + constructor; [|done]. set_solver.
    - destruct (IH acc Hacc) as [-> ?]. split; [|done]. f_equiv. split; intros Hm; inversion Hm; subst.
      + constructor; [by right|done].
      + constructor; [|done]. set_solver. }
  destruct (Hl s [] ltac:(constructor)) as [-> ?]. split; [|done]. set_solver.
Qed.

Lemma closed_proper P Q x : (∀ y, P y → Q y) → closed P x → closed Q x.
Proof.
  intros HPQ. induction 1 as [x Hx|x k r _ IH ? ? ?]; [by constructor; auto|].
  by eapply closed_predict.
Qed.

Lemma GoTo_spec s X : ∃ c, GoTo rules nonTerms s X = Ok c ∧ is_goto s X c.
Proof.
  destruct (Closure_spec (goto_kernel rules s X)) as (c & Hc & Hs & He).
  { by apply (goto_kernel_elem s X (MkItem 0 0)). }
  exists c. split; [done|]. split; [done|]. intros x. rewrite He.
  split; apply closed_proper; intros y; by rewrite (proj1 (goto_kernel_elem s X y)).
Qed.
End automaton.

(** ** What the tables say *)

Section tables.
Variables (rules : Rules) (nonTerms : gset string) (follows : SymbolSets).

Abbreviation complete_item k r := (MkItem k (length (rhs r))).

(** An item of a rule, with the dot inside its right-hand side. *)
Definition item_wf (x : LR0Item) : Prop :=
  ∃ r, rules !! ruleIndex x = Some r ∧ dotPosition x ≤ length (rhs r).

Record states_ok (states : list LR0State) : Prop := {
  so_nodup : NoDup states;
  so_sorted : Forall sorted_items states;
  so_wf : Forall (Forall item_wf) states;
  so_start : ∃ s0, states !! 0 = Some s0 ∧ is_closure rules nonTerms [MkItem 0 0] s0;
}.

(** A transition of the automaton. *)
Definition transition (states : list LR0State) (i : nat) (X : string) (j : nat) : Prop :=
  ∃ s c, states !! i = Some s ∧ states !! j = Some c ∧ c ≠ [] ∧ is_goto rules nonTerms s X c.

Definition goto_sound (states : list LR0State) (gotos : table nat) : Prop :=
  ∀ i X j, row gotos i !! X = Some j → X ∈ nonTerms ∧ transition states i X j.

(** What an entry of the action table promises. *)
Definition action_ok (states : list LR0State) (i : nat) (a : string) (act : Action) : Prop :=
  match act_type act with
  | ActionType.SHIFT => (a ∉ nonTerms) ∧ transition states i a (act_value act)
  | ActionType.REDUCE =>
      ∃ s r, states !! i = Some s ∧ rules !! act_value act = Some r
        ∧ complete_item (act_value act) r ∈ s ∧ lhs r ≠ "_S_PRIME_" ∧ a ∈ sets_of follows (lhs r)
  | ActionType.ACCEPT =>
      a = "EOF" ∧ ∃ s k r, states !! i = Some s ∧ rules !! k = Some r
        ∧ complete_item k r ∈ s ∧ lhs r = "_S_PRIME_"
  | ActionType.ERROR => False
  end.

Definition action_sound (states : list LR0State) (actions : table Action) : Prop :=
  ∀ i a act, row actions i !! a = Some act → action_ok states i a act.

(** Row [i] has an entry for each symbol after a dot and each reduction. *)
Record row_complete (states : list LR0State) (actions : table Action) (gotos : table nat)
    (i : nat) : Prop := {
  rc_goto s x X : states !! i = Some s → x ∈ s →
    rhs_at rules (ruleIndex x) (dotPosition x) = Some X → X ∈ nonTerms →
    is_Some (row gotos i !! X);
  rc_shift s x X : states !! i = Some s → x ∈ s →
    rhs_at rules (ruleIndex x) (dotPosition x) = Some X → X ∉ nonTerms →
    ∃ act, row actions i !! X = Some act ∧ (X ≠ "EOF" → act_type act = ActionType.SHIFT);
  rc_reduce s k r a : states !! i = Some s → rules !! k = Some r →
    complete_item k r ∈ s → lhs r ≠ "_S_PRIME_" → a ∈ sets_of follows (lhs r) →
    is_Some (row actions i !! a);
  rc_accept s k r : states !! i = Some s → rules !! k = Some r →
    complete_item k r ∈ s → lhs r = "_S_PRIME_" →
    ∃ act, row actions i !! "EOF" = Some act;
}.

Record tables_sound (tb : t) : Prop := {
  ts_states : states_ok (m_states tb);
  ts_goto : goto_sound (m_states tb) (m_gotoTable tb);
  ts_action : action_sound (m_states tb) (m_actionTable tb);
}.

(** *** Tables grow *)

Lemma row_set {T} i X (v : T) tab k Y :
  row (table_set i X v tab) k !! Y = if decide (k = i ∧ Y = X) then Some v else row tab k !! Y.
Proof.
  unfold row at 1, table_set. destruct (decide (k = i)) as [->|].
  - rewrite lookup_insert_eq /=. destruct (decide (Y = X)) as [->|].
    + rewrite lookup_insert_eq decide_True //.
    + rewrite lookup_insert_ne // decide_False //. naive_solver.
  - rewrite lookup_insert_ne // decide_False //. naive_solver.
Qed.

(** An entry is never removed, and a shift only gives way to acceptance. *)
Definition actions_grow (t t' : table Action) : Prop :=
  ∀ i a act, row t i !! a = Some act →
    ∃ act', row t' i !! a = Some act'
      ∧ (act_type act = ActionType.SHIFT → a ≠ "EOF" → act_type act' = ActionType.SHIFT).
Definition gotos_grow (t t' : table nat) : Prop :=
  ∀ i X, is_Some (row t i !! X) → is_Some (row t' i !! X).
Definition grows (tb tb' : t) : Prop :=
  m_states tb `prefix_of` m_states tb'
  ∧ actions_grow (m_actionTable tb) (m_actionTable tb')
  ∧ gotos_grow (m_gotoTable tb) (m_gotoTable tb').

#[local] Instance actions_grow_preorder : PreOrder actions_grow.
Proof.
  split; [intros t0 i a act Ha; by exists act|]. intros t1 t2 t3 H1 H2 i a act Ha.
  destruct (H1 _ _ _ Ha) as (act2 & Ha2 & ?). destruct (H2 _ _ _ Ha2) as (act3 & ? & ?). naive_solver.
Qed.
#[local] Instance gotos_grow_preorder : PreOrder gotos_grow.
Proof. split; repeat intro; eauto. Qed.
#[local] Instance grows_preorder : PreOrder grows.
Proof.
  split; [by intros tb|]. intros tb1 tb2 tb3 (?&?&?) (?&?&?). split_and!; by etrans.
Qed.

Lemma transition_mono states states' i X j :
  states `prefix_of` states' → transition states i X j → transition states' i X j.
Proof. intros Hp (s & c & Hi & Hj & ? & ?). exists s, c.
  pose proof (prefix_lookup_Some _ _ _ _ Hi Hp). by pose proof (prefix_lookup_Some _ _ _ _ Hj Hp). Qed.

Lemma action_ok_mono states states' i a act :
  states `prefix_of` states' → action_ok states i a act → action_ok states' i a act.
Proof.
  intros Hp. unfold action_ok. destruct (act_type act).
  - intros [? ?]. split; [done|]. by eapply transition_mono.
  - intros (s & r & ? & ?). exists s, r. split; [by eapply prefix_lookup_Some|done].
  - intros (? & s & k & r & ? & ?). split; [done|]. exists s, k, r. split; [by eapply prefix_lookup_Some|done].
  - done.
Qed.

Lemma row_complete_mono tb tb' i :
  grows tb tb' → i < length (m_states tb) →
  row_complete (m_states tb) (m_actionTable tb) (m_gotoTable tb) i →
  row_complete (m_states tb') (m_actionTable tb') (m_gotoTable tb') i.
Proof.
  intros (Hp & Ha & Hg) Hi [Hc1 Hc2 Hc3 Hc4].
  assert (∀ s, m_states tb' !! i = Some s → m_states tb !! i = Some s) as Hs.
  { intros s Hs. destruct (lookup_lt_is_Some_2 _ _ Hi) as [s' Hs'].
    pose proof (prefix_lookup_Some _ _ _ _ Hs' Hp). congruence. }
  split.
  - intros s x X Hs' ???. eapply Hg, Hc1; eauto.
  - intros s x X Hs' ???. destruct (Hc2 s x X) as (act & Hact & Hsh); auto.
    destruct (Ha _ _ _ Hact) as (act' & ? & ?). exists act'. naive_solver.
  - intros s k r a ?????. destruct (Hc3 s k r a) as (act & Hact); auto.
    destruct (Ha _ _ _ Hact) as (act' & ? & _). by exists act'.
  - intros s k r ????. destruct (Hc4 s k r) as (act & Hact); auto.
    destruct (Ha _ _ _ Hact) as (act' & ? & _). by exists act'.
Qed.

(** *** One step of [Build] *)

Lemma find_state_spec state states n :
  match find_state state states n with
  | Some i => n ≤ i ∧ states !! (i - n) = Some state
  | None => state ∉ states
  end.
Proof.
  revert n. induction states as [|s states IH]; intros n; cbn; [set_solver|].
  case_decide as Hs; [by rewrite Nat.sub_diag Hs|]. specialize (IH (S n)).
  destruct (find_state _ _ _) as [i|]; [|set_solver]. destruct IH as [? IH].
  split; [lia|]. by replace (i - n) with (S (i - S n)) by lia.
Qed.

Lemma GetOrAddState_spec state states :
  let '(j, states') := GetOrAddState state states in
  states `prefix_of` states' ∧ states' !! j = Some state
  ∧ (states' = states ∨ (state ∉ states) ∧ states' = states ++ [state]).
Proof.
  unfold GetOrAddState. pose proof (find_state_spec state states 0) as Hf.
  destruct (find_state _ _ _) as [i|].
  - rewrite Nat.sub_0_r in Hf. split_and!; [done|naive_solver|by left].
  - split_and!; [by eexists|by rewrite list_lookup_middle|by right].
Qed.

(** The items of a transition are well-formed. *)
Lemma closed_wf (P : LR0Item → Prop) x :
  (∀ y, P y → item_wf y) → closed rules nonTerms P x → item_wf x.
Proof.
  intros HP. destruct 1 as [x Hx|x k r _ _ _ Hk]; [by apply HP|]. exists r. cbn. split; [done|lia].
Qed.

Lemma goto_wf s X c : Forall item_wf s → is_goto rules nonTerms s X c → Forall item_wf c.
Proof.
  rewrite !Forall_forall. intros Hs [_ Hc] x Hx%Hc. revert Hx. apply closed_wf.
  intros y [k d Hin Hat]. destruct (Hs _ Hin) as (r & Hr & ?). exists r. split; [done|]. cbn in *.
  unfold rhs_at in Hat. rewrite Hr in Hat. cbn in Hat. apply lookup_lt_Some in Hat. lia.
Qed.

Lemma states_ok_snoc states s :
  states_ok states → s ∉ states → sorted_items s → Forall item_wf s → states_ok (states ++ [s]).
Proof.
  intros [Hn Hs Hw (s0 & H0 & ?)] Hnew ??. split.
  - apply NoDup_app. split_and!; [done|set_solver|apply NoDup_singleton].
  - apply Forall_app. auto.
  - apply Forall_app. auto.
  - exists s0. split; [|done]. by apply lookup_app_l_Some.
Qed.

Lemma goto_sound_mono states states' gotos :
  states `prefix_of` states' → goto_sound states gotos → goto_sound states' gotos.
Proof. intros Hp Hg i X j [? ?]%Hg. split; [done|]. by eapply transition_mono. Qed.

Lemma action_sound_mono states states' actions :
  states `prefix_of` states' → action_sound states actions → action_sound states' actions.
Proof. intros Hp Ha i a act Hact. eapply action_ok_mono; [done|]. by apply Ha. Qed.

Lemma goto_sound_set states gotos i X j :
  goto_sound states gotos → X ∈ nonTerms → transition states i X j →
  goto_sound states (table_set i X j gotos) ∧ gotos_grow gotos (table_set i X j gotos)
  ∧ is_Some (row (table_set i X j gotos) i !! X).
Proof.
  intros Hg HX Ht. split_and!.
  - intros k Y m. rewrite row_set. case_decide; [naive_solver|apply Hg].
  - intros k Y HY. rewrite row_set. case_decide; naive_solver.
  - rewrite row_set decide_True //.
Qed.

Lemma action_sound_set states actions i a act :
  action_sound states actions → action_ok states i a act →
  action_sound states (table_set i a act actions).
Proof. intros Ha Hok k b act'. rewrite row_set. case_decide; [naive_solver|apply Ha]. Qed.

Lemma actions_grow_set actions i a act :
  (∀ act', row actions i !! a = Some act' →
    act_type act' = ActionType.SHIFT → a ≠ "EOF" → act_type act = ActionType.SHIFT) →
  actions_grow actions (table_set i a act actions).
Proof.
  intros Hold k b act' Hact. rewrite row_set. case_decide as Hd; [|by exists act'].
  destruct Hd as [-> ->]. exists act. naive_solver.
Qed.

Lemma symbol_insert_elem l s X :
  X ∈ foldl (λ s x, (oset_insert symbol_ltb x s).1) s l ↔ X ∈ l ∨ X ∈ s.
Proof.
  revert s. induction l as [|Y l IH]; intros s; cbn; [set_solver|].
  rewrite IH oset_insert_elem. set_solver.
Qed.

Lemma GetPossibleSymbols_elem s X :
  X ∈ GetPossibleSymbols rules s ↔ ∃ x, x ∈ s ∧ rhs_at rules (ruleIndex x) (dotPosition x) = Some X.
Proof.
  unfold GetPossibleSymbols, oset_of_list. rewrite symbol_insert_elem list_elem_of_omap. set_solver.
Qed.

Lemma build_symbol_spec i s tb X :
  tables_sound tb → m_states tb !! i = Some s → X ∈ GetPossibleSymbols rules s →
  ∃ tb', build_symbol rules nonTerms i s tb X = Ok tb' ∧ tables_sound tb' ∧ grows tb tb'
    ∧ (X ∈ nonTerms → is_Some (row (m_gotoTable tb') i !! X))
    ∧ (X ∉ nonTerms → ∃ act, row (m_actionTable tb') i !! X = Some act ∧ act_type act = ActionType.SHIFT).
Proof.
  intros [Hst Hgo Hac] Hs ([k d] & Hx & Hat)%GetPossibleSymbols_elem.
  destruct (GoTo_spec rules nonTerms s X) as (c & Hc & Hgoto).
  unfold build_symbol. rewrite Hc. cbn [mbind result_bind].
  assert (c ≠ []) as Hne.
  { intros ->. destruct Hgoto as [_ He]. apply (not_elem_of_nil (MkItem k (S d))), He.
    constructor. by constructor. }
  rewrite decide_False //. pose proof (GetOrAddState_spec c (m_states tb)) as Hadd.
  destruct (GetOrAddState c _) as [j states']. destruct Hadd as (Hp & Hj & Hnew).
  assert (states_ok states') as Hst'.
  { destruct Hnew as [-> |[? ->]]; [done|]. apply states_ok_snoc; [done..|by apply Hgoto|].
    eapply goto_wf; [|done]. pose proof (so_wf _ Hst) as Hw. rewrite Forall_forall in Hw.
    by eapply Hw, list_elem_of_lookup_2. }
  assert (transition states' i X j) as Ht.
  { exists s, c. by pose proof (prefix_lookup_Some _ _ _ _ Hs Hp). }
  pose proof (goto_sound_mono _ _ _ Hp Hgo) as Hgo'.
  pose proof (action_sound_mono _ _ _ Hp Hac) as Hac'.
  case_decide as HX; (eexists; split; [done|]).
  - destruct (goto_sound_set _ _ i X j Hgo') as (?&?&?); [done..|].
    split; [by split|]. split; [by split_and!|]. split; [done|]. done.
  - assert (action_ok states' i X (MkAction ActionType.SHIFT j)) as Hok by done.
    split; [split; cbn; [done..|by apply action_sound_set]|].
    split; [split_and!; cbn; [done|by apply actions_grow_set|done]|]. split; [done|].
    intros _. cbn. eexists. by rewrite row_set decide_True.
Qed.

Lemma build_symbols_spec i s syms tb :
  tables_sound tb → m_states tb !! i = Some s → (∀ X, X ∈ syms → X ∈ GetPossibleSymbols rules s) →
  ∃ tb', build_symbols rules nonTerms i s syms tb = Ok tb' ∧ tables_sound tb' ∧ grows tb tb'
    ∧ ∀ X, X ∈ syms →
      (X ∈ nonTerms → is_Some (row (m_gotoTable tb') i !! X))
      ∧ (X ∉ nonTerms → ∃ act, row (m_actionTable tb') i !! X = Some act
           ∧ (X ≠ "EOF" → act_type act = ActionType.SHIFT)).
Proof.
  revert tb. induction syms as [|X syms IH]; intros tb Htb Hs Hsyms; cbn [build_symbols].
  { exists tb. split_and!; [done..|set_solver]. }
  destruct (build_symbol_spec i s tb X) as (tb1 & -> & Htb1 & Hg1 & HX1 & HX2); [done..|set_solver|].
  cbn [mbind result_bind].
  destruct (IH tb1) as (tb2 & -> & Htb2 & Hg2 & Hall); [done| |set_solver|].
  { eapply prefix_lookup_Some; [done|apply Hg1]. }
  exists tb2. split_and!; [done..|by etrans|]. intros Y [-> |HY]%elem_of_cons; [|by apply Hall].
  destruct Hg2 as (_ & Ha2 & Hg2). split.
  - intros HY. by apply Hg2, HX1.
  - intros HY. destruct (HX2 HY) as (act & Hact & ?). destruct (Ha2 _ _ _ Hact) as (act' & ? & ?).
    exists act'. naive_solver.
Qed.

(** The loop over the items. *)

Lemma set_reduce_spec states i k r s actions f :
  action_sound states actions → states !! i = Some s → rules !! k = Some r →
  complete_item k r ∈ s → lhs r ≠ "_S_PRIME_" → f ∈ sets_of follows (lhs r) →
  action_sound states (set_reduce i k actions f) ∧ actions_grow actions (set_reduce i k actions f)
  ∧ is_Some (row (set_reduce i k actions f) i !! f).
Proof.
  intros Ha ?????. unfold set_reduce.
  assert (action_ok states i f (MkAction ActionType.REDUCE k)) as Hok by (exists s, r; done).
  destruct (row actions i !! f) as [[[] v]|] eqn:Hrow; (split_and!;
    [first [done|by apply action_sound_set]
    |first [done|apply actions_grow_set; rewrite Hrow; naive_solver]
    |rewrite ?row_set ?decide_True //]).
Qed.

Lemma set_reduces_spec states i k r s fs actions :
  action_sound states actions → states !! i = Some s → rules !! k = Some r →
  complete_item k r ∈ s → lhs r ≠ "_S_PRIME_" → (∀ f, f ∈ fs → f ∈ sets_of follows (lhs r)) →
  let actions' := foldl (set_reduce i k) actions fs in
  action_sound states actions' ∧ actions_grow actions actions'
  ∧ ∀ f, f ∈ fs → is_Some (row actions' i !! f).
Proof.
  intros Ha Hs Hr Hx Hne. revert actions Ha. induction fs as [|f fs IH]; intros actions Ha Hfs; cbn.
  { split_and!; [done..|set_solver]. }
  destruct (set_reduce_spec states i k r s actions f) as (Ha1 & Hg1 & Hf1); [done..|set_solver|].
  destruct (IH _ Ha1) as (Ha2 & Hg2 & Hf2); [set_solver|].
  split_and!; [done|by etrans|]. intros f' [-> |Hf]%elem_of_cons; [|by apply Hf2].
  destruct Hf1 as [act Hact]. destruct (Hg2 _ _ _ Hact) as (act' & ? & _). by exists act'.
Qed.
(** [m_follows.at(rule.lhs)] does not throw. *)
Hypothesis follows_total : ∀ r, r ∈ rules → is_Some (follows !! lhs r).

(** The entries that one item asks for. *)
Definition item_done (actions : table Action) (i : nat) (x : LR0Item) : Prop :=
  ∀ r, rules !! ruleIndex x = Some r → dotPosition x = length (rhs r) →
    if decide (lhs r = "_S_PRIME_") then is_Some (row actions i !! "EOF")
    else ∀ f, f ∈ sets_of follows (lhs r) → is_Some (row actions i !! f).

Lemma item_done_grow actions actions' i x :
  actions_grow actions actions' → item_done actions i x → item_done actions' i x.
Proof.
  intros Hg Hd r Hr Hx. specialize (Hd r Hr Hx).
  assert (∀ a, is_Some (row actions i !! a) → is_Some (row actions' i !! a)) as Hmono.
  { intros a [act Hact]. destruct (Hg _ _ _ Hact) as (act' & ? & _). by exists act'. }
  case_decide; eauto.
Qed.

Lemma build_item_spec states i s x actions :
  action_sound states actions → states !! i = Some s → x ∈ s → item_wf x →
  ∃ actions', build_item rules follows i actions x = Ok actions'
    ∧ action_sound states actions' ∧ actions_grow actions actions' ∧ item_done actions' i x.
Proof.
  destruct x as [k d]. intros Ha Hs Hx (r & Hr & Hd). unfold build_item, item_done. cbn in *.
  rewrite Hr. case_decide as Hd'; [subst d|by exists actions; split_and!; naive_solver].
  case_decide as HS.
  - eexists. split; [done|]. split_and!.
    + apply action_sound_set; [done|]. split; [done|]. by exists s, k, r.
    + apply actions_grow_set. done.
    + intros r' [= <-] _. rewrite decide_True // row_set decide_True //.
  - destruct (follows_total r) as [fs Hfs]; [by eapply list_elem_of_lookup_2|]. rewrite Hfs.
    destruct (set_reduces_spec states i k r s (elements fs) actions) as (? & ? & Hf); try done.
    { intros f. unfold sets_of. rewrite Hfs elem_of_elements. done. }
    eexists. split; [done|]. split_and!; [done..|]. intros r' [= <-] _. rewrite decide_False //.
    intros f Hin. apply Hf, elem_of_elements. by rewrite /sets_of Hfs in Hin.
Qed.

Lemma build_items_spec states i s items actions :
  action_sound states actions → states !! i = Some s → (∀ x, x ∈ items → x ∈ s) →
  Forall item_wf items →
  ∃ actions', build_items rules follows i items actions = Ok actions'
    ∧ action_sound states actions' ∧ actions_grow actions actions'
    ∧ ∀ x, x ∈ items → item_done actions' i x.
Proof.
  intros Ha Hs Hin Hw. revert actions Ha. induction Hw as [|x items Hx Hw IH]; intros actions Ha; cbn.
  { exists actions. split_and!; [done..|set_solver]. }
  destruct (build_item_spec states i s x actions) as (a1 & -> & Ha1 & Hg1 & Hd1); [done..|set_solver|done|].
  cbn. destruct (IH ltac:(set_solver) a1 Ha1) as (a2 & -> & Ha2 & Hg2 & Hd2).
  exists a2. split_and!; [done..|by etrans|]. intros y [-> |Hy]%elem_of_cons; [|by apply Hd2].
  by eapply item_done_grow.
Qed.

Abbreviation complete_row tb i := (row_complete (m_states tb) (m_actionTable tb) (m_gotoTable tb) i).

Lemma state_wf states i s : states_ok states → states !! i = Some s → Forall item_wf s.
Proof.
  intros [_ _ Hw _] Hs. rewrite Forall_forall in Hw. by eapply Hw, list_elem_of_lookup_2.
Qed.

Lemma build_state_spec i s tb :
  tables_sound tb → m_states tb !! i = Some s →
  ∃ tb', build_state rules nonTerms follows i s tb = Ok tb' ∧ tables_sound tb' ∧ grows tb tb'
    ∧ complete_row tb' i.
Proof.
  intros Htb Hs. unfold build_state.
  destruct (build_symbols_spec i s (GetPossibleSymbols rules s) tb) as (tb1 & -> & Htb1 & Hg1 & Hsym);
    [done..|]. cbn [mbind result_bind].
  assert (m_states tb1 !! i = Some s) as Hs1 by (eapply prefix_lookup_Some; [done|apply Hg1]).
  destruct (build_items_spec (m_states tb1) i s s (m_actionTable tb1)) as (acts & -> & Ha & Hga & Hd).
  { by apply Htb1. } { done. } { done. } { by eapply state_wf, Hs; apply Htb. }
  cbn [mbind result_bind]. eexists. split; [done|]. split_and!.
  - destruct Htb1. by split.
  - destruct Hg1 as (?&?&?). split_and!; cbn; [done|by etrans|done].
  - assert (∀ s', m_states tb1 !! i = Some s' → s' = s) as Hu by (intros; congruence).
    split; cbn.
    + intros s' x X ->%Hu Hx HX Hn. apply Hsym; [|done]. apply GetPossibleSymbols_elem. by exists x.
    + intros s' x X ->%Hu Hx HX Hn. destruct (Hsym X) as [_ Hact].
      { apply GetPossibleSymbols_elem. by exists x. }
      destruct (Hact Hn) as (act & Hr & ?). destruct (Hga _ _ _ Hr) as (act' & ? & ?).
      exists act'. naive_solver.
    + intros s' k r a ->%Hu Hr Hx HS Hf. specialize (Hd _ Hx r Hr eq_refl).
      rewrite decide_False // in Hd. by apply Hd.
    + intros s' k r ->%Hu Hr Hx HS. specialize (Hd _ Hx r Hr eq_refl).
      by rewrite decide_True // in Hd.
Qed.

(** *** Termination: finitely many sets of items *)

Definition all_items : list LR0Item :=
  zip (seq 0 (length rules)) rules ≫= λ '(k, r), MkItem k <$> seq 0 (S (length (rhs r))).

Fixpoint sublists {A} (l : list A) : list (list A) :=
  match l with
  | [] => [[]]
  | x :: l => sublists l ++ (cons x <$> sublists l)
  end.

Lemma length_sublists {A} (l : list A) : length (sublists l) = 2 ^ length l.
Proof. induction l as [|x l IH]; cbn; [done|]. rewrite length_app length_fmap IH. lia. Qed.

Lemma filter_sublists {A} (P : A → Prop) `{!∀ x, Decision (P x)} l : filter P l ∈ sublists l.
Proof.
  induction l as [|x l IH]; [by left|]. rewrite filter_cons. cbn [sublists].
  rewrite elem_of_app list_elem_of_fmap.
  case_decide; [right; by exists (filter P l)|by left].
Qed.

Lemma all_items_elem x : item_wf x → x ∈ all_items.
Proof.
  destruct x as [k d]. intros (r & Hr & Hd). cbn in *. unfold all_items.
  apply list_elem_of_bind. exists (k, r). rewrite list_elem_of_fmap. split.
  - exists d. split; [done|]. apply elem_of_seq. lia.
  - apply list_elem_of_lookup. exists k. rewrite lookup_zip_with Hr lookup_seq_lt.
    { done. } by eapply lookup_lt_Some.
Qed.

Definition items_list : list LR0Item := foldl (λ s x, (state_insert x s).1) [] all_items.

Lemma items_list_spec x : (x ∈ items_list ↔ x ∈ all_items) ∧ sorted_items items_list.
Proof.
  unfold items_list.
  assert (∀ l acc, sorted_items acc → let k := foldl (λ s x, (state_insert x s).1) acc l in
    (x ∈ k ↔ x ∈ acc ∨ x ∈ l) ∧ sorted_items k) as Hl.
  { induction l as [|y l IH]; intros acc Hacc; cbn; [set_solver|].
    destruct (IH (state_insert y acc).1) as [-> ?]; [by apply state_insert_sorted|].
    rewrite state_insert_elem. set_solver. }
  destruct (Hl all_items [] ltac:(constructor)) as [-> ?]. set_solver.
Qed.

Lemma sorted_filter (P : LR0Item → Prop) `{!∀ x, Decision (P x)} l :
  sorted_items l → sorted_items (filter P l).
Proof.
  induction 1 as [|x l _ IH Hall]; [constructor|]. rewrite filter_cons. case_decide; [|done].
  constructor; [done|]. rewrite !Forall_forall in Hall |- *. intros y [_ Hy]%list_elem_of_filter. auto.
Qed.

Definition states_bound : nat := 2 ^ length items_list.

Lemma states_ok_bound states : states_ok states → length states ≤ states_bound.
Proof.
  intros [Hn Hs Hw _]. unfold states_bound. rewrite -length_sublists.
  apply submseteq_length, NoDup_submseteq; [done|]. intros s Hin.
  rewrite !Forall_forall in Hs, Hw. specialize (Hs s Hin). specialize (Hw s Hin).
  rewrite Forall_forall in Hw.
  replace s with (filter (λ x, x ∈ s) items_list); [apply filter_sublists|].
  eapply (osorted_eq item_ltb); eauto using item_ltb_trans, item_ltb_total, item_ltb_irrefl.
  - apply sorted_filter. apply (items_list_spec (MkItem 0 0)).
  - intros x. rewrite list_elem_of_filter. rewrite (proj1 (items_list_spec x)).
    split; [tauto|]. intros Hx. split; [done|]. by apply all_items_elem, Hw.
Qed.

Lemma build_loop_spec fuel i tb :
  tables_sound tb → (∀ k, k < i → complete_row tb k) → i ≤ length (m_states tb) →
  states_bound < fuel + i →
  ∃ tb', build_loop rules nonTerms follows fuel i tb = Ok tb' ∧ tables_sound tb' ∧ grows tb tb'
    ∧ ∀ k, k < length (m_states tb') → complete_row tb' k.
Proof.
  revert i tb. induction fuel as [|fuel IH]; intros i tb Htb Hrows Hi Hfuel.
  { pose proof (states_ok_bound _ (ts_states _ Htb)). lia. }
  cbn [build_loop]. destruct (m_states tb !! i) as [s|] eqn:Hs.
  - destruct (build_state_spec i s tb Htb Hs) as (tb1 & -> & Htb1 & Hg1 & Hrow).
    cbn [mbind result_bind]. pose proof (lookup_lt_Some _ _ _ Hs).
    pose proof (prefix_length _ _ (proj1 Hg1)).
    destruct (IH (S i) tb1) as (tb2 & -> & ? & ? & ?); [done| |lia..|].
    + intros k Hk. destruct (decide (k = i)) as [-> |]; [done|].
      eapply row_complete_mono; [done|lia|apply Hrows; lia].
    + exists tb2. split_and!; [done..|by etrans|done].
  - exists tb. apply lookup_ge_None in Hs. split_and!; [done..|]. intros k Hk. apply Hrows. lia.
Qed.

(** [Build] gives sound and complete tables. *)
Lemma Build_spec fuel :
  rules ≠ [] → states_bound < fuel →
  ∃ tb, Build rules nonTerms follows fuel = Ok tb ∧ tables_sound tb
    ∧ ∀ k, k < length (m_states tb) → complete_row tb k.
Proof.
  intros Hne Hfuel. unfold Build.
  destruct (Closure_spec rules nonTerms [MkItem 0 0]) as (s0 & Hc & Hs0).
  { repeat constructor. }
  rewrite Hc. cbn [mbind result_bind].
  assert (Forall item_wf s0) as Hw.
  { apply Forall_forall. intros x Hx. apply Hs0 in Hx. revert Hx. apply closed_wf.
    intros y ->%list_elem_of_singleton. destruct (lookup_lt_is_Some_2 rules 0) as [r Hr].
    { destruct rules; [done|cbn; lia]. }
    exists r. cbn. split; [done|lia]. }
  destruct (build_loop_spec fuel 0 (Mk [s0] ∅ ∅)) as (tb & -> & ? & ? & ?).
  - split; cbn.
    + split; [apply NoDup_singleton|constructor; [apply Hs0|done]|by constructor|by exists s0].
    + intros i X j. unfold row. by rewrite lookup_empty lookup_empty.
    + intros i X j. unfold row. by rewrite lookup_empty lookup_empty.
  - intros k Hk. lia.
  - lia.
  - lia.
  - by exists tb.
Qed.

(** More fuel gives the same tables. *)
Lemma build_loop_mono fuel fuel' i tb tb' :
  build_loop rules nonTerms follows fuel i tb = Ok tb' → fuel ≤ fuel' →
  build_loop rules nonTerms follows fuel' i tb = Ok tb'.
Proof.
  revert fuel' i tb. induction fuel as [|fuel IH]; intros fuel' i tb Hb Hle; [done|].
  destruct fuel' as [|fuel']; [lia|]. cbn [build_loop] in *.
  destruct (m_states tb !! i) as [s|]; [|done].
  destruct (build_state _ _ _ _ _ _) as [tb1| |]; [|done..]. cbn in *. apply IH; [done|lia].
Qed.

Lemma Build_mono fuel fuel' tb :
  Build rules nonTerms follows fuel = Ok tb → fuel ≤ fuel' →
  Build rules nonTerms follows fuel' = Ok tb.
Proof.
  unfold Build. destruct (Closure _ _ _) as [s| |]; [|done..]. cbn [mbind result_bind].
  apply build_loop_mono.
Qed.

Lemma Build_unique :
  rules ≠ [] → ∃ tb, ∀ fuel, states_bound < fuel → Build rules nonTerms follows fuel = Ok tb.
Proof.
  intros Hne. destruct (Build_spec (S states_bound) Hne ltac:(lia)) as (tb & Hb & _).
  exists tb. intros fuel Hf. eapply Build_mono; [done|lia].
Qed.

Lemma Build_sound fuel tb :
  rules ≠ [] → Build rules nonTerms follows fuel = Ok tb →
  tables_sound tb ∧ ∀ k, k < length (m_states tb) → complete_row tb k.
Proof.
  intros Hne Hb.
  destruct (Build_spec (fuel + S states_bound) Hne ltac:(lia)) as (tb' & Hb' & ? & ?).
  pose proof (Build_mono _ (fuel + S states_bound) _ Hb ltac:(lia)).
  by assert (tb' = tb) as -> by congruence.
Qed.
End tables.
