(* ===== verification/Parser.v ===== *)
(** * The SLR parser

    [src/parser/Parser.cpp] and [Parser.h].  The parser builds the raw tree
    that [ASTBuilder::Build] receives; the transformation of that tree is not
    part of this file.  [m_tables] is shared and immutable, so the cache of
    [GetCachedParserTables] is the identity. *)

From S2P Require Import Prelude Reader Token Lexer Grammar TableBuilder.

(** [LeafNode] and [RawNode], as the parser creates them. *)
Inductive Node :=
  | LeafNode (type : string) (value : list ascii)
  | RawNode (type : string) (children : list Node).

Definition node_type (n : Node) : string :=
  match n with LeafNode s _ => s | RawNode s _ => s end.

Module SLRParser.

Record ParserTables := MkTables {
  rules : Rules;
  actionTable : table Action;
  gotoTable : table nat;
}.

(** [fuel] bounds the number of states of the table builder. *)
Definition BuildParserTables (fuel : nat) (grammarText : list ascii) : result ParserTables :=
  let builder := RulesBuilder.Init grammarText in
  '(_, builder) ← RulesBuilder.BuildGuidedRules builder;
  follows ← RulesBuilder.GetFollows builder;
  let rules := RulesBuilder.m_rules builder in
  tableBuilder ← TableBuilder.Build rules (RulesBuilder.m_nonTerms builder) follows fuel;
  Ok (MkTables rules (TableBuilder.m_actionTable tableBuilder)
        (TableBuilder.m_gotoTable tableBuilder)).

(** The locals of [Parse], the semantic stack and the lexer.  The stacks have
    their top first. *)
Record t := Mk {
  stateStack : list nat;
  m_semanticStack : list Node;
  token : Token;
  m_lexer : Reader.t;
}.

(** What one round of the loop leads to. *)
Inductive outcome :=
  | Continue (p : t)
  | Accepted (root : option Node) (p : t)
  | SyntaxError (p : t).

Section parse.
Variable tables : ParserTables.

(** [std::stack]'s [top] and [pop] on an empty stack are undefined. *)
Definition stack_top (s : list nat) : result nat :=
  match s with [] => Throw (undefined_behaviour "stack::top") | q :: _ => Ok q end.
Definition stack_pop (s : list nat) : result (list nat) :=
  match s with [] => Throw (undefined_behaviour "stack::pop") | _ :: s => Ok s end.

(** The loop over the right-hand side; [children] in the order of
    [push_back]. *)
Fixpoint pop_rhs (rhs : list string) (children semantic : list Node) (states : list nat)
    : result (list Node * list Node * list nat) :=
  match rhs with
  | [] => Ok (children, semantic, states)
  | rh :: rhs =>
      if decide (rh = "EPSILON") then pop_rhs rhs children semantic states else
      let '(children, semantic) :=
        match semantic with
        | [] => (children, semantic)
        | n :: semantic => (children ++ [n], semantic)
        end in
      states ← stack_pop states;
      pop_rhs rhs children semantic states
  end.

(** [std::map::at], twice. *)
Definition goto_at (q : nat) (A : string) : result nat :=
  match gotoTable tables !! q with
  | None => Throw (out_of_range "map::at")
  | Some r => match r !! A with None => Throw (out_of_range "map::at") | Some j => Ok j end
  end.

Definition shift (stringToken : string) (q : nat) (p : t) : result outcome :=
  '(tok, lexer) ← Lexer.Get (m_lexer p);
  Ok (Continue (Mk (q :: stateStack p)
                  (LeafNode stringToken (value (token p)) :: m_semanticStack p) tok lexer)).

Definition reduce (k : nat) (p : t) : result outcome :=
  match rules tables !! k with
  | None => Throw (undefined_behaviour "rules[value]")
  | Some rule =>
      '(children, semantic, states) ← pop_rhs (rhs rule) [] (m_semanticStack p) (stateStack p);
      top ← stack_top states;
      q ← goto_at top (lhs rule);
      Ok (Continue (Mk (q :: states) (RawNode (lhs rule) (reverse children) :: semantic)
                      (token p) (m_lexer p)))
  end.

(** One round of [while (true)]. *)
Definition parse_step (p : t) : result outcome :=
  s ← stack_top (stateStack p);
  let stringToken := RemapTokenTypeToString (token p) in
  match row (actionTable tables) s !! stringToken with
  | Some (MkAction ActionType.SHIFT q) => shift stringToken q p
  | Some (MkAction ActionType.REDUCE k) => reduce k p
  | Some (MkAction ActionType.ACCEPT _) => Ok (Accepted (head (m_semanticStack p)) p)
  | Some (MkAction ActionType.ERROR _) => Ok (Continue p)
  | None => Ok (SyntaxError p)
  end.

(** [fuel] bounds the rounds. *)
Fixpoint parse_loop (fuel : nat) (p : t) : result outcome :=
  match fuel with
  | 0 => Diverge
  | S fuel =>
      o ← parse_step p;
      match o with Continue p => parse_loop fuel p | _ => Ok o end
  end.

Definition parse_init (lexer : Reader.t) : result t :=
  '(tok, lexer) ← Lexer.Get lexer; Ok (Mk [0] [] tok lexer).

Definition Parse (fuel : nat) (lexer : Reader.t) : result outcome :=
  p ← parse_init lexer; parse_loop fuel p.

(** The configurations the loop goes through. *)
Inductive reachable (lexer : Reader.t) : t → Prop :=
  | reachable_init p : parse_init lexer = Ok p → reachable lexer p
  | reachable_step p p' :
      reachable lexer p → parse_step p = Ok (Continue p') → reachable lexer p'.
End parse.

End SLRParser.
