(* ===== verification/ParserSpec.v ===== *)
(** * The SLR parser: safety and soundness

    On the tables of the table builder no step of the parser throws or reads
    outside a stack, and an accepted input is a sentence of the grammar whose
    parse tree the parser returns. *)

From S2P Require Import Prelude Reader Token Lexer LexerSpec Grammar GrammarSpec.
From S2P Require Import TableBuilder TableSpec Parser.
From Stdlib Require Import Lia.
Import SLRParser.
Import Reader (at_).
Import TableBuilder (rhs_at).

(** ** Parse trees *)

(** The tokens of a tree, left to right, as (terminal, text). *)
Fixpoint leaves (n : Node) : list (string * list ascii) :=
  match n with
  | LeafNode s v => [(s, v)]
  | RawNode _ children => flat_map leaves children
  end.

Section trees.
Variables (rules : Rules) (nonTerms : gset string).

(** Each inner node is an application of a rule. *)
Inductive tree : Node → Prop :=
  | tree_leaf s v : s ∉ nonTerms → tree (LeafNode s v)
  | tree_raw r children :
      r ∈ rules → node_type <$> children = rhs r → trees children →
      tree (RawNode (lhs r) children)
with trees : list Node → Prop :=
  | trees_nil : trees []
  | trees_cons n ns : tree n → trees ns → trees (n :: ns).

Scheme tree_mut := Induction for tree Sort Prop
  with trees_mut := Induction for trees Sort Prop.

Lemma trees_Forall ns : trees ns ↔ Forall tree ns.
Proof. split; induction 1; by constructor. Qed.

Lemma step_app u v α β : step rules α β → step rules (u ++ α ++ v) (u ++ β ++ v).
Proof.
  destruct 1 as [u' r v' Hr].
  replace (u ++ (u' ++ lhs r :: v') ++ v) with ((u ++ u') ++ lhs r :: (v' ++ v)) by by rewrite -!app_assoc.
  replace (u ++ (u' ++ rhs r ++ v') ++ v) with ((u ++ u') ++ rhs r ++ (v' ++ v)) by by rewrite -!app_assoc.
  by constructor.
Qed.

Lemma derives_frame u v α β : derives rules α β → derives rules (u ++ α ++ v) (u ++ β ++ v).
Proof.
  induction 1 as [|α β γ Hs _ IH]; [done|]. etrans; [|exact IH]. by apply rtc_once, step_app.
Qed.

(** A tree shows that its root derives its tokens. *)
Lemma tree_derives n : tree n → derives rules [node_type n] (fst <$> leaves n).
Proof.
  intros H. induction H using tree_mut with
    (P0 := λ ns _, derives rules (node_type <$> ns) (fst <$> flat_map leaves ns)); cbn.
  - done.
  - etrans; [|exact IHtree]. apply rtc_once. rewrite e0.
    pose proof (step_rule rules [] r [] e) as Hs. by rewrite /= app_nil_r in Hs.
  - done.
  - rewrite fmap_app. etrans.
    + apply (derives_frame [] (node_type <$> ns) [node_type n]). exact IHtree.
    + cbn. pose proof (derives_frame (fst <$> leaves n) [] _ _ IHtree0) as Hf.
      by rewrite !app_nil_r in Hf.
Qed.
End trees.

(** ** The input *)

(** [toks] are the tokens [Lexer::Get] returns in turn. *)
Inductive lexed (lexer : Reader.t) : list Token → Reader.t → Prop :=
  | lexed_nil : lexed lexer [] lexer
  | lexed_snoc toks lexer' tok lexer'' :
      lexed lexer toks lexer' → Lexer.Get lexer' = Ok (tok, lexer'') →
      lexed lexer (toks ++ [tok]) lexer''.

Definition entry_of (t : Token) : string * list ascii := (RemapTokenTypeToString t, value t).

Lemma tokens_lexed lexer toks lexer' tok lexer'' n ts r :
  lexed lexer toks lexer' → Forall (λ t, tok_type t ≠ TokenType.EOF_TOKEN) toks →
  Lexer.Get lexer' = Ok (tok, lexer'') → tok_type tok = TokenType.EOF_TOKEN →
  Lexer.tokens n lexer = Ok (ts, r) → ts = toks ++ [tok].
Proof.
  intros Hl Hall Hg Heof.
  assert (∀ m ts1 r1, Lexer.tokens m lexer' = Ok (ts1, r1) → ts1 = [tok]) as Hlast.
  { intros [|m] ts1 r1; [done|]. cbn. rewrite (st_bind_run _ _ _ _ _ Hg) /= decide_True //. by intros [= <- _]. }
  assert (∀ n ts r, Lexer.tokens n lexer = Ok (ts, r) →
    ∃ m ts1 r1, Lexer.tokens m lexer' = Ok (ts1, r1) ∧ ts = toks ++ ts1) as Hsplit.
  { clear -Hl Hall. induction Hl as [|toks l1 t l2 Hl IH Hg]; intros n ts r Hn; [by exists n, ts, r|].
    apply Forall_app in Hall as [Hall Ht]. inversion_clear Ht as [|? ? Hne _].
    destruct (IH Hall _ _ _ Hn) as ([|m] & ts1 & r1 & Hm & ->); [done|].
    cbn in Hm. rewrite (st_bind_run _ _ _ _ _ Hg) /= decide_False // in Hm.
    apply st_bind_Ok in Hm as (ts2 & r2 & Hm & [= <- <-]).
    exists m, ts2, r2. by rewrite -app_assoc. }
  intros Hn. destruct (Hsplit _ _ _ Hn) as (m & ts1 & r1 & Hm & ->). by rewrite (Hlast _ _ _ Hm).
Qed.

(** Only the end of the input is named ["EOF"]. *)
Lemma got_eof pre rest t tok rest' :
  got pre rest t tok rest' → RemapTokenTypeToString tok = "EOF" →
  tok_type tok = TokenType.EOF_TOKEN.
Proof.
  intros Hg Hr. pose proof (got_token _ _ _ _ _ Hg) as Ht. case_decide as He; [done|].
  destruct Ht as [_ Hlex]. destruct tok as [ty v p n e]. cbn in *.
  rewrite (remap_lexeme _ _ _ _ p n Hlex) in Hr. exfalso. clear Hg He.
  assert (v = chars "EOF") as Hv.
  { unfold terminal_of in Hr.
    destruct ty; try done; rewrite -(String.list_ascii_of_string_of_list_ascii v) Hr //. }
  clear -Hlex Hv Hr. remember rest' as rest eqn:E. clear E. destruct Hlex; try done.
  - rewrite Hv in Hr. by vm_compute in Hr.
  - apply (f_equal String.string_of_list_ascii) in Hv.
    rewrite !String.string_of_list_ascii_of_string in Hv. subst s.
    apply list_elem_of_In in H. by repeat destruct H as [[=]|H].
  - apply (f_equal String.string_of_list_ascii) in Hv.
    rewrite !String.string_of_list_ascii_of_string in Hv. subst s.
    apply list_elem_of_In in H. by repeat destruct H as [[=]|H].
Qed.

(** ** The stacks *)

(** What the parser needs of a grammar, beyond [wf]: the reserved names are
    not used as ordinary symbols. *)
Definition reserved_ok (rules : Rules) : bool :=
  forallb (λ r, bool_decide (lhs r ≠ "_S_PRIME_")) (tail rules)
  && forallb (λ r, bool_decide (("EOF" ∉ rhs r) ∧ ("EPSILON" ∉ rhs r) ∧ "_S_PRIME_" ∉ rhs r)) rules.

Section parser.
Variable b : RulesBuilder.t.
Hypothesis Hwf : wf b.
Hypothesis Hreserved : reserved_ok (RulesBuilder.m_rules b) = true.
Variables (follows : SymbolSets) (tb : TableBuilder.t).

Abbreviation rules := (RulesBuilder.m_rules b).
Abbreviation nonTerms := (RulesBuilder.m_nonTerms b).
Abbreviation states := (TableBuilder.m_states tb).
Abbreviation tables :=
  (MkTables rules (TableBuilder.m_actionTable tb) (TableBuilder.m_gotoTable tb)).

Hypothesis Hsound : tables_sound rules nonTerms follows tb.
Hypothesis Hcomplete : ∀ k, k < length states →
  row_complete rules nonTerms follows states (TableBuilder.m_actionTable tb)
    (TableBuilder.m_gotoTable tb) k.

Lemma reserved_rhs r s :
  r ∈ rules → s ∈ rhs r → s ≠ "EOF" ∧ s ≠ "EPSILON" ∧ s ≠ "_S_PRIME_".
Proof.
  intros Hr Hs. pose proof Hreserved as [_ Hall]%andb_true_iff.
  rewrite forallb_forall in Hall. apply list_elem_of_In, Hall, bool_decide_eq_true in Hr.
  split_and!; intros ->; tauto.
Qed.

Lemma start_unique k r : rules !! k = Some r → lhs r = "_S_PRIME_" → k = 0 ∧ r = RulesBuilder.start_rule.
Proof.
  intros Hk Hr. destruct (wf_start _ Hwf) as [rs Hrs]. pose proof Hreserved as [Hall _]%andb_true_iff.
  rewrite Hrs in Hk, Hall. destruct k as [|k]; [naive_solver|]. rewrite forallb_forall in Hall. cbn in Hk, Hall.
  apply list_elem_of_lookup_2, list_elem_of_In, Hall, bool_decide_eq_true in Hk. done.
Qed.

(** The states on the stack spell the symbols of the nodes. *)
Inductive path : list nat → list Node → Prop :=
  | path_nil : path [0] []
  | path_cons q q' n Q N :
      path (q :: Q) N → transition rules nonTerms states q (node_type n) q' →
      path (q' :: q :: Q) (n :: N).

Lemma path_state Q N : path Q N → ∃ q Q' s, Q = q :: Q' ∧ states !! q = Some s.
Proof.
  destruct 1 as [|q q' n Q N _ (s & c & _ & Hc & _)].
  - destruct (so_start _ _ _ (ts_states _ _ _ _ Hsound)) as (s & ? & _). by exists 0, [], s.
  - by exists q', (q :: Q), c.
Qed.

Lemma path_length Q N : path Q N → length Q = S (length N).
Proof. induction 1 as [|? ? ? ? ? _ IH]; [done|]. cbn in *. by rewrite IH. Qed.

(** An initial item is predicted by another one, except at the bottom. *)
Lemma initial_item Q N q s k r :
  path (q :: Q) N → states !! q = Some s → rules !! k = Some r → MkItem k 0 ∈ s →
  (∃ x, x ∈ s ∧ rhs_at rules (ruleIndex x) (dotPosition x) = Some (lhs r)
        ∧ lhs r ∈ nonTerms) ∨ k = 0 ∧ N = [].
Proof.
  intros Hp Hs Hr Hx. inversion Hp as [|q1 q' n Q' N' _ (s' & c & _ & Hc & _ & _ & Hgo)]; subst.
  - destruct (so_start _ _ _ (ts_states _ _ _ _ Hsound)) as (s0 & H0 & _ & Hcl).
    assert (s0 = s) as -> by congruence. apply Hcl in Hx.
    inversion Hx as [? Hin|y ? r' Hy Hat Hn Hk]; subst.
    + apply list_elem_of_singleton in Hin. simplify_eq. by right.
    + left. exists y. assert (r' = r) as -> by congruence. by rewrite Hcl.
  - left. assert (c = s) as -> by congruence. apply Hgo in Hx.
    inversion Hx as [? Hm|y ? r' Hy Hat Hn Hk]; subst; [by inversion Hm|].
    exists y. assert (r' = r) as -> by congruence. by rewrite Hgo.
Qed.

(** The nodes before the dot of an item of the top state are on the stack. *)
Lemma path_item d Q N q s k r :
  path (q :: Q) N → states !! q = Some s → rules !! k = Some r → MkItem k d ∈ s →
  ∃ ns N' q' Q' s', N = ns ++ N' ∧ length ns = d ∧ drop d (q :: Q) = q' :: Q'
    ∧ node_type <$> reverse ns = take d (rhs r)
    ∧ path (q' :: Q') N' ∧ states !! q' = Some s' ∧ MkItem k 0 ∈ s'.
Proof.
  revert Q N q s. induction d as [|d IH]; intros Q N q s Hp Hs Hr Hx.
  { exists [], N, q, Q, s. by rewrite take_0. }
  inversion Hp as [|q1 q' n Q' N' Hp' (s' & c & Hs' & Hc & _ & _ & Hgo)]; subst.
  - destruct (so_start _ _ _ (ts_states _ _ _ _ Hsound)) as (s0 & H0 & _ & Hcl).
    assert (s0 = s) as -> by congruence. apply Hcl in Hx. inversion Hx as [? Hin|]; subst.
    apply list_elem_of_singleton in Hin. done.
  - assert (c = s) as -> by congruence. apply Hgo in Hx. inversion Hx as [? Hm|]; subst.
    inversion Hm as [? ? Hin Hat]; subst.
    destruct (IH _ _ _ _ Hp' Hs' Hr Hin) as (ns & N2 & q2 & Q2 & s2 & -> & Hl & Hd & Ht & Hrest).
    exists (n :: ns), N2, q2, Q2, s2. split_and!; [done|cbn; lia|done| |apply Hrest..].
    unfold rhs_at in Hat. rewrite Hr in Hat. cbn in Hat.
    rewrite reverse_cons fmap_app Ht. by rewrite (take_S_r _ _ _ Hat).
Qed.

Lemma pop_rhs_spec (syms : list string) children ns N Q :
  "EPSILON" ∉ syms → length ns = length syms → length syms ≤ length Q →
  pop_rhs syms children (ns ++ N) Q = Ok (children ++ ns, N, drop (length syms) Q).
Proof.
  revert children ns Q. induction syms as [|X syms IH]; intros children ns Q He Hn HQ; cbn.
  { destruct ns; [|done]. by rewrite app_nil_r. }
  destruct ns as [|n ns]; [done|]. destruct Q as [|q Q]; [cbn in HQ; lia|].
  rewrite decide_False; [|set_solver]. cbn in *.
  rewrite IH; [|set_solver|lia..]. by rewrite -app_assoc.
Qed.

(** ** The invariant of the loop *)

Variable lexer : Reader.t.
Variable input : list ascii.
Hypothesis Hinput : at_ lexer [] input.

Record inv (p : SLRParser.t) (toks : list Token) : Prop := {
  inv_lexed : ∃ r, lexed lexer toks r ∧ Lexer.Get r = Ok (token p, m_lexer p);
  inv_got : ∃ pre rest t rest', got pre rest t (token p) rest'
    ∧ at_ (m_lexer p) (pre ++ t ++ value (token p)) rest';
  inv_path : path (stateStack p) (m_semanticStack p);
  inv_trees : Forall (tree rules nonTerms) (m_semanticStack p);
  inv_leaves : flat_map leaves (reverse (m_semanticStack p)) = entry_of <$> toks;
  inv_eof : Forall (λ t, tok_type t ≠ TokenType.EOF_TOKEN) toks;
}.

Lemma inv_init : ∃ p, parse_init lexer = Ok p ∧ inv p [].
Proof.
  destruct (Get_spec _ _ _ Hinput) as (t & tok & rest' & r' & Hg & Hgot & Hat).
  unfold parse_init. rewrite Hg. eexists. split; [done|]. split; cbn; try done.
  - exists lexer. split; [constructor|done].
  - by exists [], input, t, rest'.
  - constructor.
Qed.

Lemma transition_not_eof q q' : ¬ transition rules nonTerms states q "EOF" q'.
Proof.
  intros (s & c & Hs & Hc & Hne & _ & Hgo).
  assert (∀ x, ¬ moved rules (λ y, y ∈ s) "EOF" x) as Hm.
  { intros x Hm. inversion Hm as [k d Hin Hat]. unfold rhs_at in Hat.
    apply bind_Some in Hat as (r & Hr & Hat).
    destruct (reserved_rhs r "EOF"); [by eapply list_elem_of_lookup_2..|done]. }
  destruct c as [|x c]; [done|].
  assert (closed rules nonTerms (moved rules (λ y, y ∈ s) "EOF") x) as Hx by (apply Hgo; left).
  clear -Hm Hx. induction Hx as [x Hx|]; [by eapply Hm|done].
Qed.

Lemma shift_spec p toks Q q s j :
  inv p toks → stateStack p = q :: Q → states !! q = Some s →
  RemapTokenTypeToString (token p) ∉ nonTerms →
  transition rules nonTerms states q (RemapTokenTypeToString (token p)) j →
  ∃ p', shift (RemapTokenTypeToString (token p)) j p = Ok (Continue p')
    ∧ inv p' (toks ++ [token p]) ∧ stateStack p' = j :: stateStack p.
Proof.
  intros [(r & Hl & Hr) (pre & rest & t & rest' & Hgot & Hat) Hp Ht Hlv Heof] HQ Hs Hn Htr.
  destruct (Get_spec _ _ _ Hat) as (t2 & tok & rest2 & r' & Hg & Hgot' & Hat').
  unfold shift. rewrite Hg. eexists. split; [done|]. split; [|done]. split; cbn [stateStack m_semanticStack token m_lexer].
  - exists (m_lexer p). split; [by econstructor|done].
  - by exists (pre ++ t ++ value (token p)), rest', t2, rest2.
  - rewrite HQ in Hp |- *. by constructor.
  - constructor; [by constructor|done].
  - rewrite reverse_cons flat_map_app Hlv fmap_app. done.
  - apply Forall_app. split; [done|]. apply Forall_singleton. intros He.
    apply (transition_not_eof q j). by rewrite /RemapTokenTypeToString He in Htr.
Qed.

Lemma reduce_spec p toks Q q s k r :
  inv p toks → stateStack p = q :: Q → states !! q = Some s → rules !! k = Some r →
  MkItem k (length (rhs r)) ∈ s → lhs r ≠ "_S_PRIME_" →
  ∃ p', reduce tables k p = Ok (Continue p') ∧ inv p' toks ∧ token p' = token p.
Proof.
  intros [Hl Hgot Hp Ht Hlv Heof] HQ Hs Hr Hx Hne. rewrite HQ in Hp.
  destruct (path_item _ _ _ _ _ _ _ Hp Hs Hr Hx)
    as (ns & N & q' & Q' & s' & HN & Hlen & Hd & Hty & Hp' & Hs' & Hx').
  rewrite firstn_all in Hty. unfold reduce. cbn [SLRParser.rules]. rewrite Hr HQ HN.
  assert (r ∈ rules) as Hin by by eapply list_elem_of_lookup_2.
  rewrite pop_rhs_spec.
  2: { intros He. by destruct (reserved_rhs _ _ Hin He) as (_ & ? & _). }
  2: done.
  2: { pose proof (path_length _ _ Hp) as HlQ. rewrite HN length_app in HlQ. lia. }
  rewrite Hd. cbn [mbind result_bind stack_top app].
  destruct (initial_item _ _ _ _ _ _ Hp' Hs' Hr Hx') as [(y & Hy & Hat & Hnt)|[-> ->]].
  2: { exfalso. destruct (wf_start _ Hwf) as [rs Hrs]. rewrite Hrs in Hr. naive_solver. }
  destruct (rc_goto _ _ _ _ _ _ _ (Hcomplete q' ltac:(by eapply lookup_lt_Some)) _ _ _ Hs' Hy Hat Hnt)
    as [j Hj].
  destruct (ts_goto _ _ _ _ Hsound _ _ _ Hj) as [_ Htr].
  assert (goto_at tables q' (lhs r) = Ok j) as ->.
  { unfold goto_at, row in *. cbn [gotoTable].
    destruct (TableBuilder.m_gotoTable tb !! q') as [m|]; cbn in Hj; [by rewrite Hj|].
    by rewrite lookup_empty in Hj. }
  eexists. split; [done|]. split; [|done]. split; cbn [stateStack m_semanticStack token m_lexer]; try done.
  - by constructor.
  - rewrite HN in Ht. apply Forall_app in Ht as [Ht1 Ht2]. constructor; [|done].
    constructor; [done|done|]. by apply trees_Forall, Forall_reverse.
  - rewrite HN reverse_app flat_map_app in Hlv. rewrite reverse_cons flat_map_app /= app_nil_r. done.
Qed.

(** One round from a configuration that satisfies the invariant. *)
Lemma parse_step_spec p toks :
  inv p toks →
  ∃ o, parse_step tables p = Ok o ∧
  match o with
  | Continue p' => inv p' toks ∧ token p' = token p ∨ inv p' (toks ++ [token p])
  | Accepted root p' => p' = p ∧ tok_type (token p) = TokenType.EOF_TOKEN
      ∧ ∃ n, root = Some n ∧ m_semanticStack p = [n] ∧ node_type n = "program"
  | SyntaxError p' => p' = p ∧ ∃ q Q, stateStack p = q :: Q
      ∧ row (TableBuilder.m_actionTable tb) q !! RemapTokenTypeToString (token p) = None
  end.
Proof.
  intros Hinv. destruct (path_state _ _ (inv_path _ _ Hinv)) as (q & Q & s & HQ & Hs).
  unfold parse_step. rewrite HQ. cbn [stack_top mbind result_bind SLRParser.actionTable].
  destruct (row _ q !! _) as [[ty j]|] eqn:Hrow.
  2: { eexists. split; [done|]. split; [done|]. by exists q, Q. }
  pose proof (ts_action _ _ _ _ Hsound _ _ _ Hrow) as Hok. unfold action_ok in Hok. cbn in Hok.
  destruct ty.
  - destruct Hok as [Hn Htr]. destruct (shift_spec p toks Q q s j) as (p' & -> & ? & _); try done.
    exists (Continue p'). split; [done|]. by right.
  - destruct Hok as (s1 & r & Hs1 & Hr & Hx & Hne & _). assert (s1 = s) as -> by congruence.
    destruct (reduce_spec p toks Q q s j r) as (p' & -> & ? & ?); try done.
    exists (Continue p'). split; [done|]. by left.
  - destruct Hok as (Heof & s1 & k & r & Hs1 & Hr & Hx & HS). assert (s1 = s) as -> by congruence.
    eexists. split; [done|]. split; [done|]. split.
    { destruct (inv_got _ _ Hinv) as (pre & rest & t & rest' & Hgot & _). by eapply got_eof. }
    pose proof (inv_path _ _ Hinv) as Hp. rewrite HQ in Hp.
    destruct (start_unique _ _ Hr HS) as [-> ->].
    destruct (path_item _ _ _ _ _ _ _ Hp Hs Hr Hx)
      as (ns & N & q' & Q' & s' & HN & Hlen & _ & Hty & Hp' & Hs' & Hx').
    destruct (initial_item _ _ _ _ _ _ Hp' Hs' Hr Hx') as [(y & Hy & Hat & _)|[_ ->]].
    { exfalso. unfold rhs_at in Hat. apply bind_Some in Hat as (r' & Hr' & Hat).
      by destruct (reserved_rhs r' "_S_PRIME_") as (_ & _ & ?); [by eapply list_elem_of_lookup_2..|]. }
    destruct ns as [|n [|? ?]]; [done| |done]. exists n. rewrite HN.
    cbn in Hty. by simplify_eq.
  - done.
Qed.

Lemma parse_inv p : reachable tables lexer p → ∃ toks, inv p toks.
Proof.
  induction 1 as [p Hp|p p' _ [toks Hinv] Hstep].
  - destruct inv_init as (p' & Hp' & ?). exists []. by assert (p' = p) as -> by congruence.
  - destruct (parse_step_spec p toks Hinv) as (o & Ho & Hc). rewrite Hstep in Ho. simplify_eq.
    destruct Hc as [[? _]|?]; eauto.
Qed.
End parser.

(** ** Properties of the parser *)

(** A grammar text the parser can be used with. *)
Definition grammar_ok (text : list ascii) : Prop :=
  (RulesBuilder.EPSILON ∉ RulesBuilder.m_lexemes (RulesBuilder.Init text))
  ∧ reserved_ok (RulesBuilder.m_rules (RulesBuilder.Init text)) = true.

#[export] Instance grammar_ok_dec text : Decision (grammar_ok text).
Proof. unfold grammar_ok. apply _. Defined.

Section properties.
Variable text : list ascii.
Abbreviation builder := (RulesBuilder.Init text).
Abbreviation g_rules := (RulesBuilder.m_rules builder).
Abbreviation g_lexemes := (RulesBuilder.m_lexemes builder).
Abbreviation g_nonTerms := (RulesBuilder.m_nonTerms builder).

(** What the tables [tables] of the grammar text promise. *)
Definition tables_correct (tables : ParserTables) : Prop :=
  ∃ follows tb,
    tables = MkTables g_rules (TableBuilder.m_actionTable tb) (TableBuilder.m_gotoTable tb)
    ∧ (∀ B t, t ∈ sets_of follows B ↔ FOLLOW g_rules g_lexemes g_nonTerms "_S_PRIME_" B t)
    ∧ tables_sound g_rules g_nonTerms follows tb
    ∧ ∀ k, k < length (TableBuilder.m_states tb) →
        row_complete g_rules g_nonTerms follows (TableBuilder.m_states tb)
          (TableBuilder.m_actionTable tb) (TableBuilder.m_gotoTable tb) k.

Lemma g_rules_nonempty : g_rules ≠ [].
Proof. destruct (wf_start _ (Init_ok text)) as [rs Hrs]. by rewrite Hrs. Qed.

Lemma tables_spec :
  (RulesBuilder.EPSILON ∉ g_lexemes) →
  (∃ bound tables, ∀ fuel, bound < fuel → BuildParserTables fuel text = Ok tables)
  ∧ ∀ fuel tables, BuildParserTables fuel text = Ok tables → tables_correct tables.
Proof.
  intros Heps. unfold BuildParserTables.
  destruct (follows_spec builder (Init_ok _) Heps)
    as (guided & b' & f & Hb & Hr & Hn & Hgf & Hf & Htot).
  rewrite Hb. cbn [mbind result_bind]. rewrite Hgf. cbn [mbind result_bind]. rewrite Hr Hn.
  assert (∀ r, r ∈ g_rules → is_Some (f !! lhs r)) as Htot'.
  { intros r Hin. apply Htot. by apply (wf_lhs _ (Init_ok text)). }
  split.
  - destruct (Build_unique g_rules g_nonTerms f Htot' g_rules_nonempty) as [tb Htb].
    eexists (states_bound g_rules), _. intros fuel Hfuel. by rewrite (Htb fuel Hfuel).
  - intros fuel tables Hbuild.
    destruct (TableBuilder.Build _ _ f fuel) as [tb| |] eqn:HB; [|done..].
    exists f, tb. split; [by injection Hbuild as <-|]. split; [done|].
    eapply Build_sound; [done|apply g_rules_nonempty|done].
Qed.

(** A complete run of the parser. *)
Lemma parse_reachable tables fuel lexer p o :
  reachable tables lexer p → parse_loop tables fuel p = Ok o →
  ∃ p', reachable tables lexer p' ∧ parse_step tables p' = Ok o ∧ ∀ p'', o ≠ Continue p''.
Proof.
  revert p. induction fuel as [|fuel IH]; intros p Hp Hl; [done|]. cbn in Hl.
  destruct (parse_step tables p) as [[p1|root p1|p1]| |] eqn:Hs; [|cbn in Hl; simplify_eq..];
    [|by exists p..].
  apply (IH p1); [|done]. by eapply reachable_step.
Qed.
End properties.

(** C6. The constructor of the parser returns for any grammar text in which
    [EPSILON] only stands for the empty alternative. *)
Theorem BuildParserTables_terminates text :
  RulesBuilder.EPSILON ∉ RulesBuilder.m_lexemes (RulesBuilder.Init text) →
  ∃ bound tables, ∀ fuel, bound < fuel → BuildParserTables fuel text = Ok tables.
Proof. apply tables_spec. Qed.

Lemma BuildParserTables_terminates_witness :
  (RulesBuilder.EPSILON ∉ RulesBuilder.m_lexemes (RulesBuilder.Init expr_grammar))
  ∧ ∃ bound tables, ∀ fuel, bound < fuel → BuildParserTables fuel expr_grammar = Ok tables.
Proof.
  split; [apply expr_grammar_epsilon|].
  apply (BuildParserTables_terminates expr_grammar expr_grammar_epsilon).
Defined.

(** The expression grammar over the lexer's terminals. *)
Definition paren_grammar : list ascii := chars
  "program = expr ; expr = term tail ; tail = + term tail | EPSILON ; term = identifier | ( expr ) ;".

Lemma paren_grammar_ok : grammar_ok paren_grammar.
Proof. refine (bool_decide_unpack _ _). by vm_compute. Qed.

(** C5. The tables are the SLR tables of the grammar: their states are the
    distinct, prediction-closed item sets of the LR(0) automaton, the
    transitions are the automaton's, the reductions are on FOLLOW, no
    conflict drops an entry without another one in its place, and a shift is
    only displaced by acceptance. *)
Theorem BuildParserTables_correct text fuel tables :
  RulesBuilder.EPSILON ∉ RulesBuilder.m_lexemes (RulesBuilder.Init text) →
  BuildParserTables fuel text = Ok tables → tables_correct text tables.
Proof. intros Heps. apply (tables_spec text Heps). Qed.

Lemma BuildParserTables_correct_witness :
  match BuildParserTables 40 paren_grammar with
  | Ok tables => tables_correct paren_grammar tables
  | _ => False
  end.
Proof.
  destruct (BuildParserTables 40 paren_grammar) as [tables|e|] eqn:Ht;
    [|by vm_compute in Ht..].
  apply (BuildParserTables_correct paren_grammar 40 tables); [apply paren_grammar_ok|exact Ht].
Defined.

(** C4. Whatever the input, the parser never goes wrong: from the start and
    from any configuration the loop reaches, the next round returns; no stack
    is read or popped when empty, no rule index is out of range, no [at]
    throws, and the lexer always has a token to give. *)
Theorem Parse_safe text fuel tables input :
  grammar_ok text → BuildParserTables fuel text = Ok tables →
  (∃ p, parse_init (Lexer.init input) = Ok p)
  ∧ ∀ p, reachable tables (Lexer.init input) p → ∃ o, parse_step tables p = Ok o.
Proof.
  intros [Heps Hres] Hb. destruct (tables_spec text Heps) as [_ Ht].
  destruct (Ht _ _ Hb) as (follows & tb & -> & _ & Hs & Hc).
  pose proof (Reader.init_at input) as Hat. split.
  - destruct (inv_init (RulesBuilder.Init text) tb _ _ Hat) as (p & ? & _). by exists p.
  - intros p Hp. destruct (parse_inv _ (Init_ok text) Hres _ _ Hs Hc _ _ Hat p Hp) as [toks Hinv].
    destruct (parse_step_spec _ (Init_ok text) Hres _ _ Hs Hc _ p toks Hinv) as (o & ? & _). by exists o.
Qed.

Lemma Parse_safe_witness :
  match BuildParserTables 40 paren_grammar with
  | Ok tables => grammar_ok paren_grammar
      ∧ (∃ p, parse_init (Lexer.init (chars "x + )")) = Ok p)
      ∧ ∀ p, reachable tables (Lexer.init (chars "x + )")) p → ∃ o, parse_step tables p = Ok o
  | _ => False
  end.
Proof.
  destruct (BuildParserTables 40 paren_grammar) as [tables|e|] eqn:Ht;
    [|by vm_compute in Ht..].
  split; [exact paren_grammar_ok|].
  apply (Parse_safe paren_grammar 40 tables (chars "x + )") paren_grammar_ok Ht).
Defined.

(** C3. When the parser accepts, the whole input was consumed, the tree it
    hands to the AST builder is a parse tree of [program], its leaves are
    exactly the tokens of the input in order, and the input is a sentence of
    the grammar. *)
Theorem Parse_sound text fuel tables input n_rounds root p :
  grammar_ok text → BuildParserTables fuel text = Ok tables →
  Parse tables n_rounds (Lexer.init input) = Ok (Accepted root p) →
  let b := RulesBuilder.Init text in
  ∃ n toks eof, root = Some n ∧ node_type n = "program"
    ∧ tree (RulesBuilder.m_rules b) (RulesBuilder.m_nonTerms b) n
    ∧ Lexer.tokenize input = Ok (toks ++ [eof])
    ∧ leaves n = entry_of <$> toks
    ∧ derives (RulesBuilder.m_rules b) ["program"] (RemapTokenTypeToString <$> toks).
Proof.
  intros [Heps Hres] Hb Hparse b. destruct (tables_spec text Heps) as [_ Ht].
  destruct (Ht _ _ Hb) as (follows & tb & -> & _ & Hs & Hc).
  pose proof (Reader.init_at input) as Hat. unfold Parse in Hparse.
  apply result_bind_Ok in Hparse as (p0 & Hp0 & Hloop).
  destruct (parse_reachable _ _ _ _ _ (reachable_init _ _ _ Hp0) Hloop) as (p1 & Hp1 & Hstep & _).
  destruct (parse_inv _ (Init_ok text) Hres _ _ Hs Hc _ _ Hat p1 Hp1) as [toks Hinv].
  destruct (parse_step_spec _ (Init_ok text) Hres _ _ Hs Hc _ p1 toks Hinv) as (o & Ho & Hacc).
  rewrite Hstep in Ho. simplify_eq. destruct Hacc as (-> & Heof & n & -> & Hstack & Hn).
  destruct Hinv as [(r & Hl & Hr) _ _ Htrees Hleaves Hne]. rewrite Hstack in Htrees, Hleaves.
  rewrite Forall_singleton in Htrees. cbn in Hleaves. rewrite app_nil_r in Hleaves.
  exists n, toks, (token p1). split_and!; try done.
  - destruct (tokenize_spec input) as (ts & Hts & _). rewrite Hts. f_equal.
    unfold Lexer.tokenize in Hts.
    destruct (Lexer.tokens _ _) as [[ts' r']| |] eqn:Htoks; [|done..]. cbn in Hts. simplify_eq.
    by eapply tokens_lexed.
  - pose proof (tree_derives _ _ _ Htrees) as Hd. rewrite Hn Hleaves in Hd.
    by rewrite -list_fmap_compose in Hd.
Qed.

Lemma Parse_sound_witness :
  let input := chars "a + (b + c)" in
  match BuildParserTables 40 paren_grammar with
  | Ok tables =>
      match Parse tables 40 (Lexer.init input) with
      | Ok (Accepted root p) =>
          let b := RulesBuilder.Init paren_grammar in
          ∃ n toks eof, root = Some n ∧ node_type n = "program"
            ∧ tree (RulesBuilder.m_rules b) (RulesBuilder.m_nonTerms b) n
            ∧ Lexer.tokenize input = Ok (toks ++ [eof])
            ∧ leaves n = entry_of <$> toks
            ∧ derives (RulesBuilder.m_rules b) ["program"] (RemapTokenTypeToString <$> toks)
      | _ => False
      end
  | _ => False
  end.
Proof.
  cbv zeta.
  assert (match BuildParserTables 40 paren_grammar with
    | Ok tables => match Parse tables 40 (Lexer.init (chars "a + (b + c)")) with
                   | Ok (Accepted _ _) => true | _ => false end
    | _ => false end = true) as Hrun by (vm_compute; reflexivity).
  destruct (BuildParserTables 40 paren_grammar) as [tables|e|] eqn:Ht; [|done..].
  destruct (Parse tables 40 _) as [[p|root p|p]|e|] eqn:Hp; [done| |done..].
  apply (Parse_sound paren_grammar 40 tables (chars "a + (b + c)") 40 root p paren_grammar_ok Ht Hp).
Defined.
