(* ===== verification/Graphs.v ===== *)
(** * Graphs as maps from a node to the set of its successors

    The wait graph of the runtime ([SharedRuntimeSync.cpp]) and the lock and
    join graphs of the compiler ([SyncGraphAnalyzer.cpp]) are both a hash map
    of hash sets, and both look for a path with the same loop.  The order in
    which a hash set is traversed is not specified; the answer of the search
    does not depend on it. *)

From S2P Require Import Prelude.
From Stdlib Require Import Lia.

Abbreviation graph K := (gmap K (gset K)).

Section graphs.
Context {K : Type} `{Countable K}.
Implicit Types (g : graph K) (x y a b from to : K).

(** [graph[id]], with an empty set for a missing key. *)
Definition deps_of g (id : K) : gset K := default ∅ (g !! id).

(** How many edges there are: the sum of the sizes of the sets. *)
Definition wait_edges g : nat := sum_list_with (λ kv, size kv.2) (map_to_list g).

(** The depth-first search; [stack] has its top first. *)
Fixpoint cycle_search (fuel : nat) (g : graph K) (from : K)
    (visited : gset K) (stack : list K) : result bool :=
  match fuel with
  | 0 => Diverge
  | S fuel =>
      match stack with
      | [] => Ok false
      | current :: stack =>
          if decide (current ∈ visited) then cycle_search fuel g from visited stack
          else
            let visited := {[current]} ∪ visited in
            if decide (current = from) then Ok true
            else cycle_search fuel g from visited
                   (reverse (elements (deps_of g current)) ++ stack)
      end
  end.

(** ** Paths *)

Definition edge g x y : Prop := y ∈ deps_of g x.
Abbreviation path g := (rtc (edge g)).
Definition acyclic g : Prop := ∀ x, ¬ tc (edge g) x x.

Lemma wait_edges_insert g k d :
  g !! k = None → wait_edges (<[k := d]> g) = size d + wait_edges g.
Proof. intros Hk. unfold wait_edges. by rewrite map_to_list_insert. Qed.

Section search.
Variables (g : graph K) (from : K).

(** The edges out of nodes not visited yet. *)
Definition pending (visited : gset K) : nat :=
  wait_edges (filter (λ kv, kv.1 ∉ visited) g).

Lemma pending_visit visited c :
  c ∉ visited → pending ({[c]} ∪ visited) + size (deps_of g c) ≤ pending visited.
Proof.
  intros Hc. unfold pending, deps_of.
  set (g1 := filter (λ kv : K * gset K, kv.1 ∉ {[c]} ∪ visited) g).
  assert (g1 !! c = None) as Hg1.
  { apply map_lookup_filter_None. right. cbn. set_solver. }
  assert (∀ k, k ≠ c → g1 !! k = filter (λ kv : K * gset K, kv.1 ∉ visited) g !! k) as Hg.
  { intros k Hk. unfold g1. apply option_eq. intros d. rewrite !map_lookup_filter_Some. cbn. set_solver. }
  destruct (g !! c) as [d|] eqn:Hd; cbn [default].
  - replace (filter (λ kv : K * gset K, kv.1 ∉ visited) g) with (<[c := d]> g1).
    { rewrite wait_edges_insert //. cbn. unfold id. lia. }
    apply map_eq. intros k. destruct (decide (k = c)) as [-> |Hk].
    + rewrite lookup_insert_eq. symmetry. by apply map_lookup_filter_Some.
    + rewrite lookup_insert_ne // Hg //.
  - replace (filter (λ kv : K * gset K, kv.1 ∉ visited) g) with g1.
    { cbn. rewrite size_empty. lia. }
    apply map_eq. intros k. destruct (decide (k = c)) as [-> |Hk]; [|by apply Hg].
    rewrite Hg1. symmetry. apply map_lookup_filter_None. by left.
Qed.

(** The state of the search from [to]. *)
Record searching (to : K) (visited : gset K) (stack : list K) : Prop := {
  se_start : to ∈ visited ∨ to ∈ stack;
  se_from : from ∉ visited;
  se_succ x y : x ∈ visited → edge g x y → y ∈ visited ∨ y ∈ stack;
  se_reach x : x ∈ stack → path g to x;
}.

Lemma cycle_search_spec to fuel visited stack :
  searching to visited stack → length stack + pending visited < fuel →
  ∃ c, cycle_search fuel g from visited stack = Ok c ∧ (c = true ↔ path g to from).
Proof.
  revert visited stack. induction fuel as [|fuel IH]; intros visited stack [Hst Hfr Hsu Hre] Hf; [lia|].
  cbn. destruct stack as [|c stack].
  { exists false. split; [done|]. split; [done|]. intros Hp. exfalso.
    assert (∀ x, path g x from → x ∈ visited → False) as Hno; [|apply (Hno to Hp); set_solver].
    clear -Hsu Hfr. intros x Hp. induction Hp as [x|x y z Hxy Hyz IHp]; [done|].
    intros Hx. destruct (Hsu x y Hx Hxy) as [?|?]; [by apply IHp|set_solver]. }
  cbn in Hf. case_decide as Hv.
  { apply IH; [|lia]. split; [set_solver|done| |set_solver].
    intros x y Hx Hxy. destruct (Hsu _ _ Hx Hxy) as [?|?]; set_solver. }
  case_decide as Hcf.
  { subst c. exists true. split; [done|]. split; [|done]. intros _. apply Hre. left. }
  apply IH.
  - split.
    + destruct Hst as [?|[->|?]%elem_of_cons]; set_solver.
    + set_solver.
    + intros x y Hx Hxy. rewrite elem_of_app elem_of_reverse elem_of_elements.
      apply elem_of_union in Hx as [->%elem_of_singleton|Hx]; [set_solver|].
      destruct (Hsu _ _ Hx Hxy) as [?|[->|?]%elem_of_cons]; set_solver.
    + intros x [Hx|Hx]%elem_of_app; [|apply Hre; by right].
      rewrite elem_of_reverse elem_of_elements in Hx.
      eapply rtc_r; [apply (Hre c); left|exact Hx].
  - rewrite length_app length_reverse. pose proof (pending_visit visited c Hv) as Hp.
    change (length (elements (deps_of g c))) with (size (deps_of g c)). lia.
Qed.

(** From the state in which both callers start: each edge is pushed at most
    once, so this fuel is enough. *)
Lemma cycle_search_path to :
  ∃ c, cycle_search (3 + wait_edges g) g from ∅ [to] = Ok c ∧ (c = true ↔ path g to from).
Proof.
  apply cycle_search_spec.
  - split; [set_solver..|]. intros x ->%list_elem_of_singleton. constructor.
  - cbn. unfold pending.
    replace (filter _ _) with g; [lia|].
    apply map_eq. intros k. apply option_eq. intros d. rewrite map_lookup_filter_Some. set_solver.
Qed.
End search.


(** *** Changes to the graph *)

Lemma deps_of_insert g a b x :
  deps_of (<[a := deps_of g a ∪ {[b]}]> g) x
  = if decide (x = a) then deps_of g a ∪ {[b]} else deps_of g x.
Proof.
  unfold deps_of at 1. case_decide as Hx; [subst; by rewrite lookup_insert_eq|].
  by rewrite lookup_insert_ne.
Qed.

(** A new edge that closes no path keeps the graph acyclic. *)
Lemma acyclic_insert g a b :
  acyclic g → ¬ path (<[a := deps_of g a ∪ {[b]}]> g) b a →
  acyclic (<[a := deps_of g a ∪ {[b]}]> g).
Proof.
  set (g' := <[a := _]> g). intros Hac Hno x Hx.
  assert (∀ u v, edge g' u v → edge g u v ∨ u = a ∧ v = b) as Hedge.
  { intros u v. unfold edge, g'. rewrite deps_of_insert. case_decide; set_solver. }
  assert (∀ u v, tc (edge g') u v → tc (edge g) u v ∨ path g' u a ∧ path g' b v) as Htc.
  { intros u v Huv. induction Huv as [u v Huv|u w v Huw Hwv IH].
    - destruct (Hedge _ _ Huv) as [?|[-> ->]]; [left; by apply tc_once|right; by split].
    - destruct (Hedge _ _ Huw) as [Hg|[-> ->]].
      + destruct IH as [?|[? ?]]; [left; by eapply tc_l|right]. split; [by eapply rtc_l|done].
      + right. split; [done|]. by apply tc_rtc. }
  destruct (Htc _ _ Hx) as [?|[Hxa Hbx]]; [by eapply Hac|]. apply Hno. by etrans.
Qed.

Lemma acyclic_sub g g' :
  (∀ x y, edge g' x y → edge g x y) → acyclic g → acyclic g'.
Proof.
  intros Hs Hac x Hx. apply (Hac x). revert Hx. apply tc_congruence with (f := id). apply Hs.
Qed.

Lemma edge_delete g k x y : edge (delete k g) x y → x ≠ k ∧ edge g x y.
Proof.
  unfold edge, deps_of. destruct (decide (x = k)) as [-> |].
  - rewrite lookup_delete_eq. cbn. set_solver.
  - rewrite lookup_delete_ne //.
Qed.

Lemma edge_remove g k x y :
  edge ((λ deps, deps ∖ {[k]}) <$> g) x y → y ≠ k ∧ edge g x y.
Proof. unfold edge, deps_of. rewrite lookup_fmap. destruct (g !! x); set_solver. Qed.


(** The edges of a map without the key are those without it. *)
Lemma edge_empty x y : ¬ edge ∅ x y.
Proof. unfold edge, deps_of. rewrite lookup_empty. set_solver. Qed.

Lemma acyclic_empty : acyclic ∅.
Proof. intros x Hx. inversion Hx as [? ? He|? ? ? He]; subst; by apply edge_empty in He. Qed.
End graphs.

Abbreviation path g := (rtc (edge g)).
