(* ===== verification/SyncRuntime.v ===== *)
(** * Mutexes, threads and the wait graph

    [src/vm/runtime/SharedRuntimeSync.cpp].  Every method holds [m_syncMutex]
    from its first to its last statement, so a run of the program is a
    sequence of whole method calls.  The identifiers are [nat]: the counters
    would only wrap around after 2^64 creations. *)

From S2P Require Import Prelude Graphs.
From Stdlib Require Import Lia.

Module Sync.

(** [struct SyncThreadState]; [SyncMutexState] is its only member. *)
Record SyncThreadState := MkThread { active : bool; ownedMutexes : gset nat }.
Abbreviation SyncMutexState := (option nat).

(** [struct SyncStats] *)
Record SyncStats := MkStats { threadCount : nat; mutexCount : nat; waitEdgeCount : nat }.


(** The members of [SharedRuntime] under [m_syncMutex]. *)
Record t := Mk {
  m_threads : gmap nat SyncThreadState;
  m_mutexes : gmap nat SyncMutexState;
  m_waitGraph : graph nat;
  m_syncStats : SyncStats;
  m_nextThreadId : nat;
  m_nextMutexId : nat;
}.

Definition m_mainThreadId : nat := 0.

Definition set_threads (f : gmap nat SyncThreadState → gmap nat SyncThreadState) (s : t) : t :=
  Mk (f (m_threads s)) (m_mutexes s) (m_waitGraph s) (m_syncStats s) (m_nextThreadId s) (m_nextMutexId s).
Definition set_mutexes (f : gmap nat SyncMutexState → gmap nat SyncMutexState) (s : t) : t :=
  Mk (m_threads s) (f (m_mutexes s)) (m_waitGraph s) (m_syncStats s) (m_nextThreadId s) (m_nextMutexId s).
Definition set_waitGraph (f : graph nat → graph nat) (s : t) : t :=
  Mk (m_threads s) (m_mutexes s) (f (m_waitGraph s)) (m_syncStats s) (m_nextThreadId s) (m_nextMutexId s).

(** The [ownedMutexes] of one thread. *)
Definition set_owned (f : gset nat → gset nat) (threadId : nat) (s : t) : t :=
  set_threads (alter (λ th, MkThread (active th) (f (ownedMutexes th))) threadId) s.

(** *** Statistics *)

Definition active_threads (threads : gmap nat SyncThreadState) : nat :=
  size (filter (λ kv, active kv.2 = true) threads).

Definition RecomputeSyncStatsLocked (s : t) : t :=
  Mk (m_threads s) (m_mutexes s) (m_waitGraph s)
     (MkStats (active_threads (m_threads s)) (size (m_mutexes s)) (wait_edges (m_waitGraph s)))
     (m_nextThreadId s) (m_nextMutexId s).

(** *** The wait graph *)

Definition ClearWaitingEdgesFromLocked (threadId : nat) (s : t) : t :=
  RecomputeSyncStatsLocked (set_waitGraph (delete threadId) s).

Definition AddWaitEdgeLocked (fromThreadId toThreadId : nat) (s : t) : t :=
  RecomputeSyncStatsLocked
    (set_waitGraph (λ g, <[fromThreadId := deps_of g fromThreadId ∪ {[toThreadId]}]> g) s).

(** Each edge is pushed at most once. *)
Definition WouldIntroduceCycleLocked (fromThreadId toThreadId : nat) (s : t) : result bool :=
  if decide (fromThreadId = toThreadId) then Ok true
  else cycle_search (3 + wait_edges (m_waitGraph s)) (m_waitGraph s) fromThreadId ∅ [toThreadId].

Fixpoint any_cycle (edges : list (nat * nat)) (s : t) : result bool :=
  match edges with
  | [] => Ok false
  | (threadId, dep) :: edges =>
      c ← WouldIntroduceCycleLocked threadId dep s;
      if (c : bool) then Ok true else any_cycle edges s
  end.

Definition HasCycleLocked (s : t) : result bool :=
  any_cycle (map_to_list (m_waitGraph s) ≫= λ kv, pair kv.1 <$> elements kv.2) s.

(** *** The methods *)

(** The constructor of [SharedRuntime]. *)
Definition init : t :=
  RecomputeSyncStatsLocked (Mk {[m_mainThreadId := MkThread true ∅]} ∅ ∅ (MkStats 0 0 0) 1 1).

Definition CreateExecutionThread : st t nat := λ s,
  let threadId := m_nextThreadId s in
  Ok (threadId, RecomputeSyncStatsLocked
    (Mk (<[threadId := MkThread true ∅]> (m_threads s)) (m_mutexes s) (m_waitGraph s)
        (m_syncStats s) (S threadId) (m_nextMutexId s))).

Definition CreateMutex : st t nat := λ s,
  let mutexId := m_nextMutexId s in
  Ok (mutexId, RecomputeSyncStatsLocked
    (Mk (m_threads s) (<[mutexId := None]> (m_mutexes s)) (m_waitGraph s)
        (m_syncStats s) (m_nextThreadId s) (S mutexId))).

Definition SyncHandleExistsLocked (threadId : nat) (s : t) : bool :=
  match m_threads s !! threadId with Some th => active th | None => false end.
Definition MutexExistsLocked (mutexId : nat) (s : t) : bool :=
  bool_decide (is_Some (m_mutexes s !! mutexId)).

Definition IsThreadActive (threadId : nat) : st t bool := λ s, Ok (SyncHandleExistsLocked threadId s, s).
Definition HasMutex (mutexId : nat) : st t bool := λ s, Ok (MutexExistsLocked mutexId s, s).

(** [m_mutexes.at(mutexId).ownerThreadId], after the key was checked. *)
Definition owner_of (mutexId : nat) (s : t) : option nat := mjoin (m_mutexes s !! mutexId).

Definition TryLockMutex (threadId mutexId : nat) : st t bool := λ s,
  if negb (SyncHandleExistsLocked threadId s) || negb (MutexExistsLocked mutexId s)
  then Ok (false, s)
  else match owner_of mutexId s with
  | None =>
      let s := set_mutexes <[mutexId := Some threadId]> s in
      let s := set_owned (λ o, o ∪ {[mutexId]}) threadId s in
      Ok (true, ClearWaitingEdgesFromLocked threadId s)
  | Some ownerId =>
      let s := AddWaitEdgeLocked threadId ownerId s in
      c ← WouldIntroduceCycleLocked threadId ownerId s;
      if (c : bool) then Ok (false, ClearWaitingEdgesFromLocked threadId s) else Ok (false, s)
  end.

Definition WouldDeadlockOnMutex (threadId mutexId : nat) : st t bool := λ s,
  if negb (SyncHandleExistsLocked threadId s) || negb (MutexExistsLocked mutexId s)
  then Ok (false, s)
  else match owner_of mutexId s with
  | None => Ok (false, s)
  | Some ownerId => c ← WouldIntroduceCycleLocked threadId ownerId s; Ok (c, s)
  end.

Definition UnlockMutex (threadId mutexId : nat) : st t bool := λ s,
  if negb (SyncHandleExistsLocked threadId s) || negb (MutexExistsLocked mutexId s)
  then Ok (false, s)
  else if decide (owner_of mutexId s ≠ Some threadId) then Ok (false, s)
  else
    let s := set_mutexes <[mutexId := None]> s in
    let s := set_owned (λ o, o ∖ {[mutexId]}) threadId s in
    Ok (true, ClearWaitingEdgesFromLocked threadId s).

Definition AssertNoDeadlock : st t bool := λ s, c ← HasCycleLocked s; Ok (negb c, s).

Definition JoinThread (waitingThreadId targetThreadId : nat) : st t bool := λ s,
  if negb (SyncHandleExistsLocked waitingThreadId s) || negb (SyncHandleExistsLocked targetThreadId s)
  then Ok (false, s)
  else
    let s := AddWaitEdgeLocked waitingThreadId targetThreadId s in
    c ← WouldIntroduceCycleLocked waitingThreadId targetThreadId s;
    if (c : bool) then Ok (false, ClearWaitingEdgesFromLocked waitingThreadId s) else Ok (true, s).

(** The loop of [FinishThread] over the owned mutexes. *)
Definition release_all (owned : gset nat) (mutexes : gmap nat SyncMutexState) : gmap nat SyncMutexState :=
  foldl (λ ms m, alter (λ _, None) m ms) mutexes (elements owned).

Definition FinishThread (threadId : nat) : st t bool := λ s,
  match m_threads s !! threadId with
  | None => Ok (false, s)
  | Some th =>
      let s := set_mutexes (release_all (ownedMutexes th)) s in
      let s := set_threads <[threadId := MkThread false ∅]> s in
      let s := ClearWaitingEdgesFromLocked threadId s in
      let s := set_waitGraph (fmap (λ deps, deps ∖ {[threadId]})) s in
      Ok (true, RecomputeSyncStatsLocked s)
  end.

Definition IsMutexLocked (mutexId : nat) : st t bool := λ s,
  Ok (MutexExistsLocked mutexId s && bool_decide (is_Some (owner_of mutexId s)), s).
Definition MutexOwner (mutexId : nat) : st t (option nat) := λ s, Ok (owner_of mutexId s, s).
Definition GetSyncStats : st t SyncStats := λ s, Ok (m_syncStats s, s).

(** The methods that change the state, as one call. *)
Inductive call :=
  | call_thread | call_mutex
  | call_lock (threadId mutexId : nat) | call_unlock (threadId mutexId : nat)
  | call_join (waiting target : nat) | call_finish (threadId : nat).

Definition run (c : call) (s : t) : result t :=
  match c with
  | call_thread => snd <$> CreateExecutionThread s
  | call_mutex => snd <$> CreateMutex s
  | call_lock th m => snd <$> TryLockMutex th m s
  | call_unlock th m => snd <$> UnlockMutex th m s
  | call_join w g => snd <$> JoinThread w g s
  | call_finish th => snd <$> FinishThread th s
  end.

Inductive reachable : t → Prop :=
  | reachable_init : reachable init
  | reachable_call s c s' : reachable s → run c s = Ok s' → reachable s'.

(** *** [ExecutionContextSync.cpp]

    The wrappers of [ExecutionContext]: the answer and the error raised.
    Each runtime call takes the lock anew; nothing else runs in between
    here. *)

Definition outcome : Type := bool * option string.
Definition raise (msg : string) : st t outcome := mret (false, Some msg).
Definition fine (b : bool) : st t outcome := mret (b, None).

Definition ctx_TryLockMutex (threadId mutexId : nat) : st t outcome :=
  active ← IsThreadActive threadId;
  if negb active then raise "Unknown thread handle" else
  exists_ ← HasMutex mutexId;
  if negb exists_ then raise "Unknown mutex handle" else
  owner ← MutexOwner mutexId;
  let try_lock :=
    locked ← TryLockMutex threadId mutexId;
    if (locked : bool) then fine true else
    owner ← MutexOwner mutexId;
    match owner with None => raise "Mutex lock failed" | Some _ => fine false end in
  match owner with
  | Some owner =>
      if decide (owner = threadId)
      then raise "Recursive mutex lock is not allowed (self-deadlock)" else
      d ← WouldDeadlockOnMutex threadId mutexId;
      if (d : bool) then raise "Deadlock detected while locking mutex" else try_lock
  | None => try_lock
  end.

Definition ctx_UnlockMutex (threadId mutexId : nat) : st t outcome :=
  active ← IsThreadActive threadId;
  if negb active then raise "Unknown thread handle" else
  exists_ ← HasMutex mutexId;
  if negb exists_ then raise "Unknown mutex handle" else
  owner ← MutexOwner mutexId;
  if decide (owner ≠ Some threadId) then raise "Mutex unlock by non-owner is not allowed" else
  ok ← UnlockMutex threadId mutexId;
  if negb ok then raise "Mutex unlock failed" else fine true.

Definition ctx_AssertNoDeadlock : st t outcome :=
  ok ← AssertNoDeadlock; if negb ok then raise "Deadlock detected" else fine true.

Definition ctx_JoinThread (waitingThreadId targetThreadId : nat) : st t outcome :=
  ok ← JoinThread waitingThreadId targetThreadId;
  if negb ok then raise "Thread join failed" else fine true.

Definition ctx_FinishThread (threadId : nat) : st t outcome :=
  ok ← FinishThread threadId;
  if negb ok then raise "Unknown thread handle" else fine true.

End Sync.
