(* ===== verification/SyncSpec.v ===== *)
(** * The synchronisation runtime: invariants and correctness *)

From S2P Require Import Prelude Graphs SyncRuntime.
From Stdlib Require Import Lia.
Import Sync.

(** ** The wait graph *)

Lemma WouldIntroduceCycle_spec from to s :
  ∃ c, WouldIntroduceCycleLocked from to s = Ok c ∧ (c = true ↔ path (m_waitGraph s) to from).
Proof.
  unfold WouldIntroduceCycleLocked. case_decide as Hd.
  { subst. exists true. split; [done|]. split; [|done]. intros _. constructor. }
  apply cycle_search_path.
Qed.

Lemma any_cycle_spec s edges :
  ∃ c, any_cycle edges s = Ok c
    ∧ (c = true ↔ ∃ x y, (x, y) ∈ edges ∧ path (m_waitGraph s) y x).
Proof.
  induction edges as [|[x y] edges (c & IH & Hc)]; cbn.
  { exists false. split; [done|]. split; [done|]. set_solver. }
  destruct (WouldIntroduceCycle_spec x y s) as (d & -> & Hd). cbn. destruct d.
  - exists true. split; [done|]. split; [|done]. intros _. exists x, y. split; [left|by apply Hd].
  - exists c. split; [done|]. rewrite Hc. split.
    + intros (x' & y' & ? & ?). exists x', y'. set_solver.
    + intros (x' & y' & [[= -> ->]|?]%elem_of_cons & Hp); [|by exists x', y'].
      exfalso. apply Hd in Hp. done.
Qed.

Lemma HasCycle_spec s :
  ∃ c, HasCycleLocked s = Ok c ∧ (c = true ↔ ¬ acyclic (m_waitGraph s)).
Proof.
  unfold HasCycleLocked. destruct (any_cycle_spec s
    (map_to_list (m_waitGraph s) ≫= λ kv, pair kv.1 <$> elements kv.2)) as (c & -> & Hc).
  exists c. split; [done|].
  assert (∀ x y, (x, y) ∈ (map_to_list (m_waitGraph s) ≫= λ kv, pair kv.1 <$> elements kv.2)
    ↔ edge (m_waitGraph s) x y) as Hedges.
  { intros x y. rewrite list_elem_of_bind. unfold edge, deps_of. split.
    - intros ([k d] & Hin & Hk). apply elem_of_map_to_list in Hk. cbn in Hin.
      apply list_elem_of_fmap in Hin as (y' & [= <- <-] & Hy). rewrite Hk. by apply elem_of_elements.
    - destruct (m_waitGraph s !! x) as [d|] eqn:Hx; cbn; [|set_solver]. intros Hy.
      exists (x, d). split; [|by apply elem_of_map_to_list]. cbn.
      apply list_elem_of_fmap. exists y. split; [done|]. by apply elem_of_elements. }
  assert (c = true ↔ ∃ x, tc (edge (m_waitGraph s)) x x) as Hc'.
  { rewrite Hc. split.
    - intros (x & y & Hxy%Hedges & Hp). exists x. by eapply tc_rtc_r; [apply tc_once|].
    - intros (x & Hx). inversion Hx as [? ? Hxx|? y ? Hxy Hyx]; subst.
      + exists x, x. split; [by apply Hedges|constructor].
      + exists x, y. split; [by apply Hedges|by apply tc_rtc]. }
  rewrite Hc'. unfold acyclic. split; [naive_solver|].
  intros Hn. destruct c; [by apply Hc'|]. exfalso. apply Hn. intros x Hx.
  assert (false = true) by (apply Hc'; by exists x). done.
Qed.

(** ** The invariant *)

(** A thread's [ownedMutexes], empty for an unknown thread. *)
Definition owned_by (s : t) (threadId : nat) : gset nat :=
  default ∅ (ownedMutexes <$> m_threads s !! threadId).

(** Everything except the statistics. *)
Record coherent (s : t) : Prop := {
  co_owner m th : owner_of m s = Some th ↔ m ∈ owned_by s th;
  co_active th : SyncHandleExistsLocked th s = false → owned_by s th = ∅;
  co_edge x y : edge (m_waitGraph s) x y →
    SyncHandleExistsLocked x s = true ∧ SyncHandleExistsLocked y s = true;
  co_acyclic : acyclic (m_waitGraph s);
  co_fresh th : m_nextThreadId s ≤ th → m_threads s !! th = None;
  co_fresh_mutex m : m_nextMutexId s ≤ m → m_mutexes s !! m = None;
}.

Record ok (s : t) : Prop := {
  ok_coherent : coherent s;
  ok_stats : m_syncStats s = MkStats (active_threads (m_threads s)) (size (m_mutexes s))
                               (wait_edges (m_waitGraph s));
}.

Lemma coherent_ok s : coherent s → ok (RecomputeSyncStatsLocked s).
Proof. intros [H1 H2 H3 H4 H5 H6]. by split. Qed.

Lemma owned_by_set_owned f th s th' :
  owned_by (set_owned f th s) th'
  = if decide (th' = th ∧ is_Some (m_threads s !! th)) then f (owned_by s th) else owned_by s th'.
Proof.
  unfold owned_by, set_owned, set_threads. cbn. destruct (decide (th' = th)) as [-> |Hne].
  - rewrite lookup_alter_eq. destruct (m_threads s !! th) as [x|]; cbn.
    + by rewrite decide_True; [|eauto].
    + rewrite decide_False //. intros [_ [? ?]]. done.
  - rewrite lookup_alter_ne // decide_False //. naive_solver.
Qed.

Lemma exists_set_owned f th s th' :
  SyncHandleExistsLocked th' (set_owned f th s) = SyncHandleExistsLocked th' s.
Proof.
  unfold SyncHandleExistsLocked, set_owned, set_threads. cbn. destruct (decide (th' = th)) as [-> |Hne].
  - rewrite lookup_alter_eq. by destruct (m_threads s !! th).
  - by rewrite lookup_alter_ne.
Qed.

Lemma exists_is_Some th s : SyncHandleExistsLocked th s = true → is_Some (m_threads s !! th).
Proof. unfold SyncHandleExistsLocked. destruct (m_threads s !! th); [eauto|done]. Qed.

Lemma owner_of_insert m o s m' :
  owner_of m' (set_mutexes <[m := o]> s) = if decide (m' = m) then o else owner_of m' s.
Proof.
  unfold owner_of, set_mutexes. cbn. case_decide; [subst; by rewrite lookup_insert_eq|].
  by rewrite lookup_insert_ne.
Qed.

Lemma owner_exists m s th : owner_of m s = Some th → MutexExistsLocked m s = true.
Proof.
  unfold owner_of, MutexExistsLocked. intros Ho. apply bool_decide_eq_true.
  destruct (m_mutexes s !! m); [eauto|done].
Qed.

(** The owner of a mutex is an active thread. *)
Lemma owner_active m s th : coherent s → owner_of m s = Some th → SyncHandleExistsLocked th s = true.
Proof.
  intros Hs Ho. apply (co_owner _ Hs) in Ho. destruct (SyncHandleExistsLocked th s) eqn:E; [done|].
  rewrite (co_active _ Hs _ E) in Ho. set_solver.
Qed.

Lemma mutex_fresh_insert (ms : gmap nat SyncMutexState) m o m' :
  is_Some (ms !! m) → ms !! m' = None → (<[m := o]> ms : gmap nat SyncMutexState) !! m' = None.
Proof. intros [x Hx] Hm. rewrite lookup_insert_ne //. intros ->. congruence. Qed.

(** Changing the owner of [m], with the owner's record. *)
Lemma change_owner_ok th m (lock : bool) s :
  coherent s → SyncHandleExistsLocked th s = true → MutexExistsLocked m s = true →
  owner_of m s = (if lock then None else Some th) →
  let s1 := set_mutexes <[m := if lock then Some th else None]> s in
  let s2 := set_owned (λ o, if lock then o ∪ {[m]} else o ∖ {[m]}) th s1 in
  ok (ClearWaitingEdgesFromLocked th s2).
Proof.
  intros Hs Hth Hm Ho s1 s2. apply coherent_ok.
  assert (∀ th', owned_by s2 th' = if decide (th' = th)
    then (if lock then owned_by s th ∪ {[m]} else owned_by s th ∖ {[m]}) else owned_by s th') as Hown.
  { intros th'. unfold s2. rewrite owned_by_set_owned. pose proof (exists_is_Some _ _ Hth).
    case_decide as Hd; case_decide as Hd'; try done; naive_solver. }
  assert (∀ th', SyncHandleExistsLocked th' s2 = SyncHandleExistsLocked th' s) as Hex.
  { intros th'. unfold s2. by rewrite exists_set_owned. }
  pose proof (proj1 (bool_decide_eq_true _) Hm) as HmS.
  split; cbn.
  - intros m' th'. change (owner_of m' _) with (owner_of m' s1). change (owned_by _ th') with (owned_by s2 th').
    unfold s1. rewrite owner_of_insert Hown. pose proof (co_owner _ Hs m' th') as Hc.
    pose proof (co_owner _ Hs m' th) as Hcth.
    destruct lock; case_decide as H1; case_decide as H2; subst; set_solver.
  - intros th' Hf. change (owned_by _ th') with (owned_by s2 th'). rewrite Hown.
    change (SyncHandleExistsLocked th' s2 = false) in Hf. rewrite Hex in Hf.
    rewrite decide_False; [by apply (co_active _ Hs)|]. intros ->. congruence.
  - intros x y Hxy. change (SyncHandleExistsLocked ?z _) with (SyncHandleExistsLocked z s2). rewrite !Hex.
    apply edge_delete in Hxy as [_ Hxy]. by apply (co_edge _ Hs).
  - eapply acyclic_sub; [|apply (co_acyclic _ Hs)]. intros x y Hxy. by apply edge_delete in Hxy as [_ ?].
  - intros th' Hle. rewrite lookup_alter_None. by apply (co_fresh _ Hs).
  - intros m' Hle. apply mutex_fresh_insert; [done|]. by apply (co_fresh_mutex _ Hs).
Qed.

(** Waiting for a thread: the new edge is kept only if it closes no cycle. *)
Lemma wait_ok a b s :
  coherent s → SyncHandleExistsLocked a s = true → SyncHandleExistsLocked b s = true →
  let s' := AddWaitEdgeLocked a b s in
  ∃ c, WouldIntroduceCycleLocked a b s' = Ok c
    ∧ (c = true ↔ path (m_waitGraph s) b a)
    ∧ ok (if c then ClearWaitingEdgesFromLocked a s' else s').
Proof.
  intros Hs Ha Hb s'. destruct (WouldIntroduceCycle_spec a b s') as (c & -> & Hc).
  exists c. split; [done|]. cbn in Hc.
  assert (∀ u v, edge (m_waitGraph s') u v ↔ edge (m_waitGraph s) u v ∨ u = a ∧ v = b) as Hedge.
  { intros u v. cbn. unfold edge. rewrite deps_of_insert. case_decide; set_solver. }
  assert (path (m_waitGraph s') b a ↔ path (m_waitGraph s) b a) as Hpath.
  { split.
    - assert (∀ x z, path (m_waitGraph s') x z → z = a → path (m_waitGraph s) x a) as Hgen.
      { induction 1 as [z|x y z Hxy Hyz IH]; intros ->; [constructor|].
        apply Hedge in Hxy as [Hxy|[-> _]]; [|constructor].
        eapply rtc_l; [exact Hxy|by apply IH]. }
      intros Hp. by eapply Hgen.
    - apply rtc_congruence with (f := id). intros x y Hxy. apply Hedge. by left. }
  split; [by rewrite Hc|].
  assert (∀ x y, edge (m_waitGraph s') x y →
    SyncHandleExistsLocked x s = true ∧ SyncHandleExistsLocked y s = true) as Hends.
  { intros x y [?|[-> ->]]%Hedge; [by apply (co_edge _ Hs)|done]. }
  destruct Hs as [H1 H2 H3 H4 H5 H6]. destruct c.
  - apply coherent_ok. split; try done.
    + intros x y [_ Hxy]%edge_delete. by apply Hends.
    + eapply acyclic_sub; [|exact H4]. intros x y [Hx Hxy]%edge_delete.
      apply Hedge in Hxy as [?|[? _]]; done.
  - apply coherent_ok. split; try done.
    apply acyclic_insert; [done|]. intros Hp. apply Hc in Hp. done.
Qed.

Lemma release_all_lookup owned ms m :
  release_all owned ms !! m = if decide (m ∈ owned) then (λ _, None) <$> ms !! m else ms !! m.
Proof.
  unfold release_all.
  assert (∀ l (ms : gmap nat SyncMutexState), foldl (λ ms m, alter (λ _, None) m ms) ms l !! m
    = if decide (m ∈ l) then (λ _, None) <$> ms !! m else ms !! m) as Hl.
  { induction l as [|k l IH]; intros ms'; cbn [foldl]; [done|]. rewrite IH.
    destruct (decide (m = k)) as [-> |Hne].
    - rewrite lookup_alter_eq (decide_True (P := k ∈ k :: l)); [|left].
      case_decide; [|done]. by destruct (ms' !! k).
    - rewrite lookup_alter_ne //. case_decide; case_decide; try done; set_solver. }
  rewrite Hl. case_decide; case_decide; set_solver.
Qed.

Lemma finish_ok th s :
  coherent s → is_Some (m_threads s !! th) →
  ∃ s', FinishThread th s = Ok (true, s') ∧ ok s'
    ∧ (∀ m, owner_of m s' = if decide (owner_of m s = Some th) then None else owner_of m s)
    ∧ SyncHandleExistsLocked th s' = false
    ∧ ∀ x y, edge (m_waitGraph s') x y → edge (m_waitGraph s) x y ∧ x ≠ th ∧ y ≠ th.
Proof.
  intros Hs [rec Hrec]. unfold FinishThread. rewrite Hrec.
  set (s1 := set_threads _ _). set (s2 := set_waitGraph _ _).
  assert (owned_by s th = ownedMutexes rec) as Hown by (unfold owned_by; by rewrite Hrec).
  assert (∀ m, owner_of m s2 = if decide (owner_of m s = Some th) then None else owner_of m s) as Ho.
  { intros m. unfold owner_of at 1. cbn. rewrite release_all_lookup -Hown. unfold owner_of.
    pose proof (co_owner _ Hs m th) as Hc. unfold owner_of in Hc.
    case_decide as H1; case_decide as H2; try tauto; by destruct (m_mutexes s !! m) as [[]|]. }
  assert (∀ th', owned_by s2 th' = if decide (th' = th) then ∅ else owned_by s th') as Hob.
  { intros th'. unfold owned_by. cbn. case_decide as Hd; [subst; by rewrite lookup_insert_eq|].
    by rewrite lookup_insert_ne. }
  assert (∀ th', SyncHandleExistsLocked th' s2
    = if decide (th' = th) then false else SyncHandleExistsLocked th' s) as Hex.
  { intros th'. unfold SyncHandleExistsLocked. cbn. case_decide as Hd; [subst; by rewrite lookup_insert_eq|].
    by rewrite lookup_insert_ne. }
  assert (∀ x y, edge (m_waitGraph s2) x y → edge (m_waitGraph s) x y ∧ x ≠ th ∧ y ≠ th) as He.
  { intros x y [? [? ?]%edge_delete]%edge_remove. done. }
  exists (RecomputeSyncStatsLocked s2). split; [done|]. split_and!; [|done| |done].
  - apply coherent_ok. split.
    + intros m th'. rewrite Ho Hob. pose proof (co_owner _ Hs m th') as Hc.
      case_decide as H1; case_decide as H2; subst; rewrite -?Hc; set_solver.
    + intros th' Hf. rewrite Hex in Hf. rewrite Hob. case_decide; [done|]. by apply (co_active _ Hs).
    + intros x y (Hxy & ? & ?)%He. rewrite !Hex !decide_False //. by apply (co_edge _ Hs).
    + eapply acyclic_sub; [|apply (co_acyclic _ Hs)]. by intros x y (? & _)%He.
    + intros th' Hle. cbn in *. rewrite lookup_insert_ne; [by apply (co_fresh _ Hs)|].
      intros ->. rewrite (co_fresh _ Hs) // in Hrec.
    + intros m Hle. cbn in *. rewrite release_all_lookup (co_fresh_mutex _ Hs) //. by case_decide.
  - change (SyncHandleExistsLocked th s2 = false). by rewrite Hex decide_True.
Qed.

Lemma create_thread_ok s :
  coherent s → ∃ s', CreateExecutionThread s = Ok (m_nextThreadId s, s') ∧ ok s'.
Proof.
  intros Hs. eexists. split; [done|]. apply coherent_ok.
  set (s1 := Mk _ _ _ _ _ _). pose proof (co_fresh _ Hs (m_nextThreadId s) ltac:(lia)) as Hnew.
  assert (∀ th, owned_by s1 th = owned_by s th) as Hob.
  { intros th. unfold owned_by, s1. cbn. destruct (decide (th = m_nextThreadId s)) as [-> |].
    - by rewrite lookup_insert_eq Hnew.
    - by rewrite lookup_insert_ne. }
  assert (∀ th, SyncHandleExistsLocked th s = true → SyncHandleExistsLocked th s1 = true) as Hex.
  { intros th. unfold SyncHandleExistsLocked, s1. cbn. destruct (decide (th = m_nextThreadId s)) as [-> |].
    - by rewrite lookup_insert_eq.
    - by rewrite lookup_insert_ne. }
  split.
  - intros m th. rewrite Hob. apply (co_owner _ Hs).
  - intros th Hf. rewrite Hob. apply (co_active _ Hs).
    destruct (SyncHandleExistsLocked th s) eqn:E; [|done]. apply Hex in E. congruence.
  - intros x y Hxy. destruct (co_edge _ Hs x y Hxy). auto.
  - apply (co_acyclic _ Hs).
  - intros th Hle. cbn in *. rewrite lookup_insert_ne; [apply (co_fresh _ Hs)|]; lia.
  - apply (co_fresh_mutex _ Hs).
Qed.

Lemma create_mutex_ok s :
  coherent s → ∃ s', CreateMutex s = Ok (m_nextMutexId s, s') ∧ ok s'.
Proof.
  intros Hs. eexists. split; [done|]. apply coherent_ok. destruct Hs as [H1 H2 H3 H4 H5 H6].
  split; try done.
  - intros m th. unfold owner_of in *. cbn. destruct (decide (m = m_nextMutexId s)) as [-> |].
    + rewrite lookup_insert_eq. cbn. specialize (H1 (m_nextMutexId s) th). rewrite H6 // in H1.
    + by rewrite lookup_insert_ne.
  - intros m Hle. cbn in *. rewrite lookup_insert_ne; [apply H6|]; lia.
Qed.

(** [TryLockMutex] on valid handles. *)
Lemma try_lock_ok th m s :
  coherent s → SyncHandleExistsLocked th s = true → MutexExistsLocked m s = true →
  ∃ s', TryLockMutex th m s = Ok (bool_decide (owner_of m s = None), s') ∧ ok s'
    ∧ ∀ m', owner_of m' s' = if decide (m' = m ∧ owner_of m s = None) then Some th else owner_of m' s.
Proof.
  intros Hs Hth Hm. unfold TryLockMutex. rewrite Hth Hm. cbn [negb orb].
  destruct (owner_of m s) as [o|] eqn:Ho.
  - destruct (wait_ok th o s Hs Hth) as (c & -> & _ & Hok); [by eapply owner_active|].
    rewrite bool_decide_false //. cbn [mbind result_bind].
    destruct c; (eexists; split; [done|split; [exact Hok|]]);
      intros m'; (rewrite decide_False; [done|naive_solver]).
  - pose proof (change_owner_ok th m true s Hs Hth Hm Ho) as Hok.
    rewrite bool_decide_true //. eexists. split; [done|]. split; [exact Hok|]. intros m'.
    transitivity (owner_of m' (set_mutexes <[m := Some th]> s)); [done|].
    rewrite owner_of_insert. case_decide; case_decide; naive_solver.
Qed.

Lemma unlock_ok th m s :
  coherent s → SyncHandleExistsLocked th s = true → MutexExistsLocked m s = true →
  owner_of m s = Some th →
  ∃ s', UnlockMutex th m s = Ok (true, s') ∧ ok s'
    ∧ ∀ m', owner_of m' s' = if decide (m' = m) then None else owner_of m' s.
Proof.
  intros Hs Hth Hm Ho. unfold UnlockMutex. rewrite Hth Hm. cbn [negb orb].
  rewrite decide_False; [|by intros ?].
  pose proof (change_owner_ok th m false s Hs Hth Hm Ho) as Hok.
  eexists. split; [done|]. split; [exact Hok|]. intros m'.
  transitivity (owner_of m' (set_mutexes <[m := None]> s)); [done|]. by rewrite owner_of_insert.
Qed.

Lemma init_ok : ok init.
Proof.
  apply coherent_ok. split; cbn.
  - intros m th. unfold owner_of, owned_by. cbn. rewrite lookup_empty. cbn. split; [done|].
    destruct (decide (th = m_mainThreadId)) as [-> |]; [by rewrite lookup_singleton_eq|].
    by rewrite lookup_singleton_ne.
  - intros th. unfold owned_by. cbn. destruct (decide (th = m_mainThreadId)) as [-> |].
    + by rewrite lookup_singleton_eq.
    + by rewrite lookup_singleton_ne.
  - intros x y. unfold edge, deps_of. rewrite lookup_empty. cbn. set_solver.
  - intros x Hx. inversion Hx as [? ? He|? ? ? He]; subst; unfold edge, deps_of in He;
      rewrite lookup_empty in He; cbn in He; set_solver.
  - intros th Hle. by rewrite lookup_insert_ne; [|lia].
  - done.
Qed.

Lemma sync_run_ok c s : ok s → ∃ s', run c s = Ok s' ∧ ok s'.
Proof.
  intros Hok. pose proof (ok_coherent _ Hok) as Hs. destruct c as [| |th m|th m|w g|th]; cbn [run].
  - destruct (create_thread_ok s Hs) as (s' & -> & ?). by exists s'.
  - destruct (create_mutex_ok s Hs) as (s' & -> & ?). by exists s'.
  - destruct (SyncHandleExistsLocked th s) eqn:Hth; [destruct (MutexExistsLocked m s) eqn:Hm|].
    + destruct (try_lock_ok th m s Hs Hth Hm) as (s' & -> & ? & _). by exists s'.
    + exists s. unfold TryLockMutex. by rewrite Hth Hm.
    + exists s. unfold TryLockMutex. by rewrite Hth.
  - destruct (SyncHandleExistsLocked th s) eqn:Hth; [destruct (MutexExistsLocked m s) eqn:Hm|].
    + destruct (decide (owner_of m s = Some th)) as [Ho|Ho].
      * destruct (unlock_ok th m s Hs Hth Hm Ho) as (s' & -> & ? & _). by exists s'.
      * exists s. unfold UnlockMutex. rewrite Hth Hm. cbn. by rewrite decide_True.
    + exists s. unfold UnlockMutex. by rewrite Hth Hm.
    + exists s. unfold UnlockMutex. by rewrite Hth.
  - destruct (SyncHandleExistsLocked w s) eqn:Hw; [destruct (SyncHandleExistsLocked g s) eqn:Hg|].
    + destruct (wait_ok w g s Hs Hw Hg) as (c & Hc & _ & Hok'). unfold JoinThread. rewrite Hw Hg. cbn [negb orb].
      rewrite Hc. cbn. destruct c; by eexists.
    + exists s. unfold JoinThread. by rewrite Hw Hg.
    + exists s. unfold JoinThread. by rewrite Hw.
  - destruct (m_threads s !! th) as [rec|] eqn:Hth.
    + destruct (finish_ok th s Hs) as (s' & -> & ? & _); [eauto|]. by exists s'.
    + exists s. unfold FinishThread. by rewrite Hth.
Qed.

Lemma sync_ok s : reachable s → ok s.
Proof.
  induction 1 as [|s c s' _ IH Hr]; [apply init_ok|].
  destruct (sync_run_ok c s IH) as (s1 & Hs1 & ?). by assert (s1 = s') as <- by congruence.
Qed.

(** The answer of [TryLockMutex] to an active thread for another thread's
    mutex. *)
Lemma try_lock_busy th m o s :
  coherent s → SyncHandleExistsLocked th s = true → MutexExistsLocked m s = true →
  owner_of m s = Some o → ¬ path (m_waitGraph s) o th →
  TryLockMutex th m s = Ok (false, AddWaitEdgeLocked th o s).
Proof.
  intros Hs Hth Hm Ho Hp. unfold TryLockMutex. rewrite Hth Hm Ho. cbn [negb orb].
  destruct (wait_ok th o s Hs Hth) as (c & -> & Hc & _); [by eapply owner_active|].
  cbn. destruct c; [|done]. exfalso. by apply Hp, Hc.
Qed.

Lemma would_deadlock_run th m o s :
  SyncHandleExistsLocked th s = true → MutexExistsLocked m s = true → owner_of m s = Some o →
  ∃ c, WouldDeadlockOnMutex th m s = Ok (c, s) ∧ (c = true ↔ path (m_waitGraph s) o th).
Proof.
  intros Hth Hm Ho. unfold WouldDeadlockOnMutex. rewrite Hth Hm Ho. cbn [negb orb].
  destruct (WouldIntroduceCycle_spec th o s) as (c & -> & Hc). by exists c.
Qed.

(** The queries that the wrappers start with. *)
Lemma active_run th s : IsThreadActive th s = Ok (SyncHandleExistsLocked th s, s).
Proof. done. Qed.
Lemma mutex_run m s : HasMutex m s = Ok (MutexExistsLocked m s, s).
Proof. done. Qed.
Lemma owner_run m s : MutexOwner m s = Ok (owner_of m s, s).
Proof. done. Qed.

(** ** Properties of the synchronisation runtime *)

(** C11. Whatever sequence of calls the program makes, the next call returns,
    and the bookkeeping stays coherent: a mutex is in the owned set of exactly
    its owner, which is an active thread; finished threads own nothing and no
    one waits for them; the wait graph never has a cycle; identifiers are
    fresh; the published statistics are the exact counts. *)
Theorem sync_invariant s c :
  reachable s → ok s ∧ ∃ s', run c s = Ok s' ∧ ok s'.
Proof. intros Hr%sync_ok. split; [done|]. by apply sync_run_ok. Qed.

Lemma sync_invariant_witness :
  reachable init ∧ ok init ∧ ∃ s', run (call_lock 0 1) init = Ok s' ∧ ok s'.
Proof. split; [constructor|]. apply (sync_invariant init (call_lock 0 1)). constructor. Defined.

(** The cycle search ends on every graph and answers whether the target
    already waits, directly or not, for the source. *)
Theorem WouldIntroduceCycle_correct fromThreadId toThreadId s :
  ∃ c, WouldIntroduceCycleLocked fromThreadId toThreadId s = Ok c
    ∧ (c = true ↔ path (m_waitGraph s) toThreadId fromThreadId).
Proof. apply WouldIntroduceCycle_spec. Qed.

(** C12. In every state the program reaches, [AssertNoDeadlock] answers true
    and raises nothing; and unless every thread has finished, some active
    thread waits for nobody. *)
Theorem no_deadlock s :
  reachable s →
  ctx_AssertNoDeadlock s = Ok ((true, None), s)
  ∧ ∀ th, SyncHandleExistsLocked th s = true →
      ∃ th', path (m_waitGraph s) th th' ∧ SyncHandleExistsLocked th' s = true
        ∧ deps_of (m_waitGraph s) th' = ∅.
Proof.
  intros Hs%sync_ok%ok_coherent. split.
  - unfold ctx_AssertNoDeadlock, mbind, st_bind, AssertNoDeadlock.
    destruct (HasCycle_spec s) as (c & -> & Hc). destruct c; [|done].
    exfalso. by apply Hc, (co_acyclic _ Hs).
  - intros th Hth. assert (sn (edge (m_waitGraph s)) th) as Hsn.
    { apply tc_finite_sn; [exact (co_acyclic _ Hs)|]. exists (elements (dom (m_threads s))).
      intros y Hy. apply elem_of_elements, elem_of_dom, exists_is_Some.
      induction Hy as [x y Hxy|x y z Hxy _ IH]; [by apply (co_edge _ Hs _ _ Hxy)|].
      apply IH. by apply (co_edge _ Hs _ _ Hxy). }
    induction Hsn as [x _ IH]. destruct (decide (deps_of (m_waitGraph s) x = ∅)) as [He|He].
    + exists x. split; [constructor|done].
    + apply set_choose_L in He as [y Hy]. destruct (IH y Hy) as (z & Hz & ?).
      { by apply (co_edge _ Hs _ _ Hy). }
      exists z. split; [|done]. by eapply rtc_l.
Qed.

Lemma no_deadlock_witness :
  reachable init ∧ ctx_AssertNoDeadlock init = Ok ((true, None), init)
  ∧ ∀ th, SyncHandleExistsLocked th init = true →
      ∃ th', path (m_waitGraph init) th th' ∧ SyncHandleExistsLocked th' init = true
        ∧ deps_of (m_waitGraph init) th' = ∅.
Proof. split; [constructor|]. apply (no_deadlock init). constructor. Defined.

(** [ExecutionContext::TryLockMutex] for an active thread. *)
Lemma ctx_try_lock_spec threadId mutexId s :
  ok s → SyncHandleExistsLocked threadId s = true →
  match m_mutexes s !! mutexId with
  | None => ctx_TryLockMutex threadId mutexId s = Ok ((false, Some "Unknown mutex handle"), s)
  | Some None => ∃ s', ctx_TryLockMutex threadId mutexId s = Ok ((true, None), s') ∧ ok s'
      ∧ ∀ m, owner_of m s' = if decide (m = mutexId) then Some threadId else owner_of m s
  | Some (Some owner) =>
      if decide (owner = threadId)
      then ctx_TryLockMutex threadId mutexId s =
        Ok ((false, Some "Recursive mutex lock is not allowed (self-deadlock)"), s)
      else
        path (m_waitGraph s) owner threadId
        ∧ ctx_TryLockMutex threadId mutexId s =
            Ok ((false, Some "Deadlock detected while locking mutex"), s)
        ∨ ¬ path (m_waitGraph s) owner threadId
        ∧ ok (AddWaitEdgeLocked threadId owner s)
        ∧ ctx_TryLockMutex threadId mutexId s =
            Ok ((false, None), AddWaitEdgeLocked threadId owner s)
  end.
Proof.
  intros Hs%ok_coherent Hth. unfold ctx_TryLockMutex. run_with (active_run threadId s). rewrite Hth.
  cbn [negb]. run_with (mutex_run mutexId s).
  destruct (m_mutexes s !! mutexId) as [o|] eqn:Hm.
  2: { unfold MutexExistsLocked. by rewrite Hm. }
  assert (MutexExistsLocked mutexId s = true) as Hex.
  { unfold MutexExistsLocked. rewrite Hm. by apply bool_decide_eq_true; eauto. }
  rewrite Hex. cbn [negb]. run_with (owner_run mutexId s).
  assert (owner_of mutexId s = o) as Ho by (unfold owner_of; by rewrite Hm).
  rewrite Ho. destruct o as [o|].
  - case_decide as Hd; [done|].
    destruct (would_deadlock_run threadId mutexId o s Hth Hex Ho) as (c & Hwd & Hc).
    run_with Hwd. destruct c; [left; split; [by apply Hc|done]|right].
    assert (¬ path (m_waitGraph s) o threadId) as Hp by (intros Hp; apply Hc in Hp; done).
    split; [done|]. split.
    { destruct (wait_ok threadId o s Hs Hth) as (c' & _ & Hc' & Hok); [by eapply owner_active|].
      destruct c'; [|done]. exfalso. by apply Hp, Hc'. }
    run_with (try_lock_busy _ _ _ _ Hs Hth Hex Ho Hp).
    run_with (owner_run mutexId (AddWaitEdgeLocked threadId o s)).
    by rewrite (_ : owner_of mutexId _ = Some o).
  - destruct (try_lock_ok threadId mutexId s Hs Hth Hex) as (s' & Hl & Hok & Hown).
    rewrite bool_decide_true // in Hl. run_with Hl.
    exists s'. split; [done|]. split; [done|]. intros m. rewrite Hown. case_decide; case_decide; naive_solver.
Qed.

Lemma ctx_try_lock_ok th m s :
  ok s → SyncHandleExistsLocked th s = true →
  ∃ b e s', ctx_TryLockMutex th m s = Ok ((b, e), s') ∧ ok s'
    ∧ SyncHandleExistsLocked th s' = true
    ∧ (if b then owner_of m s = None ∧ ∀ m', owner_of m' s' = if decide (m' = m) then Some th else owner_of m' s
       else ∀ m', owner_of m' s' = owner_of m' s).
Proof.
  intros Hs Hth. pose proof (ctx_try_lock_spec th m s Hs Hth) as H.
  destruct (m_mutexes s !! m) as [[o|]|] eqn:Hm.
  - destruct (decide (o = th)); [by eexists _, _, s|].
    destruct H as [[_ ->]|(_ & Hok & ->)]; [by eexists _, _, s|]. by eexists _, _, _.
  - destruct H as (s' & -> & Hok & Hown). eexists _, _, s'. split; [done|]. split; [done|]. split.
    + apply (owner_active m _ _ (ok_coherent _ Hok)). by rewrite Hown decide_True.
    + split; [|done]. unfold owner_of. by rewrite Hm.
  - by eexists _, _, s.
Qed.

Lemma runtime_unlock_ok th m s :
  ok s → SyncHandleExistsLocked th s = true → owner_of m s = Some th →
  ∃ s', UnlockMutex th m s = Ok (true, s') ∧ ok s' ∧ SyncHandleExistsLocked th s' = true
    ∧ ∀ m', owner_of m' s' = if decide (m' = m) then None else owner_of m' s.
Proof.
  intros Hs Hth Ho. pose proof (owner_exists _ _ _ Ho) as Hm.
  destruct (unlock_ok th m s (ok_coherent _ Hs) Hth Hm Ho) as (s' & Hu & Hok & Hown).
  exists s'. split_and!; try done. revert Hu. unfold UnlockMutex. rewrite Hth Hm. cbn [negb orb].
  rewrite decide_False; [|by intros ?]. intros [= <-].
  transitivity (SyncHandleExistsLocked th (set_owned (λ o, o ∖ {[m]}) th (set_mutexes <[m := None]> s)));
    [done|]. by rewrite exists_set_owned.
Qed.

Lemma ctx_unlock_ok th m s :
  ok s → SyncHandleExistsLocked th s = true → owner_of m s = Some th →
  ∃ s', ctx_UnlockMutex th m s = Ok ((true, None), s') ∧ ok s' ∧ SyncHandleExistsLocked th s' = true
    ∧ ∀ m', owner_of m' s' = if decide (m' = m) then None else owner_of m' s.
Proof.
  intros Hs Hth Ho. destruct (runtime_unlock_ok th m s Hs Hth Ho) as (s' & Hu & ?).
  exists s'. split; [|done]. unfold ctx_UnlockMutex. run_with (active_run th s). rewrite Hth. cbn [negb].
  run_with (mutex_run m s). rewrite (owner_exists _ _ _ Ho). cbn [negb]. run_with (owner_run m s).
  rewrite Ho decide_False; [|by intros ?]. by run_with Hu.
Qed.

(** [ExecutionContext::TryLockMutex], on every branch: unknown handles,
    the own mutex and a lock that would close a waiting cycle raise their
    errors and change nothing; a free mutex is locked, alone; and a busy one
    is reported without an error, the caller being recorded as waiting for
    its owner.  The error [Mutex lock failed] never occurs. *)
Theorem TryLockMutex_correct threadId mutexId s :
  reachable s →
  ctx_TryLockMutex threadId mutexId s =
    Ok ((false, Some "Unknown thread handle"), s) ∧ SyncHandleExistsLocked threadId s = false
  ∨ SyncHandleExistsLocked threadId s = true
    ∧ match m_mutexes s !! mutexId with
      | None => ctx_TryLockMutex threadId mutexId s = Ok ((false, Some "Unknown mutex handle"), s)
      | Some None => ∃ s', ctx_TryLockMutex threadId mutexId s = Ok ((true, None), s')
          ∧ ∀ m, owner_of m s' = if decide (m = mutexId) then Some threadId else owner_of m s
      | Some (Some owner) =>
          if decide (owner = threadId)
          then ctx_TryLockMutex threadId mutexId s =
            Ok ((false, Some "Recursive mutex lock is not allowed (self-deadlock)"), s)
          else
            path (m_waitGraph s) owner threadId
            ∧ ctx_TryLockMutex threadId mutexId s =
                Ok ((false, Some "Deadlock detected while locking mutex"), s)
            ∨ ¬ path (m_waitGraph s) owner threadId
            ∧ ctx_TryLockMutex threadId mutexId s =
                Ok ((false, None), AddWaitEdgeLocked threadId owner s)
      end.
Proof.
  intros Hs%sync_ok. destruct (SyncHandleExistsLocked threadId s) eqn:Hth.
  - right. split; [done|]. pose proof (ctx_try_lock_spec threadId mutexId s Hs Hth) as H.
    destruct (m_mutexes s !! mutexId) as [[o|]|]; [case_decide; [done|]| |done]; naive_solver.
  - left. split; [|done]. unfold ctx_TryLockMutex. run_with (active_run threadId s). by rewrite Hth.
Qed.

Lemma TryLockMutex_correct_witness :
  let s := init in
  reachable s ∧
  (ctx_TryLockMutex 7 1 s =
    Ok ((false, Some "Unknown thread handle"), s) ∧ SyncHandleExistsLocked 7 s = false
  ∨ SyncHandleExistsLocked 7 s = true
    ∧ match m_mutexes s !! 1 with
      | None => ctx_TryLockMutex 7 1 s = Ok ((false, Some "Unknown mutex handle"), s)
      | Some None => ∃ s', ctx_TryLockMutex 7 1 s = Ok ((true, None), s')
          ∧ ∀ m, owner_of m s' = if decide (m = 1) then Some 7 else owner_of m s
      | Some (Some owner) =>
          if decide (owner = 7)
          then ctx_TryLockMutex 7 1 s =
            Ok ((false, Some "Recursive mutex lock is not allowed (self-deadlock)"), s)
          else
            path (m_waitGraph s) owner 7
            ∧ ctx_TryLockMutex 7 1 s =
                Ok ((false, Some "Deadlock detected while locking mutex"), s)
            ∨ ¬ path (m_waitGraph s) owner 7
            ∧ ctx_TryLockMutex 7 1 s = Ok ((false, None), AddWaitEdgeLocked 7 owner s)
      end).
Proof. intros s. split; [constructor|]. apply (TryLockMutex_correct 7 1 s). constructor. Defined.

(** [ExecutionContext::UnlockMutex]: only the owner, an active thread,
    unlocks, and nothing else changes hands; everyone else gets the error of
    the first check that fails, with nothing changed. *)
Theorem UnlockMutex_correct threadId mutexId s :
  reachable s →
  if negb (SyncHandleExistsLocked threadId s)
  then ctx_UnlockMutex threadId mutexId s = Ok ((false, Some "Unknown thread handle"), s)
  else if negb (MutexExistsLocked mutexId s)
  then ctx_UnlockMutex threadId mutexId s = Ok ((false, Some "Unknown mutex handle"), s)
  else if decide (owner_of mutexId s = Some threadId)
  then ∃ s', ctx_UnlockMutex threadId mutexId s = Ok ((true, None), s')
    ∧ ∀ m, owner_of m s' = if decide (m = mutexId) then None else owner_of m s
  else ctx_UnlockMutex threadId mutexId s =
    Ok ((false, Some "Mutex unlock by non-owner is not allowed"), s).
Proof.
  intros Hs%sync_ok. destruct (SyncHandleExistsLocked threadId s) eqn:Hth.
  2: { unfold ctx_UnlockMutex. run_with (active_run threadId s). by rewrite Hth. }
  cbn [negb]. case_decide as Ho.
  - rewrite (owner_exists _ _ _ Ho). destruct (ctx_unlock_ok threadId mutexId s Hs Hth Ho) as (s' & ? & _ & _ & ?).
    by exists s'.
  - unfold ctx_UnlockMutex. run_with (active_run threadId s). rewrite Hth. cbn [negb].
    run_with (mutex_run mutexId s). destruct (MutexExistsLocked mutexId s); [|done]. cbn [negb].
    run_with (owner_run mutexId s). by rewrite decide_True.
Qed.

(** A run: the main thread locks the first mutex it creates. *)
Definition locked_state : t :=
  match run call_mutex init ≫= run (call_lock 0 1) with Ok s => s | _ => init end.

Lemma locked_reachable : reachable locked_state.
Proof.
  apply (reachable_call (match run call_mutex init with Ok s => s | _ => init end) (call_lock 0 1));
    [|by vm_compute].
  by apply (reachable_call init call_mutex); [constructor|].
Qed.

Lemma UnlockMutex_correct_witness :
  reachable locked_state
  ∧ ∃ s', ctx_UnlockMutex 0 1 locked_state = Ok ((true, None), s')
    ∧ ∀ m, owner_of m s' = if decide (m = 1) then None else owner_of m locked_state.
Proof.
  split; [exact locked_reachable|].
  pose proof (UnlockMutex_correct 0 1 locked_state locked_reachable) as H.
  rewrite (_ : SyncHandleExistsLocked 0 locked_state = true) in H; [|by vm_compute].
  rewrite (_ : MutexExistsLocked 1 locked_state = true) in H; [|by vm_compute].
  cbn [negb] in H. destruct (decide _) as [_|Hn] in H; [exact H|].
  exfalso. apply Hn. by vm_compute.
Defined.

(** [FinishThread] ends an existing thread: all its mutexes become free
    and no others, and no wait edge leads to or from it any more; an unknown
    thread is an error. *)
Theorem FinishThread_correct threadId s :
  reachable s →
  match m_threads s !! threadId with
  | None => ctx_FinishThread threadId s = Ok ((false, Some "Unknown thread handle"), s)
  | Some _ => ∃ s', ctx_FinishThread threadId s = Ok ((true, None), s')
      ∧ SyncHandleExistsLocked threadId s' = false
      ∧ (∀ m, owner_of m s' = if decide (owner_of m s = Some threadId) then None else owner_of m s)
      ∧ ∀ x y, edge (m_waitGraph s') x y → edge (m_waitGraph s) x y ∧ x ≠ threadId ∧ y ≠ threadId
  end.
Proof.
  intros Hs%sync_ok%ok_coherent. unfold ctx_FinishThread.
  destruct (m_threads s !! threadId) as [rec|] eqn:Hth.
  - destruct (finish_ok threadId s Hs) as (s' & Hf & _ & ? & ? & ?); [eauto|].
    run_with Hf. by exists s'.
  - unfold mbind, st_bind, FinishThread. by rewrite Hth.
Qed.

Lemma FinishThread_correct_witness :
  reachable locked_state
  ∧ ∃ s', ctx_FinishThread 0 locked_state = Ok ((true, None), s')
      ∧ SyncHandleExistsLocked 0 s' = false
      ∧ (∀ m, owner_of m s' = if decide (owner_of m locked_state = Some 0) then None
                               else owner_of m locked_state)
      ∧ ∀ x y, edge (m_waitGraph s') x y → edge (m_waitGraph locked_state) x y ∧ x ≠ 0 ∧ y ≠ 0.
Proof. split; [exact locked_reachable|]. apply (FinishThread_correct 0 locked_state locked_reachable). Defined.

(** A wait edge outlives the wait: thread 1 asks once for the mutex of thread
    0, and after thread 0 has released it, thread 0 is refused the mutex of
    thread 1, although nobody waits for anybody. *)
Example stale_wait_edge :
  (s ← run call_thread init; s ← run call_mutex s; s ← run call_mutex s;
   s ← run (call_lock 0 1) s; s ← run (call_lock 1 2) s; s ← run (call_lock 1 1) s;
   s ← run (call_unlock 0 1) s; fst <$> ctx_TryLockMutex 0 2 s)
  = Ok (false, Some "Deadlock detected while locking mutex").
Proof. by vm_compute. Qed.
