(* ===== verification/Channels.v ===== *)
(** * Channels

    [src/vm/runtime/SharedRuntimeChannels.cpp], [CreateChannel] to
    [CloseChannel].  A call runs in critical sections of the channel's
    [mutex]; [wait] gives the mutex up until a notification and then tries
    its predicate again, and a thread may also wake up spuriously.  The
    scheduler and [notify_one] choose freely. *)

From S2P Require Import Prelude.
From Stdlib Require Import Lia.

Module Channel.
Section channel.
(** [Core::Value] and [std::monostate{}]. *)
Context {V : Type} (monostate : V).

(** [struct ChannelState], without its locks. *)
Record ChannelState := MkChannel {
  capacity : nat;
  queue : list V;
  closed : bool;
  rendezvousReady : bool;
  rendezvousValue : V;
}.

Definition new_channel (capacity : nat) : ChannelState := MkChannel capacity [] false false monostate.

(** Where a call is: before its first wait, in the second wait of a
    rendezvous, or returned. *)
Inductive pc :=
  | PSend (value : V)
  | PSendAck
  | PRecv
  | PSent (result : bool)
  | PReceived (outValue : V) (outOk : bool).

(** The condition variables, and the one a call waits on. *)
Inductive cv := cvNotEmpty | cvNotFull.

Definition cv_of (p : pc) : option cv :=
  match p with
  | PSend _ | PSendAck => Some cvNotFull
  | PRecv => Some cvNotEmpty
  | _ => None
  end.

(** What a critical section does: wait; or change the channel, notify and go
    on at a point that may itself be a wait. *)
Inductive action :=
  | Wait
  | Act (c : ChannelState) (notify : option cv) (p : pc) (waiting : bool).

(** [SendChannel] from its first wait. *)
Definition send_section (value : V) (c : ChannelState) : action :=
  if decide (capacity c = 0) then
    if closed c || negb (rendezvousReady c) then
      if closed c then Act c None (PSent false) false
      else Act (MkChannel (capacity c) (queue c) (closed c) true value) (Some cvNotEmpty) PSendAck true
    else Wait
  else
    if closed c || bool_decide (length (queue c) < capacity c) then
      if closed c then Act c None (PSent false) false
      else Act (MkChannel (capacity c) (queue c ++ [value]) (closed c) (rendezvousReady c)
                  (rendezvousValue c)) (Some cvNotEmpty) (PSent true) false
    else Wait.

(** [SendChannel] from the second wait of a rendezvous. *)
Definition ack_section (c : ChannelState) : action :=
  if closed c || negb (rendezvousReady c) then Act c None (PSent (negb (closed c))) false else Wait.

(** [RecvChannel] from its wait. *)
Definition recv_section (c : ChannelState) : action :=
  if decide (capacity c = 0) then
    if closed c || rendezvousReady c then
      if negb (rendezvousReady c) then Act c None (PReceived monostate false) false
      else Act (MkChannel (capacity c) (queue c) (closed c) false monostate) (Some cvNotFull)
             (PReceived (rendezvousValue c) true) false
    else Wait
  else
    if closed c || negb (bool_decide (queue c = [])) then
      match queue c with
      | [] => Act c None (PReceived monostate false) false
      | value :: rest =>
          Act (MkChannel (capacity c) rest (closed c) (rendezvousReady c) (rendezvousValue c))
            (Some cvNotFull) (PReceived value true) false
      end
    else Wait.

Definition section_of (p : pc) (c : ChannelState) : action :=
  match p with
  | PSend value => send_section value c
  | PSendAck => ack_section c
  | PRecv => recv_section c
  | PSent _ | PReceived _ _ => Wait
  end.

Definition close_section (c : ChannelState) : bool * ChannelState :=
  if closed c then (false, c)
  else (true, MkChannel (capacity c) (queue c) true (rendezvousReady c) (rendezvousValue c)).

(** A call in progress: its point, and whether it sleeps. *)
Record thread := MkThread { at_pc : pc; asleep : bool }.

(** A channel with its calls, and what was put into it and taken out. *)
Record sys := MkSys {
  chan : ChannelState;
  threads : gmap nat thread;
  sent : list V;
  received : list V;
}.

Definition sleeps_on (v : cv) (th : thread) : bool :=
  asleep th && match cv_of (at_pc th) with
               | Some cvNotEmpty => match v with cvNotEmpty => true | _ => false end
               | Some cvNotFull => match v with cvNotFull => true | _ => false end
               | None => false
               end.

Definition wake (th : thread) : thread := MkThread (at_pc th) false.

(** [notify_one] wakes one of the sleeping threads if there is one. *)
Inductive notify_one (v : cv) (ths : gmap nat thread) : gmap nat thread → Prop :=
  | notify_some i th : ths !! i = Some th → sleeps_on v th = true → notify_one v ths (<[i := wake th]> ths)
  | notify_none : (∀ i th, ths !! i = Some th → sleeps_on v th = false) → notify_one v ths ths.

Definition notify_opt (v : option cv) (ths ths' : gmap nat thread) : Prop :=
  match v with None => ths' = ths | Some v => notify_one v ths ths' end.

Definition wake_all (ths : gmap nat thread) : gmap nat thread := wake <$> ths.

(** What a critical section adds to the histories. *)
Definition put_by (p : pc) (p' : pc) : list V :=
  match p, p' with
  | PSend v, PSendAck | PSend v, PSent true => [v]
  | _, _ => []
  end.
Definition taken_by (p' : pc) : list V :=
  match p' with PReceived v true => [v] | _ => [] end.

Inductive step : sys → sys → Prop :=
  (** a new call of [SendChannel] or [RecvChannel] *)
  | step_call c ths s r i p :
      ths !! i = None → (∃ v, p = PSend v) ∨ p = PRecv →
      step (MkSys c ths s r) (MkSys c (<[i := MkThread p false]> ths) s r)
  (** a running call goes to sleep *)
  | step_wait c ths s r i p :
      ths !! i = Some (MkThread p false) → cv_of p ≠ None → section_of p c = Wait →
      step (MkSys c ths s r) (MkSys c (<[i := MkThread p true]> ths) s r)
  (** a running call executes a critical section *)
  | step_act c ths ths' s r i p c' v p' w :
      ths !! i = Some (MkThread p false) → section_of p c = Act c' v p' w →
      notify_opt v (<[i := MkThread p' w]> ths) ths' →
      step (MkSys c ths s r) (MkSys c' ths' (s ++ put_by p p') (r ++ taken_by p'))
  (** a spurious wake-up *)
  | step_spurious c ths s r i th :
      ths !! i = Some th → asleep th = true →
      step (MkSys c ths s r) (MkSys c (<[i := wake th]> ths) s r)
  (** [CloseChannel] *)
  | step_close c ths s r :
      step (MkSys c ths s r)
           (MkSys (close_section c).2 (if (close_section c).1 then wake_all ths else ths) s r).

Definition initial (capacity : nat) : sys := MkSys (new_channel capacity) ∅ [] [].
Definition reachable (capacity : nat) : sys → Prop := rtc step (initial capacity).
End channel.

(** ** The table of channels *)

Section table.
Context {V : Type} (monostate : V).

Record table := MkTable { m_channels : gmap nat (ChannelState (V := V)); m_nextChannelId : nat }.

Definition CreateChannel (capacity : nat) (t : table) : nat * table :=
  let channelId := m_nextChannelId t in
  (channelId, MkTable (<[channelId := new_channel monostate capacity]> (m_channels t)) (S channelId)).

(** [CloseChannel] of any identifier. *)
Definition CloseChannel (channelId : nat) (t : table) : bool * table :=
  match m_channels t !! channelId with
  | None => (false, t)
  | Some c => let '(r, c) := close_section c in
              (r, MkTable (<[channelId := c]> (m_channels t)) (m_nextChannelId t))
  end.
End table.
End Channel.
