(* ===== verification/ChannelSpec.v ===== *)
(** * Channels: order, capacity, closing and wake-ups *)

From S2P Require Import Prelude Channels.
From Stdlib Require Import Lia.
Import Channel.

Section spec.
Context {V : Type} (monostate : V).
Abbreviation step := (step monostate).
Abbreviation reachable := (reachable monostate).
Implicit Types (c : ChannelState (V := V)) (ths : gmap nat (thread (V := V))).

(** The values put into the channel and not taken out yet, oldest first. *)
Definition in_flight c : list V :=
  if decide (capacity c = 0) then if rendezvousReady c then [rendezvousValue c] else []
  else queue c.

(** What a returned or sleeping call says about the channel. *)
Definition thread_ok (s : sys (V := V)) (th : thread (V := V)) : Prop :=
  (asleep th = true → cv_of (at_pc th) ≠ None ∧ closed (chan s) = false) ∧
  match at_pc th with
  | PSendAck => capacity (chan s) = 0
  | PSent false => closed (chan s) = true
  | PReceived v false => closed (chan s) = true ∧ received s = sent s ∧ v = monostate
  | _ => True
  end.

Record inv (cap : nat) (s : sys (V := V)) : Prop := {
  inv_cap : capacity (chan s) = cap;
  inv_shape : if decide (cap = 0) then queue (chan s) = []
              else length (queue (chan s)) ≤ cap ∧ rendezvousReady (chan s) = false;
  inv_order : sent s = received s ++ in_flight (chan s);
  inv_threads : map_Forall (λ _, thread_ok s) (threads s);
}.

(** The threads after a notification are those before it, some woken up. *)
Lemma notify_lookup v ths ths' i th' :
  notify_opt v ths ths' → ths' !! i = Some th' →
  ∃ th, ths !! i = Some th ∧ (th' = th ∨ th' = wake th).
Proof.
  destruct v as [v|]; cbn; [|intros ->; eauto]. destruct 1 as [j th Hj _|_]; [|eauto].
  destruct (decide (i = j)) as [-> |].
  - rewrite lookup_insert_eq. intros [= <-]. eauto.
  - rewrite lookup_insert_ne //. eauto.
Qed.

Lemma thread_ok_wake s th : thread_ok s th → thread_ok s (wake th).
Proof. intros [_ ?]. by split. Qed.

(** What a critical section may do. *)
Lemma section_inv cap c p c' v p' w s r :
  section_of monostate p c = Act c' v p' w → capacity c = cap →
  (if decide (cap = 0) then queue c = [] else length (queue c) ≤ cap ∧ rendezvousReady c = false) →
  (p = PSendAck → cap = 0) →
  s = r ++ in_flight c →
  capacity c' = cap ∧ closed c' = closed c
  ∧ (if decide (cap = 0) then queue c' = [] else length (queue c') ≤ cap ∧ rendezvousReady c' = false)
  ∧ s ++ put_by p p' = (r ++ taken_by p') ++ in_flight c'
  ∧ (put_by p p' ≠ [] → closed c = false)
  ∧ (s = r → taken_by p' = [])
  ∧ (w = true → p' = PSendAck ∧ closed c = false ∧ cap = 0)
  ∧ match p' with
    | PSent false => closed c = true
    | PReceived v false => closed c = true ∧ s = r ∧ v = monostate
    | PSendAck => cap = 0
    | PSend _ | PRecv => False
    | _ => True
    end.
Proof.
  intros Hsec <- Hsh Hack ->. unfold in_flight in *. destruct c as [n q cl rdy rv]. cbn in *.
  assert (∀ (l k : list V), l ++ k = l → k = []) as Hnil.
  { intros l k Hl. rewrite -{2}(app_nil_r l) in Hl. by simplify_list_eq. }
  destruct p as [v0| | |b|v0 b]; cbn in Hsec; [..|done|done];
    unfold send_section, ack_section, recv_section in Hsec; cbn in Hsec;
    destruct (decide (n = 0)) as [Hn|Hn].
  - subst q. destruct cl, rdy; cbn in Hsec; simplify_eq; cbn; rewrite ?decide_True // ?app_nil_r;
      split_and!; try done; intros Hr; apply Hnil in Hr; done.
  - destruct Hsh as [Hq ->]. destruct cl; cbn in Hsec; [|case_bool_decide]; simplify_eq; cbn;
      rewrite ?decide_False // ?app_nil_r; split_and!; try done.
    + rewrite length_app /=. lia.
    + by rewrite -app_assoc.
  - subst q. destruct cl, rdy; cbn in Hsec; simplify_eq; cbn; rewrite ?decide_True // ?app_nil_r;
      split_and!; try done; intros Hr; apply Hnil in Hr; done.
  - by destruct Hn, Hack.
  - subst q. destruct cl, rdy; cbn in Hsec; simplify_eq; cbn; rewrite ?decide_True // ?app_nil_r;
      split_and!; try done; intros Hr; apply Hnil in Hr; done.
  - destruct Hsh as [Hq ->]. destruct q as [|x q]; cbn in Hsec.
    + destruct cl; cbn in Hsec; simplify_eq; cbn; rewrite ?decide_False // ?app_nil_r; by split_and!.
    + rewrite orb_true_r in Hsec. simplify_eq. cbn.
      rewrite !decide_False // app_nil_r -app_assoc. cbn in Hq. split_and!; try done; [lia|].
      intros Hr. apply Hnil in Hr. done.
Qed.
(** A change of the threads alone. *)
Lemma inv_threads_change cap c ths ths' s r :
  inv cap (MkSys c ths s r) →
  (∀ i th', ths' !! i = Some th' →
    (∃ th, ths !! i = Some th ∧ (th' = th ∨ th' = wake th)) ∨ thread_ok (MkSys c ths s r) th') →
  inv cap (MkSys c ths' s r).
Proof.
  intros [H1 H2 H3 H4] Hths. split; try done. intros i th' Hi. cbn in *.
  destruct (Hths i th' Hi) as [(th & Hth & [-> | ->])|?]; [|apply thread_ok_wake|done];
    by apply (H4 i).
Qed.

Lemma step_inv cap s s' : inv cap s → step s s' → inv cap s'.
Proof.
  intros Hinv Hstep. destruct Hstep as
    [c ths s r i p Hi Hp|c ths s r i p Hi Hcv Hsec|c ths ths' s r i p c' v p' w Hi Hsec Hnot
    |c ths s r i th Hi Hsl|c ths s r].
  - eapply inv_threads_change; [done|]. intros j th' [[<- <-]|[_ Hj]]%lookup_insert_Some; [right|eauto].
    split; [done|]. by destruct Hp as [[v ->]| ->].
  - eapply inv_threads_change; [done|]. intros j th' [[<- <-]|[_ Hj]]%lookup_insert_Some; [right|eauto].
    destruct (inv_threads _ _ Hinv i _ Hi) as [_ Hok]. cbn in Hok. split; [|done]. intros _. cbn.
    split; [done|]. destruct (closed c) eqn:Hcl; [exfalso|done].
    destruct p as [v| | |b|v b]; cbn in Hsec, Hcv; try done;
      unfold send_section, ack_section, recv_section in Hsec; rewrite Hcl in Hsec; cbn in Hsec;
      repeat case_match; done.
  - destruct Hinv as [H1 H2 H3 H4]. cbn in H1, H2, H3, H4.
    pose proof (H4 i _ Hi) as [_ Hack]. cbn in Hack.
    destruct (section_inv cap c p c' v p' w s r Hsec H1 H2)
      as (K1 & K2 & K3 & K4 & K5 & K6 & K7 & K8); [by intros ->; rewrite -H1|done|].
    split; cbn; [done..|]. intros j th' Hj.
    assert (∀ th, thread_ok (MkSys c ths s r) th →
      thread_ok (MkSys c' ths' (s ++ put_by p p') (r ++ taken_by p')) th) as Hmono.
    { intros th [Ha Hb]. split; cbn in *; rewrite ?K2; [done|].
      destruct (at_pc th) as [| | |[]|v0 []]; try done; [by rewrite K1 -H1|].
      destruct Hb as (Hcl & Hrs & ->). split_and!; [done| |done].
      rewrite (K6 (eq_sym Hrs)) Hrs. destruct (put_by p p'); [done|].
      by rewrite K5 in Hcl. }
    destruct (notify_lookup _ _ _ _ _ Hnot Hj) as (th & Hth & Hw).
    assert (thread_ok (MkSys c' ths' (s ++ put_by p p') (r ++ taken_by p')) th) as Hok.
    { apply lookup_insert_Some in Hth as [[<- <-]|[_ Hth]]; [|by apply Hmono, (H4 j)].
      split; cbn.
      - intros ->. destruct K7 as (-> & ? & _); [done|]. by rewrite K2.
      - destruct p' as [| | |[]|v0 []]; try done; rewrite ?K1 ?K2 //.
        destruct K8 as (? & Hrs & ?). split_and!; try done. rewrite (K6 Hrs) -Hrs.
        destruct (put_by p _); [by rewrite !app_nil_r|]. by rewrite K5 in H. }
    destruct Hw as [-> | ->]; [done|by apply thread_ok_wake].
  - eapply inv_threads_change; [done|].
    intros j th' [[<- <-]|[_ Hj]]%lookup_insert_Some; left; eauto.
  - destruct Hinv as [H1 H2 H3 H4]. cbn in *. unfold close_section.
    destruct (closed c) eqn:Hcl; [by split|]. split; cbn; try done.
    intros j th' Hj. unfold wake_all in Hj. apply lookup_fmap_Some in Hj as (th & <- & Hth).
    destruct (H4 j th Hth) as [Ha Hb]. split; [done|]. cbn in *.
    destruct (at_pc th) as [| | |[]|v0 []]; try done. naive_solver.
Qed.

Lemma channel_inv cap s : reachable cap s → inv cap s.
Proof.
  assert (inv cap (initial monostate cap)) as Hi.
  { split; cbn; [done| | |apply map_Forall_empty].
    - case_decide; [done|]. split; [lia|done].
    - unfold in_flight. cbn. by case_decide. }
  unfold Channel.reachable. intros Hs0. revert Hi.
  induction Hs0 as [|x y z Hxy _ IH]; [done|]. intros Hx. by eapply IH, step_inv.
Qed.

(** ** No wake-up is lost on a buffered channel *)

(** A running call whose next wait is on [v]. *)
Definition runs_for (v : cv) (th : thread (V := V)) : bool :=
  negb (asleep th) && sleeps_on v (MkThread (at_pc th) true).

Definition sleeping v ths : nat := weight (λ th, if sleeps_on v th then 1 else 0) ths.
Definition running v ths : nat := weight (λ th, if runs_for v th then 1 else 0) ths.

(** While calls sleep, enough of their kind are awake to use up the queue, or
    the free places. *)
Definition live (s : sys (V := V)) : Prop :=
  closed (chan s) = false → capacity (chan s) ≠ 0 →
  (0 < sleeping cvNotEmpty (threads s) → length (queue (chan s)) ≤ running cvNotEmpty (threads s))
  ∧ (0 < sleeping cvNotFull (threads s) →
       capacity (chan s) ≤ length (queue (chan s)) + running cvNotFull (threads s)).

Lemma counts_insert v ths i th th' :
  ths !! i = Some th →
  sleeping v (<[i := th']> ths) + (if sleeps_on v th then 1 else 0)
  = sleeping v ths + (if sleeps_on v th' then 1 else 0)
  ∧ running v (<[i := th']> ths) + (if runs_for v th then 1 else 0)
  = running v ths + (if runs_for v th' then 1 else 0).
Proof.
  intros Hi. split.
  - exact (weight_insert (λ th, if sleeps_on v th then 1 else 0) ths i th th' Hi).
  - exact (weight_insert (λ th, if runs_for v th then 1 else 0) ths i th th' Hi).
Qed.

Lemma counts_new v ths i p :
  ths !! i = None →
  sleeping v (<[i := MkThread p false]> ths) = sleeping v ths
  ∧ running v ths ≤ running v (<[i := MkThread p false]> ths).
Proof.
  intros Hi. unfold sleeping, running. rewrite !weight_insert_None //. cbn. split; [done|lia].
Qed.

(** One notification: nobody sleeps there, or one sleeper runs. *)
Lemma counts_notify v ths ths' :
  notify_one v ths ths' →
  (ths' = ths ∧ sleeping v ths = 0)
  ∨ S (sleeping v ths') = sleeping v ths ∧ running v ths' = S (running v ths)
    ∧ ∀ v', v' ≠ v → sleeping v' ths' = sleeping v' ths ∧ running v' ths' = running v' ths.
Proof.
  intros [i th Hi Hs|Hno].
  - right. pose proof (counts_insert v ths i th (wake th) Hi) as [H1 H2].
    destruct th as [p a]. unfold sleeps_on, runs_for in *. cbn in *.
    apply andb_true_iff in Hs as [-> Hs]. split_and!.
    + unfold sleeps_on in H1. cbn in H1. rewrite Hs in H1. lia.
    + unfold sleeps_on in H2. cbn in H2. rewrite Hs in H2. lia.
    + intros v' Hv. pose proof (counts_insert v' ths i _ (wake (MkThread p true)) Hi) as [K1 K2].
      unfold sleeps_on, runs_for in K1, K2. unfold sleeps_on in K2. cbn in *.
      destruct (cv_of p) as [[]|], v, v'; try done; cbn in *; lia.
  - left. split; [done|]. apply weight_zero. intros i th Hi. by rewrite (Hno i th Hi).
Qed.

(** A call that leaves through a critical section of a buffered channel. *)
Lemma counts_leave ths i p p' v :
  ths !! i = Some (MkThread p false) → cv_of p' = None →
  sleeping v (<[i := MkThread p' false]> ths) = sleeping v ths
  ∧ running v ths = running v (<[i := MkThread p' false]> ths)
                    + (if runs_for v (MkThread p false) then 1 else 0).
Proof.
  intros Hi Hp'. destruct (counts_insert v ths i _ (MkThread p' false) Hi) as [H1 H2].
  unfold runs_for in *. unfold sleeps_on in *. cbn in *. rewrite Hp' in H2. lia.
Qed.

Lemma step_live cap s s' : inv cap s → live s → step s s' → live s'.
Proof.
  intros Hinv Hl Hstep. destruct Hstep as
    [c ths s r i p Hi Hp|c ths s r i p Hi Hcv Hsec|c ths ths' s r i p c' v p' w Hi Hsec Hnot
    |c ths s r i th Hi Hsl|c ths s r]; unfold live in *; cbn [chan threads] in *.
  - intros Hcl Hcap. destruct (Hl Hcl Hcap) as [H1 H2].
    destruct (counts_new cvNotEmpty ths i p Hi) as [-> ?], (counts_new cvNotFull ths i p Hi) as [-> ?].
    split; intros; [specialize (H1 ltac:(done))|specialize (H2 ltac:(done))]; lia.
  - intros Hcl Hcap. destruct (Hl Hcl Hcap) as [H1 H2].
    destruct (counts_insert cvNotEmpty ths i _ (MkThread p true) Hi) as [K1 K2].
    destruct (counts_insert cvNotFull ths i _ (MkThread p true) Hi) as [K3 K4].
    destruct p as [v| | |b|v b]; try done.
    + unfold section_of, send_section in Hsec. rewrite Hcl decide_False // in Hsec.
      cbn in *. case_bool_decide as Hq; [done|]. split; lia.
    + destruct (inv_threads _ _ Hinv i _ Hi) as [_ Hz]. by destruct Hcap.
    + unfold section_of, recv_section in Hsec. rewrite Hcl decide_False // in Hsec.
      assert (queue c = []) as Hq by (by destruct (queue c)). rewrite Hq in H1, H2 |- *. cbn in *.
      split; lia.
  - intros Hcl' Hcap'.
    destruct (section_inv cap c p c' v p' w s r Hsec) as (K1 & K2 & _ & _ & _ & _ & K7 & _);
      [apply Hinv..| |apply Hinv|].
    { intros ->. destruct (inv_threads _ _ Hinv i _ Hi) as [_ Hz]. rewrite -(inv_cap _ _ Hinv). exact Hz. }
    pose proof (inv_cap _ _ Hinv) as Hc. cbn in Hc. rewrite K1 in Hcap'. rewrite K2 in Hcl'.
    assert (capacity c ≠ 0) as Hcap by congruence.
    assert (w = false) as -> by (destruct w; [by destruct K7 as (_ & _ & ?)|done]).
    destruct (Hl Hcl' Hcap) as [H1 H2]. rewrite K1 -Hc.
    destruct p as [x| | |b|x b]; try done.
    + unfold section_of, send_section in Hsec. rewrite Hcl' decide_False // in Hsec. cbn in Hsec.
      case_bool_decide; [|done]. simplify_eq. cbn in *. rewrite length_app. cbn.
      destruct (counts_leave ths i (PSend x) (PSent true) cvNotEmpty Hi eq_refl) as [L1 L2].
      destruct (counts_leave ths i (PSend x) (PSent true) cvNotFull Hi eq_refl) as [L3 L4].
      cbn in L2, L4. destruct (counts_notify _ _ _ Hnot) as [[-> N1]|(N1 & N2 & N3)]; [lia|].
      destruct (N3 cvNotFull) as [N4 N5]; [done|]. lia.
    + destruct (inv_threads _ _ Hinv i _ Hi) as [_ Hz]. by destruct Hcap.
    + unfold section_of, recv_section in Hsec. rewrite Hcl' decide_False // in Hsec.
      destruct (queue c) as [|x q] eqn:Hq; cbn in Hsec; [done|]. simplify_eq. cbn in *.
      destruct (counts_leave ths i PRecv (PReceived x true) cvNotEmpty Hi eq_refl) as [L1 L2].
      destruct (counts_leave ths i PRecv (PReceived x true) cvNotFull Hi eq_refl) as [L3 L4].
      cbn in L2, L4. destruct (counts_notify _ _ _ Hnot) as [[-> N1]|(N1 & N2 & N3)]; [lia|].
      destruct (N3 cvNotEmpty) as [N4 N5]; [done|]. lia.
  - intros Hcl Hcap. destruct (Hl Hcl Hcap) as [H1 H2].
    destruct (counts_insert cvNotEmpty ths i _ (wake th) Hi) as [K1 K2].
    destruct (counts_insert cvNotFull ths i _ (wake th) Hi) as [K3 K4].
    destruct th as [p a]. cbn in Hsl. subst a. unfold runs_for in *. unfold sleeps_on in *. cbn in *.
    destruct (cv_of p) as [[]|]; cbn in *; lia.
  - unfold close_section. destruct (closed c) eqn:Hcl; cbn; congruence.
Qed.

Lemma reachable_live cap s : reachable cap s → inv cap s ∧ live s.
Proof.
  intros Hr. unfold Channel.reachable in Hr.
  assert (inv cap (initial monostate cap) ∧ live (initial monostate cap)) as Hi.
  { split; [apply channel_inv; constructor|]. intros _ _. unfold sleeping. cbn. rewrite !weight_empty. lia. }
  revert Hi. induction Hr as [|x y z Hxy _ IH]; [done|]. intros [Hx Hlx].
  apply IH. split; [by eapply step_inv|by eapply step_live].
Qed.
End spec.

(** ** Properties of channels *)

(** C20. In every run, with any number of senders and receivers and any
    schedule, values come out in the order they went in, none lost and none
    twice; the channel never holds more than its capacity (one value for a
    rendezvous); and a receive that reports the end does so only once the
    channel is closed and everything sent has been received. *)
Theorem channel_fifo {V} (monostate : V) cap s :
  reachable monostate cap s →
  sent s = received s ++ in_flight (chan s)
  ∧ length (in_flight (chan s)) ≤ cap `max` 1
  ∧ ∀ i v a, threads s !! i = Some (MkThread (PReceived v false) a) →
      closed (chan s) = true ∧ received s = sent s ∧ v = monostate.
Proof.
  intros Hr%channel_inv. destruct Hr as [H1 H2 H3 H4]. split_and!; [done| |].
  - unfold in_flight. rewrite H1. case_decide; cbn; [|lia].
    destruct (rendezvousReady (chan s)); cbn; lia.
  - intros i v a Hi. by destruct (H4 i _ Hi) as [_ ?].
Qed.

Lemma channel_fifo_witness :
  let s := MkSys (MkChannel 2 [5] false false 0)
    (<[1 := MkThread (PSent true) false]> (<[1 := MkThread (PSend 5) false]> ∅)) [5] [] in
  reachable 0 2 s
  ∧ sent s = received s ++ in_flight (chan s)
  ∧ length (in_flight (chan s)) ≤ 2 `max` 1
  ∧ ∀ i v a, threads s !! i = Some (MkThread (PReceived v false) a) →
      closed (chan s) = true ∧ received s = sent s ∧ v = 0.
Proof.
  intros s. assert (reachable 0 2 s) as Hr.
  { eapply rtc_l; [apply (step_call _ _ _ _ _ 1 (PSend 5)); [done|left; by exists 5]|].
    eapply rtc_l; [|apply rtc_refl].
    eapply (step_act _ _ _ _ [] [] 1 (PSend 5) _ _ (PSent true)); [done|done|].
    apply notify_none. intros i th [[<- <-]|[_ [[<- <-]|[_ ?]]%lookup_insert_Some]]%lookup_insert_Some; done. }
  split; [exact Hr|]. exact (channel_fifo 0 2 s Hr).
Defined.

(** Closing is final: no step reopens the channel, and from then on
    nothing is put into it, while what it holds can still be received. *)
Theorem channel_closed {V} (monostate : V) cap s s' :
  reachable monostate cap s → step monostate s s' → closed (chan s) = true →
  closed (chan s') = true ∧ sent s' = sent s
  ∧ received s `prefix_of` received s'.
Proof.
  intros Hr%channel_inv Hst. destruct Hst as [| |c ths ths' s r i p c' v p' w Hi Hsec Hn| |c ths s r];
    cbn; intros Hcl; try (split_and!; done).
  - destruct Hr as [H1 H2 H3 H4]. cbn in *.
    destruct (section_inv monostate cap c p c' v p' w s r Hsec H1 H2)
      as (_ & -> & _ & _ & K5 & _); [|done|].
    { intros ->. destruct (H4 i _ Hi) as [_ Hz]. cbn in Hz. congruence. }
    split_and!; [done| |by eexists].
    destruct (put_by p p'); [by rewrite app_nil_r|]. by rewrite K5 in Hcl.
  - unfold close_section. rewrite Hcl. done.
Qed.

Lemma channel_closed_witness :
  let s := MkSys (MkChannel 2 [] true false 0) (∅ : gmap nat (thread (V := nat))) [] [] in
  let s' := MkSys (MkChannel 2 [] true false 0) (<[1 := MkThread PRecv false]> ∅) [] [] in
  reachable 0 2 s ∧ step 0 s s' ∧ closed (chan s) = true
  ∧ closed (chan s') = true ∧ sent s' = sent s ∧ received s `prefix_of` received s'.
Proof.
  intros s s'. assert (reachable 0 2 s) as Hr.
  { exact (rtc_once _ _ (step_close 0 (new_channel 0 2) ∅ [] [])). }
  assert (step 0 s s') as Hs by (apply step_call; [done|by right]).
  split; [exact Hr|]. split; [exact Hs|]. split; [reflexivity|].
  exact (channel_closed 0 2 s s' Hr Hs eq_refl).
Defined.

(** C23. On a buffered channel no wake-up is lost: when every call in progress
    sleeps, each sleeping receive waits on an empty open channel and each
    sleeping send on a full open one, so nobody sleeps beside work it could
    do, although [notify_one] wakes a single thread and threads also wake up
    spuriously. *)
Theorem channel_no_lost_wakeup {V} (monostate : V) cap s :
  reachable monostate cap s → cap ≠ 0 →
  (∀ i th, threads s !! i = Some th → asleep th = true ∨ cv_of (at_pc th) = None) →
  ∀ i th, threads s !! i = Some th → asleep th = true →
    closed (chan s) = false
    ∧ match at_pc th with
      | PRecv => queue (chan s) = []
      | PSend _ => length (queue (chan s)) = cap
      | _ => False
      end.
Proof.
  intros [Hinv Hlive]%reachable_live Hcap Hall i th Hi Hs. destruct Hinv as [H1 H2 H3 H4].
  rewrite decide_False // in H2. destruct (H4 i th Hi) as [Ha Hp]. destruct (Ha Hs) as [Hcv Hcl].
  split; [done|]. destruct (Hlive Hcl) as [L1 L2]; [congruence|].
  assert (∀ v, running v (threads s) = 0) as Hrun.
  { intros v. apply weight_zero. intros j [p a] Hj. unfold runs_for, sleeps_on. cbn.
    destruct (Hall j _ Hj) as [Hx|Hx]; cbn in Hx; [by subst|]. rewrite Hx. by rewrite andb_false_r. }
  assert (∀ v, cv_of (at_pc th) = Some v → 0 < sleeping v (threads s)) as Hsl.
  { intros v Hv. destruct (decide (sleeping v (threads s) = 0)) as [Hz|]; [|lia].
    unfold sleeping in Hz. rewrite weight_zero in Hz. specialize (Hz i th Hi).
    unfold sleeps_on in Hz. rewrite Hs Hv in Hz. by destruct v. }
  rewrite !Hrun in L1, L2. destruct (at_pc th) as [v| | |b|v b] eqn:Hpc; cbn in *; try done.
  - specialize (L2 (Hsl _ eq_refl)). lia.
  - congruence.
  - specialize (L1 (Hsl _ eq_refl)). by destruct (queue (chan s)); [|cbn in L1; lia].
Qed.

Lemma channel_no_lost_wakeup_witness :
  let s := MkSys (new_channel 0 2)
    (<[1 := MkThread PRecv true]> (<[1 := MkThread PRecv false]> ∅) : gmap nat (thread (V := nat))) [] [] in
  reachable 0 2 s ∧ 2 ≠ 0
  ∧ (∀ i th, threads s !! i = Some th → asleep th = true ∨ cv_of (at_pc th) = None)
  ∧ ∀ i th, threads s !! i = Some th → asleep th = true →
    closed (chan s) = false
    ∧ match at_pc th with
      | PRecv => queue (chan s) = []
      | PSend _ => length (queue (chan s)) = 2
      | _ => False
      end.
Proof.
  intros s. assert (reachable 0 2 s) as Hr.
  { eapply rtc_l; [apply (step_call _ _ _ _ _ 1 PRecv); [done|by right]|].
    eapply rtc_l; [|apply rtc_refl]. by apply (step_wait _ _ _ _ _ 1 PRecv). }
  assert (∀ i th, threads s !! i = Some th → asleep th = true ∨ cv_of (at_pc th) = None) as Hall.
  { unfold s. cbn [threads]. intros i th [[<- <-]|[? [[<- <-]|[_ ?]]%lookup_insert_Some]]%lookup_insert_Some;
      [by left|done|done]. }
  split; [exact Hr|]. split; [done|]. split; [exact Hall|].
  exact (channel_no_lost_wakeup 0 2 s Hr ltac:(done) Hall).
Defined.

(** C24. On a rendezvous channel a wake-up can be lost: two sends and two
    receives, every value received, every other call returned, and one of the
    two senders sleeps on, because [SendChannel] waits on the same condition
    variable before and after it hands its value over and [notify_one] may
    wake the wrong one. *)
Theorem rendezvous_lost_wakeup :
  ∃ s : sys (V := nat), reachable 0 0 s
    ∧ sent s = [10; 20] ∧ received s = [10; 20]
    ∧ threads s !! 1 = Some (MkThread PSendAck true)
    ∧ threads s !! 2 = Some (MkThread (PSent true) false)
    ∧ map_Forall (λ i th, asleep th = true ∨ cv_of (at_pc th) = None) (threads s).
Proof.
  eexists. split.
  { eapply rtc_l; [apply (step_call _ _ _ _ _ 1 (PSend 10)); [done|left; by exists 10]|].
    eapply rtc_l; [eapply (step_act _ _ _ _ [] [] 1 (PSend 10)); [done|done|apply notify_none]|].
    { apply (bool_decide_unpack (map_Forall (λ _ th, sleeps_on cvNotEmpty th = false) _)). by vm_compute. }
    eapply rtc_l; [apply (step_call _ _ _ _ _ 2 (PSend 20)); [done|left; by exists 20]|].
    eapply rtc_l; [by apply (step_wait _ _ _ _ _ 2 (PSend 20))|].
    eapply rtc_l; [apply (step_call _ _ _ _ _ 3 PRecv); [done|by right]|].
    eapply rtc_l; [by eapply (step_act _ _ _ _ _ _ 3 PRecv); [done|done|apply (notify_some _ _ 2)]|].
    eapply rtc_l; [eapply (step_act _ _ _ _ _ _ 2 (PSend 20)); [done|done|apply notify_none]|].
    { apply (bool_decide_unpack (map_Forall (λ _ th, sleeps_on cvNotEmpty th = false) _)). by vm_compute. }
    eapply rtc_l; [apply (step_call _ _ _ _ _ 4 PRecv); [done|by right]|].
    eapply rtc_l; [by eapply (step_act _ _ _ _ _ _ 4 PRecv); [done|done|apply (notify_some _ _ 2)]|].
    eapply rtc_l; [by eapply (step_act _ _ _ _ _ _ 2 PSendAck)|].
    apply rtc_refl. }
  split_and!; [by vm_compute..|].
  apply (bool_decide_unpack (map_Forall _ _)). by vm_compute.
Qed.

(** The other end of the same design: the value was received, then the
    channel was closed before the sender woke up, and the sender is told that
    nothing was sent. *)
Example rendezvous_delivered_but_false :
  ∃ s : sys (V := nat), reachable 0 0 s
    ∧ sent s = [10] ∧ received s = [10] ∧ threads s !! 1 = Some (MkThread (PSent false) false).
Proof.
  eexists. split.
  { eapply rtc_l; [apply (step_call _ _ _ _ _ 1 (PSend 10)); [done|left; by exists 10]|].
    eapply rtc_l; [eapply (step_act _ _ _ _ [] [] 1 (PSend 10)); [done|done|apply notify_none]|].
    { apply (bool_decide_unpack (map_Forall (λ _ th, sleeps_on cvNotEmpty th = false) _)). by vm_compute. }
    eapply rtc_l; [apply (step_call _ _ _ _ _ 2 PRecv); [done|by right]|].
    eapply rtc_l; [by eapply (step_act _ _ _ _ _ _ 2 PRecv); [done|done|apply (notify_some _ _ 1)]|].
    eapply rtc_l; [apply step_close|]. cbn [close_section closed fst snd].
    eapply rtc_l; [by eapply (step_act _ _ _ _ _ _ 1 PSendAck)|].
    apply rtc_refl. }
  split_and!; by vm_compute.
Qed.
