(* ===== verification/Contexts.v ===== *)
(** * Cancellation contexts

    [src/vm/runtime/SharedRuntimeChannels.cpp], [BackgroundContext] to
    [IsContextCancelled].  Every method holds [m_contextMutex] around its work
    on the table, so a run is a sequence of whole calls. *)

From S2P Require Import Prelude.
From Stdlib Require Import Lia.

Module Context.

(** [struct ContextState], without its lock. *)
Record ContextState := MkContext {
  parentId : nat;
  cancelled : bool;
  signalAware : bool;
  children : gset nat;
}.

(** [m_contexts], the counters, and [g_shutdownSignalSeen]. *)
Record t := Mk {
  m_contexts : gmap nat ContextState;
  m_nextContextId : nat;
  m_backgroundContextId : nat;
  shutdownSignalSeen : bool;
}.

Definition init : t := Mk ∅ 1 0 false.

Definition add_child (child : nat) (c : ContextState) : ContextState :=
  MkContext (parentId c) (cancelled c) (signalAware c) (children c ∪ {[child]}).
Definition set_cancelled (c : ContextState) : ContextState :=
  MkContext (parentId c) true (signalAware c) (children c).

(** [HandleShutdownSignal] *)
Definition HandleShutdownSignal (s : t) : t :=
  Mk (m_contexts s) (m_nextContextId s) (m_backgroundContextId s) true.

Definition BackgroundContext : st t nat := λ s,
  if decide (m_backgroundContextId s = 0) then
    let id := m_nextContextId s in
    Ok (id, Mk (<[id := MkContext 0 false false ∅]> (m_contexts s)) (S id) id (shutdownSignalSeen s))
  else Ok (m_backgroundContextId s, s).

(** [ShutdownContext] after the call of [BackgroundContext]. *)
Definition shutdown_child (parent : nat) : st t nat := λ s,
  let contextId := m_nextContextId s in
  let child := MkContext parent (shutdownSignalSeen s) true ∅ in
  Ok (contextId, Mk (<[contextId := child]> (alter (add_child contextId) parent (m_contexts s)))
                   (S contextId) (m_backgroundContextId s) (shutdownSignalSeen s)).

Definition ShutdownContext : st t nat := parent ← BackgroundContext; shutdown_child parent.

(** The empty handle is [None]. *)
Definition CreateChildContext (parentContextId : nat) : st t (option nat) := λ s,
  match m_contexts s !! parentContextId with
  | None => Ok (None, s)
  | Some parent =>
      let contextId := m_nextContextId s in
      let child := MkContext parentContextId (cancelled parent) (signalAware parent) ∅ in
      Ok (Some contextId,
          Mk (<[contextId := child]> (<[parentContextId := add_child contextId parent]> (m_contexts s)))
             (S contextId) (m_backgroundContextId s) (shutdownSignalSeen s))
  end.

(** The loop of [CancelContext]; [pending] has its back first. *)
Fixpoint cancel_loop (fuel : nat) (pending : list nat) (contexts : gmap nat ContextState)
    : result (gmap nat ContextState) :=
  match fuel with
  | 0 => Diverge
  | S fuel =>
      match pending with
      | [] => Ok contexts
      | currentId :: pending =>
          match contexts !! currentId with
          | None => cancel_loop fuel pending contexts
          | Some c =>
              if cancelled c then cancel_loop fuel pending contexts
              else cancel_loop fuel (reverse (elements (children c)) ++ pending)
                     (<[currentId := set_cancelled c]> contexts)
          end
      end
  end.

(** The contexts that are still to be cancelled push their children once. *)
Definition work (c : ContextState) : nat := if cancelled c then 0 else size (children c).

Definition CancelContext (contextId : nat) : st t bool := λ s,
  match m_contexts s !! contextId with
  | None => Ok (false, s)
  | Some _ =>
      contexts ← cancel_loop (2 + weight work (m_contexts s)) [contextId] (m_contexts s);
      Ok (true, Mk contexts (m_nextContextId s) (m_backgroundContextId s) (shutdownSignalSeen s))
  end.

Definition IsContextCancelled (contextId : nat) (s : t) : bool :=
  match m_contexts s !! contextId with
  | None => false
  | Some c => cancelled c || signalAware c && shutdownSignalSeen s
  end.

Inductive call :=
  | call_background | call_shutdown | call_child (parent : nat) | call_cancel (id : nat) | call_signal.

Definition run (c : call) (s : t) : result t :=
  match c with
  | call_background => snd <$> BackgroundContext s
  | call_shutdown => snd <$> ShutdownContext s
  | call_child p => snd <$> CreateChildContext p s
  | call_cancel id => snd <$> CancelContext id s
  | call_signal => Ok (HandleShutdownSignal s)
  end.

Inductive reachable : t → Prop :=
  | reachable_init : reachable init
  | reachable_call s c s' : reachable s → run c s = Ok s' → reachable s'.

End Context.

(** ** Specification *)

Module ContextSpec.
Import Context.

Abbreviation contexts := (gmap nat ContextState).
Definition is_live (cs : contexts) (x : nat) : Prop := cancelled <$> cs !! x = Some false.
Definition is_cancelled (cs : contexts) (x : nat) : Prop := cancelled <$> cs !! x = Some true.
Definition child (cs : contexts) (x y : nat) : Prop := ∃ c, cs !! x = Some c ∧ y ∈ children c.
Abbreviation descendant cs := (rtc (child cs)).

(** The live contexts reached from [id] through live ones. *)
Inductive live_path (cs : contexts) (id : nat) : nat → Prop :=
  | live_start : is_live cs id → live_path cs id id
  | live_child x y : live_path cs id x → child cs x y → is_live cs y → live_path cs id y.

(** Two tables that differ at most in the [cancelled] flags. *)
Definition same_but_flags (cs cs' : contexts) : Prop :=
  ∀ x, (λ c, (parentId c, signalAware c, children c)) <$> cs' !! x
       = (λ c, (parentId c, signalAware c, children c)) <$> cs !! x.

Lemma same_child cs cs' x y : same_but_flags cs cs' → child cs' x y ↔ child cs x y.
Proof.
  intros Hs. specialize (Hs x). unfold child.
  destruct (cs !! x), (cs' !! x); cbn in Hs; simplify_eq; [|naive_solver].
  split; intros (c' & [= <-] & Hy); eexists; (split; [done|congruence]).
Qed.

Lemma live_or_cancelled cs x c :
  cs !! x = Some c → cancelled c = false ∧ is_live cs x ∨ cancelled c = true ∧ is_cancelled cs x.
Proof. intros Hx. unfold is_live, is_cancelled. rewrite Hx. destruct (cancelled c) eqn:E; cbn; rewrite E; auto. Qed.

Section cancel.
Variables (cs0 : contexts) (id : nat).

Record cancelling (cs : contexts) (pending : list nat) : Prop := {
  ca_same : same_but_flags cs0 cs;
  ca_sound x : is_cancelled cs x → is_cancelled cs0 x ∨ live_path cs0 id x;
  ca_keep x : is_cancelled cs0 x → is_cancelled cs x;
  ca_pending x : x ∈ pending → is_live cs0 x → live_path cs0 id x;
  ca_start : is_live cs0 id → id ∈ pending ∨ is_cancelled cs id;
  ca_next x y : is_live cs0 x → is_cancelled cs x → child cs0 x y → is_live cs0 y →
    y ∈ pending ∨ is_cancelled cs y;
}.

Lemma is_cancelled_insert cs x c y :
  cs !! x = Some c → is_cancelled (<[x := set_cancelled c]> cs) y ↔ y = x ∨ is_cancelled cs y.
Proof.
  intros Hx. unfold is_cancelled. destruct (decide (y = x)) as [-> |].
  - rewrite lookup_insert_eq. cbn. naive_solver.
  - rewrite lookup_insert_ne //. naive_solver.
Qed.

Lemma cancel_loop_spec fuel pending cs :
  cancelling cs pending → length pending + weight work cs < fuel →
  ∃ cs', cancel_loop fuel pending cs = Ok cs' ∧ cancelling cs' [].
Proof.
  revert pending cs. induction fuel as [|fuel IH]; intros pending cs Hc Hf; [lia|].
  cbn. destruct pending as [|x pending]; [by exists cs|]. cbn in Hf.
  destruct Hc as [H1 H2 H3 H4 H5 H6].
  assert (is_live cs0 x → is_live cs x ∨ is_cancelled cs x) as Hlx.
  { intros Hl. specialize (H1 x). unfold is_live, is_cancelled in *.
    destruct (cs0 !! x); [|done]. destruct (cs !! x) as [cx|]; [|done]. cbn.
    destruct (cancelled cx); auto. }
  destruct (cs !! x) as [c|] eqn:Hx.
  2: { assert (¬ is_cancelled cs x ∧ ¬ is_live cs0 x) as [Hn Hn0].
       { assert (¬ is_live cs x ∧ ¬ is_cancelled cs x) by (unfold is_live, is_cancelled; by rewrite Hx).
         tauto. }
       apply IH; [|lia]. split; try done; [set_solver| |].
       - intros Hl. destruct (H5 Hl) as [[->|?]%elem_of_cons|?]; tauto.
       - intros u v ?? ? Hv. destruct (H6 u v) as [[->|?]%elem_of_cons|?]; tauto. }
  destruct (live_or_cancelled _ _ _ Hx) as [[-> Hl]|[-> Hca]].
  2: { apply IH; [|lia]. split; try done; [set_solver| |].
       - intros Hl. destruct (H5 Hl) as [[->|?]%elem_of_cons|?]; auto.
       - intros u v ????. destruct (H6 u v) as [[->|?]%elem_of_cons|?]; auto. }
  assert (is_live cs0 x) as Hl0.
  { pose proof (H1 x) as Hs. unfold is_live. rewrite Hx in Hs. destruct (cs0 !! x) as [c0|] eqn:H0; [|done].
    destruct (live_or_cancelled _ _ _ H0) as [[? ?]|[_ Hca]]; [cbn; congruence|].
    apply H3 in Hca. unfold is_live, is_cancelled in *. congruence. }
  pose proof (H4 x ltac:(left) Hl0) as Hpath.
  apply IH.
  - split.
    + intros y. rewrite -(H1 y). destruct (decide (y = x)) as [-> |]; [by rewrite lookup_insert_eq Hx|].
      by rewrite lookup_insert_ne.
    + intros y [->|?]%(is_cancelled_insert _ _ _ _ Hx); [by right|by apply H2].
    + intros y Hy. apply (is_cancelled_insert _ _ _ _ Hx). right. by apply H3.
    + intros y [Hy|Hy]%elem_of_app Hly; [|apply H4; [by right|done]].
      rewrite elem_of_reverse elem_of_elements in Hy. eapply live_child; [done| |done].
      rewrite -(same_child _ _ _ _ H1). by exists c.
    + intros Hl'. rewrite (is_cancelled_insert _ _ _ _ Hx) elem_of_app.
      destruct (H5 Hl') as [[->|?]%elem_of_cons|?]; auto.
    + intros u v Hu Hcu Huv Hv. rewrite (is_cancelled_insert _ _ _ _ Hx) elem_of_app.
      apply (is_cancelled_insert _ _ _ _ Hx) in Hcu as [->|Hcu].
      * rewrite -(same_child _ _ _ _ H1) in Huv. destruct Huv as (c' & Hc' & Hin).
        assert (c' = c) as -> by congruence. left. left. rewrite elem_of_reverse elem_of_elements. done.
      * destruct (H6 u v Hu Hcu Huv Hv) as [[->|?]%elem_of_cons|?]; auto.
  - rewrite length_app length_reverse. change (length (elements (children c))) with (size (children c)).
    pose proof (weight_insert work cs x c (set_cancelled c) Hx) as Hw.
    assert (work c = size (children c)) as Hwc.
    { unfold work. unfold is_live in Hl. rewrite Hx in Hl. cbn in Hl. by injection Hl as ->. }
    rewrite Hwc in Hw. cbn in Hw. lia.
Qed.
End cancel.

Lemma CancelContext_spec id s c :
  m_contexts s !! id = Some c →
  ∃ s', CancelContext id s = Ok (true, s')
    ∧ same_but_flags (m_contexts s) (m_contexts s')
    ∧ m_nextContextId s' = m_nextContextId s ∧ m_backgroundContextId s' = m_backgroundContextId s
    ∧ ∀ x, is_cancelled (m_contexts s') x ↔ is_cancelled (m_contexts s) x ∨ live_path (m_contexts s) id x.
Proof.
  intros Hid. unfold CancelContext. rewrite Hid.
  destruct (cancel_loop_spec (m_contexts s) id (2 + weight work (m_contexts s)) [id] (m_contexts s))
    as (cs' & -> & [H1 H2 H3 _ H5 H6]).
  - split; try done; [by left| | |].
    + intros x ->%list_elem_of_singleton. by constructor.
    + intros _. left. left.
    + intros x y Hl Hca. unfold is_live, is_cancelled in *. congruence.
  - cbn. lia.
  - eexists. split; [done|]. split_and!; try done. intros x. split; [apply H2|].
    intros [?|Hp]; [by apply H3|].
    induction Hp as [Hl|x y Hp IH Hxy Hl]; [by destruct (H5 Hl); [set_solver|]|].
    assert (is_live (m_contexts s) x) as Hlx by by destruct Hp.
    destruct (H6 x y Hlx IH Hxy Hl); [set_solver|done].
Qed.

(** ** The tree of contexts *)

(** A cancelled context has no live child. *)
Definition downward (cs : contexts) : Prop :=
  ∀ x y, child cs x y → is_cancelled cs x → is_cancelled cs y.

Record ok (s : t) : Prop := {
  ok_fresh x : m_nextContextId s ≤ x → m_contexts s !! x = None;
  ok_positive : 0 < m_nextContextId s;
  ok_zero : m_contexts s !! 0 = None;
  ok_child x y : child (m_contexts s) x y → ∃ c, m_contexts s !! y = Some c ∧ parentId c = x ∧ x < y;
  ok_background : m_backgroundContextId s ≠ 0 → is_Some (m_contexts s !! m_backgroundContextId s);
  ok_downward : ¬ is_cancelled (m_contexts s) (m_backgroundContextId s) → downward (m_contexts s);
}.

Lemma child_insert_new cs id c x y :
  cs !! id = None → children c = ∅ → child (<[id := c]> cs) x y ↔ child cs x y.
Proof.
  intros Hid Hc. unfold child. destruct (decide (x = id)) as [-> |].
  - rewrite lookup_insert_eq Hid. split; [intros (? & [= <-] & Hy); set_solver|naive_solver].
  - by rewrite lookup_insert_ne.
Qed.

Lemma child_add_child cs p id c x y :
  cs !! p = Some c →
  child (<[p := add_child id c]> cs) x y ↔ child cs x y ∨ x = p ∧ y = id.
Proof.
  intros Hp. unfold child. destruct (decide (x = p)) as [-> |].
  - rewrite lookup_insert_eq Hp. cbn. split.
    + intros (? & [= <-] & Hy). cbn in Hy. set_solver.
    + intros [(? & [= <-] & ?)|[_ ->]]; (eexists; split; [done|]); cbn; set_solver.
  - rewrite lookup_insert_ne //. naive_solver.
Qed.

(** A context [id] added under the existing context [p]. *)
Lemma add_context_ok s p pc c :
  ok s → m_contexts s !! p = Some pc → parentId c = p → children c = ∅ →
  (¬ is_cancelled (m_contexts s) (m_backgroundContextId s) → cancelled pc = true → cancelled c = true) →
  let id := m_nextContextId s in
  ok (Mk (<[id := c]> (<[p := add_child id pc]> (m_contexts s))) (S id)
         (m_backgroundContextId s) (shutdownSignalSeen s)).
Proof.
  intros [H1 H2 H0 H3 H4 H5] Hp Hpar Hch Hinh id.
  assert (p < id) as Hlt.
  { destruct (decide (p < id)) as [|Hge]; [done|]. rewrite H1 in Hp; [done|]. unfold id in *. lia. }
  assert (m_contexts s !! id = None) as Hid by (apply H1; unfold id; lia).
  set (cs1 := <[p := add_child id pc]> (m_contexts s)).
  assert (cs1 !! id = None) as Hid1 by (unfold cs1; rewrite lookup_insert_ne //; lia).
  assert (∀ x y, child (<[id := c]> cs1) x y ↔ child (m_contexts s) x y ∨ x = p ∧ y = id) as Hchild.
  { intros x y. rewrite child_insert_new //. by apply child_add_child. }
  assert (∀ x, x ≠ id → is_cancelled (<[id := c]> cs1) x ↔ is_cancelled (m_contexts s) x) as Hcan.
  { intros x Hx. unfold is_cancelled, cs1. rewrite lookup_insert_ne //.
    destruct (decide (x = p)) as [-> |]; [by rewrite lookup_insert_eq Hp|by rewrite lookup_insert_ne]. }
  split; cbn [m_contexts m_nextContextId m_backgroundContextId shutdownSignalSeen].
  - intros x Hx. unfold cs1. rewrite !lookup_insert_ne; [apply H1|..]; unfold id in *; lia.
  - lia.
  - unfold cs1. rewrite lookup_insert_ne; [|lia]. rewrite lookup_insert_ne //. intros ->. congruence.
  - intros x y [Hxy|[-> ->]]%Hchild.
    + destruct (H3 x y Hxy) as (cy & Hy & Hpy & ?). destruct (decide (y = p)) as [-> |].
      * exists (add_child id pc). unfold cs1. rewrite lookup_insert_ne; [|lia]. rewrite lookup_insert_eq.
        split_and!; [done| |done]. cbn. congruence.
      * exists cy. unfold cs1. rewrite lookup_insert_ne; [by rewrite lookup_insert_ne|].
        intros <-. congruence.
    + exists c. rewrite lookup_insert_eq. done.
  - intros Hb. unfold cs1. rewrite !lookup_insert_is_Some. destruct (H4 Hb) as [cb Hcb].
    right. split; [intros E; rewrite E in Hid; congruence|].
    destruct (decide (p = m_backgroundContextId s)); [by left|right].
    split; [done|by eexists].
  - intros Hb. assert (¬ is_cancelled (m_contexts s) (m_backgroundContextId s)) as Hb'.
    { destruct (decide (m_backgroundContextId s = id)) as [E|]; [|by rewrite Hcan in Hb].
      unfold is_cancelled. by rewrite E Hid. }
    intros x y [Hxy|[-> ->]]%Hchild Hx.
    + destruct (H3 x y Hxy) as (cy & Hy & _ & ?).
      assert (y ≠ id) by (intros ->; congruence). assert (x ≠ id).
      { intros ->. destruct Hxy as (? & ? & _). congruence. }
      rewrite Hcan // in Hx. rewrite Hcan //. by eapply H5.
    + assert (p ≠ id) by lia. rewrite Hcan // in Hx. unfold is_cancelled in Hx |- *.
      rewrite Hp in Hx. rewrite lookup_insert_eq. cbn in *. f_equal. apply Hinh; [done|congruence].
Qed.

Lemma background_ok s :
  ok s → ∃ s', BackgroundContext s = Ok (m_backgroundContextId s', s') ∧ ok s'
    ∧ is_Some (m_contexts s' !! m_backgroundContextId s')
    ∧ (m_backgroundContextId s ≠ 0 → s' = s).
Proof.
  intros Hs. pose proof Hs as [H1 H2 H0 H3 H4 H5]. unfold BackgroundContext. case_decide as Hb.
  2: { exists s. split; [done|]. split; [done|]. split; [by apply H4|done]. }
  exists (Mk (<[m_nextContextId s := MkContext 0 false false ∅]> (m_contexts s))
    (S (m_nextContextId s)) (m_nextContextId s) (shutdownSignalSeen s)). split; [done|].
  assert (m_contexts s !! m_nextContextId s = None) as Hid by (apply H1; lia).
  assert (∀ x y, child (<[m_nextContextId s := MkContext 0 false false ∅]> (m_contexts s)) x y
    ↔ child (m_contexts s) x y) as Hchild by (intros; by apply child_insert_new).
  assert (downward (m_contexts s)) as Hd.
  { apply H5. rewrite Hb. unfold is_cancelled. by rewrite H0. }
  split; [|split; [cbn; rewrite lookup_insert_eq; by eexists|done]].
  split; cbn.
  - intros x Hx. rewrite lookup_insert_ne; [apply H1|]; lia.
  - lia.
  - rewrite lookup_insert_ne //. lia.
  - intros x y (c & Hc & ? & ?)%Hchild%H3. exists c. rewrite lookup_insert_ne //. congruence.
  - intros _. rewrite lookup_insert_eq. by eexists.
  - intros _ x y Hxy%Hchild Hx.
    destruct (H3 x y Hxy) as (cy & Hy & _). pose proof Hxy as (cx & Hcx & Hin).
    unfold is_cancelled in Hx |- *. rewrite lookup_insert_ne in Hx; [|congruence].
    rewrite lookup_insert_ne; [|congruence].
    by eapply Hd.
Qed.

Lemma cancel_ok id s : ok s → ∃ r s', CancelContext id s = Ok (r, s') ∧ ok s'.
Proof.
  intros Hs. destruct (m_contexts s !! id) as [c|] eqn:Hid.
  2: { exists false, s. unfold CancelContext. by rewrite Hid. }
  destruct (CancelContext_spec id s c Hid) as (s' & -> & Hsame & Hn & Hb & Hc).
  exists true, s'. split; [done|]. destruct Hs as [H1 H2 H0 H3 H4 H5].
  assert (∀ x, m_contexts s' !! x = None ↔ m_contexts s !! x = None) as Hnone.
  { intros x. specialize (Hsame x). by destruct (m_contexts s !! x), (m_contexts s' !! x). }
  split; rewrite ?Hn ?Hb.
  - intros x Hx. by apply Hnone, H1.
  - done.
  - by apply Hnone.
  - intros x y Hxy%(same_child _ _ _ _ Hsame). destruct (H3 x y Hxy) as (cy & Hy & ? & ?).
    pose proof (Hsame y) as Hs. rewrite Hy in Hs.
    destruct (m_contexts s' !! y) as [cy'|]; [|done]. cbn in Hs. simplify_eq. exists cy'. split_and!; congruence.
  - intros Hbg. destruct (H4 Hbg) as [cb Hcb]. destruct (m_contexts s' !! _) eqn:E; [by eexists|].
    apply Hnone in E. congruence.
  - intros Hbg x y Hxy%(same_child _ _ _ _ Hsame) Hx%Hc. apply Hc.
    assert (downward (m_contexts s)) as Hd.
    { apply H5. intros ?. apply Hbg, Hc. by left. }
    destruct Hx as [Hx|Hp]; [left; by eapply Hd|].
    destruct (H3 x y Hxy) as (cy & Hy & _).
    destruct (live_or_cancelled _ _ _ Hy) as [[_ ?]|[_ ?]]; [right; by eapply live_child|by left].
Qed.

Lemma context_run_ok c s : ok s → ∃ s', run c s = Ok s' ∧ ok s'.
Proof.
  intros Hs. destruct c as [| |p|id|]; cbn [run].
  - destruct (background_ok s Hs) as (s' & -> & ? & _). by exists s'.
  - destruct (background_ok s Hs) as (s1 & Hb & Hs1 & [pc Hpc] & _).
    unfold ShutdownContext. run_with Hb. eexists. split; [done|].
    unfold shutdown_child. cbn. rewrite (alter_Some _ _ _ _ Hpc).
    apply add_context_ok; try done. intros Hn Hpcc. exfalso. apply Hn. unfold is_cancelled.
    rewrite Hpc. cbn. by rewrite Hpcc.
  - unfold CreateChildContext. destruct (m_contexts s !! p) as [pc|] eqn:Hp; [|by exists s].
    eexists. split; [done|]. by apply add_context_ok.
  - destruct (cancel_ok id s Hs) as (r & s' & -> & ?). by exists s'.
  - eexists. split; [done|]. by destruct Hs.
Qed.

Lemma context_ok s : reachable s → ok s.
Proof.
  induction 1 as [|s c s' _ IH Hr].
  - assert (∀ x y, ¬ child ∅ x y) as Hno by (intros x y (c & Hc & _); done).
    split; cbn; [done|lia|done| |done|].
    + intros x y Hxy. by destruct (Hno x y).
    + intros _ x y Hxy. by destruct (Hno x y).
  - destruct (context_run_ok c s IH) as (s1 & Hs1 & ?). by assert (s1 = s') as <- by congruence.
Qed.

(** With no cancelled context above a live one, live paths are all paths. *)
Lemma live_path_descendant s id x :
  ok s → downward (m_contexts s) → is_Some (m_contexts s !! id) →
  is_cancelled (m_contexts s) x ∨ live_path (m_contexts s) id x
  ↔ is_cancelled (m_contexts s) x ∨ descendant (m_contexts s) id x.
Proof.
  intros Hs Hd [c Hid]. split; (intros [?|Hp]; [by left|]).
  - right. induction Hp as [|x y _ IH Hxy _]; [constructor|by eapply rtc_r].
  - revert x Hp. apply rtc_ind_r; [|intros x y Hp Hxy IH].
    + destruct (live_or_cancelled _ _ _ Hid) as [[_ ?]|[_ ?]]; [right; by constructor|by left].
    + destruct IH as [Hx|Hx]; [left; by eapply Hd|].
      destruct (ok_child _ Hs x y Hxy) as (cy & Hy & _).
      destruct (live_or_cancelled _ _ _ Hy) as [[_ ?]|[_ ?]]; [right; by eapply live_child|by left].
Qed.

Lemma is_live_not_cancelled cs x : is_live cs x → ¬ is_cancelled cs x.
Proof. unfold is_live, is_cancelled. congruence. Qed.

(** C25. Cancelling a context returns whatever the table looks like; only an
    unknown context is refused.  It cancels the contexts that a path of live
    contexts leads to from it, itself included, and no other, and changes nothing
    but their flags.  As long as the background context is not cancelled, these
    are the context and all its descendants; under a cancelled background
    context a live shutdown context hides behind its parent
    ([shutdown_escapes_cancel]). *)
Theorem CancelContext_subtree s id :
  reachable s →
  match m_contexts s !! id with
  | None => CancelContext id s = Ok (false, s)
  | Some _ => ∃ s', CancelContext id s = Ok (true, s')
      ∧ same_but_flags (m_contexts s) (m_contexts s')
      ∧ (∀ x, is_cancelled (m_contexts s') x ↔ is_cancelled (m_contexts s) x ∨ live_path (m_contexts s) id x)
      ∧ (¬ is_cancelled (m_contexts s) (m_backgroundContextId s) →
         ∀ x, is_cancelled (m_contexts s') x ↔ is_cancelled (m_contexts s) x ∨ descendant (m_contexts s) id x)
  end.
Proof.
  intros Hs%context_ok. destruct (m_contexts s !! id) as [c|] eqn:Hid.
  - destruct (CancelContext_spec id s c Hid) as (s' & -> & Hsame & _ & _ & Hc).
    exists s'. split_and!; [done..|]. intros Hb x. rewrite Hc.
    apply live_path_descendant; [done|by apply ok_downward|by eexists].
  - unfold CancelContext. by rewrite Hid.
Qed.

(** A sequence of calls. *)
Fixpoint runs (cs : list call) (s : t) : result t :=
  match cs with [] => Ok s | c :: cs => s ← run c s; runs cs s end.

Lemma reachable_runs cs s s' : reachable s → runs cs s = Ok s' → reachable s'.
Proof.
  revert s. induction cs as [|c cs IH]; intros s Hs; cbn; [by intros [= <-]|].
  intros (s1 & Hs1 & Hr)%result_bind_Ok. by eapply IH, Hr; eapply reachable_call.
Qed.

Definition demo : t :=
  match runs [call_background; call_child 1; call_child 2] init with Ok s => s | _ => init end.

Lemma demo_reachable : reachable demo.
Proof.
  apply (reachable_runs [call_background; call_child 1; call_child 2] init); [constructor|].
  by vm_compute.
Qed.

Lemma CancelContext_subtree_witness :
  reachable demo ∧ ¬ is_cancelled (m_contexts demo) (m_backgroundContextId demo)
  ∧ ∃ s', CancelContext 2 demo = Ok (true, s')
      ∧ same_but_flags (m_contexts demo) (m_contexts s')
      ∧ (∀ x, is_cancelled (m_contexts s') x ↔ is_cancelled (m_contexts demo) x ∨ live_path (m_contexts demo) 2 x)
      ∧ ∀ x, is_cancelled (m_contexts s') x ↔ is_cancelled (m_contexts demo) x ∨ descendant (m_contexts demo) 2 x.
Proof.
  assert (¬ is_cancelled (m_contexts demo) (m_backgroundContextId demo)) as Hb.
  { by vm_compute. }
  split; [exact demo_reachable|]. split; [exact Hb|].
  destruct (CancelContext_subtree demo 2 demo_reachable) as (s' & H1 & H2 & H3 & H4).
  exists s'. split; [exact H1|]. split; [exact H2|]. split; [exact H3|exact (H4 Hb)].
Defined.

(** Whatever the calls and the signals, every call returns; the contexts
    form a tree whose links agree in both directions and lead from older to
    newer contexts; and until the background context itself is cancelled, a
    cancelled context has only cancelled descendants. *)
Theorem context_tree s c :
  reachable s →
  (∃ s', run c s = Ok s')
  ∧ (∀ x y, child (m_contexts s) x y → ∃ cy, m_contexts s !! y = Some cy ∧ parentId cy = x ∧ x < y)
  ∧ (¬ is_cancelled (m_contexts s) (m_backgroundContextId s) →
     ∀ x y, descendant (m_contexts s) x y → is_cancelled (m_contexts s) x → is_cancelled (m_contexts s) y).
Proof.
  intros Hs%context_ok. split_and!.
  - destruct (context_run_ok c s Hs) as (s' & ? & _). by exists s'.
  - apply (ok_child _ Hs).
  - intros Hb x y Hxy. induction Hxy as [|x y z Hxy _ IH]; [done|]. intros Hx.
    by eapply IH, (ok_downward _ Hs).
Qed.

Lemma context_tree_witness :
  reachable demo
  ∧ (∃ s', run (call_cancel 3) demo = Ok s')
  ∧ (∀ x y, child (m_contexts demo) x y →
       ∃ cy, m_contexts demo !! y = Some cy ∧ parentId cy = x ∧ x < y)
  ∧ (¬ is_cancelled (m_contexts demo) (m_backgroundContextId demo) →
     ∀ x y, descendant (m_contexts demo) x y → is_cancelled (m_contexts demo) x →
       is_cancelled (m_contexts demo) y).
Proof. split; [exact demo_reachable|]. exact (context_tree demo (call_cancel 3) demo_reachable). Defined.

(** A shutdown context created under a cancelled background context is live,
    unlike a child context, and cancelling the background context again does
    not reach it. *)
Example shutdown_escapes_cancel :
  (s ← run call_background init; s ← run (call_cancel 1) s;
   s ← run call_shutdown s; s ← run (call_child 1) s; s ← run (call_cancel 1) s;
   Ok (IsContextCancelled 1 s, IsContextCancelled 2 s, IsContextCancelled 3 s))
  = Ok (true, false, true).
Proof. by vm_compute. Qed.
End ContextSpec.
