(* ===== verification/Tasks.v ===== *)
(** * Tasks, and the memory statistics of the shared runtime

    [src/vm/runtime/SharedRuntimeTasks.cpp] with the natives of
    [src/vm/runtime/stdlib/task/TaskModule.cpp], and [Allocate] and [Release]
    of [SharedRuntimeCore.cpp].  The thread of a task runs its callable and then
    enters one critical section; every other call is a critical section of the
    task's mutex, except that [AwaitTask] waits in it for [completed]. *)

From S2P Require Import Prelude.
From Stdlib Require Import Lia.

(** ** Tasks *)

Module Tasks.
Section tasks.
(** [Core::Value] and [std::monostate{}]. *)
Context {V : Type} (monostate : V).

(** [struct TaskOutcome] *)
Record TaskOutcome := MkOutcome { ok : bool; result : V; error : string }.

(** How the runner of a task ends. *)
Inductive ending :=
  | Returned (outcome : TaskOutcome)
  | Thrown (what : string)      (* an std::exception *)
  | ThrownOther.

(** [struct TaskState], with the stop state of its [std::jthread]. *)
Record TaskState := MkTask {
  completed : bool;
  joined : bool;
  cancelled : bool;
  t_result : V;
  t_error : string;
  stop_requested : bool;
}.

Record t := Mk { m_tasks : gmap nat TaskState; m_nextTaskId : nat }.
Definition init : t := Mk ∅ 1.

Definition new_task : TaskState := MkTask false false false monostate "" false.

(** [SpawnTask]; the thread it starts runs from here on. *)
Definition SpawnTask : st t nat := λ s,
  let taskId := m_nextTaskId s in
  Ok (taskId, Mk (<[taskId := new_task]> (m_tasks s)) (S taskId)).

(** What the two [catch] clauses make of an exception. *)
Definition outcome_of (e : ending) : TaskOutcome :=
  match e with
  | Returned outcome => outcome
  | Thrown what => MkOutcome false monostate what
  | ThrownOther => MkOutcome false monostate "Unhandled task exception"
  end.

(** The critical section at the end of the thread. *)
Definition complete (e : ending) (task : TaskState) : TaskState :=
  let outcome := outcome_of e in
  MkTask true (joined task) (cancelled task || stop_requested task) (result outcome)
    (if ok outcome then "" else error outcome) (stop_requested task).

Definition FinishTask (taskId : nat) (e : ending) (s : t) : t :=
  Mk (alter (complete e) taskId (m_tasks s)) (m_nextTaskId s).

(** [AwaitTask]: an unknown task, a wait that goes on, or the two results. *)
Inductive awaited := Unknown | Waiting | Done (outResult : V) (outError : string).

Definition AwaitTask (taskId : nat) (s : t) : awaited * t :=
  match m_tasks s !! taskId with
  | None => (Unknown, s)
  | Some task =>
      if completed task then
        (Done (t_result task) (t_error task),
         Mk (<[taskId := MkTask true true (cancelled task) (t_result task) (t_error task) (stop_requested task)]> (m_tasks s))
            (m_nextTaskId s))
      else (Waiting, s)
  end.

Definition CancelTask (taskId : nat) (s : t) : bool * t :=
  match m_tasks s !! taskId with
  | None => (false, s)
  | Some task =>
      (true, Mk (<[taskId := MkTask (completed task) (joined task) true (t_result task) (t_error task) true]> (m_tasks s))
                (m_nextTaskId s))
  end.

Definition IsTaskDone (taskId : nat) (s : t) : bool :=
  match m_tasks s !! taskId with None => false | Some task => completed task end.
Definition TaskError (taskId : nat) (s : t) : string :=
  match m_tasks s !! taskId with None => "" | Some task => t_error task end.

(** ** The natives *)

Section natives.
(** The elements of a value that is an array. *)
Context (as_array : V → option (list V)).

(** [go_call]: the arguments of the callee. *)
Definition go_arguments (args : list V) : list V :=
  match args with
  | [_; a] => match as_array a with Some elements => elements | None => [a] end
  | _ :: l => l
  | [] => []
  end.
End natives.

(** [RunCallable] ended with an error, or with a value. *)
Definition go_outcome (r : option string) (value : V) : TaskOutcome :=
  match r with Some error => MkOutcome false monostate error | None => MkOutcome true value "" end.

(** [join]: the answer, or the error that is raised. *)
Definition join_native (a : awaited) : V + string :=
  match a with
  | Done value error => if decide (error = "") then inl value else inr error
  | _ => inr "Unknown task handle"
  end.
(** [join_result]: the three elements of its array. *)
Definition join_result_native (a : awaited) : bool * V * string :=
  match a with
  | Done value error => (bool_decide (error = ""), value, error)
  | _ => (false, monostate, "Unknown task handle")
  end.

(** ** Runs

    The calls of all threads, in any order; a task ends once. *)
Inductive call :=
  | Spawn | Finish (taskId : nat) (e : ending) | Await (taskId : nat) | Cancel (taskId : nat).

Definition run (c : call) (s : t) : option t :=
  match c with
  | Spawn => match SpawnTask s with Ok (_, s) => Some s | _ => None end
  | Finish id e =>
      match m_tasks s !! id with
      | Some task => if completed task then None else Some (FinishTask id e s)
      | None => None
      end
  | Await id => match AwaitTask id s with (Waiting, _) => None | (_, s) => Some s end
  | Cancel id => Some (CancelTask id s).2
  end.

Fixpoint runs (cs : list call) (s : t) : option t :=
  match cs with [] => Some s | c :: cs => s ← run c s; runs cs s end.

Inductive reachable : t → Prop :=
  | reachable_init : reachable init
  | reachable_run c s s' : reachable s → run c s = Some s' → reachable s'.

(** The identifiers in use are below the counter. *)
Definition fresh (s : t) : Prop := ∀ id, m_nextTaskId s ≤ id → m_tasks s !! id = None.

Lemma run_fresh c s s' : fresh s → run c s = Some s' → fresh s'.
Proof.
  intros Hs. destruct c as [|id e|id|id]; cbn.
  - intros [= <-] id Hid. cbn in *. rewrite lookup_insert_ne; [apply Hs; lia|lia].
  - destruct (m_tasks s !! id) as [task|] eqn:E; [|done]. destruct (completed task); [done|].
    intros [= <-] j Hj. cbn in *. rewrite lookup_alter_None. by apply Hs.
  - unfold AwaitTask. destruct (m_tasks s !! id) as [task|] eqn:E; [|by intros [= <-]].
    destruct (completed task); [|done]. intros [= <-] j Hj. cbn in *.
    rewrite lookup_insert_ne; [by apply Hs|]. intros ->. rewrite Hs // in E.
  - unfold CancelTask. destruct (m_tasks s !! id) as [task|] eqn:E; intros [= <-]; [|done].
    intros j Hj. cbn in *. rewrite lookup_insert_ne; [by apply Hs|]. intros ->. rewrite Hs // in E.
Qed.

Lemma reachable_fresh s : reachable s → fresh s.
Proof. induction 1; [by intros id _; apply lookup_empty|by eapply run_fresh]. Qed.

(** A completed task keeps what its thread left. *)
Definition has_outcome (id : nat) (v : V) (e : string) (s : t) : Prop :=
  ∃ task, m_tasks s !! id = Some task ∧ completed task = true ∧ t_result task = v ∧ t_error task = e.

Lemma run_outcome id v e c s s' :
  fresh s → has_outcome id v e s → run c s = Some s' → has_outcome id v e s'.
Proof.
  intros Hf (task & Hid & Hc & Hv & He). destruct c as [|j e'|j|j]; cbn.
  - intros [= <-]. exists task. cbn. rewrite lookup_insert_ne //. intros <-. by rewrite Hf in Hid.
  - destruct (m_tasks s !! j) as [task'|] eqn:E; [|done]. destruct (completed task') eqn:Hc'; [done|].
    intros [= <-]. exists task. cbn. rewrite lookup_alter_ne //. congruence.
  - unfold AwaitTask. destruct (m_tasks s !! j) as [task'|] eqn:E; [|by intros [= <-]; exists task].
    destruct (completed task'); [|done]. intros [= <-]. cbn. destruct (decide (id = j)) as [-> |].
    + assert (task' = task) as -> by congruence. eexists. cbn. by rewrite lookup_insert_eq.
    + exists task. cbn. by rewrite lookup_insert_ne.
  - unfold CancelTask. destruct (m_tasks s !! j) as [task'|] eqn:E; intros [= <-]; [|by exists task].
    destruct (decide (id = j)) as [-> |].
    + assert (task' = task) as -> by congruence. eexists. cbn. by rewrite lookup_insert_eq.
    + exists task. cbn. by rewrite lookup_insert_ne.
Qed.

Lemma runs_outcome id v e cs s s' :
  fresh s → has_outcome id v e s → runs cs s = Some s' → has_outcome id v e s'.
Proof.
  revert s. induction cs as [|c cs IH]; intros s Hf Hs; cbn; [by intros [= <-]|].
  destruct (run c s) as [s1|] eqn:E; [|done]. apply IH; [by eapply run_fresh|by eapply run_outcome].
Qed.

(** Whoever awaits a task, and however often, after whatever else happened,
    gets what its thread ended with: the value of a runner that succeeded, the
    error of one that did not, the text of the exception that ended it; and the
    thread of a task ends once. *)
Theorem await_outcome s id e s1 cs s2 :
  reachable s → run (Finish id e) s = Some s1 → runs cs s1 = Some s2 →
  let o := outcome_of e in
  (AwaitTask id s2).1 = Done (result o) (if ok o then "" else error o)
  ∧ IsTaskDone id s2 = true ∧ ∀ e', run (Finish id e') s2 = None.
Proof.
  intros Hr Hfin Hrun o. pose proof (reachable_fresh _ Hr) as Hf.
  assert (has_outcome id (result o) (if ok o then "" else error o) s1) as Ho.
  { cbn in Hfin. destruct (m_tasks s !! id) as [task|] eqn:E; [|done]. destruct (completed task); [done|].
    injection Hfin as <-. eexists. cbn. rewrite lookup_alter_eq E. by split_and!. }
  destruct (runs_outcome _ _ _ _ _ _ (run_fresh _ _ _ Hf Hfin) Ho Hrun) as (task & Hid & Hc & Hv & He).
  unfold AwaitTask, IsTaskDone. cbn [run]. rewrite Hid Hc. cbn. by rewrite Hv He.
Qed.

End tasks.

Lemma await_outcome_witness :
  let s := Mk {[1 := new_task 0]} 2 in
  let e := Thrown "Value stack overflow" in
  let s1 := FinishTask 0 1 e s in
  let s2 := (CancelTask 1 (AwaitTask 1 s1).2).2 in
  (AwaitTask 1 s2).1 = Done 0 "Value stack overflow" ∧ IsTaskDone 1 s2 = true
  ∧ ∀ e', run 0 (Finish 1 e') s2 = None.
Proof.
  refine (await_outcome 0 (Mk {[1 := new_task 0]} 2) 1 (Thrown "Value stack overflow") _ [Await 1; Cancel 1] _ _ _ _);
    [|vm_compute; reflexivity|vm_compute; reflexivity].
  eapply (reachable_run 0 Spawn); [constructor|]. vm_compute. reflexivity.
Defined.

(** A failure with an empty text, as an exception without a message gives, is
    joined as a success. *)
Example silent_failure :
  let s := FinishTask 0 1 (Thrown "") (Mk {[1 := new_task 0]} 2) in
  join_native (AwaitTask 1 s).1 = inl 0.
Proof. vm_compute. reflexivity. Qed.

(** [go f(a)] with an array [a] calls [f] with the elements of [a]. *)
Inductive value := Num (n : nat) | Arr (l : list value).
Definition elements_of (v : value) : option (list value) := match v with Arr l => Some l | _ => None end.
Example go_spreads_an_array :
  go_arguments elements_of [Num 7; Arr [Num 1; Num 2; Num 3]] = [Num 1; Num 2; Num 3]
  ∧ go_arguments elements_of [Num 7; Arr [Num 1]; Num 2] = [Arr [Num 1]; Num 2].
Proof. done. Qed.

End Tasks.

(** ** Allocations *)

Module Allocations.

(** [struct AllocationStats]; each count is a [size_t]. *)
Record AllocationStats := MkStats {
  activeAllocations : Z; activeBytes : Z; totalAllocations : Z; totalBytes : Z
}.
(** The sizes of the blocks by their addresses. *)
Record t := Mk { m_memoryPool : gmap Z Z; m_allocationStats : AllocationStats }.
Definition init : t := Mk ∅ (MkStats 0 0 0 0).

Definition size_t (z : Z) : Z := (z mod 2 ^ 64)%Z.

(** [Allocate]; [ptr] is the address of the new block. *)
Definition Allocate (size ptr : Z) (s : t) : t :=
  let a := m_allocationStats s in
  Mk (match m_memoryPool s !! ptr with Some _ => m_memoryPool s | None => <[ptr := size]> (m_memoryPool s) end)
     (MkStats (size_t (activeAllocations a + 1)) (size_t (activeBytes a + size))
              (size_t (totalAllocations a + 1)) (size_t (totalBytes a + size))).

Definition Release (ptr : Z) (s : t) : bool * t :=
  match m_memoryPool s !! ptr with
  | None => (false, s)
  | Some size =>
      let a := m_allocationStats s in
      (true, Mk (delete ptr (m_memoryPool s))
                (MkStats (size_t (activeAllocations a - 1)) (size_t (activeBytes a - size))
                         (totalAllocations a) (totalBytes a)))
  end.

Definition GetAllocationStats (s : t) : AllocationStats := m_allocationStats s.

(** The allocator returns an address that is not in use. *)
Inductive reachable : t → Prop :=
  | reachable_init : reachable init
  | reachable_allocate size ptr s : reachable s → (0 ≤ size)%Z → m_memoryPool s !! ptr = None → reachable (Allocate size ptr s)
  | reachable_release ptr s : reachable s → reachable (Release ptr s).2.

Definition pool_bytes (m : gmap Z Z) : Z := map_fold (λ _ size n, (size + n)%Z) 0%Z m.

Lemma pool_bytes_insert m k v : m !! k = None → pool_bytes (<[k := v]> m) = (v + pool_bytes m)%Z.
Proof. intros Hk. unfold pool_bytes. rewrite map_fold_insert_L //. intros. lia. Qed.
Lemma pool_bytes_delete m k v : m !! k = Some v → pool_bytes m = (v + pool_bytes (delete k m))%Z.
Proof. intros Hk. unfold pool_bytes. rewrite (map_fold_delete_L _ _ k v m) //. intros. lia. Qed.

Lemma mod_add_mod a b : ((a mod 2 ^ 64 + b) mod 2 ^ 64 = (a + b) mod 2 ^ 64)%Z.
Proof. by rewrite Zplus_mod_idemp_l. Qed.
Lemma mod_sub_mod a b : ((a mod 2 ^ 64 - b) mod 2 ^ 64 = (a - b) mod 2 ^ 64)%Z.
Proof. by rewrite Zminus_mod_idemp_l. Qed.

(** The active counts are those of the pool, modulo the width of [size_t]; in
    particular releasing everything brings them back to zero. *)
Theorem allocation_stats s :
  reachable s →
  activeAllocations (GetAllocationStats s) = size_t (Z.of_nat (size (m_memoryPool s)))
  ∧ activeBytes (GetAllocationStats s) = size_t (pool_bytes (m_memoryPool s)).
Proof.
  unfold GetAllocationStats. induction 1 as [|size ptr s _ [IH1 IH2] _ Hp|ptr s _ [IH1 IH2]]; [done| |].
  - cbn. rewrite Hp IH1 IH2 map_size_insert_None // pool_bytes_insert //. unfold size_t.
    rewrite !mod_add_mod. split; f_equal; lia.
  - unfold Release. destruct (m_memoryPool s !! ptr) as [v|] eqn:E; [|done]. cbn. rewrite IH1 IH2.
    rewrite map_size_delete_Some // (pool_bytes_delete _ _ _ E). unfold size_t. rewrite !mod_sub_mod.
    assert (size (m_memoryPool s) ≠ 0) by (intros Hz%map_size_empty_inv; by rewrite Hz lookup_empty in E).
    split; f_equal; lia.
Qed.

End Allocations.
