(* ===== verification/Transactions.v ===== *)
(** * Transactions of an execution context

    [src/vm/runtime/ExecutionContextTransactions.cpp] and the globals of
    [ExecutionContextCore.cpp].  A transaction keeps the writes of its thread
    in [pending] maps and the values they replace in [prior] maps; objects are
    keyed by their address.  Arrays and instances live in a heap from which
    an object disappears when its last reference does; the transaction holds
    none. *)

From S2P Require Import Prelude SyncRuntime.
From Stdlib Require Import Lia.

Module Ctx.
Section transactions.
(** [Core::Value] *)
Context {V : Type}.

(** [struct ActiveTransaction]; its [rollbacks] are never used. *)
Record ActiveTransaction := MkTransaction {
  mutexIds : list nat;
  acquiredMutexIds : list nat;
  priorGlobals : gmap string V;
  pendingGlobals : gmap string V;
  priorThreadLocals : gmap string V;
  pendingThreadLocals : gmap string V;
  priorArrayValues : gmap nat (list V);
  pendingArrayValues : gmap nat (list V);
  priorInstanceValues : gmap nat (gmap nat V);
  pendingInstanceValues : gmap nat (gmap nat V);
}.

(** What other threads and later transactions see: the globals of the runtime,
    the thread-local globals, and the objects. *)
Record store := MkStore {
  m_globals : gmap string V;
  m_threadLocalGlobals : gmap string V;
  arrays : gmap nat (list V);
  instances : gmap nat (list V);
}.

(** [m_activeTransactions] has its back first. *)
Record t := Mk {
  m_activeTransactions : list ActiveTransaction;
  committed : store;
  m_runtime : Sync.t;
  m_currentThreadId : nat;
  m_errorMessage : string;
}.

Definition set_transactions (l : list ActiveTransaction) (c : t) : t :=
  Mk l (committed c) (m_runtime c) (m_currentThreadId c) (m_errorMessage c).
Definition set_committed (s : store) (c : t) : t :=
  Mk (m_activeTransactions c) s (m_runtime c) (m_currentThreadId c) (m_errorMessage c).
Definition set_runtime (r : Sync.t) (c : t) : t :=
  Mk (m_activeTransactions c) (committed c) r (m_currentThreadId c) (m_errorMessage c).

(** [RaiseError]: the first message stays. *)
Definition RaiseError (message : string) (c : t) : t :=
  if decide (m_errorMessage c = "")
  then Mk (m_activeTransactions c) (committed c) (m_runtime c) (m_currentThreadId c) message
  else c.

(** *** Globals *)

Definition runtime_set_global (name : string) (v : V) (g : gmap string V) : gmap string V * bool :=
  match g !! name with Some _ => (<[name := v]> g, true) | None => (g, false) end.

(** The pending value nearest to the top of the stack. *)
Fixpoint find_pending {K} `{Countable K} {A} (pending : ActiveTransaction → gmap K A)
    (k : K) (l : list ActiveTransaction) : option A :=
  match l with
  | [] => None
  | tr :: l => match pending tr !! k with Some v => Some v | None => find_pending pending k l end
  end.

Definition GetGlobal (name : string) (c : t) : option V :=
  match find_pending pendingGlobals name (m_activeTransactions c) with
  | Some v => Some v
  | None => m_globals (committed c) !! name
  end.

(** [if (!m.contains(k)) m.emplace(k, v)]; also [try_emplace]. *)
Definition try_emplace {K} `{Countable K} {A} (k : K) (v : A) (m : gmap K A) : gmap K A :=
  match m !! k with Some _ => m | None => <[k := v]> m end.

Definition SetGlobal (name : string) (v : V) : st t bool := λ c,
  match m_activeTransactions c with
  | tr :: l =>
      let prior := match m_globals (committed c) !! name with
                   | Some previousValue => try_emplace name previousValue (priorGlobals tr)
                   | None => priorGlobals tr
                   end in
      let tr := MkTransaction (mutexIds tr) (acquiredMutexIds tr) prior (<[name := v]> (pendingGlobals tr))
        (priorThreadLocals tr) (pendingThreadLocals tr) (priorArrayValues tr) (pendingArrayValues tr)
        (priorInstanceValues tr) (pendingInstanceValues tr) in
      Ok (true, set_transactions (tr :: l) c)
  | [] =>
      let s := committed c in
      let '(g, ok) := runtime_set_global name v (m_globals s) in
      Ok (ok, set_committed (MkStore g (m_threadLocalGlobals s) (arrays s) (instances s)) c)
  end.

Definition GetThreadLocalGlobal (name : string) (c : t) : option V :=
  match find_pending pendingThreadLocals name (m_activeTransactions c) with
  | Some v => Some v
  | None => m_threadLocalGlobals (committed c) !! name
  end.

Definition SetThreadLocalGlobal (name : string) (v : V) : st t bool := λ c,
  let s := committed c in
  match m_threadLocalGlobals s !! name with
  | Some previousValue =>
      match m_activeTransactions c with
      | tr :: l =>
          let tr := MkTransaction (mutexIds tr) (acquiredMutexIds tr) (priorGlobals tr) (pendingGlobals tr)
            (try_emplace name previousValue (priorThreadLocals tr)) (<[name := v]> (pendingThreadLocals tr))
            (priorArrayValues tr) (pendingArrayValues tr) (priorInstanceValues tr) (pendingInstanceValues tr) in
          Ok (true, set_transactions (tr :: l) c)
      | [] => Ok (true, set_committed (MkStore (m_globals s) (<[name := v]> (m_threadLocalGlobals s))
                                         (arrays s) (instances s)) c)
      end
  | None => Ok (false, c)
  end.

(** *** Arrays

    A null pointer is [None]; a pointer to an object that no longer exists
    cannot be followed. *)

Definition deref {A} (heap : gmap nat A) (p : nat) : result A :=
  match heap !! p with Some x => Ok x | None => Throw (undefined_behaviour "dangling pointer") end.

(** The elements an array has for this thread. *)
Definition array_view (array : nat) (c : t) : result (list V) :=
  match find_pending pendingArrayValues array (m_activeTransactions c) with
  | Some elements => Ok elements
  | None => deref (arrays (committed c)) array
  end.

Definition GetArraySize (array : option nat) (c : t) : result (option nat) :=
  match array with
  | None => Ok None
  | Some a => elements ← array_view a c; Ok (Some (length elements))
  end.

Definition GetArrayElement (array : option nat) (index : nat) (c : t) : result (option V) :=
  match array with
  | None => Ok None
  | Some a => elements ← array_view a c; Ok (elements !! index)
  end.

(** The maps of the top transaction for a write to the array [a]. *)
Definition set_array (a : nat) (prior pending : list V) (tr : ActiveTransaction) : ActiveTransaction :=
  MkTransaction (mutexIds tr) (acquiredMutexIds tr) (priorGlobals tr) (pendingGlobals tr)
    (priorThreadLocals tr) (pendingThreadLocals tr)
    (try_emplace a prior (priorArrayValues tr)) (<[a := pending]> (pendingArrayValues tr))
    (priorInstanceValues tr) (pendingInstanceValues tr).

(** [pendingArrayValues.at(array)] after [emplace(array, array->elements)]. *)
Definition own_elements (a : nat) (elements : list V) (tr : ActiveTransaction) : list V :=
  default elements (pendingArrayValues tr !! a).

Definition store_array (a : nat) (elements : list V) (c : t) : t :=
  let s := committed c in
  set_committed (MkStore (m_globals s) (m_threadLocalGlobals s) (<[a := elements]> (arrays s)) (instances s)) c.

(** The writes to arrays: [f] gives the new elements and the answer, or
    nothing when the write is refused. *)
Definition write_array (a : nat) (f : list V → option (list V)) : st t bool := λ c,
  elements ← deref (arrays (committed c)) a;
  match m_activeTransactions c with
  | tr :: l =>
      let pending := own_elements a elements tr in
      match f pending with
      | None => Ok (false, set_transactions (set_array a elements pending tr :: l) c)
      | Some pending' => Ok (true, set_transactions (set_array a elements pending' tr :: l) c)
      end
  | [] =>
      match f elements with
      | None => Ok (false, c)
      | Some elements' => Ok (true, store_array a elements' c)
      end
  end.

Definition SetArrayElement (array : option nat) (index : nat) (v : V) : st t bool :=
  match array with
  | None => mret false
  | Some a => write_array a (λ l, if decide (index < length l) then Some (<[index := v]> l) else None)
  end.

Definition PushArrayElement (array : option nat) (v : V) : st t bool :=
  match array with
  | None => mret false
  | Some a => write_array a (λ l, Some (l ++ [v]))
  end.

(** The popped value is the last element of [array_view]'s base. *)
Definition PopArrayElement (array : option nat) : st t (option V) :=
  match array with
  | None => mret None
  | Some a => λ c,
      elements ← deref (arrays (committed c)) a;
      let current := match m_activeTransactions c with
                     | tr :: _ => own_elements a elements tr
                     | [] => elements
                     end in
      '(_, c) ← write_array a (λ l, if decide (l = []) then None else Some (pop_back l)) c;
      Ok (last current, c)
  end.

Definition ReplaceArray (array : option nat) (new_elements : list V) : st t bool :=
  match array with
  | None => mret false
  | Some a => λ c,
      elements ← deref (arrays (committed c)) a;
      match m_activeTransactions c with
      | tr :: l => Ok (true, set_transactions (set_array a elements new_elements tr :: l) c)
      | [] => Ok (true, store_array a new_elements c)
      end
  end.

(** [RecordArrayWrite] *)
Definition RecordArrayWrite (array : option nat) : st t unit :=
  match array with
  | None => mret tt
  | Some a => λ c,
      match m_activeTransactions c with
      | [] => Ok (tt, c)
      | tr :: l =>
          elements ← deref (arrays (committed c)) a;
          let tr := MkTransaction (mutexIds tr) (acquiredMutexIds tr) (priorGlobals tr) (pendingGlobals tr)
            (priorThreadLocals tr) (pendingThreadLocals tr) (try_emplace a elements (priorArrayValues tr))
            (pendingArrayValues tr) (priorInstanceValues tr) (pendingInstanceValues tr) in
          Ok (tt, set_transactions (tr :: l) c)
      end
  end.

(** *** Instances *)

Definition pending_field (p : nat) (index : nat) (l : list ActiveTransaction) : option V :=
  find_pending (λ tr, default ∅ (pendingInstanceValues tr !! p)) index l.

Definition GetInstanceField (instance : option nat) (index : nat) (c : t) : result (option V) :=
  match instance with
  | None => Ok None
  | Some p =>
      fields ← deref (instances (committed c)) p;
      match fields !! index with
      | None => Ok None
      | Some v => Ok (Some (default v (pending_field p index (m_activeTransactions c))))
      end
  end.

(** [map[k][index] = v] and [map[k].try_emplace(index, v)] *)
Definition set_field (p index : nat) (v : V) (m : gmap nat (gmap nat V)) : gmap nat (gmap nat V) :=
  <[p := <[index := v]> (default ∅ (m !! p))]> m.
Definition try_field (p index : nat) (v : V) (m : gmap nat (gmap nat V)) : gmap nat (gmap nat V) :=
  <[p := try_emplace index v (default ∅ (m !! p))]> m.

Definition SetInstanceField (instance : option nat) (index : nat) (v : V) : st t bool :=
  match instance with
  | None => mret false
  | Some p => λ c,
      let s := committed c in
      fields ← deref (instances s) p;
      match fields !! index with
      | None => Ok (false, c)
      | Some previousValue =>
          match m_activeTransactions c with
          | tr :: l =>
              let tr := MkTransaction (mutexIds tr) (acquiredMutexIds tr) (priorGlobals tr) (pendingGlobals tr)
                (priorThreadLocals tr) (pendingThreadLocals tr) (priorArrayValues tr) (pendingArrayValues tr)
                (try_field p index previousValue (priorInstanceValues tr))
                (set_field p index v (pendingInstanceValues tr)) in
              Ok (true, set_transactions (tr :: l) c)
          | [] => Ok (true, set_committed (MkStore (m_globals s) (m_threadLocalGlobals s) (arrays s)
                                             (<[p := <[index := v]> fields]> (instances s))) c)
          end
      end
  end.

(** *** Beginning *)

(** [ctx_TryLockMutex] and [ctx_UnlockMutex] on the context. *)
Definition lift_sync (op : st Sync.t Sync.outcome) : st t bool := λ c,
  '((b, err), r) ← op (m_runtime c);
  let c := set_runtime r c in
  Ok (b, match err with Some msg => RaiseError msg c | None => c end).

Definition TryLockMutex (threadId mutexId : nat) : st t bool :=
  lift_sync (Sync.ctx_TryLockMutex threadId mutexId).
Definition UnlockMutex (threadId mutexId : nat) : st t bool :=
  lift_sync (Sync.ctx_UnlockMutex threadId mutexId).

(** [std::ranges::sort] and [unique]: the identifiers in increasing order. *)
Fixpoint insert_sorted (x : nat) (l : list nat) : list nat :=
  match l with
  | [] => [x]
  | y :: l' => if decide (x = y) then l else if x <? y then x :: l else y :: insert_sorted x l'
  end.
Definition sort_unique (l : list nat) : list nat := foldr insert_sorted [] l.

Definition held (c : t) : list nat := m_activeTransactions c ≫= mutexIds.

(** [UnlockMutex] of each, answers ignored. *)
Fixpoint unlock_each (ids : list nat) : st t unit :=
  match ids with
  | [] => mret tt
  | m :: ids => λ c, '(_, c) ← UnlockMutex (m_currentThreadId c) m c; unlock_each ids c
  end.

(** The loop over the requested mutexes; [acquired] has its back first. *)
Fixpoint acquire (requested : list nat) (acquired : list nat) : st t (option (list nat)) :=
  match requested with
  | [] => mret (Some (reverse acquired))
  | m :: requested => λ c,
      if decide (m ∈ held c) then acquire requested acquired c else
      '(locked, c) ← TryLockMutex (m_currentThreadId c) m c;
      if (locked : bool) then acquire requested (m :: acquired) c
      else '(_, c) ← unlock_each acquired c; Ok (None, c)
  end.

Definition new_transaction (ids acquired : list nat) : ActiveTransaction :=
  MkTransaction ids acquired ∅ ∅ ∅ ∅ ∅ ∅ ∅ ∅.

Definition BeginTransaction (mutexes : list (option nat)) : st t bool := λ c,
  if decide (mutexes = []) then Ok (false, RaiseError "Transaction requires at least one mutex handle" c)
  else if decide (None ∈ mutexes) then Ok (false, RaiseError "Expected a mutex handle for transaction" c)
  else
    let requested := sort_unique (omap id mutexes) in
    '(r, c) ← acquire requested [] c;
    match r with
    | None => Ok (false, c)
    | Some acquired =>
        Ok (true, set_transactions (new_transaction requested acquired :: m_activeTransactions c) c)
    end.

(** *** Ending *)

(** [if (find(l, x) == end) l.push_back(x)] for each. *)
Definition append_new (l new : list nat) : list nat :=
  foldl (λ l x, if decide (x ∈ l) then l else l ++ [x]) l new.

(** [try_emplace] and assignment of every entry of [m] into [parent]. *)
Definition emplace_all {K} `{Countable K} {A} (m parent : gmap K A) : gmap K A :=
  foldl (λ acc kv, try_emplace kv.1 kv.2 acc) parent (map_to_list m).
Definition assign_all {K} `{Countable K} {A} (m parent : gmap K A) : gmap K A :=
  foldl (λ acc kv, <[kv.1 := kv.2]> acc) parent (map_to_list m).

Definition emplace_fields (m parent : gmap nat (gmap nat V)) : gmap nat (gmap nat V) :=
  foldl (λ acc kv, <[kv.1 := emplace_all kv.2 (default ∅ (acc !! kv.1))]> acc) parent (map_to_list m).
Definition assign_fields (m parent : gmap nat (gmap nat V)) : gmap nat (gmap nat V) :=
  foldl (λ acc kv, <[kv.1 := assign_all kv.2 (default ∅ (acc !! kv.1))]> acc) parent (map_to_list m).

(** A nested transaction hands everything to its parent. *)
Definition merge_into (tr parent : ActiveTransaction) : ActiveTransaction :=
  MkTransaction
    (append_new (mutexIds parent) (mutexIds tr))
    (append_new (acquiredMutexIds parent) (acquiredMutexIds tr))
    (emplace_all (priorGlobals tr) (priorGlobals parent))
    (assign_all (pendingGlobals tr) (pendingGlobals parent))
    (emplace_all (priorThreadLocals tr) (priorThreadLocals parent))
    (assign_all (pendingThreadLocals tr) (pendingThreadLocals parent))
    (emplace_all (priorArrayValues tr) (priorArrayValues parent))
    (assign_all (pendingArrayValues tr) (pendingArrayValues parent))
    (emplace_fields (priorInstanceValues tr) (priorInstanceValues parent))
    (assign_fields (pendingInstanceValues tr) (pendingInstanceValues parent)).

(** The writes of a set of values to the store. *)
Definition write_globals (l : list (string * V)) (g : gmap string V) : gmap string V :=
  foldl (λ g kv, (runtime_set_global kv.1 kv.2 g).1) g l.

Fixpoint write_arrays (l : list (nat * list V)) (heap : gmap nat (list V)) : result (gmap nat (list V)) :=
  match l with
  | [] => Ok heap
  | (a, elements) :: l => _ ← deref heap a; write_arrays l (<[a := elements]> heap)
  end.

(** [if (index < fields.size()) fields[index] = value], for each. *)
Definition write_fields (values : gmap nat V) (fields : list V) : list V :=
  foldl (λ fs kv, <[kv.1 := kv.2]> fs) fields (map_to_list values).

Fixpoint write_instances (l : list (nat * gmap nat V)) (heap : gmap nat (list V))
    : result (gmap nat (list V)) :=
  match l with
  | [] => Ok heap
  | (p, values) :: l =>
      fields ← deref heap p; write_instances l (<[p := write_fields values fields]> heap)
  end.

(** The store after the values [globals], ... are written to it. *)
Definition write_store (globals threadLocals : gmap string V) (arrayValues : gmap nat (list V))
    (instanceValues : gmap nat (gmap nat V)) (s : store) : result store :=
  a ← write_arrays (map_to_list arrayValues) (arrays s);
  i ← write_instances (map_to_list instanceValues) (instances s);
  Ok (MkStore (write_globals (map_to_list globals) (m_globals s))
        (assign_all threadLocals (m_threadLocalGlobals s)) a i).

(** The last loop of [EndTransaction]. *)
Fixpoint unlock_all (ids : list nat) : st t bool :=
  match ids with
  | [] => mret true
  | m :: ids => λ c,
      '(ok, c) ← UnlockMutex (m_currentThreadId c) m c;
      if (ok : bool) then unlock_all ids c else Ok (false, c)
  end.

Definition EndTransaction : st t bool := λ c,
  match m_activeTransactions c with
  | [] => Ok (false, RaiseError "Transaction stack underflow" c)
  | tr :: parent :: l => Ok (true, set_transactions (merge_into tr parent :: l) c)
  | [tr] =>
      s ← write_store (pendingGlobals tr) (pendingThreadLocals tr) (pendingArrayValues tr)
            (pendingInstanceValues tr) (committed c);
      unlock_all (reverse (acquiredMutexIds tr)) (set_committed s (set_transactions [] c))
  end.

(** *** Unwinding *)

(** [m_runtime->UnlockMutex], which raises nothing. *)
Fixpoint runtime_unlock_each (ids : list nat) (threadId : nat) (r : Sync.t) : result Sync.t :=
  match ids with
  | [] => Ok r
  | m :: ids => '(_, r) ← Sync.UnlockMutex threadId m r; runtime_unlock_each ids threadId r
  end.

(** One round of the loop of [UnwindTransactions]. *)
Definition unwind_one (tr : ActiveTransaction) (c : t) : result t :=
  s ← write_store (priorGlobals tr) (priorThreadLocals tr) (priorArrayValues tr)
        (priorInstanceValues tr) (committed c);
  r ← runtime_unlock_each (reverse (acquiredMutexIds tr)) (m_currentThreadId c) (m_runtime c);
  Ok (set_runtime r (set_committed s c)).

Fixpoint unwind_loop (l : list ActiveTransaction) (base : nat) (c : t) : result t :=
  match l with
  | [] => Ok c
  | tr :: l' =>
      if decide (base < length l)
      then c ← unwind_one tr (set_transactions l' c); unwind_loop l' base c
      else Ok c
  end.

Definition UnwindTransactions (base : nat) : st t unit := λ c,
  c ← unwind_loop (m_activeTransactions c) base c; Ok (tt, c).

(** An array whose last reference goes away. *)
Definition destroy_array (a : nat) (c : t) : t :=
  let s := committed c in
  set_committed (MkStore (m_globals s) (m_threadLocalGlobals s) (delete a (arrays s)) (instances s)) c.

End transactions.
Arguments ActiveTransaction : clear implicits.
Arguments store : clear implicits.
Arguments t : clear implicits.
End Ctx.
