(* ===== verification/TransactionSpec.v ===== *)
(** * Transactions: views, isolation, commit, rollback and locks *)

From S2P Require Import Prelude SyncRuntime SyncSpec Transactions.
From Stdlib Require Import Lia Sorted.
Import Ctx.

(** ** The map loops *)

Section maps.
Context {K A : Type} `{Countable K}.
Implicit Types m parent : gmap K A.

Lemma assign_all_union m parent : assign_all m parent = m ∪ parent.
Proof.
  unfold assign_all. rewrite -{2}(list_to_map_to_list m).
  pose proof (NoDup_fst_map_to_list m) as Hnd. revert parent Hnd.
  generalize (map_to_list m). intros l. induction l as [|[k v] l IH]; intros parent; cbn.
  { intros _. by rewrite left_id_L. }
  rewrite NoDup_cons. intros [Hk Hl]. rewrite IH //. rewrite -insert_union_l insert_union_r //.
  by apply not_elem_of_list_to_map_1.
Qed.

Lemma try_emplace_union k v m : try_emplace k v m = m ∪ {[k := v]}.
Proof.
  unfold try_emplace. apply map_eq. intros j. rewrite lookup_union.
  destruct (m !! k) eqn:Hk; destruct (decide (j = k)) as [-> |]; rewrite ?Hk ?lookup_singleton_eq
    ?lookup_singleton_ne ?lookup_insert_eq ?lookup_insert_ne //; by destruct (m !! j).
Qed.

Lemma emplace_all_union m parent : emplace_all m parent = parent ∪ m.
Proof.
  unfold emplace_all. rewrite -{2}(list_to_map_to_list m).
  pose proof (NoDup_fst_map_to_list m) as Hnd. revert parent Hnd.
  generalize (map_to_list m). intros l. induction l as [|[k v] l IH]; intros parent; cbn.
  { intros _. by rewrite right_id_L. }
  rewrite NoDup_cons. intros [Hk Hl]. rewrite IH // try_emplace_union -assoc_L. f_equal.
  by rewrite insert_union_singleton_l.
Qed.

Lemma try_emplace_lookup k v m j :
  try_emplace k v m !! j = match m !! j with Some x => Some x | None => if decide (j = k) then Some v else None end.
Proof.
  rewrite try_emplace_union lookup_union. destruct (m !! j); [by destruct ({[k := v]} !! j)|].
  case_decide; [subst; by rewrite lookup_singleton_eq|by rewrite lookup_singleton_ne].
Qed.
End maps.

Lemma union_lookup_l {K A} `{Countable K} (m1 m2 : gmap K A) k :
  (m1 ∪ m2) !! k = match m1 !! k with Some x => Some x | None => m2 !! k end.
Proof. rewrite lookup_union. by destruct (m1 !! k), (m2 !! k). Qed.

Section views.
Context {V : Type}.
Implicit Types (tr : ActiveTransaction V) (l : list (ActiveTransaction V)) (c : t V) (s : store V).

Abbreviation fields_of m p := (default ∅ (m !! p) : gmap nat V).

Lemma assign_fields_lookup (m parent : gmap nat (gmap nat V)) p :
  fields_of (assign_fields m parent) p = fields_of m p ∪ fields_of parent p.
Proof.
  unfold assign_fields. rewrite -{2}(list_to_map_to_list m).
  pose proof (NoDup_fst_map_to_list m) as Hnd. revert parent Hnd.
  generalize (map_to_list m). intros k. induction k as [|[q fs] k IH]; intros parent; cbn.
  { intros _. by rewrite lookup_empty left_id_L. }
  rewrite NoDup_cons. intros [Hq Hk]. rewrite IH // assign_all_union.
  destruct (decide (p = q)) as [-> |].
  - rewrite !lookup_insert_eq (not_elem_of_list_to_map_1 k q) //= left_id_L //.
  - rewrite !lookup_insert_ne //.
Qed.

Lemma emplace_fields_lookup (m parent : gmap nat (gmap nat V)) p :
  fields_of (emplace_fields m parent) p = fields_of parent p ∪ fields_of m p.
Proof.
  unfold emplace_fields. rewrite -{2}(list_to_map_to_list m).
  pose proof (NoDup_fst_map_to_list m) as Hnd. revert parent Hnd.
  generalize (map_to_list m). intros k. induction k as [|[q fs] k IH]; intros parent; cbn.
  { intros _. by rewrite lookup_empty right_id_L. }
  rewrite NoDup_cons. intros [Hq Hk]. rewrite IH // emplace_all_union.
  destruct (decide (p = q)) as [-> |].
  - rewrite !lookup_insert_eq (not_elem_of_list_to_map_1 k q) //= right_id_L //.
  - rewrite !lookup_insert_ne //.
Qed.

(** ** What a program sees *)

(** Two contexts in which every read gives the same answer. *)
Record same_view (c c' : t V) : Prop := {
  sv_global n : GetGlobal n c' = GetGlobal n c;
  sv_local n : GetThreadLocalGlobal n c' = GetThreadLocalGlobal n c;
  sv_array a : array_view a c' = array_view a c;
  sv_field p i : GetInstanceField p i c' = GetInstanceField p i c;
}.

Lemma find_pending_merge {K A} `{Countable K} (f : ActiveTransaction V → gmap K A) k tr parent merged l :
  f merged = f tr ∪ f parent →
  find_pending f k (merged :: l) = find_pending f k (tr :: parent :: l).
Proof. intros Hf. cbn. rewrite Hf union_lookup_l. by destruct (f tr !! k). Qed.

Lemma nested_commit_spec tr parent l c :
  m_activeTransactions c = tr :: parent :: l →
  ∃ c', EndTransaction c = Ok (true, c') ∧ same_view c c' ∧ committed c' = committed c
    ∧ m_runtime c' = m_runtime c ∧ length (m_activeTransactions c') = S (length l).
Proof.
  intros Hc. unfold EndTransaction. rewrite Hc. eexists. split; [done|]. split; [|done].
  set (c' := set_transactions _ c).
  split.
  - intros n. unfold GetGlobal. rewrite Hc.
    rewrite (find_pending_merge pendingGlobals n tr parent) //. apply assign_all_union.
  - intros n. unfold GetThreadLocalGlobal. rewrite Hc.
    rewrite (find_pending_merge pendingThreadLocals n tr parent) //. apply assign_all_union.
  - intros a. unfold array_view. rewrite Hc.
    rewrite (find_pending_merge pendingArrayValues a tr parent) //. apply assign_all_union.
  - intros p i. unfold GetInstanceField, pending_field. destruct p as [p|]; [|done]. rewrite Hc.
    rewrite (find_pending_merge (λ tr, fields_of (pendingInstanceValues tr) p) i tr parent) //.
    apply assign_fields_lookup.
Qed.

(** ** Writing values to the store *)

Lemma write_globals_lookup (m g : gmap string V) n :
  write_globals (map_to_list m) g !! n = match g !! n with
                                         | Some old => Some (default old (m !! n))
                                         | None => None
                                         end.
Proof.
  rewrite -{2}(list_to_map_to_list m). pose proof (NoDup_fst_map_to_list m) as Hnd.
  revert g Hnd. unfold write_globals. generalize (map_to_list m). intros k.
  induction k as [|[q v] k IH]; intros g; cbn.
  { intros _. rewrite lookup_empty. by destruct (g !! n). }
  rewrite NoDup_cons. intros [Hq Hk]. rewrite IH //. unfold runtime_set_global.
  destruct (decide (n = q)) as [-> |].
  - rewrite lookup_insert_eq (not_elem_of_list_to_map_1 k q) //.
    destruct (g !! q) as [x|] eqn:Hgq; cbn; [by rewrite lookup_insert_eq|by rewrite Hgq].
  - rewrite lookup_insert_ne //. destruct (g !! q); cbn; [by rewrite lookup_insert_ne|done].
Qed.

Lemma write_arrays_spec (m heap : gmap nat (list V)) :
  (∀ a, is_Some (m !! a) → is_Some (heap !! a)) →
  write_arrays (map_to_list m) heap = Ok (m ∪ heap).
Proof.
  intros Hlive.
  assert (∀ k, NoDup k.*1 → (∀ a : nat, a ∈ k.*1 → is_Some (heap !! a)) →
    write_arrays k heap = Ok (list_to_map k ∪ heap)) as Hk.
  { intros k. clear Hlive m. revert heap. induction k as [|[a v] k IH]; intros heap; cbn.
    { intros _ _. by rewrite left_id_L. }
    rewrite NoDup_cons. intros [Ha Hnd] Hlive. destruct (Hlive a) as [x Hx]; [left|].
    unfold deref. rewrite Hx. cbn. rewrite IH //.
    - rewrite -insert_union_l insert_union_r //. by apply not_elem_of_list_to_map_1.
    - intros b Hb. rewrite lookup_insert_is_Some. destruct (decide (a = b)); [by left|right].
      split; [done|]. apply Hlive. by right. }
  rewrite Hk ?list_to_map_to_list //; [apply NoDup_fst_map_to_list|].
  intros a ([a' v] & -> & Hin%elem_of_map_to_list)%list_elem_of_fmap. apply Hlive. by eexists.
Qed.

Lemma write_fields_lookup (m : gmap nat V) (fields : list V) i :
  write_fields m fields !! i = match fields !! i with
                               | Some old => Some (default old (m !! i))
                               | None => None
                               end.
Proof.
  rewrite -{2}(list_to_map_to_list m). pose proof (NoDup_fst_map_to_list m) as Hnd.
  revert fields Hnd. unfold write_fields. generalize (map_to_list m). intros k.
  induction k as [|[q v] k IH]; intros fs; cbn.
  { intros _. rewrite lookup_empty. by destruct (fs !! i). }
  rewrite NoDup_cons. intros [Hq Hk]. rewrite IH //.
  destruct (decide (i = q)) as [-> |].
  - rewrite lookup_insert_eq (not_elem_of_list_to_map_1 k q) //=.
    destruct (fs !! q) as [x|] eqn:Hx.
    + rewrite list_lookup_insert_eq //. by eapply lookup_lt_Some.
    + rewrite list_insert_ge ?Hx //. by apply lookup_ge_None.
  - rewrite list_lookup_insert_ne // lookup_insert_ne //.
Qed.

Lemma write_instances_spec (m : gmap nat (gmap nat V)) (heap : gmap nat (list V)) :
  (∀ p, is_Some (m !! p) → is_Some (heap !! p)) →
  ∃ heap', write_instances (map_to_list m) heap = Ok heap'
    ∧ ∀ p, heap' !! p = write_fields (fields_of m p) <$> heap !! p.
Proof.
  intros Hlive.
  assert (∀ k, NoDup k.*1 → (∀ p : nat, p ∈ k.*1 → is_Some (heap !! p)) →
    ∃ heap', write_instances k heap = Ok heap'
      ∧ ∀ p, heap' !! p = write_fields (fields_of (list_to_map k : gmap nat (gmap nat V)) p) <$> heap !! p) as Hk.
  { intros k. clear Hlive m. revert heap. induction k as [|[q fs] k IH]; intros heap; cbn.
    { intros _ _. exists heap. split; [done|]. intros p. rewrite lookup_empty. cbn.
      unfold write_fields. rewrite map_to_list_empty. cbn. by destruct (heap !! p). }
    rewrite NoDup_cons. intros [Hq Hnd] Hlive. destruct (Hlive q) as [x Hx]; [left|].
    unfold deref. rewrite Hx. cbn.
    destruct (IH (<[q := write_fields fs x]> heap)) as (heap' & -> & Hh); [done| |].
    { intros p Hp. rewrite lookup_insert_is_Some. destruct (decide (q = p)); [by left|right].
      split; [done|]. apply Hlive. by right. }
    exists heap'. split; [done|]. intros p. rewrite Hh. destruct (decide (p = q)) as [-> |].
    - rewrite !lookup_insert_eq Hx (not_elem_of_list_to_map_1 k q) //.
    - rewrite !lookup_insert_ne //. }
  destruct (Hk (map_to_list m)) as (heap' & ? & Hh).
  - apply NoDup_fst_map_to_list.
  - intros p ([p' v] & -> & Hin%elem_of_map_to_list)%list_elem_of_fmap. apply Hlive. by eexists.
  - exists heap'. split; [done|]. intros p. by rewrite Hh list_to_map_to_list.
Qed.

(** The objects the values are for still exist. *)
Definition live_objects (av : gmap nat (list V)) (iv : gmap nat (gmap nat V)) s : Prop :=
  (∀ a, is_Some (av !! a) → is_Some (arrays s !! a))
  ∧ ∀ p, is_Some (iv !! p) → is_Some (instances s !! p).

Lemma live_objects_dom av iv s :
  dom av ⊆ dom (arrays s) ∧ dom iv ⊆ dom (instances s) ↔ live_objects av iv s.
Proof. unfold live_objects. setoid_rewrite elem_of_subseteq. by setoid_rewrite elem_of_dom. Qed.
#[global] Instance live_objects_dec av iv s : Decision (live_objects av iv s).
Proof.
  refine (cast_if (decide (dom av ⊆ dom (arrays s) ∧ dom iv ⊆ dom (instances s)))); by rewrite -live_objects_dom.
Defined.

Lemma write_arrays_gone (l : list (nat * list V)) (heap : gmap nat (list V)) a :
  NoDup l.*1 → a ∈ l.*1 → heap !! a = None →
  write_arrays l heap = Throw (undefined_behaviour "dangling pointer").
Proof.
  revert heap. induction l as [|[b v] l IH]; intros heap Hnd Hin Hheap; [by apply elem_of_nil in Hin|].
  cbn in Hnd, Hin |- *. apply NoDup_cons in Hnd as [Hb Hnd].
  unfold deref. destruct (heap !! b) as [x|] eqn:Hx; [cbn|done].
  apply elem_of_cons in Hin as [->|Hin]; [congruence|]. apply IH; try done.
  rewrite lookup_insert_ne //. intros ->. congruence.
Qed.

Lemma write_instances_gone (l : list (nat * gmap nat V)) (heap : gmap nat (list V)) p :
  NoDup l.*1 → p ∈ l.*1 → heap !! p = None →
  write_instances l heap = Throw (undefined_behaviour "dangling pointer").
Proof.
  revert heap. induction l as [|[q v] l IH]; intros heap Hnd Hin Hheap; [by apply elem_of_nil in Hin|].
  cbn in Hnd, Hin |- *. apply NoDup_cons in Hnd as [Hq Hnd].
  unfold deref. destruct (heap !! q) as [x|] eqn:Hx; [cbn|done].
  apply elem_of_cons in Hin as [->|Hin]; [congruence|]. apply IH; try done.
  rewrite lookup_insert_ne //. intros ->. congruence.
Qed.

Lemma dom_not_subseteq {A B} (m : gmap nat A) (m' : gmap nat B) :
  ¬ dom m ⊆ dom m' → ∃ k, k ∈ (map_to_list m).*1 ∧ m' !! k = None.
Proof.
  intros Hnot. destruct (set_choose_or_empty (dom m ∖ dom m')) as [[k [Hk1 Hk2]%elem_of_difference]|He].
  - exists k. split; [|by apply not_elem_of_dom]. apply elem_of_dom in Hk1 as [x Hx].
    apply list_elem_of_fmap. exists (k, x). by rewrite elem_of_map_to_list.
  - destruct Hnot. intros k Hk. destruct (decide (k ∈ dom m')); [done|]. set_solver.
Qed.

(** Values for an object that is gone cannot be written. *)
Lemma write_store_gone g tl av iv s :
  ¬ live_objects av iv s → write_store g tl av iv s = Throw (undefined_behaviour "dangling pointer").
Proof.
  intros Hgone. unfold write_store.
  destruct (decide (dom av ⊆ dom (arrays s))) as [Ha|Ha].
  - assert (∀ a, is_Some (av !! a) → is_Some (arrays s !! a)) as Ha'.
    { intros a. rewrite -!elem_of_dom. apply Ha. }
    rewrite (write_arrays_spec _ _ Ha'). cbn [mbind result_bind].
    destruct (decide (dom iv ⊆ dom (instances s))) as [Hi|Hi].
    { destruct Hgone. by apply live_objects_dom. }
    destruct (dom_not_subseteq _ _ Hi) as (p & Hp & Hnone).
    by rewrite (write_instances_gone _ _ p (NoDup_fst_map_to_list _) Hp Hnone).
  - destruct (dom_not_subseteq _ _ Ha) as (a & Hin & Hnone).
    by rewrite (write_arrays_gone _ _ a (NoDup_fst_map_to_list _) Hin Hnone).
Qed.

Lemma write_store_spec g tl av iv s :
  live_objects av iv s →
  ∃ s', write_store g tl av iv s = Ok s'
    ∧ (∀ n, m_globals s' !! n = match m_globals s !! n with
                                | Some old => Some (default old (g !! n)) | None => None end)
    ∧ m_threadLocalGlobals s' = tl ∪ m_threadLocalGlobals s
    ∧ arrays s' = av ∪ arrays s
    ∧ ∀ p, instances s' !! p = write_fields (fields_of iv p) <$> instances s !! p.
Proof.
  intros [Ha Hi]. unfold write_store. rewrite (write_arrays_spec _ _ Ha). cbn [mbind result_bind].
  destruct (write_instances_spec _ _ Hi) as (heap & -> & Hh). cbn [mbind result_bind].
  eexists. split; [done|]. cbn. split_and!; [|apply assign_all_union|done|done].
  intros n. apply write_globals_lookup.
Qed.

(** Values that the store already has. *)
Record agrees g tl av (iv : gmap nat (gmap nat V)) s : Prop := {
  ag_globals : g ⊆ m_globals s;
  ag_locals : tl ⊆ m_threadLocalGlobals s;
  ag_arrays : av ⊆ arrays s;
  ag_live p : is_Some (iv !! p) → is_Some (instances s !! p);
  ag_fields p fields i v : instances s !! p = Some fields →
    fields_of iv p !! i = Some v → fields !! i = Some v;
}.

Lemma subseteq_union_absorb {K A} `{Countable K} (m1 m2 : gmap K A) : m1 ⊆ m2 → m1 ∪ m2 = m2.
Proof.
  intros Hs. apply map_eq. intros k. rewrite union_lookup_l. destruct (m1 !! k) eqn:Hk; [|done].
  symmetry. by eapply lookup_weaken.
Qed.

Lemma write_agrees g tl av iv s : agrees g tl av iv s → write_store g tl av iv s = Ok s.
Proof.
  intros [Hg Htl Hav Hlv Hiv]. destruct (write_store_spec g tl av iv s) as (s' & -> & H1 & H2 & H3 & H4).
  { split; [|exact Hlv]. intros a [x Hx]. eexists. by eapply lookup_weaken. }
  f_equal. destruct s' as [g' tl' a' i'], s as [g0 tl0 a0 i0]. cbn in *. f_equal.
  - apply map_eq. intros n. rewrite H1. destruct (g0 !! n) eqn:Hn; [|done]. f_equal.
    destruct (g !! n) eqn:Hgn; [cbn|done]. pose proof (lookup_weaken _ _ _ _ Hgn Hg). congruence.
  - by rewrite H2 subseteq_union_absorb.
  - by rewrite H3 subseteq_union_absorb.
  - apply map_eq. intros p. rewrite H4. destruct (i0 !! p) as [fields|] eqn:Hp; [cbn|done]. f_equal.
    apply list_eq. intros i. rewrite write_fields_lookup. destruct (fields !! i) as [old|] eqn:Hi; [|done].
    f_equal. destruct (fields_of iv p !! i) as [v|] eqn:Hv; [cbn|done].
    pose proof (Hiv p fields i v Hp Hv). congruence.
Qed.

(** ** Locks *)

Abbreviation owner m c := (Sync.owner_of m (m_runtime c)).
Abbreviation thread_active c := (Sync.SyncHandleExistsLocked (m_currentThreadId c) (m_runtime c) = true).

Definition acquired_all (l : list (ActiveTransaction V)) : list nat := l ≫= acquiredMutexIds.

(** The mutexes of the transactions are this thread's; the others are as in
    the runtime [r0] before them. *)
Record locks_ok (r0 : Sync.t) c : Prop := {
  lo_ok : SyncSpec.ok (m_runtime c);
  lo_active : thread_active c;
  lo_nodup : NoDup (acquired_all (m_activeTransactions c));
  lo_owner m : owner m c = if decide (m ∈ acquired_all (m_activeTransactions c))
                           then Some (m_currentThreadId c) else Sync.owner_of m r0;
  lo_free m : m ∈ acquired_all (m_activeTransactions c) → Sync.owner_of m r0 = None;
}.

(** The parts of a context that locking leaves alone. *)
Record same_rest c c' : Prop := {
  sr_transactions : m_activeTransactions c' = m_activeTransactions c;
  sr_committed : committed c' = committed c;
  sr_thread : m_currentThreadId c' = m_currentThreadId c;
}.

#[local] Instance same_rest_preorder : PreOrder same_rest.
Proof. split; [by split|]. intros c1 c2 c3 [] []. split; by etrans. Qed.

Lemma RaiseError_rest msg c : same_rest c (RaiseError msg c) ∧ m_runtime (RaiseError msg c) = m_runtime c.
Proof. unfold RaiseError. by case_decide. Qed.

Lemma try_lock_spec m c :
  SyncSpec.ok (m_runtime c) → thread_active c →
  ∃ b c', TryLockMutex (m_currentThreadId c) m c = Ok (b, c') ∧ same_rest c c'
    ∧ SyncSpec.ok (m_runtime c') ∧ thread_active c'
    ∧ (if b then owner m c = None
              ∧ ∀ m', owner m' c' = if decide (m' = m) then Some (m_currentThreadId c) else owner m' c
       else ∀ m', owner m' c' = owner m' c).
Proof.
  intros Hok Hth. destruct (ctx_try_lock_ok _ m _ Hok Hth) as (b & e & r & Hr & Hok' & Hth' & Hown).
  unfold TryLockMutex, lift_sync. rewrite Hr. cbn [mbind result_bind].
  set (c' := match e with Some _ => _ | None => _ end).
  assert (same_rest c c' ∧ m_runtime c' = r) as [Hrest Hrt].
  { unfold c'. destruct e as [msg|]; [|done].
    destruct (RaiseError_rest msg (set_runtime r c)) as [[] ->]. done. }
  exists b, c'. rewrite Hrt (sr_thread _ _ Hrest). done.
Qed.

Lemma unlock_spec m c :
  SyncSpec.ok (m_runtime c) → thread_active c → owner m c = Some (m_currentThreadId c) →
  ∃ r, UnlockMutex (m_currentThreadId c) m c = Ok (true, set_runtime r c)
    ∧ SyncSpec.ok r ∧ Sync.SyncHandleExistsLocked (m_currentThreadId c) r = true
    ∧ ∀ m', Sync.owner_of m' r = if decide (m' = m) then None else owner m' c.
Proof.
  intros Hok Hth Ho. destruct (ctx_unlock_ok _ m _ Hok Hth Ho) as (r & Hr & ? & ? & ?).
  exists r. unfold UnlockMutex, lift_sync. rewrite Hr. done.
Qed.

(** What a loop of unlocks of owned mutexes achieves. *)
Definition released (ids : list nat) (th : nat) (r r' : Sync.t) : Prop :=
  SyncSpec.ok r' ∧ Sync.SyncHandleExistsLocked th r' = true
  ∧ ∀ m, Sync.owner_of m r' = if decide (m ∈ ids) then None else Sync.owner_of m r.

Lemma released_step m ids th r r1 r2 :
  (∀ m', Sync.owner_of m' r1 = if decide (m' = m) then None else Sync.owner_of m' r) →
  released ids th r1 r2 → released (m :: ids) th r r2.
Proof.
  intros H1 (? & ? & H2). unfold released. split_and!; [done..|]. intros m'. rewrite H2 H1.
  repeat case_decide; try done; set_solver.
Qed.

Lemma unlock_all_spec ids c :
  SyncSpec.ok (m_runtime c) → thread_active c → NoDup ids →
  (∀ m, m ∈ ids → owner m c = Some (m_currentThreadId c)) →
  ∃ r, unlock_all ids c = Ok (true, set_runtime r c)
    ∧ released ids (m_currentThreadId c) (m_runtime c) r.
Proof.
  revert c. induction ids as [|m ids IH]; intros c Hok Hth Hnd Hown; cbn.
  { exists (m_runtime c). split; [by destruct c|]. unfold released. split_and!; [done..|]. intros m. by destruct (decide (m ∈ [])); [set_solver|]. }
  apply NoDup_cons in Hnd as [Hm Hnd].
  destruct (unlock_spec m c Hok Hth (Hown m ltac:(left))) as (r1 & -> & Hok1 & Hth1 & Ho1). cbn.
  destruct (IH (set_runtime r1 c) Hok1 Hth1 Hnd) as (r2 & -> & Hrel).
  { intros m' Hm'. cbn. rewrite Ho1 decide_False; [|by intros ->]. apply Hown. by right. }
  exists r2. split; [done|]. by eapply released_step.
Qed.

Lemma unlock_each_spec ids c :
  SyncSpec.ok (m_runtime c) → thread_active c → NoDup ids →
  (∀ m, m ∈ ids → owner m c = Some (m_currentThreadId c)) →
  ∃ r, unlock_each ids c = Ok (tt, set_runtime r c)
    ∧ released ids (m_currentThreadId c) (m_runtime c) r.
Proof.
  revert c. induction ids as [|m ids IH]; intros c Hok Hth Hnd Hown; cbn.
  { exists (m_runtime c). split; [by destruct c|]. unfold released. split_and!; [done..|]. intros m. by destruct (decide (m ∈ [])); [set_solver|]. }
  apply NoDup_cons in Hnd as [Hm Hnd].
  destruct (unlock_spec m c Hok Hth (Hown m ltac:(left))) as (r1 & -> & Hok1 & Hth1 & Ho1). cbn.
  destruct (IH (set_runtime r1 c) Hok1 Hth1 Hnd) as (r2 & -> & Hrel).
  { intros m' Hm'. cbn. rewrite Ho1 decide_False; [|by intros ->]. apply Hown. by right. }
  exists r2. split; [done|]. by eapply released_step.
Qed.

Lemma runtime_unlock_each_spec ids th r :
  SyncSpec.ok r → Sync.SyncHandleExistsLocked th r = true → NoDup ids →
  (∀ m, m ∈ ids → Sync.owner_of m r = Some th) →
  ∃ r', runtime_unlock_each ids th r = Ok r' ∧ released ids th r r'.
Proof.
  revert r. induction ids as [|m ids IH]; intros r Hok Hth Hnd Hown; cbn.
  { exists r. split; [done|]. unfold released. split_and!; [done..|]. intros m. by destruct (decide (m ∈ [])); [set_solver|]. }
  apply NoDup_cons in Hnd as [Hm Hnd].
  destruct (runtime_unlock_ok th m r Hok Hth (Hown m ltac:(left))) as (r1 & -> & Hok1 & Hth1 & Ho1). cbn.
  destruct (IH r1 Hok1 Hth1 Hnd) as (r2 & -> & Hrel).
  { intros m' Hm'. rewrite Ho1 decide_False; [|by intros ->]. apply Hown. by right. }
  exists r2. split; [done|]. by eapply released_step.
Qed.

(** *** Acquiring *)

Record acquiring c0 (acquired : list nat) c : Prop := {
  aq_rest : same_rest c0 c;
  aq_ok : SyncSpec.ok (m_runtime c);
  aq_active : thread_active c;
  aq_nodup : NoDup acquired;
  aq_owner m : owner m c = if decide (m ∈ acquired) then Some (m_currentThreadId c0) else owner m c0;
  aq_free m : m ∈ acquired → owner m c0 = None;
}.

Lemma acquire_spec c0 requested acquired c :
  acquiring c0 acquired c →
  ∃ res c', acquire requested acquired c = Ok (res, c') ∧
  match res with
  | Some l => acquiring c0 l c'
      ∧ (∀ m, m ∈ acquired ∨ m ∈ requested → m ∈ l ∨ m ∈ held c0)
      ∧ (∀ m, m ∈ l → m ∈ acquired ∨ m ∈ requested ∧ m ∉ held c0)
  | None => same_rest c0 c' ∧ SyncSpec.ok (m_runtime c') ∧ thread_active c' ∧ ∀ m, owner m c' = owner m c0
  end.
Proof.
  revert acquired c. induction requested as [|m requested IH]; intros acquired c Ha; cbn.
  { eexists _, c. split; [done|]. destruct Ha as [H1 H2 H3 H4 H5 H6]. split_and!.
    - split; try done; [by rewrite reverse_Permutation| |].
      + intros m. rewrite H5. case_decide; case_decide; try done; by rewrite -> elem_of_reverse in *.
      + intros m Hm. apply H6. by rewrite elem_of_reverse in Hm.
    - intros m. rewrite elem_of_reverse. set_solver.
    - intros m. rewrite elem_of_reverse. set_solver. }
  pose proof Ha as [H1 H2 H3 H4 H5 H6].
  assert (held c = held c0) as Hh by (unfold held; by rewrite (sr_transactions _ _ H1)).
  rewrite Hh. case_decide as Hm.
  { destruct (IH acquired c Ha) as (res & c' & -> & Hres). exists res, c'. split; [done|].
    destruct res; [|done]. destruct Hres as (? & Hl1 & Hl2). split_and!; [done| |].
    - intros m' Hm'. destruct (decide (m' = m)) as [-> |]; [by right|]. apply Hl1. set_solver.
    - set_solver. }
  destruct (try_lock_spec m c H2 H3) as (b & c1 & -> & Hr & Hok & Hth & Hown). cbn. destruct b.
  - destruct Hown as [Hfree Hown].
    assert (m ∉ acquired) as Hnin.
    { intros Hin. rewrite H5 decide_True // in Hfree. }
    destruct (IH (m :: acquired) c1) as (res & c' & -> & Hres).
    { split; [by etrans|done|done|by apply NoDup_cons| |].
      - intros m'. rewrite Hown (sr_thread _ _ H1) H5.
        repeat case_decide; try done; set_solver.
      - intros m' [->|Hm']%elem_of_cons; [|by apply H6]. by rewrite H5 decide_False // in Hfree. }
    exists res, c'. split; [done|]. destruct res; [|done]. destruct Hres as (? & Hl1 & Hl2).
    split_and!; [done| |]; set_solver.
  - destruct (unlock_each_spec acquired c1 Hok Hth H4) as (r & -> & Hok' & Hth' & Hown').
    { intros m' Hm'. rewrite Hown H5 decide_True // -(sr_thread _ _ H1). symmetry.
      by rewrite (sr_thread _ _ Hr). }
    cbn. exists None, (set_runtime r c1). split; [done|]. split_and!; [|done|done|].
    + destruct H1, Hr. split; cbn; congruence.
    + intros m'. cbn. rewrite Hown' Hown H5. case_decide; [|done]. symmetry. by apply H6.
Qed.

Lemma insert_sorted_elem x (l : list nat) y : y ∈ insert_sorted x l ↔ y = x ∨ y ∈ l.
Proof.
  induction l as [|z l IH]; cbn -[Nat.ltb]; [set_solver|]. case_decide; [set_solver|].
  destruct (x <? z); set_solver.
Qed.

Lemma sort_unique_elem (l : list nat) y : y ∈ sort_unique l ↔ y ∈ l.
Proof. induction l as [|x l IH]; cbn; [done|]. rewrite insert_sorted_elem IH. set_solver. Qed.

(** Requested mutexes, each once, in increasing order. *)
Lemma insert_sorted_lt x (l : list nat) : StronglySorted lt l → StronglySorted lt (insert_sorted x l).
Proof.
  induction 1 as [|z l Hs IH Hall]; cbn -[Nat.ltb]; [by repeat constructor|]. case_decide as Hxz; [by constructor|].
  destruct (x <? z) eqn:Hlt.
  - apply Nat.ltb_lt in Hlt. constructor; [by constructor|]. constructor; [done|].
    eapply Forall_impl; [done|]. intros ? ?. lia.
  - apply Nat.ltb_ge in Hlt. constructor; [done|]. apply Forall_forall. intros y Hy.
    apply insert_sorted_elem in Hy as [->|Hy]; [lia|]. rewrite Forall_forall in Hall. by apply Hall.
Qed.

Lemma sort_unique_lt (l : list nat) : StronglySorted lt (sort_unique l).
Proof. induction l as [|x l IH]; cbn; [constructor|by apply insert_sorted_lt]. Qed.

Lemma sort_unique_requested mutexes m : m ∈ sort_unique (omap id mutexes) ↔ Some m ∈ mutexes.
Proof.
  rewrite sort_unique_elem list_elem_of_omap. split; [|intros; by exists (Some m)].
  by intros ([m'|] & ? & [= ->]).
Qed.

(** [BeginTransaction], with the transactions of [c] holding their locks. *)
Lemma begin_spec r0 mutexes c :
  locks_ok r0 c →
  ∃ b c', BeginTransaction mutexes c = Ok (b, c')
    ∧ committed c' = committed c ∧ m_currentThreadId c' = m_currentThreadId c
    ∧ locks_ok r0 c'
    ∧ if b then
        let ids := sort_unique (omap id mutexes) in
        ∃ acquired, m_activeTransactions c' = new_transaction ids acquired :: m_activeTransactions c
          ∧ (∀ m, m ∈ ids → m ∈ held c ∨ m ∈ acquired)
          ∧ (∀ m, m ∈ acquired → m ∈ ids ∧ owner m c = None)
          ∧ ∀ m, owner m c' = if decide (m ∈ acquired) then Some (m_currentThreadId c) else owner m c
      else m_activeTransactions c' = m_activeTransactions c ∧ ∀ m, owner m c' = owner m c.
Proof.
  intros Hl. pose proof Hl as [L1 L2 L3 L4 L5].
  assert (∀ msg, locks_ok r0 (RaiseError msg c)) as Hraise.
  { intros msg. destruct (RaiseError_rest msg c) as [[H1 H2 H3] H4].
    split; rewrite ?H4 ?H1 ?H3 //. }
  assert (∀ msg, ∃ b c', Ok (false, RaiseError msg c) = Ok (b, c')
    ∧ committed c' = committed c ∧ m_currentThreadId c' = m_currentThreadId c ∧ locks_ok r0 c'
    ∧ if b then False else m_activeTransactions c' = m_activeTransactions c ∧ ∀ m, owner m c' = owner m c)
    as Hfail.
  { intros msg. destruct (RaiseError_rest msg c) as [[H1 H2 H3] H4]. exists false, (RaiseError msg c).
    split_and!; try done. intros m. by rewrite H4. }
  unfold BeginTransaction.
  case_decide; [destruct (Hfail "Transaction requires at least one mutex handle") as ([] & c' & ?); naive_solver|].
  case_decide; [destruct (Hfail "Expected a mutex handle for transaction") as ([] & c' & ?); naive_solver|].
  destruct (acquire_spec c (sort_unique (omap id mutexes)) [] c) as (res & c1 & -> & Hres).
  { split; [done|done|done|apply NoDup_nil_2| |set_solver]. intros m.
    by destruct (decide (m ∈ [])); [set_solver|]. }
  cbn. destruct res as [acquired|].
  - destruct Hres as ([[A1 A2 A3] A4 A5 A6 A7 A8] & Hl1 & Hl2).
    eexists true, _. split; [done|]. split; [done|]. split; [done|].
    assert (∀ m, m ∈ acquired → m ∉ acquired_all (m_activeTransactions c)) as Hdisj.
    { intros m Hm Hin. specialize (A8 m Hm). rewrite L4 decide_True // in A8. }
    split.
    + split; cbn; rewrite ?A1 //.
      * apply NoDup_app. split_and!; [done|done|done].
      * intros m. rewrite A7 A3 L4. repeat case_decide; try done; set_solver.
      * intros m [Hm|Hm]%elem_of_app; [|by apply L5].
        specialize (A8 m Hm). by rewrite L4 decide_False // in A8; apply Hdisj.
    + exists acquired. rewrite A1. split_and!; [done| | |done].
      * intros m Hm. destruct (Hl1 m); auto.
      * intros m Hm. split; [|by apply A8]. destruct (Hl2 m Hm) as [?|[? _]]; [set_solver|done].
  - destruct Hres as ([A1 A2 A3] & A4 & A5 & A6). eexists false, c1. split; [done|].
    split; [done|]. split; [done|]. split; [|done]. split; rewrite ?A1 ?A3 //. 
    { by rewrite -A3. } intros m. by rewrite A6 L4.
Qed.

(** *** The order of the locks *)

Definition free (r : Sync.t) (m : nat) : Prop := Sync.m_mutexes r !! m = Some None.
#[local] Instance free_dec r m : Decision (free r m).
Proof. unfold free. apply _. Defined.

(** A thread locks, or unlocks, the mutexes of a list one after the other, each
    with success. *)
Inductive takes (th : nat) : list nat → Sync.t → Sync.t → Prop :=
  | takes_nil r : takes th [] r r
  | takes_cons m ids r r1 r2 :
      Sync.ctx_TryLockMutex th m r = Ok ((true, None), r1) → takes th ids r1 r2 → takes th (m :: ids) r r2.
Inductive gives_back (th : nat) : list nat → Sync.t → Sync.t → Prop :=
  | gives_back_nil r : gives_back th [] r r
  | gives_back_cons m ids r r1 r2 :
      Sync.ctx_UnlockMutex th m r = Ok ((true, None), r1) → gives_back th ids r1 r2 → gives_back th (m :: ids) r r2.

Lemma try_lock_free th m r :
  SyncSpec.ok r → Sync.SyncHandleExistsLocked th r = true → free r m →
  ∃ r', Sync.ctx_TryLockMutex th m r = Ok ((true, None), r') ∧ SyncSpec.ok r'
    ∧ Sync.SyncHandleExistsLocked th r' = true
    ∧ (∀ m', Sync.owner_of m' r' = if decide (m' = m) then Some th else Sync.owner_of m' r)
    ∧ ∀ m', m' ≠ m → free r' m' ↔ free r m'.
Proof.
  intros Hok Hth Hm. pose proof (ctx_try_lock_spec th m r Hok Hth) as H. unfold free in Hm. rewrite Hm in H.
  destruct H as (r' & E & Hok' & Hown). exists r'. split_and!; try done.
  - apply (owner_active m _ _ (ok_coherent _ Hok')). by rewrite Hown decide_True.
  - assert (Sync.m_mutexes r' = <[m := Some th]> (Sync.m_mutexes r)) as Hmut.
    + revert E. assert (Sync.owner_of m r = None) as Ho by (unfold Sync.owner_of; by rewrite Hm).
      assert (Sync.MutexExistsLocked m r = true) as Hex
        by (unfold Sync.MutexExistsLocked; rewrite Hm; by apply bool_decide_eq_true; eauto).
      unfold Sync.ctx_TryLockMutex. run_with (active_run th r). rewrite Hth. cbn [negb].
      run_with (mutex_run m r). rewrite Hex. cbn [negb]. run_with (owner_run m r). rewrite Ho.
      unfold Sync.TryLockMutex. unfold mbind, st_bind. rewrite Hth Hex Ho. cbn. by intros [= <-].
    + intros m' Hne. unfold free. by rewrite Hmut lookup_insert_ne.
Qed.

Lemma try_lock_refused th m r :
  SyncSpec.ok r → Sync.SyncHandleExistsLocked th r = true → ¬ free r m →
  ∃ err r', Sync.ctx_TryLockMutex th m r = Ok ((false, err), r').
Proof.
  intros Hok Hth Hm. pose proof (ctx_try_lock_spec th m r Hok Hth) as H. unfold free in Hm.
  destruct (Sync.m_mutexes r !! m) as [[o|]|]; [|done|by eauto].
  case_decide; [by eauto|]. destruct H as [[_ H]|(_ & _ & H)]; eauto.
Qed.

Lemma takes_free th ids r r' : SyncSpec.ok r → Sync.SyncHandleExistsLocked th r = true → takes th ids r r' →
  NoDup ids → ∀ m, m ∈ ids → free r m.
Proof.
  intros Hok Hth Ht. induction Ht as [|m ids r r1 r2 E _ IH]; intros Hnd x Hx; [by apply elem_of_nil in Hx|].
  apply NoDup_cons in Hnd as [Hm Hnd]. destruct (decide (free r m)) as [Hf|Hf].
  - destruct (try_lock_free th m r Hok Hth Hf) as (r1' & E' & Hok1 & Hth1 & _ & Hother).
    rewrite E in E'. injection E' as <-. apply elem_of_cons in Hx as [->|Hx]; [done|].
    apply (Hother x); [by intros ->|]. by apply IH.
  - destruct (try_lock_refused th m r Hok Hth Hf) as (err & r' & E'). congruence.
Qed.

Lemma unlock_each_gives ids c :
  SyncSpec.ok (m_runtime c) → thread_active c → NoDup ids →
  (∀ m, m ∈ ids → owner m c = Some (m_currentThreadId c)) →
  ∃ r, unlock_each ids c = Ok (tt, set_runtime r c) ∧ gives_back (m_currentThreadId c) ids (m_runtime c) r.
Proof.
  revert c. induction ids as [|m ids IH]; intros c Hok Hth Hnd Hown; cbn.
  { exists (m_runtime c). split; [by destruct c|constructor]. }
  apply NoDup_cons in Hnd as [Hm Hnd].
  destruct (ctx_unlock_ok _ m _ Hok Hth (Hown m ltac:(left))) as (r1 & E & Hok1 & Hth1 & Ho1).
  unfold UnlockMutex, lift_sync. rewrite E. cbn.
  destruct (IH (set_runtime r1 c) Hok1 Hth1 Hnd) as (r2 & -> & Hg).
  { intros m' Hm'. cbn. rewrite Ho1 decide_False; [|by intros ->]. apply Hown. by right. }
  exists r2. split; [done|]. by econstructor.
Qed.

(** The error of a lock, if it has one, on the context. *)
Definition blame (err : option string) c : t V := match err with Some msg => RaiseError msg c | None => c end.

(** The loop takes the mutexes that it needs in the order of its list, up to the
    first that it does not get. *)
Lemma acquire_order requested acquired c :
  SyncSpec.ok (m_runtime c) → thread_active c → NoDup requested →
  let needed := filter (λ m, m ∉ held c) requested in
  (∃ r, takes (m_currentThreadId c) needed (m_runtime c) r
     ∧ acquire requested acquired c = Ok (Some (reverse acquired ++ needed), set_runtime r c))
  ∨ ∃ before m after r1 err r2, needed = before ++ m :: after
     ∧ takes (m_currentThreadId c) before (m_runtime c) r1 ∧ ¬ free (m_runtime c) m
     ∧ Sync.ctx_TryLockMutex (m_currentThreadId c) m r1 = Ok ((false, err), r2)
     ∧ acquire requested acquired c =
         '(_, c) ← unlock_each (reverse before ++ acquired) (blame err (set_runtime r2 c)); Ok (None, c).
Proof.
  revert acquired c. induction requested as [|m requested IH]; intros acquired c Hok Hth Hnd; cbn [acquire]; cbv zeta.
  { left. exists (m_runtime c). split; [constructor|]. rewrite app_nil_r. by destruct c. }
  apply NoDup_cons in Hnd as [Hm Hnd]. rewrite filter_cons.
  destruct (decide (m ∈ held c)) as [Hh|Hh].
  { rewrite decide_False; [|by intros []]. exact (IH acquired c Hok Hth Hnd). }
  rewrite decide_True //. unfold TryLockMutex, lift_sync.
  destruct (decide (free (m_runtime c) m)) as [Hf|Hf].
  - destruct (try_lock_free _ m _ Hok Hth Hf) as (r1 & E & Hok1 & Hth1 & _ & Hother). rewrite E. cbn.
    destruct (IH (m :: acquired) (set_runtime r1 c) Hok1 Hth1 Hnd)
      as [(r & Ht & Ha)|(before & m' & after & r1' & err & r2 & Hn & Ht & Hf' & E' & Ha)].
    + left. exists r. split; [by econstructor|]. rewrite Ha. by rewrite reverse_cons -app_assoc.
    + right. exists (m :: before), m', after, r1', err, r2. split_and!; [by rewrite Hn|by econstructor| |done|].
      * cbn in Hf'. rewrite -(Hother m'); [done|]. intros ->.
        assert (m ∈ filter (λ m, m ∉ held c) requested) as Hin by (rewrite Hn; set_solver).
        by apply list_elem_of_filter in Hin as [_ ?].
      * rewrite Ha. by rewrite reverse_cons -app_assoc.
  - right. destruct (try_lock_refused _ m _ Hok Hth Hf) as (err & r2 & E).
    exists [], m, (filter (λ m, m ∉ held c) requested), (m_runtime c), err, r2. split_and!; [done|constructor|done|done|]. rewrite E. done.
Qed.

Lemma StronglySorted_lt_NoDup (l : list nat) : StronglySorted lt l → NoDup l.
Proof.
  induction 1 as [|x l _ IH Hx]; constructor; [|done]. intros Hin. rewrite Forall_forall in Hx. specialize (Hx x Hin). lia.
Qed.

(** What beginning a transaction did to the locks, in its order: the mutexes that
    it needs, all of them, or those before the first that is not free, which are
    given back in the opposite order after the attempt at this one. *)
Definition locked_in_order (needed : list nat) (b : bool) c c' : Prop :=
  let th := m_currentThreadId c in
  if b then takes th needed (m_runtime c) (m_runtime c')
  else ∃ before m after r1 err r2, needed = before ++ m :: after ∧ takes th before (m_runtime c) r1
    ∧ ¬ free (m_runtime c) m ∧ Sync.ctx_TryLockMutex th m r1 = Ok ((false, err), r2)
    ∧ gives_back th (reverse before) r2 (m_runtime c')
    ∧ m_errorMessage c' = m_errorMessage (blame err c).

Lemma blame_rest err c : same_rest c (blame err c) ∧ m_runtime (blame err c) = m_runtime c.
Proof. destruct err as [msg|]; [apply RaiseError_rest|by split]. Qed.
Lemma blame_runtime err r c : blame err (set_runtime r c) = set_runtime r (blame err c).
Proof. destruct err as [msg|]; [|done]. cbn. unfold RaiseError. cbn. by case_decide. Qed.

Lemma takes_ok th ids r r' : SyncSpec.ok r → Sync.SyncHandleExistsLocked th r = true → takes th ids r r' →
  NoDup ids → SyncSpec.ok r' ∧ Sync.SyncHandleExistsLocked th r' = true
  ∧ ∀ m, Sync.owner_of m r' = if decide (m ∈ ids) then Some th else Sync.owner_of m r.
Proof.
  intros Hok Hth Ht. induction Ht as [r|m ids r r1 r2 E _ IH]; intros Hnd.
  { split_and!; [done..|]. intros m. by destruct (decide (m ∈ [])); [set_solver|]. }
  apply NoDup_cons in Hnd as [Hm Hnd].
  assert (free r m) as Hf.
  { destruct (decide (free r m)); [done|]. destruct (try_lock_refused th m r) as (? & ? & ?); [done..|congruence]. }
  destruct (try_lock_free th m r Hok Hth Hf) as (r1' & E' & Hok1 & Hth1 & Hown & _). rewrite E in E'. injection E' as <-.
  destruct (IH Hok1 Hth1 Hnd) as (? & ? & Ho). split_and!; [done..|].
  intros x. rewrite Ho Hown. repeat case_decide; try done; set_solver.
Qed.

Lemma begin_order mutexes c :
  SyncSpec.ok (m_runtime c) → thread_active c → mutexes ≠ [] → None ∉ mutexes →
  let ids := sort_unique (omap id mutexes) in
  let needed := filter (λ m, m ∉ held c) ids in
  ∃ b c', BeginTransaction mutexes c = Ok (b, c') ∧ locked_in_order needed b c c'
    ∧ (b = true ↔ Forall (free (m_runtime c)) needed)
    ∧ (b = true → m_activeTransactions c' = new_transaction ids needed :: m_activeTransactions c).
Proof.
  intros Hok Hth Hne Hnone ids needed.
  assert (NoDup ids) as Hids by apply StronglySorted_lt_NoDup, sort_unique_lt.
  assert (NoDup needed) as Hnd by by apply NoDup_filter.
  unfold BeginTransaction. rewrite decide_False // decide_False // -/ids.
  destruct (acquire_order ids [] c Hok Hth Hids) as [(r & Ht & ->)|(before & m & after & r1 & err & r2 & Hn & Ht & Hf & E & ->)];
    cbv zeta in *; fold needed in Ht || fold needed in Hn.
  - fold needed. cbn. eexists true, _. split; [done|]. split_and!; [done| |done].
    split; [intros _|done]. apply Forall_forall. by apply (takes_free _ _ _ _ Hok Hth Ht).
  - assert (NoDup before) as Hb by (rewrite Hn in Hnd; by apply NoDup_app in Hnd as [? _]).
    destruct (takes_ok _ _ _ _ Hok Hth Ht Hb) as (Hok1 & Hth1 & Hown1).
    destruct (ctx_try_lock_ok _ m _ Hok1 Hth1) as (b & e & r2' & E' & Hok2 & Hth2 & Hown2).
    rewrite E in E'. injection E' as <- <- <-. destruct (blame_rest err c) as [[Hr1 Hr2 Hr3] Hr4].
    destruct (unlock_each_gives (reverse before) (blame err (set_runtime r2 c))) as (r3 & E3 & Hg).
    + by rewrite blame_runtime.
    + rewrite blame_runtime. cbn. by rewrite Hr3.
    + by rewrite reverse_Permutation.
    + intros x Hx. rewrite -> elem_of_reverse in Hx. rewrite blame_runtime. cbn. by rewrite Hr3 Hown2 Hown1 decide_True.
    + rewrite app_nil_r E3. cbn. eexists false, _. split; [done|].
      rewrite blame_runtime in Hg |- *. cbn in Hg |- *. rewrite Hr3 in Hg. split_and!; [|split; [done|]|done].
      * exists before, m, after, r1, err, r2. split_and!; done.
      * intros H. exfalso. apply Hf. rewrite Forall_forall in H. apply H. rewrite Hn. set_solver.
Qed.

(** ** Merging *)

Lemma append_new_app (l k : list nat) : NoDup k → (∀ x, x ∈ k → x ∉ l) → append_new l k = l ++ k.
Proof.
  intros Hnd. unfold append_new. revert l. induction Hnd as [|x k Hx Hnd IH]; intros l Hd; cbn.
  { by rewrite app_nil_r. }
  rewrite decide_False; [|apply Hd; left]. rewrite IH -?app_assoc //.
  intros y Hy. rewrite not_elem_of_app. split; [apply Hd; by right|]. set_solver.
Qed.

Lemma merge_locks r0 tr parent l c :
  m_activeTransactions c = tr :: parent :: l → locks_ok r0 c →
  locks_ok r0 (set_transactions (merge_into tr parent :: l) c).
Proof.
  intros Hc [L1 L2 L3 L4 L5]. rewrite Hc in L3, L4, L5. cbn in L3, L4, L5.
  pose proof L3 as (Hn1 & Hd1 & (Hn2 & Hd2 & Hn3)%NoDup_app)%NoDup_app.
  assert (append_new (acquiredMutexIds parent) (acquiredMutexIds tr)
    = acquiredMutexIds parent ++ acquiredMutexIds tr) as Happ.
  { apply append_new_app; [done|]. intros x Hx Hin. apply (Hd1 x Hx). set_solver. }
  assert (acquired_all (merge_into tr parent :: l)
    ≡ₚ acquiredMutexIds tr ++ acquiredMutexIds parent ++ acquired_all l) as Hperm.
  { unfold acquired_all at 1. cbn. rewrite Happ. by rewrite (Permutation_app_comm (acquiredMutexIds parent)) -app_assoc. }
  split; cbn [m_runtime m_activeTransactions m_currentThreadId set_transactions]; try done.
  - by rewrite Hperm.
  - intros m. rewrite L4. repeat case_decide; try done; rewrite -> Hperm in *; done.
  - intros m Hm. apply L5. by rewrite Hperm in Hm.
Qed.

(** ** The outermost commit *)

Lemma outer_commit_spec r0 tr c :
  m_activeTransactions c = [tr] → locks_ok r0 c →
  live_objects (pendingArrayValues tr) (pendingInstanceValues tr) (committed c) →
  ∃ c', EndTransaction c = Ok (true, c') ∧ m_activeTransactions c' = []
    ∧ (∀ n, GetGlobal n c' = match m_globals (committed c) !! n with
                             | Some _ => GetGlobal n c | None => None end)
    ∧ (∀ n, GetThreadLocalGlobal n c' = GetThreadLocalGlobal n c)
    ∧ (∀ a, array_view a c' = array_view a c)
    ∧ (∀ p i, GetInstanceField p i c' = GetInstanceField p i c)
    ∧ ∀ m, owner m c' = Sync.owner_of m r0.
Proof.
  intros Hc [L1 L2 L3 L4 L5] Hlive. rewrite Hc in L3, L4. cbn in L3, L4. rewrite app_nil_r in L3.
  unfold EndTransaction. rewrite Hc.
  destruct (write_store_spec (pendingGlobals tr) (pendingThreadLocals tr) _ _ _ Hlive)
    as (s & -> & H1 & H2 & H3 & H4).
  cbn [mbind result_bind].
  destruct (unlock_all_spec (reverse (acquiredMutexIds tr)) (set_committed s (set_transactions [] c)))
    as (r & -> & _ & _ & Hrel); try done.
  { by rewrite reverse_Permutation. }
  { intros m. rewrite elem_of_reverse. intros Hm. cbn. rewrite L4 decide_True //. set_solver. }
  eexists. split; [done|]. split; [done|]. split_and!.
  - intros n. unfold GetGlobal. rewrite Hc. cbn. rewrite H1. destruct (m_globals (committed c) !! n); [|done].
    by destruct (pendingGlobals tr !! n).
  - intros n. unfold GetThreadLocalGlobal. rewrite Hc. cbn. rewrite H2 union_lookup_l.
    by destruct (pendingThreadLocals tr !! n).
  - intros a. unfold array_view, deref. rewrite Hc. cbn. rewrite H3 union_lookup_l.
    by destruct (pendingArrayValues tr !! a).
  - intros [p|] i; [|done]. unfold GetInstanceField, deref, pending_field. rewrite Hc. cbn. rewrite H4.
    destruct (instances (committed c) !! p) as [fs|]; [cbn|done]. rewrite write_fields_lookup.
    destruct (fs !! i); [|done]. by destruct (default ∅ _ !! i).
  - intros m. cbn. rewrite Hrel. cbn. case_decide as Hm; rewrite elem_of_reverse in Hm.
    + symmetry. apply L5. rewrite Hc. cbn. set_solver.
    + rewrite L4 decide_False //. set_solver.
Qed.

Lemma outer_commit_dangling tr c :
  m_activeTransactions c = [tr] →
  ¬ live_objects (pendingArrayValues tr) (pendingInstanceValues tr) (committed c) →
  EndTransaction c = Throw (undefined_behaviour "dangling pointer").
Proof. intros Hc Hd. unfold EndTransaction. by rewrite Hc write_store_gone. Qed.

(** ** Inside a transaction *)

Definition priors_agree s tr : Prop :=
  agrees (priorGlobals tr) (priorThreadLocals tr) (priorArrayValues tr) (priorInstanceValues tr) s.

(** Nothing is published: the store is still [s0], and the saved values are
    the store's. *)
Record inside (r0 : Sync.t) (s0 : store V) c : Prop := {
  in_locks : locks_ok r0 c;
  in_store : committed c = s0;
  in_priors : Forall (priors_agree s0) (m_activeTransactions c);
}.

Lemma unwind_loop_spec r0 s0 base c l :
  inside r0 s0 c → m_activeTransactions c = l →
  ∃ c', unwind_loop l base c = Ok c' ∧ inside r0 s0 c'
    ∧ m_activeTransactions c' = drop (length l - base) l.
Proof.
  revert c. induction l as [|tr l IH]; intros c Hin Hl; cbn [unwind_loop].
  { exists c. by rewrite drop_nil. }
  case_decide as Hb.
  2: { exists c. rewrite (_ : length (tr :: l) - base = 0); [done|lia]. }
  destruct Hin as [[L1 L2 L3 L4 L5] Hs Hp]. rewrite Hl in L3, L4, L5, Hp. cbn in L3, L4, L5.
  apply Forall_cons in Hp as [Htr Hp]. apply NoDup_app in L3 as (Hn1 & Hd & Hn2).
  unfold unwind_one. cbn [committed set_transactions m_currentThreadId m_runtime].
  rewrite Hs (write_agrees _ _ _ _ _ Htr). cbn [mbind result_bind].
  destruct (runtime_unlock_each_spec (reverse (acquiredMutexIds tr)) (m_currentThreadId c) (m_runtime c))
    as (r & -> & Hok & Hth & Hrel); [done|done|by rewrite reverse_Permutation| |].
  { intros m. rewrite elem_of_reverse. intros Hm. rewrite L4 decide_True //. set_solver. }
  cbn [mbind result_bind].
  set (c1 := set_runtime r _). destruct (IH c1) as (c' & -> & Hin' & Hl'); [|done|].
  - split; [|done|done]. split; cbn; try done.
    + intros m. rewrite Hrel L4. pose proof (L5 m) as Hf.
      repeat case_decide; try done; rewrite -> ?elem_of_reverse in *;
        [by exfalso; eapply Hd|symmetry; apply Hf; set_solver|set_solver|set_solver].
    + intros m Hm. apply L5. set_solver.
  - exists c'. split; [done|]. split; [done|]. rewrite Hl'.
    by rewrite (_ : length (tr :: l) - base = S (length l - base)); [|cbn in *; lia].
Qed.

Lemma agrees_union_globals g g' tl tl' av av' iv iv' iv'' s :
  agrees g tl av iv s → agrees g' tl' av' iv' s →
  (∀ p, default ∅ (iv'' !! p) = default ∅ (iv !! p) ∪ default ∅ (iv' !! p)) →
  (∀ p, is_Some (iv'' !! p) → is_Some (iv !! p) ∨ is_Some (iv' !! p)) →
  agrees (g ∪ g') (tl ∪ tl') (av ∪ av') iv'' s.
Proof.
  intros [A1 A2 A3 A4 A5] [B1 B2 B3 B4 B5] Hf Hs. split; [by apply map_union_least..| |].
  - intros p Hp. destruct (Hs p Hp); auto.
  - intros p fs i v Hfs. rewrite Hf union_lookup_l.
    destruct (fields_of iv p !! i) eqn:E; [intros [= ->]; by eapply A5|by apply B5].
Qed.

Lemma emplace_fields_dom (m parent : gmap nat (gmap nat V)) p :
  is_Some (emplace_fields m parent !! p) → is_Some (parent !! p) ∨ is_Some (m !! p).
Proof.
  unfold emplace_fields. rewrite -{2}(list_to_map_to_list m).
  generalize (map_to_list m). intros k. revert parent. induction k as [|[q fs] k IH]; intros parent; cbn.
  { by left. }
  intros [Hp|Hp]%IH.
  - destruct (decide (p = q)) as [-> |]; [right; rewrite lookup_insert_eq; by eexists|].
    rewrite lookup_insert_ne // in Hp. by left.
  - destruct (decide (p = q)) as [-> |]; [right; rewrite lookup_insert_eq; by eexists|].
    right. by rewrite lookup_insert_ne.
Qed.

Lemma merge_agree s tr parent :
  priors_agree s tr → priors_agree s parent → priors_agree s (merge_into tr parent).
Proof.
  unfold priors_agree. intros Ht Hp. cbn. rewrite !emplace_all_union.
  eapply agrees_union_globals; [done|done|apply emplace_fields_lookup|apply emplace_fields_dom].
Qed.

Lemma try_emplace_subseteq {K A} `{Countable K} (m m0 : gmap K A) k v :
  m ⊆ m0 → m0 !! k = Some v → try_emplace k v m ⊆ m0.
Proof.
  intros Hm Hk. apply map_subseteq_spec. intros j x. rewrite try_emplace_lookup.
  destruct (m !! j) eqn:Hj; [intros [= <-]; by eapply lookup_weaken|]. case_decide; naive_solver.
Qed.

(** The operations of a program inside a transaction. *)
Inductive op :=
  | op_global (name : string) (v : V)
  | op_local (name : string) (v : V)
  | op_set (array : option nat) (index : nat) (v : V)
  | op_push (array : option nat) (v : V)
  | op_pop (array : option nat)
  | op_replace (array : option nat) (elements : list V)
  | op_record (array : option nat)
  | op_field (instance : option nat) (index : nat) (v : V)
  | op_begin (mutexes : list (option nat))
  | op_end
  | op_unwind (base : nat).

Definition exec (o : op) c : result (t V) :=
  match o with
  | op_global n v => snd <$> SetGlobal n v c
  | op_local n v => snd <$> SetThreadLocalGlobal n v c
  | op_set a i v => snd <$> SetArrayElement a i v c
  | op_push a v => snd <$> PushArrayElement a v c
  | op_pop a => snd <$> PopArrayElement a c
  | op_replace a l => snd <$> ReplaceArray a l c
  | op_record a => snd <$> RecordArrayWrite a c
  | op_field p i v => snd <$> SetInstanceField p i v c
  | op_begin ms => snd <$> BeginTransaction ms c
  | op_end => snd <$> EndTransaction c
  | op_unwind base => snd <$> UnwindTransactions base c
  end.

(** A write in the top transaction keeps its locks. *)
Lemma inside_top r0 s0 tr tr' l c :
  inside r0 s0 c → m_activeTransactions c = tr :: l →
  acquiredMutexIds tr' = acquiredMutexIds tr → (priors_agree s0 tr → priors_agree s0 tr') →
  inside r0 s0 (set_transactions (tr' :: l) c).
Proof.
  intros [[L1 L2 L3 L4 L5] Hs Hp] Hc Hacq Hag. rewrite Hc in L3, L4, L5, Hp.
  assert (acquired_all (tr' :: l) = acquired_all (tr :: l)) as Hall by (cbn; by rewrite Hacq).
  split; [|done|].
  - split; cbn [m_runtime m_activeTransactions m_currentThreadId set_transactions]; rewrite ?Hall //.
  - apply Forall_cons in Hp as [? ?]. constructor; auto.
Qed.

Lemma array_agree s a elements pending tr :
  arrays s !! a = Some elements → priors_agree s tr → priors_agree s (set_array a elements pending tr).
Proof. intros Ha [H1 H2 H3 H4 H5]. split; try done. by apply try_emplace_subseteq. Qed.

Lemma write_array_inside r0 s0 a f c b c' :
  inside r0 s0 c → m_activeTransactions c ≠ [] → write_array a f c = Ok (b, c') → inside r0 s0 c'.
Proof.
  intros Hin Hne. unfold write_array, deref. rewrite (in_store _ _ _ Hin).
  destruct (arrays s0 !! a) as [elements|] eqn:Ha; [cbn|done].
  destruct (m_activeTransactions c) as [|tr l] eqn:Hc; [done|].
  destruct (f _) as [p|]; intros [= _ <-];
    (eapply inside_top; [done..|intros; by apply array_agree]).
Qed.

Lemma exec_inside r0 s0 o c c' :
  inside r0 s0 c → m_activeTransactions c ≠ [] →
  (o = op_end → 2 ≤ length (m_activeTransactions c)) →
  exec o c = Ok c' → inside r0 s0 c'.
Proof.
  intros Hin Hne Hend Hex. pose proof (in_store _ _ _ Hin) as Hs.
  destruct (m_activeTransactions c) as [|tr l] eqn:Hc; [done|].
  destruct o as [n v|n v|a i v|a v|a|a k|a|p i v|ms| |base]; cbn in Hex.
  - unfold SetGlobal in Hex. rewrite Hc in Hex. cbn in Hex. simplify_eq.
    eapply inside_top; [done..|]. intros [H1 H2 H3 H4 H5]. split; try done. cbn.
    destruct (m_globals (committed c) !! n) eqn:Hn; [by apply try_emplace_subseteq|done].
  - unfold SetThreadLocalGlobal in Hex. destruct (_ !! n) as [prev|] eqn:Hn; [|by cbn in Hex; simplify_eq].
    rewrite Hc in Hex. cbn in Hex. simplify_eq.
    eapply inside_top; [done..|]. intros [H1 H2 H3 H4 H5]. split; try done. by apply try_emplace_subseteq.
  - destruct a as [a|]; [cbn in Hex|by cbn in Hex; simplify_eq].
    destruct (write_array _ _ _) as [[b c1]| |] eqn:Hw; [|done..]. cbn in Hex. simplify_eq.
    eapply write_array_inside; [done| |done]. by rewrite Hc.
  - destruct a as [a|]; [cbn in Hex|by cbn in Hex; simplify_eq].
    destruct (write_array _ _ _) as [[b c1]| |] eqn:Hw; [|done..]. cbn in Hex. simplify_eq.
    eapply write_array_inside; [done| |done]. by rewrite Hc.
  - destruct a as [a|]; [cbn in Hex|by cbn in Hex; simplify_eq].
    destruct (deref _ _) as [el| |]; [|done..]. cbn in Hex.
    destruct (write_array _ _ _) as [[b c1]| |] eqn:Hw; [|done..]. cbn in Hex. simplify_eq.
    eapply write_array_inside; [done| |done]. by rewrite Hc.
  - destruct a as [a|]; [cbn in Hex|by cbn in Hex; simplify_eq]. unfold deref in Hex.
    destruct (arrays (committed c) !! a) as [el|] eqn:Ha; [|done]. cbn in Hex. rewrite Hc in Hex.
    cbn in Hex. simplify_eq. eapply inside_top; [done..|intros; by apply array_agree].
  - destruct a as [a|]; [cbn in Hex|by cbn in Hex; simplify_eq]. rewrite Hc in Hex. unfold deref in Hex.
    destruct (arrays (committed c) !! a) as [el|] eqn:Ha; [|done]. cbn in Hex. simplify_eq.
    eapply inside_top; [done..|]. intros [H1 H2 H3 H4 H5]. split; try done. by apply try_emplace_subseteq.
  - destruct p as [p|]; [cbn in Hex|by cbn in Hex; simplify_eq]. unfold deref in Hex.
    destruct (instances (committed c) !! p) as [fs|] eqn:Hp; [|done]. cbn in Hex.
    destruct (fs !! i) as [old|] eqn:Hi; [|by cbn in Hex; simplify_eq]. rewrite Hc in Hex. cbn in Hex.
    simplify_eq. eapply inside_top; [done..|]. intros [H1 H2 H3 H4 H5]. split; try done; cbn; unfold try_field.
    + intros q. destruct (decide (q = p)) as [-> |]; [by rewrite Hp|]. rewrite lookup_insert_ne //. apply H4.
    + intros q fs' j x Hfs'. destruct (decide (q = p)) as [-> |].
      * rewrite lookup_insert_eq /= try_emplace_lookup. assert (fs' = fs) as -> by congruence.
        destruct (fields_of (priorInstanceValues tr) p !! j) eqn:Hj; [intros [= <-]; by eapply H5|].
        case_decide; naive_solver.
      * rewrite lookup_insert_ne //. by apply H5.
  - destruct (begin_spec r0 ms c (in_locks _ _ _ Hin)) as (b & c1 & Hb & Hco & _ & Hlo & Hres).
    rewrite Hb in Hex. cbn in Hex. simplify_eq. split; [done|done|]. destruct b.
    + destruct Hres as (acq & -> & _). constructor; [|apply Hin].
      split; cbn; [apply map_empty_subseteq..| |]; intros p; rewrite lookup_empty; [by intros []|done].
    + destruct Hres as [-> _]. apply Hin.
  - destruct l as [|parent l]; [specialize (Hend eq_refl); cbn in Hend; lia|].
    unfold EndTransaction in Hex. rewrite Hc in Hex. cbn in Hex. simplify_eq.
    pose proof (in_priors _ _ _ Hin) as Hp. rewrite Hc in Hp. inversion_clear Hp as [|? ? Htr Hp'].
    inversion_clear Hp' as [|? ? Hpar Hl]. split; [|done|].
    + eapply merge_locks; [done|apply Hin].
    + constructor; [by apply merge_agree|done].
  - unfold UnwindTransactions in Hex.
    destruct (unwind_loop_spec r0 s0 base c _ Hin eq_refl) as (c1 & Hu & Hin' & _).
    rewrite Hu in Hex. cbn in Hex. by simplify_eq.
Qed.

(** Several operations, none of which ends the outermost transaction. *)
Inductive inside_run : t V → t V → Prop :=
  | inside_done c : inside_run c c
  | inside_exec c o c1 c2 :
      exec o c = Ok c1 → (o = op_end → 2 ≤ length (m_activeTransactions c)) →
      m_activeTransactions c1 ≠ [] → inside_run c1 c2 → inside_run c c2.

Lemma inside_run_spec r0 s0 c c' :
  inside_run c c' → inside r0 s0 c → m_activeTransactions c ≠ [] →
  inside r0 s0 c' ∧ m_activeTransactions c' ≠ [].
Proof.
  induction 1 as [c|c o c1 c2 He Hend Hne _ IH]; [done|]. intros Hin Hc.
  apply IH; [by eapply exec_inside|done].
Qed.
End views.

(** ** Properties of transactions *)

(** A context outside any transaction. *)
Definition outside {V} (c : t V) : Prop :=
  m_activeTransactions c = [] ∧ Sync.reachable (m_runtime c)
  ∧ Sync.SyncHandleExistsLocked (m_currentThreadId c) (m_runtime c) = true.

Lemma outside_inside {V} (c : t V) : outside c → inside (m_runtime c) (committed c) c.
Proof.
  intros (Hc & Hr & Hth). split; [|done|by rewrite Hc].
  split; rewrite ?Hc; [by apply sync_ok|done|apply NoDup_nil_2|done|set_solver].
Qed.

(** C26. Isolation and rollback.  Whatever a program writes between the
    beginning of a transaction and its outermost end, with any nesting, the
    shared store does not change; and unwinding the transactions always
    returns, leaves the store as it was before, and gives back every mutex
    they took and no other. *)
Theorem rollback_restores {V} (c0 c1 c2 : t V) mutexes :
  outside c0 → BeginTransaction mutexes c0 = Ok (true, c1) → inside_run c1 c2 →
  committed c2 = committed c0
  ∧ ∃ c3, UnwindTransactions 0 c2 = Ok (tt, c3) ∧ m_activeTransactions c3 = []
    ∧ committed c3 = committed c0 ∧ same_view c0 c3
    ∧ ∀ m, Sync.owner_of m (m_runtime c3) = Sync.owner_of m (m_runtime c0).
Proof.
  intros Hout Hb Hrun. pose proof (outside_inside _ Hout) as Hin0. destruct Hout as (Hc0 & _ & _).
  destruct (begin_spec _ mutexes c0 (in_locks _ _ _ Hin0)) as (b & c1' & Hb' & Hco & _ & Hlo & Hres).
  rewrite Hb in Hb'. simplify_eq. destruct Hres as (acq & Hacts & _).
  assert (inside (m_runtime c0) (committed c0) c1') as Hin1.
  { split; [done|done|]. rewrite Hacts Hc0. constructor; [|done].
    split; cbn; [apply map_empty_subseteq..| |]; intros p; rewrite lookup_empty; [by intros []|done]. }
  destruct (inside_run_spec _ _ _ _ Hrun Hin1) as [Hin2 Hne]; [by rewrite Hacts|].
  split; [apply Hin2|].
  destruct (unwind_loop_spec _ _ 0 c2 _ Hin2 eq_refl) as (c3 & Hu & Hin3 & Hact3).
  rewrite Nat.sub_0_r drop_all in Hact3. exists c3. unfold UnwindTransactions. rewrite Hu.
  pose proof (in_store _ _ _ Hin3) as Hs3. split_and!; try done.
  - split; intros; unfold GetGlobal, GetThreadLocalGlobal, array_view, GetInstanceField;
      by rewrite Hact3 Hc0 Hs3.
  - intros m. rewrite (lo_owner _ _ (in_locks _ _ _ Hin3)) Hact3. cbn.
    destruct (decide _) as [Hm|]; [by apply elem_of_nil in Hm|done].
Qed.

(** A store with one global and two one-element arrays, and a runtime with
    two mutexes. *)
Definition demo_runtime : Sync.t :=
  match Sync.run Sync.call_mutex Sync.init ≫= Sync.run Sync.call_mutex with Ok s => s | _ => Sync.init end.

Lemma demo_runtime_reachable : Sync.reachable demo_runtime.
Proof.
  apply (Sync.reachable_call (match Sync.run Sync.call_mutex Sync.init with Ok s => s | _ => Sync.init end)
    Sync.call_mutex); [|by vm_compute].
  by apply (Sync.reachable_call Sync.init Sync.call_mutex); [constructor|].
Qed.

Definition demo : t nat :=
  Mk [] (MkStore {["g" := 1]} ∅ {[10 := [7]; 11 := [8]]} ∅) demo_runtime 0 "".

Lemma demo_outside : outside demo.
Proof. split; [done|]. split; [exact demo_runtime_reachable|]. by vm_compute. Qed.

Definition demo_begun : t nat :=
  match BeginTransaction [Some 2; Some 1] demo with Ok (_, c) => c | _ => demo end.
Definition demo_written : t nat :=
  match exec (op_global "g" 5) demo_begun with Ok c => c | _ => demo end.

Lemma demo_run : inside_run demo_begun demo_written.
Proof.
  apply (inside_exec _ (op_global "g" 5) demo_written); [by vm_compute|done|by vm_compute|].
  constructor.
Qed.

Lemma rollback_restores_witness :
  outside demo ∧ BeginTransaction [Some 2; Some 1] demo = Ok (true, demo_begun)
  ∧ inside_run demo_begun demo_written
  ∧ committed demo_written = committed demo
  ∧ ∃ c3, UnwindTransactions 0 demo_written = Ok (tt, c3) ∧ m_activeTransactions c3 = []
    ∧ committed c3 = committed demo ∧ same_view demo c3
    ∧ ∀ m, Sync.owner_of m (m_runtime c3) = Sync.owner_of m (m_runtime demo).
Proof.
  assert (BeginTransaction [Some 2; Some 1] demo = Ok (true, demo_begun)) as Hb by (vm_compute; reflexivity).
  split; [exact demo_outside|]. split; [exact Hb|]. split; [exact demo_run|].
  exact (rollback_restores demo demo_begun demo_written _ demo_outside Hb demo_run).
Defined.

(** Ending a nested transaction succeeds and is invisible: every global,
    thread-local, array and field reads as before, the shared store does not
    change and no mutex changes hands. *)
Theorem commit_nested {V} (c : t V) tr parent l :
  m_activeTransactions c = tr :: parent :: l →
  ∃ c', EndTransaction c = Ok (true, c') ∧ same_view c c' ∧ committed c' = committed c
    ∧ m_runtime c' = m_runtime c ∧ length (m_activeTransactions c') = S (length l).
Proof. apply nested_commit_spec. Qed.

Definition demo_nested : t nat :=
  match exec (op_begin [Some 1]) demo_written with
  | Ok c => match exec (op_global "g" 6) c with Ok c => c | _ => demo end
  | _ => demo
  end.

Lemma commit_nested_witness :
  match m_activeTransactions demo_nested with
  | tr :: parent :: l =>
      ∃ c', EndTransaction demo_nested = Ok (true, c') ∧ same_view demo_nested c'
        ∧ committed c' = committed demo_nested
        ∧ m_runtime c' = m_runtime demo_nested ∧ length (m_activeTransactions c') = S (length l)
  | _ => False
  end.
Proof.
  assert (length (m_activeTransactions demo_nested) = 2) as Hl by (vm_compute; reflexivity).
  destruct (m_activeTransactions demo_nested) as [|tr [|parent l]] eqn:Hc; [done..|].
  exact (commit_nested demo_nested tr parent l Hc).
Defined.

(** C27. Ending the outermost transaction, in a context whose locks are as its
    transactions say.  If the arrays and instances it
    wrote to are still alive, it publishes what its thread saw: every
    thread-local, array and field reads as before, and so does every global
    that is defined in the shared store; a global that is not could be written
    inside the transaction and is lost here.  All the mutexes of the
    transaction are released.  If one of the written objects is gone, the
    commit goes through a dangling pointer. *)
Theorem commit_outer {V} r0 (c : t V) tr :
  m_activeTransactions c = [tr] → locks_ok r0 c →
  if decide (live_objects (pendingArrayValues tr) (pendingInstanceValues tr) (committed c)) then
    ∃ c', EndTransaction c = Ok (true, c') ∧ m_activeTransactions c' = []
    ∧ (∀ n, GetGlobal n c' = match m_globals (committed c) !! n with
                             | Some _ => GetGlobal n c | None => None end)
    ∧ (∀ n, GetThreadLocalGlobal n c' = GetThreadLocalGlobal n c)
    ∧ (∀ a, array_view a c' = array_view a c)
    ∧ (∀ p i, GetInstanceField p i c' = GetInstanceField p i c)
    ∧ ∀ m, Sync.owner_of m (m_runtime c') = Sync.owner_of m r0
  else EndTransaction c = Throw (undefined_behaviour "dangling pointer").
Proof.
  intros Hc Hl. case_decide as Hd; [by apply (outer_commit_spec r0 tr c)|].
  by apply (outer_commit_dangling tr c).
Qed.

Lemma demo_written_locks : locks_ok demo_runtime demo_written.
Proof.
  destruct (begin_spec demo_runtime [Some 2; Some 1] demo) as (b & c & Hb & _ & _ & Hl & _).
  { apply (in_locks _ _ _ (outside_inside _ demo_outside)). }
  assert (BeginTransaction [Some 2; Some 1] demo = Ok (true, demo_begun)) as Hb' by (vm_compute; reflexivity).
  rewrite Hb' in Hb. injection Hb as <- <-. destruct Hl as [L1 L2 L3 L4 L5]. by split.
Qed.

(** A program writes an element of a local array in a transaction and drops
    the array before the end. *)
Definition demo_dropped : t nat :=
  match exec (op_set (Some 11) 0 9) demo_written with Ok c => destroy_array 11 c | _ => demo end.

Lemma demo_dropped_locks : locks_ok demo_runtime demo_dropped.
Proof. destruct demo_written_locks as [L1 L2 L3 L4 L5]. by split. Qed.

(** The commit is applied with every written object alive, and with one gone. *)
Lemma commit_outer_witness :
  match m_activeTransactions demo_written, m_activeTransactions demo_dropped with
  | [tr], [dropped] =>
      live_objects (pendingArrayValues tr) (pendingInstanceValues tr) (committed demo_written)
      ∧ (∃ c', EndTransaction demo_written = Ok (true, c') ∧ m_activeTransactions c' = []
        ∧ (∀ n, GetGlobal n c' = match m_globals (committed demo_written) !! n with
                                 | Some _ => GetGlobal n demo_written | None => None end)
        ∧ (∀ n, GetThreadLocalGlobal n c' = GetThreadLocalGlobal n demo_written)
        ∧ (∀ a, array_view a c' = array_view a demo_written)
        ∧ (∀ p i, GetInstanceField p i c' = GetInstanceField p i demo_written)
        ∧ ∀ m, Sync.owner_of m (m_runtime c') = Sync.owner_of m demo_runtime)
      ∧ EndTransaction demo_dropped = Throw (undefined_behaviour "dangling pointer")
  | _, _ => False
  end.
Proof.
  destruct (m_activeTransactions demo_written) as [|tr [|]] eqn:Hc; [by vm_compute in Hc| |by vm_compute in Hc].
  destruct (m_activeTransactions demo_dropped) as [|dropped [|]] eqn:Hd; [by vm_compute in Hd| |by vm_compute in Hd].
  assert (pendingArrayValues tr = ∅ ∧ pendingInstanceValues tr = ∅) as [Ha Hi].
  { vm_compute in Hc. by injection Hc as <-. }
  assert (live_objects (pendingArrayValues tr) (pendingInstanceValues tr) (committed demo_written)) as Hlive.
  { rewrite Ha Hi. split; intros p; rewrite lookup_empty; by intros []. }
  assert (¬ live_objects (pendingArrayValues dropped) (pendingInstanceValues dropped) (committed demo_dropped)) as Hgone.
  { intros [H _]. specialize (H 11). rewrite (_ : arrays (committed demo_dropped) !! 11 = None) in H.
    - destruct H as [? [=]]. vm_compute in Hd. injection Hd as <-. by eexists.
    - by vm_compute. }
  split; [exact Hlive|]. split.
  - pose proof (commit_outer demo_runtime demo_written tr Hc demo_written_locks) as H.
    by rewrite decide_True in H.
  - pose proof (commit_outer demo_runtime demo_dropped dropped Hd demo_dropped_locks) as H.
    by rewrite decide_False in H.
Defined.

(** C28. Beginning a transaction takes all the mutexes it needs, in increasing
    order, or none, in a context whose locks are as its transactions say.  Its mutexes are the requested ones without repetition, in
    increasing order, and it needs those that no enclosing transaction has.  It
    succeeds exactly if mutexes are requested, all of them with handles, and
    all those it needs exist and are free.  Then it locked them one after the
    other in increasing order, which is the order of every transaction of every
    thread; each is this thread's, and the new transaction is on top.
    Otherwise it locked those before the first one that is not free, in the
    same order, tried this one and gave the others back in the opposite order;
    no transaction was added and every mutex has the owner it had.  Nothing is
    written. *)
Theorem BeginTransaction_all_or_nothing {V} r0 (c : t V) mutexes :
  locks_ok r0 c →
  let ids := sort_unique (omap id mutexes) in
  let needed := filter (λ m, m ∉ held c) ids in
  StronglySorted lt ids ∧ (∀ m, m ∈ ids ↔ Some m ∈ mutexes)
  ∧ ∃ b c', BeginTransaction mutexes c = Ok (b, c') ∧ committed c' = committed c ∧ locks_ok r0 c'
    ∧ (b = true ↔ mutexes ≠ [] ∧ None ∉ mutexes ∧ Forall (free (m_runtime c)) needed)
    ∧ (mutexes ≠ [] → None ∉ mutexes → locked_in_order needed b c c')
    ∧ if b then m_activeTransactions c' = new_transaction ids needed :: m_activeTransactions c
        ∧ ∀ m, Sync.owner_of m (m_runtime c') = if decide (m ∈ needed)
            then Some (m_currentThreadId c) else Sync.owner_of m (m_runtime c)
      else m_activeTransactions c' = m_activeTransactions c
        ∧ ∀ m, Sync.owner_of m (m_runtime c') = Sync.owner_of m (m_runtime c).
Proof.
  intros Hl ids needed. split_and!; [apply sort_unique_lt|by apply sort_unique_requested|].
  destruct (begin_spec r0 mutexes c Hl) as (b & c' & Hb & Hco & _ & Hl' & Hres).
  exists b, c'. split; [done|]. split; [done|]. split; [done|].
  destruct (decide (mutexes = [])) as [He|He].
  { rewrite /BeginTransaction decide_True // in Hb. injection Hb as <- _. split; [naive_solver|by split]. }
  destruct (decide (None ∈ mutexes)) as [Hn|Hn].
  { rewrite /BeginTransaction decide_False // decide_True // in Hb. injection Hb as <- _.
    split; [naive_solver|by split]. }
  destruct (begin_order mutexes c (lo_ok _ _ Hl) (lo_active _ _ Hl) He Hn) as (b1 & c1 & Hb1 & Ho & Hiff & Htop).
  rewrite Hb in Hb1. injection Hb1 as <- <-. split; [naive_solver|]. split; [done|].
  destruct b; [|done]. destruct Hres as (acq & Hacts & _ & _ & Hown). specialize (Htop eq_refl).
  rewrite Hacts in Htop. injection Htop as ->. done.
Qed.

Lemma BeginTransaction_all_or_nothing_witness :
  locks_ok demo_runtime demo
  ∧ StronglySorted lt (sort_unique (omap id [Some 2; Some 1; Some 2]))
  ∧ (∀ m, m ∈ sort_unique (omap id [Some 2; Some 1; Some 2]) ↔ Some m ∈ [Some 2; Some 1; Some 2])
  ∧ ∃ b c', BeginTransaction [Some 2; Some 1; Some 2] demo = Ok (b, c')
    ∧ committed c' = committed demo ∧ locks_ok demo_runtime c'
    ∧ (b = true ↔ [Some 2; Some 1; Some 2] ≠ [] ∧ None ∉ [Some 2; Some 1; Some 2]
         ∧ Forall (free demo_runtime) [1; 2])
    ∧ ([Some 2; Some 1; Some 2] ≠ [] → None ∉ [Some 2; Some 1; Some 2] → locked_in_order [1; 2] b demo c')
    ∧ if b then m_activeTransactions c' = [new_transaction [1; 2] [1; 2]]
        ∧ ∀ m, Sync.owner_of m (m_runtime c') = if decide (m ∈ [1; 2])
            then Some (m_currentThreadId demo) else Sync.owner_of m (m_runtime demo)
      else m_activeTransactions c' = m_activeTransactions demo
        ∧ ∀ m, Sync.owner_of m (m_runtime c') = Sync.owner_of m (m_runtime demo).
Proof.
  assert (locks_ok demo_runtime demo) as Hl by exact (in_locks _ _ _ (outside_inside _ demo_outside)).
  split; [exact Hl|].
  exact (BeginTransaction_all_or_nothing demo_runtime demo [Some 2; Some 1; Some 2] Hl).
Defined.

Lemma find_pending_insert {V K A} `{Countable K} (f : ActiveTransaction V → gmap K A) k v k' tr tr' l :
  f tr' = <[k := v]> (f tr) →
  find_pending f k' (tr' :: l) = if decide (k' = k) then Some v else find_pending f k' (tr :: l).
Proof.
  intros Hf. cbn. rewrite Hf. case_decide; [subst; by rewrite lookup_insert_eq|by rewrite lookup_insert_ne].
Qed.

(** A thread reads its own writes, inside and outside transactions: after
    a successful write the global, thread-local or field has the written value
    and every other one the value it had; and after a write to an array
    element that element has it, and every other array is as before. *)
Theorem read_own_writes {V} (c c' : t V) :
  (∀ n v, SetGlobal n v c = Ok (true, c') →
     ∀ n', GetGlobal n' c' = if decide (n' = n) then Some v else GetGlobal n' c)
  ∧ (∀ n v, SetThreadLocalGlobal n v c = Ok (true, c') →
     ∀ n', GetThreadLocalGlobal n' c' = if decide (n' = n) then Some v else GetThreadLocalGlobal n' c)
  ∧ (∀ p i v, SetInstanceField (Some p) i v c = Ok (true, c') →
     ∀ p' i', GetInstanceField (Some p') i' c' =
       if decide (p' = p ∧ i' = i) then Ok (Some v) else GetInstanceField (Some p') i' c)
  ∧ (∀ a i v, SetArrayElement (Some a) i v c = Ok (true, c') →
     GetArrayElement (Some a) i c' = Ok (Some v)
     ∧ ∀ a', a' ≠ a → array_view a' c' = array_view a' c).
Proof.
  split_and!.
  - intros n v Hset n'. unfold SetGlobal in Hset. unfold GetGlobal.
    destruct (m_activeTransactions c) as [|tr l] eqn:Hc.
    + unfold runtime_set_global in Hset. destruct (_ !! n); simplify_eq. cbn. rewrite Hc. cbn.
      case_decide; [subst; by rewrite lookup_insert_eq|by rewrite lookup_insert_ne].
    + simplify_eq. rewrite (find_pending_insert pendingGlobals n v n' tr) //. by case_decide.
  - intros n v Hset n'. unfold SetThreadLocalGlobal in Hset. unfold GetThreadLocalGlobal.
    destruct (_ !! n) as [prev|]; [|done]. destruct (m_activeTransactions c) as [|tr l] eqn:Hc; simplify_eq.
    + cbn. rewrite Hc. cbn. case_decide; [subst; by rewrite lookup_insert_eq|by rewrite lookup_insert_ne].
    + rewrite (find_pending_insert pendingThreadLocals n v n' tr) //. by case_decide.
  - intros p i v Hset p' i'. cbn in Hset. unfold deref in Hset.
    destruct (instances (committed c) !! p) as [fs|] eqn:Hp; [|done]. cbn in Hset.
    destruct (fs !! i) as [old|] eqn:Hi; [|done].
    destruct (m_activeTransactions c) as [|tr l] eqn:Hc; simplify_eq; unfold GetInstanceField, deref.
    + cbn. rewrite Hc. cbn. destruct (decide (p' = p)) as [-> |Hne].
      * rewrite lookup_insert_eq Hp. cbn. destruct (decide (i' = i)) as [-> |Hni].
        -- rewrite list_lookup_insert_eq; [|by eapply lookup_lt_Some]. by rewrite decide_True.
        -- rewrite list_lookup_insert_ne // decide_False //. naive_solver.
      * rewrite lookup_insert_ne // decide_False //. naive_solver.
    + unfold pending_field. rewrite Hc. cbn [committed set_transactions m_activeTransactions].
      destruct (decide (p' = p)) as [-> |Hne].
      * rewrite Hp. cbn [mbind result_bind].
        rewrite (find_pending_insert (λ tr, default ∅ (pendingInstanceValues tr !! p)) i v i' tr).
        2: { cbn. unfold set_field. by rewrite lookup_insert_eq. }
        destruct (decide (i' = i)) as [-> |Hni]; [rewrite Hi decide_True //|].
        rewrite decide_False //. naive_solver.
      * rewrite decide_False; [|naive_solver]. cbn. unfold set_field. rewrite lookup_insert_ne //.
  - intros a i v Hset. cbn in Hset. unfold write_array, deref in Hset.
    destruct (arrays (committed c) !! a) as [el|] eqn:Ha; [|done]. cbn in Hset.
    destruct (m_activeTransactions c) as [|tr l] eqn:Hc.
    + case_decide as Hlt; simplify_eq. cbn. unfold array_view. cbn. rewrite Hc. cbn. unfold deref.
      split; [rewrite lookup_insert_eq; cbn; by rewrite list_lookup_insert_eq|].
      intros a' Hne. by rewrite lookup_insert_ne.
    + case_decide as Hlt; simplify_eq. split.
      * cbn. unfold array_view.
        rewrite (find_pending_insert pendingArrayValues a (<[i := v]> (own_elements a el tr)) a tr) //.
        rewrite decide_True //. cbn. by rewrite list_lookup_insert_eq.
      * intros a' Hne. unfold array_view.
        rewrite (find_pending_insert pendingArrayValues a (<[i := v]> (own_elements a el tr)) a' tr) //.
        rewrite decide_False // Hc //.
Qed.

(** The writes an enclosing transaction made to an array are invisible to the
    first write of a nested one, which starts from the published elements, and
    the nested commit overwrites them: [push 1; begin; push 2; end; end]
    leaves [7; 2], without the 1. *)
Theorem nested_array_write_lost :
  (c ← exec (op_begin [Some 1]) demo; c ← exec (op_push (Some 10) 1) c;
   c ← exec (op_begin [Some 2]) c; c ← exec (op_push (Some 10) 2) c;
   c ← exec op_end c; c ← exec op_end c; array_view 10 c) = Ok [7; 2].
Proof. by vm_compute. Qed.

(** Outside a transaction a write to an undefined global is refused; inside
    it is accepted, readable until the commit, and then lost. *)
Example undefined_global_lost :
  (c ← exec (op_begin [Some 1]) demo; '(b, c) ← SetGlobal "new" 3 c;
   let inside := GetGlobal "new" c in
   c ← exec op_end c; Ok (b, inside, GetGlobal "new" c)) = Ok (true, Some 3, None)
  ∧ fst <$> SetGlobal "new" 3 demo = Ok false.
Proof. split; by vm_compute. Qed.
