(* ===== verification/Value.v ===== *)
(** * Values and their operations

    [src/vm/core/values/Value.h], [ValueHelper.h] and [ValueHelper.cpp]: the
    variant of the virtual machine, its arithmetic (in double precision),
    logic, comparison and printing.  A [double] is a [spec_float] with 53
    bits of mantissa, an [int64_t] an integer of 64 bits, a shared pointer
    the address of an object of the heap or null; what a string or a function
    points to is never changed after its construction and is held in the
    value. *)

From S2P Require Import Prelude.
From stdpp Require Import pretty.
From Stdlib Require Import Lia SpecFloat.

Module Value.

(** ** Machine numbers *)

Abbreviation double := spec_float.

Definition int64_min : Z := - 2 ^ 63.
Definition int64_max : Z := 2 ^ 63 - 1.
Definition int64_ok (z : Z) : bool := (int64_min <=? z)%Z && (z <=? int64_max)%Z.

(** [static_cast<double>] of an [int64_t]: the nearest double. *)
Definition int64_to_double (z : Z) : double := binary_normalize 53 1024 z 0 false.

(** [static_cast<int64_t>] of a [double] drops the fraction; out of range it
    is undefined. *)
Definition truncate (s : bool) (m : positive) (e : Z) : Z :=
  let a := if (0 <=? e)%Z then (Zpos m * 2 ^ e)%Z else (Zpos m / 2 ^ (- e))%Z in
  if s then (- a)%Z else a.
Definition double_to_int64 (d : double) : result Z :=
  match d with
  | S754_zero _ => Ok 0%Z
  | S754_finite s m e =>
      if int64_ok (truncate s m e) then Ok (truncate s m e)
      else Throw (undefined_behaviour "float to integer conversion out of range")
  | _ => Throw (undefined_behaviour "float to integer conversion out of range")
  end.

Definition double_is_zero (d : double) : bool := SFeqb d (S754_zero false).

(** ** The variant *)

(** The alternatives that are shared pointers to mutable objects, in the
    order of the variant. *)
Inductive pointer :=
  | ClosurePtr | NativeFunctionPtr | ArrayPtr | InstancePtr | EnumPtr | PointerPtr | ModulePtr
  | IteratorPtr | ThreadPtr | MutexPtr | TaskPtr | ChannelPtr | ContextPtr | ListenerPtr
  | ConnectionPtr | HttpRequestPtr | StringMapPtr | MapPtr | MySqlConnectionPtr | MySqlPoolPtr
  | MySqlStatementPtr | MySqlResultPtr | MySqlRowPtr | RabbitMqConnectionPtr
  | RabbitMqMessagePtr | ActorPtr | ActorMethodMapPtr | HandlerMapPtr.

#[export] Instance pointer_eq_dec : EqDecision pointer.
Proof. solve_decision. Defined.

(** [Core::Value], [struct Function] and [struct Chunk].  A byte is a [Z]
    from 0 to 255. *)
Inductive Value :=
  | VMonostate
  | VBool (b : bool)
  | VInt64 (z : Z)
  | VDouble (d : double)
  | VString (s : option string)
  | VFunction (f : option Function)
  | VPtr (k : pointer) (p : option nat)
with Function :=
  | MkFunction (address : nat) (name : string) (chunk : option Chunk) (arity minArity : Z)
      (variadic : bool) (captureNames : list string)
with Chunk :=
  | MkChunk (code : list Z) (constants : list Value) (debugName : string).

Definition f_address (f : Function) : nat := let 'MkFunction a _ _ _ _ _ _ := f in a.
Definition f_name (f : Function) : string := let 'MkFunction _ n _ _ _ _ _ := f in n.
Definition f_chunk (f : Function) : option Chunk := let 'MkFunction _ _ c _ _ _ _ := f in c.
Definition code (c : Chunk) : list Z := let 'MkChunk c _ _ := c in c.
Definition constants (c : Chunk) : list Value := let 'MkChunk _ k _ := c in k.
Definition debugName (c : Chunk) : string := let 'MkChunk _ _ d := c in d.

(** [value.index()] *)
Definition pointer_index (k : pointer) : nat :=
  match k with
  | ClosurePtr => 6 | NativeFunctionPtr => 7 | ArrayPtr => 8 | InstancePtr => 9 | EnumPtr => 10
  | PointerPtr => 11 | ModulePtr => 12 | IteratorPtr => 13 | ThreadPtr => 14 | MutexPtr => 15
  | TaskPtr => 16 | ChannelPtr => 17 | ContextPtr => 18 | ListenerPtr => 19 | ConnectionPtr => 20
  | HttpRequestPtr => 21 | StringMapPtr => 22 | MapPtr => 23 | MySqlConnectionPtr => 24
  | MySqlPoolPtr => 25 | MySqlStatementPtr => 26 | MySqlResultPtr => 27 | MySqlRowPtr => 28
  | RabbitMqConnectionPtr => 29 | RabbitMqMessagePtr => 30 | ActorPtr => 31
  | ActorMethodMapPtr => 32 | HandlerMapPtr => 33
  end.
Definition index (v : Value) : nat :=
  match v with
  | VMonostate => 0 | VBool _ => 1 | VInt64 _ => 2 | VDouble _ => 3 | VString _ => 4
  | VFunction _ => 5 | VPtr k _ => pointer_index k
  end.

(** [GetTypeName] *)
Definition pointer_name (k : pointer) : string :=
  match k with
  | ClosurePtr => "closure" | NativeFunctionPtr => "native_function" | ModulePtr => "module"
  | ThreadPtr => "thread" | MutexPtr => "mutex" | TaskPtr => "task" | ChannelPtr => "channel"
  | ContextPtr => "context" | ListenerPtr => "listener" | ConnectionPtr => "connection"
  | HttpRequestPtr => "http_request" | StringMapPtr => "string_store" | MapPtr => "map"
  | MySqlConnectionPtr => "mysql_connection" | MySqlPoolPtr => "mysql_pool"
  | MySqlStatementPtr => "mysql_statement" | MySqlResultPtr => "mysql_result"
  | MySqlRowPtr => "mysql_row" | RabbitMqConnectionPtr => "rabbitmq_connection"
  | RabbitMqMessagePtr => "rabbitmq_message"
  | ArrayPtr | InstancePtr | EnumPtr | PointerPtr | IteratorPtr | ActorPtr | ActorMethodMapPtr
  | HandlerMapPtr => "unknown"
  end.
Definition GetTypeName (v : Value) : string :=
  match v with
  | VMonostate => "void" | VBool _ => "bool" | VInt64 _ => "int64" | VDouble _ => "float64"
  | VString _ => "string" | VFunction _ => "function" | VPtr k _ => pointer_name k
  end.

(** ** Conversions *)

(** [PrimitiveValue<T>], and [static_cast<double>] of such a value. *)
Definition primitive (v : Value) : option double :=
  match v with
  | VBool b => Some (int64_to_double (if b then 1 else 0)%Z)
  | VInt64 z => Some (int64_to_double z)
  | VDouble d => Some d
  | _ => None
  end.

(** [As<bool>] *)
Definition as_bool (v : Value) : result bool :=
  match v with
  | VBool b => Ok b
  | VInt64 z => Ok (negb (z =? 0)%Z)
  | VDouble d => Ok (negb (double_is_zero d))
  | _ => Throw bad_variant_access
  end.

(** [static_cast<int64_t>] of a value of arithmetic type. *)
Definition as_int64 (v : Value) : option (result Z) :=
  match v with
  | VBool b => Some (Ok (if b then 1 else 0)%Z)
  | VInt64 z => Some (Ok z)
  | VDouble d => Some (double_to_int64 d)
  | _ => None
  end.

(** ** The heap

    The objects pointers lead to, other than the arrays and instances in the
    program's own memory, which the transactions keep ([Ctx.store]). *)

(** The closures [get] and [set] of a [struct Pointer]: what they capture. *)
Inductive pointer_target :=
  | TLocal (absoluteIndex : nat)
  | TGlobal (name : string)
  | TElement (array index : nat)
  | TField (instance index : nat)
  | TUpvalue (slot : nat).

(** The closure [next] of a [struct Iterator]: what it captures, the counters
    it shares with nobody included. *)
Inductive iterator :=
  | ItArray (array : option nat) (index : nat)
  | ItTake (source : nat) (remaining : Z)
  | ItDrop (source : nat) (n : Z) (dropped : bool)
  | ItTransform (source : nat) (fn : option Function) (closure : nat)
  | ItFilter (source : nat) (fn : option Function) (closure : nat)
  | ItReverse (source : nat) (buffer : list Value) (initialized : bool) (index : Z).

(** [struct Actor], without its mutex, condition variable and thread. *)
Inductive item_kind := Send | Query.
Record MailboxItem := MkItem { i_kind : item_kind; i_methodName : string; i_args : list Value; i_requestId : Z }.
Record QueryResult := MkQuery { q_ready : bool; q_value : Value; q_error : string }.
Record Actor := MkActor {
  a_typeName : string;
  a_state : nat;
  a_methods : option nat;
  a_mailbox : list MailboxItem;
  a_pendingQueries : gmap Z QueryResult;
  a_failures : list string;
  a_runtimeId : nat;
  a_stopping : bool;
  a_nextRequestId : Z;
}.

Inductive object :=
  | OClosure (function : option Function) (captures : list Value)
  | OName (name : string)              (** native function *)
  | OModule (name : string) (cacheableMembers : bool) (memberCache : gmap string Value)
  | OPointer (targetName : string) (target : pointer_target)
  | OArray (elements : list Value)     (** as printing sees an array *)
  | OEnum (tag : Z) (args : list Value)
  | OIterator (it : iterator)
  | OMap (entries : gmap string (Value * Value))  (** key and value *)
  | OActor (a : Actor)
  | OMethods (methods : gmap string Value)
  | OHandlers (handlers : gmap string Value)
  | OHandle (id : nat)                 (** thread, mutex, task, channel, context *)
  | OPort (port : nat)                 (** listener, connection *)
  | ORequest (method path : string)
  | OSize (size : nat)                 (** string map, pool, result, row *)
  | OOpen (open : bool)                (** MySQL connection and statement, RabbitMQ connection *)
  | OTag (deliveryTag : Z)             (** RabbitMQ message *)
  | OInstance.                         (** as printing sees an instance *)

Abbreviation heap := (gmap nat object).

Definition handle_id (h : heap) (p : nat) : nat :=
  match h !! p with Some (OHandle id) => id | _ => 0 end.

(** ** Arithmetic, logic and comparison *)

Definition PerformBinaryArithmetic (lhs rhs : Value) (operation : double → double → result double)
    : result Value :=
  match primitive lhs, primitive rhs with
  | Some lv, Some rv => d ← operation lv rv; Ok (VDouble d)
  | _, _ => Throw (runtime_error ("Arithmetic type mismatch: " +:+ GetTypeName lhs
                                  +:+ " and " +:+ GetTypeName rhs))
  end.

Definition PerformUnaryArithmetic (val : Value) (operation : double → double) : result Value :=
  match primitive val with
  | Some v => Ok (VDouble (operation v))
  | None => Throw (runtime_error ("Unary arithmetic not supported for type: " +:+ GetTypeName val))
  end.

Definition PerformBinaryLogic (lhs rhs : Value) (operation : bool → bool → bool) : result Value :=
  l ← as_bool lhs; r ← as_bool rhs; Ok (VBool (operation l r)).

Definition PerformUnaryLogic (val : Value) : result Value := b ← as_bool val; Ok (VBool (negb b)).

(** Both types convert to [double], or the answer is [false]. *)
Definition PerformBinaryComparison (lhs rhs : Value) (operation : double → double → bool) : Value :=
  match primitive lhs, primitive rhs with
  | Some l, Some r => VBool (operation l r)
  | _, _ => VBool false
  end.

Definition Subtract (lhs rhs : Value) : result Value :=
  PerformBinaryArithmetic lhs rhs (λ a b, Ok (SFsub 53 1024 a b)).
Definition Multiply (lhs rhs : Value) : result Value :=
  PerformBinaryArithmetic lhs rhs (λ a b, Ok (SFmul 53 1024 a b)).
Definition Divide (lhs rhs : Value) : result Value :=
  PerformBinaryArithmetic lhs rhs (λ a b,
    if double_is_zero b then Throw (runtime_error "Division by zero") else Ok (SFdiv 53 1024 a b)).
Definition Negate (val : Value) : result Value := PerformUnaryArithmetic val SFopp.

(** Integer division truncates; the quotient of the least integer by -1 does
    not fit and is undefined, and so is its remainder. *)
Definition DivideInt (lhs rhs : Value) : result Value :=
  match as_int64 lhs, as_int64 rhs with
  | Some a, Some b =>
      b ← b; if decide (b = 0%Z) then Throw (runtime_error "Division by zero") else
      a ← a; if int64_ok (Z.quot a b) then Ok (VInt64 (Z.quot a b))
             else Throw (undefined_behaviour "integer overflow in division")
  | _, _ => Throw (runtime_error "Integer division requires numeric types")
  end.

Definition Modulo (lhs rhs : Value) : result Value :=
  match as_int64 lhs, as_int64 rhs with
  | Some a, Some b =>
      b ← b; if decide (b = 0%Z) then Throw (runtime_error "Modulo by zero") else
      a ← a; if int64_ok (Z.quot a b) then Ok (VInt64 (Z.rem a b))
             else Throw (undefined_behaviour "integer overflow in division")
  | _, _ => Throw (runtime_error "Modulo requires numeric types")
  end.

(** Handles of threads and mutexes are equal when their identifiers are. *)
Definition same_handle (h : heap) (a b : option nat) : bool :=
  bool_decide (a = b) || match a, b with
                         | Some a, Some b => bool_decide (handle_id h a = handle_id h b)
                         | _, _ => false
                         end.

Definition Equal (h : heap) (lhs rhs : Value) : bool :=
  match lhs, rhs with
  | VMonostate, VMonostate => true
  | VString a, VString b => bool_decide (a = b)
  | VFunction a, VFunction b => bool_decide (f_address <$> a = f_address <$> b)
  | VPtr ThreadPtr a, VPtr ThreadPtr b | VPtr MutexPtr a, VPtr MutexPtr b => same_handle h a b
  | VPtr k a, VPtr k' b => bool_decide (k = k') && bool_decide (a = b)
  | VBool a, VBool b => Bool.eqb a b
  | VInt64 a, VInt64 b => (a =? b)%Z
  | _, _ => match primitive lhs, primitive rhs with
            | Some a, Some b => SFeqb a b
            | _, _ => false
            end
  end.

Definition Greater (lhs rhs : Value) : Value := PerformBinaryComparison lhs rhs (λ a b, SFltb b a).
Definition Less (lhs rhs : Value) : Value := PerformBinaryComparison lhs rhs SFltb.

(** ** Printing *)

(** *** [std::ostream << double]: six significant digits, as [%g]

    [n / d] is the absolute value; [scale] finds the decimal exponent. *)
Fixpoint scale (fuel : nat) (n d x : Z) : Z * Z * Z :=
  match fuel with
  | 0 => (n, d, x)
  | S fuel =>
      if (n <? d)%Z then scale fuel (10 * n) d (x - 1)
      else if (10 * d <=? n)%Z then scale fuel n (10 * d) (x + 1)
      else (n, d, x)
  end.

(** The quotient rounded to the nearest integer, ties to even. *)
Definition round_even (n d : Z) : Z :=
  let q := (n / d)%Z in
  match (2 * (n mod d) ?= d)%Z with
  | Lt => q
  | Eq => if Z.even q then q else q + 1
  | Gt => q + 1
  end%Z.

(** The six digits and the exponent of the first. *)
Definition six_digits (n d : Z) : Z * Z :=
  let '(n, d, x) := scale 700 n d 0 in
  let q := round_even (100000 * n) d in
  if (1000000 <=? q)%Z then (q / 10, x + 1)%Z else (q, x).

Definition is_zero_char (c : ascii) : bool := bool_decide (c = "0"%char).
Definition strip_zeros (ds : list ascii) : list ascii := reverse (dropWhile is_zero_char (reverse ds)).
(** A fraction, with its point unless it is empty. *)
Definition fraction (ds : list ascii) : list ascii :=
  match strip_zeros ds with [] => [] | ds => "."%char :: ds end.
Definition exponent (x : Z) : list ascii :=
  let ds := String.list_ascii_of_string (pretty (Z.abs x)) in
  (if (x <? 0)%Z then "-" else "+")%char
  :: (if decide (length ds < 2) then "0"%char :: ds else ds).

Definition print_positive (n d : Z) : list ascii :=
  let '(q, x) := six_digits n d in
  let ds := String.list_ascii_of_string (pretty q) in
  if (x <? -4)%Z || (6 <=? x)%Z then
    take 1 ds ++ fraction (drop 1 ds) ++ "e"%char :: exponent x
  else if (0 <=? x)%Z then
    take (S (Z.to_nat x)) ds ++ fraction (drop (S (Z.to_nat x)) ds)
  else
    "0"%char :: fraction (replicate (pred (Z.to_nat (- x))) "0"%char ++ ds).

(** A NaN is printed without its sign. *)
Definition print_double (d : double) : string :=
  match d with
  | S754_nan => "nan"
  | S754_infinity s => if s then "-inf" else "inf"
  | S754_zero s => if s then "-0" else "0"
  | S754_finite s m e =>
      (if s then "-" else "")
      +:+ String.string_of_list_ascii
            (if (0 <=? e)%Z then print_positive (Zpos m * 2 ^ e) 1 else print_positive (Zpos m) (2 ^ (- e)))
  end.

(** [out << v] of a shared pointer: its address in hexadecimal. *)
Definition hex_digit (n : Z) : string :=
  String.substring (Z.to_nat n) 1 "0123456789abcdef".
Fixpoint hex_loop (fuel : nat) (n : Z) (acc : string) : string :=
  match fuel with
  | 0 => acc
  | S fuel => let acc := hex_digit (n mod 16) +:+ acc in
              if (n / 16 =? 0)%Z then acc else hex_loop fuel (n / 16) acc
  end.
Definition print_address (p : option nat) : string :=
  match p with None => "0" | Some p => "0x" +:+ hex_loop 16 (Z.of_nat p) "" end.

(** *** [PrintValue] *)

Definition bracket (s : string) : string := "<" +:+ s +:+ ">".
Definition or_null (text : object → result string) (h : heap) (p : option nat) : result string :=
  match p with
  | None => Ok "null"
  | Some p => match h !! p with
              | Some o => text o
              | None => Throw (undefined_behaviour "dangling pointer")
              end
  end.
(** An object that is not of the type its pointer has: no heap of the
    program has one. *)
Definition no_object {A} : result A := Throw (undefined_behaviour "object of another type").

Definition object_name (o : object) : result string :=
  match o with OName n | OModule n _ _ | OPointer n _ => Ok n | _ => no_object end.
Definition object_number (o : object) : result string :=
  match o with
  | OHandle id => Ok (pretty id) | OPort p => Ok (pretty p) | OSize n => Ok (pretty n)
  | OTag z => Ok (pretty z) | OMap entries => Ok (pretty (size entries)) | _ => no_object
  end.
Definition object_request (o : object) : result string :=
  match o with ORequest m p => Ok (m +:+ " " +:+ p) | _ => no_object end.
Definition object_open (yes no : string) (o : object) : result string :=
  match o with OOpen b => Ok (if b then yes else no) | _ => no_object end.
Definition closure_name (o : object) : result string :=
  match o with
  | OClosure (Some f) _ => Ok (f_name f)
  | OClosure None _ => Ok "anonymous"
  | _ => no_object
  end.

(** [name] for null instead of ["null"] *)
Definition or_text (null : string) (text : object → result string) (h : heap) (p : option nat) : result string :=
  match p with None => Ok null | Some _ => or_null text h p end.

(** The elements, separated by [", "]. *)
Fixpoint join (texts : list string) : string :=
  match texts with
  | [] => ""
  | [t] => t
  | t :: texts => t +:+ ", " +:+ join texts
  end.

Fixpoint print_each (print : Value → result string) (vs : list Value) : result (list string) :=
  match vs with
  | [] => Ok []
  | v :: vs => t ← print v; ts ← print_each print vs; Ok (t :: ts)
  end.

Definition print_pointer (print : Value → result string) (h : heap) (k : pointer) (p : option nat)
    : result string :=
  match k with
  | ClosurePtr => n ← or_text "anonymous" closure_name h p; Ok (bracket ("closure " +:+ n))
  | NativeFunctionPtr => n ← or_text "anonymous" object_name h p; Ok (bracket ("native " +:+ n))
  | ArrayPtr =>
      match p with
      | None => Throw (undefined_behaviour "null pointer")
      | Some p => match h !! p with
                  | Some (OArray elements) =>
                      ts ← print_each print elements; Ok ("[" +:+ join ts +:+ "]")
                  | _ => no_object
                  end
      end
  | InstancePtr => Ok "{struct}"
  | EnumPtr =>
      match p with
      | None => Throw (undefined_behaviour "null pointer")
      | Some p => match h !! p with
                  | Some (OEnum tag _) => Ok ("variant(" +:+ pretty tag +:+ ")")
                  | _ => no_object
                  end
      end
  | PointerPtr => or_text "nullptr" object_name h p
  | ModulePtr => n ← or_text "anonymous" object_name h p; Ok (bracket ("module " +:+ n))
  | ThreadPtr => n ← or_null object_number h p; Ok (bracket ("thread " +:+ n))
  | MutexPtr => n ← or_null object_number h p; Ok (bracket ("mutex " +:+ n))
  | TaskPtr => n ← or_null object_number h p; Ok (bracket ("task " +:+ n))
  | ChannelPtr => n ← or_null object_number h p; Ok (bracket ("channel " +:+ n))
  | ContextPtr => n ← or_null object_number h p; Ok (bracket ("context " +:+ n))
  | ListenerPtr => n ← or_null object_number h p; Ok (bracket ("listener " +:+ n))
  | ConnectionPtr => n ← or_null object_number h p; Ok (bracket ("connection " +:+ n))
  | HttpRequestPtr => n ← or_null object_request h p; Ok (bracket ("http_request " +:+ n))
  | StringMapPtr => n ← or_null object_number h p; Ok (bracket ("string_store " +:+ n))
  | MapPtr => n ← or_null object_number h p; Ok (bracket ("map " +:+ n))
  | MySqlConnectionPtr =>
      n ← or_text "closed" (object_open "open" "closed") h p; Ok (bracket ("mysql_connection " +:+ n))
  | MySqlPoolPtr => n ← or_null object_number h p; Ok (bracket ("mysql_pool " +:+ n))
  | MySqlStatementPtr =>
      n ← or_text "closed" (object_open "ready" "closed") h p; Ok (bracket ("mysql_statement " +:+ n))
  | MySqlResultPtr => n ← or_null object_number h p; Ok (bracket ("mysql_result " +:+ n))
  | MySqlRowPtr => n ← or_null object_number h p; Ok (bracket ("mysql_row " +:+ n))
  | RabbitMqConnectionPtr =>
      n ← or_text "closed" (object_open "open" "closed") h p; Ok (bracket ("rabbitmq_connection " +:+ n))
  | RabbitMqMessagePtr => n ← or_null object_number h p; Ok (bracket ("rabbitmq_message " +:+ n))
  | IteratorPtr | ActorPtr | ActorMethodMapPtr | HandlerMapPtr => Ok (print_address p)
  end.

(** The fuel bounds the depth of nested arrays. *)
Fixpoint PrintValue (fuel : nat) (h : heap) (v : Value) : result string :=
  match fuel with
  | 0 => Diverge
  | S fuel =>
      match v with
      | VMonostate => Ok "null"
      | VBool b => Ok (if b then "true" else "false")
      | VInt64 z => Ok (pretty z)
      | VDouble d => Ok (print_double d)
      | VString s => Ok (default "null" s)
      | VFunction f =>
          Ok (bracket ("fn " +:+ match f with Some f => f_name f | None => "anonymous" end))
      | VPtr k p => print_pointer (PrintValue fuel h) h k p
      end
  end.

Definition ToString := PrintValue.

Definition IsString (v : Value) : bool := match v with VString _ => true | _ => false end.

Definition Add (fuel : nat) (h : heap) (lhs rhs : Value) : result Value :=
  if IsString lhs || IsString rhs then
    l ← ToString fuel h lhs; r ← ToString fuel h rhs; Ok (VString (Some (l +:+ r)))
  else PerformBinaryArithmetic lhs rhs (λ a b, Ok (SFadd 53 1024 a b)).

End Value.
