(* ===== verification/ValueSpec.v ===== *)
(** * Theorems about values

    Integers below 2^53 are computed exactly in double precision; integer
    division; comparison; printing. *)

From S2P Require Import Prelude Value.
From stdpp Require Import pretty.
From Stdlib Require Import Lia SpecFloat.

Import Value.
#[local] Open Scope Z_scope.

(** ** The doubles of small integers *)

Lemma digits_log2 p : Zpos (digits2_pos p) = Z.log2 (Zpos p) + 1.
Proof.
  induction p as [p IH|p IH|]; cbn [digits2_pos]; [| |done]; rewrite Pos2Z.inj_succ IH.
  - rewrite (Pos2Z.inj_xI p) Z.log2_succ_double; lia.
  - rewrite (Pos2Z.inj_xO p) Z.log2_double; lia.
Qed.

Lemma log2_shift z k : 0 < z → 0 ≤ k → Z.log2 (z * 2 ^ k) = k + Z.log2 z.
Proof. intros. rewrite -Z.log2_mul_pow2; [|lia|lia]. f_equal. Qed.

Lemma iter_xO m d : Zpos (Pos.iter xO m d) = Zpos m * 2 ^ Zpos d.
Proof.
  induction d as [|d IH] using Pos.peano_ind; [cbn; lia|].
  rewrite Pos.iter_succ Pos2Z.inj_xO IH Pos2Z.inj_succ Z.pow_succ_r; lia.
Qed.

Lemma iter_pos_nat {A} (f : A → A) p x : iter_pos f p x = Nat.iter (Pos.to_nat p) f x.
Proof.
  revert x. induction p as [p IH|p IH|]; intros x; cbn [iter_pos]; [| |done].
  - rewrite !IH Pos2Nat.inj_xI -Nat.iter_succ_r -Nat.iter_add. f_equal. lia.
  - rewrite !IH Pos2Nat.inj_xO -Nat.iter_add. f_equal. lia.
Qed.

Lemma shr_1_even q : 0 < q →
  shr_1 (Build_shr_record (2 * q) false false) = Build_shr_record q false false.
Proof. destruct q; [done| |done]. intros _. done. Qed.

Lemma shr_exact q p : 0 < q →
  iter_pos shr_1 p (Build_shr_record (q * 2 ^ Zpos p) false false) = Build_shr_record q false false.
Proof.
  intros Hq. rewrite iter_pos_nat -(positive_nat_Z p).
  induction (Pos.to_nat p) as [|n IH]; [by rewrite Z.mul_1_r|].
  rewrite Nat.iter_succ_r Nat2Z.inj_succ Z.pow_succ_r; [|lia].
  assert (0 < 2 ^ Z.of_nat n) by (apply Z.pow_pos_nonneg; lia).
  rewrite (_ : q * (2 * 2 ^ Z.of_nat n) = 2 * (q * 2 ^ Z.of_nat n)); [|ring]. rewrite shr_1_even; [done|nia].
Qed.

(** The double of a positive integer: its 53 most significant bits. *)
Definition mantissa (z : Z) : Z := z * 2 ^ (52 - Z.log2 z).
Definition double_of (s : bool) (z : Z) : double :=
  S754_finite s (Z.to_pos (mantissa z)) (Z.log2 z - 52).

Definition small (z : Z) : Prop := 0 < z < 2 ^ 53.

Lemma small_log2 z : small z → 0 ≤ Z.log2 z ≤ 52.
Proof.
  intros [Hz Hb]. split; [apply Z.log2_nonneg|].
  apply Z.lt_succ_r, Z.log2_lt_pow2; [done|]. exact Hb.
Qed.

Lemma mantissa_pos z : small z → 0 < mantissa z.
Proof. intros Hz. pose proof (small_log2 z Hz). destruct Hz. unfold mantissa. nia. Qed.

Lemma mantissa_log2 z : small z → Z.log2 (mantissa z) = 52.
Proof. intros Hz. pose proof (small_log2 z Hz). unfold mantissa. rewrite log2_shift; [|apply Hz|]; lia. Qed.

(** A mantissa of at least 53 digits whose value is a small integer rounds to
    it. *)
Lemma round_aux_small s z k :
  small z → 52 - Z.log2 z ≤ k ≤ 1000 →
  binary_round_aux 53 1024 s (z * 2 ^ k) (- k) loc_Exact = double_of s z.
Proof.
  intros Hz Hk. pose proof (small_log2 z Hz) as Hl. pose proof (mantissa_pos z Hz) as Hm.
  assert (Hpos : 0 < z * 2 ^ k) by (destruct Hz; apply Z.mul_pos_pos; [done|apply Z.pow_pos_nonneg; lia]).
  unfold binary_round_aux, shr_fexp. cbn [shr_record_of_loc].
  assert (Hd : ∀ m, 0 < m → Zdigits2 m = Z.log2 m + 1).
  { intros [|m|m] ?; [done|apply digits_log2|done]. }
  rewrite (Hd _ Hpos) log2_shift; [|apply Hz|lia].
  set (n := Z.sub _ (- k)).
  assert (Hn : n = Z.log2 z - 52 + k) by (unfold n, fexp, emin; lia).
  assert (Hsplit : z * 2 ^ k = mantissa z * 2 ^ n).
  { unfold mantissa. rewrite -Z.mul_assoc -Z.pow_add_r; [|lia|lia]. do 2 f_equal. lia. }
  assert (Hshr : shr (Build_shr_record (z * 2 ^ k) false false) (- k) n
                 = (Build_shr_record (mantissa z) false false, Z.log2 z - 52)).
  { unfold shr. rewrite Hsplit. destruct n as [|p|p] eqn:En; [| |lia].
    - rewrite Z.pow_0_r Z.mul_1_r. f_equal. lia.
    - rewrite shr_exact //. f_equal. lia. }
  rewrite Hshr. cbn [shr_m loc_of_shr_record round_nearest_even].
  rewrite (Hd _ Hm) mantissa_log2 //.
  rewrite (_ : fexp 53 1024 (52 + 1 + (Z.log2 z - 52)) - (Z.log2 z - 52) = 0); [|unfold fexp, emin; lia].
  cbn [shr shr_m]. unfold double_of. destruct (mantissa z) as [|m|m]; [done| |done].
  destruct (Z.leb_spec (Z.log2 z - 52) (1024 - 53)); [done|lia].
Qed.

Lemma normalize_small s z k :
  small z → 0 ≤ k ≤ 1000 →
  binary_normalize 53 1024 (cond_Zopp s (z * 2 ^ k)) (- k) false = double_of s z.
Proof.
  intros Hz Hk. pose proof (small_log2 z Hz) as Hl.
  assert (Hpos : 0 < z * 2 ^ k) by (destruct Hz; apply Z.mul_pos_pos; [done|apply Z.pow_pos_nonneg; lia]).
  destruct (z * 2 ^ k) as [|m|m] eqn:Em; [done| |done].
  assert (binary_normalize 53 1024 (cond_Zopp s (Zpos m)) (- k) false = binary_round 53 1024 s m (- k)) as ->.
  { by destruct s. }
  unfold binary_round. rewrite digits_log2 -Em log2_shift; [|apply Hz|lia].
  set (ex := fexp _ _ _). assert (Hex : ex = Z.log2 z - 52) by (unfold ex, fexp, emin; lia).
  unfold shl_align. destruct (ex - - k) as [|d|d] eqn:Ed.
  - rewrite -Em. apply round_aux_small; [done|lia].
  - rewrite -Em. apply round_aux_small; [done|lia].
  - rewrite iter_xO -Em -Z.mul_assoc -Z.pow_add_r; [|lia|lia].
    rewrite (_ : ex = - (52 - Z.log2 z)); [|lia]. rewrite (_ : k + Zpos d = 52 - Z.log2 z); [|lia].
    apply round_aux_small; [done|lia].
Qed.

(** The double of an integer. *)
Definition of_int (z : Z) : double :=
  if decide (z = 0) then S754_zero false else double_of (z <? 0) (Z.abs z).

Lemma signed_abs z : z = cond_Zopp (z <? 0) (Z.abs z).
Proof. unfold cond_Zopp. destruct (Z.ltb_spec z 0); lia. Qed.

Lemma signed_scaled z k : z * k = cond_Zopp (z <? 0) (Z.abs z * k).
Proof. rewrite {1}(signed_abs z). unfold cond_Zopp. destruct (z <? 0); lia. Qed.

Lemma normalize_int z k :
  Z.abs z < 2 ^ 53 → 0 ≤ k ≤ 1000 →
  binary_normalize 53 1024 (z * 2 ^ k) (- k) false = of_int z.
Proof.
  intros Hz Hk. unfold of_int. destruct (decide _) as [-> |Hn]; [done|].
  rewrite {1}(signed_abs z) -(normalize_small _ (Z.abs z) k); [|split; lia|done].
  f_equal. unfold cond_Zopp. destruct (z <? 0); lia.
Qed.

Lemma int64_small z : Z.abs z < 2 ^ 53 → int64_to_double z = of_int z.
Proof. intros Hz. unfold int64_to_double. rewrite -(normalize_int z 0) ?Z.mul_1_r //; lia. Qed.

Lemma align_small x ez : small x → ez ≤ Z.log2 x - 52 →
  Zpos (shl_align (Z.to_pos (mantissa x)) (Z.log2 x - 52) ez).1 = x * 2 ^ (- ez).
Proof.
  intros Hx He. pose proof (small_log2 x Hx) as Hl. pose proof (mantissa_pos x Hx) as Hm.
  unfold shl_align. destruct (ez - (Z.log2 x - 52)) as [|d|d] eqn:Ed; [|lia|]; cbn [fst].
  - rewrite Z2Pos.id //. unfold mantissa. do 2 f_equal. lia.
  - rewrite iter_xO Z2Pos.id // /mantissa -Z.mul_assoc -Z.pow_add_r; [|lia|lia]. do 2 f_equal. lia.
Qed.

Lemma of_int_nonzero z : z ≠ 0 → of_int z = double_of (z <? 0) (Z.abs z).
Proof. intros Hz. unfold of_int. by destruct (decide _). Qed.

Lemma small_abs z : z ≠ 0 → Z.abs z < 2 ^ 53 → small (Z.abs z).
Proof. split; lia. Qed.

Lemma opp_of_int z : z ≠ 0 → SFopp (of_int z) = of_int (- z).
Proof.
  intros Hz. rewrite !of_int_nonzero ?Z.abs_opp; [|lia|done]. unfold double_of. cbn. f_equal.
  destruct (Z.ltb_spec z 0), (Z.ltb_spec (- z) 0); cbn; lia.
Qed.

Lemma of_int_zero z : of_int z = S754_zero false ∨ ∃ s m e, of_int z = S754_finite s m e.
Proof. unfold of_int, double_of. destruct (decide _); eauto. Qed.

Lemma add_of_int a b :
  Z.abs a < 2 ^ 53 → Z.abs b < 2 ^ 53 → Z.abs (a + b) < 2 ^ 53 →
  SFadd 53 1024 (of_int a) (of_int b) = of_int (a + b).
Proof.
  intros Ha Hb Hab. destruct (decide (a = 0)) as [-> |Ha0].
  { rewrite Z.add_0_l. by destruct (of_int_zero b) as [E|[? [? [? E]]]]; rewrite E. }
  destruct (decide (b = 0)) as [-> |Hb0].
  { rewrite Z.add_0_r (of_int_nonzero a) //. }
  rewrite (of_int_nonzero a) // (of_int_nonzero b) // /double_of. cbn [SFadd].
  set (ez := Z.min _ _).
  pose proof (small_log2 _ (small_abs a Ha0 Ha)). pose proof (small_log2 _ (small_abs b Hb0 Hb)).
  rewrite !align_small; [|by apply small_abs|unfold ez; lia|by apply small_abs|unfold ez; lia].
  rewrite -(normalize_int (a + b) (- ez)); [|done|unfold ez; lia].
  rewrite Z.opp_involutive. f_equal. rewrite Z.mul_add_distr_r.
  by rewrite -!signed_scaled.
Qed.

Lemma sub_of_int a b :
  Z.abs a < 2 ^ 53 → Z.abs b < 2 ^ 53 → Z.abs (a - b) < 2 ^ 53 →
  SFsub 53 1024 (of_int a) (of_int b) = of_int (a - b).
Proof.
  intros Ha Hb Hab. destruct (decide (b = 0)) as [-> |Hb0].
  { rewrite Z.sub_0_r. by destruct (of_int_zero a) as [E|[? [? [? E]]]]; rewrite E. }
  rewrite -Z.add_opp_r -add_of_int ?Z.abs_opp //. rewrite -opp_of_int //.
  rewrite (of_int_nonzero b) // /double_of. destruct (of_int a); [done..|].
  cbn. f_equal. destruct (b <? 0); cbn; lia.
Qed.

Lemma mul_of_int a b :
  Z.abs a < 2 ^ 53 → Z.abs b < 2 ^ 53 → a * b ≠ 0 → Z.abs (a * b) < 2 ^ 53 →
  SFmul 53 1024 (of_int a) (of_int b) = of_int (a * b).
Proof.
  intros Ha Hb Hn Hab. assert (a ≠ 0 ∧ b ≠ 0) as [Ha0 Hb0] by lia.
  pose proof (small_abs a Ha0 Ha) as Sa. pose proof (small_abs b Hb0 Hb) as Sb.
  pose proof (small_log2 _ Sa). pose proof (small_log2 _ Sb).
  rewrite !of_int_nonzero //. cbn [SFmul double_of].
  rewrite Pos2Z.inj_mul !Z2Pos.id; [|by apply mantissa_pos..].
  pose proof (small_abs _ Hn Hab) as Sab.
  rewrite (_ : Z.log2 (Z.abs a) - 52 + (Z.log2 (Z.abs b) - 52)
             = - (104 - Z.log2 (Z.abs a) - Z.log2 (Z.abs b))); [|lia].
  rewrite (_ : mantissa (Z.abs a) * mantissa (Z.abs b)
             = Z.abs (a * b) * 2 ^ (104 - Z.log2 (Z.abs a) - Z.log2 (Z.abs b))).
  - rewrite round_aux_small //.
    + f_equal. destruct (Z.ltb_spec a 0), (Z.ltb_spec b 0), (Z.ltb_spec (a * b) 0); cbn; nia.
    + pose proof (Z.log2_mul_below (Z.abs a) (Z.abs b)). rewrite -Z.abs_mul in H1. lia.
  - unfold mantissa. rewrite Z.abs_mul.
    rewrite (_ : 104 - Z.log2 (Z.abs a) - Z.log2 (Z.abs b)
               = (52 - Z.log2 (Z.abs a)) + (52 - Z.log2 (Z.abs b))); [|lia].
    rewrite Z.pow_add_r; [ring|lia|lia].
Qed.

Lemma compare_small x y : small x → small y →
  match (Z.log2 x - 52 ?= Z.log2 y - 52) with
  | Lt => Lt | Gt => Gt | Eq => Pos.compare_cont Eq (Z.to_pos (mantissa x)) (Z.to_pos (mantissa y))
  end = (x ?= y).
Proof.
  intros Hx Hy. pose proof (mantissa_pos x Hx) as Mx. pose proof (mantissa_pos y Hy) as My.
  pose proof (small_log2 x Hx). destruct Hx as [Hx _], Hy as [Hy _].
  destruct (Z.compare_spec (Z.log2 x - 52) (Z.log2 y - 52)) as [He|He|He].
  - change (Pos.compare_cont Eq ?p ?q) with (Z.compare (Zpos p) (Zpos q)).
    rewrite !Z2Pos.id // /mantissa (_ : 52 - Z.log2 y = 52 - Z.log2 x); [|lia].
    symmetry. apply Zmult_compare_compat_r. apply Z.lt_gt, Z.pow_pos_nonneg; lia.
  - symmetry. apply Z.compare_lt_iff, Z.log2_lt_cancel. lia.
  - symmetry. apply Z.compare_gt_iff, Z.log2_lt_cancel. lia.
Qed.

Lemma compare_of_int a b : Z.abs a < 2 ^ 53 → Z.abs b < 2 ^ 53 →
  SFcompare (of_int a) (of_int b) = Some (a ?= b).
Proof.
  intros Ha Hb. unfold of_int. destruct (decide (a = 0)) as [-> |Ha0], (decide (b = 0)) as [-> |Hb0].
  - done.
  - by destruct b.
  - by destruct a.
  - pose proof (compare_small _ _ (small_abs a Ha0 Ha) (small_abs b Hb0 Hb)) as Hc.
    unfold double_of. cbn [SFcompare]. f_equal.
    destruct (Z.ltb_spec a 0), (Z.ltb_spec b 0).
    + rewrite (_ : (a ?= b) = CompOpp (Z.abs a ?= Z.abs b)).
      { rewrite -Hc. by destruct (Z.compare _ _). }
      rewrite -Z.compare_antisym !Z.abs_neq ?Z.compare_opp //; lia.
    + symmetry. apply Z.compare_lt_iff. lia.
    + symmetry. apply Z.compare_gt_iff. lia.
    + rewrite Hc. f_equal; lia.
Qed.

(** ** Theorems *)

Ltac primitive_int := unfold Add, Subtract, Multiply, PerformBinaryArithmetic; cbn [primitive IsString orb];
  rewrite !int64_small //.

(** Arithmetic on integers goes through [double]: below 2^53 the sum, the
    difference and the product are the doubles of the exact results, and the
    comparisons are those of the integers. *)
Theorem small_arithmetic_exact fuel h a b :
  Z.abs a < 2 ^ 53 → Z.abs b < 2 ^ 53 →
  (Z.abs (a + b) < 2 ^ 53 →
     Add fuel h (VInt64 a) (VInt64 b) = Ok (VDouble (int64_to_double (a + b))))
  ∧ (Z.abs (a - b) < 2 ^ 53 →
     Subtract (VInt64 a) (VInt64 b) = Ok (VDouble (int64_to_double (a - b))))
  ∧ (a * b ≠ 0 → Z.abs (a * b) < 2 ^ 53 →
     Multiply (VInt64 a) (VInt64 b) = Ok (VDouble (int64_to_double (a * b))))
  ∧ Less (VInt64 a) (VInt64 b) = VBool (a <? b)
  ∧ Greater (VInt64 a) (VInt64 b) = VBool (b <? a)
  ∧ Equal h (VInt64 a) (VDouble (int64_to_double b)) = (a =? b).
Proof.
  intros Ha Hb. split_and!.
  - intros Hab. primitive_int. cbn. by rewrite add_of_int.
  - intros Hab. primitive_int. cbn. by rewrite sub_of_int.
  - intros Hn Hab. primitive_int. cbn. by rewrite mul_of_int.
  - unfold Less, PerformBinaryComparison. cbn. rewrite !int64_small // /SFltb compare_of_int //.
  - unfold Greater, PerformBinaryComparison. cbn. rewrite !int64_small // /SFltb compare_of_int //.
  - cbn. rewrite !int64_small // /SFeqb compare_of_int // Z.eqb_compare //.
Qed.

Lemma small_arithmetic_exact_witness :
  Multiply (VInt64 (-94906265)) (VInt64 94906265) = Ok (VDouble (int64_to_double (-9007199136250225)))
  ∧ Greater (VInt64 7) (VInt64 (-7)) = VBool true.
Proof.
  destruct (small_arithmetic_exact 1 ∅ (-94906265) 94906265) as (_ & _ & H & _); [lia|lia|].
  split; [apply H; lia|].
  destruct (small_arithmetic_exact 1 ∅ 7 (-7)) as (_ & _ & _ & _ & H' & _); [lia|lia|]. exact H'.
Defined.

(** Past 2^53 two different integers are neither less nor greater, and adding
    one may change nothing; a product with zero may be a negative zero. *)
Example integers_collapse :
  Less (VInt64 (2 ^ 53)) (VInt64 (2 ^ 53 + 1)) = VBool false
  ∧ Greater (VInt64 (2 ^ 53)) (VInt64 (2 ^ 53 + 1)) = VBool false
  ∧ Equal ∅ (VInt64 (2 ^ 53)) (VInt64 (2 ^ 53 + 1)) = false
  ∧ Add 1 ∅ (VInt64 (2 ^ 53)) (VInt64 1) = Ok (VDouble (int64_to_double (2 ^ 53)))
  ∧ (v ← Multiply (VInt64 (-5)) (VInt64 0); ToString 1 ∅ v) = Ok "-0".
Proof. by vm_compute. Qed.

(** ** Integer division *)

Definition value_ok (v : Value) : Prop := match v with VInt64 z => int64_ok z = true | _ => True end.

Lemma as_int64_ok v a : value_ok v → as_int64 v = Some (Ok a) → int64_ok a = true.
Proof.
  destruct v as [|b|z|d| | |]; cbn; try done; intros Hv [= Ha].
  - subst. by destruct b.
  - by subst.
  - destruct d as [s| | |s m e]; cbn in Ha; try done; [by injection Ha as <-|].
    destruct (int64_ok (truncate s m e)) eqn:E; [|done]. injection Ha as <-. done.
Qed.

Lemma int64_range z : int64_ok z = true ↔ int64_min ≤ z ≤ int64_max.
Proof. unfold int64_ok. rewrite andb_true_iff !Z.leb_le. done. Qed.

Lemma quot_range a b : b ≠ 0 → Z.abs (Z.quot a b) ≤ Z.abs a.
Proof.
  intros Hb. pose proof (Z.quot_rem' a b) as E. pose proof (Z.rem_bound_abs a b Hb).
  rewrite -(Z.quot_abs a b) // . apply Z.quot_le_upper_bound; nia.
Qed.

(** Out of range only for the least integer and -1. *)
Lemma quot_ok a b : int64_ok a = true → b ≠ 0 →
  int64_ok (Z.quot a b) = negb (bool_decide (a = int64_min ∧ b = -1)).
Proof.
  intros Ha%int64_range Hb. destruct (bool_decide_reflect (a = int64_min ∧ b = -1)) as [[-> ->]|Hn]; [done|].
  cbn. apply int64_range. pose proof (quot_range a b Hb) as Hq. unfold int64_min, int64_max in *.
  destruct (decide (a = - 2 ^ 63)) as [-> |]; [|lia].
  destruct (decide (Z.quot (- 2 ^ 63) b = 2 ^ 63)) as [E|]; [|lia].
  pose proof (Z.quot_rem' (- 2 ^ 63) b). pose proof (Z.rem_bound_abs (- 2 ^ 63) b Hb). nia.
Qed.

(** [DivideInt] and [Modulo] on every pair of numbers: an error for a zero
    divisor, undefined behaviour for the least integer by -1, and otherwise
    the truncated quotient and the remainder with the sign of the dividend,
    both in range. *)
Theorem integer_division lhs rhs a b :
  value_ok lhs → value_ok rhs →
  as_int64 lhs = Some (Ok a) → as_int64 rhs = Some (Ok b) →
  if decide (b = 0) then
    DivideInt lhs rhs = Throw (runtime_error "Division by zero")
    ∧ Modulo lhs rhs = Throw (runtime_error "Modulo by zero")
  else if decide (a = int64_min ∧ b = -1) then
    DivideInt lhs rhs = Throw (undefined_behaviour "integer overflow in division")
    ∧ Modulo lhs rhs = Throw (undefined_behaviour "integer overflow in division")
  else ∃ q r, DivideInt lhs rhs = Ok (VInt64 q) ∧ Modulo lhs rhs = Ok (VInt64 r)
    ∧ a = b * q + r ∧ Z.abs r < Z.abs b ∧ 0 ≤ r * a ∧ value_ok (VInt64 q) ∧ value_ok (VInt64 r).
Proof.
  intros Hl Hr Ea Eb. pose proof (as_int64_ok _ _ Hl Ea) as Ha. pose proof (as_int64_ok _ _ Hr Eb) as Hb.
  unfold DivideInt, Modulo. rewrite Ea Eb. cbn. destruct (decide (b = 0)) as [-> |Hb0]; [done|].
  pose proof (quot_ok a b Ha Hb0) as Hq. rewrite Hq.
  destruct (decide (a = int64_min ∧ b = -1)) as [Hx|Hx].
  - rewrite bool_decide_eq_true_2 //.
  - rewrite bool_decide_eq_false_2 // in Hq |- *. exists (Z.quot a b), (Z.rem a b).
    pose proof (Z.rem_bound_abs a b Hb0). apply int64_range in Hb.
    split_and!; [done|done|apply Z.quot_rem'|done|by apply Z.rem_sign_mul|done|].
    cbn. apply int64_range. unfold int64_min, int64_max in *. lia.
Qed.

Lemma integer_division_witness :
  ∃ q r, DivideInt (VInt64 (-7)) (VBool true) = Ok (VInt64 q) ∧ Modulo (VInt64 (-7)) (VBool true) = Ok (VInt64 r)
    ∧ -7 = 1 * q + r ∧ Z.abs r < Z.abs 1 ∧ 0 ≤ r * -7 ∧ value_ok (VInt64 q) ∧ value_ok (VInt64 r).
Proof. exact (integer_division (VInt64 (-7)) (VBool true) (-7) 1 eq_refl I eq_refl eq_refl). Defined.

(** ** Printing *)

(** The object a pointer of each type leads to. *)
Definition points_to (k : pointer) (o : object) : Prop :=
  match k, o with
  | ClosurePtr, OClosure _ _ => True
  | NativeFunctionPtr, OName _ | ModulePtr, OModule _ _ _ | PointerPtr, OPointer _ _ => True
  | ArrayPtr, OArray _ => True
  | EnumPtr, OEnum _ _ => True
  | (ThreadPtr | MutexPtr | TaskPtr | ChannelPtr | ContextPtr), OHandle _ => True
  | (ListenerPtr | ConnectionPtr), OPort _ => True
  | HttpRequestPtr, ORequest _ _ => True
  | MapPtr, OMap _ | IteratorPtr, OIterator _ | ActorPtr, OActor _ | ActorMethodMapPtr, OMethods _
  | HandlerMapPtr, OHandlers _ | InstancePtr, OInstance => True
  | (StringMapPtr | MySqlPoolPtr | MySqlResultPtr | MySqlRowPtr), OSize _ => True
  | (MySqlConnectionPtr | MySqlStatementPtr | RabbitMqConnectionPtr), OOpen _ => True
  | RabbitMqMessagePtr, OTag _ => True
  | _, _ => False
  end.

(** Pointers lead to live objects of their type; arrays and enum values are
    never null. *)
Definition typed (h : heap) (v : Value) : Prop :=
  match v with
  | VPtr k None => k ≠ ArrayPtr ∧ k ≠ EnumPtr
  | VPtr k (Some p) => ∃ o, h !! p = Some o ∧ points_to k o
  | _ => True
  end.
Definition heap_typed (h : heap) : Prop :=
  ∀ p elements, h !! p = Some (OArray elements) → Forall (typed h) elements.

(** [w] is an element of the array [v]. *)
Inductive element_of (h : heap) : Value → Value → Prop :=
  | element_intro p elements w :
      h !! p = Some (OArray elements) → w ∈ elements → element_of h w (VPtr ArrayPtr (Some p)).

Lemma print_each_inv print vs :
  (∀ v, v ∈ vs → print v = Diverge ∨ ∃ s, print v = Ok s) →
  (print_each print vs = Diverge) ∨
  ∃ ts, print_each print vs = Ok ts ∧ ∀ v, v ∈ vs → ∃ s, print v = Ok s.
Proof.
  induction vs as [|v vs IH]; intros Hvs; cbn.
  { right. eexists. split; [done|]. by intros v ?%elem_of_nil. }
  destruct (Hvs v) as [E|[s E]]; [left|rewrite E; by left|]. rewrite E. cbn.
  destruct IH as [E'|(ts & E' & Hts)]; [intros w Hw; apply Hvs; by right|rewrite E'; by left|].
  rewrite E'. right. eexists. split; [done|].
  intros w [->|Hw]%elem_of_cons; eauto.
Qed.

Lemma print_each_ext print print' vs :
  (∀ v s, v ∈ vs → print v = Ok s → print' v = Ok s) →
  ∀ ts, print_each print vs = Ok ts → print_each print' vs = Ok ts.
Proof.
  induction vs as [|v vs IH]; intros Hvs ts; cbn; [done|].
  destruct (print v) as [s| |] eqn:E; cbn; [|done..].
  rewrite (Hvs v s) //; [|left]. cbn. destruct (print_each print vs) as [ts'| |]; cbn; [|done..].
  rewrite (IH _ ts') //. intros w t Hw. apply Hvs. by right.
Qed.

(** The pointers other than arrays print without looking further. *)
Lemma print_pointer_flat print h k p : typed h (VPtr k p) → k ≠ ArrayPtr →
  ∃ s, ∀ print', print_pointer print h k p = Ok s ∧ print_pointer print' h k p = Ok s.
Proof.
  intros Ht Hk. destruct p as [p|]; cbn in Ht.
  - destruct Ht as (o & Ho & Hp).
    destruct k, o as [[]| | | | | | | | | | | | | | | | |]; cbn in Hp; try contradiction; cbn; rewrite ?Ho; by eexists.
  - destruct Ht as [_ He]. destruct k; try done; eexists; done.
Qed.

Lemma PrintValue_cases h : heap_typed h → ∀ fuel v, typed h v →
  PrintValue fuel h v = Diverge ∨ ∃ s, PrintValue fuel h v = Ok s ∧ Acc (element_of h) v.
Proof.
  intros Hh. induction fuel as [|fuel IH]; intros v Hv; [by left|].
  assert (Hleaf : (∀ p, v ≠ VPtr ArrayPtr p) → Acc (element_of h) v).
  { intros Hn. constructor. intros w Hw. inversion Hw. by edestruct Hn. }
  destruct v as [|b|z|d|s|f|k p]; [right; eexists; (split; [done|]; apply Hleaf; done)..|].
  destruct (decide (k = ArrayPtr)) as [-> |Hk]; last first.
  { right. destruct (print_pointer_flat (PrintValue fuel h) h k p Hv Hk) as [s Hs].
    exists s. split; [apply (Hs (PrintValue fuel h))|]. apply Hleaf. congruence. }
  destruct p as [p|]; [|by destruct Hv]. destruct Hv as (o & Ho & Hp). destruct o as [| | | |elements| | | | | | | | | | | | |]; try done.
  cbn. rewrite Ho. pose proof (Hh _ _ Ho) as Hes. rewrite Forall_forall in Hes.
  destruct (print_each_inv (PrintValue fuel h) elements) as [E|(ts & E & Hts)].
  - intros w Hw. destruct (IH w (Hes w Hw)) as [?|(s & ? & _)]; eauto.
  - rewrite E. by left.
  - rewrite E. right. eexists. split; [done|]. constructor. intros w Hw. inversion Hw; simplify_eq.
    destruct (Hts w) as [s Hs]; [done|]. destruct (IH w (Hes w ltac:(done))) as [?|(? & ? & ?)]; [congruence|done].
Qed.

Lemma PrintValue_mono h : ∀ fuel v s, PrintValue fuel h v = Ok s →
  ∀ fuel', (fuel ≤ fuel')%nat → PrintValue fuel' h v = Ok s.
Proof.
  induction fuel as [|fuel IH]; intros v s Hs; [done|]. intros [|fuel'] Hf; [lia|].
  destruct v as [|b|z|d| | |k p]; try done. cbn in *.
  destruct k; try done. destruct p as [p|]; [|done]. cbn in *.
  destruct (h !! p) as [[| | | |elements| | | | | | | | | | | | | ]|]; try done.
  destruct (print_each (PrintValue fuel h) elements) as [ts| |] eqn:E; [|done..].
  rewrite (print_each_ext _ (PrintValue fuel' h) _ _ ts E) //.
  intros w t _ Hw. apply (IH _ _ Hw). lia.
Qed.

Lemma PrintValue_acc h v : heap_typed h → Acc (element_of h) v → typed h v →
  ∃ fuel s, PrintValue fuel h v = Ok s.
Proof.
  intros Hh. induction 1 as [v _ IH]. intros Hv.
  destruct v as [|b|z|d| | |k p]; [by exists 1%nat; eexists..|].
  destruct (decide (k = ArrayPtr)) as [-> |Hk]; last first.
  { destruct (print_pointer_flat (PrintValue 0 h) h k p Hv Hk) as [s Hs].
    exists 1%nat, s. apply (Hs (PrintValue 0 h)). }
  destruct p as [p|]; [|by destruct Hv]. destruct Hv as (o & Ho & Hp). destruct o as [| | | |elements| | | | | | | | | | | | |]; try done.
  pose proof (Hh _ _ Ho) as Hes. rewrite Forall_forall in Hes.
  assert (∃ fuel, ∀ w, w ∈ elements → ∃ s, PrintValue fuel h w = Ok s) as [fuel Hfuel].
  { assert (Hsub : ∀ w, w ∈ elements → ∃ fuel s, PrintValue fuel h w = Ok s).
    { intros w Hw. apply IH; [by econstructor|by apply Hes]. }
    clear -Hsub. induction elements as [|w ws IHws]; [by exists 0%nat; intros ? ?%elem_of_nil|].
    destruct IHws as [n Hn]; [intros; apply Hsub; by right|].
    destruct (Hsub w) as (m & s & Hm); [left|]. exists (n + m)%nat. intros x [->|Hx]%elem_of_cons.
    - exists s. apply (PrintValue_mono _ _ _ _ Hm). lia.
    - destruct (Hn x Hx) as [t Ht]. exists t. apply (PrintValue_mono _ _ _ _ Ht). lia. }
  destruct (print_each_inv (PrintValue fuel h) elements) as [E|(ts & E & _)].
  - intros w Hw. right. by apply Hfuel.
  - exfalso. clear -E Hfuel. induction elements as [|w ws IHws]; [done|]. cbn in E.
    destruct (Hfuel w) as [s Hs]; [left|]. rewrite Hs in E. cbn in E.
    apply IHws; [intros; apply Hfuel; by right|]. by destruct (print_each (PrintValue fuel h) ws).
  - exists (S fuel). cbn. rewrite Ho E. by eexists.
Qed.

(** C38. [PrintValue] of a well-typed value ends exactly when no array is inside
    itself: then the text does not depend on the fuel; an array that contains
    itself is never printed, whatever the fuel (in the program the recursion
    overflows the stack). *)
Theorem PrintValue_terminates h v :
  heap_typed h → typed h v →
  (Acc (element_of h) v → ∃ s n, ∀ fuel, (n ≤ fuel)%nat → PrintValue fuel h v = Ok s)
  ∧ (¬ Acc (element_of h) v → ∀ fuel, PrintValue fuel h v = Diverge).
Proof.
  intros Hh Hv. split.
  - intros Ha. destruct (PrintValue_acc h v Hh Ha Hv) as (n & s & Hs). exists s, n.
    by apply PrintValue_mono.
  - intros Ha fuel. destruct (PrintValue_cases h Hh fuel v Hv) as [?|(s & _ & ?)]; done.
Qed.

Definition demo_heap : heap :=
  {[ 1%nat := OArray [VInt64 1; VPtr ArrayPtr (Some 2%nat); VMonostate];
     2%nat := OArray [VString (Some "x"); VDouble (S754_finite true 3 (-1)); VPtr ArrayPtr (Some 3%nat)];
     3%nat := OArray []; 4%nat := OArray [VInt64 5; VPtr ArrayPtr (Some 4%nat)] ]}.

Lemma PrintValue_terminates_witness :
  heap_typed demo_heap ∧ PrintValue 4 demo_heap (VPtr ArrayPtr (Some 1%nat)) = Ok "[1, [x, -1.5, []], null]"
  ∧ ∀ fuel, PrintValue fuel demo_heap (VPtr ArrayPtr (Some 4%nat)) = Diverge.
Proof.
  assert (Hh : heap_typed demo_heap).
  { intros p elements Hp. apply elem_of_map_to_list in Hp. vm_compute in Hp.
    repeat (apply elem_of_cons in Hp as [[= -> ->]|Hp]); [..|by apply elem_of_nil in Hp];
      repeat constructor; eexists; split; done. }
  split_and!; [done|by vm_compute|].
  apply (PrintValue_terminates demo_heap (VPtr ArrayPtr (Some 4%nat)) Hh); [by eexists|].
  intros Ha. remember (VPtr ArrayPtr (Some 4%nat)) as v eqn:Ev. induction Ha as [v _ IH]. subst.
  eapply IH; [|done]. econstructor; [by vm_compute|]. right. left.
Defined.
