(* ===== verification/Bytecode.v ===== *)
(** * Bytecode

    [src/vm/core/OpCode.h]: the instruction set and its operand sizes;
    [src/vm/execution/chunk/Chunk.cpp]: writing code and constants;
    [src/vm/execution/VirtualMachineCore.cpp], [VirtualMachine::Run]: fetching
    the next instruction. *)

From S2P Require Import Prelude Value.
From Stdlib Require Import Lia SpecFloat.

Module Bytecode.
Import Value.

(** ** The instruction set *)

Inductive OperandSize := None_ | Uint8 | Uint16.

(** [enum class OpCode : uint8_t]; [Unnamed] is a byte without enumerator,
    which a cast from a byte may give. *)
Inductive OpCode :=
  | OP_CONSTANT | OP_NEGATE | OP_ADD | OP_SUBTRACT | OP_MULTIPLY | OP_DIVIDE | OP_EQUAL
  | OP_GREATER | OP_LESS | OP_NOT | OP_GREATER_EQUAL | OP_LESS_EQUAL | OP_NOT_EQUAL | OP_JUMP
  | OP_JUMP_IF_FALSE | OP_JUMP_IF_TRUE | OP_LOOP | OP_POP | OP_DEFINE_GLOBAL | OP_GET_GLOBAL
  | OP_SET_GLOBAL | OP_GET_LOCAL | OP_SET_LOCAL | OP_GET_UPVALUE | OP_SET_UPVALUE | OP_CALL
  | OP_CLOSURE | OP_GET_MODULE_MEMBER | OP_MOD | OP_DIV | OP_AND | OP_OR | OP_BUILD_ARRAY
  | OP_INDEX_GET | OP_INDEX_SET | OP_BUILD_MAP | OP_BUILD_STRUCT | OP_MEMBER_GET | OP_MEMBER_SET
  | OP_BUILD_ENUM | OP_GET_ENUM_TAG | OP_GET_ENUM_ARG | OP_BUILD_ACTOR | OP_ACTOR_SEND
  | OP_ACTOR_QUERY | OP_ADDR_LOCAL | OP_ADDR_GLOBAL | OP_ADDR_MEMBER | OP_ADDR_UPVALUE
  | OP_DEREF_GET | OP_DEREF_SET | OP_MAKE_ITER | OP_ITER_NEXT | OP_ITER_DROP | OP_ITER_TAKE
  | OP_ITER_REVERSE | OP_ITER_FILTER | OP_ITER_TRANSFORM | OP_PRINT | OP_BUILD_HANDLER
  | OP_PUSH_HANDLER | OP_POP_HANDLER | OP_EFFECT_INVOKE | OP_BEGIN_TXN | OP_END_TXN
  | OP_BUILD_ACTOR_METHODS | OP_DUP | OP_SWAP | OP_ASSERT | OP_RETURN
  | Unnamed (byte : Z).

Definition to_byte (opcode : OpCode) : Z :=
  match opcode with
  | OP_CONSTANT => 0x01 | OP_NEGATE => 0x02 | OP_ADD => 0x03 | OP_SUBTRACT => 0x04
  | OP_MULTIPLY => 0x05 | OP_DIVIDE => 0x06 | OP_EQUAL => 0x07 | OP_GREATER => 0x08
  | OP_LESS => 0x09 | OP_NOT => 0x0A | OP_GREATER_EQUAL => 0x0B | OP_LESS_EQUAL => 0x0C
  | OP_NOT_EQUAL => 0x0D | OP_JUMP => 0x10 | OP_JUMP_IF_FALSE => 0x11 | OP_JUMP_IF_TRUE => 0x12
  | OP_LOOP => 0x13 | OP_POP => 0x14 | OP_DEFINE_GLOBAL => 0x20 | OP_GET_GLOBAL => 0x21
  | OP_SET_GLOBAL => 0x22 | OP_GET_LOCAL => 0x23 | OP_SET_LOCAL => 0x24 | OP_GET_UPVALUE => 0x25
  | OP_SET_UPVALUE => 0x26 | OP_CALL => 0x30 | OP_CLOSURE => 0x31 | OP_GET_MODULE_MEMBER => 0x32
  | OP_MOD => 0x40 | OP_DIV => 0x41 | OP_AND => 0x42 | OP_OR => 0x43 | OP_BUILD_ARRAY => 0x50
  | OP_INDEX_GET => 0x51 | OP_INDEX_SET => 0x52 | OP_BUILD_MAP => 0x5C | OP_BUILD_STRUCT => 0x53
  | OP_MEMBER_GET => 0x54 | OP_MEMBER_SET => 0x55 | OP_BUILD_ENUM => 0x56 | OP_GET_ENUM_TAG => 0x57
  | OP_GET_ENUM_ARG => 0x58 | OP_BUILD_ACTOR => 0x59 | OP_ACTOR_SEND => 0x5A
  | OP_ACTOR_QUERY => 0x5B | OP_ADDR_LOCAL => 0x60 | OP_ADDR_GLOBAL => 0x61
  | OP_ADDR_MEMBER => 0x62 | OP_ADDR_UPVALUE => 0x65 | OP_DEREF_GET => 0x63 | OP_DEREF_SET => 0x64
  | OP_MAKE_ITER => 0x70 | OP_ITER_NEXT => 0x71 | OP_ITER_DROP => 0x72 | OP_ITER_TAKE => 0x73
  | OP_ITER_REVERSE => 0x74 | OP_ITER_FILTER => 0x75 | OP_ITER_TRANSFORM => 0x76 | OP_PRINT => 0x80
  | OP_BUILD_HANDLER => 0x81 | OP_PUSH_HANDLER => 0x82 | OP_POP_HANDLER => 0x83
  | OP_EFFECT_INVOKE => 0x84 | OP_BEGIN_TXN => 0x85 | OP_END_TXN => 0x86
  | OP_BUILD_ACTOR_METHODS => 0x87 | OP_DUP => 0x88 | OP_SWAP => 0x89 | OP_ASSERT => 0x8A
  | OP_RETURN => 0xFF
  | Unnamed byte => byte
  end%Z.

Definition enumerators : list OpCode :=
  [OP_CONSTANT; OP_NEGATE; OP_ADD; OP_SUBTRACT; OP_MULTIPLY; OP_DIVIDE; OP_EQUAL; OP_GREATER;
   OP_LESS; OP_NOT; OP_GREATER_EQUAL; OP_LESS_EQUAL; OP_NOT_EQUAL; OP_JUMP; OP_JUMP_IF_FALSE;
   OP_JUMP_IF_TRUE; OP_LOOP; OP_POP; OP_DEFINE_GLOBAL; OP_GET_GLOBAL; OP_SET_GLOBAL; OP_GET_LOCAL;
   OP_SET_LOCAL; OP_GET_UPVALUE; OP_SET_UPVALUE; OP_CALL; OP_CLOSURE; OP_GET_MODULE_MEMBER; OP_MOD;
   OP_DIV; OP_AND; OP_OR; OP_BUILD_ARRAY; OP_INDEX_GET; OP_INDEX_SET; OP_BUILD_MAP;
   OP_BUILD_STRUCT; OP_MEMBER_GET; OP_MEMBER_SET; OP_BUILD_ENUM; OP_GET_ENUM_TAG; OP_GET_ENUM_ARG;
   OP_BUILD_ACTOR; OP_ACTOR_SEND; OP_ACTOR_QUERY; OP_ADDR_LOCAL; OP_ADDR_GLOBAL; OP_ADDR_MEMBER;
   OP_ADDR_UPVALUE; OP_DEREF_GET; OP_DEREF_SET; OP_MAKE_ITER; OP_ITER_NEXT; OP_ITER_DROP;
   OP_ITER_TAKE; OP_ITER_REVERSE; OP_ITER_FILTER; OP_ITER_TRANSFORM; OP_PRINT; OP_BUILD_HANDLER;
   OP_PUSH_HANDLER; OP_POP_HANDLER; OP_EFFECT_INVOKE; OP_BEGIN_TXN; OP_END_TXN;
   OP_BUILD_ACTOR_METHODS; OP_DUP; OP_SWAP; OP_ASSERT; OP_RETURN].

Definition GetOpCodeName (opcode : OpCode) : string :=
  match opcode with
  | OP_CONSTANT => "OP_CONSTANT" | OP_NEGATE => "OP_NEGATE" | OP_ADD => "OP_ADD"
  | OP_SUBTRACT => "OP_SUBTRACT" | OP_MULTIPLY => "OP_MULTIPLY" | OP_DIVIDE => "OP_DIVIDE"
  | OP_RETURN => "OP_RETURN" | OP_DEFINE_GLOBAL => "OP_DEFINE_GLOBAL"
  | OP_GET_GLOBAL => "OP_GET_GLOBAL" | OP_SET_GLOBAL => "OP_SET_GLOBAL"
  | OP_GET_LOCAL => "OP_GET_LOCAL" | OP_SET_LOCAL => "OP_SET_LOCAL"
  | OP_GET_UPVALUE => "OP_GET_UPVALUE" | OP_SET_UPVALUE => "OP_SET_UPVALUE"
  | OP_CLOSURE => "OP_CLOSURE" | OP_GET_MODULE_MEMBER => "OP_GET_MODULE_MEMBER"
  | OP_JUMP => "OP_JUMP" | OP_JUMP_IF_FALSE => "OP_JUMP_IF_FALSE" | OP_EQUAL => "OP_EQUAL"
  | OP_GREATER => "OP_GREATER" | OP_LESS => "OP_LESS" | OP_NOT => "OP_NOT"
  | OP_BUILD_ARRAY => "OP_BUILD_ARRAY" | OP_BUILD_MAP => "OP_BUILD_MAP"
  | OP_INDEX_GET => "OP_INDEX_GET" | OP_BUILD_STRUCT => "OP_BUILD_STRUCT"
  | OP_MEMBER_GET => "OP_MEMBER_GET" | OP_ADDR_GLOBAL => "OP_ADDR_GLOBAL"
  | OP_ADDR_UPVALUE => "OP_ADDR_UPVALUE" | OP_DEREF_SET => "OP_DEREF_SET"
  | OP_DEREF_GET => "OP_DEREF_GET"
  | _ => "OP_UNKNOWN"
  end.

Definition OpCodeHasOperand (opcode : OpCode) : bool :=
  match opcode with
  | OP_CONSTANT | OP_JUMP | OP_JUMP_IF_FALSE | OP_JUMP_IF_TRUE | OP_DEFINE_GLOBAL | OP_GET_GLOBAL
  | OP_SET_GLOBAL | OP_CLOSURE | OP_GET_MODULE_MEMBER | OP_ADDR_GLOBAL | OP_BUILD_ACTOR
  | OP_ACTOR_SEND | OP_ACTOR_QUERY | OP_EFFECT_INVOKE | OP_ASSERT | OP_GET_LOCAL | OP_SET_LOCAL
  | OP_GET_UPVALUE | OP_SET_UPVALUE | OP_CALL | OP_LOOP | OP_BUILD_ARRAY | OP_BUILD_MAP
  | OP_BUILD_STRUCT | OP_MEMBER_GET | OP_MEMBER_SET | OP_BUILD_ENUM | OP_GET_ENUM_ARG
  | OP_ADDR_LOCAL | OP_ITER_NEXT | OP_ADDR_UPVALUE | OP_BUILD_HANDLER | OP_BUILD_ACTOR_METHODS => true
  | _ => false
  end.

Definition GetOperandSize (opcode : OpCode) : OperandSize :=
  match opcode with
  | OP_JUMP | OP_JUMP_IF_FALSE | OP_JUMP_IF_TRUE | OP_LOOP | OP_CONSTANT | OP_DEFINE_GLOBAL
  | OP_GET_GLOBAL | OP_SET_GLOBAL | OP_CLOSURE | OP_GET_MODULE_MEMBER | OP_ADDR_GLOBAL
  | OP_BUILD_ACTOR | OP_ACTOR_SEND | OP_ACTOR_QUERY | OP_EFFECT_INVOKE | OP_ASSERT => Uint16
  | OP_GET_LOCAL | OP_SET_LOCAL | OP_GET_UPVALUE | OP_SET_UPVALUE | OP_CALL | OP_BUILD_ARRAY
  | OP_BUILD_MAP | OP_BUILD_STRUCT | OP_MEMBER_GET | OP_MEMBER_SET | OP_BUILD_ENUM
  | OP_GET_ENUM_ARG | OP_ADDR_LOCAL | OP_ADDR_UPVALUE | OP_ITER_NEXT | OP_BUILD_HANDLER
  | OP_BUILD_ACTOR_METHODS => Uint8
  | _ => None_
  end.

#[export] Instance OpCode_eq_dec : EqDecision OpCode.
Proof. solve_decision. Defined.

(** [static_cast<OpCode>(byte)] *)
Definition of_byte (byte : Z) : OpCode :=
  default (Unnamed byte) (find (λ op, (to_byte op =? byte)%Z) enumerators).

(** ** Writing *)

Definition push_code (bytes : list Z) (c : Chunk) : Chunk :=
  MkChunk (code c ++ bytes) (constants c) (debugName c).

(** The high and the low byte of a [uint16_t]. *)
Definition high_byte (w : Z) : Z := Z.land (Z.shiftr w 8) 0xff.
Definition low_byte (w : Z) : Z := Z.land w 0xff.

Definition Write (opcode : OpCode) : st Chunk unit := st_modify (push_code [to_byte opcode]).

Definition WriteOperand (opcode : OpCode) (operand : Z) : st Chunk unit :=
  match GetOperandSize opcode with
  | Uint8 => st_modify (push_code [low_byte operand])
  | Uint16 => st_modify (push_code [high_byte operand; low_byte operand])
  | None_ => mret tt
  end.

Definition WriteJump (opcode : OpCode) (offset : Z) : st Chunk unit :=
  _ ← Write opcode; st_modify (push_code [high_byte offset; low_byte offset]).

(** [ConstantEquals] of [Chunk.cpp]: only the first five alternatives are ever
    equal. *)
Definition ConstantEquals (lhs rhs : Value) : bool :=
  if decide (index lhs ≠ index rhs) then false else
  match lhs, rhs with
  | VMonostate, _ => true
  | VBool a, VBool b => Bool.eqb a b
  | VInt64 a, VInt64 b => (a =? b)%Z
  | VDouble a, VDouble b => SFeqb a b
  | VString a, VString b => bool_decide (a = b)
  | _, _ => false
  end.

(** The search of [AddConstant], from index [i]. *)
Fixpoint find_constant (i : nat) (cs : list Value) (value : Value) : option nat :=
  match cs with
  | [] => None
  | c :: cs => if ConstantEquals c value then Some i else find_constant (S i) cs value
  end.

(** [static_cast<uint16_t>] *)
Definition to_uint16 (n : nat) : Z := Z.of_nat n mod 2 ^ 16.

Definition AddConstant (value : Value) : st Chunk Z := λ c,
  match find_constant 0 (constants c) value with
  | Some i => Ok (to_uint16 i, c)
  | None =>
      let c := MkChunk (code c) (constants c ++ [value]) (debugName c) in
      if (2 ^ 16 - 1 + 1 <? Z.of_nat (length (constants c)))%Z
      then Throw (overflow_error "Too many constants in chunk")
      else Ok (to_uint16 (length (constants c) - 1), c)
  end.

Definition WriteConstant (value : Value) : st Chunk unit :=
  constantIndex ← AddConstant value;
  _ ← Write OP_CONSTANT;
  WriteOperand OP_CONSTANT constantIndex.

Definition Clear : st Chunk unit := st_put (MkChunk [] [] "").

(** ** Fetching *)

(** [struct Instruction] *)
Record Instruction := MkInstruction { opcode : OpCode; operand : Z }.

(** One round of [Run] up to [Dispatch]: the instruction and the new [ip],
    the error of a code that ends inside an instruction, or the implicit
    return at the end of the code. *)
Inductive fetched :=
  | Fetched (instr : Instruction) (ip : nat)
  | ImplicitReturn
  | Truncated.

Definition requireBytes (codeSize ip count : nat) : bool := negb (codeSize <? ip + count).

(** [GetCode()[ip]] *)
Definition byte_at (bytes : list Z) (ip : nat) : result Z :=
  match bytes !! ip with
  | Some b => Ok b
  | None => Throw (undefined_behaviour "vector index out of range")
  end.

Definition fetch (bytes : list Z) (ip : nat) : result fetched :=
  let codeSize := length bytes in
  if codeSize <=? ip then Ok ImplicitReturn else
  byte ← byte_at bytes ip;
  let ip := S ip in
  let opcode := of_byte byte in
  match GetOperandSize opcode with
  | Uint8 =>
      if negb (requireBytes codeSize ip 1) then Ok Truncated else
      operand ← byte_at bytes ip;
      Ok (Fetched (MkInstruction opcode operand) (S ip))
  | Uint16 =>
      if negb (requireBytes codeSize ip 2) then Ok Truncated else
      msb ← byte_at bytes ip;
      lsb ← byte_at bytes (S ip);
      Ok (Fetched (MkInstruction opcode (Z.lor (Z.shiftl msb 8) lsb mod 2 ^ 16)) (S (S ip)))
  | None_ => Ok (Fetched (MkInstruction opcode 0) ip)
  end.

(** The jumps of [Dispatch]: the new [ip], or the error; [ip] is already past
    the operand. *)
Definition jump_forward (codeSize ip : nat) (operand : Z) : option nat :=
  if (Z.of_nat codeSize - Z.of_nat ip <? operand)%Z then None else Some (ip + Z.to_nat operand).
Definition loop_back (ip : nat) (operand : Z) : option nat :=
  if (Z.of_nat ip <? operand)%Z then None else Some (ip - Z.to_nat operand).

(** ** Control flow

    [src/bytecode/generator/BytecodeGeneratorCore.cpp], [EmitJump] and
    [PatchJump], and the visitors of [BytecodeGeneratorStatements.cpp] that
    use them.  A visited node is the computation that emits its code. *)

Definition EmitJump (opcode : OpCode) : st Chunk nat :=
  _ ← Write opcode;
  _ ← st_modify (push_code [0xff%Z; 0xff%Z]);
  c ← st_get;
  mret (length (code c) - 2).

(** [code[addr] = byte] *)
Definition set_byte (addr : nat) (byte : Z) : st Chunk unit := λ c,
  if addr <? length (code c)
  then Ok (tt, MkChunk (<[addr := byte]> (code c)) (constants c) (debugName c))
  else Throw (undefined_behaviour "vector index out of range").

Definition PatchJump (jumpAddr : nat) : st Chunk unit :=
  c ← st_get;
  let jumpDist := ((Z.of_nat (length (code c)) - Z.of_nat jumpAddr - 2) mod 2 ^ 16)%Z in
  _ ← set_byte jumpAddr (high_byte jumpDist);
  set_byte (S jumpAddr) (low_byte jumpDist).

Definition EmitLoop (loopStart : nat) : st Chunk unit :=
  c ← st_get;
  let offset := ((Z.of_nat (length (code c)) - Z.of_nat loopStart + 3) mod 2 ^ 16)%Z in
  _ ← Write OP_LOOP;
  _ ← st_modify (push_code [high_byte offset]);
  st_modify (push_code [low_byte offset]).

(** The visitors of a conditional and of a loop, for a generator with a state
    [S] of its own, whose part is the current chunk. *)
Section visitors.
Context {S : Type} (on_chunk : ∀ A, st Chunk A → st S A).

Definition VisitIf (condition thenBlock : st S unit) (elseBlock : option (st S unit)) : st S unit :=
  _ ← condition;
  elseJump ← on_chunk _ (EmitJump OP_JUMP_IF_FALSE);
  _ ← thenBlock;
  match elseBlock with
  | Some elseBlock =>
      endJump ← on_chunk _ (EmitJump OP_JUMP);
      _ ← on_chunk _ (PatchJump elseJump);
      _ ← elseBlock;
      on_chunk _ (PatchJump endJump)
  | None => on_chunk _ (PatchJump elseJump)
  end.

Definition VisitWhile (condition body : st S unit) : st S unit :=
  c ← on_chunk _ st_get;
  let loopStart := length (code c) in
  _ ← condition;
  exitJump ← on_chunk _ (EmitJump OP_JUMP_IF_FALSE);
  _ ← body;
  _ ← on_chunk _ (EmitLoop loopStart);
  on_chunk _ (PatchJump exitJump).
End visitors.

(** [EmitBinaryOp] emits nothing for another text. *)
Definition EmitBinaryOp (op : string) : st Chunk unit :=
  if bool_decide (op = "+") then Write OP_ADD
  else if bool_decide (op = "-") then Write OP_SUBTRACT
  else if bool_decide (op = "*") then Write OP_MULTIPLY
  else if bool_decide (op = "/") then Write OP_DIVIDE
  else if bool_decide (op = "div") then Write OP_DIV
  else if bool_decide (op = "mod") then Write OP_MOD
  else if bool_decide (op = "and") || bool_decide (op = "&&") then Write OP_AND
  else if bool_decide (op = "or") || bool_decide (op = "||") then Write OP_OR
  else if bool_decide (op = "==") then Write OP_EQUAL
  else if bool_decide (op = "!=") then Write OP_NOT_EQUAL
  else if bool_decide (op = "<") then Write OP_LESS
  else if bool_decide (op = ">") then Write OP_GREATER
  else if bool_decide (op = "<=") then Write OP_LESS_EQUAL
  else if bool_decide (op = ">=") then Write OP_GREATER_EQUAL
  else mret tt.

End Bytecode.
