(* ===== verification/BytecodeSpec.v ===== *)
(** * Theorems about bytecode

    Instructions written are the instructions fetched; constants are shared
    and keep their indices; jumps land where the statements say. *)

From S2P Require Import Prelude Value Bytecode.
From Stdlib Require Import Lia SpecFloat.

Import Value Bytecode.

(** ** Bytes *)

Definition uint16 (w : Z) : Prop := (0 ≤ w < 2 ^ 16)%Z.

Lemma low_byte_mod w : low_byte w = (w mod 256)%Z.
Proof. unfold low_byte. change 0xff%Z with (Z.ones 8). by rewrite Z.land_ones. Qed.

Lemma high_byte_div w : uint16 w → high_byte w = (w / 256)%Z.
Proof.
  intros [H0 H1]. unfold high_byte. change 0xff%Z with (Z.ones 8).
  rewrite Z.land_ones // Z.shiftr_div_pow2 //. apply Z.mod_small. change (2 ^ 8)%Z with 256%Z.
  split; [apply Z.div_pos; lia|apply Z.div_lt_upper_bound; lia].
Qed.

(** The operand as the virtual machine puts it together again. *)
Lemma word_bytes w : uint16 w →
  (Z.lor (Z.shiftl (high_byte w) 8) (low_byte w) mod 2 ^ 16)%Z = w.
Proof.
  intros Hw. rewrite high_byte_div // low_byte_mod Z.shiftl_mul_pow2 //.
  assert (Z.land (w / 256 * 2 ^ 8) (w mod 256) = 0)%Z as Hd.
  { apply Z.bits_inj'. intros n Hn. rewrite Z.land_spec Z.bits_0.
    destruct (Z.lt_ge_cases n 8); [by rewrite Z.mul_pow2_bits_low|].
    change 256%Z with (2 ^ 8)%Z. rewrite (Z.mod_pow2_bits_high w 8 n); [apply andb_false_r|lia]. }
  rewrite -Z.lxor_lor // -Z.add_nocarry_lxor //. unfold uint16 in Hw.
  change (2 ^ 8)%Z with 256%Z. rewrite -(Z.mul_comm 256) -Z.div_mod // Z.mod_small //.
Qed.

(** ** The tables of the instruction set *)

Definition named (op : OpCode) : Prop := match op with Unnamed _ => False | _ => True end.

Lemma of_byte_to_byte op : named op → of_byte (to_byte op) = op.
Proof. by destruct op. Qed.

Lemma to_byte_of_byte b : to_byte (of_byte b) = b.
Proof.
  unfold of_byte. destruct (find _ _) as [op|] eqn:E; cbn; [|done].
  apply find_some in E as [_ E]. by apply Z.eqb_eq.
Qed.

Lemma to_byte_range op : named op → (1 ≤ to_byte op ≤ 255)%Z.
Proof. destruct op; cbn; [lia..|done]. Qed.

(** ** Instructions *)

(** The generator's two calls for an instruction. *)
Definition emit (i : Instruction) : st Chunk unit :=
  _ ← Write (opcode i); WriteOperand (opcode i) (operand i).

(** The operations that have a second operand, a byte behind the first one,
    which the generator writes with [push_back] and the virtual machine reads
    while it executes the instruction. *)
Definition has_second (op : OpCode) : bool :=
  match op with
  | OP_BUILD_ENUM | OP_BUILD_ACTOR | OP_ACTOR_SEND | OP_ACTOR_QUERY | OP_EFFECT_INVOKE => true
  | _ => false
  end.

(** An instruction with its second operand. *)
Definition Item : Type := Instruction * option Z.

Definition second_bytes (second : option Z) : list Z :=
  match second with Some n => [low_byte n] | None => [] end.

Definition emit_item (i : Item) : st Chunk unit :=
  _ ← emit i.1;
  match i.2 with Some n => st_modify (push_code [low_byte n]) | None => mret tt end.
Fixpoint emit_all (prog : list Item) : st Chunk unit :=
  match prog with
  | [] => mret tt
  | i :: prog => _ ← emit_item i; emit_all prog
  end.

Definition operand_bytes (op : OpCode) (w : Z) : list Z :=
  match GetOperandSize op with
  | Uint8 => [low_byte w]
  | Uint16 => [high_byte w; low_byte w]
  | None_ => []
  end.

(** What is left of an operand: an operand of one byte loses its high byte. *)
Definition kept (i : Instruction) : Instruction :=
  MkInstruction (opcode i)
    match GetOperandSize (opcode i) with
    | Uint8 => operand i mod 256
    | Uint16 => operand i
    | None_ => 0
    end%Z.

Definition instruction_ok (i : Instruction) : Prop := named (opcode i) ∧ uint16 (operand i).

Definition kept_item (i : Item) : Item := (kept i.1, (λ n, n mod 256)%Z <$> i.2).
Definition item_ok (i : Item) : Prop :=
  instruction_ok i.1 ∧ (has_second (opcode i.1) = true ↔ is_Some i.2).

(** The operands fit where they are written. *)
Definition fits (i : Item) : Prop :=
  match GetOperandSize (opcode i.1) with
  | Uint8 => operand i.1 < 256
  | Uint16 => True
  | None_ => operand i.1 = 0
  end%Z ∧ ∀ n, i.2 = Some n → (0 ≤ n < 256)%Z.

Lemma kept_fits i : item_ok i → fits i → kept_item i = i.
Proof.
  destruct i as [[op w] second]. intros [[_ [H0 _]] _] [Hw Hs]. cbn in *. unfold kept_item, kept. cbn.
  f_equal; [f_equal|].
  - destruct (GetOperandSize op); [done|by rewrite Z.mod_small|done].
  - destruct second as [n|]; [|done]. cbn. rewrite Z.mod_small; auto.
Qed.

Lemma push_code_app a b c : push_code b (push_code a c) = push_code (a ++ b) c.
Proof. unfold push_code. cbn. by rewrite -app_assoc. Qed.

Lemma emit_run i c :
  emit i c = Ok (tt, push_code (to_byte (opcode i) :: operand_bytes (opcode i) (operand i)) c).
Proof.
  unfold emit, Write, WriteOperand, operand_bytes, st_modify, mbind, st_bind.
  destruct (GetOperandSize (opcode i)); [done|by rewrite push_code_app..].
Qed.

Lemma byte_at_app pre b rest : byte_at (pre ++ b :: rest) (length pre) = Ok b.
Proof. unfold byte_at. by rewrite list_lookup_middle. Qed.

Lemma fetch_operands pre op w rest :
  named op → uint16 w →
  fetch (pre ++ (to_byte op :: operand_bytes op w) ++ rest) (length pre)
  = Ok (Fetched (kept (MkInstruction op w)) (length pre + S (length (operand_bytes op w)))).
Proof.
  intros Hop Hw. unfold fetch, requireBytes. cbn [app].
  rewrite (proj2 (Nat.leb_gt _ _)); [|rewrite length_app; cbn; lia].
  rewrite byte_at_app. cbn [mbind result_bind]. rewrite of_byte_to_byte //.
  unfold kept, operand_bytes. cbn [opcode operand].
  set (bytes := pre ++ _). assert (Hb : ∀ k b, (to_byte op :: (match GetOperandSize op with
      | Uint8 => [low_byte w] | Uint16 => [high_byte w; low_byte w] | None_ => [] end ++ rest)) !! k = Some b →
      byte_at bytes (length pre + k) = Ok b).
  { intros k b Hk. unfold byte_at, bytes. rewrite lookup_app_r; [|lia].
    by rewrite Nat.add_sub_swap // Nat.sub_diag /= Hk. }
  assert (Hl : length bytes = length pre + S (length (match GetOperandSize op with
      | Uint8 => [low_byte w] | Uint16 => [high_byte w; low_byte w] | None_ => [] end ++ rest))).
  { unfold bytes. by rewrite length_app. }
  clearbody bytes. destruct (GetOperandSize op); cbn [app length] in Hl |- *.
  - do 2 f_equal. lia.
  - rewrite (proj2 (Nat.ltb_ge _ _)); [|lia]. cbn [negb].
    rewrite (_ : S (length pre) = length pre + 1); [|lia]. rewrite (Hb 1 (low_byte w)) //.
    cbn. rewrite low_byte_mod. do 2 f_equal. lia.
  - rewrite (proj2 (Nat.ltb_ge _ _)); [|lia]. cbn [negb].
    rewrite (_ : S (length pre) = length pre + 1); [|lia].
    rewrite (_ : S (length pre + 1) = length pre + 2); [|lia].
    rewrite (Hb 1 (high_byte w)) // (Hb 2 (low_byte w)) //.
    cbn. rewrite word_bytes //. do 2 f_equal. lia.
Qed.

(** [decodes bytes ip prog]: fetching from [ip] to the end gives [prog], where
    the byte behind an instruction with a second operand is this operand and
    is skipped. *)
Inductive decodes (bytes : list Z) : nat → list Item → Prop :=
  | decodes_end ip : fetch bytes ip = Ok ImplicitReturn → decodes bytes ip []
  | decodes_next ip i ip' prog :
      fetch bytes ip = Ok (Fetched i ip') → has_second (opcode i) = false →
      decodes bytes ip' prog → decodes bytes ip ((i, None) :: prog)
  | decodes_second ip i ip' n prog :
      fetch bytes ip = Ok (Fetched i ip') → has_second (opcode i) = true → byte_at bytes ip' = Ok n →
      decodes bytes (S ip') prog → decodes bytes ip ((i, Some n) :: prog).

Lemma decodes_det bytes ip prog prog' : decodes bytes ip prog → decodes bytes ip prog' → prog = prog'.
Proof.
  intros Hd. revert prog'. induction Hd as [ip E|ip i ip' prog E Hs _ IH|ip i ip' n prog E Hs En _ IH];
    intros prog' Hd'; inversion Hd' as [? E'|? i2 ip2 ? E' Hs'|? i2 ip2 n2 ? E' Hs' En']; subst;
    rewrite E in E'; simplify_eq; f_equal; auto; congruence.
Qed.

Lemma emit_item_run i c :
  emit_item i c = Ok (tt, push_code ((to_byte (opcode i.1) :: operand_bytes (opcode i.1) (operand i.1))
                                       ++ second_bytes i.2) c).
Proof.
  unfold emit_item, mbind at 1, st_bind at 1. rewrite emit_run. cbn beta iota.
  destruct i.2; unfold st_modify, mret, st_ret, second_bytes; by rewrite ?push_code_app ?app_nil_r.
Qed.

Lemma emit_all_run prog c : Forall item_ok prog →
  ∃ bytes, emit_all prog c = Ok (tt, push_code bytes c)
    ∧ ∀ pre, decodes (pre ++ bytes) (length pre) (kept_item <$> prog).
Proof.
  intros Hp. revert c. induction Hp as [|[[op w] second] prog [[Hop Hw] Hs] _ IH]; intros c; cbn [emit_all fmap list_fmap].
  { exists []. split; [unfold mret, st_ret, push_code; rewrite app_nil_r; by destruct c|]. intros pre.
    rewrite app_nil_r. constructor. unfold fetch. by rewrite Nat.leb_refl. }
  unfold mbind at 1, st_bind at 1. rewrite emit_item_run. cbn [opcode operand fst snd] in *. cbn beta iota.
  set (written := _ :: _). destruct (IH (push_code (written ++ second_bytes second) c)) as (bytes & E & Hd).
  rewrite E push_code_app. eexists. split; [done|]. intros pre.
  specialize (Hd (pre ++ written ++ second_bytes second)).
  pose proof (fetch_operands pre op w (second_bytes second ++ bytes) Hop Hw) as Hf. fold written in Hf.
  rewrite -!app_assoc !length_app in Hd. rewrite -app_assoc.
  destruct second as [n|]; cbn [kept_item fst snd fmap option_fmap option_map].
  - eapply decodes_second; [exact Hf|by apply Hs|..].
    + rewrite -low_byte_mod. change (S (length (operand_bytes op w))) with (length written).
      rewrite -length_app app_assoc. apply byte_at_app.
    + cbn in Hd |- *. rewrite Nat.add_1_r Nat.add_succ_r in Hd. exact Hd.
  - eapply decodes_next; [exact Hf| |].
    + cbn. destruct (has_second op); [|done]. by destruct (proj1 Hs eq_refl).
    + cbn in Hd |- *. rewrite Nat.add_0_r in Hd. exact Hd.
Qed.

(** C32. The virtual machine fetches from the end of the old code exactly the
    instructions that were written, with the same operands, the second operand
    of five operations included, if the operands fit where they are written;
    an operand of one byte that does not fit keeps its low byte.  The constants
    are untouched. *)
Theorem instructions_roundtrip prog c :
  Forall item_ok prog →
  ∃ c', emit_all prog c = Ok (tt, c') ∧ constants c' = constants c
    ∧ code c `prefix_of` code c'
    ∧ (Forall fits prog → ∀ prog', decodes (code c') (length (code c)) prog' ↔ prog' = prog)
    ∧ ∀ prog', decodes (code c') (length (code c)) prog' ↔ prog' = kept_item <$> prog.
Proof.
  intros Hp. destruct (emit_all_run prog c Hp) as (bytes & E & Hd). eexists. split; [exact E|].
  split; [done|]. split; [by eexists|].
  assert (∀ prog', decodes (code (push_code bytes c)) (length (code c)) prog' ↔ prog' = kept_item <$> prog) as Hall.
  { intros prog'. split; [intros H; by apply (decodes_det _ _ _ _ H (Hd _))|intros ->; apply Hd]. }
  split; [|done]. intros Hf prog'. rewrite Hall.
  rewrite (_ : kept_item <$> prog = prog); [done|]. clear -Hp Hf.
  induction Hp; [done|]. inversion Hf. cbn. f_equal; [by apply kept_fits|auto].
Qed.

Definition demo_chunk : Chunk := MkChunk [0xff%Z] [VBool true] "demo".

Definition demo_items : list Item :=
  [(MkInstruction OP_JUMP 700, None); (MkInstruction OP_GET_LOCAL 44, None);
   (MkInstruction OP_BUILD_ENUM 3, Some 2%Z); (MkInstruction OP_POP 0, None)].

Lemma instructions_roundtrip_witness :
  Forall fits demo_items
  ∧ ∃ c', emit_all demo_items demo_chunk = Ok (tt, c')
    ∧ constants c' = [VBool true] ∧ [0xff%Z] `prefix_of` code c'
    ∧ (Forall fits demo_items → ∀ prog', decodes (code c') 1 prog' ↔ prog' = demo_items)
    ∧ ∀ prog', decodes (code c') 1 prog' ↔ prog' = kept_item <$> demo_items.
Proof.
  split.
  - repeat (apply Forall_cons; split); [..|constructor]; (split; [done|by intros n [= <-]]).
  - apply (instructions_roundtrip demo_items demo_chunk).
    repeat constructor; cbn; try lia; try done; intros []; done.
Defined.

(** No two enumerators have the same byte and a cast back gives the
    enumerator; an instruction has an operand exactly when it has a size; a
    jump written by [WriteJump] is the instruction; and fetching from any
    bytes at any point never reads out of range, moves forward by one to three
    bytes, and fails only inside the last two bytes. *)
Theorem fetch_total bytes ip :
  (∀ op, named op → of_byte (to_byte op) = op)
  ∧ (∀ op, OpCodeHasOperand op = true ↔ GetOperandSize op ≠ None_)
  ∧ (∀ op w c, GetOperandSize op = Uint16 → WriteJump op w c = emit (MkInstruction op w) c)
  ∧ ∃ f, fetch bytes ip = Ok f
      ∧ match f with
        | Fetched i ip' => ip < ip' ≤ length bytes ∧ ip' ≤ ip + 3 ∧ bytes !! ip = Some (to_byte (opcode i))
        | ImplicitReturn => length bytes ≤ ip
        | Truncated => ip < length bytes < ip + 3
        end.
Proof.
  split_and!.
  - apply of_byte_to_byte.
  - intros op. by destruct op.
  - intros op w c Hs. unfold WriteJump, emit, WriteOperand. cbn [opcode operand]. by rewrite Hs.
  - unfold fetch. destruct (Nat.leb_spec (length bytes) ip) as [Hl|Hl]; [by eexists|].
    assert (Hat : ∀ k, k < length bytes → ∃ b, bytes !! k = Some b ∧ byte_at bytes k = Ok b).
    { intros k Hk. destruct (lookup_lt_is_Some_2 bytes k Hk) as [b Hb]. exists b. unfold byte_at. by rewrite Hb. }
    destruct (Hat ip Hl) as (b & Hb & Eb). rewrite Eb. cbn [mbind result_bind]. unfold requireBytes.
    destruct (GetOperandSize (of_byte b)).
    + eexists. split; [done|]. cbn. rewrite to_byte_of_byte. repeat split; [lia..|done].
    + destruct (Nat.ltb_spec (length bytes) (S ip + 1)); cbn [negb]; [eexists; split; [done|cbn; lia]|].
      destruct (Hat (S ip)) as (w & _ & Ew); [lia|]. rewrite Ew. eexists. split; [done|].
      cbn. rewrite to_byte_of_byte. repeat split; [lia..|done].
    + destruct (Nat.ltb_spec (length bytes) (S ip + 2)); cbn [negb]; [eexists; split; [done|cbn; lia]|].
      destruct (Hat (S ip)) as (w & _ & Ew); [lia|]. destruct (Hat (S (S ip))) as (w' & _ & Ew'); [lia|].
      rewrite Ew. cbn [mbind result_bind]. rewrite Ew'. eexists. split; [done|].
      cbn. rewrite to_byte_of_byte. repeat split; [lia..|done].
Qed.

(** ** Constants *)

Lemma find_constant_Some i cs v n : find_constant i cs v = Some n →
  ∃ k w, n = i + k ∧ cs !! k = Some w ∧ ConstantEquals w v = true.
Proof.
  revert i. induction cs as [|w cs IH]; intros i; cbn; [done|].
  destruct (ConstantEquals w v) eqn:E.
  - intros [= <-]. exists 0, w. split_and!; [lia|done|done].
  - intros (k & w' & -> & ? & ?)%IH. exists (S k), w'. split_and!; [lia|done|done].
Qed.

Lemma find_constant_None i cs v : find_constant i cs v = None → ∀ w, w ∈ cs → ConstantEquals w v = false.
Proof.
  revert i. induction cs as [|w cs IH]; intros i; cbn; [by intros _ ? ?%elem_of_nil|].
  destruct (ConstantEquals w v) eqn:E; [done|]. intros Hn w' [->|Hw]%elem_of_cons; [done|by eapply IH].
Qed.

(** No constant could have been shared with an earlier one. *)
Definition no_duplicates (cs : list Value) : Prop :=
  ∀ i j v w, i < j → cs !! i = Some v → cs !! j = Some w → ConstantEquals v w = false.

Lemma no_duplicates_snoc cs v :
  no_duplicates cs → (∀ w, w ∈ cs → ConstantEquals w v = false) → no_duplicates (cs ++ [v]).
Proof.
  intros Hn Hv i j x y Hij Hx Hy.
  apply lookup_snoc_Some in Hy as [[Hj Hy]|[-> <-]].
  - apply (Hn i j); [done| |done]. rewrite lookup_app_l in Hx; [done|lia].
  - apply Hv. rewrite lookup_app_l in Hx; [by eapply list_elem_of_lookup_2|lia].
Qed.

(** [AddConstant] answers the index of an equal constant or of the value
    itself, moves no constant and makes no duplicate; it fails only for a new
    value and a pool with all 65536 constants. *)
Theorem AddConstant_correct value c :
  (Z.of_nat (length (constants c)) ≤ 65536)%Z →
  match AddConstant value c with
  | Ok (i, c') =>
      uint16 i ∧ code c' = code c ∧ constants c `prefix_of` constants c'
      ∧ (Z.of_nat (length (constants c')) ≤ 65536)%Z
      ∧ (∃ v, constants c' !! Z.to_nat i = Some v ∧ (ConstantEquals v value = true ∨ v = value))
      ∧ (no_duplicates (constants c) → no_duplicates (constants c'))
  | Throw e => e = overflow_error "Too many constants in chunk"
      ∧ Z.of_nat (length (constants c)) = 65536%Z ∧ ∀ v, v ∈ constants c → ConstantEquals v value = false
  | Diverge => False
  end.
Proof.
  intros Hl. unfold AddConstant.
  assert (Hu : ∀ n, (Z.of_nat n < 65536)%Z → uint16 (to_uint16 n) ∧ Z.to_nat (to_uint16 n) = n).
  { intros n Hn. unfold uint16, to_uint16. rewrite Z.mod_small; lia. }
  destruct (find_constant 0 (constants c) value) as [n|] eqn:E.
  - apply find_constant_Some in E as (k & w & -> & Hk & Hw).
    destruct (Hu k) as [Hk1 Hk2]; [apply lookup_lt_Some in Hk; lia|]. cbn [Nat.add].
    rewrite Hk2. split_and!; try done. exists w. auto.
  - pose proof (find_constant_None _ _ _ E) as Hnone. cbn [constants code].
    rewrite length_app Nat.add_1_r. destruct (Z.ltb_spec (2 ^ 16 - 1 + 1) (Z.of_nat (S (length (constants c))))).
    + split_and!; [done|lia|done].
    + rewrite Nat.sub_1_r Nat.pred_succ. destruct (Hu (length (constants c))) as [Hk1 Hk2]; [lia|].
      rewrite Hk2. cbn [constants code]. split_and!; try done.
      * by exists [value].
      * rewrite length_app Nat.add_1_r. lia.
      * exists value. split; [by rewrite list_lookup_middle|by right].
      * intros Hd. by apply no_duplicates_snoc.
Qed.

Lemma AddConstant_correct_witness :
  match AddConstant (VString (Some "x")) demo_chunk with
  | Ok (i, c') =>
      uint16 i ∧ code c' = [0xff%Z] ∧ [VBool true] `prefix_of` constants c'
      ∧ (Z.of_nat (length (constants c')) ≤ 65536)%Z
      ∧ (∃ v, constants c' !! Z.to_nat i = Some v
          ∧ (ConstantEquals v (VString (Some "x")) = true ∨ v = VString (Some "x")))
      ∧ (no_duplicates [VBool true] → no_duplicates (constants c'))
  | Throw e => e = overflow_error "Too many constants in chunk"
      ∧ Z.of_nat (length (constants demo_chunk)) = 65536%Z
      ∧ ∀ v, v ∈ constants demo_chunk → ConstantEquals v (VString (Some "x")) = false
  | Diverge => False
  end.
Proof. apply (AddConstant_correct (VString (Some "x")) demo_chunk). cbn. lia. Defined.

(** ** Control flow *)

(** An emitter that only appends code; it may add constants. *)
Definition appends (m : st Chunk unit) : Prop :=
  ∀ c, ∃ bytes k, m c = Ok (tt, MkChunk (code c ++ bytes) k (debugName c)).

Lemma Write_run op c : Write op c = Ok (tt, push_code [to_byte op] c).
Proof. done. Qed.

Lemma EmitJump_run op c :
  EmitJump op c = Ok (length (code c) + 1, push_code [to_byte op; 0xff%Z; 0xff%Z] c).
Proof.
  unfold EmitJump, Write, st_modify, st_get, mbind, st_bind, mret, st_ret. rewrite push_code_app.
  cbn [push_code code app]. rewrite length_app /=. do 2 f_equal. lia.
Qed.

Lemma set_byte_run pre x rest k d b :
  set_byte (length pre) b (MkChunk (pre ++ x :: rest) k d) = Ok (tt, MkChunk (pre ++ b :: rest) k d).
Proof.
  unfold set_byte. cbn [code constants debugName].
  rewrite (proj2 (Nat.ltb_lt _ _)); [|rewrite length_app; cbn; lia].
  by rewrite -{1}(Nat.add_0_r (length pre)) insert_app_r.
Qed.

(** Patching the operand at [length pre] with the distance to the end. *)
Lemma PatchJump_run pre x y rest k d :
  PatchJump (length pre) (MkChunk (pre ++ x :: y :: rest) k d) =
    Ok (tt, MkChunk (pre ++ operand_bytes OP_JUMP (Z.of_nat (length rest) mod 2 ^ 16)%Z ++ rest) k d).
Proof.
  unfold PatchJump, st_get. unfold mbind at 1, st_bind at 1. cbn beta iota.
  set (w := Z.modulo _ _).
  assert (w = (Z.of_nat (length rest) mod 2 ^ 16)%Z) as ->.
  { unfold w. cbn [code]. rewrite length_app. cbn [length]. f_equal. lia. }
  unfold mbind, st_bind. rewrite set_byte_run.
  rewrite -(Nat.add_1_r (length pre)) (_ : length pre + 1 = length (pre ++ [high_byte (Z.of_nat (length rest) mod 2 ^ 16)%Z])).
  - rewrite (_ : ∀ (a b : Z) l, pre ++ a :: b :: l = (pre ++ [a]) ++ b :: l); [|intros; by rewrite -app_assoc].
    rewrite set_byte_run. by rewrite -app_assoc.
  - by rewrite length_app.
Qed.

(** The statement [OP_LOOP] emitted after [rest] bytes from the start. *)
Lemma EmitLoop_run pre rest k d :
  EmitLoop (length pre) (MkChunk (pre ++ rest) k d) =
    Ok (tt, MkChunk (pre ++ rest ++ to_byte OP_LOOP :: operand_bytes OP_LOOP ((Z.of_nat (length rest) + 3) mod 2 ^ 16)%Z) k d).
Proof.
  unfold EmitLoop, st_get. unfold mbind at 1, st_bind at 1. cbn beta iota.
  set (w := Z.modulo _ _).
  assert (w = ((Z.of_nat (length rest) + 3) mod 2 ^ 16)%Z) as ->.
  { unfold w. cbn [code]. rewrite length_app. f_equal. lia. }
  unfold Write, st_modify, mbind, st_bind. rewrite !push_code_app. unfold push_code. cbn [code constants debugName].
  by rewrite -app_assoc.
Qed.

Definition jump_bytes (op : OpCode) (w : Z) : list Z := to_byte op :: operand_bytes op (w mod 2 ^ 16)%Z.

(** The code of a [while] statement and of an [if] statement. *)
(** The visitors of a generator that is a chunk. *)
Abbreviation VisitIf := (Bytecode.VisitIf (S := Chunk) (λ A m, m)).
Abbreviation VisitWhile := (Bytecode.VisitWhile (S := Chunk) (λ A m, m)).

Lemma VisitWhile_run condition body c : appends condition → appends body →
  ∃ cond bod k, VisitWhile condition body c = Ok (tt, MkChunk
    (code c ++ cond ++ jump_bytes OP_JUMP_IF_FALSE (Z.of_nat (length bod + 3))
     ++ bod ++ jump_bytes OP_LOOP (Z.of_nat (length cond + length bod + 6))) k (debugName c)).
Proof.
  intros Hc Hb. destruct (Hc c) as (cond & k1 & Ec).
  destruct (Hb (push_code [to_byte OP_JUMP_IF_FALSE; 0xff%Z; 0xff%Z] (MkChunk (code c ++ cond) k1 (debugName c))))
    as (bod & k2 & Eb).
  exists cond, bod, k2. unfold Bytecode.VisitWhile, st_get. unfold mbind, st_bind. rewrite Ec. rewrite EmitJump_run.
  cbn [code]. rewrite Eb. cbn [push_code code constants debugName].
  rewrite (_ : ((code c ++ cond) ++ [to_byte OP_JUMP_IF_FALSE; 0xff%Z; 0xff%Z]) ++ bod
             = code c ++ (cond ++ [to_byte OP_JUMP_IF_FALSE; 0xff%Z; 0xff%Z] ++ bod)); [|by rewrite -!app_assoc].
  rewrite EmitLoop_run.
  rewrite (_ : length (code c ++ cond) + 1 = length (code c ++ cond ++ [to_byte OP_JUMP_IF_FALSE]));
    [|rewrite !length_app; cbn; lia].
  rewrite (_ : ∀ l, code c ++ (cond ++ [to_byte OP_JUMP_IF_FALSE; 0xff%Z; 0xff%Z] ++ bod) ++ l
             = (code c ++ cond ++ [to_byte OP_JUMP_IF_FALSE]) ++ 0xff%Z :: 0xff%Z :: bod ++ l);
    [|intros l; by rewrite -!app_assoc].
  rewrite PatchJump_run. do 3 f_equal. rewrite -!app_assoc. do 2 f_equal. cbn [app].
  set (w := operand_bytes OP_LOOP _).
  rewrite (_ : length (bod ++ to_byte OP_LOOP :: w) = length bod + 3); [|by rewrite length_app].
  unfold jump_bytes. rewrite (_ : w = operand_bytes OP_LOOP (Z.of_nat (length cond + length bod + 6) mod 2 ^ 16)%Z) //.
  unfold w. rewrite length_app. cbn [length]. do 2 f_equal. lia.
Qed.

Lemma VisitIf_run condition thenBlock c : appends condition → appends thenBlock →
  ∃ cond bod k, VisitIf condition thenBlock None c = Ok (tt, MkChunk
    (code c ++ cond ++ jump_bytes OP_JUMP_IF_FALSE (Z.of_nat (length bod)) ++ bod) k (debugName c)).
Proof.
  intros Hc Hb. destruct (Hc c) as (cond & k1 & Ec).
  destruct (Hb (push_code [to_byte OP_JUMP_IF_FALSE; 0xff%Z; 0xff%Z] (MkChunk (code c ++ cond) k1 (debugName c))))
    as (bod & k2 & Eb).
  exists cond, bod, k2. unfold Bytecode.VisitIf, mbind, st_bind. rewrite Ec EmitJump_run.
  cbn [code]. rewrite Eb. cbn [push_code code constants debugName].
  rewrite (_ : ((code c ++ cond) ++ [to_byte OP_JUMP_IF_FALSE; 0xff%Z; 0xff%Z]) ++ bod
             = (code c ++ cond ++ [to_byte OP_JUMP_IF_FALSE]) ++ 0xff%Z :: 0xff%Z :: bod);
    [|by rewrite -!app_assoc].
  rewrite (_ : length (code c ++ cond) + 1 = length (code c ++ cond ++ [to_byte OP_JUMP_IF_FALSE]));
    [|rewrite !length_app; cbn; lia].
  rewrite PatchJump_run. do 3 f_equal. by rewrite -!app_assoc.
Qed.

Lemma VisitIfElse_run condition thenBlock elseBlock c :
  appends condition → appends thenBlock → appends elseBlock →
  ∃ cond bod els k, VisitIf condition thenBlock (Some elseBlock) c = Ok (tt, MkChunk
    (code c ++ cond ++ jump_bytes OP_JUMP_IF_FALSE (Z.of_nat (length bod + 3)) ++ bod
     ++ jump_bytes OP_JUMP (Z.of_nat (length els)) ++ els) k (debugName c)).
Proof.
  intros Hc Hb He. destruct (Hc c) as (cond & k1 & Ec).
  destruct (Hb (push_code [to_byte OP_JUMP_IF_FALSE; 0xff%Z; 0xff%Z] (MkChunk (code c ++ cond) k1 (debugName c))))
    as (bod & k2 & Eb).
  set (pre := code c ++ cond ++ jump_bytes OP_JUMP_IF_FALSE (Z.of_nat (length bod + 3)) ++ bod ++ [to_byte OP_JUMP]).
  destruct (He (MkChunk (pre ++ [0xff%Z; 0xff%Z]) k2 (debugName c))) as (els & k3 & Ee).
  exists cond, bod, els, k3. unfold Bytecode.VisitIf, mbind, st_bind. rewrite Ec EmitJump_run.
  cbn [code]. rewrite Eb EmitJump_run. unfold push_code. cbn [code constants debugName].
  rewrite (_ : (((code c ++ cond) ++ [to_byte OP_JUMP_IF_FALSE; 0xff%Z; 0xff%Z]) ++ bod) ++ [to_byte OP_JUMP; 0xff%Z; 0xff%Z]
             = (code c ++ cond ++ [to_byte OP_JUMP_IF_FALSE]) ++ 0xff%Z :: 0xff%Z :: bod ++ [to_byte OP_JUMP; 0xff%Z; 0xff%Z]);
    [|by rewrite -!app_assoc].
  rewrite (_ : length (code c ++ cond) + 1 = length (code c ++ cond ++ [to_byte OP_JUMP_IF_FALSE]));
    [|rewrite !length_app; cbn; lia].
  rewrite PatchJump_run.
  rewrite (_ : length (bod ++ [to_byte OP_JUMP; 0xff%Z; 0xff%Z]) = length bod + 3); [|by rewrite length_app].
  rewrite (_ : (code c ++ cond ++ [to_byte OP_JUMP_IF_FALSE]) ++ operand_bytes OP_JUMP (Z.of_nat (length bod + 3) mod 2 ^ 16)%Z
               ++ bod ++ [to_byte OP_JUMP; 0xff%Z; 0xff%Z] = pre ++ [0xff%Z; 0xff%Z]);
    [|unfold pre, jump_bytes; by rewrite -!app_assoc].
  rewrite Ee. cbn [code debugName].
  rewrite (_ : length (((code c ++ cond) ++ [to_byte OP_JUMP_IF_FALSE; 0xff%Z; 0xff%Z]) ++ bod) + 1 = length pre);
    [|unfold pre; rewrite !length_app; cbn; lia].
  rewrite -app_assoc. cbn [app]. rewrite PatchJump_run. do 3 f_equal.
  unfold pre, jump_bytes. by rewrite -!app_assoc.
Qed.

(** The instruction at [at_], past whose operand the jump of [Dispatch] goes
    to [target]. *)
Definition goes_to (bytes : list Z) (op : OpCode) (at_ target : nat) : Prop :=
  ∃ w, fetch bytes at_ = Ok (Fetched (MkInstruction op w) (at_ + 3))
    ∧ (if decide (op = OP_LOOP) then loop_back (at_ + 3) w else jump_forward (length bytes) (at_ + 3) w)
      = Some target.

Lemma fetch_jump pre op w rest : named op → GetOperandSize op = Uint16 → (Z.of_nat w < 2 ^ 16)%Z →
  fetch (pre ++ jump_bytes op (Z.of_nat w) ++ rest) (length pre)
  = Ok (Fetched (MkInstruction op (Z.of_nat w)) (length pre + 3)).
Proof.
  intros Hop Hs Hw. unfold jump_bytes. rewrite Z.mod_small; [|lia].
  rewrite fetch_operands //; [|unfold uint16; lia]. unfold kept, operand_bytes. cbn [opcode operand]. by rewrite Hs.
Qed.

Lemma goes_forward pre op skipped rest : named op → GetOperandSize op = Uint16 → op ≠ OP_LOOP →
  (Z.of_nat (length skipped) < 2 ^ 16)%Z →
  goes_to (pre ++ jump_bytes op (Z.of_nat (length skipped)) ++ skipped ++ rest) op
    (length pre) (length pre + 3 + length skipped).
Proof.
  intros Hop Hs Hl Hw. eexists. split; [by apply fetch_jump|]. destruct (decide _); [done|].
  unfold jump_forward. set (bytes := pre ++ _).
  assert (length bytes = length pre + (3 + (length skipped + length rest))) as ->.
  { unfold bytes, jump_bytes, operand_bytes. rewrite Hs. by rewrite !length_app. }
  destruct (Z.ltb_spec (Z.of_nat (length pre + (3 + (length skipped + length rest))) - Z.of_nat (length pre + 3))
              (Z.of_nat (length skipped))); [lia|]. f_equal. lia.
Qed.

Lemma goes_back pre loop rest : (Z.of_nat (length loop + 3) < 2 ^ 16)%Z →
  goes_to (pre ++ loop ++ jump_bytes OP_LOOP (Z.of_nat (length loop + 3)) ++ rest) OP_LOOP
    (length pre + length loop) (length pre).
Proof.
  intros Hw. eexists. split.
  - rewrite app_assoc -length_app. by apply fetch_jump.
  - destruct (decide _); [|done]. unfold loop_back.
    destruct (Z.ltb_spec (Z.of_nat (length pre + length loop + 3)) (Z.of_nat (length loop + 3))); [lia|]. f_equal. lia.
Qed.

(** The length of a program with its jumps, by [lia]. *)
Ltac code_length :=
  repeat match goal with x := jump_bytes _ _ |- _ => subst x end;
  rewrite ?length_app; cbn [length jump_bytes operand_bytes GetOperandSize]; lia.

Lemma while_goes pre cond bod after :
  let test := jump_bytes OP_JUMP_IF_FALSE (Z.of_nat (length bod + 3)) in
  let loop := jump_bytes OP_LOOP (Z.of_nat (length cond + length bod + 6)) in
  (Z.of_nat (length (cond ++ test ++ bod ++ loop)) < 2 ^ 16)%Z →
  goes_to (pre ++ (cond ++ test ++ bod ++ loop) ++ after) OP_JUMP_IF_FALSE (length (pre ++ cond))
    (length (pre ++ cond ++ test ++ bod ++ loop))
  ∧ goes_to (pre ++ (cond ++ test ++ bod ++ loop) ++ after) OP_LOOP (length (pre ++ cond ++ test ++ bod))
    (length pre).
Proof.
  intros test loop Hl. assert (Hb : length bod + 3 = length (bod ++ loop)) by code_length.
  assert (Hc : length cond + length bod + 6 = length (cond ++ test ++ bod) + 3) by code_length. split.
  - pose proof (goes_forward (pre ++ cond) OP_JUMP_IF_FALSE (bod ++ loop) after I eq_refl) as H.
    rewrite -Hb -/test -!app_assoc in H |- *.
    rewrite (_ : length (pre ++ cond ++ test ++ bod ++ loop) = length (pre ++ cond) + 3 + (length bod + 3)); [|code_length].
    apply H; [done|]. revert Hl; code_length.
  - pose proof (goes_back pre (cond ++ test ++ bod) after) as H. rewrite -Hc -/loop -!app_assoc in H |- *.
    rewrite length_app. apply H. revert Hl; code_length.
Qed.

Lemma if_goes pre cond bod after : (Z.of_nat (length bod) < 2 ^ 16)%Z →
  let test := jump_bytes OP_JUMP_IF_FALSE (Z.of_nat (length bod)) in
  goes_to (pre ++ (cond ++ test ++ bod) ++ after) OP_JUMP_IF_FALSE (length (pre ++ cond))
    (length (pre ++ cond ++ test ++ bod)).
Proof.
  intros Hl test. pose proof (goes_forward (pre ++ cond) OP_JUMP_IF_FALSE bod after) as H.
  rewrite -/test -!app_assoc in H |- *.
  rewrite (_ : length (pre ++ cond ++ test ++ bod) = length (pre ++ cond) + 3 + length bod); [|code_length].
  by apply H.
Qed.

Lemma if_else_goes pre cond bod els after :
  (Z.of_nat (length bod + 3) < 2 ^ 16)%Z → (Z.of_nat (length els) < 2 ^ 16)%Z →
  let test := jump_bytes OP_JUMP_IF_FALSE (Z.of_nat (length bod + 3)) in
  let skip := jump_bytes OP_JUMP (Z.of_nat (length els)) in
  goes_to (pre ++ (cond ++ test ++ bod ++ skip ++ els) ++ after) OP_JUMP_IF_FALSE (length (pre ++ cond))
    (length (pre ++ cond ++ test ++ bod ++ skip))
  ∧ goes_to (pre ++ (cond ++ test ++ bod ++ skip ++ els) ++ after) OP_JUMP (length (pre ++ cond ++ test ++ bod))
    (length (pre ++ cond ++ test ++ bod ++ skip ++ els)).
Proof.
  intros Hl1 Hl2 test skip. assert (Hb : length bod + 3 = length (bod ++ skip)) by code_length. split.
  - pose proof (if_goes pre cond (bod ++ skip) (els ++ after)) as H. cbn zeta in H.
    rewrite -Hb -/test -!app_assoc in H |- *. by apply H.
  - pose proof (goes_forward (pre ++ cond ++ test ++ bod) OP_JUMP els after) as H.
    rewrite -/skip -!app_assoc in H |- *.
    rewrite (_ : length (pre ++ cond ++ test ++ bod ++ skip ++ els)
               = length (pre ++ cond ++ test ++ bod) + 3 + length els); [|code_length].
    by apply H.
Qed.

(** [while] and [if] statements, for any emitters of their parts: the code of
    the parts stands in order between the jumps; while a statement is shorter
    than 2^16 bytes, and whatever is written after it, a false condition leads
    behind the body, the end of the body of a loop to its condition, and the
    end of a then-block behind the else-block. *)
Theorem control_flow_targets condition body elseBlock c :
  appends condition → appends body → appends elseBlock →
  (∃ cond bod test loop k, length test = 3 ∧ length loop = 3
    ∧ VisitWhile condition body c =
        Ok (tt, MkChunk (code c ++ cond ++ test ++ bod ++ loop) k (debugName c))
    ∧ ((Z.of_nat (length (cond ++ test ++ bod ++ loop)) < 2 ^ 16)%Z → ∀ after,
        let bytes := code c ++ (cond ++ test ++ bod ++ loop) ++ after in
        let end_ := length (code c ++ cond ++ test ++ bod ++ loop) in
        goes_to bytes OP_JUMP_IF_FALSE (length (code c ++ cond)) end_
        ∧ goes_to bytes OP_LOOP (length (code c ++ cond ++ test ++ bod)) (length (code c))))
  ∧ (∃ cond bod test k, length test = 3
    ∧ VisitIf condition body None c = Ok (tt, MkChunk (code c ++ cond ++ test ++ bod) k (debugName c))
    ∧ ((Z.of_nat (length bod) < 2 ^ 16)%Z → ∀ after,
        goes_to (code c ++ (cond ++ test ++ bod) ++ after) OP_JUMP_IF_FALSE
          (length (code c ++ cond)) (length (code c ++ cond ++ test ++ bod))))
  ∧ (∃ cond bod els test skip k, length test = 3 ∧ length skip = 3
    ∧ VisitIf condition body (Some elseBlock) c =
        Ok (tt, MkChunk (code c ++ cond ++ test ++ bod ++ skip ++ els) k (debugName c))
    ∧ ((Z.of_nat (length bod + 3) < 2 ^ 16)%Z → (Z.of_nat (length els) < 2 ^ 16)%Z → ∀ after,
        let bytes := code c ++ (cond ++ test ++ bod ++ skip ++ els) ++ after in
        goes_to bytes OP_JUMP_IF_FALSE (length (code c ++ cond)) (length (code c ++ cond ++ test ++ bod ++ skip))
        ∧ goes_to bytes OP_JUMP (length (code c ++ cond ++ test ++ bod))
            (length (code c ++ cond ++ test ++ bod ++ skip ++ els)))).
Proof.
  intros Hc Hb He. split_and!.
  - destruct (VisitWhile_run condition body c Hc Hb) as (cond & bod & k & E).
    eexists cond, bod, _, _, k. split_and!; [| |exact E|]; [done..|]. intros Hl after. by apply while_goes.
  - destruct (VisitIf_run condition body c Hc Hb) as (cond & bod & k & E).
    eexists cond, bod, _, k. split_and!; [|exact E|]; [done|]. intros Hl after. by apply if_goes.
  - destruct (VisitIfElse_run condition body elseBlock c Hc Hb He) as (cond & bod & els & k & E).
    eexists cond, bod, els, _, _, k. split_and!; [| |exact E|]; [done..|]. intros Hl1 Hl2 after. by apply if_else_goes.
Qed.

Lemma appends_push bytes : appends (st_modify (push_code bytes)).
Proof. intros c. by exists bytes, (constants c). Qed.

Lemma control_flow_targets_witness :
  ∃ cond bod test k, length test = 3
    ∧ VisitIf (Write OP_DUP) (st_modify (push_code [3%Z; 4%Z])) None demo_chunk
      = Ok (tt, MkChunk ([0xff%Z] ++ cond ++ test ++ bod) k "demo")
    ∧ ((Z.of_nat (length bod) < 2 ^ 16)%Z → ∀ after,
        goes_to ([0xff%Z] ++ (cond ++ test ++ bod) ++ after) OP_JUMP_IF_FALSE
          (length ([0xff%Z] ++ cond)) (length ([0xff%Z] ++ cond ++ test ++ bod))).
Proof.
  exact (proj1 (proj2 (control_flow_targets (Write OP_DUP) (st_modify (push_code [3%Z; 4%Z])) (Write OP_POP) demo_chunk
    (appends_push _) (appends_push _) (appends_push _)))).
Defined.

(** A body of 65538 bytes: the distance is cut to 16 bits and a false
    condition leads into the body. *)
Example long_body_wraps :
  match VisitIf (Write OP_DUP) (st_modify (push_code (replicate (N.to_nat 65538) 3%Z))) None (MkChunk [] [] "") with
  | Ok (_, c) => fetch (code c) 1 = Ok (Fetched (MkInstruction OP_JUMP_IF_FALSE 2) 4)
                 ∧ jump_forward (length (code c)) 4 2 = Some 6
  | _ => False
  end.
Proof. vm_compute. done. Qed.
