(* ===== verification/Serialize.v ===== *)
(** * Serialized bytecode and the grammar text

    [src/Compiler.cpp]: [SerializeChunk] and the functions it uses, which
    write a chunk to a binary stream, and [NormalizeGrammar].  The machine is
    little-endian. *)

From S2P Require Import Prelude Value.
From Stdlib Require Import Lia SpecFloat.

Module Serialize.
Import Value.

Abbreviation bytes := (list Z).

(** ** Plain data *)

(** [WritePod] of an unsigned integer of [k] bytes. *)
Fixpoint little_endian (k : nat) (n : Z) : bytes :=
  match k with
  | 0 => []
  | S k => (n mod 256)%Z :: little_endian k (n / 256)
  end.

Definition write_uint8 (n : Z) : bytes := little_endian 1 n.
(** After [static_cast<uint32_t>] of a size. *)
Definition write_uint32 (n : nat) : bytes := little_endian 4 (Z.of_nat n mod 2 ^ 32).
(** Signed integers in two's complement. *)
Definition write_int32 (z : Z) : bytes := little_endian 4 (z mod 2 ^ 32).
Definition write_int64 (z : Z) : bytes := little_endian 8 (z mod 2 ^ 64).

(** The bits of a [double] in the format binary64; one NaN stands for all. *)
Definition double_bits (d : double) : Z :=
  let sign (s : bool) := if s then (2 ^ 63)%Z else 0%Z in
  match d with
  | S754_zero s => sign s
  | S754_infinity s => sign s + 2047 * 2 ^ 52
  | S754_nan => 2047 * 2 ^ 52 + 2 ^ 51
  | S754_finite s m e =>
      if (Zpos m <? 2 ^ 52)%Z then sign s + Zpos m
      else sign s + (e + 1075) * 2 ^ 52 + (Zpos m - 2 ^ 52)
  end%Z.
Definition write_double (d : double) : bytes := little_endian 8 (double_bits d).

Definition string_bytes (s : string) : bytes :=
  (λ c, Z.of_nat (nat_of_ascii c)) <$> String.list_ascii_of_string s.

Definition WriteString (s : string) : bytes := write_uint32 (String.length s) ++ string_bytes s.

(** ** Values, functions and chunks *)

Section each.
Context {A : Type} (write : A → result bytes).
Fixpoint write_each (xs : list A) : result bytes :=
  match xs with
  | [] => Ok []
  | x :: xs => b ← write x; bs ← write_each xs; Ok (b ++ bs)
  end.
End each.

Definition write_names (names : list string) : bytes := names ≫= WriteString.

(** [enum class ValueTag] *)
Definition tag_null : bytes := write_uint8 0.
Definition tag_bool : bytes := write_uint8 1.
Definition tag_int : bytes := write_uint8 2.
Definition tag_double : bytes := write_uint8 3.
Definition tag_string : bytes := write_uint8 4.
Definition tag_function : bytes := write_uint8 5.

(** The constants and the code, as functions and chunks end with them. *)
Definition write_code (code : list Z) : bytes := write_uint32 (length code) ++ code.

Fixpoint SerializeValue (v : Value) : result bytes :=
  match v with
  | VMonostate => Ok tag_null
  | VBool b => Ok (tag_bool ++ write_uint8 (if b then 1 else 0)%Z)
  | VInt64 z => Ok (tag_int ++ write_int64 z)
  | VDouble d => Ok (tag_double ++ write_double d)
  | VString None => Ok (tag_string ++ write_uint8 0)
  | VString (Some s) => Ok (tag_string ++ write_uint8 1 ++ WriteString s)
  | VFunction None => Throw (runtime_error "Cannot serialize null function constant")
  | VFunction (Some f) => b ← SerializeFunction f; Ok (tag_function ++ b)
  | VPtr _ _ => Throw (runtime_error "Unsupported constant type in bytecode serialization")
  end
with SerializeFunction (f : Function) : result bytes :=
  match f with
  | MkFunction _ name chunk arity minArity variadic captureNames =>
      match chunk with
      | None => Throw (runtime_error "Cannot serialize function without bytecode chunk")
      | Some (MkChunk code constants _) =>
          b ← write_each SerializeValue constants;
          Ok (WriteString name ++ write_int32 arity ++ write_int32 minArity
              ++ write_uint8 (if variadic then 1 else 0)%Z
              ++ write_uint32 (length captureNames) ++ write_names captureNames
              ++ write_uint32 (length constants) ++ b ++ write_code code)
      end
  end.

(** [output.write("AURB", 4)] and the version. *)
Definition header : bytes := string_bytes "AURB" ++ write_uint8 1.

Definition SerializeChunk (c : Chunk) : result bytes :=
  b ← write_each SerializeValue (constants c);
  Ok (header ++ write_uint32 (length (constants c)) ++ b ++ write_code (code c)).

(** ** [NormalizeGrammar] *)

Abbreviation text := (list ascii).
Definition newline : ascii := "010".

(** The lines [std::getline] reads: the text after the last line break is a
    line unless it is empty. *)
Fixpoint getlines (line : text) (input : text) : list text :=
  match input with
  | [] => match line with [] => [] | _ => [line] end
  | c :: input => if decide (c = newline) then line :: getlines [] input
                  else getlines (line ++ [c]) input
  end.

Definition fence : text := String.list_ascii_of_string "```".
(** [line.rfind("```", 0) == 0] *)
Definition is_fence (line : text) : bool := bool_decide (take 3 line = fence).

Definition NormalizeGrammar (input : text) : text :=
  filter (λ l, is_fence l = false) (getlines [] input) ≫= λ l, l ++ [newline].

End Serialize.
