(* ===== verification/SerializeSpec.v ===== *)
(** * Theorems about serialized bytecode

    The format is unambiguous: a serialized chunk determines the chunk, up to
    what is not written (addresses of functions and debug names). *)

From S2P Require Import Prelude Value ValueSpec Serialize.
From Stdlib Require Import Lia SpecFloat.

Import Value Serialize.
#[local] Open Scope Z_scope.

(** ** Induction over values, through the constants of functions *)

Section value_induction.
Variables (P : Value → Prop) (Q : Function → Prop).
Hypothesis Hleaf : ∀ v, (∀ f, v ≠ VFunction (Some f)) → P v.
Hypothesis Hfun : ∀ f, Q f → P (VFunction (Some f)).
Hypothesis Hnone : ∀ a n ar mi va cs, Q (MkFunction a n None ar mi va cs).
Hypothesis Hchunk : ∀ a n code consts d ar mi va cs,
  Forall P consts → Q (MkFunction a n (Some (MkChunk code consts d)) ar mi va cs).

Fixpoint value_induction (v : Value) : P v :=
  match v with
  | VMonostate => Hleaf VMonostate ltac:(done)
  | VBool b => Hleaf (VBool b) ltac:(done)
  | VInt64 z => Hleaf (VInt64 z) ltac:(done)
  | VDouble d => Hleaf (VDouble d) ltac:(done)
  | VString s => Hleaf (VString s) ltac:(done)
  | VFunction None => Hleaf (VFunction None) ltac:(done)
  | VFunction (Some f) => Hfun f (function_induction f)
  | VPtr k p => Hleaf (VPtr k p) ltac:(done)
  end
with function_induction (f : Function) : Q f :=
  match f with
  | MkFunction a n None ar mi va cs => Hnone a n ar mi va cs
  | MkFunction a n (Some (MkChunk code consts d)) ar mi va cs =>
      Hchunk a n code consts d ar mi va cs
        ((fix go consts : Forall P consts :=
            match consts with
            | [] => Forall_nil_2 P
            | v :: consts => Forall_cons_2 P v consts (value_induction v) (go consts)
            end) consts)
  end.
End value_induction.

(** ** What is written, what can be written, and what is in bounds *)

(** A value without what is not written. *)
Fixpoint erase (v : Value) : Value :=
  match v with
  | VFunction (Some f) => VFunction (Some (erase_function f))
  | _ => v
  end
with erase_function (f : Function) : Function :=
  match f with
  | MkFunction _ n c ar mi va cs =>
      MkFunction 0 n match c with
                     | Some (MkChunk code consts _) => Some (MkChunk code (map erase consts) "")
                     | None => None
                     end ar mi va cs
  end.
Definition erase_chunk (c : Chunk) : Chunk := MkChunk (code c) (map erase (constants c)) "".

(** The constants the format has a tag for. *)
Fixpoint supported (v : Value) : bool :=
  match v with
  | VFunction (Some f) => supported_function f
  | VFunction None | VPtr _ _ => false
  | _ => true
  end
with supported_function (f : Function) : bool :=
  match f with
  | MkFunction _ _ (Some (MkChunk _ consts _)) _ _ _ _ => forallb supported consts
  | MkFunction _ _ None _ _ _ _ => false
  end.

(** Sizes are counted in 32 bits, integers fit their types, doubles are
    binary64 numbers. *)
Definition size_ok {A} (l : list A) : bool := Z.of_nat (length l) <? 2 ^ 32.
Definition string_ok (s : string) : bool := Z.of_nat (String.length s) <? 2 ^ 32.
Definition int32_ok (z : Z) : bool := (- 2 ^ 31 <=? z) && (z <? 2 ^ 31).

Fixpoint in_bounds (v : Value) : bool :=
  match v with
  | VInt64 z => int64_ok z
  | VDouble d => valid_binary 53 1024 d
  | VString (Some s) => string_ok s
  | VFunction (Some f) => in_bounds_function f
  | _ => true
  end
with in_bounds_function (f : Function) : bool :=
  match f with
  | MkFunction _ n c ar mi _ cs =>
      string_ok n && int32_ok ar && int32_ok mi && size_ok cs && forallb string_ok cs
      && match c with
         | Some (MkChunk code consts _) => size_ok code && size_ok consts && forallb in_bounds consts
         | None => true
         end
  end.
Definition in_bounds_chunk (c : Chunk) : bool :=
  size_ok (code c) && size_ok (constants c) && forallb in_bounds (constants c).

(** ** Encodings that can be read back: a value is determined by any stream
    that starts with its encoding *)

Definition prefix_free {A} (write : A → bytes) (D : A → bool) : Prop :=
  ∀ x y r s, D x = true → D y = true → write x ++ r = write y ++ s → x = y ∧ r = s.

Lemma length_little_endian k n : length (little_endian k n) = k.
Proof. revert n. induction k as [|k IH]; intros n; cbn; [done|]. by rewrite IH. Qed.

Lemma little_endian_inj k m n :
  0 ≤ m < 256 ^ Z.of_nat k → 0 ≤ n < 256 ^ Z.of_nat k → little_endian k m = little_endian k n → m = n.
Proof.
  revert m n. induction k as [|k IH]; intros m n Hm Hn.
  { cbn in *. lia. }
  rewrite Nat2Z.inj_succ Z.pow_succ_r in Hm Hn; [|lia..].
  cbn [little_endian]. intros [= E1 E2]. apply IH in E2; [|split; [apply Z.div_pos|apply Z.div_lt_upper_bound]; lia..].
  rewrite (Z.div_mod m 256) // (Z.div_mod n 256) // E1 E2 //.
Qed.

Lemma little_endian_app k m n r s :
  0 ≤ m < 256 ^ Z.of_nat k → 0 ≤ n < 256 ^ Z.of_nat k →
  little_endian k m ++ r = little_endian k n ++ s → m = n ∧ r = s.
Proof.
  intros Hm Hn E. apply app_inj_1 in E as [E ->]; [|by rewrite !length_little_endian].
  split; [|done]. by apply (little_endian_inj k).
Qed.

Lemma wrap_inj w a b : 0 ≤ w → - 2 ^ w ≤ a < 2 ^ w → - 2 ^ w ≤ b < 2 ^ w →
  a mod 2 ^ (w + 1) = b mod 2 ^ (w + 1) → a = b.
Proof.
  intros Hw Ha Hb E. rewrite Z.pow_add_r // in E. change (2 ^ 1) with 2 in E.
  set (p := 2 ^ w) in *. assert (0 < p) by (apply Z.pow_pos_nonneg; lia).
  pose proof (Z.div_mod a (p * 2) ltac:(lia)) as Ea. pose proof (Z.div_mod b (p * 2) ltac:(lia)) as Eb.
  assert (a / (p * 2) = b / (p * 2)) by nia. congruence.
Qed.

Lemma uint32_free m n r s :
  (Z.of_nat m <? 2 ^ 32) = true → (Z.of_nat n <? 2 ^ 32) = true →
  write_uint32 m ++ r = write_uint32 n ++ s → m = n ∧ r = s.
Proof.
  intros Hm%Z.ltb_lt Hn%Z.ltb_lt. unfold write_uint32. rewrite !Z.mod_small; [|lia..].
  intros [E ->]%little_endian_app; [|cbn; lia..]. split; [lia|done].
Qed.

Lemma int32_free : prefix_free write_int32 int32_ok.
Proof.
  intros a b r s [Ha1%Z.leb_le Ha2%Z.ltb_lt]%andb_prop [Hb1%Z.leb_le Hb2%Z.ltb_lt]%andb_prop.
  intros [E ->]%little_endian_app; [|apply Z.mod_pos_bound; done..].
  split; [|done]. by apply (wrap_inj 31).
Qed.

Lemma int64_free : prefix_free write_int64 int64_ok.
Proof.
  unfold int64_ok, int64_min, int64_max.
  intros a b r s [Ha1%Z.leb_le Ha2%Z.leb_le]%andb_prop [Hb1%Z.leb_le Hb2%Z.leb_le]%andb_prop.
  intros [E ->]%little_endian_app; [|apply Z.mod_pos_bound; done..].
  split; [|done]. apply (wrap_inj 63); [lia..|exact E].
Qed.

(** ** Doubles *)

Lemma finite_shape m e : bounded 53 1024 m e = true →
  2 ^ 52 ≤ Zpos m < 2 ^ 53 ∧ -1074 ≤ e ≤ 971 ∨ Zpos m < 2 ^ 52 ∧ e = -1074.
Proof.
  unfold bounded, canonical_mantissa, fexp, emin. intros [Hc%Z.eqb_eq He%Z.leb_le]%andb_prop.
  rewrite digits_log2 in Hc. pose proof (Z.log2_spec (Zpos m) eq_refl) as [Hl Hu].
  destruct (decide (Z.log2 (Zpos m) = 52)) as [E|Hn].
  - left. rewrite E in Hl Hu. cbn in *. lia.
  - right. split; [|lia]. apply (Z.lt_le_trans _ _ _ Hu). apply Z.pow_le_mono_r; lia.
Qed.

Lemma double_bits_range d : valid_binary 53 1024 d = true → 0 ≤ double_bits d < 2 ^ 64.
Proof.
  destruct d as [[]|[]| |s m e]; try done. cbn [valid_binary double_bits].
  intros [?|?]%finite_shape; destruct (Z.ltb_spec (Zpos m) (2 ^ 52)); destruct s; lia.
Qed.

Lemma double_bits_inj x y :
  valid_binary 53 1024 x = true → valid_binary 53 1024 y = true → double_bits x = double_bits y → x = y.
Proof.
  destruct x as [s|s| |s m e], y as [s'|s'| |s' m' e']; cbn [valid_binary double_bits]; intros Hx Hy;
    try (apply finite_shape in Hx); try (apply finite_shape in Hy);
    repeat match goal with |- context [(?a <? ?b)] => destruct (Z.ltb_spec a b) end;
    repeat match goal with b : bool |- _ => destruct b end; intros E; try done; try lia.
  all: assert (m = m') as <- by lia; f_equal; lia.
Qed.

Lemma double_free : prefix_free write_double (valid_binary 53 1024).
Proof.
  intros x y r s Hx Hy [E ->]%little_endian_app; [|by apply double_bits_range..].
  split; [|done]. by apply double_bits_inj.
Qed.

(** ** Strings and lists *)

Lemma length_string_bytes s : length (string_bytes s) = String.length s.
Proof. unfold string_bytes. rewrite length_fmap. induction s; cbn; auto. Qed.

Lemma string_bytes_inj s t : string_bytes s = string_bytes t → s = t.
Proof.
  intros E. apply list_fmap_eq_inj in E.
  - by rewrite -(String.string_of_list_ascii_of_string s) E String.string_of_list_ascii_of_string.
  - intros a b Hab. apply Nat2Z.inj in Hab. by rewrite -(ascii_nat_embedding a) Hab ascii_nat_embedding.
Qed.

Lemma string_free : prefix_free WriteString string_ok.
Proof.
  intros x y r s Hx Hy. unfold WriteString. rewrite -!app_assoc. intros [Hl E]%uint32_free; [|done..].
  apply app_inj_1 in E as [E ->]; [|by rewrite !length_string_bytes].
  split; [|done]. by apply string_bytes_inj.
Qed.

Lemma names_free xs : ∀ ys r s, forallb string_ok xs = true → forallb string_ok ys = true →
  length xs = length ys → write_names xs ++ r = write_names ys ++ s → xs = ys ∧ r = s.
Proof.
  induction xs as [|x xs IH]; intros [|y ys] r s; try done.
  cbn [forallb]. intros [Hx Hxs]%andb_prop [Hy Hys]%andb_prop [= Hl].
  unfold write_names. cbn [mbind list_bind]. rewrite -!app_assoc. intros [-> E]%string_free; [|done..].
  destruct (IH ys r s) as [-> ->]; done.
Qed.

Lemma code_free (c d r s : bytes) : size_ok c = true → size_ok d = true →
  write_code c ++ r = write_code d ++ s → c = d ∧ r = s.
Proof.
  unfold write_code. intros Hc Hd. rewrite -!app_assoc. intros [Hl E]%uint32_free; [|done..].
  by apply app_inj_1 in E.
Qed.

Lemma byte_free a b (r s : bytes) : 0 ≤ a < 256 → 0 ≤ b < 256 →
  write_uint8 a ++ r = write_uint8 b ++ s → a = b ∧ r = s.
Proof. intros Ha Hb. apply little_endian_app; cbn; lia. Qed.

(** ** Values *)

Lemma Ok_inj {A} (a b : A) : Ok a = Ok b → a = b.
Proof. by intros [= ->]. Qed.

(** [v] is determined by any stream that starts with its encoding. *)
Definition determined (v : Value) : Prop :=
  ∀ v' b b' r s, in_bounds v = true → in_bounds v' = true →
    SerializeValue v = Ok b → SerializeValue v' = Ok b' → b ++ r = b' ++ s → erase v = erase v' ∧ r = s.
Definition determined_function (f : Function) : Prop :=
  ∀ f' b b' r s, in_bounds_function f = true → in_bounds_function f' = true →
    SerializeFunction f = Ok b → SerializeFunction f' = Ok b' → b ++ r = b' ++ s →
    erase_function f = erase_function f' ∧ r = s.

Lemma write_each_cons {A} (write : A → result bytes) x xs b :
  write_each write (x :: xs) = Ok b ↔ ∃ b1 b2, write x = Ok b1 ∧ write_each write xs = Ok b2 ∧ b = b1 ++ b2.
Proof.
  cbn. rewrite result_bind_Ok. split.
  - intros (b1 & E1 & (b2 & E2 & <-%Ok_inj)%result_bind_Ok). eauto.
  - intros (b1 & b2 & E1 & E2 & ->). exists b1. split; [done|]. by rewrite E2.
Qed.

Lemma constants_determined vs : Forall determined vs →
  ∀ vs' b b' r s, forallb in_bounds vs = true → forallb in_bounds vs' = true → length vs = length vs' →
    write_each SerializeValue vs = Ok b → write_each SerializeValue vs' = Ok b' → b ++ r = b' ++ s →
    map erase vs = map erase vs' ∧ r = s.
Proof.
  induction 1 as [|v vs Hv _ IH]; intros [|v' vs'] b b' r s; try done.
  { cbn. intros _ _ _ [= <-] [= <-]. done. }
  cbn [forallb]. intros [Bv Bvs]%andb_prop [Bv' Bvs']%andb_prop [= Hl].
  intros (b1 & b2 & E1 & E2 & ->)%write_each_cons (b1' & b2' & E1' & E2' & ->)%write_each_cons.
  rewrite -!app_assoc. intros E. destruct (Hv _ _ _ _ _ Bv Bv' E1 E1' E) as [Hev E'].
  destruct (IH _ _ _ _ _ Bvs Bvs' Hl E2 E2' E') as [Hevs ->]. cbn. by rewrite Hev Hevs.
Qed.

Lemma bool_byte (a b : bool) (r s : bytes) :
  write_uint8 (if a then 1 else 0) ++ r = write_uint8 (if b then 1 else 0) ++ s → a = b ∧ r = s.
Proof. destruct a, b; by intros [? ?]%byte_free. Qed.

Lemma app_step {A} (x t r x' t' s : list A) :
  (x ++ t) ++ r = (x' ++ t') ++ s → x ++ t ++ r = x' ++ t' ++ s.
Proof. by rewrite -!app_assoc. Qed.

Lemma in_bounds_function_parts a n code consts d ar mi va cs :
  in_bounds_function (MkFunction a n (Some (MkChunk code consts d)) ar mi va cs) = true →
  string_ok n = true ∧ int32_ok ar = true ∧ int32_ok mi = true ∧ size_ok cs = true
  ∧ forallb string_ok cs = true ∧ size_ok code = true ∧ size_ok consts = true ∧ forallb in_bounds consts = true.
Proof. by intros [[[[[? ?]%andb_prop ?]%andb_prop ?]%andb_prop ?]%andb_prop [[? ?]%andb_prop ?]%andb_prop]%andb_prop. Qed.

Lemma function_determined a n code consts d ar mi va cs :
  Forall determined consts → determined_function (MkFunction a n (Some (MkChunk code consts d)) ar mi va cs).
Proof.
  intros Hcs [a' n' [[code' consts' d']|] ar' mi' va' cs'] b b' r s; [|done].
  intros (Bn & Bar & Bmi & Bcs & Bstr & Bcode & Bk & Bks)%in_bounds_function_parts.
  intros (Bn' & Bar' & Bmi' & Bcs' & Bstr' & Bcode' & Bk' & Bks')%in_bounds_function_parts.
  cbn [SerializeFunction].
  intros (k & Ek & <-%Ok_inj)%result_bind_Ok (k' & Ek' & <-%Ok_inj)%result_bind_Ok.
  intros [-> E]%app_step%string_free; [|done..]. apply app_step, int32_free in E as [-> E]; [|done..].
  apply app_step, int32_free in E as [-> E]; [|done..]. apply app_step, bool_byte in E as [-> E].
  apply app_step, uint32_free in E as [Hl E]; [|done..]. apply app_step, names_free in E as [-> E]; [|done..].
  apply app_step, uint32_free in E as [Hl' E]; [|done..]. apply app_step in E.
  destruct (constants_determined consts Hcs _ _ _ _ _ Bks Bks' Hl' Ek Ek' E) as [Hm E'].
  apply code_free in E' as [-> ->]; [|done..]. cbn. by rewrite Hm.
Qed.

(** The tag of a value. *)
Definition tag_of (v : Value) : Z :=
  match v with
  | VMonostate => 0 | VBool _ => 1 | VInt64 _ => 2 | VDouble _ => 3 | VString _ => 4 | _ => 5
  end.

Lemma SerializeValue_tag v b : SerializeValue v = Ok b → ∃ rest, b = write_uint8 (tag_of v) ++ rest.
Proof.
  destruct v as [|x|z|d|[s|]|[f|]|]; cbn [SerializeValue]; try done; try (intros <-%Ok_inj; by eexists).
  intros (k & _ & <-%Ok_inj)%result_bind_Ok. by eexists.
Qed.

(** A stream that starts with the encodings of two values: same tag. *)
Lemma same_tag v v' b b' r s :
  SerializeValue v = Ok b → SerializeValue v' = Ok b' → b ++ r = b' ++ s → tag_of v = tag_of v'.
Proof.
  intros [rest ->]%SerializeValue_tag [rest' ->]%SerializeValue_tag.
  intros [Ht _]%app_step%byte_free; [done|by destruct v|by destruct v'].
Qed.

(** The encodings of two values with one tag: drop the tag. *)
Ltac drop_tag := intros Hv Hv' E; apply Ok_inj in Hv as <-; apply Ok_inj in Hv' as <-;
  try apply app_step in E; apply app_inv_head in E.

Lemma leaf_determined v : (∀ f, v ≠ VFunction (Some f)) → determined v.
Proof.
  intros Hleaf v' b b' r s Bv Bv' Hv Hv' E. pose proof (same_tag _ _ _ _ _ _ Hv Hv' E) as Ht.
  revert Hv Hv' E. destruct v as [|x|z|d|[st|]|[f|]|]; try done; [..|by edestruct Hleaf];
    destruct v' as [|x'|z'|d'|[st'|]|[f'|]|]; try done; cbn [SerializeValue]; drop_tag.
  - done.
  - by apply bool_byte in E as [-> ->].
  - by apply int64_free in E as [-> ->].
  - by apply double_free in E as [-> ->].
  - apply app_step, app_inv_head in E. by apply string_free in E as [-> ->].
  - by apply byte_free in E as [? _].
  - by apply byte_free in E as [? _].
  - by apply byte_free in E as [_ ->].
Qed.

Lemma value_determined v : determined v.
Proof.
  revert v. apply (value_induction determined determined_function).
  - apply leaf_determined.
  - intros f Hf v' b b' r s Bv Bv' Hv Hv' E. pose proof (same_tag _ _ _ _ _ _ Hv Hv' E) as Ht.
    destruct v' as [|x'|z'|d'|[st'|]|[f'|]|]; try done. cbn [SerializeValue] in Hv, Hv'.
    apply result_bind_Ok in Hv as (k & Ek & <-%Ok_inj), Hv' as (k' & Ek' & <-%Ok_inj).
    apply app_step, app_inv_head in E.
    destruct (Hf _ _ _ _ _ Bv Bv' Ek Ek' E) as [He ->]. cbn. by rewrite He.
  - done.
  - intros. by apply function_determined.
Qed.

(** ** What can be serialized *)

Lemma write_each_supported vs :
  Forall (λ v, match SerializeValue v with
               | Ok _ => supported v = true
               | Throw e => supported v = false ∧ ∃ m, e = runtime_error m
               | Diverge => False end) vs →
  match write_each SerializeValue vs with
  | Ok _ => forallb supported vs = true
  | Throw e => forallb supported vs = false ∧ ∃ m, e = runtime_error m
  | Diverge => False
  end.
Proof.
  induction 1 as [|v vs Hv _ IH]; [done|]. cbn. destruct (SerializeValue v); cbn; [|by destruct Hv as [-> ?]|done].
  rewrite Hv. by destruct (write_each SerializeValue vs).
Qed.

Lemma SerializeValue_supported v :
  match SerializeValue v with
  | Ok _ => supported v = true
  | Throw e => supported v = false ∧ ∃ m, e = runtime_error m
  | Diverge => False
  end.
Proof.
  revert v. apply (value_induction _ (λ f, match SerializeFunction f with
    | Ok _ => supported_function f = true
    | Throw e => supported_function f = false ∧ ∃ m, e = runtime_error m
    | Diverge => False end)).
  - intros [|b|z|d|[s|]|[f|]|] Hv; cbn; try done; [by edestruct Hv|eauto..].
  - intros f Hf. cbn. by destruct (SerializeFunction f).
  - intros. cbn. eauto.
  - intros a n code consts d ar mi va cs Hcs%write_each_supported. cbn.
    by destruct (write_each SerializeValue consts).
Qed.

(** C33. [SerializeChunk] succeeds exactly for chunks whose constants, down through
    the functions, have a tag in the format and whose functions have code; it
    throws a [runtime_error] for every other; and the bytes determine the
    chunk, up to debug names and the addresses of functions. *)
Theorem SerializeChunk_correct c :
  match SerializeChunk c with
  | Ok b => forallb supported (constants c) = true ∧ header `prefix_of` b
      ∧ ∀ c' b' r, in_bounds_chunk c = true → in_bounds_chunk c' = true →
          SerializeChunk c' = Ok b' → b' ++ r = b → erase_chunk c = erase_chunk c' ∧ r = []
  | Throw e => forallb supported (constants c) = false ∧ ∃ m, e = runtime_error m
  | Diverge => False
  end.
Proof.
  pose proof (write_each_supported (constants c) (proj2 (Forall_forall _ _) (λ v _, SerializeValue_supported v))) as Hs.
  unfold SerializeChunk at 1. destruct (write_each SerializeValue (constants c)) as [k| |] eqn:Ek; [|done..].
  cbn [mbind result_bind]. split; [done|]. split; [by eexists|].
  unfold in_bounds_chunk. intros c' b' r [[Bc Bk]%andb_prop Bv]%andb_prop [[Bc' Bk']%andb_prop Bv']%andb_prop.
  intros (k' & Ek' & <-%Ok_inj)%result_bind_Ok E. pose proof (eq_trans E (eq_sym (app_nil_r _))) as E0.
  apply app_step, app_inv_head in E0. apply app_step, uint32_free in E0 as [Hl E0]; [|done..]. apply app_step in E0.
  destruct (constants_determined (constants c')
    (proj2 (Forall_forall _ _) (λ v _, value_determined v)) _ _ _ _ _ Bv' Bv Hl Ek' Ek E0) as [Hm E']. apply code_free in E' as [Hc ->]; [|done..].
  unfold erase_chunk. by rewrite Hc Hm.
Qed.

Definition demo_function : Value :=
  VFunction (Some (MkFunction 7 "f" (Some (MkChunk [1; 0; 0; 255] [VInt64 (-2); VString (Some "x")] "f")) 1 1 false ["y"])).

(** A chunk with a function among its constants, and the chunk with its
    constants in the other order. *)
Lemma SerializeChunk_correct_witness :
  ∃ b, SerializeChunk (MkChunk [255] [demo_function; VBool true] "top") = Ok b ∧ length b = 68%nat
    ∧ ∀ b', SerializeChunk (MkChunk [255] [VBool true; demo_function] "top") = Ok b' → b' ≠ b.
Proof.
  pose proof (SerializeChunk_correct (MkChunk [255] [demo_function; VBool true] "top")) as H.
  destruct (SerializeChunk (MkChunk [255] [demo_function; VBool true] "top")) as [b| |] eqn:E;
    [|by destruct H as [H _]; vm_compute in H|done].
  exists b. split; [done|]. split; [by vm_compute in E; injection E as <-|].
  intros b' Hb' ->. destruct H as (_ & _ & H).
  destruct (H (MkChunk [255] [VBool true; demo_function] "top") b []) as [He _];
    [by vm_compute|by vm_compute|exact Hb'|by rewrite app_nil_r|]. by vm_compute in He.
Defined.

(** ** The grammar text *)

Definition line_ok (l : text) : Prop := newline ∉ l.

Lemma getlines_line line l rest : newline ∉ l →
  getlines line (l ++ newline :: rest) = (line ++ l) :: getlines [] rest.
Proof.
  revert line. induction l as [|c l IH]; intros line Hl; cbn [app getlines].
  - destruct (decide _); [by rewrite app_nil_r|done].
  - destruct (decide _) as [->|]; [by edestruct Hl; left|]. rewrite IH -?app_assoc //. set_solver.
Qed.

Lemma getlines_unlines ls : Forall line_ok ls → getlines [] (ls ≫= λ l, l ++ [newline]) = ls.
Proof.
  induction 1 as [|l ls Hl _ IH]; [done|]. by rewrite bind_cons -app_assoc getlines_line // IH.
Qed.

Lemma getlines_ok input : ∀ line, line_ok line → Forall line_ok (getlines line input).
Proof.
  induction input as [|c input IH]; intros line Hl; cbn [getlines].
  - destruct line; by repeat constructor.
  - destruct (decide _) as [->|Hc]; [constructor; [done|]; apply IH; by intros ?%elem_of_nil|].
    apply IH. unfold line_ok. intros [?|E%list_elem_of_singleton]%elem_of_app; [done|congruence].
Qed.

Lemma getlines_text input : ∀ line, line_ok line →
  (getlines line input ≫= λ l, l ++ [newline]) = line ++ input
  ∨ (getlines line input ≫= λ l, l ++ [newline]) = line ++ input ++ [newline].
Proof.
  induction input as [|c input IH]; intros line Hl; cbn [getlines].
  - destruct line; [by left|right]. cbn. by rewrite app_nil_r.
  - destruct (decide _) as [->|Hc].
    + rewrite bind_cons -app_assoc. destruct (IH [] ltac:(by intros ?%elem_of_nil)) as [E|E];
        rewrite E; [by left|by right].
    + rewrite (_ : line ++ c :: input = (line ++ [c]) ++ input); [|by rewrite -app_assoc].
      rewrite (_ : line ++ (c :: input) ++ [newline] = (line ++ [c]) ++ input ++ [newline]); [|by rewrite -app_assoc].
      apply IH. intros [?|E%list_elem_of_singleton]%elem_of_app; [done|congruence].
Qed.

Lemma filter_everything {A} (P : A → Prop) `{∀ x, Decision (P x)} l : Forall P l → filter P l = l.
Proof. induction 1 as [|x l Hx _ IH]; [done|]. by rewrite filter_cons_True // IH. Qed.

(** [NormalizeGrammar] keeps exactly the lines that do not start with the
    fence, in order, ends each with a line break, changes a text without such
    lines in no other way, and does nothing to its own result. *)
Theorem NormalizeGrammar_correct input :
  getlines [] (NormalizeGrammar input) = filter (λ l, is_fence l = false) (getlines [] input)
  ∧ NormalizeGrammar (NormalizeGrammar input) = NormalizeGrammar input
  ∧ (Forall (λ l, is_fence l = false) (getlines [] input) →
     NormalizeGrammar input = input ∨ NormalizeGrammar input = input ++ [newline]).
Proof.
  assert (Hlines : getlines [] (NormalizeGrammar input) = filter (λ l, is_fence l = false) (getlines [] input)).
  { apply getlines_unlines, Forall_forall. intros l [_ Hl]%list_elem_of_filter.
    revert l Hl. apply Forall_forall, getlines_ok. by intros ?%elem_of_nil. }
  split; [done|]. split.
  - unfold NormalizeGrammar at 1. rewrite Hlines list_filter_filter_l //.
  - intros Hf. unfold NormalizeGrammar. rewrite filter_everything //. apply getlines_text. by intros ?%elem_of_nil.
Qed.

Lemma NormalizeGrammar_correct_witness :
  let input := String.list_ascii_of_string "a -> b" in
  Forall (λ l, is_fence l = false) (getlines [] input)
  ∧ (NormalizeGrammar input = input ∨ NormalizeGrammar input = input ++ [newline]).
Proof.
  intros input. assert (Hf : Forall (λ l, is_fence l = false) (getlines [] input)) by repeat constructor.
  split; [done|]. exact (proj2 (proj2 (NormalizeGrammar_correct input)) Hf).
Defined.
