(* ===== verification/Execution.v ===== *)
(** * The state of an execution context

    [src/vm/runtime/ExecutionContext.h], the value stack and the scopes of
    [ExecutionContextCore.cpp], [ExecutionContextFrames.cpp] and
    [ExecutionContextEffects.cpp].  The stack and the frames of the virtual
    machine have fixed limits; the handlers of effects and the transactions
    are stacks of their own, whose heights a frame remembers. *)

From S2P Require Import Prelude SyncRuntime Transactions Value.
From Stdlib Require Import Lia.

Module Execution.
Import Value.

Definition STACK_MAX : nat := 64 * 64. (** 4096 *)
Definition FRAMES_MAX : nat := 64.
Definition SCOPE_DEPTH_MAX : nat := 256.
#[global] Arguments STACK_MAX : simpl never.
#[global] Arguments FRAMES_MAX : simpl never.
#[global] Arguments SCOPE_DEPTH_MAX : simpl never.

(** [struct CallFrame] *)
Record CallFrame := MkFrame {
  function : Function;
  closure : option nat;
  ip : nat;
  stackBase : nat;
  transactionBase : nat;
  handlerBase : nat;
}.

(** [class Scope], without its parent. *)
Record Scope := MkScope { m_variables : gmap string Value; m_isFunctionScope : bool }.

(** [EffectHandlerMap::handlers] *)
Abbreviation handlers := (gmap string Value).

(** The actors that [SharedRuntime] knows of, by their number. *)
Record registry := MkRegistry { m_nextActorId : nat; m_actors : gmap nat nat }.

(** [ExecutionContext].  Vectors have their back last; the chain of scopes has
    the current scope first; [m_heap] holds what pointers other than those to
    arrays and instances lead to, [m_ctx] the rest; [m_output] is what was
    printed to [std::cout]. *)
Record t := Mk {
  m_valueStack : list Value;
  m_frames : list CallFrame;
  m_scopes : list Scope;
  m_handlerStack : list (option handlers);
  m_heap : heap;
  m_ctx : Ctx.t Value;
  m_output : string;
  m_registry : registry;
}.

Definition set_stack (l : list Value) (s : t) : t :=
  Mk l (m_frames s) (m_scopes s) (m_handlerStack s) (m_heap s) (m_ctx s) (m_output s) (m_registry s).
Definition set_frames (l : list CallFrame) (s : t) : t :=
  Mk (m_valueStack s) l (m_scopes s) (m_handlerStack s) (m_heap s) (m_ctx s) (m_output s) (m_registry s).
Definition set_scopes (l : list Scope) (s : t) : t :=
  Mk (m_valueStack s) (m_frames s) l (m_handlerStack s) (m_heap s) (m_ctx s) (m_output s) (m_registry s).
Definition set_handlers (l : list (option handlers)) (s : t) : t :=
  Mk (m_valueStack s) (m_frames s) (m_scopes s) l (m_heap s) (m_ctx s) (m_output s) (m_registry s).
Definition set_heap (h : heap) (s : t) : t :=
  Mk (m_valueStack s) (m_frames s) (m_scopes s) (m_handlerStack s) h (m_ctx s) (m_output s) (m_registry s).
Definition set_ctx (c : Ctx.t Value) (s : t) : t :=
  Mk (m_valueStack s) (m_frames s) (m_scopes s) (m_handlerStack s) (m_heap s) c (m_output s) (m_registry s).
Definition set_shared (output : string) (r : registry) (s : t) : t :=
  Mk (m_valueStack s) (m_frames s) (m_scopes s) (m_handlerStack s) (m_heap s) (m_ctx s) output r.

Abbreviation vm := (est t).

Definition RaiseError (message : string) : vm unit :=
  est_modify (λ s, set_ctx (Ctx.RaiseError message (m_ctx s)) s).
Definition HasError (s : t) : bool := negb (bool_decide (Ctx.m_errorMessage (m_ctx s) = "")).

(** ** The value stack *)

Definition StackSize (s : t) : nat := length (m_valueStack s).

Definition PushValue (value : Value) : vm unit := λ s,
  if STACK_MAX <=? StackSize s then (s, Throw (overflow_error "Value stack overflow"))
  else (set_stack (m_valueStack s ++ [value]) s, Ok tt).

Definition floor (s : t) : nat :=
  match last (m_frames s) with Some frame => stackBase frame | None => 0 end.

Definition PopValue : vm Value := λ s,
  if StackSize s <=? floor s then (s, Throw (underflow_error "Value stack underflow"))
  else match last (m_valueStack s) with
  | Some value => (set_stack (pop_back (m_valueStack s)) s, Ok value)
  | None => (s, Throw (undefined_behaviour "back of an empty vector"))
  end.

(** [m_valueStack[index]] *)
Definition read_slot (index : nat) : vm Value := λ s,
  match m_valueStack s !! index with
  | Some value => (s, Ok value)
  | None => (s, Throw (undefined_behaviour "vector index out of range"))
  end.

(** Counted from the top. *)
Definition from_top (depth : nat) (message : string) : vm Value := λ s,
  if StackSize s <=? depth then (s, Throw (out_of_range message))
  else read_slot (StackSize s - 1 - depth) s.
Definition PeekValue (depth : nat) : vm Value := from_top depth "Peek depth exceeds stack size".
Definition Peek (distance : nat) : vm Value := from_top distance "Peek out of bounds".

Definition SetAt (index : nat) (val : Value) : vm unit := λ s,
  if StackSize s <=? index then (s, Throw (out_of_range "Local variable index out of bounds"))
  else (set_stack (<[index := val]> (m_valueStack s)) s, Ok tt).
Definition GetAt (index : nat) : vm Value := λ s,
  match m_valueStack s !! index with
  | Some value => (s, Ok value)
  | None => (s, Throw (out_of_range "Local variable index out of bounds"))
  end.

Definition ClearStack : vm unit := λ s,
  (Mk [] [] (m_scopes s) [] (m_heap s) (Ctx.set_transactions [] (m_ctx s)) (m_output s) (m_registry s), Ok tt).

(** [while (StackSize() > size) PopValue();], where the stack has at most
    [fuel] values. *)
Fixpoint pop_to (fuel size : nat) : vm unit := λ s,
  if StackSize s <=? size then (s, Ok tt)
  else match fuel with
  | 0 => (s, Diverge)
  | S fuel => (_ ← PopValue; pop_to fuel size) s
  end.
Definition pop_down_to (size : nat) : vm unit := λ s, pop_to (StackSize s) size s.

(** ** Frames *)

Definition ActiveTransactionCount (s : t) : nat := length (Ctx.m_activeTransactions (m_ctx s)).

Definition PushFrame (func : Function) (closure : option nat) (base : nat) : vm unit := λ s,
  if FRAMES_MAX <=? length (m_frames s) then (s, Throw (runtime_error "Stack overflow (too many frames)"))
  else (set_frames (m_frames s ++ [MkFrame func closure 0 base (ActiveTransactionCount s)
                                     (length (m_handlerStack s))]) s, Ok tt).

Definition PopFrame : vm unit := λ s,
  match m_frames s with
  | [] => (s, Throw (runtime_error "Stack underflow (no frames to pop)"))
  | l => (set_frames (pop_back l) s, Ok tt)
  end.

Definition CurrentFrame : vm CallFrame := λ s,
  match last (m_frames s) with
  | Some frame => (s, Ok frame)
  | None => (s, Throw (runtime_error "No active call frame"))
  end.

(** Assignment to the [ip] of the current frame. *)
Definition set_ip (n : nat) (frame : CallFrame) : CallFrame :=
  MkFrame (function frame) (closure frame) n (stackBase frame) (transactionBase frame) (handlerBase frame).
Definition SetIp (n : nat) : vm unit := λ s,
  match last (m_frames s) with
  | Some frame => (set_frames (pop_back (m_frames s) ++ [set_ip n frame]) s, Ok tt)
  | None => (s, Throw (undefined_behaviour "back of an empty vector"))
  end.

(** [m_frames.back()] of no frame is undefined. *)
Definition absolute_index (index : nat) : vm nat := λ s,
  match last (m_frames s) with
  | Some frame =>
      if StackSize s <=? stackBase frame + index then (s, Throw (out_of_range "Local index out of bounds"))
      else (s, Ok (stackBase frame + index))
  | None => (s, Throw (undefined_behaviour "back of an empty vector"))
  end.
Definition SetLocal (index : nat) (val : Value) : vm unit :=
  absoluteIndex ← absolute_index index;
  est_modify (λ s, set_stack (<[absoluteIndex := val]> (m_valueStack s)) s).
Definition GetLocal (index : nat) : vm Value :=
  absoluteIndex ← absolute_index index; read_slot absoluteIndex.

(** The captures of the closure of the current frame. *)
Definition captures_of (c : option nat) (s : t) : option (nat * option Function * list Value) :=
  match c with
  | Some p => match m_heap s !! p with
              | Some (OClosure f captures) => Some (p, f, captures)
              | _ => None
              end
  | None => None
  end.
Definition read_upvalue (index : nat) (frame : CallFrame) : vm Value := λ s,
  match captures_of (closure frame) s with
  | Some (_, _, captures) =>
      match captures !! index with
      | Some value => (s, Ok value)
      | None => (s, Throw (out_of_range "Upvalue index out of bounds"))
      end
  | None => (s, Throw (out_of_range "Upvalue index out of bounds"))
  end.
Definition GetUpvalue (index : nat) : vm Value := frame ← CurrentFrame; read_upvalue index frame.

Definition write_upvalue (index : nat) (val : Value) (frame : CallFrame) : vm unit := λ s,
  match captures_of (closure frame) s with
  | Some (p, f, captures) =>
      if length captures <=? index then (s, Throw (out_of_range "Upvalue index out of bounds"))
      else (set_heap (<[p := OClosure f (<[index := val]> captures)]> (m_heap s)) s, Ok tt)
  | None => (s, Throw (out_of_range "Upvalue index out of bounds"))
  end.

Definition SetUpvalue (index : nat) (val : Value) : vm unit :=
  frame ← CurrentFrame; write_upvalue index val frame.

(** ** Handlers of effects *)

Definition PushHandlerMap (handlerMap : option handlers) : vm unit :=
  est_modify (λ s, set_handlers (m_handlerStack s ++ [handlerMap]) s).

Definition PopHandlerMap : vm bool := λ s,
  match m_handlerStack s with
  | [] => ((RaiseError "Handler stack underflow" s).1, Ok false)
  | l => (set_handlers (pop_back l) s, Ok true)
  end.

(** The loop that pops while there are more than [base]. *)
Definition UnwindHandlers (base : nat) : vm unit :=
  est_modify (λ s, set_handlers (take base (m_handlerStack s)) s).

(** From the back of the stack to its front. *)
Fixpoint resolve (effectName : string) (l : list (option handlers)) : Value :=
  match l with
  | [] => VMonostate
  | Some m :: l => match m !! effectName with Some v => v | None => resolve effectName l end
  | None :: l => resolve effectName l
  end.
Definition ResolveHandledEffect (effectName : string) (s : t) : Value :=
  resolve effectName (reverse (m_handlerStack s)).

Definition ClearHandlers : vm unit := est_modify (set_handlers []).

(** ** Scopes *)

Definition EnterScope (isFunction : bool) : vm unit := λ s,
  if SCOPE_DEPTH_MAX <=? length (m_scopes s) then (s, Throw (overflow_error "Scope depth limit exceeded"))
  else (set_scopes (MkScope ∅ isFunction :: m_scopes s) s, Ok tt).

(** Leaves the current scope; [false] when there is none. *)
Definition ExitScope : vm bool := λ s,
  match m_scopes s with
  | [] => (s, Ok false)
  | _ :: l => (set_scopes l s, Ok (match l with [] => false | _ => true end))
  end.

(** [Scope::SetVariable], [GetVariable] and [HasVariable] of the first scope
    of a chain. *)
Definition SetVariable (name : string) (value : Value) (l : list Scope) : list Scope :=
  match l with
  | [] => []
  | scope :: l => MkScope (<[name := value]> (m_variables scope)) (m_isFunctionScope scope) :: l
  end.
Fixpoint GetVariable (name : string) (l : list Scope) : option Value :=
  match l with
  | [] => None
  | scope :: l => match m_variables scope !! name with Some v => Some v | None => GetVariable name l end
  end.
Fixpoint HasVariable (name : string) (l : list Scope) : bool :=
  match l with
  | [] => false
  | scope :: l => match m_variables scope !! name with Some _ => true | None => HasVariable name l end
  end.

End Execution.
