(* ===== verification/Support.v ===== *)
(** * What the handlers of the virtual machine share

    [src/vm/execution/common/VirtualMachineRuntimeSupport.h], [make_shared] and
    the reading of operands. *)

From S2P Require Import Prelude SyncRuntime Transactions Value Execution.
From Stdlib Require Import Lia.

Module Support.
Import Value Execution.

(** A handler returns an [int]: 0 is [true] here, [RuntimeError] [false]. *)
Definition Fail (message : string) : vm bool := λ s,
  let message := match last (m_frames s) with
                 | Some frame => if decide (f_name (function frame) = "") then message
                                 else message +:+ " [in " +:+ f_name (function frame) +:+ "]"
                 | None => message
                 end in
  ((RaiseError message s).1, Ok false).
Definition succeed (b : bool) : vm bool := mret b.

(** The end of most handlers. *)
Definition push_result (v : Value) : vm bool := _ ← PushValue v; succeed true.

Definition null_pointer {A} : vm A := est_throw (undefined_behaviour "null pointer").
Definition wrong_object {A} : vm A := est_throw (undefined_behaviour "object of another type").

(** ** Objects *)

(** What printing reads of the objects. *)
Definition object_heap (s : t) : heap := (OArray <$> Ctx.arrays (Ctx.committed (m_ctx s))) ∪ m_heap s.

(** [std::make_shared]: the address of no object. *)
Definition fresh_address (s : t) : nat :=
  fresh (dom (m_heap s) ∪ dom (Ctx.arrays (Ctx.committed (m_ctx s)))
         ∪ dom (Ctx.instances (Ctx.committed (m_ctx s))) : gset nat).
Definition new_object (o : object) : vm nat := λ s,
  let p := fresh_address s in (set_heap (<[p := o]> (m_heap s)) s, Ok p).
Definition new_array (elements : list Value) : vm nat := λ s,
  let p := fresh_address s in
  let c := Ctx.committed (m_ctx s) in
  (set_ctx (Ctx.set_committed (Ctx.MkStore (Ctx.m_globals c) (Ctx.m_threadLocalGlobals c)
     (<[p := elements]> (Ctx.arrays c)) (Ctx.instances c)) (m_ctx s)) s, Ok p).
Definition new_instance (fields : list Value) : vm nat := λ s,
  let p := fresh_address s in
  let c := Ctx.committed (m_ctx s) in
  (set_ctx (Ctx.set_committed (Ctx.MkStore (Ctx.m_globals c) (Ctx.m_threadLocalGlobals c)
     (Ctx.arrays c) (<[p := fields]> (Ctx.instances c))) (m_ctx s)) s, Ok p).

Definition read_object (p : nat) : vm object := λ s,
  match m_heap s !! p with
  | Some o => (s, Ok o)
  | None => (s, Throw (undefined_behaviour "dangling pointer"))
  end.
Definition write_object (p : nat) (o : object) : vm unit := est_modify (λ s, set_heap (<[p := o]> (m_heap s)) s).

(** The committed elements of an array, and the fields of an instance. *)
Definition array_elements (p : option nat) : vm (list Value) :=
  match p with
  | None => null_pointer
  | Some p => s ← est_get; est_lift (Ctx.deref (Ctx.arrays (Ctx.committed (m_ctx s))) p)
  end.
Definition instance_fields (p : option nat) : vm (list Value) :=
  match p with
  | None => null_pointer
  | Some p => s ← est_get; est_lift (Ctx.deref (Ctx.instances (Ctx.committed (m_ctx s))) p)
  end.

(** A method of the context with transactions. *)
Definition on_ctx {A} (m : st (Ctx.t Value) A) : vm A := est_zoom m_ctx set_ctx m.
Definition GetGlobal (name : string) : vm (option Value) := s ← est_get; mret (Ctx.GetGlobal name (m_ctx s)).

(** ** The stack *)

(** [n] values, the last of them on top of the stack. *)
Fixpoint pop_values (n : nat) (acc : list Value) : vm (list Value) :=
  match n with
  | 0 => mret acc
  | S n => v ← PopValue; pop_values n (v :: acc)
  end.

(** [GetAt(first)], ..., [n] values. *)
Fixpoint get_args (first n : nat) : vm (list Value) :=
  match n with
  | 0 => mret []
  | S n => v ← GetAt first; vs ← get_args (S first) n; mret (v :: vs)
  end.

(** [size_t] arithmetic wraps around. *)
Definition size_t (z : Z) : nat := Z.to_nat (z mod 2 ^ 64).

(** [ValueHelper::As<int64_t>] *)
Definition as_index (v : Value) : vm Z :=
  match as_int64 v with Some r => est_lift r | None => est_throw bad_variant_access end.

(** ** Operands *)

Definition code_of (f : Function) : list Z := match f_chunk f with Some c => code c | None => [] end.
Definition constants_of (f : Function) : list Value := match f_chunk f with Some c => constants c | None => [] end.

(** [code[frame.ip++]] *)
Definition next_byte : vm nat :=
  frame ← CurrentFrame;
  match code_of (function frame) !! ip frame with
  | Some b => _ ← SetIp (S (ip frame)); mret (Z.to_nat b)
  | None => est_throw (undefined_behaviour "vector index out of range")
  end.
(** The lambda [ensureRemaining] of [Dispatch] returns a [bool], and [Fail] the
    number -1: the error is raised, and the answer is [true]. *)
Definition ensureRemaining (codeSize : nat) : vm bool :=
  frame ← CurrentFrame;
  if codeSize <? ip frame + 1 then _ ← Fail "Truncated bytecode stream"; mret true else mret true.

Section constants.
(** The depth to which values print. *)
Context (print_fuel : nat).
Definition ReadStringConstant (constants : list Value) (operand : nat) : vm (option string) :=
  match constants !! operand with
  | None => _ ← Fail "Constant index out of bounds"; mret None
  | Some v =>
      s ← est_get;
      text ← est_lift (ToString print_fuel (object_heap s) v);
      mret (Some text)
  end.
End constants.

End Support.
