(* ===== verification/DataOps.v ===== *)
(** * Data structures, pointers and actors in the virtual machine

    [src/vm/execution/VirtualMachineDataOps.cpp], and of
    [VirtualMachineCallsAndActors.cpp] what a message to an actor does on the
    side of the sender. *)

From S2P Require Import Prelude SyncRuntime Transactions Value Execution Support.
From stdpp Require Import pretty.
From Stdlib Require Import Lia.

Module DataOps.
Import Value Execution Support.

Definition EncodeMapKey (v : Value) : option string :=
  match v with
  | VString text => Some ("s:" +:+ default "" text)
  | VInt64 z => Some ("i:" +:+ pretty z)
  | VBool b => Some (if b then "b:true" else "b:false")
  | _ => None
  end.
Definition bad_key : string := "Map keys must be string, int, or bool".

(** ** Building *)

Definition BuildArray (count : nat) : vm bool :=
  elements ← pop_values count [];
  p ← new_array elements;
  push_result (VPtr ArrayPtr (Some p)).

(** The pairs from the top of the stack down: of two with the same key the
    lower one stays. *)
Fixpoint pop_pairs (n : nat) (entries : gmap string (Value * Value)) : vm (option (gmap string (Value * Value))) :=
  match n with
  | 0 => mret (Some entries)
  | S n =>
      value ← PopValue;
      key ← PopValue;
      match EncodeMapKey key with
      | Some encodedKey => pop_pairs n (<[encodedKey := (key, value)]> entries)
      | None => mret None
      end
  end.
Definition BuildMap (pairCount : nat) : vm bool :=
  entries ← pop_pairs pairCount ∅;
  match entries with
  | Some entries => p ← new_object (OMap entries); push_result (VPtr MapPtr (Some p))
  | None => Fail bad_key
  end.

Definition BuildStruct (fieldCount : nat) : vm bool :=
  fields ← pop_values fieldCount [];
  p ← new_instance fields;
  push_result (VPtr InstancePtr (Some p)).

Definition BuildEnum (tag : Z) (argCount : nat) : vm bool :=
  args ← pop_values argCount [];
  p ← new_object (OEnum tag args);
  push_result (VPtr EnumPtr (Some p)).

(** ** Elements and members *)

Definition map_entries (p : nat) : vm (gmap string (Value * Value)) :=
  o ← read_object p; match o with OMap entries => mret entries | _ => wrong_object end.

Definition HandleArrayIndexGet : vm bool :=
  indexVal ← PopValue;
  container ← PopValue;
  match container with
  | VPtr MapPtr map =>
      match map, EncodeMapKey indexVal with
      | Some map, Some encodedKey =>
          entries ← map_entries map;
          match entries !! encodedKey with
          | Some (_, value) => push_result value
          | None => Fail "Map key not found"
          end
      | _, _ => Fail bad_key
      end
  | VPtr ArrayPtr arr =>
      idx ← as_index indexVal;
      elements ← array_elements arr;
      if (idx <? 0)%Z || (Z.of_nat (length elements) <=? idx)%Z then Fail "Index out of bounds" else
      s ← est_get;
      element ← est_lift (Ctx.GetArrayElement arr (Z.to_nat idx) (m_ctx s));
      match element with
      | Some element => push_result element
      | None => Fail "Index out of bounds"
      end
  | _ => Fail "Only arrays and maps can be indexed"
  end.

Definition HandleArrayIndexSet : vm bool :=
  val ← PopValue;
  indexVal ← PopValue;
  container ← PopValue;
  match container with
  | VPtr MapPtr map =>
      match map, EncodeMapKey indexVal with
      | Some map, Some encodedKey =>
          entries ← map_entries map;
          _ ← write_object map (OMap (<[encodedKey := (indexVal, val)]> entries));
          push_result val
      | _, _ => Fail bad_key
      end
  | VPtr ArrayPtr arr =>
      idx ← as_index indexVal;
      elements ← array_elements arr;
      if (idx <? 0)%Z || (Z.of_nat (length elements) <=? idx)%Z then Fail "Array index out of bounds" else
      ok ← on_ctx (Ctx.SetArrayElement arr (Z.to_nat idx) val);
      if (ok : bool) then push_result val else Fail "Array index out of bounds"
  | _ => Fail "Only arrays and maps support indexed assignment"
  end.

Definition HandleMemberGet (fieldIdx : nat) : vm bool :=
  obj ← PopValue;
  match obj with
  | VPtr InstancePtr inst =>
      fields ← instance_fields inst;
      if length fields <=? fieldIdx then Fail "Field index out of bounds" else
      s ← est_get;
      field ← est_lift (Ctx.GetInstanceField inst fieldIdx (m_ctx s));
      match field with
      | Some field => push_result field
      | None => Fail "Field index out of bounds"
      end
  | _ => Fail "Only instances have members"
  end.

Definition HandleMemberSet (fieldIdx : nat) : vm bool :=
  val ← PopValue;
  obj ← PopValue;
  match obj with
  | VPtr InstancePtr inst =>
      fields ← instance_fields inst;
      if length fields <=? fieldIdx then Fail "Field index out of bounds" else
      ok ← on_ctx (Ctx.SetInstanceField inst fieldIdx val);
      if (ok : bool) then push_result val else Fail "Field index out of bounds"
  | _ => Fail "Only instances have members"
  end.

Definition HandleEnumTagGet : vm bool :=
  value ← PopValue;
  match value with
  | VPtr EnumPtr None => null_pointer
  | VPtr EnumPtr (Some p) =>
      o ← read_object p; match o with OEnum tag _ => push_result (VInt64 tag) | _ => wrong_object end
  | _ => Fail "Value is not an enum variant"
  end.

Definition HandleEnumArgGet (argIndex : nat) : vm bool :=
  value ← PopValue;
  match value with
  | VPtr EnumPtr None => null_pointer
  | VPtr EnumPtr (Some p) =>
      o ← read_object p;
      match o with
      | OEnum _ args =>
          match args !! argIndex with
          | Some v => push_result v
          | None => Fail "Enum argument index out of bounds"
          end
      | _ => wrong_object
      end
  | _ => Fail "Value is not an enum variant"
  end.

Section constants.
Context (print_fuel : nat).
Abbreviation ReadStringConstant := (ReadStringConstant print_fuel).

(** A member of the cache, else the global, which may then be cached. *)
Definition module_member (p : nat) (name : string) (cacheable : bool) (cache : gmap string Value) (memberName : string) : vm bool :=
  match (if cacheable then cache !! memberName else None) with
  | Some cached => push_result cached
  | None =>
      member ← GetGlobal (name +:+ "." +:+ memberName);
      match member with
      | None => Fail ("Undefined module member: " +:+ name +:+ "." +:+ memberName)
      | Some member =>
          _ ← (if cacheable then write_object p (OModule name cacheable (<[memberName := member]> cache)) else mret tt);
          push_result member
      end
  end.
Definition HandleModuleMemberGet (operand : nat) (constants : list Value) : vm bool :=
  memberName ← ReadStringConstant constants operand;
  match memberName with
  | None => succeed false
  | Some memberName =>
      object ← PopValue;
      match object with
      | VPtr ModulePtr None => null_pointer
      | VPtr ModulePtr (Some p) =>
          o ← read_object p;
          match o with
          | OModule name cacheable cache => module_member p name cacheable cache memberName
          | _ => wrong_object
          end
      | _ => Fail "Only modules support named member access"
      end
  end.

(** ** Pointers *)

Definition new_pointer (targetName : string) (target : pointer_target) : vm bool :=
  p ← new_object (OPointer targetName target); push_result (VPtr PointerPtr (Some p)).

(** The slot is that of the frame which takes the address. *)
Definition HandleAddressOfLocal (slot : nat) : vm bool :=
  frame ← CurrentFrame;
  new_pointer ("&local:" +:+ pretty slot) (TLocal (stackBase frame + slot)).
Definition HandleAddressOfGlobal (operand : nat) (constants : list Value) : vm bool :=
  name ← ReadStringConstant constants operand;
  match name with
  | None => succeed false
  | Some name => new_pointer ("&global:" +:+ name) (TGlobal name)
  end.
End constants.

Definition HandleAddressOfMember : vm bool :=
  indexVal ← PopValue;
  container ← PopValue;
  match container with
  | VPtr ArrayPtr arr =>
      idx ← as_index indexVal;
      elements ← array_elements arr;
      if (idx <? 0)%Z || (Z.of_nat (length elements) <=? idx)%Z then Fail "Array index out of bounds"
      else match arr with Some a => new_pointer "" (TElement a (Z.to_nat idx)) | None => null_pointer end
  | VPtr InstancePtr inst =>
      idx ← as_index indexVal;
      fields ← instance_fields inst;
      if (idx <? 0)%Z || (Z.of_nat (length fields) <=? idx)%Z then Fail "Field index out of bounds"
      else match inst with Some i => new_pointer "" (TField i (Z.to_nat idx)) | None => null_pointer end
  | _ => Fail "Only arrays and instances support addressable members"
  end.

Definition HandleAddressOfUpvalue (slot : nat) : vm bool :=
  new_pointer ("&upvalue:" +:+ pretty slot) (TUpvalue slot).

(** [get] and [set] of the pointers; an upvalue is that of the frame which is
    current then. *)
Definition or_null (v : option Value) : Value := default VMonostate v.
Definition pointer_get (target : pointer_target) : vm Value :=
  match target with
  | TLocal i => GetAt i
  | TGlobal name => v ← GetGlobal name; mret (or_null v)
  | TElement a i => s ← est_get; v ← est_lift (Ctx.GetArrayElement (Some a) i (m_ctx s)); mret (or_null v)
  | TField p i => s ← est_get; v ← est_lift (Ctx.GetInstanceField (Some p) i (m_ctx s)); mret (or_null v)
  | TUpvalue slot => GetUpvalue slot
  end.
Definition pointer_set (target : pointer_target) (v : Value) : vm unit :=
  match target with
  | TLocal i => SetAt i v
  | TGlobal name => _ ← on_ctx (Ctx.SetGlobal name v); mret tt
  | TElement a i => _ ← on_ctx (Ctx.SetArrayElement (Some a) i v); mret tt
  | TField p i => _ ← on_ctx (Ctx.SetInstanceField (Some p) i v); mret tt
  | TUpvalue slot => SetUpvalue slot v
  end.

Definition not_a_pointer : string := "Can only dereference pointer types".
Definition HandleDerefGet : vm bool :=
  value ← PopValue;
  match value with
  | VPtr PointerPtr None => null_pointer
  | VPtr PointerPtr (Some p) =>
      o ← read_object p;
      match o with OPointer _ target => v ← pointer_get target; push_result v | _ => wrong_object end
  | _ => Fail not_a_pointer
  end.
Definition HandleDerefSet : vm bool :=
  val ← PopValue;
  pointerValue ← PopValue;
  match pointerValue with
  | VPtr PointerPtr None => null_pointer
  | VPtr PointerPtr (Some p) =>
      o ← read_object p;
      match o with OPointer _ target => _ ← pointer_set target val; push_result val | _ => wrong_object end
  | _ => Fail not_a_pointer
  end.

(** ** Tables of functions *)

(** Pairs of a name, above, and a value; [None] for a name that is no string. *)
Fixpoint pop_table (n : nat) (table : gmap string Value) : vm (option (gmap string Value)) :=
  match n with
  | 0 => mret (Some table)
  | S n =>
      name ← PopValue;
      value ← PopValue;
      match name with
      | VString (Some name) => pop_table n (<[name := value]> table)
      | VString None => null_pointer
      | _ => mret None
      end
  end.
(** [OP_BUILD_HANDLER] and [OP_BUILD_ACTOR_METHODS] *)
Definition build_table (k : pointer) (object_of : gmap string Value → object) (message : string) (n : nat) : vm bool :=
  table ← pop_table n ∅;
  match table with
  | Some table => p ← new_object (object_of table); push_result (VPtr k (Some p))
  | None => Fail message
  end.
Definition BuildHandler : nat → vm bool :=
  build_table HandlerMapPtr OHandlers "Handler build requires operation names".
Definition BuildActorMethods : nat → vm bool :=
  build_table ActorMethodMapPtr OMethods "Actor method table requires method names".

(** [OP_PUSH_HANDLER] *)
Definition HandlePushHandler : vm bool :=
  handlerValue ← PopValue;
  match handlerValue with
  | VPtr HandlerMapPtr None => _ ← PushHandlerMap None; succeed true
  | VPtr HandlerMapPtr (Some p) =>
      o ← read_object p;
      match o with OHandlers table => _ ← PushHandlerMap (Some table); succeed true | _ => wrong_object end
  | _ => Fail "Expected handler map"
  end.

(** ** Actors *)

(** [SharedRuntime::RegisterActor] *)
Definition RegisterActor (actor : nat) : vm nat := λ s,
  let r := m_registry s in
  (set_shared (m_output s) (MkRegistry (S (m_nextActorId r)) (<[m_nextActorId r := actor]> (m_actors r))) s,
   Ok (m_nextActorId r)).

Section build_actor.
Context (print_fuel : nat).
(** The thread that is started runs [RunActorWorker]. *)
Definition BuildActor (blueprintOperand fieldCount : nat) : vm bool :=
  frame ← CurrentFrame;
  typeName ← ReadStringConstant print_fuel (constants_of (function frame)) blueprintOperand;
  match typeName with
  | None => succeed false
  | Some typeName =>
      fields ← pop_values fieldCount [];
      state ← new_instance fields;
      methodTableValue ← GetGlobal (typeName +:+ ".__methods");
      match methodTableValue with
      | Some (VPtr ActorMethodMapPtr methods) =>
          actor ← new_object (OActor (MkActor typeName state methods [] ∅ [] 0 false 1));
          runtimeId ← RegisterActor actor;
          _ ← write_object actor (OActor (MkActor typeName state methods [] ∅ [] runtimeId false 1));
          push_result (VPtr ActorPtr (Some actor))
      | _ => Fail ("Missing actor method table for " +:+ typeName)
      end
  end.
End build_actor.

Definition set_mailbox (mailbox : list MailboxItem) (pending : gmap Z QueryResult) (next : Z) (a : Actor) : Actor :=
  MkActor (a_typeName a) (a_state a) (a_methods a) mailbox pending (a_failures a) (a_runtimeId a) (a_stopping a) next.
Definition read_actor (p : nat) : vm Actor :=
  o ← read_object p; match o with OActor a => mret a | _ => wrong_object end.

(** Other threads.  [wait_query] is what a wait for the answer of a request
    ends with, and what the threads did to the memory until then; [None] when
    no answer comes. *)
Record peers := MkPeers {
  m_activeActor : option nat;
  wait_query : nat → Z → t → option (heap * Ctx.t Value * QueryResult);
}.

(** [EnqueueActorSend] *)
Definition EnqueueActorSend (actor : nat) (methodName : string) (args : list Value) : vm bool :=
  a ← read_actor actor;
  _ ← write_object actor (OActor (set_mailbox (a_mailbox a ++ [MkItem Send methodName args 0])
        (a_pendingQueries a) (a_nextRequestId a) a));
  push_result VMonostate.

Section query.
Context (others : peers).

Definition await (actor : nat) (requestId : Z) : vm QueryResult := λ s,
  match wait_query others actor requestId s with
  | Some (h, c, answer) => (set_heap h (set_ctx c s), Ok answer)
  | None => (s, Diverge)
  end.

(** [EnqueueActorQuery] *)
Definition EnqueueActorQuery (actor : nat) (methodName : string) (args : list Value) : vm bool :=
  if bool_decide (m_activeActor others = Some actor) then Fail "Actor query on self would deadlock" else
  a ← read_actor actor;
  let requestId := a_nextRequestId a in
  _ ← write_object actor (OActor (set_mailbox (a_mailbox a ++ [MkItem Query methodName args requestId])
        (Ctx.try_emplace requestId (MkQuery false VMonostate "") (a_pendingQueries a)) ((requestId + 1) mod 2 ^ 64)%Z a));
  answer ← await actor requestId;
  a ← read_actor actor;
  _ ← write_object actor (OActor (set_mailbox (a_mailbox a) (delete requestId (a_pendingQueries a)) (a_nextRequestId a) a));
  if decide (q_error answer = "") then push_result (q_value answer) else Fail (q_error answer).

Section send.
Context (print_fuel : nat).

(** The methods of the actor, [None] without a table. *)
Definition method_table (a : Actor) : vm (option (gmap string Value)) :=
  match a_methods a with
  | None => mret None
  | Some p => o ← read_object p; match o with OMethods table => mret (Some table) | _ => wrong_object end
  end.

(** [OP_ACTOR_SEND] and [OP_ACTOR_QUERY] *)
Definition HandleActorMessage (k : item_kind) (operand : nat) (constants : list Value) : vm bool :=
  argCount ← next_byte;
  methodName ← ReadStringConstant print_fuel constants operand;
  match methodName with
  | None => succeed false
  | Some methodName =>
      s ← est_get;
      let actorIdx := size_t (Z.of_nat (StackSize s) - Z.of_nat argCount - 1) in
      actorValue ← GetAt actorIdx;
      match actorValue with
      | VPtr ActorPtr (Some actor) =>
          a ← read_actor actor;
          methods ← method_table a;
          match methods ≫= λ m, m !! methodName with
          | None => Fail ("Unknown actor method: " +:+ methodName)
          | Some _ =>
              args ← get_args (S actorIdx) argCount;
              _ ← pop_down_to actorIdx;
              match k with
              | Send => EnqueueActorSend actor methodName args
              | Query => EnqueueActorQuery actor methodName args
              end
          end
      | _ => Fail "Actor call requires actor instance"
      end
  end.
End send.
End query.

(** ** The remaining instructions without calls *)

Section print.
Context (print_fuel : nat).
Definition HandlePrint : vm bool :=
  val ← PopValue;
  s ← est_get;
  text ← est_lift (PrintValue print_fuel (object_heap s) val);
  _ ← est_modify (λ s, set_shared (m_output s +:+ text +:+ String (ascii_of_nat 10) "") (m_registry s) s);
  succeed true.
Definition HandleAssert (operand : nat) (constants : list Value) : vm bool :=
  message ← ReadStringConstant print_fuel constants operand;
  match message with
  | None => succeed false
  | Some message =>
      v ← PopValue;
      b ← est_lift (as_bool v);
      if (b : bool) then succeed true else Fail message
  end.
End print.

End DataOps.
