(* ===== verification/Machine.v ===== *)
(** * The virtual machine

    [src/vm/execution/VirtualMachineCore.cpp]: [Interpret], [Run], [Dispatch]
    and the iterators; [VirtualMachineCallsAndActors.cpp]: calls, returns,
    globals and closures.  No extension of the instructions is registered
    anywhere in the program. *)

From S2P Require Import Prelude SyncRuntime Transactions Value Bytecode Execution Support DataOps.
From stdpp Require Import pretty.
From Stdlib Require Import Lia.

Module Machine.
Import Value Bytecode Execution.
Export Support DataOps.

(** What a native function is for the machine: [struct NativeFunction], whose
    [invoke] is called with the arguments.  The fast paths [invoke0] to
    [invoke4] are the same function with its arguments apart. *)
Record NativeFunction := MkNative {
  n_arity : Z;
  n_variadic : bool;
  invoke : list Value → vm Value;
}.

Section machine.
(** The native functions by address, the other threads, and the depth to which
    values print. *)
Context (natives : nat → NativeFunction) (others : peers) (print_fuel : nat).
Abbreviation ReadStringConstant := (ReadStringConstant print_fuel).

(** ** Calls *)

Definition expected_args (variadic : bool) (arity : Z) : string :=
  "Expected " +:+ (if variadic then "at least " +:+ pretty arity else pretty arity) +:+ " args".

Definition call_native (p : nat) (argCount : nat) (calleeIdx : nat) : vm bool :=
  let native := natives p in
  if (negb (n_variadic native) && negb (Z.of_nat argCount =? n_arity native)%Z)
     || (n_variadic native && (Z.of_nat argCount <? n_arity native)%Z)
  then Fail (expected_args (n_variadic native) (n_arity native))
  else
    args ← get_args (S calleeIdx) argCount;
    result ← invoke native args;
    s ← est_get;
    if HasError s then succeed false else
    _ ← pop_down_to calleeIdx;
    _ ← PushValue result;
    succeed true.

(** The arguments beyond the fixed ones as an array. *)
Definition pack_arguments (arity : Z) (argCount calleeIdx : nat) : vm unit :=
  let fixedCount := size_t (arity - 1) in
  let packCount := if fixedCount <=? argCount then argCount - fixedCount else 0 in
  packed ← get_args (calleeIdx + 1 + fixedCount) packCount;
  _ ← pop_down_to (size_t (Z.of_nat calleeIdx + 1 + Z.of_nat fixedCount));
  p ← new_array packed;
  PushValue (VPtr ArrayPtr (Some p)).

Definition call_function (func : Function) (closure : nat) (argCount calleeIdx : nat) : vm bool :=
  let 'MkFunction _ _ _ arity minArity variadic _ := func in
  if (negb variadic && negb (Z.of_nat argCount =? arity)%Z) || (variadic && (Z.of_nat argCount <? minArity)%Z)
  then Fail (expected_args variadic (if variadic then minArity else arity))
  else
    effectiveArgCount ←
      (if variadic then _ ← pack_arguments arity argCount calleeIdx; mret (Z.to_nat (arity mod 2 ^ 16))
       else mret argCount);
    s ← est_get;
    let newBase := size_t (Z.of_nat (StackSize s) - Z.of_nat effectiveArgCount) in
    _ ← PushFrame func (Some closure) newBase;
    succeed true.

Definition HandleResolvedCall (callee : Value) (argCount calleeIdx : nat) : vm bool :=
  match callee with
  | VPtr ClosurePtr (Some p) =>
      s ← est_get;
      match m_heap s !! p with
      | Some (OClosure (Some func) _) => call_function func p argCount calleeIdx
      | Some (OClosure None _) => Fail "Can only call functions"
      | _ => est_throw (undefined_behaviour "dangling pointer")
      end
  | VFunction (Some func) =>
      closure ← new_object (OClosure (Some func) []);
      call_function func closure argCount calleeIdx
  | VPtr NativeFunctionPtr (Some p) => call_native p argCount calleeIdx
  | _ => Fail "Can only call functions"
  end.

Definition HandleCall (argCount : nat) : vm bool :=
  s ← est_get;
  if StackSize s <? argCount + 1
  then est_throw (out_of_range "Local variable index out of bounds")
  else
    let calleeIdx := StackSize s - argCount - 1 in
    callee ← GetAt calleeIdx;
    HandleResolvedCall callee argCount calleeIdx.

Definition HandleReturn : vm bool :=
  frame ← CurrentFrame;
  s ← est_get;
  result ← (if stackBase frame <? StackSize s then PopValue else mret VMonostate);
  let funcSlot := size_t (Z.of_nat (stackBase frame) - 1) in
  _ ← on_ctx (Ctx.UnwindTransactions (transactionBase frame));
  _ ← UnwindHandlers (handlerBase frame);
  _ ← PopFrame;
  _ ← pop_down_to funcSlot;
  _ ← PushValue result;
  succeed true.

Fixpoint push_values (l : list Value) : vm unit :=
  match l with [] => mret tt | v :: l => _ ← PushValue v; push_values l end.

(** ** Globals and closures *)

Definition is_thread_local (name : string) : bool := String.prefix "__thread_local." name.

Definition DefineGlobal (name : string) (v : Value) : vm unit :=
  est_modify (λ s, let c := Ctx.committed (m_ctx s) in
    set_ctx (Ctx.set_committed (Ctx.MkStore (<[name := v]> (Ctx.m_globals c)) (Ctx.m_threadLocalGlobals c)
      (Ctx.arrays c) (Ctx.instances c)) (m_ctx s)) s).
Definition DefineThreadLocalGlobal (name : string) (v : Value) : vm unit :=
  est_modify (λ s, let c := Ctx.committed (m_ctx s) in
    set_ctx (Ctx.set_committed (Ctx.MkStore (Ctx.m_globals c) (<[name := v]> (Ctx.m_threadLocalGlobals c))
      (Ctx.arrays c) (Ctx.instances c)) (m_ctx s)) s).

Definition push_or_undefined (name : string) (v : option Value) : vm bool :=
  match v with
  | Some v => _ ← PushValue v; succeed true
  | None => Fail ("Undefined variable: " +:+ name)
  end.

Definition HandleGlobal (opcode : OpCode) (operand : nat) (constants : list Value) : vm bool :=
  name ← ReadStringConstant constants operand;
  match name with
  | None => succeed false
  | Some name =>
      if decide (opcode = OP_DEFINE_GLOBAL) then
        v ← PopValue;
        _ ← (if is_thread_local name then DefineThreadLocalGlobal name v else DefineGlobal name v);
        succeed true
      else if decide (opcode = OP_GET_GLOBAL) then
        s ← est_get;
        push_or_undefined name
          (if is_thread_local name then Ctx.GetThreadLocalGlobal name (m_ctx s) else Ctx.GetGlobal name (m_ctx s))
      else
        v ← PeekValue 0;
        ok ← on_ctx (if is_thread_local name then Ctx.SetThreadLocalGlobal name v else Ctx.SetGlobal name v);
        if (ok : bool) then succeed true else Fail ("Undefined variable: " +:+ name)
  end.

Definition HandleClosure (operand : nat) (constants : list Value) : vm bool :=
  match constants !! operand with
  | None => Fail "Constant index out of bounds"
  | Some (VFunction None) => est_throw (undefined_behaviour "null pointer")
  | Some (VFunction (Some func)) =>
      let 'MkFunction _ _ _ _ _ _ captureNames := func in
      captures ← pop_values (length captureNames) [];
      p ← new_object (OClosure (Some func) captures);
      _ ← PushValue (VPtr ClosurePtr (Some p));
      succeed true
  | Some _ => Fail "OP_CLOSURE requires function constant"
  end.

(** ** Transactions *)

Definition mutex_id (s : t) (p : option nat) : option nat := handle_id (m_heap s) <$> p.

(** The mutexes of an array, [None] for another element. *)
Fixpoint mutexes_of (s : t) (elements : list Value) : option (list (option nat)) :=
  match elements with
  | [] => Some []
  | VPtr MutexPtr p :: elements => cons (mutex_id s p) <$> mutexes_of s elements
  | _ :: _ => None
  end.

Definition HandleBeginTransaction : vm bool :=
  mutexValue ← PopValue;
  s ← est_get;
  match mutexValue with
  | VPtr MutexPtr p => on_ctx (Ctx.BeginTransaction [mutex_id s p])
  | VPtr ArrayPtr None => Fail "Transaction requires mutex handles"
  | VPtr ArrayPtr (Some a) =>
      elements ← est_lift (Ctx.deref (Ctx.arrays (Ctx.committed (m_ctx s))) a);
      match mutexes_of s elements with
      | Some mutexes => on_ctx (Ctx.BeginTransaction mutexes)
      | None => Fail "Transaction requires mutex handles"
      end
  | _ => Fail "Transaction requires a mutex handle or mutex array"
  end.
(** ** Dispatch *)

Definition pop2 (f : Value → Value → vm Value) : vm bool :=
  b ← PopValue; a ← PopValue;
  v ← f a b;
  _ ← PushValue v;
  succeed true.
Definition pop1 (f : Value → result Value) : vm bool :=
  a ← PopValue;
  v ← est_lift (f a);
  _ ← PushValue v;
  succeed true.
Definition pure2 (f : Value → Value → result Value) : vm bool := pop2 (λ a b, est_lift (f a b)).

(** [std::get<bool>] *)
Definition get_bool (v : Value) : result bool :=
  match v with VBool b => Ok b | _ => Throw bad_variant_access end.
Definition not_value (v : Value) : result Value := b ← get_bool v; Ok (VBool (negb b)).

(** The jumps: the operand is added to the [ip] behind the instruction. *)
Definition jump (codeSize : nat) (operand : Z) : vm bool :=
  frame ← CurrentFrame;
  match jump_forward codeSize (ip frame) operand with
  | Some target => _ ← SetIp target; succeed true
  | None => Fail "Jump exceeds bytecode bounds"
  end.
Definition jump_if (b : bool) (codeSize : nat) (operand : Z) : vm bool :=
  v ← PopValue;
  c ← est_lift (as_bool v);
  if Bool.eqb c b then jump codeSize operand else succeed true.
Definition loop (operand : Z) : vm bool :=
  frame ← CurrentFrame;
  match loop_back (ip frame) operand with
  | Some target => _ ← SetIp target; succeed true
  | None => Fail "Loop offset exceeds current instruction pointer"
  end.

(** ** Effects *)

(** [OP_EFFECT_INVOKE]: the handler is called like a function. *)
Definition HandleEffectInvoke (operand : nat) (constants : list Value) : vm bool :=
  argCount ← next_byte;
  effectName ← ReadStringConstant constants operand;
  match effectName with
  | None => succeed false
  | Some effectName =>
      s ← est_get;
      match ResolveHandledEffect effectName s with
      | VMonostate => Fail ("Unhandled effect: " +:+ effectName)
      | handler =>
          args ← pop_values argCount [];
          s ← est_get;
          let calleeIdx := StackSize s in
          _ ← PushValue handler;
          _ ← push_values args;
          HandleResolvedCall handler argCount calleeIdx
      end
  end.

(** ** Iterators *)

(** [OP_MAKE_ITER] *)
Definition HandleMakeIter : vm bool :=
  iterable ← PopValue;
  match iterable with
  | VPtr ArrayPtr arr => it ← new_object (OIterator (ItArray arr 0)); push_result (VPtr IteratorPtr (Some it))
  | _ => Fail "Object is not iterable"
  end.

(** An iterator over another one. *)
Definition derive (message : string) (v : Value) (make : nat → vm iterator) : vm bool :=
  match v with
  | VPtr IteratorPtr (Some source) =>
      it ← make source;
      p ← new_object (OIterator it);
      push_result (VPtr IteratorPtr (Some p))
  | _ => Fail message
  end.
Definition no_iterator : string := "Iterator transform requires iterator input".

(** [OP_ITER_TAKE], [OP_ITER_DROP] and [OP_ITER_REVERSE] *)
Definition HandleIterTake : vm bool :=
  n ← PopValue; n ← as_index n; v ← PopValue; derive no_iterator v (λ source, mret (ItTake source n)).
Definition HandleIterDrop : vm bool :=
  n ← PopValue; n ← as_index n; v ← PopValue; derive no_iterator v (λ source, mret (ItDrop source n false)).
Definition HandleIterReverse : vm bool :=
  v ← PopValue; derive no_iterator v (λ source, mret (ItReverse source [] false 0)).

(** [OP_ITER_TRANSFORM] and [OP_ITER_FILTER]: the function, and a closure of
    it. *)
Definition derive_call (name : string) (make : nat → option Function → nat → iterator) : vm bool :=
  fnVal ← PopValue;
  itVal ← PopValue;
  match itVal, fnVal with
  | VPtr IteratorPtr (Some source), VPtr ClosurePtr (Some closure) =>
      o ← read_object closure;
      match o with
      | OClosure fn _ => derive "" itVal (λ source, mret (make source fn closure))
      | _ => wrong_object
      end
  | VPtr IteratorPtr (Some source), VPtr ClosurePtr None => null_pointer
  | VPtr IteratorPtr (Some source), VFunction fn =>
      closure ← new_object (OClosure fn []);
      derive "" itVal (λ source, mret (make source fn closure))
  | VPtr IteratorPtr (Some source), _ => Fail ("Iterator " +:+ name +:+ " requires callable input")
  | _, _ => Fail ("Iterator " +:+ name +:+ " requires iterator input")
  end.

Section dispatch.
(** The closure [next] of the iterator at an address. *)
Context (next : nat → vm (option Value)).

(** [OP_ITER_NEXT] *)
Definition HandleIterNext (operand : Z) (codeSize : nat) : vm bool :=
  v ← PeekValue 0;
  match v with
  | VPtr IteratorPtr None => null_pointer
  | VPtr IteratorPtr (Some it) =>
      value ← next it;
      match value with
      | Some value => push_result value
      | None => jump codeSize operand
      end
  | _ => _ ← RaiseError "Expected iterator on stack"; succeed false
  end.

(** The operand behind the operand of an instruction, of [OP_BUILD_ACTOR] and
    [OP_BUILD_ENUM]. *)
Definition second_operand (codeSize : nat) (k : nat → vm bool) : vm bool :=
  ok ← ensureRemaining codeSize;
  if negb ok then succeed false else n ← next_byte; k n.

Definition Dispatch (instr : Instruction) (codeSize : nat) (constants : list Value) : vm bool :=
  let w := Z.to_nat (operand instr) in
  match opcode instr with
  | OP_CALL => HandleCall w
  | OP_RETURN => HandleReturn
  | OP_CONSTANT =>
      match constants !! w with
      | Some v => push_result v
      | None => Fail "Constant index out of bounds"
      end
  | OP_GET_LOCAL => v ← GetLocal w; push_result v
  | OP_SET_LOCAL => v ← PeekValue 0; _ ← SetLocal w v; succeed true
  | OP_GET_UPVALUE => v ← GetUpvalue w; push_result v
  | OP_SET_UPVALUE => v ← PeekValue 0; _ ← SetUpvalue w v; succeed true
  | OP_DEFINE_GLOBAL | OP_GET_GLOBAL | OP_SET_GLOBAL => HandleGlobal (opcode instr) w constants
  | OP_CLOSURE => HandleClosure w constants
  | OP_ADD => pop2 (λ a b, s ← est_get; est_lift (Add print_fuel (object_heap s) a b))
  | OP_SUBTRACT => pure2 Subtract
  | OP_MULTIPLY => pure2 Multiply
  | OP_DIVIDE => pure2 Divide
  | OP_MOD => pure2 Modulo
  | OP_DIV => pure2 DivideInt
  | OP_NEGATE => pop1 Negate
  | OP_NOT => pop1 PerformUnaryLogic
  | OP_AND => pure2 (λ a b, PerformBinaryLogic a b andb)
  | OP_OR => pure2 (λ a b, PerformBinaryLogic a b orb)
  | OP_EQUAL => pop2 (λ a b, s ← est_get; mret (VBool (Equal (m_heap s) a b)))
  | OP_NOT_EQUAL => pop2 (λ a b, s ← est_get; mret (VBool (negb (Equal (m_heap s) a b))))
  | OP_GREATER => pure2 (λ a b, Ok (Greater a b))
  | OP_LESS => pure2 (λ a b, Ok (Less a b))
  | OP_GREATER_EQUAL => pure2 (λ a b, not_value (Less a b))
  | OP_LESS_EQUAL => pure2 (λ a b, not_value (Greater a b))
  | OP_JUMP => jump codeSize (operand instr)
  | OP_JUMP_IF_TRUE => jump_if true codeSize (operand instr)
  | OP_JUMP_IF_FALSE => jump_if false codeSize (operand instr)
  | OP_LOOP => loop (operand instr)
  | OP_POP => _ ← PopValue; succeed true
  | OP_DUP => v ← PeekValue 0; push_result v
  | OP_SWAP => top ← PopValue; next ← PopValue; _ ← PushValue top; push_result next
  | OP_BUILD_ARRAY => BuildArray w
  | OP_BUILD_MAP => BuildMap w
  | OP_BUILD_STRUCT => BuildStruct w
  | OP_BUILD_ENUM => second_operand codeSize (BuildEnum (operand instr))
  | OP_BUILD_ACTOR => second_operand codeSize (BuildActor print_fuel w)
  | OP_INDEX_GET => HandleArrayIndexGet
  | OP_INDEX_SET => HandleArrayIndexSet
  | OP_MEMBER_GET => HandleMemberGet w
  | OP_MEMBER_SET => HandleMemberSet w
  | OP_GET_MODULE_MEMBER => HandleModuleMemberGet print_fuel w constants
  | OP_GET_ENUM_TAG => HandleEnumTagGet
  | OP_GET_ENUM_ARG => HandleEnumArgGet w
  | OP_ADDR_LOCAL => HandleAddressOfLocal w
  | OP_ADDR_GLOBAL => HandleAddressOfGlobal print_fuel w constants
  | OP_ADDR_MEMBER => HandleAddressOfMember
  | OP_ADDR_UPVALUE => HandleAddressOfUpvalue w
  | OP_DEREF_GET => HandleDerefGet
  | OP_DEREF_SET => HandleDerefSet
  | OP_BEGIN_TXN => HandleBeginTransaction
  | OP_END_TXN => on_ctx Ctx.EndTransaction
  | OP_MAKE_ITER => HandleMakeIter
  | OP_ITER_NEXT => HandleIterNext (operand instr) codeSize
  | OP_ITER_TAKE => HandleIterTake
  | OP_ITER_DROP => HandleIterDrop
  | OP_ITER_TRANSFORM => derive_call "transform" ItTransform
  | OP_ITER_FILTER => derive_call "filter" ItFilter
  | OP_ITER_REVERSE => HandleIterReverse
  | OP_PRINT => HandlePrint print_fuel
  | OP_BUILD_HANDLER => BuildHandler w
  | OP_BUILD_ACTOR_METHODS => BuildActorMethods w
  | OP_ASSERT => HandleAssert print_fuel w constants
  | OP_PUSH_HANDLER => HandlePushHandler
  | OP_POP_HANDLER => PopHandlerMap
  | OP_EFFECT_INVOKE => HandleEffectInvoke w constants
  | OP_ACTOR_SEND => HandleActorMessage others print_fuel Send w constants
  | OP_ACTOR_QUERY => HandleActorMessage others print_fuel Query w constants
  | Unnamed byte => _ ← RaiseError ("Unknown opcode: " +:+ pretty byte); succeed false
  end.

(** ** [Run] *)

(** A round of the loop: go on, return, or leave the defined behaviour of
    C++. *)
Inductive round :=
  | Running (s : t)
  | Returned (success : bool) (s : t)
  | Undefined (what : string).

(** The end of a round after [Dispatch]. *)
Definition after_dispatch (entryFrameCount : nat) (ok : bool) (s : t) : round :=
  if negb ok then Returned false s
  else if length (m_frames s) <? entryFrameCount then Returned true s
  else if bool_decide (m_frames s = []) then Returned true s
  else Running s.

(** The implicit return goes on with the loop unless no frame is left. *)
Definition after_return (s : t) : round :=
  if bool_decide (m_frames s = []) then Returned true s else Running s.

Definition what_of (e : exn) : string :=
  match e with
  | runtime_error w | overflow_error w | underflow_error w | out_of_range w | invalid_argument w | undefined_behaviour w => w
  | bad_variant_access => "bad variant access"
  end.

(** [catch (const std::exception&)]: undefined behaviour is not caught. *)
Definition catch {A} (r : t * result A) (k : A → t → round) : round :=
  match r with
  | (s, Ok a) => k a s
  | (_, Throw (undefined_behaviour w)) => Undefined w
  | (s, Throw e) => Returned false (RaiseError (what_of e) s).1
  | (_, Diverge) => Undefined "stack exhausted"
  end.

Definition run_round (entryFrameCount : nat) (s : t) : round :=
  if length (m_frames s) <? entryFrameCount then Returned true s else
  match last (m_frames s) with
  | None => Returned true s
  | Some frame =>
      let bytes := code_of (function frame) in
      match fetch bytes (ip frame) with
      | Ok ImplicitReturn => catch (HandleReturn s) (λ _ s, after_return s)
      | Ok Truncated => Returned false (RaiseError "Truncated bytecode stream" (SetIp (S (ip frame)) s).1).1
      | Ok (Fetched instr ip') =>
          let s := (SetIp ip' s).1 in
          catch (Dispatch instr (length bytes) (constants_of (function frame)) s) (λ ok s, after_dispatch entryFrameCount ok s)
      | Throw e => Undefined (what_of e)
      | Diverge => Undefined "fetch"
      end
  end.

Inductive runs (entryFrameCount : nat) : t → round → Prop :=
  | runs_end s r : run_round entryFrameCount s = r → (∀ s', r ≠ Running s') → runs entryFrameCount s r
  | runs_step s s' r : run_round entryFrameCount s = Running s' → runs entryFrameCount s' r → runs entryFrameCount s r.

(** At most [fuel] rounds. *)
Fixpoint Run (fuel entryFrameCount : nat) (s : t) : round :=
  match fuel with
  | 0 => Running s
  | S fuel => match run_round entryFrameCount s with
              | Running s => Run fuel entryFrameCount s
              | r => r
              end
  end.

End dispatch.

(** ** The next value of an iterator *)

Definition write_iterator (p : nat) (it : iterator) : vm unit := write_object p (OIterator it).

(** A run inside an instruction, to the end of the frame pushed last. *)
Definition run_nested (run : nat → t → round) : vm bool := λ s,
  match run (length (m_frames s)) s with
  | Returned success s => (s, Ok success)
  | Running s => (s, Diverge)
  | Undefined what => (s, Throw (undefined_behaviour what))
  end.

(** The call of the function of a transform or a filter. *)
Definition call_on (run : nat → t → round) (name : string) (fn : option Function) (closure : nat) (val : Value) : vm Value :=
  match fn with
  | None => null_pointer
  | Some fn =>
      base ← est_get;
      _ ← PushValue (VPtr ClosurePtr (Some closure));
      _ ← PushValue val;
      s ← est_get;
      _ ← PushFrame fn (Some closure) (StackSize s - 1);
      ok ← run_nested run;
      if (ok : bool) then PopValue else
      _ ← est_modify (λ s, set_frames (take (length (m_frames base)) (m_frames s)) s);
      _ ← pop_down_to (StackSize base);
      _ ← on_ctx (Ctx.UnwindTransactions (ActiveTransactionCount base));
      _ ← UnwindHandlers (length (m_handlerStack base));
      s ← est_get;
      est_throw (runtime_error (if HasError s then Ctx.m_errorMessage (m_ctx s) else "Iterator " +:+ name +:+ " failed"))
  end.

Section next.
Context (fuel : nat) (next : nat → vm (option Value)) (run : nat → t → round).

(** The first [n] values are dropped; the counter is an [int]. *)
Fixpoint drop_values (n : nat) (source : nat) : vm unit :=
  match n with 0 => mret tt | S n => _ ← next source; drop_values n source end.
(** What the closure of a reversed iterator shares with its own calls. *)
Definition read_reverse (p : nat) : vm (list Value * bool * Z) :=
  o ← read_object p;
  match o with OIterator (ItReverse _ buffer initialized index) => mret (buffer, initialized, index) | _ => wrong_object end.
(** The values of the source are put in the buffer of [p] until there are no
    more. *)
Fixpoint fill_buffer (fuel : nat) (p source : nat) : vm unit :=
  match fuel with
  | 0 => λ s, (s, Diverge)
  | S fuel =>
      v ← next source;
      match v with
      | None => mret tt
      | Some v =>
          '(buffer, initialized, index) ← read_reverse p;
          _ ← write_iterator p (ItReverse source (buffer ++ [v]) initialized index);
          fill_buffer fuel p source
      end
  end.
Fixpoint filter_next (fuel : nat) (source : nat) (fn : option Function) (closure : nat) : vm (option Value) :=
  match fuel with
  | 0 => λ s, (s, Diverge)
  | S fuel =>
      v ← next source;
      match v with
      | None => mret None
      | Some v =>
          r ← call_on run "filter" fn closure v;
          b ← est_lift (as_bool r);
          if (b : bool) then mret (Some v) else filter_next fuel source fn closure
      end
  end.

Definition array_next (p : nat) (arr : option nat) (index : nat) : vm (option Value) :=
  s ← est_get;
  size ← est_lift (Ctx.GetArraySize arr (m_ctx s));
  match size with
  | Some size =>
      if index <? size then
        _ ← write_iterator p (ItArray arr (S index));
        est_lift (Ctx.GetArrayElement arr index (m_ctx s))
      else mret None
  | None => mret None
  end.
(** From the end of the buffer to its front. *)
Definition reverse_take (p source : nat) : vm (option Value) :=
  '(buffer, initialized, index) ← read_reverse p;
  if (0 <=? index)%Z then
    _ ← write_iterator p (ItReverse source buffer initialized (index - 1));
    match buffer !! Z.to_nat index with
    | Some v => mret (Some v)
    | None => est_throw (undefined_behaviour "vector index out of range")
    end
  else mret None.
Definition reverse_next (p source : nat) (initialized : bool) : vm (option Value) :=
  if initialized then reverse_take p source else
  _ ← fill_buffer fuel p source;
  '(buffer, _, index) ← read_reverse p;
  if decide (buffer = []) then _ ← write_iterator p (ItReverse source buffer true index); mret None
  else
    _ ← write_iterator p (ItReverse source buffer true (Z.of_nat (length buffer) - 1));
    reverse_take p source.
Definition drop_next (p source : nat) (n : Z) (dropped : bool) : vm (option Value) :=
  _ ← (if dropped then mret tt
       else if (2 ^ 31 <=? n)%Z then est_throw (undefined_behaviour "signed overflow")
       else _ ← drop_values (Z.to_nat n) source; write_iterator p (ItDrop source n true));
  next source.

Definition next_step (p : nat) : vm (option Value) :=
  o ← read_object p;
  match o with
  | OIterator (ItArray arr index) => array_next p arr index
  | OIterator (ItTake source remaining) =>
      if (0 <? remaining)%Z then _ ← write_iterator p (ItTake source (remaining - 1)); next source
      else mret None
  | OIterator (ItDrop source n dropped) => drop_next p source n dropped
  | OIterator (ItTransform source fn closure) =>
      v ← next source;
      match v with
      | None => mret None
      | Some v => r ← call_on run "transform" fn closure v; mret (Some r)
      end
  | OIterator (ItFilter source fn closure) => filter_next fuel source fn closure
  | OIterator (ItReverse source _ initialized _) => reverse_next p source initialized
  | _ => wrong_object
  end.
End next.

(** The fuel bounds the depth of iterators and of nested runs, and the rounds
    of each. *)
Fixpoint iterate (fuel : nat) (p : nat) : vm (option Value) :=
  match fuel with
  | 0 => λ s, (s, Diverge)
  | S fuel => next_step fuel (iterate fuel) (Run (iterate fuel) fuel) p
  end.

(** [Interpret]: the state in which it calls [Run]; then, on failure, the
    transactions and handlers are unwound. *)
Definition top_level (chunk : Chunk) : Function :=
  MkFunction 0 "top_level" (Some (MkChunk (code chunk) (constants chunk) "")) 0 0 false [].

Definition start (chunk : Chunk) : vm unit :=
  _ ← ClearStack;
  _ ← est_modify (λ s, let c := m_ctx s in
        set_ctx (Ctx.Mk (Ctx.m_activeTransactions c) (Ctx.committed c) (Ctx.m_runtime c) (Ctx.m_currentThreadId c) "") s);
  closure ← new_object (OClosure (Some (top_level chunk)) []);
  _ ← PushValue (VPtr ClosurePtr (Some closure));
  PushFrame (top_level chunk) (Some closure) 1.

Definition Interpret (fuel : nat) (chunk : Chunk) (s : t) : round :=
  match start chunk s with
  | (s, Ok _) =>
      match Run (iterate fuel) fuel (length (m_frames s)) s with
      | Returned false s =>
          match (_ ← on_ctx (Ctx.UnwindTransactions 0); ClearHandlers) s with
          | (s, Ok _) => Returned false s
          | (_, Throw e) => Undefined (what_of e)
          | (_, Diverge) => Undefined "unwinding"
          end
      | r => r
      end
  | (_, Throw e) => Undefined (what_of e)
  | (_, Diverge) => Undefined "start"
  end.
End machine.
End Machine.
