(* ===== verification/MachineSpec.v ===== *)
(** * Theorems about the virtual machine

    The limits of the stacks hold in every run; an instruction leaves the
    stack below the base of its frame alone; a call and its return. *)

From S2P Require Import Prelude SyncRuntime Transactions Value Bytecode BytecodeSpec Execution Support DataOps Machine.
From Stdlib Require Import Lia SpecFloat.

Import Value Bytecode Execution Machine.

(** ** Invariants of the context *)

(** [m] preserves [I], also when it throws. *)
Definition keeps {A} (I : t → Prop) (m : vm A) : Prop := ∀ s, I s → I (m s).1.

(** What an invariant must allow for the handlers that neither push nor pop a
    frame: the stack changes above the floor, up to its limit. *)
Class StackInv (I : t → Prop) : Prop := {
  inv_push s v : I s → StackSize s < STACK_MAX → I (set_stack (m_valueStack s ++ [v]) s);
  inv_pop s : I s → floor s < StackSize s → I (set_stack (pop_back (m_valueStack s)) s);
  inv_local s i v : I s → floor s ≤ i < StackSize s → I (set_stack (<[i := v]> (m_valueStack s)) s);
  inv_heap s h : I s → I (set_heap h s);
  inv_ctx s c : I s → I (set_ctx c s);
  inv_handlers s l : I s → I (set_handlers l s);
  inv_shared s o r : I s → I (set_shared o r s);
}.

Section keeps.
Context (I : t → Prop) `{!StackInv I}.

Lemma keeps_ret {A} (a : A) : keeps I (mret a : vm A).
Proof. by intros s. Qed.
Lemma keeps_get : keeps I est_get.
Proof. by intros s. Qed.
Lemma keeps_throw {A} e : keeps I (est_throw e : vm A).
Proof. by intros s. Qed.
Lemma keeps_lift {A} (r : result A) : keeps I (est_lift r : vm A).
Proof. by intros s. Qed.
Lemma keeps_bind {A B} (m : vm A) (k : A → vm B) :
  keeps I m → (∀ a, keeps I (k a)) → keeps I (m ≫= k).
Proof.
  intros Hm Hk s Hs. unfold mbind, est_bind. specialize (Hm s Hs).
  destruct (m s) as [s' [a| |]]; [by apply Hk|done..].
Qed.
Lemma keeps_ctx {A} (m : st (Ctx.t Value) A) : keeps I (on_ctx m).
Proof. intros s Hs. unfold on_ctx, est_zoom. destruct (m (m_ctx s)) as [[a c]| |]; [by apply inv_ctx|done..]. Qed.
Lemma keeps_modify_ctx f : keeps I (est_modify (λ s, set_ctx (f s) s)).
Proof. intros s Hs. by apply inv_ctx. Qed.
Lemma keeps_modify_handlers f : keeps I (est_modify (λ s, set_handlers (f s) s)).
Proof. intros s Hs. by apply inv_handlers. Qed.

Lemma keeps_PushValue v : keeps I (PushValue v).
Proof. intros s Hs. unfold PushValue. destruct (Nat.leb_spec STACK_MAX (StackSize s)); [done|by apply inv_push]. Qed.
Lemma keeps_PopValue : keeps I PopValue.
Proof.
  intros s Hs. unfold PopValue. destruct (Nat.leb_spec (StackSize s) (floor s)); [done|].
  destruct (last (m_valueStack s)); [by apply inv_pop|done].
Qed.
Lemma keeps_PeekValue n : keeps I (PeekValue n).
Proof.
  intros s Hs. unfold PeekValue, from_top, read_slot. destruct (_ <=? _); [done|].
  by destruct (m_valueStack s !! _).
Qed.
Lemma keeps_GetAt n : keeps I (GetAt n).
Proof. intros s Hs. unfold GetAt. by destruct (m_valueStack s !! n). Qed.
Lemma keeps_absolute_index i : keeps I (absolute_index i).
Proof. intros s Hs. unfold absolute_index. destruct (last _); [by destruct (_ <=? _)|done]. Qed.
Lemma keeps_GetLocal i : keeps I (GetLocal i).
Proof. apply keeps_bind; [apply keeps_absolute_index|]. intros a s Hs. unfold read_slot. by destruct (_ !! _). Qed.
Lemma keeps_SetLocal i v : keeps I (SetLocal i v).
Proof.
  intros s Hs. unfold SetLocal, absolute_index, mbind, est_bind. destruct (last (m_frames s)) as [f|] eqn:Hf; [|done].
  destruct (Nat.leb_spec (StackSize s) (stackBase f + i)); [done|]. cbn. apply inv_local; [done|].
  unfold floor. rewrite Hf. lia.
Qed.
Lemma keeps_CurrentFrame : keeps I CurrentFrame.
Proof. intros s Hs. unfold CurrentFrame. by destruct (last _). Qed.
Lemma keeps_GetUpvalue i : keeps I (GetUpvalue i).
Proof.
  apply keeps_bind; [apply keeps_CurrentFrame|]. intros f s Hs. unfold read_upvalue.
  destruct (captures_of _ s) as [[[? ?] captures]|]; [by destruct (captures !! i)|done].
Qed.
Lemma keeps_SetUpvalue i v : keeps I (SetUpvalue i v).
Proof.
  apply keeps_bind; [apply keeps_CurrentFrame|]. intros f s Hs. unfold write_upvalue.
  destruct (captures_of _ s) as [[[? ?] captures]|]; [|done]. destruct (_ <=? _); [done|by apply inv_heap].
Qed.
Lemma keeps_new_object o : keeps I (new_object o).
Proof. intros s Hs. by apply inv_heap. Qed.
Lemma keeps_new_array l : keeps I (new_array l).
Proof. intros s Hs. by apply inv_ctx. Qed.
Lemma keeps_new_instance l : keeps I (new_instance l).
Proof. intros s Hs. by apply inv_ctx. Qed.
Lemma keeps_read_object p : keeps I (read_object p).
Proof. intros s Hs. unfold read_object. by destruct (m_heap s !! p). Qed.
Lemma keeps_write_object p o : keeps I (write_object p o).
Proof. intros s Hs. by apply inv_heap. Qed.
Lemma keeps_modify_shared f g : keeps I (est_modify (λ s, set_shared (f s) (g s) s)).
Proof. intros s Hs. by apply inv_shared. Qed.
Lemma keeps_RegisterActor a : keeps I (RegisterActor a).
Proof. intros s Hs. by apply inv_shared. Qed.
Lemma keeps_await others a i : keeps I (await others a i).
Proof.
  intros s Hs. unfold await. destruct (wait_query others a i s) as [[[h c] answer]|]; [|done].
  by apply inv_heap, inv_ctx.
Qed.
Lemma keeps_RaiseError msg : keeps I (RaiseError msg).
Proof. intros s Hs. by apply inv_ctx. Qed.
Lemma keeps_PopHandlerMap : keeps I PopHandlerMap.
Proof.
  intros s Hs. unfold PopHandlerMap. destruct (m_handlerStack s) eqn:E; [by apply keeps_RaiseError|by apply inv_handlers].
Qed.
Lemma keeps_null_pointer {A} : keeps I (null_pointer : vm A).
Proof. by intros s. Qed.
Lemma keeps_wrong_object {A} : keeps I (wrong_object : vm A).
Proof. by intros s. Qed.
Lemma keeps_Fail msg : keeps I (Fail msg).
Proof. intros s Hs. unfold Fail. cbn. by apply inv_ctx. Qed.
Lemma keeps_UnwindHandlers b : keeps I (UnwindHandlers b).
Proof. intros s Hs. by apply inv_handlers. Qed.
Lemma keeps_if {A} (b : bool) (m m' : vm A) : keeps I m → keeps I m' → keeps I (if b then m else m').
Proof. by destruct b. Qed.
End keeps.

Create HintDb keeps.
#[export] Hint Resolve keeps_ret keeps_get keeps_throw keeps_lift keeps_ctx keeps_modify_ctx
  keeps_modify_handlers keeps_PushValue keeps_PopValue keeps_PeekValue keeps_GetAt keeps_GetLocal keeps_SetLocal
  keeps_CurrentFrame keeps_GetUpvalue keeps_SetUpvalue keeps_new_object keeps_new_array keeps_new_instance
  keeps_read_object keeps_write_object keeps_modify_shared keeps_RegisterActor keeps_await keeps_RaiseError
  keeps_PopHandlerMap keeps_null_pointer keeps_wrong_object keeps_Fail keeps_UnwindHandlers : keeps.

Lemma last_snoc_inv {A} (l : list A) x : last l = Some x → l = pop_back l ++ [x].
Proof. intros (l' & ->)%last_Some. by rewrite pop_back_snoc. Qed.

Lemma SetIp_run s frame n : last (m_frames s) = Some frame →
  SetIp n s = (set_frames (pop_back (m_frames s) ++ [set_ip n frame]) s, Ok tt).
Proof. unfold SetIp. by intros ->. Qed.

(** An invariant that also allows the [ip] of the current frame to move inside
    its code. *)
Class JumpInv (I : t → Prop) : Prop := {
  jump_stack :: StackInv I;
  inv_ip s frame n : I s → last (m_frames s) = Some frame → n ≤ length (code_of (function frame)) →
    I (SetIp n s).1;
}.

(** Take a handler apart along its binds and cases. *)
Ltac keep :=
  try match goal with |- keeps ?I _ => assert (StackInv I) by apply _ end;
  try match goal with |- keeps ?I _ => assert (JumpInv I) by apply _ end; repeat first
  [ progress eauto with keeps
  | apply keeps_bind; [|intros ?]
  | apply keeps_if
  | match goal with |- keeps _ (match ?x with _ => _ end) => destruct x end ].

Section handlers.
Context (I : t → Prop) `{!JumpInv I}.
Context (others : peers) (print_fuel : nat).

Lemma keeps_pop_to fuel : ∀ size, keeps I (pop_to fuel size).
Proof.
  induction fuel as [|fuel IH]; intros size s Hs; cbn [pop_to]; destruct (StackSize s <=? size); try done.
  apply (keeps_bind I); [by apply keeps_PopValue; try apply _|intros _; apply IH|done].
Qed.
Lemma keeps_pop_down_to size : keeps I (pop_down_to size).
Proof. intros s. apply keeps_pop_to. Qed.
Lemma keeps_get_args n : ∀ first, keeps I (get_args first n).
Proof. induction n as [|n IH]; intros first; cbn; keep. Qed.
Lemma keeps_pop_values n : ∀ acc, keeps I (pop_values n acc).
Proof. induction n as [|n IH]; intros acc; cbn; keep. Qed.
Lemma keeps_push_values l : keeps I (push_values l).
Proof. induction l as [|v l IH]; cbn; keep. Qed.
Lemma keeps_pop_pairs n : ∀ entries, keeps I (pop_pairs n entries).
Proof. induction n as [|n IH]; intros entries; cbn; keep. Qed.
Lemma keeps_pop_table n : ∀ table, keeps I (pop_table n table).
Proof. induction n as [|n IH]; intros table; cbn; keep. Qed.
Lemma keeps_next_byte : keeps I next_byte.
Proof.
  intros s Hs. unfold next_byte, mbind, est_bind, CurrentFrame. destruct (last (m_frames s)) as [frame|] eqn:Hf; [|done].
  destruct (code_of (function frame) !! ip frame) as [b|] eqn:E; [|done]. apply lookup_lt_Some in E.
  pose proof (inv_ip s frame (S (ip frame)) Hs Hf E) as H. rewrite (SetIp_run s frame) // in H |- *.
Qed.
Lemma keeps_ReadStringConstant l w : keeps I (ReadStringConstant print_fuel l w).
Proof. unfold ReadStringConstant. keep. Qed.
Lemma keeps_as_index v : keeps I (as_index v).
Proof. unfold as_index. keep. Qed.
Lemma keeps_array_elements p : keeps I (array_elements p).
Proof. unfold array_elements. keep. Qed.
Lemma keeps_instance_fields p : keeps I (instance_fields p).
Proof. unfold instance_fields. keep. Qed.
Lemma keeps_push_result v : keeps I (push_result v).
Proof. unfold push_result, succeed. keep. Qed.
Lemma keeps_succeed b : keeps I (succeed b).
Proof. by intros s. Qed.
End handlers.
#[export] Hint Resolve keeps_pop_down_to keeps_get_args keeps_pop_values keeps_push_values keeps_pop_pairs
  keeps_pop_table keeps_next_byte keeps_ReadStringConstant keeps_as_index keeps_array_elements keeps_instance_fields
  keeps_push_result keeps_succeed : keeps.

Section data.
Context (I : t → Prop) `{!JumpInv I}.
Context (others : peers) (print_fuel : nat).

Lemma keeps_HandleGlobal op w constants : keeps I (HandleGlobal print_fuel op w constants).
Proof. unfold HandleGlobal, push_or_undefined, DefineGlobal, DefineThreadLocalGlobal, succeed. keep. Qed.
Lemma keeps_HandleClosure w constants : keeps I (HandleClosure w constants).
Proof. unfold HandleClosure. keep. Qed.
Lemma keeps_HandleBeginTransaction : keeps I HandleBeginTransaction.
Proof. unfold HandleBeginTransaction. keep. Qed.
Lemma keeps_pop2 f : (∀ a b, keeps I (f a b)) → keeps I (pop2 f).
Proof. intros Hf. unfold pop2. keep. Qed.
Lemma keeps_pure2 f : keeps I (pure2 f).
Proof. apply keeps_pop2. keep. Qed.
Lemma keeps_pop1 f : keeps I (pop1 f).
Proof. unfold pop1. keep. Qed.
Lemma keeps_HandleArrayIndexGet : keeps I HandleArrayIndexGet.
Proof. unfold HandleArrayIndexGet, map_entries. keep. Qed.
Lemma keeps_HandleArrayIndexSet : keeps I HandleArrayIndexSet.
Proof. unfold HandleArrayIndexSet, map_entries. keep. Qed.
Lemma keeps_HandleMemberGet w : keeps I (HandleMemberGet w).
Proof. unfold HandleMemberGet. keep. Qed.
Lemma keeps_HandleMemberSet w : keeps I (HandleMemberSet w).
Proof. unfold HandleMemberSet. keep. Qed.
Lemma keeps_HandleModuleMemberGet w l : keeps I (HandleModuleMemberGet print_fuel w l).
Proof. unfold HandleModuleMemberGet, module_member, GetGlobal. keep. Qed.
Lemma keeps_HandleEnum w : keeps I HandleEnumTagGet ∧ keeps I (HandleEnumArgGet w).
Proof. unfold HandleEnumTagGet, HandleEnumArgGet. split; keep. Qed.
Lemma keeps_new_pointer n t : keeps I (new_pointer n t).
Proof. unfold new_pointer. keep. Qed.
Lemma keeps_HandleAddressOfMember : keeps I HandleAddressOfMember.
Proof. unfold HandleAddressOfMember. pose proof keeps_new_pointer. keep. Qed.
Lemma keeps_HandleAddressOf w l : keeps I (HandleAddressOfLocal w) ∧ keeps I (HandleAddressOfGlobal print_fuel w l).
Proof. unfold HandleAddressOfLocal, HandleAddressOfGlobal. pose proof keeps_new_pointer. split; keep. Qed.
Lemma keeps_HandleDerefGet : keeps I HandleDerefGet.
Proof. unfold HandleDerefGet, pointer_get, GetGlobal. keep. Qed.
Lemma keeps_build_table k o m n : keeps I (build_table k o m n).
Proof. unfold build_table. keep. Qed.
Lemma keeps_HandlePushHandler : keeps I HandlePushHandler.
Proof. unfold HandlePushHandler, PushHandlerMap. keep. Qed.
Lemma keeps_BuildActor w n : keeps I (BuildActor print_fuel w n).
Proof. unfold BuildActor, GetGlobal. keep. Qed.
Lemma keeps_HandleActorMessage k w l : keeps I (HandleActorMessage others print_fuel k w l).
Proof. unfold HandleActorMessage, EnqueueActorSend, EnqueueActorQuery, method_table, read_actor. keep. Qed.
Lemma keeps_HandlePrint : keeps I (HandlePrint print_fuel).
Proof. unfold HandlePrint. keep. Qed.
Lemma keeps_HandleAssert w l : keeps I (HandleAssert print_fuel w l).
Proof. unfold HandleAssert. keep. Qed.
Lemma keeps_second_operand n k : (∀ b, keeps I (k b)) → keeps I (second_operand n k).
Proof. intros Hk. unfold second_operand, ensureRemaining. keep. Qed.
Lemma keeps_derive m v make : (∀ p, keeps I (make p)) → keeps I (derive m v make).
Proof. intros Hm. unfold derive. keep. Qed.
Lemma keeps_derive_call n make : keeps I (derive_call n make).
Proof. unfold derive_call. pose proof keeps_derive. keep. Qed.
Lemma keeps_iterators : keeps I HandleMakeIter ∧ keeps I HandleIterTake ∧ keeps I HandleIterDrop ∧ keeps I HandleIterReverse.
Proof.
  unfold HandleMakeIter, HandleIterTake, HandleIterDrop, HandleIterReverse. pose proof keeps_derive.
  split_and!; keep.
Qed.
End data.
#[export] Hint Resolve keeps_HandleGlobal keeps_HandleClosure keeps_HandleBeginTransaction keeps_pop2 keeps_pure2 keeps_pop1
  keeps_HandleArrayIndexGet keeps_HandleArrayIndexSet keeps_HandleMemberGet keeps_HandleMemberSet
  keeps_HandleModuleMemberGet keeps_new_pointer keeps_HandleAddressOfMember keeps_HandleDerefGet keeps_build_table
  keeps_HandlePushHandler keeps_BuildActor keeps_HandleActorMessage keeps_HandlePrint keeps_HandleAssert
  keeps_second_operand keeps_derive keeps_derive_call : keeps.

(** The instructions that change neither the frames nor a value below the base
    of the current one, and do not jump. *)
Definition straight (op : OpCode) : bool :=
  match op with
  | OP_CALL | OP_RETURN | OP_EFFECT_INVOKE | OP_ITER_NEXT | OP_DEREF_SET
  | OP_JUMP | OP_JUMP_IF_TRUE | OP_JUMP_IF_FALSE | OP_LOOP => false
  | _ => true
  end.

Lemma keeps_straight (I : t → Prop) `{!JumpInv I} natives others print_fuel next instr codeSize constants :
  straight (opcode instr) = true → keeps I (Dispatch natives others print_fuel next instr codeSize constants).
Proof.
  unfold Dispatch. intros Hs. destruct (keeps_iterators I) as (? & ? & ? & ?).
  pose proof (λ w, proj1 (keeps_HandleEnum I w)). pose proof (λ w, proj2 (keeps_HandleEnum I w)).
  pose proof (λ w l, proj1 (keeps_HandleAddressOf I print_fuel w l)). pose proof (λ w l, proj2 (keeps_HandleAddressOf I print_fuel w l)).
  destruct (opcode instr); try done;
    unfold BuildArray, BuildMap, BuildStruct, BuildEnum, BuildHandler, BuildActorMethods, HandleAddressOfUpvalue; keep.
Qed.

(** ** Jumps, calls and returns *)

(** One that allows frames to be pushed up to their limit, and any slot of the
    stack to be written. *)
Class PushInv (I : t → Prop) : Prop := {
  push_jump :: JumpInv I;
  inv_push_frame s frame : I s → length (m_frames s) < FRAMES_MAX → ip frame = 0 →
    I (set_frames (m_frames s ++ [frame]) s);
  inv_slot s i v : I s → i < StackSize s → I (set_stack (<[i := v]> (m_valueStack s)) s);
}.
(** One that also allows frames to be popped. *)
Class FrameInv (I : t → Prop) : Prop := {
  frame_push :: PushInv I;
  inv_take_frames s n : I s → I (set_frames (take n (m_frames s)) s);
}.

Lemma jump_forward_le codeSize i w target : i ≤ codeSize → jump_forward codeSize i w = Some target → target ≤ codeSize.
Proof.
  unfold jump_forward. intros Hi. destruct (Z.ltb_spec (Z.of_nat codeSize - Z.of_nat i) w); intros [= <-]. lia.
Qed.

Lemma keeps_jump I `{!JumpInv I} codeSize w s frame :
  I s → last (m_frames s) = Some frame → codeSize = length (code_of (function frame)) → ip frame ≤ codeSize →
  I (jump codeSize w s).1.
Proof.
  intros Hs Hf Hc Hi. unfold jump, CurrentFrame. unfold mbind at 1, est_bind at 1. rewrite Hf.
  destruct (jump_forward codeSize (ip frame) w) as [target|] eqn:E; [|by apply keeps_Fail; try apply _].
  apply jump_forward_le in E; [|done]. pose proof (inv_ip s frame target Hs Hf ltac:(lia)) as Hn.
  unfold mbind, est_bind. revert Hn. unfold SetIp. by rewrite Hf.
Qed.

Lemma keeps_loop I `{!JumpInv I} w s frame :
  I s → last (m_frames s) = Some frame → ip frame ≤ length (code_of (function frame)) → I (loop w s).1.
Proof.
  intros Hs Hf Hi. unfold loop, CurrentFrame. unfold mbind at 1, est_bind at 1. rewrite Hf.
  destruct (loop_back (ip frame) w) as [target|] eqn:E; [|by apply keeps_Fail; try apply _].
  assert (target ≤ ip frame) by (unfold loop_back in E; destruct (_ <? _)%Z; [done|injection E; lia]).
  pose proof (inv_ip s frame target Hs Hf ltac:(lia)) as Hn.
  unfold mbind, est_bind. revert Hn. unfold SetIp. by rewrite Hf.
Qed.

Lemma PopValue_frames s : m_frames (PopValue s).1 = m_frames s.
Proof. unfold PopValue. destruct (_ <=? _); [done|]. by destruct (last (m_valueStack s)). Qed.

Lemma PeekValue_state n s : (PeekValue n s).1 = s.
Proof. unfold PeekValue, from_top, read_slot. destruct (_ <=? _); [done|]. by destruct (m_valueStack s !! _). Qed.

Lemma keeps_jump_if I `{!JumpInv I} b codeSize w s frame :
  I s → last (m_frames s) = Some frame → codeSize = length (code_of (function frame)) → ip frame ≤ codeSize →
  I (jump_if b codeSize w s).1.
Proof.
  intros Hs Hf Hc Hi. unfold jump_if. unfold mbind at 1, est_bind at 1.
  pose proof (keeps_PopValue I s Hs) as Hp. pose proof (PopValue_frames s) as Hfr.
  destruct (PopValue s) as [s1 [v| |]]; [|done..]. cbn [fst] in Hp, Hfr. unfold est_lift. unfold mbind, est_bind.
  destruct (as_bool v) as [c| |]; [|done..]. destruct (Bool.eqb c b); [|done].
  apply (keeps_jump I codeSize w s1 frame); [done|by rewrite Hfr|done..].
Qed.

Section push.
Context (I : t → Prop) `{!PushInv I}.

Lemma keeps_PushFrame f c b : keeps I (PushFrame f c b).
Proof.
  intros s Hs. unfold PushFrame. destruct (Nat.leb_spec FRAMES_MAX (length (m_frames s))); [done|].
  by apply inv_push_frame.
Qed.
Lemma keeps_call_function f c n i : keeps I (call_function f c n i).
Proof. unfold call_function, pack_arguments. pose proof keeps_PushFrame. destruct f. keep. Qed.
Lemma keeps_SetAt i v : keeps I (SetAt i v).
Proof. intros s Hs. unfold SetAt. destruct (Nat.leb_spec (StackSize s) i); [done|by apply inv_slot]. Qed.
Lemma keeps_HandleDerefSet : keeps I HandleDerefSet.
Proof. unfold HandleDerefSet, pointer_set. pose proof keeps_SetAt. keep. Qed.
End push.

(** *** The callers *)

(** The frames but for where they are in their code. *)
Definition callers (s : t) : list CallFrame := set_ip 0 <$> m_frames s.

Lemma callers_SetIp n s : callers (SetIp n s).1 = callers s.
Proof.
  unfold callers, SetIp. destruct (last (m_frames s)) as [frame|] eqn:Hf; [|done]. cbn.
  rewrite {2}(last_snoc_inv _ _ Hf) !fmap_app. done.
Qed.
Lemma callers_last s s' frame : callers s' = callers s → last (m_frames s) = Some frame →
  ∃ frame', last (m_frames s') = Some frame' ∧ function frame' = function frame.
Proof.
  unfold callers. intros E Hf. apply (f_equal last) in E. rewrite !fmap_last Hf in E.
  destruct (last (m_frames s')) as [frame'|]; [|done]. exists frame'. split; [done|]. by injection E.
Qed.

(** Frames that stay under those pushed above them. *)
Definition above (base : list CallFrame) (s : t) : Prop := base `prefix_of` callers s.

#[export] Instance above_push base : PushInv (above base).
Proof.
  split; [split; [split; intros; exact H|]| |intros; exact H].
  - intros s frame n H _ _. unfold above. by rewrite callers_SetIp.
  - intros s frame H _ _. unfold above, callers in *. cbn. rewrite fmap_app. by apply prefix_app_r.
Qed.
#[export] Instance callers_jump c : JumpInv (λ s, callers s = c).
Proof. split; [split; intros; exact H|]. intros s frame n H _ _. by rewrite callers_SetIp. Qed.

(** [m] keeps [I], and when it returns it leaves the callers as they were. *)
Definition steady {A} (I : t → Prop) (m : vm A) : Prop :=
  ∀ s, I s → I (m s).1 ∧ ∀ a, (m s).2 = Ok a → callers (m s).1 = callers s.

Lemma steady_bind {A B} I (m : vm A) (k : A → vm B) : steady I m → (∀ a, steady I (k a)) → steady I (m ≫= k).
Proof.
  intros Hm Hk s Hs. unfold mbind, est_bind. destruct (Hm s Hs) as [H1 H2]. destruct (m s) as [s1 [a| |]]; [|done..].
  destruct (Hk a s1 H1) as [H3 H4]. split; [done|]. intros b E. rewrite (H4 b E). by apply (H2 a).
Qed.
Lemma steady_keeps {A} I (m : vm A) : keeps I m → (∀ c, keeps (λ s, callers s = c) m) → steady I m.
Proof. intros Hm Hc s Hs. split; [by apply Hm|]. intros a _. by apply (Hc (callers s)). Qed.

(** Such an operation, piece by piece. *)
Ltac steady := apply steady_keeps; [|intros ?c]; keep.
Definition fails {A} (m : vm A) : Prop := ∀ s a, (m s).2 ≠ Ok a.
Lemma fails_bind {A B} (m : vm A) (k : A → vm B) : (∀ a, fails (k a)) → fails (m ≫= k).
Proof. intros Hk s b. unfold mbind, est_bind. destruct (m s) as [s1 [a| |]]; [apply Hk|done..]. Qed.

(** What the machine expects of the native functions: that they keep the
    invariant, and return to the frames that called them unless they fail. *)
Record well_behaved (I : t → Prop) (natives : nat → NativeFunction) : Prop := {
  wb_keeps p args : keeps I (invoke (natives p) args);
  wb_callers p args s s' v : invoke (natives p) args s = (s', Ok v) → HasError s' = false → callers s' = callers s;
}.

(** *** Instructions *)

Section frames.
Context (I : t → Prop) `{!FrameInv I} (Hlimits : ∀ s, I s → ∀ frame, last (m_frames s) = Some frame → ip frame ≤ length (code_of (function frame))).
Context (natives : nat → NativeFunction) (others : peers) (print_fuel : nat).
Context (Hnatives : ∀ p args, keeps I (invoke (natives p) args)).
Context (next : nat → vm (option Value)) (Hnext : ∀ p, steady I (next p)).
Abbreviation Dispatch := (Dispatch natives others print_fuel next).

Lemma keeps_PopFrame : keeps I PopFrame.
Proof. intros s Hs. unfold PopFrame. destruct (m_frames s) eqn:E; [done|]. rewrite -E. by apply inv_take_frames. Qed.
Lemma keeps_call_native p n i : keeps I (call_native natives p n i).
Proof. unfold call_native. keep. Qed.
Lemma keeps_HandleResolvedCall v n i : keeps I (HandleResolvedCall natives v n i).
Proof.
  unfold HandleResolvedCall. pose proof (keeps_call_function I). pose proof keeps_call_native. keep.
Qed.
Lemma keeps_HandleCall n : keeps I (HandleCall natives n).
Proof. unfold HandleCall. pose proof keeps_HandleResolvedCall. keep. Qed.
Lemma keeps_HandleEffectInvoke w l : keeps I (HandleEffectInvoke natives print_fuel w l).
Proof. unfold HandleEffectInvoke. pose proof keeps_HandleResolvedCall. keep. Qed.
Lemma keeps_HandleReturn : keeps I HandleReturn.
Proof. unfold HandleReturn. pose proof keeps_PopFrame. keep. Qed.

Lemma keeps_HandleIterNext w codeSize s frame :
  I s → last (m_frames s) = Some frame → codeSize = length (code_of (function frame)) → I (HandleIterNext next w codeSize s).1.
Proof.
  intros Hs Hf Hc. unfold HandleIterNext. unfold mbind at 1, est_bind at 1.
  pose proof (PeekValue_state 0 s) as Hp.
  destruct (PeekValue 0 s) as [s1 [v| |]]; cbn in Hp; subst s1; [|done..].
  assert (Hother : keeps I (_ ← RaiseError "Expected iterator on stack"; succeed false)) by keep.
  destruct v as [| | | | | |[] [it|]]; try done; try by apply Hother.
  unfold mbind, est_bind. destruct (Hnext it s Hs) as [H1 H2]. destruct (next it s) as [s1 [[v|]| |]]; [| |done..].
  - by apply keeps_push_result; try apply _.
  - destruct (callers_last s s1 frame (H2 _ eq_refl) Hf) as (frame' & Hf' & Hfun).
    eapply (keeps_jump I); try apply _; [done|done|by rewrite Hfun|]. rewrite Hc -Hfun. by apply Hlimits with s1.
Qed.

(** Any instruction, of the frame whose code it comes from. *)
Lemma keeps_Dispatch instr codeSize constants s frame :
  I s → last (m_frames s) = Some frame → codeSize = length (code_of (function frame)) →
  I (Dispatch instr codeSize constants s).1.
Proof.
  intros Hs Hf Hc. pose proof (Hlimits s Hs frame Hf) as Hi. destruct (straight (opcode instr)) eqn:E.
  { by apply (keeps_straight I); try apply _. }
  unfold Machine.Dispatch. rewrite -Hc in Hi. destruct (opcode instr); try done.
  - by eapply keeps_jump; try apply _.
  - by eapply keeps_jump_if; try apply _.
  - by eapply keeps_jump_if; try apply _.
  - eapply keeps_loop; try apply _; [done..|by subst].
  - by apply keeps_HandleCall.
  - by apply keeps_HandleDerefSet; try apply _.
  - by eapply keeps_HandleIterNext.
  - by apply keeps_HandleEffectInvoke.
  - by apply keeps_HandleReturn.
Qed.
End frames.

(** ** The limits *)

(** The stacks within their limits, and no frame past the end of its code. *)
Record limits (s : t) : Prop := {
  stack_limit : StackSize s ≤ STACK_MAX;
  frames_limit : length (m_frames s) ≤ FRAMES_MAX;
  ip_limit : Forall (λ f, ip f ≤ length (code_of (function f))) (m_frames s);
}.

Lemma length_pop_back {A} (l : list A) : length (pop_back l) = pred (length l).
Proof. unfold pop_back. rewrite length_take. lia. Qed.

#[export] Instance limits_stack : StackInv limits.
Proof.
  split; intros; destruct H; split; cbn; try done; unfold StackSize in *; cbn.
  - rewrite length_app /=. lia.
  - rewrite length_pop_back. lia.
  - by rewrite length_insert.
Qed.

#[export] Instance limits_jump : JumpInv limits.
Proof.
  split; [apply _|]. intros s frame n [H1 H2 H3] Hf Hn. rewrite (SetIp_run s frame) //. split; cbn.
  - done.
  - rewrite (last_snoc_inv _ _ Hf) length_app /= in H2. rewrite length_app /=. lia.
  - rewrite (last_snoc_inv _ _ Hf) Forall_app in H3. apply Forall_app. split; [apply H3|]. by constructor.
Qed.

#[export] Instance limits_push : PushInv limits.
Proof.
  split; [apply _| |].
  - intros s frame [H1 H2 H3] Hl Hi. split; cbn; [done|rewrite length_app /=; lia|].
    apply Forall_app. split; [done|]. constructor; [lia|done].
  - intros s i v [H1 H2 H3] Hi. split; cbn; [|done..]. unfold StackSize. cbn. by rewrite length_insert.
Qed.
#[export] Instance limits_frame : FrameInv limits.
Proof.
  split; [apply _|]. intros s n [H1 H2 H3]. split; cbn; [done|rewrite length_take; lia|by apply Forall_take].
Qed.
Lemma limits_ip s frame : limits s → last (m_frames s) = Some frame → ip frame ≤ length (code_of (function frame)).
Proof. intros [_ _ H] Hf. rewrite (last_snoc_inv _ _ Hf) in H. apply Forall_app in H as [_ H]. by inversion H. Qed.

(** ** Rounds *)

(** What a round leaves: the state it goes on or ends with. *)
Definition state_of (r : round) : option t :=
  match r with Running s | Returned _ s => Some s | Undefined _ => None end.

Lemma catch_keeps (I : t → Prop) {A} (r : t * result A) (k : A → t → round) s' :
  (∀ s m, I s → I (RaiseError m s).1) → (∀ a s, state_of (k a s) = Some s) →
  I r.1 → state_of (catch r k) = Some s' → I s'.
Proof.
  intros Hr Hk. destruct r as [s [a|[| | | | | |]|]]; cbn; intros Hs; try (intros [= <-]; by try apply Hr); [|done..].
  rewrite Hk. by intros [= <-].
Qed.

Lemma fetch_at bytes i instr i' : fetch bytes i = Ok (Fetched instr i') → i < i' ≤ length bytes.
Proof.
  intros H. destruct (fetch_total bytes i) as (_ & _ & _ & f & E & Hf). rewrite H in E. injection E as <-. tauto.
Qed.

(** A round: the instruction from the state behind its fetch, or the return
    behind the end of the code. *)
Lemma run_round_run natives others print_fuel next entry s frame instr ip' :
  entry ≤ length (m_frames s) → last (m_frames s) = Some frame →
  fetch (code_of (function frame)) (ip frame) = Ok (Fetched instr ip') →
  run_round natives others print_fuel next entry s
  = catch (Dispatch natives others print_fuel next instr (length (code_of (function frame))) (constants_of (function frame)) (SetIp ip' s).1)
      (λ ok s, after_dispatch entry ok s).
Proof. intros He Hf E. unfold run_round. by rewrite (proj2 (Nat.ltb_ge _ _) He) Hf E. Qed.

(** ** A machine that is watched

    Between two rounds, in [Run] at any depth, the watched machine looks at its
    state, and raises the alarm if the watch does not allow it.  It is the
    machine otherwise; an alarm, like undefined behaviour, ends everything. *)
Section watched.
Context (watch : t → bool) (alarm : string).
Context (natives : nat → NativeFunction) (others : peers) (print_fuel : nat).

Definition look (s : t) (r : round) : round := if watch s then r else Undefined alarm.

Fixpoint Run_watched (next : nat → vm (option Value)) (fuel entryFrameCount : nat) (s : t) : round :=
  look s
    match fuel with
    | 0 => Running s
    | S fuel =>
        match run_round natives others print_fuel next entryFrameCount s with
        | Running s => Run_watched next fuel entryFrameCount s
        | Returned b s => look s (Returned b s)
        | Undefined w => Undefined w
        end
    end.

Fixpoint iterate_watched (fuel : nat) (p : nat) : vm (option Value) :=
  match fuel with
  | 0 => λ s, (s, Diverge)
  | S fuel => next_step fuel (iterate_watched fuel) (Run_watched (iterate_watched fuel) fuel) p
  end.

Definition Interpret_watched (fuel : nat) (chunk : Chunk) (s : t) : round :=
  match start chunk s with
  | (s, Ok _) =>
      match Run_watched (iterate_watched fuel) fuel (length (m_frames s)) s with
      | Returned false s =>
          match (_ ← on_ctx (Ctx.UnwindTransactions 0); ClearHandlers) s with
          | (s, Ok _) => look s (Returned false s)
          | (_, Throw e) => Undefined (what_of e)
          | (_, Diverge) => Undefined "unwinding"
          end
      | r => r
      end
  | (_, Throw e) => Undefined (what_of e)
  | (_, Diverge) => Undefined "start"
  end.
End watched.

(** Operations that do the same from states with the invariant. *)
Definition agree {A} (I : t → Prop) (m m' : vm A) : Prop := ∀ s, I s → m s = m' s.
Lemma agree_refl {A} I (m : vm A) : agree I m m.
Proof. by intros s. Qed.
Lemma agree_bind {A B} I (m m' : vm A) (k k' : A → vm B) :
  agree I m m' → keeps I m → (∀ a, agree I (k a) (k' a)) → agree I (m ≫= k) (m' ≫= k').
Proof.
  intros Hm Hk Hkk s Hs. unfold mbind, est_bind. rewrite -(Hm s Hs). specialize (Hk s Hs).
  destruct (m s) as [s1 [a| |]]; [by apply Hkk|done..].
Qed.
Lemma keeps_steady {A} I (m : vm A) : steady I m → keeps I m.
Proof. intros Hm s Hs. by apply Hm. Qed.

Section rounds.
Context (I : t → Prop) `{!FrameInv I} (Hl : ∀ s, I s → limits s).
Context (natives : nat → NativeFunction) (others : peers) (print_fuel : nat) (Hnatives : well_behaved I natives).

Section round.
Context (next : nat → vm (option Value)) (Hnext : ∀ p, steady I (next p)).
Abbreviation run_round := (run_round natives others print_fuel next).
Abbreviation Run := (Run natives others print_fuel next).

Lemma Hip s : I s → ∀ frame, last (m_frames s) = Some frame → ip frame ≤ length (code_of (function frame)).
Proof using Hl. intros Hs frame. by apply limits_ip, Hl. Qed.

(** A round from a state with the invariant ends in one with it. *)
Lemma round_keeps entry s s' : I s → state_of (run_round entry s) = Some s' → I s'.
Proof using All.
  intros Hs. assert (Hraise : ∀ s m, I s → I (RaiseError m s).1) by (intros; by apply inv_ctx).
  unfold Machine.run_round. destruct (_ <? _); [by intros [= <-]|].
  destruct (last (m_frames s)) as [frame|] eqn:Hf; [|by intros [= <-]].
  destruct (fetch _ _) as [[instr ip'| |]| |] eqn:E; [..|done|done].
  - apply fetch_at in E as [_ Hi]. pose proof (inv_ip s frame ip' Hs Hf Hi) as Hs1.
    rewrite (SetIp_run s frame) // in Hs1 |- *. cbn [fst] in Hs1 |- *.
    apply catch_keeps; [done| |].
    { intros ok s1. unfold after_dispatch. destruct (negb ok); [done|].
      destruct (_ <? _); [done|]. by destruct (bool_decide _). }
    eapply (keeps_Dispatch I Hip natives others print_fuel (wb_keeps _ _ Hnatives) next Hnext) with (frame := set_ip ip' frame); try done.
    cbn. by rewrite last_snoc.
  - apply catch_keeps; [done| |by apply keeps_HandleReturn].
    intros _ s1. unfold after_return. by destruct (bool_decide _).
  - destruct (Nat.le_gt_cases (S (ip frame)) (length (code_of (function frame)))) as [Hle|Hgt].
    + intros [= <-]. apply Hraise. by eapply inv_ip; try apply _.
    + unfold fetch in E. destruct (Nat.leb_spec (length (code_of (function frame))) (ip frame)); [done|lia].
Qed.

Lemma Run_keeps fuel entry s s' : I s → state_of (Run fuel entry s) = Some s' → I s'.
Proof using All.
  revert s. induction fuel as [|fuel IH]; intros s Hs; cbn [Machine.Run]; [by intros [= <-]|].
  pose proof (λ s', round_keeps entry s s' Hs) as Hr.
  destruct (run_round _ s) as [s1|b s1|]; cbn in *; [apply IH|..]; try done; eauto.
Qed.

(** *** Nested runs return to the frame that started them *)

Lemma above_SetIp base n s : above base (SetIp n s).1 ↔ above base s.
Proof. unfold above. by rewrite callers_SetIp. Qed.

Lemma above_eq base s : above base s → length (m_frames s) < S (length base) → callers s = base.
Proof.
  intros H Hlen. symmetry. apply prefix_length_eq; [done|]. unfold callers. rewrite length_fmap. lia.
Qed.

Lemma above_PopFrame base s : above base s → length base < length (m_frames s) → above base (PopFrame s).1.
Proof.
  unfold PopFrame. intros Ha Hlen. destruct (last (m_frames s)) as [f|] eqn:Hf; cycle 1.
  { apply last_None in Hf. rewrite Hf in Hlen. cbn in Hlen. lia. }
  destruct (m_frames s) as [|f0 l0] eqn:E; [done|]. rewrite -E in Hf Hlen |- *. apply last_snoc_inv in Hf.
  unfold above, callers in *. cbn [fst m_frames set_frames]. rewrite Hf fmap_app in Ha. destruct Ha as [l Hk].
  destruct l as [|x l _] using rev_ind.
  - apply (f_equal length) in Hk. rewrite app_nil_r length_app !length_fmap /= in Hk. rewrite Hf length_app /= in Hlen. lia.
  - rewrite app_assoc in Hk. apply app_inj_tail in Hk as [Hk _]. by exists l.
Qed.

Lemma above_HandleReturn base s : above base s → length base < length (m_frames s) → above base (HandleReturn s).1.
Proof.
  intros Ha Hlen. set (P := λ s, above base s ∧ length base < length (m_frames s)).
  assert (StackInv P) by (split; intros; exact H).
  assert (Hbind : ∀ {A B} (m : vm A) (k : A → vm B), keeps P m →
    (∀ a s, P s → above base (k a s).1) → ∀ s, P s → above base ((m ≫= k) s).1).
  { intros A B m k Hm Hk s0 H0. unfold mbind, est_bind. specialize (Hm s0 H0).
    destruct (m s0) as [s1 [a| |]]; [by apply Hk|apply Hm..]. }
  assert (Hs : P s) by done. clear Ha Hlen. revert s Hs. unfold HandleReturn.
  apply Hbind; [by apply keeps_CurrentFrame|intros frame]. apply Hbind; [by apply keeps_get|intros s0].
  apply Hbind; [apply keeps_if; [by apply keeps_PopValue|by apply keeps_ret]|intros result].
  apply Hbind; [by apply keeps_ctx|intros _]. apply Hbind; [by apply keeps_UnwindHandlers|intros _].
  intros s [Ha Hlen]. unfold mbind at 1, est_bind at 1. pose proof (above_PopFrame base s Ha Hlen) as H1.
  destruct (PopFrame s) as [s1 [[]| |]]; [|done..].
  enough (keeps (above base) (_ ← pop_down_to (size_t (Z.of_nat (stackBase frame) - 1)); _ ← PushValue result; succeed true)) as Hk
    by by apply Hk.
  keep.
Qed.

(** An operation that succeeds leaves the frames [base] below the current
    ones. *)
Definition lands (base : list CallFrame) (m : vm bool) : Prop :=
  ∀ s s', above base s → m s = (s', Ok true) → above base s'.
Lemma lands_keeps base m : keeps (above base) m → lands base m.
Proof. intros Hm s s' Hs E. specialize (Hm s Hs). by rewrite E in Hm. Qed.
Lemma lands_bind {A} base (m : vm A) k : keeps (above base) m → (∀ a, lands base (k a)) → lands base (m ≫= k).
Proof.
  intros Hm Hk s s' Hs. specialize (Hm s Hs). unfold mbind, est_bind. destruct (m s) as [s1 [a| |]]; [by apply Hk|done..].
Qed.

Lemma lands_call_native base p n i : lands base (call_native natives p n i).
Proof using Hnatives.
  unfold call_native. destruct (_ || _); [apply lands_keeps; keep|]. apply lands_bind; [keep|intros args].
  intros s s' Hs. unfold mbind at 1, est_bind at 1. destruct (invoke _ _ s) as [s1 [v| |]] eqn:E; [|done..].
  change (est_get ≫= ?k) with (λ s, k s s). cbn beta. destruct (HasError s1) eqn:He; [done|].
  assert (above base s1) by (unfold above; by rewrite (wb_callers _ _ Hnatives _ _ _ _ _ E He)).
  assert (lands base (_ ← pop_down_to i; _ ← PushValue v; succeed true)) as Hk by (apply lands_keeps; keep).
  by apply Hk.
Qed.
Lemma lands_HandleResolvedCall base v n i : lands base (HandleResolvedCall natives v n i).
Proof using Hnatives.
  pose proof (keeps_call_function (above base)). unfold HandleResolvedCall.
  destruct v as [| | | | |f|[] [p|]]; try solve [apply lands_keeps; keep]; by apply lands_call_native.
Qed.
Lemma lands_HandleCall base n : lands base (HandleCall natives n).
Proof using Hnatives.
  apply lands_bind; [apply keeps_get|intros s]. destruct (_ <? _); [apply lands_keeps; keep|].
  apply lands_bind; [apply keeps_GetAt|intros callee]. apply lands_HandleResolvedCall.
Qed.
Lemma lands_HandleEffectInvoke base w l : lands base (HandleEffectInvoke natives print_fuel w l).
Proof using Hnatives.
  apply lands_bind; [keep|intros n]. apply lands_bind; [keep|intros [name|]]; [|apply lands_keeps; keep].
  apply lands_bind; [keep|intros s]. destruct (ResolveHandledEffect name s); try solve [apply lands_keeps; keep];
    (apply lands_bind; [keep|intros args]; apply lands_bind; [keep|intros s1]; apply lands_bind; [keep|intros _];
     apply lands_bind; [keep|intros _]; apply lands_HandleResolvedCall).
Qed.

Lemma above_HandleIterNext base w codeSize s s' frame :
  I s → last (m_frames s) = Some frame → codeSize = length (code_of (function frame)) → above base s →
  HandleIterNext next w codeSize s = (s', Ok true) → above base s'.
Proof using Hl Hnext.
  intros Hs Hf Hc Ha. unfold HandleIterNext. unfold mbind at 1, est_bind at 1. rewrite (surjective_pairing (PeekValue 0 s)).
  rewrite PeekValue_state. destruct (PeekValue 0 s).2 as [v| |]; [|done..].
  assert (Hother : lands base (_ ← RaiseError "Expected iterator on stack"; succeed false)) by (apply lands_keeps; keep).
  destruct v as [| | | | | |[] [it|]]; try done; try by apply Hother.
  unfold mbind, est_bind. destruct (Hnext it s Hs) as [H1 H2]. destruct (next it s) as [s1 [v| |]]; [|done..].
  cbn in H1, H2. specialize (H2 v eq_refl). assert (Ha1 : above base s1) by (unfold above; by rewrite H2).
  destruct v as [v|].
  - intros E. pose proof (keeps_push_result (above base) v s1 Ha1) as H. by rewrite E in H.
  - destruct (callers_last s s1 frame H2 Hf) as (frame' & Hf' & Hfun). intros E.
    assert (above base (jump codeSize w s1).1) as H; [|by rewrite E in H].
    apply (keeps_jump (above base)) with frame'; [done..|by rewrite Hfun|]. rewrite Hc -Hfun. by eapply Hip.
Qed.

(** Any instruction that succeeds in a frame above [base]. *)
Lemma above_Dispatch base instr codeSize constants s s' frame :
  I s → last (m_frames s) = Some frame → codeSize = length (code_of (function frame)) →
  above base s → length base < length (m_frames s) →
  Dispatch natives others print_fuel next instr codeSize constants s = (s', Ok true) → above base s'.
Proof using All.
  intros Hs Hf Hc Ha Hlen E. pose proof (Hip s Hs frame Hf) as Hi.
  assert (Hkept : above base (Dispatch natives others print_fuel next instr codeSize constants s).1 → above base s')
    by by rewrite E. revert E Hkept.
  destruct (straight (opcode instr)) eqn:Est; [intros _ Hkept; by apply Hkept, (keeps_straight (above base))|].
  unfold Dispatch. destruct (opcode instr); try done; intros E Hkept.
  - apply Hkept. apply (keeps_jump (above base)) with frame; [done..|by rewrite Hc].
  - apply Hkept. apply (keeps_jump_if (above base)) with frame; [done..|by rewrite Hc].
  - apply Hkept. apply (keeps_jump_if (above base)) with frame; [done..|by rewrite Hc].
  - apply Hkept. by apply (keeps_loop (above base)) with frame.
  - by eapply lands_HandleCall.
  - apply Hkept. by apply (keeps_HandleDerefSet (above base)).
  - by eapply above_HandleIterNext.
  - by eapply lands_HandleEffectInvoke.
  - apply Hkept. by apply above_HandleReturn.
Qed.

(** What a nested run has reached. *)
Definition nested (base : list CallFrame) (r : round) : Prop :=
  match r with
  | Running s => I s ∧ above base s
  | Returned true s => I s ∧ callers s = base
  | Returned false s => I s
  | Undefined _ => True
  end.

Lemma nested_round base s : I s → above base s → nested base (run_round (S (length base)) s).
Proof using All.
  intros Hs Ha. pose proof (λ s', round_keeps (S (length base)) s s' Hs) as Hk. revert Hk.
  unfold Machine.run_round. destruct (Nat.ltb_spec (length (m_frames s)) (S (length base))) as [Hlt|Hge].
  { intros _. split; [done|]. by apply above_eq. }
  destruct (last (m_frames s)) as [frame|] eqn:Hf; [|apply last_None in Hf; rewrite Hf in Hge; cbn in Hge; lia].
  destruct (fetch _ _) as [[instr ip'| |]| |] eqn:E; cbn [nested]; [| |eauto|done..].
  - apply fetch_at in E as [_ Hi]. pose proof (inv_ip s frame ip' Hs Hf Hi) as Hs1.
    pose proof (proj2 (above_SetIp base ip' s) Ha) as Ha1. rewrite (SetIp_run s frame) // in Hs1 Ha1 |- *. cbn [fst] in *.
    set (s1 := set_frames _ s) in *.
    assert (Hf1 : last (m_frames s1) = Some (set_ip ip' frame)) by (unfold s1; cbn; by rewrite last_snoc).
    assert (Hlen : length base < length (m_frames s1)).
    { unfold s1. cbn. rewrite length_app /= length_pop_back. lia. }
    pose proof (above_Dispatch base instr (length (code_of (function frame))) (constants_of (function frame)) s1) as Hd.
    unfold catch. destruct (Dispatch _ _ _ _ _ _ _ s1) as [s2 [ok|[]|]]; intros Hk; try done; try by apply Hk.
    unfold after_dispatch in *. destruct ok; cbn [negb] in *; [|by apply Hk].
    specialize (Hd s2 _ Hs1 Hf1 eq_refl Ha1 Hlen eq_refl).
    destruct (Nat.ltb_spec (length (m_frames s2)) (S (length base))) as [Hlt|?]; [split; [by apply Hk|by apply above_eq]|].
    destruct (bool_decide_reflect (m_frames s2 = [])) as [E0|?]; [rewrite E0 /= in H; lia|]. split; [by apply Hk|done].
  - pose proof (above_HandleReturn base s Ha Hge) as Ha1.
    unfold catch. destruct (HandleReturn s) as [s2 [ok|[]|]]; intros Hk; try done; try by apply Hk.
    unfold after_return in *. destruct (bool_decide_reflect (m_frames s2 = [])) as [E0|?]; [|split; [by apply Hk|done]].
    split; [by apply Hk|]. apply above_eq; [done|]. rewrite E0. cbn. lia.
Qed.

Lemma nested_Run fuel base s : I s → above base s → nested base (Run fuel (S (length base)) s).
Proof using All.
  revert s. induction fuel as [|fuel IH]; intros s Hs Ha; cbn [Machine.Run]; [done|].
  pose proof (nested_round base s Hs Ha) as H. destruct (run_round _ s) as [s1|b s1|w]; [|done..].
  destruct H as [H1 H2]. by apply IH.
Qed.
End round.

(** *** Iterators *)

Section iterator.
Context (fuel : nat) (next : nat → vm (option Value)) (run : nat → t → round).
Context (Hnext : ∀ p, steady I (next p)).
Context (Hrun : ∀ base s, I s → above base s → nested base (run (S (length base)) s)).

(** A call inside an instruction: the frame that is pushed is gone when it
    returns. *)
Lemma steady_nested_call fn closure n (failed : vm Value) :
  keeps I failed → fails failed →
  steady I (_ ← PushFrame fn closure n; ok ← run_nested run; if (ok : bool) then PopValue else failed).
Proof using FrameInv0 Hrun.
  intros Hk Hf s Hs. unfold PushFrame, mbind, est_bind.
  destruct (Nat.leb_spec FRAMES_MAX (length (m_frames s))) as [|Hlt]; [done|].
  set (frame := MkFrame _ _ _ _ _ _). set (s1 := set_frames (m_frames s ++ [frame]) s).
  assert (H1 : I s1) by by apply inv_push_frame.
  assert (Ha : above (callers s) s1) by (exists [set_ip 0 frame]; unfold s1, callers; cbn; by rewrite fmap_app).
  pose proof (Hrun _ _ H1 Ha) as Hr. unfold run_nested.
  rewrite (_ : length (m_frames s1) = S (length (callers s))); [|unfold s1, callers; cbn; rewrite length_app length_fmap /=; lia].
  destruct (run _ s1) as [s2|[] s2|w]; cbn [nested] in Hr; [by destruct Hr| | |done].
  - destruct Hr as [H2 Hc]. pose proof (keeps_PopValue I s2 H2) as H3. split; [done|]. intros a _.
    rewrite -Hc. by apply (keeps_PopValue (λ s, callers s = callers s2)).
  - split; [by apply Hk|]. intros a E. by apply Hf in E.
Qed.

Lemma steady_call_on name fn closure v : steady I (call_on run name fn closure v).
Proof using FrameInv0 Hrun.
  unfold call_on. destruct fn as [fn|]; [|by apply steady_keeps; [|intros c]; apply keeps_null_pointer].
  apply steady_bind; [steady|intros base]. apply steady_bind; [steady|intros _].
  apply steady_bind; [steady|intros _]. apply steady_bind; [steady|intros s0]. apply steady_nested_call.
  - assert (∀ n, keeps I (est_modify (λ s, set_frames (take n (m_frames s)) s))) as Ht
      by (intros n s Hs; by apply inv_take_frames). keep.
  - repeat (apply fails_bind; intros ?). done.
Qed.

Lemma steady_drop_values n source : steady I (drop_values next n source).
Proof using FrameInv0 Hnext. induction n as [|n IH]; cbn; [steady|]. apply steady_bind; [apply Hnext|done]. Qed.
Lemma steady_fill_buffer m p source : steady I (fill_buffer next m p source).
Proof using FrameInv0 Hnext.
  induction m as [|m IH]; cbn; [by intros s Hs|]. apply steady_bind; [apply Hnext|intros [v|]]; [|steady].
  unfold read_reverse, write_iterator. apply steady_bind; [steady|intros [[buffer b] i]].
  apply steady_bind; [steady|done].
Qed.
Lemma steady_filter_next m source fn closure : steady I (filter_next next run m source fn closure).
Proof using FrameInv0 Hnext Hrun.
  induction m as [|m IH]; cbn; [by intros s Hs|]. apply steady_bind; [apply Hnext|intros [v|]]; [|steady].
  apply steady_bind; [apply steady_call_on|intros r]. apply steady_bind; [steady|intros []]; [steady|done].
Qed.
Lemma steady_reverse_next p source b : steady I (reverse_next fuel next p source b).
Proof using FrameInv0 Hnext.
  unfold reverse_next, reverse_take, read_reverse, write_iterator. destruct b; [steady|].
  apply steady_bind; [apply steady_fill_buffer|intros _]. steady.
Qed.
Lemma steady_drop_next p source n b : steady I (drop_next next p source n b).
Proof using FrameInv0 Hnext.
  unfold drop_next, write_iterator. apply steady_bind; [|intros _; apply Hnext].
  destruct b; [steady|]. destruct (_ <=? _)%Z; [steady|]. apply steady_bind; [apply steady_drop_values|intros _; steady].
Qed.
Lemma steady_next_step p : steady I (next_step fuel next run p).
Proof using FrameInv0 Hnext Hrun.
  apply steady_bind; [steady|intros o]. destruct o; try by apply steady_keeps; [|intros c]; apply keeps_wrong_object.
  destruct it.
  - unfold array_next, write_iterator. steady.
  - unfold write_iterator. destruct (_ <? _)%Z; [|steady]. apply steady_bind; [steady|intros _; apply Hnext].
  - apply steady_drop_next.
  - apply steady_bind; [apply Hnext|intros [v|]]; [|steady]. apply steady_bind; [apply steady_call_on|intros r; steady].
  - apply steady_filter_next.
  - apply steady_reverse_next.
Qed.
End iterator.

(** At any depth of iterators and nested runs. *)
Lemma steady_iterate fuel p : steady I (iterate natives others print_fuel fuel p).
Proof using All.
  revert p. induction fuel as [|fuel IH]; intros p; cbn [iterate]; [by intros s Hs|].
  apply steady_next_step; [exact IH|]. intros base s Hs Ha. by apply nested_Run.
Qed.

(** *** Nobody raises the alarm *)

Section agreement.
Context (watch : t → bool) (Hwatch : ∀ s, I s → watch s = true) (alarm : string).
Abbreviation Run_watched := (Run_watched watch alarm natives others print_fuel).
Abbreviation iterate_watched := (iterate_watched watch alarm natives others print_fuel).

Section agreement_round.
Context (next next' : nat → vm (option Value)) (Hnext : ∀ p, steady I (next p)).
Context (Hsame : ∀ p, agree I (next p) (next' p)).

Lemma Dispatch_agree instr codeSize constants :
  agree I (Dispatch natives others print_fuel next instr codeSize constants)
    (Dispatch natives others print_fuel next' instr codeSize constants).
Proof using All.
  intros s Hs. unfold Dispatch. destruct (opcode instr); try reflexivity. unfold HandleIterNext. revert s Hs.
  apply agree_bind; [apply agree_refl|by apply keeps_PeekValue; try apply _|].
  intros [| | | | | |[] [it|]]; try apply agree_refl.
  apply agree_bind; [apply Hsame|apply keeps_steady, Hnext|intros v; apply agree_refl].
Qed.

Lemma run_round_agree entry s : I s →
  run_round natives others print_fuel next entry s = run_round natives others print_fuel next' entry s.
Proof using All.
  intros Hs. unfold Machine.run_round. destruct (_ <? _); [done|]. destruct (last (m_frames s)) as [frame|] eqn:Hf; [|done].
  destruct (fetch _ _) as [[instr ip'| |]| |] eqn:E; try done. apply fetch_at in E as [_ Hi].
  by rewrite (Dispatch_agree _ _ _ _ (inv_ip s frame ip' Hs Hf Hi)).
Qed.

Lemma Run_agree fuel entry s : I s → Run natives others print_fuel next fuel entry s = Run_watched next' fuel entry s.
Proof using All.
  revert s. induction fuel as [|fuel IH]; intros s Hs; cbn [Machine.Run MachineSpec.Run_watched]; unfold look; rewrite (Hwatch s Hs); [done|].
  pose proof (λ s', round_keeps next Hnext entry s s' Hs) as Hr. rewrite -(run_round_agree entry s Hs).
  destruct (run_round _ _ _ _ _ s) as [s1|b s1|w]; [by apply IH, Hr| |done]. by rewrite (Hwatch s1 (Hr s1 eq_refl)).
Qed.
End agreement_round.

Section agreement_iterator.
Context (fuel : nat) (next next' : nat → vm (option Value)) (run run' : nat → t → round).
Context (Hnext : ∀ p, steady I (next p)) (Hsame : ∀ p, agree I (next p) (next' p)).
Context (Hrun : ∀ base s, I s → above base s → nested base (run (S (length base)) s)).
Context (Hrsame : ∀ entry s, I s → run entry s = run' entry s).

Lemma run_nested_agree : agree I (run_nested run) (run_nested run').
Proof using Hrsame. intros s Hs. unfold run_nested. by rewrite Hrsame. Qed.
Lemma call_on_agree name fn closure v : agree I (call_on run name fn closure v) (call_on run' name fn closure v).
Proof using All.
  unfold call_on. destruct fn as [fn|]; [|apply agree_refl].
  apply agree_bind; [apply agree_refl|keep|intros base]. apply agree_bind; [apply agree_refl|keep|intros _].
  apply agree_bind; [apply agree_refl|keep|intros _]. apply agree_bind; [apply agree_refl|keep|intros s0].
  apply agree_bind; [apply agree_refl|by apply keeps_PushFrame; try apply _|intros _].
  intros s Hs. unfold mbind at 1, est_bind at 1. by rewrite (run_nested_agree s Hs).
Qed.
Lemma drop_values_agree n source : agree I (drop_values next n source) (drop_values next' n source).
Proof using All.
  induction n as [|n IH]; cbn; [apply agree_refl|]. apply agree_bind; [apply Hsame|apply keeps_steady, Hnext|done].
Qed.
Lemma fill_buffer_agree m p source : agree I (fill_buffer next m p source) (fill_buffer next' m p source).
Proof using All.
  induction m as [|m IH]; cbn; [apply agree_refl|].
  apply agree_bind; [apply Hsame|apply keeps_steady, Hnext|intros [v|]; [|apply agree_refl]].
  unfold read_reverse, write_iterator. apply agree_bind; [apply agree_refl|keep|intros [[buffer b] i]].
  apply agree_bind; [apply agree_refl|keep|done].
Qed.
Lemma filter_next_agree m source fn closure :
  agree I (filter_next next run m source fn closure) (filter_next next' run' m source fn closure).
Proof using All.
  induction m as [|m IH]; cbn; [apply agree_refl|].
  apply agree_bind; [apply Hsame|apply keeps_steady, Hnext|intros [v|]; [|apply agree_refl]].
  apply agree_bind; [apply call_on_agree|by apply keeps_steady, steady_call_on|intros r].
  apply agree_bind; [apply agree_refl|keep|intros []; [apply agree_refl|done]].
Qed.
Lemma next_step_agree p : agree I (next_step fuel next run p) (next_step fuel next' run' p).
Proof using All.
  apply agree_bind; [apply agree_refl|keep|intros o]. destruct o; try apply agree_refl.
  destruct it as [arr i|source n|source n b|source fn closure|source fn closure|source buffer b i].
  - apply agree_refl.
  - destruct (_ <? _)%Z; [|apply agree_refl]. unfold write_iterator. apply agree_bind; [apply agree_refl|keep|intros _; apply Hsame].
  - unfold drop_next, write_iterator. apply agree_bind; [| |intros _; apply Hsame].
    + destruct b; [apply agree_refl|]. destruct (_ <=? _)%Z; [apply agree_refl|].
      apply agree_bind; [apply drop_values_agree|by apply keeps_steady, steady_drop_values|intros _; apply agree_refl].
    + destruct b; [keep|]. destruct (_ <=? _)%Z; [keep|]. apply keeps_bind; [by apply keeps_steady, steady_drop_values|intros _; keep].
  - apply agree_bind; [apply Hsame|apply keeps_steady, Hnext|intros [v|]; [|apply agree_refl]].
    apply agree_bind; [apply call_on_agree|by apply keeps_steady, steady_call_on|intros r; apply agree_refl].
  - apply filter_next_agree.
  - unfold reverse_next. destruct b; [apply agree_refl|].
    apply agree_bind; [apply fill_buffer_agree|by apply keeps_steady, steady_fill_buffer|intros _; apply agree_refl].
Qed.
End agreement_iterator.

Lemma iterate_agree fuel p : agree I (iterate natives others print_fuel fuel p) (iterate_watched fuel p).
Proof using All.
  revert p. induction fuel as [|fuel IH]; intros p; cbn [iterate MachineSpec.iterate_watched]; [apply agree_refl|].
  apply next_step_agree; [intros q; apply steady_iterate|exact IH| |].
  - intros base s Hs Ha. apply nested_Run; [intros q; apply steady_iterate|done..].
  - intros entry s Hs. apply Run_agree; [intros q; apply steady_iterate|exact IH|done].
Qed.
End agreement.
End rounds.

Lemma start_limits chunk s : ∃ s', start chunk s = (s', Ok tt) ∧ limits s' ∧ length (m_frames s') = 1.
Proof. eexists. split; [done|]. split; [|done]. split; cbn; [unfold STACK_MAX, StackSize; cbn; lia|unfold FRAMES_MAX; lia|]. constructor; [cbn; lia|done]. Qed.

(** A wait for an answer and the other threads are arbitrary. *)
Lemma Interpret_keeps natives others print_fuel fuel chunk s s' :
  well_behaved limits natives →
  state_of (Interpret natives others print_fuel fuel chunk s) = Some s' → limits s'.
Proof.
  intros Hn. unfold Interpret. destruct (start_limits chunk s) as (s1 & E & Hl & _). rewrite E.
  pose proof (λ s', Run_keeps limits (λ s H, H) natives others print_fuel Hn _
    (steady_iterate limits (λ s H, H) natives others print_fuel Hn fuel) fuel (length (m_frames s1)) s1 s' Hl) as Hr.
  destruct (Run _ _ _ _ _ _ s1) as [s2|[] s2|]; cbn [state_of] in *; try (intros [= <-]; by apply Hr).
  pose proof (Hr s2 eq_refl) as H2.
  assert (Hk : keeps limits (_ ← on_ctx (Ctx.UnwindTransactions 0); ClearHandlers)).
  { unfold ClearHandlers. apply keeps_bind; [by apply keeps_ctx; try apply _|]. intros _ s3 H3. by apply inv_handlers. }
  specialize (Hk s2 H2). destruct ((_ ← _; ClearHandlers) s2) as [s3 [a| |]]; cbn in *; [by intros [= <-]|done..].
Qed.

Lemma limits_and s : (StackSize s ≤ STACK_MAX ∧ length (m_frames s) ≤ FRAMES_MAX
  ∧ Forall (λ f, ip f ≤ length (code_of (function f))) (m_frames s)) ↔ limits s.
Proof. split; [by intros (? & ? & ?)|by intros []]. Qed.
#[export] Instance limits_dec s : Decision (limits s).
Proof.
  refine (cast_if (decide (StackSize s ≤ STACK_MAX ∧ length (m_frames s) ≤ FRAMES_MAX
    ∧ Forall (λ f, ip f ≤ length (code_of (function f))) (m_frames s)))); by rewrite -limits_and.
Defined.

Lemma Interpret_agree alarm natives others print_fuel fuel chunk s :
  well_behaved limits natives →
  Interpret_watched (λ s, bool_decide (limits s)) alarm natives others print_fuel fuel chunk s
  = Interpret natives others print_fuel fuel chunk s.
Proof.
  intros Hn. pose proof (λ s', Interpret_keeps natives others print_fuel fuel chunk s s' Hn) as Hend. revert Hend.
  unfold Interpret, Interpret_watched. destruct (start_limits chunk s) as (s1 & E & Hl & _). rewrite E.
  assert (∀ s, limits s → bool_decide (limits s) = true) as Hw by (intros; by apply bool_decide_eq_true).
  rewrite -(Run_agree limits (λ s H, H) natives others print_fuel Hn _ Hw alarm
    (iterate natives others print_fuel fuel) _
    (steady_iterate limits (λ s H, H) natives others print_fuel Hn fuel)
    (iterate_agree limits (λ s H, H) natives others print_fuel Hn _ Hw alarm fuel) fuel _ s1 Hl).
  destruct (Run _ _ _ _ _ _ s1) as [s2|[] s2|]; try done.
  destruct ((_ ← _; ClearHandlers) s2) as [s3 [a| |]]; [|done..]. intros H. unfold look.
  by rewrite (Hw s3 (H s3 eq_refl)).
Qed.

(** C31. In every state of every run of any bytecode: at most 4096 values and 64
    frames, and no frame past the end of its code.  A machine that looks for
    this before and after every round of every run, the runs inside an
    instruction that calls the function of an iterator included, at any depth,
    and stops with an alarm otherwise does exactly what the machine does,
    whatever the alarm is; so it is never raised.  The state that [Interpret] ends
    with is within the limits too.  This is for native functions that respect
    the limits themselves and return to their caller unless they fail, and
    whatever other threads answer. *)
Theorem machine_limits natives others print_fuel fuel chunk s :
  well_behaved limits natives →
  (∀ alarm, Interpret_watched (λ s, bool_decide (limits s)) alarm natives others print_fuel fuel chunk s
            = Interpret natives others print_fuel fuel chunk s)
  ∧ ∀ s', state_of (Interpret natives others print_fuel fuel chunk s) = Some s' → limits s'.
Proof. intros Hn. split; [intros alarm; by apply Interpret_agree|intros s'; by apply Interpret_keeps]. Qed.

(** ** Isolation of frames *)

(** The stack up to [k] is [below], under the floor of the current frame; and
    the frames are [frames] but for their [ip]. *)
Record isolated (k : nat) (below : list Value) (frames : list CallFrame) (s : t) : Prop := {
  iso_below : take k (m_valueStack s) = below;
  iso_size : k ≤ StackSize s;
  iso_floor : k ≤ floor s;
  iso_frames : set_ip 0 <$> m_frames s = frames;
}.

Lemma floor_set_frames s frame n : last (m_frames s) = Some frame →
  floor (set_frames (pop_back (m_frames s) ++ [set_ip n frame]) s) = floor s.
Proof. unfold floor. cbn. rewrite last_snoc. by intros ->. Qed.

#[export] Instance isolated_jump k below frames : JumpInv (isolated k below frames).
Proof.
  split; [split|].
  - intros s v [H1 H2 H3 H4] _. split; cbn; [|unfold StackSize in *; cbn; rewrite length_app; lia|done..].
    by rewrite take_app_le.
  - intros s [H1 H2 H3 H4] Hs. unfold StackSize in *.
    split; cbn; [|unfold StackSize; cbn; rewrite length_pop_back; lia|done..].
    unfold pop_back. rewrite take_take. by rewrite Nat.min_l; [|lia].
  - intros s i v [H1 H2 H3 H4] Hs. split; cbn; [|unfold StackSize; cbn; by rewrite length_insert|done..].
    rewrite take_insert_ge; [done|lia].
  - by intros s h [].
  - by intros s c [].
  - by intros s l [].
  - by intros s o r [].
  - intros s frame n [H1 H2 H3 H4] Hf Hn. rewrite (SetIp_run s frame) //. cbn [fst]. split; [done|done| |].
    + by rewrite (floor_set_frames s frame).
    + cbn. rewrite -H4 fmap_app /=. rewrite {2}(last_snoc_inv _ _ Hf) fmap_app. done.
Qed.

(** Those that enter a frame, leave one, run one inside, or write through a
    pointer, which may lead to the local of another frame. *)
Definition leaves_frame (op : OpCode) : bool :=
  match op with OP_CALL | OP_RETURN | OP_EFFECT_INVOKE | OP_ITER_NEXT | OP_DEREF_SET => true | _ => false end.

(** C30. An instruction of a frame, other than those that call, return, or write
    through a pointer, leaves the values below the base of the frame and the
    frames alone, whatever it does, an error included. *)
Theorem frame_isolation natives others print_fuel next instr s frame :
  last (m_frames s) = Some frame → stackBase frame ≤ StackSize s →
  ip frame ≤ length (code_of (function frame)) → leaves_frame (opcode instr) = false →
  let s' := (Dispatch natives others print_fuel next instr (length (code_of (function frame))) (constants_of (function frame)) s).1 in
  take (stackBase frame) (m_valueStack s') = take (stackBase frame) (m_valueStack s)
  ∧ stackBase frame ≤ StackSize s'
  ∧ set_ip 0 <$> m_frames s' = set_ip 0 <$> m_frames s.
Proof.
  intros Hf Hb Hi Hop. cbn zeta.
  set (I := isolated (stackBase frame) (take (stackBase frame) (m_valueStack s)) (set_ip 0 <$> m_frames s)).
  assert (Hs : I s) by (split; [done|done|unfold floor; by rewrite Hf|done]).
  assert (JumpInv I) by (unfold I; apply _).
  match goal with |- context [fst ?r] => enough (I r.1) as [H1 H2 _ H4] by done end. clearbody I.
  destruct (straight (opcode instr)) eqn:E; [by apply (keeps_straight I); try apply _|].
  unfold Dispatch. destruct (opcode instr); try done.
  - by eapply keeps_jump; try apply _.
  - by eapply keeps_jump_if; try apply _.
  - by eapply keeps_jump_if; try apply _.
  - by eapply keeps_loop; try apply _.
Qed.

(** ** A call and its return *)

Lemma pop_to_run fuel : ∀ s size,
  StackSize s - size ≤ fuel → floor s ≤ size →
  pop_to fuel size s = (set_stack (take size (m_valueStack s)) s, Ok tt).
Proof.
  induction fuel as [|fuel IH]; intros s size Hfuel Hfl; cbn [pop_to];
    destruct (Nat.leb_spec (StackSize s) size) as [Hle|Hgt]; try lia.
  1,2: rewrite firstn_all2 //; by destruct s.
  unfold PopValue, mbind, est_bind. rewrite (proj2 (Nat.leb_gt _ _)); [|lia].
  destruct (last (m_valueStack s)) as [v|] eqn:Hl.
  - rewrite IH; [|unfold StackSize in *; cbn; rewrite length_pop_back; lia|done].
    cbn. unfold pop_back. rewrite take_take Nat.min_l; [done|unfold StackSize in *; lia].
  - apply last_None in Hl. unfold StackSize in Hgt. rewrite Hl in Hgt. cbn in Hgt. lia.
Qed.

Lemma pop_down_to_run s size : floor s ≤ size →
  pop_down_to size s = (set_stack (take size (m_valueStack s)) s, Ok tt).
Proof. intros Hf. apply pop_to_run; [unfold StackSize; lia|done]. Qed.

Lemma size_t_small n : (Z.of_nat n < 2 ^ 64)%Z → size_t (Z.of_nat n) = n.
Proof. intros Hn. unfold size_t. rewrite Z.mod_small; lia. Qed.

(** Running the parts of a handler whose results are known. *)
Lemma est_bind_run {A B} (m : vm A) (k : A → vm B) s s' a :
  m s = (s', Ok a) → (m ≫= k) s = k a s'.
Proof. unfold mbind, est_bind. by intros ->. Qed.
Ltac vm_run H := rewrite (est_bind_run _ _ _ _ _ H); cbn beta iota.

(** The frame a call pushes. *)
Definition callee_frame (s : t) (f : Function) (closure base : nat) : CallFrame :=
  MkFrame f (Some closure) 0 base (ActiveTransactionCount s) (length (m_handlerStack s)).

Lemma HandleCall_run natives s below p f captures args :
  m_valueStack s = below ++ VPtr ClosurePtr (Some p) :: args →
  m_heap s !! p = Some (OClosure (Some f) captures) →
  (let 'MkFunction _ _ _ arity _ variadic _ := f in variadic = false ∧ arity = Z.of_nat (length args)) →
  length (m_frames s) < FRAMES_MAX → limits s →
  HandleCall natives (length args) s
  = (set_frames (m_frames s ++ [callee_frame s f p (S (length below))]) s, Ok true).
Proof.
  intros Hs Hp Hf Hfr Hl. pose proof (stack_limit s Hl) as Hmax. unfold StackSize in Hmax.
  assert (Hsz : StackSize s = length below + S (length args)) by (unfold StackSize; by rewrite Hs length_app).
  assert (Z.of_nat (StackSize s) < 2 ^ 64)%Z by (unfold STACK_MAX in Hmax; unfold StackSize; lia).
  unfold HandleCall. vm_run (eq_refl (est_get s)). rewrite (proj2 (Nat.ltb_ge _ _)); [|lia].
  rewrite (_ : StackSize s - length args - 1 = length below); [|lia].
  assert (Hget : GetAt (length below) s = (s, Ok (VPtr ClosurePtr (Some p)))).
  { unfold GetAt. by rewrite Hs list_lookup_middle. }
  vm_run Hget. unfold HandleResolvedCall. vm_run (eq_refl (est_get s)). rewrite Hp.
  unfold call_function. destruct f as [a n c arity minArity variadic cs]. destruct Hf as [-> ->].
  rewrite Z.eqb_refl. cbn [negb andb orb]. vm_run (eq_refl ((mret (length args) : vm nat) s)).
  vm_run (eq_refl (est_get s)).
  rewrite (_ : Z.of_nat (StackSize s) - Z.of_nat (length args) = Z.of_nat (S (length below)))%Z; [|lia].
  rewrite size_t_small; [|lia]. unfold PushFrame. unfold mbind, est_bind.
  rewrite (proj2 (Nat.leb_gt _ _)) //.
Qed.

Lemma unwind_loop_none l base c : length l ≤ base → Ctx.unwind_loop (V := Value) l base c = Ok c.
Proof. destruct l as [|tr l]; cbn; intros Hl; [done|]. destruct (decide _) as [|]; [cbn in *; lia|done]. Qed.

Lemma HandleReturn_run s frames frame below callee rest :
  m_frames s = frames ++ [frame] → stackBase frame = S (length below) →
  m_valueStack s = below ++ callee :: rest →
  ActiveTransactionCount s ≤ transactionBase frame → floor (set_frames frames s) ≤ length below → limits s →
  HandleReturn s =
    (Execution.Mk (below ++ [default VMonostate (last rest)]) frames (m_scopes s)
       (take (handlerBase frame) (m_handlerStack s)) (m_heap s) (m_ctx s) (m_output s) (m_registry s), Ok true).
Proof.
  intros Hfr Hb Hs Htr Hfl Hl. pose proof (stack_limit s Hl) as Hmax.
  assert (Hsz : StackSize s = length below + S (length rest)) by (unfold StackSize; by rewrite Hs length_app).
  assert (Hcur : CurrentFrame s = (s, Ok frame)) by (unfold CurrentFrame; by rewrite Hfr last_snoc).
  assert (Hfloor : floor s = S (length below)) by (unfold floor; by rewrite Hfr last_snoc).
  unfold HandleReturn. vm_run Hcur. vm_run (eq_refl (est_get s)). rewrite Hb.
  assert (Hpop : (if S (length below) <? StackSize s then PopValue else mret VMonostate) s
    = (set_stack (below ++ callee :: pop_back rest) s, Ok (default VMonostate (last rest)))).
  { destruct (Nat.ltb_spec (S (length below)) (StackSize s)) as [Hlt|Hge].
    - unfold PopValue. rewrite Hfloor (proj2 (Nat.leb_gt _ _)) //.
      destruct rest as [|v rest' _] using rev_ind; [cbn in Hsz; lia|]. rewrite Hs.
      rewrite (_ : below ++ callee :: rest' ++ [v] = (below ++ callee :: rest') ++ [v]); [|by rewrite -app_assoc].
      rewrite !last_snoc !pop_back_snoc //.
    - destruct rest; [|cbn in Hsz; lia]. rewrite -Hs. by destruct s. }
  vm_run Hpop. rewrite (_ : Z.of_nat (S (length below)) - 1 = Z.of_nat (length below))%Z; [|lia].
  rewrite size_t_small; [|unfold STACK_MAX in Hmax; lia].
  assert (Hunw : on_ctx (Ctx.UnwindTransactions (transactionBase frame)) (set_stack (below ++ callee :: pop_back rest) s)
    = (set_stack (below ++ callee :: pop_back rest) s, Ok tt)).
  { unfold on_ctx, est_zoom, Ctx.UnwindTransactions. cbn [m_ctx set_stack].
    rewrite unwind_loop_none //. }
  vm_run Hunw. unfold UnwindHandlers. vm_run (eq_refl (est_modify
    (λ s, set_handlers (take (handlerBase frame) (m_handlerStack s)) s) (set_stack (below ++ callee :: pop_back rest) s))).
  set (s1 := set_handlers _ _).
  assert (Hpf : PopFrame s1 = (set_frames frames s1, Ok tt)).
  { unfold PopFrame. change (m_frames s1) with (m_frames s). rewrite Hfr. destruct (frames ++ [frame]) eqn:E; [by destruct frames|].
    by rewrite -E pop_back_snoc. }
  vm_run Hpf. vm_run (pop_down_to_run (set_frames frames s1) (length below) Hfl).
  cbn. rewrite take_app_length. unfold mbind, est_bind, PushValue.
  rewrite (proj2 (Nat.leb_gt _ _)); [done|]. unfold StackSize in *. cbn. lia.
Qed.

(** C29. A call with as many arguments as the function has parameters, and later
    its return: the callee starts behind its slot with its arguments as the
    first locals; when it returns, in whatever state of the stack above its
    slot, the heap and the handlers, the caller has its frames and its part of
    the stack back, with the top of the callee's values, or null, in place of
    the callee and its arguments, and the handlers the callee left are gone. *)
Theorem call_return natives s below p f captures args :
  m_valueStack s = below ++ VPtr ClosurePtr (Some p) :: args →
  m_heap s !! p = Some (OClosure (Some f) captures) →
  (let 'MkFunction _ _ _ arity _ variadic _ := f in variadic = false ∧ arity = Z.of_nat (length args)) →
  length (m_frames s) < FRAMES_MAX → limits s → floor s ≤ length below →
  ∃ s1, HandleCall natives (length args) s = (s1, Ok true)
    ∧ m_valueStack s1 = m_valueStack s
    ∧ (∀ i, i < length args → (GetLocal i s1).2 = Ok (nth i args VMonostate))
    ∧ ∀ s2 frame rest, set_ip 0 frame = callee_frame s f p (S (length below)) →
        m_frames s2 = m_frames s ++ [frame] → m_valueStack s2 = below ++ VPtr ClosurePtr (Some p) :: rest →
        ActiveTransactionCount s2 ≤ ActiveTransactionCount s → limits s2 →
        ∃ s3, HandleReturn s2 = (s3, Ok true) ∧ m_frames s3 = m_frames s
          ∧ m_valueStack s3 = below ++ [default VMonostate (last rest)]
          ∧ m_handlerStack s3 = take (length (m_handlerStack s)) (m_handlerStack s2)
          ∧ m_heap s3 = m_heap s2 ∧ m_ctx s3 = m_ctx s2.
Proof.
  intros Hs Hp Hf Hfr Hl Hfl. eexists. split; [by eapply HandleCall_run|]. split; [done|]. split.
  - intros i Hi. unfold GetLocal, absolute_index, mbind, est_bind. cbn [m_frames set_frames]. rewrite last_snoc.
    cbn [stackBase callee_frame]. unfold StackSize. cbn [m_valueStack set_frames].
    rewrite (proj2 (Nat.leb_gt _ _)); [|rewrite Hs length_app; cbn; lia].
    unfold read_slot. cbn [m_valueStack set_frames]. rewrite Hs.
    rewrite (_ : S (length below) + i = length below + S i); [|lia]. rewrite lookup_app_r; [|lia].
    rewrite (_ : length below + S i - length below = S i); [|lia]. cbn.
    destruct (lookup_lt_is_Some_2 args i Hi) as [v Hv]. rewrite Hv. cbn. by rewrite (nth_lookup_Some _ _ _ _ Hv).
  - intros s2 [f' c' i' b' t' h'] rest Hset Hfr2 Hs2 Htr Hl2. unfold set_ip, callee_frame in Hset. cbn in Hset.
    injection Hset as -> -> -> -> ->. eexists. split.
    + by eapply HandleReturn_run.
    + done.
Qed.

(** ** Witnesses *)

Definition demo_natives (p : nat) : NativeFunction := MkNative 0 true (λ _, mret VMonostate).
Definition demo_context : Execution.t :=
  Execution.Mk [] [] [] [] ∅ (Ctx.Mk [] (Ctx.MkStore ∅ ∅ ∅ ∅) Sync.init 0 "") "" (MkRegistry 0 ∅).
(** No thread answers. *)
Definition demo_others : peers := MkPeers None (λ _ _ _, None).

Definition assemble (prog : list (OpCode * Z)) : list Z :=
  prog ≫= λ i, to_byte i.1 :: operand_bytes i.1 i.2.
(** [f(x) = 2 * x + 1]; the program defines [g = f(20)] and compares. *)
Definition demo_callee : Function :=
  MkFunction 9 "f" (Some (MkChunk (assemble [(OP_GET_LOCAL, 0); (OP_CONSTANT, 0); (OP_MULTIPLY, 0);
    (OP_CONSTANT, 1); (OP_ADD, 0); (OP_RETURN, 0)]%Z) [VInt64 2; VInt64 1] "")) 1 1 false [].
Definition demo_program : Chunk :=
  MkChunk (assemble [(OP_CLOSURE, 0); (OP_CONSTANT, 1); (OP_CALL, 1); (OP_DEFINE_GLOBAL, 2);
    (OP_GET_GLOBAL, 2); (OP_CONSTANT, 3); (OP_GREATER, 0); (OP_RETURN, 0)]%Z)
    [VFunction (Some demo_callee); VInt64 20; VString (Some "g"); VInt64 40] "".

Lemma demo_runs :
  match Interpret demo_natives demo_others 5 100 demo_program demo_context with
  | Returned b s => b = true ∧ m_valueStack s = [VBool true]
  | _ => False
  end.
Proof. vm_compute. done. Qed.

Lemma demo_well_behaved : well_behaved limits demo_natives.
Proof. split; [by intros p args s|]. by intros p args s s' v [= <- _]. Qed.

Lemma machine_limits_witness :
  well_behaved limits demo_natives
  ∧ (∀ alarm, Interpret_watched (λ s, bool_decide (limits s)) alarm demo_natives demo_others 5 100 demo_program demo_context
              = Interpret demo_natives demo_others 5 100 demo_program demo_context)
  ∧ ∀ s', state_of (Interpret demo_natives demo_others 5 100 demo_program demo_context) = Some s' → limits s'.
Proof.
  split; [exact demo_well_behaved|].
  exact (machine_limits demo_natives demo_others 5 100 demo_program demo_context demo_well_behaved).
Defined.

(** [[20].transform(f)] and its first value: [f] runs inside [OP_ITER_NEXT], in
    a second frame that a watch on the number of frames sees. *)
Definition demo_iterator : Chunk :=
  MkChunk (assemble [(OP_CONSTANT, 1); (OP_BUILD_ARRAY, 1); (OP_MAKE_ITER, 0); (OP_CONSTANT, 0);
    (OP_ITER_TRANSFORM, 0); (OP_ITER_NEXT, 0); (OP_RETURN, 0)]%Z)
    [VFunction (Some demo_callee); VInt64 20] "".
Example watched_inside_next :
  match Interpret demo_natives demo_others 5 100 demo_iterator demo_context with
  | Returned b s => b = true ∧ m_valueStack s = [VDouble (int64_to_double 41)]
  | _ => False
  end
  ∧ Interpret_watched (λ s, length (m_frames s) <=? 1) "two frames" demo_natives demo_others 5 100 demo_iterator demo_context
    = Undefined "two frames".
Proof. vm_compute. done. Qed.

(** In the callee, past [OP_GET_LOCAL]. *)
Definition demo_caller : list Value := [VMonostate; VPtr ClosurePtr (Some 3); VInt64 20].
Definition demo_state : Execution.t :=
  Execution.Mk demo_caller [MkFrame (top_level demo_program) (Some 2) 9 1 0 0] [] [] 
    {[ 3 := OClosure (Some demo_callee) [] ]} (m_ctx demo_context) "" (MkRegistry 0 ∅).

Lemma demo_limits stack frames : length stack ≤ 5 → length frames ≤ 2 →
  Forall (λ f, ip f ≤ length (code_of (function f))) frames →
  limits (set_stack stack (set_frames frames demo_state)).
Proof. intros Hs Hf Hi. split; cbn; [unfold STACK_MAX, StackSize; cbn; lia|unfold FRAMES_MAX; lia|done]. Qed.

Lemma call_return_witness :
  ∃ s1, HandleCall demo_natives 1 demo_state = (s1, Ok true)
    ∧ m_valueStack s1 = demo_caller ∧ (GetLocal 0 s1).2 = Ok (VInt64 20).
Proof.
  destruct (call_return demo_natives demo_state [VMonostate] 3 demo_callee [] [VInt64 20]) as (s1 & H1 & H2 & H3 & _).
  - done.
  - by vm_compute.
  - done.
  - unfold FRAMES_MAX. cbn. lia.
  - apply (demo_limits demo_caller (m_frames demo_state)); [cbn; lia..|]. constructor; [by vm_compute; lia|done].
  - cbn. lia.
  - exists s1. split; [exact H1|]. split; [exact H2|]. exact (H3 0 ltac:(cbn; lia)).
Defined.

Definition demo_next (p : nat) : vm (option Value) := mret None.
Lemma frame_isolation_witness :
  let s' := (Dispatch demo_natives demo_others 5 demo_next (MkInstruction OP_POP 0)
               (length (code_of (top_level demo_program))) (constants_of (top_level demo_program)) demo_state).1 in
  take 1 (m_valueStack s') = [VMonostate] ∧ 1 ≤ StackSize s'.
Proof.
  destruct (frame_isolation demo_natives demo_others 5 demo_next (MkInstruction OP_POP 0) demo_state
    (MkFrame (top_level demo_program) (Some 2) 9 1 0 0)) as (H1 & H2 & _); try done; cbn; lia.
Defined.
