(* ===== verification/Actors.v ===== *)
(** * Actors: the worker of an actor and those who write to it

    [InvokeCallable], [RunActorWorker], [EnqueueActorSend] and
    [EnqueueActorQuery] of [src/vm/execution/VirtualMachineCallsAndActors.cpp],
    and [ShutdownActors] of [src/vm/runtime/SharedRuntimeActors.cpp].  The
    critical sections of the actor's mutex, and the notifications after them,
    are the steps of all threads, in any order; the worker may also wake up
    spuriously.  What the methods of the actor answer is up to them: a step of
    the worker ends a method with any value or error. *)

From S2P Require Import Prelude Value Bytecode Transactions Execution Machine.
From Stdlib Require Import Lia.

(** ** Calling a value from outside the machine *)

Module Invoke.
Import Value Bytecode Execution Machine.

Definition ReadErrorMessage : vm (option string) :=
  s ← est_get; mret (if HasError s then Some (Ctx.m_errorMessage (m_ctx s)) else None).
Definition ClearError : vm unit :=
  est_modify (λ s, let c := m_ctx s in
    set_ctx (Ctx.Mk (Ctx.m_activeTransactions c) (Ctx.committed c) (Ctx.m_runtime c) (Ctx.m_currentThreadId c) "") s).

Fixpoint push_values (l : list Value) : vm unit :=
  match l with [] => mret tt | v :: l => _ ← PushValue v; push_values l end.

Section invoke.
Context (natives : nat → NativeFunction) (others : peers) (print_fuel fuel : nat).

(** The error, which may be missing, after everything is unwound. *)
Definition invoke_failed : vm (option string * Value) :=
  error ← ReadErrorMessage;
  _ ← on_ctx (Ctx.UnwindTransactions 0);
  _ ← ClearHandlers;
  _ ← ClearStack;
  mret (error, VMonostate).

(** The error or none, and the value that [result] is set to. *)
Definition InvokeCallable (callee : Value) (args : list Value) : vm (option string * Value) :=
  s ← est_get;
  let stackBase := StackSize s in
  let frameCount := length (m_frames s) in
  _ ← ClearError;
  _ ← PushValue callee;
  _ ← push_values args;
  ok ← HandleResolvedCall natives callee (length args mod 2 ^ 16) stackBase;
  if negb ok then invoke_failed else
  s ← est_get;
  ok ← (if frameCount <? length (m_frames s)
        then run_nested (Run natives others print_fuel (iterate natives others print_fuel fuel) fuel)
        else mret true);
  if negb ok then invoke_failed else
  s ← est_get;
  result ← (if stackBase <? StackSize s then PopValue else mret VMonostate);
  _ ← pop_down_to stackBase;
  mret (None, result).
End invoke.
End Invoke.

(** ** The system of one actor *)

Module Actors.
Import Value.

(** Where the worker is: before it tests its predicate, asleep, with an item it
    took, with the end of its method, or about to publish the answer to the
    query it looked up; or at its end. *)
Inductive worker_pc :=
  | WTest
  | WAsleep
  | WTaken (item : MailboxItem)
  | WEnded (item : MailboxItem) (result : Value + string)
  | WFound (item : MailboxItem) (result : Value + string)
  | WStopped.

(** Where a call of [EnqueueActorSend] or [EnqueueActorQuery] is: before its
    notification; a query also waits, with the identifier of its request. *)
Inductive client_pc :=
  | CSendNotify
  | CSent
  | CQueryNotify (requestId : Z)
  | CQueryWait (requestId : Z)
  | CQueryReady (requestId : Z) (answer : QueryResult)
  | CAnswered (requestId : Z) (result : Value + string).

(** The methods of the actor do not change; [sent] is every item ever put in
    the mailbox and [ended] every item that the worker is done with, with its
    result, oldest first. *)
Record system := MkSystem {
  actor : Actor;
  worker : worker_pc;
  clients : gmap nat client_pc;
  stop_notify : bool;          (* [ShutdownActors] has still to notify *)
  sent : list MailboxItem;
  ended : list (MailboxItem * (Value + string));
}.

Definition set_actor (a : Actor) (s : system) : system :=
  MkSystem a (worker s) (clients s) (stop_notify s) (sent s) (ended s).
Definition set_worker (w : worker_pc) (s : system) : system :=
  MkSystem (actor s) w (clients s) (stop_notify s) (sent s) (ended s).
Definition set_client (c : nat) (p : client_pc) (s : system) : system :=
  MkSystem (actor s) (worker s) (<[c := p]> (clients s)) (stop_notify s) (sent s) (ended s).
Definition set_stop_notify (b : bool) (s : system) : system :=
  MkSystem (actor s) (worker s) (clients s) b (sent s) (ended s).
Definition add_sent (i : MailboxItem) (s : system) : system :=
  MkSystem (actor s) (worker s) (clients s) (stop_notify s) (sent s ++ [i]) (ended s).
Definition add_ended (i : MailboxItem) (r : Value + string) (s : system) : system :=
  MkSystem (actor s) (worker s) (clients s) (stop_notify s) (sent s) (ended s ++ [(i, r)]).

Definition set_mailbox (l : list MailboxItem) (a : Actor) : Actor :=
  MkActor (a_typeName a) (a_state a) (a_methods a) l (a_pendingQueries a) (a_failures a) (a_runtimeId a)
    (a_stopping a) (a_nextRequestId a).
Definition set_pending (f : gmap Z QueryResult → gmap Z QueryResult) (a : Actor) : Actor :=
  MkActor (a_typeName a) (a_state a) (a_methods a) (a_mailbox a) (f (a_pendingQueries a)) (a_failures a)
    (a_runtimeId a) (a_stopping a) (a_nextRequestId a).
Definition set_stopping (a : Actor) : Actor :=
  MkActor (a_typeName a) (a_state a) (a_methods a) (a_mailbox a) (a_pendingQueries a) (a_failures a)
    (a_runtimeId a) true (a_nextRequestId a).
Definition push_failure (e : string) (a : Actor) : Actor :=
  MkActor (a_typeName a) (a_state a) (a_methods a) (a_mailbox a) (a_pendingQueries a) (a_failures a ++ [e])
    (a_runtimeId a) (a_stopping a) (a_nextRequestId a).
Definition next_request (a : Actor) : Actor :=
  MkActor (a_typeName a) (a_state a) (a_methods a) (a_mailbox a) (a_pendingQueries a) (a_failures a)
    (a_runtimeId a) (a_stopping a) ((a_nextRequestId a + 1) mod 2 ^ 64).

(** [cv.notify_one] and [notify_all] on the only thread that waits. *)
Definition notify (s : system) : system :=
  match worker s with WAsleep => set_worker WTest s | _ => s end.

(** *** The writers *)

Definition push_item (i : MailboxItem) (s : system) : system :=
  add_sent i (set_actor (set_mailbox (a_mailbox (actor s) ++ [i]) (actor s)) s).

(** [EnqueueActorSend] up to its notification. *)
Definition send_section (c : nat) (methodName : string) (args : list Value) (s : system) : system :=
  set_client c CSendNotify (push_item (MkItem Send methodName args 0) s).

(** [EnqueueActorQuery] up to its notification. *)
Definition query_section (c : nat) (methodName : string) (args : list Value) (s : system) : system :=
  let requestId := a_nextRequestId (actor s) in
  let pending := MkQuery false VMonostate "" in
  let s := set_actor (next_request (actor s)) s in
  let s := set_actor (set_pending (λ m, match m !! requestId with Some _ => m | None => <[requestId := pending]> m end)
                        (actor s)) s in
  set_client c (CQueryNotify requestId) (push_item (MkItem Query methodName args requestId) s).

(** The end of [EnqueueActorQuery]: the request is erased. *)
Definition query_end (c : nat) (requestId : Z) (answer : QueryResult) (s : system) : system :=
  set_client c (CAnswered requestId (if decide (q_error answer = "") then inl (q_value answer) else inr (q_error answer)))
    (set_actor (set_pending (delete requestId) (actor s)) s).

(** *** The worker *)

Definition wakes (a : Actor) : bool := a_stopping a || negb (bool_decide (a_mailbox a = [])).

(** The critical section at the head of the loop of [RunActorWorker]. *)
Definition worker_section (s : system) : system :=
  let a := actor s in
  if negb (wakes a) then set_worker WAsleep s else
  match a_mailbox a with
  | [] => set_worker WStopped s
  | item :: l => set_worker (WTaken item) (set_actor (set_mailbox l a) s)
  end.

Definition end_method (item : MailboxItem) (r : Value + string) (s : system) : system :=
  set_worker (WEnded item r) s.

(** A send that fails is recorded; the answer to a query is looked up. *)
Definition settle (item : MailboxItem) (r : Value + string) (s : system) : system :=
  match i_kind item with
  | Send =>
      add_ended item r
        (set_worker WTest (match r with inr e => set_actor (push_failure e (actor s)) s | inl _ => s end))
  | Query =>
      match a_pendingQueries (actor s) !! i_requestId item with
      | Some _ => set_worker (WFound item r) s
      | None => add_ended item r (set_worker WTest s)
      end
  end.

(** Under the mutex of the answer. *)
Definition publish (item : MailboxItem) (r : Value + string) (s : system) : system :=
  add_ended item r (set_worker WTest (set_actor (set_pending (alter (λ q,
    match r with
    | inr e => MkQuery true (q_value q) e
    | inl v => MkQuery true v (q_error q)
    end) (i_requestId item)) (actor s)) s)).

(** [ShutdownActors], for this actor. *)
Definition shutdown_section (s : system) : system := set_stop_notify true (set_actor (set_stopping (actor s)) s).

(** *** Steps *)

Inductive label :=
  | LSend (c : nat) (methodName : string) (args : list Value)
  | LQuery (c : nat) (methodName : string) (args : list Value)
  | LShutdown
  | LNotify (c : nat)
  | LNotifyStop
  | LReady (c : nat)
  | LEnd (c : nat)
  | LWake                                 (* spuriously *)
  | LWorker                               (* the head of the loop *)
  | LMethod (r : Value + string)          (* a method of the actor ends *)
  | LUnknown                              (* the actor has no such method *)
  | LSettle
  | LPublish.

Section act.
(** The methods that the actor has. *)
Context (has_method : string → bool).

Definition act (l : label) (s : system) : option system :=
  match l with
  | LSend c m args => match clients s !! c with None => Some (send_section c m args s) | Some _ => None end
  | LQuery c m args => match clients s !! c with None => Some (query_section c m args s) | Some _ => None end
  | LShutdown => Some (shutdown_section s)
  | LNotify c =>
      match clients s !! c with
      | Some CSendNotify => Some (set_client c CSent (notify s))
      | Some (CQueryNotify id) => Some (set_client c (CQueryWait id) (notify s))
      | _ => None
      end
  | LNotifyStop => if stop_notify s then Some (set_stop_notify false (notify s)) else None
  | LReady c =>
      match clients s !! c with
      | Some (CQueryWait id) =>
          match a_pendingQueries (actor s) !! id with
          | Some q => if q_ready q then Some (set_client c (CQueryReady id q) s) else None
          | None => None
          end
      | _ => None
      end
  | LEnd c =>
      match clients s !! c with
      | Some (CQueryReady id q) => Some (query_end c id q s)
      | _ => None
      end
  | LWake => match worker s with WAsleep => Some (set_worker WTest s) | _ => None end
  | LWorker => match worker s with WTest => Some (worker_section s) | _ => None end
  | LMethod r =>
      match worker s with
      | WTaken item => if has_method (i_methodName item) then Some (end_method item r s) else None
      | _ => None
      end
  | LUnknown =>
      match worker s with
      | WTaken item =>
          if has_method (i_methodName item) then None
          else Some (end_method item (inr ("Unknown actor method: " +:+ i_methodName item)) s)
      | _ => None
      end
  | LSettle => match worker s with WEnded item r => Some (settle item r s) | _ => None end
  | LPublish => match worker s with WFound item r => Some (publish item r s) | _ => None end
  end.

(** [BuildActor]: the actor before its first message, its worker started. *)
Definition new_actor (typeName : string) (state : nat) (methods : option nat) (id : nat) : Actor :=
  MkActor typeName state methods [] ∅ [] id false 1.
Definition initial (a : Actor) : system := MkSystem a WTest ∅ false [] [].

Fixpoint acts (ls : list label) (s : system) : option system :=
  match ls with [] => Some s | l :: ls => s ← act l s; acts ls s end.

Inductive reachable (a : Actor) : system → Prop :=
  | reachable_init : reachable a (initial a)
  | reachable_act l s s' : reachable a s → act l s = Some s' → reachable a s'.
End act.

End Actors.
