(* ===== verification/ActorSpec.v ===== *)
(** * Actors: order, answers and wake-ups *)

From S2P Require Import Prelude Value Actors.
From Stdlib Require Import Lia.

Module ActorSpec.
Import Value Actors.

(** ** What a run is described by *)

(** The item the worker has in its hands. *)
Definition in_hand (w : worker_pc) : list MailboxItem :=
  match w with WTaken i | WEnded i _ | WFound i _ => [i] | _ => [] end.

(** The identifiers of the queries of a list of items. *)
Definition request_of (i : MailboxItem) : option Z :=
  match i_kind i with Query => Some (i_requestId i) | Send => None end.
Definition requests (l : list MailboxItem) : list Z := omap request_of l.

Definition failure_of (ir : MailboxItem * (Value + string)) : option string :=
  match i_kind ir.1, ir.2 with Send, inr e => Some e | _, _ => None end.

(** What [publish] writes, and what the query makes of it. *)
Definition answer_of (r : Value + string) : QueryResult :=
  match r with inr e => MkQuery true VMonostate e | inl v => MkQuery true v "" end.
Definition seen (r : Value + string) : Value + string :=
  match r with inr e => if decide (e = "") then inl VMonostate else inr e | inl v => inl v end.

(** The request a client has open. *)
Definition open_request (p : client_pc) : option Z :=
  match p with CQueryNotify k | CQueryWait k | CQueryReady k _ => Some k | _ => None end.
Definition will_notify (p : client_pc) : bool :=
  match p with CSendNotify | CQueryNotify _ => true | _ => false end.

(** A request that is registered: answered, or with its item still to be done. *)
Definition request_ok (s : system) (k : Z) (q : QueryResult) : Prop :=
  (∃ i r, (i, r) ∈ ended s ∧ request_of i = Some k ∧ q = answer_of r)
  ∨ q = MkQuery false VMonostate "" ∧ k ∈ requests (in_hand (worker s) ++ a_mailbox (actor s)).

Definition client_ok (s : system) (p : client_pc) : Prop :=
  match p with
  | CQueryNotify k | CQueryWait k => is_Some (a_pendingQueries (actor s) !! k)
  | CQueryReady k q => ∃ i r, (i, r) ∈ ended s ∧ request_of i = Some k ∧ q = answer_of r
  | CAnswered k res => ∃ i r, (i, r) ∈ ended s ∧ request_of i = Some k ∧ res = seen r
  | _ => True
  end.

(** The number of the next request, before it wraps around. *)
Definition small (s : system) : Prop := (Z.of_nat (length (sent s)) < 2 ^ 64 - 1)%Z.

Record inv (s : system) : Prop := {
  iv_order : (ended s).*1 ++ in_hand (worker s) ++ a_mailbox (actor s) = sent s;
  iv_failures : a_failures (actor s) = omap failure_of (ended s);
  iv_requests : requests (sent s) = seqZ 1 (a_nextRequestId (actor s) - 1);
  iv_next : (1 ≤ a_nextRequestId (actor s))%Z;
  iv_pending k q : a_pendingQueries (actor s) !! k = Some q → (k < a_nextRequestId (actor s))%Z ∧ request_ok s k q;
  iv_clients c p : clients s !! c = Some p → client_ok s p;
  iv_open c p k : clients s !! c = Some p → open_request p = Some k → (k < a_nextRequestId (actor s))%Z;
  iv_owner c c' p p' k : clients s !! c = Some p → clients s !! c' = Some p' →
    open_request p = Some k → open_request p' = Some k → c = c';
  iv_asleep : worker s = WAsleep → wakes (actor s) = true →
    stop_notify s = true ∨ ∃ c p, clients s !! c = Some p ∧ will_notify p = true;
  iv_worker : match worker s with
              | WFound i _ => i_kind i = Query ∧ is_Some (a_pendingQueries (actor s) !! i_requestId i)
              | _ => True
              end;
}.

Lemma inv_initial a : a_mailbox a = [] → a_pendingQueries a = ∅ → a_failures a = [] → a_nextRequestId a = 1%Z →
  inv (initial a).
Proof.
  intros H1 H2 H3 H4. split; cbn; rewrite ?H1 ?H2 ?H3 ?H4; try done.
Qed.

(** ** The requests are distinct *)

Lemma requests_app l k : requests (l ++ k) = requests l ++ requests k.
Proof. apply omap_app. Qed.

Lemma inv_nodup s : inv s → NoDup (requests (sent s)).
Proof. intros Hs. rewrite (iv_requests _ Hs). apply NoDup_seqZ. Qed.

Lemma request_bound s k : inv s → k ∈ requests (sent s) → (1 ≤ k < a_nextRequestId (actor s))%Z.
Proof. intros Hs. rewrite (iv_requests _ Hs) elem_of_seqZ. lia. Qed.

Lemma next_bound s : inv s → (a_nextRequestId (actor s) ≤ Z.of_nat (length (sent s)) + 1)%Z.
Proof.
  intros Hs. assert (length (requests (sent s)) ≤ length (sent s)) as Hl.
  { induction (sent s) as [|i l IH]; [done|]. unfold requests in *. cbn. destruct (request_of i); cbn; lia. }
  rewrite (iv_requests _ Hs) length_seqZ in Hl. pose proof (iv_next _ Hs). lia.
Qed.

(** ** Every step keeps the invariant *)

(** More items, registered or done, and a worker whose hands and mailbox hold
    no fewer requests. *)
Lemma request_ok_mono s s' k q :
  (∀ x, x ∈ ended s → x ∈ ended s') →
  (k ∈ requests (in_hand (worker s) ++ a_mailbox (actor s)) →
   k ∈ requests (in_hand (worker s') ++ a_mailbox (actor s'))) →
  request_ok s k q → request_ok s' k q.
Proof.
  intros He Hk [(i & r & Hi & ?)|[-> Hin]]; [left|right].
  - exists i, r. split; [by apply He|done].
  - split; [done|by apply Hk].
Qed.

Lemma client_ok_mono s s' p :
  (∀ x, x ∈ ended s → x ∈ ended s') →
  (∀ k, open_request p = Some k → is_Some (a_pendingQueries (actor s) !! k) → is_Some (a_pendingQueries (actor s') !! k)) →
  client_ok s p → client_ok s' p.
Proof.
  intros He Hk. destruct p as [| |k|k|k q|k res]; cbn; try done.
  - by apply Hk.
  - by apply Hk.
  - intros (i & r & Hi & ?). exists i, r. split; [by apply He|done].
  - intros (i & r & Hi & ?). exists i, r. split; [by apply He|done].
Qed.

(** A client moves on, and nothing else changes. *)
Lemma inv_set_client s c p' :
  inv s → client_ok s p' →
  (∀ k, open_request p' = Some k → (k < a_nextRequestId (actor s))%Z
     ∧ ∀ c' q, clients s !! c' = Some q → open_request q = Some k → c' = c) →
  (worker s = WAsleep → wakes (actor s) = true →
     stop_notify s = true ∨ will_notify p' = true
     ∨ ∃ c' q, c' ≠ c ∧ clients s !! c' = Some q ∧ will_notify q = true) →
  inv (set_client c p' s).
Proof.
  intros Hs Hp Hk Hw. destruct Hs as [H1 H2 H3 H4 H5 H6 H7 H8 H9 H10]. split; try done.
  - intros c' p. cbn. rewrite lookup_insert_Some. intros [[<- <-]|[_ Hc]]; [done|by apply (H6 c')].
  - intros c' p k. cbn. rewrite lookup_insert_Some. intros [[<- <-]|[_ Hc]] Ho; [by apply Hk|by apply (H7 c' p)].
  - intros c1 c2 p1 p2 k. cbn. rewrite !lookup_insert_Some.
    intros [[<- <-]|[Hn1 Hc1]] [[<- <-]|[Hn2 Hc2]] Ho1 Ho2.
    + done.
    + symmetry. by apply (proj2 (Hk k Ho1) c2 p2).
    + by apply (proj2 (Hk k Ho2) c1 p1).
    + by apply (H8 c1 c2 p1 p2 k).
  - intros Hsl Hwk. destruct (Hw Hsl Hwk) as [?|[?|(c' & q & Hne & Hc' & ?)]]; [by left|right..].
    + exists c, p'. cbn. by rewrite lookup_insert_eq.
    + exists c', q. cbn. by rewrite lookup_insert_ne.
Qed.

(** A notification: the worker is awake afterwards. *)
Lemma notify_same s :
  actor (notify s) = actor s ∧ clients (notify s) = clients s ∧ sent (notify s) = sent s
  ∧ ended (notify s) = ended s ∧ in_hand (worker (notify s)) = in_hand (worker s)
  ∧ worker (notify s) ≠ WAsleep ∧ stop_notify (notify s) = stop_notify s.
Proof. unfold notify. destruct (worker s) eqn:E; cbn; rewrite ?E; split_and!; done. Qed.

Lemma inv_notify s : inv s → inv (notify s).
Proof.
  intros [H1 H2 H3 H4 H5 H6 H7 H8 H9 H10].
  unfold notify. destruct (worker s) eqn:E; try (split; rewrite ?E; done).
  split; cbn; try done.
  - intros k q Hq. destruct (H5 k q Hq) as [? Hr]. split; [done|]. eapply request_ok_mono, Hr; [done|].
    cbn. by rewrite E.
Qed.

Lemma inv_notified s c p p' :
  inv s → clients s !! c = Some p → client_ok s p' →
  (open_request p' = open_request p) → inv (set_client c p' (notify s)).
Proof.
  intros Hs Hc Hp Ho. destruct (notify_same s) as (E1 & E2 & E3 & E4 & E5 & E6 & E7).
  apply inv_set_client; [by apply inv_notify| | |by intros ?].
  - eapply client_ok_mono, Hp; [by rewrite E4|by rewrite E1].
  - rewrite Ho E1 E2. intros k Hk. split; [by apply (iv_open _ Hs c p)|].
    intros c' q Hc' Hq. by apply (iv_owner _ Hs c' c q p k).
Qed.
(** *** The writers *)

Lemma requests_push k hand mail i :
  k ∈ requests (hand ++ mail) → k ∈ requests (hand ++ mail ++ [i]).
Proof. rewrite app_assoc (requests_app (hand ++ mail)). intros H. apply elem_of_app. by left. Qed.

Lemma inv_send s c m args : inv s → clients s !! c = None → inv (send_section c m args s).
Proof.
  intros [H1 H2 H3 H4 H5 H6 H7 H8 H9 H10] Hc. unfold send_section, push_item.
  split; cbn [actor worker clients stop_notify sent ended set_client add_sent set_actor set_mailbox
    a_mailbox a_pendingQueries a_failures a_nextRequestId a_stopping]; try done.
  - by rewrite -H1 -!app_assoc.
  - by rewrite requests_app app_nil_r.
  - intros k q Hq. destruct (H5 k q Hq) as [? Hr]. split; [done|]. eapply request_ok_mono, Hr; [done|].
    apply requests_push.
  - intros c' p. rewrite lookup_insert_Some. intros [[<- <-]|[_ Hc']]; [done|].
    eapply client_ok_mono, H6, Hc'; done.
  - intros c' p k. rewrite lookup_insert_Some. intros [[<- <-]|[_ Hc']]; [done|by apply (H7 c' p)].
  - intros c1 c2 p1 p2 k. rewrite !lookup_insert_Some.
    intros [[<- <-]|[_ Hc1]] [[<- <-]|[_ Hc2]] Ho1 Ho2; [done..|by apply (H8 c1 c2 p1 p2 k)].
  - intros _ _. right. exists c, CSendNotify. by rewrite lookup_insert_eq.
Qed.

Lemma inv_query s c m args : inv s → clients s !! c = None → small (query_section c m args s) →
  inv (query_section c m args s).
Proof.
  intros Hs Hc Hsm. pose proof (next_bound s Hs) as Hb.
  destruct Hs as [H1 H2 H3 H4 H5 H6 H7 H8 H9 H10].
  set (n := a_nextRequestId (actor s)) in *.
  assert ((n + 1) mod 2 ^ 64 = n + 1)%Z as Hn.
  { apply Z.mod_small. unfold small in Hsm. cbn in Hsm. rewrite length_app in Hsm. cbn in Hsm. lia. }
  assert (a_pendingQueries (actor s) !! n = None) as Hnew.
  { destruct (a_pendingQueries (actor s) !! n) as [q|] eqn:E; [|done]. destruct (H5 n q E). lia. }
  unfold query_section, push_item.
  split; cbn [actor worker clients stop_notify sent ended set_client add_sent set_actor set_mailbox set_pending
    next_request a_mailbox a_pendingQueries a_failures a_nextRequestId a_stopping]; fold n; rewrite ?Hnew ?Hn; try done.
  - by rewrite -H1 -!app_assoc.
  - rewrite requests_app H3. cbn. replace (n + 1 - 1)%Z with (n - 1 + 1)%Z by lia.
    rewrite seqZ_app; [|lia|lia]. f_equal. cbn. by replace (1 + (n - 1))%Z with n by lia.
  - lia.
  - intros k q. rewrite lookup_insert_Some. intros [[<- <-]|[_ Hq]].
    + split; [lia|]. right. split; [done|]. cbn. rewrite app_assoc requests_app. apply elem_of_app. right. left.
    + destruct (H5 k q Hq) as [? Hr]. split; [lia|]. eapply request_ok_mono, Hr; [done|]. apply requests_push.
  - intros c' p. rewrite lookup_insert_Some. intros [[<- <-]|[_ Hc']].
    + cbn. rewrite Hnew lookup_insert_eq. eauto.
    + eapply client_ok_mono, H6, Hc'; [done|]. intros k _. cbn. fold n. rewrite Hnew.
      destruct (decide (k = n)) as [-> |]; [by rewrite lookup_insert_eq; eauto|by rewrite lookup_insert_ne].
  - intros c' p k. rewrite lookup_insert_Some. intros [[<- <-]|[_ Hc']].
    + intros [= <-]. lia.
    + intros Ho. specialize (H7 c' p k Hc' Ho). lia.
  - intros c1 c2 p1 p2 k. rewrite !lookup_insert_Some.
    intros [[<- <-]|[_ Hc1]] [[<- <-]|[_ Hc2]] Ho1 Ho2; [done| | |by apply (H8 c1 c2 p1 p2 k)].
    + injection Ho1 as <-. specialize (H7 c2 p2 n Hc2 Ho2). lia.
    + injection Ho2 as <-. specialize (H7 c1 p1 n Hc1 Ho1). lia.
  - intros _ _. right. eexists c, _. by rewrite lookup_insert_eq.
  - destruct (worker s) as [| |i|i r|i r|] eqn:E; try done. destruct H10 as [Hi Hp]. split; [done|].
    destruct (decide (i_requestId i = n)) as [Hin|Hin]; [by rewrite Hin lookup_insert_eq; eauto|by rewrite lookup_insert_ne].
Qed.

Lemma inv_shutdown s : inv s → inv (shutdown_section s).
Proof. intros [H1 H2 H3 H4 H5 H6 H7 H8 H9 H10]. split; try done. intros _ _. by left. Qed.

Lemma inv_notify_stop s : inv s → inv (set_stop_notify false (notify s)).
Proof.
  intros Hs. destruct (notify_same s) as (_ & _ & _ & _ & _ & Hw & _).
  destruct (inv_notify s Hs) as [H1 H2 H3 H4 H5 H6 H7 H8 H9 H10]. by split.
Qed.

(** The client sees an answer, and takes it away. *)
Lemma inv_ready s c k q :
  inv s → clients s !! c = Some (CQueryWait k) → a_pendingQueries (actor s) !! k = Some q → q_ready q = true →
  inv (set_client c (CQueryReady k q) s).
Proof.
  intros Hs Hc Hq Hr. apply inv_set_client; [done| | |].
  - destruct (iv_pending _ Hs k q Hq) as [_ [?|[-> _]]]; [done|done].
  - intros k' [= <-]. split; [by apply (iv_open _ Hs c (CQueryWait k))|].
    intros c' p' Hc' Ho. by apply (iv_owner _ Hs c' c p' (CQueryWait k) k).
  - intros Hsl Hwk. destruct (iv_asleep _ Hs Hsl Hwk) as [?|(c' & p' & Hc' & Hp')]; [by left|].
    right. right. exists c', p'. split_and!; [|done|done]. intros ->. rewrite Hc in Hc'. by injection Hc' as <-.
Qed.
(** What is done and what is still to be done have no request in common. *)
Lemma done_once s i r k :
  inv s → (i, r) ∈ ended s → request_of i = Some k →
  k ∉ requests (in_hand (worker s) ++ a_mailbox (actor s)).
Proof.
  intros Hs Hi Hk Hin. pose proof (inv_nodup s Hs) as Hnd. rewrite -(iv_order _ Hs) requests_app in Hnd.
  apply NoDup_app in Hnd as (_ & Hd & _). apply (Hd k); [|exact Hin].
  apply list_elem_of_omap. exists i. split; [|done]. apply list_elem_of_fmap. by exists (i, r).
Qed.

Lemma in_hand_request i k l : request_of i = Some k → k ∈ requests ([i] ++ l).
Proof. intros Hi. unfold requests. cbn. rewrite Hi. left. Qed.

Lemma inv_end s c k q : inv s → clients s !! c = Some (CQueryReady k q) → inv (query_end c k q s).
Proof.
  intros Hs Hc. pose proof (iv_clients _ Hs c _ Hc) as (i & r & Hi & Hik & ->).
  pose proof (done_once s i r k Hs Hi Hik) as Hd.
  assert (inv (set_actor (set_pending (delete k) (actor s)) (set_client c (CAnswered k (seen r)) s))) as Hinv.
  { destruct Hs as [H1 H2 H3 H4 H5 H6 H7 H8 H9 H10].
    split; cbn [actor worker clients stop_notify sent ended set_client set_actor set_pending
      a_mailbox a_pendingQueries a_failures a_nextRequestId a_stopping]; try done.
    - intros k' q' Hq'. apply lookup_delete_Some in Hq' as [_ Hq']. destruct (H5 k' q' Hq') as [? Hr].
      split; [done|]. by eapply request_ok_mono, Hr.
    - intros c' p. rewrite lookup_insert_Some. intros [[<- <-]|[Hne Hc']]; [by exists i, r|].
      eapply client_ok_mono, H6, Hc'; [done|]. intros k' Ho. cbn. rewrite lookup_delete_ne; [done|].
      intros <-. by apply Hne, (H8 c c' _ p k Hc Hc').
    - intros c' p k'. rewrite lookup_insert_Some. intros [[<- <-]|[_ Hc']]; [done|by apply (H7 c' p)].
    - intros c1 c2 p1 p2 k'. rewrite !lookup_insert_Some.
      intros [[<- <-]|[_ Hc1]] [[<- <-]|[_ Hc2]] Ho1 Ho2; [done..|by apply (H8 c1 c2 p1 p2 k')].
    - intros Hsl Hwk. destruct (H9 Hsl Hwk) as [?|(c' & p' & Hc' & Hp')]; [by left|right].
      exists c', p'. rewrite lookup_insert_ne; [done|]. intros ->. rewrite Hc in Hc'. by injection Hc' as <-.
    - destruct (worker s) as [| |j|j r'|j r'|] eqn:E; try done. destruct H10 as [Hj Hp]. split; [done|].
      rewrite lookup_delete_ne; [done|]. intros Hk. apply Hd. cbn [in_hand].
      apply in_hand_request. unfold request_of. rewrite Hj. by f_equal. }
  unfold query_end. destruct r as [v|e]; cbn in *; [done|]. by destruct (decide (e = "")).
Qed.

(** *** The worker *)

(** The worker goes on with the same work. *)
Lemma inv_worker w s :
  inv s → in_hand w = in_hand (worker s) → w ≠ WAsleep →
  match w with
  | WFound i _ => i_kind i = Query ∧ is_Some (a_pendingQueries (actor s) !! i_requestId i)
  | _ => True
  end → inv (set_worker w s).
Proof.
  intros [H1 H2 H3 H4 H5 H6 H7 H8 H9 H10] Hw Hsl Hf. split; cbn; rewrite ?Hw; try done.
  intros k q Hq. destruct (H5 k q Hq) as [? Hr]. split; [done|]. eapply request_ok_mono, Hr; [done|].
  cbn. by rewrite Hw.
Qed.

Lemma inv_head s : inv s → worker s = WTest → inv (worker_section s).
Proof.
  intros Hs Hw. unfold worker_section. destruct (wakes (actor s)) eqn:Hwk; cbn [negb].
  2: { destruct Hs as [H1 H2 H3 H4 H5 H6 H7 H8 H9 H10]. rewrite Hw in H1. split; cbn; try done; [|congruence].
       intros k q Hq. destruct (H5 k q Hq) as [? Hr]. split; [done|]. eapply request_ok_mono, Hr; [done|].
       cbn. by rewrite Hw. }
  destruct (a_mailbox (actor s)) as [|item l] eqn:Hm.
  - apply inv_worker; [done|by rewrite Hw|done|done].
  - destruct Hs as [H1 H2 H3 H4 H5 H6 H7 H8 H9 H10]. rewrite Hw Hm in H1. split; cbn; try done.
    intros k q Hq. destruct (H5 k q Hq) as [? Hr]. split; [done|]. eapply request_ok_mono, Hr; [done|].
    cbn. by rewrite Hw Hm.
Qed.

(** The work in hand is done. *)
Lemma inv_done i r s a :
  inv s → in_hand (worker s) = [i] →
  a_mailbox a = a_mailbox (actor s) → a_nextRequestId a = a_nextRequestId (actor s) →
  a_failures a = a_failures (actor s) ++ option_list (failure_of (i, r)) →
  (∀ k, is_Some (a_pendingQueries (actor s) !! k) → is_Some (a_pendingQueries a !! k)) →
  (∀ k q, a_pendingQueries a !! k = Some q →
     request_of i = Some k ∧ q = answer_of r ∧ is_Some (a_pendingQueries (actor s) !! k)
     ∨ request_of i ≠ Some k ∧ a_pendingQueries (actor s) !! k = Some q) →
  inv (add_ended i r (set_worker WTest (set_actor a s))).
Proof.
  intros [H1 H2 H3 H4 H5 H6 H7 H8 H9 H10] Hw Hm Hn Hf Hp Hq.
  split; cbn; rewrite ?Hn; try done.
  - rewrite fmap_app -H1 Hw Hm. cbn. by rewrite -!app_assoc.
  - by rewrite Hf H2 omap_app.
  - intros k q Hk. destruct (Hq k q Hk) as [(Hi & -> & [q' Hq'])|[Hi Hk']].
    + split; [by apply (H5 k q')|]. left. exists i, r. split_and!; [|done|done].
      apply elem_of_app. right. left.
    + destruct (H5 k q Hk') as [? [(j & r' & Hj & ?)|[-> Hin]]]; (split; [done|]).
      * left. exists j, r'. split; [|done]. cbn. apply elem_of_app. by left.
      * right. split; [done|]. cbn. rewrite Hm. rewrite Hw in Hin. unfold requests in Hin. cbn in Hin.
        destruct (request_of i) as [k'|]; [|done]. apply elem_of_cons in Hin as [-> |?]; done.
  - intros c p Hc. eapply client_ok_mono, H6, Hc; [intros x Hx; cbn; apply elem_of_app; by left|].
    intros k _. apply Hp.
Qed.

Lemma inv_settle s i r : inv s → worker s = WEnded i r → inv (settle i r s).
Proof.
  intros Hs Hw. unfold settle. destruct (i_kind i) eqn:Hk.
  - assert (request_of i = None) as Hi by (unfold request_of; by rewrite Hk).
    assert (∀ a, a = match r with inr e => push_failure e (actor s) | inl _ => actor s end →
      inv (add_ended i r (set_worker WTest (set_actor a s)))) as Hd.
    { intros a ->. apply inv_done; [done|by rewrite Hw|by destruct r|by destruct r| |by destruct r|].
      - unfold failure_of. cbn. rewrite Hk. destruct r; cbn; [by rewrite app_nil_r|done].
      - intros k q Hq. right. split; [by rewrite Hi|]. by destruct r. }
    specialize (Hd _ eq_refl). by destruct r, s.
  - assert (request_of i = Some (i_requestId i)) as Hi by (unfold request_of; by rewrite Hk).
    destruct (a_pendingQueries (actor s) !! i_requestId i) as [q|] eqn:Hq.
    + apply inv_worker; [done|by rewrite Hw|done|by rewrite Hq; eauto].
    + assert (inv (add_ended i r (set_worker WTest (set_actor (actor s) s)))) as Hd; [|by destruct s].
      apply inv_done; [done|by rewrite Hw|done|done| |done|].
      * unfold failure_of. cbn. by rewrite Hk app_nil_r.
      * intros k q Hk'. right. split; [|done]. rewrite Hi. intros [= <-]. congruence.
Qed.

Lemma inv_publish s i r : inv s → worker s = WFound i r → inv (publish i r s).
Proof.
  intros Hs Hw. pose proof (iv_worker _ Hs) as Hf. rewrite Hw in Hf. destruct Hf as [Hk [q0 Hq0]].
  assert (request_of i = Some (i_requestId i)) as Hi by (unfold request_of; by rewrite Hk).
  unfold publish. apply inv_done; [done|by rewrite Hw|done|done| | |].
  - unfold failure_of. cbn. by rewrite Hk app_nil_r.
  - intros k Hk'. cbn. by rewrite lookup_alter_is_Some.
  - intros k q Hq. cbn in Hq. destruct (decide (k = i_requestId i)) as [-> |Hne].
    + left. rewrite lookup_alter_eq Hq0 in Hq. injection Hq as <-. split_and!; [done| |eauto].
      destruct (iv_pending _ Hs _ _ Hq0) as [_ [(j & r' & Hj & Hjk & _)|[-> _]]]; [|by destruct r].
      exfalso. apply (done_once s j r' _ Hs Hj Hjk). rewrite Hw. by apply in_hand_request.
    + right. rewrite lookup_alter_ne // in Hq. split; [|done]. rewrite Hi. congruence.
Qed.
(** *** All steps *)

Section runs.
Context (has_method : string → bool).
Abbreviation act := (act has_method).
Abbreviation acts := (acts has_method).
Abbreviation reachable := (reachable has_method).

(** Nothing is taken back from what was sent. *)
Lemma act_sent l s s' : act l s = Some s' → ∃ k, sent s' = sent s ++ k.
Proof.
  assert (∀ s1, sent s1 = sent s → ∃ k, sent s1 = sent s ++ k) as Hsame
    by (intros s1 ->; exists []; by rewrite app_nil_r).
  destruct (notify_same s) as (_ & _ & E3 & _).
  intros Ha. destruct l; cbn in Ha; repeat case_match; simplify_eq; try (by eexists); apply Hsame; try done.
  - unfold worker_section. by repeat case_match.
  - unfold settle. repeat case_match; try done.
Qed.

Lemma act_inv l s s' : inv s → act l s = Some s' → small s' → inv s'.
Proof.
  intros Hs Ha Hsm.
  destruct l; cbn in Ha.
  - destruct (clients s !! c) eqn:Hc; simplify_eq. by apply inv_send.
  - destruct (clients s !! c) eqn:Hc; simplify_eq. by apply inv_query.
  - simplify_eq. by apply inv_shutdown.
  - destruct (clients s !! c) as [[| |k|k|k q|k res]|] eqn:Hc; simplify_eq.
    + by eapply inv_notified.
    + eapply inv_notified; [done|exact Hc| |done]. apply (iv_clients _ Hs c _ Hc).
  - destruct (stop_notify s); simplify_eq. by apply inv_notify_stop.
  - destruct (clients s !! c) as [[| |k|k|k q|k res]|] eqn:Hc; simplify_eq.
    destruct (a_pendingQueries (actor s) !! k) as [q|] eqn:Hq; [|done].
    destruct (q_ready q) eqn:Hr; simplify_eq. by apply inv_ready.
  - destruct (clients s !! c) as [[| |k|k|k q|k res]|] eqn:Hc; simplify_eq. by apply inv_end.
  - destruct (worker s) eqn:Hw; simplify_eq. by apply inv_worker; [|rewrite Hw|..].
  - destruct (worker s) eqn:Hw; simplify_eq. by apply inv_head.
  - destruct (worker s) eqn:Hw; simplify_eq. case_match; simplify_eq. by apply inv_worker; [|rewrite Hw|..].
  - destruct (worker s) eqn:Hw; simplify_eq. case_match; simplify_eq. by apply inv_worker; [|rewrite Hw|..].
  - destruct (worker s) eqn:Hw; simplify_eq. by apply inv_settle.
  - destruct (worker s) eqn:Hw; simplify_eq. by apply inv_publish.
Qed.

Section actor.
(** A new actor, as [BuildActor] makes it. *)
Context (typeName : string) (state : nat) (methods : option nat) (id : nat).
Abbreviation from_new := (reachable (new_actor typeName state methods id)).

Lemma reachable_inv s : from_new s → small s → inv s.
Proof.
  induction 1 as [|l s s' _ IH Ha]; intros Hsm; [by apply inv_initial|].
  eapply act_inv; [|exact Ha|done]. apply IH. destruct (act_sent _ _ _ Ha) as [k Hk].
  unfold small in *. rewrite Hk length_app in Hsm. lia.
Qed.

(** C21. Under every interleaving the mailbox is first in, first out: what the worker
    is done with, what it has in hand and what waits are, in this order, the
    items sent; the failures recorded are those of the sends, in order; and an
    answered query was answered once, with the result of the method that ran
    for its own request. *)
Theorem actor_mailbox s :
  from_new s → small s →
  (ended s).*1 ++ in_hand (worker s) ++ a_mailbox (actor s) = sent s
  ∧ a_failures (actor s) = omap failure_of (ended s)
  ∧ NoDup (requests (sent s))
  ∧ ∀ c k res, clients s !! c = Some (CAnswered k res) →
      ∃ i r, (i, r) ∈ ended s ∧ request_of i = Some k ∧ res = seen r
        ∧ ∀ i' r', (i', r') ∈ ended s → request_of i' = Some k → (i', r') = (i, r).
Proof.
  intros Hr Hsm. apply reachable_inv in Hr; [|done]. split_and!; [apply Hr..|by apply inv_nodup|].
  intros c k res Hc. pose proof (iv_clients _ Hr c _ Hc) as (i & r & Hi & Hk & ->).
  exists i, r. split_and!; [done..|]. intros i' r' Hi' Hk'.
  pose proof (inv_nodup _ Hr) as Hnd. rewrite -(iv_order _ Hr) requests_app in Hnd.
  apply NoDup_app in Hnd as (Hnd & _ & _). clear -Hi Hi' Hk Hk' Hnd.
  assert (∀ (l : list (MailboxItem * (Value + string))) x, x ∈ l → request_of x.1 = Some k →
    k ∈ requests l.*1) as Hin.
  { intros l x Hx Hxk. apply list_elem_of_omap. exists x.1. split; [by apply list_elem_of_fmap_2|done]. }
  induction (ended s) as [|[j rj] l IH]; [by apply not_elem_of_nil in Hi|].
  unfold requests in Hnd. cbn in Hnd.
  apply elem_of_cons in Hi as [E|Hi], Hi' as [E'|Hi']; simplify_eq; try done.
  - rewrite Hk in Hnd. apply NoDup_cons in Hnd as [Hnd _]. destruct Hnd. by apply (Hin l (i', r')).
  - rewrite Hk' in Hnd. apply NoDup_cons in Hnd as [Hnd _]. destruct Hnd. by apply (Hin l (i, r)).
  - apply IH; [done|done|]. destruct (request_of j); [by apply NoDup_cons in Hnd as [_ ?]|done].
Qed.

(** No step but a spurious wake-up, a new call or a shutdown can be made. *)
Definition stuck (s : system) : Prop :=
  ∀ l, match l with LSend _ _ _ | LQuery _ _ _ | LShutdown | LWake => True | _ => act l s = None end.

(** C22. No wake-up is lost: when nothing can go on, the worker sleeps over an empty
    mailbox of an actor that is not stopping, or it has stopped; and a query
    that still waits then waits for a worker that has stopped. *)
Theorem actor_no_lost_wakeup s :
  from_new s → small s → stuck s →
  (worker s = WAsleep ∧ a_mailbox (actor s) = [] ∧ a_stopping (actor s) = false ∨ worker s = WStopped)
  ∧ ∀ c p, clients s !! c = Some p →
      p = CSent ∨ (∃ k res, p = CAnswered k res)
      ∨ ∃ k, p = CQueryWait k ∧ worker s = WStopped ∧ k ∈ requests (a_mailbox (actor s)).
Proof.
  intros Hr Hsm Hst. apply reachable_inv in Hr; [|done].
  assert (∀ c p, clients s !! c = Some p → will_notify p = false) as Hn.
  { intros c p Hc. pose proof (Hst (LNotify c)) as H. cbn in H. rewrite Hc in H. by destruct p. }
  assert (worker s = WAsleep ∨ worker s = WStopped) as Hw.
  { destruct (worker s) as [| |i|i r|i r|] eqn:Hw; [|by left| | | |by right].
    - pose proof (Hst LWorker) as H. cbn in H. by rewrite Hw in H.
    - pose proof (Hst (LMethod (inr ""))) as H1. pose proof (Hst LUnknown) as H2. cbn in H1, H2.
      rewrite Hw in H1, H2. by destruct (has_method (i_methodName i)).
    - pose proof (Hst LSettle) as H. cbn in H. by rewrite Hw in H.
    - pose proof (Hst LPublish) as H. cbn in H. by rewrite Hw in H. }
  assert (worker s = WAsleep → a_mailbox (actor s) = [] ∧ a_stopping (actor s) = false) as Hsl.
  { intros Hsl. assert (wakes (actor s) = false) as Hwk.
    { destruct (wakes (actor s)) eqn:Hwk; [|done].
      destruct (iv_asleep _ Hr Hsl Hwk) as [Hs|(c & p & Hc & Hp)]; [|by rewrite (Hn c p Hc) in Hp].
      pose proof (Hst LNotifyStop) as H. cbn in H. by rewrite Hs in H. }
    unfold wakes in Hwk. apply orb_false_iff in Hwk as [-> Hm]. split; [|done].
    by apply negb_false_iff, bool_decide_eq_true in Hm. }
  split; [destruct Hw as [Hw|Hw]; [left; split; [done|by apply Hsl]|by right]|].
  intros c p Hc. destruct p as [| |k|k|k q|k res]; [|by left| | | |right; left; eauto].
  1, 2: by specialize (Hn c _ Hc).
  - right. right. exists k. split; [done|].
    destruct (iv_clients _ Hr c _ Hc) as [q Hq].
    destruct (iv_pending _ Hr k q Hq) as [_ [(i & r & _ & _ & ->)|[_ Hin]]].
    + pose proof (Hst (LReady c)) as H. cbn in H. rewrite Hc Hq in H. by destruct r.
    + destruct Hw as [Hw|Hw]; rewrite Hw in Hin; cbn in Hin; [|done].
      destruct (Hsl Hw) as [Hm _]. rewrite Hm in Hin. by apply not_elem_of_nil in Hin.
  - pose proof (Hst (LEnd c)) as H. cbn in H. by rewrite Hc in H.
Qed.

Lemma acts_reachable ls s s' : from_new s → acts ls s = Some s' → from_new s'.
Proof.
  revert s. induction ls as [|l ls IH]; intros s Hs; cbn; [by intros [= <-]|].
  destruct (act l s) as [s1|] eqn:E; [|done]. apply IH. by eapply reachable_act.
Qed.
End actor.
End runs.
(** ** Runs *)

Definition demo_method (m : string) : bool := bool_decide (m = "get").
Definition demo_actor : Actor := new_actor "Counter" 0 None 1.
Definition run_demo (ls : list label) : system :=
  match acts demo_method ls (initial demo_actor) with Some s => s | None => initial demo_actor end.

Lemma run_demo_reachable ls :
  is_Some (acts demo_method ls (initial demo_actor)) → reachable demo_method demo_actor (run_demo ls).
Proof.
  intros [s Hs]. unfold run_demo. rewrite Hs. eapply acts_reachable, Hs. constructor.
Qed.

(** A send of an unknown message, and a query. *)
Definition served : list label :=
  [ LSend 0 "put" [VInt64 1]; LWorker; LQuery 1 "get" []; LUnknown; LNotify 0; LSettle; LNotify 1; LWorker;
    LMethod (inl (VInt64 5)); LSettle; LPublish; LReady 1; LEnd 1; LWorker ].

Lemma actor_mailbox_witness :
  let s := run_demo served in
  (ended s).*1 ++ in_hand (worker s) ++ a_mailbox (actor s) = sent s
  ∧ a_failures (actor s) = omap failure_of (ended s)
  ∧ NoDup (requests (sent s))
  ∧ ∀ c k res, clients s !! c = Some (CAnswered k res) →
      ∃ i r, (i, r) ∈ ended s ∧ request_of i = Some k ∧ res = seen r
        ∧ ∀ i' r', (i', r') ∈ ended s → request_of i' = Some k → (i', r') = (i, r).
Proof.
  refine (actor_mailbox demo_method "Counter" 0 None 1 (run_demo served) _ _).
  - apply run_demo_reachable. vm_compute. eexists. reflexivity.
  - vm_compute. reflexivity.
Defined.

Example served_answer : clients (run_demo served) !! 1 = Some (CAnswered 1 (inl (VInt64 5)))
  ∧ a_failures (actor (run_demo served)) = ["Unknown actor method: put"].
Proof. vm_compute. split; reflexivity. Qed.

(** A query that comes when the worker has stopped is never answered: its
    thread waits for ever. *)
Definition late : list label := [ LShutdown; LNotifyStop; LWorker; LQuery 0 "get" []; LNotify 0 ].

Lemma late_stuck : stuck demo_method (run_demo late).
Proof.
  assert (clients (run_demo late) = {[0 := CQueryWait 1]}) as Hc by (vm_compute; reflexivity).
  intros [c m l|c m l| |c| |c|c| | |r| | |]; try exact I; try (vm_compute; reflexivity);
    cbn [act]; rewrite Hc; (destruct (decide (c = 0)) as [-> |];
      [rewrite lookup_singleton_eq; vm_compute; reflexivity|by rewrite lookup_singleton_ne]).
Qed.

Lemma actor_no_lost_wakeup_witness :
  let s := run_demo late in
  (worker s = WAsleep ∧ a_mailbox (actor s) = [] ∧ a_stopping (actor s) = false ∨ worker s = WStopped)
  ∧ ∀ c p, clients s !! c = Some p →
      p = CSent ∨ (∃ k res, p = CAnswered k res)
      ∨ ∃ k, p = CQueryWait k ∧ worker s = WStopped ∧ k ∈ requests (a_mailbox (actor s)).
Proof.
  refine (actor_no_lost_wakeup demo_method "Counter" 0 None 1 (run_demo late) _ _ late_stuck).
  - apply run_demo_reachable. vm_compute. eexists. reflexivity.
  - vm_compute. reflexivity.
Defined.

Example query_after_stop : clients (run_demo late) !! 0 = Some (CQueryWait 1).
Proof. vm_compute. reflexivity. Qed.

(** A method that fails with an empty text answers its query as if it had
    returned nothing. *)
Example silent_query_failure :
  clients (run_demo [ LQuery 0 "get" []; LNotify 0; LWorker; LMethod (inr ""); LSettle; LPublish; LReady 0; LEnd 0 ]) !! 0
  = Some (CAnswered 1 (inl VMonostate)).
Proof. vm_compute. reflexivity. Qed.

End ActorSpec.
