(* ===== verification/Ast.v ===== *)
(** * The abstract syntax tree

    [src/ast/nodes/]: one constructor per class, with the fields of the class.
    An [ASTNodePtr] is a node, and [NullNode] the null pointer; the classes
    that are not nodes but hold some ([Parameter], [EffectHandlerCase], ...)
    are types of their own. *)

From S2P Require Import Prelude Value.

Module Ast.
Import Value.

(** [enum class StorageClass], [ContractKind], [IterAdapterKind] *)
Inductive StorageClass := Default_ | Shared | ThreadLocal.
Inductive ContractKind := Requires | Ensures | Invariant.
Inductive IterAdapterKind := Drop_ | Take_ | Reverse_ | Filter | Transform.
(** [ActorMethodDecl::Kind] *)
Inductive ActorMethodKind := Message | Query.

#[export] Instance StorageClass_eq_dec : EqDecision StorageClass.
Proof. solve_decision. Defined.
#[export] Instance ContractKind_eq_dec : EqDecision ContractKind.
Proof. solve_decision. Defined.
#[export] Instance ActorMethodKind_eq_dec : EqDecision ActorMethodKind.
Proof. solve_decision. Defined.

Record TypeParameterDecl := MkTypeParameter { tp_name : string; constraints : list string }.
Record ContextBinding := MkContextBinding { cb_name : string; cb_typeName : string }.
Record StructField := MkStructField { sf_name : string; sf_typeName : string }.
Record EnumVariantDecl := MkEnumVariant { ev_name : string; argTypes : list string }.
(** [TransactionNode::Region] *)
Record Region := MkRegion { usesShared : bool; r_name : string }.

Inductive Node :=
  | NullNode
  (* literals/ and runtime/ *)
  | IntegerLiteralNode (value : Z)
  | FloatLiteralNode (value : double)
  | StringLiteralNode (value : string)
  | LeafNode (type value : string)
  | RawNode (ruleName : string) (children : list Node)
  | ComptimeNode (body : Node)
  (* expressions/ *)
  | IdentifierNode (name : string)
  | UnaryExprNode (op : string) (operand : Node)
  | BinaryExprNode (left : Node) (op : string) (right : Node)
  | AssignmentNode (name : string) (object : Node) (member : string)
      (dereferenceTarget value index : Node)
  | CallNode (callee : Node) (args : list Node)
  | GoExprNode (call : Node)
  | AwaitExprNode (operand : Node)
  | MemberAccessNode (object : Node) (member : string)
  | IndexNode (container index : Node)
  | FunctionExprNode (name returnType : string) (params : list Parameter_)
      (raisedEffects : list string) (body : Node)
  (* statements/ *)
  | ArrayLiteralNode (elements : list Node)
  | MapLiteralNode (keyTypeName valueTypeName : string) (entries : list (Node * Node))
  | BlockNode (statements : list Node)
  | ExportDeclNode (declaration : Node) (exportedName : string)
  | IfStatementNode (condition thenBlock elseBlock : Node)
  | WhileStatementNode (condition body : Node)
  | IterNode (varName : string) (collection : Node) (adapters : list (IterAdapterKind * Node))
      (body : Node)
  | ModuleDeclNode (qualifiedName : string)
  | ImportDeclNode (qualifiedName alias : string)
  | ReturnNode (value : Node)
  | PrintNode (value : Node)
  | UnsafeNode (body : Node)
  | TransactionNode (regions : list Region) (body : Node)
  | HandleNode (expression : Node) (handlers : list EffectHandlerCase)
  (* declarations/ *)
  | ContractNode (kind : ContractKind) (expression : Node)
  | VarDeclNode (name explicitType : string) (initializer : Node) (isConst : bool)
      (storageClass : StorageClass)
  | TypeAliasNode (name aliasedType : string) (typeParams : list TypeParameterDecl)
  | StructDeclNode (name : string) (typeParams : list TypeParameterDecl) (fields : list StructField)
      (implementedInterfaces : list string) (methods : list StructMethodDecl) (contracts : list Node)
  | EnumDeclNode (name : string) (typeParams : list TypeParameterDecl) (variants : list EnumVariantDecl)
  | InterfaceDeclNode (name : string) (typeParams : list TypeParameterDecl)
      (methods : list InterfaceMethodSig)
  | EffectDeclNode (name : string) (operations : list InterfaceMethodSig)
  | ActorDeclNode (name : string) (typeParams : list TypeParameterDecl)
      (fields : list ActorFieldDecl) (methods : list ActorMethodDecl)
  | FunctionDeclNode (name returnType : string) (isComptime : bool)
      (typeParams : list TypeParameterDecl) (params : list Parameter_)
      (contextRequirements : list ContextBinding) (raisedEffects : list string)
      (contracts : list Node) (body : Node)
with Parameter_ :=
  | MkParameter (name typeName : string) (defaultValue : Node) (isVariadic : bool)
with EffectHandlerCase :=
  | MkHandlerCase (effectName effectKey : string) (params : list Parameter_) (body : Node)
with StructMethodDecl :=
  | MkStructMethod (name returnType : string) (params : list Parameter_)
      (contextRequirements : list ContextBinding) (raisedEffects : list string)
      (contracts : list Node) (body : Node)
with InterfaceMethodSig :=
  | MkInterfaceMethod (name returnType : string) (params : list Parameter_)
      (raisedEffects : list string)
with ActorFieldDecl :=
  | MkActorField (name typeName : string) (initializer : Node)
with ActorMethodDecl :=
  | MkActorMethod (kind : ActorMethodKind) (name returnType : string) (params : list Parameter_)
      (contextRequirements : list ContextBinding) (raisedEffects : list string)
      (contracts : list Node) (body : Node).

(** A pointer as a condition. *)
Definition is_null (n : Node) : bool := match n with NullNode => true | _ => false end.

Definition p_name (p : Parameter_) : string := let 'MkParameter n _ _ _ := p in n.
Definition p_typeName (p : Parameter_) : string := let 'MkParameter _ t _ _ := p in t.
Definition defaultValue (p : Parameter_) : Node := let 'MkParameter _ _ d _ := p in d.
Definition isVariadic (p : Parameter_) : bool := let 'MkParameter _ _ _ v := p in v.
(** The constructor sets [hasDefaultValue] from the initializer. *)
Definition hasDefaultValue (p : Parameter_) : bool := negb (is_null (defaultValue p)).

Definition im_name (m : InterfaceMethodSig) : string := let 'MkInterfaceMethod n _ _ _ := m in n.
Definition af_name (f : ActorFieldDecl) : string := let 'MkActorField n _ _ := f in n.
Definition af_initializer (f : ActorFieldDecl) : Node := let 'MkActorField _ _ i := f in i.

(** [ShouldPopStatementResult]: the statements that leave a value. *)
Definition ShouldPopStatementResult (node : Node) : bool :=
  match node with
  | BinaryExprNode _ _ _ | AssignmentNode _ _ _ _ _ _ | CallNode _ _ | GoExprNode _
  | AwaitExprNode _ | IndexNode _ _ | IdentifierNode _ | UnaryExprNode _ _
  | IntegerLiteralNode _ | FloatLiteralNode _ | StringLiteralNode _ | FunctionExprNode _ _ _ _ _
  | MemberAccessNode _ _ | ArrayLiteralNode _ | MapLiteralNode _ _ _ => true
  | _ => false
  end.

(** ** Induction on trees

    The nodes directly below a node, those inside its parameters, handlers and
    methods included, and induction over them. *)

Definition case_children (h : EffectHandlerCase) : list Node :=
  let 'MkHandlerCase _ _ ps body := h in body :: (defaultValue <$> ps).
Definition struct_method_children (m : StructMethodDecl) : list Node :=
  let 'MkStructMethod _ _ ps _ _ cs body := m in body :: cs ++ (defaultValue <$> ps).
Definition signature_children (m : InterfaceMethodSig) : list Node :=
  let 'MkInterfaceMethod _ _ ps _ := m in defaultValue <$> ps.
Definition actor_method_children (m : ActorMethodDecl) : list Node :=
  let 'MkActorMethod _ _ _ ps _ _ cs body := m in body :: cs ++ (defaultValue <$> ps).

Definition node_children (n : Node) : list Node :=
  match n with
  | RawNode _ l | BlockNode l | ArrayLiteralNode l => l
  | ComptimeNode a | UnaryExprNode _ a | GoExprNode a | AwaitExprNode a | MemberAccessNode a _
  | ExportDeclNode a _ | ReturnNode a | PrintNode a | UnsafeNode a | TransactionNode _ a
  | ContractNode _ a | VarDeclNode _ _ a _ _ => [a]
  | BinaryExprNode a _ b | IndexNode a b | WhileStatementNode a b => [a; b]
  | IfStatementNode a b c => [a; b; c]
  | AssignmentNode _ a _ b c d => [a; b; c; d]
  | CallNode a l => a :: l
  | FunctionExprNode _ _ ps _ body => body :: (defaultValue <$> ps)
  | MapLiteralNode _ _ l => l.*1 ++ l.*2
  | IterNode _ a l b => a :: b :: l.*2
  | HandleNode a l => a :: concat (case_children <$> l)
  | StructDeclNode _ _ _ _ l cs => cs ++ concat (struct_method_children <$> l)
  | InterfaceDeclNode _ _ l | EffectDeclNode _ l => concat (signature_children <$> l)
  | ActorDeclNode _ _ fs l => (af_initializer <$> fs) ++ concat (actor_method_children <$> l)
  | FunctionDeclNode _ _ _ _ ps _ _ cs body => body :: cs ++ (defaultValue <$> ps)
  | _ => []
  end.

Definition below (m n : Node) : Prop := m ∈ node_children n.

(** Finish at a child: [m] has become a field, or is in a list of them. *)
Ltac at_child IH :=
  lazymatch goal with
  | H : _ ∈ _ :: _ |- _ => apply elem_of_cons in H as [-> |H]; at_child IH
  | H : _ ∈ [] |- _ => destruct (not_elem_of_nil _ H)
  | H : _ ∈ _ ++ _ |- _ => apply elem_of_app in H as [H|H]; at_child IH
  | H : _ ∈ concat (_ <$> ?l) |- _ =>
      let y := fresh "y" in let IHl := fresh "IHl" in
      induction l as [|y l IHl]; csimpl in H;
        [destruct (not_elem_of_nil _ H)
        |apply elem_of_app in H as [H|H]; [destruct y; csimpl in H; at_child IH|exact (IHl H)]]
  | H : _ ∈ _ <$> ?l |- _ =>
      let y := fresh "y" in let IHl := fresh "IHl" in
      induction l as [|y l IHl]; csimpl in H;
        [destruct (not_elem_of_nil _ H)
        |apply elem_of_cons in H as [-> |H]; [destruct y; exact (IH _)|exact (IHl H)]]
  | H : _ ∈ ?l |- _ =>
      let y := fresh "y" in let IHl := fresh "IHl" in
      induction l as [|y l IHl];
        [destruct (not_elem_of_nil _ H)
        |apply elem_of_cons in H as [-> |H]; [exact (IH _)|exact (IHl H)]]
  | _ => exact (IH _)
  end.

Lemma below_wf : well_founded below.
Proof.
  unfold well_founded. fix IH 1. intros n. constructor. intros m Hm.
  destruct n; unfold below in Hm; cbn [node_children] in Hm; at_child IH.
Qed.

(** The last step of a path. *)
Lemma tc_below_last m n : tc below m n → ∃ k, below k n ∧ rtc below m k.
Proof.
  induction 1 as [m n H|m k n Hm _ (j & Hj & Hkj)]; [by exists m|].
  exists j. split; [done|]. by eapply rtc_l.
Qed.

(** Induction in which the hypothesis is for every node inside, at any depth. *)
Lemma node_tree_ind (P : Node → Prop) :
  (∀ n, (∀ m, tc below m n → P m) → P n) → ∀ n, P n.
Proof.
  intros Hstep n. enough (∀ m, rtc below m n → P m) as H by by apply H.
  induction (below_wf n) as [n _ IH]. intros m Hm. apply Hstep. intros k Hk.
  destruct (tc_below_last k n) as (j & Hj & Hkj); [by eapply tc_rtc_r|]. by eapply IH.
Qed.

(** A node is inside another: a child, or the body of a function that is one. *)
Ltac is_below := unfold below; cbn [node_children]; solve [repeat first [left | right] | set_solver].
Lemma body_inside f r ps e body n : below (FunctionExprNode f r ps e body) n → tc below body n.
Proof. intros H. eapply tc_l; [|by apply tc_once]. is_below. Qed.
Ltac inside := solve [apply tc_once; is_below | eapply body_inside; is_below].

End Ast.
