(* ===== verification/SymbolTable.v ===== *)
(** * The symbol table of a function

    [src/ast/SymbolTable.cpp]: nested scopes of names, each with the number of
    its slot on the value stack, one byte wide.  The theorem
    says that it is a stack of scopes, and when the slots of the visible names
    are distinct. *)

From S2P Require Import Prelude.
From Stdlib Require Import Lia.

Module SymbolTable.

(** [SymbolTable]; the innermost scope and the top of the index stack come
    first.  [struct Symbol] repeats the key. *)
Record t := Mk {
  m_scopes : list (gmap string Z);
  m_indexStack : list Z;
  m_nextIndex : Z;
}.

Definition init : t := Mk [] [] 0.

Definition PushScope (s : t) : t := Mk (∅ :: m_scopes s) (m_nextIndex s :: m_indexStack s) (m_nextIndex s).

Definition PopScope (s : t) : result t :=
  match m_scopes s, m_indexStack s with
  | _ :: scopes, i :: indexes => Ok (Mk scopes indexes i)
  | _, _ => Throw (runtime_error "SymbolTable::PopScope called with no active scope")
  end.

(** [m_nextIndex++] wraps around at 256. *)
Definition Define (name : string) (s : t) : result (Z * t) :=
  match m_scopes s with
  | [] => Throw (runtime_error "SymbolTable::Define called with no active scope")
  | scope :: scopes =>
      let index := m_nextIndex s in
      Ok (index, Mk (<[name := index]> scope :: scopes) (m_indexStack s) ((index + 1) mod 2 ^ 8)%Z)
  end.

Fixpoint resolve (name : string) (scopes : list (gmap string Z)) : option Z :=
  match scopes with
  | [] => None
  | scope :: scopes => match scope !! name with Some i => Some i | None => resolve name scopes end
  end.
Definition Resolve (name : string) (s : t) : option Z := resolve name (m_scopes s).

Definition Reset (s : t) : t := PushScope (Mk [] [] 0).

(** ** The contract

    A stack of scopes, each with the names defined in it, the last one first:
    a name means its last definition, whose slot is the number of the
    definitions before it that are still alive. *)

Inductive call := Push | Pop | Def (name : string).

Definition spec_step (c : call) (scopes : list (list string)) : option (list (list string)) :=
  match c, scopes with
  | Push, _ => Some ([] :: scopes)
  | Pop, _ :: scopes => Some scopes
  | Def name, names :: scopes => Some ((name :: names) :: scopes)
  | _, [] => None
  end.
Fixpoint slot (name : string) (names : list string) : option nat :=
  match names with
  | [] => None
  | x :: names => if decide (x = name) then Some (length names) else slot name names
  end.

Definition step (c : call) (s : t) : result t :=
  match c with
  | Push => Ok (PushScope s)
  | Pop => PopScope s
  | Def name => '(_, s) ← Define name s; Ok s
  end.

Fixpoint spec_run (cs : list call) (scopes : list (list string)) : option (list (list string)) :=
  match cs with [] => Some scopes | c :: cs => scopes ← spec_step c scopes; spec_run cs scopes end.
Fixpoint run (cs : list call) (s : t) : result t :=
  match cs with [] => Ok s | c :: cs => s ← step c s; run cs s end.

(** *** The slots wrap around at 256 *)

Definition byte (n : nat) : Z := Z.of_nat n mod 2 ^ 8.

Lemma byte_succ n : byte (S n) = ((byte n + 1) mod 2 ^ 8)%Z.
Proof. unfold byte. rewrite Nat2Z.inj_succ /Z.succ. by rewrite Z.add_mod_idemp_l. Qed.
Lemma byte_small n : n < 256 → byte n = Z.of_nat n.
Proof. intros Hn. unfold byte. apply Z.mod_small. lia. Qed.

Lemma slot_lt name names p : slot name names = Some p → p < length names.
Proof.
  induction names as [|x names IH]; cbn; [done|]. case_decide; [|intros ?%IH; lia]. intros [= <-]. lia.
Qed.
Lemma slot_inj x y names p : slot x names = Some p → slot y names = Some p → x = y.
Proof.
  induction names as [|z names IH]; cbn; [done|]. repeat case_decide; subst; try done.
  - intros [= <-] Hl%slot_lt. lia.
  - intros Hl%slot_lt [= <-]. lia.
Qed.
Lemma slot_app name names rest : slot name (names ++ rest) =
  match slot name names with Some p => Some (p + length rest) | None => slot name rest end.
Proof. induction names as [|x names IH]; cbn; [done|]. rewrite length_app. by case_decide. Qed.

(** A scope whose names lie above [base] definitions, and the whole table. *)
Definition scope_matches (base : nat) (names : list string) (scope : gmap string Z) : Prop :=
  ∀ x, scope !! x = (λ p, byte (p + base)) <$> slot x names.

Fixpoint matches (scopes : list (list string)) (maps : list (gmap string Z)) (indexes : list Z) : Prop :=
  match scopes, maps, indexes with
  | [], [], [] => True
  | names :: scopes, scope :: maps, i :: indexes =>
      let base := length (concat scopes) in
      scope_matches base names scope ∧ i = byte base ∧ matches scopes maps indexes
  | _, _, _ => False
  end.

Definition refines (scopes : list (list string)) (s : t) : Prop :=
  matches scopes (m_scopes s) (m_indexStack s) ∧ m_nextIndex s = byte (length (concat scopes)).

Lemma resolve_matches x scopes : ∀ maps indexes, matches scopes maps indexes →
  resolve x maps = byte <$> slot x (concat scopes).
Proof.
  induction scopes as [|names scopes IH]; intros [|scope maps] [|i indexes] H; try done.
  destruct H as (Hs & _ & H). cbn. rewrite slot_app Hs. destruct (slot x names); [done|]. cbn. by apply (IH _ indexes).
Qed.
Lemma Define_refines x names scopes s : refines (names :: scopes) s →
  ∃ s', Define x s = Ok (m_nextIndex s, s') ∧ refines ((x :: names) :: scopes) s'.
Proof.
  destruct s as [[|scope maps] [|i indexes] next]; intros [H Hn]; try done. destruct H as (Hs & Hi & H).
  eexists. split; [done|]. cbn in Hn |- *. split; [split; [|done]|]; cbn.
  - intros y. cbn. destruct (decide (x = y)) as [->|Hne].
    + by rewrite lookup_insert_eq Hn length_app.
    + by rewrite lookup_insert_ne // Hs.
  - by rewrite byte_succ -Hn.
Qed.
Lemma step_refines c scopes s : refines scopes s →
  match spec_step c scopes with
  | Some scopes' => ∃ s', step c s = Ok s' ∧ refines scopes' s'
  | None => ∃ e, step c s = Throw e
  end.
Proof.
  intros Href. destruct c as [| |x].
  - eexists. split; [done|]. destruct Href as [H Hn]. split; [|done]. by split_and!.
  - destruct Href as [H Hn]. destruct scopes, s as [[|scope maps] [|i indexes] next]; try done; [by eexists|].
    destruct H as (_ & -> & H). eexists. split; [done|]. by split.
  - destruct scopes as [|names scopes].
    + destruct Href as [H _]. destruct s as [[|] [|] ?]; try done. by eexists.
    + destruct (Define_refines x _ _ _ Href) as (s' & Hd & Href'). exists s'. split; [|done].
      unfold step. by rewrite Hd.
Qed.
Lemma Reset_refines s : refines [[]] (Reset s).
Proof. by split_and!. Qed.

Lemma run_refines cs : ∀ scopes s, refines scopes s →
  match spec_run cs scopes with
  | Some scopes' => ∃ s', run cs s = Ok s' ∧ refines scopes' s'
  | None => ∃ e, run cs s = Throw e
  end.
Proof.
  induction cs as [|c cs IH]; intros scopes s H; cbn; [by eexists|].
  pose proof (step_refines c _ _ H) as Hc. destruct (spec_step c scopes) as [scopes'|]; cbn.
  - destruct Hc as (s' & Hc & H'). unfold mbind, result_bind. rewrite Hc. by apply IH.
  - destruct Hc as [e Hc]. exists e. unfold mbind, result_bind. by rewrite Hc.
Qed.

(** C40. After [Reset], any sequence of calls behaves like the stack of scopes: it
    fails exactly when a scope is missing, and a name resolves to the number
    of definitions before its own that are still alive, modulo 256.  While at
    most 256 definitions are alive, different names have different slots. *)
Theorem symbol_table_refines cs s :
  match spec_run cs [[]] with
  | Some scopes => ∃ s', run cs (Reset s) = Ok s' ∧
      (∀ x, Resolve x s' = byte <$> slot x (concat scopes)) ∧
      (length (concat scopes) ≤ 256 → ∀ x y i, Resolve x s' = Some i → Resolve y s' = Some i → x = y)
  | None => ∃ e, run cs (Reset s) = Throw e
  end.
Proof.
  pose proof (run_refines cs _ _ (Reset_refines s)) as H. destruct (spec_run cs [[]]) as [scopes|]; [|done].
  destruct H as (s' & Hrun & H & _). exists s'. split; [done|].
  assert (Hr : ∀ x, Resolve x s' = byte <$> slot x (concat scopes)) by (intros x; by eapply resolve_matches).
  split; [done|]. intros Hlen x y i. rewrite !Hr.
  destruct (slot x _) as [p|] eqn:Hx; [|done]. destruct (slot y _) as [q|] eqn:Hy; [|done]. cbn.
  pose proof (slot_lt _ _ _ Hx). pose proof (slot_lt _ _ _ Hy). rewrite !byte_small; [|lia..].
  intros [= <-] [= Heq%Nat2Z.inj]. subst q. by eapply slot_inj.
Qed.

(** Two names of 257 share a slot. *)
Example slots_wrap :
  (λ s, (Resolve "a" s, Resolve "b" s)) <$> run (Def "a" :: replicate 255 (Def "x") ++ [Def "b"]) (Reset init)
  = Ok (Some 0%Z, Some 0%Z).
Proof. vm_compute. reflexivity. Qed.

End SymbolTable.
