(* ===== verification/TypeNames.v ===== *)
(** * Names of types

    The string functions on names of types: [src/ast/common/SemanticAnalyzerSupport.h]
    ([Trim], [SplitTopLevel], [SplitGenericName], [SubstituteTypeString]) and those of
    the bytecode generator ([NormalizeImportedTypeName], [GenericBaseName],
    [DefaultImportAlias], [InstantiateGenericTypeName], [EffectNameFromKey]). *)

From S2P Require Import Prelude Grammar.
From Stdlib Require Import Lia.

Module TypeNames.

(** ** [std::string] *)

Section strings.
Implicit Types text : string.

(** [text.find(pattern)], [text.substr(pos)], [text.substr(pos, n)] *)
Definition find_string (pattern text : string) : option nat := String.index 0 pattern text.
Definition substr_from (pos : nat) text : string := String.substring pos (String.length text - pos) text.
Definition substr (pos n : nat) text : string := String.substring pos n text.
Definition front text : option ascii := String.get 0 text.
Definition back text : option ascii := String.get (String.length text - 1) text.

(** [text.rfind(c)] *)
Fixpoint rfind (c : ascii) text : option nat :=
  match text with
  | EmptyString => None
  | String a text =>
      match rfind c text with
      | Some i => Some (S i)
      | None => if decide (a = c) then Some 0 else None
      end
  end.

Fixpoint drop_space text : string :=
  match text with
  | String a rest => if RulesBuilder.isspace a then drop_space rest else text
  | EmptyString => EmptyString
  end.
Definition Trim (value : string) : string :=
  String.rev (drop_space (String.rev (drop_space value))).

(** The loop of [SplitTopLevel] over what is left of the text: the three
    depths, and the characters of the current part, the last one first. *)
Fixpoint split_loop (delimiter : ascii) (angles brackets parens : Z) (part : string) text : list string :=
  match text with
  | EmptyString => [Trim (String.rev part)]
  | String c text =>
      let angles := if decide (c = "<"%char) then (angles + 1)%Z
                    else if decide (c = ">"%char) then (angles - 1)%Z else angles in
      let brackets := if decide (c = "["%char) then (brackets + 1)%Z
                      else if decide (c = "]"%char) then (brackets - 1)%Z else brackets in
      let parens := if decide (c = "("%char) then (parens + 1)%Z
                    else if decide (c = ")"%char) then (parens - 1)%Z else parens in
      if bool_decide (c = delimiter) && (angles =? 0)%Z && (brackets =? 0)%Z && (parens =? 0)%Z
      then Trim (String.rev part) :: split_loop delimiter angles brackets parens "" text
      else split_loop delimiter angles brackets parens (String c part) text
  end.
Definition SplitTopLevel text (delimiter : ascii) : list string := split_loop delimiter 0 0 0 "" text.

(** The loop of [SplitGenericName] from the first angle bracket: [false] when
    the brackets close before the last character. *)
Fixpoint closes_at_end (depth : Z) text : bool :=
  match text with
  | EmptyString => true
  | String c text =>
      if decide (c = "<"%char) then closes_at_end (depth + 1) text
      else if decide (c = ">"%char) then
        let depth := (depth - 1)%Z in
        if (depth =? 0)%Z && negb (bool_decide (text = "")) then false else closes_at_end depth text
      else closes_at_end depth text
  end.

(** The name and the arguments, or none. *)
Definition SplitGenericName text : option (string * list string) :=
  match find_string "<" text with
  | None => None
  | Some anglePos =>
      if decide (back text ≠ Some ">"%char) then None
      else if closes_at_end 0 (substr_from anglePos text)
      then Some (Trim (substr 0 anglePos text),
                 SplitTopLevel (substr (anglePos + 1) (String.length text - anglePos - 2) text) ","%char)
      else None
  end.

(** [result += ","] between the parts. *)
Fixpoint join_comma (l : list string) : string :=
  match l with
  | [] => ""
  | [x] => x
  | x :: l => x +:+ "," +:+ join_comma l
  end.
End strings.

(** ** Substitution in a type *)

Section all.
Context {A B : Type} (f : A → result B).
Fixpoint all_results (l : list A) : result (list B) :=
  match l with
  | [] => Ok []
  | x :: l => y ← f x; ys ← all_results l; Ok (y :: ys)
  end.
End all.

Fixpoint substitute (fuel : nat) (replacements : gmap string string) (text : string) : result string :=
  match fuel with
  | 0 => Diverge
  | S fuel =>
      let recurse := substitute fuel replacements in
      match replacements !! text with
      | Some replacement => Ok replacement
      | None =>
          if (String.prefix "ptr<" text || String.prefix "ref<" text)
             && bool_decide (back text = Some ">"%char) then
            inner ← recurse (substr 4 (String.length text - 5) text);
            Ok (substr 0 4 text +:+ inner +:+ ">")
          else if (2 <? String.length text) && bool_decide (front text = Some "["%char)
                  && bool_decide (back text = Some "]"%char) then
            inner ← recurse (substr 1 (String.length text - 2) text);
            Ok ("[" +:+ inner +:+ "]")
          else
            match find_string "->" text with
            | Some arrowPos =>
                a ← recurse (substr 0 arrowPos text);
                b ← recurse (substr_from (arrowPos + 2) text);
                Ok (a +:+ "->" +:+ b)
            | None =>
                match SplitGenericName text with
                | Some (baseName, args) =>
                    args ← all_results recurse args;
                    Ok (baseName +:+ "<" +:+ join_comma args +:+ ">")
                | None => Ok text
                end
            end
      end
  end.
(** Every call is on a shorter text. *)
Definition SubstituteTypeString (text : string) (replacements : gmap string string) : result string :=
  substitute (S (String.length text)) replacements text.

(** ** Imported names *)

Fixpoint normalize (fuel : nat) (importAliases : gmap string string) (typeName : string) : result string :=
  match fuel with
  | 0 => Diverge
  | S fuel =>
      let recurse := normalize fuel importAliases in
      match SplitGenericName typeName with
      | Some (baseName, typeArgs) =>
          base ← recurse baseName;
          args ← all_results recurse typeArgs;
          Ok (base +:+ "<" +:+ join_comma args +:+ ">")
      | None =>
          match find_string "." typeName with
          | None => Ok typeName
          | Some dot =>
              match importAliases !! substr 0 dot typeName with
              | Some target => Ok (target +:+ substr_from dot typeName)
              | None => Ok typeName
              end
          end
      end
  end.
Definition NormalizeImportedTypeName (importAliases : gmap string string) (typeName : string) : result string :=
  normalize (S (String.length typeName)) importAliases typeName.

Definition GenericBaseName (name : string) : string :=
  match find_string "<" name with Some pos => substr 0 pos name | None => name end.

Definition EffectNameFromKey (effectKey : string) : string :=
  match rfind "."%char effectKey with Some pos => substr 0 pos effectKey | None => effectKey end.

Definition DefaultImportAlias (qualifiedName : string) : string :=
  match rfind "."%char qualifiedName with
  | Some pos => substr_from (pos + 1) qualifiedName
  | None => qualifiedName
  end.

(** The type arguments of a generic name by parameter: the loop of assignments
    of [InstantiateGenericTypeName] and [EnsureStructMetadata]. *)
Definition replacements_of (params args : list string) : gmap string string :=
  foldl (λ m kv, <[kv.1 := kv.2]> m) ∅ (zip params args).

Definition InstantiateGenericTypeName (structTypeParams : gmap string (list string))
    (ownerType templateType : string) : result string :=
  match SplitGenericName ownerType with
  | None => Ok templateType
  | Some (baseName, typeArgs) =>
      match structTypeParams !! baseName with
      | None => Ok templateType
      | Some params =>
          if decide (length params ≠ length typeArgs) then Ok templateType
          else SubstituteTypeString templateType (replacements_of params typeArgs)
      end
  end.

Example split_example :
  SplitGenericName "Pair<List<int>, fn(a,b)>" = Some ("Pair", ["List<int>"; "fn(a,b)"]).
Proof. reflexivity. Qed.
Example substitute_example :
  SubstituteTypeString "Box<ref<T>,[T]>" {[ "T" := "int" ]} = Ok "Box<ref<int>,[int]>".
Proof. reflexivity. Qed.
Example normalize_example :
  NormalizeImportedTypeName {[ "m" := "app.model" ]} "m.Box<m.Item, int>" = Ok "app.model.Box<app.model.Item,int>".
Proof. reflexivity. Qed.

End TypeNames.
