(* ===== verification/AstBuilder.v ===== *)
(** * The builder of the syntax tree

    [src/ast/builder/] and [src/ast/common/ASTBuilderSupport.h]: the raw tree of
    the parser becomes the tree of [Ast].  A child is moved out of the raw tree
    at most once, and none is read after that, with one exception which
    [after_free] stands for; so the raw tree is a value here. *)

From S2P Require Import Prelude Value Reader Token Lexer Grammar TableBuilder Parser Ast TypeNames Serialize.
From Stdlib Require Import SpecFloat.

Module AstBuilder.
Import Value Ast TypeNames.

(** The tree as the parser hands it over. *)
Fixpoint of_tree (n : Parser.Node) : Node :=
  match n with
  | Parser.LeafNode type v => LeafNode type (String.string_of_list_ascii v)
  | Parser.RawNode rule children => RawNode rule (List.map of_tree children)
  end.

(** ** Access to children *)

(** [children[i]] *)
Definition child {A} (i : nat) (l : list A) : result A :=
  match l !! i with Some x => Ok x | None => Throw (undefined_behaviour "vector index out of range") end.
(** [dynamic_cast<LeafNode*>(p)->value] *)
Definition leaf_value (n : Node) : result string :=
  match n with LeafNode _ v => Ok v | _ => Throw (undefined_behaviour "null pointer") end.
(** [dynamic_cast<RawNode*>(p)] *)
Definition as_raw (n : Node) : Node := match n with RawNode _ _ => n | _ => NullNode end.
(** The result of a child, and that of the last one; nothing when there is
    no such child. *)
Definition opt_child {A} (i : nat) (l : list (result (list A))) : result (list A) := default (Ok []) (l !! i).
Definition last_child {A} (l : list (result (list A))) : result (list A) := default (Ok []) (last l).

Fixpoint mapM_result {A B} (f : A → result B) (l : list A) : result (list B) :=
  match l with [] => Ok [] | x :: l => y ← f x; ys ← mapM_result f l; Ok (y :: ys) end.
Fixpoint fold_result {S A} (f : S → A → result S) (s : S) (l : list A) : result S :=
  match l with [] => Ok s | x :: l => s ← f s x; fold_result f s l end.

(** [name = name.empty() ? text : name] *)
Definition first_name (name text : string) : string := if decide (name = "") then text else name.

(** The two shapes of list rules: an element and a tail; a separator, an
    element and a tail. *)
Definition element_tail {A} (l : list (result (list A))) : result (list A) :=
  x ← child 0 l; y ← x; z ← opt_child 1 l; Ok (y ++ z).
Definition separated_tail {A} (l : list (result (list A))) : result (list A) :=
  y ← opt_child 1 l; z ← opt_child 2 l; Ok (y ++ z).

(** ** Types *)

(** [ExtractQualifiedId] *)
Fixpoint first_nonempty (l : list string) : string :=
  match l with [] => "" | x :: l => if decide (x = "") then first_nonempty l else x end.
Fixpoint ExtractQualifiedId (node : Node) : string :=
  match node with
  | LeafNode _ v => v
  | RawNode rule children =>
      let ids := List.map ExtractQualifiedId children in
      if decide (rule = "qualified_id" ∧ 2 <= length children) then nth 0 ids "" +:+ nth 1 ids ""
      else if decide (rule = "qualified_id_tail") then
        (if 2 <=? length children then "." +:+ nth 1 ids "" else "") +:+ nth 2 ids ""
      else first_nonempty ids
  | _ => ""
  end.

Definition has_comma (s : string) : bool := bool_decide (is_Some (find_string "," s)).
Definition parenthesized (s : string) : bool :=
  (2 <=? String.length s) && bool_decide (front s = Some "("%char) && bool_decide (back s = Some ")"%char).
Definition is_raw (rule : string) (n : Node) : bool :=
  match n with RawNode r _ => bool_decide (r = rule) | _ => false end.

(** The case [base_dataType] of [ExtractType], with at least one child, whose
    types are [types]. *)
Definition base_type (children : list Node) (types : list (result string)) : result string :=
  let type_at i := t ← child i types; t in
  let with_args name := if 2 <=? length children then args ← type_at 1; Ok (name +:+ args) else Ok name in
  let first := nth 0 children NullNode in
  if is_raw "qualified_id" first then with_args (ExtractQualifiedId first) else
  match first with
  | LeafNode type v =>
      if decide (v = "[") then t ← type_at 1; Ok ("[" +:+ t +:+ "]")
      else if decide (v = "map" ∧ 4 <= length children) then
        k ← type_at 2; t ← type_at 4; Ok ("map<" +:+ k +:+ "," +:+ t +:+ ">")
      else if decide ((v = "ptr" ∨ v = "ref") ∧ 3 <= length children) then
        t ← type_at 2; Ok (v +:+ "<" +:+ t +:+ ">")
      else if decide (type = "identifier") then with_args v
      else if decide (v = "(" ∧ 2 <= length children) then
        t ← type_at 1; Ok (if has_comma t then "(" +:+ t +:+ ")" else t)
      else Ok v
  | _ => Ok "auto"
  end.

(** A function type; its result type is the second child of the tail. *)
Definition arrow_type (tail : Node) (left : string) (target : result string) : result string :=
  match tail with
  | RawNode _ (_ :: _ :: _) =>
      t ← target;
      Ok (if has_comma left && negb (parenthesized left) then "(" +:+ left +:+ ")->" +:+ t else left +:+ "->" +:+ t)
  | _ => Ok left
  end.

(** A separator and the last type, unless that is empty. *)
Definition join_type (separator first : string) (more : option (result string)) : result string :=
  match more with
  | Some t => t ← t; Ok (if decide (t = "") then first else first +:+ separator +:+ t)
  | None => Ok first
  end.

Definition type_rule (rule : string) (children : list Node) (types : list (result string))
    (arrow : result string) : result string :=
  let type_at i := t ← child i types; t in
  let n := length children in
  if decide (rule = "type_guide_opt" ∧ 2 <= n) then type_at 1
  else if decide (rule = "dataType") then
    match children with
    | [] => Ok "auto"
    | [_] => type_at 0
    | _ :: tail :: _ => left ← type_at 0; arrow_type tail left arrow
    end
  else if decide (rule = "base_dataType" ∧ 1 <= n) then base_type children types
  else if decide (rule = "type_args_opt") then
    if 2 <=? n then t ← type_at 1; Ok ("<" +:+ t +:+ ">") else Ok ""
  else if decide (rule = "dataType_list" ∨ rule = "dataType_list_tail") then
    if n =? 0 then Ok "" else
    let offset := if decide (rule = "dataType_list") then 0 else 1 in
    first ← type_at offset;
    join_type "," first (if offset + 1 <? n then last types else None)
  else if decide (rule = "type_constraint") then
    if n =? 0 then Ok "" else first ← type_at 0; join_type "+" first (types !! 1)
  else if decide (rule = "type_constraint_tail") then
    if n <? 2 then Ok "" else first ← type_at 1; join_type "+" first (types !! 2)
  else Ok "auto".

(** [ExtractType] *)
Fixpoint ExtractType (node : Node) : result string :=
  match node with
  | LeafNode _ v => Ok v
  | RawNode rule children =>
      let arrow := match children with
                   | _ :: RawNode _ (_ :: target :: _) :: _ => ExtractType target
                   | _ => Ok ""
                   end in
      type_rule rule children (List.map ExtractType children) arrow
  | _ => Ok "auto"
  end.

(** ** Literals *)

Definition digit (c : ascii) : option Z :=
  let n := nat_of_ascii c in if (48 <=? n) && (n <=? 57) then Some (Z.of_nat (n - 48)) else None.
(** The digits at the front of a text, and what follows. *)
Fixpoint digits (text : string) : list Z * string :=
  match text with
  | String c rest => match digit c with
                     | Some d => let '(ds, rest) := digits rest in (d :: ds, rest)
                     | None => ([], text)
                     end
  | EmptyString => ([], text)
  end.
Definition decimal (ds : list Z) : Z := fold_left (λ n d, (10 * n + d)%Z) ds 0%Z.
Definition sign (text : string) : bool * string :=
  match text with
  | String c rest => if decide (c = "-"%char) then (true, rest) else if decide (c = "+"%char) then (false, rest) else (false, text)
  | EmptyString => (false, text)
  end.

(** [std::stoll] *)
Definition stoll (text : string) : result Z :=
  let '(negative, text) := sign (drop_space text) in
  match digits text with
  | ([], _) => Throw (invalid_argument "stoll")
  | (ds, _) =>
      let z := if negative then (- decimal ds)%Z else decimal ds in
      if int64_ok z then Ok z else Throw (out_of_range "stoll")
  end.

(** The double next to [n / d]. *)
Definition ratio (negative : bool) (n d : positive) : spec_float :=
  let '(mz, ez, lz) := SFdiv_core_binary 53 1024 (Zpos n) 0 (Zpos d) 0 in
  binary_round_aux 53 1024 negative mz ez lz.
(** Below the normal numbers. *)
Definition tiny (x : spec_float) : bool :=
  match x with S754_zero _ => true | S754_finite _ m _ => (Zdigits2 (Zpos m) <? 53)%Z | _ => false end.
(** [n / d] is [x] exactly. *)
Definition exactly (n d : positive) (x : spec_float) : bool :=
  match x with
  | S754_finite _ m e => if (0 <=? e)%Z then (Zpos n =? Zpos m * 2 ^ e * Zpos d)%Z
                         else (Zpos n * 2 ^ (- e) =? Zpos m * Zpos d)%Z
  | _ => false
  end.

(** [std::stod], of digits with a point and no exponent, which is what the lexer
    makes a [float_literal] of. *)
Definition stod (text : string) : result double :=
  let '(negative, text) := sign (drop_space text) in
  let '(ds, rest) := digits text in
  let fs := match rest with
            | String c rest => if decide (c = "."%char) then (digits rest).1 else []
            | EmptyString => []
            end in
  if decide (ds ++ fs = []) then Throw (invalid_argument "stod") else
  match decimal (ds ++ fs), (10 ^ Z.of_nat (length fs))%Z with
  | Zpos n, Zpos d =>
      let x := ratio negative n d in
      match x with
      | S754_infinity _ => Throw (out_of_range "stod")
      | _ => if tiny x && negb (exactly n d x) then Throw (out_of_range "stod") else Ok x
      end
  | _, _ => Ok (S754_zero negative)
  end.

(** [UnescapeStringLiteral] *)
Definition escaped (c : ascii) : ascii :=
  if decide (c = "n"%char) then ascii_of_nat 10 else if decide (c = "r"%char) then ascii_of_nat 13
  else if decide (c = "t"%char) then ascii_of_nat 9 else c.
Fixpoint UnescapeStringLiteral (value : string) : string :=
  match value with
  | String "\"%char (String c rest) => String (escaped c) (UnescapeStringLiteral rest)
  | String c rest => String c (UnescapeStringLiteral rest)
  | EmptyString => EmptyString
  end.

(** [SimplifyLeaf] *)
Definition SimplifyLeaf (type value : string) : result Node :=
  if decide (type = "integer_literal") then IntegerLiteralNode <$> stoll value
  else if decide (type = "float_literal") then FloatLiteralNode <$> stod value
  else if decide (type = "string_literal") then
    Ok (StringLiteralNode (if 2 <=? String.length value
                           then UnescapeStringLiteral (substr 1 (String.length value - 2) value) else value))
  else if decide (type = "identifier") then Ok (IdentifierNode value)
  else Ok (LeafNode type value).

(** Numbers as [std::stod] and [std::stoll] read them. *)
Example stod_tenth : stod "0.1" = Ok (S754_finite false 7205759403792794 (-56)).
Proof. vm_compute. reflexivity. Qed.
Example stoll_limits : stoll "9223372036854775807" = Ok (2 ^ 63 - 1)%Z ∧ stoll "9223372036854775808" = Throw (out_of_range "stoll").
Proof. vm_compute. done. Qed.

(** ** Lists of names *)

(** The loop over the constraints of a type parameter, separated by [+]. *)
Fixpoint split_plus (part : string) (text : string) : list string :=
  match text with
  | EmptyString => [String.rev part]
  | String c text => if decide (c = "+"%char) then String.rev part :: split_plus "" text else split_plus (String c part) text
  end.
Definition constraints_of (text : string) : list string := filter (λ c, c ≠ ""%string) (split_plus "" text).

Definition identifier_of (n : Node) : option string :=
  match n with LeafNode type v => if decide (type = "identifier") then Some v else None | _ => None end.

(** [if (leaf->type == "identifier" && name.empty()) name = leaf->value] *)
Definition take_identifier (name : string) (n : Node) : string :=
  match identifier_of n with Some v => first_name name v | None => name end.

Definition type_param_step (p : TypeParameterDecl) (n : Node) : result TypeParameterDecl :=
  match n with
  | LeafNode _ _ => Ok (MkTypeParameter (take_identifier (tp_name p) n) (constraints p))
  | RawNode rule children =>
      if decide (rule = "type_constraint_opt" ∧ 2 <= length children) then
        t ← child 1 children; text ← ExtractType t;
        Ok (MkTypeParameter (tp_name p) (constraints p ++ constraints_of text))
      else Ok p
  | _ => Ok p
  end.

(** [FlattenTypeParams] *)
Fixpoint FlattenTypeParams (raw : Node) : result (list TypeParameterDecl) :=
  match raw with
  | RawNode rule children =>
      let subs := List.map FlattenTypeParams children in
      if decide (rule = "type_params_opt") then opt_child 1 subs
      else if decide (rule = "type_params") then x ← opt_child 0 subs; y ← opt_child 1 subs; Ok (x ++ y)
      else if decide (rule = "type_params_tail") then separated_tail subs
      else if decide (rule = "type_param") then
        p ← fold_result type_param_step (MkTypeParameter "" []) children;
        Ok (if decide (tp_name p = "") then [] else [p])
      else Ok []
  | _ => Ok []
  end.

Definition context_step (b : ContextBinding) (n : Node) : result ContextBinding :=
  match n with
  | LeafNode _ _ => Ok (MkContextBinding (take_identifier (cb_name b) n) (cb_typeName b))
  | RawNode rule _ =>
      if decide (rule = "dataType") then t ← ExtractType n; Ok (MkContextBinding (cb_name b) t) else Ok b
  | _ => Ok b
  end.

(** [FlattenContextBindings] *)
Fixpoint FlattenContextBindings (raw : Node) : result (list ContextBinding) :=
  match raw with
  | RawNode rule children =>
      let subs := List.map FlattenContextBindings children in
      if decide (rule = "context_req_opt") then opt_child 2 subs
      else if decide (rule = "context_binding_list") then x ← opt_child 0 subs; y ← opt_child 1 subs; Ok (x ++ y)
      else if decide (rule = "context_binding_list_tail") then separated_tail subs
      else if decide (rule = "context_binding") then
        b ← fold_result context_step (MkContextBinding "" "") children;
        Ok (if decide (cb_name b = "") then [] else [b])
      else Ok []
  | _ => Ok []
  end.

(** [FlattenRaisedEffects] *)
Fixpoint FlattenRaisedEffects (raw : Node) : result (list string) :=
  match raw with
  | RawNode rule children =>
      let subs := List.map FlattenRaisedEffects children in
      if decide (rule = "effect_spec_opt") then opt_child 2 subs
      else if decide (rule = "effect_type_list") then x ← opt_child 0 subs; y ← opt_child 1 subs; Ok (x ++ y)
      else if decide (rule = "effect_type_list_tail") then separated_tail subs
      else if decide (rule = "effect_type") then
        Ok (match omap identifier_of children with v :: _ => [v] | [] => [] end)
      else Ok []
  | _ => Ok []
  end.

(** [FlattenQualifiedTypeList] *)
Fixpoint FlattenQualifiedTypeList (raw : Node) : result (list string) :=
  match raw with
  | RawNode rule children =>
      let subs := List.map FlattenQualifiedTypeList children in
      let type_at i := n ← child i children; t ← ExtractType n; Ok [t] in
      if decide (children = []) then Ok []
      else if decide (rule = "implements_opt") then opt_child 1 subs
      else if decide (rule = "interface_type_list") then x ← type_at 0; y ← opt_child 1 subs; Ok (x ++ y)
      else if decide (rule = "interface_type_list_tail") then
        x ← (if 1 <? length children then type_at 1 else Ok []); y ← opt_child 2 subs; Ok (x ++ y)
      else Ok []
  | _ => Ok []
  end.

(** ** Fields and variants *)

Definition field_step (f : StructField) (n : Node) : result StructField :=
  match n with
  | LeafNode _ _ => Ok (MkStructField (take_identifier (sf_name f) n) (sf_typeName f))
  | RawNode rule _ =>
      if decide (rule = "dataType") then t ← ExtractType n; Ok (MkStructField (sf_name f) t) else Ok f
  | _ => Ok f
  end.

(** [FlattenStructFields] *)
Fixpoint FlattenStructFields (raw : Node) : result (list StructField) :=
  match raw with
  | RawNode rule children =>
      if decide (rule = "EPSILON" ∨ children = []) then Ok []
      else if decide (rule = "field_decl_list") then element_tail (List.map FlattenStructFields children)
      else if decide (rule = "field_decl") then
        f ← fold_result field_step (MkStructField "" "auto") children; Ok [f]
      else Ok []
  | _ => Ok []
  end.

(** The lambda [flattenTypeList] of [FlattenEnumVariants] *)
Fixpoint type_list (n : Node) : result (list string) :=
  match n with
  | RawNode rule children =>
      let subs := List.map type_list children in
      if decide (children = []) then Ok []
      else if decide (rule = "dataType_list" ∨ rule = "dataType_list_tail") then
        let offset := if decide (rule = "dataType_list") then 0 else 1 in
        x ← match children !! offset with Some c => t ← ExtractType c; Ok [t] | None => Ok [] end;
        y ← (if offset + 1 <? length children then last_child subs else Ok []);
        Ok (x ++ y)
      else Ok []
  | _ => Ok []
  end.
Definition variant_step (v : EnumVariantDecl) (n : Node) : result EnumVariantDecl :=
  match n with
  | LeafNode _ _ => Ok (MkEnumVariant (take_identifier (ev_name v) n) (argTypes v))
  | RawNode rule children =>
      if decide (rule = "variant_args_opt" ∧ 2 <= length children) then
        c ← child 1 children; ts ← type_list c; Ok (MkEnumVariant (ev_name v) (argTypes v ++ ts))
      else Ok v
  | _ => Ok v
  end.

(** [FlattenEnumVariants] *)
Fixpoint FlattenEnumVariants (raw : Node) : result (list EnumVariantDecl) :=
  match raw with
  | RawNode rule children =>
      let subs := List.map FlattenEnumVariants children in
      if decide (children = []) then Ok []
      else if decide (rule = "variant_list") then element_tail subs
      else if decide (rule = "variant_list_tail") then separated_tail subs
      else if decide (rule = "variant_decl") then
        v ← fold_result variant_step (MkEnumVariant "" []) children; Ok [v]
      else Ok []
  | _ => Ok []
  end.

(** ** Simplification *)

Section simplify.
(** [Simplify] of the trees below. *)
Context (simplify : Node → result Node).
(** What reading the name of a node gives after the node was destroyed. *)
Context (after_free : string → result string).

Definition simplify_child (i : nat) (children : list Node) : result Node := c ← child i children; simplify c.

(** *** Parameters, arguments, contracts *)

(** The expression of an [assign_expr_opt] that is not empty. *)
Definition initializer (n : Node) : option Node :=
  match n with
  | RawNode rule (_ :: e :: _) => if decide (rule = "assign_expr_opt") then Some e else None
  | _ => None
  end.

(** The parameter in a list of parameters; [None] where [FlattenParams]
    returns. *)
Definition parameter (n : Node) : result (option (list Parameter_)) :=
  let p := match n with RawNode rule (c :: _) => if decide (rule = "parameter") then c else n | _ => n end in
  match p with
  | RawNode rule children =>
      let isVariadic := bool_decide (rule = "variadic_param") in
      match children !! (if isVariadic then 1 else 0) with
      | Some (LeafNode _ name) =>
          type ← (if isVariadic then c ← child 3 children; ExtractType (as_raw c)
                  else match children !! 1 with Some c => ExtractType (as_raw c) | None => Ok "auto" end);
          init ← (if isVariadic then Ok NullNode else
                  match children !! 2 ≫= initializer with Some e => simplify e | None => Ok NullNode end);
          Ok (Some [MkParameter name type init isVariadic])
      | _ => Ok None
      end
  | _ => Ok None
  end.

(** [FlattenParams] *)
Fixpoint FlattenParams (raw : Node) : result (list Parameter_) :=
  match raw with
  | RawNode rule children =>
      let subs := List.map FlattenParams children in
      if decide (rule = "EPSILON") then Ok []
      else if decide (rule = "param_list_opt" ∧ children ≠ []) then opt_child 0 subs
      else if decide (rule = "param_list" ∨ rule = "param_list_tail") then
        let offset := if decide (rule = "param_list") then 0 else 1 in
        p ← match children !! offset with Some (RawNode _ _ as p) => parameter p | _ => Ok (Some []) end;
        match p with
        | None => Ok []
        | Some ps => rest ← (if offset + 1 <? length children then last_child subs else Ok []); Ok (ps ++ rest)
        end
      else Ok []
  | _ => Ok []
  end.

(** [FlattenArgs] *)
Fixpoint FlattenArgs (raw : Node) : result (list Node) :=
  match raw with
  | RawNode rule children =>
      let subs := List.map FlattenArgs children in
      if decide (rule = "EPSILON") then Ok []
      else if decide (rule = "arg_list_opt" ∧ children ≠ []) then opt_child 0 subs
      else if decide (rule = "arg_list" ∨ rule = "arg_list_tail") then
        let offset := if decide (rule = "arg_list") then 0 else 1 in
        x ← match children !! offset with Some c => e ← simplify c; Ok [e] | None => Ok [] end;
        rest ← (if offset + 1 <? length children then last_child subs else Ok []);
        Ok (x ++ rest)
      else Ok []
  | _ => Ok []
  end.

Definition contract_kind (name : string) : ContractKind :=
  if decide (name = "ensures") then Ensures else if decide (name = "invariant") then Invariant else Requires.

(** [FlattenContracts] *)
Fixpoint FlattenContracts (raw : Node) : result (list Node) :=
  match raw with
  | RawNode rule children =>
      if decide (children = []) then Ok []
      else if decide (rule = "contract_list") then element_tail (List.map FlattenContracts children)
      else if decide (rule = "contract") then
        match children with
        | LeafNode _ kind :: _ :: e :: _ => e ← simplify e; Ok [ContractNode (contract_kind kind) e]
        | _ => Ok []
        end
      else Ok []
  | _ => Ok []
  end.

(** *** Functions and methods *)

(** The locals of [SimplifyFuncDecl], [SimplifyStructMethod] and
    [SimplifyActorMethod]; [flag] is [isComptime] or the kind. *)
Record parts := MkParts {
  p_name : string;
  p_flag : bool;
  p_typeParams : list TypeParameterDecl;
  p_params : list Parameter_;
  p_contexts : list ContextBinding;
  p_effects : list string;
  p_contracts : list Node;
  p_body : Node;
  p_retType : string;
}.
Definition no_parts (retType : string) : parts := MkParts "" false [] [] [] [] [] NullNode retType.
Definition set_name name p := MkParts name (p_flag p) (p_typeParams p) (p_params p) (p_contexts p) (p_effects p) (p_contracts p) (p_body p) (p_retType p).
Definition set_flag p := MkParts (p_name p) true (p_typeParams p) (p_params p) (p_contexts p) (p_effects p) (p_contracts p) (p_body p) (p_retType p).
Definition add_typeParams l p := MkParts (p_name p) (p_flag p) (p_typeParams p ++ l) (p_params p) (p_contexts p) (p_effects p) (p_contracts p) (p_body p) (p_retType p).
Definition add_params l p := MkParts (p_name p) (p_flag p) (p_typeParams p) (p_params p ++ l) (p_contexts p) (p_effects p) (p_contracts p) (p_body p) (p_retType p).
Definition add_contexts l p := MkParts (p_name p) (p_flag p) (p_typeParams p) (p_params p) (p_contexts p ++ l) (p_effects p) (p_contracts p) (p_body p) (p_retType p).
Definition add_effects l p := MkParts (p_name p) (p_flag p) (p_typeParams p) (p_params p) (p_contexts p) (p_effects p ++ l) (p_contracts p) (p_body p) (p_retType p).
Definition add_contracts l p := MkParts (p_name p) (p_flag p) (p_typeParams p) (p_params p) (p_contexts p) (p_effects p) (p_contracts p ++ l) (p_body p) (p_retType p).
Definition set_body b p := MkParts (p_name p) (p_flag p) (p_typeParams p) (p_params p) (p_contexts p) (p_effects p) (p_contracts p) b (p_retType p).
Definition set_retType t p := MkParts (p_name p) (p_flag p) (p_typeParams p) (p_params p) (p_contexts p) (p_effects p) (p_contracts p) (p_body p) t.

Definition is_name (type value : string) : bool := bool_decide (type = "identifier" ∨ value = "print").

(** The raw children that the three loops have in common; [None] for another
    rule. *)
Definition signature_step (p : parts) (rule : string) (n : Node) : option (result parts) :=
  if decide (rule = "param_list_opt") then Some (l ← FlattenParams n; Ok (add_params l p))
  else if decide (rule = "context_req_opt") then Some (l ← FlattenContextBindings n; Ok (add_contexts l p))
  else if decide (rule = "effect_spec_opt") then Some (l ← FlattenRaisedEffects n; Ok (add_effects l p))
  else if decide (rule = "contract_list") then Some (l ← FlattenContracts n; Ok (add_contracts l p))
  else if decide (rule = "block_stmt") then Some (b ← simplify n; Ok (set_body b p))
  else None.
Definition signature (p : parts) (rule : string) (n : Node) : result parts := default (Ok p) (signature_step p rule n).

(** [function_name], when there is no name yet. *)
Definition function_name (p : parts) (rule : string) (children : list Node) : parts :=
  match children with
  | LeafNode _ v :: _ => if decide (rule = "function_name" ∧ p_name p = "") then set_name v p else p
  | _ => p
  end.
Definition guided (rule : string) (children : list Node) : bool :=
  bool_decide (rule = "type_guide_opt") && (2 <=? length children).

Definition func_step (p : parts) (n : Node) : result parts :=
  match n with
  | LeafNode type v =>
      let p := if decide (v = "comptime") then set_flag p else p in
      Ok (if is_name type v then set_name (first_name (p_name p) v) p else p)
  | RawNode rule children =>
      let p := function_name p rule children in
      p ← (if guided rule children then t ← ExtractType n; Ok (set_retType t p) else Ok p);
      p ← (if decide (rule = "type_params_opt") then l ← FlattenTypeParams n; Ok (add_typeParams l p) else Ok p);
      signature p rule n
  | _ => Ok p
  end.

(** [SimplifyFuncDecl] *)
Definition SimplifyFuncDecl (children : list Node) : result Node :=
  p ← fold_result func_step (no_parts "auto") children;
  Ok (FunctionDeclNode (p_name p) (p_retType p) (p_flag p) (p_typeParams p) (p_params p) (p_contexts p)
        (p_effects p) (p_contracts p) (p_body p)).

Definition struct_method_step (p : parts) (n : Node) : result parts :=
  match n with
  | LeafNode type v => Ok (if is_name type v then set_name (first_name (p_name p) v) p else p)
  | RawNode rule children =>
      let p := function_name p rule children in
      if guided rule children then t ← ExtractType n; Ok (set_retType t p) else signature p rule n
  | _ => Ok p
  end.

(** [SimplifyStructMethod] *)
Definition SimplifyStructMethod (children : list Node) : result StructMethodDecl :=
  p ← fold_result struct_method_step (no_parts "void") children;
  Ok (MkStructMethod (p_name p) (p_retType p) (p_params p) (p_contexts p) (p_effects p) (p_contracts p) (p_body p)).

Definition is_query (n : Node) : bool := match n with LeafNode _ v => bool_decide (v = "query") | _ => false end.

Definition actor_method_step (p : parts) (n : Node) : result parts :=
  match n with
  | LeafNode type v =>
      Ok (if decide (v = "query") then set_flag p
          else if is_name type v then set_name (first_name (p_name p) v) p else p)
  | RawNode rule children =>
      if decide (rule = "msg_or_query") then Ok (if existsb is_query children then set_flag p else p)
      else if decide (rule = "function_name" ∧ children ≠ [] ∧ p_name p = "") then Ok (function_name p rule children)
      else if guided rule children then t ← ExtractType n; Ok (set_retType t p)
      else signature p rule n
  | _ => Ok p
  end.

(** [SimplifyActorMethod] *)
Definition SimplifyActorMethod (children : list Node) : result ActorMethodDecl :=
  p ← fold_result actor_method_step (no_parts "void") children;
  Ok (MkActorMethod (if p_flag p then Query else Message) (p_name p) (p_retType p) (p_params p) (p_contexts p)
        (p_effects p) (p_contracts p) (p_body p)).

(** [SimplifyArrowFunc] *)
Definition arrow_step (p : parts) (n : Node) : result parts :=
  match n with
  | RawNode rule children =>
      if decide (rule = "param_list_opt") then l ← FlattenParams n; Ok (add_params l p)
      else if decide (rule = "effect_spec_opt") then l ← FlattenRaisedEffects n; Ok (add_effects l p)
      else if decide (rule = "arrow_body") then
        match children with c :: _ => b ← simplify c; Ok (set_body b p) | [] => Ok p end
      else Ok p
  | _ => Ok p
  end.
Definition SimplifyArrowFunc (children : list Node) : result Node :=
  p ← fold_result arrow_step (no_parts "auto") children;
  let body := match p_body p with
              | NullNode => NullNode
              | BlockNode l => BlockNode l
              | e => BlockNode [ReturnNode e]
              end in
  Ok (FunctionExprNode "" "auto" (p_params p) (p_effects p) body).

(** *** The members of structures, interfaces and actors *)

Definition struct_member (n : Node) : result (list (StructField + StructMethodDecl)) :=
  match n with
  | RawNode rule children =>
      if decide (rule = "field_decl") then fs ← FlattenStructFields n; Ok (List.map inl fs)
      else if decide (rule = "struct_method") then m ← SimplifyStructMethod children; Ok [inr m]
      else Ok []
  | _ => Ok []
  end.
(** [FlattenStructMembers] *)
Fixpoint FlattenStructMembers (raw : Node) : result (list (StructField + StructMethodDecl)) :=
  match raw with
  | RawNode rule children =>
      if decide (children = []) then Ok []
      else if decide (rule = "struct_member_list") then element_tail (List.map FlattenStructMembers children)
      else if decide (rule = "struct_member") then match children with c :: _ => struct_member c | [] => Ok [] end
      else struct_member raw
  | _ => Ok []
  end.
Definition lefts {A B} (l : list (A + B)) : list A := omap (λ x, match x with inl a => Some a | inr _ => None end) l.
Definition rights {A B} (l : list (A + B)) : list B := omap (λ x, match x with inl _ => None | inr b => Some b end) l.

Definition actor_field_step (f : string * string * Node) (n : Node) : result (string * string * Node) :=
  let '(name, type, init) := f in
  match n with
  | LeafNode _ _ => Ok (take_identifier name n, type, init)
  | RawNode rule _ =>
      if decide (rule = "dataType") then t ← ExtractType n; Ok (name, t, init)
      else match initializer n with Some e => e ← simplify e; Ok (name, type, e) | None => Ok f end
  | _ => Ok f
  end.
Fixpoint concat_results {A} (l : list (result (list A))) : result (list A) :=
  match l with [] => Ok [] | x :: l => x ← x; y ← concat_results l; Ok (x ++ y) end.
(** [FlattenActorBody] *)
Fixpoint FlattenActorBody (raw : Node) : result (list (ActorFieldDecl + ActorMethodDecl)) :=
  match raw with
  | RawNode rule children =>
      if decide (children = []) then Ok []
      else if decide (rule = "actor_body" ∨ rule = "actor_field_list" ∨ rule = "actor_method_list")
      then concat_results (List.map FlattenActorBody children)
      else if decide (rule = "actor_field") then
        '(name, type, init) ← fold_result actor_field_step ("", "", NullNode) children;
        Ok [inl (MkActorField name type init)]
      else if decide (rule = "actor_method") then m ← SimplifyActorMethod children; Ok [inr m]
      else Ok []
  | _ => Ok []
  end.

(** [FlattenInterfaceMethods] *)
Definition interface_method_step (p : parts) (n : Node) : result parts :=
  match n with
  | LeafNode type v => Ok (if is_name type v then set_name (first_name (p_name p) v) p else p)
  | RawNode rule children =>
      let p := function_name p rule children in
      if decide (rule = "param_list_opt") then l ← FlattenParams n; Ok (add_params l p)
      else if guided rule children then t ← ExtractType n; Ok (set_retType t p)
      else if decide (rule = "effect_spec_opt") then l ← FlattenRaisedEffects n; Ok (add_effects l p)
      else Ok p
  | _ => Ok p
  end.
Fixpoint FlattenInterfaceMethods (raw : Node) : result (list InterfaceMethodSig) :=
  match raw with
  | RawNode rule children =>
      if decide (children = []) then Ok []
      else if decide (rule = "method_sig_list") then element_tail (List.map FlattenInterfaceMethods children)
      else if decide (rule = "method_sig") then
        p ← fold_result interface_method_step (no_parts "void") children;
        Ok [MkInterfaceMethod (p_name p) (p_retType p) (p_params p) (p_effects p)]
      else Ok []
  | _ => Ok []
  end.

(** *** Declarations *)

(** The name of a declaration: the first identifier, or [print]. *)
Definition declared_step (name : string) (n : Node) : string :=
  match n with LeafNode type v => if is_name type v then first_name name v else name | _ => name end.
Definition declared_name (children : list Node) : string := fold_left declared_step children "".

(** What the raw children of a rule give, one after the other.  The rules of the
    declarations below come in the order in which they are collected. *)
Definition collect {A} (rule : string) (f : Node → result (list A)) (children : list Node) : result (list A) :=
  concat_results (List.map (λ n, if is_raw rule n then f n else Ok []) children).

(** [SimplifyStructDecl] *)
Definition SimplifyStructDecl (children : list Node) : result Node :=
  typeParams ← collect "type_params_opt" FlattenTypeParams children;
  interfaces ← collect "implements_opt" FlattenQualifiedTypeList children;
  members ← collect "struct_member_list" FlattenStructMembers children;
  contracts ← collect "contract_list" FlattenContracts children;
  Ok (StructDeclNode (declared_name children) typeParams (lefts members) interfaces (rights members) contracts).

(** [SimplifyEnumDecl] *)
Definition SimplifyEnumDecl (children : list Node) : result Node :=
  typeParams ← collect "type_params_opt" FlattenTypeParams children;
  variants ← collect "variant_list" FlattenEnumVariants children;
  Ok (EnumDeclNode (declared_name children) typeParams variants).

(** [SimplifyInterfaceDecl] *)
Definition SimplifyInterfaceDecl (children : list Node) : result Node :=
  typeParams ← collect "type_params_opt" FlattenTypeParams children;
  methods ← collect "method_sig_list" FlattenInterfaceMethods children;
  Ok (InterfaceDeclNode (declared_name children) typeParams methods).

(** [SimplifyEffectDecl] *)
Definition effect_body (n : Node) : result (list InterfaceMethodSig) :=
  match n with RawNode _ (_ :: body :: _) => FlattenInterfaceMethods body | _ => Ok [] end.
Definition SimplifyEffectDecl (children : list Node) : result Node :=
  operations ← collect "effect_body_opt" effect_body children;
  Ok (EffectDeclNode (declared_name children) operations).

(** [SimplifyActorDecl] *)
Definition SimplifyActorDecl (children : list Node) : result Node :=
  typeParams ← collect "type_params_opt" FlattenTypeParams children;
  members ← collect "actor_body" FlattenActorBody children;
  Ok (ActorDeclNode (fold_left take_identifier children "") typeParams (lefts members) (rights members)).

(** [SimplifyExportDecl] *)
Fixpoint SimplifyExportDecl (children : list Node) : result Node :=
  match children with
  | [] => Ok NullNode
  | n :: children =>
      match n with
      | LeafNode type v => if decide (type = "identifier") then Ok (ExportDeclNode NullNode v) else SimplifyExportDecl children
      | RawNode rule (c :: _) =>
          if decide (rule = "exportable") then
            match identifier_of c with
            | Some v => Ok (ExportDeclNode NullNode v)
            | None => e ← simplify n;
                      match e with NullNode => SimplifyExportDecl children | e => Ok (ExportDeclNode e "") end
            end
          else SimplifyExportDecl children
      | _ => SimplifyExportDecl children
      end
  end.

(** [SimplifyVarDeclNoSemi] and [SimplifyConstDeclNoSemi] *)
Definition storage_of (s : StorageClass) (v : string) : StorageClass :=
  if decide (v = "thread_local") then ThreadLocal else if decide (v = "shared") then Shared else s.
Definition var_step (d : string * string * Node * StorageClass) (n : Node) : result (string * string * Node * StorageClass) :=
  let '(name, type, init, storage) := d in
  match n with
  | LeafNode _ v => Ok (default name (identifier_of n), type, init, storage_of storage v)
  | RawNode rule _ =>
      type ← (if decide (rule = "type_guide_opt") then ExtractType n else Ok type);
      init ← match initializer n with Some e => simplify e | None => Ok init end;
      Ok (name, type, init, storage)
  | _ => Ok d
  end.
Definition SimplifyVarDeclNoSemi (children : list Node) : result Node :=
  '(name, type, init, storage) ← fold_result var_step ("", "auto", NullNode, Default_) children;
  Ok (VarDeclNode name type init false storage).
Definition const_step (d : string * string * Node) (n : Node) : result (string * string * Node) :=
  let '(name, type, init) := d in
  match n with
  | LeafNode _ _ => Ok (default name (identifier_of n), type, init)
  | RawNode rule _ =>
      type ← (if decide (rule = "type_guide_opt") then ExtractType n else Ok type);
      init ← (if decide (rule = "expression") then simplify n else Ok init);
      Ok (name, type, init)
  | _ => Ok d
  end.
Definition SimplifyConstDeclNoSemi (children : list Node) : result Node :=
  '(name, type, init) ← fold_result const_step ("", "auto", NullNode) children;
  Ok (VarDeclNode name type init true Default_).

(** [SimplifyTypeAliasNoSemi] *)
Definition alias_step (type : string) (n : Node) : result string :=
  if is_raw "dataType" n then ExtractType n else Ok type.
Definition SimplifyTypeAliasNoSemi (children : list Node) : result Node :=
  typeParams ← collect "type_params_opt" FlattenTypeParams children;
  type ← fold_result alias_step "auto" children;
  Ok (TypeAliasNode (fold_left take_identifier children "") type typeParams).

(** [SimplifyModuleDecl] and [SimplifyImportDecl] *)
Definition SimplifyModuleDecl (children : list Node) : result Node :=
  Ok (ModuleDeclNode match filter (λ n, is_raw "qualified_id" n = true) children with n :: _ => ExtractQualifiedId n | [] => "" end).
Definition import_step (d : string * string) (n : Node) : result (string * string) :=
  match n with
  | RawNode rule children =>
      if decide (rule = "qualified_id") then Ok (ExtractQualifiedId n, d.2)
      else if decide (rule = "import_as_opt" ∧ 2 <= length children) then
        c ← child 1 children; alias ← leaf_value c; Ok (d.1, alias)
      else Ok d
  | _ => Ok d
  end.
Definition SimplifyImportDecl (children : list Node) : result Node :=
  '(name, alias) ← fold_result import_step ("", "") children;
  Ok (ImportDeclNode name (if decide (alias = "") then DefaultImportAlias name else alias)).

(** *** Statements *)

(** The loop of [SimplifyBlockChain]: the first child of each link. *)
Fixpoint block_chain (link : Node) : result (list Node) :=
  match link with
  | RawNode _ (c :: rest) =>
      item ← simplify c;
      items ← match rest with next :: _ => block_chain next | [] => Ok [] end;
      Ok (if is_null item then items else item :: items)
  | _ => Ok []
  end.
Definition SimplifyBlockChain (raw : Node) : result Node := BlockNode <$> block_chain raw.

(** [SimplifyIfStmt] and [SimplifyWhileStmt] *)
Definition SimplifyIfStmt (children : list Node) : result Node :=
  c ← simplify_child 2 children; t ← simplify_child 4 children;
  e ← (if 5 <? length children then simplify_child 5 children else Ok NullNode);
  Ok (IfStatementNode c t e).
Definition SimplifyWhileStmt (children : list Node) : result Node :=
  c ← simplify_child 2 children; b ← simplify_child 4 children; Ok (WhileStatementNode c b).

(** [FlattenIterAdapters] *)
Definition adapter_kind (name : string) : option IterAdapterKind :=
  if decide (name = "drop") then Some Drop_ else if decide (name = "take") then Some Take_
  else if decide (name = "reverse") then Some Reverse_ else if decide (name = "filter") then Some Filter
  else if decide (name = "transform") then Some Transform else None.
Definition adapter (children : list Node) : result (list (IterAdapterKind * Node)) :=
  match children with
  | LeafNode _ op :: _ =>
      argument ← match filter (λ n, is_raw "expression" n = true) children with n :: _ => simplify n | [] => Ok NullNode end;
      Ok (match adapter_kind op with
          | Some Reverse_ => [(Reverse_, NullNode)]
          | Some k => [(k, argument)]
          | None => []
          end)
  | _ => Ok []
  end.
Fixpoint FlattenIterAdapters (raw : Node) : result (list (IterAdapterKind * Node)) :=
  match raw with
  | RawNode rule children =>
      let subs := List.map FlattenIterAdapters children in
      if decide (children = []) then Ok []
      else if decide (rule = "adapter_chain_opt") then opt_child 2 subs
      else if decide (rule = "adapter_list") then element_tail subs
      else if decide (rule = "adapter_list_tail") then separated_tail subs
      else if decide (rule = "adapter") then adapter children
      else Ok []
  | _ => Ok []
  end.

(** [SimplifyIterStmt].  The expression and the block are moved out of the node
    and destroyed by [Simplify], and then the name of the rule is read from
    them. *)
Definition iter_step (d : string * Node * list (IterAdapterKind * Node) * Node) (n : Node)
    : result (string * Node * list (IterAdapterKind * Node) * Node) :=
  let '(var, coll, adapters, body) := d in
  match n with
  | LeafNode _ _ => Ok (default var (identifier_of n), coll, adapters, body)
  | RawNode rule _ =>
      '(coll, rule) ← (if decide (rule = "expression") then e ← simplify n; r ← after_free rule; Ok (e, r) else Ok (coll, rule));
      '(body, rule) ← (if decide (rule = "block_stmt") then b ← simplify n; r ← after_free rule; Ok (b, r) else Ok (body, rule));
      more ← (if decide (rule = "adapter_chain_opt") then FlattenIterAdapters n else Ok []);
      Ok (var, coll, adapters ++ more, body)
  | _ => Ok d
  end.
Definition SimplifyIterStmt (children : list Node) : result Node :=
  '(var, coll, adapters, body) ← fold_result iter_step ("", NullNode, [], NullNode) children;
  Ok (IterNode var coll adapters body).

(** [SimplifyArrayLit] *)
Definition SimplifyArrayLit (children : list Node) : result Node :=
  ArrayLiteralNode <$> collect "arg_list_opt" FlattenArgs children.

(** [SimplifyMapLit] *)
Fixpoint map_entries (n : Node) : result (list (Node * Node)) :=
  match n with
  | RawNode rule children =>
      match children with
      | k :: _ :: v :: _ =>
          if decide (rule = "map_entry") then k ← simplify k; v ← simplify v; Ok [(k, v)]
          else concat_results (List.map map_entries children)
      | _ => concat_results (List.map map_entries children)
      end
  | _ => Ok []
  end.
Definition map_type_step (d : string * string) (n : Node) : result (string * string) :=
  if is_raw "dataType" n then
    if decide (d.1 = "") then t ← ExtractType n; Ok (t, d.2)
    else if decide (d.2 = "") then t ← ExtractType n; Ok (d.1, t) else Ok d
  else Ok d.
Definition SimplifyMapLit (children : list Node) : result Node :=
  '(k, v) ← fold_result map_type_step ("", "") children;
  entries ← collect "map_entry_list_opt" map_entries children;
  Ok (MapLiteralNode k v entries).

(** [SimplifyPrintStmt] and [SimplifyUnsafeStmt] *)
Definition SimplifyPrintStmt (children : list Node) : result Node := e ← simplify_child 1 children; Ok (PrintNode e).
Definition SimplifyUnsafeStmt (children : list Node) : result Node :=
  match filter (λ n, is_raw "block_stmt" n = true) children with
  | n :: _ => b ← simplify n; Ok (UnsafeNode b)
  | [] => Ok NullNode
  end.

(** [SimplifyTransactionStmt] *)
Definition appendRegion (regions : list Region) (r : Region) : list Region :=
  if decide (r_name r = "") then regions else
  match last regions with
  | Some r' => if bool_decide (usesShared r' = usesShared r) && bool_decide (r_name r' = r_name r) then regions else regions ++ [r]
  | None => regions ++ [r]
  end.
Definition region_step (r : Region) (n : Node) : Region :=
  match n with
  | LeafNode _ v => if decide (v = "shared") then MkRegion true (r_name r)
                    else MkRegion (usesShared r) (default (r_name r) (identifier_of n))
  | _ => r
  end.
Fixpoint collectRegions (n : Node) : list Region :=
  match n with
  | RawNode rule children =>
      if decide (rule = "region_expr") then [fold_left region_step children (MkRegion false "")]
      else concat (List.map collectRegions children)
  | _ => []
  end.
Definition is_region (n : Node) : bool :=
  is_raw "region_expr" n || is_raw "region_expr_list" n || is_raw "region_expr_list_tail" n.
Definition last_block (body : Node) (n : Node) : result Node := if is_raw "block_stmt" n then simplify n else Ok body.
Definition SimplifyTransactionStmt (children : list Node) : result Node :=
  body ← fold_result last_block NullNode children;
  Ok (TransactionNode (fold_left appendRegion (concat (collectRegions <$> filter (λ n, is_region n = true) children)) []) body).

(** [FlattenHandlerCases] and [SimplifyHandleStmt] *)
Definition handler_step (p : parts) (n : Node) : result parts :=
  match n with
  | LeafNode _ _ => Ok (set_name (take_identifier (p_name p) n) p)
  | RawNode rule _ =>
      if decide (rule = "param_list_opt") then l ← FlattenParams n; Ok (add_params l p)
      else if decide (rule = "block_stmt") then b ← simplify n; Ok (set_body b p)
      else Ok p
  | _ => Ok p
  end.
Fixpoint FlattenHandlerCases (raw : Node) : result (list EffectHandlerCase) :=
  match raw with
  | RawNode rule children =>
      if decide (children = []) then Ok []
      else if decide (rule = "handler_list") then concat_results (List.map FlattenHandlerCases children)
      else if decide (rule = "handler") then
        p ← fold_result handler_step (no_parts "") children;
        Ok [MkHandlerCase (p_name p) "" (p_params p) (p_body p)]
      else Ok []
  | _ => Ok []
  end.
Definition last_expression (e : Node) (n : Node) : result Node := if is_raw "expression" n then simplify n else Ok e.
Definition SimplifyHandleStmt (children : list Node) : result Node :=
  e ← fold_result last_expression NullNode children;
  handlers ← collect "handler_list" FlattenHandlerCases children;
  Ok (HandleNode e handlers).

(** *** Expressions *)

(** The loop of [SimplifyBinaryChain]. *)
Fixpoint binary_tail (left tail : Node) : result Node :=
  match tail with
  | RawNode _ (o :: rest) =>
      op ← leaf_value o;
      match rest with
      | r :: rest =>
          right ← simplify r;
          let left := BinaryExprNode left op right in
          match rest with tail :: _ => binary_tail left tail | [] => Ok left end
      | [] => Throw (undefined_behaviour "vector index out of range")
      end
  | _ => Ok left
  end.
Definition SimplifyBinaryChain (children : list Node) : result Node :=
  left ← simplify_child 0 children;
  match children with _ :: tail :: _ => binary_tail left tail | _ => Ok left end.

(** One trailer of [SimplifyIdentifierExpr]. *)
Definition member_name (n : Node) : string :=
  match n with LeafNode _ v | RawNode _ (LeafNode _ v :: _) => v | _ => "" end.
Definition trailer (expr : Node) (n : Node) : result Node :=
  match n with
  | RawNode _ (c :: rest) =>
      type ← leaf_value c;
      if decide (type = ".") then m ← child 0 rest; Ok (MemberAccessNode expr (member_name m))
      else if decide (type = "(") then
        args ← match rest with a :: _ => FlattenArgs (as_raw a) | [] => Ok [] end;
        Ok (CallNode expr args)
      else if decide (type = "[") then i ← simplify_child 0 rest; Ok (IndexNode expr i)
      else Ok expr
  | _ => Ok expr
  end.
Fixpoint trailers (expr list : Node) : result Node :=
  match list with
  | RawNode _ (t :: rest) =>
      expr ← trailer expr t;
      match rest with next :: _ => trailers expr next | [] => Ok expr end
  | _ => Ok expr
  end.
Definition SimplifyIdentifierExpr (children : list Node) : result Node :=
  c ← child 0 children; name ← leaf_value c;
  match children with _ :: list :: _ => trailers (IdentifierNode name) list | _ => Ok (IdentifierNode name) end.

(** [SimplifyAssignmentExpr]: the value of a target that is none of these is
    dropped. *)
Definition assignment (lhs value : Node) : Node :=
  match lhs with
  | IdentifierNode name => AssignmentNode name NullNode "" NullNode value NullNode
  | IndexNode (IdentifierNode name) index => AssignmentNode name NullNode "" NullNode value index
  | MemberAccessNode object member => AssignmentNode "" object member NullNode value NullNode
  | UnaryExprNode op operand => if decide (op = "*") then AssignmentNode "" NullNode "" operand value NullNode else lhs
  | _ => lhs
  end.
Definition SimplifyAssignmentExpr (children : list Node) : result Node :=
  lhs ← simplify_child 0 children;
  match children with
  | _ :: RawNode _ (_ :: e :: _) :: _ => value ← simplify e; Ok (assignment lhs value)
  | _ => Ok lhs
  end.

(** [SimplifyUnary]: with neither one child nor an operator the children are
    simplified and dropped. *)
Definition SimplifyUnary (children : list Node) : result Node :=
  match children with
  | [e] => simplify e
  | [LeafNode _ v; e] =>
      if decide (v = "await") then AwaitExprNode <$> simplify e
      else if decide (v = "go") then GoExprNode <$> simplify e
      else _ ← mapM_result simplify children; Ok NullNode
  | [RawNode _ (LeafNode _ op :: _); e] => UnaryExprNode op <$> simplify e
  | _ => _ ← mapM_result simplify children; Ok NullNode
  end.

(** *** Rules *)

Definition block_rules : list string := ["program"; "top_level_list"; "statement_list"; "block_stmt"]%string.
Definition chain_rules : list string :=
  ["logic_or"; "logic_and"; "equality"; "relational"; "additive"; "multiplicative"]%string.

(** The rules with a function of their own; [None] for the others. *)
Definition SimplifyRule (rule : string) (children : list Node) : option (result Node) :=
  let n := length children in
  if decide (rule ∈ block_rules) then Some (SimplifyBlockChain (RawNode rule children))
  else if decide (rule = "func_decl") then Some (SimplifyFuncDecl children)
  else if decide (rule = "export_decl") then Some (SimplifyExportDecl children)
  else if decide (rule = "struct_decl_no_semi") then Some (SimplifyStructDecl children)
  else if decide (rule = "enum_decl_no_semi") then Some (SimplifyEnumDecl children)
  else if decide (rule = "interface_decl_no_semi") then Some (SimplifyInterfaceDecl children)
  else if decide (rule = "effect_def_no_semi") then Some (SimplifyEffectDecl children)
  else if decide (rule = "actor_decl_no_semi") then Some (SimplifyActorDecl children)
  else if decide (rule = "arrow_func") then Some (SimplifyArrowFunc children)
  else if decide (rule = "var_decl_no_semi") then Some (SimplifyVarDeclNoSemi children)
  else if decide (rule = "const_decl_no_semi") then Some (SimplifyConstDeclNoSemi children)
  else if decide (rule = "type_alias_no_semi") then Some (SimplifyTypeAliasNoSemi children)
  else if decide (rule = "assignment_expr") then Some (SimplifyAssignmentExpr children)
  else if decide (rule = "module_decl") then Some (SimplifyModuleDecl children)
  else if decide (rule = "import_decl") then Some (SimplifyImportDecl children)
  else if decide (rule = "if_stmt" ∧ 5 <= n) then Some (SimplifyIfStmt children)
  else if decide (rule = "while_stmt" ∧ 5 <= n) then Some (SimplifyWhileStmt children)
  else if decide (rule = "iter_stmt") then Some (SimplifyIterStmt children)
  else if decide (rule = "array_lit") then Some (SimplifyArrayLit children)
  else if decide (rule = "map_lit") then Some (SimplifyMapLit children)
  else if decide (rule = "print_stmt") then Some (SimplifyPrintStmt children)
  else if decide (rule = "unsafe_stmt") then Some (SimplifyUnsafeStmt children)
  else if decide (rule = "transaction_stmt") then Some (SimplifyTransactionStmt children)
  else if decide (rule = "handle_stmt") then Some (SimplifyHandleStmt children)
  else if decide (rule = "unary") then Some (SimplifyUnary children)
  else if decide (rule = "identifier_expr") then Some (SimplifyIdentifierExpr children)
  else if decide (rule = "return_stmt") then
    Some (ReturnNode <$> match children with _ :: e :: _ => simplify e | _ => Ok NullNode end)
  else if decide (rule ∈ chain_rules) then Some (SimplifyBinaryChain children)
  else None.

(** The rest of [SimplifyRaw]: a single child stands for the node, a semicolon
    behind it is dropped; any other node stays. *)
Definition SimplifyOther (rule : string) (children : list Node) : result Node :=
  match children with
  | [c] => simplify c
  | [c; LeafNode _ ";"] => simplify c
  | _ => RawNode rule <$> mapM_result simplify children
  end.

(** [SimplifyPrimaryComptime], [SimplifyRaw] *)
Definition SimplifyOwn (rule : string) (children : list Node) : result Node :=
  match SimplifyRule rule children with Some r => r | None => SimplifyOther rule children end.
Definition SimplifyRaw (rule : string) (children : list Node) : result Node :=
  match children with
  | LeafNode _ v :: e :: _ =>
      if decide (rule = "primary" ∧ v = "comptime") then ComptimeNode <$> simplify e else SimplifyOwn rule children
  | _ => SimplifyOwn rule children
  end.
End simplify.

(** ** [Build] *)

Fixpoint height (n : Node) : nat :=
  match n with RawNode _ children => S (list_max (List.map height children)) | _ => 1 end.

(** [Simplify], of a tree whose height is at most the fuel. *)
Fixpoint Simplify (after_free : string → result string) (fuel : nat) (node : Node) : result Node :=
  match fuel with
  | 0 => Diverge
  | S fuel =>
      match node with
      | LeafNode type v => SimplifyLeaf type v
      | RawNode rule children => SimplifyRaw (Simplify after_free fuel) after_free rule children
      | _ => Ok node
      end
  end.

Definition Build (after_free : string → result string) (node : Node) : result Node :=
  r ← Simplify after_free (height node) node;
  Ok (match r with NullNode => BlockNode [] | BlockNode l => BlockNode l | r => BlockNode [r] end).

(** A read of freed memory is undefined; the memory may also be as it was. *)
Definition undefined_read (_ : string) : result string := Throw (undefined_behaviour "use after free").
Definition intact_read (rule : string) : result string := Ok rule.
End AstBuilder.
