(* ===== verification/AstSorts.v ===== *)
(** * The sorts of the syntax tree, and the productions of the grammar

    Which trees the builder makes: expressions, statements, declarations and
    programs, with the raw nodes that are left in them; and the parse trees of
    [grammar.md], production by production. *)

From S2P Require Import Prelude Reader Token Lexer LexerSpec Grammar TableBuilder Parser ParserSpec.
From S2P Require Import Value Ast TypeNames GrammarText AstBuilder.
From Stdlib Require Import Lia.

Module AstSorts.
Import Value Ast AstBuilder.

(** ** Sorts *)

Definition unary_ops : list string := ["+"; "-"; "not"; "!"; "*"; "&"]%string.
Definition binary_ops : list string :=
  ["or"; "||"; "and"; "&&"; "=="; "!="; "<"; ">"; "<="; ">="; "+"; "-"; "*"; "/"; "mod"; "div"]%string.
Definition constants : list string := ["true"; "false"; "null"]%string.

(** A block keeps its opening brace as its first statement, a parenthesised
    expression stays the raw node [primary], an absent value of [return] the
    raw node [expression_opt] and an [else] branch the raw node [else_opt]. *)
Inductive expression : Node → Prop :=
  | expr_integer z : int64_ok z = true → expression (IntegerLiteralNode z)
  | expr_float x : expression (FloatLiteralNode x)
  | expr_string s : expression (StringLiteralNode s)
  | expr_constant s : s ∈ constants → expression (LeafNode s s)
  | expr_identifier name : expression (IdentifierNode name)
  | expr_unary op e : op ∈ unary_ops → expression e → expression (UnaryExprNode op e)
  | expr_binary l op r : op ∈ binary_ops → expression l → expression r → expression (BinaryExprNode l op r)
  | expr_assign name v : expression v → expression (AssignmentNode name NullNode "" NullNode v NullNode)
  | expr_assign_index name v i :
      expression v → expression i → expression (AssignmentNode name NullNode "" NullNode v i)
  | expr_assign_member o m v : expression o → expression v → expression (AssignmentNode "" o m NullNode v NullNode)
  | expr_assign_reference p v :
      expression p → expression v → expression (AssignmentNode "" NullNode "" p v NullNode)
  | expr_call f args : expression f → Forall expression args → expression (CallNode f args)
  | expr_go e : expression e → expression (GoExprNode e)
  | expr_await e : expression e → expression (AwaitExprNode e)
  | expr_member e m : expression e → expression (MemberAccessNode e m)
  | expr_index e i : expression e → expression i → expression (IndexNode e i)
  | expr_function ps effects b :
      Forall formal ps → body b → expression (FunctionExprNode "" "auto" ps effects b)
  | expr_array l : Forall expression l → expression (ArrayLiteralNode l)
  | expr_map k v l :
      Forall expression (fst <$> l) → Forall expression (snd <$> l) → expression (MapLiteralNode k v l)
  | expr_comptime b : block b → expression (ComptimeNode b)
  | expr_parentheses e :
      expression e → expression (RawNode "primary" [LeafNode "(" "("; e; LeafNode ")" ")"])
  | expr_return e : optional_expression e → expression (ReturnNode e)
with optional_expression : Node → Prop :=
  | no_expression : optional_expression (RawNode "expression_opt" [])
  | some_expression e : expression e → optional_expression e
with initial : Node → Prop :=
  | no_initial : initial NullNode
  | some_initial e : expression e → initial e
with formal : Parameter_ → Prop :=
  | formal_intro name type d v : initial d → formal (MkParameter name type d v)
with body : Node → Prop :=
  | body_block b : block b → body b
  | body_expression e : expression e → body (BlockNode [ReturnNode e])
with block : Node → Prop :=
  | block_intro l : Forall statement l → block (BlockNode (LeafNode "{" "{" :: l))
with statement : Node → Prop :=
  | stmt_semicolon : statement (LeafNode ";" ";")
  | stmt_expression e : expression e → statement e
  | stmt_block b : block b → statement b
  | stmt_variable d : variable d → statement d
  | stmt_if c t e : expression c → block t → else_branch e → statement (IfStatementNode c t e)
  | stmt_while c b : expression c → block b → statement (WhileStatementNode c b)
  | stmt_iter x c adapters b :
      expression c → Forall adapted adapters → block b → statement (IterNode x c adapters b)
  | stmt_print e : expression e → statement (PrintNode e)
  | stmt_unsafe b : block b → statement (UnsafeNode b)
  | stmt_transaction regions b : block b → statement (TransactionNode regions b)
  | stmt_handle e handlers : expression e → Forall handler handlers → statement (HandleNode e handlers)
with variable : Node → Prop :=
  | variable_intro name type i const storage : initial i → variable (VarDeclNode name type i const storage)
with else_branch : Node → Prop :=
  | no_else : else_branch (RawNode "else_opt" [])
  | some_else s : statement s → else_branch (RawNode "else_opt" [LeafNode "else" "else"; s])
with adapted : IterAdapterKind * Node → Prop :=
  | adapted_reverse : adapted (Reverse_, NullNode)
  | adapted_by k e : k ≠ Reverse_ → expression e → adapted (k, e)
with handler : EffectHandlerCase → Prop :=
  | handler_intro effect ps b : Forall formal ps → block b → handler (MkHandlerCase effect "" ps b).

Inductive contract : Node → Prop :=
  | contract_intro k e : expression e → contract (ContractNode k e).
Inductive struct_method : StructMethodDecl → Prop :=
  | struct_method_intro name ret ps ctx effects cs b :
      Forall formal ps → Forall contract cs → block b →
      struct_method (MkStructMethod name ret ps ctx effects cs b).
Inductive interface_method : InterfaceMethodSig → Prop :=
  | interface_method_intro name ret ps effects :
      Forall formal ps → interface_method (MkInterfaceMethod name ret ps effects).
Inductive actor_field : ActorFieldDecl → Prop :=
  | actor_field_intro name type i : initial i → actor_field (MkActorField name type i).
Inductive actor_method : ActorMethodDecl → Prop :=
  | actor_method_intro k name ret ps ctx effects cs b :
      Forall formal ps → Forall contract cs → block b →
      actor_method (MkActorMethod k name ret ps ctx effects cs b).

Inductive declaration : Node → Prop :=
  | decl_variable d : variable d → declaration d
  | decl_alias name type tps : declaration (TypeAliasNode name type tps)
  | decl_function name ret comptime tps ps ctx effects cs b :
      Forall formal ps → Forall contract cs → block b →
      declaration (FunctionDeclNode name ret comptime tps ps ctx effects cs b)
  | decl_struct name tps fields interfaces methods cs :
      Forall struct_method methods → Forall contract cs →
      declaration (StructDeclNode name tps fields interfaces methods cs)
  | decl_enum name tps variants : declaration (EnumDeclNode name tps variants)
  | decl_interface name tps methods :
      Forall interface_method methods → declaration (InterfaceDeclNode name tps methods)
  | decl_effect name operations :
      Forall interface_method operations → declaration (EffectDeclNode name operations)
  | decl_actor name tps fields methods :
      Forall actor_field fields → Forall actor_method methods →
      declaration (ActorDeclNode name tps fields methods).

Inductive top_level : Node → Prop :=
  | top_declaration d : declaration d → top_level d
  | top_statement s : statement s → top_level s
  | top_import name alias : top_level (ImportDeclNode name alias)
  | top_export d : declaration d → top_level (ExportDeclNode d "")
  | top_export_name name : top_level (ExportDeclNode NullNode name).

Inductive items : Node → Prop :=
  | items_intro l : Forall top_level l → items (BlockNode l).
Inductive module_line : Node → Prop :=
  | module_line_intro name : module_line (ModuleDeclNode name).

(** A program without a module declaration is a block in a block. *)
Inductive program : Node → Prop :=
  | program_module name l : Forall top_level l → program (BlockNode (ModuleDeclNode name :: l))
  | program_items b : items b → program (BlockNode [b]).

(** What [Simplify] makes of a symbol of the grammar with some children. *)
Definition expression_symbols : list string :=
  ["expression"; "assignment_expr"; "logic_or"; "logic_and"; "equality"; "relational"; "additive";
   "multiplicative"; "unary"; "primary"; "identifier_expr"; "arrow_func"; "array_lit"; "map_lit"; "return_stmt"]%string.
Definition statement_symbols : list string :=
  ["statement"; "statement_no_semi"; "statement_with_semi"; "if_stmt"; "while_stmt"; "iter_stmt"; "handle_stmt";
   "transaction_stmt"; "unsafe_stmt"; "print_stmt"; "block_or_if"]%string.
Definition declaration_symbols : list string :=
  ["declaration"; "declaration_no_semi"; "var_decl"; "const_decl"; "type_alias"; "type_alias_no_semi"; "func_decl";
   "struct_decl"; "struct_decl_no_semi"; "enum_decl"; "enum_decl_no_semi"; "interface_decl";
   "interface_decl_no_semi"; "effect_def"; "effect_def_no_semi"; "actor_decl"; "actor_decl_no_semi"]%string.
Definition top_symbols : list string := ["top_level_node"; "import_decl"; "export_decl"]%string.
Definition sort_of (A : string) (cs : list Node) : option (Node → Prop) :=
  if decide (A ∈ expression_symbols) then Some expression
  else if decide (A ∈ statement_symbols) then Some statement
  else if decide (A ∈ declaration_symbols) then Some declaration
  else if decide (A ∈ top_symbols) then Some top_level
  else if decide (A = "expression_opt") then Some optional_expression
  else if decide (A = "else_opt") then Some else_branch
  else if decide (A = "block_stmt") then Some block
  else if decide (A = "statement_list") then Some (λ n, ∃ l, n = BlockNode l ∧ Forall statement l)
  else if decide (A = "var_decl_no_semi" ∨ A = "const_decl_no_semi") then Some variable
  else if decide (A = "top_level_list") then Some items
  else if decide (A = "module_decl") then Some module_line
  else if decide (A = "program") then Some program
  else if decide (A = "exportable") then match cs with RawNode _ _ :: _ => Some declaration | _ => None end
  else None.

(** ** Productions *)

Definition grammar : RulesBuilder.t := RulesBuilder.Init GrammarText.m_grammarText.

(** The rules of the grammar, evaluated. *)
Definition productions : list (string * list string) :=
  Eval vm_compute in (λ r, (lhs r, rhs r)) <$> RulesBuilder.m_rules grammar.

Definition alternatives (A : string) : list (list string) :=
  snd <$> filter (λ p, p.1 = A) productions.
Definition is_nonterm (A : string) : bool := existsb (λ p, bool_decide (p.1 = A)) productions.

(** The terminals that stand for a class of tokens. *)
Definition classes : list string :=
  ["identifier"; "integer_literal"; "float_literal"; "string_literal"]%string.

(** The tokens of a class, and the terminals that are their own text. *)
Definition number (s : string) : Prop := s ≠ "" ∧ Forall (λ c, isdigit c = true) (String.list_ascii_of_string s).
Inductive token : string → string → Prop :=
  | tok_text s : s ∉ classes → token s s
  | tok_identifier v : token "identifier" v
  | tok_integer v : number v → token "integer_literal" v
  | tok_float v1 v2 : number v1 → number v2 → token "float_literal" (v1 +:+ "." +:+ v2)
  | tok_string v : token "string_literal" v.
End AstSorts.
