(* ===== verification/AstTrees.v ===== *)
(** * Parse trees, production by production

    The productions of a symbol as the shapes of the children of its trees, the
    results of the builder that are safe, and the functions of the builder that
    read types and lists of names: they are total on parse trees. *)

From S2P Require Import Prelude Reader Token Lexer LexerSpec Grammar TableBuilder Parser ParserSpec.
From S2P Require Import Value Ast TypeNames GrammarText AstBuilder AstSorts.
From Stdlib Require Import Lia.

Module AstTrees.
Import Value Ast AstBuilder AstSorts.

(** ** Parse trees *)

Definition root (n : Node) : string := match n with LeafNode s _ => s | RawNode A _ => A | _ => "" end.

Lemma if_true P `{Decision P} {A} (x y : A) : bool_decide P = true → (if decide P then x else y) = x.
Proof. by intros ?%bool_decide_eq_true; rewrite decide_True. Qed.
Lemma if_false P `{Decision P} {A} (x y : A) : bool_decide P = false → (if decide P then x else y) = y.
Proof. by intros ?%bool_decide_eq_false; rewrite decide_False. Qed.

(** The leaves of the tree at hand, what holds if it has an [iter_stmt], and what
    holds if such a statement is the end of the defined behaviour. *)
Class Tree := {
  leaf : string → string → Prop;
  leaf_token s v : leaf s v → token s v;
  has_iter : Prop;
  freed : Prop;
}.

Section parse_trees.
Context `{Tree}.

Inductive parse : Node → Prop :=
  | parse_leaf s v : is_nonterm s = false → leaf s v → parse (LeafNode s v)
  | parse_raw A cs :
      In (root <$> cs) (alternatives A) → Forall parse cs → (A = "iter_stmt" → has_iter) → parse (RawNode A cs).

(** A parse tree of the symbol [A], of bounded height. *)
Definition parses (j : nat) (A : string) (n : Node) : Prop := parse n ∧ root n = A ∧ height n ≤ j.

Definition symbol (j : nat) (s : string) (c : Node) : Prop :=
  if is_nonterm s then ∃ cs, c = RawNode s cs ∧ parses j s (RawNode s cs)
  else if bool_decide (s ∈ classes) then ∃ v, c = LeafNode s v ∧ leaf s v
  else c = LeafNode s s.
Fixpoint shape (j : nat) (alt : list string) (cs : list Node) : Prop :=
  match alt with
  | [] => cs = []
  | s :: alt => ∃ c cs', cs = c :: cs' ∧ symbol j s c ∧ shape j alt cs'
  end.
Fixpoint shapes (j : nat) (alts : list (list string)) (cs : list Node) : Prop :=
  match alts with [] => False | alt :: alts => shape j alt cs ∨ shapes j alts cs end.

Lemma parses_symbol j n : parse n → height n ≤ j → symbol j (root n) n.
Proof.
  intros Hp Hh. unfold symbol. destruct Hp as [s v Hs Hl|A cs Hin Hcs Hi]; cbn [root].
  - rewrite Hs. case_bool_decide as Hc; [by eexists|].
    destruct (leaf_token _ _ Hl); [done|exfalso; apply Hc; repeat constructor..].
  - replace (is_nonterm A) with true; [eexists; split_and!; [done|split_and!; [by constructor|done|done]]|].
    symmetry. apply existsb_exists. unfold alternatives in Hin. apply list_elem_of_In in Hin.
    apply list_elem_of_fmap in Hin as (p & _ & [Hp Hin]%list_elem_of_filter).
    exists p. split; [by apply list_elem_of_In|by apply bool_decide_eq_true].
Qed.

Lemma shape_of j cs : Forall parse cs → list_max (List.map height cs) ≤ j → shape j (root <$> cs) cs.
Proof.
  induction 1 as [|c cs Hc _ IH]; [done|]. intros Hm.
  change (Nat.max (height c) (list_max (List.map height cs)) ≤ j) in Hm. exists c, cs. split_and!; [done| |apply IH; lia].
  apply parses_symbol; [done|lia].
Qed.

Lemma shapes_of j alts alt cs : In alt alts → shape j alt cs → shapes j alts cs.
Proof. induction alts as [|a alts IH]; [done|]. intros [->|Hin] Hs; [by left|right; by apply IH]. Qed.

(** The productions of [A], as the shapes of the children of an [A]. *)
Lemma parses_raw j A cs :
  parses j A (RawNode A cs) → (A = "iter_stmt" → has_iter) ∧ ∃ i, j = S i ∧ shapes i (alternatives A) cs.
Proof.
  intros (Hp & _ & Hh). inversion Hp as [|? ? Hin Hcs Hi]; subst. cbn in Hh.
  split; [done|]. destruct j as [|i]; [lia|]. exists i. split; [done|].
  apply (shapes_of _ _ _ _ Hin), shape_of; [done|lia].
Qed.

Lemma parses_mono i j A n : i ≤ j → parses i A n → parses j A n.
Proof. intros Hij (Hp & Hr & Hh). split_and!; [done..|lia]. Qed.

(** ** Results *)

Definition freed_read (w : string) : Prop := freed ∧ w = "use after free"%string.
(** The result is in [P], or a literal of the tree is out of range, or freed
    memory was read. *)
Definition safe {A} (P : A → Prop) (r : result A) : Prop :=
  match r with
  | Ok x => P x
  | Throw (out_of_range w) => ∃ s v, leaf s v ∧ SimplifyLeaf s v = Throw (out_of_range w)
  | Throw (undefined_behaviour w) => freed_read w
  | _ => False
  end.

Lemma safe_bind {A B} (P : A → Prop) (Q : B → Prop) (f : A → result B) r :
  safe P r → (∀ x, P x → safe Q (f x)) → safe Q (r ≫= f).
Proof. destruct r as [x|[]|]; cbn; auto. Qed.
Lemma safe_fmap {A B} (P : A → Prop) (Q : B → Prop) (f : A → B) r :
  safe P r → (∀ x, P x → Q (f x)) → safe Q (f <$> r).
Proof. destruct r as [x|[]|]; cbn; auto. Qed.
Lemma safe_mono {A} (P Q : A → Prop) r : safe P r → (∀ x, P x → Q x) → safe Q r.
Proof. destruct r as [x|[]|]; cbn; auto. Qed.
Definition total {A} (f : Node → result A) (symbols : list string) : Prop :=
  ∀ j A cs, A ∈ symbols → parses j A (RawNode A cs) → ∃ x, f (RawNode A cs) = Ok x.
Lemma total_rec {A} (f : Node → result A) symbols :
  (∀ j, (∀ A cs, A ∈ symbols → parses j A (RawNode A cs) → ∃ x, f (RawNode A cs) = Ok x) →
    Forall (λ A, ∀ cs, parses (S j) A (RawNode A cs) → ∃ x, f (RawNode A cs) = Ok x) symbols) →
  total f symbols.
Proof.
  intros Hs j. induction j as [|j IH]; intros A' cs HA Hp; [by destruct (parses_raw _ _ _ Hp) as (_ & i & ? & _)|].
  pose proof (Hs j IH) as Hall. rewrite Forall_forall in Hall. by apply Hall.
Qed.
End parse_trees.

(** ** Tactics *)

#[global] Arguments ExtractType : simpl never.

(** The cases of a production, the children written out. *)
Ltac break H :=
  lazymatch type of H with
  | False => destruct H
  | _ ∨ _ => destruct H as [H|H]; break H
  | ex _ => let y := fresh "c" in destruct H as [y H]; break H
  | _ ∧ _ => let H1 := fresh "Hc" in destruct H as [H1 H]; break H1; break H
  | ?x = _ => first [subst x | discriminate H | simplify_eq]
  | _ => idtac
  end.
Ltac by_rule H :=
  let Hj := fresh "Hj" in let Hs := fresh "Hs" in let i := fresh "i" in
  destruct (parses_raw _ _ _ H) as (_ & i & Hj & Hs);
  first [injection Hj as <- | subst];
  cbv -[parses leaf] in Hs; break Hs.
(** The decisions on names, evaluated. *)
Ltac decided :=
  repeat (progress cbn || match goal with
  | |- context [match @decide ?P ?D with left _ => ?x | right _ => ?y end] =>
    let b := eval vm_compute in (@bool_decide P D) in
    lazymatch b with
    | true => rewrite (@if_true P D _ x y ltac:(vm_compute; reflexivity))
    | false => rewrite (@if_false P D _ x y ltac:(vm_compute; reflexivity))
    end
  | |- context [@bool_decide ?P ?D] =>
    let b := eval vm_compute in (@bool_decide P D) in
    lazymatch b with
    | true => change (@bool_decide P D) with true
    | false => change (@bool_decide P D) with false
    end
  end).

Ltac member := solve [repeat constructor].
Ltac lower H := eapply parses_mono; [|exact H]; lia.
(** The children a recursive function descends into, by its induction
    hypothesis. *)
Ltac descend IH :=
  repeat match goal with H : parses _ ?A (RawNode ?A ?c) |- context [RawNode ?A ?c] =>
    let E := fresh "E" in
    destruct (IH A c ltac:(member) ltac:(first [exact H|lower H])) as [? E];
    revert E; generalize (RawNode A c); intros ? E
  end.
Ltac run :=
  repeat (progress decided || match goal with E : ?f ?n = Ok _ |- context [?f ?n] => rewrite E end).

Ltac each_symbol := repeat (apply Forall_cons; split); [..|by apply Forall_nil].

Section totals.
Context `{Tree}.

Definition type_symbols : list string :=
  ["type_guide_opt"; "dataType"; "base_dataType"; "type_args_opt"; "dataType_list"; "dataType_list_tail";
   "type_constraint"; "type_constraint_tail"]%string.

Lemma ExtractType_raw rule cs :
  ExtractType (RawNode rule cs) = type_rule rule cs (List.map ExtractType cs)
    match cs with _ :: RawNode _ (_ :: target :: _) :: _ => ExtractType target | _ => Ok "" end.
Proof. done. Qed.
Lemma ExtractType_leaf s v : ExtractType (LeafNode s v) = Ok v.
Proof. done. Qed.

Lemma ExtractType_total : total ExtractType type_symbols.
Proof.
  apply total_rec. intros j IH. each_symbol; intros cs Hp; rewrite ExtractType_raw; by_rule Hp; cbn [List.map].
  all: repeat match goal with H : parses _ "dataType_tail" (RawNode _ ?c) |- _ => by_rule H end.
  all: repeat match goal with H : parses _ ?A (RawNode ?A ?c) |- context [ExtractType (RawNode ?A ?c)] =>
         destruct (IH A c ltac:(member) ltac:(lower H)) as [? E]; rewrite !E; clear H E end.
  all: rewrite ?ExtractType_leaf; unfold type_rule, base_type, arrow_type, join_type; decided.
  all: repeat case_match; eauto.
Qed.

End totals.

Ltac types :=
  repeat match goal with H : parses ?j ?A (RawNode ?A ?c) |- context [ExtractType (RawNode ?A ?c)] =>
    let E := fresh "E" in
    destruct (ExtractType_total j A c ltac:(member) H) as [? E]; rewrite !E; clear E
  end.

Section name_lists.
Context `{Tree}.

(** ** Lists of names *)

Lemma FlattenRaisedEffects_total :
  total FlattenRaisedEffects ["effect_spec_opt"; "effect_type_list"; "effect_type_list_tail"; "effect_type"].
Proof.
  apply total_rec. intros j IH. each_symbol; intros cs Hp; by_rule Hp; descend IH; run; eauto.
Qed.

Lemma FlattenContextBindings_total :
  total FlattenContextBindings
    ["context_req_opt"; "context_binding_list"; "context_binding_list_tail"; "context_binding"].
Proof.
  apply total_rec. intros j IH. each_symbol; intros cs Hp; by_rule Hp; descend IH; run; types; run; eauto.
Qed.
Lemma FlattenTypeParams_total :
  total FlattenTypeParams ["type_params_opt"; "type_params"; "type_params_tail"; "type_param"].
Proof.
  apply total_rec. intros j IH. each_symbol; intros cs Hp; by_rule Hp.
  all: repeat match goal with H : parses _ "type_constraint_opt" (RawNode _ ?c) |- _ => by_rule H end.
  all: descend IH; run; types; run; repeat case_match; eauto.
Qed.

Lemma FlattenQualifiedTypeList_total :
  total FlattenQualifiedTypeList ["implements_opt"; "interface_type_list"; "interface_type_list_tail"].
Proof.
  apply total_rec. intros j IH. each_symbol; intros cs Hp; by_rule Hp.
  all: descend IH; descend (ExtractType_total j); run; eauto.
Qed.

Lemma type_list_total : total type_list ["dataType_list"; "dataType_list_tail"].
Proof.
  apply total_rec. intros j IH. each_symbol; intros cs Hp; by_rule Hp.
  all: descend IH; descend (ExtractType_total j); run; eauto.
Qed.

Lemma FlattenEnumVariants_total :
  total FlattenEnumVariants ["variant_list"; "variant_list_tail"; "variant_decl"].
Proof.
  apply total_rec. intros j IH. each_symbol; intros cs Hp; by_rule Hp.
  all: repeat match goal with H : parses _ "variant_args_opt" (RawNode _ ?c) |- _ => by_rule H end.
  all: repeat match goal with H : parses ?J "dataType_list" (RawNode _ ?c) |- _ =>
         destruct (type_list_total J _ c ltac:(member) H) as [? E]; clear H end.
  all: descend IH; try (revert E; generalize (RawNode "dataType_list" c2); intros); run; eauto.
Qed.

End name_lists.
End AstTrees.
