(* ===== verification/AstBuilderSpec.v ===== *)
(** * The builder of the syntax tree: what it makes of parse trees *)

From S2P Require Import Prelude Reader Token Lexer LexerSpec Grammar TableBuilder Parser ParserSpec.
From S2P Require Import Value Ast TypeNames GrammarText AstBuilder AstSorts AstTrees.
From Stdlib Require Import Lia.

Module AstBuilderSpec.
Import Value Ast TypeNames AstBuilder AstSorts AstTrees.

(** The results of [simplify], and of a function that yields [P]. *)
Ltac runs := repeat (progress run || match goal with
  | E : safe ?P (?f ?n) |- context [?f ?n] =>
      let r := fresh "r" in destruct (f n) as [r|[]|]; cbn in E; try solve [destruct E | exact E]
  | E : ∃ s v, leaf s v ∧ _ |- ∃ s v, leaf s v ∧ _ => exact E
  | E : freed_read ?w |- freed_read ?w => exact E
  | E : ∃ p, _ = Some [p] ∧ _ |- _ => destruct E as (? & -> & ?)
  end).

Section simplify.
Context `{Tree} (simplify : Node → result Node) (after_free : string → result string) (k : nat).
Context (simplify_ok : ∀ j A S cs, j ≤ k → sort_of A cs = Some S → parses j A (RawNode A cs) →
  safe S (simplify (RawNode A cs))).

Lemma levels_rec (Q : Node → Prop) symbols :
  (∀ j, S j ≤ k → (∀ A cs, A ∈ symbols → parses j A (RawNode A cs) → Q (RawNode A cs)) →
    Forall (λ A, ∀ cs, parses (S j) A (RawNode A cs) → Q (RawNode A cs)) symbols) →
  ∀ j A cs, j ≤ k → A ∈ symbols → parses j A (RawNode A cs) → Q (RawNode A cs).
Proof.
  intros Hs j. induction j as [|j IH]; intros A cs Hj HA Hp; [by destruct (parses_raw _ _ _ Hp) as (_ & i & ? & _)|].
  pose proof (Hs j Hj (λ A cs HA Hp, IH A cs ltac:(lia) HA Hp)) as Hall. rewrite Forall_forall in Hall. by apply Hall.
Qed.

Definition yields {A} (f : Node → result A) (P : A → Prop) (symbols : list string) : Prop :=
  ∀ j A cs, j ≤ k → A ∈ symbols → parses j A (RawNode A cs) → safe P (f (RawNode A cs)).
Lemma yields_rec {A} (f : Node → result A) P symbols :
  (∀ j, S j ≤ k → (∀ A cs, A ∈ symbols → parses j A (RawNode A cs) → safe P (f (RawNode A cs))) →
    Forall (λ A, ∀ cs, parses (S j) A (RawNode A cs) → safe P (f (RawNode A cs))) symbols) →
  yields f P symbols.
Proof. exact (levels_rec (λ n, safe P (f n)) symbols). Qed.
End simplify.

(** The children that [simplify] is called on. *)
Ltac simplified :=
  repeat match goal with
  | Hs : ∀ j A S cs, j ≤ ?k → sort_of A cs = Some S → parses j A (RawNode A cs) → safe S (?f (RawNode A cs)),
    H : parses ?J ?A (RawNode ?A ?c) |- context [RawNode ?A ?c] =>
      let E := fresh "E" in
      let S := eval cbv in (sort_of A c) in
      lazymatch S with Some ?S =>
        pose proof (Hs J A S c ltac:(lia) eq_refl H) as E; clear H
      end
  end.
Ltac descends IH :=
  repeat match goal with H : parses _ ?A (RawNode ?A ?c) |- context [RawNode ?A ?c] =>
    let E := fresh "E" in
    pose proof (IH A c ltac:(member) ltac:(first [exact H|lower H])) as E;
    revert E; generalize (RawNode A c); intros ? E
  end.

Create HintDb sorts.
#[export] Hint Constructors expression optional_expression initial formal body block statement variable
  else_branch adapted handler contract struct_method interface_method actor_field actor_method declaration
  top_level items module_line program : sorts.
#[export] Hint Resolve Forall_nil_2 Forall_cons_2 Forall_app_2 : sorts.
(** A terminal is its own text. *)
Ltac not_class := refine (bool_decide_unpack _ _); vm_compute; exact I.
(** A tree has a positive height. *)
Ltac by_level H := let i := fresh "i" in destruct (parses_raw _ _ _ H) as (_ & i & -> & _).
(** The cases of the symbols named. *)
Ltac open_rule A := repeat match goal with H : parses _ A (RawNode _ ?c) |- _ => by_rule H; try lia end.

(** What a function yields, or gives, on the children. *)
Ltac yielded L :=
  repeat match goal with H : parses ?J ?A (RawNode ?A ?c) |- context [RawNode ?A ?c] =>
    let E := fresh "E" in
    first [ pose proof (L J A c ltac:(lia) ltac:(member) H) as E | destruct (L J A c ltac:(member) H) as [? E] ];
    clear H
  end.

#[local] Arguments FlattenTypeParams : simpl never.
#[local] Arguments FlattenContextBindings : simpl never.
#[local] Arguments FlattenRaisedEffects : simpl never.
#[local] Arguments FlattenQualifiedTypeList : simpl never.
#[local] Arguments FlattenEnumVariants : simpl never.

Section flatten.
Context `{Tree} (simplify : Node → result Node) (after_free : string → result string) (k : nat).
Context (simplify_ok : ∀ j A S cs, j ≤ k → sort_of A cs = Some S → parses j A (RawNode A cs) →
  safe S (simplify (RawNode A cs))).

Context (simplify_leaf : ∀ s v, 0 < k → simplify (LeafNode s v) = SimplifyLeaf s v).

Lemma FlattenArgs_safe :
  yields k (FlattenArgs simplify) (Forall expression) ["arg_list_opt"; "arg_list"; "arg_list_tail"].
Proof.
  apply yields_rec. intros j Hj IH. each_symbol; intros cs Hp; by_rule Hp.
  all: descends IH; simplified; runs; eauto with sorts.
Qed.
#[local] Arguments FlattenArgs : simpl never.

Lemma parameter_safe :
  yields k (parameter simplify) (λ o, ∃ p, o = Some [p] ∧ formal p) ["parameter"].
Proof.
  intros j A cs Hj [->|[]%elem_of_nil]%elem_of_cons Hp.
  by_rule Hp; open_rule "variadic_param"; open_rule "named_param"; open_rule "assign_expr_opt".
  all: simplified; unfold parameter; runs; types; runs; eauto 7 with sorts.
Qed.

Lemma FlattenParams_safe :
  yields k (FlattenParams simplify) (Forall formal) ["param_list_opt"; "param_list"; "param_list_tail"].
Proof.
  apply yields_rec. intros j Hj IH. each_symbol; intros cs Hp; by_rule Hp.
  all: descends IH; yielded parameter_safe; runs; eauto with sorts.
Qed.
#[local] Arguments FlattenParams : simpl never.

Lemma FlattenContracts_safe :
  yields k (FlattenContracts simplify) (Forall contract) ["contract_list"; "contract"].
Proof.
  apply yields_rec. intros j Hj IH. each_symbol; intros cs Hp; by_rule Hp.
  all: descends IH; simplified; runs; eauto with sorts.
Qed.
#[local] Arguments FlattenContracts : simpl never.

(** *** Functions and methods *)

(** The children of a node. *)
Definition child_ok (j : nat) (c : Node) : Prop :=
  match c with LeafNode _ _ => True | RawNode A _ => parses j A c | _ => False end.
Lemma children_ok j A cs : parses (S j) A (RawNode A cs) → Forall (child_ok j) cs.
Proof.
  intros (Hp & _ & Hh). inversion Hp as [|? ? _ Hcs _]; subst. cbn in Hh.
  assert (list_max (List.map height cs) ≤ j) as Hm by lia. clear Hp Hh. revert Hm.
  induction Hcs as [|c cs Hc _ IH]; [constructor|].
  change (list_max (List.map height (c :: cs))) with (Nat.max (height c) (list_max (List.map height cs))).
  intros Hm. constructor; [|apply IH; lia]. destruct Hc; [done|]. split_and!; [by constructor|done|lia].
Qed.

Lemma fold_safe {S} (I : bool → S → Prop) (sets : Node → bool) step j cs :
  (∀ b s c, I b s → child_ok j c → safe (I (b || sets c)) (step s c)) →
  Forall (child_ok j) cs → ∀ b s, I b s → safe (I (b || existsb sets cs)) (fold_result step s cs).
Proof.
  intros Hstep. induction 1 as [|c cs Hc _ IH]; intros b s Hs; cbn; [by rewrite orb_false_r|].
  eapply safe_bind; [by apply Hstep|]. intros s'. rewrite orb_assoc. apply IH.
Qed.

(** The parameters and contracts read so far; with the flag, the body too. *)
Definition read (B : Node → Prop) (b : bool) (p : parts) : Prop :=
  Forall formal (p_params p) ∧ Forall contract (p_contracts p) ∧ (b = true → B (p_body p)).

Lemma signature_safe j p b rule cs :
  j ≤ k → read block b p → parses j rule (RawNode rule cs) →
  safe (read block (b || is_raw "block_stmt" (RawNode rule cs))) (signature simplify p rule (RawNode rule cs)).
Proof.
  intros Hj (Hps & Hcs & Hb) Hp. unfold signature, signature_step, is_raw.
  destruct (decide (rule = "block_stmt")) as [->|Hr].
  { decided. rewrite orb_true_r. eapply safe_bind; [by apply (simplify_ok j "block_stmt" block _ Hj eq_refl)|].
    intros x Hx. by split_and!. }
  rewrite bool_decide_false // orb_false_r. repeat case_decide; subst; cbn; [..|by split_and!].
  - eapply safe_bind; [by apply (FlattenParams_safe j _ _ Hj); [member|]|]. intros l Hl.
    split_and!; [by apply Forall_app_2|done..].
  - destruct (FlattenContextBindings_total j _ cs ltac:(member) Hp) as [? ->]. by cbn.
  - destruct (FlattenRaisedEffects_total j _ cs ltac:(member) Hp) as [? ->]. by cbn.
  - eapply safe_bind; [by apply (FlattenContracts_safe j _ _ Hj); [member|]|]. intros l Hl.
    split_and!; [done|by apply Forall_app_2|done].
Qed.

Lemma guided_type j rule cs :
  parses j rule (RawNode rule cs) → guided rule cs = true → ∃ t, ExtractType (RawNode rule cs) = Ok t.
Proof.
  intros Hp [->%bool_decide_eq_true _]%andb_true_iff. by apply (ExtractType_total j); [member|].
Qed.

Lemma read_function_name b p rule cs : read block b p → read block b (function_name p rule cs).
Proof. intros Hr. unfold function_name. by repeat case_match. Qed.

Lemma func_step_safe j b p c :
  j ≤ k → read block b p → child_ok j c → safe (read block (b || is_raw "block_stmt" c)) (func_step simplify p c).
Proof.
  intros Hj Hr. destruct c; try done; intros Hp; unfold func_step.
  - rewrite orb_false_r. by repeat case_match.
  - apply (read_function_name _ _ ruleName children) in Hr. revert Hr. generalize (function_name p ruleName children). clear p.
    intros p Hr. eapply (safe_bind (read block b)).
    { destruct (guided _ _) eqn:Hg; [|done]. by destruct (guided_type _ _ _ Hp Hg) as [? ->]. }
    clear p Hr. intros p Hr. eapply (safe_bind (read block b)).
    { case_decide as He; [subst|done]. by destruct (FlattenTypeParams_total j _ _ ltac:(member) Hp) as [? ->]. }
    clear p Hr. intros p Hr. by apply signature_safe with j.
Qed.

Lemma struct_method_step_safe j b p c :
  j ≤ k → read block b p → child_ok j c →
  safe (read block (b || is_raw "block_stmt" c)) (struct_method_step simplify p c).
Proof.
  intros Hj Hr. destruct c; try done; intros Hp; unfold struct_method_step.
  - rewrite orb_false_r. by repeat case_match.
  - apply (read_function_name _ _ ruleName children) in Hr. destruct (guided _ _) eqn:Hg.
    + destruct (guided_type _ _ _ Hp Hg) as [? ->]. apply andb_true_iff in Hg as [->%bool_decide_eq_true _].
      cbn. rewrite orb_false_r. exact Hr.
    + by apply signature_safe with j.
Qed.

Lemma actor_method_step_safe j b p c :
  j ≤ k → read block b p → child_ok j c →
  safe (read block (b || is_raw "block_stmt" c)) (actor_method_step simplify p c).
Proof.
  intros Hj Hr. destruct c; try done; intros Hp; unfold actor_method_step.
  - rewrite orb_false_r. by repeat case_match.
  - case_decide as He; [subst; cbn; rewrite orb_false_r; by case_match|]. case_decide as Hf.
    { destruct Hf as [-> _]. cbn. rewrite orb_false_r. by apply read_function_name. }
    destruct (guided _ _) eqn:Hg; [|by apply signature_safe with j].
    destruct (guided_type _ _ _ Hp Hg) as [? ->]. apply andb_true_iff in Hg as [->%bool_decide_eq_true _].
    cbn. rewrite orb_false_r. exact Hr.
Qed.

Lemma SimplifyFuncDecl_safe j cs :
 j ≤ k → parses (S j) "func_decl" (RawNode "func_decl" cs) → safe declaration (SimplifyFuncDecl simplify cs).
Proof.
  intros Hj Hp. pose proof (children_ok _ _ _ Hp) as Hc. unfold SimplifyFuncDecl.
  eapply safe_bind; [apply (fold_safe (read block) (is_raw "block_stmt") _ j _ (λ b s c, func_step_safe j b s c ltac:(lia)) Hc false)|].
  { by split_and!. }
  intros p (Hps & Hcs & Hb). apply decl_function; [done..|]. apply Hb. clear -Hp. by by_rule Hp.
Qed.

Lemma SimplifyStructMethod_safe j cs :
  j ≤ k → parses (S j) "struct_method" (RawNode "struct_method" cs) →
  safe struct_method (SimplifyStructMethod simplify cs).
Proof.
  intros Hj Hp. pose proof (children_ok _ _ _ Hp) as Hc. unfold SimplifyStructMethod.
  eapply safe_bind;
    [apply (fold_safe (read block) (is_raw "block_stmt") _ j _ (λ b s c, struct_method_step_safe j b s c Hj) Hc false)|].
  { by split_and!. }
  intros p (Hps & Hcs & Hb). apply struct_method_intro; [done..|]. apply Hb. clear -Hp. by by_rule Hp.
Qed.

Lemma SimplifyActorMethod_safe j cs :
  j ≤ k → parses (S j) "actor_method" (RawNode "actor_method" cs) →
  safe actor_method (SimplifyActorMethod simplify cs).
Proof.
  intros Hj Hp. pose proof (children_ok _ _ _ Hp) as Hc. unfold SimplifyActorMethod.
  eapply safe_bind;
    [apply (fold_safe (read block) (is_raw "block_stmt") _ j _ (λ b s c, actor_method_step_safe j b s c Hj) Hc false)|].
  { by split_and!. }
  intros p (Hps & Hcs & Hb). apply actor_method_intro; [done..|]. apply Hb. clear -Hp. by by_rule Hp.
Qed.

Lemma interface_method_step_safe j b p c :
  j ≤ k → read block b p → child_ok j c → safe (read block (b || false)) (interface_method_step simplify p c).
Proof.
  intros Hj Hr. destruct c; try done; intros Hp; unfold interface_method_step; rewrite orb_false_r.
  - by repeat case_match.
  - apply (read_function_name _ _ ruleName children) in Hr. case_decide; subst.
    { eapply safe_bind; [by apply (FlattenParams_safe j _ _ Hj); [member|]|]. intros l Hl.
      destruct Hr as (Hps & Hcs & Hb). split_and!; [by apply Forall_app_2|done..]. }
    destruct (guided _ _) eqn:Hg; [by destruct (guided_type _ _ _ Hp Hg) as [? ->]|].
    case_decide; subst; [|done]. by destruct (FlattenRaisedEffects_total j _ _ ltac:(member) Hp) as [? ->].
Qed.

Lemma FlattenInterfaceMethods_safe :
  yields k (FlattenInterfaceMethods simplify) (Forall interface_method) ["method_sig_list"; "method_sig"].
Proof.
  apply yields_rec. intros j Hj IH. each_symbol; intros cs Hp.
  - by_rule Hp; descends IH; runs; eauto with sorts.
  - pose proof (children_ok _ _ _ Hp) as Hc. assert (cs ≠ []) as Hne by (clear -Hp; by by_rule Hp).
    cbn [FlattenInterfaceMethods]. rewrite decide_False //. decided. eapply safe_bind.
    { apply (fold_safe (read block) (λ _, false) _ j _ (λ b s c, interface_method_step_safe j b s c ltac:(lia)) Hc false).
      by split_and!. }
    intros p (Hps & Hcs & Hb). cbn. auto with sorts.
Qed.
#[local] Arguments FlattenInterfaceMethods : simpl never.

(** The body of an arrow function: a block, or an expression. *)
Definition arrow_result (b : Node) : Prop := block b ∨ expression b.
Lemma arrow_step_safe j b p c :
  j ≤ k → read arrow_result b p → child_ok j c →
  safe (read arrow_result (b || is_raw "arrow_body" c)) (arrow_step simplify p c).
Proof.
  intros Hj Hr. destruct c; try done; intros Hp; unfold arrow_step; [by rewrite orb_false_r|].
  unfold is_raw. rename ruleName into rule, children into cs. destruct Hr as (Hps & Hcs & Hb).
  destruct (decide (rule = "arrow_body")) as [->|Hn].
  { decided. rewrite orb_true_r. by_rule Hp; simplified; runs; (split_and!; [done..|intros _; first [by left|by right]]). }
  rewrite bool_decide_false // orb_false_r. repeat case_decide; subst; try done.
  - eapply safe_bind; [by apply (FlattenParams_safe j _ _ Hj); [member|]|]. intros l Hl.
    split_and!; [by apply Forall_app_2|done..].
  - by destruct (FlattenRaisedEffects_total j _ cs ltac:(member) Hp) as [? ->].
Qed.

Lemma SimplifyArrowFunc_safe j cs :
  j ≤ k → parses (S j) "arrow_func" (RawNode "arrow_func" cs) → safe expression (SimplifyArrowFunc simplify cs).
Proof.
  intros Hj Hp. pose proof (children_ok _ _ _ Hp) as Hc. unfold SimplifyArrowFunc.
  eapply safe_bind;
    [apply (fold_safe (read arrow_result) (is_raw "arrow_body") _ j _ (λ b s c, arrow_step_safe j b s c Hj) Hc false)|].
  { by split_and!. }
  intros p (Hps & Hcs & Hb). apply expr_function; [done|].
  destruct Hb as [Hb|Hb]; [clear -Hp; by by_rule Hp|by destruct Hb; auto with sorts|].
  destruct Hb; auto with sorts.
Qed.

(** *** Members and declarations *)

Definition right_ok {A B} (P : B → Prop) (x : A + B) : Prop := match x with inl _ => True | inr b => P b end.
Definition left_ok {A B} (P : A → Prop) (x : A + B) : Prop := match x with inl a => P a | inr _ => True end.
Lemma rights_Forall {A B} (P : B → Prop) (l : list (A + B)) : Forall (right_ok P) l → Forall P (rights l).
Proof. induction 1 as [|[a|b] l Hx _ IH]; [constructor|done|by constructor]. Qed.
Lemma lefts_Forall {A B} (P : A → Prop) (l : list (A + B)) : Forall (left_ok P) l → Forall P (lefts l).
Proof. induction 1 as [|[a|b] l Hx _ IH]; [constructor|by constructor|done]. Qed.

Lemma FlattenStructFields_total : total FlattenStructFields ["field_decl"].
Proof.
  apply total_rec. intros j IH. each_symbol; intros cs Hp; by_rule Hp; run; types; run; eauto.
Qed.
#[local] Arguments FlattenStructFields : simpl never.

Lemma inl_fields {B} (P : B → Prop) (fs : list StructField) : Forall (right_ok P) (List.map inl fs).
Proof. induction fs; by constructor. Qed.

Lemma FlattenStructMembers_safe :
  yields k (FlattenStructMembers simplify) (Forall (right_ok struct_method)) ["struct_member_list"; "struct_member"].
Proof.
  apply yields_rec. intros j Hj IH. each_symbol; intros cs Hp; by_rule Hp.
  1-2: descends IH; runs; eauto with sorts.
  all: cbn [FlattenStructMembers]; decided.
  - destruct (FlattenStructFields_total j _ _ ltac:(member) Hc) as [fs ->]. apply inl_fields.
  - by_level Hc. eapply safe_bind; [eapply SimplifyStructMethod_safe; [|exact Hc]; lia|]. intros m Hm. cbn. auto with sorts.
Qed.
#[local] Arguments FlattenStructMembers : simpl never.

Lemma actor_field_step_safe j f c :
  j ≤ k → initial f.2 → child_ok j c → safe (λ f, initial f.2) (actor_field_step simplify f c).
Proof.
  destruct f as [[name type] i]. cbn [snd]. intros Hj Hi. destruct c; try done; intros Hp; unfold actor_field_step.
  case_decide; subst; [by destruct (ExtractType_total j "dataType" _ ltac:(member) Hp) as [? ->]|].
  destruct (initializer _) as [e|] eqn:He; [|done].
  unfold initializer in He. destruct children as [|x [|y l]]; try done. case_decide; [|done].
  injection He as ->. subst. by_rule Hp. simplified. runs. by apply some_initial.
Qed.

Lemma concat_results_safe {A} (P : A → Prop) (l : list (result (list A))) :
  Forall (safe (Forall P)) l → safe (Forall P) (concat_results l).
Proof.
  induction 1 as [|r l Hr _ IH]; cbn; [constructor|]. eapply safe_bind; [exact Hr|]. intros x Hx.
  eapply safe_bind; [exact IH|]. intros y Hy. by apply Forall_app_2.
Qed.

Lemma collect_safe {A} (P : A → Prop) rule f j cs :
  (∀ cs, parses j rule (RawNode rule cs) → safe (Forall P) (f (RawNode rule cs))) →
  Forall (child_ok j) cs → safe (Forall P) (collect rule f cs).
Proof.
  intros Hf Hc. apply concat_results_safe. induction Hc as [|c cs Hc _ IH]; cbn; constructor; [|done].
  destruct c; try constructor. unfold is_raw. case_bool_decide; [subst; by apply Hf|constructor].
Qed.
Lemma collect_total {A} rule (f : Node → result (list A)) symbols j cs :
  total f symbols → rule ∈ symbols → Forall (child_ok j) cs → safe (Forall (λ _, True)) (collect rule f cs).
Proof.
  intros Hf Hr. apply collect_safe. intros cs' Hp. destruct (Hf _ _ _ Hr Hp) as [x ->]. cbn. by apply Forall_true.
Qed.

Definition actor_member (x : ActorFieldDecl + ActorMethodDecl) : Prop :=
  match x with inl f => actor_field f | inr m => actor_method m end.
Lemma FlattenActorBody_safe :
  yields k (FlattenActorBody simplify) (Forall actor_member)
    ["actor_body"; "actor_field_list"; "actor_method_list"; "actor_field"; "actor_method"].
Proof.
  apply yields_rec. intros j Hj IH. each_symbol; intros cs Hp.
  1-3: by_rule Hp; descends IH; runs; auto with sorts.
  - pose proof (children_ok _ _ _ Hp) as Hc. assert (cs ≠ []) as Hne by (clear -Hp; by by_rule Hp).
    cbn [FlattenActorBody]. rewrite decide_False //. decided. eapply safe_bind.
    { apply (fold_safe (λ _ f, initial f.2) (λ _, false) _ j _
        (λ b f c, actor_field_step_safe j f c ltac:(lia)) Hc false). constructor. }
    intros [[name type] i] Hi. constructor; [by constructor|constructor].
  - assert (cs ≠ []) as Hne by (clear -Hp; by by_rule Hp).
    cbn [FlattenActorBody]. rewrite decide_False //. decided.
    eapply safe_bind; [eapply SimplifyActorMethod_safe; [|exact Hp]; lia|]. intros m Hm. by constructor.
Qed.
#[local] Arguments FlattenActorBody : simpl never.

Lemma actor_members l :
  Forall actor_member l → Forall actor_field (lefts l) ∧ Forall actor_method (rights l).
Proof.
  intros Hl. split; [apply lefts_Forall|apply rights_Forall]; (eapply Forall_impl; [exact Hl|]); by intros [?|?].
Qed.

Lemma SimplifyStructDecl_safe j cs :
  j ≤ k → parses (S j) "struct_decl_no_semi" (RawNode "struct_decl_no_semi" cs) →
  safe declaration (SimplifyStructDecl simplify cs).
Proof.
  intros Hj Hc%children_ok. unfold SimplifyStructDecl.
  eapply safe_bind; [by eapply collect_total; [apply FlattenTypeParams_total|member|]|intros tps _].
  eapply safe_bind; [by eapply collect_total; [apply FlattenQualifiedTypeList_total|member|]|intros fs _].
  eapply safe_bind; [eapply collect_safe; [|done]; intros; by apply (FlattenStructMembers_safe j); [|member|]|intros ms Hms].
  eapply safe_bind; [eapply collect_safe; [|done]; intros; by apply (FlattenContracts_safe j); [|member|]|intros l Hl].
  apply decl_struct; [by apply rights_Forall|done].
Qed.

Lemma SimplifyEnumDecl_safe j cs :
  parses (S j) "enum_decl_no_semi" (RawNode "enum_decl_no_semi" cs) → safe declaration (SimplifyEnumDecl cs).
Proof.
  intros Hc%children_ok. unfold SimplifyEnumDecl.
  eapply safe_bind; [by eapply collect_total; [apply FlattenTypeParams_total|member|]|intros tps _].
  eapply safe_bind; [by eapply collect_total; [apply FlattenEnumVariants_total|member|]|intros vs _].
  apply decl_enum.
Qed.

Lemma SimplifyInterfaceDecl_safe j cs :
  j ≤ k → parses (S j) "interface_decl_no_semi" (RawNode "interface_decl_no_semi" cs) →
  safe declaration (SimplifyInterfaceDecl simplify cs).
Proof.
  intros Hj Hc%children_ok. unfold SimplifyInterfaceDecl.
  eapply safe_bind; [by eapply collect_total; [apply FlattenTypeParams_total|member|]|intros tps _].
  eapply safe_bind;
    [eapply collect_safe; [|done]; intros; by apply (FlattenInterfaceMethods_safe j); [|member|]|intros ms Hms].
  by apply decl_interface.
Qed.

Lemma SimplifyEffectDecl_safe j cs :
  j ≤ k → parses (S j) "effect_def_no_semi" (RawNode "effect_def_no_semi" cs) →
  safe declaration (SimplifyEffectDecl simplify cs).
Proof.
  intros Hj Hc%children_ok. unfold SimplifyEffectDecl.
  eapply (safe_bind (Forall interface_method)); [eapply collect_safe; [|done]|intros ms Hms; by apply decl_effect].
  intros cs' Hp. by_rule Hp; [|constructor]. cbn. apply (FlattenInterfaceMethods_safe i); [lia|member|done].
Qed.

Lemma SimplifyActorDecl_safe j cs :
  j ≤ k → parses (S j) "actor_decl_no_semi" (RawNode "actor_decl_no_semi" cs) →
  safe declaration (SimplifyActorDecl simplify cs).
Proof.
  intros Hj Hc%children_ok. unfold SimplifyActorDecl.
  eapply safe_bind; [by eapply collect_total; [apply FlattenTypeParams_total|member|]|intros tps _].
  eapply safe_bind; [eapply collect_safe; [|done]; intros; by apply (FlattenActorBody_safe j); [|member|]|intros ms Hms].
  destruct (actor_members _ Hms). by apply decl_actor.
Qed.

Lemma SimplifyExportDecl_safe j cs :
  j ≤ k → parses (S j) "export_decl" (RawNode "export_decl" cs) → safe top_level (SimplifyExportDecl simplify cs).
Proof.
  intros Hj Hp. by_rule Hp. pose proof (parses_raw _ _ _ Hc) as (_ & i & -> & Hs). cbv -[parses leaf] in Hs.
  destruct Hs as [Hs|[Hs|[Hs|[Hs|[]]]]]; break Hs.
  4: by decided; constructor.
  all: match goal with |- context [RawNode "exportable" ?cs] =>
    pose proof (simplify_ok (S i) "exportable" declaration cs Hj eq_refl Hc) as E end.
  all: decided; runs; pose proof E as Hd; destruct E as [? []| | | | | | |]; by apply top_export.
Qed.

Lemma SimplifyVarDecl_safe j cs :
  j ≤ k → parses (S j) "var_decl_no_semi" (RawNode "var_decl_no_semi" cs) →
  safe variable (SimplifyVarDeclNoSemi simplify cs).
Proof.
  intros Hj Hp. by_rule Hp; open_rule "type_guide_opt"; open_rule "assign_expr_opt"; simplified.
  all: unfold SimplifyVarDeclNoSemi; runs; types; runs; auto with sorts.
Qed.

Lemma SimplifyConstDecl_safe j cs :
  j ≤ k → parses (S j) "const_decl_no_semi" (RawNode "const_decl_no_semi" cs) →
  safe variable (SimplifyConstDeclNoSemi simplify cs).
Proof.
  intros Hj Hp. by_rule Hp; simplified.
  all: unfold SimplifyConstDeclNoSemi; runs; types; runs; auto with sorts.
Qed.

Lemma SimplifyTypeAlias_safe j cs :
  parses (S j) "type_alias_no_semi" (RawNode "type_alias_no_semi" cs) → safe declaration (SimplifyTypeAliasNoSemi cs).
Proof.
  intros Hp. pose proof (children_ok _ _ _ Hp) as Hc. unfold SimplifyTypeAliasNoSemi.
  eapply safe_bind; [by eapply collect_total; [apply FlattenTypeParams_total|member|]|intros tps _].
  clear Hc. by_rule Hp. unfold alias_step; runs; types; runs; auto with sorts.
Qed.

Lemma SimplifyModuleDecl_safe cs : safe module_line (SimplifyModuleDecl cs).
Proof. constructor. Qed.

Lemma SimplifyImportDecl_safe j cs :
  parses (S j) "import_decl" (RawNode "import_decl" cs) → safe top_level (SimplifyImportDecl cs).
Proof.
  intros Hp. by_rule Hp; open_rule "import_as_opt"; unfold SimplifyImportDecl; runs; auto with sorts.
Qed.

(** *** Statements *)

Lemma SimplifyIfStmt_safe j cs :
  j ≤ k → parses (S j) "if_stmt" (RawNode "if_stmt" cs) → safe statement (SimplifyIfStmt simplify cs).
Proof.
  intros Hj Hp. by_rule Hp; simplified; unfold SimplifyIfStmt, simplify_child; runs; auto with sorts.
Qed.
Lemma SimplifyWhileStmt_safe j cs :
  j ≤ k → parses (S j) "while_stmt" (RawNode "while_stmt" cs) → safe statement (SimplifyWhileStmt simplify cs).
Proof.
  intros Hj Hp. by_rule Hp; simplified; unfold SimplifyWhileStmt, simplify_child; runs; auto with sorts.
Qed.
Lemma SimplifyPrintStmt_safe j cs :
  j ≤ k → parses (S j) "print_stmt" (RawNode "print_stmt" cs) → safe statement (SimplifyPrintStmt simplify cs).
Proof.
  intros Hj Hp. by_rule Hp; simplified; unfold SimplifyPrintStmt, simplify_child; runs; auto with sorts.
Qed.
Lemma SimplifyUnsafeStmt_safe j cs :
  j ≤ k → parses (S j) "unsafe_stmt" (RawNode "unsafe_stmt" cs) → safe statement (SimplifyUnsafeStmt simplify cs).
Proof.
  intros Hj Hp. by_rule Hp; simplified; unfold SimplifyUnsafeStmt, filter; runs; auto with sorts.
Qed.
Lemma SimplifyTransactionStmt_safe j cs :
  j ≤ k → parses (S j) "transaction_stmt" (RawNode "transaction_stmt" cs) →
  safe statement (SimplifyTransactionStmt simplify cs).
Proof.
  intros Hj Hp. by_rule Hp; simplified; unfold SimplifyTransactionStmt, last_block; runs; auto with sorts.
Qed.

Lemma expression_not_null e : expression e → is_null e = false.
Proof. by destruct 1. Qed.
Lemma statement_not_null s : statement s → is_null s = false.
Proof. destruct 1 as [|e He|b []|d []| | | | | | |]; try done. by apply expression_not_null. Qed.
Lemma top_level_not_null s : top_level s → is_null s = false.
Proof.
  destruct 1 as [d Hd|s Hs| | |]; try done; [|by apply statement_not_null]. by destruct Hd as [d []| | | | | | |].
Qed.

(** A node with children has height two at least. *)
Lemma level_pos j A c cs : parses (S j) A (RawNode A (c :: cs)) → 0 < j.
Proof.
  intros (_ & _ & Hh). cbn in Hh. assert (0 < height c) by (destruct c; cbn; lia).
  change (S (Nat.max (height c) (list_max (List.map height cs))) ≤ S j) in Hh. lia.
Qed.
Lemma simplify_text j A c cs s :
  j ≤ k → parses (S j) A (RawNode A (c :: cs)) → s ∉ classes → simplify (LeafNode s s) = Ok (LeafNode s s).
Proof.
  intros Hj Hp%level_pos Hs. rewrite (simplify_leaf _ _ ltac:(lia)). unfold SimplifyLeaf.
  repeat case_decide; subst; try done; exfalso; apply Hs; repeat constructor.
Qed.

Lemma statements_safe : yields k (block_chain simplify) (Forall statement) ["statement_list"].
Proof.
  apply yields_rec. intros j Hj IH. each_symbol; intros cs Hp; by_rule Hp; descends IH; simplified; runs.
  - rewrite statement_not_null //. auto with sorts.
  - constructor.
Qed.
Lemma items_safe : yields k (block_chain simplify) (Forall top_level) ["top_level_list"].
Proof.
  apply yields_rec. intros j Hj IH. each_symbol; intros cs Hp; by_rule Hp; descends IH; simplified; runs.
  - rewrite top_level_not_null //. auto with sorts.
  - constructor.
Qed.
#[local] Arguments block_chain : simpl never.

Lemma block_chain_cons A c rest :
  block_chain simplify (RawNode A (c :: rest)) =
  (item ← simplify c;
   items ← match rest with next :: _ => block_chain simplify next | [] => Ok [] end;
   Ok (if is_null item then items else item :: items)).
Proof. done. Qed.

Lemma SimplifyBlock_safe j cs :
  j ≤ k → parses (S j) "block_stmt" (RawNode "block_stmt" cs) →
  safe block (SimplifyBlockChain simplify (RawNode "block_stmt" cs)).
Proof.
  intros Hj Hp. by_rule Hp. unfold SimplifyBlockChain. rewrite block_chain_cons.
  rewrite (simplify_text j _ _ _ "{" Hj Hp ltac:(not_class)).
  pose proof (statements_safe j _ _ Hj ltac:(member) Hc). runs. auto with sorts.
Qed.
Lemma SimplifyStatements_safe j cs :
  j ≤ k → parses (S j) "statement_list" (RawNode "statement_list" cs) →
  safe (λ n, ∃ l, n = BlockNode l ∧ Forall statement l) (SimplifyBlockChain simplify (RawNode "statement_list" cs)).
Proof.
  intros Hj Hp. unfold SimplifyBlockChain. by_rule Hp; [|by exists []].
  rewrite block_chain_cons. pose proof (statements_safe j _ _ Hj ltac:(member) Hc0). simplified. runs.
  rewrite statement_not_null //. eexists. split; [done|]. auto with sorts.
Qed.
Lemma SimplifyItems_safe j cs :
  j ≤ k → parses (S j) "top_level_list" (RawNode "top_level_list" cs) →
  safe items (SimplifyBlockChain simplify (RawNode "top_level_list" cs)).
Proof.
  intros Hj Hp. unfold SimplifyBlockChain. by_rule Hp; [|by repeat constructor].
  rewrite block_chain_cons. pose proof (items_safe j _ _ Hj ltac:(member) Hc0). simplified. runs.
  rewrite top_level_not_null //. auto with sorts.
Qed.
Lemma SimplifyProgram_safe j cs :
  j ≤ k → parses (S j) "program" (RawNode "program" cs) →
  safe program (SimplifyBlockChain simplify (RawNode "program" cs)).
Proof.
  intros Hj Hp. by_rule Hp; unfold SimplifyBlockChain; rewrite block_chain_cons.
  - pose proof (items_safe j _ _ Hj ltac:(member) Hc0). simplified. runs.
    destruct E0. cbn. by constructor.
  - simplified. runs. destruct E. cbn. by repeat constructor.
Qed.

Lemma FlattenIterAdapters_safe :
  yields k (FlattenIterAdapters simplify) (Forall adapted)
    ["adapter_chain_opt"; "adapter_list"; "adapter_list_tail"; "adapter"].
Proof.
  apply yields_rec. intros j Hj IH. each_symbol; intros cs Hp; by_rule Hp; descends IH; simplified.
  all: runs; unfold adapter, filter; runs; auto with sorts.
  all: unfold adapter_kind; decided; constructor; [first [by constructor|by apply adapted_by]|constructor].
Qed.
#[local] Arguments FlattenIterAdapters : simpl never.

Lemma SimplifyIterStmt_safe j cs :
  (has_iter → ∀ r, after_free r = Ok r ∨ (freed ∧ after_free r = undefined_read r)) →
  j ≤ k → parses (S j) "iter_stmt" (RawNode "iter_stmt" cs) →
  safe statement (SimplifyIterStmt simplify after_free cs).
Proof.
  intros Hfree Hj Hp. pose proof (parses_raw _ _ _ Hp) as (Hi & _). pose proof (Hfree (Hi eq_refl)) as Hread.
  by_rule Hp. yielded FlattenIterAdapters_safe. simplified.
  unfold SimplifyIterStmt, iter_step.
  repeat (progress runs || match goal with |- context [after_free ?r] =>
    let F := fresh "F" in let E := fresh "E" in
    destruct (Hread r) as [E|[F E]]; rewrite E; [|solve [exact (conj F eq_refl)]] end).
  auto with sorts.
Qed.

Lemma handler_step_safe j b p c :
  j ≤ k → read block b p → child_ok j c → safe (read block (b || is_raw "block_stmt" c)) (handler_step simplify p c).
Proof.
  intros Hj Hr. destruct c; try done; intros Hp; unfold handler_step, is_raw; [by rewrite orb_false_r|].
  destruct Hr as (Hps & Hcs & Hb). destruct (decide (ruleName = "block_stmt")) as [->|Hn].
  { decided. rewrite orb_true_r. eapply safe_bind; [by apply (simplify_ok j "block_stmt" block _ Hj eq_refl)|].
    intros x Hx. by split_and!. }
  rewrite bool_decide_false // orb_false_r. repeat case_decide; subst; try done.
  eapply safe_bind; [by apply (FlattenParams_safe j _ _ Hj); [member|]|]. intros l Hl.
  split_and!; [by apply Forall_app_2|done..].
Qed.
Lemma FlattenHandlerCases_safe :
  yields k (FlattenHandlerCases simplify) (Forall handler) ["handler_list"; "handler"].
Proof.
  apply yields_rec. intros j Hj IH. each_symbol; intros cs Hp.
  - by_rule Hp; descends IH; runs; auto with sorts.
  - pose proof (children_ok _ _ _ Hp) as Hc. assert (cs ≠ []) as Hne by (clear -Hp; by by_rule Hp).
    cbn [FlattenHandlerCases]. rewrite decide_False //. decided. eapply safe_bind.
    { apply (fold_safe (read block) (is_raw "block_stmt") _ j _ (λ b s c, handler_step_safe j b s c ltac:(lia)) Hc false).
      by split_and!. }
    intros p (Hps & Hcs & Hb). cbn in Hb. constructor; [|constructor]. constructor; [done|]. apply Hb.
    clear -Hp. by by_rule Hp.
Qed.
#[local] Arguments FlattenHandlerCases : simpl never.
Lemma SimplifyHandleStmt_safe j cs :
  j ≤ k → parses (S j) "handle_stmt" (RawNode "handle_stmt" cs) → safe statement (SimplifyHandleStmt simplify cs).
Proof.
  intros Hj Hp. by_rule Hp. yielded FlattenHandlerCases_safe. simplified.
  unfold SimplifyHandleStmt, last_expression, collect. runs. auto with sorts.
Qed.

(** *** Expressions *)

Lemma SimplifyArrayLit_safe j cs :
  j ≤ k → parses (S j) "array_lit" (RawNode "array_lit" cs) → safe expression (SimplifyArrayLit simplify cs).
Proof.
  intros Hj Hp. by_rule Hp. yielded FlattenArgs_safe. unfold SimplifyArrayLit, collect. runs.
  auto with sorts.
Qed.

Definition entry_ok (kv : Node * Node) : Prop := expression kv.1 ∧ expression kv.2.
Lemma map_entries_safe :
  yields k (map_entries simplify) (Forall entry_ok)
    ["map_entry_list_opt"; "map_entry_list"; "map_entry_list_tail"; "map_entry"].
Proof.
  apply yields_rec. intros j Hj IH. each_symbol; intros cs Hp; by_rule Hp; descends IH; simplified; runs; auto with sorts.
  by constructor.
Qed.
#[local] Arguments map_entries : simpl never.
Lemma SimplifyMapLit_safe j cs :
  j ≤ k → parses (S j) "map_lit" (RawNode "map_lit" cs) → safe expression (SimplifyMapLit simplify cs).
Proof.
  intros Hj Hp. by_rule Hp. yielded map_entries_safe.
  unfold SimplifyMapLit, collect, map_type_step. run. types. run. case_decide; run; types; run; runs.
  all: rewrite app_nil_r; apply expr_map; apply Forall_fmap; (eapply Forall_impl; [eassumption|]); by intros ? [].
Qed.

Definition tails : list string :=
  ["logic_or_tail"; "logic_and_tail"; "equality_tail"; "relational_tail"; "additive_tail"; "multiplicative_tail"]%string.
Lemma binary_tail_safe j A cs :
  j ≤ k → A ∈ tails → parses j A (RawNode A cs) →
  ∀ left, expression left → safe expression (binary_tail simplify left (RawNode A cs)).
Proof.
  revert j A cs. apply (levels_rec k (λ n, ∀ left, expression left → safe expression (binary_tail simplify left n))).
  intros j Hj IH. each_symbol; intros cs Hp left Hl; by_rule Hp; descends IH; simplified; runs; try done.
  all: by apply E, expr_binary; [member|..].
Qed.

Lemma trailer_safe j cs e :
  j ≤ k → parses j "trailer" (RawNode "trailer" cs) → expression e →
  safe expression (trailer simplify e (RawNode "trailer" cs)).
Proof.
  intros Hj Hp He. by_rule Hp; open_rule "member_identifier"; yielded FlattenArgs_safe; simplified.
  all: unfold trailer, simplify_child; runs; auto with sorts.
Qed.
#[local] Arguments trailer : simpl never.
Lemma trailers_safe j A cs :
  j ≤ k → A ∈ ["trailer_list"] → parses j A (RawNode A cs) →
  ∀ e, expression e → safe expression (trailers simplify e (RawNode A cs)).
Proof.
  revert j A cs. apply (levels_rec k (λ n, ∀ e, expression e → safe expression (trailers simplify e n))).
  intros j Hj IH. each_symbol; intros cs Hp e He; by_rule Hp; [|done]. descends IH. cbn.
  eapply safe_bind; [eapply trailer_safe; [|exact Hc|done]; lia|]. exact E.
Qed.
#[local] Arguments trailers : simpl never.
Lemma SimplifyIdentifierExpr_safe j cs :
  j ≤ k → parses (S j) "identifier_expr" (RawNode "identifier_expr" cs) →
  safe expression (SimplifyIdentifierExpr simplify cs).
Proof.
  intros Hj Hp. by_rule Hp. unfold SimplifyIdentifierExpr. cbn.
  apply (trailers_safe j); [done|member|done|constructor].
Qed.
#[local] Arguments binary_tail : simpl never.
Definition chains : list string :=
  ["logic_or"; "logic_and"; "equality"; "relational"; "additive"; "multiplicative"]%string.
Lemma SimplifyBinaryChain_safe j A cs :
  j ≤ k → A ∈ chains → parses (S j) A (RawNode A cs) → safe expression (SimplifyBinaryChain simplify cs).
Proof.
  intros Hj HA Hp. repeat (apply elem_of_cons in HA as [->|HA]); [..|by apply elem_of_nil in HA]; by_rule Hp.
  all: match goal with Ht : parses ?J ?A (RawNode ?A ?c) |- _ =>
    pose proof (binary_tail_safe J A c Hj ltac:(member) Ht) as Htail end.
  all: simplified; unfold SimplifyBinaryChain, simplify_child; runs; by apply Htail.
Qed.

Lemma assignment_safe lhs v : expression lhs → expression v → expression (assignment lhs v).
Proof.
  intros Hl Hv. destruct Hl; cbn; try case_match; auto with sorts.
Qed.
Lemma SimplifyAssignmentExpr_safe j cs :
  j ≤ k → parses (S j) "assignment_expr" (RawNode "assignment_expr" cs) →
  safe expression (SimplifyAssignmentExpr simplify cs).
Proof.
  intros Hj Hp. by_rule Hp; open_rule "assignment_tail"; simplified.
  all: unfold SimplifyAssignmentExpr, simplify_child; runs; auto using assignment_safe.
Qed.
Lemma SimplifyUnary_safe j cs :
  j ≤ k → parses (S j) "unary" (RawNode "unary" cs) → safe expression (SimplifyUnary simplify cs).
Proof.
  intros Hj Hp. by_rule Hp; open_rule "unary_op"; simplified; unfold SimplifyUnary; runs; auto with sorts.
  all: first [by apply expr_unary; [member|]|by repeat case_match].
Qed.
End flatten.

(** ** Literals *)

Lemma digit_of_isdigit c :
  isdigit c = true → ∃ d, digit c = Some d ∧ RulesBuilder.isspace c = false ∧ c ≠ "-"%char ∧ c ≠ "+"%char.
Proof.
  destruct c as [b1 b2 b3 b4 b5 b6 b7 b8]; destruct b1, b2, b3, b4, b5, b6, b7, b8; vm_compute; intros Hd;
    try discriminate Hd; eexists; repeat split; discriminate.
Qed.

#[local] Arguments digit : simpl never.
Lemma digits_cons c rest :
  digits (String c rest) =
  match digit c with Some d => let '(ds, rest) := digits rest in (d :: ds, rest) | None => ([], String c rest) end.
Proof. done. Qed.
Lemma digits_app v rest :
  Forall (λ c, isdigit c = true) (String.list_ascii_of_string v) →
  (match rest with String c _ => digit c = None | EmptyString => True end) →
  ∃ ds, digits (v +:+ rest) = (ds, rest) ∧ (v ≠ "" → ds ≠ []).
Proof.
  intros Hv Hr. induction v as [|c v IH].
  - exists []. split; [|done]. destruct rest as [|c rest]; [done|].
    change ("" +:+ String c rest) with (String c rest). by rewrite digits_cons Hr.
  - cbn in Hv. inversion_clear Hv as [|? ? Hc Hv']. destruct (digit_of_isdigit _ Hc) as (d & Hd & _).
    destruct (IH Hv') as (ds & Hds & _). exists (d :: ds). split; [|done].
    change (String c v +:+ rest) with (String c (v +:+ rest)). by rewrite digits_cons Hd Hds.
Qed.

Lemma number_front v rest : number v → drop_space (v +:+ rest) = v +:+ rest ∧ sign (v +:+ rest) = (false, v +:+ rest).
Proof.
  intros [Hne Hv]. destruct v as [|c v]; [done|]. cbn in Hv. inversion_clear Hv as [|? ? Hc _].
  destruct (digit_of_isdigit _ Hc) as (d & _ & Hsp & Hm & Hp).
  change (String c v +:+ rest) with (String c (v +:+ rest)). split.
  - change (drop_space (String c (v +:+ rest)))
      with (if RulesBuilder.isspace c then drop_space (v +:+ rest) else String c (v +:+ rest)). by rewrite Hsp.
  - unfold sign. by rewrite (decide_False (P := c = "-"%char)) // (decide_False (P := c = "+"%char)).
Qed.

Lemma app_empty_string v : v +:+ "" = v.
Proof. induction v as [|c v IH]; [done|]. change (String c v +:+ "") with (String c (v +:+ "")). by rewrite IH. Qed.

Section literals.
Context `{Tree}.
Lemma stoll_cases v :
  number v → (∃ z, stoll v = Ok z ∧ int64_ok z = true) ∨ stoll v = Throw (out_of_range "stoll").
Proof.
  intros Hn. destruct (number_front v "" Hn) as [Hd Hs]. rewrite !app_empty_string in Hd, Hs.
  unfold stoll. rewrite Hd Hs. destruct Hn as [Hne Hv]. destruct (digits_app v "" Hv I) as (ds & Hds & Hn).
  rewrite app_empty_string in Hds. rewrite Hds. specialize (Hn Hne). destruct ds as [|d ds]; [done|].
  case_match eqn:Hok; [left; eauto|by right].
Qed.
Lemma stod_cases v1 v2 :
  number v1 → number v2 → (∃ x, stod (v1 +:+ "." +:+ v2) = Ok x) ∨ stod (v1 +:+ "." +:+ v2) = Throw (out_of_range "stod").
Proof.
  intros Hn1 _. destruct (number_front v1 ("." +:+ v2) Hn1) as [Hd Hs]. unfold stod. rewrite Hd Hs.
  destruct Hn1 as [Hne Hv]. destruct (digits_app v1 ("." +:+ v2) Hv eq_refl) as (ds & -> & Hn).
  specialize (Hn Hne). rewrite decide_False; [repeat case_match; eauto|by destruct ds].
Qed.

Lemma literal_safe s v :
  leaf s v → s ∈ ["integer_literal"; "float_literal"; "string_literal"] → safe expression (SimplifyLeaf s v).
Proof.
  intros Hl Hs. pose proof (leaf_token _ _ Hl) as Ht.
  destruct (SimplifyLeaf s v) as [e|x|] eqn:He; cbn.
  - repeat (apply elem_of_cons in Hs as [->|Hs]); [..|by apply elem_of_nil in Hs]; unfold SimplifyLeaf in He.
    + revert He. decided. inversion Ht as [? Hc| |? Hn| |]; subst; [exfalso; by apply Hc; repeat constructor|].
      destruct (stoll_cases v Hn) as [(z & -> & Hz)| ->]; [|done]. intros [= <-]. by constructor.
    + revert He. decided. destruct (stod v); [|done..]. intros [= <-]. constructor.
    + revert He. decided. intros [= <-]. constructor.
  - assert (∃ w, x = out_of_range w) as [w ->]; [|by exists s, v].
    repeat (apply elem_of_cons in Hs as [->|Hs]); [..|by apply elem_of_nil in Hs]; unfold SimplifyLeaf in He.
    + revert He. decided. inversion Ht as [? Hc| |? Hn| |]; subst; [exfalso; by apply Hc; repeat constructor|].
      destruct (stoll_cases v Hn) as [(z & -> & Hz)| ->]; [done|]. intros [= <-]. eauto.
    + revert He. decided. inversion Ht as [? Hc| | |v1 v2 Hn1 Hn2|]; subst; [exfalso; by apply Hc; repeat constructor|].
      destruct (stod_cases v1 v2 Hn1 Hn2) as [(y & ->)| ->]; [done|]. intros [= <-]. eauto.
    + revert He. by decided.
  - exfalso. revert He. unfold SimplifyLeaf.
    repeat (apply elem_of_cons in Hs as [->|Hs]); [..|by apply elem_of_nil in Hs]; decided; [| |done].
    + inversion Ht as [? Hc| |? Hn| |]; subst; [exfalso; by apply Hc; repeat constructor|].
      by destruct (stoll_cases v Hn) as [(z & -> & Hz)| ->].
    + inversion Ht as [? Hc| | |v1 v2 Hn1 Hn2|]; subst; [exfalso; by apply Hc; repeat constructor|].
      by destruct (stod_cases v1 v2 Hn1 Hn2) as [(y & ->)| ->].
Qed.
End literals.

(** ** Rules *)

Lemma SimplifyRaw_default simplify after_free A cs :
  A ≠ "primary" →
  SimplifyRaw simplify after_free A cs = default (SimplifyOther simplify A cs) (SimplifyRule simplify after_free A cs).
Proof.
  intros Hp. unfold SimplifyRaw. destruct cs as [|c [|e cs]]; [done|by destruct c|].
  destruct c; try done. rewrite decide_False //. by intros [? _].
Qed.
Lemma SimplifyRaw_rule simplify after_free A cs r :
  SimplifyRule simplify after_free A cs = Some r → A ≠ "primary" → SimplifyRaw simplify after_free A cs = r.
Proof. intros Hr Hp. by rewrite SimplifyRaw_default // Hr. Qed.
Lemma SimplifyRaw_other simplify after_free A cs :
  SimplifyRule simplify after_free A cs = None → A ≠ "primary" →
  SimplifyRaw simplify after_free A cs = SimplifyOther simplify A cs.
Proof. intros Hr Hp. by rewrite SimplifyRaw_default // Hr. Qed.

Lemma SimplifyPrimary_one simplify after_free c : SimplifyRaw simplify after_free "primary" [c] = simplify c.
Proof. by destruct c. Qed.
Lemma SimplifyPrimary_parentheses simplify after_free e :
  SimplifyRaw simplify after_free "primary" [LeafNode "(" "("; e; LeafNode ")" ")"] =
  RawNode "primary" <$> mapM_result simplify [LeafNode "(" "("; e; LeafNode ")" ")"].
Proof.
  change (SimplifyOther simplify "primary" [LeafNode "(" "("; e; LeafNode ")" ")"]
    = RawNode "primary" <$> mapM_result simplify [LeafNode "(" "("; e; LeafNode ")" ")"]).
  unfold SimplifyOther. repeat case_match; congruence.
Qed.
Lemma SimplifyPrimary_comptime simplify after_free b :
  SimplifyRaw simplify after_free "primary" [LeafNode "comptime" "comptime"; b] = ComptimeNode <$> simplify b.
Proof. done. Qed.

(** The rule of a symbol that has a function of its own. *)
Ltac handled L := erewrite SimplifyRaw_rule; [|reflexivity|discriminate]; eapply L; first [eassumption|member].
(** A symbol whose only child stands for it. *)
Ltac passed H := by_rule H; (rewrite SimplifyRaw_other; [|reflexivity|discriminate]); simplified; unfold SimplifyOther; runs; auto with sorts.

Section rules.
Context `{Tree} (simplify : Node → result Node) (after_free : string → result string) (k : nat).
Context (simplify_ok : ∀ j A S cs, j ≤ k → sort_of A cs = Some S → parses j A (RawNode A cs) →
  safe S (simplify (RawNode A cs))).
Context (simplify_leaf : ∀ s v, 0 < k → simplify (LeafNode s v) = SimplifyLeaf s v).
Context (after_free_ok : has_iter → ∀ r, after_free r = Ok r ∨ (freed ∧ after_free r = undefined_read r)).

Lemma primary_safe cs :
  parses (S k) "primary" (RawNode "primary" cs) → safe expression (SimplifyRaw simplify after_free "primary" cs).
Proof.
  intros Hp. assert (cs ≠ [] → 0 < k) as Hk by (intros; destruct cs; [done|by eapply level_pos]).
  assert (∀ s, cs ≠ [] → s ∉ classes → simplify (LeafNode s s) = Ok (LeafNode s s)) as text.
  { intros s Hne. destruct cs; [done|]. by eapply simplify_text. }
  by_rule Hp; simplified; rewrite ?SimplifyPrimary_one.
  1: rewrite SimplifyPrimary_parentheses; cbn [mapM_result]; rewrite (text "(" ltac:(done) ltac:(not_class)) (text ")" ltac:(done) ltac:(not_class)); runs; auto with sorts.
  1-3: match goal with |- context [simplify (LeafNode ?s ?s)] => rewrite (text s ltac:(done) ltac:(not_class)) end;
    constructor; member.
  1-3: rewrite simplify_leaf; [apply literal_safe; [done|member]|by apply Hk].
  all: rewrite ?SimplifyPrimary_comptime; runs; auto with sorts.
Qed.

Lemma expressions_safe A cs :
  A ∈ expression_symbols → parses (S k) A (RawNode A cs) → safe expression (SimplifyRaw simplify after_free A cs).
Proof.
  intros HA Hp. pose proof (le_n k) as Hk.
  repeat (apply elem_of_cons in HA as [->|HA]); [..|by apply elem_of_nil in HA].
  - passed Hp.
  - handled SimplifyAssignmentExpr_safe.
  - handled SimplifyBinaryChain_safe.
  - handled SimplifyBinaryChain_safe.
  - handled SimplifyBinaryChain_safe.
  - handled SimplifyBinaryChain_safe.
  - handled SimplifyBinaryChain_safe.
  - handled SimplifyBinaryChain_safe.
  - handled SimplifyUnary_safe.
  - by apply primary_safe.
  - handled SimplifyIdentifierExpr_safe.
  - handled SimplifyArrowFunc_safe.
  - handled SimplifyArrayLit_safe.
  - handled SimplifyMapLit_safe.
  - erewrite SimplifyRaw_rule; [|reflexivity|discriminate]. by_rule Hp. simplified. runs. auto with sorts.
Qed.

Lemma expression_opt_safe cs :
  parses (S k) "expression_opt" (RawNode "expression_opt" cs) →
  safe optional_expression (SimplifyRaw simplify after_free "expression_opt" cs).
Proof.
  intros Hp. passed Hp.
Qed.

Lemma else_opt_safe cs :
  parses (S k) "else_opt" (RawNode "else_opt" cs) → safe else_branch (SimplifyRaw simplify after_free "else_opt" cs).
Proof.
  intros Hp. by_rule Hp; (rewrite SimplifyRaw_other; [|reflexivity|discriminate]); simplified.
  - unfold SimplifyOther. cbn [mapM_result].
    rewrite (simplify_text simplify k simplify_leaf k _ _ _ "else" (le_n k) Hp ltac:(not_class)). runs. auto with sorts.
  - constructor.
Qed.

Lemma statements_rules_safe A cs :
  A ∈ statement_symbols → parses (S k) A (RawNode A cs) → safe statement (SimplifyRaw simplify after_free A cs).
Proof.
  intros HA Hp. pose proof (le_n k) as Hk.
  repeat (apply elem_of_cons in HA as [->|HA]); [..|by apply elem_of_nil in HA].
  - by_rule Hp; (rewrite SimplifyRaw_other; [|reflexivity|discriminate]); simplified; unfold SimplifyOther.
    + runs; auto with sorts.
    + runs; auto with sorts.
    + rewrite (simplify_text simplify k simplify_leaf k _ _ _ ";" (le_n k) Hp ltac:(not_class)). constructor.
  - passed Hp.
  - passed Hp.
  - by_rule Hp; handled SimplifyIfStmt_safe.
  - by_rule Hp; handled SimplifyWhileStmt_safe.
  - handled SimplifyIterStmt_safe.
  - handled SimplifyHandleStmt_safe.
  - handled SimplifyTransactionStmt_safe.
  - handled SimplifyUnsafeStmt_safe.
  - handled SimplifyPrintStmt_safe.
  - passed Hp.
Qed.

Lemma declarations_rules_safe A cs :
  A ∈ declaration_symbols → parses (S k) A (RawNode A cs) → safe declaration (SimplifyRaw simplify after_free A cs).
Proof.
  intros HA Hp. pose proof (le_n k) as Hk.
  repeat (apply elem_of_cons in HA as [->|HA]); [..|by apply elem_of_nil in HA].
  - passed Hp.
  - passed Hp.
  - passed Hp.
  - passed Hp.
  - passed Hp.
  - handled SimplifyTypeAlias_safe.
  - handled SimplifyFuncDecl_safe.
  - passed Hp.
  - handled SimplifyStructDecl_safe.
  - passed Hp.
  - handled SimplifyEnumDecl_safe.
  - passed Hp.
  - handled SimplifyInterfaceDecl_safe.
  - passed Hp.
  - handled SimplifyEffectDecl_safe.
  - passed Hp.
  - handled SimplifyActorDecl_safe.
Qed.

Lemma top_rules_safe A cs :
  A ∈ top_symbols → parses (S k) A (RawNode A cs) → safe top_level (SimplifyRaw simplify after_free A cs).
Proof.
  intros HA Hp. pose proof (le_n k) as Hk.
  repeat (apply elem_of_cons in HA as [->|HA]); [..|by apply elem_of_nil in HA].
  - passed Hp.
  - handled SimplifyImportDecl_safe.
  - handled SimplifyExportDecl_safe.
Qed.

Lemma variable_rules_safe A cs :
  A = "var_decl_no_semi" ∨ A = "const_decl_no_semi" → parses (S k) A (RawNode A cs) →
  safe variable (SimplifyRaw simplify after_free A cs).
Proof.
  intros [->| ->] Hp; pose proof (le_n k) as Hk; [handled SimplifyVarDecl_safe|handled SimplifyConstDecl_safe].
Qed.

Lemma SimplifyRaw_safe A S' cs :
  sort_of A cs = Some S' → parses (S k) A (RawNode A cs) → safe S' (SimplifyRaw simplify after_free A cs).
Proof.
  unfold sort_of. pose proof (le_n k) as Hk. intros HS Hp.
  repeat (case_decide; [first [injection HS as <- | idtac]|]); subst; try done.
  - by apply expressions_safe.
  - by apply statements_rules_safe.
  - by apply declarations_rules_safe.
  - by apply top_rules_safe.
  - by apply expression_opt_safe.
  - by apply else_opt_safe.
  - handled SimplifyBlock_safe.
  - handled SimplifyStatements_safe.
  - by apply variable_rules_safe.
  - handled SimplifyItems_safe.
  - handled SimplifyModuleDecl_safe.
  - handled SimplifyProgram_safe.
  - pose proof (parses_raw _ _ _ Hp) as (_ & i & [= <-] & Hs). cbv -[parses leaf] in Hs.
    destruct Hs as [Hs|[Hs|[Hs|[Hs|[]]]]]; break Hs; try done; injection HS as <-.
    all: (rewrite SimplifyRaw_other; [|reflexivity|discriminate]); simplified; unfold SimplifyOther; runs; auto with sorts.
Qed.
End rules.

(** [Simplify] keeps the sorts. *)
Lemma Simplify_safe `{Tree} after_free fuel :
  (has_iter → ∀ r, after_free r = Ok r ∨ (freed ∧ after_free r = undefined_read r)) →
  ∀ j A S cs, j ≤ fuel → sort_of A cs = Some S → parses j A (RawNode A cs) →
  safe S (Simplify after_free fuel (RawNode A cs)).
Proof.
  intros Hfree. induction fuel as [|fuel IH]; intros j A S cs Hj HS Hp.
  - destruct (parses_raw _ _ _ Hp) as (_ & i & -> & _). lia.
  - apply (SimplifyRaw_safe (Simplify after_free fuel) after_free fuel); [exact IH| |exact Hfree|exact HS|].
    + intros s v Hk. destruct fuel; [lia|done].
    + by eapply parses_mono.
Qed.
End AstBuilderSpec.
