(* ===== verification/FrontEnd.v ===== *)
(** * The front end: from the text to the syntax tree

    The builder on the parse trees of [grammar.md], and the lexer, the parser
    and the builder one after the other. *)

From S2P Require Import Prelude Reader Token Lexer LexerSpec Grammar GrammarSpec TableBuilder Parser ParserSpec.
From S2P Require Import Value Ast TypeNames GrammarText AstBuilder AstSorts AstTrees AstBuilderSpec.
From Stdlib Require Import Lia.

Module FrontEnd.
Import Value Ast TypeNames AstBuilder AstSorts AstTrees AstBuilderSpec.

(** ** Parse trees of the grammar *)

Lemma productions_rules : (λ r, (lhs r, rhs r)) <$> RulesBuilder.m_rules grammar = productions.
Proof. vm_compute. reflexivity. Qed.
Lemma nonterms_productions :
  bool_decide (RulesBuilder.m_nonTerms grammar = list_to_set (fst <$> productions)) = true.
Proof. vm_compute. reflexivity. Qed.

#[local] Opaque grammar productions.

Lemma is_nonterm_iff s : is_nonterm s = true ↔ s ∈ RulesBuilder.m_nonTerms grammar.
Proof.
  pose proof nonterms_productions as Hn. apply bool_decide_eq_true in Hn. rewrite Hn elem_of_list_to_set.
  unfold is_nonterm. rewrite existsb_exists. split.
  - intros (p & Hin%list_elem_of_In & <-%bool_decide_eq_true). by apply list_elem_of_fmap_2.
  - intros (p & -> & Hin)%list_elem_of_fmap. exists p. split; [by apply list_elem_of_In|by apply bool_decide_eq_true].
Qed.

Definition parse_tree (n : Parser.Node) : Prop :=
  tree (RulesBuilder.m_rules grammar) (RulesBuilder.m_nonTerms grammar) n.

(** The rules that a tree applies. *)
Fixpoint rules_of (n : Parser.Node) : list string :=
  match n with Parser.LeafNode _ _ => [] | Parser.RawNode A cs => A :: flat_map rules_of cs end.
(** The leaves of a tree, their texts as strings. *)
Definition leaf_texts (n : Parser.Node) : list (string * string) :=
  (λ l, (l.1, String.string_of_list_ascii l.2)) <$> leaves n.

(** The tree at hand: its leaves, and what reading freed memory gives. *)
Definition tree_of (n : Parser.Node) (after_free : string → result string)
    (Hl : ∀ s v, (s, v) ∈ leaf_texts n → token s v) : Tree :=
  {| leaf s v := (s, v) ∈ leaf_texts n; leaf_token := Hl; has_iter := "iter_stmt" ∈ rules_of n;
     freed := "iter_stmt" ∈ rules_of n ∧ ∃ r, after_free r = undefined_read r |}.

Lemma root_of_tree n : root (of_tree n) = node_type n.
Proof. by destruct n. Qed.

Lemma of_tree_parse `{Tree} n :
  parse_tree n → (∀ s v, (s, v) ∈ leaf_texts n → leaf s v) → ("iter_stmt" ∈ rules_of n → has_iter) →
  parse (of_tree n).
Proof.
  intros Hn. induction Hn as [s v Hs|r cs Hr Hcs Htrees IH| |n ns Hn IHn Hns IHns] using tree_mut with
    (P0 := λ ns _, (∀ s v, (s, v) ∈ flat_map leaf_texts ns → leaf s v) →
                   ("iter_stmt" ∈ flat_map rules_of ns → has_iter) → Forall parse (List.map of_tree ns)).
  - intros Hl _. constructor; [|apply Hl; constructor].
    destruct (is_nonterm s) eqn:E; [|reflexivity]. destruct (Hs (proj1 (is_nonterm_iff s) E)).
  - intros Hl Hi. assert (flat_map leaf_texts cs = leaf_texts (Parser.RawNode (lhs r) cs)) as Heq.
    { clear. unfold leaf_texts. cbn [leaves]. induction cs as [|c cs IH]; [done|]. cbn. by rewrite fmap_app IH. }
    constructor.
    + unfold alternatives. apply list_elem_of_In, list_elem_of_fmap. exists (lhs r, rhs r). split.
      * cbn. rewrite -Hcs. clear. induction cs as [|c cs IH]; [done|]. cbn. by rewrite IH root_of_tree.
      * apply list_elem_of_filter. split; [reflexivity|]. rewrite -productions_rules.
        by apply (list_elem_of_fmap_2 (λ r, (lhs r, rhs r))).
    + apply IH; [by rewrite Heq|]. intros Hin. apply Hi. cbn. by right.
    + intros He. apply Hi. cbn. rewrite He. by left.
  - constructor.
  - intros Hl Hi. constructor.
    + apply IHn; [|]; intros; [apply Hl|apply Hi]; cbn; apply elem_of_app; by left.
    + apply IHns; [|]; intros; [apply Hl|apply Hi]; cbn; apply elem_of_app; by right.
Qed.

(** *** The type of the builder *)

Lemma Build_sorted after_free n :
  parse_tree n → node_type n = "program" →
  Forall (λ l, token l.1 l.2) (leaf_texts n) →
  ("iter_stmt" ∈ rules_of n → ∀ r, after_free r = Ok r ∨ after_free r = undefined_read r) →
  match Build after_free (of_tree n) with
  | Ok b => program b
  | Throw (out_of_range w) => ∃ s v, (s, v) ∈ leaf_texts n ∧ SimplifyLeaf s v = Throw (out_of_range w)
  | Throw (undefined_behaviour w) =>
      ("iter_stmt" ∈ rules_of n ∧ ∃ r, after_free r = undefined_read r) ∧ w = "use after free"
  | _ => False
  end.
Proof.
  intros Hn Hp Hl Hi.
  assert (∀ s v, (s, v) ∈ leaf_texts n → token s v) as Ht 
    by (rewrite Forall_forall in Hl; intros s v Hv; exact (Hl (s, v) Hv)).
  pose proof (of_tree_parse (H := tree_of n after_free Ht) n Hn (λ s v H, H) (λ H, H)) as Hparse.
  destruct n as [s v|A cs]; cbn in Hp; subst.
  { inversion Hn as [? ? Hs|]; subst. exfalso. apply Hs, is_nonterm_iff. vm_compute. reflexivity. }
  assert (@has_iter (tree_of (Parser.RawNode "program" cs) after_free Ht) →
    ∀ r, after_free r = Ok r ∨ (@freed (tree_of (Parser.RawNode "program" cs) after_free Ht) ∧ after_free r = undefined_read r)) as Hfree.
  { intros Hin r. destruct (Hi Hin r) as [E|E]; [by left|right]. split; [split; [exact Hin|by exists r]|exact E]. }
  pose proof (Simplify_safe (H := tree_of _ after_free Ht) after_free (height (of_tree (Parser.RawNode "program" cs))) Hfree
    _ "program" program (List.map of_tree cs) (le_n _) eq_refl (conj Hparse (conj eq_refl (le_n _)))) as Hs.
  unfold Build. change (of_tree (Parser.RawNode "program" cs)) with (RawNode "program" (List.map of_tree cs)).
  destruct (Simplify _ _ _) as [b|[]|]; cbn in *; try done. pose proof Hs as Hb. by destruct Hs.
Qed.

(** A test for parse trees. *)
Fixpoint is_tree (n : Parser.Node) : bool :=
  match n with
  | Parser.LeafNode s _ => negb (is_nonterm s)
  | Parser.RawNode A cs => bool_decide (List.map node_type cs ∈ alternatives A) && forallb is_tree cs
  end.
Lemma is_tree_sound n : is_tree n = true → parse_tree n.
Proof.
  revert n. fix IH 1. intros [s v|A cs]; cbn.
  - intros Hs%negb_true_iff. constructor. intros Hn%is_nonterm_iff. congruence.
  - intros [Hin%bool_decide_eq_true Hcs]%andb_true_iff. unfold alternatives in Hin.
    apply list_elem_of_fmap in Hin as ([A' rhs'] & Hrhs & [HA Hin]%list_elem_of_filter).
    rewrite -productions_rules in Hin. apply list_elem_of_fmap in Hin as (r & [= -> ->] & Hr).
    cbn in HA, Hrhs. subst A. constructor; [exact Hr|exact Hrhs|]. clear Hr Hrhs.
    induction cs as [|c cs IHcs]; [constructor|].
    cbn in Hcs. apply andb_true_iff in Hcs as [Hc Hcs]. constructor; [apply IH; exact Hc|apply IHcs; exact Hcs].
Qed.

(** C2. The type of the builder.  On every parse tree of a program it returns a
    program: its expressions, statements, declarations and blocks are where the
    generator and the analyses expect them.  No null pointer is followed, no
    child read that is not there, and it ends.  There are two other results.  One is
    the exception that [std::stoll] or [std::stod] throws for a literal of the
    program that is out of range.  The other is undefined behaviour: for an
    [iter_stmt] the builder reads the name of a rule from a node it destroyed
    ([iter_reads_freed]).  Here such a read either gives the name that was there or
    is undefined, each time it happens; so a tree without an [iter_stmt] is free of
    undefined behaviour, whatever [after_free] is, and a tree with one has it only
    through such a read, and is built like any other if the names are still
    there. *)
Theorem Build_well_sorted after_free n :
  parse_tree n → node_type n = "program" →
  Forall (λ l, token l.1 l.2) (leaf_texts n) →
  ("iter_stmt" ∈ rules_of n → ∀ r, after_free r = Ok r ∨ after_free r = undefined_read r) →
  match Build after_free (of_tree n) with
  | Ok b => program b
  | Throw (out_of_range w) => ∃ s v, (s, v) ∈ leaf_texts n ∧ SimplifyLeaf s v = Throw (out_of_range w)
  | Throw (undefined_behaviour w) =>
      ("iter_stmt" ∈ rules_of n ∧ ∃ r, after_free r = undefined_read r) ∧ w = "use after free"
  | _ => False
  end.
Proof. apply Build_sorted. Qed.

(** Trees of small programs. *)
Definition raw (A : string) (cs : list Parser.Node) : Parser.Node := Parser.RawNode A cs.
Definition tok (s : string) : Parser.Node := Parser.LeafNode s (chars s).
Definition word (s v : string) : Parser.Node := Parser.LeafNode s (chars v).
Definition none (A : string) : Parser.Node := raw A [].
(** An expression that is one [primary], in the context of a binary operator
    or of none. *)
Definition unary_tree (c : list Parser.Node) : Parser.Node := raw "unary" [raw "primary" c].
Definition logic_tree (c : list Parser.Node) : Parser.Node :=
  raw "logic_or" [raw "logic_and" [raw "equality" [raw "relational" [raw "additive" [raw "multiplicative" [
    unary_tree c; none "multiplicative_tail"]; none "additive_tail"]; none "relational_tail"]; none "equality_tail"];
    none "logic_and_tail"]; none "logic_or_tail"].
Definition expression_tree (c : list Parser.Node) : Parser.Node :=
  raw "expression" [raw "assignment_expr" [logic_tree c; none "assignment_tail"]].
Definition integer_tree (v : string) : Parser.Node := expression_tree [word "integer_literal" v].
Definition name_tree (v : string) : list Parser.Node :=
  [raw "identifier_expr" [word "identifier" v; none "trailer_list"]].
Definition with_semi (n : Parser.Node) : Parser.Node := raw "statement" [raw "statement_with_semi" [n]; tok ";"].
Definition without_semi (n : Parser.Node) : Parser.Node := raw "statement" [raw "statement_no_semi" [n]].
Definition block_tree (l : list Parser.Node) : Parser.Node :=
  raw "block_stmt" [tok "{"; foldr (λ s l, raw "statement_list" [s; l]) (none "statement_list") l; tok "}"].
Definition program_tree (l : list Parser.Node) : Parser.Node :=
  raw "program" [foldr (λ s l, raw "top_level_list" [raw "top_level_node" [s]; l]) (none "top_level_list") l].

(** [print 12;] *)
Definition print_tree : Parser.Node := program_tree [with_semi (raw "print_stmt" [tok "print"; integer_tree "12"])].
Lemma print_tokens : Forall (λ l, token l.1 l.2) (leaf_texts print_tree).
Proof.
  change (Forall (λ l, token l.1 l.2) [("print", "print"); ("integer_literal", "12"); (";", ";")]%string).
  repeat constructor; try not_class; discriminate.
Qed.
(** [iter (x of a) { }] *)
Definition iter_tree : Parser.Node := program_tree [without_semi (raw "iter_stmt"
  [tok "iter"; tok "("; word "identifier" "x"; tok "of"; expression_tree (name_tree "a"); none "adapter_chain_opt";
   tok ")"; block_tree []])].
Lemma iter_tokens : Forall (λ l, token l.1 l.2) (leaf_texts iter_tree).
Proof.
  change (Forall (λ l, token l.1 l.2) [("iter", "iter"); ("(", "("); ("identifier", "x"); ("of", "of");
    ("identifier", "a"); (")", ")"); ("{", "{"); ("}", "}")]%string).
  repeat constructor; try not_class; discriminate.
Qed.

(** A tree without an [iter_stmt], whatever freed memory holds, and one with it
    where freed memory is as it was and where the read is undefined. *)
Lemma Build_well_sorted_witness :
  (parse_tree print_tree ∧ Forall (λ l, token l.1 l.2) (leaf_texts print_tree))
  ∧ (∀ after_free, match Build after_free (of_tree print_tree) with
    | Ok b => program b
    | Throw (out_of_range w) =>
        ∃ s v, (s, v) ∈ leaf_texts print_tree ∧ SimplifyLeaf s v = Throw (out_of_range w)
    | Throw (undefined_behaviour w) =>
        ("iter_stmt" ∈ rules_of print_tree ∧ ∃ r, after_free r = undefined_read r) ∧ w = "use after free"
    | _ => False
    end)
  ∧ match Build intact_read (of_tree iter_tree), Build undefined_read (of_tree iter_tree) with
    | Ok b, Throw (undefined_behaviour w) =>
        program b ∧ ("iter_stmt" ∈ rules_of iter_tree ∧ ∃ r, undefined_read r = undefined_read r) ∧ w = "use after free"
    | _, _ => False
    end.
Proof.
  assert (parse_tree print_tree) as Ht by (apply is_tree_sound; vm_compute; reflexivity).
  assert (parse_tree iter_tree) as Hi by (apply is_tree_sound; vm_compute; reflexivity).
  split; [split; [exact Ht|exact print_tokens]|]. split.
  - intros after_free. apply (Build_well_sorted after_free print_tree Ht eq_refl print_tokens).
    intros Hin. exfalso. revert Hin.
    refine (bool_decide_unpack (¬ ("iter_stmt" ∈ rules_of print_tree)) _). vm_compute. exact I.
  - pose proof (Build_well_sorted intact_read iter_tree Hi eq_refl iter_tokens (λ _ r, or_introl eq_refl)) as H1.
    pose proof (Build_well_sorted undefined_read iter_tree Hi eq_refl iter_tokens (λ _ r, or_intror eq_refl)) as H2.
    assert (∃ b, Build intact_read (of_tree iter_tree) = Ok b) as [b E1] by (eexists; vm_compute; reflexivity).
    assert (Build undefined_read (of_tree iter_tree) = Throw (undefined_behaviour "use after free")) as E2
      by (vm_compute; reflexivity).
    rewrite E1 in H1 |- *. rewrite E2 in H2 |- *. split; [exact H1|exact H2].
Defined.

(** ** What the builder makes of some programs *)

Definition built (n : Parser.Node) : bool * result Node := (is_tree n, Build undefined_read (of_tree n)).

Example print_built :
  built print_tree = (true, Ok (BlockNode [BlockNode [PrintNode (IntegerLiteralNode 12)]])).
Proof. vm_compute. reflexivity. Qed.

(** A literal beyond 64 bits ends the builder, not a message of the compiler. *)
Example literal_out_of_range :
  built (program_tree [with_semi (integer_tree "9223372036854775808")]) = (true, Throw (out_of_range "stoll")).
Proof. vm_compute. reflexivity. Qed.

(** [iter (x of a) { }] reads the rule of the expression from freed memory. *)
Example iter_reads_freed : built iter_tree = (true, Throw (undefined_behaviour "use after free")).
Proof. vm_compute. reflexivity. Qed.

(** [(x) = 1;] is the expression [(x)]: the value is dropped. *)
Example assignment_dropped :
  built (program_tree [with_semi (raw "expression" [raw "assignment_expr"
    [logic_tree [tok "("; expression_tree (name_tree "x"); tok ")"];
     raw "assignment_tail" [tok "="; raw "assignment_expr" [logic_tree [word "integer_literal" "1"]; none "assignment_tail"]]]])])
  = (true, Ok (BlockNode [BlockNode [RawNode "primary" [LeafNode "(" "("; IdentifierNode "x"; LeafNode ")" ")"]]])).
Proof. vm_compute. reflexivity. Qed.

(** [return;] has a value, which is a raw node. *)
Example return_raw :
  built (program_tree [with_semi (raw "return_stmt" [tok "return"; none "expression_opt"])])
  = (true, Ok (BlockNode [BlockNode [ReturnNode (RawNode "expression_opt" [])]])).
Proof. vm_compute. reflexivity. Qed.

(** The imports of a program without a module line are in a nested block. *)
Example import_nested :
  built (program_tree [raw "import_decl" [tok "import";
    raw "qualified_id" [raw "qualified_segment" [word "identifier" "a"];
      raw "qualified_id_tail" [tok "."; raw "qualified_segment" [word "identifier" "b"]; none "qualified_id_tail"]];
    none "import_as_opt"; tok ";"]])
  = (true, Ok (BlockNode [BlockNode [ImportDeclNode "a.b" "b"]])).
Proof. vm_compute. reflexivity. Qed.
End FrontEnd.
