(* ===== verification/SyncAnalysis.v ===== *)
(** * The static analysis of synchronisation

    [src/ast/SyncGraphAnalyzer.cpp] and [src/ast/common/SyncStaticAnalyzerImpl.h]:
    the walk over a program that follows its calls of [std.sync] and refuses it
    when the order in which mutexes are locked, or threads wait for each other,
    has a cycle.  A first pass records for every function the calls it makes,
    a second one follows the statements of the modules and replays the record
    of every function they call.

    A node is found again by its place in the tree: the numbers of the children
    on the way to it, the last one first, for the pointers that are keys of
    [m_lambdaCallableIds].  The arguments of [ApplyLock], [ApplyUnlock] and
    [ApplyJoin], whose order of evaluation C++ leaves open, are evaluated from
    first to last; a hash set is traversed in the order of [elements].  The
    counters would only wrap around after 2^64 creations. *)

From stdpp Require Import pretty.
From S2P Require Import Prelude Graphs Ast TypeNames.
From Stdlib Require Import Lia.

(** ** The lock graph and the join graph *)

Module SyncGraphAnalyzer.

(** [class SyncGraphAnalyzer] *)
Record t := Mk {
  m_lockGraph : graph string;
  m_joinGraph : graph string;
  m_lastError : string;
}.

Definition init : t := Mk ∅ ∅ "".

Definition WouldCycle (g : graph string) (from to : string) : result bool :=
  if decide (from = to) then Ok true
  else cycle_search (3 + wait_edges g) g from ∅ [to].

Definition AddEdge (from to : string) (g : graph string) : graph string :=
  <[from := deps_of g from ∪ {[to]}]> g.

Definition SetError (message : string) (s : t) : t := Mk (m_lockGraph s) (m_joinGraph s) message.
Definition ClearError (s : t) : t := Mk (m_lockGraph s) (m_joinGraph s) "".

Definition set_lockGraph (f : graph string → graph string) (s : t) : t :=
  Mk (f (m_lockGraph s)) (m_joinGraph s) (m_lastError s).
Definition set_joinGraph (f : graph string → graph string) (s : t) : t :=
  Mk (m_lockGraph s) (f (m_joinGraph s)) (m_lastError s).

(** The texts of the errors. *)
Definition lock_cycle (fromMutex toMutex context : string) : string :=
  "Potential deadlock detected at compile time: lock-order cycle involving '"
  +:+ fromMutex +:+ "' -> '" +:+ toMutex +:+ "' in " +:+ context.
Definition join_cycle (fromThread toThread context : string) : string :=
  "Potential deadlock detected at compile time: join cycle involving '"
  +:+ fromThread +:+ "' -> '" +:+ toThread +:+ "' in " +:+ context.

Definition AddLockEdge (fromMutex toMutex context : string) : st t bool := λ s,
  cycle ← WouldCycle (m_lockGraph s) fromMutex toMutex;
  if (cycle : bool) then Ok (false, SetError (lock_cycle fromMutex toMutex context) s)
  else Ok (true, ClearError (set_lockGraph (AddEdge fromMutex toMutex) s)).

Definition AddJoinEdge (fromThread toThread context : string) : st t bool := λ s,
  cycle ← WouldCycle (m_joinGraph s) fromThread toThread;
  if (cycle : bool) then Ok (false, SetError (join_cycle fromThread toThread context) s)
  else Ok (true, ClearError (set_joinGraph (AddEdge fromThread toThread) s)).

Definition LastError (s : t) : string := m_lastError s.

End SyncGraphAnalyzer.

(** ** The analyzer *)

Module SyncStaticAnalyzer.
Import Ast TypeNames.

Inductive ResourceKind := Unknown | Thread | Mutex.
#[export] Instance ResourceKind_eq_dec : EqDecision ResourceKind.
Proof. solve_decision. Defined.

Record ResourceInfo := MkInfo { kind : ResourceKind; id : string }.
Record ResourceRef := MkRef { r_kind : ResourceKind; r_name : string; isParameter : bool }.
Definition no_resource : ResourceInfo := MkInfo Unknown "".
Definition no_ref : ResourceRef := MkRef Unknown "" false.

(** [SummaryOp::Kind] *)
Inductive SummaryKind := Lock | Unlock | Join | Call.
Record SummaryOp := MkOp {
  op_kind : SummaryKind;
  first : ResourceRef;
  second : ResourceRef;
  calleeName : string;
  callArgs : list ResourceRef;
}.

Record CallableSummary := MkSummary { name : string; params : list string; ops : list SummaryOp }.
Record Scope := MkScope { resources : gmap string ResourceInfo; callables : gmap string string }.
Record SummaryBuildState := MkBuild {
  callableName : string;
  parameterNames : gset string;
  b_ops : list SummaryOp;
}.
Abbreviation HeldMap := (gmap string (gset string)).

(** [class Analyzer]; the back of a vector used as a stack comes first. *)
Record t := Mk {
  m_syncGraph : SyncGraphAnalyzer.t;
  m_importAliases : gmap string string;
  m_scopes : list Scope;
  m_threadHeldLocks : HeldMap;
  m_functionStack : list string;
  m_callables : gmap string CallableSummary;
  m_lambdaCallableIds : gmap (list nat) string;
  m_summaryBuildStack : list SummaryBuildState;
  m_activeSummaryCalls : gset string;
  m_currentModule : string;
  m_nextThreadId : nat;
  m_nextMutexId : nat;
  m_nextLambdaId : nat;
}.

Definition init : t := Mk SyncGraphAnalyzer.init ∅ [] ∅ [] ∅ ∅ [] ∅ "" 0 0 0.

Definition Reset (s : t) : t :=
  Mk (m_syncGraph s) ∅ [] ∅ [] ∅ ∅ [] ∅ (m_currentModule s) 0 0 0.

(** *** Assignments to one member *)

Definition set_syncGraph g (s : t) : t :=
  Mk g (m_importAliases s) (m_scopes s) (m_threadHeldLocks s) (m_functionStack s) (m_callables s)
     (m_lambdaCallableIds s) (m_summaryBuildStack s) (m_activeSummaryCalls s) (m_currentModule s)
     (m_nextThreadId s) (m_nextMutexId s) (m_nextLambdaId s).
Definition set_importAliases f (s : t) : t :=
  Mk (m_syncGraph s) (f (m_importAliases s)) (m_scopes s) (m_threadHeldLocks s) (m_functionStack s)
     (m_callables s) (m_lambdaCallableIds s) (m_summaryBuildStack s) (m_activeSummaryCalls s)
     (m_currentModule s) (m_nextThreadId s) (m_nextMutexId s) (m_nextLambdaId s).
Definition set_scopes f (s : t) : t :=
  Mk (m_syncGraph s) (m_importAliases s) (f (m_scopes s)) (m_threadHeldLocks s) (m_functionStack s)
     (m_callables s) (m_lambdaCallableIds s) (m_summaryBuildStack s) (m_activeSummaryCalls s)
     (m_currentModule s) (m_nextThreadId s) (m_nextMutexId s) (m_nextLambdaId s).
Definition set_held f (s : t) : t :=
  Mk (m_syncGraph s) (m_importAliases s) (m_scopes s) (f (m_threadHeldLocks s)) (m_functionStack s)
     (m_callables s) (m_lambdaCallableIds s) (m_summaryBuildStack s) (m_activeSummaryCalls s)
     (m_currentModule s) (m_nextThreadId s) (m_nextMutexId s) (m_nextLambdaId s).
Definition set_functionStack f (s : t) : t :=
  Mk (m_syncGraph s) (m_importAliases s) (m_scopes s) (m_threadHeldLocks s) (f (m_functionStack s))
     (m_callables s) (m_lambdaCallableIds s) (m_summaryBuildStack s) (m_activeSummaryCalls s)
     (m_currentModule s) (m_nextThreadId s) (m_nextMutexId s) (m_nextLambdaId s).
Definition set_callables f (s : t) : t :=
  Mk (m_syncGraph s) (m_importAliases s) (m_scopes s) (m_threadHeldLocks s) (m_functionStack s)
     (f (m_callables s)) (m_lambdaCallableIds s) (m_summaryBuildStack s) (m_activeSummaryCalls s)
     (m_currentModule s) (m_nextThreadId s) (m_nextMutexId s) (m_nextLambdaId s).
Definition set_lambdas f (s : t) : t :=
  Mk (m_syncGraph s) (m_importAliases s) (m_scopes s) (m_threadHeldLocks s) (m_functionStack s)
     (m_callables s) (f (m_lambdaCallableIds s)) (m_summaryBuildStack s) (m_activeSummaryCalls s)
     (m_currentModule s) (m_nextThreadId s) (m_nextMutexId s) (m_nextLambdaId s).
Definition set_buildStack f (s : t) : t :=
  Mk (m_syncGraph s) (m_importAliases s) (m_scopes s) (m_threadHeldLocks s) (m_functionStack s)
     (m_callables s) (m_lambdaCallableIds s) (f (m_summaryBuildStack s)) (m_activeSummaryCalls s)
     (m_currentModule s) (m_nextThreadId s) (m_nextMutexId s) (m_nextLambdaId s).
Definition set_active f (s : t) : t :=
  Mk (m_syncGraph s) (m_importAliases s) (m_scopes s) (m_threadHeldLocks s) (m_functionStack s)
     (m_callables s) (m_lambdaCallableIds s) (m_summaryBuildStack s) (f (m_activeSummaryCalls s))
     (m_currentModule s) (m_nextThreadId s) (m_nextMutexId s) (m_nextLambdaId s).
Definition set_module q (s : t) : t :=
  Mk (m_syncGraph s) (m_importAliases s) (m_scopes s) (m_threadHeldLocks s) (m_functionStack s)
     (m_callables s) (m_lambdaCallableIds s) (m_summaryBuildStack s) (m_activeSummaryCalls s)
     q (m_nextThreadId s) (m_nextMutexId s) (m_nextLambdaId s).
Definition set_counters th mu la (s : t) : t :=
  Mk (m_syncGraph s) (m_importAliases s) (m_scopes s) (m_threadHeldLocks s) (m_functionStack s)
     (m_callables s) (m_lambdaCallableIds s) (m_summaryBuildStack s) (m_activeSummaryCalls s)
     (m_currentModule s) th mu la.

(** *** Scopes *)

Definition PushScope : st t unit := st_modify (set_scopes (cons (MkScope ∅ ∅))).
(** [pop_back] of a vector that is not empty. *)
Definition PopScope : st t unit := st_modify (set_scopes (@tail Scope)).

(** What both [Define...] do: a change of the innermost scope, made if there is none. *)
Definition with_innermost (f : Scope → Scope) (l : list Scope) : list Scope :=
  match l with [] => [f (MkScope ∅ ∅)] | scope :: l => f scope :: l end.

Definition DefineResource (name : string) (info : ResourceInfo) : st t unit :=
  st_modify (set_scopes (with_innermost (λ c, MkScope (<[name := info]> (resources c)) (callables c)))).
Definition DefineCallable (name callableId : string) : st t unit :=
  st_modify (set_scopes (with_innermost (λ c, MkScope (resources c) (<[name := callableId]> (callables c))))).

(** The innermost scope that has the key. *)
Fixpoint find_scoped {A} (f : Scope → gmap string A) (name : string) (l : list Scope) : option A :=
  match l with
  | [] => None
  | scope :: l => match f scope !! name with Some a => Some a | None => find_scoped f name l end
  end.
Definition ResolveResource (name : string) (s : t) : ResourceInfo :=
  default no_resource (find_scoped resources name (m_scopes s)).
Definition ResolveCallable (name : string) (s : t) : option string :=
  find_scoped callables name (m_scopes s).

Definition CurrentContext (s : t) : string :=
  match m_functionStack s with [] => "top_level" | f :: _ => f end.

Definition IsSyncAlias (alias : string) (s : t) : bool :=
  match m_importAliases s !! alias with
  | Some q => bool_decide (q = "std.sync")
  | None => false
  end.

Definition QualifyCallableName (name : string) (s : t) : string :=
  match find_string "." name with
  | Some _ => name
  | None => if decide (m_currentModule s ≠ "") then m_currentModule s +:+ "." +:+ name else name
  end.

(** The method of a call of the module [std.sync]. *)
Definition GetSyncCallInfo (callee : Node) (s : t) : option string :=
  match callee with
  | MemberAccessNode (IdentifierNode object) member => if IsSyncAlias object s then Some member else None
  | _ => None
  end.

Definition NewThreadId : st t string := λ s,
  Ok ("thread#" +:+ pretty (S (m_nextThreadId s)),
      set_counters (S (m_nextThreadId s)) (m_nextMutexId s) (m_nextLambdaId s) s).
Definition NewMutexId : st t string := λ s,
  Ok ("mutex#" +:+ pretty (S (m_nextMutexId s)),
      set_counters (m_nextThreadId s) (S (m_nextMutexId s)) (m_nextLambdaId s) s).
Definition NewLambdaId : st t string := λ s,
  Ok ("<lambda#" +:+ pretty (S (m_nextLambdaId s)) +:+ ">",
      set_counters (m_nextThreadId s) (m_nextMutexId s) (S (m_nextLambdaId s)) s).

Definition InferResource (node : Node) : st t ResourceInfo :=
  s ← st_get;
  match node with
  | IdentifierNode name => mret (ResolveResource name s)
  | CallNode callee _ =>
      match GetSyncCallInfo callee s with
      | Some method =>
          if decide (method = "spawn") then i ← NewThreadId; mret (MkInfo Thread i)
          else if decide (method = "current_thread") then mret (MkInfo Thread "main_thread")
          else if decide (method = "mutex") then i ← NewMutexId; mret (MkInfo Mutex i)
          else mret no_resource
      | None => mret no_resource
      end
  | _ => mret no_resource
  end.

(** [MakeRef]: it is declared [const] and changes the counters all the same. *)
Definition MakeRef (node : Node) : st t ResourceRef :=
  s ← st_get;
  match node with
  | NullNode => mret no_ref
  | IdentifierNode name =>
      let isParam := match m_summaryBuildStack s with
                     | [] => false
                     | b :: _ => bool_decide (name ∈ parameterNames b)
                     end in
      if isParam then mret (MkRef Unknown name true)
      else let resource := ResolveResource name s in
           mret (MkRef (kind resource) (id resource) false)
  | _ => resource ← InferResource node; mret (MkRef (kind resource) (id resource) false)
  end.

(** *** The first pass: what a function does *)

(** A loop over children, each with its number. *)
Section each.
Context {A : Type} (f : nat → A → st t unit).
Fixpoint each (i : nat) (l : list A) : st t unit :=
  match l with [] => mret tt | x :: l => _ ← f i x; each (S i) l end.
End each.

(** The case of a module declaration, the same in the three walks. *)
Definition enter_module (qualifiedName : string) : st t unit :=
  _ ← st_modify (set_module qualifiedName);
  _ ← st_modify (set_scopes (λ _, []));
  _ ← PushScope;
  st_modify (set_importAliases (λ _, ∅)).

Definition declare_import (qualifiedName alias : string) : st t unit :=
  let alias := if decide (alias = "") then DefaultImportAlias qualifiedName else alias in
  st_modify (set_importAliases <[alias := qualifiedName]>).

(** [stored.ops = std::move(...)] and [pop_back]; [stored] is in the map. *)
Definition store_ops (callableId : string) : st t unit := λ s,
  match m_summaryBuildStack s with
  | [] => Throw (undefined_behaviour "back of an empty vector")
  | b :: l => Ok (tt, set_buildStack (λ _, l)
      (set_callables (alter (λ c, MkSummary (name c) (params c) (b_ops b)) callableId) s))
  end.

(** What the two builders share: the summary is added unless the key is
    there, the body runs in a scope with the parameters. *)
Definition build_summary (callableId : string) (ps : list Parameter_) (body : st t unit) : st t unit :=
  let summary := MkSummary callableId (p_name <$> ps) [] in
  _ ← st_modify (set_callables (λ m, match m !! callableId with Some _ => m | None => <[callableId := summary]> m end));
  _ ← st_modify (set_buildStack (cons (MkBuild callableId (list_to_set (p_name <$> ps)) [])));
  _ ← PushScope;
  _ ← each (λ _ p, DefineResource (p_name p) no_resource) 0 ps;
  _ ← st_modify (set_functionStack (cons callableId));
  _ ← body;
  _ ← st_modify (set_functionStack (@tail string));
  _ ← PopScope;
  store_ops callableId.

(** [BuildNamedFunctionSummary]; [body] is the walk over the body. *)
Definition BuildNamedFunctionSummary (fname : string) (ps : list Parameter_) (body : st t unit) : st t unit :=
  s ← st_get;
  let qualifiedName := QualifyCallableName fname s in
  match m_callables s !! qualifiedName with
  | Some _ => mret tt
  | None => _ ← build_summary qualifiedName ps body; DefineCallable fname qualifiedName
  end.

Definition BuildLambdaSummary (lambdaId : string) (place : list nat) (ps : list Parameter_)
    (body : st t unit) : st t unit :=
  _ ← st_modify (set_lambdas <[place := lambdaId]>);
  build_summary lambdaId ps body.

Definition ResolveCalleeName (callee : Node) (s : t) : option string :=
  match callee with
  | IdentifierNode name =>
      match ResolveCallable name s with
      | Some callable => Some callable
      | None => Some (QualifyCallableName name s)
      end
  | MemberAccessNode (IdentifierNode object) member =>
      match m_importAliases s !! object with
      | Some q => if decide (q = "std.sync") then None else Some (q +:+ "." +:+ member)
      | None => (λ callable, callable +:+ "." +:+ member) <$> ResolveCallable object s
      end
  | _ => None
  end.

Definition push_op (op : SummaryOp) : st t unit := λ s,
  match m_summaryBuildStack s with
  | [] => Throw (undefined_behaviour "back of an empty vector")
  | b :: l => Ok (tt, set_buildStack (λ _, MkBuild (callableName b) (parameterNames b) (b_ops b ++ [op]) :: l) s)
  end.

Fixpoint make_refs (args : list Node) : st t (list ResourceRef) :=
  match args with
  | [] => mret []
  | a :: args => r ← MakeRef a; l ← make_refs args; mret (r :: l)
  end.

(** [RecordSummaryCall]; [arguments] is the walk over the arguments. *)
Definition RecordSummaryCall (callee : Node) (args : list Node) (arguments : st t unit) : st t unit :=
  s ← st_get;
  match m_summaryBuildStack s with
  | [] => mret tt
  | _ :: _ =>
      _ ← arguments;
      s ← st_get;
      match GetSyncCallInfo callee s with
      | Some method =>
          match args with
          | [a; b] =>
              if decide (method = "lock" ∨ method = "unlock" ∨ method = "join") then
                x ← MakeRef a; y ← MakeRef b;
                push_op (MkOp (if decide (method = "lock") then Lock
                               else if decide (method = "unlock") then Unlock else Join) x y "" [])
              else mret tt
          | _ => mret tt
          end
      | None =>
          match ResolveCalleeName callee s with
          | Some calleeName => l ← make_refs args; push_op (MkOp Call no_ref no_ref calleeName l)
          | None => mret tt
          end
      end
  end.

(** [if (const auto callable = ResolveCallable(n)) DefineCallable(name, *callable);] *)
Definition copy_callable (name n : string) : st t unit :=
  s ← st_get;
  match ResolveCallable n s with
  | Some callable => DefineCallable name callable
  | None => mret tt
  end.

Fixpoint BuildSummaryNode (place : list nat) (node : Node) {struct node} : st t unit :=
  match node with
  | BlockNode statements =>
      _ ← PushScope; _ ← each (λ i n, BuildSummaryNode (i :: place) n) 0 statements; PopScope
  | ExportDeclNode declaration _ => BuildSummaryNode (0 :: place) declaration
  | ModuleDeclNode qualifiedName => enter_module qualifiedName
  | VarDeclNode name _ initializer _ _ =>
      match initializer with
      | FunctionExprNode _ _ ps _ body =>
          lambdaId ← NewLambdaId;
          _ ← BuildLambdaSummary lambdaId (0 :: place) ps (BuildSummaryNode (0 :: 0 :: place) body);
          DefineCallable name lambdaId
      | _ => BuildSummaryNode (0 :: place) initializer
      end
  | AssignmentNode name _ _ _ value _ =>
      _ ← BuildSummaryNode (2 :: place) value;
      if decide (name = "") then mret tt
      else
        match value with
        | FunctionExprNode _ _ ps _ body =>
            lambdaId ← NewLambdaId;
            _ ← BuildLambdaSummary lambdaId (2 :: place) ps (BuildSummaryNode (0 :: 2 :: place) body);
            DefineCallable name lambdaId
        | IdentifierNode n => copy_callable name n
        | _ => mret tt
        end
  | IfStatementNode condition thenBlock elseBlock =>
      _ ← BuildSummaryNode (0 :: place) condition;
      _ ← BuildSummaryNode (1 :: place) thenBlock;
      BuildSummaryNode (2 :: place) elseBlock
  | WhileStatementNode condition body =>
      _ ← BuildSummaryNode (0 :: place) condition;
      BuildSummaryNode (1 :: place) body
  | UnsafeNode body => BuildSummaryNode (0 :: place) body
  | ReturnNode value => BuildSummaryNode (0 :: place) value
  | PrintNode value => BuildSummaryNode (0 :: place) value
  | FunctionDeclNode name _ _ _ ps _ _ _ body =>
      BuildNamedFunctionSummary name ps (BuildSummaryNode (0 :: place) body)
  | FunctionExprNode _ _ ps _ body =>
      lambdaId ← NewLambdaId;
      BuildLambdaSummary lambdaId place ps (BuildSummaryNode (0 :: place) body)
  | CallNode callee args =>
      RecordSummaryCall callee args (each (λ i n, BuildSummaryNode (S i :: place) n) 0 args)
  | MemberAccessNode object _ => BuildSummaryNode (0 :: place) object
  | BinaryExprNode lhs _ rhs =>
      _ ← BuildSummaryNode (0 :: place) lhs; BuildSummaryNode (1 :: place) rhs
  | UnaryExprNode _ operand => BuildSummaryNode (0 :: place) operand
  | IndexNode container index =>
      _ ← BuildSummaryNode (0 :: place) container; BuildSummaryNode (1 :: place) index
  | ArrayLiteralNode elements => each (λ i n, BuildSummaryNode (i :: place) n) 0 elements
  | _ => mret tt
  end.

Fixpoint CollectCallables (place : list nat) (node : Node) {struct node} : st t unit :=
  match node with
  | BlockNode statements => each (λ i n, CollectCallables (i :: place) n) 0 statements
  | ImportDeclNode qualifiedName alias => declare_import qualifiedName alias
  | ModuleDeclNode qualifiedName => enter_module qualifiedName
  | ExportDeclNode declaration _ => CollectCallables (0 :: place) declaration
  | FunctionDeclNode name _ _ _ ps _ _ _ body =>
      BuildNamedFunctionSummary name ps (BuildSummaryNode (0 :: place) body)
  | VarDeclNode name _ (FunctionExprNode _ _ ps _ body) _ _ =>
      lambdaId ← NewLambdaId;
      _ ← BuildLambdaSummary lambdaId (0 :: place) ps (BuildSummaryNode (0 :: 0 :: place) body);
      DefineCallable name lambdaId
  | _ => mret tt
  end.

(** *** The second pass: the statements of the modules *)

Definition throw_error (message : string) : st t unit := st_throw (runtime_error message).

(** The texts of the errors. *)
Definition relock (thread mutex context : string) : string :=
  "Potential deadlock detected at compile time: thread '"
  +:+ thread +:+ "' tries to re-lock mutex '" +:+ mutex +:+ "' in " +:+ context.
Definition not_owned (thread mutex context : string) : string :=
  "Potential sync hazard detected at compile time: thread '"
  +:+ thread +:+ "' unlocks mutex '" +:+ mutex
  +:+ "' without proven ownership in " +:+ context.

(** A call on [m_syncGraph], and the exception when it answers [false]. *)
Definition graph_edge (m : st SyncGraphAnalyzer.t bool) : st t unit := λ s,
  r ← m (m_syncGraph s);
  let '(ok, g) := r in
  if (ok : bool) then Ok (tt, set_syncGraph g s)
  else Throw (runtime_error (SyncGraphAnalyzer.LastError g)).

Definition held_locks (thread : string) (s : t) : gset string := default ∅ (m_threadHeldLocks s !! thread).

Definition ApplyLock (thread mutex : ResourceInfo) (context : string) : st t unit :=
  if decide (kind thread ≠ Thread ∨ kind mutex ≠ Mutex) then mret tt
  else
    s ← st_get;
    let heldLocks := held_locks (id thread) s in
    if decide (id mutex ∈ heldLocks) then throw_error (relock (id thread) (id mutex) context)
    else
      _ ← each (λ _ heldMutex, graph_edge (SyncGraphAnalyzer.AddLockEdge heldMutex (id mutex) context))
            0 (elements heldLocks);
      st_modify (set_held <[id thread := {[id mutex]} ∪ heldLocks]>).

Definition ApplyUnlock (thread mutex : ResourceInfo) (context : string) : st t unit :=
  if decide (kind thread ≠ Thread ∨ kind mutex ≠ Mutex) then mret tt
  else
    s ← st_get;
    let heldLocks := held_locks (id thread) s in
    if decide (id mutex ∈ heldLocks)
    then st_modify (set_held <[id thread := heldLocks ∖ {[id mutex]}]>)
    else throw_error (not_owned (id thread) (id mutex) context).

Definition ApplyJoin (waitingThread targetThread : ResourceInfo) (context : string) : st t unit :=
  if decide (kind waitingThread ≠ Thread ∨ kind targetThread ≠ Thread) then mret tt
  else graph_edge (SyncGraphAnalyzer.AddJoinEdge (id waitingThread) (id targetThread) context).

Definition ResolveRef (bindings : gmap string ResourceInfo) (ref : ResourceRef) : ResourceInfo :=
  if isParameter ref then default no_resource (bindings !! r_name ref)
  else MkInfo (r_kind ref) (r_name ref).

(** The loops that bind parameters to arguments; a later pair overwrites. *)
Definition bind_all (l : list (string * ResourceInfo)) : gmap string ResourceInfo :=
  foldl (λ m kv, <[kv.1 := kv.2]> m) ∅ l.

Definition replay_op (ReplayCallable : string → gmap string ResourceInfo → string → st t unit)
    (bindings : gmap string ResourceInfo) (context : string) (op : SummaryOp) : st t unit :=
  match op_kind op with
  | Lock => ApplyLock (ResolveRef bindings (first op)) (ResolveRef bindings (second op)) context
  | Unlock => ApplyUnlock (ResolveRef bindings (first op)) (ResolveRef bindings (second op)) context
  | Join => ApplyJoin (ResolveRef bindings (first op)) (ResolveRef bindings (second op)) context
  | Call =>
      s ← st_get;
      match m_callables s !! calleeName op with
      | None => mret tt
      | Some nested =>
          ReplayCallable (calleeName op)
            (bind_all (zip (params nested) (ResolveRef bindings <$> callArgs op)))
            (context +:+ " -> " +:+ calleeName op)
      end
  end.

Fixpoint ReplayCallable (fuel : nat) (callableId : string) (bindings : gmap string ResourceInfo)
    (context : string) : st t unit :=
  match fuel with
  | 0 => st_diverge
  | S fuel =>
      s ← st_get;
      if decide (callableId ∈ m_activeSummaryCalls s) then mret tt
      else
        match m_callables s !! callableId with
        | None => mret tt
        | Some c =>
            _ ← st_modify (set_active (λ a, {[callableId]} ∪ a));
            _ ← each (λ _ op, replay_op (ReplayCallable fuel) bindings context op) 0 (ops c);
            st_modify (set_active (λ a, a ∖ {[callableId]}))
        end
  end.

(** Only callables that are not active yet are entered. *)
Definition replay_fuel (s : t) : nat := S (size (m_callables s)).

(** A loop over pairs that infers the resource of every argument. *)
Fixpoint bind_arguments (names : list string) (args : list Node) (m : gmap string ResourceInfo)
    : st t (gmap string ResourceInfo) :=
  match names, args with
  | n :: names, a :: args => r ← InferResource a; bind_arguments names args (<[n := r]> m)
  | _, _ => mret m
  end.

(** [AnalyzeCall] after the walks over the callee and the arguments. *)
Definition apply_call (callee : Node) (args : list Node) : st t unit :=
  s ← st_get;
  match GetSyncCallInfo callee s with
  | Some method =>
      match args with
      | [a; b] =>
          if decide (method = "lock") then
            x ← InferResource a; y ← InferResource b; s ← st_get; ApplyLock x y (CurrentContext s)
          else if decide (method = "unlock") then
            x ← InferResource a; y ← InferResource b; s ← st_get; ApplyUnlock x y (CurrentContext s)
          else if decide (method = "join") then
            x ← InferResource a; y ← InferResource b; s ← st_get; ApplyJoin x y (CurrentContext s)
          else mret tt
      | _ => mret tt
      end
  | None =>
      match ResolveCalleeName callee s with
      | None => mret tt
      | Some calleeName =>
          match m_callables s !! calleeName with
          | None => mret tt
          | Some c =>
              bindings ← bind_arguments (params c) args ∅;
              s ← st_get;
              ReplayCallable (replay_fuel s) calleeName bindings (CurrentContext s +:+ " -> " +:+ calleeName)
          end
      end
  end.

Definition MergeHeldState (lhs rhs : HeldMap) : HeldMap :=
  map_imap (λ threadId lhsLocks,
    match rhs !! threadId with
    | None => None
    | Some rhsLocks =>
        let common := lhsLocks ∩ rhsLocks in
        if decide (common = ∅) then None else Some common
    end) lhs.

(** The branches of an [if], with the locks of both merged. *)
Definition analyze_branches (thenBlock elseBlock : st t unit) : st t unit :=
  s ← st_get;
  let before := m_threadHeldLocks s in
  _ ← thenBlock;
  s ← st_get;
  let thenState := m_threadHeldLocks s in
  _ ← st_modify (set_held (λ _, before));
  _ ← elseBlock;
  s ← st_get;
  let elseState := m_threadHeldLocks s in
  st_modify (set_held (λ _, MergeHeldState thenState elseState)).

Definition analyze_while (body : st t unit) : st t unit :=
  s ← st_get;
  let before := m_threadHeldLocks s in
  _ ← body;
  st_modify (set_held (λ _, before)).

(** After the walk over the initializer. *)
Definition define_variable (name : string) (place : list nat) (initializer : Node) : st t unit :=
  r ← InferResource initializer;
  _ ← DefineResource name r;
  match initializer with
  | FunctionExprNode _ _ _ _ _ =>
      s ← st_get;
      match m_lambdaCallableIds s !! place with
      | Some callable => DefineCallable name callable
      | None => mret tt
      end
  | IdentifierNode n => copy_callable name n
  | _ => mret tt
  end.

Definition assign_variable (name : string) (value : Node) : st t unit :=
  r ← InferResource value;
  _ ← DefineResource name r;
  match value with IdentifierNode n => copy_callable name n | _ => mret tt end.

Fixpoint AnalyzeNode (place : list nat) (node : Node) {struct node} : st t unit :=
  match node with
  | BlockNode statements =>
      _ ← PushScope; _ ← each (λ i n, AnalyzeNode (i :: place) n) 0 statements; PopScope
  | ImportDeclNode qualifiedName alias => declare_import qualifiedName alias
  | ModuleDeclNode qualifiedName => enter_module qualifiedName
  | ExportDeclNode declaration _ => AnalyzeNode (0 :: place) declaration
  | VarDeclNode name _ initializer _ _ =>
      _ ← AnalyzeNode (0 :: place) initializer;
      define_variable name (0 :: place) initializer
  | AssignmentNode name object _ dereferenceTarget value index =>
      if decide (name ≠ "") then
        _ ← AnalyzeNode (2 :: place) value;
        assign_variable name value
      else
        _ ← AnalyzeNode (0 :: place) object;
        _ ← AnalyzeNode (1 :: place) dereferenceTarget;
        _ ← AnalyzeNode (3 :: place) index;
        AnalyzeNode (2 :: place) value
  | FunctionDeclNode name _ _ _ _ _ _ _ _ =>
      s ← st_get; DefineCallable name (QualifyCallableName name s)
  | IfStatementNode condition thenBlock elseBlock =>
      _ ← AnalyzeNode (0 :: place) condition;
      analyze_branches (AnalyzeNode (1 :: place) thenBlock) (AnalyzeNode (2 :: place) elseBlock)
  | WhileStatementNode condition body =>
      _ ← AnalyzeNode (0 :: place) condition;
      analyze_while (AnalyzeNode (1 :: place) body)
  | UnsafeNode body => AnalyzeNode (0 :: place) body
  | ReturnNode value => AnalyzeNode (0 :: place) value
  | PrintNode value => AnalyzeNode (0 :: place) value
  | CallNode callee args =>
      _ ← AnalyzeNode (0 :: place) callee;
      _ ← each (λ i n, AnalyzeNode (S i :: place) n) 0 args;
      apply_call callee args
  | MemberAccessNode object _ => AnalyzeNode (0 :: place) object
  | BinaryExprNode lhs _ rhs => _ ← AnalyzeNode (0 :: place) lhs; AnalyzeNode (1 :: place) rhs
  | UnaryExprNode _ operand => AnalyzeNode (0 :: place) operand
  | IndexNode container index => _ ← AnalyzeNode (0 :: place) container; AnalyzeNode (1 :: place) index
  | ArrayLiteralNode elements => each (λ i n, AnalyzeNode (i :: place) n) 0 elements
  | _ => mret tt
  end.

Definition Analyze (root : Node) : st t unit :=
  _ ← st_modify Reset;
  _ ← PushScope;
  _ ← CollectCallables [] root;
  _ ← st_modify (set_scopes (λ _, []));
  _ ← PushScope;
  _ ← st_modify (set_importAliases (λ _, ∅));
  _ ← st_modify (set_module "");
  AnalyzeNode [] root.

(** [SyncStaticAnalyzer::Analyze]: a new analyzer for every program. *)
Definition analyze_program (root : Node) : result unit :=
  match Analyze root init with Ok _ => Ok tt | Throw e => Throw e | Diverge => Diverge end.

End SyncStaticAnalyzer.
