(* ===== verification/SyncModule.v ===== *)
(** * The native module of threads and mutexes

    [src/vm/runtime/stdlib/sync/SyncModule.cpp]: the native functions of
    [std.sync_native], to which those of [stdlib/std/sync.aura] pass their
    arguments.  A value is told apart only as far as these functions do: a
    handle of a thread, one of a mutex, or anything else, a null handle
    included.  The errors of the context before the call are none, and the
    first one raised is kept. *)

From S2P Require Import Prelude Graphs SyncRuntime.
Import Sync.

Module SyncModule.

Inductive handle := ThreadPtr (id : nat) | MutexPtr (id : nat) | OtherValue.
#[export] Instance handle_eq_dec : EqDecision handle.
Proof. solve_decision. Defined.

(** What a native function answers. *)
Inductive answer := monostate | boolean (b : bool) | integer (z : Z) | object (h : handle).

(** The answer and the error raised, if any. *)
Definition native : Type := list handle → st t (answer * option string).

Definition RequireThread (value : handle) : nat + string :=
  match value with ThreadPtr id => inl id | _ => inr "Expected a thread handle" end.
Definition RequireMutex (value : handle) : nat + string :=
  match value with MutexPtr id => inl id | _ => inr "Expected a mutex handle" end.

Definition no_argument {A} : st t A := st_throw (undefined_behaviour "operator[] out of range").
Definition refuse (message : string) : st t (answer * option string) := mret (monostate, Some message).
(** The conversion of a [bool] to a [Value]. *)
Definition answer_bool (m : st t outcome) : st t (answer * option string) :=
  r ← m; mret (boolean r.1, r.2).
Definition answer_int (m : st t nat) : st t (answer * option string) :=
  n ← m; mret (integer (Z.of_nat n), None).

(** Both arguments are looked at before the error is tested. *)
Definition with_thread_mutex (f : nat → nat → st t (answer * option string)) : native := λ args,
  match args with
  | a :: b :: _ =>
      match RequireThread a, RequireMutex b with
      | inl thread, inl mutex => f thread mutex
      | inr message, _ | inl _, inr message => refuse message
      end
  | _ => no_argument
  end.
Definition with_threads (f : nat → nat → st t (answer * option string)) : native := λ args,
  match args with
  | a :: b :: _ =>
      match RequireThread a, RequireThread b with
      | inl waiting, inl target => f waiting target
      | inr message, _ | inl _, inr message => refuse message
      end
  | _ => no_argument
  end.
Definition with_thread (f : nat → st t (answer * option string)) : native := λ args,
  match args with
  | a :: _ => match RequireThread a with inl thread => f thread | inr message => refuse message end
  | _ => no_argument
  end.
Definition with_mutex (f : nat → st t (answer * option string)) : native := λ args,
  match args with
  | a :: _ => match RequireMutex a with inl mutex => f mutex | inr message => refuse message end
  | _ => no_argument
  end.

Section natives.
(** The thread of the context that calls. *)
Context (m_currentThreadId : nat).

Definition current_thread : native := λ _, mret (object (ThreadPtr m_currentThreadId), None).
Definition spawn : native := λ _, i ← CreateExecutionThread; mret (object (ThreadPtr i), None).
Definition mutex : native := λ _, i ← CreateMutex; mret (object (MutexPtr i), None).
Definition lock : native := with_thread_mutex (λ th m, answer_bool (ctx_TryLockMutex th m)).
Definition unlock : native := with_thread_mutex (λ th m, answer_bool (ctx_UnlockMutex th m)).
Definition would_deadlock : native :=
  with_thread_mutex (λ th m, b ← WouldDeadlockOnMutex th m; mret (boolean b, None)).
Definition assert_no_deadlock : native := λ _, answer_bool ctx_AssertNoDeadlock.
Definition join : native := with_threads (λ w g, answer_bool (ctx_JoinThread w g)).
Definition finish : native := with_thread (λ th, answer_bool (ctx_FinishThread th)).
Definition is_locked : native := with_mutex (λ m, b ← IsMutexLocked m; mret (boolean b, None)).
Definition owner_id : native := with_mutex (λ m,
  owner ← MutexOwner m;
  mret (match owner with None => monostate | Some owner => integer (Z.of_nat owner) end, None)).
Definition thread_id : native := with_thread (λ th, mret (integer (Z.of_nat th), None)).
Definition thread_count : native := λ _, answer_int (s ← GetSyncStats; mret (threadCount s)).
Definition mutex_count : native := λ _, answer_int (s ← GetSyncStats; mret (mutexCount s)).
Definition wait_edge_count : native := λ _, answer_int (s ← GetSyncStats; mret (waitEdgeCount s)).

(** [SyncModule::Install]: the globals it defines, with their arities. *)
Definition Install : list (string * (nat * native)) :=
  [ ("current_thread", (0, current_thread)); ("spawn", (0, spawn)); ("mutex", (0, mutex));
    ("lock", (2, lock)); ("unlock", (2, unlock)); ("would_deadlock", (2, would_deadlock));
    ("assert_no_deadlock", (0, assert_no_deadlock)); ("join", (2, join)); ("finish", (1, finish));
    ("is_locked", (1, is_locked)); ("owner_id", (1, owner_id)); ("thread_id", (1, thread_id));
    ("thread_count", (0, thread_count)); ("mutex_count", (0, mutex_count));
    ("wait_edge_count", (0, wait_edge_count)) ].

End natives.

End SyncModule.
