(* ===== verification/SyncScript.v ===== *)
(** * Scripts of synchronisation, analysed and run

    A script is a module that creates threads and mutexes, binds them to
    variables, and locks, unlocks, joins and finishes them.  The same script is
    a syntax tree for the analysis of [SyncAnalysis] and a sequence of calls of
    the native functions of [SyncModule] for the runtime of [SyncRuntime]; the
    theorems relate the two. *)

From stdpp Require Import pretty.
From S2P Require Import Prelude Graphs SyncRuntime SyncSpec Ast TypeNames SyncAnalysis SyncAnalysisSpec SyncModule.
From Stdlib Require Import Lia.

Module SyncScript.
Import Ast SyncModule.

Inductive command :=
  | CCurrent (x : string) | CSpawn (x : string) | CMutex (x : string)
  | CLock (thread mutex : string) | CUnlock (thread mutex : string)
  | CJoin (waiting target : string) | CFinish (thread : string).

(** ** The script as a tree *)

Definition sync_call (alias method : string) (args : list string) : Node :=
  CallNode (MemberAccessNode (IdentifierNode alias) method) (IdentifierNode <$> args).
Definition declare (alias x method : string) : Node :=
  VarDeclNode x "" (sync_call alias method []) false Default_.

Definition embed (alias : string) (c : command) : Node :=
  match c with
  | CCurrent x => declare alias x "current_thread"
  | CSpawn x => declare alias x "spawn"
  | CMutex x => declare alias x "mutex"
  | CLock a b => sync_call alias "lock" [a; b]
  | CUnlock a b => sync_call alias "unlock" [a; b]
  | CJoin a b => sync_call alias "join" [a; b]
  | CFinish a => sync_call alias "finish" [a]
  end.

Definition program (q alias : string) (script : list command) : Node :=
  BlockNode (ModuleDeclNode q :: ImportDeclNode "std.sync" alias :: (embed alias <$> script)).

(** ** The script as calls *)

Record config := MkConfig { env : gmap string handle; runtime : Sync.t }.
Definition start : config := MkConfig ∅ Sync.init.

Definition value_of (cfg : config) (x : string) : handle := default OtherValue (env cfg !! x).

(** [var x = sync.f();] and [sync.f(...);] on the main thread. *)
Definition bind_answer (x : string) (f : native) (cfg : config) : result (config * option string) :=
  r ← f [] (runtime cfg);
  let '(a, e, s) := r in
  Ok (MkConfig (<[x := match a with object h => h | _ => OtherValue end]> (env cfg)) s, e).
Definition call_native (f : native) (args : list string) (cfg : config) : result (config * option string) :=
  r ← f (value_of cfg <$> args) (runtime cfg);
  let '(_, e, s) := r in Ok (MkConfig (env cfg) s, e).

Definition exec (c : command) (cfg : config) : result (config * option string) :=
  match c with
  | CCurrent x => bind_answer x (current_thread Sync.m_mainThreadId) cfg
  | CSpawn x => bind_answer x spawn cfg
  | CMutex x => bind_answer x mutex cfg
  | CLock a b => call_native lock [a; b] cfg
  | CUnlock a b => call_native unlock [a; b] cfg
  | CJoin a b => call_native join [a; b] cfg
  | CFinish a => call_native finish [a] cfg
  end.

(** The machine stops at the first error. *)
Fixpoint run (script : list command) (cfg : config) : result (config * option string) :=
  match script with
  | [] => Ok (cfg, None)
  | c :: script =>
      r ← exec c cfg;
      match r.2 with None => run script r.1 | Some _ => Ok r end
  end.

(** ** The names of the analysis

    The analysis numbers the handles as the runtime does. *)

Abbreviation analyzer := SyncStaticAnalyzer.t.
Import SyncStaticAnalyzer.

Definition thread_name (n : nat) : string := match n with 0 => "main_thread" | _ => "thread#" +:+ pretty n end.
Definition mutex_name (n : nat) : string := "mutex#" +:+ pretty n.

Definition info_of (h : handle) : ResourceInfo :=
  match h with
  | ThreadPtr n => MkInfo Thread (thread_name n)
  | MutexPtr n => MkInfo Mutex (mutex_name n)
  | OtherValue => no_resource
  end.

Lemma app_inj_string (s a b : string) : s +:+ a = s +:+ b → a = b.
Proof. induction s as [|c s IH]; cbn; [done|]. intros [= H]. by apply IH. Qed.

#[global] Instance thread_name_inj : Inj (=) (=) thread_name.
Proof.
  intros [|n] [|m] H; try done. unfold thread_name in H.
  apply app_inj_string in H. by apply (inj pretty) in H.
Qed.
#[global] Instance mutex_name_inj : Inj (=) (=) mutex_name.
Proof. intros n m H%app_inj_string. by apply (inj pretty) in H. Qed.

(** ** The analysis of one command *)

Section static.
Context (alias : string).

(** The state in which the commands are analysed. *)
Record ready (a : analyzer) : Prop := {
  re_alias : IsSyncAlias alias a = true;
  re_scope : m_scopes a ≠ [];
}.

Lemma infer_name x a : InferResource (IdentifierNode x) a = Ok (ResolveResource x a, a).
Proof. done. Qed.

Lemma each_nil {A} (f : nat → A → st analyzer unit) i a : each f i [] a = Ok (tt, a).
Proof. done. Qed.

Lemma analyze_names place l i a :
  each (λ i n, AnalyzeNode (S i :: place) n) i (IdentifierNode <$> l) a = Ok (tt, a).
Proof. revert i. by induction l as [|x l IH]; intros i; [|apply IH]. Qed.

(** A call of the module comes down to what is done for its method. *)
Lemma analyze_call place method args a :
  ready a →
  AnalyzeNode place (sync_call alias method args) a
  = apply_call (MemberAccessNode (IdentifierNode alias) method) (IdentifierNode <$> args) a.
Proof.
  intros Ha. unfold sync_call. cbn [AnalyzeNode].
  rewrite (st_bind_run _ _ a tt a) //. by rewrite (st_bind_run _ _ a tt a); [|apply analyze_names].
Qed.

Lemma analyze_lock place x y a :
  ready a →
  AnalyzeNode place (sync_call alias "lock" [x; y]) a
  = ApplyLock (ResolveResource x a) (ResolveResource y a) (CurrentContext a) a.
Proof.
  intros Ha. rewrite analyze_call //. unfold apply_call. rewrite (st_bind_run _ _ a a a) //.
  cbn [GetSyncCallInfo]. by rewrite (re_alias _ Ha).
Qed.
Lemma analyze_unlock place x y a :
  ready a →
  AnalyzeNode place (sync_call alias "unlock" [x; y]) a
  = ApplyUnlock (ResolveResource x a) (ResolveResource y a) (CurrentContext a) a.
Proof.
  intros Ha. rewrite analyze_call //. unfold apply_call. rewrite (st_bind_run _ _ a a a) //.
  cbn [GetSyncCallInfo]. by rewrite (re_alias _ Ha).
Qed.
Lemma analyze_join place x y a :
  ready a →
  AnalyzeNode place (sync_call alias "join" [x; y]) a
  = ApplyJoin (ResolveResource x a) (ResolveResource y a) (CurrentContext a) a.
Proof.
  intros Ha. rewrite analyze_call //. unfold apply_call. rewrite (st_bind_run _ _ a a a) //.
  cbn [GetSyncCallInfo]. by rewrite (re_alias _ Ha).
Qed.
Lemma analyze_finish place x a :
  ready a → AnalyzeNode place (sync_call alias "finish" [x]) a = Ok (tt, a).
Proof.
  intros Ha. rewrite analyze_call //. unfold apply_call. rewrite (st_bind_run _ _ a a a) //.
  cbn [GetSyncCallInfo]. by rewrite (re_alias _ Ha).
Qed.

Lemma analyze_declare place x method a :
  ready a →
  AnalyzeNode place (declare alias x method) a
  = (r ← InferResource (sync_call alias method []); DefineResource x r) a.
Proof.
  intros Ha. unfold declare. cbn [AnalyzeNode].
  assert (AnalyzeNode (0 :: place) (sync_call alias method []) a = Ok (tt, a)) as Hc.
  { rewrite analyze_call //. unfold apply_call. rewrite (st_bind_run _ _ a a a) //.
    cbn [GetSyncCallInfo]. by rewrite (re_alias _ Ha). }
  rewrite (st_bind_run _ _ _ _ _ Hc). unfold define_variable.
  unfold mbind, st_bind. destruct (InferResource _ a) as [[r a']| |]; [|done|done].
  by destruct (DefineResource x r a') as [[[] a'']| |].
Qed.
End static.

(** ** The runtime, with the graph after each operation *)

Section runtime.
Import Sync.
Implicit Types (th m : nat) (s : Sync.t).

Definition locked_by th m s : Sync.t :=
  ClearWaitingEdgesFromLocked th (set_owned (λ o, o ∪ {[m]}) th (set_mutexes <[m := Some th]> s)).
Definition released_by th m s : Sync.t :=
  ClearWaitingEdgesFromLocked th (set_owned (λ o, o ∖ {[m]}) th (set_mutexes <[m := None]> s)).

Lemma mutex_exists m s o : m_mutexes s !! m = Some o → MutexExistsLocked m s = true ∧ owner_of m s = o.
Proof.
  intros Hm. unfold MutexExistsLocked, owner_of. rewrite Hm. split; [|done].
  by apply bool_decide_eq_true; eauto.
Qed.

Lemma lock_free th m s :
  ok s → SyncHandleExistsLocked th s = true → m_mutexes s !! m = Some None →
  ctx_TryLockMutex th m s = Ok ((true, None), locked_by th m s) ∧ ok (locked_by th m s).
Proof.
  intros Hs%ok_coherent Hth Hm. destruct (mutex_exists _ _ _ Hm) as [Hex Ho]. split.
  - unfold ctx_TryLockMutex. run_with (active_run th s). rewrite Hth. cbn [negb].
    run_with (mutex_run m s). rewrite Hex. cbn [negb]. run_with (owner_run m s). rewrite Ho.
    assert (TryLockMutex th m s = Ok (true, locked_by th m s)) as Hl
      by (unfold TryLockMutex; by rewrite Hth Hex Ho).
    by run_with Hl.
  - by apply (change_owner_ok th m true).
Qed.

Lemma unlock_own th m s :
  ok s → SyncHandleExistsLocked th s = true → owner_of m s = Some th →
  ctx_UnlockMutex th m s = Ok ((true, None), released_by th m s) ∧ ok (released_by th m s).
Proof.
  intros Hs%ok_coherent Hth Ho. pose proof (owner_exists _ _ _ Ho) as Hex. split.
  - unfold ctx_UnlockMutex. run_with (active_run th s). rewrite Hth. cbn [negb].
    run_with (mutex_run m s). rewrite Hex. cbn [negb]. run_with (owner_run m s).
    rewrite Ho decide_False; [|by intros ?].
    assert (UnlockMutex th m s = Ok (true, released_by th m s)) as Hu.
    { unfold UnlockMutex. rewrite Hth Hex. cbn [negb orb]. rewrite Ho decide_False; [done|by intros ?]. }
    by run_with Hu.
  - by apply (change_owner_ok th m false).
Qed.

(** Only the creation of threads and mutexes uses the counters. *)
Definition same_ids s s' : Prop :=
  m_nextThreadId s' = m_nextThreadId s ∧ m_nextMutexId s' = m_nextMutexId s.
Definition keeps_ids {A} (f : st Sync.t A) : Prop := ∀ s a s', f s = Ok (a, s') → same_ids s s'.

Lemma keeps_ids_ret {A} (a : A) : keeps_ids (mret a).
Proof. by intros s ? s' [= <- <-]. Qed.
Lemma keeps_ids_bind {A B} (f : st Sync.t A) (k : A → st Sync.t B) :
  keeps_ids f → (∀ a, keeps_ids (k a)) → keeps_ids (f ≫= k).
Proof.
  intros Hf Hk s b s' (a & s1 & [H1 H2]%Hf & [H3 H4]%Hk)%st_bind_Ok. split; congruence.
Qed.
Ltac ids := intros s a s'; unfold mbind, result_bind; intros H; repeat case_match; simplify_eq; by split.

Lemma keeps_ids_lock th m : keeps_ids (TryLockMutex th m).
Proof. unfold TryLockMutex. ids. Qed.
Lemma keeps_ids_unlock th m : keeps_ids (UnlockMutex th m).
Proof. unfold UnlockMutex. ids. Qed.
Lemma keeps_ids_finish th : keeps_ids (FinishThread th).
Proof. unfold FinishThread. ids. Qed.
Lemma keeps_ids_deadlock th m : keeps_ids (WouldDeadlockOnMutex th m).
Proof. unfold WouldDeadlockOnMutex. ids. Qed.
Lemma keeps_ids_join w g : keeps_ids (JoinThread w g).
Proof. unfold JoinThread. ids. Qed.
Lemma keeps_ids_active th : keeps_ids (IsThreadActive th).
Proof. by intros s ? s' [= <- <-]. Qed.
Lemma keeps_ids_has m : keeps_ids (HasMutex m).
Proof. by intros s ? s' [= <- <-]. Qed.
Lemma keeps_ids_owner m : keeps_ids (MutexOwner m).
Proof. by intros s ? s' [= <- <-]. Qed.
Create HintDb ids.
#[local] Hint Resolve keeps_ids_lock keeps_ids_unlock keeps_ids_finish keeps_ids_deadlock keeps_ids_join
  keeps_ids_active keeps_ids_has keeps_ids_owner : ids.
Ltac all_ids := repeat (lazymatch goal with
  | |- keeps_ids (mret _) => apply keeps_ids_ret
  | |- keeps_ids (raise _) => apply keeps_ids_ret
  | |- keeps_ids (fine _) => apply keeps_ids_ret
  | |- keeps_ids (_ ≫= _) => apply keeps_ids_bind; [|intros ?]
  | |- keeps_ids (match _ with _ => _ end) => case_match
  | |- keeps_ids _ => solve [auto with ids]
  end).

Lemma ctx_lock_ids th m : keeps_ids (ctx_TryLockMutex th m).
Proof. unfold ctx_TryLockMutex. cbv zeta. all_ids. Qed.
Lemma ctx_unlock_ids th m : keeps_ids (ctx_UnlockMutex th m).
Proof. unfold ctx_UnlockMutex. all_ids. Qed.
Lemma ctx_finish_ids th : keeps_ids (ctx_FinishThread th).
Proof. unfold ctx_FinishThread. all_ids. Qed.
Lemma ctx_join_ids w g : keeps_ids (ctx_JoinThread w g).
Proof. unfold ctx_JoinThread. all_ids. Qed.

Lemma owner_locked th m s m' :
  owner_of m' (locked_by th m s) = if decide (m' = m) then Some th else owner_of m' s.
Proof. transitivity (owner_of m' (set_mutexes <[m := Some th]> s)); [done|]. by rewrite owner_of_insert. Qed.
Lemma owner_released th m s m' :
  owner_of m' (released_by th m s) = if decide (m' = m) then None else owner_of m' s.
Proof. transitivity (owner_of m' (set_mutexes <[m := None]> s)); [done|]. by rewrite owner_of_insert. Qed.

Lemma edge_wait th o s x y :
  edge (m_waitGraph (AddWaitEdgeLocked th o s)) x y ↔ edge (m_waitGraph s) x y ∨ x = th ∧ y = o.
Proof. unfold edge. cbn. rewrite deps_of_insert. case_decide; set_solver. Qed.
End runtime.

(** ** The relation between the analysis and the runtime

    Every mutex owned is held in the analysis, which also takes a lock that was
    only asked for as held; and the edge of a thread that waits stands for a
    mutex that it asked for while it owned what it owns now. *)

Section mirror.
Context (alias : string).

Abbreviation lock_order a := (SyncGraphAnalyzer.m_lockGraph (m_syncGraph a)).

Record mirrors (a : analyzer) (s : Sync.t) : Prop := {
  mi_ok : SyncSpec.ok s;
  mi_owner m th : Sync.owner_of m s = Some th → mutex_name m ∈ held_locks (thread_name th) a;
  mi_wait x y : edge (Sync.m_waitGraph s) x y →
    ∃ m, Sync.owner_of m s = Some y
      ∧ ∀ m', Sync.owner_of m' s = Some x → edge (lock_order a) (mutex_name m') (mutex_name m);
}.

(** Who waits, through others, for a thread has a mutex after one of its mutexes. *)
Lemma waiting_ordered a s x y :
  mirrors a s → path (Sync.m_waitGraph s) y x → ∀ m, Sync.owner_of m s = Some y →
  ∃ m', Sync.owner_of m' s = Some x ∧ path (lock_order a) (mutex_name m) (mutex_name m').
Proof.
  intros Hs Hp. induction Hp as [x|y z x Hyz _ IH]; intros m Hm.
  { exists m. split; [done|constructor]. }
  destruct (mi_wait _ _ Hs y z Hyz) as (m1 & Hm1 & He). destruct (IH m1 Hm1) as (m' & ? & ?).
  exists m'. split; [done|]. by eapply rtc_l; [apply He|].
Qed.

(** The errors of a deadlock. *)
Definition deadlock (e : option string) : Prop :=
  e = Some "Deadlock detected while locking mutex"
  ∨ e = Some "Recursive mutex lock is not allowed (self-deadlock)".

(** A call that returns, with no error of a deadlock, and leaves states related
    when it raises none. *)
Definition safe_call (r : result (Sync.outcome * Sync.t)) (a : analyzer) : Prop :=
  ∃ b e s, r = Ok ((b, e), s) ∧ ¬ deadlock e ∧ (e = None → mirrors a s).

Lemma safe_refused r b message s a :
  r = Ok ((b, Some message), s) → ¬ deadlock (Some message) → safe_call r a.
Proof. intros -> Hd. by exists b, (Some message), s. Qed.
Lemma safe_done r b s a : r = Ok ((b, None), s) → mirrors a s → safe_call r a.
Proof. intros -> Hs. exists b, None, s. split; [done|]. split; [by intros [?|?]|done]. Qed.

(** What an accepted lock changes in the analysis. *)
Record lock_accepted (th m : nat) (a a' : analyzer) : Prop := {
  la_new : mutex_name m ∉ held_locks (thread_name th) a;
  la_free h : h ∈ held_locks (thread_name th) a → ¬ path (lock_order a) (mutex_name m) h;
  la_held n : held_locks n a' = if decide (n = thread_name th) then {[mutex_name m]} ∪ held_locks n a
                                else held_locks n a;
  la_edge u v : edge (lock_order a') u v
    ↔ edge (lock_order a) u v ∨ u ∈ held_locks (thread_name th) a ∧ v = mutex_name m;
}.

Lemma accepted_lock th m a a' c :
  ApplyLock (info_of (ThreadPtr th)) (info_of (MutexPtr m)) c a = Ok (tt, a') → lock_accepted th m a a'.
Proof.
  intros Ha.
  pose proof (SyncStaticSpec.ApplyLock_run (info_of (ThreadPtr th)) (info_of (MutexPtr m)) c a eq_refl eq_refl) as H.
  cbn [info_of id] in H. cbn [info_of] in Ha. case_decide as Hin; [congruence|].
  destruct H as [(h & _ & _ & H)|(Hn & g & H & _ & Hg)]; [congruence|].
  assert (a' = set_held <[thread_name th := {[mutex_name m]} ∪ held_locks (thread_name th) a]> (set_syncGraph g a))
    as -> by congruence.
  split; [done|done| |exact Hg]. intros n. unfold held_locks at 1. cbn [set_held m_threadHeldLocks].
  case_decide as Hd; [subst; by rewrite lookup_insert_eq|by rewrite lookup_insert_ne].
Qed.

(** The mutex was free, or is busy. *)
Lemma mirrors_locked th m a a' s :
  mirrors a s → lock_accepted th m a a' → Sync.owner_of m s = None → SyncSpec.ok (locked_by th m s) →
  mirrors a' (locked_by th m s).
Proof.
  intros Hs Ha Hm Hok. split; [done| |].
  - intros m' th'. rewrite owner_locked (la_held _ _ _ _ Ha). case_decide as Hd.
    + intros [= <-]. rewrite decide_True //. set_solver.
    + intros Ho%(mi_owner _ _ Hs). case_decide; set_solver.
  - intros x y Hxy. change (Sync.m_waitGraph (locked_by th m s)) with (delete th (Sync.m_waitGraph s)) in Hxy.
    apply edge_delete in Hxy as [Hx Hxy]. destruct (mi_wait _ _ Hs x y Hxy) as (m1 & Hm1 & He).
    exists m1. rewrite owner_locked. split; [by rewrite decide_False; [|congruence]|].
    intros m'. rewrite owner_locked. case_decide; [congruence|]. intros Ho.
    apply (la_edge _ _ _ _ Ha). left. by apply He.
Qed.

Lemma mirrors_waiting th m o a a' s :
  mirrors a s → lock_accepted th m a a' → Sync.owner_of m s = Some o →
  SyncSpec.ok (Sync.AddWaitEdgeLocked th o s) → mirrors a' (Sync.AddWaitEdgeLocked th o s).
Proof.
  intros Hs Ha Hm Hok. split; [done| |].
  - intros m' th' Ho%(mi_owner _ _ Hs). rewrite (la_held _ _ _ _ Ha). case_decide; set_solver.
  - intros x y Hxy%edge_wait. destruct Hxy as [Hxy|[-> ->]].
    + destruct (mi_wait _ _ Hs x y Hxy) as (m1 & Hm1 & He). exists m1. split; [done|]. intros m' Ho.
      apply (la_edge _ _ _ _ Ha). left. by apply He.
    + exists m. split; [done|]. intros m' Ho%(mi_owner _ _ Hs). apply (la_edge _ _ _ _ Ha). by right.
Qed.

(** A lock that the analysis accepts. *)
Lemma lock_mirrors th m a a' s c :
  mirrors a s →
  ApplyLock (info_of (ThreadPtr th)) (info_of (MutexPtr m)) c a = Ok (tt, a') →
  safe_call (Sync.ctx_TryLockMutex th m s) a'.
Proof.
  intros Hs Ha%accepted_lock.
  destruct (Sync.SyncHandleExistsLocked th s) eqn:Hth.
  2: { eapply (safe_refused _ _ "Unknown thread handle"); [|by intros [?|?]].
    unfold Sync.ctx_TryLockMutex. run_with (active_run th s). by rewrite Hth. }
  pose proof (ctx_try_lock_spec th m s (mi_ok _ _ Hs) Hth) as H.
  destruct (Sync.m_mutexes s !! m) as [[o|]|] eqn:Hm.
  - destruct (mutex_exists _ _ _ Hm) as [_ Ho]. case_decide as Hd.
    { subst o. exfalso. by apply (la_new _ _ _ _ Ha), (mi_owner _ _ Hs). }
    destruct H as [[Hp _]|(_ & Hok & Hr)].
    { exfalso. destruct (waiting_ordered _ _ _ _ Hs Hp m Ho) as (m' & Hm' & Hpath).
      by eapply (la_free _ _ _ _ Ha); [apply (mi_owner _ _ Hs)|]. }
    eapply safe_done; [exact Hr|]. by eapply mirrors_waiting.
  - destruct (lock_free th m s (mi_ok _ _ Hs) Hth Hm) as [Hr Hok].
    eapply safe_done; [exact Hr|]. apply (mirrors_locked th m a); [done|done|by apply (mutex_exists _ _ _ Hm)|done].
  - eapply safe_refused; [exact H|by intros [?|?]].
Qed.

(** An unlock that the analysis accepts, of a thread that nobody waits for. *)
Lemma unlock_mirrors th m a a' s c :
  mirrors a s → (∀ x, ¬ edge (Sync.m_waitGraph s) x th) →
  ApplyUnlock (info_of (ThreadPtr th)) (info_of (MutexPtr m)) c a = Ok (tt, a') →
  safe_call (Sync.ctx_UnlockMutex th m s) a'.
Proof.
  intros Hs Hcalm Ha. rewrite SyncStaticSpec.ApplyUnlock_run // in Ha. cbn [info_of id] in Ha.
  case_decide as Hin; [|done]. injection Ha as <-.
  destruct (Sync.SyncHandleExistsLocked th s) eqn:Hth.
  2: { eapply (safe_refused _ _ "Unknown thread handle"); [|by intros [?|?]].
    unfold Sync.ctx_UnlockMutex. run_with (active_run th s). by rewrite Hth. }
  destruct (decide (Sync.owner_of m s = Some th)) as [Ho|Ho].
  - destruct (unlock_own th m s (mi_ok _ _ Hs) Hth Ho) as [Hr Hok].
    eapply safe_done; [exact Hr|]. split; [done| |].
    + intros m' th'. rewrite owner_released. case_decide as Hd; [done|]. intros Ho'%(mi_owner _ _ Hs).
      unfold held_locks. cbn [set_held m_threadHeldLocks]. destruct (decide (th' = th)) as [-> |Hne].
      * rewrite lookup_insert_eq. cbn. apply elem_of_difference. split; [exact Ho'|].
        intros Heq%elem_of_singleton. by apply (inj mutex_name) in Heq.
      * rewrite lookup_insert_ne //. by intros ?%(inj thread_name).
    + intros x y Hxy. change (Sync.m_waitGraph (released_by th m s)) with (delete th (Sync.m_waitGraph s)) in Hxy.
      apply edge_delete in Hxy as [Hx Hxy]. destruct (mi_wait _ _ Hs x y Hxy) as (m1 & Hm1 & He).
      exists m1. rewrite owner_released. split.
      * rewrite decide_False //. intros ->. apply (Hcalm x). congruence.
      * intros m'. rewrite owner_released. case_decide; [done|]. apply He.
  - unfold Sync.ctx_UnlockMutex. rewrite (st_bind_run _ _ _ _ _ (active_run th s)) Hth. cbn [negb].
    rewrite (st_bind_run _ _ _ _ _ (mutex_run m s)).
    destruct (Sync.MutexExistsLocked m s); cbn [negb].
    2: { eapply safe_refused; [done|by intros [?|?]]. }
    rewrite (st_bind_run _ _ _ _ _ (owner_run m s)) decide_True //.
    eapply safe_refused; [done|by intros [?|?]].
Qed.

(** [finish] is not a case of the analysis. *)
Lemma finish_mirrors th a s :
  mirrors a s →
  safe_call (Sync.ctx_FinishThread th s) a.
Proof.
  intros Hs. unfold Sync.ctx_FinishThread. destruct (Sync.m_threads s !! th) as [r|] eqn:Hth.
  - destruct (finish_ok th s (ok_coherent _ (mi_ok _ _ Hs))) as (s' & Hf & Hok & Ho & _ & He); [eauto|].
    rewrite (st_bind_run _ _ _ _ _ Hf). eapply safe_done; [done|]. split; [done| |].
    + intros m th'. rewrite Ho. case_decide; [done|]. apply (mi_owner _ _ Hs).
    + intros x y (Hxy & Hx & Hy)%He. destruct (mi_wait _ _ Hs x y Hxy) as (m & Hm & Hm').
      exists m. rewrite Ho. split; [by rewrite decide_False; [|congruence]|].
      intros m'. rewrite Ho. case_decide; [done|]. apply Hm'.
  - eapply (safe_refused _ false "Unknown thread handle" s); [|by intros [?|?]].
    unfold mbind, st_bind, Sync.FinishThread. by rewrite Hth.
Qed.
(** ** Scripts *)

(** An operation changes nothing but the graphs and the locks held. *)
Definition same_names (a a' : analyzer) : Prop := ∃ f g, a' = set_held f (set_syncGraph g a).

Lemma same_names_refl a : same_names a a.
Proof. exists (λ m, m), (m_syncGraph a). by destruct a. Qed.

Lemma lock_same_names x y c a a' : ApplyLock x y c a = Ok (tt, a') → same_names a a'.
Proof.
  destruct (decide (kind x = Thread)) as [Hx|Hx]; [destruct (decide (kind y = Mutex)) as [Hy|Hy]|].
  - pose proof (SyncStaticSpec.ApplyLock_run x y c a Hx Hy) as H. cbn zeta in H. intros Ha.
    case_decide; [congruence|]. destruct H as [(h & _ & _ & H)|(_ & g & H & _)]; [congruence|].
    rewrite H in Ha. injection Ha as <-. by eexists _, g.
  - unfold ApplyLock. rewrite decide_True; [|by right]. intros [= <-]. apply same_names_refl.
  - unfold ApplyLock. rewrite decide_True; [|by left]. intros [= <-]. apply same_names_refl.
Qed.

Lemma unlock_same_names x y c a a' : ApplyUnlock x y c a = Ok (tt, a') → same_names a a'.
Proof.
  destruct (decide (kind x = Thread)) as [Hx|Hx]; [destruct (decide (kind y = Mutex)) as [Hy|Hy]|].
  - rewrite SyncStaticSpec.ApplyUnlock_run //. case_decide; [|done]. intros [= <-].
    eexists _, (m_syncGraph a). by destruct a.
  - unfold ApplyUnlock. rewrite decide_True; [|by right]. intros [= <-]. apply same_names_refl.
  - unfold ApplyUnlock. rewrite decide_True; [|by left]. intros [= <-]. apply same_names_refl.
Qed.

(** The variables of the analysis stand for the handles of the runtime. *)
Record sim (a : analyzer) (cfg : config) : Prop := {
  si_ready : ready alias a;
  si_threads : Sync.m_nextThreadId (runtime cfg) = S (m_nextThreadId a);
  si_mutexes : Sync.m_nextMutexId (runtime cfg) = S (m_nextMutexId a);
  si_env x : ResolveResource x a = info_of (value_of cfg x);
  si_mirrors : mirrors a (runtime cfg);
}.

(** What the next command must not do: join threads, or unlock a mutex of a
    thread that another one waits for. *)
Definition nobody_waits (th : nat) (s : Sync.t) : bool :=
  bool_decide (map_Forall (λ _ deps, th ∉ deps) (Sync.m_waitGraph s)).
Definition calm_command (c : command) (cfg : config) : bool :=
  match c with
  | CJoin _ _ => false
  | CUnlock x _ => match value_of cfg x with ThreadPtr th => nobody_waits th (runtime cfg) | _ => true end
  | _ => true
  end.

Lemma nobody_waits_edge th s x : nobody_waits th s = true → ¬ edge (Sync.m_waitGraph s) x th.
Proof.
  intros Hn%bool_decide_eq_true Hx. unfold edge, deps_of in Hx.
  destruct (Sync.m_waitGraph s !! x) as [deps|] eqn:E; [|set_solver]. by apply (Hn x deps E).
Qed.

Definition safe_exec (r : result (config * option string)) (a : analyzer) : Prop :=
  ∃ cfg e, r = Ok (cfg, e) ∧ ¬ deadlock e ∧ (e = None → sim a cfg).

(** From the call to the command; the identifiers do not change. *)
Lemma sim_call a a' cfg (m : st Sync.t Sync.outcome) f args :
  sim a cfg → same_names a a' → keeps_ids m →
  f (value_of cfg <$> args) = answer_bool m →
  safe_call (m (runtime cfg)) a' → safe_exec (call_native f args cfg) a'.
Proof.
  intros [[H1 H2] H3 H4 H5 H6] (h & g & ->) Hids Hf (b & e & s & Hm & Hd & He).
  destruct (Hids _ _ _ Hm) as [Hth Hmu].
  exists (MkConfig (env cfg) s), e. split; [|split; [done|]].
  - unfold call_native, answer_bool in *. rewrite Hf. unfold mbind at 2, st_bind. by rewrite Hm.
  - intros Hn. split; [by split|cbn; congruence|cbn; congruence|exact H5|by apply He].
Qed.
(** A command that gets handles of the wrong kind is refused. *)
Lemma sim_refused a cfg f args message :
  f (value_of cfg <$> args) = refuse message → ¬ deadlock (Some message) →
  safe_exec (call_native f args cfg) a.
Proof.
  intros Hf Hd. exists cfg, (Some message). split; [|done]. unfold call_native. rewrite Hf. by destruct cfg.
Qed.

(** A new variable. *)
Lemma resolve_define x r a y :
  m_scopes a ≠ [] →
  ResolveResource y (set_scopes (with_innermost (λ c, MkScope (<[x := r]> (resources c)) (callables c))) a)
  = if decide (y = x) then r else ResolveResource y a.
Proof.
  intros Ha. unfold ResolveResource. cbn [m_scopes set_scopes].
  destruct (m_scopes a) as [|c l]; [done|]. cbn. case_decide as Hd.
  - subst. by rewrite lookup_insert_eq.
  - by rewrite lookup_insert_ne.
Qed.

Lemma sim_define x h a cfg s :
  sim a cfg →
  Sync.m_nextThreadId s = S (m_nextThreadId a) → Sync.m_nextMutexId s = S (m_nextMutexId a) → mirrors a s →
  sim (set_scopes (with_innermost (λ c, MkScope (<[x := info_of h]> (resources c)) (callables c))) a)
      (MkConfig (<[x := h]> (env cfg)) s).
Proof.
  intros [[H1 H2] _ _ H5 _] Hth Hmu Hm. split; [|done|done| |].
  - split; [exact H1|]. cbn. by destruct (m_scopes a).
  - intros y. rewrite resolve_define //. unfold value_of. cbn. case_decide as Hd.
    + subst. by rewrite lookup_insert_eq.
    + rewrite lookup_insert_ne; [apply H5|done].
  - by destruct Hm as [? ? ?]; split.
Qed.

(** Counting a new handle changes no relation. *)
Lemma mirrors_count th mu la a s :
  mirrors a s → mirrors (set_counters th mu la a) s.
Proof. intros [H1 H2 H3]. by split. Qed.

Lemma mirrors_new_thread a s :
  mirrors a s → ∃ s', Sync.CreateExecutionThread s = Ok (Sync.m_nextThreadId s, s')
    ∧ Sync.m_nextThreadId s' = S (Sync.m_nextThreadId s) ∧ Sync.m_nextMutexId s' = Sync.m_nextMutexId s
    ∧ mirrors a s'.
Proof.
  intros [H1 H2 H3]. destruct (create_thread_ok s (ok_coherent _ H1)) as (s' & Hs & Hok).
  exists s'. split; [done|]. injection Hs as <-. split; [done|]. split; [done|]. by split.
Qed.

Lemma mirrors_new_mutex a s :
  mirrors a s → ∃ s', Sync.CreateMutex s = Ok (Sync.m_nextMutexId s, s')
    ∧ Sync.m_nextThreadId s' = Sync.m_nextThreadId s ∧ Sync.m_nextMutexId s' = S (Sync.m_nextMutexId s)
    ∧ mirrors a s'.
Proof.
  intros [H1 H2 H3]. destruct (create_mutex_ok s (ok_coherent _ H1)) as (s' & Hs & Hok).
  exists s'. split; [done|]. injection Hs as <-. split; [done|]. split; [done|].
  pose proof (co_fresh_mutex _ (ok_coherent _ H1) (Sync.m_nextMutexId s) ltac:(lia)) as Hnew.
  set (s' := Sync.RecomputeSyncStatsLocked _) in *.
  assert (∀ m, Sync.owner_of m s' = Sync.owner_of m s) as Ho.
  { intros m. unfold Sync.owner_of. cbn. destruct (decide (m = Sync.m_nextMutexId s)) as [-> |].
    - by rewrite lookup_insert_eq Hnew.
    - by rewrite lookup_insert_ne. }
  split; [done| |].
  - intros m th. rewrite Ho. apply H2.
  - intros x y Hxy. destruct (H3 x y Hxy) as (m & Hm & Hm'). exists m. rewrite Ho. split; [done|].
    intros m'. rewrite Ho. apply Hm'.
Qed.
(** The declarations. *)
Lemma sim_counted th mu a cfg s :
  sim a cfg → Sync.m_nextThreadId s = S th → Sync.m_nextMutexId s = S mu → mirrors a s →
  sim (set_counters th mu (m_nextLambdaId a) a) (MkConfig (env cfg) s).
Proof.
  intros [[H1 H2] _ _ H5 _] Hth Hmu Hm. split; [by split|done|done|exact H5|by apply mirrors_count].
Qed.

Lemma step_declare x method f a a' a1 cfg h s place :
  sim a cfg → f [] (runtime cfg) = Ok (object h, None, s) →
  InferResource (sync_call alias method []) a = Ok (info_of h, a1) → sim a1 (MkConfig (env cfg) s) →
  AnalyzeNode place (declare alias x method) a = Ok (tt, a') → safe_exec (bind_answer x f cfg) a'.
Proof.
  intros Hs Hf Hi Hs1. rewrite analyze_declare; [|apply Hs]. rewrite (st_bind_run _ _ _ _ _ Hi).
  intros [= <-]. eexists _, None. split; [unfold bind_answer; by rewrite Hf|]. split; [by intros [?|?]|].
  intros _. apply (sim_define x h a1 (MkConfig (env cfg) s) s Hs1); apply Hs1.
Qed.

Lemma step_lock place x y a a' cfg :
  sim a cfg → AnalyzeNode place (embed alias (CLock x y)) a = Ok (tt, a') →
  safe_exec (exec (CLock x y) cfg) a'.
Proof.
  intros Hs Ha. cbn [embed] in Ha. rewrite analyze_lock in Ha; [|apply Hs].
  pose proof (lock_same_names _ _ _ _ _ Ha) as Hn. rewrite !(si_env _ _ Hs) in Ha. cbn [exec].
  destruct (value_of cfg x) as [th| |] eqn:Hx.
  2, 3: eapply (sim_refused _ _ _ _ "Expected a thread handle"); [cbn; by rewrite Hx|by intros [?|?]].
  destruct (value_of cfg y) as [|m|] eqn:Hy.
  1, 3: eapply (sim_refused _ _ _ _ "Expected a mutex handle"); [cbn; by rewrite Hx Hy|by intros [?|?]].
  eapply (sim_call a a' cfg (Sync.ctx_TryLockMutex th m)); [done..|apply ctx_lock_ids| |].
  - cbn. by rewrite Hx Hy.
  - by eapply lock_mirrors; [apply Hs|].
Qed.

Lemma step_unlock place x y a a' cfg :
  sim a cfg → calm_command (CUnlock x y) cfg = true →
  AnalyzeNode place (embed alias (CUnlock x y)) a = Ok (tt, a') →
  safe_exec (exec (CUnlock x y) cfg) a'.
Proof.
  intros Hs Hcalm Ha. cbn [embed] in Ha. rewrite analyze_unlock in Ha; [|apply Hs].
  pose proof (unlock_same_names _ _ _ _ _ Ha) as Hn. rewrite !(si_env _ _ Hs) in Ha. cbn [exec].
  destruct (value_of cfg x) as [th| |] eqn:Hx.
  2, 3: eapply (sim_refused _ _ _ _ "Expected a thread handle"); [cbn; by rewrite Hx|by intros [?|?]].
  destruct (value_of cfg y) as [|m|] eqn:Hy.
  1, 3: eapply (sim_refused _ _ _ _ "Expected a mutex handle"); [cbn; by rewrite Hx Hy|by intros [?|?]].
  eapply (sim_call a a' cfg (Sync.ctx_UnlockMutex th m)); [done..|apply ctx_unlock_ids| |].
  - cbn. by rewrite Hx Hy.
  - eapply unlock_mirrors; [apply Hs| |exact Ha]. cbn in Hcalm. rewrite Hx in Hcalm.
    intros z. by apply nobody_waits_edge.
Qed.

Lemma step_finish place x a a' cfg :
  sim a cfg → AnalyzeNode place (embed alias (CFinish x)) a = Ok (tt, a') →
  safe_exec (exec (CFinish x) cfg) a'.
Proof.
  intros Hs Ha. cbn [embed] in Ha. rewrite analyze_finish in Ha; [|apply Hs]. injection Ha as <-. cbn [exec].
  destruct (value_of cfg x) as [th| |] eqn:Hx.
  2, 3: eapply (sim_refused _ _ _ _ "Expected a thread handle"); [cbn; by rewrite Hx|by intros [?|?]].
  eapply (sim_call a a cfg (Sync.ctx_FinishThread th)); [done|apply same_names_refl|apply ctx_finish_ids| |].
  - cbn. by rewrite Hx.
  - eapply finish_mirrors, Hs.
Qed.

Lemma step_sim place c a a' cfg :
  sim a cfg → calm_command c cfg = true → AnalyzeNode place (embed alias c) a = Ok (tt, a') →
  safe_exec (exec c cfg) a'.
Proof.
  intros Hs Hcalm Ha.
  destruct c as [x|x|x|x y|x y|x y|x];
    [| | |by eapply step_lock|by eapply step_unlock|done|by eapply step_finish].
  - eapply (step_declare x _ _ a a' a cfg (ThreadPtr 0) (runtime cfg)); [done|done| | |exact Ha].
    + unfold InferResource. rewrite (st_bind_run _ _ a a a) //. cbn. by rewrite (re_alias _ _ (si_ready _ _ Hs)).
    + by destruct cfg, Hs; split.
  - destruct (mirrors_new_thread _ _ (si_mirrors _ _ Hs)) as (s & Hr & Hth & Hmu & Hm).
    eapply (step_declare x _ _ a a' _ cfg (ThreadPtr (Sync.m_nextThreadId (runtime cfg))) s);
      [done|by unfold spawn; rewrite (st_bind_run _ _ _ _ _ Hr)| | |exact Ha].
    + unfold InferResource. rewrite (st_bind_run _ _ a a a) //. cbn. rewrite (re_alias _ _ (si_ready _ _ Hs)).
      by rewrite (si_threads _ _ Hs).
    + apply sim_counted; [done|by rewrite Hth (si_threads _ _ Hs)|by rewrite Hmu (si_mutexes _ _ Hs)|done].
  - destruct (mirrors_new_mutex _ _ (si_mirrors _ _ Hs)) as (s & Hr & Hth & Hmu & Hm).
    eapply (step_declare x _ _ a a' _ cfg (MutexPtr (Sync.m_nextMutexId (runtime cfg))) s);
      [done|by unfold mutex; rewrite (st_bind_run _ _ _ _ _ Hr)| | |exact Ha].
    + unfold InferResource. rewrite (st_bind_run _ _ a a a) //. cbn. rewrite (re_alias _ _ (si_ready _ _ Hs)).
      by rewrite (si_mutexes _ _ Hs).
    + apply sim_counted; [done|by rewrite Hth (si_threads _ _ Hs)|by rewrite Hmu (si_mutexes _ _ Hs)|done].
Qed.
(** ** From the tree to the commands *)

Lemma collect_script l i a :
  each (λ i n, CollectCallables [i] n) i (embed alias <$> l) a = Ok (tt, a).
Proof. revert i. induction l as [|c l IH]; intros i; [done|]. cbn. destruct c; apply IH. Qed.

(** The state after the head of the module. *)
Definition after_head (q : string) : analyzer :=
  SyncStaticAnalyzer.Mk SyncGraphAnalyzer.init {[alias := "std.sync"]} [MkScope ∅ ∅] ∅ [] ∅ ∅ [] ∅ q 0 0 0.

Lemma sim_head q : alias ≠ "" → sim (after_head q) start.
Proof.
  intros Hal. split; [split| | | |].
  - unfold IsSyncAlias. cbn. by rewrite lookup_insert_eq.
  - done.
  - done.
  - done.
  - intros x. unfold ResolveResource, value_of. cbn. by rewrite !lookup_empty.
  - split; [apply init_ok| |].
    + intros m th. unfold Sync.owner_of. cbn. by rewrite lookup_empty.
    + intros x y Hxy. by apply edge_empty in Hxy.
Qed.

Lemma analyze_head q script a :
  alias ≠ "" → Analyze (program q alias script) SyncStaticAnalyzer.init = Ok (tt, a) →
  ∃ a1, each (λ i n, AnalyzeNode [i] n) 2 (embed alias <$> script) (after_head q) = Ok (tt, a1).
Proof.
  intros Hal. unfold Analyze, program.
  rewrite (st_bind_run _ _ _ tt SyncStaticAnalyzer.init) //.
  rewrite (st_bind_run _ _ _ tt (set_scopes (cons (MkScope ∅ ∅)) SyncStaticAnalyzer.init)) //.
  cbn [CollectCallables each]. intros (? & s1 & Hc & Ha)%st_bind_Ok.
  apply st_bind_Ok in Hc as ([] & s2 & Hm & Hc). apply st_bind_Ok in Hc as ([] & s3 & Hi & Hc).
  rewrite collect_script in Hc. injection Hc as <- <-.
  injection Hm as <-. unfold declare_import in Hi. rewrite decide_False // in Hi. injection Hi as <-.
  do 4 (apply st_bind_Ok in Ha as (? & ? & [= <- <-] & Ha)).
  cbn [AnalyzeNode each] in Ha. apply st_bind_Ok in Ha as (? & ? & [= <- <-] & Ha).
  apply st_bind_Ok in Ha as ([] & s4 & Ha & _).
  apply st_bind_Ok in Ha as ([] & s5 & Hm & Ha). injection Hm as <-.
  apply st_bind_Ok in Ha as ([] & s6 & Hi & Ha).
  unfold declare_import in Hi. rewrite decide_False // in Hi. injection Hi as <-.
  exists s4. rewrite -Ha. done.
Qed.

(** Every command is calm when its turn comes. *)
Fixpoint calm (l : list command) (cfg : config) : bool :=
  match l with
  | [] => true
  | c :: l => calm_command c cfg && match exec c cfg with Ok (cfg', None) => calm l cfg' | _ => true end
  end.

Lemma calm_run script i a a' cfg :
  sim a cfg → each (λ i n, AnalyzeNode [i] n) i (embed alias <$> script) a = Ok (tt, a') →
  calm script cfg = true →
  ∃ cfg' e, run script cfg = Ok (cfg', e) ∧ ¬ deadlock e.
Proof.
  revert i a cfg. induction script as [|c l IH]; intros i a cfg Hs Ha Hcalm.
  { exists cfg, None. split; [done|]. by intros [?|?]. }
  cbn in Ha. apply st_bind_Ok in Ha as ([] & a1 & Hc & Ha). cbn in Hcalm. apply andb_true_iff in Hcalm as [Hcc Hcl].
  destruct (step_sim _ _ _ _ _ Hs Hcc Hc) as (cfg1 & e & He & Hd & Hs1).
  rewrite He in Hcl. cbn. rewrite He. cbn. destruct e as [e|].
  - by exists cfg1, (Some e).
  - eapply IH; [by apply Hs1|exact Ha|exact Hcl].
Qed.
End mirror.

(** C14. A script that the analysis accepts does not deadlock when it is run, in any
    order its author wrote: if it joins no threads and unlocks a mutex only when
    nobody waits for the thread, the runtime never answers with the error of a
    deadlock or of a self-deadlock, and every call returns. *)
Theorem accepted_script_no_deadlock q alias script a :
  alias ≠ "" →
  Analyze (program q alias script) SyncStaticAnalyzer.init = Ok (tt, a) →
  calm script start = true →
  ∃ cfg e, run script start = Ok (cfg, e) ∧ ¬ deadlock e.
Proof.
  intros Hal Ha Hcalm. destruct (analyze_head alias q script a Hal Ha) as (a1 & Ha1).
  eapply calm_run; [by apply sim_head|exact Ha1|exact Hcalm].
Qed.

Definition demo : list command :=
  [ CSpawn "a"; CSpawn "b"; CMutex "m"; CMutex "n";
    CLock "a" "m"; CLock "a" "n"; CLock "b" "m"; CFinish "a"; CLock "b" "n"; CUnlock "b" "n" ].

Lemma demo_calm : calm demo start = true.
Proof. vm_compute. reflexivity. Qed.
Lemma demo_accepted : is_Some (match Analyze (program "p" "sync" demo) SyncStaticAnalyzer.init with
                               | Ok r => Some r | _ => None end).
Proof. vm_compute. eexists. reflexivity. Qed.

Lemma accepted_script_no_deadlock_witness :
  ∃ cfg e, run demo start = Ok (cfg, e) ∧ ¬ deadlock e.
Proof.
  destruct demo_accepted as [[[] a] Ha].
  apply (accepted_script_no_deadlock "p" "sync" demo a); [done| |exact demo_calm].
  destruct (Analyze (program "p" "sync" demo) SyncStaticAnalyzer.init) as [r| |];
    [injection Ha as ->; reflexivity|discriminate Ha|discriminate Ha].
Defined.

(** *** The limits of the analysis

    The unlocked mutex leaves a stale edge in the runtime
    ([SyncSpec.stale_wait_edge]), and joins are not in the order of the locks:
    both scripts are accepted, and raise the error of a deadlock. *)
Definition message_of (r : result (config * option string)) : option string :=
  match r with Ok (_, e) => e | _ => None end.

Example accepted_stale_edge :
  let script := [ CSpawn "a"; CSpawn "b"; CMutex "m"; CMutex "n"; CLock "a" "m"; CLock "b" "n";
                  CLock "b" "m"; CUnlock "a" "m"; CLock "a" "n" ] in
  analyze_program (program "p" "sync" script) = Ok tt
  ∧ message_of (run script start) = Some "Deadlock detected while locking mutex".
Proof. vm_compute. done. Qed.

Example accepted_join_and_lock :
  let script := [ CSpawn "a"; CSpawn "b"; CMutex "m"; CLock "a" "m"; CJoin "a" "b"; CLock "b" "m" ] in
  analyze_program (program "p" "sync" script) = Ok tt
  ∧ message_of (run script start) = Some "Deadlock detected while locking mutex".
Proof. vm_compute. done. Qed.

(** The programs of [CompilerSyncCompiletimeTests.cpp] are refused. *)
Example cyclic_locks_refused :
  analyze_program (program "samples.main" "sync"
    [ CSpawn "t1"; CSpawn "t2"; CMutex "m1"; CMutex "m2"; CLock "t1" "m1"; CLock "t2" "m2";
      CLock "t1" "m2"; CLock "t2" "m1" ])
  = Throw (runtime_error (SyncGraphAnalyzer.lock_cycle "mutex#2" "mutex#1" "top_level")).
Proof. vm_compute. done. Qed.

Example cyclic_joins_refused :
  analyze_program (program "samples.main" "sync" [ CSpawn "t1"; CSpawn "t2"; CJoin "t1" "t2"; CJoin "t2" "t1" ])
  = Throw (runtime_error (SyncGraphAnalyzer.join_cycle "thread#2" "thread#1" "top_level")).
Proof. vm_compute. done. Qed.

Example foreign_unlock_refused :
  analyze_program (program "samples.main" "sync"
    [ CSpawn "t1"; CSpawn "t2"; CMutex "m"; CLock "t1" "m"; CUnlock "t2" "m" ])
  = Throw (runtime_error (not_owned "thread#2" "mutex#1" "top_level")).
Proof. vm_compute. done. Qed.

(** A function with the statements [body] and the parameters [ps]. *)
Definition function_node (fname : string) (ps : list string) (body : list Node) : Node :=
  FunctionDeclNode fname "void" false [] ((λ p, MkParameter p "any" NullNode false) <$> ps) [] [] []
    (BlockNode body).
Definition with_function (f : Node) (script : list command) (calls : list Node) : Node :=
  BlockNode (ModuleDeclNode "samples.main" :: ImportDeclNode "std.sync" "sync" :: f
             :: (embed "sync" <$> script) ++ calls).
Definition call_node (f : string) (args : list string) : Node :=
  CallNode (IdentifierNode f) (IdentifierNode <$> args).

Example cyclic_locks_across_functions_refused :
  analyze_program (with_function
    (function_node "takeFirst" ["thread"; "a"; "b"]
       (embed "sync" <$> [CLock "thread" "a"; CLock "thread" "b"]))
    [CSpawn "t1"; CSpawn "t2"; CMutex "m1"; CMutex "m2"]
    [call_node "takeFirst" ["t1"; "m1"; "m2"]; call_node "takeFirst" ["t2"; "m2"; "m1"]])
  = Throw (runtime_error (SyncGraphAnalyzer.lock_cycle "mutex#2" "mutex#1"
      "top_level -> samples.main.takeFirst")).
Proof. vm_compute. done. Qed.

(** The same two functions on the mutexes of the module are accepted: the
    summary of a function is made before the variables of the module have
    resources, so locks of anything but parameters are not followed. *)
Example module_variables_not_followed :
  let lock_both f a b := function_node f [] (embed "sync" <$> [CLock "t" a; CLock "t" b]) in
  analyze_program (BlockNode
    (ModuleDeclNode "samples.main" :: ImportDeclNode "std.sync" "sync" ::
     (embed "sync" <$> [CSpawn "t"; CMutex "m1"; CMutex "m2"]) ++
     [lock_both "f" "m1" "m2"; lock_both "g" "m2" "m1";
      call_node "f" []; call_node "f" []; call_node "g" []])) = Ok tt.
Proof. vm_compute. done. Qed.

(** The body of a loop is analysed once, and what it locks is forgotten. *)
Example relock_in_loop_accepted :
  analyze_program (BlockNode
    (ModuleDeclNode "samples.main" :: ImportDeclNode "std.sync" "sync" ::
     (embed "sync" <$> [CSpawn "t"; CMutex "m"]) ++
     [WhileStatementNode (LeafNode "TRUE" "true") (BlockNode [embed "sync" (CLock "t" "m")])])) = Ok tt.
Proof. vm_compute. done. Qed.

End SyncScript.
