(* ===== verification/EffectResume.v ===== *)
(** * Counting the calls of [resume]

    [src/ast/common/EffectResumeAnalysis.h]: the semantic analyzer accepts the
    handler of an effect when this count over its body is one. *)

From S2P Require Import Prelude Value Ast.
From Stdlib Require Import Lia.

Module EffectResume.
Import Value Ast.

Definition is_resume (callee : Node) : bool :=
  match callee with IdentifierNode name => bool_decide (name = "resume") | _ => false end.

Fixpoint CountResumeCalls (node : Node) : nat :=
  match node with
  | CallNode callee args =>
      if is_resume callee then 1 else CountResumeCalls callee + sum_list_with CountResumeCalls args
  | BlockNode statements => sum_list_with CountResumeCalls statements
  | IfStatementNode condition thenBlock elseBlock =>
      CountResumeCalls condition + CountResumeCalls thenBlock + CountResumeCalls elseBlock
  | WhileStatementNode condition body => CountResumeCalls condition + CountResumeCalls body
  | ReturnNode value => CountResumeCalls value
  | PrintNode value => CountResumeCalls value
  | UnaryExprNode _ operand => CountResumeCalls operand
  | BinaryExprNode lhs _ rhs => CountResumeCalls lhs + CountResumeCalls rhs
  | AssignmentNode _ object _ dereferenceTarget value index =>
      CountResumeCalls value + CountResumeCalls index + CountResumeCalls object
      + CountResumeCalls dereferenceTarget
  | MemberAccessNode object _ => CountResumeCalls object
  | IndexNode container index => CountResumeCalls container + CountResumeCalls index
  | ArrayLiteralNode elements => sum_list_with CountResumeCalls elements
  | UnsafeNode body => CountResumeCalls body
  | _ => 0
  end.

(** What the analyzer asks of a handler. *)
Definition resumes_once (body : Node) : bool := CountResumeCalls body =? 1.

(** ** What the count is of

    [calls_at n m]: the call [m] is reached from [n] through the nodes that the
    count goes into, none of them a call of [resume]. *)

Definition counted_children (n : Node) : list Node :=
  match n with
  | CallNode callee args => if is_resume callee then [] else callee :: args
  | BlockNode l | ArrayLiteralNode l => l
  | IfStatementNode a b c => [a; b; c]
  | WhileStatementNode a b | BinaryExprNode a _ b | IndexNode a b => [a; b]
  | ReturnNode a | PrintNode a | UnaryExprNode _ a | MemberAccessNode a _ | UnsafeNode a => [a]
  | AssignmentNode _ a _ b c d => [c; d; a; b]
  | _ => []
  end.

Definition is_resume_call (n : Node) : bool :=
  match n with CallNode callee _ => is_resume callee | _ => false end.

(** The count, one level at a time. *)
Lemma count_step n :
  CountResumeCalls n = (if is_resume_call n then 1 else 0) + sum_list_with CountResumeCalls (counted_children n).
Proof.
  destruct n; cbn; try lia. destruct (is_resume n); cbn; lia.
Qed.

Definition counted (m n : Node) : Prop := m ∈ counted_children n.

Lemma counted_below m n : counted m n → below m n.
Proof.
  unfold counted, below. destruct n; cbn; try (intros H; solve [set_solver|done]).
  destruct (is_resume n); set_solver.
Qed.

(** The count is not zero exactly when a call of [resume] is reached. *)
Lemma count_pos n :
  0 < CountResumeCalls n ↔ ∃ m, rtc (flip counted) n m ∧ is_resume_call m = true.
Proof.
  induction n as [n IH] using node_tree_ind. rewrite count_step. split.
  - destruct (is_resume_call n) eqn:Hn; [intros _; by exists n; split; [constructor|]|]. cbn. intros Hs.
    assert (∃ c, counted c n ∧ 0 < CountResumeCalls c) as (c & Hc & Hpos).
    { unfold counted. induction (counted_children n) as [|c l IHl]; cbn in Hs; [lia|].
      destruct (decide (0 < CountResumeCalls c)); [exists c; split; [left|done]|].
      destruct IHl as (c' & ? & ?); [lia|]. exists c'. split; [by right|done]. }
    apply IH in Hpos as (m & Hm & ?); [|by apply tc_once, counted_below].
    exists m. split; [by eapply rtc_l|done].
  - intros (m & Hm & Hr). inversion Hm as [|? c ? Hc Hcm]; subst; [rewrite Hr; lia|].
    assert (0 < CountResumeCalls c) as Hpos.
    { apply IH; [by apply tc_once, counted_below|]. by exists m. }
    unfold flip, counted in Hc. clear -Hc Hpos. induction Hc as [|d e l Hc IHl]; cbn in *; [lia|].
    specialize (IHl Hpos). lia.
Qed.

(** ** What the count does not see

    Two branches that resume once each count as two; a loop that resumes in
    every round counts as one, and so does a call in the arguments of another;
    a call in the initializer of a variable, or in a nested function, does not
    count. *)
Definition resume_call (v : Z) : Node := CallNode (IdentifierNode "resume") [IntegerLiteralNode v].

Example one_in_each_branch :
  resumes_once (BlockNode [IfStatementNode (IdentifierNode "c") (BlockNode [resume_call 1]) (BlockNode [resume_call 2])])
  = false.
Proof. done. Qed.

Example in_a_loop :
  resumes_once (BlockNode [WhileStatementNode (IdentifierNode "c") (BlockNode [resume_call 1])]) = true.
Proof. done. Qed.

Example in_one_branch_only :
  resumes_once (BlockNode [IfStatementNode (IdentifierNode "c") (BlockNode [resume_call 1]) NullNode]) = true.
Proof. done. Qed.

Example in_an_initializer :
  resumes_once (BlockNode [VarDeclNode "x" "" (resume_call 1) false Default_]) = false
  ∧ resumes_once (BlockNode [VarDeclNode "x" "" (resume_call 1) false Default_; resume_call 2]) = true.
Proof. done. Qed.

End EffectResume.
