(* ===== verification/TypeInfo.v ===== *)
(** * The types of the semantic analyzer

    [SemanticAnalyzer::TypeInfo] of [src/ast/sematic/SemanticAnalyzer.h]: the kinds,
    the structure with its factories, [Equals]; and the functions of types alone:
    [Substitute], [IsPrimitiveNumeric], [IsSendable], [IsFunctionLikeInterface].

    [element] is the one pointer through which the program writes
    ([AnalyzeAssignment]), so it is an address, and what it points to is in a heap
    that the functions read; the other [shared_ptr] members own values that nothing
    writes after their construction, and are values here.  Since an element can be
    overwritten by a type that contains it, a type may be cyclic, and the functions
    that follow elements take fuel. *)

From S2P Require Import Prelude.

Module TypeKind.

(** [enum class TypeKind] *)
Inductive t :=
  | Unknown | Any | Void | Bool | Int | Float | String_ | Never | Array | Map | Channel | Pointer
  | Ref | Function_ | Task | Module_ | Interface | Struct | Enum | EnumConstructor | TypeParameter
  | Actor | Effect.

#[global] Instance eq_dec : EqDecision t.
Proof. solve_decision. Defined.

(** [static_cast<int>(kind)] *)
Definition to_int (k : t) : nat :=
  match k with
  | Unknown => 0 | Any => 1 | Void => 2 | Bool => 3 | Int => 4 | Float => 5 | String_ => 6
  | Never => 7 | Array => 8 | Map => 9 | Channel => 10 | Pointer => 11 | Ref => 12
  | Function_ => 13 | Task => 14 | Module_ => 15 | Interface => 16 | Struct => 17 | Enum => 18
  | EnumConstructor => 19 | TypeParameter => 20 | Actor => 21 | Effect => 22
  end.

End TypeKind.

Module TypeInfo.

(** The address of an element. *)
Definition loc : Type := nat.

Inductive t := Mk {
  kind : TypeKind.t;
  element : option loc;
  key : option t;
  params : list t;
  ret : option t;
  name : string;
  minArity : nat;
  variadic : bool;
  variadicParam : option t;
  fields : option (gmap string t);
  variantArgs : list t;
  enumTag : Z;
  methods : option (gmap string t);
  implementedInterfaces : option (gset string);
  raisedEffects : option (gset string);
  contextRequirements : option (list (string * t));
  constraints : list t;
  isComptime : bool
}.

(** ** Factories *)

(** [{ kind }]: the other members have their defaults. *)
Definition of_kind (k : TypeKind.t) : t :=
  Mk k None None [] None "" 0 false None None [] (-1) None None None None [] false.

Definition Unknown : t := of_kind TypeKind.Unknown.
Definition Void : t := of_kind TypeKind.Void.
Definition Any : t := of_kind TypeKind.Any.
Definition Bool : t := of_kind TypeKind.Bool.
Definition Int : t := of_kind TypeKind.Int.
Definition Float : t := of_kind TypeKind.Float.
Definition String_ : t := of_kind TypeKind.String_.
Definition Never : t := of_kind TypeKind.Never.

(** [requiredArity] is [None] for the default [static_cast<size_t>(-1)]. *)
Definition Function_ (p : list t) (r : t) (requiredArity : option nat) (effects : gset string)
    (contexts : list (string * t)) (comptimeOnly isVariadic : bool) (variadicParameter : option t) : t :=
  Mk TypeKind.Function_ None None p (Some r) "" (default (length p) requiredArity) isVariadic
    variadicParameter None [] (-1) None None (Some effects) (Some contexts) [] comptimeOnly.

(** [TaskOf], [ArrayOf], [ChannelOf], [PointerTo] and [RefTo] of the address
    that [std::make_shared] returns. *)
Definition with_element (k : TypeKind.t) (elem : loc) : t :=
  Mk k (Some elem) None [] None "" 0 false None None [] (-1) None None None None [] false.
Definition map_with_element (keyType : t) (elem : loc) : t :=
  Mk TypeKind.Map (Some elem) (Some keyType) [] None "" 0 false None None [] (-1) None None None None [] false.

Definition Module_ (moduleName : string) : t :=
  Mk TypeKind.Module_ None None [] None moduleName 0 false None None [] (-1) None None None None [] false.
Definition Interface (interfaceName : string) (interfaceMethods : gmap string t) : t :=
  Mk TypeKind.Interface None None [] None interfaceName 0 false None None [] (-1)
    (Some interfaceMethods) None None None [] false.
Definition Struct (structName : string) (structFields structMethods : gmap string t)
    (interfaces : gset string) : t :=
  Mk TypeKind.Struct None None [] None structName 0 false None (Some structFields) [] (-1)
    (Some structMethods) (Some interfaces) None None [] false.
Definition Enum (enumName : string) : t :=
  Mk TypeKind.Enum None None [] None enumName 0 false None None [] (-1) None None None None [] false.
Definition EnumConstructor (enumName : string) (tag : Z) (args : list t) : t :=
  Mk TypeKind.EnumConstructor None None [] None enumName 0 false None None args tag None None None None [] false.
Definition TypeParameter (paramName : string) (paramConstraints : list t) : t :=
  Mk TypeKind.TypeParameter None None [] None paramName 0 false None None [] (-1) None None None None
    paramConstraints false.
Definition Actor (actorName : string) (actorFields actorMethods : gmap string t) : t :=
  Mk TypeKind.Actor None None [] None actorName 0 false None (Some actorFields) [] (-1)
    (Some actorMethods) None None None [] false.
Definition Effect (effectName : string) (effectOps : gmap string t) : t :=
  Mk TypeKind.Effect None None [] None effectName 0 false None None [] (-1)
    (Some effectOps) None None None [] false.

(** [resolved.name = name] *)
Definition set_name (n : string) (a : t) : t :=
  Mk (kind a) (element a) (key a) (params a) (ret a) n (minArity a) (variadic a) (variadicParam a)
    (fields a) (variantArgs a) (enumTag a) (methods a) (implementedInterfaces a) (raisedEffects a)
    (contextRequirements a) (constraints a) (isComptime a).

(** What [std::move] leaves: null pointers, empty vectors and strings, and the
    members of scalar type as they were. *)
Definition moved_from (a : t) : t :=
  Mk (kind a) None None [] None "" (minArity a) (variadic a) None None [] (enumTag a) None None None
    None [] (isComptime a).

Definition has_kind (k : TypeKind.t) (a : t) : bool := bool_decide (kind a = k).

(** ** Elements *)

(** What the addresses point to, in the order of allocation. *)
Definition Heap : Type := list t.
(** An address that was never allocated does not occur. *)
Definition deref (h : Heap) (l : loc) : t := default Unknown (h !! l).

(** [std::make_shared] *)
Definition make_shared (a : t) : st Heap loc :=
  h ← st_get; _ ← st_put (h ++ [a]); mret (length h).
Definition read_element (l : loc) : st Heap t := h ← st_get; mret (deref h l).

Definition ArrayOf (elem : t) : st Heap t := l ← make_shared elem; mret (with_element TypeKind.Array l).
Definition TaskOf (valueType : t) : st Heap t := l ← make_shared valueType; mret (with_element TypeKind.Task l).
Definition ChannelOf (elem : t) : st Heap t := l ← make_shared elem; mret (with_element TypeKind.Channel l).
Definition PointerTo (pointee : t) : st Heap t := l ← make_shared pointee; mret (with_element TypeKind.Pointer l).
Definition RefTo (referent : t) : st Heap t := l ← make_shared referent; mret (with_element TypeKind.Ref l).
Definition MapOf (keyType valueType : t) : st Heap t :=
  l ← make_shared valueType; mret (map_with_element keyType l).

(** [*containerType.element = value] *)
Definition write_element (l : loc) (a : t) : st Heap unit := st_modify <[l := a]>.

(** ** [Equals] *)

(** The loops over two lists, which end at the first pair that fails. *)
Section every.
Context {A : Type} (f : A → A → result bool).
Fixpoint every2 (l k : list A) : result bool :=
  match l, k with
  | x :: l, y :: k => b ← f x y; if b : bool then every2 l k else Ok false
  | _, _ => Ok true
  end.
End every.

(** Two pointers where one may be null: equal when both are. *)
Definition compare_pointers {A} (f : A → A → result bool) (p q : option A) : result bool :=
  match p, q with
  | Some x, Some y => f x y
  | None, None => Ok true
  | _, _ => Ok false
  end.

Definition has_element (a : t) : bool :=
  has_kind TypeKind.Array a || has_kind TypeKind.Channel a || has_kind TypeKind.Pointer a || has_kind TypeKind.Ref a
  || has_kind TypeKind.Task a.

(** [equal] is the recursive call. *)
Section equals.
Context (equal : t → t → result bool) (h : Heap).

Definition equal_elements (a b : t) : result bool :=
  compare_pointers (λ l k, equal (deref h l) (deref h k)) (element a) (element b).

Definition equal_maps (a b : t) : result bool :=
  match key a, key b, element a, element b with
  | Some ka, Some kb, Some ea, Some eb =>
      r ← equal ka kb; if r : bool then equal (deref h ea) (deref h eb) else Ok false
  | ka, kb, ea, eb =>
      (* the comparison of the pointers; a map has both or, after a move, neither *)
      Ok (match ka, kb with Some _, Some _ | None, None => true | _, _ => false end
          && bool_decide (ea = eb))
  end.

Definition equal_contexts (c d : string * t) : result bool :=
  if decide (c.1 = d.1) then equal c.2 d.2 else Ok false.

Definition equal_functions (a b : t) : result bool :=
  if negb (bool_decide (variadic a = variadic b)) then Ok false else
  v ← (if variadic a then compare_pointers equal (variadicParam a) (variadicParam b) else Ok true);
  if negb v then Ok false else
  if negb (length (params a) =? length (params b)) then Ok false else
  if negb ((minArity a =? minArity b) && bool_decide (isComptime a = isComptime b)) then Ok false else
  c ← compare_pointers
        (λ l k, if length l =? length k then every2 equal_contexts l k else Ok false)
        (contextRequirements a) (contextRequirements b);
  if negb c then Ok false else
  p ← every2 equal (params a) (params b);
  if negb p then Ok false else
  if negb (bool_decide (raisedEffects a = raisedEffects b)) then Ok false else
  compare_pointers equal (ret a) (ret b).

Definition equal_constructors (a b : t) : result bool :=
  if negb (bool_decide (name a = name b) && bool_decide (enumTag a = enumTag b)
           && (length (variantArgs a) =? length (variantArgs b)))
  then Ok false
  else every2 equal (variantArgs a) (variantArgs b).
End equals.

Fixpoint Equals (fuel : nat) (h : Heap) (a b : t) : result bool :=
  match fuel with
  | 0 => Diverge
  | S fuel =>
      let equal := Equals fuel h in
      if negb (bool_decide (kind a = kind b)) then Ok false
      else if has_element a then equal_elements equal h a b
      else if has_kind TypeKind.Map a then equal_maps equal h a b
      else if has_kind TypeKind.Function_ a then equal_functions equal a b
      else if has_kind TypeKind.Struct a || has_kind TypeKind.Module_ a || has_kind TypeKind.Enum a
              || has_kind TypeKind.Interface a || has_kind TypeKind.Actor a || has_kind TypeKind.Effect a
      then Ok (bool_decide (name a = name b))
      else if has_kind TypeKind.TypeParameter a then Ok (bool_decide (name a = name b))
      else if has_kind TypeKind.EnumConstructor a then equal_constructors equal a b
      else Ok true
  end.

(** ** Substitution *)

(** The loops over a map of members. *)
Definition map_members (f : t → st Heap t) (m : gmap string t) : st Heap (gmap string t) :=
  l ← mapM (λ nt : string * t, a ← f nt.2; mret (nt.1, a)) (map_to_list m);
  mret (list_to_map l).

(** One [std::optional] or pointer. *)
Definition map_pointer (f : t → st Heap t) (p : option t) : st Heap (option t) :=
  match p with
  | Some a => a ← f a; mret (Some a)
  | None => mret None
  end.

Section substitute.
Context (recurse : t → st Heap t).

Definition substitute_element (make : t → st Heap t) (l : loc) : st Heap t :=
  a ← read_element l; b ← recurse a; make b.

Definition substitute_function (a r : t) : st Heap t :=
  ps ← mapM recurse (params a);
  v ← map_pointer recurse (variadicParam a);
  r ← recurse r;
  mret (Function_ ps r (Some (minArity a)) (default ∅ (raisedEffects a))
          (default [] (contextRequirements a)) (isComptime a) (variadic a) v).

Definition substitute_members (a : t) (fs : gmap string t) : st Heap t :=
  fs ← map_members recurse fs;
  ms ← (match methods a with Some ms => map_members recurse ms | None => mret ∅ end);
  mret (if has_kind TypeKind.Struct a then Struct (name a) fs ms (default ∅ (implementedInterfaces a))
        else if has_kind TypeKind.Actor a then Actor (name a) fs ms
        else Interface (name a) ms).
End substitute.

(** [TypeResolver::Substitute] *)
Fixpoint Substitute (fuel : nat) (bindings : gmap string t) (a : t) : st Heap t :=
  match fuel with
  | 0 => st_diverge
  | S fuel =>
      let recurse := Substitute fuel bindings in
      match kind a, element a, key a, ret a, fields a, methods a with
      | TypeKind.TypeParameter, _, _, _, _, _ => mret (default a (bindings !! name a))
      | TypeKind.Array, Some l, _, _, _, _ => substitute_element recurse ArrayOf l
      | TypeKind.Map, Some l, Some k, _, _, _ =>
          k ← recurse k; substitute_element recurse (MapOf k) l
      | TypeKind.Channel, Some l, _, _, _, _ => substitute_element recurse ChannelOf l
      | TypeKind.Task, Some l, _, _, _, _ => substitute_element recurse TaskOf l
      | TypeKind.Pointer, Some l, _, _, _, _ => substitute_element recurse PointerTo l
      | TypeKind.Ref, Some l, _, _, _, _ => substitute_element recurse RefTo l
      | TypeKind.Function_, _, _, Some r, _, _ => substitute_function recurse a r
      | (TypeKind.Struct | TypeKind.Actor | TypeKind.Interface), _, _, _, Some fs, _ =>
          substitute_members recurse a fs
      | TypeKind.Interface, _, _, _, None, Some ms =>
          ms ← map_members recurse ms; mret (Interface (name a) ms)
      | TypeKind.EnumConstructor, _, _, _, _, _ =>
          args ← mapM recurse (variantArgs a); mret (EnumConstructor (name a) (enumTag a) args)
      | _, _, _, _, _, _ => mret a
      end
  end.

(** ** Predicates *)

(** The recursion is on the constraints of a type parameter. *)
Fixpoint IsPrimitiveNumeric (a : t) : bool :=
  let 'Mk k _ _ _ _ _ _ _ _ _ _ _ _ _ _ _ cs _ := a in
  match k with
  | TypeKind.Int | TypeKind.Float => true
  | TypeKind.TypeParameter => existsb IsPrimitiveNumeric cs
  | _ => false
  end.

Definition IsFunctionLikeInterface (interfaceType : t) : bool :=
  has_kind TypeKind.Interface interfaceType
  && match methods interfaceType with Some ms => size ms =? 1 | None => false end.

(** A loop that returns [false] at the first element that fails. *)
Section all_of.
Context {A : Type} (f : A → result bool).
Fixpoint all_of (l : list A) : result bool :=
  match l with
  | [] => Ok true
  | x :: l => b ← f x; if b : bool then all_of l else Ok false
  end.
End all_of.

(** [!p || IsSendable( *p)] *)
Definition null_or {A} (f : A → result bool) (p : option A) : result bool :=
  match p with Some x => f x | None => Ok true end.

Fixpoint IsSendable (fuel : nat) (h : Heap) (a : t) : result bool :=
  match fuel with
  | 0 => Diverge
  | S fuel =>
      let recurse := IsSendable fuel h in
      match kind a with
      | TypeKind.Unknown | TypeKind.Any | TypeKind.Void | TypeKind.Bool | TypeKind.Int
      | TypeKind.Float | TypeKind.String_ | TypeKind.Task | TypeKind.Channel => Ok true
      | TypeKind.Pointer | TypeKind.Ref => Ok false
      | TypeKind.Array => null_or (λ l, recurse (deref h l)) (element a)
      | TypeKind.Map =>
          b ← null_or recurse (key a);
          if b : bool then null_or (λ l, recurse (deref h l)) (element a) else Ok false
      | TypeKind.Struct | TypeKind.Actor =>
          null_or (λ fs, all_of (λ nt, recurse nt.2) (map_to_list fs)) (fields a)
      | _ => Ok false
      end
  end.

End TypeInfo.
