(* ===== verification/TypeInfoSpec.v ===== *)
(** * Comparing types

    [TypeInfo::Equals] is symmetric, transitive and, where it ends, reflexive; it
    ends on the types of a heap in which every element was allocated after what it
    contains ([ordered]), which is how the analyzer builds types.  A write to an
    element can close a cycle; on a cyclic type [Equals] does not end. *)

From S2P Require Import Prelude TypeInfo.
From Stdlib Require Import Lia.

Module TypeInfoSpec.
Import TypeInfo.

(** ** Results that end *)

(** [r] is [s], or has run out of fuel. *)
Definition approx {A} (r s : result A) : Prop := r = Diverge ∨ r = s.
Lemma approx_refl {A} (r : result A) : approx r r.
Proof. by right. Qed.
Lemma approx_Ok {A} (r s : result A) a : approx r s → r = Ok a → s = Ok a.
Proof. by intros [-> | ->]. Qed.
Lemma approx_bind {A B} (r s : result A) (f g : A → result B) :
  approx r s → (∀ a, approx (f a) (g a)) → approx (r ≫= f) (s ≫= g).
Proof. intros [-> | ->] H; [by left|]. destruct s; cbn; [apply H|by right|by right]. Qed.
#[local] Hint Resolve approx_refl : core.

(** The parts of a type that [Equals] compares, the element apart. *)
Definition option_list {A} (o : option A) : list A := match o with Some x => [x] | None => [] end.
Definition parts (a : t) : list t :=
  option_list (key a) ++ option_list (variadicParam a) ++ option_list (ret a) ++ params a ++ variantArgs a
  ++ (default [] (contextRequirements a)).*2.

Section every2.
Context {A : Type} (f g : A → A → result bool).

Lemma every2_approx l k : (∀ x y, x ∈ l → approx (f x y) (g x y)) → approx (every2 f l k) (every2 g l k).
Proof.
  revert k. induction l as [|x l IH]; intros [|y k] H; cbn; try done.
  apply approx_bind; [apply H; left|]. intros []; [|done]. apply IH. intros; apply H. by right.
Qed.

Lemma every2_sym l k : (∀ x y, f x y = g y x) → every2 f l k = every2 g k l.
Proof.
  intros H. revert k. induction l as [|x l IH]; intros [|y k]; cbn; try done.
  rewrite H. destruct (g y x) as [[]| |]; cbn; auto.
Qed.

Lemma every2_refl l : (∀ x, f x x = Diverge ∨ f x x = Ok true) → every2 f l l = Diverge ∨ every2 f l l = Ok true.
Proof.
  intros H. induction l as [|x l IH]; cbn; [by right|].
  destruct (H x) as [-> | ->]; [by left|]. exact IH.
Qed.

Lemma every2_trans l k m :
  (∀ x y z, f x y = Ok true → f y z = Ok true → f x z = Ok true) → length k = length l →
  every2 f l k = Ok true → every2 f k m = Ok true → every2 f l m = Ok true.
Proof.
  intros H. revert k m. induction l as [|x l IH]; intros [|y k] [|z m] Hlen; cbn; try done.
  intros ([] & E1 & E2)%result_bind_Ok ([] & E3 & E4)%result_bind_Ok; try done.
  rewrite (H _ _ _ E1 E3) /=. apply (IH k m); [cbn in Hlen; lia|done..].
Qed.

Lemma every2_total l k : (∀ x y, x ∈ l → ∃ b, f x y = Ok b) → ∃ b, every2 f l k = Ok b.
Proof.
  revert k. induction l as [|x l IH]; intros [|y k] H; cbn; eauto.
  destruct (H x y) as [[] ->]; [left| |cbn; eauto]. apply IH. intros; apply H. by right.
Qed.
End every2.

Section pointers.
Context {A : Type} (f g : A → A → result bool).
Lemma compare_pointers_approx p q :
  (∀ x y, p = Some x → approx (f x y) (g x y)) → approx (compare_pointers f p q) (compare_pointers g p q).
Proof. destruct p, q; cbn; auto. Qed.
Lemma compare_pointers_sym p q : (∀ x y, f x y = g y x) → compare_pointers f p q = compare_pointers g q p.
Proof. destruct p, q; cbn; auto. Qed.
Lemma compare_pointers_refl p :
  (∀ x, f x x = Diverge ∨ f x x = Ok true) → compare_pointers f p p = Diverge ∨ compare_pointers f p p = Ok true.
Proof. destruct p; cbn; auto. Qed.
Lemma compare_pointers_trans p q r :
  (∀ x y z, f x y = Ok true → f y z = Ok true → f x z = Ok true) →
  compare_pointers f p q = Ok true → compare_pointers f q r = Ok true → compare_pointers f p r = Ok true.
Proof. destruct p, q, r; cbn; try done. eauto. Qed.
Lemma compare_pointers_total p q : (∀ x y, p = Some x → ∃ b, f x y = Ok b) → ∃ b, compare_pointers f p q = Ok b.
Proof. destruct p, q; cbn; eauto. Qed.
End pointers.

(** ** [Equals] is an equivalence *)

Lemma elem_parts a x :
  key a = Some x ∨ variadicParam a = Some x ∨ ret a = Some x ∨ x ∈ params a ∨ x ∈ variantArgs a
  ∨ x ∈ (default [] (contextRequirements a)).*2 → x ∈ parts a.
Proof.
  unfold parts. rewrite !elem_of_app. intros [->|[->|[->|[?|[?|?]]]]]; cbn; rewrite ?list_elem_of_singleton; auto 10.
Qed.

(** *** More fuel *)

Section approximation.
Context (f g : t → t → result bool) (h : Heap) (Hfg : ∀ x y, approx (f x y) (g x y)).

Lemma equal_elements_approx a b : approx (equal_elements f h a b) (equal_elements g h a b).
Proof. apply compare_pointers_approx. intros; apply Hfg. Qed.

Lemma equal_maps_approx a b : approx (equal_maps f h a b) (equal_maps g h a b).
Proof.
  unfold equal_maps. destruct (key a), (key b), (element a), (element b); try done.
  apply approx_bind; [apply Hfg|]. intros []; [apply Hfg|done].
Qed.

Lemma equal_functions_approx a b : approx (equal_functions f a b) (equal_functions g a b).
Proof.
  unfold equal_functions. destruct (negb _); [done|]. apply approx_bind.
  { destruct (variadic a); [|done]. apply compare_pointers_approx. intros; apply Hfg. }
  intros []; cbn; [|done]. destruct (negb _); [done|]. destruct (negb _); [done|]. apply approx_bind.
  { apply compare_pointers_approx. intros l k _. destruct (_ =? _); [|done]. apply every2_approx.
    intros c d _. unfold equal_contexts. case_decide; [apply Hfg|done]. }
  intros []; cbn; [|done]. apply approx_bind; [apply every2_approx; intros; apply Hfg|].
  intros []; cbn; [|done]. destruct (negb _); [done|]. apply compare_pointers_approx. intros; apply Hfg.
Qed.

Lemma equal_constructors_approx a b : approx (equal_constructors f a b) (equal_constructors g a b).
Proof. unfold equal_constructors. destruct (negb _); [done|]. apply every2_approx. intros; apply Hfg. Qed.
End approximation.
#[local] Hint Resolve equal_elements_approx equal_maps_approx equal_functions_approx equal_constructors_approx : core.

Lemma Equals_more n h : ∀ a b, approx (Equals n h a b) (Equals (S n) h a b).
Proof.
  induction n as [|n IH]; intros a b; [by left|]. cbn [Equals] in *. repeat case_match; auto.
Qed.
Lemma Equals_mono n m h a b r : n ≤ m → Equals n h a b = Ok r → Equals m h a b = Ok r.
Proof. intros Hnm. induction Hnm as [|m _ IH]; [done|]. intros E. eapply approx_Ok; [apply Equals_more|auto]. Qed.

(** *** Symmetry *)

Lemma bool_decide_sym {A} `{EqDecision A} (x y : A) : bool_decide (x = y) = bool_decide (y = x).
Proof. by apply bool_decide_ext. Qed.

Section symmetry.
Context (f g : t → t → result bool) (h : Heap) (Hfg : ∀ x y, f x y = g y x).

Lemma equal_elements_sym a b : equal_elements f h a b = equal_elements g h b a.
Proof. apply compare_pointers_sym. intros; apply Hfg. Qed.

Lemma equal_maps_sym a b : equal_maps f h a b = equal_maps g h b a.
Proof.
  unfold equal_maps.
  destruct (key a), (key b), (element a), (element b); try done; try by rewrite bool_decide_sym.
  by rewrite !Hfg.
Qed.

Lemma equal_functions_sym a b : equal_functions f a b = equal_functions g b a.
Proof.
  unfold equal_functions. rewrite (bool_decide_sym (variadic a)).
  case_bool_decide as Hv; cbn; [|done].
  rewrite Hv (compare_pointers_sym f g (variadicParam a) _ Hfg) (Nat.eqb_sym (length (params a))) (Nat.eqb_sym (minArity a))
    (bool_decide_sym (isComptime a)) (bool_decide_sym (raisedEffects a)) (compare_pointers_sym f g (ret a) _ Hfg)
    (every2_sym f g (params a) _ Hfg).
  erewrite (compare_pointers_sym _ _ (contextRequirements a)); [done|].
  intros l k. rewrite (Nat.eqb_sym (length l)). destruct (_ =? _); [|done].
  apply every2_sym. intros c d. unfold equal_contexts. repeat case_decide; congruence.
Qed.

Lemma equal_constructors_sym a b : equal_constructors f a b = equal_constructors g b a.
Proof.
  unfold equal_constructors.
  rewrite (bool_decide_sym (name a)) (bool_decide_sym (enumTag a)) (Nat.eqb_sym (length (variantArgs a))).
  destruct (negb _); [done|]. by apply every2_sym.
Qed.
End symmetry.

Lemma has_kind_eq k a b : kind a = kind b → has_kind k a = has_kind k b.
Proof. unfold has_kind. by intros ->. Qed.

Lemma Equals_sym n h : ∀ a b, Equals n h a b = Equals n h b a.
Proof.
  induction n as [|n IH]; intros a b; [done|]. cbn [Equals]. rewrite (bool_decide_sym (kind a)).
  case_bool_decide as Hk; cbn [negb]; [|done]. unfold has_element.
  rewrite !(has_kind_eq _ a b) // (bool_decide_sym (name a)) (equal_elements_sym _ _ _ IH)
    (equal_maps_sym _ _ _ IH) (equal_functions_sym _ _ IH) (equal_constructors_sym _ _ IH). done.
Qed.

(** *** Reflexivity and transitivity *)

Section reflexivity.
Context (f : t → t → result bool) (h : Heap) (Hf : ∀ x, f x x = Diverge ∨ f x x = Ok true).

Lemma bind_refl (r : result bool) (k : bool → result bool) :
  r = Diverge ∨ r = Ok true → (k true = Diverge ∨ k true = Ok true) → r ≫= k = Diverge ∨ r ≫= k = Ok true.
Proof. intros [-> | ->] H; cbn; auto. Qed.

Lemma equal_elements_refl a : equal_elements f h a a = Diverge ∨ equal_elements f h a a = Ok true.
Proof. apply compare_pointers_refl. auto. Qed.

Lemma equal_functions_refl a : equal_functions f a a = Diverge ∨ equal_functions f a a = Ok true.
Proof.
  unfold equal_functions. rewrite !bool_decide_true // !Nat.eqb_refl. cbn [negb andb].
  apply bind_refl; cbn [negb]; [destruct (variadic a); [by apply compare_pointers_refl|auto]|].
  apply bind_refl; cbn [negb].
  { apply compare_pointers_refl. intros l. rewrite Nat.eqb_refl. apply every2_refl.
    intros c. unfold equal_contexts. by rewrite decide_True. }
  apply bind_refl; cbn [negb]; [by apply every2_refl|]. by apply compare_pointers_refl.
Qed.
End reflexivity.

Lemma Equals_refl n h a : Equals n h a a = Diverge ∨ Equals n h a a = Ok true.
Proof.
  revert a. induction n as [|n IH]; intros a; [by left|]. cbn [Equals].
  rewrite !bool_decide_true //. cbn [negb].
  repeat case_match; auto using equal_elements_refl, equal_functions_refl.
  - unfold equal_maps. destruct (key a), (element a); auto; try (rewrite bool_decide_true //; auto).
    by apply bind_refl.
  - unfold equal_constructors. rewrite !bool_decide_true // Nat.eqb_refl. by apply every2_refl.
Qed.

Section transitivity.
Context (f : t → t → result bool) (h : Heap)
  (Hf : ∀ x y z, f x y = Ok true → f y z = Ok true → f x z = Ok true).

Lemma guard_Ok (b : bool) (r : result bool) : (if negb b then Ok false else r) = Ok true → b = true ∧ r = Ok true.
Proof. by destruct b. Qed.
Lemma bind_true (r : result bool) (k : bool → result bool) :
  (r ≫= λ b, if negb b then Ok false else k b) = Ok true → r = Ok true ∧ k true = Ok true.
Proof. intros (b & -> & [-> H]%guard_Ok)%result_bind_Ok. done. Qed.

Lemma equal_elements_trans a b c :
  equal_elements f h a b = Ok true → equal_elements f h b c = Ok true → equal_elements f h a c = Ok true.
Proof. apply compare_pointers_trans. eauto. Qed.

Lemma equal_maps_trans a b c :
  equal_maps f h a b = Ok true → equal_maps f h b c = Ok true → equal_maps f h a c = Ok true.
Proof.
  unfold equal_maps. destruct (key a), (key b), (key c), (element a), (element b), (element c); try done; cbn.
  all: try by intros [= H1%bool_decide_eq_true] [= H2%bool_decide_eq_true]; rewrite bool_decide_true; [done|congruence].
  all: try by intros _ [= H2%bool_decide_eq_true].
  all: try by intros [= H2%bool_decide_eq_true].
  intros ([] & E1 & E2)%result_bind_Ok ([] & E3 & E4)%result_bind_Ok; try done.
  by rewrite (Hf _ _ _ E1 E3) /= (Hf _ _ _ E2 E4).
Qed.

(** What [equal_functions] tests, in order. *)
Lemma equal_functions_true a b : equal_functions f a b = Ok true →
  variadic a = variadic b
  ∧ (if variadic a then compare_pointers f (variadicParam a) (variadicParam b) else Ok true) = Ok true
  ∧ length (params a) = length (params b) ∧ minArity a = minArity b ∧ isComptime a = isComptime b
  ∧ compare_pointers
      (λ l k, if length l =? length k then every2 (equal_contexts f) l k else Ok false)
      (contextRequirements a) (contextRequirements b) = Ok true
  ∧ every2 f (params a) (params b) = Ok true ∧ raisedEffects a = raisedEffects b
  ∧ compare_pointers f (ret a) (ret b) = Ok true.
Proof.
  unfold equal_functions.
  intros [Hv%bool_decide_eq_true [H1 [Hl%Nat.eqb_eq [Hm H]%guard_Ok]%guard_Ok]%bind_true]%guard_Ok.
  apply andb_true_iff in Hm as [Hm%Nat.eqb_eq Hc%bool_decide_eq_true].
  apply bind_true in H as [H2 [H3 [He%bool_decide_eq_true H4]%guard_Ok]%bind_true]. done.
Qed.

Lemma equal_contexts_trans c d e :
  equal_contexts f c d = Ok true → equal_contexts f d e = Ok true → equal_contexts f c e = Ok true.
Proof. unfold equal_contexts. repeat case_decide; try done; [eauto|congruence]. Qed.

Lemma equal_functions_trans a b c :
  equal_functions f a b = Ok true → equal_functions f b c = Ok true → equal_functions f a c = Ok true.
Proof.
  intros (V & E1 & L & N & C & E2 & E3 & R & E4)%equal_functions_true
    (V' & E1' & L' & N' & C' & E2' & E3' & R' & E4')%equal_functions_true.
  unfold equal_functions.
  rewrite -> V, V', L, L', N, N', C, C', R, R', !bool_decide_true, !Nat.eqb_refl by done. cbn [negb andb].
  assert ((if variadic c then compare_pointers f (variadicParam a) (variadicParam c) else Ok true) = Ok true) as ->.
  { rewrite -> V, V' in E1. rewrite -> V' in E1'. destruct (variadic c); [|done].
    eapply compare_pointers_trans; eauto. }
  cbn [mbind result_bind negb].
  erewrite (compare_pointers_trans _ (contextRequirements a)); [|..|exact E2|exact E2'].
  2: { intros l k m. destruct (length l =? length k) eqn:Elk; [|done]. apply Nat.eqb_eq in Elk. rewrite Elk.
       destruct (length k =? length m); [|done]. apply every2_trans; [apply equal_contexts_trans|lia]. }
  cbn [mbind result_bind negb].
  rewrite (every2_trans f (params a) (params b) (params c)) //. cbn [mbind result_bind negb].
  eapply compare_pointers_trans; eauto.
Qed.

Lemma equal_constructors_trans a b c :
  equal_constructors f a b = Ok true → equal_constructors f b c = Ok true → equal_constructors f a c = Ok true.
Proof.
  unfold equal_constructors. intros [H E]%guard_Ok [H' E']%guard_Ok.
  repeat match goal with H : _ && _ = true |- _ => apply andb_true_iff in H as [? ?] end.
  repeat match goal with
  | H : bool_decide _ = true |- _ => apply bool_decide_eq_true in H
  | H : (_ =? _) = true |- _ => apply Nat.eqb_eq in H
  end.
  rewrite !bool_decide_true; [|congruence..]. rewrite (proj2 (Nat.eqb_eq _ _)); [|congruence]. cbn.
  by eapply every2_trans.
Qed.
End transitivity.

Lemma Equals_trans n h : ∀ a b c, Equals n h a b = Ok true → Equals n h b c = Ok true → Equals n h a c = Ok true.
Proof.
  induction n as [|n IH]; intros a b c; [done|]. cbn [Equals].
  intros [Hk%bool_decide_eq_true E]%guard_Ok [Hk'%bool_decide_eq_true E']%guard_Ok.
  rewrite bool_decide_true; [|congruence]. cbn [negb]. unfold has_element in *.
  rewrite -> !(has_kind_eq _ a b) in * by done. rewrite -> !(has_kind_eq _ b c) in * by done.
  repeat match goal with |- context [if ?b then _ else _] => destruct b end;
    eauto using equal_elements_trans, equal_maps_trans, equal_functions_trans, equal_constructors_trans.
  all: injection E as E%bool_decide_eq_true; injection E' as E'%bool_decide_eq_true;
    by rewrite bool_decide_true; [|congruence].
Qed.

(** ** [Equals] ends on types that were built in order *)

Lemma parts_wf : well_founded (λ x a, x ∈ parts a).
Proof.
  unfold well_founded. fix IH 1. intros [k e ky ps r n ma v vp fs va tag ms ii re cr cs ic].
  constructor. intros x Hx. unfold parts in Hx. cbn in Hx.
  repeat (apply elem_of_app in Hx as [Hx|Hx]).
  1: destruct ky; [|destruct (not_elem_of_nil _ Hx)]; apply list_elem_of_singleton in Hx; rewrite Hx; apply IH.
  1: destruct vp; [|destruct (not_elem_of_nil _ Hx)]; apply list_elem_of_singleton in Hx; rewrite Hx; apply IH.
  1: destruct r; [|destruct (not_elem_of_nil _ Hx)]; apply list_elem_of_singleton in Hx; rewrite Hx; apply IH.
  - induction ps as [|y ps IHl]; [destruct (not_elem_of_nil _ Hx)|].
    apply elem_of_cons in Hx as [Hx|Hx]; [rewrite Hx; apply IH|exact (IHl Hx)].
  - induction va as [|y va IHl]; [destruct (not_elem_of_nil _ Hx)|].
    apply elem_of_cons in Hx as [Hx|Hx]; [rewrite Hx; apply IH|exact (IHl Hx)].
  - destruct cr as [cr|]; [|destruct (not_elem_of_nil _ Hx)]. cbn in Hx.
    induction cr as [|[z y] cr IHl]; [destruct (not_elem_of_nil _ Hx)|]. csimpl in Hx.
    apply elem_of_cons in Hx as [Hx|Hx]; [rewrite Hx; apply IH|exact (IHl Hx)].
Qed.

(** The addresses of a type are below [n]. *)
Inductive within (n : nat) (a : t) : Prop :=
  | Within : (∀ l, element a = Some l → l < n) → (∀ x, x ∈ parts a → within n x) → within n a.

(** An element was allocated after everything that it contains. *)
Definition ordered (h : Heap) : Prop := ∀ l a, h !! l = Some a → within l a.

Lemma within_mono n m a : n ≤ m → within n a → within m a.
Proof. intros Hnm. induction 1 as [a H _ IH]. constructor; [|done]. intros l Hl. specialize (H l Hl). lia. Qed.

Lemma within_exists a : ∃ n, within n a.
Proof.
  induction (parts_wf a) as [a _ IH].
  assert (∃ n, ∀ x, x ∈ parts a → within n x) as [n Hn].
  { induction (parts a) as [|x l IHl]; [exists 0; by intros x ?%not_elem_of_nil|].
    destruct (IH x) as [n Hn]; [left|]. destruct IHl as [m Hm]; [intros; apply IH; by right|].
    exists (n `max` m). intros y [->|Hy]%elem_of_cons.
    - eapply within_mono; [|exact Hn]. lia.
    - eapply within_mono; [|exact (Hm y Hy)]. lia. }
  exists (n `max` S (default 0 (element a))). constructor.
  - intros l ->. cbn. lia.
  - intros x Hx. eapply within_mono; [|exact (Hn x Hx)]. lia.
Qed.

Section step_total.
Context (f : t → t → result bool) (h : Heap) (a : t).
Hypothesis Hparts : ∀ x, x ∈ parts a → ∀ y, ∃ r, f x y = Ok r.
Hypothesis Helement : ∀ l, element a = Some l → ∀ y, ∃ r, f (deref h l) y = Ok r.

Lemma bind_total (r : result bool) (k : bool → result bool) :
  (∃ b, r = Ok b) → (∀ b, ∃ c, k b = Ok c) → ∃ c, r ≫= k = Ok c.
Proof. intros [b ->] H. apply H. Qed.
Lemma guard_total (b : bool) (r : result bool) :
  (∃ c, r = Ok c) → ∃ c, (if b then Ok false else r) = Ok c.
Proof. destruct b; eauto. Qed.

Lemma equal_elements_total b : ∃ r, equal_elements f h a b = Ok r.
Proof. apply compare_pointers_total. intros l k Hl. by apply Helement. Qed.

Lemma equal_maps_total b : ∃ r, equal_maps f h a b = Ok r.
Proof.
  unfold equal_maps. destruct (key a) eqn:Hk, (key b), (element a) eqn:He, (element b); eauto.
  apply bind_total; [apply Hparts, elem_parts; auto|]. intros []; eauto.
Qed.

Lemma equal_functions_total b : ∃ r, equal_functions f a b = Ok r.
Proof.
  unfold equal_functions. apply guard_total, bind_total.
  { destruct (variadic a); [|eauto]. apply compare_pointers_total. intros; apply Hparts, elem_parts; auto. }
  intros v. do 3 apply guard_total. apply bind_total.
  { apply compare_pointers_total. intros l k Hl. destruct (_ =? _); [|eauto]. apply every2_total.
    intros c d Hc. unfold equal_contexts. case_decide; [|eauto]. apply Hparts, elem_parts. rewrite Hl /=.
    do 5 right. apply list_elem_of_fmap. eauto. }
  intros c. apply guard_total, bind_total.
  { apply every2_total. intros; apply Hparts, elem_parts; auto 6. }
  intros p. do 2 apply guard_total. apply compare_pointers_total. intros; apply Hparts, elem_parts; auto.
Qed.

Lemma equal_constructors_total b : ∃ r, equal_constructors f a b = Ok r.
Proof. apply guard_total, every2_total. intros; apply Hparts, elem_parts; auto 6. Qed.
End step_total.

(** With some fuel, [Equals] of [a] and any type ends. *)
Definition comparable (h : Heap) (a : t) : Prop := ∃ n, ∀ b, ∃ r, Equals n h a b = Ok r.

Lemma comparable_list h (l : list t) : (∀ x, x ∈ l → comparable h x) → ∃ n, ∀ x, x ∈ l → ∀ b, ∃ r, Equals n h x b = Ok r.
Proof.
  induction l as [|x l IH]; intros H; [exists 0; by intros x ?%not_elem_of_nil|].
  destruct (H x) as [n Hn]; [left|]. destruct IH as [m Hm]; [intros; apply H; by right|].
  exists (n `max` m). intros y [->|Hy]%elem_of_cons b.
  - destruct (Hn b) as [r Hr]. exists r. eapply Equals_mono; [|exact Hr]. lia.
  - destruct (Hm y Hy b) as [r Hr]. exists r. eapply Equals_mono; [|exact Hr]. lia.
Qed.

Lemma within_comparable h m a : (∀ l, l < m → comparable h (deref h l)) → within m a → comparable h a.
Proof.
  intros Hl. induction 1 as [a Ha _ IH].
  destruct (comparable_list h (parts a ++ (deref h <$> option_list (element a)))) as [n Hn].
  { intros x [Hx|(l & -> & Hin)%list_elem_of_fmap]%elem_of_app; [by apply IH|].
    apply Hl, Ha. destruct (element a); [|by apply not_elem_of_nil in Hin].
    by apply list_elem_of_singleton in Hin as ->. }
  exists (S n). intros b. cbn [Equals].
  assert (∀ x, x ∈ parts a → ∀ y, ∃ r, Equals n h x y = Ok r) as Hparts.
  { intros x Hx. apply Hn, elem_of_app. by left. }
  assert (∀ l, element a = Some l → ∀ y, ∃ r, Equals n h (deref h l) y = Ok r) as Helement.
  { intros l He. apply Hn, elem_of_app. right. apply list_elem_of_fmap. exists l. split; [done|].
    rewrite He. by apply list_elem_of_singleton. }
  apply guard_total. repeat case_match;
    eauto using equal_elements_total, equal_maps_total, equal_functions_total, equal_constructors_total.
Qed.

Lemma ordered_comparable h a : ordered h → comparable h a.
Proof.
  intros Hh. assert (∀ l, comparable h (deref h l)) as Hall.
  { intros l. induction (lt_wf l) as [l _ IH]. apply (within_comparable h l); [done|].
    unfold deref. destruct (@lookup loc t Heap _ l h) as [x|] eqn:Hx; cbn; [exact (Hh l x Hx)|].
    constructor; [done|]. by intros x ?%not_elem_of_nil. }
  destruct (within_exists a) as [n Hn]. by apply (within_comparable h n).
Qed.

(** Two types are equal: some stack is enough for [Equals] to say so. *)
Definition same (h : Heap) (a b : t) : Prop := ∃ n, Equals n h a b = Ok true.

(** C18. On a heap whose elements were allocated after what they contain, [Equals]
    ends on all types and is an equivalence. *)
Theorem Equals_equivalence h : ordered h →
  (∀ a b, ∃ n r, Equals n h a b = Ok r) ∧ Equivalence (same h).
Proof.
  intros Hh. split.
  { intros a b. destruct (ordered_comparable h a Hh) as [n Hn]. exists n. apply Hn. }
  split.
  - intros a. destruct (ordered_comparable h a Hh) as [n Hn]. destruct (Hn a) as [r Hr]. exists n.
    by destruct (Equals_refl n h a) as [E|E]; rewrite -> E in *.
  - intros a b [n E]. exists n. by rewrite Equals_sym.
  - intros a b c [n E] [m E']. exists (n `max` m).
    apply (Equals_trans _ h a b c); [apply (Equals_mono n)|apply (Equals_mono m)]; done || lia.
Qed.

(** The heap of [[int]] and of an array of such arrays. *)
Definition two_arrays : Heap := [Int; with_element TypeKind.Array 0].
Lemma two_arrays_ordered : ordered two_arrays.
Proof.
  intros l a Ha. assert (l < 2) as Hl by by apply lookup_lt_Some in Ha.
  destruct l as [|[|l]]; [| |lia]; injection Ha as <-; constructor; cbn;
    try (by intros x ?%not_elem_of_nil); try done. intros k [= <-]. lia.
Qed.

Lemma Equals_equivalence_witness :
  (∃ n r, Equals n two_arrays (with_element TypeKind.Array 1) (with_element TypeKind.Array 0) = Ok r)
  ∧ same two_arrays (with_element TypeKind.Array 1) (with_element TypeKind.Array 1).
Proof.
  destruct (Equals_equivalence two_arrays two_arrays_ordered) as [Hends Hsame].
  split; [apply Hends|reflexivity].
Defined.

(** An array that is its own element, as [a[0] = a] makes one: no stack is
    enough to compare it. *)
Lemma cyclic_array_diverges n :
  Equals n [with_element TypeKind.Array 0] (with_element TypeKind.Array 0) (with_element TypeKind.Array 0) = Diverge.
Proof. induction n as [|n IH]; [done|exact IH]. Qed.

End TypeInfoSpec.
