(* ===== verification/SemanticState.v ===== *)
(** * The state of the semantic analyzer

    [src/ast/sematic/SemanticAnalyzer.h] and [EnvironmentSemanticAnalyzer.cpp]: the
    environment with its operations, the registries of types and modules, the members
    of the class, and the monad of its functions.

    A vector used as a stack is a list with its back first.  A [const] member function
    is a function of the analyzer in the monad of the heap of elements alone. *)

From S2P Require Import Prelude Ast TypeInfo.

(** ** The environment *)

Module EnvironmentState.

(** [SymbolInfo] and [Env] *)
Record SymbolInfo := MkSymbol { type : TypeInfo.t; isConst : bool }.
Definition Env : Type := gmap string SymbolInfo.

(** [structMethodSelfStack] is [selves]. *)
Record t := Mk { scopes : list Env; selves : list TypeInfo.t }.

Definition FormatUndefined (name : string) : string := "Undefined variable: " +:+ name.
Definition undefined (name : string) : exn := runtime_error (FormatUndefined name).

Definition Reset : t := Mk [∅] [].
Definition PushScope (e : t) : t := Mk (∅ :: scopes e) (selves e).
Definition PopScope (e : t) : result t :=
  match scopes e with
  | [] => Throw (runtime_error "Internal semantic analyzer error: empty environment")
  | _ :: l => Ok (Mk l (selves e))
  end.
Definition PushStructMethodSelf (selfType : TypeInfo.t) (e : t) : t := Mk (scopes e) (selfType :: selves e).
Definition PopStructMethodSelf (e : t) : result t :=
  match selves e with
  | [] => Throw (runtime_error "Internal semantic analyzer error: empty struct self stack")
  | _ :: l => Ok (Mk (scopes e) l)
  end.

Definition Define (name : string) (type : TypeInfo.t) (isConst : bool) (e : t) : result t :=
  match scopes e with
  | [] => Throw (runtime_error "Internal semantic analyzer error: no environment scope")
  | scope :: l => Ok (Mk (<[name := MkSymbol type isConst]> scope :: l) (selves e))
  end.

(** The loop over the scopes from the innermost one. *)
Fixpoint find_symbol (name : string) (l : list Env) : option SymbolInfo :=
  match l with
  | [] => None
  | scope :: l => match scope !! name with Some i => Some i | None => find_symbol name l end
  end.

Definition EnsureDeclared (name : string) (e : t) : result unit :=
  match scopes e with
  | [] => Throw (runtime_error "Internal semantic analyzer error: empty environment")
  | l => match find_symbol name l with Some _ => Ok tt | None => Throw (undefined name) end
  end.

Definition self_field (name : string) (e : t) : option TypeInfo.t :=
  selfType ← head (selves e); fields ← TypeInfo.fields selfType; fields !! name.

Definition Resolve (name : string) (e : t) : result TypeInfo.t :=
  match find_symbol name (scopes e) with
  | Some i => Ok (type i)
  | None =>
      match self_field name e with
      | Some a => Ok a
      | None => Throw (undefined name)
      end
  end.

Definition ResolveIsConst (name : string) (e : t) : result bool :=
  match find_symbol name (scopes e) with
  | Some i => Ok (isConst i)
  | None => Throw (undefined name)
  end.

End EnvironmentState.

(** ** The analyzer *)

Module SemanticAnalyzer.

Record GenericAliasInfo := MkGenericAlias {
  ga_typeParams : list Ast.TypeParameterDecl;
  aliasedType : string;
}.
Record GenericNominalInfo := MkGenericNominal {
  gn_typeParams : list Ast.TypeParameterDecl;
  templatedType : TypeInfo.t;
}.
Record ConstructorSignature := MkConstructorSignature {
  cs_params : list (string * TypeInfo.t);
  requiredArity : nat;
}.

(** [struct TypeRegistry] *)
Record TypeRegistry := MkTypes {
  structs : gmap string TypeInfo.t;
  enums : gmap string TypeInfo.t;
  enumConstructors : gmap string TypeInfo.t;
  interfaces : gmap string TypeInfo.t;
  actors : gmap string TypeInfo.t;
  effects : gmap string TypeInfo.t;
  constructorSignatures : gmap string ConstructorSignature;
  aliases : gmap string string;
  genericAliases : gmap string GenericAliasInfo;
  genericStructs : gmap string GenericNominalInfo;
  genericEnums : gmap string GenericNominalInfo;
  genericInterfaces : gmap string GenericNominalInfo;
  genericActors : gmap string GenericNominalInfo;
}.

Definition Clear_types : TypeRegistry := MkTypes ∅ ∅ ∅ ∅ ∅ ∅ ∅ ∅ ∅ ∅ ∅ ∅ ∅.

Definition set_structs (x : gmap string TypeInfo.t) (r : TypeRegistry) : TypeRegistry :=
  MkTypes x (enums r) (enumConstructors r) (interfaces r) (actors r) (effects r) (constructorSignatures r)
    (aliases r) (genericAliases r) (genericStructs r) (genericEnums r) (genericInterfaces r)
    (genericActors r).
Definition set_enums (x : gmap string TypeInfo.t) (r : TypeRegistry) : TypeRegistry :=
  MkTypes (structs r) x (enumConstructors r) (interfaces r) (actors r) (effects r)
    (constructorSignatures r) (aliases r) (genericAliases r) (genericStructs r) (genericEnums r)
    (genericInterfaces r) (genericActors r).
Definition set_enumConstructors (x : gmap string TypeInfo.t) (r : TypeRegistry) : TypeRegistry :=
  MkTypes (structs r) (enums r) x (interfaces r) (actors r) (effects r) (constructorSignatures r)
    (aliases r) (genericAliases r) (genericStructs r) (genericEnums r) (genericInterfaces r)
    (genericActors r).
Definition set_interfaces (x : gmap string TypeInfo.t) (r : TypeRegistry) : TypeRegistry :=
  MkTypes (structs r) (enums r) (enumConstructors r) x (actors r) (effects r) (constructorSignatures r)
    (aliases r) (genericAliases r) (genericStructs r) (genericEnums r) (genericInterfaces r)
    (genericActors r).
Definition set_actors (x : gmap string TypeInfo.t) (r : TypeRegistry) : TypeRegistry :=
  MkTypes (structs r) (enums r) (enumConstructors r) (interfaces r) x (effects r) (constructorSignatures r)
    (aliases r) (genericAliases r) (genericStructs r) (genericEnums r) (genericInterfaces r)
    (genericActors r).
Definition set_effects (x : gmap string TypeInfo.t) (r : TypeRegistry) : TypeRegistry :=
  MkTypes (structs r) (enums r) (enumConstructors r) (interfaces r) (actors r) x (constructorSignatures r)
    (aliases r) (genericAliases r) (genericStructs r) (genericEnums r) (genericInterfaces r)
    (genericActors r).
Definition set_constructorSignatures (x : gmap string ConstructorSignature) (r : TypeRegistry) : TypeRegistry :=
  MkTypes (structs r) (enums r) (enumConstructors r) (interfaces r) (actors r) (effects r) x (aliases r)
    (genericAliases r) (genericStructs r) (genericEnums r) (genericInterfaces r) (genericActors r).
Definition set_aliases (x : gmap string string) (r : TypeRegistry) : TypeRegistry :=
  MkTypes (structs r) (enums r) (enumConstructors r) (interfaces r) (actors r) (effects r)
    (constructorSignatures r) x (genericAliases r) (genericStructs r) (genericEnums r)
    (genericInterfaces r) (genericActors r).
Definition set_genericAliases (x : gmap string GenericAliasInfo) (r : TypeRegistry) : TypeRegistry :=
  MkTypes (structs r) (enums r) (enumConstructors r) (interfaces r) (actors r) (effects r)
    (constructorSignatures r) (aliases r) x (genericStructs r) (genericEnums r) (genericInterfaces r)
    (genericActors r).
Definition set_genericStructs (x : gmap string GenericNominalInfo) (r : TypeRegistry) : TypeRegistry :=
  MkTypes (structs r) (enums r) (enumConstructors r) (interfaces r) (actors r) (effects r)
    (constructorSignatures r) (aliases r) (genericAliases r) x (genericEnums r) (genericInterfaces r)
    (genericActors r).
Definition set_genericEnums (x : gmap string GenericNominalInfo) (r : TypeRegistry) : TypeRegistry :=
  MkTypes (structs r) (enums r) (enumConstructors r) (interfaces r) (actors r) (effects r)
    (constructorSignatures r) (aliases r) (genericAliases r) (genericStructs r) x (genericInterfaces r)
    (genericActors r).
Definition set_genericInterfaces (x : gmap string GenericNominalInfo) (r : TypeRegistry) : TypeRegistry :=
  MkTypes (structs r) (enums r) (enumConstructors r) (interfaces r) (actors r) (effects r)
    (constructorSignatures r) (aliases r) (genericAliases r) (genericStructs r) (genericEnums r) x
    (genericActors r).
Definition set_genericActors (x : gmap string GenericNominalInfo) (r : TypeRegistry) : TypeRegistry :=
  MkTypes (structs r) (enums r) (enumConstructors r) (interfaces r) (actors r) (effects r)
    (constructorSignatures r) (aliases r) (genericAliases r) (genericStructs r) (genericEnums r)
    (genericInterfaces r) x.

(** [struct ModuleRegistry] *)
Record ModuleRegistry := MkModules {
  memberTypes : gmap string (gmap string TypeInfo.t);
  exports : gmap string (gset string);
}.
Definition Clear_modules : ModuleRegistry := MkModules ∅ ∅.

(** The members that a visitor sets for the time of a visit: the stacks, the
    depths and [m_currentExpectedReturn]. *)
Record Active := MkActive {
  expectedReturn : TypeInfo.t;
  typeParamScopes : list (gmap string TypeInfo.t);
  handledEffects : list (gset string);
  activeRaisedEffects : list (gset string);
  resumeTypes : list TypeInfo.t;
  actorStateScopes : list (gset string);
  activeTransactions : list (gset string);
  actorQueryDepth : Z;
  unsafeDepth : Z;
  comptimeDepth : Z;
  functionDepth : Z;
}.

Definition set_expectedReturn (x : TypeInfo.t) (a : Active) : Active :=
  MkActive x (typeParamScopes a) (handledEffects a) (activeRaisedEffects a) (resumeTypes a)
    (actorStateScopes a) (activeTransactions a) (actorQueryDepth a) (unsafeDepth a) (comptimeDepth a)
    (functionDepth a).
Definition set_typeParamScopes (x : list (gmap string TypeInfo.t)) (a : Active) : Active :=
  MkActive (expectedReturn a) x (handledEffects a) (activeRaisedEffects a) (resumeTypes a)
    (actorStateScopes a) (activeTransactions a) (actorQueryDepth a) (unsafeDepth a) (comptimeDepth a)
    (functionDepth a).
Definition set_handledEffects (x : list (gset string)) (a : Active) : Active :=
  MkActive (expectedReturn a) (typeParamScopes a) x (activeRaisedEffects a) (resumeTypes a)
    (actorStateScopes a) (activeTransactions a) (actorQueryDepth a) (unsafeDepth a) (comptimeDepth a)
    (functionDepth a).
Definition set_activeRaisedEffects (x : list (gset string)) (a : Active) : Active :=
  MkActive (expectedReturn a) (typeParamScopes a) (handledEffects a) x (resumeTypes a) (actorStateScopes a)
    (activeTransactions a) (actorQueryDepth a) (unsafeDepth a) (comptimeDepth a) (functionDepth a).
Definition set_resumeTypes (x : list TypeInfo.t) (a : Active) : Active :=
  MkActive (expectedReturn a) (typeParamScopes a) (handledEffects a) (activeRaisedEffects a) x
    (actorStateScopes a) (activeTransactions a) (actorQueryDepth a) (unsafeDepth a) (comptimeDepth a)
    (functionDepth a).
Definition set_actorStateScopes (x : list (gset string)) (a : Active) : Active :=
  MkActive (expectedReturn a) (typeParamScopes a) (handledEffects a) (activeRaisedEffects a)
    (resumeTypes a) x (activeTransactions a) (actorQueryDepth a) (unsafeDepth a) (comptimeDepth a)
    (functionDepth a).
Definition set_activeTransactions (x : list (gset string)) (a : Active) : Active :=
  MkActive (expectedReturn a) (typeParamScopes a) (handledEffects a) (activeRaisedEffects a)
    (resumeTypes a) (actorStateScopes a) x (actorQueryDepth a) (unsafeDepth a) (comptimeDepth a)
    (functionDepth a).
Definition set_actorQueryDepth (x : Z) (a : Active) : Active :=
  MkActive (expectedReturn a) (typeParamScopes a) (handledEffects a) (activeRaisedEffects a)
    (resumeTypes a) (actorStateScopes a) (activeTransactions a) x (unsafeDepth a) (comptimeDepth a)
    (functionDepth a).
Definition set_unsafeDepth (x : Z) (a : Active) : Active :=
  MkActive (expectedReturn a) (typeParamScopes a) (handledEffects a) (activeRaisedEffects a)
    (resumeTypes a) (actorStateScopes a) (activeTransactions a) (actorQueryDepth a) x (comptimeDepth a)
    (functionDepth a).
Definition set_comptimeDepth (x : Z) (a : Active) : Active :=
  MkActive (expectedReturn a) (typeParamScopes a) (handledEffects a) (activeRaisedEffects a)
    (resumeTypes a) (actorStateScopes a) (activeTransactions a) (actorQueryDepth a) (unsafeDepth a) x
    (functionDepth a).
Definition set_functionDepth (x : Z) (a : Active) : Active :=
  MkActive (expectedReturn a) (typeParamScopes a) (handledEffects a) (activeRaisedEffects a)
    (resumeTypes a) (actorStateScopes a) (activeTransactions a) (actorQueryDepth a) (unsafeDepth a)
    (comptimeDepth a) x.

(** The members of [SemanticAnalyzer].  [heap] is what the elements point to,
    [effectKeys] the writes to [effectKey] of the handlers in the tree: the name
    of the operation and the key, the last write first. *)
Record t := Mk {
  lastType : TypeInfo.t;
  environment : EnvironmentState.t;
  m_types : TypeRegistry;
  m_modules : ModuleRegistry;
  currentModule : string;
  sharedVariables : gset string;
  active : Active;
  heap : TypeInfo.Heap;
  effectKeys : list (string * string);
}.

Definition set_lastType (x : TypeInfo.t) (s : t) : t :=
  Mk x (environment s) (m_types s) (m_modules s) (currentModule s) (sharedVariables s) (active s) (heap s)
    (effectKeys s).
Definition set_environment (x : EnvironmentState.t) (s : t) : t :=
  Mk (lastType s) x (m_types s) (m_modules s) (currentModule s) (sharedVariables s) (active s) (heap s)
    (effectKeys s).
Definition set_m_types (x : TypeRegistry) (s : t) : t :=
  Mk (lastType s) (environment s) x (m_modules s) (currentModule s) (sharedVariables s) (active s) (heap s)
    (effectKeys s).
Definition set_m_modules (x : ModuleRegistry) (s : t) : t :=
  Mk (lastType s) (environment s) (m_types s) x (currentModule s) (sharedVariables s) (active s) (heap s)
    (effectKeys s).
Definition set_currentModule (x : string) (s : t) : t :=
  Mk (lastType s) (environment s) (m_types s) (m_modules s) x (sharedVariables s) (active s) (heap s)
    (effectKeys s).
Definition set_sharedVariables (x : gset string) (s : t) : t :=
  Mk (lastType s) (environment s) (m_types s) (m_modules s) (currentModule s) x (active s) (heap s)
    (effectKeys s).
Definition set_active (x : Active) (s : t) : t :=
  Mk (lastType s) (environment s) (m_types s) (m_modules s) (currentModule s) (sharedVariables s) x
    (heap s) (effectKeys s).
Definition set_heap (x : TypeInfo.Heap) (s : t) : t :=
  Mk (lastType s) (environment s) (m_types s) (m_modules s) (currentModule s) (sharedVariables s)
    (active s) x (effectKeys s).
Definition set_effectKeys (x : list (string * string)) (s : t) : t :=
  Mk (lastType s) (environment s) (m_types s) (m_modules s) (currentModule s) (sharedVariables s)
    (active s) (heap s) x.

(** What the constructor leaves. *)
Definition no_active : Active := MkActive TypeInfo.Unknown [] [] [] [] [] [] 0 0 0 0.
Definition init : t :=
  Mk TypeInfo.Unknown (EnvironmentState.Mk [] []) Clear_types Clear_modules "" ∅ no_active [] [].

(** ** The monad *)

Definition M : Type → Type := st t.

Definition error {S A} (message : string) : st S A := st_throw (runtime_error message).
Definition lift {S A} (r : result A) : st S A := λ s, a ← r; Ok (a, s).
Definition gets {A} (f : t → A) : M A := s ← st_get; mret (f s).

(** A call of a [const] member function. *)
Definition const {A} (m : t → st TypeInfo.Heap A) : M A := λ s,
  '(a, h) ← m s (heap s); Ok (a, set_heap h s).

Definition on_environment (f : EnvironmentState.t → result EnvironmentState.t) : M unit := λ s,
  e ← f (environment s); Ok (tt, set_environment e s).
Definition on_types (f : TypeRegistry → TypeRegistry) : M unit :=
  st_modify (λ s, set_m_types (f (m_types s)) s).
Definition on_modules (f : ModuleRegistry → ModuleRegistry) : M unit :=
  st_modify (λ s, set_m_modules (f (m_modules s)) s).
Definition on_active (f : Active → Active) : M unit :=
  st_modify (λ s, set_active (f (active s)) s).

(** [m_lastType = type] *)
Definition set_last (type : TypeInfo.t) : M unit := st_modify (set_lastType type).

(** [Define], [EnsureDeclared], [Resolve] and [ResolveIsConst] of the analyzer. *)
Definition Define (name : string) (type : TypeInfo.t) (isConst : bool) : M unit :=
  on_environment (EnvironmentState.Define name type isConst).
Definition EnsureDeclared (name : string) : M unit :=
  s ← st_get; lift (EnvironmentState.EnsureDeclared name (environment s)).
Definition Resolve (name : string) : M TypeInfo.t :=
  s ← st_get; lift (EnvironmentState.Resolve name (environment s)).
Definition ResolveIsConst (name : string) : M bool :=
  s ← st_get; lift (EnvironmentState.ResolveIsConst name (environment s)).

(** [ScopeExit]: what its constructor's caller does before, the scope that it
    lives in, and the function that its destructor calls. *)
Definition ScopeExit {A} (enter leave : M unit) (scope : M A) : M A :=
  _ ← enter; a ← scope; _ ← leave; mret a.

(** The scopes that the visitors open. *)
Definition in_scope {A} : M A → M A :=
  ScopeExit (on_environment (λ e, Ok (EnvironmentState.PushScope e))) (on_environment EnvironmentState.PopScope).
(** A stack of [Active] while its top is [x]. *)
Definition pushing {X A} (get : Active → list X) (set : list X → Active → Active) (x : X) : M A → M A :=
  ScopeExit (on_active (λ a, set (x :: get a) a)) (on_active (λ a, set (tail (get a)) a)).
(** A depth, one more. *)
Definition deeper {A} (get : Active → Z) (set : Z → Active → Active) : M A → M A :=
  ScopeExit (on_active (λ a, set (get a + 1)%Z a)) (on_active (λ a, set (get a - 1)%Z a)).
(** [m_currentExpectedReturn] for a scope, put back from [oldReturn]. *)
Definition expecting {A} (type : TypeInfo.t) (scope : M A) : M A :=
  oldReturn ← gets (λ s, expectedReturn (active s));
  ScopeExit (on_active (set_expectedReturn type)) (on_active (set_expectedReturn oldReturn)) scope.

(** A loop over a vector. *)
Definition for_each {S A} (f : A → st S unit) (l : list A) : st S unit :=
  foldr (λ x k, _ ← f x; k) (mret tt) l.

End SemanticAnalyzer.
