(* ===== verification/TypeResolver.v ===== *)
(** * Names of types and the relations between types

    The [const] member functions of [SemanticAnalyzer]: [QualifyName],
    [TypeResolver::ResolveTypeName] ([StringToType]), [IsAssignable],
    [TypeResolver::Satisfies] and [Bind] ([CallAndTypesSemanticAnalyzer.cpp],
    [CoreAnalysisSemanticAnalyzer.cpp]), the queries of the registries and of the
    stacks, and the functions on lists of parameters ([StatementsSemanticAnalyzer.cpp]).

    Fuel bounds the depth of the calls: an alias can name itself, an import can
    resolve to itself and a type can contain itself, and the program then runs out
    of its stack ([Diverge]). *)

From S2P Require Import Prelude Ast TypeNames TypeInfo SemanticState.
From stdpp Require Import sorting.

Module TypeResolver.
Import Ast TypeNames SemanticAnalyzer.

(** The first of several lookups that finds something. *)
Definition first_some {A} (l : list (option A)) : option A :=
  foldr (λ o k, match o with Some x => Some x | None => k end) None l.

Definition st_some {S A} (m : st S A) : st S (option A) := a ← m; mret (Some a).

(** Short-circuit loops over two vectors of one size. *)
Section all2.
Context {A : Type} (f : A → A → st TypeInfo.Heap bool).
Fixpoint all2 (l k : list A) : st TypeInfo.Heap bool :=
  match l, k with
  | x :: l, y :: k => b ← f x y; if b : bool then all2 l k else mret false
  | _, _ => mret true
  end.
End all2.
Section all1.
Context {A : Type} (f : A → st TypeInfo.Heap bool).
Fixpoint all1 (l : list A) : st TypeInfo.Heap bool :=
  match l with
  | x :: l => b ← f x; if b : bool then all1 l else mret false
  | [] => mret true
  end.
End all1.

Definition pointers2 {A} (f : A → A → st TypeInfo.Heap bool) (p q : option A) : st TypeInfo.Heap bool :=
  match p, q with
  | Some x, Some y => f x y
  | None, None => mret true
  | _, _ => mret false
  end.

(** ** Names of types as texts *)

Definition opens (c : ascii) : bool := bool_decide (c = "<"%char ∨ c = "["%char ∨ c = "("%char).
Definition closes (c : ascii) : bool := bool_decide (c = ">"%char ∨ c = "]"%char ∨ c = ")"%char).

(** The loop that looks for the arrow: [i] is its index, [text] what is left. *)
Fixpoint find_arrow (i depth : nat) (text : string) : option nat :=
  match text with
  | String c (String d _ as rest) =>
      if opens c then find_arrow (S i) (S depth) rest
      else if closes c && (0 <? depth) then find_arrow (S i) (pred depth) rest
      else if (depth =? 0) && bool_decide (c = "-"%char) && bool_decide (d = ">"%char) then Some i
      else find_arrow (S i) depth rest
  | _ => None
  end.

(** The loop over the parameters of a function type: the segments, [part]
    being the characters of the current one, the last one first. *)
Fixpoint segments (depth : nat) (part text : string) : list string :=
  match text with
  | EmptyString => [String.rev part]
  | String c rest =>
      let depth' := if opens c then S depth
                    else if closes c && (0 <? depth) then pred depth else depth in
      if bool_decide (c = ","%char) && (depth' =? 0)
      then String.rev part :: segments depth' "" rest
      else segments depth' (String c part) rest
  end.

(** [name.rfind(prefix, 0) == 0], the last character and [size() > n]: the
    text between them. *)
Definition between (prefix : string) (close : ascii) (name : string) : option string :=
  let p := String.length prefix in
  if (p + 1 <? String.length name) && String.prefix prefix name && bool_decide (back name = Some close)
  then Some (substr p (String.length name - (p + 1)) name)
  else None.
(** The same for parentheses, where nothing need be between them. *)
Definition parenthesised (name : string) : option string :=
  if (2 <=? String.length name) && bool_decide (front name = Some "("%char)
     && bool_decide (back name = Some ")"%char)
  then Some (substr 1 (String.length name - 2) name)
  else None.

(** The names of the built-in types. *)
Definition builtin_type (name : string) : option TypeInfo.t :=
  if decide (name = "int") then Some TypeInfo.Int
  else if decide (name = "any") then Some TypeInfo.Any
  else if decide (name = "float") then Some TypeInfo.Float
  else if decide (name = "string") then Some TypeInfo.String_
  else if decide (name = "never") then Some TypeInfo.Never
  else if decide (name = "bool") then Some TypeInfo.Bool
  else if decide (name = "void") then Some TypeInfo.Void
  else None.

(** Assignments in order: the later one of two for one key stays. *)
Definition assign_all {A} (l : list (string * A)) : gmap string A :=
  foldl (λ m kv, <[kv.1 := kv.2]> m) ∅ l.

Section analyzer.
Context (sa : SemanticAnalyzer.t).

Definition QualifyName (name : string) : string :=
  if decide (is_Some (find_string "." name)) then name
  else if decide (currentModule sa = "") then name
  else currentModule sa +:+ "." +:+ name.

(** The lambda [resolveImportedQualifiedName]. *)
Definition resolveImportedQualifiedName (rawName : string) : option string :=
  dot ← find_string "." rawName;
  match EnvironmentState.Resolve (substr 0 dot rawName) (environment sa) with
  | Ok aliasType =>
      if TypeInfo.has_kind TypeKind.Module_ aliasType
      then Some (TypeInfo.name aliasType +:+ substr_from dot rawName)
      else None
  | _ => None
  end.

(** The loop over [m_typeParamScopes] from the innermost one. *)
Definition find_type_parameter (name : string) : option TypeInfo.t :=
  first_some ((λ scope : gmap string TypeInfo.t, scope !! name) <$> typeParamScopes (active sa)).

(** A structure, enumeration, interface or actor of a name. *)
Definition find_nominal (name : string) : option TypeInfo.t :=
  first_some [structs (m_types sa) !! name; enums (m_types sa) !! name;
              interfaces (m_types sa) !! name; actors (m_types sa) !! name].
Definition find_named (name : string) : option TypeInfo.t :=
  first_some [find_nominal name; effects (m_types sa) !! name].

(** [registry.find(base)], or else of the qualified name. *)
Definition find_generic {A} (registry : gmap string A) (base : string) : option A :=
  first_some [registry !! base; registry !! QualifyName base].

Section resolve.
Context (recurse : string → st TypeInfo.Heap TypeInfo.t) (fuel : nat).

(** The lambda [resolveNominalGeneric]. *)
Definition resolveNominalGeneric (name genericBase : string) (genericArgs : list string)
    (registry : gmap string GenericNominalInfo) : st TypeInfo.Heap (option TypeInfo.t) :=
  match find_generic registry genericBase with
  | Some info =>
      if length (gn_typeParams info) =? length genericArgs then
        l ← mapM recurse genericArgs;
        resolved ← TypeInfo.Substitute fuel (assign_all (zip (tp_name <$> gn_typeParams info) l))
                     (templatedType info);
        mret (Some (TypeInfo.set_name name resolved))
      else mret None
  | None => mret None
  end.

(** The attempts in the registries, in the order of the code. *)
Fixpoint try_registries (name genericBase : string) (genericArgs : list string)
    (registries : list (gmap string GenericNominalInfo)) : st TypeInfo.Heap (option TypeInfo.t) :=
  match registries with
  | [] =>
      mret (TypeInfo.set_name name <$>
              first_some [find_nominal genericBase; find_nominal (QualifyName genericBase)])
  | registry :: registries =>
      r ← resolveNominalGeneric name genericBase genericArgs registry;
      match r with
      | Some a => mret (Some a)
      | None => try_registries name genericBase genericArgs registries
      end
  end.

(** A name with arguments in angle brackets. *)
Definition resolve_generic (name genericBase : string) (genericArgs : list string) :
    st TypeInfo.Heap (option TypeInfo.t) :=
  match resolveImportedQualifiedName name with
  | Some imported => st_some (recurse imported)
  | None =>
      match genericAliases (m_types sa) !! genericBase with
      | Some info =>
          if length (ga_typeParams info) =? length genericArgs then
            text ← lift (SubstituteTypeString (aliasedType info)
                           (assign_all (zip (tp_name <$> ga_typeParams info) genericArgs)));
            st_some (recurse text)
          else mret (Some TypeInfo.Unknown)
      | None =>
          try_registries name genericBase genericArgs
            [genericStructs (m_types sa); genericEnums (m_types sa);
             genericInterfaces (m_types sa); genericActors (m_types sa)]
      end
  end.

Definition resolve_function (name : string) (arrowPos : nat) : st TypeInfo.Heap TypeInfo.t :=
  let lhs := substr 0 arrowPos name in
  let rhs := substr_from (arrowPos + 2) name in
  params ← match parenthesised lhs with
           | Some inner => mapM recurse (filter (λ token, token ≠ "") (segments 0 "" inner))
           | None => a ← recurse lhs; mret [a]
           end;
  r ← recurse rhs;
  mret (TypeInfo.Function_ params r None ∅ [] false false None).

(** What is tried when the name is no parameter, alias, generic or built-in type. *)
Definition resolve_shape (name : string) : st TypeInfo.Heap TypeInfo.t :=
  match resolveImportedQualifiedName name with Some imported => recurse imported | None =>
  match parenthesised name with Some inner => recurse inner | None =>
  match between "ptr<" ">" name with Some inner => a ← recurse inner; TypeInfo.PointerTo a | None =>
  match between "task<" ">" name with Some inner => a ← recurse inner; TypeInfo.TaskOf a | None =>
  match between "channel<" ">" name with Some inner => a ← recurse inner; TypeInfo.ChannelOf a | None =>
  match between "ref<" ">" name with Some inner => a ← recurse inner; TypeInfo.RefTo a | None =>
  match between "[" "]" name with Some inner => a ← recurse inner; TypeInfo.ArrayOf a | None =>
  match SplitGenericName name with
  | Some ("map", [k; v]) => k ← recurse k; v ← recurse v; TypeInfo.MapOf k v
  | _ =>
  match find_arrow 0 0 name with Some arrowPos => resolve_function name arrowPos | None =>
  mret (default TypeInfo.Unknown (first_some [find_named name; find_named (QualifyName name)]))
  end end end end end end end end end.

Definition resolve_step (name : string) : st TypeInfo.Heap TypeInfo.t :=
  match find_type_parameter name with Some a => mret a | None =>
  match aliases (m_types sa) !! name with Some aliased => recurse aliased | None =>
  r ← (match SplitGenericName name with
       | Some (genericBase, genericArgs) => resolve_generic name genericBase genericArgs
       | None => mret None
       end);
  match r with Some a => mret a | None =>
  match builtin_type name with Some a => mret a | None =>
  resolve_shape name
  end end end end.
End resolve.

Fixpoint ResolveTypeName (fuel : nat) (name : string) : st TypeInfo.Heap TypeInfo.t :=
  match fuel with
  | 0 => st_diverge
  | S fuel => resolve_step (ResolveTypeName fuel) fuel name
  end.
Definition StringToType : nat → string → st TypeInfo.Heap TypeInfo.t := ResolveTypeName.

(** [expected.Equals(actual)] *)
Definition equals (fuel : nat) (a b : TypeInfo.t) : st TypeInfo.Heap bool :=
  h ← st_get; lift (TypeInfo.Equals fuel h a b).

(** ** [IsAssignable] *)

Section assignable.
Context (recurse : TypeInfo.t → TypeInfo.t → st TypeInfo.Heap bool) (fuel : nat).

(** [TypeResolver::Satisfies] *)
Definition satisfies (actual : TypeInfo.t) (constraints : list TypeInfo.t) : st TypeInfo.Heap bool :=
  all1 (λ constraint, recurse constraint actual) constraints.

(** The test of two names with arguments; [None] when it does not decide. *)
Definition assignable_arguments (expected actual : TypeInfo.t) : st TypeInfo.Heap (option bool) :=
  match SplitGenericName (TypeInfo.name expected), SplitGenericName (TypeInfo.name actual) with
  | Some (expectedBase, expectedArgs), Some (actualBase, actualArgs) =>
      if length expectedArgs =? length actualArgs then
        e ← StringToType fuel expectedBase;
        a ← StringToType fuel actualBase;
        if decide (TypeInfo.name e = TypeInfo.name a) then
          st_some (all2 (λ e a, e ← StringToType fuel e; a ← StringToType fuel a; recurse e a)
                     expectedArgs actualArgs)
        else mret None
      else mret None
  | _, _ => mret None
  end.

Definition assignable_element (expected actual : TypeInfo.t) : st TypeInfo.Heap bool :=
  match TypeInfo.element expected, TypeInfo.element actual with
  | Some l, Some k => e ← TypeInfo.read_element l; a ← TypeInfo.read_element k; recurse e a
  | _, _ => mret true
  end.

Definition assignable_map (expected actual : TypeInfo.t) : st TypeInfo.Heap bool :=
  match TypeInfo.key expected, TypeInfo.key actual, TypeInfo.element expected, TypeInfo.element actual with
  | Some ek, Some ak, Some _, Some _ =>
      b ← recurse ek ak; if b : bool then assignable_element expected actual else mret false
  | _, _, _, _ => mret true
  end.

Definition assignable_effects (expected actual : option (gset string)) : bool :=
  match expected, actual with
  | Some e, Some a => bool_decide (a ⊆ e)
  | e, a => bool_decide (default ∅ e = ∅) && bool_decide (default ∅ a = ∅)
  end.

Definition assignable_context (e a : string * TypeInfo.t) : st TypeInfo.Heap bool :=
  if decide (e.1 = a.1) then recurse e.2 a.2 else mret false.

Definition assignable_function (expected actual : TypeInfo.t) : st TypeInfo.Heap bool :=
  match TypeInfo.ret expected, TypeInfo.ret actual with
  | Some er, Some ar =>
      if negb ((TypeInfo.minArity expected =? TypeInfo.minArity actual)
               && bool_decide (TypeInfo.variadic expected = TypeInfo.variadic actual)
               && bool_decide (TypeInfo.isComptime expected = TypeInfo.isComptime actual)
               && (length (TypeInfo.params expected) =? length (TypeInfo.params actual)))
      then mret false else
      v ← (if TypeInfo.variadic expected
           then pointers2 recurse (TypeInfo.variadicParam expected) (TypeInfo.variadicParam actual)
           else mret true);
      if negb v then mret false else
      c ← pointers2 (λ l k, if length l =? length k then all2 assignable_context l k else mret false)
            (TypeInfo.contextRequirements expected) (TypeInfo.contextRequirements actual);
      if negb c then mret false else
      if negb (assignable_effects (TypeInfo.raisedEffects expected) (TypeInfo.raisedEffects actual))
      then mret false else
      p ← all2 (λ e a, recurse a e) (TypeInfo.params expected) (TypeInfo.params actual);
      if negb p then mret false else recurse er ar
  | None, None => mret true
  | _, _ => mret false
  end.

(** Whether the structure names the interface, or another instance of it. *)
Definition explicitly_implements (expectedName : string) (implemented : option (gset string)) : bool :=
  match implemented with
  | None => false
  | Some names =>
      bool_decide (expectedName ∈ names)
      || match SplitGenericName expectedName with
         | Some (expectedBase, _) =>
             existsb (λ n, match SplitGenericName n with
                           | Some (implementedBase, _) => bool_decide (implementedBase = expectedBase)
                           | None => false
                           end) (elements names)
         | None => false
         end
  end.

Definition assignable_interface (expected actual : TypeInfo.t) : st TypeInfo.Heap bool :=
  match TypeInfo.kind actual, TypeInfo.methods expected, TypeInfo.methods actual with
  | TypeKind.Struct, Some ems, Some ams =>
      if explicitly_implements (TypeInfo.name expected) (TypeInfo.implementedInterfaces actual) then
        all1 (λ nm : string * TypeInfo.t,
                match ams !! nm.1 with Some am => recurse nm.2 am | None => mret false end)
          (map_to_list ems)
      else mret false
  | _, _, _ => mret false
  end.

(** What follows the test of the names: the kinds that are left. *)
Definition assignable_kinds (expected actual : TypeInfo.t) : st TypeInfo.Heap bool :=
  if TypeInfo.has_element expected && bool_decide (TypeInfo.kind expected = TypeInfo.kind actual)
  then assignable_element expected actual
  else if TypeInfo.has_kind TypeKind.Map expected && TypeInfo.has_kind TypeKind.Map actual
  then assignable_map expected actual
  else if TypeInfo.has_kind TypeKind.Float expected && TypeInfo.has_kind TypeKind.Int actual
  then mret true
  else match TypeInfo.kind expected with
       | TypeKind.TypeParameter => satisfies actual (TypeInfo.constraints expected)
       | TypeKind.Function_ =>
           if TypeInfo.has_kind TypeKind.Function_ actual
           then assignable_function expected actual else mret false
       | TypeKind.Interface => assignable_interface expected actual
       | _ => mret false
       end.

Definition assignable_step (expected actual : TypeInfo.t) : st TypeInfo.Heap bool :=
  if TypeInfo.has_kind TypeKind.Unknown expected || TypeInfo.has_kind TypeKind.Unknown actual then mret true
  else if TypeInfo.has_kind TypeKind.Any expected || TypeInfo.has_kind TypeKind.Any actual then mret true
  else if TypeInfo.has_kind TypeKind.Never actual then mret true
  else
    b ← equals fuel expected actual;
    if b : bool then mret true else
    r ← (if (TypeInfo.has_kind TypeKind.Struct expected || TypeInfo.has_kind TypeKind.Enum expected
             || TypeInfo.has_kind TypeKind.Interface expected || TypeInfo.has_kind TypeKind.Actor expected)
            && bool_decide (TypeInfo.kind expected = TypeInfo.kind actual)
         then assignable_arguments expected actual
         else mret None);
    match r with
    | Some b => mret b
    | None => assignable_kinds expected actual
    end.
End assignable.

Fixpoint IsAssignable (fuel : nat) (expected actual : TypeInfo.t) : st TypeInfo.Heap bool :=
  match fuel with
  | 0 => st_diverge
  | S fuel => assignable_step (IsAssignable fuel) fuel expected actual
  end.
Definition Satisfies (fuel : nat) : TypeInfo.t → list TypeInfo.t → st TypeInfo.Heap bool :=
  satisfies (IsAssignable fuel).

(** ** [Bind]

    The bindings are a reference parameter: what an attempt that fails has bound
    stays bound. *)

Definition Bindings : Type := gmap string TypeInfo.t.
Definition binding : Type := Bindings → st TypeInfo.Heap (bool * Bindings).

Section bind.
Context (recurse : TypeInfo.t → TypeInfo.t → binding) (fuel : nat).

Fixpoint bind_all {A} (f : A → A → binding) (l k : list A) : binding := λ b,
  match l, k with
  | x :: l, y :: k => '(ok, b) ← f x y b; if ok : bool then bind_all f l k b else mret (false, b)
  | _, _ => mret (true, b)
  end.

Definition bind_parameter (expected actual : TypeInfo.t) : binding := λ b,
  ok ← Satisfies fuel actual (TypeInfo.constraints expected);
  if negb ok then mret (false, b) else
  match b !! TypeInfo.name expected with
  | Some bound => ok ← equals fuel bound actual; mret (ok, b)
  | None => mret (true, <[TypeInfo.name expected := actual]> b)
  end.

Definition bind_context (e a : string * TypeInfo.t) : binding := λ b,
  if decide (e.1 = a.1) then recurse e.2 a.2 b else mret (false, b).

(** The comparison of two pointers and, of what they point to, [f]. *)
Definition bind_pointers {A} (f : A → A → binding) (p q : option A) : binding := λ b,
  match p, q with
  | Some x, Some y => f x y b
  | None, None => mret (true, b)
  | _, _ => mret (false, b)
  end.

Definition bind_function (expected actual er ar : TypeInfo.t) : binding := λ b,
  if negb ((TypeInfo.minArity expected =? TypeInfo.minArity actual)
           && bool_decide (TypeInfo.isComptime expected = TypeInfo.isComptime actual))
  then mret (false, b) else
  '(ok, b) ← bind_pointers
               (λ l k b, if length l =? length k then bind_all bind_context l k b else mret (false, b))
               (TypeInfo.contextRequirements expected) (TypeInfo.contextRequirements actual) b;
  if negb ok then mret (false, b) else
  if negb (bool_decide (TypeInfo.variadic expected = TypeInfo.variadic actual)
           && (length (TypeInfo.params expected) =? length (TypeInfo.params actual)))
  then mret (false, b) else
  '(ok, b) ← bind_all recurse (TypeInfo.params expected) (TypeInfo.params actual) b;
  if negb ok then mret (false, b) else
  match TypeInfo.variadic expected, TypeInfo.variadicParam expected, TypeInfo.variadicParam actual with
  | true, None, None => recurse er ar b
  | true, Some _, None | true, None, Some _ => mret (false, b)
  | v, ev, av =>
      '(ok, b) ← match v, ev, av with
                 | true, Some ev, Some av => recurse ev av b
                 | _, _, _ => mret (true, b)
                 end;
      if negb ok then mret (false, b) else
      if negb (bool_decide (TypeInfo.raisedEffects expected = TypeInfo.raisedEffects actual))
      then mret (false, b) else
      recurse er ar b
  end.

Definition bind_step (expected actual : TypeInfo.t) : binding := λ b,
  if TypeInfo.has_kind TypeKind.Unknown expected || TypeInfo.has_kind TypeKind.Unknown actual
  then mret (true, b)
  else if TypeInfo.has_kind TypeKind.TypeParameter expected then bind_parameter expected actual b
  else
    let assignable := ok ← IsAssignable fuel expected actual; mret (ok, b) in
    if TypeInfo.has_element expected && bool_decide (TypeInfo.kind expected = TypeInfo.kind actual) then
      match TypeInfo.element expected, TypeInfo.element actual with
      | Some l, Some k =>
          e ← TypeInfo.read_element l; a ← TypeInfo.read_element k; recurse e a b
      | _, _ => assignable
      end
    else if TypeInfo.has_kind TypeKind.Function_ expected && TypeInfo.has_kind TypeKind.Function_ actual then
      match TypeInfo.ret expected, TypeInfo.ret actual with
      | Some er, Some ar => bind_function expected actual er ar b
      | _, _ => assignable
      end
    else assignable.
End bind.

Fixpoint Bind (fuel : nat) (expected actual : TypeInfo.t) : binding := λ b,
  match fuel with
  | 0 => st_diverge
  | S fuel => bind_step (Bind fuel) fuel expected actual b
  end.

(** ** Modules, effects and transactions *)

Definition IsModuleMemberExported (moduleName member : string) : bool :=
  match exports (m_modules sa) !! moduleName with
  | Some names => bool_decide (member ∈ names)
  | None => true
  end.

(** A member with a type of its own. *)
Definition member_type (moduleName member : string) : option TypeInfo.t :=
  members ← memberTypes (m_modules sa) !! moduleName; members !! member.

Definition ResolveModuleMemberType (moduleName member : string) : option TypeInfo.t :=
  if negb (IsModuleMemberExported moduleName member) then None
  else first_some [member_type moduleName member;
                   actors (m_types sa) !! (moduleName +:+ "." +:+ member);
                   effects (m_types sa) !! (moduleName +:+ "." +:+ member)].

Definition ModuleDefinesMember (moduleName member : string) : bool :=
  let qualified := moduleName +:+ "." +:+ member in
  bool_decide (is_Some (first_some
    [member_type moduleName member;
     structs (m_types sa) !! qualified; enumConstructors (m_types sa) !! qualified;
     enums (m_types sa) !! qualified; interfaces (m_types sa) !! qualified;
     actors (m_types sa) !! qualified; effects (m_types sa) !! qualified])).

(** A name in one of the sets of a stack. *)
Definition in_stack (name : string) (stack : list (gset string)) : bool :=
  existsb (λ scope : gset string, bool_decide (name ∈ scope)) stack.

Definition CurrentContextAllowsEffect (effectName : string) : bool :=
  in_stack effectName (handledEffects (active sa)) || in_stack effectName (activeRaisedEffects (active sa)).
Definition HasActiveTransaction (regionName : string) : bool :=
  in_stack regionName (activeTransactions (active sa)).
Definition IsCurrentActorState (name : string) : bool :=
  in_stack name (actorStateScopes (active sa)).

(** [std::ranges::sort], [std::unique] and [erase] *)
Definition sort_unique (l : list string) : list string :=
  merge_sort (λ a b, Is_true (String.leb a b)) (remove_dups l).

Definition has_operation (operationName : string) (effectType : TypeInfo.t) : bool :=
  match TypeInfo.methods effectType with
  | Some ms => bool_decide (is_Some (ms !! operationName))
  | None => false
  end.
Definition effect_has_operation (operationName effectName : string) : bool :=
  match effects (m_types sa) !! effectName with
  | Some effectType => has_operation operationName effectType
  | None => false
  end.

Definition ResolveAccessibleEffectsForOperation (operationName : string) : list string :=
  let collectMatches scopeStack :=
    filter (λ n, Is_true (effect_has_operation operationName n)) (concat (elements <$> scopeStack)) in
  sort_unique (collectMatches (activeRaisedEffects (active sa)) ++ collectMatches (handledEffects (active sa))).

(** ** Lists of parameters *)

Definition HasVariadicParameter (params : list Parameter_) : bool := existsb isVariadic params.
Definition FindVariadicParameter (params : list Parameter_) : option Parameter_ :=
  head (filter (λ p, Is_true (isVariadic p)) params).

Definition BuildFixedParamTypes (fuel : nat) (params : list Parameter_) : st TypeInfo.Heap (list TypeInfo.t) :=
  mapM (λ p, StringToType fuel (p_typeName p)) (filter (λ p, Is_true (negb (isVariadic p))) params).

Definition BuildVariadicParamType (fuel : nat) (params : list Parameter_) :
    st TypeInfo.Heap (option TypeInfo.t) :=
  match FindVariadicParameter params with
  | Some p => st_some (StringToType fuel (p_typeName p))
  | None => mret None
  end.

Definition DeclaredParameterType (fuel : nat) (param : Parameter_) : st TypeInfo.Heap TypeInfo.t :=
  baseType ← StringToType fuel (p_typeName param);
  if isVariadic param then TypeInfo.ArrayOf baseType else mret baseType.
End analyzer.

(** The loop of [ValidateParameterList]. *)
Fixpoint validate_parameters (seenDefault seenVariadic : bool) (params : list Parameter_) (ownerName : string) :
    result unit :=
  match params with
  | [] => Ok tt
  | param :: params =>
      if isVariadic param then
        if seenVariadic
        then Throw (runtime_error ("Only one variadic parameter is allowed in " +:+ ownerName))
        else if hasDefaultValue param
        then Throw (runtime_error ("Variadic parameter cannot have a default value in " +:+ ownerName))
        else if seenDefault
        then Throw (runtime_error ("Variadic parameters cannot follow default parameters in " +:+ ownerName))
        else validate_parameters seenDefault true params ownerName
      else if seenVariadic
      then Throw (runtime_error ("Variadic parameter must be the final parameter in " +:+ ownerName))
      else if hasDefaultValue param then validate_parameters true seenVariadic params ownerName
      else if seenDefault
      then Throw (runtime_error ("Parameters with defaults must be trailing in " +:+ ownerName))
      else validate_parameters seenDefault seenVariadic params ownerName
  end.
Definition ValidateParameterList : list Parameter_ → string → result unit := validate_parameters false false.

End TypeResolver.
