(* ===== verification/Builtins.v ===== *)
(** * The built-in modules

    [src/builtin/BuiltinModuleRegistry.h]: the table of the modules of the standard
    library with the types of their functions, the lookups in it, and the functions
    that enter it in the registries of the analyzer ([RegisterBuiltinTypes],
    [RegisterBuiltinModules] of [CoreAnalysisSemanticAnalyzer.cpp]). *)

From S2P Require Import Prelude Ast TypeInfo SemanticState TypeResolver.

Module Builtins.
Import SemanticAnalyzer TypeResolver.

Record FunctionSpec := MkFunctionSpec {
  f_name : string;
  f_params : list string;
  f_result : string;
  f_variadic : bool;
  f_variadicParam : option string;
}.

Record ModuleSpec := MkModuleSpec {
  m_name : string;
  functions : list FunctionSpec;
  sourcePath : string;
  auraSource : string;
  installNativeRuntime : bool;
  publicImport : bool;
}.

(** ** The table *)

(** Lines 32 to 165: from [std.memory] to [std.array]. *)
Definition modules_1 : list ModuleSpec :=
  [MkModuleSpec "std.memory"
       [MkFunctionSpec "active_allocations" [] "int" false None;
        MkFunctionSpec "active_bytes" [] "int" false None;
        MkFunctionSpec "total_allocations" [] "int" false None;
        MkFunctionSpec "total_bytes" [] "int" false None;
        MkFunctionSpec "deep_size" ["any"] "int" false None;
        MkFunctionSpec "is_send" ["any"] "bool" false None;
        MkFunctionSpec "is_sync" ["any"] "bool" false None;
        MkFunctionSpec "assert_send" ["any"] "bool" false None;
        MkFunctionSpec "assert_sync" ["any"] "bool" false None;
        MkFunctionSpec "assert_no_leaks" [] "bool" false None;
        MkFunctionSpec "alloc" ["int"] "ptr<any>" false None;
        MkFunctionSpec "free" ["any"] "void" false None]
       "" "" false false;
   MkModuleSpec "std.memory_native"
       [MkFunctionSpec "active_allocations" [] "int" false None;
        MkFunctionSpec "active_bytes" [] "int" false None;
        MkFunctionSpec "total_allocations" [] "int" false None;
        MkFunctionSpec "total_bytes" [] "int" false None;
        MkFunctionSpec "deep_size" ["any"] "int" false None;
        MkFunctionSpec "is_send" ["any"] "bool" false None;
        MkFunctionSpec "is_sync" ["any"] "bool" false None;
        MkFunctionSpec "assert_send" ["any"] "bool" false None;
        MkFunctionSpec "assert_sync" ["any"] "bool" false None;
        MkFunctionSpec "assert_no_leaks" [] "bool" false None;
        MkFunctionSpec "alloc" ["int"] "ptr<any>" false None;
        MkFunctionSpec "free" ["any"] "void" false None]
       "" "" true false;
   MkModuleSpec "std.core"
       [MkFunctionSpec "len" ["[any]"] "int" false None;
        MkFunctionSpec "max" ["any"; "any"] "any" false None;
        MkFunctionSpec "min" ["any"; "any"] "any" false None;
        MkFunctionSpec "abs" ["any"] "any" false None;
        MkFunctionSpec "sort" ["[any]"] "[any]" false None;
        MkFunctionSpec "push" ["[any]"; "any"] "[any]" false None;
        MkFunctionSpec "pop" ["[any]"] "any" false None;
        MkFunctionSpec "remove" ["[any]"; "any"] "[any]" false None;
        MkFunctionSpec "remove_at" ["[any]"; "int"] "[any]" false None;
        MkFunctionSpec "concat" ["string"; "string"] "string" false None;
        MkFunctionSpec "contains" ["string"; "string"] "bool" false None;
        MkFunctionSpec "to_string" ["any"] "string" false None;
        MkFunctionSpec "to_int" ["any"] "int" false None;
        MkFunctionSpec "to_float" ["any"] "float" false None;
        MkFunctionSpec "to_bool" ["any"] "bool" false None;
        MkFunctionSpec "clamp" ["any"; "any"; "any"] "any" false None]
       "stdlib/std/core.aura" "" false true;
   MkModuleSpec "std.core_native"
       [MkFunctionSpec "len" ["[any]"] "int" false None;
        MkFunctionSpec "max" ["any"; "any"] "any" false None;
        MkFunctionSpec "min" ["any"; "any"] "any" false None;
        MkFunctionSpec "abs" ["any"] "any" false None;
        MkFunctionSpec "sort" ["[any]"] "[any]" false None;
        MkFunctionSpec "push" ["[any]"; "any"] "[any]" false None;
        MkFunctionSpec "pop" ["[any]"] "any" false None;
        MkFunctionSpec "remove" ["[any]"; "any"] "[any]" false None;
        MkFunctionSpec "remove_at" ["[any]"; "int"] "[any]" false None;
        MkFunctionSpec "concat" ["string"; "string"] "string" false None;
        MkFunctionSpec "contains" ["string"; "string"] "bool" false None;
        MkFunctionSpec "to_string" ["any"] "string" false None;
        MkFunctionSpec "to_int" ["any"] "int" false None;
        MkFunctionSpec "to_float" ["any"] "float" false None;
        MkFunctionSpec "to_bool" ["any"] "bool" false None;
        MkFunctionSpec "clamp" ["any"; "any"; "any"] "any" false None]
       "" "" true false;
   MkModuleSpec "std.io"
       [MkFunctionSpec "print" [] "void" true (Some "any");
        MkFunctionSpec "println" [] "void" true (Some "any");
        MkFunctionSpec "printf" ["string"] "void" true (Some "any");
        MkFunctionSpec "read" [] "string" false None;
        MkFunctionSpec "readln" [] "string" false None;
        MkFunctionSpec "read_file" ["string"] "string" false None]
       "stdlib/std/io.aura" "" false true;
   MkModuleSpec "std.io_native"
       [MkFunctionSpec "print" ["[any]"] "void" false None;
        MkFunctionSpec "println" ["[any]"] "void" false None;
        MkFunctionSpec "printf" ["string"; "[any]"] "void" false None;
        MkFunctionSpec "read" [] "string" false None;
        MkFunctionSpec "readln" [] "string" false None;
        MkFunctionSpec "read_file" ["string"] "string" false None]
       "" "" true false;
   MkModuleSpec "std.math"
       [MkFunctionSpec "max" ["any"; "any"] "any" false None;
        MkFunctionSpec "min" ["any"; "any"] "any" false None;
        MkFunctionSpec "abs" ["any"] "any" false None;
        MkFunctionSpec "clamp" ["any"; "any"; "any"] "any" false None]
       "stdlib/std/math.aura" "" false true;
   MkModuleSpec "std.array"
       [MkFunctionSpec "len" ["[any]"] "int" false None;
        MkFunctionSpec "sort" ["[any]"] "[any]" false None;
        MkFunctionSpec "push" ["[any]"; "any"] "[any]" false None;
        MkFunctionSpec "pop" ["[any]"] "any" false None;
        MkFunctionSpec "remove" ["[any]"; "any"] "[any]" false None;
        MkFunctionSpec "remove_at" ["[any]"; "int"] "[any]" false None]
       "stdlib/std/array.aura" "" false true].

(** Lines 166 to 297: from [std.map] to [std.sync]. *)
Definition modules_2 : list ModuleSpec :=
  [MkModuleSpec "std.map"
       [MkFunctionSpec "new" [] "map<any,any>" false None;
        MkFunctionSpec "len" ["map<any,any>"] "int" false None;
        MkFunctionSpec "has" ["map<any,any>"; "any"] "bool" false None;
        MkFunctionSpec "delete" ["map<any,any>"; "any"] "bool" false None;
        MkFunctionSpec "keys" ["map<any,any>"] "[any]" false None;
        MkFunctionSpec "values" ["map<any,any>"] "[any]" false None]
       "stdlib/std/map.aura" "" false true;
   MkModuleSpec "std.map_native"
       [MkFunctionSpec "new" [] "map<any,any>" false None;
        MkFunctionSpec "len" ["map<any,any>"] "int" false None;
        MkFunctionSpec "has" ["map<any,any>"; "any"] "bool" false None;
        MkFunctionSpec "delete" ["map<any,any>"; "any"] "bool" false None;
        MkFunctionSpec "keys" ["map<any,any>"] "[any]" false None;
        MkFunctionSpec "values" ["map<any,any>"] "[any]" false None]
       "" "" true false;
   MkModuleSpec "std.base64"
       [MkFunctionSpec "try_url_decode" ["string"] "[any]" false None]
       "stdlib/std/base64.aura" "" false true;
   MkModuleSpec "std.base64_native"
       [MkFunctionSpec "try_url_decode" ["string"] "[any]" false None]
       "" "" true false;
   MkModuleSpec "std.crypto"
       [MkFunctionSpec "hmac_sha256_base64url" ["string"; "string"] "string" false None;
        MkFunctionSpec "constant_time_equal" ["string"; "string"] "bool" false None]
       "stdlib/std/crypto.aura" "" false true;
   MkModuleSpec "std.crypto_native"
       [MkFunctionSpec "hmac_sha256_base64url" ["string"; "string"] "string" false None;
        MkFunctionSpec "constant_time_equal" ["string"; "string"] "bool" false None]
       "" "" true false;
   MkModuleSpec "std.text"
       [MkFunctionSpec "len" ["string"] "int" false None;
        MkFunctionSpec "concat" ["string"; "string"] "string" false None;
        MkFunctionSpec "contains" ["string"; "string"] "bool" false None;
        MkFunctionSpec "starts_with" ["string"; "string"] "bool" false None;
        MkFunctionSpec "index_of" ["string"; "string"] "int" false None;
        MkFunctionSpec "slice" ["string"; "int"; "int"] "string" false None;
        MkFunctionSpec "split" ["string"; "string"] "[string]" false None;
        MkFunctionSpec "to_string" ["any"] "string" false None;
        MkFunctionSpec "to_int" ["any"] "int" false None;
        MkFunctionSpec "to_float" ["any"] "float" false None;
        MkFunctionSpec "to_bool" ["any"] "bool" false None]
       "stdlib/std/text.aura" "" false true;
   MkModuleSpec "std.text_native"
       [MkFunctionSpec "len" ["string"] "int" false None;
        MkFunctionSpec "concat" ["string"; "string"] "string" false None;
        MkFunctionSpec "contains" ["string"; "string"] "bool" false None;
        MkFunctionSpec "starts_with" ["string"; "string"] "bool" false None;
        MkFunctionSpec "index_of" ["string"; "string"] "int" false None;
        MkFunctionSpec "slice" ["string"; "int"; "int"] "string" false None;
        MkFunctionSpec "split" ["string"; "string"] "[string]" false None;
        MkFunctionSpec "to_string" ["any"] "string" false None;
        MkFunctionSpec "to_int" ["any"] "int" false None;
        MkFunctionSpec "to_float" ["any"] "float" false None;
        MkFunctionSpec "to_bool" ["any"] "bool" false None]
       "" "" true false;
   MkModuleSpec "std.log"
       [MkFunctionSpec "Error" [] "void" true (Some "any");
        MkFunctionSpec "Warn" [] "void" true (Some "any");
        MkFunctionSpec "Info" [] "void" true (Some "any");
        MkFunctionSpec "Fatal" [] "void" true (Some "any")]
       "stdlib/std/log.aura" "" false true;
   MkModuleSpec "std.log_native"
       [MkFunctionSpec "Error" ["[any]"] "void" false None;
        MkFunctionSpec "Warn" ["[any]"] "void" false None;
        MkFunctionSpec "Info" ["[any]"] "void" false None;
        MkFunctionSpec "Fatal" ["[any]"] "void" false None]
       "" "" true false;
   MkModuleSpec "std.sync"
       [MkFunctionSpec "current_thread" [] "std.sync.Thread" false None;
        MkFunctionSpec "spawn" [] "std.sync.Thread" false None;
        MkFunctionSpec "mutex" [] "std.sync.Mutex" false None;
        MkFunctionSpec "lock" ["std.sync.Thread"; "std.sync.Mutex"] "bool" false None;
        MkFunctionSpec "unlock" ["std.sync.Thread"; "std.sync.Mutex"] "bool" false None;
        MkFunctionSpec "join" ["std.sync.Thread"; "std.sync.Thread"] "bool" false None;
        MkFunctionSpec "finish" ["std.sync.Thread"] "bool" false None]
       "stdlib/std/sync.aura" "" false true].

(** Lines 298 to 425: from [std.sync_native] to [std.context_native]. *)
Definition modules_3 : list ModuleSpec :=
  [MkModuleSpec "std.sync_native"
       [MkFunctionSpec "current_thread" [] "std.sync.Thread" false None;
        MkFunctionSpec "spawn" [] "std.sync.Thread" false None;
        MkFunctionSpec "mutex" [] "std.sync.Mutex" false None;
        MkFunctionSpec "lock" ["std.sync.Thread"; "std.sync.Mutex"] "bool" false None;
        MkFunctionSpec "unlock" ["std.sync.Thread"; "std.sync.Mutex"] "bool" false None;
        MkFunctionSpec "would_deadlock" ["std.sync.Thread"; "std.sync.Mutex"] "bool" false None;
        MkFunctionSpec "assert_no_deadlock" [] "bool" false None;
        MkFunctionSpec "join" ["std.sync.Thread"; "std.sync.Thread"] "bool" false None;
        MkFunctionSpec "finish" ["std.sync.Thread"] "bool" false None;
        MkFunctionSpec "is_locked" ["std.sync.Mutex"] "bool" false None;
        MkFunctionSpec "owner_id" ["std.sync.Mutex"] "std.sync.Thread" false None;
        MkFunctionSpec "thread_id" ["std.sync.Thread"] "int" false None;
        MkFunctionSpec "thread_count" [] "int" false None;
        MkFunctionSpec "mutex_count" [] "int" false None;
        MkFunctionSpec "wait_edge_count" [] "int" false None]
       "" "" true false;
   MkModuleSpec "std.task"
       [MkFunctionSpec "spawn" ["any"] "task<any>" true (Some "any");
        MkFunctionSpec "join" ["task<any>"] "any" false None;
        MkFunctionSpec "join_result" ["task<any>"] "std.result.Result<any, string>" false None;
        MkFunctionSpec "cancel" ["task<any>"] "bool" false None;
        MkFunctionSpec "is_done" ["task<any>"] "bool" false None]
       "stdlib/std/task.aura" "" false true;
   MkModuleSpec "std.option"
       []
       "stdlib/std/option.aura" "" false true;
   MkModuleSpec "std.result"
       []
       "stdlib/std/result.aura" "" false true;
   MkModuleSpec "std.task_native"
       [MkFunctionSpec "go_call" ["any"] "task<any>" true (Some "any");
        MkFunctionSpec "join" ["task<any>"] "any" false None;
        MkFunctionSpec "join_result" ["task<any>"] "std.result.Result<any, string>" false None;
        MkFunctionSpec "cancel" ["task<any>"] "bool" false None;
        MkFunctionSpec "is_done" ["task<any>"] "bool" false None]
       "" "" true false;
   MkModuleSpec "std.channel"
       [MkFunctionSpec "make" ["int"] "channel<any>" false None;
        MkFunctionSpec "send" ["channel<any>"; "any"] "bool" false None;
        MkFunctionSpec "recv" ["channel<any>"] "std.option.Option<any>" false None;
        MkFunctionSpec "close" ["channel<any>"] "bool" false None]
       "stdlib/std/channel.aura" "" false true;
   MkModuleSpec "std.channel_native"
       [MkFunctionSpec "make" ["int"] "channel<any>" false None;
        MkFunctionSpec "send" ["channel<any>"; "any"] "bool" false None;
        MkFunctionSpec "recv" ["channel<any>"] "std.option.Option<any>" false None;
        MkFunctionSpec "close" ["channel<any>"] "bool" false None]
       "" "" true false;
   MkModuleSpec "std.concurrent.waitgroup"
       [MkFunctionSpec "new" [] "std.concurrent.waitgroup.WaitGroup" false None;
        MkFunctionSpec "add" ["std.concurrent.waitgroup.WaitGroup"; "task<void>"] "void" false None;
        MkFunctionSpec "spawn" ["std.concurrent.waitgroup.WaitGroup"; "any"] "task<void>" true (Some "any");
        MkFunctionSpec "count" ["std.concurrent.waitgroup.WaitGroup"] "int" false None;
        MkFunctionSpec "wait" ["std.concurrent.waitgroup.WaitGroup"] "void" false None]
       "stdlib/std/concurrent/waitgroup.aura" "" false true;
   MkModuleSpec "std.concurrent.errorgroup"
       [MkFunctionSpec "with_context" ["std.context.Context"] "std.concurrent.errorgroup.ErrorGroup" false None;
        MkFunctionSpec "background" [] "std.concurrent.errorgroup.ErrorGroup" false None;
        MkFunctionSpec "group_context" ["std.concurrent.errorgroup.ErrorGroup"] "std.context.Context" false None;
        MkFunctionSpec "add" ["std.concurrent.errorgroup.ErrorGroup"; "task<void>"] "void" false None;
        MkFunctionSpec "spawn" ["std.concurrent.errorgroup.ErrorGroup"; "any"] "task<void>" true (Some "any");
        MkFunctionSpec "count" ["std.concurrent.errorgroup.ErrorGroup"] "int" false None;
        MkFunctionSpec "wait" ["std.concurrent.errorgroup.ErrorGroup"] "std.option.Option<string>" false None]
       "stdlib/std/concurrent/errorgroup.aura" "" false true;
   MkModuleSpec "std.context"
       [MkFunctionSpec "background" [] "std.context.Context" false None;
        MkFunctionSpec "with_cancel" ["std.context.Context"] "std.context.Context" false None;
        MkFunctionSpec "cancel" ["std.context.Context"] "bool" false None;
        MkFunctionSpec "is_cancelled" ["std.context.Context"] "bool" false None]
       "stdlib/std/context.aura" "" false true;
   MkModuleSpec "std.context_native"
       [MkFunctionSpec "background" [] "std.context.Context" false None;
        MkFunctionSpec "with_cancel" ["std.context.Context"] "std.context.Context" false None;
        MkFunctionSpec "cancel" ["std.context.Context"] "bool" false None;
        MkFunctionSpec "is_cancelled" ["std.context.Context"] "bool" false None]
       "" "" true false].

(** Lines 426 to 537: from [std.env] to [std.mysql_native]. *)
Definition modules_4 : list ModuleSpec :=
  [MkModuleSpec "std.env"
       [MkFunctionSpec "get" ["string"] "string" false None;
        MkFunctionSpec "get_or" ["string"; "string"] "string" false None;
        MkFunctionSpec "has" ["string"] "bool" false None]
       "stdlib/std/env.aura" "" false true;
   MkModuleSpec "std.env_native"
       [MkFunctionSpec "get" ["string"] "string" false None;
        MkFunctionSpec "has" ["string"] "bool" false None]
       "" "" true false;
   MkModuleSpec "std.net"
       [MkFunctionSpec "listen" ["string"; "int"] "std.net.Listener" false None;
        MkFunctionSpec "accept" ["std.net.Listener"] "std.net.Connection" false None;
        MkFunctionSpec "read" ["std.net.Connection"; "int"] "string" false None;
        MkFunctionSpec "write" ["std.net.Connection"; "string"] "int" false None;
        MkFunctionSpec "close" ["any"] "bool" false None;
        MkFunctionSpec "local_port" ["any"] "int" false None;
        MkFunctionSpec "set_nodelay" ["std.net.Connection"; "bool"] "bool" false None;
        MkFunctionSpec "set_read_timeout" ["std.net.Connection"; "int"] "bool" false None;
        MkFunctionSpec "set_write_timeout" ["std.net.Connection"; "int"] "bool" false None]
       "stdlib/std/net.aura" "" false true;
   MkModuleSpec "std.net_native"
       [MkFunctionSpec "listen" ["string"; "int"] "std.net.Listener" false None;
        MkFunctionSpec "accept" ["std.net.Listener"] "std.net.Connection" false None;
        MkFunctionSpec "read" ["std.net.Connection"; "int"] "string" false None;
        MkFunctionSpec "write" ["std.net.Connection"; "string"] "int" false None;
        MkFunctionSpec "close" ["any"] "bool" false None;
        MkFunctionSpec "local_port" ["any"] "int" false None;
        MkFunctionSpec "set_nodelay" ["std.net.Connection"; "bool"] "bool" false None;
        MkFunctionSpec "set_read_timeout" ["std.net.Connection"; "int"] "bool" false None;
        MkFunctionSpec "set_write_timeout" ["std.net.Connection"; "int"] "bool" false None]
       "" "" true false;
   MkModuleSpec "std.mysql"
       [MkFunctionSpec "open" ["string"] "std.mysql.Connection" false None;
        MkFunctionSpec "open_pool" ["string"; "int"] "std.mysql.Pool" false None;
        MkFunctionSpec "close" ["any"] "bool" false None;
        MkFunctionSpec "ping" ["any"] "bool" false None;
        MkFunctionSpec "begin" ["std.mysql.Connection"] "bool" false None;
        MkFunctionSpec "commit" ["std.mysql.Connection"] "bool" false None;
        MkFunctionSpec "rollback" ["std.mysql.Connection"] "bool" false None;
        MkFunctionSpec "exec" ["any"; "string"] "std.mysql.Result" false None;
        MkFunctionSpec "query" ["any"; "string"] "std.mysql.Result" false None;
        MkFunctionSpec "prepare" ["any"; "string"] "std.mysql.Statement" false None;
        MkFunctionSpec "bind" ["std.mysql.Statement"; "[any]"] "std.mysql.Statement" false None;
        MkFunctionSpec "execute" ["std.mysql.Statement"] "std.mysql.Result" false None;
        MkFunctionSpec "fetch_one" ["std.mysql.Result"] "std.mysql.Row" false None;
        MkFunctionSpec "fetch_all" ["std.mysql.Result"] "[std.mysql.Row]" false None;
        MkFunctionSpec "next" ["std.mysql.Result"] "std.mysql.Row" false None;
        MkFunctionSpec "affected_rows" ["std.mysql.Result"] "int" false None;
        MkFunctionSpec "last_insert_id" ["std.mysql.Result"] "int" false None;
        MkFunctionSpec "column_count" ["std.mysql.Result"] "int" false None;
        MkFunctionSpec "column_name" ["std.mysql.Result"; "int"] "string" false None;
        MkFunctionSpec "get" ["std.mysql.Row"; "string"] "any" false None;
        MkFunctionSpec "get_at" ["std.mysql.Row"; "int"] "any" false None;
        MkFunctionSpec "is_null" ["any"] "bool" false None;
        MkFunctionSpec "error" ["any"] "string" false None]
       "" "" false false;
   MkModuleSpec "std.mysql_native"
       [MkFunctionSpec "open" ["string"] "std.mysql.Connection" false None;
        MkFunctionSpec "open_pool" ["string"; "int"] "std.mysql.Pool" false None;
        MkFunctionSpec "close" ["any"] "bool" false None;
        MkFunctionSpec "ping" ["any"] "bool" false None;
        MkFunctionSpec "begin" ["std.mysql.Connection"] "bool" false None;
        MkFunctionSpec "commit" ["std.mysql.Connection"] "bool" false None;
        MkFunctionSpec "rollback" ["std.mysql.Connection"] "bool" false None;
        MkFunctionSpec "with_tx" ["std.mysql.Connection"; "any"] "any" false None;
        MkFunctionSpec "exec" ["any"; "string"] "std.mysql.Result" false None;
        MkFunctionSpec "query" ["any"; "string"] "std.mysql.Result" false None;
        MkFunctionSpec "prepare" ["any"; "string"] "std.mysql.Statement" false None;
        MkFunctionSpec "bind" ["std.mysql.Statement"; "[any]"] "std.mysql.Statement" false None;
        MkFunctionSpec "execute" ["std.mysql.Statement"] "std.mysql.Result" false None;
        MkFunctionSpec "fetch_one" ["std.mysql.Result"] "std.mysql.Row" false None;
        MkFunctionSpec "fetch_all" ["std.mysql.Result"] "[std.mysql.Row]" false None;
        MkFunctionSpec "next" ["std.mysql.Result"] "std.mysql.Row" false None;
        MkFunctionSpec "affected_rows" ["std.mysql.Result"] "int" false None;
        MkFunctionSpec "last_insert_id" ["std.mysql.Result"] "int" false None;
        MkFunctionSpec "column_count" ["std.mysql.Result"] "int" false None;
        MkFunctionSpec "column_name" ["std.mysql.Result"; "int"] "string" false None;
        MkFunctionSpec "get" ["std.mysql.Row"; "string"] "any" false None;
        MkFunctionSpec "get_at" ["std.mysql.Row"; "int"] "any" false None;
        MkFunctionSpec "is_null" ["any"] "bool" false None;
        MkFunctionSpec "error" ["any"] "string" false None]
       "" "" true false].

(** Lines 538 to 668: from [std.db.mysql] to [std.http.middleware]. *)
Definition modules_5 : list ModuleSpec :=
  [MkModuleSpec "std.db.mysql"
       [MkFunctionSpec "open" ["string"] "std.mysql.Connection" false None;
        MkFunctionSpec "open_pool" ["string"; "int"] "std.mysql.Pool" false None;
        MkFunctionSpec "close" ["any"] "bool" false None;
        MkFunctionSpec "ping" ["any"] "bool" false None;
        MkFunctionSpec "begin" ["std.mysql.Connection"] "bool" false None;
        MkFunctionSpec "commit" ["std.mysql.Connection"] "bool" false None;
        MkFunctionSpec "rollback" ["std.mysql.Connection"] "bool" false None;
        MkFunctionSpec "with_tx" ["any"; "any"] "any" false None;
        MkFunctionSpec "query_one" ["any"; "string"; "[any]"] "std.mysql.Row" false None;
        MkFunctionSpec "query_all" ["any"; "string"; "[any]"] "[std.mysql.Row]" false None;
        MkFunctionSpec "exec_stmt" ["any"; "string"; "[any]"] "std.mysql.Result" false None;
        MkFunctionSpec "affected_rows" ["std.mysql.Result"] "int" false None;
        MkFunctionSpec "last_insert_id" ["std.mysql.Result"] "int" false None;
        MkFunctionSpec "get" ["std.mysql.Row"; "string"] "any" false None;
        MkFunctionSpec "get_at" ["std.mysql.Row"; "int"] "any" false None;
        MkFunctionSpec "is_null" ["any"] "bool" false None;
        MkFunctionSpec "error" ["any"] "string" false None]
       "stdlib/std/db/mysql.aura" "" false true;
   MkModuleSpec "std.config"
       [MkFunctionSpec "get" ["string"] "string" false None;
        MkFunctionSpec "require" ["string"] "string" false None;
        MkFunctionSpec "get_int" ["string"; "int"] "int" false None;
        MkFunctionSpec "get_bool" ["string"; "bool"] "bool" false None;
        MkFunctionSpec "get_duration_ms" ["string"; "int"] "int" false None]
       "stdlib/std/config.aura" "" false true;
   MkModuleSpec "std.outbox"
       [MkFunctionSpec "ensure_schema" ["std.mysql.Connection"] "bool" false None;
        MkFunctionSpec "enqueue_json" ["std.mysql.Connection"; "string"; "string"; "string"] "int" false None;
        MkFunctionSpec "enqueue_text" ["std.mysql.Connection"; "string"; "string"; "string"] "int" false None;
        MkFunctionSpec "with_tx" ["std.mysql.Connection"; "any"] "any" false None;
        MkFunctionSpec "run_rabbitmq_relay" ["std.mysql.Connection"; "std.mq.rabbitmq.Connection"; "int"] "int" false None;
        MkFunctionSpec "run_rabbitmq_relay_forever" ["std.mysql.Connection"; "std.mq.rabbitmq.Connection"; "int"; "int"] "void" false None;
        MkFunctionSpec "mark_failed" ["std.mysql.Connection"; "int"; "string"] "bool" false None]
       "stdlib/std/outbox.aura" "" false true;
   MkModuleSpec "std.backoff"
       [MkFunctionSpec "constant" ["int"] "std.backoff.Policy" false None;
        MkFunctionSpec "exponential" ["int"; "int"; "int"] "std.backoff.Policy" false None;
        MkFunctionSpec "delay" ["std.backoff.Policy"; "int"] "int" false None;
        MkFunctionSpec "sleep" ["std.backoff.Policy"; "int"] "void" false None;
        MkFunctionSpec "retry" ["int"; "std.backoff.Policy"; "any"] "bool" false None]
       "stdlib/std/backoff.aura" "" false true;
   MkModuleSpec "std.uuid"
       [MkFunctionSpec "new_v4" [] "string" false None]
       "stdlib/std/uuid.aura" "" false true;
   MkModuleSpec "std.uuid_native"
       [MkFunctionSpec "new_v4" [] "string" false None]
       "" "" true false;
   MkModuleSpec "std.http.raw"
       [MkFunctionSpec "parse_request" ["string"] "[string]" false None;
        MkFunctionSpec "read_request" ["std.net.Connection"] "[string]" false None;
        MkFunctionSpec "try_read_request" ["std.net.Connection"] "[string]" false None;
        MkFunctionSpec "response" ["int"; "string"; "string"] "string" false None;
        MkFunctionSpec "response_with_headers" ["int"; "string"; "string"; "[string]"] "string" false None;
        MkFunctionSpec "text" ["int"; "string"] "string" false None;
        MkFunctionSpec "json" ["int"; "string"] "string" false None;
        MkFunctionSpec "ok_json" ["string"] "string" false None;
        MkFunctionSpec "redirect" ["string"] "string" false None]
       "stdlib/std/http/raw.aura" "" false true;
   MkModuleSpec "std.http.raw_native"
       [MkFunctionSpec "parse_request" ["string"] "[string]" false None;
        MkFunctionSpec "read_request" ["std.net.Connection"] "[string]" false None;
        MkFunctionSpec "try_read_request" ["std.net.Connection"] "[string]" false None]
       "" "" true false;
   MkModuleSpec "std.http.server_native"
       [MkFunctionSpec "serve_once" ["string"; "int"; "([string]) -> string"] "void" false None;
        MkFunctionSpec "serve_n" ["string"; "int"; "int"; "([string]) -> string"] "void" false None;
        MkFunctionSpec "listen_and_serve" ["string"; "int"; "([string]) -> string"] "void" false None;
        MkFunctionSpec "listen_and_serve_with" ["string"; "int"; "([string]) -> string"; "std.context.Context"; "int"; "int"] "void" false None;
        MkFunctionSpec "method" ["std.http.server.Request"] "string" false None;
        MkFunctionSpec "path" ["std.http.server.Request"] "string" false None;
        MkFunctionSpec "body" ["std.http.server.Request"] "string" false None;
        MkFunctionSpec "header" ["std.http.server.Request"; "string"] "string" false None]
       "" "" true false;
   MkModuleSpec "std.http.server"
       []
       "stdlib/std/http/server.aura" "" false true;
   MkModuleSpec "std.http.middleware"
       []
       "stdlib/std/http/middleware.aura" "" false true].

(** Lines 669 to 791: from [std.time] to [std.mq.rabbitmq_native]. *)
Definition modules_6 : list ModuleSpec :=
  [MkModuleSpec "std.time"
       [MkFunctionSpec "now_millis" [] "int" false None;
        MkFunctionSpec "monotonic_nanos" [] "int" false None;
        MkFunctionSpec "sleep" ["int"] "void" false None]
       "stdlib/std/time.aura" "" false true;
   MkModuleSpec "std.time_native"
       [MkFunctionSpec "now_millis" [] "int" false None;
        MkFunctionSpec "monotonic_nanos" [] "int" false None;
        MkFunctionSpec "sleep" ["int"] "void" false None]
       "" "" true false;
   MkModuleSpec "std.json"
       [MkFunctionSpec "is_valid" ["string"] "bool" false None;
        MkFunctionSpec "compact" ["string"] "string" false None;
        MkFunctionSpec "quote" ["string"] "string" false None;
        MkFunctionSpec "encode_string" ["string"] "string" false None;
        MkFunctionSpec "encode_number" ["any"] "string" false None;
        MkFunctionSpec "encode_bool" ["bool"] "string" false None;
        MkFunctionSpec "null_literal" [] "string" false None;
        MkFunctionSpec "field" ["string"; "string"] "string" false None;
        MkFunctionSpec "array" ["[string]"] "string" false None;
        MkFunctionSpec "object" ["[string]"] "string" false None;
        MkFunctionSpec "has_key" ["string"; "string"] "bool" false None;
        MkFunctionSpec "get_string" ["string"; "string"] "string" false None;
        MkFunctionSpec "get_int" ["string"; "string"] "int" false None;
        MkFunctionSpec "get_bool" ["string"; "string"] "bool" false None]
       "stdlib/std/json.aura" "" false true;
   MkModuleSpec "std.json_native"
       [MkFunctionSpec "is_valid" ["string"] "bool" false None;
        MkFunctionSpec "compact" ["string"] "string" false None;
        MkFunctionSpec "quote" ["string"] "string" false None;
        MkFunctionSpec "encode_number" ["any"] "string" false None;
        MkFunctionSpec "has_key" ["string"; "string"] "bool" false None;
        MkFunctionSpec "get_string" ["string"; "string"] "string" false None;
        MkFunctionSpec "get_int" ["string"; "string"] "int" false None;
        MkFunctionSpec "get_bool" ["string"; "string"] "bool" false None]
       "" "" true false;
   MkModuleSpec "std.service"
       [MkFunctionSpec "store_new" [] "std.service.Store" false None;
        MkFunctionSpec "store_get" ["std.service.Store"; "string"] "string" false None;
        MkFunctionSpec "store_set" ["std.service.Store"; "string"; "string"] "int" false None;
        MkFunctionSpec "store_delete" ["std.service.Store"; "string"] "bool" false None;
        MkFunctionSpec "store_len" ["std.service.Store"] "int" false None;
        MkFunctionSpec "shutdown_context" [] "std.context.Context" false None;
        MkFunctionSpec "port_or" ["int"] "int" false None;
        MkFunctionSpec "host_or" ["string"] "string" false None]
       "stdlib/std/service.aura" "" false true;
   MkModuleSpec "std.service_native"
       [MkFunctionSpec "store_new" [] "std.service.Store" false None;
        MkFunctionSpec "store_get" ["std.service.Store"; "string"] "string" false None;
        MkFunctionSpec "store_set" ["std.service.Store"; "string"; "string"] "int" false None;
        MkFunctionSpec "store_delete" ["std.service.Store"; "string"] "bool" false None;
        MkFunctionSpec "store_len" ["std.service.Store"] "int" false None;
        MkFunctionSpec "shutdown_context" [] "std.context.Context" false None]
       "" "" true false;
   MkModuleSpec "std.mq.rabbitmq"
       [MkFunctionSpec "open" ["string"] "std.mq.rabbitmq.Connection" false None;
        MkFunctionSpec "close" ["std.mq.rabbitmq.Connection"] "bool" false None;
        MkFunctionSpec "declare_queue" ["std.mq.rabbitmq.Connection"; "string"] "bool" false None;
        MkFunctionSpec "publish" ["std.mq.rabbitmq.Connection"; "string"; "string"] "bool" false None;
        MkFunctionSpec "publish_json" ["std.mq.rabbitmq.Connection"; "string"; "string"] "bool" false None;
        MkFunctionSpec "consume" ["std.mq.rabbitmq.Connection"; "string"; "any"] "void" false None;
        MkFunctionSpec "consume_with_options" ["std.mq.rabbitmq.Connection"; "string"; "int"; "any"] "void" false None;
        MkFunctionSpec "ack" ["std.mq.rabbitmq.Message"] "bool" false None;
        MkFunctionSpec "nack" ["std.mq.rabbitmq.Message"; "bool"] "bool" false None;
        MkFunctionSpec "body" ["std.mq.rabbitmq.Message"] "string" false None;
        MkFunctionSpec "delivery_tag" ["std.mq.rabbitmq.Message"] "int" false None;
        MkFunctionSpec "routing_key" ["std.mq.rabbitmq.Message"] "string" false None;
        MkFunctionSpec "error" ["std.mq.rabbitmq.Connection"] "string" false None]
       "stdlib/std/mq/rabbitmq.aura" "" false true;
   MkModuleSpec "std.mq.rabbitmq_native"
       [MkFunctionSpec "open" ["string"] "std.mq.rabbitmq.Connection" false None;
        MkFunctionSpec "close" ["std.mq.rabbitmq.Connection"] "bool" false None;
        MkFunctionSpec "declare_queue" ["std.mq.rabbitmq.Connection"; "string"] "bool" false None;
        MkFunctionSpec "publish" ["std.mq.rabbitmq.Connection"; "string"; "string"] "bool" false None;
        MkFunctionSpec "consume" ["std.mq.rabbitmq.Connection"; "string"; "any"] "void" false None;
        MkFunctionSpec "consume_with_options" ["std.mq.rabbitmq.Connection"; "string"; "int"; "any"] "void" false None;
        MkFunctionSpec "ack" ["std.mq.rabbitmq.Message"] "bool" false None;
        MkFunctionSpec "nack" ["std.mq.rabbitmq.Message"; "bool"] "bool" false None;
        MkFunctionSpec "body" ["std.mq.rabbitmq.Message"] "string" false None;
        MkFunctionSpec "delivery_tag" ["std.mq.rabbitmq.Message"] "int" false None;
        MkFunctionSpec "routing_key" ["std.mq.rabbitmq.Message"] "string" false None;
        MkFunctionSpec "error" ["std.mq.rabbitmq.Connection"] "string" false None]
       "" "" true false].

Definition BuiltinModules : list ModuleSpec :=
  modules_1 ++ modules_2 ++ modules_3 ++ modules_4 ++ modules_5 ++ modules_6.

(** ** Lookups *)

Definition FindBuiltinModule (qualifiedName : string) : option ModuleSpec :=
  list_find (λ m, m_name m = qualifiedName) BuiltinModules ≫= λ im, Some im.2.
Definition IsBuiltinModuleQualifiedName (qualifiedName : string) : bool :=
  bool_decide (is_Some (FindBuiltinModule qualifiedName)).
Definition IsBuiltinModulePublic (qualifiedName : string) : bool :=
  match FindBuiltinModule qualifiedName with Some m => publicImport m | None => false end.

(** ** Registration *)

(** The calls of the lambda [registerOpaqueStruct]. *)
Definition opaque_structs : list string :=
  ["std.context.Context"; "std.sync.Thread"; "std.sync.Mutex"; "std.service.Store";
   "std.net.Listener"; "std.net.Connection"; "std.mysql.Connection"; "std.mysql.Pool";
   "std.mysql.Statement"; "std.mysql.Result"; "std.mysql.Row"; "std.mq.rabbitmq.Connection";
   "std.mq.rabbitmq.Message"; "std.http.server.Request"; "std.concurrent.waitgroup.WaitGroup";
   "std.concurrent.errorgroup.ErrorGroup"].

Definition RegisterBuiltinTypes : M unit :=
  _ ← on_types (λ r, set_structs
        (foldl (λ m n, <[n := TypeInfo.Struct n ∅ ∅ ∅]> m) (structs r) opaque_structs) r);
  on_types (λ r, set_genericEnums
    (<["std.result.Result" := MkGenericNominal [Ast.MkTypeParameter "T" []; Ast.MkTypeParameter "E" []]
                                (TypeInfo.Enum "std.result.Result")]>
       (<["std.option.Option" := MkGenericNominal [Ast.MkTypeParameter "T" []]
                                   (TypeInfo.Enum "std.option.Option")]> (genericEnums r))) r).

Definition register_member (moduleName member : string) (type : TypeInfo.t) (r : ModuleRegistry) :
    ModuleRegistry :=
  MkModules (<[moduleName := <[member := type]> (default ∅ (memberTypes r !! moduleName))]> (memberTypes r))
    (exports r).
Definition register_export (moduleName member : string) (r : ModuleRegistry) : ModuleRegistry :=
  MkModules (memberTypes r)
    (<[moduleName := {[member]} ∪ default ∅ (exports r !! moduleName)]> (exports r)).

(** The body of the loop over the functions of a module. *)
Definition register_function (fuel : nat) (moduleName : string) (function : FunctionSpec) : M unit :=
  params ← const (λ sa, mapM (StringToType sa fuel) (f_params function));
  variadicParam ← const (λ sa, match f_variadicParam function with
                               | Some v => st_some (StringToType sa fuel v)
                               | None => mret None
                               end);
  r ← const (λ sa, StringToType sa fuel (f_result function));
  _ ← on_modules (register_member moduleName (f_name function)
        (TypeInfo.Function_ params r None ∅ [] false (f_variadic function) variadicParam));
  on_modules (register_export moduleName (f_name function)).

Definition RegisterBuiltinModules (fuel : nat) : M unit :=
  for_each (λ m,
    if negb (installNativeRuntime m)
       && (negb (bool_decide (sourcePath m = "")) || negb (bool_decide (auraSource m = "")))
    then mret tt
    else for_each (register_function fuel (m_name m)) (functions m)) BuiltinModules.

End Builtins.
