(* ===== verification/SemanticCalls.v ===== *)
(** * The semantic analyzer: operators, assignments and calls

    The member functions of [SemanticAnalyzer] that the visitors call:
    [CoreAnalysisSemanticAnalyzer.cpp] (operators, references, assignments) and
    [CallAnalyzer] of [CallAndTypesSemanticAnalyzer.cpp].

    [Accept] is [node->Accept( *this)], the visit of a node; [fuel] that of the
    functions on types. *)

From S2P Require Import Prelude Ast TypeNames TypeInfo SemanticState TypeResolver.
From stdpp Require Import pretty.

Module SemanticCalls.
Import Ast TypeNames SemanticAnalyzer TypeResolver.

(** [std::to_string] of a [size_t] *)
Definition to_string (n : nat) : string := pretty (N.of_nat n).

Definition throw_if (b : bool) (message : string) : M unit := if b then error message else mret tt.

(** Two nodes by what they are. *)
Definition is_identifier (n : Node) : option string :=
  match n with IdentifierNode name => Some name | _ => None end.
Definition is_member (n : Node) : option (Node * string) :=
  match n with MemberAccessNode object member => Some (object, member) | _ => None end.

(** ** Binary operators *)

Definition IsTruthyBinaryOp (op : string) : bool :=
  bool_decide (op ∈ ["and"; "or"; "&&"; "||"]).

(** The lambda [resolveNumericType]. *)
Definition resolveNumericType (type : TypeInfo.t) : TypeInfo.t :=
  if TypeInfo.has_kind TypeKind.TypeParameter type then
    default type (first_some ((λ c, if TypeInfo.has_kind TypeKind.Float c then Some TypeInfo.Float
                                    else if TypeInfo.has_kind TypeKind.Int c then Some TypeInfo.Int
                                    else None) <$> TypeInfo.constraints type))
  else type.

Definition may_be_bool (type : TypeInfo.t) : bool :=
  TypeInfo.has_kind TypeKind.Unknown type || TypeInfo.has_kind TypeKind.Bool type
  || TypeInfo.has_kind TypeKind.Never type.

Definition arithmetic_ops : list string := ["+"; "-"; "*"; "/"; "div"; "mod"].
Definition comparison_ops : list string := ["=="; "!="; "<"; ">"; "<="; ">="].

(** The type that [AnalyzeTypeForBinaryOp] leaves in [m_lastType]. *)
Definition binary_type (op : string) (lhs rhs : TypeInfo.t) : result TypeInfo.t :=
  let effectiveLhs := resolveNumericType lhs in
  let effectiveRhs := resolveNumericType rhs in
  if IsTruthyBinaryOp op then
    if negb (may_be_bool lhs) || negb (may_be_bool rhs)
    then Throw (runtime_error "Logical operations require boolean operands")
    else Ok TypeInfo.Bool
  else if negb (bool_decide (op ∈ arithmetic_ops ++ comparison_ops))
  then Throw (runtime_error ("Unsupported binary operator for codegen: " +:+ op))
  else if bool_decide (op ∈ arithmetic_ops) then
    if bool_decide (op = "+") && (TypeInfo.has_kind TypeKind.String_ effectiveLhs
                                  || TypeInfo.has_kind TypeKind.String_ effectiveRhs)
    then Ok TypeInfo.String_
    else if negb (TypeInfo.IsPrimitiveNumeric effectiveLhs) || negb (TypeInfo.IsPrimitiveNumeric effectiveRhs)
    then Throw (runtime_error "Arithmetic requires numeric types")
    else if TypeInfo.has_kind TypeKind.Float effectiveLhs || TypeInfo.has_kind TypeKind.Float effectiveRhs then
      if bool_decide (op = "div") || bool_decide (op = "mod")
      then Throw (runtime_error "Integer arithmetic requires integer operands")
      else Ok TypeInfo.Float
    else Ok TypeInfo.Int
  else Ok TypeInfo.Bool.

Definition AnalyzeTypeForBinaryOp (op : string) (lhs rhs : TypeInfo.t) : M unit :=
  type ← lift (binary_type op lhs rhs); set_last type.

Section calls.
Context (Accept : Node → M unit) (fuel : nat).

Definition accept (n : Node) : M unit := if is_null n then mret tt else Accept n.

(** [AnalyzeExpr] and [VisitAndGet] *)
Definition AnalyzeExpr (node : Node) : M TypeInfo.t :=
  if is_null node then mret TypeInfo.Unknown else _ ← Accept node; gets lastType.
Definition VisitAndGet : Node → M TypeInfo.t := AnalyzeExpr.

(** The [const] functions of types, in the monad of the analyzer. *)
Definition to_type (name : string) : M TypeInfo.t := const (λ sa, StringToType sa fuel name).
Definition assignable (expected actual : TypeInfo.t) : M bool :=
  const (λ sa, IsAssignable sa fuel expected actual).
Definition same_type (a b : TypeInfo.t) : M bool := const (λ _, equals fuel a b).
Definition substitute_parameters (type : TypeInfo.t) (bindings : Bindings) : M TypeInfo.t :=
  const (λ _, TypeInfo.Substitute fuel bindings type).
Definition bind_generic (expected actual : TypeInfo.t) (bindings : Bindings) : M (bool * Bindings) :=
  const (λ sa, Bind sa fuel expected actual bindings).
(** What a pointer to an element points to, [Unknown] for a null one. *)
Definition element_type (type : TypeInfo.t) : M TypeInfo.t :=
  match TypeInfo.element type with
  | Some l => const (λ _, TypeInfo.read_element l)
  | None => mret TypeInfo.Unknown
  end.

Definition ValidateSendable (type : TypeInfo.t) (what : string) : M unit :=
  h ← gets heap;
  b ← lift (TypeInfo.IsSendable fuel h type);
  throw_if (negb b) (what +:+ " must be sendable").

Definition RejectRuntimeOnlyInComptime (what : string) : M unit :=
  d ← gets (λ s, comptimeDepth (active s));
  throw_if (0 <? d)%Z ("Runtime-only operation is not allowed in comptime context: " +:+ what).

(** ** References *)

Definition AddressableValueType (node : Node) : M TypeInfo.t :=
  match node with
  | NullNode => mret TypeInfo.Unknown
  | IdentifierNode name => Resolve name
  | MemberAccessNode _ _ | IndexNode _ _ => VisitAndGet node
  | _ => error "ref argument must be an assignable expression"
  end.

Definition IsConstAddressable (node : Node) : M bool :=
  match is_identifier node with
  | Some name => ResolveIsConst name
  | None => mret false
  end.

Definition ValidateRefArgument (expectedRef : TypeInfo.t) (arg : Node) (argIndex : nat) : M unit :=
  _ ← throw_if (negb (TypeInfo.has_kind TypeKind.Ref expectedRef))
        "Internal semantic analyzer error: expected ref type";
  c ← IsConstAddressable arg;
  _ ← throw_if c "Cannot pass const value as ref argument";
  actualType ← AddressableValueType arg;
  expectedType ← element_type expectedRef;
  b ← assignable expectedType actualType;
  throw_if (negb b) ("Argument " +:+ to_string (argIndex + 1) +:+ " mismatch: expected ref-compatible value").

(** ** Assignments *)

(** [EnsureDeclared] and whether it throws. *)
Definition declared (name : string) : M bool :=
  gets (λ s, match EnvironmentState.EnsureDeclared name (environment s) with
             | Throw (runtime_error _) => false | _ => true end).

(** The assignment to a name that is not declared: a field of [self]. *)
Definition assign_self_field (name : string) (hasIndex : bool) (valueType : TypeInfo.t) : M unit :=
  f ← gets (λ s, EnvironmentState.self_field name (environment s));
  match f, hasIndex with
  | Some expectedType, false =>
      b ← assignable expectedType valueType;
      _ ← throw_if (negb b) ("Struct field assignment type mismatch for '" +:+ name +:+ "'");
      set_last expectedType
  | _, _ => error (EnvironmentState.FormatUndefined name)
  end.

Definition assign_variable (name : string) (declaredType valueType : TypeInfo.t) : M unit :=
  s ← st_get;
  _ ← throw_if (bool_decide (name ∈ sharedVariables s) && negb (HasActiveTransaction s name))
        ("Shared variable mutation requires transaction(shared " +:+ name +:+ ")");
  _ ← throw_if ((0 <? actorQueryDepth (active s))%Z && IsCurrentActorState s name)
        "Query methods cannot mutate actor state";
  c ← ResolveIsConst name;
  _ ← throw_if c ("Cannot assign to const variable: " +:+ name);
  b ← assignable declaredType valueType;
  _ ← throw_if (negb b) ("Type mismatch in assignment to '" +:+ name +:+ "'");
  set_last (if TypeInfo.has_kind TypeKind.Unknown declaredType then valueType else declaredType).

Definition assign_map (name : string) (containerType indexType valueType : TypeInfo.t) : M unit :=
  b ← match TypeInfo.key containerType with
      | Some k => if TypeInfo.has_kind TypeKind.Unknown indexType then mret true else assignable k indexType
      | None => mret true
      end;
  _ ← throw_if (negb b) ("Map key type mismatch for assignment: " +:+ name);
  e ← element_type containerType;
  b ← (if TypeInfo.has_kind TypeKind.Unknown e || TypeInfo.has_kind TypeKind.Unknown valueType
       then mret true else assignable e valueType);
  _ ← throw_if (negb b) ("Map value type mismatch for assignment: " +:+ name);
  set_last valueType.

(** The element type of the array becomes the type of the value, for every type
    that shares it; the last type is what the move leaves. *)
Definition assign_array (name : string) (containerType indexType valueType : TypeInfo.t) : M unit :=
  _ ← throw_if (negb (TypeInfo.has_kind TypeKind.Unknown indexType)
                && negb (TypeInfo.IsPrimitiveNumeric indexType))
        ("Index must be a numeric type for assignment: " +:+ name);
  match TypeInfo.has_kind TypeKind.Array containerType, TypeInfo.element containerType,
        TypeInfo.has_kind TypeKind.Unknown valueType with
  | true, Some l, false =>
      _ ← const (λ _, TypeInfo.write_element l valueType);
      c ← ResolveIsConst name;
      _ ← Define name containerType c;
      set_last (TypeInfo.moved_from valueType)
  | _, _, _ => set_last valueType
  end.

Definition AnalyzeAssignment (valueExpr : Node) (name : string) (indexExpr : Node) (hasIndex : bool) : M unit :=
  d ← declared name;
  valueType ← VisitAndGet valueExpr;
  if negb d then assign_self_field name hasIndex valueType else
  declaredType ← Resolve name;
  if negb hasIndex then assign_variable name declaredType valueType else
  indexType ← VisitAndGet indexExpr;
  _ ← throw_if (negb (TypeInfo.has_kind TypeKind.Array declaredType)
                && negb (TypeInfo.has_kind TypeKind.Map declaredType)
                && negb (TypeInfo.has_kind TypeKind.Unknown declaredType))
        ("Indexing requires array or map for assignment: " +:+ name);
  if TypeInfo.has_kind TypeKind.Map declaredType
  then assign_map name declaredType indexType valueType
  else assign_array name declaredType indexType valueType.

(** ** Calls *)

Definition ValidateTypeCompatibility (expected actual : TypeInfo.t) (message : string) : M unit :=
  if TypeInfo.has_kind TypeKind.Unknown actual then mret tt else
  b ← assignable expected actual; throw_if (negb b) message.

(** [ValidateContextRequirements] *)
Definition ValidateContextRequirements (funcType : TypeInfo.t) : M unit :=
  match TypeInfo.contextRequirements funcType with
  | None => mret tt
  | Some l =>
      for_each (λ nt : string * TypeInfo.t,
        actualType ← Resolve nt.1;
        _ ← throw_if (TypeInfo.has_kind TypeKind.Unknown actualType)
              ("Missing context binding '" +:+ nt.1 +:+ "' for call");
        b ← assignable nt.2 actualType;
        throw_if (negb b) ("Context binding '" +:+ nt.1 +:+ "' has incompatible type")) l
  end.

(** The number of arguments that a signature accepts, in its error message. *)
Definition arity_text (lo hi : nat) : string :=
  if lo =? hi then to_string hi else to_string lo +:+ ".." +:+ to_string hi.

(** *** Constructors of structures *)

(** [substr(0, find('<'))] *)
Definition base_name (name : string) : string :=
  match find_string "<" name with Some angle => substr 0 angle name | None => name end.

Fixpoint struct_arguments (params : list (string * TypeInfo.t)) (args : list Node) (bindings : Bindings) :
    M Bindings :=
  match params, args with
  | (fieldName, fieldType) :: params, arg :: args =>
      argType ← VisitAndGet arg;
      '(_, bindings) ← bind_generic fieldType argType bindings;
      expectedFieldType ← substitute_parameters fieldType bindings;
      _ ← ValidateTypeCompatibility expectedFieldType argType
            ("Struct field argument mismatch for '" +:+ fieldName +:+ "'");
      struct_arguments params args bindings
  | _, _ => mret bindings
  end.

(** The lambda [typeToString]. *)
Fixpoint typeToString (n : nat) (h : TypeInfo.Heap) (type : TypeInfo.t) : result string :=
  match n with
  | 0 => Diverge
  | S n =>
      let of_element (before after none : string) : result string :=
        match TypeInfo.element type with
        | Some l => text ← typeToString n h (TypeInfo.deref h l); Ok (before +:+ text +:+ after)
        | None => Ok none
        end in
      match TypeInfo.kind type with
      | TypeKind.Any => Ok "any"
      | TypeKind.Int => Ok "int"
      | TypeKind.Float => Ok "float"
      | TypeKind.String_ => Ok "string"
      | TypeKind.Bool => Ok "bool"
      | TypeKind.Void => Ok "void"
      | TypeKind.Never => Ok "never"
      | TypeKind.Array => of_element "[" "]" "[]"
      | TypeKind.Channel => of_element "channel<" ">" "channel<any>"
      | TypeKind.Pointer => of_element "ptr<" ">" "ptr<any>"
      | TypeKind.Ref => of_element "ref<" ">" "ref<any>"
      | _ => Ok (if decide (TypeInfo.name type = "") then "any" else TypeInfo.name type)
      end
  end.

(** The parts with [", "] between them. *)
Fixpoint join_arguments (l : list string) : string :=
  match l with
  | [] => ""
  | [x] => x
  | x :: l => x +:+ ", " +:+ join_arguments l
  end.

Definition orderedTypeArgs (funcName : string) (bindings : Bindings) : M (list string) :=
  s ← st_get;
  match find_generic s (genericStructs (m_types s)) funcName with
  | Some info =>
      lift (all_results (λ p, typeToString fuel (heap s) (default TypeInfo.Unknown (bindings !! tp_name p)))
              (gn_typeParams info))
  | None => mret []
  end.

Definition AnalyzeStructConstructorCall (funcType : TypeInfo.t) (args : list Node) : M unit :=
  s ← st_get;
  match find_generic s (constructorSignatures (m_types s)) (base_name (TypeInfo.name funcType)) with
  | None => error "Struct metadata is missing"
  | Some signature =>
      let n := length (cs_params signature) in
      _ ← throw_if ((length args <? requiredArity signature) || (n <? length args))
            ("Struct constructor expects " +:+ arity_text (requiredArity signature) n
             +:+ " arguments, but got " +:+ to_string (length args));
      bindings ← struct_arguments (cs_params signature) args ∅;
      if decide (bindings = ∅) then set_last funcType else
      ordered ← orderedTypeArgs (TypeInfo.name funcType) bindings;
      concreteType ← substitute_parameters funcType bindings;
      set_last (match ordered with
                | [] => concreteType
                | _ => TypeInfo.set_name (TypeInfo.name funcType +:+ "<" +:+ join_arguments ordered +:+ ">")
                         concreteType
                end)
  end.

(** *** Constructors of enumerations *)

(** The bindings that the expected type gives. *)
Definition expected_bindings (funcType : TypeInfo.t) : M Bindings :=
  s ← st_get;
  let expected := expectedReturn (active s) in
  match SplitGenericName (TypeInfo.name funcType), SplitGenericName (TypeInfo.name expected) with
  | Some (genericBase, constructorArgs), Some (expectedBase, expectedArgs) =>
      if TypeInfo.has_kind TypeKind.Enum expected && bool_decide (expectedBase = genericBase)
         && (length expectedArgs =? length constructorArgs) then
        match find_generic s (genericEnums (m_types s)) genericBase with
        | Some info =>
            if length (gn_typeParams info) =? length expectedArgs then
              l ← mapM to_type expectedArgs;
              mret (assign_all (zip (tp_name <$> gn_typeParams info) l))
            else mret ∅
        | None => mret ∅
        end
      else mret ∅
  | _, _ => mret ∅
  end.

Fixpoint enum_arguments (types : list TypeInfo.t) (args : list Node) (bindings : Bindings) : M Bindings :=
  match types, args with
  | type :: types, arg :: args =>
      argType ← VisitAndGet arg;
      '(ok, bindings) ← bind_generic type argType bindings;
      _ ← throw_if (negb ok && negb (TypeInfo.has_kind TypeKind.Unknown argType))
            "Enum constructor argument does not satisfy generic constraints";
      expectedType ← substitute_parameters type bindings;
      _ ← ValidateTypeCompatibility expectedType argType "Enum constructor argument mismatch";
      enum_arguments types args bindings
  | _, _ => mret bindings
  end.

(** The name by which a bound type is written. *)
Definition bound_name (boundType : TypeInfo.t) : option string :=
  match TypeInfo.kind boundType with
  | TypeKind.Int => Some "int"
  | TypeKind.Float => Some "float"
  | TypeKind.String_ => Some "string"
  | TypeKind.Bool => Some "bool"
  | _ => if decide (TypeInfo.name boundType = "") then None else Some (TypeInfo.name boundType)
  end.

Definition AnalyzeEnumConstructorCall (funcType : TypeInfo.t) (args : list Node) : M unit :=
  _ ← throw_if (negb (length args =? length (TypeInfo.variantArgs funcType)))
        ("Enum constructor expects " +:+ to_string (length (TypeInfo.variantArgs funcType))
         +:+ " arguments, but got " +:+ to_string (length args));
  bindings ← expected_bindings funcType;
  bindings ← enum_arguments (TypeInfo.variantArgs funcType) args bindings;
  text ← lift (SubstituteTypeString (TypeInfo.name funcType) (omap bound_name bindings));
  type ← to_type text;
  set_last type.

(** *** Calls of functions *)

Definition parameter_type (funcType : TypeInfo.t) (i : nat) : TypeInfo.t :=
  match TypeInfo.params funcType !! i with
  | Some p => p
  | None => if TypeInfo.variadic funcType
            then default TypeInfo.Unknown (TypeInfo.variadicParam funcType) else TypeInfo.Unknown
  end.

Fixpoint function_arguments (funcType : TypeInfo.t) (i : nat) (args : list Node) (bindings : Bindings) :
    M Bindings :=
  match args with
  | [] => mret bindings
  | arg :: args =>
      let expectedType := parameter_type funcType i in
      if TypeInfo.has_kind TypeKind.Ref expectedType then
        _ ← ValidateRefArgument expectedType arg i;
        function_arguments funcType (S i) args bindings
      else
        argType ← VisitAndGet arg;
        '(ok, bindings) ← bind_generic expectedType argType bindings;
        _ ← throw_if (negb ok && negb (TypeInfo.has_kind TypeKind.Unknown argType))
              ("Argument " +:+ to_string (i + 1) +:+ " does not satisfy the required generic type/constraints");
        expectedType ← substitute_parameters expectedType bindings;
        b ← assignable expectedType argType;
        _ ← throw_if (negb b && negb (TypeInfo.has_kind TypeKind.Unknown argType))
              ("Argument " +:+ to_string (i + 1) +:+ " mismatch: expected "
               +:+ to_string (TypeKind.to_int (TypeInfo.kind expectedType)) +:+ ", got "
               +:+ to_string (TypeKind.to_int (TypeInfo.kind argType)));
        function_arguments funcType (S i) args bindings
  end.

Definition AnalyzeFunctionCall (funcType : TypeInfo.t) (args : list Node) : M unit :=
  _ ← ValidateContextRequirements funcType;
  let n := length (TypeInfo.params funcType) in
  _ ← throw_if ((length args <? TypeInfo.minArity funcType)
                || negb (TypeInfo.variadic funcType) && (n <? length args))
        ("Function call expects " +:+ arity_text (TypeInfo.minArity funcType) n
         +:+ " arguments, but got " +:+ to_string (length args));
  bindings ← function_arguments funcType 0 args ∅;
  match TypeInfo.ret funcType with
  | Some r => r ← substitute_parameters r bindings; set_last r
  | None => st_throw (undefined_behaviour "null return type")
  end.

(** *** [CallAnalyzer::Analyze] *)

Definition IsSpawnModuleName (moduleName : string) : bool :=
  bool_decide (moduleName ∈ ["std.task"; "std.concurrent.waitgroup"; "std.concurrent.errorgroup"]).

Definition is_module (name : string) (type : TypeInfo.t) : bool :=
  TypeInfo.has_kind TypeKind.Module_ type && bool_decide (TypeInfo.name type = name).

(** The arguments of [make], [recv] and [join_result]: one, which is visited. *)
Definition one_argument (what : string) (args : list Node) : M unit :=
  match args with
  | [arg] => _ ← VisitAndGet arg; mret tt
  | _ => error (what +:+ " expects exactly one argument")
  end.

Definition spawn_call (moduleName : string) (args : list Node) : M unit :=
  let std_task := bool_decide (moduleName = "std.task") in
  let calleeIndex := if std_task then 0 else 1 in
  match args !! calleeIndex with
  | None => error "spawn expects a callable argument"
  | Some calleeExpr =>
      _ ← throw_if (negb (bool_decide (is_Some (is_identifier calleeExpr)))
                    && negb (bool_decide (is_Some (is_member calleeExpr))))
            "spawn currently supports only named or module-qualified function calls";
      calleeType ← VisitAndGet calleeExpr;
      _ ← match is_member calleeExpr with
          | Some (object, _) =>
              calleeReceiverType ← VisitAndGet object;
              if TypeInfo.has_kind TypeKind.Module_ calleeReceiverType then mret tt
              else ValidateSendable calleeReceiverType "spawn receiver"
          | None => mret tt
          end;
      _ ← for_each (λ arg, a ← VisitAndGet arg; ValidateSendable a "spawn argument")
            (drop (S calleeIndex) args);
      task ← match TypeInfo.has_kind TypeKind.Function_ calleeType, TypeInfo.ret calleeType with
             | true, Some r =>
                 if std_task then mret r else
                 _ ← throw_if (negb (TypeInfo.has_kind TypeKind.Void r)) "spawn requires a callable returning void";
                 mret TypeInfo.Void
             | _, _ => mret (if std_task then TypeInfo.Any else TypeInfo.Void)
             end;
      task ← const (λ _, TypeInfo.TaskOf task);
      set_last task
  end.

(** The calls of members of modules that the analyzer knows; [true] when the
    call is done with. *)
Definition member_call (object : Node) (member : string) (args : list Node) : M bool :=
  receiverType ← VisitAndGet object;
  expected ← gets (λ s, expectedReturn (active s));
  let enum_expected := TypeInfo.has_kind TypeKind.Enum expected in
  if is_module "std.channel" receiverType && bool_decide (member = "make") then
    _ ← one_argument "make" args;
    type ← (if TypeInfo.has_kind TypeKind.Channel expected then mret expected
            else const (λ _, TypeInfo.ChannelOf TypeInfo.Any));
    _ ← set_last type; mret true
  else if is_module "std.channel" receiverType && bool_decide (member = "recv") then
    _ ← one_argument "recv" args;
    if enum_expected then _ ← set_last expected; mret true else mret false
  else if is_module "std.task" receiverType && bool_decide (member = "join_result") then
    _ ← one_argument "join_result" args;
    if enum_expected then _ ← set_last expected; mret true else mret false
  else if TypeInfo.has_kind TypeKind.Module_ receiverType && bool_decide (member = "spawn")
          && IsSpawnModuleName (TypeInfo.name receiverType) then
    _ ← spawn_call (TypeInfo.name receiverType) args; mret true
  else mret false.

Definition IsUnsafeMemoryCall (callee : Node) : M bool :=
  match is_member callee with
  | Some (object, member) =>
      if bool_decide (member = "alloc") || bool_decide (member = "free") then
        objectType ← VisitAndGet object; mret (is_module "std.memory" objectType)
      else mret false
  | None => mret false
  end.

Definition resume_call (args : list Node) : M unit :=
  types ← gets (λ s, resumeTypes (active s));
  match types with
  | [] => error "resume(value) is only available inside an effect handler"
  | expectedType :: _ =>
      match args with
      | [arg] =>
          actualType ← VisitAndGet arg;
          b ← assignable expectedType actualType;
          _ ← throw_if (negb b) "resume(value) type mismatch";
          set_last expectedType
      | _ => error "resume(value) expects exactly one argument"
      end
  end.

(** The call of an operation of one of the effects that are accessible. *)
Definition operation_call (name : string) (args : list Node) (candidates : list string) : M unit :=
  s ← st_get;
  _ ← throw_if (0 <? comptimeDepth (active s))%Z "Effect operations are not allowed in comptime context";
  match candidates with
  | [candidate] =>
      match effects (m_types s) !! candidate with
      | Some effectType =>
          match TypeInfo.methods effectType ≫= lookup name with
          | Some operation =>
              _ ← throw_if (negb (CurrentContextAllowsEffect s (TypeInfo.name effectType)))
                    ("Unhandled effect operation: " +:+ name);
              AnalyzeFunctionCall operation args
          | None => error ("Unknown effect operation: " +:+ name)
          end
      | None => error ("Unknown effect operation: " +:+ name)
      end
  | _ => error ("Ambiguous effect operation: " +:+ name)
  end.

(** The calls of a name that are no calls of a value; [true] when done. *)
Definition named_call (name : string) (args : list Node) : M bool :=
  if decide (name = "resume") then _ ← resume_call args; mret true else
  s ← st_get;
  match ResolveAccessibleEffectsForOperation s name with
  | [] => mret false
  | candidates => _ ← operation_call name args candidates; mret true
  end.

(** The call of a value. *)
Definition value_call (callee : Node) (args : list Node) : M unit :=
  funcType ← VisitAndGet callee;
  depth ← gets (λ s, comptimeDepth (active s));
  match TypeInfo.kind funcType with
  | TypeKind.Unknown =>
      _ ← for_each (λ arg, _ ← VisitAndGet arg; mret tt) args; set_last TypeInfo.Unknown
  | TypeKind.Struct => AnalyzeStructConstructorCall funcType args
  | TypeKind.Actor => _ ← AnalyzeStructConstructorCall funcType args; set_last funcType
  | TypeKind.EnumConstructor => AnalyzeEnumConstructorCall funcType args
  | TypeKind.Function_ =>
      _ ← throw_if ((0 <? depth)%Z && negb (TypeInfo.isComptime funcType))
            "Runtime-only function call is not allowed in comptime context";
      _ ← throw_if ((depth =? 0)%Z && TypeInfo.isComptime funcType)
            "comptime function can only be called from comptime context";
      AnalyzeFunctionCall funcType args
  | _ => error "Target expression is not a function"
  end.

Definition Analyze_call (callee : Node) (args : list Node) : M unit :=
  done ← match is_member callee with
         | Some (object, member) => member_call object member args
         | None => mret false
         end;
  if done : bool then mret tt else
  unsafe_call ← IsUnsafeMemoryCall callee;
  depth ← gets (λ s, unsafeDepth (active s));
  _ ← throw_if (unsafe_call && (depth <=? 0)%Z) "std.memory.alloc/free require an unsafe block";
  done ← match is_identifier callee with
         | Some name => named_call name args
         | None => mret false
         end;
  if done : bool then mret tt else value_call callee args.
End calls.

End SemanticCalls.
