(* ===== verification/SemanticVisitors.v ===== *)
(** * The semantic analyzer: the visitors

    [SemanticAnalyzer::Visit] of every node: [ExpressionsSemanticAnalyzer.cpp],
    [StatementsSemanticAnalyzer.cpp], [DeclarationsSemanticAnalyzer.cpp]; and
    [SemanticAnalyzer::Analyze].  A visitor takes [Accept], the visit of a node,
    and [Visit] ties the knot on fuel. *)

From S2P Require Import Prelude Ast TypeNames TypeInfo SemanticState TypeResolver Builtins SemanticCalls.
From S2P Require Import EffectResume SyncAnalysis.

Module SemanticVisitors.
Import Ast SemanticAnalyzer TypeResolver SemanticCalls.

Section visitors.
Context (Accept : Node → M unit) (fuel : nat).

Abbreviation accept := (accept Accept).
Abbreviation VisitAndGet := (VisitAndGet Accept).
Abbreviation to_type := (to_type fuel).
Abbreviation assignable := (assignable fuel).

Definition element_of (make : TypeInfo.t → st TypeInfo.Heap TypeInfo.t) (type : TypeInfo.t) : M TypeInfo.t :=
  const (λ _, make type).

(** ** Expressions *)

Definition known_but (k : TypeInfo.t → bool) (type : TypeInfo.t) : bool :=
  negb (TypeInfo.has_kind TypeKind.Unknown type) && negb (k type).

Definition Visit_UnaryExpr (op : string) (operand : Node) : M unit :=
  operandType ← VisitAndGet operand;
  depth ← gets (λ s, unsafeDepth (active s));
  if decide (op = "+") then
    _ ← throw_if (known_but TypeInfo.IsPrimitiveNumeric operandType) "Unary '+' requires a numeric operand";
    set_last operandType
  else if decide (op = "-") then
    _ ← throw_if (known_but TypeInfo.IsPrimitiveNumeric operandType) "Unary '-' requires a numeric operand";
    set_last operandType
  else if decide (op = "!" ∨ op = "not") then
    _ ← throw_if (known_but (TypeInfo.has_kind TypeKind.Bool) operandType)
          "Logical negation requires a boolean operand";
    set_last TypeInfo.Bool
  else if decide (op = "*") then
    if TypeInfo.has_kind TypeKind.Ref operandType then e ← element_type operandType; set_last e
    else
      _ ← throw_if (depth <=? 0)%Z "Pointer dereference requires an unsafe block";
      _ ← throw_if (negb (TypeInfo.has_kind TypeKind.Pointer operandType))
            "Dereference requires a pointer operand";
      e ← element_type operandType; set_last e
  else if decide (op = "&") then
    _ ← throw_if (depth <=? 0)%Z "Address-of requires an unsafe block";
    _ ← match is_identifier operand with
        | Some name =>
            c ← ResolveIsConst name; throw_if c ("Cannot take address of const variable: " +:+ name)
        | None => mret tt
        end;
    type ← element_of TypeInfo.PointerTo operandType;
    set_last type
  else error ("Unsupported unary operator for codegen: " +:+ op).

Definition Visit_BinaryExpr (lhs : Node) (op : string) (rhs : Node) : M unit :=
  l ← VisitAndGet lhs; r ← VisitAndGet rhs; AnalyzeTypeForBinaryOp op l r.

Definition Visit_GoExpr (call : Node) : M unit :=
  match call with
  | CallNode callee args =>
      _ ← throw_if (negb (bool_decide (is_Some (is_identifier callee)))
                    && negb (bool_decide (is_Some (is_member callee))))
            "go currently supports only named or module-qualified function calls";
      resultType ← VisitAndGet call;
      _ ← match is_member callee with
          | Some (object, _) =>
              receiverType ← VisitAndGet object;
              if TypeInfo.has_kind TypeKind.Module_ receiverType then mret tt
              else ValidateSendable fuel receiverType "go receiver"
          | None => mret tt
          end;
      _ ← for_each (λ arg, a ← VisitAndGet arg; ValidateSendable fuel a "go argument") args;
      task ← element_of TypeInfo.TaskOf resultType;
      set_last task
  | _ => error "go expects a function call"
  end.

Definition Visit_AwaitExpr (operand : Node) : M unit :=
  operandType ← VisitAndGet operand;
  _ ← throw_if (negb (TypeInfo.has_kind TypeKind.Task operandType)) "await expects a task value";
  e ← element_type operandType;
  set_last e.

(** The test that both assignments make last: an [int] for a [float]. *)
Definition int_for_float (expected actual : TypeInfo.t) : bool :=
  TypeInfo.has_kind TypeKind.Float expected && TypeInfo.has_kind TypeKind.Int actual.

Definition assign_member (object : Node) (member : string) (value : Node) : M unit :=
  objectType ← VisitAndGet object;
  match TypeInfo.has_kind TypeKind.Struct objectType, TypeInfo.fields objectType with
  | true, Some fields =>
      match fields !! member with
      | None => error ("Unknown struct field: " +:+ member)
      | Some expectedType =>
          actualType ← VisitAndGet value;
          same ← (if TypeInfo.has_kind TypeKind.Unknown actualType then mret true
                  else same_type fuel expectedType actualType);
          _ ← throw_if (negb same && negb (int_for_float expectedType actualType))
                ("Struct field assignment type mismatch for '" +:+ member +:+ "'");
          set_last expectedType
      end
  | _, _ => error "Member assignment requires a struct instance"
  end.

Definition assign_dereferenced (target value : Node) : M unit :=
  pointerType ← VisitAndGet target;
  depth ← gets (λ s, unsafeDepth (active s));
  _ ← throw_if (TypeInfo.has_kind TypeKind.Pointer pointerType && (depth <=? 0)%Z)
        "Dereference assignment requires an unsafe block";
  _ ← throw_if ((negb (TypeInfo.has_kind TypeKind.Pointer pointerType)
                 && negb (TypeInfo.has_kind TypeKind.Ref pointerType))
                || negb (bool_decide (is_Some (TypeInfo.element pointerType))))
        "Dereference assignment requires a pointer or ref target";
  actualType ← VisitAndGet value;
  expectedType ← element_type pointerType;
  b ← (if TypeInfo.has_kind TypeKind.Unknown expectedType || TypeInfo.has_kind TypeKind.Unknown actualType
       then mret true else assignable expectedType actualType);
  _ ← throw_if (negb b && negb (int_for_float expectedType actualType)) "Dereference assignment type mismatch";
  set_last expectedType.

Definition Visit_Assignment (name : string) (object : Node) (member : string)
    (dereferenceTarget value index : Node) : M unit :=
  if negb (is_null object) then assign_member object member value
  else if negb (is_null dereferenceTarget) then assign_dereferenced dereferenceTarget value
  else AnalyzeAssignment Accept fuel value name index (negb (is_null index)).

(** [Visit(MemberAccessNode&)] by the type of the object. *)
Definition module_member (moduleName member : string) : M unit :=
  s ← st_get;
  let qualified := moduleName +:+ "." +:+ member in
  let exported := IsModuleMemberExported s moduleName member in
  match ResolveModuleMemberType s moduleName member with
  | Some type => set_last type
  | None =>
      match structs (m_types s) !! qualified, exported with
      | Some type, true => set_last type
      | _, _ =>
          match enumConstructors (m_types s) !! qualified, exported with
          | Some type, true => set_last type
          | _, _ =>
              _ ← throw_if (ModuleDefinesMember s moduleName member)
                    ("Module member is not exported: " +:+ moduleName +:+ "." +:+ member);
              set_last TypeInfo.Unknown
          end
      end
  end.

Definition lookup_member (members : option (gmap string TypeInfo.t)) (member : string) : option TypeInfo.t :=
  members ≫= lookup member.

Definition method_of (what : string) (objectType : TypeInfo.t) (member : string) : M unit :=
  match lookup_member (TypeInfo.methods objectType) member with
  | Some type => set_last type
  | None => error ("Unknown " +:+ what +:+ " member: " +:+ member)
  end.

Definition Visit_MemberAccess (object : Node) (member : string) : M unit :=
  objectType ← VisitAndGet object;
  match TypeInfo.kind objectType with
  | TypeKind.Module_ => module_member (TypeInfo.name objectType) member
  | TypeKind.Struct =>
      match first_some [lookup_member (TypeInfo.fields objectType) member;
                        lookup_member (TypeInfo.methods objectType) member] with
      | Some type => set_last type
      | None => error ("Unknown struct member: " +:+ member)
      end
  | TypeKind.Actor => method_of "actor" objectType member
  | TypeKind.Interface => method_of "interface" objectType member
  | k =>
      if bool_decide (k = TypeKind.Enum) && bool_decide (member = "tag") then set_last TypeInfo.Int
      else error "Member access is only supported on imported modules"
  end.

Definition Visit_Index (container index : Node) : M unit :=
  containerType ← VisitAndGet container;
  idxType ← VisitAndGet index;
  match TypeInfo.kind containerType with
  | TypeKind.Enum =>
      _ ← throw_if (known_but (TypeInfo.has_kind TypeKind.Int) idxType) "Enum argument index must be integer";
      set_last TypeInfo.Unknown
  | TypeKind.Map =>
      b ← match TypeInfo.key containerType with
          | Some k => if TypeInfo.has_kind TypeKind.Unknown idxType then mret true else assignable k idxType
          | None => mret true
          end;
      _ ← throw_if (negb b) "Map key type mismatch";
      e ← element_type containerType; set_last e
  | k =>
      _ ← throw_if (negb (bool_decide (k = TypeKind.Array)) && negb (bool_decide (k = TypeKind.Unknown)))
            "Indexing requires array or map";
      _ ← throw_if (known_but TypeInfo.IsPrimitiveNumeric idxType) "Index must be numeric";
      if bool_decide (k = TypeKind.Array) then e ← element_type containerType; set_last e
      else set_last TypeInfo.Unknown
  end.

(** The loop of [Visit(ArrayLiteralNode&)]. *)
Fixpoint element_kind (elements : list Node) (elemType : TypeInfo.t) : M TypeInfo.t :=
  match elements with
  | [] => mret elemType
  | el :: elements =>
      elType ← VisitAndGet el;
      element_kind elements
        (if TypeInfo.has_kind TypeKind.Unknown elemType then elType
         else if negb (TypeInfo.has_kind TypeKind.Unknown elType)
                 && negb (bool_decide (TypeInfo.kind elType = TypeInfo.kind elemType))
         then TypeInfo.Unknown else elemType)
  end.
Definition Visit_ArrayLiteral (elements : list Node) : M unit :=
  elemType ← element_kind elements TypeInfo.Unknown;
  type ← element_of TypeInfo.ArrayOf elemType;
  set_last type.

Definition map_key_kinds : list TypeKind.t :=
  [TypeKind.String_; TypeKind.Int; TypeKind.Bool; TypeKind.TypeParameter; TypeKind.Unknown].

Definition Visit_MapLiteral (keyTypeName valueTypeName : string) (entries : list (Node * Node)) : M unit :=
  keyType ← to_type keyTypeName;
  valueType ← to_type valueTypeName;
  _ ← throw_if (negb (bool_decide (TypeInfo.kind keyType ∈ map_key_kinds)))
        "Map keys must be string, int, or bool";
  _ ← for_each (λ e : Node * Node,
        actualKeyType ← VisitAndGet e.1;
        b ← (if TypeInfo.has_kind TypeKind.Unknown actualKeyType then mret true
             else assignable keyType actualKeyType);
        _ ← throw_if (negb b) "Map literal key type mismatch";
        actualValueType ← VisitAndGet e.2;
        b ← (if TypeInfo.has_kind TypeKind.Unknown actualValueType then mret true
             else assignable valueType actualValueType);
        throw_if (negb b) "Map literal value type mismatch") entries;
  type ← element_of (TypeInfo.MapOf keyType) valueType;
  set_last type.

(** ** Functions *)

Definition required_arity (params : list Parameter_) : nat :=
  length (filter (λ p, Is_true (negb (isVariadic p) && negb (hasDefaultValue p))) params).

(** The loop over the parameters that visits the default values and counts the
    others. *)
Fixpoint check_defaults (what : string) (params : list Parameter_) (requiredArity : nat) : M nat :=
  match params with
  | [] => mret requiredArity
  | param :: params =>
      if isVariadic param then check_defaults what params requiredArity else
      paramType ← to_type (p_typeName param);
      if hasDefaultValue param then
        defaultType ← VisitAndGet (defaultValue param);
        b ← assignable paramType defaultType;
        _ ← throw_if (negb b) ("Default value type mismatch for " +:+ what +:+ " '" +:+ p_name param +:+ "'");
        check_defaults what params requiredArity
      else check_defaults what params (S requiredArity)
  end.

Definition fixed_types (params : list Parameter_) : M (list TypeInfo.t) :=
  const (λ sa, BuildFixedParamTypes sa fuel params).
Definition variadic_type (params : list Parameter_) : M (option TypeInfo.t) :=
  const (λ sa, BuildVariadicParamType sa fuel params).

Definition context_types (contexts : list ContextBinding) : M (list (string * TypeInfo.t)) :=
  mapM (λ c, a ← to_type (cb_typeName c); mret (cb_name c, a)) contexts.

Definition qualify_all (effectNames : list string) : M (gset string) :=
  s ← st_get; mret (list_to_set (QualifyName s <$> effectNames)).

Definition is_some {A} (o : option A) : bool := bool_decide (is_Some o).

Definition define_parameters (params : list Parameter_) : M unit :=
  for_each (λ p, a ← const (λ sa, DeclaredParameterType sa fuel p); Define (p_name p) a false) params.
Definition define_contexts (contexts : list ContextBinding) : M unit :=
  for_each (λ c, a ← to_type (cb_typeName c); Define (cb_name c) a false) contexts.

(** The loop over type parameters, in a scope of their own. *)
Definition declare_type_parameters (typeParams : list TypeParameterDecl) : M unit :=
  for_each (λ p,
    cs ← mapM to_type (Ast.constraints p);
    on_active (λ a,
      match typeParamScopes a with
      | scope :: l => set_typeParamScopes (<[tp_name p := TypeInfo.TypeParameter (tp_name p) cs]> scope :: l) a
      | [] => a
      end)) typeParams.
Definition with_type_parameters {A} (typeParams : list TypeParameterDecl) (scope : M A) : M A :=
  pushing typeParamScopes set_typeParamScopes ∅ (_ ← declare_type_parameters typeParams; scope).

Definition Visit_Contract (expression : Node) : M unit :=
  if is_null expression then set_last TypeInfo.Void else
  contractType ← VisitAndGet expression;
  _ ← throw_if (negb (may_be_bool contractType)) "Contract expression must be boolean";
  set_last contractType.

Definition define_option (name : string) (type : option TypeInfo.t) : M unit :=
  match type with Some a => Define name a true | None => mret tt end.

Definition ValidateContractList (contracts : list Node) (ensuresResult selfType : option TypeInfo.t) : M unit :=
  match contracts with
  | [] => mret tt
  | _ =>
      in_scope (
        _ ← define_option "result" ensuresResult;
        _ ← define_option "self" selfType;
        for_each accept contracts)
  end.

(** The scope of a function's body, once its type is known. *)
Definition in_function {A} (isComptime : bool) (raised : gset string) (returnType : TypeInfo.t) (scope : M A) : M A :=
  in_scope
    (let function := deeper functionDepth set_functionDepth
       (pushing activeRaisedEffects set_activeRaisedEffects raised (expecting returnType scope)) in
     if isComptime then deeper comptimeDepth set_comptimeDepth function else function).

Definition register_global (name : string) (type : TypeInfo.t) : M unit :=
  s ← st_get;
  if decide (currentModule s = "") then mret tt
  else on_modules (Builtins.register_member (currentModule s) name type).

Definition Visit_FunctionDecl (name returnTypeName : string) (isComptime : bool)
    (typeParams : list TypeParameterDecl) (params : list Parameter_) (contexts : list ContextBinding)
    (raisedEffects : list string) (contracts : list Node) (body : Node) : M unit :=
  with_type_parameters typeParams (
    _ ← lift (ValidateParameterList params ("function '" +:+ name +:+ "'"));
    paramTypes ← fixed_types params;
    variadicParamType ← variadic_type params;
    requiredArity ← check_defaults "parameter" params 0;
    returnType ← to_type returnTypeName;
    contextTypes ← context_types contexts;
    qualifiedEffects ← qualify_all raisedEffects;
    let funcType := TypeInfo.Function_ paramTypes returnType (Some requiredArity) qualifiedEffects
                      contextTypes isComptime (is_some variadicParamType) variadicParamType in
    _ ← Define name funcType false;
    _ ← register_global name funcType;
    in_function isComptime qualifiedEffects returnType (
      _ ← define_parameters params;
      _ ← define_contexts contexts;
      _ ← ValidateContractList contracts (Some returnType) None;
      accept body)).

(** The loop of [InferFunctionBodyReturnType]. *)
Fixpoint infer_return (statements : list Node) (inferred : TypeInfo.t) : M TypeInfo.t :=
  match statements with
  | [] => mret inferred
  | ReturnNode value :: statements =>
      if is_null value then infer_return statements inferred else
      current ← VisitAndGet value;
      if TypeInfo.has_kind TypeKind.Unknown inferred then infer_return statements current else
      b ← same_type fuel inferred current;
      if b : bool then infer_return statements inferred else mret TypeInfo.Unknown
  | _ :: statements => infer_return statements inferred
  end.
Definition InferFunctionBodyReturnType (body : Node) : M TypeInfo.t :=
  match body with
  | BlockNode statements => infer_return statements TypeInfo.Unknown
  | _ => mret TypeInfo.Unknown
  end.

Definition Visit_FunctionExpr (returnTypeName : string) (params : list Parameter_)
    (raisedEffects : list string) (body : Node) : M unit :=
  _ ← lift (ValidateParameterList params "lambda");
  paramTypes ← fixed_types params;
  variadicParamType ← variadic_type params;
  requiredArity ← check_defaults "lambda parameter" params 0;
  returnType ← to_type returnTypeName;
  raised ← qualify_all raisedEffects;
  in_function false raised returnType (
    _ ← define_parameters params;
    _ ← accept body;
    effectiveReturnType ←
      (if negb (TypeInfo.has_kind TypeKind.Unknown returnType) then mret returnType
       else match body with
            | BlockNode _ => InferFunctionBodyReturnType body
            | _ => VisitAndGet body
            end);
    set_last (TypeInfo.Function_ paramTypes effectiveReturnType (Some requiredArity) raised [] false
                (is_some variadicParamType) variadicParamType)).

(** ** Statements *)

Definition Visit_Block (statements : list Node) : M unit := in_scope (for_each accept statements).

(** The name that an export without one exports. *)
Definition declared_name (declaration : Node) : option string :=
  match declaration with
  | VarDeclNode name _ _ _ _ | FunctionDeclNode name _ _ _ _ _ _ _ _ | TypeAliasNode name _ _
  | StructDeclNode name _ _ _ _ _ | EnumDeclNode name _ _ | InterfaceDeclNode name _ _
  | EffectDeclNode name _ | ActorDeclNode name _ _ _ => Some name
  | _ => None
  end.

Definition Visit_ExportDecl (declaration : Node) (exportedName : string) : M unit :=
  s ← st_get;
  _ ← (if decide (currentModule s = "") then mret tt else
       match (if decide (exportedName = "") then declared_name declaration else Some exportedName) with
       | Some name => on_modules (Builtins.register_export (currentModule s) name)
       | None => mret tt
       end);
  if is_null declaration then set_last TypeInfo.Void else Accept declaration.

Definition Visit_IfStatement (condition thenBlock elseBlock : Node) : M unit :=
  _ ← VisitAndGet condition; _ ← accept thenBlock; _ ← accept elseBlock; set_last TypeInfo.Void.
Definition Visit_WhileStatement (condition body : Node) : M unit :=
  _ ← VisitAndGet condition; _ ← accept body; set_last TypeInfo.Void.

Definition Visit_ModuleDecl (qualifiedName : string) : M unit :=
  _ ← st_modify (set_currentModule qualifiedName); set_last TypeInfo.Void.
Definition Visit_ImportDecl (qualifiedName alias : string) : M unit :=
  _ ← Define alias (TypeInfo.Module_ qualifiedName) false; set_last TypeInfo.Void.

Definition Visit_Return (value : Node) : M unit :=
  s ← st_get;
  _ ← throw_if ((functionDepth (active s) =? 0)%Z && (comptimeDepth (active s) =? 0)%Z)
        "return is only allowed inside a function or comptime block";
  actualType ← (if is_null value then mret TypeInfo.Void else VisitAndGet value);
  expected ← gets (λ s, expectedReturn (active s));
  b ← (if TypeInfo.has_kind TypeKind.Unknown expected || TypeInfo.has_kind TypeKind.Unknown actualType
       then mret true else assignable expected actualType);
  _ ← throw_if (negb b) "Return type mismatch";
  set_last TypeInfo.Never.

Definition Visit_Print (value : Node) : M unit :=
  _ ← RejectRuntimeOnlyInComptime "print"; _ ← VisitAndGet value; set_last TypeInfo.Void.

Definition Visit_Unsafe (body : Node) : M unit :=
  _ ← RejectRuntimeOnlyInComptime "unsafe";
  deeper unsafeDepth set_unsafeDepth (_ ← accept body; set_last TypeInfo.Void).

(** The loop over the regions. *)
Definition enter_regions (regions : list Region) : M unit :=
  for_each (λ region,
    _ ← EnsureDeclared (r_name region);
    s ← st_get;
    _ ← throw_if (usesShared region && negb (bool_decide (r_name region ∈ sharedVariables s)))
          ("transaction(shared ...) requires a shared variable: " +:+ r_name region);
    on_active (λ a, match activeTransactions a with
                    | names :: l => set_activeTransactions ({[r_name region]} ∪ names :: l) a
                    | [] => a
                    end)) regions.

Definition Visit_Transaction (regions : list Region) (body : Node) : M unit :=
  _ ← RejectRuntimeOnlyInComptime "transaction";
  _ ← throw_if (bool_decide (length regions = 0)) "transaction requires at least one region";
  pushing activeTransactions set_activeTransactions ∅ (
    _ ← enter_regions regions;
    _ ← accept body;
    set_last TypeInfo.Void).

(** The lambda [resolveHandlerEffects]. *)
Definition resolveHandlerEffects (s : SemanticAnalyzer.t) (operationName : string) : list string :=
  match ResolveAccessibleEffectsForOperation s operationName with
  | [] => sort_unique (fst <$> filter (λ nt : string * TypeInfo.t, Is_true (has_operation operationName nt.2))
                                 (map_to_list (effects (m_types s))))
  | candidates => candidates
  end.

(** The effect of a handler, and the write of its key. *)
Definition handler_effect (operationName : string) : M string :=
  s ← st_get;
  let candidates := resolveHandlerEffects s operationName in
  _ ← throw_if (1 <? length candidates) ("Ambiguous handled effect operation: " +:+ operationName);
  let effectName := default (QualifyName s operationName) (head candidates) in
  _ ← st_modify (λ s, set_effectKeys ((operationName, effectName +:+ "." +:+ operationName) :: effectKeys s) s);
  mret effectName.

(** The first loop over the handlers: the effects that are handled. *)
Definition handled_effects (handlers : list EffectHandlerCase) : M (gset string) :=
  l ← mapM (λ '(MkHandlerCase effectName _ params _),
        _ ← lift (ValidateParameterList params ("effect handler '" +:+ effectName +:+ "'"));
        handler_effect effectName) handlers;
  mret (list_to_set l).

(** The parameters of a handler have the types of the operation's. *)
Fixpoint define_handler_parameters (effectName : string) (operation : TypeInfo.t) (i : nat)
    (params : list Parameter_) : M unit :=
  match params with
  | [] => mret tt
  | param :: params =>
      _ ← (if isVariadic param then
             match TypeInfo.variadicParam operation with
             | Some v => a ← element_of TypeInfo.ArrayOf v; Define (p_name param) a false
             | None => error ("Missing variadic effect parameter type for " +:+ effectName)
             end
           else match TypeInfo.params operation !! i with
                | Some a => Define (p_name param) a false
                | None => st_throw (undefined_behaviour "parameter index")
                end);
      define_handler_parameters effectName operation (S i) params
  end.

Definition visit_handler (handler : EffectHandlerCase) : M unit :=
  let 'MkHandlerCase effectName _ params body := handler in
  effect ← handler_effect effectName;
  s ← st_get;
  match effects (m_types s) !! effect ≫= TypeInfo.methods with
  | None => error ("Unknown handled effect: " +:+ effectName)
  | Some operations =>
      match operations !! effectName with
      | None => error ("Unknown effect operation in handler: " +:+ effectName)
      | Some operation =>
          _ ← throw_if
                (negb (length (TypeInfo.params operation)
                       =? length (filter (λ p, Is_true (negb (isVariadic p))) params))
                 || negb (bool_decide (TypeInfo.variadic operation = HasVariadicParameter params)))
                ("Effect handler arity mismatch for " +:+ effectName);
          let resumeType := default TypeInfo.Void (TypeInfo.ret operation) in
          _ ← throw_if (negb (EffectResume.CountResumeCalls body =? 1))
                ("Effect handler '" +:+ effectName +:+ "' must call resume(value) exactly once");
          in_scope (pushing resumeTypes set_resumeTypes resumeType (
            _ ← define_handler_parameters effectName operation 0 params;
            accept body))
      end
  end.

Definition Visit_Handle (expression : Node) (handlers : list EffectHandlerCase) : M unit :=
  _ ← RejectRuntimeOnlyInComptime "effect handlers";
  handled ← handled_effects handlers;
  pushing handledEffects set_handledEffects handled (
    type ← (if is_null expression then mret TypeInfo.Void else VisitAndGet expression);
    _ ← set_last type;
    for_each visit_handler handlers).

(** An adapter of an iterator: the type of the elements after it. *)
Definition unary_function (type : TypeInfo.t) : option (TypeInfo.t * TypeInfo.t) :=
  match TypeInfo.has_kind TypeKind.Function_ type, TypeInfo.params type, TypeInfo.ret type with
  | true, [p], Some r => Some (p, r)
  | _, _, _ => None
  end.

Definition check_adapter_parameter (elemType param : TypeInfo.t) (message : string) : M unit :=
  if TypeInfo.has_kind TypeKind.Unknown elemType || TypeInfo.has_kind TypeKind.Unknown param then mret tt else
  b ← same_type fuel param elemType; throw_if (negb b) message.

Definition visit_adapter (elemType : TypeInfo.t) (adapter : IterAdapterKind * Node) : M TypeInfo.t :=
  match adapter.1 with
  | Drop_ | Take_ =>
      adapterType ← VisitAndGet adapter.2;
      _ ← throw_if (known_but (TypeInfo.has_kind TypeKind.Int) adapterType)
            "Iterator drop/take expects an integer argument";
      mret elemType
  | Reverse_ => mret elemType
  | Filter =>
      adapterType ← VisitAndGet adapter.2;
      if TypeInfo.has_kind TypeKind.Unknown adapterType then mret elemType else
      match unary_function adapterType with
      | Some (p, r) =>
          _ ← throw_if (known_but (TypeInfo.has_kind TypeKind.Bool) r)
                "Iterator filter expects a predicate function";
          _ ← check_adapter_parameter elemType p "Iterator filter predicate parameter type mismatch";
          mret elemType
      | None => error "Iterator filter expects a predicate function"
      end
  | Transform =>
      adapterType ← VisitAndGet adapter.2;
      if TypeInfo.has_kind TypeKind.Unknown adapterType then mret elemType else
      match unary_function adapterType with
      | Some (p, r) =>
          _ ← check_adapter_parameter elemType p "Iterator transform function parameter type mismatch";
          mret r
      | None => error "Iterator transform expects a unary function"
      end
  end.

Fixpoint visit_adapters (elemType : TypeInfo.t) (adapters : list (IterAdapterKind * Node)) : M TypeInfo.t :=
  match adapters with
  | [] => mret elemType
  | a :: adapters => elemType ← visit_adapter elemType a; visit_adapters elemType adapters
  end.

Definition Visit_Iter (varName : string) (collection : Node) (adapters : list (IterAdapterKind * Node))
    (body : Node) : M unit :=
  collType ← VisitAndGet collection;
  _ ← throw_if (known_but (TypeInfo.has_kind TypeKind.Array) collType)
        "Object is not iterable (expected array)";
  elemType ← (if TypeInfo.has_kind TypeKind.Array collType then element_type collType else mret TypeInfo.Unknown);
  elemType ← visit_adapters elemType adapters;
  _ ← Define varName elemType false;
  _ ← accept body;
  set_last TypeInfo.Void.

Definition Visit_Leaf (type : string) : M unit :=
  set_last (if decide (type = "integer_literal") then TypeInfo.Int
            else if decide (type = "float_literal") then TypeInfo.Float
            else if decide (type = "string_literal") then TypeInfo.String_
            else if decide (type = "null") then TypeInfo.Void
            else if decide (type = "true" ∨ type = "false") then TypeInfo.Bool
            else TypeInfo.Unknown).

(** The loop of [Visit(RawNode&)]. *)
Fixpoint visit_children (children : list Node) (lastNonUnknown : TypeInfo.t) : M TypeInfo.t :=
  match children with
  | [] => mret lastNonUnknown
  | c :: children =>
      if is_null c then visit_children children lastNonUnknown else
      _ ← Accept c;
      type ← gets lastType;
      visit_children children (if TypeInfo.has_kind TypeKind.Unknown type then lastNonUnknown else type)
  end.
Definition Visit_Raw (children : list Node) : M unit :=
  lastNonUnknown ← visit_children children TypeInfo.Unknown;
  match children with
  | [] => set_last TypeInfo.Unknown
  | _ => if TypeInfo.has_kind TypeKind.Unknown lastNonUnknown then mret tt else set_last lastNonUnknown
  end.

Definition Visit_Comptime (body : Node) : M unit :=
  deeper comptimeDepth set_comptimeDepth (
    if is_null body then set_last TypeInfo.Void else type ← VisitAndGet body; set_last type).

(** ** Declarations *)

Definition Visit_VarDecl (name explicitType : string) (initializer : Node) (isConst : bool)
    (storageClass : StorageClass) : M unit :=
  expectedType ← to_type explicitType;
  let unknown := TypeInfo.has_kind TypeKind.Unknown expectedType in
  initType ← (if is_null initializer then mret TypeInfo.Unknown
              else if unknown then VisitAndGet initializer
              else expecting expectedType (VisitAndGet initializer));
  b ← (if unknown || TypeInfo.has_kind TypeKind.Unknown initType then mret true
       else assignable expectedType initType);
  _ ← throw_if (negb b) ("Type mismatch in declaration of '" +:+ name +:+ "': expected " +:+ explicitType);
  let finalType := if unknown then initType else expectedType in
  _ ← Define name finalType isConst;
  _ ← (if decide (storageClass = Shared)
       then st_modify (λ s, set_sharedVariables ({[name]} ∪ sharedVariables s) s) else mret tt);
  s ← st_get;
  if decide (length (EnvironmentState.scopes (environment s)) = 1) then register_global name finalType
  else mret tt.

(** [m[name] = m[qualified] = x] *)
Definition both {A} (name qualified : string) (x : A) (m : gmap string A) : gmap string A :=
  <[qualified := x]> (<[name := x]> m).

Definition Visit_TypeAlias (name aliased : string) (typeParams : list TypeParameterDecl) : M unit :=
  s ← st_get;
  let qualifiedName := QualifyName s name in
  _ ← match typeParams with
      | [] => on_types (λ r, set_aliases (both name qualifiedName aliased (aliases r)) r)
      | _ => on_types (λ r, set_genericAliases
                              (both name qualifiedName (MkGenericAlias typeParams aliased) (genericAliases r)) r)
      end;
  set_last TypeInfo.Void.

(** [emplace]: an entry that is there stays. *)
Definition emplace_all (l : list (string * TypeInfo.t)) : gmap string TypeInfo.t :=
  foldl (λ m nt, match m !! nt.1 with Some _ => m | None => <[nt.1 := nt.2]> m end) ∅ l.

(** The type of a method or operation. *)
Definition method_type (what name returnTypeName : string) (params : list Parameter_)
    (contexts : list ContextBinding) (raisedEffects : list string) : M (string * TypeInfo.t) :=
  _ ← lift (ValidateParameterList params (what +:+ " '" +:+ name +:+ "'"));
  paramTypes ← fixed_types params;
  variadicParamType ← variadic_type params;
  contextTypes ← context_types contexts;
  raised ← qualify_all raisedEffects;
  returnType ← to_type returnTypeName;
  mret (name, TypeInfo.Function_ paramTypes returnType (Some (required_arity params)) raised contextTypes
                false (is_some variadicParamType) variadicParamType).

(** The interfaces of a structure. *)
Definition interface_type (interfaceName : string) : M TypeInfo.t :=
  type ← to_type interfaceName;
  _ ← throw_if (negb (TypeInfo.has_kind TypeKind.Interface type && is_some (TypeInfo.methods type)))
        ("Unknown interface in implements list: " +:+ interfaceName);
  mret type.

Definition field_types (fields : list StructField) : M (list (string * TypeInfo.t)) :=
  mapM (λ f, a ← to_type (sf_typeName f); mret (sf_name f, a)) fields.

(** The structure's type and constructor; a method of a structure that is not
    generic has no context requirements in its type. *)
Definition struct_type (name : string) (generic : bool) (fields : list StructField)
    (interfaceNames : list string) (methods : list StructMethodDecl) :
    M (TypeInfo.t * ConstructorSignature) :=
  fieldTypes ← field_types fields;
  methodTypes ← mapM (λ '(MkStructMethod mname returnType params contexts raised _ _),
                  method_type "method" mname returnType params (if generic then contexts else []) raised) methods;
  implemented ← mapM interface_type interfaceNames;
  s ← st_get;
  mret (TypeInfo.Struct (QualifyName s name) (emplace_all fieldTypes) (emplace_all methodTypes)
          (list_to_set (TypeInfo.name <$> implemented)),
        MkConstructorSignature fieldTypes (length fields)).

Definition register_constructor (name qualified : string) (signature : ConstructorSignature) : M unit :=
  on_types (λ r, set_constructorSignatures (both name qualified signature (constructorSignatures r)) r).

Definition check_interfaces (name : string) (structType : TypeInfo.t) (interfaceNames : list string) : M unit :=
  for_each (λ interfaceName,
    interfaceType ← interface_type interfaceName;
    b ← assignable interfaceType structType;
    throw_if (negb b) ("Struct '" +:+ name +:+ "' does not satisfy interface '" +:+ interfaceName +:+ "'"))
    interfaceNames.

(** The scope of a structure's method. *)
Definition in_method {A} (structType : TypeInfo.t) (scope : M A) : M A :=
  ScopeExit
    (_ ← on_environment (λ e, Ok (EnvironmentState.PushScope e));
     on_environment (λ e, Ok (EnvironmentState.PushStructMethodSelf structType e)))
    (_ ← on_environment EnvironmentState.PopStructMethodSelf;
     on_environment EnvironmentState.PopScope) scope.

Definition visit_struct_method (structType : TypeInfo.t) (method : StructMethodDecl) : M unit :=
  let 'MkStructMethod _ returnTypeName params contexts _ contracts body := method in
  in_method structType (
    returnType ← to_type returnTypeName;
    deeper functionDepth set_functionDepth (expecting returnType (
      _ ← Define "self" structType false;
      _ ← define_parameters params;
      _ ← define_contexts contexts;
      _ ← ValidateContractList contracts (Some returnType) (Some structType);
      accept body))).

Definition Visit_StructDecl (name : string) (typeParams : list TypeParameterDecl) (fields : list StructField)
    (interfaceNames : list string) (methods : list StructMethodDecl) : M unit :=
  s ← st_get;
  let qualifiedName := QualifyName s name in
  match typeParams with
  | [] =>
      '(structType, signature) ← struct_type name false fields interfaceNames methods;
      _ ← on_types (λ r, set_structs (<[qualifiedName := structType]> (structs r)) r);
      _ ← register_constructor name qualifiedName signature;
      _ ← Define name structType false;
      _ ← check_interfaces name structType interfaceNames;
      _ ← for_each (visit_struct_method structType) methods;
      set_last TypeInfo.Void
  | _ =>
      with_type_parameters typeParams (
        '(templatedType, signature) ← struct_type name true fields interfaceNames methods;
        _ ← on_types (λ r, set_genericStructs
              (both name qualifiedName (MkGenericNominal typeParams templatedType) (genericStructs r)) r);
        _ ← register_constructor name qualifiedName signature;
        _ ← Define name templatedType false;
        set_last TypeInfo.Void)
  end.

Definition interface_methods (methods : list InterfaceMethodSig) : M (gmap string TypeInfo.t) :=
  l ← mapM (λ '(MkInterfaceMethod mname returnType params raised),
        method_type "interface method" mname returnType params [] raised) methods;
  mret (emplace_all l).

Definition Visit_InterfaceDecl (name : string) (typeParams : list TypeParameterDecl)
    (methods : list InterfaceMethodSig) : M unit :=
  s ← st_get;
  let qualifiedName := QualifyName s name in
  match typeParams with
  | [] =>
      ms ← interface_methods methods;
      let interfaceType := TypeInfo.Interface qualifiedName ms in
      _ ← on_types (λ r, set_interfaces (<[qualifiedName := interfaceType]> (interfaces r)) r);
      _ ← Define name interfaceType false;
      set_last TypeInfo.Void
  | _ =>
      with_type_parameters typeParams (
        ms ← interface_methods methods;
        let templatedType := TypeInfo.Interface qualifiedName ms in
        _ ← on_types (λ r, set_genericInterfaces
              (both name qualifiedName (MkGenericNominal typeParams templatedType) (genericInterfaces r)) r);
        _ ← Define name templatedType false;
        set_last TypeInfo.Void)
  end.

(** An operation is defined as a name of its own too; every fixed parameter
    counts for its arity. *)
Definition visit_operation (operation : InterfaceMethodSig) : M (string * TypeInfo.t) :=
  let 'MkInterfaceMethod name returnTypeName params _ := operation in
  _ ← lift (ValidateParameterList params ("effect operation '" +:+ name +:+ "'"));
  paramTypes ← fixed_types params;
  variadicParamType ← variadic_type params;
  returnType ← to_type returnTypeName;
  let opType := TypeInfo.Function_ paramTypes returnType (Some (length paramTypes)) ∅ [] false
                  (is_some variadicParamType) variadicParamType in
  _ ← Define name opType false;
  mret (name, opType).

Definition Visit_EffectDecl (name : string) (operations : list InterfaceMethodSig) : M unit :=
  l ← mapM visit_operation operations;
  s ← st_get;
  let effectType := TypeInfo.Effect (QualifyName s name) (emplace_all l) in
  _ ← on_types (λ r, set_effects (<[TypeInfo.name effectType := effectType]> (effects r)) r);
  _ ← Define name effectType false;
  set_last TypeInfo.Void.

(** The fields of an actor, those with a default being the last ones; the
    fields of a generic actor need not be sendable. *)
Fixpoint actor_fields (check : bool) (seenDefaultField : bool) (fields : list ActorFieldDecl) :
    M (list (string * TypeInfo.t) * nat) :=
  match fields with
  | [] => mret ([], 0)
  | MkActorField name typeName initializer :: fields =>
      fieldType ← to_type typeName;
      _ ← (if check then ValidateSendable fuel fieldType ("Actor state field '" +:+ name +:+ "'") else mret tt);
      let has_default := negb (is_null initializer) in
      _ ← throw_if (negb has_default && seenDefaultField) "Actor state fields with defaults must be trailing";
      '(l, n) ← actor_fields check (seenDefaultField || has_default) fields;
      mret ((name, fieldType) :: l, if has_default then n else S n)
  end.

Definition sendable_parameters (params : list Parameter_) : M (list TypeInfo.t) :=
  mapM (λ p, a ← to_type (p_typeName p);
             _ ← ValidateSendable fuel a ("Actor method argument '" +:+ p_name p +:+ "'");
             mret a) (filter (λ p, Is_true (negb (isVariadic p))) params).

(** The type of a method of an actor that is not generic. *)
Definition actor_method_type (method : ActorMethodDecl) : M (string * TypeInfo.t) :=
  let 'MkActorMethod kind name returnTypeName params contexts raisedEffects _ _ := method in
  _ ← lift (ValidateParameterList params ("actor method '" +:+ name +:+ "'"));
  variadicParamType ← variadic_type params;
  paramTypes ← sendable_parameters params;
  returnType ← to_type returnTypeName;
  _ ← throw_if (bool_decide (kind = Message) && negb (TypeInfo.has_kind TypeKind.Void returnType))
        "Actor msg methods must return void";
  _ ← (if decide (kind = Query) then ValidateSendable fuel returnType "Actor query return type" else mret tt);
  raised ← qualify_all raisedEffects;
  contextTypes ← context_types contexts;
  mret (name, TypeInfo.Function_ paramTypes returnType (Some (required_arity params)) raised contextTypes
                false (is_some variadicParamType) variadicParamType).

Definition visit_actor_method (actorType : TypeInfo.t) (fields : gmap string TypeInfo.t)
    (method : ActorMethodDecl) : M unit :=
  let 'MkActorMethod kind _ returnTypeName params contexts raisedEffects contracts body := method in
  in_scope (
    _ ← for_each (λ nt : string * TypeInfo.t, Define nt.1 nt.2 false) (map_to_list fields);
    pushing actorStateScopes set_actorStateScopes (dom fields) (
      raised ← qualify_all raisedEffects;
      pushing activeRaisedEffects set_activeRaisedEffects raised (
        let method_body :=
          _ ← define_parameters params;
          _ ← define_contexts contexts;
          deeper functionDepth set_functionDepth (
            returnType ← to_type returnTypeName;
            expecting returnType (
              _ ← ValidateContractList contracts (Some returnType) (Some actorType);
              accept body)) in
        if decide (kind = Query) then deeper actorQueryDepth set_actorQueryDepth method_body
        else method_body))).

Definition Visit_ActorDecl (name : string) (typeParams : list TypeParameterDecl)
    (fields : list ActorFieldDecl) (methods : list ActorMethodDecl) : M unit :=
  s ← st_get;
  let qualifiedName := QualifyName s name in
  match typeParams with
  | [] =>
      '(fieldTypes, requiredArity) ← actor_fields true false fields;
      methodTypes ← mapM actor_method_type methods;
      let actorType := TypeInfo.Actor qualifiedName (emplace_all fieldTypes) (emplace_all methodTypes) in
      _ ← on_types (λ r, set_actors (<[qualifiedName := actorType]> (actors r)) r);
      _ ← register_constructor name qualifiedName (MkConstructorSignature fieldTypes requiredArity);
      _ ← Define name actorType false;
      _ ← for_each (visit_actor_method actorType (emplace_all fieldTypes)) methods;
      set_last TypeInfo.Void
  | _ =>
      with_type_parameters typeParams (
        '(fieldTypes, requiredArity) ← actor_fields false false fields;
        methodTypes ← mapM (λ '(MkActorMethod _ mname returnType params contexts raised _ _),
                        method_type "actor method" mname returnType params contexts raised) methods;
        let templatedType := TypeInfo.Actor qualifiedName (emplace_all fieldTypes) (emplace_all methodTypes) in
        _ ← on_types (λ r, set_genericActors
              (both name qualifiedName (MkGenericNominal typeParams templatedType) (genericActors r)) r);
        _ ← register_constructor name qualifiedName (MkConstructorSignature fieldTypes requiredArity);
        _ ← Define name templatedType false;
        set_last TypeInfo.Void)
  end.

(** The constructors of an enumeration, from the tag [index]. *)
Fixpoint visit_variants (enumName : string) (index : nat) (variants : list EnumVariantDecl) : M unit :=
  match variants with
  | [] => mret tt
  | variant :: variants =>
      args ← mapM to_type (argTypes variant);
      s ← st_get;
      let ctorType := TypeInfo.EnumConstructor enumName (Z.of_nat index) args in
      _ ← on_types (λ r, set_enumConstructors
            (<[QualifyName s (ev_name variant) := ctorType]> (enumConstructors r)) r);
      _ ← Define (ev_name variant) ctorType false;
      visit_variants enumName (S index) variants
  end.

Definition Visit_EnumDecl (name : string) (typeParams : list TypeParameterDecl)
    (variants : list EnumVariantDecl) : M unit :=
  s ← st_get;
  let enumName := QualifyName s name in
  let enumType := TypeInfo.Enum enumName in
  _ ← on_types (λ r, set_enums (<[enumName := enumType]> (enums r)) r);
  _ ← Define name enumType false;
  match typeParams with
  | [] => _ ← visit_variants enumName 0 variants; set_last TypeInfo.Void
  | _ =>
      with_type_parameters typeParams (
        let templatedName := enumName +:+ "<" +:+ join_arguments (tp_name <$> typeParams) +:+ ">" in
        _ ← on_types (λ r, set_genericEnums
              (both name enumName (MkGenericNominal typeParams (TypeInfo.Enum templatedName)) (genericEnums r)) r);
        _ ← visit_variants templatedName 0 variants;
        set_last TypeInfo.Void)
  end.

(** ** Every node *)

Definition visit_node (node : Node) : M unit :=
  match node with
  | NullNode => mret tt
  | IntegerLiteralNode _ => set_last TypeInfo.Int
  | FloatLiteralNode _ => set_last TypeInfo.Float
  | StringLiteralNode _ => set_last TypeInfo.String_
  | LeafNode type _ => Visit_Leaf type
  | RawNode _ children => Visit_Raw children
  | ComptimeNode body => Visit_Comptime body
  | IdentifierNode name => a ← Resolve name; set_last a
  | UnaryExprNode op operand => Visit_UnaryExpr op operand
  | BinaryExprNode lhs op rhs => Visit_BinaryExpr lhs op rhs
  | AssignmentNode name object member target value index =>
      Visit_Assignment name object member target value index
  | CallNode callee args => Analyze_call Accept fuel callee args
  | GoExprNode call => Visit_GoExpr call
  | AwaitExprNode operand => Visit_AwaitExpr operand
  | MemberAccessNode object member => Visit_MemberAccess object member
  | IndexNode container index => Visit_Index container index
  | FunctionExprNode _ returnType params raised body => Visit_FunctionExpr returnType params raised body
  | ArrayLiteralNode elements => Visit_ArrayLiteral elements
  | MapLiteralNode k v entries => Visit_MapLiteral k v entries
  | BlockNode statements => Visit_Block statements
  | ExportDeclNode declaration exportedName => Visit_ExportDecl declaration exportedName
  | IfStatementNode c t e => Visit_IfStatement c t e
  | WhileStatementNode c b => Visit_WhileStatement c b
  | IterNode varName collection adapters body => Visit_Iter varName collection adapters body
  | ModuleDeclNode qualifiedName => Visit_ModuleDecl qualifiedName
  | ImportDeclNode qualifiedName alias => Visit_ImportDecl qualifiedName alias
  | ReturnNode value => Visit_Return value
  | PrintNode value => Visit_Print value
  | UnsafeNode body => Visit_Unsafe body
  | TransactionNode regions body => Visit_Transaction regions body
  | HandleNode expression handlers => Visit_Handle expression handlers
  | ContractNode _ expression => Visit_Contract expression
  | VarDeclNode name type init isConst storage => Visit_VarDecl name type init isConst storage
  | TypeAliasNode name aliased typeParams => Visit_TypeAlias name aliased typeParams
  | StructDeclNode name typeParams fields interfaceNames methods _ =>
      Visit_StructDecl name typeParams fields interfaceNames methods
  | EnumDeclNode name typeParams variants => Visit_EnumDecl name typeParams variants
  | InterfaceDeclNode name typeParams methods => Visit_InterfaceDecl name typeParams methods
  | EffectDeclNode name operations => Visit_EffectDecl name operations
  | ActorDeclNode name typeParams fields methods => Visit_ActorDecl name typeParams fields methods
  | FunctionDeclNode name returnType isComptime typeParams params contexts raised contracts body =>
      Visit_FunctionDecl name returnType isComptime typeParams params contexts raised contracts body
  end.
End visitors.

(** [node.Accept(analyzer)]: [n] bounds the depth of the tree. *)
Fixpoint Visit (fuel n : nat) (node : Node) : M unit :=
  match n with
  | 0 => st_diverge
  | S n => visit_node (Visit fuel n) fuel node
  end.

(** [SemanticAnalyzer::Analyze] up to the call of the analysis of synchronisation. *)
Definition reset : M unit :=
  st_modify (λ s,
    let a := active s in
    Mk TypeInfo.Unknown EnvironmentState.Reset Clear_types Clear_modules "" (sharedVariables s)
      (set_typeParamScopes [] (set_resumeTypes [] (set_unsafeDepth 0 a))) (heap s) (effectKeys s)).

Definition Analyze_types (fuel n : nat) (root : Node) : M unit :=
  _ ← reset;
  _ ← Builtins.RegisterBuiltinTypes;
  _ ← Builtins.RegisterBuiltinModules fuel;
  accept (Visit fuel n) root.

Definition Analyze (fuel n : nat) (root : Node) : M unit :=
  _ ← Analyze_types fuel n root;
  lift ('(_, _) ← SyncStaticAnalyzer.Analyze root SyncStaticAnalyzer.init; Ok tt).

End SemanticVisitors.
