(* ===== verification/TypeResolverSpec.v ===== *)
(** * Lists of parameters, scopes and names of types

    What [ValidateParameterList] accepts, how the environment of the analyzer
    resolves names, and names of types whose resolution never ends. *)

From S2P Require Import Prelude Ast TypeNames TypeInfo SemanticState TypeResolver SemanticCalls SemanticVisitors.
From Stdlib Require Import Lia.

Module TypeResolverSpec.
Import Ast TypeNames SemanticAnalyzer TypeResolver.

(** ** Lists of parameters *)

Definition plain (p : Parameter_) : Prop := isVariadic p = false ∧ hasDefaultValue p = false.
Definition optional (p : Parameter_) : Prop := isVariadic p = false ∧ hasDefaultValue p = true.
Definition rest (p : Parameter_) : Prop := isVariadic p = true ∧ hasDefaultValue p = false.

(** Parameters without a default, then those with one or one that takes the
    rest of the arguments. *)
Definition well_ordered (params required tail : list Parameter_) : Prop :=
  params = required ++ tail ∧ Forall plain required
  ∧ (Forall optional tail ∨ ∃ p, tail = [p] ∧ rest p).

Lemma validate_after_default params owner : validate_parameters true false params owner = Ok tt ↔ Forall optional params.
Proof.
  induction params as [|p params IH]; cbn; [by split|]. rewrite Forall_cons -IH. unfold optional.
  destruct (isVariadic p), (hasDefaultValue p); naive_solver.
Qed.
Lemma validate_after_rest params owner : validate_parameters false true params owner = Ok tt ↔ params = [].
Proof. destruct params as [|p params]; [done|]. cbn. split; [|done]. by destruct (isVariadic p). Qed.

Lemma well_ordered_cons p params :
  (∃ r l, well_ordered (p :: params) r l) ↔
  (plain p ∧ ∃ r l, well_ordered params r l) ∨ (optional p ∧ Forall optional params) ∨ (rest p ∧ params = []).
Proof.
  split.
  - intros (r & l & E & Hr & Hl). destruct r as [|q r]; cbn in E.
    + subst l. destruct Hl as [[? ?]%Forall_cons|(q & [= -> ->] & ?)]; auto.
    + injection E as -> ->. apply Forall_cons in Hr as [? ?]. left. split; [done|]. by exists r, l.
  - intros [[Hp (r & l & -> & Hr & Hl)]|[[Hp Ho]|[Hp ->]]].
    + exists (p :: r), l. split_and!; [done|by constructor|done].
    + exists [], (p :: params). split_and!; [done|done|]. left. by constructor.
    + exists [], [p]. split_and!; [done|done|]. right. eauto.
Qed.

Lemma validate_iff params owner :
  validate_parameters false false params owner = Ok tt ↔ ∃ required tail, well_ordered params required tail.
Proof.
  induction params as [|p params IH].
  { split; [|done]. intros _. exists [], []. split_and!; [done|done|by left]. }
  rewrite well_ordered_cons -IH -(validate_after_default _ owner) -(validate_after_rest params owner).
  cbn. unfold plain, optional, rest. destruct (isVariadic p), (hasDefaultValue p); naive_solver.
Qed.

Lemma validate_result sd sv params owner :
  validate_parameters sd sv params owner = Ok tt
  ∨ ∃ message, validate_parameters sd sv params owner = Throw (runtime_error message).
Proof. revert sd sv. induction params as [|p params IH]; intros sd sv; cbn; [by left|]. repeat case_match; eauto. Qed.

(** C19. A list of parameters is accepted exactly when those without a default come
    first, followed by those with one, or by the one that takes the rest; the
    required arity is then the number of the first ones.  Every other list is
    refused with an error. *)
Theorem ValidateParameterList_correct params owner :
  (ValidateParameterList params owner = Ok tt ↔ ∃ required tail, well_ordered params required tail)
  ∧ (∀ required tail, well_ordered params required tail → SemanticVisitors.required_arity params = length required)
  ∧ (ValidateParameterList params owner ≠ Ok tt →
     ∃ message, ValidateParameterList params owner = Throw (runtime_error message)).
Proof.
  split_and!; [apply validate_iff| |].
  - intros r l (-> & Hr & Hl). unfold SemanticVisitors.required_arity. rewrite filter_app length_app.
    assert (∀ l, Forall plain l → filter (λ p, Is_true (negb (isVariadic p) && negb (hasDefaultValue p))) l = l) as ->.
    { clear. induction 1 as [|p l [H1 H2] _ IH]; [done|]. rewrite filter_cons_True ?IH //. by rewrite H1 H2. }
    2: done.
    assert (filter (λ p, Is_true (negb (isVariadic p) && negb (hasDefaultValue p))) l = []) as ->; [|cbn; lia].
    destruct Hl as [Hl|(p & -> & H1 & H2)].
    + induction Hl as [|p l [H1 H2] _ IH]; [done|]. rewrite filter_cons_False ?IH //. rewrite H1 H2. by intros [].
    + rewrite filter_cons_False //. rewrite H1. by intros [].
  - intros H. by destruct (validate_result false false params owner).
Qed.

(** ** Names that resolve to themselves *)

(** [type A = A] *)
Lemma alias_of_itself sa name h : find_type_parameter sa name = None → aliases (m_types sa) !! name = Some name →
  ∀ fuel, ResolveTypeName sa fuel name h = Diverge.
Proof.
  intros Hp Ha fuel. induction fuel as [|fuel IH]; [done|].
  cbn [ResolveTypeName]. unfold resolve_step. by rewrite Hp Ha.
Qed.

(** [import util as util] and a type of the module, when no type parameter or
    alias has its qualified name and it has no arguments. *)
Lemma import_of_itself sa name h :
  find_type_parameter sa name = None → aliases (m_types sa) !! name = None →
  SplitGenericName name = None → builtin_type name = None →
  resolveImportedQualifiedName sa name = Some name →
  ∀ fuel, ResolveTypeName sa fuel name h = Diverge.
Proof.
  intros Hp Ha Hg Hb Hi fuel. induction fuel as [|fuel IH]; [done|].
  cbn [ResolveTypeName]. unfold resolve_step. rewrite Hp Ha Hg.
  unfold mbind, st_bind, mret, st_ret, result_bind. rewrite Hb. unfold resolve_shape. by rewrite Hi.
Qed.

End TypeResolverSpec.
