(* ===== verification/SemanticFrame.v ===== *)
(** * Runs of the semantic analyzer that restore its stacks

    The contexts of visits, and the rules for computations that leave the stacks,
    the depths and the number of scopes of the analyzer as they were ([runs]). *)

From S2P Require Import Prelude Ast TypeInfo SemanticState TypeResolver SemanticCalls SemanticVisitors.
From Stdlib Require Import Lia.

Module SemanticFrame.
Import Ast SemanticAnalyzer SemanticCalls SemanticVisitors.

(** ** Contexts *)

(** The depths that the visitors test, and the number of handlers around. *)
Record context := MkContext { functions : Z; comptimes : Z; unsafes : Z; handlers : nat }.

Definition context_of (a : Active) : context :=
  MkContext (functionDepth a) (comptimeDepth a) (unsafeDepth a) (length (resumeTypes a)).

Definition in_function_body (c : context) : context :=
  MkContext (functions c + 1) (comptimes c) (unsafes c) (handlers c).
Definition in_comptime (c : context) : context :=
  MkContext (functions c) (comptimes c + 1) (unsafes c) (handlers c).
Definition in_unsafe (c : context) : context :=
  MkContext (functions c) (comptimes c) (unsafes c + 1) (handlers c).
Definition in_handler (c : context) : context :=
  MkContext (functions c) (comptimes c) (unsafes c) (S (handlers c)).

(** ** Runs that restore *)

(** The stacks of the analyzer after a run are those before. *)
Record frame (s s' : t) : Prop := {
  frame_active : active s' = active s;
  frame_scopes : length (EnvironmentState.scopes (environment s')) = length (EnvironmentState.scopes (environment s));
  frame_selves : EnvironmentState.selves (environment s') = EnvironmentState.selves (environment s)
}.

Lemma frame_refl s : frame s s.
Proof. by constructor. Qed.
Lemma frame_trans s1 s2 s3 : frame s1 s2 → frame s2 s3 → frame s1 s3.
Proof. intros [A B C] [A' B' C']. constructor; congruence. Qed.

(** From a state with the context [c], [m] restores the stacks, and its result
    has [Φ]. *)
Definition runs {A} (c : context) (m : M A) (Φ : A → Prop) : Prop := ∀ s a s',
  context_of (active s) = c → m s = Ok (a, s') → frame s s' ∧ Φ a.

Lemma runs_weaken {A} c (m : M A) (Φ Ψ : A → Prop) : runs c m Φ → (∀ a, Φ a → Ψ a) → runs c m Ψ.
Proof. intros Hm H s a s' Hc E. destruct (Hm s a s' Hc E) as [? ?]. auto. Qed.

Lemma runs_ret {A} c (a : A) (Φ : A → Prop) : Φ a → runs c (mret a) Φ.
Proof. intros Ha s b s' _ E. cbv in E. injection E as <- <-. split; [apply frame_refl|done]. Qed.

Lemma runs_bind {A B} c (m : M A) (k : A → M B) (Φ : A → Prop) (Ψ : B → Prop) :
  runs c m Φ → (∀ a, Φ a → runs c (k a) Ψ) → runs c (m ≫= k) Ψ.
Proof.
  intros Hm Hk s b s' Hc (a & s1 & E1 & E2)%st_bind_Ok.
  destruct (Hm _ _ _ Hc E1) as [F1 Ha]. destruct (Hk a Ha s1 b s') as [F2 Hb]; [|done|].
  - by rewrite (frame_active _ _ F1).
  - split; [by eapply frame_trans|done].
Qed.

Lemma runs_throw {A} c e (Φ : A → Prop) : runs c (st_throw e) Φ.
Proof. by intros s a s' _. Qed.

(** A run that keeps the stacks. *)
Definition quiet {A} (m : M A) : Prop := ∀ s a s', m s = Ok (a, s') → frame s s'.
Lemma quiet_runs {A} c (m : M A) : quiet m → runs c m (λ _, True).
Proof. intros Hm s a s' _ E. split; [by eapply Hm|done]. Qed.

Lemma runs_lift {A} c (r : result A) : runs c (lift r) (λ a, r = Ok a).
Proof.
  intros s a s' _ E. unfold lift in E. destruct r as [x| |]; [|done|done]. cbv in E.
  injection E as -> <-. split; [apply frame_refl|done].
Qed.
Lemma runs_get c : runs c st_get (λ s, context_of (active s) = c).
Proof. intros s a s' Hc E. injection E as <- <-. split; [apply frame_refl|done]. Qed.
Lemma runs_gets {A} c (f : t → A) : runs c (gets f) (λ a, ∃ s, context_of (active s) = c ∧ a = f s).
Proof. intros s a s' Hc E. cbv in E. injection E as <- <-. split; [apply frame_refl|by exists s]. Qed.
Lemma runs_throw_if c b message : runs c (throw_if b message) (λ _, b = false).
Proof. destruct b; [apply runs_throw|by apply runs_ret]. Qed.

Lemma runs_const {A} c (m : t → st TypeInfo.Heap A) : runs c (const m) (λ _, True).
Proof.
  apply quiet_runs. intros s a s' E. unfold const in E. destruct (m s (heap s)) as [[x h]| |]; [|done|done].
  cbv in E. injection E as _ <-. by constructor.
Qed.
Lemma runs_modify c f : (∀ s, frame s (f s)) → runs c (st_modify f) (λ _, True).
Proof. intros Hf. apply quiet_runs. intros s a s' E. injection E as _ <-. apply Hf. Qed.

Lemma runs_set_last c a : runs c (set_last a) (λ _, True).
Proof. apply runs_modify. by constructor. Qed.
Lemma runs_on_types c f : runs c (on_types f) (λ _, True).
Proof. apply runs_modify. by constructor. Qed.
Lemma runs_on_modules c f : runs c (on_modules f) (λ _, True).
Proof. apply runs_modify. by constructor. Qed.

Lemma runs_Define c name a b : runs c (Define name a b) (λ _, True).
Proof.
  apply quiet_runs. intros s u s' E. unfold Define, on_environment, EnvironmentState.Define in E.
  destruct (EnvironmentState.scopes (environment s)) as [|e l] eqn:Hl; [done|]. cbv in E.
  injection E as _ <-. constructor; cbn; by rewrite ?Hl.
Qed.

Lemma runs_Resolve c name : runs c (Resolve name) (λ _, True).
Proof. eapply runs_bind; [apply runs_get|]. intros s _. eapply runs_weaken; [apply runs_lift|done]. Qed.
Lemma runs_ResolveIsConst c name : runs c (ResolveIsConst name) (λ _, True).
Proof. eapply runs_bind; [apply runs_get|]. intros s _. eapply runs_weaken; [apply runs_lift|done]. Qed.
Lemma runs_EnsureDeclared c name : runs c (EnsureDeclared name) (λ _, True).
Proof. eapply runs_bind; [apply runs_get|]. intros s _. eapply runs_weaken; [apply runs_lift|done]. Qed.

(** *** Loops *)

Lemma runs_for_each {A} c (f : A → M unit) (P : A → Prop) l :
  (∀ x, x ∈ l → runs c (f x) (λ _, P x)) → runs c (for_each f l) (λ _, Forall P l).
Proof.
  induction l as [|x l IH]; intros Hf; [by apply runs_ret|].
  eapply runs_bind; [apply Hf; left|]. intros [] Hx.
  eapply runs_weaken; [apply IH; intros; apply Hf; by right|]. by constructor.
Qed.

Lemma runs_mapM {A B} c (f : A → M B) (P : A → B → Prop) l :
  (∀ x, x ∈ l → runs c (f x) (P x)) → runs c (mapM f l) (Forall2 P l).
Proof.
  induction l as [|x l IH]; intros Hf; [by apply runs_ret|].
  cbn [mapM]. eapply runs_bind; [apply Hf; left|]. intros y Hy.
  eapply runs_bind; [apply IH; intros; apply Hf; by right|]. intros k Hk. apply runs_ret. by constructor.
Qed.

(** *** Scopes *)

Lemma ScopeExit_Ok {A} enter leave (m : M A) s a s' :
  ScopeExit enter leave m s = Ok (a, s') →
  ∃ s1 s2, enter s = Ok (tt, s1) ∧ m s1 = Ok (a, s2) ∧ leave s2 = Ok (tt, s').
Proof.
  intros ([] & s1 & E1 & (x & s2 & E2 & ([] & s3 & E3 & E)%st_bind_Ok)%st_bind_Ok)%st_bind_Ok.
  unfold mret, st_ret in E. simplify_eq. eauto.
Qed.
Lemma on_environment_Ok f s u s' :
  on_environment f s = Ok (u, s') → ∃ e, f (environment s) = Ok e ∧ s' = set_environment e s.
Proof.
  unfold on_environment. destruct (f (environment s)) as [e| |]; [|done|done].
  intros E. unfold mbind, result_bind in E. simplify_eq. eauto.
Qed.
Lemma on_active_Ok f s u s' : on_active f s = Ok (u, s') → s' = set_active (f (active s)) s.
Proof. unfold on_active, st_modify. by intros [= _ <-]. Qed.
Lemma PopScope_Ok e e' : EnvironmentState.PopScope e = Ok e' →
  length (EnvironmentState.scopes e) = S (length (EnvironmentState.scopes e'))
  ∧ EnvironmentState.selves e' = EnvironmentState.selves e.
Proof. unfold EnvironmentState.PopScope. destruct e as [[|x l] v]; [done|]. by intros [= <-]. Qed.
Lemma PopStructMethodSelf_Ok e e' : EnvironmentState.PopStructMethodSelf e = Ok e' →
  EnvironmentState.scopes e' = EnvironmentState.scopes e
  ∧ ∃ x, EnvironmentState.selves e = x :: EnvironmentState.selves e'.
Proof. unfold EnvironmentState.PopStructMethodSelf. destruct e as [l [|x v]]; [done|]. intros [= <-]. eauto. Qed.

Lemma runs_in_scope {A} c (m : M A) Φ : runs c m Φ → runs c (in_scope m) Φ.
Proof.
  intros Hm s a s' Hc (s1 & s2 & (e & [= <-] & ->)%on_environment_Ok & E & Hleave)%ScopeExit_Ok.
  apply on_environment_Ok in Hleave as (e' & [Hl Hv']%PopScope_Ok & ->).
  destruct (Hm (set_environment _ _) _ _ Hc E) as [[Ha Hs Hv] HΦ]. cbn in Ha, Hs, Hv.
  split; [|done]. constructor; cbn; [done|lia|congruence].
Qed.

Lemma runs_in_method {A} c (m : M A) a Φ : runs c m Φ → runs c (in_method a m) Φ.
Proof.
  intros Hm s b s' Hc (s1 & s2 & Henter & E & Hleave)%ScopeExit_Ok.
  apply st_bind_Ok in Henter as (u & s3 & (e & [= <-] & ->)%on_environment_Ok & Henter).
  apply on_environment_Ok in Henter as (e & [= <-] & ->).
  apply st_bind_Ok in Hleave as (u' & s4 & (e & [Hl' (x & Hx)]%PopStructMethodSelf_Ok & ->)%on_environment_Ok & Hleave).
  apply on_environment_Ok in Hleave as (e' & [Hl Hv']%PopScope_Ok & ->).
  destruct (Hm (set_environment _ _) _ _ Hc E) as [[Ha Hs Hv] HΦ]. cbn in *.
  split; [|done]. constructor; cbn; [done|rewrite -> Hl' in Hl; lia|congruence].
Qed.

(** A change of [Active] for the time of a scope, which [leave] undoes. *)
Lemma runs_active_frame {A} c c' (m : M A) (enter leave : Active → Active) Φ :
  (∀ a, context_of a = c → context_of (enter a) = c') →
  (∀ a, leave (enter a) = a) →
  runs c' m Φ → runs c (ScopeExit (on_active enter) (on_active leave) m) Φ.
Proof.
  intros Henter Hleave Hm s a s' Hc (s1 & s2 & ->%on_active_Ok & E & ->%on_active_Ok)%ScopeExit_Ok.
  destruct (Hm (set_active _ _) _ _ (Henter _ Hc) E) as [[Ha Hs Hv] HΦ]. cbn in *.
  split; [|done]. constructor; cbn; [by rewrite Ha Hleave|done|done].
Qed.

Ltac same_context := intros a <-; by destruct a.
Ltac same_active :=
  intros a; destruct a; unfold set_functionDepth, set_comptimeDepth, set_unsafeDepth, set_actorQueryDepth;
  cbn; f_equal; lia.

Lemma runs_deeper_function {A} c (m : M A) Φ :
  runs (in_function_body c) m Φ → runs c (deeper functionDepth set_functionDepth m) Φ.
Proof. apply runs_active_frame; [same_context|same_active]. Qed.
Lemma runs_deeper_comptime {A} c (m : M A) Φ :
  runs (in_comptime c) m Φ → runs c (deeper comptimeDepth set_comptimeDepth m) Φ.
Proof. apply runs_active_frame; [same_context|same_active]. Qed.
Lemma runs_deeper_unsafe {A} c (m : M A) Φ :
  runs (in_unsafe c) m Φ → runs c (deeper unsafeDepth set_unsafeDepth m) Φ.
Proof. apply runs_active_frame; [same_context|same_active]. Qed.
Lemma runs_deeper_query {A} c (m : M A) Φ :
  runs c m Φ → runs c (deeper actorQueryDepth set_actorQueryDepth m) Φ.
Proof. apply runs_active_frame; [same_context|same_active]. Qed.

Lemma runs_pushing_handled {A} c x (m : M A) Φ :
  runs c m Φ → runs c (pushing handledEffects set_handledEffects x m) Φ.
Proof. apply runs_active_frame; [same_context|by intros []]. Qed.
Lemma runs_pushing_raised {A} c x (m : M A) Φ :
  runs c m Φ → runs c (pushing activeRaisedEffects set_activeRaisedEffects x m) Φ.
Proof. apply runs_active_frame; [same_context|by intros []]. Qed.
Lemma runs_pushing_state {A} c x (m : M A) Φ :
  runs c m Φ → runs c (pushing actorStateScopes set_actorStateScopes x m) Φ.
Proof. apply runs_active_frame; [same_context|by intros []]. Qed.
Lemma runs_pushing_resume {A} c x (m : M A) Φ :
  runs (in_handler c) m Φ → runs c (pushing resumeTypes set_resumeTypes x m) Φ.
Proof. apply runs_active_frame; [same_context|by intros []]. Qed.

Lemma runs_expecting {A} c a (m : M A) Φ : runs c m Φ → runs c (expecting a m) Φ.
Proof.
  intros Hm s x s' Hc (old & s0 & Hold & E)%st_bind_Ok.
  unfold gets in Hold. apply st_bind_Ok in Hold as (s1 & s2 & [= <- <-] & [= <- <-]).
  apply ScopeExit_Ok in E as (s1 & s2 & ->%on_active_Ok & E & ->%on_active_Ok).
  destruct (Hm (set_active (set_expectedReturn a _) _) _ _ Hc E) as [[Ha Hs Hv] HΦ]. cbn in *.
  split; [|done]. constructor; cbn; [rewrite Ha; by destruct (active s)|done|done].
Qed.

(** Two scopes begin by filling the set or map that they push: [fill] changes
    only the top of the stack. *)
Definition fills {X} (get : Active → list X) (set : list X → Active → Active) (fill : M unit) : Prop :=
  ∀ s u s' y l, get (active s) = y :: l → fill s = Ok (u, s') →
    ∃ z, active s' = set (z :: l) (active s) ∧ frame s (set_active (active s) s').

Lemma runs_filling {X A} c (get : Active → list X) (set : list X → Active → Active) x
    (fill : M unit) (m : M A) Φ :
  (∀ a l, context_of (set l a) = context_of a) →
  (∀ a l k, set l (set k a) = set l a) → (∀ a, set (get a) a = a) → (∀ a l, get (set l a) = l) →
  fills get set fill →
  runs c m Φ → runs c (pushing get set x (_ ← fill; m)) Φ.
Proof.
  intros Hctx Hset Hget Hgs Hfill Hm.
  intros s b s' Hc (s1 & s2 & ->%on_active_Ok & E & ->%on_active_Ok)%ScopeExit_Ok.
  apply st_bind_Ok in E as (u & s4 & E4 & E).
  destruct (Hfill (set_active _ s) _ _ x (get (active s)) (Hgs _ _) E4) as (z & Hz & [_ Hs4 Hv4]).
  cbn in Hz, Hs4, Hv4. rewrite Hset in Hz.
  destruct (Hm s4 b s2) as [[Ha Hs Hv] HΦ]; [by rewrite Hz Hctx|done|].
  split; [|done]. constructor; cbn.
  - by rewrite Ha Hz Hset Hgs /= Hget.
  - by rewrite Hs.
  - by rewrite Hv.
Qed.

Lemma fills_for_each {A X} (get : Active → list X) set (f : A → M unit) l :
  (∀ a l k, set l (set k a) = set l a) → (∀ a, set (get a) a = a) → (∀ a l, get (set l a) = l) →
  (∀ x, fills get set (f x)) → fills get set (for_each f l).
Proof.
  intros Hset Hget Hgs Hf. induction l as [|x l IH]; intros s u s' y k Hk E.
  { unfold for_each, mret, st_ret in E. cbn in E. simplify_eq. exists y. rewrite -Hk Hget. split; [done|].
    by destruct s'. }
  apply st_bind_Ok in E as (u1 & s1 & E1 & E).
  destruct (Hf x s u1 s1 y k Hk E1) as (z & Hz & F1).
  destruct (IH s1 u s' z k) as (z' & Hz' & F2); [by rewrite Hz Hgs|done|].
  exists z'. rewrite Hz' Hz Hset. split; [done|]. destruct F1 as [_ ? ?], F2 as [_ ? ?].
  constructor; cbn in *; congruence.
Qed.

(** A filling step: a run that keeps the stacks, then a change of the top. *)
Lemma fills_step {A X} (get : Active → list X) set (m : M A) (f : A → Active → Active) :
  (∀ c, runs c m (λ _, True)) →
  (∀ a x y l, get a = y :: l → ∃ z, f x a = set (z :: l) a) →
  fills get set (x ← m; on_active (f x)).
Proof.
  intros Hm Hf s u s' y l Hl (x & s1 & E1 & ->%on_active_Ok)%st_bind_Ok.
  destruct (Hm _ s x s1 eq_refl E1) as [[Ha Hs Hv] _].
  destruct (Hf (active s1) x y l) as (z & Hz); [by rewrite Ha|]. exists z. cbn. rewrite Hz Ha.
  split; [done|]. by constructor.
Qed.

Lemma runs_to_type c fuel name : runs c (to_type fuel name) (λ _, True).
Proof. apply runs_const. Qed.

Lemma runs_with_type_parameters {A} c fuel typeParams (m : M A) Φ :
  runs c m Φ → runs c (with_type_parameters fuel typeParams m) Φ.
Proof.
  apply runs_filling; try by intros [].
  apply fills_for_each; try by intros []. intros p.
  apply fills_step.
  - intros c'. eapply runs_weaken; [apply runs_mapM; intros; apply runs_to_type|done].
  - intros a cs y l Hl. rewrite Hl. eauto.
Qed.

Lemma fills_enter_regions regions : fills activeTransactions set_activeTransactions (enter_regions regions).
Proof.
  apply fills_for_each; try by intros []. intros region.
  intros s u s' y l Hl E.
  set (m := (_ ← EnsureDeclared (r_name region);
             s ← st_get;
             throw_if (usesShared region && negb (bool_decide (r_name region ∈ sharedVariables s)))
               ("transaction(shared ...) requires a shared variable: " +:+ r_name region))).
  assert (∀ c, runs c m (λ _, True)) as Hm.
  { intros c. eapply runs_bind; [apply runs_EnsureDeclared|]. intros _ _.
    eapply runs_bind; [apply runs_get|]. intros s0 _. eapply runs_weaken; [apply runs_throw_if|done]. }
  refine (fills_step _ _ m (λ _ a,
    match activeTransactions a with
    | names :: l => set_activeTransactions ({[r_name region]} ∪ names :: l) a
    | [] => a
    end) Hm _ s u s' y l Hl _); [intros a _ y' l' ->; eauto|].
  apply st_bind_Ok in E as (u1 & s1 & E1 & (s2 & s3 & E2 & (u3 & s4 & E3 & E4)%st_bind_Ok)%st_bind_Ok).
  assert (m s = Ok (u3, s4)) as Em.
  { unfold m. run_with E1. run_with E2. exact E3. }
  run_with Em. exact E4.
Qed.

Lemma runs_in_transaction {A} c regions (m : M A) Φ :
  runs c m Φ →
  runs c (pushing activeTransactions set_activeTransactions ∅ (_ ← enter_regions regions; m)) Φ.
Proof. apply runs_filling; try by intros []. apply fills_enter_regions. Qed.

End SemanticFrame.
