(* ===== verification/SemanticSpec.v ===== *)
(** * What the semantic analyzer accepts

    A visit that returns restores every stack and depth of the analyzer
    ([Visit_restores]), so the place of a node in the tree decides the depths that
    its visit sees.  [accepted_places]: in an accepted program every node that the
    analyzer visits stands where its visitor wants it, for instance [return] inside
    a function and no output inside comptime code.  What is visited, and in which
    context, is [visited_children]. *)

From S2P Require Import Prelude Ast TypeNames TypeInfo SemanticState TypeResolver Builtins SemanticCalls.
From S2P Require Import EffectResume SemanticVisitors SemanticFrame.
From Stdlib Require Import Lia.

Module SemanticSpec.
Import Ast SemanticAnalyzer TypeResolver SemanticCalls SemanticVisitors SemanticFrame.

(** ** The nodes that a visit of a node visits in turn *)

Definition not_identifier (n : Node) : bool := negb (bool_decide (is_Some (is_identifier n))).

(** The default values that [check_defaults] visits. *)
Definition visited_defaults (params : list Parameter_) : list Node :=
  defaultValue <$> filter (λ p, Is_true (negb (isVariadic p))) params.

Definition spawns (callee : Node) : bool :=
  match is_member callee with Some (_, member) => bool_decide (member = "spawn") | None => false end.

(** An argument that is a name may be resolved instead, and the first one of
    [spawn] is a group or the function. *)
Definition visited_arguments (callee : Node) (args : list Node) : list Node :=
  filter (λ n, Is_true (not_identifier n))
    (if spawns callee then drop 1 args else args).
Definition visited_callee (callee : Node) : list Node :=
  match callee with
  | IdentifierNode _ => []
  | MemberAccessNode object _ => [object]
  | _ => [callee]
  end.

(** An adapter without an argument. *)
Definition is_reverse (k : IterAdapterKind) : bool := match k with Reverse_ => true | _ => false end.

Definition visited_children (c : context) (n : Node) : list (context * Node) :=
  let here := pair c in
  match n with
  | RawNode _ l | BlockNode l | ArrayLiteralNode l => here <$> l
  | ComptimeNode a => [(in_comptime c, a)]
  | UnaryExprNode _ a | GoExprNode a | AwaitExprNode a | MemberAccessNode a _ | ExportDeclNode a _
  | ReturnNode a | PrintNode a | TransactionNode _ a | ContractNode _ a | VarDeclNode _ _ a _ _ => [here a]
  | UnsafeNode a => [(in_unsafe c, a)]
  | BinaryExprNode a _ b | IndexNode a b | WhileStatementNode a b => [here a; here b]
  | IfStatementNode a b d => [here a; here b; here d]
  | AssignmentNode _ object _ target value index =>
      here <$> (if negb (is_null object) then [object; value]
                else if negb (is_null target) then [target; value] else [value; index])
  | CallNode callee args => here <$> (visited_callee callee ++ visited_arguments callee args)
  | FunctionExprNode _ _ params _ body =>
      (here <$> visited_defaults params) ++ [(in_function_body c, body)]
  | MapLiteralNode _ _ l => here <$> (l.*1 ++ l.*2)
  | IterNode _ a l b =>
      here <$> (a :: b :: (snd <$> filter (λ x, Is_true (negb (is_reverse x.1))) l))
  | HandleNode a l => here a :: ((λ '(MkHandlerCase _ _ _ body), (in_handler c, body)) <$> l)
  | StructDeclNode _ [] _ _ l _ =>
      pair (in_function_body c) <$>
        concat ((λ '(MkStructMethod _ _ _ _ _ contracts body), body :: contracts) <$> l)
  | ActorDeclNode _ [] _ l =>
      pair (in_function_body c) <$>
        concat ((λ '(MkActorMethod _ _ _ _ _ _ contracts body), body :: contracts) <$> l)
  | FunctionDeclNode _ _ isComptime _ params _ _ contracts body =>
      (here <$> visited_defaults params)
      ++ (pair (if isComptime then in_function_body (in_comptime c) else in_function_body c)
            <$> body :: contracts)
  | _ => []
  end.

(** ** What a visitor wants of the place *)

Definition valid_parameters (params : list Parameter_) : Prop := ∀ owner, ValidateParameterList params owner = Ok tt.

Definition allowed (c : context) (n : Node) : Prop :=
  match n with
  | ReturnNode _ => functions c ≠ 0%Z ∨ comptimes c ≠ 0%Z
  | PrintNode _ | UnsafeNode _ => (comptimes c ≤ 0)%Z
  | TransactionNode regions _ => (comptimes c ≤ 0)%Z ∧ regions ≠ []
  | HandleNode _ l =>
      (comptimes c ≤ 0)%Z
      ∧ Forall (λ '(MkHandlerCase _ _ params body),
                  valid_parameters params ∧ EffectResume.CountResumeCalls body = 1) l
  | UnaryExprNode op _ => op ∈ ["+"; "-"; "!"; "not"; "*"; "&"] ∧ (op = "&" → (0 < unsafes c)%Z)
  | BinaryExprNode _ op _ => op ∈ ["and"; "or"; "&&"; "||"] ++ arithmetic_ops ++ comparison_ops
  | CallNode (IdentifierNode name) args => name = "resume" → 0 < handlers c ∧ length args = 1
  | GoExprNode call => ∃ callee args, call = CallNode callee args ∧ (is_Some (is_identifier callee) ∨ is_Some (is_member callee))
  | FunctionDeclNode _ _ _ _ params _ _ _ _ | FunctionExprNode _ _ params _ _ => valid_parameters params
  | StructDeclNode _ _ _ _ l _ => Forall (λ '(MkStructMethod _ _ params _ _ _ _), valid_parameters params) l
  | InterfaceDeclNode _ _ l | EffectDeclNode _ l =>
      Forall (λ '(MkInterfaceMethod _ _ params _), valid_parameters params) l
  | ActorDeclNode _ _ _ l => Forall (λ '(MkActorMethod _ _ _ params _ _ _ _), valid_parameters params) l
  | _ => True
  end.

(** A node that the visit of another one reaches. *)
Definition visits (x y : context * Node) : Prop := y ∈ visited_children x.1 x.2.

(** ** The visitors *)

Create HintDb runs.
#[export] Hint Constants Opaque : runs.
#[export] Hint Resolve runs_get runs_gets runs_throw_if runs_lift runs_const runs_set_last runs_on_types
  runs_on_modules runs_Define runs_Resolve runs_ResolveIsConst runs_EnsureDeclared runs_to_type : runs.

Section visitors.
Context (Accept : Node → M unit) (fuel : nat).
Hypothesis Accept_runs : ∀ c n, runs c (Accept n) (λ _, True).

(** The node has been visited in the context, and the visit returned. *)
Definition visited (c : context) (n : Node) : Prop :=
  n = NullNode ∨ ∃ s s', context_of (active s) = c ∧ Accept n s = Ok (tt, s').

Lemma runs_Accept c n : runs c (Accept n) (λ _, visited c n).
Proof.
  intros s [] s' Hc E. destruct (Accept_runs c n s tt s' Hc E) as [HF _]. split; [done|]. right; eauto.
Qed.
Lemma runs_accept c n : runs c (accept Accept n) (λ _, visited c n).
Proof. unfold accept. destruct n; try apply runs_Accept. apply runs_ret. by left. Qed.
Lemma runs_VisitAndGet c n : runs c (VisitAndGet Accept n) (λ _, visited c n).
Proof.
  unfold VisitAndGet, AnalyzeExpr. destruct (is_null n) eqn:Hn.
  { apply runs_ret. left. by destruct n. }
  eapply runs_bind; [apply runs_Accept|]. intros [] Hv.
  eapply runs_weaken; [apply runs_gets|]. done.
Qed.

Lemma runs_optional c n a : runs c (if is_null n then mret a else VisitAndGet Accept n) (λ _, visited c n).
Proof. destruct (is_null n) eqn:Hn; [|apply runs_VisitAndGet]. apply runs_ret. left. by destruct n. Qed.

Lemma runs_assignable c a b : runs c (assignable fuel a b) (λ _, True).
Proof. apply runs_const. Qed.
Lemma runs_same_type c a b : runs c (same_type fuel a b) (λ _, True).
Proof. apply runs_const. Qed.
Lemma runs_substitute c a b : runs c (substitute_parameters fuel a b) (λ _, True).
Proof. apply runs_const. Qed.
Lemma runs_bind_generic c a b d : runs c (bind_generic fuel a b d) (λ _, True).
Proof. apply runs_const. Qed.
Lemma runs_element_of c f a : runs c (element_of f a) (λ _, True).
Proof. apply runs_const. Qed.
Lemma runs_element_type c a : runs c (element_type a) (λ _, True).
Proof. unfold element_type. destruct (TypeInfo.element a); [apply runs_const|by apply runs_ret]. Qed.
Hint Resolve runs_accept runs_VisitAndGet runs_assignable runs_same_type runs_substitute runs_bind_generic
  runs_element_of runs_element_type : runs.

Lemma runs_loop {A} c (f : A → M unit) l :
  (∀ x, runs c (f x) (λ _, True)) → runs c (for_each f l) (λ _, True).
Proof. intros Hf. eapply runs_weaken; [by apply (runs_for_each _ _ (λ _, True))|done]. Qed.
Lemma runs_map {A B} c (f : A → M B) l :
  (∀ x, runs c (f x) (λ _, True)) → runs c (mapM f l) (λ _, True).
Proof. intros Hf. eapply runs_weaken; [by apply (runs_mapM _ _ (λ _ _, True))|done]. Qed.

Lemma runs_bind_ret {A B} c (a : A) (k : A → M B) Ψ : runs c (k a) Ψ → runs c (mret a ≫= k) Ψ.
Proof. intros Hk. by apply (runs_bind _ _ _ (λ x, x = a)); [apply runs_ret|intros _ ->]. Qed.

(** Symbolic execution: one bind, branch or scope at a time.  A step whose rule
    is known adds what the rule says; another one is executed on its own. *)
Ltac known := solve [eauto 1 with runs nocore].
Ltac run_scope :=
  lazymatch goal with
  | |- runs _ (in_scope _) _ => apply runs_in_scope
  | |- runs _ (in_method _ _) _ => apply runs_in_method
  | |- runs _ (deeper functionDepth _ _) _ => apply runs_deeper_function
  | |- runs _ (deeper comptimeDepth _ _) _ => apply runs_deeper_comptime
  | |- runs _ (deeper unsafeDepth _ _) _ => apply runs_deeper_unsafe
  | |- runs _ (deeper actorQueryDepth _ _) _ => apply runs_deeper_query
  | |- runs _ (pushing handledEffects _ _ _) _ => apply runs_pushing_handled
  | |- runs _ (pushing activeRaisedEffects _ _ _) _ => apply runs_pushing_raised
  | |- runs _ (pushing actorStateScopes _ _ _) _ => apply runs_pushing_state
  | |- runs _ (pushing resumeTypes _ _ _) _ => apply runs_pushing_resume
  | |- runs _ (pushing activeTransactions _ _ _) _ => apply runs_in_transaction
  | |- runs _ (expecting _ _) _ => apply runs_expecting
  | |- runs _ (with_type_parameters _ _ _) _ => apply runs_with_type_parameters
  | |- runs _ (in_function ?b _ _ _) _ => unfold in_function; apply runs_in_scope; cbv zeta;
      lazymatch b with false => cbv iota | _ => destruct b eqn:? end
  end.
Ltac run_step :=
  lazymatch goal with
  | |- runs _ (let _ := _ in _) _ => cbv zeta
  | |- runs _ (mret _) _ => apply runs_ret
  | |- runs _ (error _) _ => apply runs_throw
  | |- runs _ (st_throw _) _ => apply runs_throw
  | |- runs _ ((if is_null ?n then mret _ else VisitAndGet Accept ?n) ≫= _) _ =>
      eapply runs_bind; [apply runs_optional|];
      let a := fresh "a" in let Ha := fresh "Ha" in intros a Ha; cbv beta in Ha
  | |- runs _ (mret _ ≫= _) _ => apply runs_bind_ret; cbv beta
  | |- runs _ (_ ≫= _) _ =>
      first [eapply runs_bind; [known|]
            |apply (runs_bind _ _ _ (λ _, True)); [solve [run; try exact I]|]];
      let a := fresh "a" in let Ha := fresh "Ha" in
      intros a Ha; cbv beta in Ha
  | |- runs _ (if ?b then _ else _) _ => destruct b eqn:?
  | |- runs _ (match ?x with _ => _ end) _ => destruct x eqn:?
  | |- runs _ (for_each _ _) (λ _, True) => apply runs_loop; intros ?
  | |- runs _ (mapM _ _) (λ _, True) => apply runs_map; intros ?
  | |- runs _ _ _ => first [run_scope | eapply runs_weaken; [known|let H := fresh in intros ? H; cbv beta in H]]
  end
with run := cbv beta; repeat run_step.

(** What a visit shows of its node. *)
Definition placed (c : context) (n : Node) : Prop :=
  allowed c n ∧ Forall (λ cm, visited cm.1 cm.2) (visited_children c n).

Lemma visited_null c : visited c NullNode.
Proof. by left. Qed.
Lemma is_null_true n : is_null n = true → n = NullNode.
Proof. by destruct n. Qed.
Hint Resolve visited_null : core.

Lemma Forall_here c l : Forall (visited c) l → Forall (λ cm, visited cm.1 cm.2) (pair c <$> l).
Proof. intros H. by rewrite Forall_fmap. Qed.

Ltac nulls := repeat match goal with H : is_null _ = true |- _ => apply is_null_true in H; subst end.
(** The depths read are those of the context. *)
Ltac depths := repeat match goal with
  | H : ∃ s, context_of (active s) = _ ∧ _ = _ |- _ =>
      let s := fresh "s" in let Hs := fresh "Hs" in let Hx := fresh "Hx" in destruct H as (s & Hs & Hx)
  end; repeat match goal with
  | Hs : context_of (active _) = ?c |- _ =>
      pose proof (f_equal functions Hs); pose proof (f_equal comptimes Hs);
      pose proof (f_equal unsafes Hs); pose proof (f_equal handlers Hs); cbn in *; clear Hs
  end.
Ltac members := repeat first [apply Forall_nil_2 | apply Forall_cons_2]; cbn [fst snd]; nulls;
  first [eassumption | apply visited_null | idtac].
Ltac place := split; [try done|unfold visited_children; try apply Forall_here; members].

Lemma runs_unary c op a : runs c (Visit_UnaryExpr Accept op a) (λ _, placed c (UnaryExprNode op a)).
Proof.
  unfold Visit_UnaryExpr. run; place; (split; [set_solver|intros ->; depths; try done; lia]).
Qed.

Lemma binary_type_op op a b type : binary_type op a b = Ok type →
  op ∈ ["and"; "or"; "&&"; "||"] ++ arithmetic_ops ++ comparison_ops.
Proof.
  unfold binary_type, IsTruthyBinaryOp. case_bool_decide as H1.
  { intros _. apply elem_of_app. by left. }
  case_bool_decide as H2; [|done]. intros _. apply elem_of_app. by right.
Qed.

Lemma runs_binary c lhs op rhs :
  runs c (Visit_BinaryExpr Accept lhs op rhs) (λ _, placed c (BinaryExprNode lhs op rhs)).
Proof.
  unfold Visit_BinaryExpr, AnalyzeTypeForBinaryOp. run. place. by eapply binary_type_op.
Qed.

Lemma runs_ValidateSendable c a what : runs c (ValidateSendable fuel a what) (λ _, True).
Proof. unfold ValidateSendable. by run. Qed.
Lemma runs_Reject c what : runs c (RejectRuntimeOnlyInComptime what) (λ _, (comptimes c ≤ 0)%Z).
Proof. unfold RejectRuntimeOnlyInComptime. run. depths. lia. Qed.
Hint Resolve runs_ValidateSendable runs_Reject : runs.

(** A loop that visits one node per element. *)
Lemma runs_visit_each {A} c (f : A → M unit) (g : A → Node) l :
  (∀ x, runs c (f x) (λ _, visited c (g x))) → runs c (for_each f l) (λ _, Forall (visited c) (g <$> l)).
Proof.
  intros Hf. eapply runs_weaken; [apply (runs_for_each _ _ (λ x, visited c (g x))); intros; apply Hf|].
  intros []. by rewrite Forall_fmap.
Qed.
Lemma runs_each c (f : Node → M unit) l :
  (∀ x, runs c (f x) (λ _, visited c x)) → runs c (for_each f l) (λ _, Forall (visited c) l).
Proof. intros Hf. apply runs_for_each. auto. Qed.

Lemma runs_go c call : runs c (Visit_GoExpr Accept fuel call) (λ _, placed c (GoExprNode call)).
Proof.
  unfold Visit_GoExpr. destruct call; try apply runs_throw. run; place; eexists _, _; (split; [done|]).
  all: destruct (is_identifier _) eqn:?, (is_member _) eqn:?; try done; eauto.
Qed.

Lemma runs_await c a : runs c (Visit_AwaitExpr Accept a) (λ _, placed c (AwaitExprNode a)).
Proof. unfold Visit_AwaitExpr. run. place. Qed.

Lemma runs_assign_map c name a b d : runs c (assign_map fuel name a b d) (λ _, True).
Proof. unfold assign_map. by run. Qed.
Lemma runs_assign_array c name a b d : runs c (assign_array name a b d) (λ _, True).
Proof. unfold assign_array. by run. Qed.
Lemma runs_assign_variable c name a b : runs c (assign_variable fuel name a b) (λ _, True).
Proof. unfold assign_variable. by run. Qed.
Lemma runs_assign_self_field c name b a : runs c (assign_self_field fuel name b a) (λ _, b = false).
Proof. unfold assign_self_field. by run. Qed.
Hint Resolve runs_assign_map runs_assign_array runs_assign_variable runs_assign_self_field : runs.

Lemma runs_assignment c name object member target value index :
  runs c (Visit_Assignment Accept fuel name object member target value index)
    (λ _, placed c (AssignmentNode name object member target value index)).
Proof.
  unfold Visit_Assignment, assign_member, assign_dereferenced, AnalyzeAssignment, declared. run; place.
  all: try match goal with H : ?b = false, E : negb _ = ?b |- _ => rewrite E in H end.
  all: rewrite ?Heqb ?Heqb0; members; by destruct index.
Qed.

Lemma runs_member c object member : runs c (Visit_MemberAccess Accept object member) (λ _, placed c (MemberAccessNode object member)).
Proof. unfold Visit_MemberAccess, module_member, method_of. run; place. Qed.

Lemma runs_index c a b : runs c (Visit_Index Accept fuel a b) (λ _, placed c (IndexNode a b)).
Proof. unfold Visit_Index. run; place. Qed.

Lemma runs_element_kind c l : ∀ a, runs c (element_kind Accept l a) (λ _, Forall (visited c) l).
Proof.
  induction l as [|x l IH]; intros a; cbn [element_kind]; [by run|]. run. by constructor.
Qed.
Hint Resolve runs_element_kind : runs.
Lemma runs_array c l : runs c (Visit_ArrayLiteral Accept l) (λ _, placed c (ArrayLiteralNode l)).
Proof. unfold Visit_ArrayLiteral. run. split; [done|by apply Forall_here]. Qed.

Lemma runs_map_entries c k v l :
  runs c (for_each (λ e : Node * Node,
        actualKeyType ← VisitAndGet Accept e.1;
        b ← (if TypeInfo.has_kind TypeKind.Unknown actualKeyType then mret true
             else assignable fuel k actualKeyType);
        _ ← throw_if (negb b) "Map literal key type mismatch";
        actualValueType ← VisitAndGet Accept e.2;
        b ← (if TypeInfo.has_kind TypeKind.Unknown actualValueType then mret true
             else assignable fuel v actualValueType);
        throw_if (negb b) "Map literal value type mismatch") l) (λ _, Forall (visited c) (l.*1 ++ l.*2)).
Proof.
  eapply runs_weaken.
  { apply (runs_for_each _ _ (λ e, visited c e.1 ∧ visited c e.2)). intros e _. by run. }
  intros [] H. apply Forall_app. rewrite !Forall_fmap. split; (eapply Forall_impl; [exact H|]); by intros ? [].
Qed.
Hint Resolve runs_map_entries : runs.
Lemma runs_map_literal c k v l : runs c (Visit_MapLiteral Accept fuel k v l) (λ _, placed c (MapLiteralNode k v l)).
Proof. unfold Visit_MapLiteral. run. split; [done|by apply Forall_here]. Qed.

(** *** Calls *)

Lemma runs_compatible c a b message : runs c (ValidateTypeCompatibility fuel a b message) (λ _, True).
Proof. unfold ValidateTypeCompatibility. by run. Qed.
Lemma runs_contexts c a : runs c (ValidateContextRequirements fuel a) (λ _, True).
Proof. unfold ValidateContextRequirements. by run. Qed.
Lemma runs_ordered c name b : runs c (orderedTypeArgs fuel name b) (λ _, True).
Proof. unfold orderedTypeArgs. by run. Qed.
Lemma runs_expected_bindings c a : runs c (expected_bindings fuel a) (λ _, True).
Proof. unfold expected_bindings. by run. Qed.
Hint Resolve runs_compatible runs_contexts runs_ordered runs_expected_bindings : runs.

Lemma runs_struct_arguments c params args : length args ≤ length params →
  ∀ b, runs c (struct_arguments Accept fuel params args b) (λ _, Forall (visited c) args).
Proof.
  revert args. induction params as [|[n p] params IH]; intros [|arg args] Hl b; cbn in *; try lia; try by run.
  assert (length args ≤ length params) as Hl' by lia. specialize (IH args Hl'). run; by constructor.
Qed.

Lemma runs_struct_call c a args : runs c (AnalyzeStructConstructorCall Accept fuel a args) (λ _, Forall (visited c) args).
Proof.
  unfold AnalyzeStructConstructorCall. run.
  all: match goal with H : _ || _ = false |- _ => apply orb_false_iff in H as [_ H%Nat.ltb_ge] end.
  all: eapply runs_bind; [by apply runs_struct_arguments|]; intros b Hb; cbv beta in Hb; run; done.
Qed.

Lemma runs_enum_arguments c types args : length args = length types →
  ∀ b, runs c (enum_arguments Accept fuel types args b) (λ _, Forall (visited c) args).
Proof.
  revert args. induction types as [|p types IH]; intros [|arg args] Hl b; cbn in *; try lia; try by run.
  assert (length args = length types) as Hl' by lia. specialize (IH args Hl'). run; by constructor.
Qed.

Lemma runs_enum_call c a args : runs c (AnalyzeEnumConstructorCall Accept fuel a args) (λ _, Forall (visited c) args).
Proof.
  unfold AnalyzeEnumConstructorCall. run.
  match goal with H : negb _ = false |- _ => apply negb_false_iff, Nat.eqb_eq in H end.
  eapply runs_bind; [by apply runs_enum_arguments|]. intros b Hb; cbv beta in Hb. by run.
Qed.

(** An argument that is no name has been visited. *)
Definition argument (c : context) (n : Node) : Prop := Is_true (not_identifier n) → visited c n.
Lemma visited_argument c n : visited c n → argument c n.
Proof. by intros ? ?. Qed.

Lemma runs_addressable c n : runs c (AddressableValueType Accept n) (λ _, argument c n).
Proof. unfold AddressableValueType; destruct n; run; by intros []. Qed.
Hint Resolve runs_addressable : runs.
Lemma runs_ref_argument c a arg i : runs c (ValidateRefArgument Accept fuel a arg i) (λ _, argument c arg).
Proof. unfold ValidateRefArgument, IsConstAddressable. by run. Qed.
Hint Resolve runs_ref_argument : runs.

Lemma runs_function_arguments c a args : ∀ i b,
  runs c (function_arguments Accept fuel a i args b) (λ _, Forall (argument c) args).
Proof.
  induction args as [|arg args IH]; intros i b; cbn [function_arguments]; [by run|].
  run; constructor; auto using visited_argument.
Qed.
Hint Resolve runs_function_arguments : runs.

Lemma runs_function_call c a args : runs c (AnalyzeFunctionCall Accept fuel a args) (λ _, Forall (argument c) args).
Proof. unfold AnalyzeFunctionCall. by run. Qed.
Hint Resolve runs_function_call runs_struct_call runs_enum_call : runs.

Lemma Forall_argument c l : Forall (visited c) l → Forall (argument c) l.
Proof. intros H. eapply Forall_impl; [exact H|]. apply visited_argument. Qed.
Hint Resolve Forall_argument : core.

Lemma runs_visit_all c l :
  runs c (for_each (λ arg, _ ← VisitAndGet Accept arg; mret tt) l) (λ _, Forall (visited c) l).
Proof. apply runs_each. intros x. by run. Qed.
Hint Resolve runs_visit_all : runs.

Lemma runs_value_call c callee args :
  runs c (value_call Accept fuel callee args) (λ _, visited c callee ∧ Forall (argument c) args).
Proof. unfold value_call. run; auto. Qed.

Lemma runs_resume_call c args :
  runs c (resume_call Accept fuel args)
    (λ _, Forall (argument c) args ∧ 0 < handlers c ∧ length args = 1).
Proof.
  unfold resume_call. run. destruct Ha as (s & <- & Hs). split_and!; [|by rewrite /= -Hs /=; lia|done].
  apply Forall_singleton. by intros _.
Qed.

Lemma runs_operation_call c name args candidates :
  runs c (operation_call Accept fuel name args candidates) (λ _, Forall (argument c) args).
Proof. unfold operation_call. by run. Qed.
Hint Resolve runs_value_call runs_resume_call runs_operation_call : runs.

Lemma runs_named_call c name args :
  runs c (named_call Accept fuel name args)
    (λ b, (name = "resume" → 0 < handlers c ∧ length args = 1) ∧ (b = true → Forall (argument c) args)).
Proof. unfold named_call. run; naive_solver. Qed.

(** The arguments of a call that its visit is claimed to visit. *)
Lemma Forall_visited_arguments c callee args :
  Forall (argument c) (if spawns callee then drop 1 args else args) → Forall (visited c) (visited_arguments callee args).
Proof.
  unfold visited_arguments. intros H. apply Forall_forall. intros n [Hn Hin]%list_elem_of_filter.
  rewrite -> Forall_forall in H. by apply H.
Qed.
Lemma Forall_drop_argument c (b : bool) l : Forall (argument c) l → Forall (argument c) (if b then drop 1 l else l).
Proof. destruct b; [apply Forall_drop|done]. Qed.

Lemma runs_one_argument c what args : runs c (one_argument Accept what args) (λ _, Forall (argument c) args).
Proof. unfold one_argument. run. apply Forall_singleton. by intros _. Qed.
Hint Resolve runs_one_argument : runs.

Lemma runs_spawn_arguments c l :
  runs c (for_each (λ arg, a ← VisitAndGet Accept arg; ValidateSendable fuel a "spawn argument") l)
    (λ _, Forall (argument c) l).
Proof.
  eapply runs_weaken; [apply runs_each; intros x; by run|]. intros [] H. by apply Forall_argument.
Qed.
Hint Resolve runs_spawn_arguments : runs.

Lemma runs_spawn_call c name args :
  runs c (spawn_call Accept fuel name args) (λ _, Forall (argument c) (drop 1 args)).
Proof.
  unfold spawn_call.
  destruct (args !! (if bool_decide (name = "std.task") then 0 else 1)) as [callee|] eqn:Hcallee;
    [|apply runs_throw].
  apply (runs_bind _ _ _ (λ _, True)); [by run|intros _ _].
  eapply runs_bind; [known|]. intros type Htype. cbv beta in Htype.
  apply (runs_bind _ _ _ (λ _, True)); [by run|intros _ _].
  eapply runs_bind; [known|]. intros u Hl. cbv beta in Hl.
  eapply (runs_weaken _ _ (λ _, True)); [by run|]. intros _ _. revert Hcallee Hl.
  case_bool_decide; [done|]. intros Hcallee Hl. destruct args as [|a [|b args]]; try done.
  cbn in *. simplify_eq. constructor; [by apply visited_argument|done].
Qed.
Hint Resolve runs_spawn_call : runs.

Lemma runs_member_call c object member args :
  runs c (member_call Accept fuel object member args)
    (λ b, visited c object
          ∧ (b = true → Forall (argument c) (if bool_decide (member = "spawn") then drop 1 args else args))).
Proof.
  unfold member_call. run; (split; [done|]); intros ?; try done.
  all: try by apply Forall_drop_argument.
  match goal with H : _ && _ = true |- _ => apply andb_true_iff in H as [[_ ->]%andb_true_iff _] end. done.
Qed.
Hint Resolve runs_member_call runs_named_call : runs.

Lemma runs_unsafe_memory c callee : runs c (IsUnsafeMemoryCall Accept callee) (λ _, True).
Proof. unfold IsUnsafeMemoryCall. by run. Qed.
Hint Resolve runs_unsafe_memory : runs.

Lemma visited_call c callee args :
  Forall (visited c) (visited_callee callee) →
  Forall (argument c) (if spawns callee then drop 1 args else args) →
  Forall (λ cm, visited cm.1 cm.2) (visited_children c (CallNode callee args)).
Proof.
  intros H1 H2. apply Forall_here, Forall_app. split; [done|by apply Forall_visited_arguments].
Qed.

Ltac arguments := repeat match goal with H : _ ∧ _ |- _ => destruct H end; cbn [visited_callee spawns is_member];
  first [done | by auto | by apply Forall_singleton | by apply Forall_drop_argument; auto].

Lemma runs_call c callee args : runs c (Analyze_call Accept fuel callee args) (λ _, placed c (CallNode callee args)).
Proof.
  unfold Analyze_call.
  destruct (is_identifier callee) as [name|] eqn:Hname.
  { destruct callee; simplify_eq/=. run; (split; [arguments|apply visited_call; arguments]). }
  assert (allowed c (CallNode callee args)) as Hallowed by by destruct callee.
  destruct (is_member callee) as [[object member]|] eqn:Hmember.
  - destruct callee; simplify_eq/=. run; (split; [done|]); apply visited_call; arguments.
  - assert (visited_callee callee = [callee]) as Hcallee by by destruct callee.
    assert (spawns callee = false) as Hspawns by by destruct callee.
    run; (split; [done|]); apply visited_call; rewrite ?Hcallee ?Hspawns; arguments.
Qed.

(** *** Functions *)

Lemma validate_owner sd sv params owner owner' :
  validate_parameters sd sv params owner = Ok tt → validate_parameters sd sv params owner' = Ok tt.
Proof.
  revert sd sv. induction params as [|p params IH]; intros sd sv; cbn; [done|].
  repeat case_match; try done; apply IH.
Qed.
Lemma runs_validate c params owner :
  runs c (lift (ValidateParameterList params owner)) (λ _, valid_parameters params).
Proof.
  eapply runs_weaken; [apply runs_lift|]. intros [] H owner'. by eapply validate_owner.
Qed.

Lemma runs_check_defaults c what params : ∀ n,
  runs c (check_defaults Accept fuel what params n) (λ _, Forall (visited c) (visited_defaults params)).
Proof.
  unfold visited_defaults.
  induction params as [|p params IH]; intros n; cbn [check_defaults]; [by run|].
  rewrite filter_cons. destruct (isVariadic p) eqn:Hv; cbn [negb].
  { destruct (decide (Is_true false)) as [[]|_]. by run. }
  destruct (decide (Is_true true)) as [_|[]]; [|done]. cbn [fmap list_fmap].
  run; constructor; try done. unfold hasDefaultValue in *. by destruct (defaultValue p).
Qed.

Lemma runs_fixed c params : runs c (fixed_types fuel params) (λ _, True).
Proof. apply runs_const. Qed.
Lemma runs_variadic c params : runs c (variadic_type fuel params) (λ _, True).
Proof. apply runs_const. Qed.
Lemma runs_context_types c l : runs c (context_types fuel l) (λ _, True).
Proof. unfold context_types. by run. Qed.
Lemma runs_qualify_all c l : runs c (qualify_all l) (λ _, True).
Proof. unfold qualify_all. by run. Qed.
Lemma runs_define_parameters c params : runs c (define_parameters fuel params) (λ _, True).
Proof. unfold define_parameters. by run. Qed.
Lemma runs_define_contexts c l : runs c (define_contexts fuel l) (λ _, True).
Proof. unfold define_contexts. by run. Qed.
Lemma runs_define_option c name a : runs c (define_option name a) (λ _, True).
Proof. unfold define_option. by run. Qed.
Lemma runs_register_global c name a : runs c (register_global name a) (λ _, True).
Proof. unfold register_global. by run. Qed.
Hint Resolve runs_validate runs_check_defaults runs_fixed runs_variadic runs_context_types runs_qualify_all
  runs_define_parameters runs_define_contexts runs_define_option runs_register_global : runs.

Lemma runs_accept_all c l : runs c (for_each (accept Accept) l) (λ _, Forall (visited c) l).
Proof. apply runs_each. intros n. apply runs_accept. Qed.
Hint Resolve runs_accept_all : runs.

Lemma runs_contract c k a : runs c (Visit_Contract Accept a) (λ _, placed c (ContractNode k a)).
Proof. unfold Visit_Contract. run; place. Qed.

Lemma runs_contracts c l r self : runs c (ValidateContractList Accept l r self) (λ _, Forall (visited c) l).
Proof. unfold ValidateContractList. destruct l as [|n l]; [by run|]. by run. Qed.
Hint Resolve runs_contracts : runs.

Lemma Forall_body c defaults inside :
  Forall (visited c) defaults → Forall (λ cm, visited cm.1 cm.2) inside →
  Forall (λ cm, visited cm.1 cm.2) ((pair c <$> defaults) ++ inside).
Proof. intros H1 H2. apply Forall_app. split; [by apply Forall_here|done]. Qed.

Lemma runs_function c name r isComptime typeParams params contexts raised contracts body :
  runs c (Visit_FunctionDecl Accept fuel name r isComptime typeParams params contexts raised contracts body)
    (λ _, placed c (FunctionDeclNode name r isComptime typeParams params contexts raised contracts body)).
Proof.
  unfold Visit_FunctionDecl. run; (split; [done|]).
  all: apply Forall_body; [done|]; by apply Forall_here, Forall_cons_2.
Qed.

Lemma runs_infer_return c l : ∀ a, runs c (infer_return Accept fuel l a) (λ _, True).
Proof.
  induction l as [|n l IH]; intros a; cbn [infer_return]; [by run|]. destruct n; try apply IH. by run.
Qed.
Hint Resolve runs_infer_return : runs.

Lemma runs_lambda c name r params raised body :
  runs c (Visit_FunctionExpr Accept fuel r params raised body)
    (λ _, placed c (FunctionExprNode name r params raised body)).
Proof.
  unfold Visit_FunctionExpr, InferFunctionBodyReturnType. run. split; [done|].
  apply Forall_body; [done|]. by apply Forall_singleton.
Qed.

(** *** Statements *)

Lemma runs_block c l : runs c (Visit_Block Accept l) (λ _, placed c (BlockNode l)).
Proof. unfold Visit_Block. run. split; [done|by apply Forall_here]. Qed.

Lemma runs_export c n name : runs c (Visit_ExportDecl Accept n name) (λ _, placed c (ExportDeclNode n name)).
Proof.
  unfold Visit_ExportDecl. eapply runs_bind; [known|]. intros s _.
  apply (runs_bind _ _ _ (λ _, True)); [by run|]. intros _ _.
  destruct (is_null n) eqn:?; [run; place|]. eapply runs_weaken; [apply runs_Accept|]. intros [] H. place.
Qed.

Lemma runs_if c a b d : runs c (Visit_IfStatement Accept a b d) (λ _, placed c (IfStatementNode a b d)).
Proof. unfold Visit_IfStatement. run. place. Qed.
Lemma runs_while c a b : runs c (Visit_WhileStatement Accept a b) (λ _, placed c (WhileStatementNode a b)).
Proof. unfold Visit_WhileStatement. run. place. Qed.
Lemma runs_module c name : runs c (Visit_ModuleDecl name) (λ _, True).
Proof.
  unfold Visit_ModuleDecl. eapply runs_bind; [apply runs_modify; by constructor|]. intros [] _. by run.
Qed.

Lemma runs_return c a : runs c (Visit_Return Accept fuel a) (λ _, placed c (ReturnNode a)).
Proof.
  unfold Visit_Return. run; depths; split; try (cbn; lia); members.
Qed.

Lemma runs_print c a : runs c (Visit_Print Accept a) (λ _, placed c (PrintNode a)).
Proof. unfold Visit_Print. run. place. Qed.
Lemma runs_unsafe c a : runs c (Visit_Unsafe Accept a) (λ _, placed c (UnsafeNode a)).
Proof. unfold Visit_Unsafe. run. place. Qed.
Lemma runs_transaction c l a : runs c (Visit_Transaction Accept l a) (λ _, placed c (TransactionNode l a)).
Proof. unfold Visit_Transaction. run. place. split; [done|]. by intros ->. Qed.
Lemma runs_comptime c a : runs c (Visit_Comptime Accept a) (λ _, placed c (ComptimeNode a)).
Proof. unfold Visit_Comptime. run; place. Qed.

(** *** Handlers *)

Lemma runs_handler_effect c name : runs c (handler_effect name) (λ _, True).
Proof.
  unfold handler_effect. eapply runs_bind; [known|]. intros s _. cbv zeta.
  eapply runs_bind; [known|]. intros [] _.
  eapply runs_bind; [apply runs_modify; by constructor|]. intros [] _. by run.
Qed.
Hint Resolve runs_handler_effect : runs.

Definition handler_parameters (h : EffectHandlerCase) : Prop :=
  let 'MkHandlerCase _ _ params _ := h in valid_parameters params.
Lemma runs_handled_effects c l : runs c (handled_effects l) (λ _, Forall handler_parameters l).
Proof.
  unfold handled_effects. eapply runs_bind.
  { apply (runs_mapM _ _ (λ h _, handler_parameters h)). intros [name key params body] _. by run. }
  intros effects H. cbv beta in H. run.
  induction H; by constructor.
Qed.

Lemma runs_define_handler_parameters c name operation params : ∀ i,
  runs c (define_handler_parameters name operation i params) (λ _, True).
Proof. induction params as [|p params IH]; intros i; cbn [define_handler_parameters]; by run. Qed.
Hint Resolve runs_handled_effects runs_define_handler_parameters : runs.

Definition handler_visited (c : context) (h : EffectHandlerCase) : Prop :=
  let 'MkHandlerCase _ _ _ body := h in
  EffectResume.CountResumeCalls body = 1 ∧ visited (in_handler c) body.
Lemma runs_visit_handler c h : runs c (visit_handler Accept h) (λ _, handler_visited c h).
Proof.
  destruct h as [name key params body]. unfold visit_handler. run. split; [|done].
  match goal with H : negb (_ =? 1) = false |- _ => by apply negb_false_iff, Nat.eqb_eq in H end.
Qed.
Lemma runs_handlers c l : runs c (for_each (visit_handler Accept) l) (λ _, Forall (handler_visited c) l).
Proof. apply runs_for_each. intros h _. apply runs_visit_handler. Qed.
Hint Resolve runs_handlers : runs.

Lemma runs_handle c a l : runs c (Visit_Handle Accept a l) (λ _, placed c (HandleNode a l)).
Proof.
  unfold Visit_Handle. run.
  match goal with Hp : Forall handler_parameters l, Hv : Forall (handler_visited c) l |- _ =>
    rename Hp into Hparams, Hv into Hvisited end.
  split.
  - split; [done|]. apply Forall_forall. intros [name key params body] Hin.
    rewrite -> Forall_forall in Hparams, Hvisited. split; [by apply Hparams in Hin|by apply Hvisited in Hin as [? _]].
  - apply Forall_cons_2; [done|]. apply Forall_fmap. eapply Forall_impl; [exact Hvisited|].
    by intros [name key params body] [_ ?].
Qed.

(** *** Iterators, literals and the nodes of the parser *)

Definition adapter_visited (c : context) (x : IterAdapterKind * Node) : Prop :=
  Is_true (negb (is_reverse x.1)) → visited c x.2.
Lemma runs_visit_adapter c a x : runs c (visit_adapter Accept fuel a x) (λ _, adapter_visited c x).
Proof.
  assert (∀ e p m, runs c (check_adapter_parameter fuel e p m) (λ _, True)) as Hcheck.
  { intros e p m. unfold check_adapter_parameter. by run. }
  unfold visit_adapter, adapter_visited. destruct x as [k n]. cbn. run; subst; by intros [].
Qed.
Hint Resolve runs_visit_adapter : runs.
Lemma runs_visit_adapters c l : ∀ a, runs c (visit_adapters Accept fuel a l) (λ _, Forall (adapter_visited c) l).
Proof. induction l as [|x l IH]; intros a; cbn [visit_adapters]; run; by constructor. Qed.
Hint Resolve runs_visit_adapters : runs.

Lemma runs_iter c name a l b : runs c (Visit_Iter Accept fuel name a l b) (λ _, placed c (IterNode name a l b)).
Proof.
  unfold Visit_Iter. run; (split; [done|]).
  all: apply Forall_here, Forall_cons_2; [done|]; apply Forall_cons_2; [done|].
  all: apply Forall_fmap, Forall_forall; intros x [Hx Hin]%list_elem_of_filter.
  all: match goal with H : Forall (adapter_visited _) _ |- _ => rewrite -> Forall_forall in H; by apply H end.
Qed.

Lemma runs_visit_children c l : ∀ a, runs c (visit_children Accept l a) (λ _, Forall (visited c) l).
Proof.
  induction l as [|n l IH]; intros a; cbn [visit_children]; [by run|].
  destruct (is_null n) eqn:?.
  { eapply runs_weaken; [apply IH|]. intros x Hl. constructor; [by nulls|done]. }
  eapply runs_bind; [apply runs_Accept|]. intros [] Hn. run. by constructor.
Qed.
Hint Resolve runs_visit_children : runs.
Lemma runs_raw c name l : runs c (Visit_Raw Accept l) (λ _, placed c (RawNode name l)).
Proof.
  unfold Visit_Raw. eapply runs_bind; [known|]. intros a Hl. cbv beta in Hl.
  eapply (runs_weaken _ _ (λ _, True)); [by run|]. intros [] _. split; [done|by apply Forall_here].
Qed.

(** *** Declarations *)

Lemma runs_modify_last c (f : t → t) : (∀ s, frame s (f s)) → runs c (st_modify f) (λ _, True).
Proof. apply runs_modify. Qed.

Lemma runs_var c name type n isConst storage :
  runs c (Visit_VarDecl Accept fuel name type n isConst storage) (λ _, placed c (VarDeclNode name type n isConst storage)).
Proof.
  unfold Visit_VarDecl.
  eapply runs_bind; [known|]. intros expectedType _. cbv zeta.
  apply (runs_bind _ _ _ (λ _, visited c n)).
  { destruct (is_null n) eqn:Hn; [nulls; by run|]. by run. }
  intros initType Hn. eapply (runs_weaken _ _ (λ _, True)); [|intros [] _; by place].
  eapply runs_bind; [|intros b _].
  { instantiate (1 := λ _, True). by run. }
  eapply runs_bind; [known|]. intros [] _. eapply runs_bind; [known|]. intros [] _.
  apply (runs_bind _ _ _ (λ _, True)).
  { case_match; [apply runs_modify; by constructor|by run]. }
  intros [] _. by run.
Qed.

Lemma runs_alias c name aliased typeParams :
  runs c (Visit_TypeAlias name aliased typeParams) (λ _, placed c (TypeAliasNode name aliased typeParams)).
Proof. unfold Visit_TypeAlias. run; place. Qed.

Lemma runs_method_type c what name r params contexts raised :
  runs c (method_type fuel what name r params contexts raised) (λ _, valid_parameters params).
Proof. unfold method_type. by run. Qed.
Hint Resolve runs_method_type : runs.

Lemma runs_interface_type c name : runs c (interface_type fuel name) (λ _, True).
Proof. unfold interface_type. by run. Qed.
Hint Resolve runs_interface_type : runs.
Lemma runs_check_interfaces c name a l : runs c (check_interfaces fuel name a l) (λ _, True).
Proof. unfold check_interfaces. by run. Qed.
Lemma runs_register_constructor c name q x : runs c (register_constructor name q x) (λ _, True).
Proof. apply runs_on_types. Qed.
Lemma runs_field_types c l : runs c (field_types fuel l) (λ _, True).
Proof. unfold field_types. by run. Qed.
Hint Resolve runs_check_interfaces runs_register_constructor runs_field_types : runs.

(** A loop that finds the parameters of every element valid. *)
Lemma Forall2_left {A B} (P : A → Prop) (l : list A) (k : list B) : Forall2 (λ x _, P x) l k → Forall P l.
Proof. induction 1; by constructor. Qed.
Lemma runs_mapM_left {A B} c (f : A → M B) (P : A → Prop) l :
  (∀ x, runs c (f x) (λ _, P x)) → runs c (mapM f l) (λ _, Forall P l).
Proof.
  intros Hf. eapply runs_weaken; [apply (runs_mapM _ _ (λ x _, P x)); intros; apply Hf|].
  intros k. apply Forall2_left.
Qed.

Definition struct_parameters (m : StructMethodDecl) : Prop :=
  let 'MkStructMethod _ _ params _ _ _ _ := m in valid_parameters params.
Definition signature_parameters (m : InterfaceMethodSig) : Prop :=
  let 'MkInterfaceMethod _ _ params _ := m in valid_parameters params.
Definition actor_parameters (m : ActorMethodDecl) : Prop :=
  let 'MkActorMethod _ _ _ params _ _ _ _ := m in valid_parameters params.

Lemma runs_struct_type c name g fields ifs l :
  runs c (struct_type fuel name g fields ifs l) (λ _, Forall struct_parameters l).
Proof.
  unfold struct_type. eapply runs_bind; [known|]. intros fs _.
  eapply runs_bind.
  { apply (runs_mapM_left _ _ struct_parameters). intros []. known. }
  intros ms H. cbv beta in H. by run.
Qed.
Hint Resolve runs_struct_type : runs.

Definition struct_method_visited (c : context) (m : StructMethodDecl) : Prop :=
  let 'MkStructMethod _ _ _ _ _ contracts body := m in
  Forall (visited (in_function_body c)) (body :: contracts).
Lemma runs_struct_method c a m : runs c (visit_struct_method Accept fuel a m) (λ _, struct_method_visited c m).
Proof. destruct m. unfold visit_struct_method. run. by apply Forall_cons_2. Qed.
Lemma runs_struct_methods c a l :
  runs c (for_each (visit_struct_method Accept fuel a) l) (λ _, Forall (struct_method_visited c) l).
Proof. apply runs_for_each. intros m _. apply runs_struct_method. Qed.
Hint Resolve runs_struct_methods : runs.

(** The nodes of a list of methods. *)
Lemma Forall_methods {A} c (f : A → list Node) l :
  Forall (λ m, Forall (visited c) (f m)) l →
  Forall (λ cm, visited cm.1 cm.2) (pair c <$> concat (f <$> l)).
Proof. intros H. apply Forall_here, Forall_concat. by rewrite Forall_fmap. Qed.

Lemma runs_struct c name typeParams fields ifs l contracts :
  runs c (Visit_StructDecl Accept fuel name typeParams fields ifs l)
    (λ _, placed c (StructDeclNode name typeParams fields ifs l contracts)).
Proof.
  unfold Visit_StructDecl. destruct typeParams as [|p ps]; run; (split; [|try by constructor]).
  1, 3: by match goal with H : Forall struct_parameters _ |- _ => exact H end.
  apply Forall_methods.
  match goal with H : Forall (struct_method_visited _) _ |- _ => eapply Forall_impl; [exact H|] end.
  by intros [].
Qed.

Lemma runs_interface_methods c l : runs c (interface_methods fuel l) (λ _, Forall signature_parameters l).
Proof.
  unfold interface_methods. eapply runs_bind.
  { apply (runs_mapM_left _ _ signature_parameters). intros []. known. }
  intros ms H. cbv beta in H. by run.
Qed.
Hint Resolve runs_interface_methods : runs.
Lemma runs_interface c name typeParams l :
  runs c (Visit_InterfaceDecl fuel name typeParams l) (λ _, placed c (InterfaceDeclNode name typeParams l)).
Proof. unfold Visit_InterfaceDecl. destruct typeParams; run; (split; [done|by constructor]). Qed.

Lemma runs_effect c name l : runs c (Visit_EffectDecl fuel name l) (λ _, placed c (EffectDeclNode name l)).
Proof.
  unfold Visit_EffectDecl. eapply runs_bind.
  { apply (runs_mapM_left _ _ signature_parameters). intros []. unfold visit_operation. by run. }
  intros ms H. cbv beta in H. run. split; [done|by constructor].
Qed.

Lemma runs_actor_fields c check l : ∀ seen, runs c (actor_fields fuel check seen l) (λ _, True).
Proof. induction l as [|[] l IH]; intros seen; cbn [actor_fields]; by run. Qed.
Lemma runs_sendable_parameters c l : runs c (sendable_parameters fuel l) (λ _, True).
Proof. unfold sendable_parameters. by run. Qed.
Hint Resolve runs_actor_fields runs_sendable_parameters : runs.
Lemma runs_actor_method_types c l : runs c (mapM (actor_method_type fuel) l) (λ _, Forall actor_parameters l).
Proof. apply runs_mapM_left. intros []. unfold actor_method_type. by run. Qed.

Definition actor_method_visited (c : context) (m : ActorMethodDecl) : Prop :=
  let 'MkActorMethod _ _ _ _ _ _ contracts body := m in
  Forall (visited (in_function_body c)) (body :: contracts).
Lemma runs_actor_method c a fs m : runs c (visit_actor_method Accept fuel a fs m) (λ _, actor_method_visited c m).
Proof. destruct m. unfold visit_actor_method. run; by apply Forall_cons_2. Qed.
Lemma runs_actor_methods c a fs l :
  runs c (for_each (visit_actor_method Accept fuel a fs) l) (λ _, Forall (actor_method_visited c) l).
Proof. apply runs_for_each. intros m _. apply runs_actor_method. Qed.
Hint Resolve runs_actor_method_types runs_actor_methods : runs.

Lemma runs_actor c name typeParams fields l :
  runs c (Visit_ActorDecl Accept fuel name typeParams fields l) (λ _, placed c (ActorDeclNode name typeParams fields l)).
Proof.
  unfold Visit_ActorDecl. destruct typeParams as [|p ps].
  - run. split; [by match goal with H : Forall actor_parameters _ |- _ => exact H end|].
    apply Forall_methods.
    match goal with H : Forall (actor_method_visited _) _ |- _ => eapply Forall_impl; [exact H|] end.
    by intros [].
  - eapply runs_bind; [known|]. intros s _. apply runs_with_type_parameters.
    eapply runs_bind; [known|]. intros [fs n] _.
    eapply runs_bind; [apply (runs_mapM_left _ _ actor_parameters); intros []; known|].
    intros ms H. cbv beta in H. run. split; [exact H|by constructor].
Qed.

Lemma runs_variants c name l : ∀ i, runs c (visit_variants fuel name i l) (λ _, True).
Proof. induction l as [|v l IH]; intros i; cbn [visit_variants]; by run. Qed.
Hint Resolve runs_variants : runs.
Lemma runs_enum c name typeParams l :
  runs c (Visit_EnumDecl fuel name typeParams l) (λ _, placed c (EnumDeclNode name typeParams l)).
Proof. unfold Visit_EnumDecl. destruct typeParams; run; (split; [done|by constructor]). Qed.

(** *** Every node *)

Lemma placed_leaf c n : allowed c n → visited_children c n = [] → placed c n.
Proof. intros H E. split; [done|]. rewrite E. constructor. Qed.

Lemma runs_node c n : runs c (visit_node Accept fuel n) (λ _, placed c n).
Proof.
  destruct n; cbn [visit_node]; eauto using runs_raw, runs_comptime, runs_unary, runs_binary, runs_assignment,
    runs_call, runs_go, runs_await, runs_member, runs_index, runs_lambda, runs_array, runs_map_literal,
    runs_block, runs_export, runs_if, runs_while, runs_iter, runs_return, runs_print, runs_unsafe,
    runs_transaction, runs_handle, runs_contract, runs_var, runs_alias, runs_struct, runs_enum,
    runs_interface, runs_effect, runs_actor, runs_function.
  all: eapply (runs_weaken _ _ (λ _, True)); [|intros [] _; by apply placed_leaf].
  all: first [apply runs_module | unfold Visit_Leaf, Visit_ImportDecl; by run].
Qed.
End visitors.

(** ** Every tree *)

Lemma Visit_runs fuel n : ∀ c node,
  runs c (Visit fuel n node) (λ _, placed (Visit fuel (pred n)) c node).
Proof.
  induction n as [|n IH]; intros c node; [by intros s a s'|].
  apply runs_node. intros c' node'. eapply runs_weaken; [apply IH|done].
Qed.

(** C16. A visit that returns has put everything back: the stacks of type
    parameters, effects, handlers, actor states and transactions, the depths and
    the expected return type are those before, and as many scopes are open. *)
Theorem Visit_restores fuel n node s s' :
  Visit fuel n node s = Ok (tt, s') →
  active s' = active s
  ∧ length (EnvironmentState.scopes (environment s')) = length (EnvironmentState.scopes (environment s))
  ∧ EnvironmentState.selves (environment s') = EnvironmentState.selves (environment s).
Proof. intros E. by destruct (Visit_runs fuel n _ node s tt s' eq_refl E) as [[Ha Hs Hv] _]. Qed.

Lemma visited_allowed fuel n : ∀ c node, visited (Visit fuel n) c node →
  ∀ y, rtc visits (c, node) y → allowed y.1 y.2.
Proof.
  induction n as [|n IH]; intros c node [->|(s & s' & Hc & E)] y Hy; try done.
  1, 2: inversion Hy as [|? z ? Hz]; [done|]; by apply not_elem_of_nil in Hz.
  destruct (Visit_runs fuel (S n) c node s tt s' Hc E) as [_ [Hallowed Hchildren]]. cbn [pred] in Hchildren.
  inversion Hy as [|? [c' m] ? Hz Hrest]; [done|]. apply (IH c' m); [|done].
  rewrite -> Forall_forall in Hchildren. apply (Hchildren (c', m)). exact Hz.
Qed.

Lemma runs_register c fuel : runs c (Builtins.RegisterBuiltinModules fuel) (λ _, True).
Proof.
  unfold Builtins.RegisterBuiltinModules, Builtins.register_function.
  eapply runs_weaken; [apply (runs_for_each _ _ (λ _, True))|done]. intros m _.
  destruct (_ && _); [by apply runs_ret|].
  eapply runs_weaken; [apply (runs_for_each _ _ (λ _, True))|done]. intros f _.
  do 3 (eapply runs_bind; [apply runs_const|]; intros ? _).
  eapply runs_bind; [apply runs_on_modules|]. intros [] _. apply runs_on_modules.
Qed.

Definition top_level : context := MkContext 0 0 0 0.

(** C15. In a program that the analyzer accepts every node that it visits, at any
    depth, stands at a place that its visitor allows: a [return] in a function or
    in comptime code, output, handlers and transactions outside comptime code,
    the address of a variable in an [unsafe] block, [resume] with one argument in
    a handler, one [resume] in the body of each handler, and valid lists of
    parameters.  The first argument of a call of a member [spawn] is not counted
    among the nodes that are visited: for some modules it is not. *)
Theorem accepted_places fuel n root s' :
  Analyze fuel n root init = Ok (tt, s') →
  ∀ c m, rtc visits (top_level, root) (c, m) → allowed c m.
Proof.
  intros ([] & s & E & _)%st_bind_Ok c m Hm. unfold Analyze_types in E.
  apply st_bind_Ok in E as ([] & s1 & [= <-] & E).
  apply st_bind_Ok in E as ([] & s2 & E2 & E). apply st_bind_Ok in E as ([] & s3 & E3 & E).
  assert (active s2 = no_active) as Ha2.
  { unfold Builtins.RegisterBuiltinTypes, on_types in E2. apply st_bind_Ok in E2 as ([] & s4 & [= <-] & [= <-]). done. }
  destruct (runs_register top_level fuel s2 tt s3) as [[Ha3 _ _] _]; [by rewrite Ha2|done|].
  refine (visited_allowed fuel n top_level root _ (c, m) Hm).
  unfold accept in E. destruct (is_null root) eqn:Hnull; [left; by destruct root|].
  right. exists s3, s. by rewrite Ha3 Ha2.
Qed.

End SemanticSpec.
