(* ===== verification/SemanticExamples.v ===== *)
(** * Programs and the semantic analyzer

    Small trees analyzed by the kernel: the instances of the theorems of
    [SemanticSpec], and what the analyzer does where a program would surprise. *)

From S2P Require Import Prelude Ast TypeInfo SemanticState TypeResolver Builtins SemanticCalls SemanticVisitors.
From S2P Require Import SemanticFrame SemanticSpec TypeInfoSpec TypeResolverSpec.

Module SemanticExamples.
Import Ast SemanticAnalyzer SemanticFrame SemanticVisitors SemanticSpec.

(** ** Programs *)

Definition program (l : list Node) : Node := RawNode "program" l.
Definition ident : string → Node := IdentifierNode.
Definition int (z : Z) : Node := IntegerLiteralNode z.
Definition text : string → Node := StringLiteralNode.
Definition var (name type : string) (value : Node) : Node := VarDeclNode name type value false Default_.
Definition constant (name : string) (value : Node) : Node := VarDeclNode name "" value true Default_.
Definition assign (name : string) (value : Node) : Node := AssignmentNode name NullNode "" NullNode value NullNode.
Definition assign_at (name : string) (index : Z) (value : Node) : Node :=
  AssignmentNode name NullNode "" NullNode value (int index).
Definition function (name type : string) (body : list Node) : Node :=
  FunctionDeclNode name type false [] [] [] [] [] (BlockNode body).
Definition query (name type : string) (body : list Node) : ActorMethodDecl :=
  MkActorMethod Query name type [] [] [] [] (BlockNode body).

(** How the analysis ends. *)
Definition verdict (l : list Node) : result unit := fst <$> Analyze 40 40 (program l) init.
Definition accepted : result unit := Ok tt.
Definition refused (message : string) : result unit := Throw (runtime_error message).

(** ** Places *)

Example misplaced :
  verdict [ReturnNode (int 1)] = refused "return is only allowed inside a function or comptime block"
  ∧ verdict [var "x" "" (int 1); var "p" "" (UnaryExprNode "&" (ident "x"))]
    = refused "Address-of requires an unsafe block"
  ∧ verdict [ComptimeNode (BlockNode [PrintNode (int 1)])]
    = refused "Runtime-only operation is not allowed in comptime context: print"
  ∧ verdict [CallNode (ident "resume") [int 1]]
    = refused "resume(value) is only available inside an effect handler"
  ∧ verdict [TransactionNode [] (BlockNode [])] = refused "transaction requires at least one region".
Proof. split_and!; vm_compute; reflexivity. Qed.

(** A function, an unsafe block and an effect with its handler. *)
Definition placed_program : list Node :=
  [function "one" "int" [ReturnNode (int 1)];
   var "x" "int" (CallNode (ident "one") []);
   UnsafeNode (BlockNode [var "p" "" (UnaryExprNode "&" (ident "x"))]);
   EffectDeclNode "Ask" [MkInterfaceMethod "ask" "int" [] []];
   HandleNode (CallNode (ident "ask") [])
     [MkHandlerCase "ask" "" [] (BlockNode [CallNode (ident "resume") [int 2]])]].

Lemma accepted_places_witness :
  (∃ s', Analyze 40 40 (program placed_program) init = Ok (tt, s'))
  ∧ allowed (MkContext 1 0 0 0) (ReturnNode (int 1))
  ∧ allowed (MkContext 0 0 1 0) (UnaryExprNode "&" (ident "x"))
  ∧ allowed (MkContext 0 0 0 1) (CallNode (ident "resume") [int 2]).
Proof.
  destruct (Analyze 40 40 (program placed_program) init) as [[[] s']| |] eqn:E; try (vm_compute in E; discriminate E).
  split; [exists s'; reflexivity|].
  pose proof (accepted_places 40 40 (program placed_program) s' E) as H.
  split; [apply H|split; apply H].
  - apply rtc_l with (top_level, function "one" "int" [ReturnNode (int 1)]); [left|].
    apply rtc_l with (MkContext 1 0 0 0, BlockNode [ReturnNode (int 1)]); [left|]. apply rtc_once. left.
  - apply rtc_l with (top_level, UnsafeNode (BlockNode [var "p" "" (UnaryExprNode "&" (ident "x"))])); [do 2 right; left|].
    apply rtc_l with (MkContext 0 0 1 0, BlockNode [var "p" "" (UnaryExprNode "&" (ident "x"))]); [left|].
    apply rtc_l with (MkContext 0 0 1 0, var "p" "" (UnaryExprNode "&" (ident "x"))); [left|]. apply rtc_once. left.
  - apply rtc_l with (top_level, HandleNode (CallNode (ident "ask") [])
      [MkHandlerCase "ask" "" [] (BlockNode [CallNode (ident "resume") [int 2]])]); [do 4 right; left|].
    apply rtc_l with (MkContext 0 0 0 1, BlockNode [CallNode (ident "resume") [int 2]]); [right; left|].
    apply rtc_once. left.
Defined.

(** One scope, and nothing declared. *)
Definition empty_scope : t := set_environment EnvironmentState.Reset init.

Lemma Visit_restores_witness :
  ∃ s', Visit 40 40 (program placed_program) empty_scope = Ok (tt, s')
  ∧ active s' = active empty_scope ∧ length (EnvironmentState.scopes (environment s')) = 1.
Proof.
  destruct (Visit 40 40 (program placed_program) empty_scope) as [[[] s']| |] eqn:E; try (vm_compute in E; discriminate E).
  exists s'. split; [reflexivity|].
  destruct (Visit_restores 40 40 (program placed_program) empty_scope s' E) as (Ha & Hs & _).
  split; [exact Ha|exact Hs].
Defined.

(** ** Types that contain themselves *)

(** [type A = A; var x: A = 1] *)
Example alias_cycle_overflows : verdict [TypeAliasNode "A" "A" []; var "x" "A" (int 1)] = Diverge.
Proof. vm_compute. reflexivity. Qed.

(** [import util as util; var x: util.T = 1] *)
Example import_cycle_overflows : verdict [ImportDeclNode "util" "util"; var "x" "util.T" (int 1)] = Diverge.
Proof. vm_compute. reflexivity. Qed.

(** [var a = [1]; a[0] = a; a = a] *)
Example array_cycle_overflows :
  verdict [var "a" "" (ArrayLiteralNode [int 1]); assign_at "a" 0 (ident "a"); assign "a" (ident "a")] = Diverge.
Proof. vm_compute. reflexivity. Qed.

(** ** Assignments to elements *)

(** The element type of an array changes for every name of it: after
    [a[0] = "s"] the elements of [x] are no integers. *)
Example element_type_changes_for_aliases :
  verdict [var "a" "" (ArrayLiteralNode [int 1]); var "x" "" (ident "a"); assign_at "a" 0 (text "s");
           var "y" "int" (IndexNode (ident "x") (int 0))]
    = refused "Type mismatch in declaration of 'y': expected int"
  ∧ verdict [var "a" "[int]" (ArrayLiteralNode [int 1]); assign_at "a" 0 (text "s")] = accepted.
Proof. split; vm_compute; reflexivity. Qed.

(** The tests of constants, shared variables and actor states are made for
    whole variables only. *)
Example elements_escape_the_tests :
  verdict [constant "a" (ArrayLiteralNode [int 1]); assign "a" (ArrayLiteralNode [int 2])]
    = refused "Cannot assign to const variable: a"
  ∧ verdict [constant "a" (ArrayLiteralNode [int 1]); assign_at "a" 0 (int 2)] = accepted
  ∧ verdict [VarDeclNode "a" "" (ArrayLiteralNode [int 1]) false Shared; assign "a" (ArrayLiteralNode [int 2])]
    = refused "Shared variable mutation requires transaction(shared a)"
  ∧ verdict [VarDeclNode "a" "" (ArrayLiteralNode [int 1]) false Shared; assign_at "a" 0 (int 2)] = accepted
  ∧ verdict [ActorDeclNode "A" [] [MkActorField "f" "[int]" NullNode]
               [query "q" "int" [assign "f" (ArrayLiteralNode [int 2]); ReturnNode (int 1)]]]
    = refused "Query methods cannot mutate actor state"
  ∧ verdict [ActorDeclNode "A" [] [MkActorField "f" "[int]" NullNode]
               [query "q" "int" [assign_at "f" 0 (int 2); ReturnNode (int 1)]]] = accepted.
Proof. split_and!; vm_compute; reflexivity. Qed.

(** ** What is not looked at *)

(** The bodies of the methods of a generic structure and the default values of
    the fields of an actor. *)
Example unvisited_code :
  verdict [StructDeclNode "Box" [MkTypeParameter "T" []] [] []
             [MkStructMethod "m" "int" [] [] [] [] (BlockNode [ReturnNode (ident "undefined")])] []] = accepted
  ∧ verdict [StructDeclNode "Box" [] [] []
             [MkStructMethod "m" "int" [] [] [] [] (BlockNode [ReturnNode (ident "undefined")])] []]
    = refused "Undefined variable: undefined"
  ∧ verdict [ActorDeclNode "A" [] [MkActorField "f" "int" (text "s")] []] = accepted.
Proof. split_and!; vm_compute; reflexivity. Qed.

(** The type of a handled expression is what its last handler leaves. *)
Example handled_expression_type :
  verdict [EffectDeclNode "E" [MkInterfaceMethod "op" "int" [] []];
           var "x" "int" (HandleNode (int 1)
             [MkHandlerCase "op" "" [] (BlockNode [CallNode (ident "resume") [int 1]; text "s"])])]
    = refused "Type mismatch in declaration of 'x': expected int".
Proof. vm_compute. reflexivity. Qed.

(** ** Function types *)

Definition resolved (name : string) : result (TypeInfo.t * TypeInfo.Heap) :=
  TypeResolver.ResolveTypeName empty_scope 20 name [].

(** A function type that ends in a parenthesis is read as a parenthesised type:
    its parameter and result are unknown, and it accepts any function of one. *)
Example parenthesised_result :
  let read_as := Ok (TypeInfo.Function_ [TypeInfo.Unknown] TypeInfo.Unknown None ∅ [] false false None, []) in
  resolved "(int,int)->(int->int)" = read_as ∧ resolved "(int)->(int)" = read_as.
Proof. split; vm_compute; reflexivity. Qed.

(** ** The built-in modules *)

(** Every type that the table of built-in modules names is known, and no two
    modules, nor two functions of one module, have one name. *)
Definition known (type : TypeInfo.t) : bool := negb (TypeInfo.has_kind TypeKind.Unknown type).
Definition known_signature (type : TypeInfo.t) : bool :=
  forallb known (TypeInfo.params type) && forallb known (TypeInfoSpec.option_list (TypeInfo.ret type))
  && forallb known (TypeInfoSpec.option_list (TypeInfo.variadicParam type)).

Example builtin_signatures_known :
  match (_ ← reset; _ ← Builtins.RegisterBuiltinTypes; Builtins.RegisterBuiltinModules 40) init with
  | Ok (_, s) => forallb (λ m : string * gmap string TypeInfo.t,
                   forallb (λ f : string * TypeInfo.t, known_signature f.2) (map_to_list m.2))
                   (map_to_list (memberTypes (m_modules s)))
  | _ => false
  end = true.
Proof. vm_compute. reflexivity. Qed.

Example builtin_names_unique :
  bool_decide (NoDup (Builtins.m_name <$> Builtins.BuiltinModules))
  && forallb (λ m, bool_decide (NoDup (Builtins.f_name <$> Builtins.functions m))) Builtins.BuiltinModules = true.
Proof. vm_compute. reflexivity. Qed.

End SemanticExamples.
