(* ===== verification/GenState.v ===== *)
(** * The state of the bytecode generator

    [src/bytecode/BytecodeGenerator.h]: the contexts of the functions being
    compiled, the metadata of the declarations seen, and the accessors of
    [BytecodeGeneratorCore.cpp] on them. *)

From S2P Require Import Prelude Value Bytecode Ast SymbolTable TypeNames.
From Stdlib Require Import Lia.

Module GenState.
Import Value Bytecode Ast TypeNames.

(** ** Function contexts *)

(** [struct UpvalueInfo] *)
Record UpvalueInfo := MkUpvalue { u_name : string; sourceIsLocal : bool; sourceIndex : Z }.

(** [FunctionContext::InterfaceBinding] *)
Inductive RuntimeKind := Unknown | Struct_.
Record InterfaceBinding := MkBinding { interfaceName : string; structType : string; runtimeKind : RuntimeKind }.

(** The function object under construction; its chunk is its own. *)
Record FunctionBuilder := MkBuilder {
  b_name : string;
  b_chunk : Chunk;
  b_arity : Z;
  b_minArity : Z;
  b_variadic : bool;
  b_captureNames : list string;
}.

(** [struct FunctionContext]; the innermost scope of each kind comes first. *)
Record FunctionContext := MkContext {
  function : FunctionBuilder;
  symbols : SymbolTable.t;
  upvalues : list UpvalueInfo;
  upvalueLookup : gmap string Z;
  structVarScopes : list (gmap string string);
  enumVarScopes : list (gmap string string);
  actorVarScopes : list (gmap string string);
  interfaceVarScopes : list (gmap string InterfaceBinding);
  methodSelfStructType : option string;
  actorSelfType : option string;
  actorStateNames : gset string;
  isEffectHandler : bool;
}.

Definition set_function (f : FunctionBuilder) (c : FunctionContext) : FunctionContext :=
  MkContext f (symbols c) (upvalues c) (upvalueLookup c) (structVarScopes c) (enumVarScopes c) (actorVarScopes c)
    (interfaceVarScopes c) (methodSelfStructType c) (actorSelfType c) (actorStateNames c) (isEffectHandler c).
Definition set_symbols (s : SymbolTable.t) (c : FunctionContext) : FunctionContext :=
  MkContext (function c) s (upvalues c) (upvalueLookup c) (structVarScopes c) (enumVarScopes c) (actorVarScopes c)
    (interfaceVarScopes c) (methodSelfStructType c) (actorSelfType c) (actorStateNames c) (isEffectHandler c).
Definition set_upvalues (l : list UpvalueInfo) (m : gmap string Z) (c : FunctionContext) : FunctionContext :=
  MkContext (function c) (symbols c) l m (structVarScopes c) (enumVarScopes c) (actorVarScopes c)
    (interfaceVarScopes c) (methodSelfStructType c) (actorSelfType c) (actorStateNames c) (isEffectHandler c).
Definition set_scopes (st en ac : list (gmap string string)) (i : list (gmap string InterfaceBinding))
    (c : FunctionContext) : FunctionContext :=
  MkContext (function c) (symbols c) (upvalues c) (upvalueLookup c) st en ac i
    (methodSelfStructType c) (actorSelfType c) (actorStateNames c) (isEffectHandler c).
Definition set_self (method actor : option string) (c : FunctionContext) : FunctionContext :=
  MkContext (function c) (symbols c) (upvalues c) (upvalueLookup c) (structVarScopes c) (enumVarScopes c)
    (actorVarScopes c) (interfaceVarScopes c) method actor (actorStateNames c) (isEffectHandler c).
Definition set_actorStateNames (names : gset string) (c : FunctionContext) : FunctionContext :=
  MkContext (function c) (symbols c) (upvalues c) (upvalueLookup c) (structVarScopes c) (enumVarScopes c)
    (actorVarScopes c) (interfaceVarScopes c) (methodSelfStructType c) (actorSelfType c) names (isEffectHandler c).
Definition set_isEffectHandler (b : bool) (c : FunctionContext) : FunctionContext :=
  MkContext (function c) (symbols c) (upvalues c) (upvalueLookup c) (structVarScopes c) (enumVarScopes c)
    (actorVarScopes c) (interfaceVarScopes c) (methodSelfStructType c) (actorSelfType c) (actorStateNames c) b.

Definition set_chunk (k : Chunk) (c : FunctionContext) : FunctionContext :=
  let f := function c in
  set_function (MkBuilder (b_name f) k (b_arity f) (b_minArity f) (b_variadic f) (b_captureNames f)) c.
Definition set_arity (arity minArity : Z) (variadic : bool) (c : FunctionContext) : FunctionContext :=
  let f := function c in
  set_function (MkBuilder (b_name f) (b_chunk f) arity minArity variadic (b_captureNames f)) c.
Definition add_capture (name : string) (c : FunctionContext) : FunctionContext :=
  let f := function c in
  set_function (MkBuilder (b_name f) (b_chunk f) (b_arity f) (b_minArity f) (b_variadic f)
                  (b_captureNames f ++ [name])) c.

(** The innermost scope of a kind, [scopes.back()[name] = value]; there always
    is one. *)
Definition bind_innermost {A} (name : string) (value : A) (scopes : list (gmap string A)) : list (gmap string A) :=
  match scopes with [] => [] | scope :: scopes => <[name := value]> scope :: scopes end.
Definition bind_struct (name type : string) (c : FunctionContext) : FunctionContext :=
  set_scopes (bind_innermost name type (structVarScopes c)) (enumVarScopes c) (actorVarScopes c) (interfaceVarScopes c) c.
Definition bind_enum (name type : string) (c : FunctionContext) : FunctionContext :=
  set_scopes (structVarScopes c) (bind_innermost name type (enumVarScopes c)) (actorVarScopes c) (interfaceVarScopes c) c.
Definition bind_actor (name type : string) (c : FunctionContext) : FunctionContext :=
  set_scopes (structVarScopes c) (enumVarScopes c) (bind_innermost name type (actorVarScopes c)) (interfaceVarScopes c) c.
Definition bind_interface (name : string) (binding : InterfaceBinding) (c : FunctionContext) : FunctionContext :=
  set_scopes (structVarScopes c) (enumVarScopes c) (actorVarScopes c) (bind_innermost name binding (interfaceVarScopes c)) c.

(** [PushContextScope] and [PopContextScope] *)
Definition PushContextScope (c : FunctionContext) : FunctionContext :=
  set_scopes (∅ :: structVarScopes c) (∅ :: enumVarScopes c) (∅ :: actorVarScopes c) (∅ :: interfaceVarScopes c)
    (set_symbols (SymbolTable.PushScope (symbols c)) c).
Definition PopContextScope (c : FunctionContext) : result FunctionContext :=
  s ← SymbolTable.PopScope (symbols c);
  Ok (set_scopes (tail (structVarScopes c)) (tail (enumVarScopes c)) (tail (actorVarScopes c))
        (tail (interfaceVarScopes c)) (set_symbols s c)).

Definition new_builder (name : string) : FunctionBuilder := MkBuilder name (MkChunk [] [] "") 0 0 false [].
Definition InitializeFunctionContext (name : string) : FunctionContext :=
  PushContextScope (MkContext (new_builder name) (SymbolTable.Reset SymbolTable.init) [] ∅ [] [] [] [] None None ∅ false).

(** The context of the top level, which [Compile] and [EvaluateComptime] build. *)
Definition top_level_context (name : string) : FunctionContext :=
  MkContext (new_builder name) (SymbolTable.Reset SymbolTable.init) [] ∅ [∅] [∅] [∅] [∅] None None ∅ false.

(** ** Metadata *)

Record EnumVariantInfo := MkVariantInfo { tag : Z; argCount : Z; enumName : string }.

(** A default argument that is missing is [NullNode]. *)
Record FunctionSignature := MkSignature {
  refParams : list bool;
  defaultArgs : list Node;
  contextParams : list string;
  returnTypeName : string;
  requiredArity : nat;
  variadic : bool;
}.

(** [struct MetadataRegistry] *)
Record MetadataRegistry := MkMetadata {
  importAliases : gmap string string;
  functionSignatures : gmap string FunctionSignature;
  threadLocalGlobals : gset string;
  structLayouts : gmap string (list string);
  structFieldTypes : gmap string (gmap string string);
  structTypeParams : gmap string (list string);
  structMethodNames : gmap string (gmap string string);
  structInvariantChecks : gmap string string;
  actorLayouts : gmap string (list string);
  actorFieldDefaults : gmap string (list Node);
  actorMethodNames : gmap string (gmap string string);
  actorMethodIsQuery : gmap string (gmap string bool);
  interfaceMethods : gmap string (list string);
  enumVariants : gmap string EnumVariantInfo;
  effectOperations : gmap string (gmap string string);
}.

Definition Clear : MetadataRegistry := MkMetadata ∅ ∅ ∅ ∅ ∅ ∅ ∅ ∅ ∅ ∅ ∅ ∅ ∅ ∅ ∅.

Definition set_imports (x : gmap string string) (m : MetadataRegistry) : MetadataRegistry :=
  MkMetadata x (functionSignatures m) (threadLocalGlobals m) (structLayouts m) (structFieldTypes m) (structTypeParams m)
    (structMethodNames m) (structInvariantChecks m) (actorLayouts m) (actorFieldDefaults m) (actorMethodNames m)
    (actorMethodIsQuery m) (interfaceMethods m) (enumVariants m) (effectOperations m).
Definition set_signatures (x : gmap string FunctionSignature) (m : MetadataRegistry) : MetadataRegistry :=
  MkMetadata (importAliases m) x (threadLocalGlobals m) (structLayouts m) (structFieldTypes m) (structTypeParams m)
    (structMethodNames m) (structInvariantChecks m) (actorLayouts m) (actorFieldDefaults m) (actorMethodNames m)
    (actorMethodIsQuery m) (interfaceMethods m) (enumVariants m) (effectOperations m).
Definition set_threadLocals (x : gset string) (m : MetadataRegistry) : MetadataRegistry :=
  MkMetadata (importAliases m) (functionSignatures m) x (structLayouts m) (structFieldTypes m) (structTypeParams m)
    (structMethodNames m) (structInvariantChecks m) (actorLayouts m) (actorFieldDefaults m) (actorMethodNames m)
    (actorMethodIsQuery m) (interfaceMethods m) (enumVariants m) (effectOperations m).
Definition set_structs (layouts : gmap string (list string)) (types : gmap string (gmap string string))
    (params : gmap string (list string)) (methods : gmap string (gmap string string))
    (invariants : gmap string string) (m : MetadataRegistry) : MetadataRegistry :=
  MkMetadata (importAliases m) (functionSignatures m) (threadLocalGlobals m) layouts types params methods invariants
    (actorLayouts m) (actorFieldDefaults m) (actorMethodNames m)
    (actorMethodIsQuery m) (interfaceMethods m) (enumVariants m) (effectOperations m).
Definition set_actors (layouts : gmap string (list string)) (defaults : gmap string (list Node))
    (methods : gmap string (gmap string string)) (queries : gmap string (gmap string bool))
    (m : MetadataRegistry) : MetadataRegistry :=
  MkMetadata (importAliases m) (functionSignatures m) (threadLocalGlobals m) (structLayouts m) (structFieldTypes m)
    (structTypeParams m) (structMethodNames m) (structInvariantChecks m) layouts defaults methods queries
    (interfaceMethods m) (enumVariants m) (effectOperations m).
Definition set_interfaces (x : gmap string (list string)) (m : MetadataRegistry) : MetadataRegistry :=
  MkMetadata (importAliases m) (functionSignatures m) (threadLocalGlobals m) (structLayouts m) (structFieldTypes m)
    (structTypeParams m) (structMethodNames m) (structInvariantChecks m) (actorLayouts m) (actorFieldDefaults m)
    (actorMethodNames m) (actorMethodIsQuery m) x (enumVariants m) (effectOperations m).
Definition set_variants (x : gmap string EnumVariantInfo) (m : MetadataRegistry) : MetadataRegistry :=
  MkMetadata (importAliases m) (functionSignatures m) (threadLocalGlobals m) (structLayouts m) (structFieldTypes m)
    (structTypeParams m) (structMethodNames m) (structInvariantChecks m) (actorLayouts m) (actorFieldDefaults m)
    (actorMethodNames m) (actorMethodIsQuery m) (interfaceMethods m) x (effectOperations m).
Definition set_effects (x : gmap string (gmap string string)) (m : MetadataRegistry) : MetadataRegistry :=
  MkMetadata (importAliases m) (functionSignatures m) (threadLocalGlobals m) (structLayouts m) (structFieldTypes m)
    (structTypeParams m) (structMethodNames m) (structInvariantChecks m) (actorLayouts m) (actorFieldDefaults m)
    (actorMethodNames m) (actorMethodIsQuery m) (interfaceMethods m) (enumVariants m) x.

(** ** The generator *)

(** [BytecodeGenerator].  The back of a vector comes first; so the current
    context is the head of [m_contexts], and its parents follow.  A function
    declaration is identified by the number of the visit that registered it;
    [m_allocations] counts those and the function objects, and [m_heap] holds
    the other objects that constants point to. *)
Record t := Mk {
  m_contexts : list FunctionContext;
  m_currentModule : string;
  m_metadata : MetadataRegistry;
  m_lambdaCounter : nat;
  m_activeFunctionContracts : list (list Node);
  m_activeContractResultSlots : list (option Z);
  m_activeRaisedEffects : list (gset string);
  m_activeHandledEffects : list (gset string);
  m_comptimeFunctions : gmap string (nat * Node);
  m_allocations : nat;
  m_heap : heap;
}.

Definition set_contexts (cs : list FunctionContext) (g : t) : t :=
  Mk cs (m_currentModule g) (m_metadata g) (m_lambdaCounter g) (m_activeFunctionContracts g)
    (m_activeContractResultSlots g) (m_activeRaisedEffects g) (m_activeHandledEffects g) (m_comptimeFunctions g)
    (m_allocations g) (m_heap g).
Definition set_currentModule (name : string) (g : t) : t :=
  Mk (m_contexts g) name (m_metadata g) (m_lambdaCounter g) (m_activeFunctionContracts g)
    (m_activeContractResultSlots g) (m_activeRaisedEffects g) (m_activeHandledEffects g) (m_comptimeFunctions g)
    (m_allocations g) (m_heap g).
Definition set_metadata (m : MetadataRegistry) (g : t) : t :=
  Mk (m_contexts g) (m_currentModule g) m (m_lambdaCounter g) (m_activeFunctionContracts g)
    (m_activeContractResultSlots g) (m_activeRaisedEffects g) (m_activeHandledEffects g) (m_comptimeFunctions g)
    (m_allocations g) (m_heap g).
Definition set_lambdaCounter (n : nat) (g : t) : t :=
  Mk (m_contexts g) (m_currentModule g) (m_metadata g) n (m_activeFunctionContracts g)
    (m_activeContractResultSlots g) (m_activeRaisedEffects g) (m_activeHandledEffects g) (m_comptimeFunctions g)
    (m_allocations g) (m_heap g).
Definition set_active (contracts : list (list Node)) (slots : list (option Z)) (raised handled : list (gset string))
    (g : t) : t :=
  Mk (m_contexts g) (m_currentModule g) (m_metadata g) (m_lambdaCounter g) contracts slots raised handled
    (m_comptimeFunctions g) (m_allocations g) (m_heap g).
Definition set_comptimeFunctions (fs : gmap string (nat * Node)) (g : t) : t :=
  Mk (m_contexts g) (m_currentModule g) (m_metadata g) (m_lambdaCounter g) (m_activeFunctionContracts g)
    (m_activeContractResultSlots g) (m_activeRaisedEffects g) (m_activeHandledEffects g) fs (m_allocations g) (m_heap g).
Definition set_heap (h : heap) (g : t) : t :=
  Mk (m_contexts g) (m_currentModule g) (m_metadata g) (m_lambdaCounter g) (m_activeFunctionContracts g)
    (m_activeContractResultSlots g) (m_activeRaisedEffects g) (m_activeHandledEffects g) (m_comptimeFunctions g)
    (m_allocations g) h.
Definition set_allocations (n : nat) (g : t) : t :=
  Mk (m_contexts g) (m_currentModule g) (m_metadata g) (m_lambdaCounter g) (m_activeFunctionContracts g)
    (m_activeContractResultSlots g) (m_activeRaisedEffects g) (m_activeHandledEffects g) (m_comptimeFunctions g) n (m_heap g).

Abbreviation gen := (st t).

Definition no_context : exn := undefined_behaviour "back of an empty vector".

Definition on_metadata (f : MetadataRegistry → MetadataRegistry) : gen unit :=
  st_modify (λ g, set_metadata (f (m_metadata g)) g).

(** [CurrentContext] and [CurrentChunk] *)
Definition on_context {A} (f : FunctionContext → result (A * FunctionContext)) : gen A := λ g,
  match m_contexts g with
  | [] => Throw no_context
  | c :: cs => '(a, c) ← f c; Ok (a, set_contexts (c :: cs) g)
  end.
Definition modify_context (f : FunctionContext → FunctionContext) : gen unit := on_context (λ c, Ok (tt, f c)).
Definition CurrentContext : gen FunctionContext := on_context (λ c, Ok (c, c)).
Definition on_chunk {A} (m : st Chunk A) : gen A :=
  on_context (λ c, '(a, k) ← m (b_chunk (function c)); Ok (a, set_chunk k c)).
Definition CurrentChunk : gen Chunk := on_chunk st_get.

Definition lift {A} (r : result A) : gen A := λ g, a ← r; Ok (a, g).
Definition Define (name : string) : gen Z :=
  on_context (λ c, '(i, s) ← SymbolTable.Define name (symbols c); Ok (i, set_symbols s c)).

(** [code.push_back] of a [uint8_t] *)
Definition push_back (byte : Z) : gen unit := on_chunk (st_modify (push_code [(byte mod 2 ^ 8)%Z])).
Definition write (op : OpCode) : gen unit := on_chunk (Write op).
Definition write_operand (op : OpCode) (w : Z) : gen unit := on_chunk (WriteOperand op w).
Definition write_constant (v : Value) : gen unit := on_chunk (WriteConstant v).
(** An instruction with a byte for operand. *)
Definition write_byte (op : OpCode) (byte : Z) : gen unit := _ ← write op; push_back byte.
(** [AddConstant] of a string and an instruction with its index. *)
Definition add_string (s : string) : gen Z := on_chunk (AddConstant (VString (Some s))).
Definition write_string (op : OpCode) (s : string) : gen unit :=
  i ← add_string s; _ ← write op; write_operand op i.

(** [std::make_shared] of a module. *)
Definition new_module (name : string) : gen Value := λ g,
  let p := fresh (dom (m_heap g) : gset nat) in
  Ok (VPtr ModulePtr (Some p), set_heap (<[p := OName name]> (m_heap g)) g).

(** The number of a new function or of a visit. *)
Definition allocate : gen nat := λ g, Ok (m_allocations g, set_allocations (S (m_allocations g)) g).

(** ** Names *)

Definition QualifyName (name : string) (g : t) : string :=
  match find_string "." name with
  | Some _ => name
  | None =>
      match importAliases (m_metadata g) !! name with
      | Some target => target
      | None => if decide (m_currentModule g ≠ "") then m_currentModule g +:+ "." +:+ name else name
      end
  end.
Definition qualify (name : string) : gen string := λ g, Ok (QualifyName name g, g).

(** [EnsureStructMetadata], [EnsureActorMetadata] and [EnsureInterfaceMetadata]
    find a declared type by its qualified or its normalized name, or make an
    entry for an instance of a generic one. *)
Definition at_ {K A} `{Countable K} (m : gmap K A) (k : K) : result A :=
  match m !! k with Some a => Ok a | None => Throw (out_of_range "unordered_map::at") end.

Section each_field.
Context (f : string → result string).
Fixpoint map_fields (l : list (string * string)) : result (gmap string string) :=
  match l with
  | [] => Ok ∅
  | (name, type) :: l => type ← f type; m ← map_fields l; Ok (<[name := type]> m)
  end.
End each_field.

Definition instantiate_struct (qualifiedType baseName : string) (params typeArgs : list string)
    (m : MetadataRegistry) : result MetadataRegistry :=
  let replacements := replacements_of params typeArgs in
  layout ← at_ (structLayouts m) baseName;
  methods ← at_ (structMethodNames m) baseName;
  let invariants :=
    match structInvariantChecks m !! baseName with
    | Some check => <[qualifiedType := check]> (structInvariantChecks m)
    | None => structInvariantChecks m
    end in
  types ← at_ (structFieldTypes m) baseName;
  fields ← map_fields (λ type, SubstituteTypeString type replacements) (map_to_list types);
  Ok (set_structs (<[qualifiedType := layout]> (structLayouts m)) (<[qualifiedType := fields]> (structFieldTypes m))
        (<[qualifiedType := params]> (structTypeParams m)) (<[qualifiedType := methods]> (structMethodNames m))
        invariants m).

Definition EnsureStructMetadata (typeName : string) : gen (option string) := λ g,
  if decide (typeName = "" ∨ typeName = "auto") then Ok (None, g) else
  let m := m_metadata g in
  normalizedType ← NormalizeImportedTypeName (importAliases m) typeName;
  let qualifiedType := QualifyName normalizedType g in
  if decide (is_Some (structLayouts m !! qualifiedType)) then Ok (Some qualifiedType, g)
  else if decide (is_Some (structLayouts m !! normalizedType)) then Ok (Some normalizedType, g)
  else match SplitGenericName qualifiedType with
  | None => Ok (None, g)
  | Some (baseName, typeArgs) =>
      if decide (structLayouts m !! baseName = None) then Ok (None, g) else
      match structTypeParams m !! baseName with
      | None => Ok (None, g)
      | Some params =>
          if decide (length params ≠ length typeArgs) then Ok (None, g) else
          m ← instantiate_struct qualifiedType baseName params typeArgs m;
          Ok (Some qualifiedType, set_metadata m g)
      end
  end.

(** The entry of [from], when there is one, also as that of [to]. *)
Definition copy_entry {A} (from to : string) (m : gmap string A) : gmap string A :=
  match m !! from with Some a => <[to := a]> m | None => m end.

Definition EnsureActorMetadata (typeName : string) : gen (option string) := λ g,
  if decide (typeName = "" ∨ typeName = "auto") then Ok (None, g) else
  let m := m_metadata g in
  normalizedType ← NormalizeImportedTypeName (importAliases m) typeName;
  let qualifiedType := QualifyName normalizedType g in
  if decide (is_Some (actorLayouts m !! qualifiedType)) then Ok (Some qualifiedType, g)
  else if decide (is_Some (actorLayouts m !! normalizedType)) then Ok (Some normalizedType, g)
  else match SplitGenericName qualifiedType with
  | None => Ok (None, g)
  | Some (baseName, _) =>
      if decide (actorLayouts m !! baseName = None) then Ok (None, g) else
      Ok (Some qualifiedType,
          set_metadata (set_actors (copy_entry baseName qualifiedType (actorLayouts m))
                          (copy_entry baseName qualifiedType (actorFieldDefaults m))
                          (copy_entry baseName qualifiedType (actorMethodNames m))
                          (copy_entry baseName qualifiedType (actorMethodIsQuery m)) m) g)
  end.

Definition EnsureInterfaceMetadata (typeName : string) : gen (option string) := λ g,
  if decide (typeName = "" ∨ typeName = "auto") then Ok (None, g) else
  let m := m_metadata g in
  normalizedType ← NormalizeImportedTypeName (importAliases m) typeName;
  let qualifiedType := QualifyName normalizedType g in
  if decide (is_Some (interfaceMethods m !! qualifiedType)) then Ok (Some qualifiedType, g)
  else if decide (is_Some (interfaceMethods m !! normalizedType)) then Ok (Some normalizedType, g)
  else match SplitGenericName qualifiedType with
  | None => Ok (None, g)
  | Some (baseName, _) =>
      if decide (interfaceMethods m !! baseName = None) then Ok (None, g) else
      Ok (Some qualifiedType,
          set_metadata (set_interfaces (copy_entry baseName qualifiedType (interfaceMethods m)) m) g)
  end.

(** ** Variables *)

Definition ResolveLocal (name : string) : gen (option Z) :=
  on_context (λ c, Ok (SymbolTable.Resolve name (symbols c), c)).

(** The new or the existing capture of [name] in a context. *)
Definition capture (name : string) (isLocal : bool) (source : Z) (c : FunctionContext) : Z * FunctionContext :=
  match upvalueLookup c !! name with
  | Some existing => (existing, c)
  | None =>
      let index := (Z.of_nat (length (upvalues c)) mod 2 ^ 8)%Z in
      (index, add_capture name
                (set_upvalues (upvalues c ++ [MkUpvalue name isLocal source]) (<[name := index]> (upvalueLookup c)) c))
  end.

(** [ResolveUpvalue] in the context at the head: the bindings of a module,
    in the last context, are not captured. *)
Fixpoint resolve_upvalue (module : string) (aliases : gmap string string) (name : string)
    (cs : list FunctionContext) : option Z * list FunctionContext :=
  match cs with
  | [] => (None, cs)
  | current :: parents =>
      match parents with
      | [] => (None, cs)
      | parent :: grandparents =>
          if bool_decide (grandparents = []) && bool_decide (module ≠ "") && bool_decide (aliases !! name = None)
          then (None, cs)
          else match SymbolTable.Resolve name (symbols parent) with
          | Some local => let '(i, c) := capture name true local current in (Some i, c :: parents)
          | None =>
              match resolve_upvalue module aliases name parents with
              | (Some up, parents) => let '(i, c) := capture name false up current in (Some i, c :: parents)
              | (None, parents) => (None, current :: parents)
              end
          end
      end
  end.
Definition ResolveUpvalue (name : string) : gen (option Z) := λ g,
  let '(i, cs) := resolve_upvalue (m_currentModule g) (importAliases (m_metadata g)) name (m_contexts g) in
  Ok (i, set_contexts cs g).

(** The index of a member in a layout, as a byte. *)
Fixpoint member_index (i : nat) (member : string) (layout : list string) : option Z :=
  match layout with
  | [] => None
  | m :: layout => if decide (m = member) then Some (Z.of_nat i mod 2 ^ 8)%Z else member_index (S i) member layout
  end.
Definition field_index (member : string) (layouts : gmap string (list string)) (type : option string) : option Z :=
  type ← type; layout ← layouts !! type; member_index 0 member layout.

Definition ResolveSelfFieldIndex (member : string) : gen (option Z) :=
  c ← CurrentContext;
  g ← st_get;
  mret match field_index member (structLayouts (m_metadata g)) (methodSelfStructType c) with
       | Some i => Some i
       | None => field_index member (actorLayouts (m_metadata g)) (actorSelfType c)
       end.

End GenState.
