(* ===== verification/Resolver.v ===== *)
(** * Types of expressions for the generator

    [src/bytecode/generator/BytecodeGeneratorMetadataResolver.cpp]: what the
    generator knows of the structure, the actor, the enumeration or the
    interface an expression has.  [EnsureStructMetadata] and its like may add
    the entry of an instance of a generic type on the way. *)

From S2P Require Import Prelude Value Bytecode Ast SymbolTable TypeNames GenState.

Module Resolver.
Import Value Ast TypeNames GenState.

(** The search from the innermost context and scope outwards. *)
Fixpoint find_scope {A} (name : string) (scopes : list (gmap string A)) : option A :=
  match scopes with
  | [] => None
  | scope :: scopes => match scope !! name with Some a => Some a | None => find_scope name scopes end
  end.
Fixpoint find_context {A} (scopes_of : FunctionContext → list (gmap string A)) (name : string)
    (cs : list FunctionContext) : option A :=
  match cs with
  | [] => None
  | c :: cs => match find_scope name (scopes_of c) with Some a => Some a | None => find_context scopes_of name cs end
  end.

Definition ResolveStructVariableType (name : string) (g : t) : option string :=
  find_context structVarScopes name (m_contexts g).
Definition ResolveActorVariableType (name : string) (g : t) : option string :=
  find_context actorVarScopes name (m_contexts g).
Definition ResolveEnumVariableType (name : string) (g : t) : option string :=
  find_context enumVarScopes name (m_contexts g).
Definition ResolveInterfaceBinding (name : string) (g : t) : option InterfaceBinding :=
  find_context interfaceVarScopes name (m_contexts g).

(** The first answer, or what the rest of the function finds. *)
Definition orElse {A} (m k : gen (option A)) : gen (option A) :=
  a ← m; match a with Some a => mret (Some a) | None => k end.
Definition asks {A} (f : t → A) : gen A := λ g, Ok (f g, g).

(** [importAliases.find(name)] for the object of a member access that is an
    identifier: the qualified name of the member. *)
Definition module_member (object : Node) (member : string) (g : t) : option string :=
  match object with
  | IdentifierNode name => (λ module, module +:+ "." +:+ member) <$> importAliases (m_metadata g) !! name
  | _ => None
  end.
Definition ensure_module_member (object : Node) (member : string) : gen (option string) :=
  q ← asks (module_member object member);
  match q with Some q => EnsureStructMetadata q | None => mret None end.

Fixpoint InferStructTypeName (node : Node) : gen (option string) :=
  match node with
  | IdentifierNode name => orElse (EnsureStructMetadata name) (asks (ResolveStructVariableType name))
  | MemberAccessNode object member =>
      parentStructType ← InferStructTypeName object;
      match parentStructType with
      | None => ensure_module_member object member
      | Some parent =>
          g ← st_get;
          match structFieldTypes (m_metadata g) !! parent ≫= λ fieldTypes, fieldTypes !! member with
          | None => mret None
          | Some type =>
              instantiated ← lift (InstantiateGenericTypeName (structTypeParams (m_metadata g)) parent type);
              EnsureStructMetadata instantiated
          end
      end
  | CallNode (IdentifierNode name) _ => EnsureStructMetadata name
  | CallNode (MemberAccessNode object member) _ => ensure_module_member object member
  | _ => mret None
  end.

Definition ResolveStructFieldIndex (object : Node) (member : string) : gen (option Z) :=
  structType ← InferStructTypeName object;
  g ← st_get;
  mret (field_index member (structLayouts (m_metadata g)) structType).

Definition InferActorTypeName (node : Node) : gen (option string) :=
  match node with
  | IdentifierNode name => orElse (EnsureActorMetadata name) (asks (ResolveActorVariableType name))
  | CallNode (IdentifierNode name) _ => EnsureActorMetadata name
  | _ => mret None
  end.

(** *** Methods *)

Definition method_of (methods : gmap string (gmap string string)) (type member : string) : option string :=
  methods !! type ≫= λ names, names !! member.

Definition ResolveStructMethod (object : Node) (member : string) : gen (option string) :=
  structType ← InferStructTypeName object;
  g ← st_get;
  let methods := structMethodNames (m_metadata g) in
  match structType ≫= λ type, method_of methods type member with
  | Some hidden => mret (Some hidden)
  | None =>
      mret match object with
           | IdentifierNode name =>
               match ResolveInterfaceBinding name g with
               | Some (MkBinding _ type Struct_) =>
                   if decide (type = "") then None else method_of methods type member
               | _ => None
               end
           | _ => None
           end
  end.

Definition ResolveActorMethod (object : Node) (member : string) : gen (option string) :=
  actorType ← InferActorTypeName object;
  g ← st_get;
  mret (actorType ≫= λ type, method_of (actorMethodNames (m_metadata g)) type member).

Definition IsActorQueryMethod (object : Node) (member : string) : gen bool :=
  actorType ← InferActorTypeName object;
  g ← st_get;
  mret (default false (actorType ≫= λ type, actorMethodIsQuery (m_metadata g) !! type ≫= λ kinds, kinds !! member)).

(** It ignores its arguments. *)
Definition IsFunctionBackedInterfaceMethod (object : Node) (member : string) : bool := false.

(** *** Enumerations *)

Definition is_enum (typeName : string) (m : MetadataRegistry) : bool :=
  existsb (λ kv, bool_decide (enumName kv.2 = typeName)) (map_to_list (enumVariants m)).

Definition normalizeEnumType (typeName : string) : gen (option string) :=
  if decide (typeName = "") then mret None else
  g ← st_get;
  typeName ← lift (NormalizeImportedTypeName (importAliases (m_metadata g)) typeName);
  let typeName := match SplitGenericName typeName with Some (enumBase, _) => enumBase | None => typeName end in
  mret (if is_enum typeName (m_metadata g) then Some typeName else None).

Definition inferFromSignature (calleeName : string) : gen (option string) :=
  g ← st_get;
  match functionSignatures (m_metadata g) !! calleeName with
  | Some signature => normalizeEnumType (returnTypeName signature)
  | None => mret None
  end.

Definition variant_enum (name : string) : gen (option string) :=
  asks (λ g, enumName <$> enumVariants (m_metadata g) !! name).

Definition InferEnumTypeName (node : Node) : gen (option string) :=
  match node with
  | IdentifierNode name => asks (ResolveEnumVariableType name)
  | CallNode (IdentifierNode name) _ =>
      q ← qualify name; orElse (variant_enum q) (inferFromSignature q)
  | CallNode (MemberAccessNode object member) _ =>
      hiddenMethod ← ResolveStructMethod object member;
      orElse (match hiddenMethod with Some hidden => inferFromSignature hidden | None => mret None end)
        (q ← asks (module_member object member);
         match q with Some q => orElse (variant_enum q) (inferFromSignature q) | None => mret None end)
  | _ => mret None
  end.

Definition is_variant (name : string) : gen bool :=
  asks (λ g, bool_decide (is_Some (enumVariants (m_metadata g) !! name))).

Definition IsEnumTagAccess (object : Node) (member : string) : gen bool :=
  if decide (member ≠ "tag") then mret false else
  enumType ← InferEnumTypeName object;
  match enumType with
  | Some _ => mret true
  | None =>
      match object with
      | CallNode (IdentifierNode name) _ => q ← qualify name; is_variant q
      | CallNode (MemberAccessNode o m) _ =>
          q ← asks (module_member o m);
          match q with Some q => is_variant q | None => mret false end
      | _ => mret false
      end
  end.

(** *** Interfaces *)

Definition normalizeInterfaceName (typeName : string) : gen string :=
  resolved ← EnsureInterfaceMetadata typeName; mret (default "" resolved).

Definition InferInterfaceBinding (node : Node) (explicitType : string) : gen (option InterfaceBinding) :=
  interfaceName ← normalizeInterfaceName explicitType;
  if is_null node then
    mret (if decide (interfaceName = "") then None else Some (MkBinding interfaceName "" Unknown))
  else
  let of_struct (type : option string) := (λ type, MkBinding interfaceName type Struct_) <$> type in
  orElse
    (match node with
     | IdentifierNode name => asks (λ g,
         match ResolveInterfaceBinding name g with
         | Some binding => Some binding
         | None => if decide (interfaceName = "") then None else of_struct (ResolveStructVariableType name g)
         end)
     | _ => mret None
     end)
    (if decide (interfaceName = "") then mret None
     else structType ← InferStructTypeName node; mret (of_struct structType)).

(** *** Effects *)

(** [std::ranges::sort] and [unique] *)
Fixpoint insert_string (s : string) (l : list string) : list string :=
  match l with
  | [] => [s]
  | x :: l' => match String.compare s x with
               | Lt => s :: l
               | Eq => l
               | Gt => x :: insert_string s l'
               end
  end.
Definition sort_unique_strings (l : list string) : list string := foldr insert_string [] l.

Definition has_operation (operation : string) (m : MetadataRegistry) (effectName : string) : bool :=
  bool_decide (is_Some (effectOperations m !! effectName ≫= λ operations, operations !! operation)).

(** [collectMatches] on both stacks of effects. *)
Definition active_effects (operation : string) (g : t) : list string :=
  filter (λ effectName, has_operation operation (m_metadata g) effectName)
    ((m_activeRaisedEffects g ≫= elements) ++ (m_activeHandledEffects g ≫= elements)).

Definition ResolveEffectOperation (node : Node) : gen (option string) :=
  match node with
  | IdentifierNode name =>
      candidates ← asks (λ g, sort_unique_strings ((λ effectName, effectName +:+ "." +:+ name) <$> active_effects name g));
      match candidates with
      | [] => mret None
      | [candidate] => mret (Some candidate)
      | _ => st_throw (runtime_error ("Ambiguous effect operation for codegen: " +:+ name))
      end
  | _ => mret None
  end.

End Resolver.
