(* ===== verification/Generator.v ===== *)
(** * The bytecode generator

    [src/bytecode/generator/]: [BytecodeGeneratorCore.cpp],
    [BytecodeGeneratorDeclarations.cpp], [BytecodeGeneratorStatements.cpp] and
    [BytecodeGeneratorAccessEmitter.cpp].  Every definition takes the visitor
    of the subtrees; [Visit] ties the knot.  Its fuel bounds the depth of the
    visits, since a call visits the default arguments of its function, which
    are not below it in the tree. *)

From S2P Require Import Prelude Value Bytecode Ast SymbolTable TypeNames GenState Resolver.
From stdpp Require Import pretty.

Module Generator.
Import Value Bytecode Ast TypeNames GenState Resolver.

Section each.
Context {A : Type} (f : A → gen unit).
Fixpoint for_each (l : list A) : gen unit :=
  match l with [] => mret tt | x :: l => _ ← f x; for_each l end.
End each.

(** The innermost scope that binds the name. *)
Fixpoint update_innermost {A} (name : string) (a : A) (scopes : list (gmap string A)) : list (gmap string A) :=
  match scopes with
  | [] => []
  | scope :: scopes =>
      match scope !! name with
      | Some _ => <[name := a]> scope :: scopes
      | None => scope :: update_innermost name a scopes
      end
  end.

(** [n] times the same instruction. *)
Fixpoint repeat_write (n : nat) (op : OpCode) : gen unit :=
  match n with 0 => mret tt | S n => _ ← write op; repeat_write n op end.

(** [RegisterFunctionSignature] *)
Definition RegisterFunctionSignature (name : string) (params : list Parameter_)
    (contextRequirements : list ContextBinding) (returnType : string) : gen unit :=
  g ← st_get;
  returnType ← lift (NormalizeImportedTypeName (importAliases (m_metadata g)) returnType);
  let fixed := filter (λ p, isVariadic p = false) params in
  let signature :=
    MkSignature ((λ p, String.prefix "ref<" (p_typeName p)) <$> fixed) (defaultValue <$> fixed)
      (cb_name <$> contextRequirements) returnType
      (length (filter (λ p, hasDefaultValue p = false) fixed)) (existsb isVariadic params) in
  on_metadata (λ m, set_signatures (<[name := signature]> (functionSignatures m)) m).

(** [EmitContractAssertion] *)
Definition EmitContractAssertion (message : string) : gen unit := write_string OP_ASSERT message.

(** The expression of a contract of the given kind, when it has one. *)
Definition contract_expression (kind : ContractKind) (contract : Node) : option Node :=
  match contract with
  | ContractNode k expression =>
      if decide (k = kind) then if is_null expression then None else Some expression else None
  | _ => None
  end.
Definition is_contract (kind : ContractKind) (contract : Node) : bool :=
  match contract with ContractNode k _ => bool_decide (k = kind) | _ => false end.

(** ** Variables *)

(** The active result slot of a contract, for the name [result]. *)
Definition result_slot (name : string) (g : t) : option Z :=
  if decide (name = "result") then mjoin (head (m_activeContractResultSlots g)) else None.

Definition global_name (name : string) (g : t) : string :=
  let globalName := QualifyName name g in
  if decide (globalName ∈ threadLocalGlobals (m_metadata g)) then "__thread_local." +:+ globalName else globalName.

(** [EmitGetVariable] behind its test of the result of a contract, and
    [EmitSetVariable]: a local, a captured variable, a field of the object of
    a method, or a global. *)
Definition emit_variable (local up member global : OpCode) (name : string) : gen unit :=
  index ← ResolveLocal name;
  match index with
  | Some index => write_byte local index
  | None =>
      g ← st_get;
      upvalue ← (if 1 <? length (m_contexts g) then ResolveUpvalue name else mret None);
      match upvalue with
      | Some upvalue => write_byte up upvalue
      | None =>
          selfFieldIndex ← ResolveSelfFieldIndex name;
          match selfFieldIndex with
          | Some selfFieldIndex => _ ← write_byte OP_GET_LOCAL 0; write_byte member selfFieldIndex
          | None => globalName ← asks (global_name name); write_string global globalName
          end
      end
  end.

Definition EmitGetVariable (name : string) : gen unit :=
  slot ← asks (result_slot name);
  match slot with
  | Some slot => write_byte OP_GET_LOCAL slot
  | None => emit_variable OP_GET_LOCAL OP_GET_UPVALUE OP_MEMBER_GET OP_GET_GLOBAL name
  end.
Definition EmitSetVariable (name : string) : gen unit :=
  emit_variable OP_SET_LOCAL OP_SET_UPVALUE OP_MEMBER_SET OP_SET_GLOBAL name.

(** ** Functions *)

(** [make_shared<Function>] with the chunk compiled. *)
Definition function_value (address : nat) (f : FunctionBuilder) : Value :=
  VFunction (Some (MkFunction address (b_name f) (Some (b_chunk f)) (b_arity f) (b_minArity f)
                     (b_variadic f) (b_captureNames f))).

(** [EmitFunctionObject] *)
Definition EmitFunctionObject (f : FunctionBuilder) (ups : list UpvalueInfo) : gen unit :=
  address ← allocate;
  functionIndex ← on_chunk (AddConstant (function_value address f));
  _ ← for_each (λ u, write_byte (if sourceIsLocal u then OP_GET_LOCAL else OP_GET_UPVALUE) (sourceIndex u)) ups;
  _ ← write OP_CLOSURE;
  write_operand OP_CLOSURE functionIndex.

(** [context.symbols.Define(name); context.function->arity++] *)
Definition define_parameter (name : string) (c : FunctionContext) : gen FunctionContext :=
  r ← lift (SymbolTable.Define name (symbols c));
  let f := function c in
  mret (set_arity (b_arity f + 1) (b_minArity f) (b_variadic f) (set_symbols r.2 c)).

Section parameters.
Context {A : Type} (name_of : A → string).
Fixpoint define_parameters (l : list A) (c : FunctionContext) : gen FunctionContext :=
  match l with [] => mret c | x :: l => c ← define_parameter (name_of x) c; define_parameters l c end.
End parameters.

(** The loop of [CompileFunctionBody] over the parameters. *)
Fixpoint declare_params (params : list Parameter_) (c : FunctionContext) : gen FunctionContext :=
  match params with
  | [] => mret c
  | param :: params =>
      c ← define_parameter (p_name param) c;
      structType ← EnsureStructMetadata (p_typeName param);
      interfaceType ← EnsureInterfaceMetadata (p_typeName param);
      let c := match structType with Some type => bind_struct (p_name param) type c | None => c end in
      let c := match interfaceType with
               | Some type => bind_interface (p_name param) (MkBinding type "" Unknown) c
               | None => c
               end in
      declare_params params c
  end.

Definition push_context (c : FunctionContext) : gen unit := st_modify (λ g, set_contexts (c :: m_contexts g) g).
Definition pop_context : gen FunctionContext := λ g,
  match m_contexts g with
  | [] => Throw no_context
  | c :: cs => Ok (c, set_contexts cs g)
  end.

(** The contracts and effects of the function being compiled. *)
Definition push_active (contracts : list Node) (raisedEffects : list string) : gen unit :=
  st_modify (λ g, set_active (contracts :: m_activeFunctionContracts g) (m_activeContractResultSlots g)
    (list_to_set ((λ e, QualifyName e g) <$> raisedEffects) :: m_activeRaisedEffects g) (m_activeHandledEffects g) g).
Definition push_result_slot (slot : option Z) : gen unit :=
  st_modify (λ g, set_active (m_activeFunctionContracts g) (slot :: m_activeContractResultSlots g)
    (m_activeRaisedEffects g) (m_activeHandledEffects g) g).
Definition pop_active : gen unit :=
  st_modify (λ g, set_active (tail (m_activeFunctionContracts g)) (tail (m_activeContractResultSlots g))
    (tail (m_activeRaisedEffects g)) (m_activeHandledEffects g) g).

(** The slot in which a function with a postcondition keeps its result. *)
Definition define_result_slot (contracts : list Node) : gen (option Z) :=
  if existsb (is_contract Ensures) contracts then
    slot ← Define "__contract_result";
    _ ← write_constant VMonostate;
    _ ← write_byte OP_SET_LOCAL slot;
    mret (Some slot)
  else mret None.

Section visit.
Context (visit : Node → gen unit).

(** The contracts of one kind, each followed by its assertion. *)
Definition emit_contracts (kind : ContractKind) (message : string) : list Node → gen unit :=
  for_each (λ contract,
    match contract_expression kind contract with
    | Some expression => _ ← visit expression; EmitContractAssertion message
    | None => mret tt
    end).

(** A pointer that is visited unless it is null. *)
Definition visit_opt (n : Node) : gen unit := if is_null n then mret tt else visit n.

(** The preconditions, the body, and the return of null at its end. *)
Definition function_code (name : string) (contracts : list Node) (body : Node) : gen unit :=
  _ ← emit_contracts Requires ("Contract requires failed in " +:+ name) contracts;
  _ ← visit_opt body;
  _ ← write_constant VMonostate;
  write OP_RETURN.

(** From [m_contexts.push_back] to the end of the code of a function. *)
Definition compile_in_context (c : FunctionContext) (name : string) (raisedEffects : list string)
    (contracts : list Node) (body : Node) : gen FunctionContext :=
  _ ← push_context c;
  _ ← push_active contracts raisedEffects;
  slot ← define_result_slot contracts;
  _ ← push_result_slot slot;
  _ ← function_code name contracts body;
  pop_context.

(** The context of a function, with its parameters declared. *)
Definition function_context (name : string) (params : list Parameter_) (contextRequirements : list ContextBinding)
    (isHandler : bool) : gen FunctionContext :=
  let context := set_isEffectHandler isHandler (InitializeFunctionContext name) in
  let minArity := length (filter (λ p, isVariadic p = false ∧ hasDefaultValue p = false) params) in
  context ← define_parameters cb_name contextRequirements context;
  context ← declare_params params context;
  mret (set_arity (b_arity (function context)) (Z.of_nat minArity) (existsb isVariadic params) context).

(** The completed function. *)
Definition compiled_function (name : string) (params : list Parameter_) (contextRequirements : list ContextBinding)
    (raisedEffects : list string) (contracts : list Node) (body : Node) (isHandler : bool) : gen FunctionContext :=
  context ← function_context name params contextRequirements isHandler;
  compile_in_context context name raisedEffects contracts body.

(** [CompileFunctionBody] *)
Definition CompileFunctionBody (name : string) (params : list Parameter_)
    (contextRequirements : list ContextBinding) (raisedEffects : list string) (contracts : list Node)
    (body : Node) (emitResult : gen unit) (isHandler : bool) : gen unit :=
  completed ← compiled_function name params contextRequirements raisedEffects contracts body isHandler;
  _ ← EmitFunctionObject (function completed) (upvalues completed);
  _ ← emitResult;
  pop_active.

(** A method of an actor or of a structure: its context has [self] first. *)
Definition compile_method (context : FunctionContext) (hiddenName : string) (raisedEffects : list string)
    (contracts : list Node) (body : Node) : gen unit :=
  completed ← compile_in_context context hiddenName raisedEffects contracts body;
  _ ← pop_active;
  _ ← EmitFunctionObject (function completed) (upvalues completed);
  write_string OP_DEFINE_GLOBAL hiddenName.

(** ** Addresses and accesses *)

Definition EmitAddressOf (operand : Node) : gen unit :=
  match operand with
  | IdentifierNode name =>
      local ← ResolveLocal name;
      match local with
      | Some local => write_byte OP_ADDR_LOCAL local
      | None =>
          g ← st_get;
          upvalue ← (if 1 <? length (m_contexts g) then ResolveUpvalue name else mret None);
          match upvalue with
          | Some upvalue => write_byte OP_ADDR_UPVALUE upvalue
          | None => q ← qualify name; write_string OP_ADDR_GLOBAL q
          end
      end
  | MemberAccessNode object member =>
      fieldIndex ← ResolveStructFieldIndex object member;
      match fieldIndex with
      | None => st_throw (runtime_error "Address-of member requires a struct field")
      | Some fieldIndex =>
          _ ← visit object;
          _ ← write_constant (VInt64 fieldIndex);
          write OP_ADDR_MEMBER
      end
  | IndexNode container index => _ ← visit container; _ ← visit index; write OP_ADDR_MEMBER
  | _ => st_throw (runtime_error "Address-of requires an assignable operand")
  end.

Definition EmitCallArgument (arg : Node) (byRef : bool) : gen unit :=
  if byRef then EmitAddressOf arg else visit arg.

(** [EmitCallArguments] from index [refIndex]. *)
Fixpoint EmitCallArguments (args : list Node) (refParams : list bool) (refIndex : nat) : gen unit :=
  match args with
  | [] => mret tt
  | arg :: args =>
      _ ← EmitCallArgument arg (default false (refParams !! refIndex));
      EmitCallArguments args refParams (S refIndex)
  end.

Definition EmitContextArguments (contextParams : list string) : gen unit := for_each EmitGetVariable contextParams.

(** [EmitAssignment] *)
Definition EmitAssignment (name : string) (object : Node) (member : string)
    (dereferenceTarget value index : Node) : gen unit :=
  if negb (is_null object) then
    fieldIndex ← ResolveStructFieldIndex object member;
    match fieldIndex with
    | None => st_throw (runtime_error ("Unknown struct field for assignment: " +:+ member))
    | Some fieldIndex => _ ← visit object; _ ← visit value; write_byte OP_MEMBER_SET fieldIndex
    end
  else
  selfFieldIndex ← (if decide (name = "") then mret None else ResolveSelfFieldIndex name);
  match selfFieldIndex with
  | Some selfFieldIndex =>
      _ ← write_byte OP_GET_LOCAL 0; _ ← visit value; write_byte OP_MEMBER_SET selfFieldIndex
  | None =>
  if negb (is_null dereferenceTarget) then
    _ ← visit dereferenceTarget; _ ← visit value; write OP_DEREF_SET
  else if negb (is_null index) then
    _ ← EmitGetVariable name; _ ← visit index; _ ← visit value; write OP_INDEX_SET
  else
    _ ← visit value;
    _ ← EmitSetVariable name;
    existing ← asks (ResolveInterfaceBinding name);
    match existing with
    | None => mret tt
    | Some existing =>
        binding ← InferInterfaceBinding value (interfaceName existing);
        match binding with
        | None => mret tt
        | Some binding =>
            modify_context (λ c, set_scopes (structVarScopes c) (enumVarScopes c) (actorVarScopes c)
                                   (update_innermost name binding (interfaceVarScopes c)) c)
        end
    end
  end.

(** ** Calls *)

(** The constructor of a structure, and the call of its invariant. *)
Definition emit_struct (structName : string) (args : list Node) : gen unit :=
  _ ← EmitCallArguments args [] 0;
  layout ← asks (λ g, default [] (structLayouts (m_metadata g) !! structName));
  _ ← write_byte OP_BUILD_STRUCT (Z.of_nat (length layout));
  invariant ← asks (λ g, structInvariantChecks (m_metadata g) !! structName);
  match invariant with
  | None => mret tt
  | Some hiddenInvariantName =>
      _ ← write OP_DUP;
      _ ← write_string OP_GET_GLOBAL hiddenInvariantName;
      _ ← write OP_SWAP;
      _ ← write_byte OP_CALL 1;
      write OP_POP
  end.

Definition emit_variant (variant : EnumVariantInfo) (args : list Node) : gen unit :=
  _ ← EmitCallArguments args [] 0;
  _ ← write_byte OP_BUILD_ENUM (tag variant);
  push_back (argCount variant).

(** The default of an actor's field, or null. *)
Definition emit_default (initializer : Node) : gen unit :=
  if is_null initializer then write_constant VMonostate else visit initializer.

Definition emit_actor (actorName : string) (args : list Node) : gen unit :=
  _ ← EmitCallArguments args [] 0;
  defaults ← asks (λ g, default [] (actorFieldDefaults (m_metadata g) !! actorName));
  _ ← for_each emit_default (drop (length args) defaults);
  _ ← write_string OP_BUILD_ACTOR actorName;
  layout ← asks (λ g, default [] (actorLayouts (m_metadata g) !! actorName));
  push_back (Z.of_nat (length layout)).

(** A type constructor under a name and its qualified name; [false] when there
    is none. *)
Definition emit_constructor (name variantName : string) (args : list Node) : gen bool :=
  structName ← EnsureStructMetadata name;
  match structName with
  | Some structName => _ ← emit_struct structName args; mret true
  | None =>
      variant ← asks (λ g, enumVariants (m_metadata g) !! variantName);
      match variant with
      | Some variant => _ ← emit_variant variant args; mret true
      | None =>
          actorName ← EnsureActorMetadata name;
          match actorName with
          | Some actorName => _ ← emit_actor actorName args; mret true
          | None => mret false
          end
      end
  end.

Definition TryEmitDirectTypeConstructorCall (callee : Node) (args : list Node) : gen bool :=
  match callee with
  | IdentifierNode name => q ← qualify name; emit_constructor name q args
  | MemberAccessNode object member =>
      q ← asks (module_member object member);
      match q with Some q => emit_constructor q q args | None => mret false end
  | _ => mret false
  end.

Definition find_signature (name : string) : gen (option FunctionSignature) :=
  asks (λ g, functionSignatures (m_metadata g) !! name).
Definition context_params (signature : option FunctionSignature) : list string :=
  match signature with Some s => contextParams s | None => [] end.

(** The defaults of the parameters from number [supplied] on. *)
Definition emit_defaults (message : string) (supplied : nat) (signature : FunctionSignature) : gen unit :=
  for_each (λ d, if is_null d then st_throw (runtime_error message) else visit d)
    (drop supplied (defaultArgs signature)).

(** The number of arguments of a call: [given], or as many as there are
    parameters. *)
Definition call_count (signature : option FunctionSignature) (given contexts : nat) : Z :=
  Z.of_nat match signature with
           | Some s => if variadic s then given + contexts else length (defaultArgs s) + contexts
           | None => given + contexts
           end.

(** The call of a method of a structure. *)
Definition emit_struct_method (hiddenMethod : string) (object : Node) (args : list Node) : gen unit :=
  _ ← write_string OP_GET_GLOBAL hiddenMethod;
  _ ← visit object;
  signature ← find_signature hiddenMethod;
  let contexts := context_params signature in
  _ ← EmitContextArguments contexts;
  signature ← find_signature hiddenMethod;
  let hiddenPrefixCount := 1 + length contexts in
  _ ← EmitCallArguments args (match signature with Some s => refParams s | None => [] end) hiddenPrefixCount;
  signature ← find_signature hiddenMethod;
  _ ← (match signature with
       | Some s => emit_defaults ("Missing default argument metadata for method: " +:+ hiddenMethod)
                     (hiddenPrefixCount + length args) s
       | None => mret tt
       end);
  signature ← find_signature hiddenMethod;
  write_byte OP_CALL (call_count signature (length args + 1) (length contexts)).

(** The message to an actor or the query of it. *)
Definition emit_actor_method (object : Node) (member : string) (args : list Node) : gen unit :=
  _ ← visit object;
  actorType ← InferActorTypeName object;
  g ← st_get;
  let contexts := context_params (actorType ≫= λ type, method_of (actorMethodNames (m_metadata g)) type member
                                    ≫= λ hidden, functionSignatures (m_metadata g) !! hidden) in
  _ ← EmitContextArguments contexts;
  _ ← EmitCallArguments args [] (length contexts);
  query ← IsActorQueryMethod object member;
  let op := if (query : bool) then OP_ACTOR_QUERY else OP_ACTOR_SEND in
  _ ← write op;
  methodNameIndex ← add_string member;
  _ ← write_operand op methodNameIndex;
  push_back (Z.of_nat (length args + length contexts)).

Definition TryEmitMemberCall (callee : Node) (args : list Node) : gen bool :=
  match callee with
  | MemberAccessNode object member =>
      hiddenMethod ← ResolveStructMethod object member;
      match hiddenMethod with
      | Some hiddenMethod => _ ← emit_struct_method hiddenMethod object args; mret true
      | None =>
          if IsFunctionBackedInterfaceMethod object member then
            _ ← visit object; _ ← EmitCallArguments args [] 0;
            _ ← write_byte OP_CALL (Z.of_nat (length args)); mret true
          else
          actorMethod ← ResolveActorMethod object member;
          match actorMethod with
          | Some _ => _ ← emit_actor_method object member args; mret true
          | None => mret false
          end
      end
  | _ => mret false
  end.

(** [emitMissingDefaults] *)
Definition emitMissingDefaults (functionName : string) (suppliedCount : nat) : gen unit :=
  signature ← find_signature functionName;
  match signature with
  | None => mret tt
  | Some s =>
      if (suppliedCount <? requiredArity s) || negb (variadic s) && (length (defaultArgs s) <? suppliedCount)
      then st_throw (runtime_error ("Call arity does not match function signature: " +:+ functionName))
      else
        for_each (λ d : nat * Node,
          if default false (refParams s !! d.1)
          then st_throw (runtime_error "ref parameters cannot have default values")
          else if is_null d.2
          then st_throw (runtime_error ("Missing default argument metadata for function: " +:+ functionName))
          else visit d.2)
          (drop suppliedCount (zip (seq 0 (length (defaultArgs s))) (defaultArgs s)))
  end.

(** The function a callee names: by its qualified name, or as a member of an
    imported module. *)
Definition callee_name (callee : Node) (g : t) : option string :=
  match callee with
  | IdentifierNode name => Some (QualifyName name g)
  | MemberAccessNode object member => module_member object member g
  | _ => None
  end.

(** [ResolveFunctionRefParams] *)
Definition ResolveFunctionRefParams (callee : Node) : gen (list bool) :=
  asks (λ g, match callee_name callee g with
             | Some name => if decide (name = "") then [] else
                 match functionSignatures (m_metadata g) !! name with Some s => refParams s | None => [] end
             | None => []
             end).

Definition emit_resume (args : list Node) : gen unit :=
  c ← CurrentContext;
  if negb (isEffectHandler c)
  then st_throw (runtime_error "resume(value) can only be emitted inside an effect handler")
  else match args with
  | [arg] => _ ← visit arg; write OP_RETURN
  | _ => st_throw (runtime_error "resume(value) expects exactly one argument")
  end.

Definition is_resume (callee : Node) : bool :=
  match callee with IdentifierNode name => bool_decide (name = "resume") | _ => false end.

Definition emit_effect (effectOp : string) (args : list Node) : gen unit :=
  _ ← EmitCallArguments args [] 0;
  _ ← write_string OP_EFFECT_INVOKE effectOp;
  push_back (Z.of_nat (length args)).

Definition emit_plain_call (callee : Node) (args : list Node) : gen unit :=
  _ ← visit callee;
  refs ← ResolveFunctionRefParams callee;
  g ← st_get;
  let signature := callee_name callee g ≫= λ name, functionSignatures (m_metadata g) !! name in
  let contexts := context_params signature in
  _ ← EmitContextArguments contexts;
  _ ← EmitCallArguments args refs (length contexts);
  name ← asks (callee_name callee);
  _ ← (match name with Some name => emitMissingDefaults name (length args) | None => mret tt end);
  _ ← write OP_CALL;
  g ← st_get;
  let signature := callee_name callee g ≫= λ name, functionSignatures (m_metadata g) !! name in
  push_back (call_count signature (length args) (length (context_params signature))).

(** [EmitCall] *)
Definition EmitCall (callee : Node) (args : list Node) : gen unit :=
  if is_resume callee then emit_resume args else
  effectOp ← ResolveEffectOperation callee;
  match effectOp with
  | Some effectOp => emit_effect effectOp args
  | None =>
      constructor ← TryEmitDirectTypeConstructorCall callee args;
      if (constructor : bool) then mret tt else
      member ← TryEmitMemberCall callee args;
      if (member : bool) then mret tt else emit_plain_call callee args
  end.

(** [EmitMemberAccess] *)
Definition EmitMemberAccess (object : Node) (member : string) : gen unit :=
  structMethod ← ResolveStructMethod object member;
  if bool_decide (is_Some structMethod)
  then st_throw (runtime_error "Struct methods can only be used in call position") else
  actorMethod ← ResolveActorMethod object member;
  if bool_decide (is_Some actorMethod)
  then st_throw (runtime_error "Actor methods can only be used in call position") else
  if IsFunctionBackedInterfaceMethod object member then visit object else
  enumTag ← IsEnumTagAccess object member;
  if (enumTag : bool) then _ ← visit object; write OP_GET_ENUM_TAG else
  fieldIndex ← ResolveStructFieldIndex object member;
  match fieldIndex with
  | Some fieldIndex => _ ← visit object; write_byte OP_MEMBER_GET fieldIndex
  | None => _ ← visit object; write_string OP_GET_MODULE_MEMBER member
  end.

(** ** Declarations *)

(** The slot of a new variable, whose value is on top of the stack. *)
Definition define_local (name : string) : gen Z :=
  localIndex ← Define name;
  _ ← write_byte OP_SET_LOCAL localIndex;
  mret localIndex.

(** [Visit(VarDeclNode)] at the top level of a module: the variable is also a
    global, and a shared one has a mutex. *)
Definition export_variable (name : string) (storageClass : StorageClass) (localIndex : Z) : gen unit :=
  _ ← write_byte OP_GET_LOCAL localIndex;
  globalName ← qualify name;
  globalName ←
    (if decide (storageClass = ThreadLocal) then
       _ ← on_metadata (λ m, set_threadLocals ({[globalName]} ∪ threadLocalGlobals m) m);
       mret ("__thread_local." +:+ globalName)
     else mret globalName);
  _ ← write_string OP_DEFINE_GLOBAL globalName;
  if decide (storageClass = Shared) then
    _ ← write_string OP_GET_GLOBAL "std.sync_native.mutex";
    _ ← write_byte OP_CALL 0;
    write_string OP_DEFINE_GLOBAL ("__txn_mutex." +:+ name)
  else mret tt.

(** A declared type, unless it is left to inference. *)
Definition explicit (explicitType : string) : option string :=
  if decide (explicitType = "" ∨ explicitType = "auto") then None else Some explicitType.
Definition normalize_type (typeName : string) : gen string :=
  g ← st_get; lift (NormalizeImportedTypeName (importAliases (m_metadata g)) typeName).

(** The type of a variable as a structure or an actor: of the declared type if
    there is one, else of the initializer. *)
Definition variable_type (ensure : string → gen (option string)) (inferred : option string)
    (explicitType : string) : gen (option string) :=
  match inferred with
  | Some type =>
      declared ← normalize_type explicitType;
      match explicit declared with
      | Some declared => normalized ← ensure declared; mret (Some (default type normalized))
      | None => mret (Some type)
      end
  | None =>
      match explicit explicitType with
      | Some declared => declared ← normalize_type declared; ensure declared
      | None => mret None
      end
  end.

Definition variable_enum (inferred : option string) (explicitType : string) : gen (option string) :=
  match inferred, explicit explicitType with
  | Some type, _ => mret (Some type)
  | None, Some declared =>
      declared ← normalize_type declared;
      let declared := match SplitGenericName declared with Some (enumBase, _) => enumBase | None => declared end in
      asks (λ g, if is_enum declared (m_metadata g) then Some declared else None)
  | None, None => mret None
  end.

Definition variable_interface (inferred : option InterfaceBinding) (explicitType : string)
    : gen (option InterfaceBinding) :=
  match inferred, explicit explicitType with
  | Some binding, _ => mret (Some binding)
  | None, Some declared =>
      declared ← normalize_type declared;
      interfaceName ← EnsureInterfaceMetadata declared;
      mret ((λ type, MkBinding type "" Unknown) <$> interfaceName)
  | None, None => mret None
  end.

Definition bind_opt {A} (bind : string → A → FunctionContext → FunctionContext) (name : string)
    (type : option A) : gen unit :=
  match type with Some type => modify_context (bind name type) | None => mret tt end.

(** What a declaration tells of the type of its variable. *)
Definition record_types (name explicitType : string) (initializer : Node) : gen unit :=
  inferred ← InferStructTypeName initializer;
  type ← variable_type EnsureStructMetadata inferred explicitType;
  _ ← bind_opt bind_struct name type;
  inferred ← InferEnumTypeName initializer;
  type ← variable_enum inferred explicitType;
  _ ← bind_opt bind_enum name type;
  inferred ← InferActorTypeName initializer;
  type ← variable_type EnsureActorMetadata inferred explicitType;
  _ ← bind_opt bind_actor name type;
  inferred ← InferInterfaceBinding initializer explicitType;
  binding ← variable_interface inferred explicitType;
  bind_opt bind_interface name binding.

(** [Visit(VarDeclNode)] *)
Definition VisitVarDecl (name explicitType : string) (initializer : Node) (storageClass : StorageClass) : gen unit :=
  _ ← (if is_null initializer then write_constant VMonostate else visit initializer);
  localIndex ← define_local name;
  g ← st_get;
  _ ← (if bool_decide (length (m_contexts g) = 1) && negb (bool_decide (m_currentModule g = ""))
       then export_variable name storageClass localIndex else mret tt);
  record_types name explicitType initializer.

Definition VisitInterfaceDecl (name : string) (methods : list InterfaceMethodSig) : gen unit :=
  q ← qualify name;
  on_metadata (λ m, set_interfaces (<[q := im_name <$> methods]> (interfaceMethods m)) m).

Definition VisitEffectDecl (name : string) (operations : list InterfaceMethodSig) : gen unit :=
  q ← qualify name;
  on_metadata (λ m, set_effects (<[q := list_to_map ((λ o, (im_name o, q)) <$> operations)]> (effectOperations m)) m).

Definition VisitEnumDecl (name : string) (variants : list EnumVariantDecl) : gen unit :=
  enumName ← qualify name;
  for_each (λ v : nat * EnumVariantDecl,
    q ← qualify (ev_name v.2);
    let info := MkVariantInfo (Z.of_nat v.1 mod 2 ^ 8) (Z.of_nat (length (argTypes v.2)) mod 2 ^ 8) enumName in
    on_metadata (λ m, set_variants (<[q := info]> (enumVariants m)) m))
    (zip (seq 0 (length variants)) variants).

(** *** Structures *)

Definition set_struct (qualifiedName : string) (layout : list string) (types : gmap string string)
    (params : list string) (methods : gmap string string) (m : MetadataRegistry) : MetadataRegistry :=
  set_structs (<[qualifiedName := layout]> (structLayouts m)) (<[qualifiedName := types]> (structFieldTypes m))
    (<[qualifiedName := params]> (structTypeParams m)) (<[qualifiedName := methods]> (structMethodNames m))
    (structInvariantChecks m) m.

(** The entry of a field: a declared structure by its qualified name. *)
Definition field_type (field : StructField) (g : t) : string * string :=
  let q := QualifyName (sf_typeName field) g in
  (sf_name field, if decide (is_Some (structLayouts (m_metadata g) !! q)) then q else sf_typeName field).

(** The context of a method: [self], the contexts and the parameters. *)
Definition method_context (hiddenName : string) (methodSelf actorSelf : option string)
    (contextRequirements : list ContextBinding) (params : list Parameter_) : gen FunctionContext :=
  let context := set_self methodSelf actorSelf (InitializeFunctionContext hiddenName) in
  context ← define_parameter "self" context;
  let context := match methodSelf with Some type => bind_struct "self" type context | None => context end in
  context ← define_parameters cb_name contextRequirements context;
  define_parameters p_name params context.

Definition invariant_code (qualifiedName : string) (contracts : list Node) : gen unit :=
  _ ← emit_contracts Invariant ("Contract invariant failed in " +:+ qualifiedName) contracts;
  _ ← write_constant VMonostate;
  write OP_RETURN.

(** The function that checks the invariants of a structure. *)
Definition compile_invariant (qualifiedName : string) (contracts : list Node) : gen unit :=
  let invariantName := qualifiedName +:+ ".__invariant" in
  _ ← on_metadata (λ m, set_structs (structLayouts m) (structFieldTypes m) (structTypeParams m) (structMethodNames m)
                          (<[qualifiedName := invariantName]> (structInvariantChecks m)) m);
  context ← method_context invariantName (Some qualifiedName) None [] [];
  _ ← push_context context;
  _ ← invariant_code qualifiedName contracts;
  completed ← pop_context;
  _ ← EmitFunctionObject (function completed) (upvalues completed);
  write_string OP_DEFINE_GLOBAL invariantName.

Definition VisitStructMethod (qualifiedName : string) (method : StructMethodDecl) : gen unit :=
  let 'MkStructMethod name returnType params contextRequirements raisedEffects contracts body := method in
  let hiddenName := qualifiedName +:+ "." +:+ name in
  _ ← on_metadata (λ m, set_structs (structLayouts m) (structFieldTypes m) (structTypeParams m)
         (alter <[name := hiddenName]> qualifiedName (structMethodNames m)) (structInvariantChecks m) m);
  _ ← RegisterFunctionSignature hiddenName (MkParameter "self" qualifiedName NullNode false :: params)
        contextRequirements returnType;
  context ← method_context hiddenName (Some qualifiedName) None contextRequirements params;
  compile_method context hiddenName raisedEffects contracts body.

Definition VisitStructDecl (name : string) (typeParams : list TypeParameterDecl) (fields : list StructField)
    (methods : list StructMethodDecl) (contracts : list Node) : gen unit :=
  qualifiedName ← qualify name;
  _ ← on_metadata (set_struct qualifiedName [] ∅ [] ∅);
  types ← asks (λ g, foldl (λ types field, let '(k, v) := field_type field g in <[k := v]> types) ∅ fields);
  _ ← on_metadata (set_struct qualifiedName (sf_name <$> fields) types (tp_name <$> typeParams) ∅);
  _ ← (if existsb (is_contract Invariant) contracts then compile_invariant qualifiedName contracts else mret tt);
  for_each (VisitStructMethod qualifiedName) methods.

(** *** Actors *)

Definition VisitActorMethod (qualifiedName : string) (fields : list ActorFieldDecl) (method : ActorMethodDecl) : gen unit :=
  let 'MkActorMethod kind name returnType params contextRequirements raisedEffects contracts body := method in
  let hiddenName := qualifiedName +:+ "." +:+ name in
  _ ← on_metadata (λ m, set_actors (actorLayouts m) (actorFieldDefaults m)
         (alter <[name := hiddenName]> qualifiedName (actorMethodNames m))
         (alter <[name := bool_decide (kind = Query)]> qualifiedName (actorMethodIsQuery m)) m);
  _ ← RegisterFunctionSignature hiddenName (MkParameter "self" qualifiedName NullNode false :: params)
        contextRequirements returnType;
  context ← method_context hiddenName None (Some qualifiedName) contextRequirements params;
  compile_method (set_actorStateNames (list_to_set (af_name <$> fields)) context) hiddenName raisedEffects contracts body.

(** The table of the methods, in the order of [std::unordered_map]. *)
Definition VisitActorDecl (name : string) (fields : list ActorFieldDecl) (methods : list ActorMethodDecl) : gen unit :=
  qualifiedName ← qualify name;
  _ ← on_metadata (λ m, set_actors (<[qualifiedName := af_name <$> fields]> (actorLayouts m))
                          (<[qualifiedName := af_initializer <$> fields]> (actorFieldDefaults m))
                          (<[qualifiedName := ∅]> (actorMethodNames m)) (<[qualifiedName := ∅]> (actorMethodIsQuery m)) m);
  _ ← for_each (VisitActorMethod qualifiedName fields) methods;
  methodNames ← asks (λ g, default ∅ (actorMethodNames (m_metadata g) !! qualifiedName));
  _ ← for_each (λ kv, _ ← write_string OP_GET_GLOBAL kv.2; write_string OP_CONSTANT kv.1) (map_to_list methodNames);
  _ ← write_byte OP_BUILD_ACTOR_METHODS (Z.of_nat (size methodNames));
  write_string OP_DEFINE_GLOBAL (qualifiedName +:+ ".__methods").

(** *** Functions and modules *)

Definition compile_function (name returnType : string) (params : list Parameter_)
    (contextRequirements : list ContextBinding) (raisedEffects : list string) (contracts : list Node)
    (body : Node) : gen unit :=
  exportedName ← qualify name;
  _ ← RegisterFunctionSignature exportedName params contextRequirements returnType;
  CompileFunctionBody exportedName params contextRequirements raisedEffects contracts body
    (write_string OP_DEFINE_GLOBAL exportedName) false.

Definition VisitFunctionDecl (node : Node) (name returnType : string) (isComptime : bool)
    (params : list Parameter_) (contextRequirements : list ContextBinding) (raisedEffects : list string)
    (contracts : list Node) (body : Node) : gen unit :=
  if isComptime then
    q ← qualify name;
    id ← allocate;
    st_modify (λ g, set_comptimeFunctions (<[name := (id, node)]> (<[q := (id, node)]> (m_comptimeFunctions g))) g)
  else compile_function name returnType params contextRequirements raisedEffects contracts body.

Definition next_lambda : gen nat := λ g,
  let n := S (m_lambdaCounter g) in Ok (n, set_lambdaCounter n g).

Definition VisitFunctionExpr (name : string) (params : list Parameter_) (raisedEffects : list string)
    (body : Node) : gen unit :=
  name ← (if decide (name = "") then n ← next_lambda; mret ("<lambda_" +:+ pretty n +:+ ">") else mret name);
  CompileFunctionBody name params [] raisedEffects [] body (mret tt) false.

Definition VisitImportDecl (qualifiedName alias : string) : gen unit :=
  let name := if decide (alias = "") then DefaultImportAlias qualifiedName else alias in
  _ ← on_metadata (λ m, set_imports (<[name := qualifiedName]> (importAliases m)) m);
  module ← new_module qualifiedName;
  _ ← write_constant module;
  _ ← define_local name;
  mret tt.

(** ** Statements *)

Definition push_scope : gen unit := modify_context PushContextScope.
Definition pop_scope : gen unit := on_context (λ c, c ← PopContextScope c; Ok (tt, c)).

Definition is_var_decl (n : Node) : bool := match n with VarDeclNode _ _ _ _ _ => true | _ => false end.

(** The loop of [Visit(BlockNode)]; [varsInBlock] is a byte. *)
Fixpoint visit_statements (statements : list Node) (varsInBlock : Z) : gen Z :=
  match statements with
  | [] => mret varsInBlock
  | stmt :: statements =>
      if is_null stmt then visit_statements statements varsInBlock else
      let varsInBlock := if is_var_decl stmt then ((varsInBlock + 1) mod 2 ^ 8)%Z else varsInBlock in
      _ ← visit stmt;
      _ ← (if ShouldPopStatementResult stmt then write OP_POP else mret tt);
      visit_statements statements varsInBlock
  end.

(** The statements, and the end of their variables. *)
Definition block_code (statements : list Node) : gen unit :=
  varsInBlock ← visit_statements statements 0;
  repeat_write (Z.to_nat varsInBlock) OP_POP.

Definition VisitBlock (statements : list Node) : gen unit :=
  _ ← push_scope; _ ← block_code statements; pop_scope.

Definition VisitUnary (op : string) (operand : Node) : gen unit :=
  if decide (op = "+") then visit operand
  else if decide (op = "-") then _ ← visit operand; write OP_NEGATE
  else if decide (op = "!" ∨ op = "not") then _ ← visit operand; write OP_NOT
  else if decide (op = "*") then _ ← visit operand; write OP_DEREF_GET
  else if decide (op = "&") then EmitAddressOf operand
  else st_throw (runtime_error ("Unsupported unary operator for codegen: " +:+ op)).

Definition VisitBinary (left : Node) (op : string) (right : Node) : gen unit :=
  _ ← visit left; _ ← visit right; on_chunk (EmitBinaryOp op).

(** The call of the invariant at the return of a method. *)
Definition check_invariant (hiddenName : string) : gen unit :=
  _ ← write_string OP_GET_GLOBAL hiddenName;
  _ ← write_byte OP_GET_LOCAL 0;
  _ ← write_byte OP_CALL 1;
  write OP_POP.

(** The result is kept in its slot for the postconditions. *)
Definition check_ensures : gen unit :=
  g ← st_get;
  match m_activeFunctionContracts g with
  | [] | [] :: _ => mret tt
  | contracts :: _ =>
      _ ← (match mjoin (head (m_activeContractResultSlots g)) with
           | Some resultSlot => _ ← write OP_DUP; _ ← write_byte OP_SET_LOCAL resultSlot; write OP_POP
           | None => mret tt
           end);
      emit_contracts Ensures "Contract ensures failed" contracts
  end.

Definition VisitReturn (value : Node) : gen unit :=
  _ ← (if is_null value then write_constant VMonostate else visit value);
  _ ← check_ensures;
  c ← CurrentContext;
  g ← st_get;
  _ ← (match methodSelfStructType c ≫= λ type, structInvariantChecks (m_metadata g) !! type with
       | Some hiddenName => check_invariant hiddenName
       | None => mret tt
       end);
  write OP_RETURN.

Definition VisitTransaction (regions : list Region) (body : Node) : gen unit :=
  if decide (regions = []) then st_throw (runtime_error "transaction requires at least one region") else
  _ ← for_each (λ region, EmitGetVariable (if usesShared region then "__txn_mutex." +:+ r_name region
                                           else r_name region)) regions;
  _ ← (if 1 <? length regions then write_byte OP_BUILD_ARRAY (Z.of_nat (length regions)) else mret tt);
  _ ← write OP_BEGIN_TXN;
  _ ← visit_opt body;
  write OP_END_TXN.

(** *** Tasks *)

Definition VisitGo (call : Node) : gen unit :=
  _ ← write OP_GET_GLOBAL;
  goIndex ← add_string "__task_go";
  _ ← write_operand OP_GET_GLOBAL goIndex;
  match call with
  | CallNode callee args =>
      _ ← visit callee;
      _ ← for_each visit args;
      write_byte OP_CALL (Z.of_nat (length args + 1))
  | _ => st_throw (runtime_error "go expects a function call")
  end.

Definition VisitAwait (operand : Node) : gen unit :=
  _ ← write OP_GET_GLOBAL;
  awaitIndex ← add_string "__task_await";
  _ ← write_operand OP_GET_GLOBAL awaitIndex;
  _ ← visit operand;
  write_byte OP_CALL 1.

(** *** Effects *)

(** [resolveHandlerEffectKey] *)
Definition handler_effect_key (operationName : string) : gen string :=
  g ← st_get;
  let active := active_effects operationName g in
  let candidates :=
    if decide (active = []) then
      filter (λ e, has_operation operationName (m_metadata g) e) (fst <$> map_to_list (effectOperations (m_metadata g)))
    else active in
  match sort_unique_strings candidates with
  | [] => mret operationName
  | [effectName] => mret (effectName +:+ "." +:+ operationName)
  | _ => st_throw (runtime_error ("Ambiguous handled effect operation for codegen: " +:+ operationName))
  end.

Definition effect_key (handler : EffectHandlerCase) : gen string :=
  let 'MkHandlerCase effectName effectKey _ _ := handler in
  if decide (effectKey = "") then handler_effect_key effectName else mret effectKey.

Definition compile_handler (handler : EffectHandlerCase) : gen unit :=
  let 'MkHandlerCase effectName _ params body := handler in
  n ← next_lambda;
  _ ← CompileFunctionBody ("<handler_" +:+ effectName +:+ "_" +:+ pretty n +:+ ">") params [] [] [] body (mret tt) true;
  effectKey ← effect_key handler;
  write_string OP_CONSTANT effectKey.

Fixpoint handled_effects (handlers : list EffectHandlerCase) : gen (gset string) :=
  match handlers with
  | [] => mret ∅
  | h :: handlers => k ← effect_key h; s ← handled_effects handlers; mret ({[EffectNameFromKey k]} ∪ s)
  end.

Definition set_handled (f : list (gset string) → list (gset string)) : gen unit :=
  st_modify (λ g, set_active (m_activeFunctionContracts g) (m_activeContractResultSlots g) (m_activeRaisedEffects g)
                    (f (m_activeHandledEffects g)) g).

Definition handled_code (expression : Node) : gen unit :=
  _ ← (if is_null expression then write_constant VMonostate else visit expression);
  write OP_POP_HANDLER.

Definition VisitHandle (expression : Node) (handlers : list EffectHandlerCase) : gen unit :=
  _ ← for_each compile_handler handlers;
  _ ← write_byte OP_BUILD_HANDLER (Z.of_nat (length handlers));
  _ ← write OP_PUSH_HANDLER;
  handledEffects ← handled_effects handlers;
  _ ← set_handled (cons handledEffects);
  _ ← handled_code expression;
  set_handled tail.

(** *** Collections and iteration *)

Definition VisitArrayLiteral (elements : list Node) : gen unit :=
  _ ← for_each visit elements;
  write_byte OP_BUILD_ARRAY (Z.of_nat (length elements)).

Definition VisitMapLiteral (entries : list (Node * Node)) : gen unit :=
  _ ← for_each (λ kv : Node * Node, _ ← visit kv.1; visit kv.2) entries;
  write_byte OP_BUILD_MAP (Z.of_nat (length entries)).

Definition VisitIndex (container index : Node) : gen unit :=
  enumType ← InferEnumTypeName container;
  match enumType with
  | Some _ =>
      match index with
      | IntegerLiteralNode value =>
          if (value <? 0)%Z || (255 <? value)%Z
          then st_throw (runtime_error "Enum argument access requires a non-negative integer literal index")
          else _ ← visit container; write_byte OP_GET_ENUM_ARG value
      | _ => st_throw (runtime_error "Enum argument access requires a non-negative integer literal index")
      end
  | None => _ ← visit container; _ ← visit index; write OP_INDEX_GET
  end.

Definition visit_adapter (iteratorSlot : Z) (adapter : IterAdapterKind * Node) : gen unit :=
  let '(kind, argument) := adapter in
  _ ← write_byte OP_GET_LOCAL iteratorSlot;
  _ ← (match kind with
       | Drop_ => _ ← visit argument; write OP_ITER_DROP
       | Take_ => _ ← visit argument; write OP_ITER_TAKE
       | Reverse_ => write OP_ITER_REVERSE
       | Filter => _ ← visit argument; write OP_ITER_FILTER
       | Transform => _ ← visit argument; write OP_ITER_TRANSFORM
       end);
  _ ← write_byte OP_SET_LOCAL iteratorSlot;
  write OP_POP.

(** The exit of [OP_ITER_NEXT] has one byte for its distance. *)
Definition patch_exit (exitJump : nat) : st Chunk unit :=
  c ← st_get;
  let exitDistance := length (code c) - exitJump - 1 in
  if 255 <? exitDistance then st_throw (runtime_error "iter body is too large for OP_ITER_NEXT jump")
  else set_byte exitJump (Z.of_nat exitDistance).

Definition iter_loop (iteratorSlot varIdx : Z) (body : Node) : gen unit :=
  k ← CurrentChunk;
  let loopStart := length (code k) in
  _ ← write_byte OP_GET_LOCAL iteratorSlot;
  _ ← write OP_ITER_NEXT;
  k ← CurrentChunk;
  let exitJump := length (code k) in
  _ ← push_back 0xff;
  _ ← write_byte OP_SET_LOCAL varIdx;
  _ ← write OP_POP;
  _ ← write OP_POP;
  _ ← visit body;
  _ ← on_chunk (EmitLoop loopStart);
  _ ← on_chunk (patch_exit exitJump);
  write OP_POP.

Definition iter_code (varName : string) (collection : Node) (adapters : list (IterAdapterKind * Node))
    (body : Node) : gen unit :=
  _ ← visit collection;
  _ ← write OP_MAKE_ITER;
  iteratorSlot ← define_local "__iter";
  _ ← write_constant VMonostate;
  varIdx ← define_local varName;
  _ ← for_each (visit_adapter iteratorSlot) adapters;
  _ ← iter_loop iteratorSlot varIdx body;
  _ ← write OP_POP;
  write OP_POP.

Definition VisitIter (varName : string) (collection : Node) (adapters : list (IterAdapterKind * Node))
    (body : Node) : gen unit :=
  _ ← push_scope; _ ← iter_code varName collection adapters body; pop_scope.

(** ** Compile-time evaluation *)

(** What [EvaluateComptime] sees of the virtual machine: the objects after the
    run of a chunk, and the error or the value on top of the stack (null when
    there is none). *)
Context (interpret : heap → Chunk → result (heap * (string + Value))).

(** The compile-time functions, each once. *)
Definition unique_functions (fs : gmap string (nat * Node)) : list Node :=
  (map_to_list (list_to_map (map_to_list fs).*2 : gmap nat Node)).*2.

Definition register_alias (alias : string * Value) : gen unit :=
  _ ← write_constant alias.2; _ ← define_local alias.1; mret tt.

(** [RegisterComptimeFunctionsForChunk] *)
Definition RegisterComptimeFunctionsForChunk (importedAliases : list (string * Value)) : gen unit :=
  _ ← for_each register_alias importedAliases;
  functions ← asks (λ g, unique_functions (m_comptimeFunctions g));
  for_each (λ f,
    match f with
    | FunctionDeclNode name returnType _ _ params contexts raised contracts body =>
        compile_function name returnType params contexts raised contracts body
    | _ => mret tt
    end) functions.

Fixpoint alias_modules (aliases : list (string * string)) : gen (list (string * Value)) :=
  match aliases with
  | [] => mret []
  | (alias, moduleName) :: aliases =>
      module ← new_module moduleName; rest ← alias_modules aliases; mret ((alias, module) :: rest)
  end.

(** The chunk that [EvaluateComptime] runs, compiled in contexts of its own. *)
Definition comptime_chunk (node : Node) : gen Chunk :=
  saved ← st_get;
  _ ← st_modify (set_contexts [top_level_context "<comptime_top_level>"]);
  _ ← st_modify (set_active [] [] [] []);
  importedAliases ← alias_modules (map_to_list (importAliases (m_metadata saved)));
  _ ← RegisterComptimeFunctionsForChunk importedAliases;
  _ ← CompileFunctionBody "<comptime_eval>" [] [] [] [] node (mret tt) false;
  _ ← write_byte OP_CALL 0;
  _ ← write OP_RETURN;
  k ← CurrentChunk;
  _ ← st_modify (set_contexts (m_contexts saved));
  _ ← st_modify (set_active (m_activeFunctionContracts saved) (m_activeContractResultSlots saved)
                   (m_activeRaisedEffects saved) (m_activeHandledEffects saved));
  mret k.

(** [EvaluateComptime] *)
Definition EvaluateComptime (node : Node) : gen Value :=
  if is_null node then mret VMonostate else
  k ← comptime_chunk node;
  g ← st_get;
  '(h, outcome) ← lift (interpret (m_heap g) k);
  _ ← st_modify (set_heap h);
  match outcome with
  | inr v => mret v
  | inl error => st_throw (runtime_error (if decide (error = "") then "comptime execution failed" else error))
  end.

(** ** [Accept] *)

Definition dispatch (node : Node) : gen unit :=
  match node with
  | NullNode => st_throw (undefined_behaviour "null pointer")
  | IntegerLiteralNode value => write_constant (VInt64 value)
  | FloatLiteralNode value => write_constant (VDouble value)
  | StringLiteralNode value => write_constant (VString (Some value))
  | LeafNode type _ =>
      if decide (type = "true") then write_constant (VBool true)
      else if decide (type = "false") then write_constant (VBool false)
      else if decide (type = "null") then write_constant VMonostate
      else mret tt
  | RawNode _ children => for_each visit_opt children
  | ComptimeNode body => v ← EvaluateComptime body; write_constant v
  | IdentifierNode name => EmitGetVariable name
  | UnaryExprNode op operand => VisitUnary op operand
  | BinaryExprNode lhs op rhs => VisitBinary lhs op rhs
  | AssignmentNode name object member dereferenceTarget value index =>
      EmitAssignment name object member dereferenceTarget value index
  | CallNode callee args => EmitCall callee args
  | GoExprNode call => VisitGo call
  | AwaitExprNode operand => VisitAwait operand
  | MemberAccessNode object member => EmitMemberAccess object member
  | IndexNode container index => VisitIndex container index
  | FunctionExprNode name _ params raisedEffects body => VisitFunctionExpr name params raisedEffects body
  | ArrayLiteralNode elements => VisitArrayLiteral elements
  | MapLiteralNode _ _ entries => VisitMapLiteral entries
  | BlockNode statements => VisitBlock statements
  | ExportDeclNode declaration _ => visit_opt declaration
  | IfStatementNode condition thenBlock elseBlock =>
      VisitIf (@on_chunk) (visit condition) (visit thenBlock)
        (if is_null elseBlock then None else Some (visit elseBlock))
  | WhileStatementNode condition body => VisitWhile (@on_chunk) (visit condition) (visit body)
  | IterNode varName collection adapters body => VisitIter varName collection adapters body
  | ModuleDeclNode qualifiedName => st_modify (set_currentModule qualifiedName)
  | ImportDeclNode qualifiedName alias => VisitImportDecl qualifiedName alias
  | ReturnNode value => VisitReturn value
  | PrintNode value => _ ← visit value; write OP_PRINT
  | UnsafeNode body => visit_opt body
  | TransactionNode regions body => VisitTransaction regions body
  | HandleNode expression handlers => VisitHandle expression handlers
  | ContractNode _ expression => visit_opt expression
  | VarDeclNode name explicitType initializer _ storageClass => VisitVarDecl name explicitType initializer storageClass
  | TypeAliasNode _ _ _ => mret tt
  | StructDeclNode name typeParams fields _ methods contracts => VisitStructDecl name typeParams fields methods contracts
  | EnumDeclNode name _ variants => VisitEnumDecl name variants
  | InterfaceDeclNode name _ methods => VisitInterfaceDecl name methods
  | EffectDeclNode name operations => VisitEffectDecl name operations
  | ActorDeclNode name _ fields methods => VisitActorDecl name fields methods
  | FunctionDeclNode name returnType isComptime _ params contextRequirements raisedEffects contracts body =>
      VisitFunctionDecl node name returnType isComptime params contextRequirements raisedEffects contracts body
  end.
End visit.

Section generator.
Context (interpret : heap → Chunk → result (heap * (string + Value))).

Fixpoint Visit (fuel : nat) (node : Node) : gen unit :=
  match fuel with
  | 0 => st_diverge
  | S fuel => dispatch (Visit fuel) interpret node
  end.

(** The state at the start of [Compile], which keeps nothing but the stacks of
    a compilation before it, empty after a success. *)
Definition initial : t :=
  Mk [top_level_context "top_level"] "" Clear 0 [] [] [] [] ∅ 0 ∅.

(** [Compile], behind the semantic analysis. *)
Definition Compile (fuel : nat) (root : Node) : result (Chunk * t) :=
  (_ ← (if is_null root then mret tt else Visit fuel root);
   _ ← write OP_RETURN;
   CurrentChunk) initial.
End generator.
End Generator.
