(* ===== verification/GeneratorSpec.v ===== *)
(** * What a visit leaves alone

    Every visit of the generator, of any tree: the code and the constants
    already written stay, the functions around the current one are untouched
    but for their captures, scopes and the stacks of active contracts and
    effects are as before.  [ext] is this property of a computation relative
    to an earlier state, closed under the combinators of the generator. *)

From S2P Require Import Prelude Value Bytecode Ast SymbolTable TypeNames GenState Resolver Generator.
From Stdlib Require Import Lia.

Import Value Bytecode Ast TypeNames GenState Resolver Generator.

(** ** The relation *)

(** A chunk with more code and constants. *)
Record chunk_grows (k k' : Chunk) : Prop := {
  cg_code : code k `prefix_of` code k';
  cg_constants : constants k `prefix_of` constants k';
  cg_name : debugName k' = debugName k;
}.

(** The parameters of a function and the kind of its context. *)
Definition same_header (c c' : FunctionContext) : Prop :=
  b_name (function c') = b_name (function c) ∧ b_arity (function c') = b_arity (function c)
  ∧ b_minArity (function c') = b_minArity (function c) ∧ b_variadic (function c') = b_variadic (function c)
  ∧ methodSelfStructType c' = methodSelfStructType c ∧ actorSelfType c' = actorSelfType c
  ∧ isEffectHandler c' = isEffectHandler c.

(** The captures of a function only grow. *)
Definition captures_grow (c c' : FunctionContext) : Prop :=
  upvalues c `prefix_of` upvalues c' ∧ b_captureNames (function c) `prefix_of` b_captureNames (function c').

(** The same names but for the innermost scope. *)
Record symbols_grow (s s' : SymbolTable.t) : Prop := {
  sg_scopes : tail (SymbolTable.m_scopes s') = tail (SymbolTable.m_scopes s);
  sg_length : length (SymbolTable.m_scopes s') = length (SymbolTable.m_scopes s);
  sg_indices : SymbolTable.m_indexStack s' = SymbolTable.m_indexStack s;
}.

(** The current function and one around it. *)
Record inner (c c' : FunctionContext) : Prop := {
  in_header : same_header c c';
  in_captures : captures_grow c c';
  in_chunk : chunk_grows (b_chunk (function c)) (b_chunk (function c'));
  in_symbols : symbols_grow (symbols c) (symbols c');
}.
Record outer (c c' : FunctionContext) : Prop := {
  out_header : same_header c c';
  out_captures : captures_grow c c';
  out_chunk : b_chunk (function c') = b_chunk (function c);
  out_symbols : symbols c' = symbols c;
}.

Definition same_active (g g' : t) : Prop :=
  m_activeFunctionContracts g' = m_activeFunctionContracts g
  ∧ m_activeContractResultSlots g' = m_activeContractResultSlots g
  ∧ m_activeRaisedEffects g' = m_activeRaisedEffects g
  ∧ m_activeHandledEffects g' = m_activeHandledEffects g.

Definition contexts_grow (l l' : list FunctionContext) : Prop :=
  match l, l' with
  | c :: cs, c' :: cs' => inner c c' ∧ Forall2 outer cs cs'
  | _, _ => False
  end.

Record grown (g g' : t) : Prop := {
  gr_contexts : contexts_grow (m_contexts g) (m_contexts g');
  gr_active : same_active g g';
}.

#[export] Instance chunk_grows_po : PreOrder chunk_grows.
Proof.
  split; [by intros k; split|]. intros k1 k2 k3 [] []. split; [by etrans|by etrans|congruence].
Qed.
#[export] Instance same_header_po : PreOrder same_header.
Proof. split; [by intros c|]. unfold same_header. intros c1 c2 c3. naive_solver congruence. Qed.
#[export] Instance captures_grow_po : PreOrder captures_grow.
Proof. split; [by intros c|]. intros c1 c2 c3 [] []. split; by etrans. Qed.
#[export] Instance symbols_grow_po : PreOrder symbols_grow.
Proof. split; [by intros s; split|]. intros s1 s2 s3 [] []. split; congruence. Qed.
#[export] Instance inner_po : PreOrder inner.
Proof. split; [by intros c; split|]. intros c1 c2 c3 [] []. split; by etrans. Qed.
#[export] Instance outer_po : PreOrder outer.
Proof. split; [by intros c; split|]. intros c1 c2 c3 [] []. split; [by etrans..|congruence|congruence]. Qed.
#[export] Instance same_active_po : PreOrder same_active.
Proof. split; [by intros g|]. unfold same_active. intros g1 g2 g3. naive_solver congruence. Qed.

Lemma outer_inner c c' : outer c c' → inner c c'.
Proof. intros [? ? E1 E2]. split; [done|done|by rewrite E1|by rewrite E2]. Qed.

Lemma contexts_grow_trans l1 l2 l3 : contexts_grow l1 l2 → contexts_grow l2 l3 → contexts_grow l1 l3.
Proof. destruct l1, l2, l3; cbn; try done. intros [] []. split; by etrans. Qed.
Lemma grown_trans g1 g2 g3 : grown g1 g2 → grown g2 g3 → grown g1 g3.
Proof. intros [] []. split; [by eapply contexts_grow_trans|by etrans]. Qed.
Lemma outer_refl cs : Forall2 outer cs cs.
Proof. by induction cs; constructor. Qed.
Lemma grown_refl g : m_contexts g ≠ [] → grown g g.
Proof. intros E. split; [|done]. destruct (m_contexts g); [done|]. split; [done|apply outer_refl]. Qed.
Lemma grown_not_empty g0 g : grown g0 g → m_contexts g ≠ [].
Proof. intros [Hc _] E. rewrite E in Hc. by destruct (m_contexts g0). Qed.

(** ** Computations *)

(** [m] keeps the relation to [g0]; its answers satisfy [Q]. *)
Definition ext_post (g0 : t) {A} (m : gen A) (Q : A → Prop) : Prop :=
  ∀ g a g', grown g0 g → m g = Ok (a, g') → grown g0 g' ∧ Q a.
Abbreviation ext g0 m := (ext_post g0 m (λ _, True)).

(** [m] changes neither the contexts nor the active stacks. *)
Definition quiet {A} (m : gen A) : Prop :=
  ∀ g a g', m g = Ok (a, g') → m_contexts g' = m_contexts g ∧ same_active g g'.

Create HintDb gen.

Section quiet.
Lemma quiet_ret {A} (a : A) : quiet (mret a).
Proof. by intros g a' g' [= _ <-]. Qed.
Lemma quiet_get : quiet st_get.
Proof. by intros g a g' [= _ <-]. Qed.
Lemma quiet_throw {A} e : quiet (st_throw e : gen A).
Proof. done. Qed.
Lemma quiet_asks {A} (f : t → A) : quiet (asks f).
Proof. by intros g a g' [= _ <-]. Qed.
Lemma quiet_qualify name : quiet (qualify name).
Proof. by intros g a g' [= _ <-]. Qed.
Lemma quiet_lift {A} (r : result A) : quiet (lift r).
Proof. intros g a g'. unfold lift. destruct r; cbn; [by intros [= _ <-]|done..]. Qed.
Lemma quiet_on_metadata f : quiet (on_metadata f).
Proof. by intros g a g' [= _ <-]. Qed.
Lemma quiet_allocate : quiet allocate.
Proof. by intros g a g' [= _ <-]. Qed.
Lemma quiet_new_module name : quiet (new_module name).
Proof. by intros g a g' [= _ <-]. Qed.
Lemma quiet_next_lambda : quiet next_lambda.
Proof. by intros g a g' [= _ <-]. Qed.
Lemma quiet_bind {A B} (m : gen A) (k : A → gen B) : quiet m → (∀ a, quiet (k a)) → quiet (m ≫= k).
Proof.
  intros Hm Hk g b g' (a & g1 & E & E')%st_bind_Ok. destruct (Hm _ _ _ E) as [E1 A1].
  destruct (Hk _ _ _ _ E') as [E2 A2]. split; [congruence|by etrans].
Qed.
Lemma quiet_ensure (f : gen (option string)) :
  (∀ g a g', f g = Ok (a, g') → g' = g ∨ ∃ m, g' = set_metadata m g) → quiet f.
Proof. intros Hf g a g' [-> |[m ->]]%Hf; done. Qed.
End quiet.
#[export] Hint Resolve quiet_ret quiet_get quiet_throw quiet_asks quiet_qualify quiet_lift quiet_on_metadata
  quiet_allocate quiet_new_module quiet_next_lambda : gen.

(** The cases of an [Ensure] that leave the state. *)
Ltac same_state := try (match goal with H : Ok _ = Ok _ |- _ => simplify_eq; by left end).

Lemma quiet_EnsureStructMetadata name : quiet (EnsureStructMetadata name).
Proof.
  apply quiet_ensure. intros g a g'. unfold EnsureStructMetadata. cbn beta. case_decide; [intros ?; same_state|].
  intros (n & E & HE)%result_bind_Ok. do 2 (case_decide; same_state).
  destruct (SplitGenericName _) as [[b args]|]; same_state. case_decide; same_state.
  destruct (structTypeParams _ !! b) as [params|]; same_state. case_decide; same_state.
  apply result_bind_Ok in HE as (m & _ & HE). simplify_eq. right. by exists m.
Qed.
Lemma quiet_EnsureActorMetadata name : quiet (EnsureActorMetadata name).
Proof.
  apply quiet_ensure. intros g a g'. unfold EnsureActorMetadata. cbn beta. case_decide; [intros ?; same_state|].
  intros (n & E & HE)%result_bind_Ok. do 2 (case_decide; same_state).
  destruct (SplitGenericName _) as [[b args]|]; same_state. case_decide; same_state.
  simplify_eq. right. by eexists.
Qed.
Lemma quiet_EnsureInterfaceMetadata name : quiet (EnsureInterfaceMetadata name).
Proof.
  apply quiet_ensure. intros g a g'. unfold EnsureInterfaceMetadata. cbn beta. case_decide; [intros ?; same_state|].
  intros (n & E & HE)%result_bind_Ok. do 2 (case_decide; same_state).
  destruct (SplitGenericName _) as [[b args]|]; same_state. case_decide; same_state.
  simplify_eq. right. by eexists.
Qed.
#[export] Hint Resolve quiet_EnsureStructMetadata quiet_EnsureActorMetadata quiet_EnsureInterfaceMetadata : gen.

(** Take a computation apart along its binds and cases. *)
Ltac hush := repeat first
  [ solve [eauto with gen]
  | apply quiet_bind; [|intros ?]
  | match goal with |- quiet (if decide ?P then _ else _) => destruct (decide P) end
  | match goal with |- quiet (match ?x with _ => _ end) => destruct x end ].

Section resolver.
Lemma quiet_orElse {A} (m k : gen (option A)) : quiet m → quiet k → quiet (orElse m k).
Proof. intros. unfold orElse. hush. Qed.
Hint Resolve quiet_orElse : gen.
Lemma quiet_ensure_module_member object member : quiet (ensure_module_member object member).
Proof. unfold ensure_module_member. hush. Qed.
Hint Resolve quiet_ensure_module_member : gen.
Lemma quiet_InferStructTypeName : ∀ node, quiet (InferStructTypeName node).
Proof. fix IH 1. intros node. destruct node; cbn [InferStructTypeName]; hush. Qed.
Hint Resolve quiet_InferStructTypeName : gen.
Lemma quiet_ResolveStructFieldIndex object member : quiet (ResolveStructFieldIndex object member).
Proof. unfold ResolveStructFieldIndex. hush. Qed.
Lemma quiet_InferActorTypeName node : quiet (InferActorTypeName node).
Proof. unfold InferActorTypeName. hush. Qed.
Hint Resolve quiet_InferActorTypeName : gen.
Lemma quiet_ResolveStructMethod object member : quiet (ResolveStructMethod object member).
Proof. unfold ResolveStructMethod. hush. Qed.
Hint Resolve quiet_ResolveStructMethod : gen.
Lemma quiet_ResolveActorMethod object member : quiet (ResolveActorMethod object member).
Proof. unfold ResolveActorMethod. hush. Qed.
Lemma quiet_IsActorQueryMethod object member : quiet (IsActorQueryMethod object member).
Proof. unfold IsActorQueryMethod. hush. Qed.
Lemma quiet_normalizeEnumType name : quiet (normalizeEnumType name).
Proof. unfold normalizeEnumType. hush. Qed.
Hint Resolve quiet_normalizeEnumType : gen.
Lemma quiet_inferFromSignature name : quiet (inferFromSignature name).
Proof. unfold inferFromSignature. hush. Qed.
Hint Resolve quiet_inferFromSignature : gen.
Lemma quiet_InferEnumTypeName node : quiet (InferEnumTypeName node).
Proof.
  unfold InferEnumTypeName, variant_enum. destruct node; try apply quiet_ret; hush;
    repeat (apply quiet_orElse; hush).
Qed.
Hint Resolve quiet_InferEnumTypeName : gen.
Lemma quiet_IsEnumTagAccess object member : quiet (IsEnumTagAccess object member).
Proof. unfold IsEnumTagAccess, is_variant. hush. Qed.
Lemma quiet_InferInterfaceBinding node type : quiet (InferInterfaceBinding node type).
Proof. unfold InferInterfaceBinding, normalizeInterfaceName. hush; apply quiet_orElse; hush. Qed.
Lemma quiet_ResolveEffectOperation node : quiet (ResolveEffectOperation node).
Proof. unfold ResolveEffectOperation. hush. Qed.
End resolver.
#[export] Hint Resolve quiet_ResolveStructFieldIndex quiet_InferStructTypeName quiet_InferActorTypeName
  quiet_ResolveStructMethod quiet_ResolveActorMethod quiet_IsActorQueryMethod quiet_InferEnumTypeName
  quiet_IsEnumTagAccess quiet_InferInterfaceBinding quiet_ResolveEffectOperation : gen.

(** ** The relation and the combinators *)

Section ext.
Context (g0 : t).

Lemma ext_quiet {A} (m : gen A) : quiet m → ext g0 m.
Proof.
  intros Hm g a g' [Hc Ha] E. destruct (Hm _ _ _ E) as [Ec Ea]. split; [|done].
  split; [by rewrite Ec|by etrans].
Qed.
Lemma ext_ret_post {A} (a : A) (Q : A → Prop) : Q a → ext_post g0 (mret a) Q.
Proof. by intros Ha g a' g' Hg [= <- <-]. Qed.
Lemma ext_bind_post {A B} (m : gen A) (k : A → gen B) Q R :
  ext_post g0 m Q → (∀ a, Q a → ext_post g0 (k a) R) → ext_post g0 (m ≫= k) R.
Proof. intros Hm Hk g b g' Hg (a & g1 & E & E')%st_bind_Ok. destruct (Hm _ _ _ Hg E) as [Hg1 Ha]. by eapply Hk. Qed.
Lemma ext_bind {A B} (m : gen A) (k : A → gen B) R :
  ext g0 m → (∀ a, ext_post g0 (k a) R) → ext_post g0 (m ≫= k) R.
Proof. intros Hm Hk. eapply ext_bind_post; [exact Hm|by intros a _]. Qed.
Lemma ext_weaken {A} (m : gen A) Q : ext_post g0 m Q → ext g0 m.
Proof. intros Hm g a g' Hg E. split; [by apply (Hm g a g')|done]. Qed.

(** The current context of [g0]. *)
Definition base_is (c0 : FunctionContext) : Prop := head (m_contexts g0) = Some c0.

Lemma ext_on_context {A} (f : FunctionContext → result (A * FunctionContext)) (Q : A → Prop) :
  (∀ c0 c a c', base_is c0 → inner c0 c → f c = Ok (a, c') → inner c0 c' ∧ Q a) →
  ext_post g0 (on_context f) Q.
Proof.
  intros Hf g a g' [Hc Ha]. unfold on_context, base_is in *. destruct (m_contexts g0) as [|c0 cs0] eqn:E0, (m_contexts g) as [|c cs];
    cbn in Hc; try done. intros ([b c'] & E & E')%result_bind_Ok. simplify_eq. destruct Hc as [Hi Ho].
  edestruct Hf as [Hi' HQ]; [done|exact Hi|exact E|]. split; [|done]. split; [by rewrite E0|done].
Qed.
Lemma ext_modify_context f :
  (∀ c, inner c (f c)) → ext g0 (modify_context f).
Proof. intros Hf. apply ext_on_context. intros c0 c a c' _ Hc [= _ <-]. split; [|done]. by etrans. Qed.

Lemma ext_on_chunk {A} (m : st Chunk A) (Q : A → Prop) :
  (∀ c0 k a k', base_is c0 → chunk_grows (b_chunk (function c0)) k → m k = Ok (a, k') →
     chunk_grows (b_chunk (function c0)) k' ∧ Q a) →
  ext_post g0 (on_chunk m) Q.
Proof.
  intros Hm. apply ext_on_context. intros c0 c a c' H0 [Hh Hu Hk Hs] ([b k'] & E & E')%result_bind_Ok. simplify_eq.
  edestruct Hm as [Hk' HQ]; [done|exact Hk|exact E|]. by split.
Qed.
End ext.

(** Writing at the end of a chunk. *)
Definition chunk_appends {A} (m : st Chunk A) : Prop := ∀ k a k', m k = Ok (a, k') → chunk_grows k k'.
Lemma ext_chunk_appends {A} g0 (m : st Chunk A) : chunk_appends m → ext g0 (on_chunk m).
Proof. intros Hm. apply ext_on_chunk. intros c0 k a k' _ Hk E. split; [|done]. etrans; [done|by eapply Hm]. Qed.

Lemma push_code_grows bytes k : chunk_grows k (push_code bytes k).
Proof. split; [by eexists|done|done]. Qed.
Lemma chunk_appends_push bytes : chunk_appends (st_modify (push_code bytes)).
Proof. intros k a k' [= _ <-]. apply push_code_grows. Qed.
Lemma chunk_appends_WriteOperand op w : chunk_appends (WriteOperand op w).
Proof. unfold WriteOperand. destruct (GetOperandSize op); [|apply chunk_appends_push..]. by intros k a k' [= _ <-]. Qed.
Lemma chunk_appends_AddConstant v : chunk_appends (AddConstant v).
Proof.
  intros k a k'. unfold AddConstant. destruct (find_constant _ _ _); [by intros [= _ <-]|].
  destruct (_ <? _)%Z; [done|]. intros [= _ <-]. split; [done|by eexists|done].
Qed.
Lemma chunk_appends_bind {A B} (m : st Chunk A) (f : A → st Chunk B) :
  chunk_appends m → (∀ a, chunk_appends (f a)) → chunk_appends (m ≫= f).
Proof. intros Hm Hf k b k' (a & k1 & E & E')%st_bind_Ok. etrans; [by eapply Hm|by eapply Hf]. Qed.
Lemma chunk_appends_WriteConstant v : chunk_appends (WriteConstant v).
Proof.
  apply chunk_appends_bind; [apply chunk_appends_AddConstant|]. intros i.
  apply chunk_appends_bind; [apply chunk_appends_push|]. intros _. apply chunk_appends_WriteOperand.
Qed.
Lemma chunk_appends_EmitBinaryOp op : chunk_appends (EmitBinaryOp op).
Proof.
  unfold EmitBinaryOp. repeat match goal with |- chunk_appends (if ?b then _ else _) => destruct b end;
    try apply chunk_appends_push. by intros k a k' [= _ <-].
Qed.
Lemma chunk_appends_EmitLoop n : chunk_appends (EmitLoop n).
Proof.
  apply chunk_appends_bind; [by intros k a k' [= _ <-]|]. intros c. repeat (apply chunk_appends_bind;
    [apply chunk_appends_push|intros _]). apply chunk_appends_push.
Qed.

(** Where the code of [g0] ends. *)
Definition code_end (g0 : t) : nat :=
  match head (m_contexts g0) with Some c => length (code (b_chunk (function c))) | None => 0 end.

Lemma set_byte_grows k0 k n b k' u : chunk_grows k0 k → length (code k0) ≤ n → set_byte n b k = Ok (u, k') → chunk_grows k0 k'.
Proof.
  intros [[l Hl] Hc Hd] Hn. unfold set_byte. destruct (_ <? _) eqn:E; [|done]. intros [= _ <-].
  split; [|done|done]. cbn. exists (<[n - length (code k0) := b]> l). rewrite Hl insert_app_r_alt //.
Qed.

Section writes.
Context (g0 : t).
Lemma ext_push_back b : ext g0 (push_back b).
Proof. apply ext_chunk_appends, chunk_appends_push. Qed.
Lemma ext_write op : ext g0 (write op).
Proof. apply ext_chunk_appends, chunk_appends_push. Qed.
Lemma ext_write_operand op w : ext g0 (write_operand op w).
Proof. apply ext_chunk_appends, chunk_appends_WriteOperand. Qed.
Lemma ext_write_constant v : ext g0 (write_constant v).
Proof. apply ext_chunk_appends, chunk_appends_WriteConstant. Qed.
Lemma ext_write_byte op b : ext g0 (write_byte op b).
Proof. apply ext_bind; [apply ext_write|intros _; apply ext_push_back]. Qed.
Lemma ext_AddConstant v : ext g0 (on_chunk (AddConstant v)).
Proof. apply ext_chunk_appends, chunk_appends_AddConstant. Qed.
Lemma ext_add_string s : ext g0 (add_string s).
Proof. apply ext_AddConstant. Qed.
Lemma ext_write_string op s : ext g0 (write_string op s).
Proof.
  apply ext_bind; [apply ext_add_string|intros i]. apply ext_bind; [apply ext_write|intros _; apply ext_write_operand].
Qed.
Lemma ext_EmitBinaryOp op : ext g0 (on_chunk (EmitBinaryOp op)).
Proof. apply ext_chunk_appends, chunk_appends_EmitBinaryOp. Qed.
Lemma ext_EmitLoop n : ext g0 (on_chunk (EmitLoop n)).
Proof. apply ext_chunk_appends, chunk_appends_EmitLoop. Qed.

(** The jumps: the place of an operand is behind the code of [g0]. *)
Lemma code_end_le c0 k : base_is g0 c0 → chunk_grows (b_chunk (function c0)) k → code_end g0 ≤ length (code k).
Proof. unfold base_is, code_end. intros -> [H _ _]. by apply prefix_length. Qed.
Lemma ext_CurrentChunk : ext_post g0 CurrentChunk (λ k, code_end g0 ≤ length (code k)).
Proof. apply ext_on_chunk. intros c0 k a k' H0 Hk [= <- <-]. split; [done|by eapply code_end_le]. Qed.
Lemma ext_EmitJump op : ext_post g0 (on_chunk (EmitJump op)) (λ n, code_end g0 ≤ n).
Proof.
  apply ext_on_chunk. intros c0 k a k' H0 Hk. unfold EmitJump, Write, st_modify, st_get, mbind, st_bind, mret, st_ret.
  intros [= <- <-]. split; [etrans; [done|]; etrans; apply push_code_grows|].
  rewrite !length_app /=. pose proof (code_end_le _ _ H0 Hk). lia.
Qed.
Lemma ext_PatchJump n : code_end g0 ≤ n → ext g0 (on_chunk (PatchJump n)).
Proof.
  intros Hn. apply ext_on_chunk. intros c0 k a k' H0 Hk E. split; [|done].
  assert (length (code (b_chunk (function c0))) ≤ n) by (revert Hn; unfold code_end; by rewrite H0).
  unfold PatchJump in E. apply st_bind_Ok in E as (k1 & k2 & E1 & (u & k3 & E2 & E3)%st_bind_Ok).
  injection E1 as <- <-. eapply (set_byte_grows _ k3); [|by apply Nat.le_le_succ_r|exact E3]. by eapply set_byte_grows.
Qed.
Lemma ext_patch_exit n : code_end g0 ≤ n → ext g0 (on_chunk (patch_exit n)).
Proof.
  intros Hn. apply ext_on_chunk. intros c0 k a k' H0 Hk E. split; [|done].
  assert (length (code (b_chunk (function c0))) ≤ n) by (revert Hn; unfold code_end; by rewrite H0).
  unfold patch_exit in E. apply st_bind_Ok in E as (k1 & k2 & E1 & E2). injection E1 as <- <-.
  destruct (_ <? _); [done|]. by eapply set_byte_grows.
Qed.
End writes.
#[export] Hint Resolve ext_push_back ext_write ext_write_operand ext_write_constant ext_write_byte ext_AddConstant
  ext_add_string ext_write_string ext_EmitBinaryOp ext_EmitLoop ext_PatchJump ext_patch_exit : gen.
#[export] Hint Extern 5 (ext_post _ _ (λ _, True)) => apply ext_quiet : gen.

Section for_each.
Context {A : Type} (f : A → gen unit).
Lemma ext_for_each g0 l : (∀ x, ext g0 (f x)) → ext g0 (for_each f l).
Proof.
  intros Hf. induction l as [|x l IH]; cbn; [by apply ext_ret_post|]. apply ext_bind; [apply Hf|by intros _].
Qed.
End for_each.

(** Take a computation apart along its binds, loops and cases. *)
Ltac grow := repeat first
  [ solve [eauto with gen]
  | apply ext_bind; [|intros ?]
  | apply ext_for_each; intros ?
  | match goal with |- ext_post _ (if decide ?P then _ else _) _ => destruct (decide P) end
  | match goal with |- ext_post _ (match ?x with _ => _ end) _ => destruct x end ].

(** ** Contexts *)

Lemma inner_symbols c s : symbols_grow (symbols c) s → inner c (set_symbols s c).
Proof. by split. Qed.
Lemma inner_scopes c st en ac i : inner c (set_scopes st en ac i c).
Proof. by split. Qed.

Section contexts.
Context (g0 : t).

Lemma ext_CurrentContext : ext g0 CurrentContext.
Proof. apply ext_on_context. by intros c0 c a c' _ Hc [= _ <-]. Qed.
Lemma ext_ResolveLocal name : ext g0 (ResolveLocal name).
Proof. apply ext_on_context. by intros c0 c a c' _ Hc [= _ <-]. Qed.
Lemma ext_Define name : ext g0 (Define name).
Proof.
  apply ext_on_context. intros c0 c a c' _ Hc ([i s] & E & E')%result_bind_Ok. simplify_eq. split; [|done].
  etrans; [done|]. apply inner_symbols. unfold SymbolTable.Define in E.
  destruct (SymbolTable.m_scopes (symbols c)) as [|scope scopes] eqn:Es; [done|]. simplify_eq.
  split; cbn; by rewrite ?Es.
Qed.
Lemma ext_ResolveSelfFieldIndex name : ext g0 (ResolveSelfFieldIndex name).
Proof. pose proof ext_CurrentContext. unfold ResolveSelfFieldIndex. grow. Qed.

Lemma capture_outer name b i c : outer c (capture name b i c).2.
Proof.
  unfold capture. destruct (upvalueLookup c !! name); [done|]. split; [done| |done|done].
  split; cbn; by eexists.
Qed.
Lemma resolve_upvalue_cons module aliases name current parent grandparents :
  resolve_upvalue module aliases name (current :: parent :: grandparents) =
  if bool_decide (grandparents = []) && bool_decide (module ≠ "") && bool_decide (aliases !! name = None)
  then (None, current :: parent :: grandparents)
  else match SymbolTable.Resolve name (symbols parent) with
  | Some local => let '(i, c) := capture name true local current in (Some i, c :: parent :: grandparents)
  | None =>
      match resolve_upvalue module aliases name (parent :: grandparents) with
      | (Some up, parents) => let '(i, c) := capture name false up current in (Some i, c :: parents)
      | (None, parents) => (None, current :: parents)
      end
  end.
Proof. done. Qed.
Lemma resolve_upvalue_outer module aliases name cs :
  Forall2 outer cs (resolve_upvalue module aliases name cs).2.
Proof.
  induction cs as [|c [|c1 cs] IH]; [constructor|apply outer_refl|]. rewrite resolve_upvalue_cons.
  destruct (_ && _ && _); [apply outer_refl|]. destruct (SymbolTable.Resolve _ _) as [i|].
  - pose proof (capture_outer name true i c). destruct (capture _ _ _ _); cbn. constructor; [done|apply outer_refl].
  - destruct (resolve_upvalue _ _ _ (c1 :: cs)) as [[i|] cs']; cbn in *; [|by constructor].
    pose proof (capture_outer name false i c). destruct (capture _ _ _ _); cbn. by constructor.
Qed.
Lemma ext_ResolveUpvalue name : ext g0 (ResolveUpvalue name).
Proof.
  intros g a g' [Hc Ha]. unfold ResolveUpvalue.
  pose proof (resolve_upvalue_outer (m_currentModule g) (importAliases (m_metadata g)) name (m_contexts g)) as Ho.
  destruct (resolve_upvalue _ _ _ _) as [i cs']. intros [= _ <-]. split; [|done]. split; [|done].
  eapply contexts_grow_trans; [exact Hc|]. cbn [m_contexts set_contexts]. cbn in Ho.
  destruct (m_contexts g0), (m_contexts g); try done. inversion Ho; subst. by split; [apply outer_inner|].
Qed.

(** A scope of its own. *)
Lemma ext_scoped {A} (m : gen A) : (∀ g1, ext g1 m) →
  ext g0 (_ ← push_scope; _ ← m; pop_scope).
Proof.
  intros Hm g a g' [Hc Ha] (u & g1 & E1 & (x & g2 & E2 & E3)%st_bind_Ok)%st_bind_Ok.
  assert (Hg : grown g1 g2).
  { eapply Hm; [|exact E2]. apply grown_refl. unfold push_scope, modify_context, on_context in E1.
    destruct (m_contexts g) as [|c cs]; [done|]. cbn in E1. by simplify_eq. }
  unfold push_scope, modify_context, on_context in E1. unfold pop_scope, on_context in E3.
  destruct (m_contexts g0) as [|c0 cs0] eqn:E0; [done|]. destruct (m_contexts g) as [|c cs] eqn:E; [done|].
  cbn in E1. injection E1 as <- <-. destruct Hg as [Hc2 Ha2]. cbn in Hc2.
  destruct (m_contexts g2) as [|c2 cs2]; [done|]. destruct Hc2 as [[Hh Hu Hk [Hs Hsl Hsi]] Ho2].
  apply result_bind_Ok in E3 as ([u' c3] & (c3' & Ep & E4)%result_bind_Ok & E5). simplify_eq.
  unfold PopContextScope in Ep. apply result_bind_Ok in Ep as (s & Ep & E4). simplify_eq.
  cbn in Hs, Hsl, Hsi. unfold SymbolTable.PopScope in Ep. rewrite Hsi in Ep.
  destruct (SymbolTable.m_scopes (symbols c2)) as [|scope scopes]; [done|]. cbn in Hs, Hsl. simplify_eq.
  split; [|done]. split; [|by etrans]. rewrite E0. destruct Hc as [Hi Ho]. split; [|by etrans].
  etrans; [exact Hi|]. split; [done|done|done|]. split; cbn; by rewrite ?Hs.
Qed.

(** A context of its own, and the stacks of active contracts and effects. *)
Lemma ext_in_context {A} (c : FunctionContext) (m : gen A) (k : FunctionContext → gen unit) :
  (∀ g1, ext g1 m) → (∀ c, ext g0 (k c)) → ext g0 (_ ← push_context c; _ ← m; c ← pop_context; k c).
Proof.
  intros Hm Hk g a g' [Hc Ha] (u & g1 & E1 & (x & g2 & E2 & (c2 & g3 & E3 & E4)%st_bind_Ok)%st_bind_Ok)%st_bind_Ok.
  injection E1 as <- <-.
  assert (Hg : grown (set_contexts (c :: m_contexts g) g) g2) by (eapply Hm; [|exact E2]; by apply grown_refl).
  unfold pop_context in E3. destruct (m_contexts g2) as [|c2' cs2] eqn:E; [done|]. simplify_eq.
  eapply Hk; [|exact E4]. destruct Hg as [Hc2 Ha2]. cbn in Hc2. rewrite E in Hc2. destruct Hc2 as [_ Ho].
  split; [|by etrans]. cbn. eapply contexts_grow_trans; [exact Hc|].
  destruct (m_contexts g0), (m_contexts g); try done. inversion Ho; subst. by split; [apply outer_inner|].
Qed.
End contexts.
#[export] Hint Resolve ext_CurrentContext ext_ResolveLocal ext_Define ext_ResolveSelfFieldIndex ext_ResolveUpvalue : gen.

(** ** Functions *)

(** The stacks of a function that is being compiled have one more entry. *)
Definition opened_active (g g' : t) : Prop :=
  tail (m_activeFunctionContracts g') = m_activeFunctionContracts g
  ∧ tail (m_activeContractResultSlots g') = m_activeContractResultSlots g
  ∧ tail (m_activeRaisedEffects g') = m_activeRaisedEffects g
  ∧ m_activeHandledEffects g' = m_activeHandledEffects g.
Record opened (g g' : t) : Prop := {
  op_contexts : contexts_grow (m_contexts g) (m_contexts g');
  op_active : opened_active g g';
}.

Lemma opened_grown g g' g'' : opened g g' → grown g' g'' → opened g g''.
Proof.
  intros [Hc Ha] [Hc' Ha']. split; [by eapply contexts_grow_trans|].
  unfold opened_active, same_active in *. naive_solver congruence.
Qed.
Lemma opened_not_empty g g' : opened g g' → m_contexts g' ≠ [].
Proof. intros [Hc _] E. rewrite E in Hc. by destruct (m_contexts g). Qed.
Lemma pop_active_opened g0 g a g' : opened g0 g → pop_active g = Ok (a, g') → grown g0 g'.
Proof. intros [Hc Ha] [= _ <-]. by split. Qed.

(** Computations that are fine from anywhere. *)
Definition anywhere {A} (m : gen A) : Prop := ∀ g0, ext g0 m.

Lemma anywhere_run {A} (m : gen A) g a g' : anywhere m → m_contexts g ≠ [] → m g = Ok (a, g') → grown g g'.
Proof. intros Hm Hg E. eapply Hm; [by apply grown_refl|exact E]. Qed.

Lemma grown_contexts g g' c cs : m_contexts g = c :: cs → grown g g' →
  ∃ c' cs', m_contexts g' = c' :: cs' ∧ Forall2 outer cs cs'.
Proof. intros E [Hc _]. rewrite E in Hc. destruct (m_contexts g') as [|c' cs']; [done|]. by exists c', cs'; destruct Hc. Qed.

Lemma quiet_define_parameter name c : quiet (define_parameter name c).
Proof. unfold define_parameter. hush. Qed.
#[export] Hint Resolve quiet_define_parameter : gen.
Lemma quiet_define_parameters {A} (name_of : A → string) l : ∀ c, quiet (define_parameters name_of l c).
Proof. induction l as [|x l IH]; intros c; cbn; hush. Qed.
#[export] Hint Resolve quiet_define_parameters : gen.
Lemma quiet_declare_params l : ∀ c, quiet (declare_params l c).
Proof. induction l as [|x l IH]; intros c; cbn; hush. Qed.
Lemma quiet_method_context name m a contexts params : quiet (method_context name m a contexts params).
Proof. unfold method_context. hush. Qed.
Lemma quiet_RegisterFunctionSignature name params contexts type : quiet (RegisterFunctionSignature name params contexts type).
Proof. unfold RegisterFunctionSignature. hush. Qed.
#[export] Hint Resolve quiet_declare_params quiet_method_context quiet_RegisterFunctionSignature : gen.

Lemma ext_EmitFunctionObject g0 f ups : ext g0 (EmitFunctionObject f ups).
Proof. unfold EmitFunctionObject. grow. Qed.
Lemma ext_emit_variable g0 a b c d name : ext g0 (emit_variable a b c d name).
Proof. unfold emit_variable. grow. Qed.
#[export] Hint Resolve ext_EmitFunctionObject ext_emit_variable : gen.
Lemma ext_EmitGetVariable g0 name : ext g0 (EmitGetVariable name).
Proof. unfold EmitGetVariable. grow. Qed.
Lemma ext_EmitSetVariable g0 name : ext g0 (EmitSetVariable name).
Proof. unfold EmitSetVariable. grow. Qed.
Lemma ext_define_result_slot g0 contracts : ext g0 (define_result_slot contracts).
Proof. unfold define_result_slot. grow. Qed.
Lemma ext_define_local g0 name : ext g0 (define_local name).
Proof. unfold define_local. grow. Qed.
Lemma ext_repeat_write g0 n op : ext g0 (repeat_write n op).
Proof. induction n; cbn; grow. Qed.
#[export] Hint Resolve ext_EmitGetVariable ext_EmitSetVariable ext_define_result_slot ext_define_local ext_repeat_write : gen.

Section visit.
Context (visit : Node → gen unit) (Hvisit : ∀ n g0, ext g0 (visit n)).
Hint Resolve Hvisit : gen.

Lemma ext_visit_opt n g0 : ext g0 (visit_opt visit n).
Proof. unfold visit_opt. grow. Qed.
Lemma ext_emit_contracts kind message contracts g0 : ext g0 (emit_contracts visit kind message contracts).
Proof. apply ext_for_each. intros x. unfold EmitContractAssertion. grow. Qed.
Hint Resolve ext_visit_opt ext_emit_contracts : gen.

Lemma ext_function_code name contracts body g0 : ext g0 (function_code visit name contracts body).
Proof. unfold function_code. grow. Qed.

Lemma compile_in_context_opened c name raised contracts body g0 g c' g' :
  grown g0 g → compile_in_context visit c name raised contracts body g = Ok (c', g') → opened g0 g'.
Proof.
  intros [Hc Ha]. unfold compile_in_context.
  intros (u1 & g1 & E1 & (u2 & g2 & E2 & (slot & g3 & E3 & (u3 & g4 & E4 & (u5 & g5 & E5 & E6)%st_bind_Ok)%st_bind_Ok)
    %st_bind_Ok)%st_bind_Ok)%st_bind_Ok.
  injection E1 as <- <-. injection E2 as <- <-. injection E4 as <- <-.
  eapply anywhere_run in E3; [|intros ?; apply ext_define_result_slot|done].
  assert (Hn3 : m_contexts g3 ≠ []) by by eapply grown_not_empty.
  eapply anywhere_run in E5; [|intros ?; apply ext_function_code|exact Hn3].
  eapply (grown_contexts _ _ c (m_contexts g)) in E3 as H3; [|done]. destruct H3 as (c3 & cs3 & Ec3 & Ho3).
  eapply (grown_contexts _ _ c3 cs3) in E5 as H5; [|done]. destruct H5 as (c5 & cs5 & Ec5 & Ho5).
  unfold pop_context in E6. rewrite Ec5 in E6. injection E6 as <- <-.
  assert (Ho : Forall2 outer (m_contexts g) cs5) by by etrans. split.
  - eapply contexts_grow_trans; [exact Hc|]. cbn. destruct (m_contexts g0), (m_contexts g); try done.
    inversion Ho; subst. by split; [apply outer_inner|].
  - destruct E3 as [_ (A1 & A2 & A3 & A4)], E5 as [_ (B1 & B2 & B3 & B4)], Ha as (C1 & C2 & C3 & C4).
    cbn in *. split_and!; cbn; rewrite ?B1 ?B2 ?B3 ?B4 ?A1 ?A2 ?A3 ?A4 //.
Qed.

(** What follows the code of a function: its object, and the end of its
    entries on the stacks. *)
Lemma anywhere_opened {A} (m : gen A) g0 g a g' : anywhere m → opened g0 g → m g = Ok (a, g') → opened g0 g'.
Proof. intros Hm Ho E. eapply opened_grown; [done|]. eapply anywhere_run; [done|by eapply opened_not_empty|done]. Qed.

Lemma ext_function_context name params contexts b g0 : ext g0 (function_context name params contexts b).
Proof. unfold function_context. grow. Qed.
Lemma ext_CompileFunctionBody name params contexts raised contracts body emitResult b g0 :
  anywhere emitResult → ext g0 (CompileFunctionBody visit name params contexts raised contracts body emitResult b).
Proof.
  intros Hr g a g' Hg (c & g1 & (c0 & g0' & E0 & E1)%st_bind_Ok & (u2 & g2 & E2 & (u3 & g3 & E3 & E4)%st_bind_Ok)%st_bind_Ok)%st_bind_Ok.
  split; [|done]. eapply pop_active_opened; [|exact E4]. eapply (anywhere_opened emitResult); [done| |done].
  eapply (anywhere_opened _ _ _ _ _ (λ g, ext_EmitFunctionObject g _ _)); [|exact E2].
  eapply compile_in_context_opened; [|exact E1]. by eapply (ext_function_context name params contexts b g0 g c0 g0').
Qed.
Lemma ext_compile_method c name raised contracts body g0 : ext g0 (compile_method visit c name raised contracts body).
Proof.
  intros g a g' Hg (c1 & g1 & E1 & (u2 & g2 & E2 & E3)%st_bind_Ok)%st_bind_Ok.
  eapply compile_in_context_opened in E1; [|done]. eapply pop_active_opened in E2; [|done].
  revert g2 a g' E2 E3. fold (ext g0 (_ ← EmitFunctionObject (function c1) (upvalues c1); write_string OP_DEFINE_GLOBAL name)).
  grow.
Qed.
Lemma anywhere_ret {A} (a : A) : anywhere (mret a).
Proof. intros g0. grow. Qed.
Lemma anywhere_write_string op s : anywhere (write_string op s).
Proof. intros g0. grow. Qed.
Hint Resolve anywhere_ret anywhere_write_string ext_CompileFunctionBody ext_compile_method : gen.

(** *** Expressions *)

Lemma ext_EmitAddressOf operand g0 : ext g0 (EmitAddressOf visit operand).
Proof. unfold EmitAddressOf. grow. Qed.
Hint Resolve ext_EmitAddressOf : gen.
Lemma ext_EmitCallArguments args refs g0 : ∀ n, ext g0 (EmitCallArguments visit args refs n).
Proof. induction args as [|a args IH]; intros n; cbn; unfold EmitCallArgument; grow. Qed.
Lemma ext_EmitContextArguments l g0 : ext g0 (EmitContextArguments l).
Proof. unfold EmitContextArguments. grow. Qed.
Hint Resolve ext_EmitCallArguments ext_EmitContextArguments : gen.

Lemma ext_EmitAssignment name object member target value index g0 :
  ext g0 (EmitAssignment visit name object member target value index).
Proof. unfold EmitAssignment. grow. apply ext_modify_context. intros c. apply inner_scopes. Qed.

Lemma ext_emit_constructor name variant args g0 : ext g0 (emit_constructor visit name variant args).
Proof. unfold emit_constructor, emit_struct, Generator.emit_variant, emit_actor, emit_default. grow. Qed.
Hint Resolve ext_emit_constructor : gen.
Lemma ext_TryEmitDirectTypeConstructorCall callee args g0 : ext g0 (TryEmitDirectTypeConstructorCall visit callee args).
Proof. unfold TryEmitDirectTypeConstructorCall. grow. Qed.
Lemma ext_emit_struct_method hidden object args g0 : ext g0 (emit_struct_method visit hidden object args).
Proof. unfold emit_struct_method, find_signature, emit_defaults. grow. Qed.
Lemma ext_emit_actor_method object member args g0 : ext g0 (emit_actor_method visit object member args).
Proof. unfold emit_actor_method. grow. Qed.
Hint Resolve ext_TryEmitDirectTypeConstructorCall ext_emit_struct_method ext_emit_actor_method : gen.
Lemma ext_TryEmitMemberCall callee args g0 : ext g0 (TryEmitMemberCall visit callee args).
Proof. unfold TryEmitMemberCall. grow. Qed.
Lemma ext_emitMissingDefaults name n g0 : ext g0 (emitMissingDefaults visit name n).
Proof. unfold emitMissingDefaults, find_signature. grow. Qed.
Hint Resolve ext_TryEmitMemberCall ext_emitMissingDefaults : gen.
Lemma ext_emit_plain_call callee args g0 : ext g0 (emit_plain_call visit callee args).
Proof. unfold emit_plain_call, ResolveFunctionRefParams. grow. Qed.
Hint Resolve ext_emit_plain_call : gen.
Lemma ext_EmitCall callee args g0 : ext g0 (EmitCall visit callee args).
Proof. unfold EmitCall, emit_resume, emit_effect. grow. Qed.
Lemma ext_EmitMemberAccess object member g0 : ext g0 (EmitMemberAccess visit object member).
Proof. unfold EmitMemberAccess. grow. Qed.

(** *** Declarations *)

Lemma quiet_variable_type ensure inferred type : (∀ n, quiet (ensure n)) → quiet (variable_type ensure inferred type).
Proof. intros He. unfold variable_type, normalize_type. hush. Qed.
Lemma quiet_variable_enum inferred type : quiet (variable_enum inferred type).
Proof. unfold variable_enum, normalize_type. hush. Qed.
Lemma quiet_variable_interface inferred type : quiet (variable_interface inferred type).
Proof. unfold variable_interface, normalize_type. hush. Qed.
Lemma ext_bind_opt {A} (bind : string → A → FunctionContext → FunctionContext) name type g0 :
  (∀ n a c, inner c (bind n a c)) → ext g0 (bind_opt bind name type).
Proof. intros Hb. unfold bind_opt. destruct type; [by apply ext_modify_context|grow]. Qed.
Hint Resolve quiet_variable_type quiet_variable_enum quiet_variable_interface : gen.
Lemma ext_record_types name type initializer g0 : ext g0 (record_types name type initializer).
Proof. unfold record_types. grow; apply ext_bind_opt; by intros. Qed.
Hint Resolve ext_record_types : gen.
Lemma ext_export_variable name storage i g0 : ext g0 (export_variable name storage i).
Proof. unfold export_variable. grow. Qed.
Hint Resolve ext_export_variable : gen.
Lemma ext_VisitVarDecl name type initializer storage g0 : ext g0 (VisitVarDecl visit name type initializer storage).
Proof. unfold VisitVarDecl. grow. Qed.
Lemma ext_VisitEnumDecl name variants g0 : ext g0 (VisitEnumDecl name variants).
Proof. unfold VisitEnumDecl. grow. Qed.

Lemma ext_compile_invariant name contracts g0 : ext g0 (compile_invariant visit name contracts).
Proof.
  unfold compile_invariant. apply ext_bind; [grow|intros _]. apply ext_bind; [grow|intros c].
  apply (ext_in_context g0 c); [intros g1; unfold invariant_code; grow|intros c'; grow].
Qed.
Hint Resolve ext_compile_invariant : gen.
Lemma ext_VisitStructMethod name method g0 : ext g0 (VisitStructMethod visit name method).
Proof. unfold VisitStructMethod. grow. Qed.
Hint Resolve ext_VisitStructMethod : gen.
Lemma ext_VisitStructDecl name params fields methods contracts g0 :
  ext g0 (VisitStructDecl visit name params fields methods contracts).
Proof. unfold VisitStructDecl. grow. Qed.
Lemma ext_VisitActorMethod name fields method g0 : ext g0 (VisitActorMethod visit name fields method).
Proof. unfold VisitActorMethod. grow. Qed.
Hint Resolve ext_VisitActorMethod : gen.
Lemma ext_VisitActorDecl name fields methods g0 : ext g0 (VisitActorDecl visit name fields methods).
Proof. unfold VisitActorDecl. grow. Qed.
Lemma ext_compile_function name type params contexts raised contracts body g0 :
  ext g0 (compile_function visit name type params contexts raised contracts body).
Proof. unfold compile_function. grow. Qed.
Hint Resolve ext_compile_function : gen.
Lemma ext_VisitFunctionExpr name params raised body g0 : ext g0 (VisitFunctionExpr visit name params raised body).
Proof. unfold VisitFunctionExpr. grow. Qed.
Lemma ext_VisitImportDecl name alias g0 : ext g0 (VisitImportDecl name alias).
Proof. unfold VisitImportDecl. grow. Qed.

(** *** Statements *)

Lemma ext_visit_statements l g0 : ∀ n, ext g0 (visit_statements visit l n).
Proof. induction l as [|s l IH]; intros n; cbn; grow. Qed.
Hint Resolve ext_visit_statements : gen.
Lemma ext_VisitBlock l g0 : ext g0 (VisitBlock visit l).
Proof. apply ext_scoped. intros g1. unfold block_code. grow. Qed.
Lemma ext_VisitUnary op operand g0 : ext g0 (VisitUnary visit op operand).
Proof. unfold VisitUnary. grow. Qed.
Lemma ext_VisitBinary lhs op rhs g0 : ext g0 (VisitBinary visit lhs op rhs).
Proof. unfold VisitBinary. grow. Qed.
Lemma ext_check_ensures g0 : ext g0 (check_ensures visit).
Proof. unfold check_ensures. grow. Qed.
Hint Resolve ext_check_ensures : gen.
Lemma ext_VisitReturn value g0 : ext g0 (VisitReturn visit value).
Proof. unfold VisitReturn, check_invariant. grow. Qed.
Lemma ext_VisitTransaction regions body g0 : ext g0 (VisitTransaction visit regions body).
Proof. unfold VisitTransaction. grow. Qed.
Lemma ext_VisitGo call g0 : ext g0 (VisitGo visit call).
Proof. unfold VisitGo. grow. Qed.
Lemma ext_VisitAwait operand g0 : ext g0 (VisitAwait visit operand).
Proof. unfold VisitAwait. grow. Qed.

Lemma quiet_effect_key handler : quiet (effect_key handler).
Proof. unfold effect_key, handler_effect_key. hush. Qed.
Hint Resolve quiet_effect_key : gen.
Lemma quiet_handled_effects l : quiet (handled_effects l).
Proof. induction l as [|h l IH]; cbn; hush. Qed.
Hint Resolve quiet_handled_effects : gen.
Lemma ext_handled {A} effects (m : gen A) g0 : anywhere m →
  ext g0 (_ ← set_handled (cons effects); _ ← m; set_handled tail).
Proof.
  intros Hm g a g' Hg (u1 & g1 & E1 & (x & g2 & E2 & E3)%st_bind_Ok)%st_bind_Ok.
  injection E1 as <- <-. injection E3 as <- <-.
  assert (Hn : m_contexts g ≠ []) by by eapply grown_not_empty.
  eapply anywhere_run in E2; [|done|done]. split; [|done]. destruct E2 as [Hc (B1 & B2 & B3 & B4)].
  eapply grown_trans; [exact Hg|]. split; [exact Hc|]. split_and!; cbn; by rewrite ?B1 ?B2 ?B3 ?B4.
Qed.
Lemma ext_VisitHandle expression handlers g0 : ext g0 (VisitHandle visit expression handlers).
Proof.
  unfold VisitHandle, compile_handler. apply ext_bind; [grow|intros _]. do 2 (apply ext_bind; [grow|intros _]).
  apply ext_bind; [grow|intros e]. apply ext_handled. intros g1. unfold handled_code. grow.
Qed.
Lemma ext_VisitIndex container index g0 : ext g0 (VisitIndex visit container index).
Proof. unfold VisitIndex. grow. Qed.
Lemma ext_visit_adapter slot adapter g0 : ext g0 (visit_adapter visit slot adapter).
Proof. unfold visit_adapter. grow. Qed.
Lemma ext_iter_loop slot i body g0 : ext g0 (iter_loop visit slot i body).
Proof.
  unfold iter_loop. apply ext_bind; [by eapply ext_weaken, ext_CurrentChunk|intros k]. do 2 (apply ext_bind; [grow|intros _]).
  eapply ext_bind_post; [apply ext_CurrentChunk|intros k' Hk']. grow.
Qed.
Hint Resolve ext_visit_adapter ext_iter_loop : gen.
Lemma ext_VisitIter name collection adapters body g0 : ext g0 (VisitIter visit name collection adapters body).
Proof. apply ext_scoped. intros g1. unfold iter_code. grow. Qed.
Lemma ext_VisitIf (c b : gen unit) e g0 : anywhere c → anywhere b → (∀ m, e = Some m → anywhere m) →
  ext g0 (VisitIf (@on_chunk) c b e).
Proof.
  intros Hc Hb He. unfold VisitIf. apply ext_bind; [apply Hc|intros _].
  eapply ext_bind_post; [apply ext_EmitJump|intros j Hj]. apply ext_bind; [apply Hb|intros _].
  destruct e as [m|]; [|grow]. eapply ext_bind_post; [apply ext_EmitJump|intros j' Hj'].
  apply ext_bind; [grow|intros _]. apply ext_bind; [by apply He|intros _]. grow.
Qed.
Lemma ext_VisitWhile (c b : gen unit) g0 : anywhere c → anywhere b → ext g0 (VisitWhile (@on_chunk) c b).
Proof.
  intros Hc Hb. unfold VisitWhile. apply ext_bind; [by eapply ext_weaken, ext_CurrentChunk|intros k].
  apply ext_bind; [apply Hc|intros _]. eapply ext_bind_post; [apply ext_EmitJump|intros j Hj].
  apply ext_bind; [apply Hb|intros _]. grow.
Qed.

(** *** Compile-time evaluation *)

Context (interpret : heap → Chunk → result (heap * (string + Value))).
Lemma quiet_comptime_chunk node : quiet (comptime_chunk visit node).
Proof.
  intros g k g'. unfold comptime_chunk. intros (s & gs & Es & E)%st_bind_Ok. injection Es as <- <-.
  do 8 (apply st_bind_Ok in E as (? & ? & _ & E)). apply st_bind_Ok in E as (u & g1 & E1 & E).
  apply st_bind_Ok in E as (u2 & g2 & E2 & E).
  injection E1 as <- <-. injection E2 as <- <-. by injection E as <- <-.
Qed.
Hint Resolve quiet_comptime_chunk : gen.
Lemma quiet_EvaluateComptime node : quiet (EvaluateComptime visit interpret node).
Proof. unfold EvaluateComptime. hush; by intros g' a' g'' [= _ <-]. Qed.
Hint Resolve quiet_EvaluateComptime : gen.

Lemma ext_dispatch node g0 : ext g0 (dispatch visit interpret node).
Proof.
  assert (Hv : ∀ n, anywhere (visit n)) by (intros n g; apply Hvisit).
  destruct node; cbn [dispatch]; unfold VisitArrayLiteral, VisitMapLiteral, VisitFunctionDecl; try solve [grow].
  - apply ext_VisitUnary.
  - apply ext_EmitAssignment.
  - apply ext_EmitCall.
  - apply ext_VisitBlock.
  - apply ext_VisitIf; [done|done|]. intros m. destruct (is_null _); [done|by intros [= <-]].
  - by apply ext_VisitWhile.
  - apply ext_VisitIter.
  - apply ext_quiet. by intros g a g' [= _ <-].
  - apply ext_VisitTransaction.
  - apply ext_VisitHandle.
  - destruct isComptime; [|grow]. do 2 (apply ext_bind; [grow|intros ?]). apply ext_quiet. by intros g a' g' [= _ <-].
Qed.
End visit.

Lemma ext_Visit interpret fuel : ∀ n g0, ext g0 (Visit interpret fuel n).
Proof. induction fuel as [|fuel IH]; intros n g0; cbn [Visit]; [done|by apply ext_dispatch]. Qed.

(** C39. A visit of any tree, when it returns: the chunk of the current function
    has its old code and constants at its front; the functions around it have
    the chunks, parameters and names in scope they had, and at most more
    captures; the scopes but the innermost one, and the contracts and effects
    that are active, are those of before. *)
Theorem Visit_grows interpret fuel node g g' :
  m_contexts g ≠ [] → Visit interpret fuel node g = Ok (tt, g') → grown g g'.
Proof. intros Hg. apply (anywhere_run (Visit interpret fuel node)); [|done]. intros g0. apply ext_Visit. Qed.

(** A function with a loop and a capture, inside a block. *)
Definition demo_tree : Node :=
  BlockNode [
    VarDeclNode "x" "int" (IntegerLiteralNode 3) false Default_;
    FunctionDeclNode "f" "int" false [] [MkParameter "n" "int" NullNode false] [] []
      [ContractNode Ensures (BinaryExprNode (IdentifierNode "result") ">" (IntegerLiteralNode 0))]
      (BlockNode [
         WhileStatementNode (BinaryExprNode (IdentifierNode "n") "<" (IdentifierNode "x"))
           (BlockNode [AssignmentNode "n" NullNode "" NullNode
                         (BinaryExprNode (IdentifierNode "n") "+" (IntegerLiteralNode 1)) NullNode]);
         ReturnNode (IdentifierNode "n")]);
    CallNode (IdentifierNode "f") [IdentifierNode "x"]].

Lemma Visit_grows_witness :
  match Visit (λ _ _, Diverge) 8 demo_tree initial with
  | Ok (_, g') => grown initial g' ∧ 0 < code_end g'
  | _ => False
  end.
Proof.
  assert (H : match Visit (λ _ _, Diverge) 8 demo_tree initial with Ok (_, g') => 0 <? code_end g' | _ => false end = true)
    by (vm_compute; reflexivity).
  destruct (Visit _ 8 demo_tree initial) as [[[] g']| |] eqn:E; [|done..].
  split; [|by apply Nat.ltb_lt].
  eapply Visit_grows; [|exact E]. done.
Defined.
