(* ===== verification/Comptime.v ===== *)
(** * The compile-time evaluator

    [src/bytecode/generator/BytecodeGeneratorStatements.cpp],
    [class ComptimeEvaluator]: an interpreter of the syntax tree, which gives
    the meaning of a large part of the language without the machine.  Its
    objects are those of [m_objects]; it reads the metadata of a generator. *)

From S2P Require Import Prelude Value Bytecode Ast SymbolTable TypeNames GenState Resolver Generator.

Module Comptime.
Import Value Ast TypeNames.

(** The objects it creates. *)
Inductive eval_object :=
  | EArray (elements : list Value)
  | EInstance (fields : list Value)
  | EVariant (tag : Z) (args : list Value).

(** [ComptimeEvaluator] and the bindings of its generator; innermost scopes
    first. *)
Record t := Mk {
  m_generator : GenState.t;
  m_comptimeBindings : list (gmap string Value);
  m_structBindings : list (gmap string string);
  m_objects : gmap nat eval_object;
}.

Definition set_generator (g : GenState.t) (s : t) : t := Mk g (m_comptimeBindings s) (m_structBindings s) (m_objects s).
Definition set_bindings (b : list (gmap string Value)) (s : t) : t := Mk (m_generator s) b (m_structBindings s) (m_objects s).
Definition set_struct_bindings (b : list (gmap string string)) (s : t) : t :=
  Mk (m_generator s) (m_comptimeBindings s) b (m_objects s).
Definition set_objects (o : gmap nat eval_object) (s : t) : t :=
  Mk (m_generator s) (m_comptimeBindings s) (m_structBindings s) o.

Abbreviation ev := (st t).

(** [struct Result] *)
Record Result := MkResult { value : Value; didReturn : bool }.
Definition plain (v : Value) : Result := MkResult v false.
Definition nothing : Result := plain VMonostate.

Definition lift {A} (r : result A) : ev A := λ s, a ← r; Ok (a, s).
Definition asks {A} (f : t → A) : ev A := λ s, Ok (f s, s).
(** A method of the generator. *)
Definition on_generator {A} (m : GenState.gen A) : ev A := λ s,
  '(a, g) ← m (m_generator s); Ok (a, set_generator g s).
Definition metadata (s : t) : GenState.MetadataRegistry := GenState.m_metadata (m_generator s).

(** What [ValueHelper] reads of the objects. *)
Definition object_view (o : eval_object) : object :=
  match o with EArray l => OArray l | EInstance _ => OInstance | EVariant tag args => OEnum tag args end.
Definition object_heap (s : t) : heap := object_view <$> m_objects s.

Definition new_object (k : pointer) (o : eval_object) : ev Value := λ s,
  let p := fresh (dom (m_objects s) : gset nat) in
  Ok (VPtr k (Some p), set_objects (<[p := o]> (m_objects s)) s).

(** ** Bindings *)

Fixpoint find_binding (name : string) (l : list (gmap string Value)) : option Value :=
  match l with
  | [] => None
  | scope :: l => match scope !! name with Some v => Some v | None => find_binding name l end
  end.

(** [Resolve] *)
Definition Resolve (name : string) : ev Value := λ s,
  match find_binding name (m_comptimeBindings s) with
  | Some v => Ok (v, s)
  | None => Throw (runtime_error ("Unknown comptime binding: " +:+ name))
  end.

(** [AssignLocal] *)
Definition bind_local (name : string) (v : Value) (l : list (gmap string Value)) : list (gmap string Value) :=
  match l with [] => [{[ name := v ]}] | scope :: l => <[name := v]> scope :: l end.
Definition AssignLocal (name : string) (v : Value) : ev unit :=
  st_modify (λ s, set_bindings (bind_local name v (m_comptimeBindings s)) s).

(** [Assign] *)
Definition assign (name : string) (v : Value) (l : list (gmap string Value)) : list (gmap string Value) :=
  match find_binding name l with
  | Some _ => Generator.update_innermost name v l
  | None => bind_local name v l
  end.
Definition Assign (name : string) (v : Value) : ev unit :=
  st_modify (λ s, set_bindings (assign name v (m_comptimeBindings s)) s).

Definition PushScope : ev unit :=
  st_modify (λ s, set_struct_bindings (∅ :: m_structBindings s) (set_bindings (∅ :: m_comptimeBindings s) s)).
Definition PopScope : ev unit :=
  st_modify (λ s, set_struct_bindings (tail (m_structBindings s)) (set_bindings (tail (m_comptimeBindings s)) s)).

(** ** Fields *)

(** The loop of [ResolveStructFieldIndex] over the scopes: a binding of a type
    without layout ends it, one without the member does not. *)
Fixpoint scan_fields (name member : string) (layouts : gmap string (list string)) (scopes : list (gmap string string))
    : option (option Z) :=
  match scopes with
  | [] => None
  | scope :: scopes =>
      match scope !! name with
      | None => scan_fields name member layouts scopes
      | Some type =>
          match layouts !! type with
          | None => Some None
          | Some layout =>
              match GenState.member_index 0 member layout with
              | Some i => Some (Some i)
              | None => scan_fields name member layouts scopes
              end
          end
      end
  end.

Definition ResolveStructFieldIndex (object : Node) (member : string) : ev (option Z) :=
  s ← st_get;
  match (match object with
         | IdentifierNode name => scan_fields name member (GenState.structLayouts (metadata s)) (m_structBindings s)
         | _ => None
         end) with
  | Some answer => mret answer
  | None => on_generator (Resolver.ResolveStructFieldIndex object member)
  end.

(** ** Operators *)

Definition eval_unary (op : string) (operand : Value) : result Value :=
  if decide (op = "-") then Negate operand
  else if decide (op = "!" ∨ op = "not") then PerformUnaryLogic operand
  else Ok operand.

Definition not_comparison (v : Value) : result Value := b ← as_bool v; Ok (VBool (negb b)).

(** [print_fuel] bounds the depth to which arrays are printed. *)
Definition eval_binary (print_fuel : nat) (h : heap) (op : string) (lhs rhs : Value) : result Value :=
  if decide (op = "+") then Add print_fuel h lhs rhs
  else if decide (op = "-") then Subtract lhs rhs
  else if decide (op = "*") then Multiply lhs rhs
  else if decide (op = "/") then Divide lhs rhs
  else if decide (op = "div") then DivideInt lhs rhs
  else if decide (op = "mod") then Modulo lhs rhs
  else if decide (op = "==") then Ok (VBool (Equal h lhs rhs))
  else if decide (op = "!=") then Ok (VBool (negb (Equal h lhs rhs)))
  else if decide (op = ">") then Ok (Greater lhs rhs)
  else if decide (op = "<") then Ok (Less lhs rhs)
  else if decide (op = ">=") then not_comparison (Less lhs rhs)
  else if decide (op = "<=") then not_comparison (Greater lhs rhs)
  else if decide (op = "and") then PerformBinaryLogic lhs rhs andb
  else if decide (op = "or") then PerformBinaryLogic lhs rhs orb
  else Throw (runtime_error ("Unsupported comptime binary operator: " +:+ op)).

(** [++iterations > 10000] *)
Definition iteration_limit : nat := N.to_nat 10000.
#[global] Arguments iteration_limit : simpl never.

(** ** Evaluation *)

Section eval.
Context (print_fuel : nat) (Eval : Node → ev Result).

Definition eval_value (n : Node) : ev Value := r ← Eval n; mret (value r).

Fixpoint eval_values (l : list Node) : ev (list Value) :=
  match l with [] => mret [] | n :: l => v ← eval_value n; vs ← eval_values l; mret (v :: vs) end.

(** The statements of a block up to a return; [last] is the result so far. *)
Fixpoint eval_statements (l : list Node) (last : Result) : ev Result :=
  match l with
  | [] => mret last
  | n :: l => r ← Eval n; if didReturn r then mret r else eval_statements l r
  end.

(** A scope, which is left at the end. *)
Definition scoped {A} (m : ev A) : ev A := _ ← PushScope; a ← m; _ ← PopScope; mret a.

(** At most [n] more rounds. *)
Fixpoint eval_while (n : nat) (condition body : Node) : ev Result :=
  c ← eval_value condition;
  b ← lift (as_bool c);
  if negb b then mret nothing else
  match n with
  | 0 => st_throw (runtime_error "comptime loop exceeded iteration limit")
  | S n =>
      r ← Eval body;
      if didReturn r then mret r else eval_while n condition body
  end.

(** *** Calls *)

(** The arguments given, then the defaults of the other parameters. *)
Fixpoint bind_arguments (args : list Node) (params : list Parameter_) : ev unit :=
  match args, params with
  | [], [] => mret tt
  | [], MkParameter name _ default _ :: params =>
      if is_null default then st_throw (runtime_error "Missing comptime argument") else
      v ← eval_value default; _ ← AssignLocal name v; bind_arguments [] params
  | arg :: args, MkParameter name _ _ _ :: params =>
      v ← eval_value arg; _ ← AssignLocal name v; bind_arguments args params
  | _ :: _, [] => st_throw (undefined_behaviour "vector index out of range")
  end.

Fixpoint bind_contexts (contexts : list ContextBinding) : ev unit :=
  match contexts with
  | [] => mret tt
  | c :: contexts => v ← Resolve (cb_name c); _ ← AssignLocal (cb_name c) v; bind_contexts contexts
  end.

(** [resolveCallTarget] *)
Definition call_target (callee : Node) : ev (string * string) :=
  s ← st_get;
  match callee with
  | IdentifierNode name => mret (name, GenState.QualifyName name (m_generator s))
  | MemberAccessNode object member =>
      match Resolver.module_member object member (m_generator s) with
      | Some q => mret (member, q)
      | None => st_throw (runtime_error "Unsupported comptime call target")
      end
  | _ => st_throw (runtime_error "Unsupported comptime call target")
  end.

(** The function of the qualified name, or of the plain one. *)
Definition comptime_function (qualifiedName displayName : string) (s : t) : option Node :=
  let fs := GenState.m_comptimeFunctions (m_generator s) in
  match fs !! qualifiedName with
  | Some f => Some f.2
  | None => snd <$> fs !! displayName
  end.

(** The layout of the structure of a name, or of the generic one. *)
Definition struct_layout (qualifiedName : string) (s : t) : option (list string) :=
  let layouts := GenState.structLayouts (metadata s) in
  match layouts !! qualifiedName with
  | Some layout => Some layout
  | None => layouts !! GenericBaseName qualifiedName
  end.

(** [instance->fields[i] = Eval(args[i])] *)
Fixpoint fill_fields (i : nat) (args : list Node) (fields : list Value) : ev (list Value) :=
  match args with
  | [] => mret fields
  | arg :: args =>
      v ← eval_value arg;
      if i <? length fields then fill_fields (S i) args (<[i := v]> fields)
      else st_throw (undefined_behaviour "vector index out of range")
  end.

Definition call_function (f : Node) (args : list Node) : ev Value :=
  match f with
  | FunctionDeclNode _ _ _ _ params contextRequirements _ _ body =>
      scoped (_ ← bind_contexts contextRequirements; _ ← bind_arguments args params; eval_value body)
  | _ => st_throw (undefined_behaviour "null pointer")
  end.

(** [EvalCall] *)
Definition EvalCall (callee : Node) (args : list Node) : ev Value :=
  '(displayName, qualifiedName) ← call_target callee;
  s ← st_get;
  match comptime_function qualifiedName displayName s with
  | Some f => call_function f args
  | None =>
      match struct_layout qualifiedName s with
      | Some layout =>
          fields ← fill_fields 0 args (replicate (length layout) VMonostate);
          new_object InstancePtr (EInstance fields)
      | None =>
          match GenState.enumVariants (metadata s) !! qualifiedName with
          | Some variant =>
              vs ← eval_values args; new_object EnumPtr (EVariant (GenState.tag variant) vs)
          | None => st_throw (runtime_error ("Unsupported comptime call target: " +:+ displayName))
          end
      end
  end.

(** *** Accesses *)

Definition object_at (p : option nat) (s : t) : option eval_object := p ≫= λ p, m_objects s !! p.

(** [EvalMemberAccess] *)
Definition EvalMemberAccess (object : Node) (member : string) : ev Value :=
  let unsupported := runtime_error ("Unsupported comptime member access: " +:+ member) in
  v ← eval_value object;
  match v with
  | VPtr InstancePtr p =>
      fieldIndex ← ResolveStructFieldIndex object member;
      s ← st_get;
      match fieldIndex, object_at p s with
      | Some i, Some (EInstance fields) =>
          match fields !! Z.to_nat i with Some v => mret v | None => st_throw unsupported end
      | _, _ => st_throw unsupported
      end
  | VPtr EnumPtr p =>
      s ← st_get;
      if decide (member = "tag") then
        match object_at p s with
        | Some (EVariant tag _) => mret (VInt64 tag)
        | _ => st_throw (undefined_behaviour "null pointer")
        end
      else st_throw unsupported
  | _ => st_throw unsupported
  end.

(** [As<int64_t>] *)
Definition index_of (v : Value) : result Z :=
  match as_int64 v with Some r => r | None => Throw bad_variant_access end.

(** [EvalIndex] *)
Definition EvalIndex (container index : Node) : ev Value :=
  c ← eval_value container;
  rawIndex ← eval_value index;
  i ← lift (index_of rawIndex);
  if (i <? 0)%Z then st_throw (runtime_error "Unsupported comptime negative index access") else
  s ← st_get;
  match c with
  | VPtr ArrayPtr p =>
      match object_at p s with
      | Some (EArray elements) =>
          match elements !! Z.to_nat i with
          | Some v => mret v
          | None => st_throw (runtime_error "Unsupported comptime array index access")
          end
      | _ => st_throw (runtime_error "Unsupported comptime array index access")
      end
  | VPtr EnumPtr p =>
      match object_at p s with
      | Some (EVariant _ args) =>
          match args !! Z.to_nat i with
          | Some v => mret v
          | None => st_throw (runtime_error "Unsupported comptime enum index access")
          end
      | _ => st_throw (runtime_error "Unsupported comptime enum index access")
      end
  | _ => st_throw (runtime_error "Unsupported comptime index access")
  end.

(** *** Nodes *)

Definition eval_var_decl (name : string) (initializer : Node) : ev Result :=
  v ← (if is_null initializer then mret VMonostate else eval_value initializer);
  _ ← AssignLocal name v;
  structType ← on_generator (Resolver.InferStructTypeName initializer);
  _ ← (match structType with
       | Some type => st_modify (λ s, set_struct_bindings (GenState.bind_innermost name type (m_structBindings s)) s)
       | None => mret tt
       end);
  mret (plain v).

Definition eval_if (condition thenBlock elseBlock : Node) : ev Result :=
  c ← eval_value condition;
  b ← lift (as_bool c);
  if (b : bool) then Eval thenBlock
  else if is_null elseBlock then mret nothing else Eval elseBlock.

(** An index of the target is not looked at. *)
Definition eval_assignment (name : string) (v : Node) : ev Result :=
  v ← eval_value v;
  if decide (name = "") then st_throw (runtime_error "Unsupported comptime assignment target")
  else _ ← Assign name v; mret (plain v).

Definition eval_node (node : Node) : ev Result :=
  match node with
  | NullNode => mret nothing
  | IntegerLiteralNode z => mret (plain (VInt64 z))
  | FloatLiteralNode d => mret (plain (VDouble d))
  | StringLiteralNode text => mret (plain (VString (Some text)))
  | LeafNode type _ =>
      mret (if decide (type = "true") then plain (VBool true)
            else if decide (type = "false") then plain (VBool false) else nothing)
  | IdentifierNode name => v ← Resolve name; mret (plain v)
  | UnaryExprNode op operand => v ← eval_value operand; r ← lift (eval_unary op v); mret (plain r)
  | BinaryExprNode lhs op rhs =>
      l ← eval_value lhs; r ← eval_value rhs; s ← st_get;
      v ← lift (eval_binary print_fuel (object_heap s) op l r); mret (plain v)
  | ArrayLiteralNode elements => vs ← eval_values elements; v ← new_object ArrayPtr (EArray vs); mret (plain v)
  | VarDeclNode name _ initializer _ _ => eval_var_decl name initializer
  | ReturnNode v =>
      v ← (if is_null v then mret VMonostate else eval_value v); mret (MkResult v true)
  | BlockNode statements => scoped (eval_statements statements nothing)
  | IfStatementNode condition thenBlock elseBlock => eval_if condition thenBlock elseBlock
  | WhileStatementNode condition body => eval_while iteration_limit condition body
  | AssignmentNode name _ _ _ v _ => eval_assignment name v
  | CallNode callee args => v ← EvalCall callee args; mret (plain v)
  | MemberAccessNode object member => v ← EvalMemberAccess object member; mret (plain v)
  | IndexNode container index => v ← EvalIndex container index; mret (plain v)
  | ComptimeNode body => Eval body
  | _ => st_throw (runtime_error "Unsupported node in comptime evaluation")
  end.
End eval.

(** [Eval]; the fuel bounds the depth of the calls of [Eval]. *)
Fixpoint Eval (print_fuel fuel : nat) (node : Node) : ev Result :=
  match fuel with
  | 0 => st_diverge
  | S fuel => eval_node print_fuel (Eval print_fuel fuel) node
  end.

Definition init (g : GenState.t) : t := Mk g [] [∅] ∅.

Example sum_to_ten :
  (λ r, r.1) <$> Eval 1 8 (BlockNode [
    VarDeclNode "i" "" (IntegerLiteralNode 0) false Default_;
    WhileStatementNode (BinaryExprNode (IdentifierNode "i") "<" (IntegerLiteralNode 3))
      (BlockNode [AssignmentNode "i" NullNode "" NullNode
                    (BinaryExprNode (IdentifierNode "i") "+" (IntegerLiteralNode 1)) NullNode]);
    ReturnNode (BinaryExprNode (StringLiteralNode "i=") "+" (IdentifierNode "i"))]) (init Generator.initial)
  = Ok (MkResult (VString (Some "i=3")) true).
Proof. vm_compute. reflexivity. Qed.

End Comptime.
