(* ===== verification/OperatorTypes.v ===== *)
(** * The types of operators

    The types that the semantic analyzer gives to binary operators
    ([SemanticCalls.binary_type]) against the values that the evaluator, and with
    it the virtual machine ([CompileSpec.binary_dispatch]), computes. *)

From S2P Require Import Prelude Value ValueSpec Bytecode Comptime TypeInfo SemanticCalls.
From S2P Require Import SemanticSpec.
From Stdlib Require Import Lia SpecFloat.

Module OperatorTypes.
Import Value SemanticCalls.

(** ** Doubles that are integers

    The machine computes the sum, the difference and the product of integers in
    double precision, so a value of type [int] may be a double, but then it is an
    integer, unless it is infinite or not a number. *)

Section whole.
#[local] Open Scope Z_scope.

(** [m * 2^e] is an integer. *)
Definition good (m e : Z) : Prop := 0 ≤ e ∨ (2 ^ (- e) | m).
Definition whole (d : double) : Prop := match d with S754_finite _ m e => good (Zpos m) e | _ => True end.

Lemma good_opp b m e : good m e → good (cond_Zopp b m) e.
Proof. intros [H|H]; [by left|right]. destruct b; cbn; [by apply Z.divide_opp_r|done]. Qed.
Lemma good_add m n e : good m e → good n e → good (m + n) e.
Proof. intros [H|H] [K|K]; try (by left). right. by apply Z.divide_add_r. Qed.
Lemma good_sub m n e : good m e → good n e → good (m - n) e.
Proof. intros [H|H] [K|K]; try (by left). right. by apply Z.divide_sub_r. Qed.

Lemma pow_divide a b : 0 ≤ a ≤ b → (2 ^ a | 2 ^ b).
Proof. intros H. exists (2 ^ (b - a)). rewrite -Z.pow_add_r; [f_equal; lia|lia..]. Qed.

Lemma good_mul m n e f : good m e → good n f → good (m * n) (e + f).
Proof.
  unfold good. intros H K. destruct (Z.le_gt_cases 0 (e + f)) as [|Hlt]; [by left|right].
  destruct (Z.le_gt_cases 0 e) as [He|He].
  - destruct K as [?|K]; [lia|]. apply Z.divide_mul_r. etrans; [|exact K]. apply pow_divide. lia.
  - destruct H as [?|H]; [lia|]. destruct (Z.le_gt_cases 0 f) as [Hf|Hf].
    + apply Z.divide_mul_l. etrans; [|exact H]. apply pow_divide. lia.
    + destruct K as [?|K]; [lia|]. rewrite Z.opp_add_distr Z.pow_add_r; [|lia..]. destruct H as [x ->], K as [y ->]. exists (x * y). ring.
Qed.

(** Shifting left to a smaller exponent. *)
Lemma good_shl m e e' : e' ≤ e → good (Zpos m) e → good (Zpos (shl_align m e e').1) e'.
Proof.
  intros He Hm. unfold shl_align. destruct (e' - e) as [|d|d] eqn:Ed; cbn [fst]; [|lia|].
  - by replace e' with e by lia.
  - rewrite iter_xO. replace e' with (e + - Zpos d) by lia. apply good_mul; [done|]. right. by rewrite Z.opp_involutive.
Qed.
Lemma good_align m e e' : good (Zpos m) e → let '(m', e'') := shl_align m e e' in good (Zpos m') e''.
Proof.
  intros Hm. destruct (Z.le_gt_cases e' e) as [He|He].
  - pose proof (good_shl m e e' He Hm) as H. revert H. unfold shl_align.
    destruct (e' - e) as [|d|d] eqn:Ed; cbn [fst]; [|lia|done]. by replace e' with e by lia.
  - unfold shl_align. destruct (e' - e) as [|d|d] eqn:Ed; [done|done|lia].
Qed.

(** Shifting an integer right is exact, or ends with an exponent that makes an
    integer of any mantissa. *)
Lemma shr_good m e n : 0 < m → good m e →
  let '(mrs, e') := shr (Build_shr_record m false false) e n in
  0 ≤ e' ∨ ∃ m', mrs = Build_shr_record m' false false ∧ 0 < m' ∧ good m' e'.
Proof.
  intros Hm Hg. unfold shr. destruct n as [|p|p]; [right; by exists m| |right; by exists m].
  destruct (Z.le_gt_cases 0 (e + Zpos p)) as [|Hlt]; [by left|right]. destruct Hg as [?|[q Hq]]; [lia|].
  assert (0 < 2 ^ (- e)) by (apply Z.pow_pos_nonneg; lia).
  assert (0 < 2 ^ (- (e + Zpos p))) by (apply Z.pow_pos_nonneg; lia).
  assert (m = q * 2 ^ (- (e + Zpos p)) * 2 ^ Zpos p) as ->.
  { rewrite Hq -Z.mul_assoc -Z.pow_add_r; [|lia..]. do 2 f_equal. lia. }
  assert (0 < q) by nia. exists (q * 2 ^ (- (e + Zpos p))). rewrite shr_exact; [|nia].
  split; [done|]. split; [nia|]. right. by exists q.
Qed.
Lemma shr_le mrs e n : e ≤ (shr mrs e n).2.
Proof. unfold shr. destruct n; cbn; lia. Qed.

Lemma whole_end s mrs e : 0 ≤ e ∨ (∃ m, mrs = Build_shr_record m false false ∧ 0 < m ∧ good m e) →
  whole match shr_m mrs with
        | Z0 => S754_zero s
        | Zpos m => if Z.leb e (1024 - 53) then S754_finite s m e else S754_infinity s
        | Zneg _ => S754_nan
        end.
Proof.
  intros [He|(m & -> & Hm & Hg)].
  - destruct (shr_m mrs); try done. destruct (Z.leb _ _); [by left|done].
  - cbn [shr_m]. destruct m; try done. by destruct (Z.leb _ _).
Qed.

Lemma round_aux_whole s m e : 0 < m → good m e → whole (binary_round_aux 53 1024 s m e loc_Exact).
Proof.
  intros Hm Hg. unfold binary_round_aux, shr_fexp. cbn [shr_record_of_loc].
  set (n := fexp _ _ _ - e). pose proof (shr_good m e n Hm Hg) as H.
  destruct (shr _ e n) as [mrs e1]. destruct H as [He1|(m1 & -> & Hm1 & Hg1)].
  - set (x := round_nearest_even _ _). set (n2 := fexp _ _ _ - e1). pose proof (shr_le (shr_record_of_loc x loc_Exact) e1 n2) as Hle.
    destruct (shr _ e1 n2) as [mrs2 e2]. apply whole_end. left. cbn in Hle. lia.
  - cbn [shr_m loc_of_shr_record round_nearest_even]. set (n2 := fexp _ _ _ - e1).
    pose proof (shr_good m1 e1 n2 Hm1 Hg1) as H2. destruct (shr _ e1 n2) as [mrs2 e2]. by apply whole_end.
Qed.

Lemma round_whole s m e : good (Zpos m) e → whole (binary_round 53 1024 s m e).
Proof.
  intros Hm. unfold binary_round. pose proof (good_align m e (fexp 53 1024 (Zpos (digits2_pos m) + e)) Hm) as H.
  destruct (shl_align _ _ _) as [m' e']. by apply round_aux_whole.
Qed.
Lemma normalize_whole m e z : good m e → whole (binary_normalize 53 1024 m e z).
Proof.
  intros Hm. destruct m as [|m|m]; [done|by apply round_whole|]. apply round_whole. by apply (good_opp true) in Hm.
Qed.

Lemma int64_whole z : whole (int64_to_double z).
Proof. apply normalize_whole. by left. Qed.
Lemma add_whole a b : whole a → whole b → whole (SFadd 53 1024 a b).
Proof.
  destruct a as [[]|[]| |s m e], b as [[]|[]| |s' m' e']; try done. cbn [whole SFadd]. intros Ha Hb.
  apply normalize_whole, good_add; apply good_opp, good_shl; try done; lia.
Qed.
Lemma sub_whole a b : whole a → whole b → whole (SFsub 53 1024 a b).
Proof.
  destruct a as [[]|[]| |s m e], b as [[]|[]| |s' m' e']; try done. cbn [whole SFsub]. intros Ha Hb.
  apply normalize_whole, good_sub; apply good_opp, good_shl; try done; lia.
Qed.
Lemma mul_whole a b : whole a → whole b → whole (SFmul 53 1024 a b).
Proof.
  destruct a as [[]|[]| |s m e], b as [[]|[]| |s' m' e']; try done. cbn [whole SFmul]. intros Ha Hb.
  apply round_aux_whole; [done|]. rewrite Pos2Z.inj_mul. by apply good_mul.
Qed.
End whole.

(** ** The values of the types *)

Definition number (v : Value) : Prop := match v with VInt64 _ | VDouble _ => True | _ => False end.
Definition integer (v : Value) : Prop := match v with VInt64 _ => True | VDouble d => whole d | _ => False end.

Definition inhabits (v : Value) (type : TypeInfo.t) : Prop :=
  match TypeInfo.kind type, v with
  | TypeKind.Int, v => integer v
  | TypeKind.Float, v => number v
  | TypeKind.Bool, VBool _ => True
  | TypeKind.String_, VString (Some _) => True
  | _, _ => False
  end.

Lemma integer_number v : integer v → number v.
Proof. by destruct v. Qed.
Lemma integer_primitive v : integer v → ∃ d, primitive v = Some d ∧ whole d.
Proof. destruct v; cbn; try done; eauto using int64_whole. Qed.

(** The errors of a division. *)
Definition division_error (e : exn) : Prop :=
  e = runtime_error "Division by zero" ∨ e = runtime_error "Modulo by zero" ∨ ∃ m, e = undefined_behaviour m.

(** The quotient of two integers has the type [int], but is computed in double
    precision: it is only a number. *)
Definition result_of (op : string) (type : TypeInfo.t) (v : Value) : Prop :=
  if decide (op = "/" ∧ TypeInfo.kind type = TypeKind.Int) then number v else inhabits v type.

(** A result of the type, or an error of a division. *)
Definition yields (op : string) (r : result Value) (type : TypeInfo.t) : Prop :=
  (∃ v, r = Ok v ∧ result_of op type v)
  ∨ (op ∈ ["/"; "div"; "mod"] ∧ ∃ e, r = Throw e ∧ division_error e).

Lemma inhabits_result op v type : inhabits v type → result_of op type v.
Proof.
  unfold result_of. case_decide as Hd; [|done]. destruct Hd as [_ Hk]. unfold inhabits. rewrite Hk.
  apply integer_number.
Qed.
Lemma yields_ok op v type : inhabits v type → yields op (Ok v) type.
Proof. left. eauto using inhabits_result. Qed.

Lemma number_primitive v : number v → ∃ d, primitive v = Some d.
Proof. destruct v; cbn; eauto; done. Qed.
Lemma number_int64 v : number v → ∃ r, as_int64 v = Some r ∧ ∀ e, r ≠ Diverge ∧ (r = Throw e → division_error e).
Proof.
  destruct v; try done; intros _; eexists; (split; [reflexivity|]); intros e; (split; [try done|]); try done.
  - destruct d; cbn; try done; by case_match.
  - destruct d; cbn; try done; intros; try (case_match; [done|]); simplify_eq; right; right; eauto.
Qed.

(** Arithmetic on numbers: an operation that keeps the integers. *)
Definition keeps_whole (f : double → double → double) : Prop := ∀ a b, whole a → whole b → whole (f a b).
Lemma arithmetic_yields op v w f type :
  keeps_whole f → number v → number w →
  (TypeInfo.kind type = TypeKind.Int ∧ integer v ∧ integer w) ∨ TypeInfo.kind type = TypeKind.Float →
  yields op (PerformBinaryArithmetic v w (λ a b, Ok (f a b))) type.
Proof.
  intros Hf Hv Hw [(Hk & (a & Ha & Wa)%integer_primitive & (b & Hb & Wb)%integer_primitive)|Hk];
    [|apply number_primitive in Hv as [a Ha]; apply number_primitive in Hw as [b Hb]];
    unfold PerformBinaryArithmetic; rewrite Ha Hb; apply yields_ok; unfold inhabits; rewrite Hk; [by apply Hf|done].
Qed.

Lemma divide_yields v w type :
  number v → number w → (TypeInfo.kind type = TypeKind.Int ∨ TypeInfo.kind type = TypeKind.Float) →
  yields "/" (Divide v w) type.
Proof.
  intros [a Ha]%number_primitive [b Hb]%number_primitive Ht. unfold Divide, PerformBinaryArithmetic. rewrite Ha Hb.
  destruct (double_is_zero b).
  - right. split; [left|]. eexists. split; [reflexivity|by left].
  - left. eexists. split; [reflexivity|]. unfold result_of. case_decide as Hd; [done|]. unfold inhabits.
    destruct Ht as [Hk|Hk]; [by destruct Hd|by rewrite Hk].
Qed.

(** Both integer operations: convert, test for zero, and for the range. *)
Lemma integer_yields op v w (f : Z → Z → Z) zero :
  op ∈ ["/"; "div"; "mod"] → division_error (runtime_error zero) → number v → number w →
  yields op
    (match as_int64 v, as_int64 w with
     | Some a, Some b =>
         b ← b; if decide (b = 0%Z) then Throw (runtime_error zero) else
         a ← a; if int64_ok (Z.quot a b) then Ok (VInt64 (f a b))
                else Throw (undefined_behaviour "integer overflow in division")
     | _, _ => Throw (runtime_error "unreachable")
     end) TypeInfo.Int.
Proof.
  intros Hop Hzero (a & -> & Ha)%number_int64 (b & -> & Hb)%number_int64.
  assert (∀ e, division_error e → yields op (Throw e) TypeInfo.Int) as Herr.
  { intros e He. right. split; [done|]. eauto. }
  destruct b as [b|e|]; cbn; [|by apply Herr, Hb|by destruct (proj1 (Hb bad_variant_access))].
  case_decide; [by apply Herr|].
  destruct a as [a|e|]; cbn; [|by apply Herr, Ha|by destruct (proj1 (Ha bad_variant_access))].
  destruct (int64_ok _); [by apply yields_ok|]. apply Herr. right. right. eauto.
Qed.

Lemma logic_yields op v w f : (∃ b, v = VBool b) → (∃ c, w = VBool c) → yields op (PerformBinaryLogic v w f) TypeInfo.Bool.
Proof. intros [b ->] [c ->]. by apply yields_ok. Qed.

Lemma comparison_yields op v w f : yields op (Ok (PerformBinaryComparison v w f)) TypeInfo.Bool.
Proof. apply yields_ok. unfold PerformBinaryComparison. by destruct (primitive v), (primitive w). Qed.
Lemma negated_yields op v w f :
  yields op (Comptime.not_comparison (PerformBinaryComparison v w f)) TypeInfo.Bool.
Proof.
  unfold PerformBinaryComparison. destruct (primitive v), (primitive w); by apply yields_ok.
Qed.

(** *** What the analyzer accepts *)

(** The part of [binary_type] for arithmetic. *)
Definition arithmetic_type (op : string) (a b : TypeInfo.t) : result TypeInfo.t :=
  if bool_decide (op = "+") && (TypeInfo.has_kind TypeKind.String_ a || TypeInfo.has_kind TypeKind.String_ b)
  then Ok TypeInfo.String_
  else if negb (TypeInfo.IsPrimitiveNumeric a) || negb (TypeInfo.IsPrimitiveNumeric b)
  then Throw (runtime_error "Arithmetic requires numeric types")
  else if TypeInfo.has_kind TypeKind.Float a || TypeInfo.has_kind TypeKind.Float b then
    if bool_decide (op = "div") || bool_decide (op = "mod")
    then Throw (runtime_error "Integer arithmetic requires integer operands")
    else Ok TypeInfo.Float
  else Ok TypeInfo.Int.

Lemma not_truthy op : op ∈ arithmetic_ops ++ comparison_ops → IsTruthyBinaryOp op = false.
Proof.
  unfold arithmetic_ops, comparison_ops, IsTruthyBinaryOp. intros H. apply bool_decide_eq_false. intros H'. set_solver.
Qed.
Lemma binary_arithmetic op a b : op ∈ arithmetic_ops →
  binary_type op a b = arithmetic_type op (resolveNumericType a) (resolveNumericType b).
Proof.
  intros Hop. unfold binary_type. rewrite not_truthy; [|set_solver].
  by rewrite (bool_decide_true (op ∈ arithmetic_ops ++ _)); [rewrite (bool_decide_true (op ∈ arithmetic_ops))|set_solver].
Qed.
Lemma binary_comparison op a b : op ∈ comparison_ops → binary_type op a b = Ok TypeInfo.Bool.
Proof.
  intros Hop. unfold binary_type. rewrite not_truthy; [|set_solver].
  rewrite (bool_decide_true (op ∈ arithmetic_ops ++ _)); [|set_solver].
  rewrite (bool_decide_false (op ∈ arithmetic_ops)); [done|]. unfold arithmetic_ops, comparison_ops in *. set_solver.
Qed.
Lemma binary_logic op a b type : op ∈ ["and"; "or"] → binary_type op a b = Ok type →
  may_be_bool a = true ∧ may_be_bool b = true ∧ type = TypeInfo.Bool.
Proof.
  intros Hop. unfold binary_type, IsTruthyBinaryOp. rewrite (bool_decide_true (op ∈ _)); [|set_solver].
  destruct (may_be_bool a), (may_be_bool b); try done. by intros [= <-].
Qed.

Lemma inhabits_resolved v a : inhabits v a → resolveNumericType a = a.
Proof. unfold inhabits, resolveNumericType, TypeInfo.has_kind. by destruct (TypeInfo.kind a). Qed.
Lemma inhabits_numeric v a : inhabits v a → TypeInfo.IsPrimitiveNumeric a = true → number v.
Proof. unfold inhabits. destruct a as [k]; cbn. destruct k; try done. by intros ?%integer_number. Qed.
Lemma inhabits_bool v a : inhabits v a → may_be_bool a = true → ∃ b, v = VBool b.
Proof.
  unfold inhabits, may_be_bool, TypeInfo.has_kind. destruct (TypeInfo.kind a), v; try done; eauto.
Qed.

(** A value of one of the types is printed without the heap. *)
Lemma inhabits_prints fuel h v a : inhabits v a → ∃ s, ToString (S fuel) h v = Ok s.
Proof. unfold inhabits. destruct (TypeInfo.kind a), v as [| | | |[]| |]; cbn; try done; eauto. Qed.

Lemma arithmetic_type_number op a b type : arithmetic_type op a b = Ok type →
  (bool_decide (op = "+") && (TypeInfo.has_kind TypeKind.String_ a || TypeInfo.has_kind TypeKind.String_ b) = true
   ∧ type = TypeInfo.String_)
  ∨ (TypeInfo.IsPrimitiveNumeric a = true ∧ TypeInfo.IsPrimitiveNumeric b = true
     ∧ ((TypeInfo.kind type = TypeKind.Int ∧ TypeInfo.has_kind TypeKind.Float a = false
         ∧ TypeInfo.has_kind TypeKind.Float b = false)
        ∨ (TypeInfo.kind type = TypeKind.Float
           ∧ TypeInfo.has_kind TypeKind.Float a || TypeInfo.has_kind TypeKind.Float b = true))
     ∧ (op = "div" ∨ op = "mod" → type = TypeInfo.Int)).
Proof.
  unfold arithmetic_type. destruct (_ && _); [intros [= <-]; by left|].
  destruct (TypeInfo.IsPrimitiveNumeric a), (TypeInfo.IsPrimitiveNumeric b); try done. cbn [negb orb].
  intros E. right. split_and!; try done.
  - destruct (TypeInfo.has_kind TypeKind.Float a), (TypeInfo.has_kind TypeKind.Float b); cbn [orb] in *;
      repeat case_match; simplify_eq; auto.
  - intros Hdiv. assert (bool_decide (op = "div") || bool_decide (op = "mod") = true) as Hdm
      by by destruct Hdiv as [-> | ->].
    rewrite Hdm in E. revert E.
    destruct (TypeInfo.has_kind TypeKind.Float a || TypeInfo.has_kind TypeKind.Float b); [done|by intros [= <-]].
Qed.

Lemma inhabits_integer v a : inhabits v a → TypeInfo.IsPrimitiveNumeric a = true →
  TypeInfo.has_kind TypeKind.Float a = false → integer v.
Proof. unfold inhabits, TypeInfo.has_kind. destruct a as [k]; cbn. by destruct k. Qed.
Lemma arithmetic_kinds v w a b (type : TypeInfo.t) :
  inhabits v a → inhabits w b → TypeInfo.IsPrimitiveNumeric a = true → TypeInfo.IsPrimitiveNumeric b = true →
  (TypeInfo.kind type = TypeKind.Int ∧ TypeInfo.has_kind TypeKind.Float a = false
   ∧ TypeInfo.has_kind TypeKind.Float b = false)
  ∨ (TypeInfo.kind type = TypeKind.Float
     ∧ TypeInfo.has_kind TypeKind.Float a || TypeInfo.has_kind TypeKind.Float b = true) →
  (TypeInfo.kind type = TypeKind.Int ∧ integer v ∧ integer w) ∨ TypeInfo.kind type = TypeKind.Float.
Proof.
  intros Hv Hw Ha Hb [(Hk & Fa & Fb)|[Hk _]]; [left|by right].
  split; [done|]. split; by eapply inhabits_integer.
Qed.

Lemma add_yields fuel h v w a b type :
  inhabits v a → inhabits w b → arithmetic_type "+" a b = Ok type → yields "+" (Add (S fuel) h v w) type.
Proof.
  intros Hv Hw [[Hs ->]|(Ha & Hb & Ht & _)]%arithmetic_type_number.
  - assert (IsString v || IsString w = true) as Hstring.
    { unfold inhabits, TypeInfo.has_kind in *.
      destruct (TypeInfo.kind a), v as [| | | |[]| |], (TypeInfo.kind b), w as [| | | |[]| |]; done. }
    unfold Add. rewrite Hstring.
    destruct (inhabits_prints fuel h v a Hv) as [s ->], (inhabits_prints fuel h w b Hw) as [s' ->]. by apply yields_ok.
  - pose proof (inhabits_numeric v a Hv Ha) as Nv. pose proof (inhabits_numeric w b Hw Hb) as Nw.
    assert (IsString v || IsString w = false) as Hstring by by destruct v, w.
    unfold Add. rewrite Hstring. apply arithmetic_yields; [intros ? ?; apply add_whole|done|done|].
    by eapply arithmetic_kinds.
Qed.

(** The operands of another arithmetic operator are numbers. *)
Lemma arithmetic_operands op v w a b type :
  op ≠ "+" → inhabits v a → inhabits w b → arithmetic_type op a b = Ok type →
  number v ∧ number w
  ∧ ((TypeInfo.kind type = TypeKind.Int ∧ integer v ∧ integer w) ∨ TypeInfo.kind type = TypeKind.Float)
  ∧ (op = "div" ∨ op = "mod" → type = TypeInfo.Int).
Proof.
  intros Hop Hv Hw [[Hs _]|(Ha & Hb & Ht & Hi)]%arithmetic_type_number; [by rewrite bool_decide_false in Hs|].
  split_and!; [by eapply inhabits_numeric|by eapply inhabits_numeric|by eapply arithmetic_kinds|done].
Qed.

Lemma eval_arithmetic fuel h op a b type v w : op ∈ arithmetic_ops →
  arithmetic_type op a b = Ok type → inhabits v a → inhabits w b →
  yields op (Comptime.eval_binary (S fuel) h op v w) type.
Proof.
  intros Hop E Hv Hw. destruct (decide (op = "+")) as [->|Hplus]; [by eapply add_yields|].
  destruct (arithmetic_operands op v w a b type) as (Nv & Nw & Ht & Hint); [done..|].
  unfold arithmetic_ops in Hop.
  repeat (apply elem_of_cons in Hop as [->|Hop]); [done|..|by apply not_elem_of_nil in Hop].
  - by apply arithmetic_yields; [intros ? ?; apply sub_whole|..].
  - by apply arithmetic_yields; [intros ? ?; apply mul_whole|..].
  - apply divide_yields; [done..|]. by destruct Ht as [[? _]|?]; [left|right].
  - rewrite (Hint ltac:(auto)). pose proof (integer_yields "div" v w Z.quot "Division by zero") as H.
    unfold Comptime.eval_binary, DivideInt. cbn. destruct (number_int64 v Nv) as (x & Hx & _), (number_int64 w Nw) as (y & Hy & _).
    rewrite Hx Hy in H |- *. apply H; [set_solver|by left|done|done].
  - rewrite (Hint ltac:(auto)). pose proof (integer_yields "mod" v w Z.rem "Modulo by zero") as H.
    unfold Comptime.eval_binary, Modulo. cbn. destruct (number_int64 v Nv) as (x & Hx & _), (number_int64 w Nw) as (y & Hy & _).
    rewrite Hx Hy in H |- *. apply H; [set_solver|by right; left|done|done].
Qed.

Lemma eval_comparison fuel h op v w : op ∈ comparison_ops →
  yields op (Comptime.eval_binary (S fuel) h op v w) TypeInfo.Bool.
Proof.
  unfold comparison_ops. intros Hop.
  repeat (apply elem_of_cons in Hop as [->|Hop]); [..|by apply not_elem_of_nil in Hop].
  - by apply yields_ok.
  - by apply yields_ok.
  - apply comparison_yields.
  - apply comparison_yields.
  - apply negated_yields.
  - apply negated_yields.
Qed.

Lemma eval_sound fuel h op a b type v w :
  binary_type op a b = Ok type → op ∉ ["&&"; "||"] → inhabits v a → inhabits w b →
  yields op (Comptime.eval_binary (S fuel) h op v w) type.
Proof.
  intros E Hop Hv Hw. pose proof (SemanticSpec.binary_type_op op a b type E) as [Hin|[Hin|Hin]%elem_of_app]%elem_of_app.
  - assert (op ∈ ["and"; "or"]) as Hlogic by set_solver.
    destruct (binary_logic op a b type Hlogic E) as (Ha & Hb & ->).
    apply (inhabits_bool v a) in Ha; [|done]. apply (inhabits_bool w b) in Hb; [|done].
    apply elem_of_cons in Hlogic as [->|[->|[]%not_elem_of_nil]%elem_of_cons]; by apply logic_yields.
  - rewrite binary_arithmetic // (inhabits_resolved v) // (inhabits_resolved w) // in E. by eapply eval_arithmetic.
  - rewrite binary_comparison // in E. injection E as <-. by apply eval_comparison.
Qed.

(** *** The type is no wider than it must be *)

Definition one_and_a_half : Value := VDouble (S754_finite false 6755399441055744 (-52)).

(** A double that is no integer. *)
Definition fraction (v : Value) : Prop := match v with VDouble d => ¬ whole d | _ => False end.
Lemma fraction_spec s m e : (e < 0)%Z → (Zpos m mod 2 ^ (- e) ≠ 0)%Z → fraction (VDouble (S754_finite s m e)).
Proof. intros He Hm [?|Hd]; [lia|]. apply Hm. apply Z.mod_divide; [|done]. apply Z.pow_nonzero; lia. Qed.

Lemma float_is_needed fuel h op a b v w : binary_type op a b = Ok TypeInfo.Float → inhabits v a → inhabits w b →
  ∃ v w r, inhabits v a ∧ inhabits w b ∧ Comptime.eval_binary (S fuel) h op v w = Ok r ∧ fraction r.
Proof.
  intros E Hv Hw.
  pose proof (SemanticSpec.binary_type_op op a b _ E) as [Hin|[Hin|Hin]%elem_of_app]%elem_of_app; cycle 2.
  { rewrite binary_comparison // in E. }
  { unfold binary_type, IsTruthyBinaryOp in E. rewrite bool_decide_true // in E.
    by destruct (may_be_bool a), (may_be_bool b). }
  rewrite binary_arithmetic // (inhabits_resolved v) // (inhabits_resolved w) // in E.
  pose proof (arithmetic_type_number op a b _ E) as [[_ [=]]|(Ha & Hb & [([=] & _)|[_ Hfloat]] & Hdiv)].
  assert (∀ c u, inhabits u c → TypeInfo.IsPrimitiveNumeric c = true → inhabits (VInt64 1) c
    ∧ (TypeInfo.has_kind TypeKind.Float c = true → inhabits one_and_a_half c)) as Hvalues.
  { intros c u Hu Hc. unfold inhabits, TypeInfo.has_kind in *. destruct c as [k]; cbn in *. by destruct k. }
  destruct (Hvalues a v Hv Ha) as [A1 A2], (Hvalues b w Hw Hb) as [B1 B2].
  unfold arithmetic_ops in Hin. apply orb_true_iff in Hfloat as [Hf|Hf];
    repeat (apply elem_of_cons in Hin as [->|Hin]); try by apply not_elem_of_nil in Hin.
  all: try by specialize (Hdiv ltac:(auto)).
  1-4: exists one_and_a_half, (VInt64 1).
  5-8: exists (VInt64 1), one_and_a_half.
  all: eexists; (split; [by auto|]); (split; [by auto|]); (split; [vm_compute; reflexivity|]); by apply fraction_spec.
Qed.

(** C17. An operator that the analyzer accepts for operands of basic types.  Applied
    to values of these types it yields a value of the type that the analyzer
    says, or, for a division, one of its errors; there is no error of a type
    mismatch.  The values of [int] are the integers, those computed in double
    precision included, so the sum, the difference and the product of integers
    are integers; the quotient [/] of integers, which the analyzer gives the type
    [int] too, is only a number.  When the type is [float], some operands of the
    types give a fraction, so that [int] would be wrong.  [&&] and [||] are
    accepted for conditions; the generator emits for them what it emits for
    [and] and [or], and the evaluator at compile time refuses them. *)
Theorem operators_sound fuel h op a b type v w :
  binary_type op a b = Ok type → inhabits v a → inhabits w b →
  (if decide (op ∈ ["&&"; "||"])
   then type = TypeInfo.Bool
     ∧ Comptime.eval_binary (S fuel) h op v w = Throw (runtime_error ("Unsupported comptime binary operator: " +:+ op))
     ∧ Bytecode.EmitBinaryOp op = Bytecode.EmitBinaryOp (if decide (op = "&&") then "and" else "or")
     ∧ yields op (Comptime.eval_binary (S fuel) h (if decide (op = "&&") then "and" else "or") v w) type
   else yields op (Comptime.eval_binary (S fuel) h op v w) type)
  ∧ (type = TypeInfo.Float → ∃ v w r, inhabits v a ∧ inhabits w b
     ∧ Comptime.eval_binary (S fuel) h op v w = Ok r ∧ fraction r).
Proof.
  intros E Hv Hw. split.
  - case_decide as Hop; [|by eapply eval_sound].
    assert (type = TypeInfo.Bool ∧ may_be_bool a = true ∧ may_be_bool b = true) as (-> & Ha & Hb).
    { revert E. unfold binary_type, IsTruthyBinaryOp. rewrite (bool_decide_true (op ∈ _)); [|set_solver].
      destruct (may_be_bool a), (may_be_bool b); try done. by intros [= <-]. }
    apply (inhabits_bool v a) in Ha; [|done]. apply (inhabits_bool w b) in Hb; [|done].
    apply elem_of_cons in Hop as [->|[->|[]%not_elem_of_nil]%elem_of_cons];
      (split; [done|]); (split; [done|]); (split; [done|by apply logic_yields]).
  - intros ->. by eapply float_is_needed.
Qed.

(** [1 + 2.0], the text before a number, and [true && false]. *)
Lemma operators_sound_witness :
  yields "+" (Comptime.eval_binary 1 ∅ "+" (VInt64 1) (VDouble (int64_to_double 2))) TypeInfo.Float
  ∧ yields "+" (Comptime.eval_binary 1 ∅ "+" (VString (Some "n = ")) (VInt64 2)) TypeInfo.String_
  ∧ Bytecode.EmitBinaryOp "&&" = Bytecode.EmitBinaryOp "and"
  ∧ ∃ v w r, inhabits v TypeInfo.Int ∧ inhabits w TypeInfo.Float ∧ Comptime.eval_binary 1 ∅ "+" v w = Ok r ∧ fraction r.
Proof.
  pose proof (operators_sound 0 ∅ "+" TypeInfo.Int TypeInfo.Float TypeInfo.Float (VInt64 1) (VDouble (int64_to_double 2))
    eq_refl I I) as [H1 H1'].
  pose proof (operators_sound 0 ∅ "+" TypeInfo.String_ TypeInfo.Int TypeInfo.String_ (VString (Some "n = ")) (VInt64 2)
    eq_refl I I) as [H2 _].
  pose proof (operators_sound 0 ∅ "&&" TypeInfo.Bool TypeInfo.Bool TypeInfo.Bool (VBool true) (VBool false)
    eq_refl I I) as [H3 _].
  split; [exact H1|]. split; [exact H2|]. split; [exact (proj1 (proj2 (proj2 H3)))|exact (H1' eq_refl)].
Defined.

(** The analyzer says that one divided by two is an integer. *)
Example half_is_an_int :
  binary_type "/" TypeInfo.Int TypeInfo.Int = Ok TypeInfo.Int
  ∧ Comptime.eval_binary 1 ∅ "/" (VInt64 1) (VInt64 2) = Ok (VDouble (S754_finite false 4503599627370496 (-53))).
Proof. split; vm_compute; reflexivity. Qed.

End OperatorTypes.
