(* ===== verification/MachineRun.v ===== *)
(** * Runs inside one frame

    The instructions that only touch the values of their frame, as steps
    between configurations: the values of the frame and the place in its
    code.  Everything else of the state stays as it was. *)

From S2P Require Import Prelude SyncRuntime Transactions Value Bytecode BytecodeSpec Execution Support DataOps Machine MachineSpec.
From Stdlib Require Import Lia SpecFloat.

Import Value Bytecode Execution Machine.

(** ** Values without objects *)

(** Null, booleans, numbers and strings: operations on them read no heap. *)
Definition scalar (v : Value) : bool :=
  match v with VFunction _ | VPtr _ _ => false | _ => true end.

Lemma ToString_scalar fuel fuel' h h' v : scalar v = true →
  ToString (S fuel) h v = ToString (S fuel') h' v.
Proof. by destruct v. Qed.
Lemma Add_scalar fuel fuel' h h' l r : scalar l = true → scalar r = true →
  Add (S fuel) h l r = Add (S fuel') h' l r.
Proof. intros Hl Hr. unfold Add. by destruct l, r. Qed.
Lemma Equal_scalar h h' l r : scalar l = true → scalar r = true → Equal h l r = Equal h' l r.
Proof. by destruct l, r. Qed.

(** ** Configurations *)

Section run.
Context (natives : nat → NativeFunction) (others : peers) (print_fuel : nat) (next : nat → vm (option Value)) (entry : nat).

Definition step (s s' : t) : Prop := run_round natives others print_fuel next entry s = Running s'.

Context (σ : t) (F : CallFrame) (below : list Value).

Definition conf (loc : list Value) (i : nat) : t :=
  set_stack (below ++ loc) (set_frames (pop_back (m_frames σ) ++ [set_ip i F]) σ).

Definition goes (loc : list Value) (i : nat) (loc' : list Value) (i' : nat) : Prop :=
  rtc step (conf loc i) (conf loc' i').

Lemma goes_refl loc i : goes loc i loc i.
Proof. apply rtc_refl. Qed.
Lemma goes_trans loc i loc1 i1 loc2 i2 : goes loc i loc1 i1 → goes loc1 i1 loc2 i2 → goes loc i loc2 i2.
Proof. unfold goes. intros. by etrans. Qed.

Context (Hframe : last (m_frames σ) = Some F) (Hbase : stackBase F = length below)
        (Hentry : entry ≤ length (m_frames σ)).
Abbreviation C := (code_of (function F)).
Abbreviation K := (constants_of (function F)).

Lemma frames_snoc : m_frames σ = pop_back (m_frames σ) ++ [F].
Proof. by apply last_snoc_inv. Qed.

Lemma length_frames_conf loc i : length (m_frames (conf loc i)) = length (m_frames σ).
Proof. transitivity (length (pop_back (m_frames σ) ++ [F])); [cbn; by rewrite !length_app|by rewrite -frames_snoc]. Qed.

Lemma SetIp_conf loc i i' : SetIp i' (conf loc i) = (conf loc i', Ok tt).
Proof.
  unfold SetIp. cbn [m_frames conf set_stack set_frames]. rewrite last_snoc pop_back_snoc. done.
Qed.

Lemma frame_conf loc i : last (m_frames (conf loc i)) = Some (set_ip i F).
Proof. cbn. by rewrite last_snoc. Qed.
Lemma floor_conf loc i : floor (conf loc i) = length below.
Proof. unfold floor. by rewrite frame_conf -Hbase. Qed.

(** One instruction whose handler leads to a configuration. *)
Lemma step_instr loc i instr i1 m loc' i' :
  fetch C i = Ok (Fetched instr i1) → Dispatch natives others print_fuel next instr (length C) K = m →
  m (conf loc i1) = (conf loc' i', Ok true) → goes loc i loc' i'.
Proof.
  intros Hf Hd Hm. apply rtc_once. unfold step, run_round. rewrite length_frames_conf frame_conf.
  rewrite (proj2 (Nat.ltb_ge _ _)) //. cbn [function set_ip ip]. rewrite Hf.
  rewrite SetIp_conf. cbn [fst]. rewrite Hd. unfold catch. rewrite Hm. unfold after_dispatch. cbn [negb].
  rewrite length_frames_conf (proj2 (Nat.ltb_ge _ _)) // bool_decide_eq_false_2 //.
  cbn. by destruct (pop_back (m_frames σ)).
Qed.

(** *** The handlers *)

Lemma push_conf loc i v : length below + length loc < STACK_MAX →
  PushValue v (conf loc i) = (conf (loc ++ [v]) i, Ok tt).
Proof.
  intros Hl. unfold PushValue, StackSize. cbn [m_valueStack conf set_stack]. rewrite length_app.
  rewrite (proj2 (Nat.leb_gt _ _)) //. unfold conf, set_stack. cbn. by rewrite -app_assoc.
Qed.
Lemma pop_conf loc v i : PopValue (conf (loc ++ [v]) i) = (conf loc i, Ok v).
Proof.
  unfold PopValue, StackSize. rewrite floor_conf. cbn [m_valueStack conf set_stack]. rewrite !length_app /=.
  rewrite (proj2 (Nat.leb_gt _ _)); [|lia]. rewrite app_assoc last_snoc pop_back_snoc //.
Qed.
Lemma peek_conf loc v i : PeekValue 0 (conf (loc ++ [v]) i) = (conf (loc ++ [v]) i, Ok v).
Proof.
  unfold PeekValue, from_top, read_slot, StackSize. cbn [m_valueStack conf set_stack]. rewrite !length_app /=.
  rewrite (proj2 (Nat.leb_gt _ _)); [|lia].
  rewrite (_ : length below + (length loc + 1) - 1 - 0 = length (below ++ loc)); [|rewrite length_app; lia].
  by rewrite app_assoc list_lookup_middle.
Qed.
Lemma absolute_conf loc i w : w < length loc →
  absolute_index w (conf loc i) = (conf loc i, Ok (length below + w)).
Proof.
  intros Hw. unfold absolute_index, StackSize. rewrite frame_conf. cbn [m_valueStack conf set_stack stackBase set_ip].
  rewrite Hbase length_app (proj2 (Nat.leb_gt _ _)) //. lia.
Qed.
Lemma get_local_conf loc i w v : loc !! w = Some v → GetLocal w (conf loc i) = (conf loc i, Ok v).
Proof.
  intros Hw. unfold GetLocal. vm_run (absolute_conf loc i w (lookup_lt_Some _ _ _ Hw)).
  unfold read_slot. cbn [m_valueStack conf set_stack]. by rewrite lookup_app_r ?Nat.add_sub_swap ?Nat.sub_diag ?Hw; [|lia..].
Qed.
Lemma set_local_conf loc i w v : w < length loc →
  SetLocal w v (conf loc i) = (conf (<[w := v]> loc) i, Ok tt).
Proof.
  intros Hw. unfold SetLocal. vm_run (absolute_conf loc i w Hw). unfold est_modify, conf, set_stack. cbn.
  by rewrite insert_app_r.
Qed.

Lemma pop2_conf f loc i a b v : length below + length loc < STACK_MAX →
  f a b (conf loc i) = (conf loc i, Ok v) → pop2 f (conf (loc ++ [a; b]) i) = (conf (loc ++ [v]) i, Ok true).
Proof.
  intros Hl Hf. unfold pop2. rewrite (_ : loc ++ [a; b] = (loc ++ [a]) ++ [b]); [|by rewrite -app_assoc].
  vm_run (pop_conf (loc ++ [a]) b i). vm_run (pop_conf loc a i). vm_run Hf. by vm_run (push_conf loc i v Hl).
Qed.
Lemma pop1_conf f loc i a v : length below + length loc < STACK_MAX →
  f a = Ok v → pop1 f (conf (loc ++ [a]) i) = (conf (loc ++ [v]) i, Ok true).
Proof.
  intros Hl Hf. unfold pop1. vm_run (pop_conf loc a i).
  assert (E : est_lift (f a) (conf loc i) = (conf loc i, Ok v)) by by rewrite Hf.
  vm_run E. by vm_run (push_conf loc i v Hl).
Qed.
Lemma jump_conf loc i w target : jump_forward (length C) i w = Some target →
  jump (length C) w (conf loc i) = (conf loc target, Ok true).
Proof.
  intros Hj. unfold jump. assert (E : CurrentFrame (conf loc i) = (conf loc i, Ok (set_ip i F))).
  { unfold CurrentFrame. by rewrite frame_conf. }
  vm_run E. cbn [ip set_ip]. rewrite Hj. by vm_run (SetIp_conf loc i target).
Qed.
Lemma loop_conf loc i w target : loop_back i w = Some target →
  loop w (conf loc i) = (conf loc target, Ok true).
Proof.
  intros Hj. unfold loop. assert (E : CurrentFrame (conf loc i) = (conf loc i, Ok (set_ip i F))).
  { unfold CurrentFrame. by rewrite frame_conf. }
  vm_run E. cbn [ip set_ip]. rewrite Hj. by vm_run (SetIp_conf loc i target).
Qed.
Lemma jump_if_false_conf loc i w c b target : as_bool c = Ok b →
  jump_forward (length C) i w = Some target →
  jump_if false (length C) w (conf (loc ++ [c]) i) = (conf loc (if b then i else target), Ok true).
Proof.
  intros Hc Hj. unfold jump_if. vm_run (pop_conf loc c i).
  assert (E : est_lift (as_bool c) (conf loc i) = (conf loc i, Ok b)) by by rewrite Hc.
  vm_run E. destruct b; cbn [Bool.eqb]; [done|by apply jump_conf].
Qed.

(** *** Instructions as runs *)

Ltac instruction Hf := eapply step_instr; [exact Hf|reflexivity|]; unfold Dispatch, push_result; cbn [opcode operand]; cbv zeta.

#[local] Set Default Proof Using "Hframe Hbase Hentry".

Lemma go_constant loc i n v i1 :
  fetch C i = Ok (Fetched (MkInstruction OP_CONSTANT (Z.of_nat n)) i1) → K !! n = Some v →
  length below + length loc < STACK_MAX → goes loc i (loc ++ [v]) i1.
Proof.
  intros Hf Hk Hl. instruction Hf. rewrite Nat2Z.id Hk.
  by vm_run (push_conf loc i1 v Hl).
Qed.
Lemma go_get_local loc i p v i1 :
  fetch C i = Ok (Fetched (MkInstruction OP_GET_LOCAL (Z.of_nat p)) i1) → loc !! p = Some v →
  length below + length loc < STACK_MAX → goes loc i (loc ++ [v]) i1.
Proof.
  intros Hf Hp Hl. instruction Hf. rewrite Nat2Z.id.
  vm_run (get_local_conf loc i1 p v Hp). by vm_run (push_conf loc i1 v Hl).
Qed.
Lemma go_set_local loc i p v i1 :
  fetch C i = Ok (Fetched (MkInstruction OP_SET_LOCAL (Z.of_nat p)) i1) → p < length (loc ++ [v]) →
  goes (loc ++ [v]) i (<[p := v]> (loc ++ [v])) i1.
Proof.
  intros Hf Hp. instruction Hf. rewrite Nat2Z.id.
  vm_run (peek_conf loc v i1). by vm_run (set_local_conf (loc ++ [v]) i1 p v Hp).
Qed.
Lemma go_pop loc i v i1 : fetch C i = Ok (Fetched (MkInstruction OP_POP 0) i1) → goes (loc ++ [v]) i loc i1.
Proof. intros Hf. instruction Hf. by vm_run (pop_conf loc v i1). Qed.
Lemma go_pop1 op f loc i a v i1 :
  (∀ n l, Dispatch natives others print_fuel next (MkInstruction op 0) n l = (pop1 f)) → f a = Ok v →
  fetch C i = Ok (Fetched (MkInstruction op 0) i1) → length below + length loc < STACK_MAX →
  goes (loc ++ [a]) i (loc ++ [v]) i1.
Proof. intros Hd Hv Hf Hl. eapply step_instr; [exact Hf|apply Hd|]. by apply pop1_conf. Qed.
Lemma go_pop2 op f loc i a b v i1 :
  (∀ n l, Dispatch natives others print_fuel next (MkInstruction op 0) n l = (pop2 f)) → (∀ s, f a b s = (s, Ok v)) →
  fetch C i = Ok (Fetched (MkInstruction op 0) i1) → length below + length loc < STACK_MAX →
  goes (loc ++ [a; b]) i (loc ++ [v]) i1.
Proof. intros Hd Hv Hf Hl. eapply step_instr; [exact Hf|apply Hd|]. by apply pop2_conf. Qed.

(** The jumps, of a known distance. *)
Lemma go_jump_if_false loc i c b d i1 :
  fetch C i = Ok (Fetched (MkInstruction OP_JUMP_IF_FALSE (Z.of_nat d)) i1) → as_bool c = Ok b → i1 + d ≤ length C →
  goes (loc ++ [c]) i loc (if b then i1 else i1 + d).
Proof.
  intros Hf Hc Hd. instruction Hf.
  assert (Hj : jump_forward (length C) i1 (Z.of_nat d) = Some (i1 + d)).
  { unfold jump_forward. destruct (Z.ltb_spec (Z.of_nat (length C) - Z.of_nat i1) (Z.of_nat d)); [lia|]. by rewrite Nat2Z.id. }
  by apply (jump_if_false_conf loc i1 _ c b (i1 + d)).
Qed.
Lemma go_jump loc i d i1 :
  fetch C i = Ok (Fetched (MkInstruction OP_JUMP (Z.of_nat d)) i1) → i1 + d ≤ length C → goes loc i loc (i1 + d).
Proof.
  intros Hf Hd. instruction Hf. apply jump_conf. unfold jump_forward.
  destruct (Z.ltb_spec (Z.of_nat (length C) - Z.of_nat i1) (Z.of_nat d)); [lia|]. by rewrite Nat2Z.id.
Qed.
Lemma go_loop loc i d i1 :
  fetch C i = Ok (Fetched (MkInstruction OP_LOOP (Z.of_nat d)) i1) → d ≤ i1 → goes loc i loc (i1 - d).
Proof.
  intros Hf Hd. instruction Hf. apply loop_conf. unfold loop_back.
  destruct (Z.ltb_spec (Z.of_nat i1) (Z.of_nat d)); [lia|]. by rewrite Nat2Z.id.
Qed.
End run.
