(* ===== verification/GeneratorRun.v ===== *)
(** * What the visitors of a simple program do to the generator

    The chunk and the symbols of the current function, as the visits of
    expressions, conditionals, loops and blocks change them: facts about single
    computations, for the correctness of the code in [CompileSpec]. *)

From S2P Require Import Prelude Value Bytecode BytecodeSpec Ast SymbolTable TypeNames GenState Resolver Generator GeneratorSpec.
From Stdlib Require Import Lia SpecFloat.

Import Value Bytecode Ast TypeNames GenState Resolver Generator.

(** ** The current function *)

Definition gchunk (g : t) : Chunk :=
  match m_contexts g with c :: _ => b_chunk (function c) | [] => MkChunk [] [] "" end.
Definition gsyms (g : t) : SymbolTable.t :=
  match m_contexts g with c :: _ => symbols c | [] => SymbolTable.init end.
Abbreviation gcode g := (code (gchunk g)).
Abbreviation gconsts g := (constants (gchunk g)).
Definition here (g : t) : nat := length (gcode g).

(** A function without contracts that is not a method is being compiled. *)
Record usual (g : t) : Prop := {
  us_depth : 2 ≤ length (m_contexts g);
  us_self c : head (m_contexts g) = Some c → methodSelfStructType c = None ∧ actorSelfType c = None;
  us_contracts : head (m_activeFunctionContracts g) = Some [];
  us_slot : mjoin (head (m_activeContractResultSlots g)) = None;
}.

Lemma usual_not_empty g : usual g → m_contexts g ≠ [].
Proof. intros [Hd _ _ _] E. rewrite E in Hd. cbn in Hd. lia. Qed.

Lemma usual_grown g g' : grown g g' → usual g → usual g'.
Proof.
  intros [Hc (A1 & A2 & _)] [Hd Hs Hf Hr]. unfold contexts_grow in Hc.
  destruct (m_contexts g) as [|c cs]; [done|]. destruct (m_contexts g') as [|c' cs'] eqn:E; [done|].
  destruct Hc as [[(_ & _ & _ & _ & H1 & H2 & _) _ _ _] Ho%Forall2_length]. split.
  - rewrite E. cbn in *. lia.
  - rewrite E. intros ? [= <-]. rewrite H1 H2. by apply Hs.
  - by rewrite A1.
  - by rewrite A2.
Qed.
Lemma prefix_grown g g' : m_contexts g ≠ [] → grown g g' → gcode g `prefix_of` gcode g' ∧ gconsts g `prefix_of` gconsts g'.
Proof.
  intros Hg [Hc _]. unfold gchunk, contexts_grow in *. destruct (m_contexts g), (m_contexts g'); try done.
  by destruct Hc as [[_ _ [] _] _].
Qed.

(** ** Constants *)

(** Minus zero is equal to zero as a constant. *)
Definition literal (v : Value) : Prop := v ≠ VDouble (S754_zero true).
Definition clean (g : t) : Prop := Forall literal (gconsts g).

Lemma SFeqb_same a b : SFeqb a b = true → a ≠ S754_zero true → b ≠ S754_zero true → a = b.
Proof.
  unfold SFeqb, SFcompare. destruct a as [[]|[]| |s m e], b as [[]|[]| |s' m' e']; try done; try (by destruct s');
    try (by destruct s).
  destruct s, s'; try done; destruct (Z.compare_spec e e'); try done; subst;
    destruct (Pos.compare_cont _ _ _) eqn:E; try done; intros _ _ _.
  - apply Pos.compare_eq in E. by subst.
  - apply Pos.compare_eq in E. by subst.
Qed.
Lemma ConstantEquals_same w v : ConstantEquals w v = true → literal w → literal v → w = v.
Proof.
  unfold ConstantEquals, literal. destruct (decide _) as [|Hi%dec_stable]; [done|].
  destruct w, v; try done; intros E Hw Hv.
  - by destruct k.
  - by apply Bool.eqb_prop in E as ->.
  - by apply Z.eqb_eq in E as ->.
  - f_equal. apply SFeqb_same; [done|congruence..].
  - by apply bool_decide_eq_true in E as ->.
Qed.

Lemma AddConstant_index v k i k' : AddConstant v k = Ok (i, k') →
  code k' = code k ∧ constants k `prefix_of` constants k'
  ∧ (Forall literal (constants k) → literal v → Forall literal (constants k'))
  ∧ ((Z.of_nat (length (constants k')) ≤ 2 ^ 16)%Z → Forall literal (constants k') → literal v →
     ∃ n, i = Z.of_nat n ∧ (Z.of_nat n < 2 ^ 16)%Z ∧ constants k' !! n = Some v).
Proof.
  unfold AddConstant, to_uint16. destruct (find_constant 0 (constants k) v) as [n|] eqn:E.
  - intros [= <- <-]. split_and!; try done. intros Hl Hk Hv.
    apply find_constant_Some in E as (m & w & -> & Hm & Hw). exists m. apply lookup_lt_Some in Hm as Hlt.
    split_and!; [cbn; rewrite Z.mod_small; lia|lia|]. rewrite Hm. f_equal. apply ConstantEquals_same; [done| |done].
    by eapply Forall_lookup_1.
  - destruct (_ <? _)%Z; [done|]. intros [= <- <-]. cbn. split_and!; [done|by eexists| |].
    + intros Hk Hv. by apply Forall_app_2; [|constructor].
    + rewrite length_app Nat.add_1_r Nat.sub_1_r /=. intros Hl _ _. exists (length (constants k)).
      split_and!; [rewrite Z.mod_small; lia|lia|by rewrite list_lookup_middle].
Qed.

(** ** Single computations *)

Lemma on_context_Ok {A} (f : FunctionContext → result (A * FunctionContext)) g a g' :
  on_context f g = Ok (a, g') → ∃ c cs c', m_contexts g = c :: cs ∧ f c = Ok (a, c') ∧ g' = set_contexts (c' :: cs) g.
Proof.
  unfold on_context. destruct (m_contexts g) as [|c cs]; [done|]. intros ([b c'] & E & E')%result_bind_Ok.
  simplify_eq. by exists c, cs, c'.
Qed.
Lemma on_chunk_Ok {A} (m : st Chunk A) g a g' : on_chunk m g = Ok (a, g') →
  m (gchunk g) = Ok (a, gchunk g') ∧ gsyms g' = gsyms g ∧ (usual g → usual g').
Proof.
  intros (c & cs & c' & E & (p & Em & E')%result_bind_Ok & ->)%on_context_Ok. destruct p as [a' k].
  injection E' as <- <-. unfold gchunk, gsyms. rewrite E. split_and!; [done|done|].
  intros [Hd Hs Hf Hr]. rewrite E in Hd Hs. split; [done| |done|done]. intros ? [= <-]. exact (Hs c eq_refl).
Qed.

(** No minus zero appears among the constants, a usual function stays one, and
    the symbols are kept when [b] says so. *)
Record calm (b : bool) (g g' : t) : Prop := {
  calm_usual : usual g → usual g';
  calm_syms : b = true → gsyms g' = gsyms g;
  calm_clean : clean g → clean g';
}.
#[export] Instance calm_po b : PreOrder (calm b).
Proof.
  split; [by intros g; split|]. intros g1 g2 g3 [U1 S1 C1] [U2 S2 C2].
  split; [auto|intros Hb; by rewrite (S2 Hb) (S1 Hb)|auto].
Qed.

Definition calming (b : bool) {A} (m : gen A) : Prop := ∀ g a g', usual g → m g = Ok (a, g') → calm b g g'.

Section calming.
Context (b : bool).

Lemma calming_true {A} (m : gen A) : calming true m → calming b m.
Proof. intros Hm g a g' Hg E. destruct (Hm _ _ _ Hg E). split; [done|auto|done]. Qed.
Lemma calming_bind {A B} (m : gen A) (k : A → gen B) : calming b m → (∀ a, calming b (k a)) → calming b (m ≫= k).
Proof.
  intros Hm Hk g x g' Hg (a & g1 & E & E')%st_bind_Ok. pose proof (Hm _ _ _ Hg E) as H1.
  etrans; [exact H1|]. eapply Hk; [by apply H1|exact E'].
Qed.
Lemma calming_quiet {A} (m : gen A) : quiet m → calming b m.
Proof.
  intros Hm g a g' Hg E. destruct (Hm _ _ _ E) as [Ec (A1 & A2 & _)].
  split; [|intros _; unfold gsyms; by rewrite Ec|unfold clean, gchunk; by rewrite Ec].
  intros [Hd Hs Hf Hr]. split; rewrite ?Ec ?A1 ?A2 //.
Qed.
Lemma calming_on_chunk {A} (m : st Chunk A) :
  (∀ k a k', m k = Ok (a, k') → Forall literal (constants k) → Forall literal (constants k')) → calming b (on_chunk m).
Proof. intros Hm g a g' Hg (E & Hs & Hu)%on_chunk_Ok. split; [done|done|]. by eapply Hm. Qed.
Lemma calming_push bytes : calming b (on_chunk (st_modify (push_code bytes))).
Proof. apply calming_on_chunk. by intros k a k' [= _ <-]. Qed.
Lemma calming_write op : calming b (write op).
Proof. apply calming_push. Qed.
Lemma calming_write_operand op w : calming b (write_operand op w).
Proof. apply calming_on_chunk. intros k a k'. unfold WriteOperand. destruct (GetOperandSize op); by intros [= _ <-]. Qed.
Lemma calming_write_byte op w : calming b (write_byte op w).
Proof. apply calming_bind; [apply calming_write|intros _; apply calming_push]. Qed.
Lemma calming_AddConstant v : literal v → calming b (on_chunk (AddConstant v)).
Proof. intros Hv. apply calming_on_chunk. intros k i k' (_ & _ & Hk & _)%AddConstant_index. auto. Qed.
Lemma calming_write_string op s : calming b (write_string op s).
Proof.
  apply calming_bind; [by apply calming_AddConstant|intros i]. apply calming_bind; [apply calming_write|intros _].
  apply calming_write_operand.
Qed.
Lemma calming_write_constant v : literal v → calming b (write_constant v).
Proof.
  intros Hv. apply calming_on_chunk. intros k a k' (i & k1 & (_ & _ & Hk & _)%AddConstant_index & E)%st_bind_Ok Hl.
  apply st_bind_Ok in E as (u & k2 & [= <- <-] & E). unfold WriteOperand in E. injection E as _ <-. by apply Hk.
Qed.
Lemma calming_EmitBinaryOp op : calming b (on_chunk (EmitBinaryOp op)).
Proof.
  apply calming_on_chunk. intros k a k'. unfold EmitBinaryOp.
  repeat match goal with |- context [if ?x then _ else _] => destruct x end; by intros [= _ <-].
Qed.
Lemma calming_EmitJump op : calming b (on_chunk (EmitJump op)).
Proof. apply calming_on_chunk. intros k a k'. rewrite EmitJump_run. by intros [= _ <-]. Qed.
Lemma set_byte_constants n x k u k' : set_byte n x k = Ok (u, k') → constants k' = constants k.
Proof. unfold set_byte. destruct (_ <? _); [|done]. by intros [= _ <-]. Qed.
Lemma calming_PatchJump n : calming b (on_chunk (PatchJump n)).
Proof.
  apply calming_on_chunk. intros k a k' (k0 & k1 & [= <- <-] & (u & k2 & E2 & E3)%st_bind_Ok)%st_bind_Ok.
  by rewrite (set_byte_constants _ _ _ _ _ E3) (set_byte_constants _ _ _ _ _ E2).
Qed.
Lemma calming_EmitLoop n : calming b (on_chunk (EmitLoop n)).
Proof.
  apply calming_on_chunk. intros k a k' (k0 & k1 & [= <- <-] & (u & k2 & [= <- <-] & E)%st_bind_Ok)%st_bind_Ok.
  apply st_bind_Ok in E as (u1 & k2 & [= <- <-] & E). by injection E as _ <-.
Qed.
Lemma calming_on_context {A} (f : FunctionContext → result (A * FunctionContext)) :
  (∀ c a c', f c = Ok (a, c') → b_chunk (function c') = b_chunk (function c)
     ∧ methodSelfStructType c' = methodSelfStructType c ∧ actorSelfType c' = actorSelfType c
     ∧ (b = true → symbols c' = symbols c)) → calming b (on_context f).
Proof.
  intros Hf g a g' _ (c & cs & c' & E & (H2 & H3 & H4 & H1)%Hf & ->)%on_context_Ok.
  split; [|intros Hb; unfold gsyms; rewrite E; by apply H1|unfold clean, gchunk; cbn; by rewrite E H2].
  intros [Hd Hs Hr1 Hr2]. rewrite E in Hd Hs. split; [done| |done|done]. intros ? [= <-]. rewrite H3 H4. exact (Hs c eq_refl).
Qed.
Lemma calming_ResolveUpvalue name : calming b (ResolveUpvalue name).
Proof.
  intros g a g' _. unfold ResolveUpvalue.
  pose proof (resolve_upvalue_outer (m_currentModule g) (importAliases (m_metadata g)) name (m_contexts g)) as Ho.
  destruct (resolve_upvalue _ _ _ _) as [i cs']. intros [= _ <-]. cbn in Ho.
  pose proof (Forall2_length _ _ _ Ho) as Hl. unfold gsyms, clean, gchunk. split.
  - intros [Hd Hs Hr1 Hr2]. split; [cbn; lia|cbn|done|done].
    destruct Ho as [|c c' cs cs' [(_ & _ & _ & _ & E1 & E2 & _) _ _ _] _]; [done|]. intros ? [= <-].
    rewrite E1 E2. by apply Hs.
  - intros _. unfold gsyms. cbn. by destruct Ho as [|c c' cs cs' [_ _ _ E] _].
  - unfold clean, gchunk. cbn. destruct Ho as [|c c' cs cs' [_ _ E _] _]; [done|]. by rewrite E.
Qed.
End calming.

Create HintDb calm.
#[export] Hint Resolve calming_write calming_write_operand calming_write_byte calming_write_string
  calming_EmitBinaryOp calming_EmitJump calming_PatchJump calming_EmitLoop calming_ResolveUpvalue : calm.
#[export] Hint Extern 5 (calming _ _) => apply calming_quiet; solve [eauto with gen] : calm.

(** Take a computation apart along its binds and cases. *)
Ltac soothe := repeat first
  [ solve [eauto with calm]
  | apply calming_bind; [|intros ?]
  | match goal with |- calming _ (if decide ?P then _ else _) => destruct (decide P) end
  | match goal with |- calming _ (match ?x with _ => _ end) => destruct x end ].

Section variables.
Context (b : bool).
Lemma calming_CurrentContext : calming b CurrentContext.
Proof. apply calming_on_context. by intros c a c' [= _ <-]. Qed.
Lemma calming_ResolveLocal name : calming b (ResolveLocal name).
Proof. apply calming_on_context. by intros c a c' [= _ <-]. Qed.
Hint Resolve calming_CurrentContext calming_ResolveLocal : calm.
Lemma calming_ResolveSelfFieldIndex name : calming b (ResolveSelfFieldIndex name).
Proof. unfold ResolveSelfFieldIndex. soothe. Qed.
Hint Resolve calming_ResolveSelfFieldIndex : calm.
Lemma calming_emit_variable a x c d name : calming b (emit_variable a x c d name).
Proof. unfold emit_variable. soothe. Qed.
Hint Resolve calming_emit_variable : calm.
Lemma calming_EmitGetVariable name : calming b (EmitGetVariable name).
Proof. unfold EmitGetVariable. soothe. Qed.
Lemma calming_EmitSetVariable name : calming b (EmitSetVariable name).
Proof. unfold EmitSetVariable. soothe. Qed.
Lemma calming_bind_opt {A} (bind : string → A → FunctionContext → FunctionContext) name type :
  (∀ n a c, let c' := bind n a c in symbols c' = symbols c ∧ function c' = function c
     ∧ methodSelfStructType c' = methodSelfStructType c ∧ actorSelfType c' = actorSelfType c) →
  calming b (bind_opt bind name type).
Proof.
  intros Hb. unfold bind_opt. destruct type; [|soothe]. apply calming_on_context. intros c x c' [= _ <-].
  destruct (Hb name a c) as (? & -> & ? & ?). done.
Qed.
Lemma calming_record_types name type initializer : calming b (record_types name type initializer).
Proof.
  assert (∀ ensure inferred type, (∀ n, quiet (ensure n)) → quiet (variable_type ensure inferred type)).
  { intros. by apply quiet_variable_type. }
  unfold record_types, variable_enum, variable_interface, normalize_type. soothe; apply calming_bind_opt; by intros.
Qed.
Lemma calming_repeat_write n op : calming b (repeat_write n op).
Proof. induction n; cbn; soothe. Qed.
End variables.
#[export] Hint Resolve calming_CurrentContext calming_ResolveLocal calming_ResolveSelfFieldIndex
  calming_EmitGetVariable calming_EmitSetVariable calming_record_types calming_repeat_write : calm.

Lemma calming_define_local name : calming false (define_local name).
Proof.
  unfold define_local. apply calming_bind; [|intros i; soothe]. apply calming_on_context.
  by intros c i c' ([j s] & _ & [= _ <-])%result_bind_Ok.
Qed.
#[export] Hint Resolve calming_define_local : calm.

(** ** Simple programs

    Literals, variables, the unary and binary operators of the compile-time
    evaluator, and as statements declarations, assignments, blocks,
    conditionals, loops and returns.  [names] are the variables in scope, as
    often as they are defined, and [room] is the number of values that still
    fit on the stack. *)

Definition unary_operators : list string := ["+"; "-"; "!"; "not"].
Definition binary_table : list (string * OpCode) :=
  [("+", OP_ADD); ("-", OP_SUBTRACT); ("*", OP_MULTIPLY); ("/", OP_DIVIDE); ("div", OP_DIV); ("mod", OP_MOD);
   ("==", OP_EQUAL); ("!=", OP_NOT_EQUAL); (">", OP_GREATER); ("<", OP_LESS); (">=", OP_GREATER_EQUAL);
   ("<=", OP_LESS_EQUAL); ("and", OP_AND); ("or", OP_OR)].
Definition binary_operators : list string := binary_table.*1.
Definition is_minus_zero (d : double) : bool := match d with S754_zero true => true | _ => false end.

Definition constant_names : list string := ["true"; "false"; "null"].

Fixpoint simple_expr (room : nat) (names : list string) (e : Node) : bool :=
  match e with
  | IntegerLiteralNode _ | StringLiteralNode _ => 1 <=? room
  | FloatLiteralNode d => (1 <=? room) && negb (is_minus_zero d)
  | LeafNode type _ => (1 <=? room) && bool_decide (type ∈ constant_names)
  | IdentifierNode x => (1 <=? room) && bool_decide (x ∈ names)
  | UnaryExprNode op a => bool_decide (op ∈ unary_operators) && simple_expr room names a
  | BinaryExprNode l op r =>
      bool_decide (op ∈ binary_operators) && simple_expr room names l && simple_expr (room - 1) names r
  | _ => false
  end.

(** A pointer to an expression, which may be null. *)
Definition simple_opt (room : nat) (names : list string) (e : Node) : bool :=
  if is_null e then 1 <=? room else simple_expr room names e.

(** The statements that may be a branch or a body; and those of a block, from
    the first one on. *)
Section block.
Context (simple : nat → list string → Node → bool).
Fixpoint simple_block (room : nat) (names : list string) (l : list Node) : bool :=
  match l with
  | [] => true
  | NullNode :: l => simple_block room names l
  | VarDeclNode x _ init _ _ :: l =>
      (length names <? 255) && simple_opt room names init && simple_block (room - 1) (x :: names) l
  | AssignmentNode x NullNode _ NullNode v NullNode :: l =>
      bool_decide (x ∈ names) && simple_expr room names v && simple_block room names l
  | s :: l =>
      (ShouldPopStatementResult s && simple_expr room names s || simple room names s) && simple_block room names l
  end.
End block.

Fixpoint simple (room : nat) (names : list string) (s : Node) : bool :=
  match s with
  | BlockNode l => simple_block simple room names l
  | IfStatementNode c t e =>
      simple_expr room names c && simple room names t && (is_null e || simple room names e)
  | WhileStatementNode c b => simple_expr room names c && simple room names b
  | ReturnNode v => simple_opt room names v
  | LeafNode type _ => bool_decide (type ∉ constant_names)
  | _ => false
  end.

(** *** Their visits are calm *)

Section visit.
Context (interpret : heap → Chunk → result (heap * (string + Value))).
Abbreviation Visit := (Generator.Visit interpret).

Lemma anywhere_Visit fuel n : anywhere (Visit fuel n).
Proof. intros g0. apply ext_Visit. Qed.

Lemma calming_simple_expr b names fuel : ∀ room e, simple_expr room names e = true → calming b (Visit fuel e).
Proof.
  induction fuel as [|fuel IH]; [done|]. intros room e He. destruct e; try done; cbn [Generator.Visit dispatch]; cbn in He.
  - by apply calming_write_constant.
  - apply andb_prop in He as [_ He]. apply calming_write_constant. by intros [= ->].
  - by apply calming_write_constant.
  - clear He. do 3 (case_decide; [by apply calming_write_constant|]). soothe.
  - soothe.
  - apply andb_prop in He as [Hop He]. specialize (IH _ _ He). apply bool_decide_eq_true in Hop.
    unfold VisitUnary. do 3 (case_decide; [soothe|]). set_solver.
  - apply andb_prop in He as [[_ Hl]%andb_prop Hr]. apply calming_bind; [by eapply IH|intros _].
    apply calming_bind; [by eapply IH|intros _]. soothe.
Qed.

Lemma calming_simple_opt b names fuel room e : simple_opt room names e = true →
  calming b (if is_null e then write_constant VMonostate else Visit fuel e).
Proof. unfold simple_opt. destruct (is_null e); [intros _; by apply calming_write_constant|]. apply calming_simple_expr. Qed.

(** **** Scopes *)

Lemma calming_push_scope : calming false push_scope.
Proof. apply calming_on_context. by intros c a c' [= _ <-]. Qed.
Lemma calming_pop_scope : calming false pop_scope.
Proof. apply calming_on_context. intros c a c' (x & (s & _ & [= <-])%result_bind_Ok & [= _ <-])%result_bind_Ok. done. Qed.
Lemma push_scope_Ok g u g' : m_contexts g ≠ [] → push_scope g = Ok (u, g') →
  gchunk g' = gchunk g ∧ gsyms g' = SymbolTable.PushScope (gsyms g).
Proof. intros Hg (c & cs & c' & E & [= _ <-] & ->)%on_context_Ok. unfold gchunk, gsyms. by rewrite E. Qed.
Lemma pop_scope_Ok g u g' : pop_scope g = Ok (u, g') →
  gchunk g' = gchunk g ∧ SymbolTable.PopScope (gsyms g) = Ok (gsyms g').
Proof.
  intros (c & cs & c' & E & (x & (s & Es & [= <-])%result_bind_Ok & [= _ <-])%result_bind_Ok & ->)%on_context_Ok.
  unfold gchunk, gsyms. by rewrite E.
Qed.

(** What a scope does to the symbols is undone at its end. *)
Lemma scoped_syms g1 g2 s s' : grown g1 g2 → m_contexts g1 ≠ [] → gsyms g1 = SymbolTable.PushScope s →
  SymbolTable.PopScope (gsyms g2) = Ok s' → s' = s.
Proof.
  intros [Hc _] Hg. unfold gsyms, contexts_grow in *. destruct (m_contexts g1) as [|c1 ?]; [done|].
  destruct (m_contexts g2) as [|c2 ?]; [done|]. destruct Hc as [[_ _ _ [Ht _ Hi]] _]. intros Es. rewrite Es in Ht Hi.
  unfold SymbolTable.PopScope. rewrite Hi. cbn in *. destruct (SymbolTable.m_scopes (symbols c2)); [done|].
  intros [= <-]. cbn in Ht. subst. by destruct s.
Qed.

Lemma calming_scoped {A} (m : gen A) : anywhere m → calming false m → calming true (_ ← push_scope; _ ← m; pop_scope).
Proof.
  intros Ha Hm g u g' Hg (u1 & g1 & E1 & (a & g2 & E2 & E3)%st_bind_Ok)%st_bind_Ok.
  pose proof (calming_push_scope _ _ _ Hg E1) as C1. assert (H1 : usual g1) by by apply C1.
  pose proof (Hm _ _ _ H1 E2) as C2. assert (H2 : usual g2) by by apply C2.
  pose proof (calming_pop_scope _ _ _ H2 E3) as C3.
  destruct (push_scope_Ok _ _ _ (usual_not_empty _ Hg) E1) as [_ S1]. destruct (pop_scope_Ok _ _ _ E3) as [_ S3].
  assert (H : calm false g g') by (etrans; [exact C1|]; by etrans). split; [apply H| |apply H]. intros _.
  eapply (scoped_syms g1 g2); [|by apply usual_not_empty|exact S1|exact S3].
  eapply anywhere_run; [exact Ha|by apply usual_not_empty|exact E2].
Qed.

(** **** Statements *)

(** Without contracts and invariants a return is its value and its
    instruction. *)
Lemma VisitReturn_Ok visit e g u g' : VisitReturn visit e g = Ok (u, g') →
  ∃ u1 g1, (if is_null e then write_constant VMonostate else visit e) g = Ok (u1, g1)
    ∧ (usual g1 → write OP_RETURN g1 = Ok (u, g')).
Proof.
  intros (u1 & g1 & E1 & E)%st_bind_Ok. exists u1, g1. split; [done|]. intros [Hd Hs Hf Hr].
  apply st_bind_Ok in E as (u2 & g2 & E2 & E). unfold check_ensures in E2. apply st_bind_Ok in E2 as (g0 & ? & [= <- <-] & E2).
  destruct (m_activeFunctionContracts g1) as [|[|] ?] eqn:Ea; [done| |done]. injection E2 as <- <-.
  apply st_bind_Ok in E as (c & g2 & E2 & E). assert (g2 = g1 ∧ head (m_contexts g1) = Some c) as [-> Hc].
  { apply on_context_Ok in E2 as (c1 & cs & c' & Ec & [= -> ->] & ->). rewrite Ec. split; [|done]. by rewrite -Ec; destruct g1. }
  apply st_bind_Ok in E as (g0 & ? & [= <- <-] & E). destruct (Hs c Hc) as [Hm _]. rewrite Hm in E. cbn in E.
  by apply st_bind_Ok in E as (u3 & ? & [= <- <-] & E).
Qed.
Lemma calming_VisitReturn b room names fuel e : simple_opt room names e = true → calming b (VisitReturn (Visit fuel) e).
Proof.
  intros He g u g' Hg (u1 & g1 & E1 & E2)%VisitReturn_Ok.
  pose proof (calming_simple_opt b _ _ _ _ He _ _ _ Hg E1) as H1. assert (Hu : usual g1) by by apply H1.
  etrans; [exact H1|]. by eapply calming_write; [|apply E2].
Qed.

Lemma calming_assignment b room names fuel x m v : simple_expr room names v = true →
  calming b (EmitAssignment (Visit fuel) x NullNode m NullNode v NullNode).
Proof.
  intros Hv. pose proof (λ b, calming_simple_expr b names fuel room v Hv). unfold EmitAssignment. cbn [is_null negb].
  soothe. apply calming_on_context. by intros c y c' [= _ <-].
Qed.
Lemma calming_VarDecl room names fuel x type init storage : simple_opt room names init = true →
  calming false (VisitVarDecl (Visit fuel) x type init storage).
Proof.
  intros Hi. apply calming_bind; [by eapply calming_simple_opt|intros _]. apply calming_bind; [soothe|intros i].
  intros g u g' Hg (g0 & ? & [= <- <-] & E)%st_bind_Ok. revert E.
  rewrite bool_decide_eq_false_2; [|pose proof (us_depth g Hg); lia]. cbn [andb].
  intros (u1 & g1 & [= <- <-] & E)%st_bind_Ok. by eapply calming_record_types.
Qed.
Lemma calming_VisitIf b (c m : gen unit) e : calming b c → calming b m → (∀ m', e = Some m' → calming b m') →
  calming b (VisitIf (@on_chunk) c m e).
Proof.
  intros Hc Hm He. unfold VisitIf. apply calming_bind; [done|intros _]. apply calming_bind; [soothe|intros j].
  apply calming_bind; [done|intros _]. destruct e as [m'|]; [|soothe]. specialize (He m' eq_refl).
  soothe.
Qed.
Lemma calming_VisitWhile b (c m : gen unit) : calming b c → calming b m → calming b (VisitWhile (@on_chunk) c m).
Proof.
  intros Hc Hm. unfold VisitWhile. apply calming_bind; [|intros k; soothe]. apply calming_on_chunk. by intros k a k' [= _ <-].
Qed.

(** The cases of a statement in a block. *)
Inductive block_case (sub : nat → list string → Node → bool) (room : nat) (names : list string) : Node → list Node → Prop :=
  | case_null l : simple_block sub room names l = true → block_case sub room names NullNode l
  | case_var x type init isConst storage l :
      length names < 255 → simple_opt room names init = true → simple_block sub (room - 1) (x :: names) l = true →
      block_case sub room names (VarDeclNode x type init isConst storage) l
  | case_assign x m v l :
      x ∈ names → simple_expr room names v = true → simple_block sub room names l = true →
      block_case sub room names (AssignmentNode x NullNode m NullNode v NullNode) l
  | case_expr e l :
      ShouldPopStatementResult e = true → is_var_decl e = false → is_null e = false →
      simple_expr room names e = true → simple_block sub room names l = true → block_case sub room names e l
  | case_closed s l :
      is_null s = false → is_var_decl s = false → ShouldPopStatementResult s = false →
      sub room names s = true → simple_block sub room names l = true → block_case sub room names s l.

Lemma simple_block_cases room names s l : simple_block simple room names (s :: l) = true → block_case simple room names s l.
Proof.
  destruct s; try (intros H; by constructor).
  8: { destruct s1; try done. destruct s2; try done. destruct s4; try done. cbn.
       rewrite !andb_true_iff bool_decide_eq_true. intros [[? ?] ?]. by constructor. }
  all: cbn [simple_block]; intros [H Hl]%andb_prop.
  all: try (apply orb_prop in H as [[Hs H]%andb_prop|H]; first [done|by apply case_expr|by apply case_closed]).
  apply andb_prop in H as [Hn%Nat.ltb_lt Hi]. by constructor.
Qed.

(** The loop of a block, one statement at a time. *)
Lemma visit_statements_cons visit s l vars : is_null s = false →
  visit_statements visit (s :: l) vars =
    (let vars := if is_var_decl s then ((vars + 1) mod 2 ^ 8)%Z else vars in
     _ ← visit s; _ ← (if ShouldPopStatementResult s then write OP_POP else mret tt); visit_statements visit l vars).
Proof. intros Hn. cbn [visit_statements]. by rewrite Hn. Qed.

Lemma calming_visit_statements fuel :
  (∀ room names s, simple room names s = true → calming true (Visit fuel s)) →
  ∀ l room names vars, simple_block simple room names l = true → calming false (visit_statements (Visit fuel) l vars).
Proof.
  intros Hs l. induction l as [|s l IH]; intros room names vars H; [soothe|].
  destruct (simple_block_cases _ _ _ _ H) as [l Hl|x type init c storage l _ Hi Hl|x m v l _ Hv Hl|e l Hp Hd Hn He Hl|s l Hn Hd Hp Hc Hl].
  - by eapply IH.
  - cbn. apply calming_bind; [|intros _; apply calming_bind; [soothe|intros _; by eapply IH]].
    destruct fuel; [done|]. cbn [Generator.Visit dispatch]. by eapply calming_VarDecl.
  - cbn. apply calming_bind; [|intros _; apply calming_bind; [soothe|intros _; by eapply IH]].
    destruct fuel; [done|]. cbn [Generator.Visit dispatch]. by eapply calming_assignment.
  - rewrite visit_statements_cons // Hp Hd. apply calming_bind; [by eapply calming_simple_expr|intros _].
    apply calming_bind; [soothe|intros _; by eapply IH].
  - rewrite visit_statements_cons // Hp Hd. apply calming_bind; [by eapply calming_true, Hs|intros _].
    apply calming_bind; [soothe|intros _; by eapply IH].
Qed.

Lemma anywhere_block_code fuel l : anywhere (block_code (Visit fuel) l).
Proof. intros g0. pose proof (ext_visit_statements (Visit fuel) (λ n g, ext_Visit interpret fuel n g)). unfold block_code. grow. Qed.

Lemma calming_simple fuel : ∀ room names s, simple room names s = true → calming true (Visit fuel s).
Proof.
  induction fuel as [|fuel IH]; [done|]. intros room names s H. destruct s; try done; cbn [Generator.Visit dispatch].
  - cbn in H. apply bool_decide_eq_true in H. unfold constant_names in H.
    do 3 (case_decide; [subst; set_solver|]). soothe.
  - apply calming_scoped; [apply anywhere_block_code|]. unfold block_code.
    apply calming_bind; [by eapply calming_visit_statements|intros n; soothe].
  - cbn in H. apply andb_prop in H as [[Hc Ht]%andb_prop He].
    apply calming_VisitIf; [by eapply calming_simple_expr|by eapply IH|]. intros m.
    destruct (is_null s3); [done|]. intros [= <-]. by eapply IH.
  - cbn in H. apply andb_prop in H as [Hc Hb]. apply calming_VisitWhile; [by eapply calming_simple_expr|by eapply IH].
  - by eapply calming_VisitReturn.
Qed.
End visit.

(** ** The place of the code

    [here g] is where the next instruction goes.  The code of [g'] behind that
    of [g] is at that place in [C]. *)

Definition at_place (C : list Z) (i : nat) (bytes : list Z) : Prop := i ≤ length C ∧ bytes `prefix_of` drop i C.
Definition placed (C : list Z) (g g' : t) : Prop := ∃ bytes, gcode g' = gcode g ++ bytes ∧ at_place C (here g) bytes.

Lemma at_place_app C i a b : at_place C i (a ++ b) ↔ at_place C i a ∧ at_place C (i + length a) b.
Proof.
  unfold at_place. rewrite -drop_drop. split.
  - intros [Hi [post E]]. rewrite E. assert (length a ≤ length (drop i C)) by (rewrite E !length_app; lia).
    rewrite length_drop in H. split; [split; [done|]|split; [lia|]].
    + exists (b ++ post). by rewrite app_assoc.
    + exists post. rewrite -app_assoc drop_app_length //.
  - intros [[Hi [post E]] [_ [post' E']]]. split; [done|]. exists post'. rewrite E drop_app_length in E'. by rewrite E E' app_assoc.
Qed.
Lemma at_place_le C i bytes : at_place C i bytes → i + length bytes ≤ length C.
Proof. intros [Hi Hb%prefix_length]. rewrite length_drop in Hb. lia. Qed.

Lemma fetch_at_place C i op w : named op → uint16 w → at_place C i (to_byte op :: operand_bytes op w) →
  fetch C i = Ok (Fetched (kept (MkInstruction op w)) (i + S (length (operand_bytes op w)))).
Proof.
  intros Hop Hw [Hi [post E]]. pose proof (fetch_operands (take i C) op w post Hop Hw) as H.
  by rewrite -E take_drop length_take_le in H.
Qed.

Lemma placed_trans C g g1 g' : gcode g `prefix_of` gcode g1 → gcode g1 `prefix_of` gcode g' →
  placed C g g' → placed C g g1 ∧ placed C g1 g'.
Proof.
  intros [b1 E1] [b2 E2] (b & E & Hb). rewrite E1 -app_assoc in E2.
  assert (b = b1 ++ b2) as -> by (apply (app_inv_head (gcode g)); congruence). apply at_place_app in Hb as [H1 H2].
  split; [by exists b1|]. exists b2. split; [by rewrite E1 -app_assoc|]. unfold here. by rewrite E1 length_app.
Qed.

(** *** Single instructions *)

Lemma placed_code C g g' bytes : gcode g' = gcode g ++ bytes → placed C g g' →
  at_place C (here g) bytes ∧ here g' = here g + length bytes.
Proof.
  intros E (bytes' & E' & H). rewrite E in E'. apply (app_inv_head (gcode g)) in E' as ->. split; [done|].
  unfold here. by rewrite E length_app.
Qed.

(** An instruction with its operand behind the code of [g]. *)
Lemma placed_fetch C g g' op w : named op → uint16 w →
  gcode g' = gcode g ++ to_byte op :: operand_bytes op w → placed C g g' →
  fetch C (here g) = Ok (Fetched (kept (MkInstruction op w)) (here g')).
Proof. intros Hop Hw E Hp. destruct (placed_code _ _ _ _ E Hp) as [Ha ->]. by apply fetch_at_place. Qed.

Lemma write_Ok op g u g' : write op g = Ok (u, g') →
  gcode g' = gcode g ++ [to_byte op] ∧ gconsts g' = gconsts g ∧ gsyms g' = gsyms g.
Proof. by intros ([= _ <-] & -> & _)%on_chunk_Ok. Qed.
Lemma write_fetch C op g u g' : named op → GetOperandSize op = None_ → write op g = Ok (u, g') → placed C g g' →
  fetch C (here g) = Ok (Fetched (MkInstruction op 0) (here g')).
Proof.
  intros Hop Hs (E & _)%write_Ok Hp. pose proof (placed_fetch C g g' op 0 Hop) as H. unfold operand_bytes, kept in H.
  cbn [opcode operand] in H. rewrite Hs in H. apply H; [unfold uint16; lia|done|done].
Qed.

Lemma write_byte_Ok op b g u g' : write_byte op b g = Ok (u, g') →
  gcode g' = gcode g ++ [to_byte op; (b mod 2 ^ 8)%Z] ∧ gconsts g' = gconsts g ∧ gsyms g' = gsyms g.
Proof.
  intros (u1 & g1 & ([= _ E1] & S1 & _)%on_chunk_Ok & ([= _ E2] & S2 & _)%on_chunk_Ok)%st_bind_Ok.
  rewrite -E2 -E1 S2 S1. cbn. by rewrite -app_assoc.
Qed.
Lemma byte_fetch C op b g g' : named op → GetOperandSize op = Uint8 → (0 ≤ b < 2 ^ 8)%Z →
  gcode g' = gcode g ++ [to_byte op; (b mod 2 ^ 8)%Z] → placed C g g' →
  fetch C (here g) = Ok (Fetched (MkInstruction op b) (here g')).
Proof.
  intros Hop Hs Hb E Hp. pose proof (placed_fetch C g g' op b Hop) as H. unfold operand_bytes, kept in H.
  cbn [opcode operand] in H. rewrite Hs in H. rewrite (Z.mod_small b 256) in H; [|lia].
  apply H; [unfold uint16; lia| |done]. rewrite low_byte_mod. done.
Qed.
Lemma write_byte_fetch C op b g u g' : named op → GetOperandSize op = Uint8 → (0 ≤ b < 2 ^ 8)%Z →
  write_byte op b g = Ok (u, g') → placed C g g' → fetch C (here g) = Ok (Fetched (MkInstruction op b) (here g')).
Proof. intros Hop Hs Hb (E & _)%write_byte_Ok. by apply byte_fetch. Qed.

Lemma write_constant_Ok v g u g' : write_constant v g = Ok (u, g') → gsyms g' = gsyms g ∧ gconsts g `prefix_of` gconsts g' ∧
  ∃ i k, AddConstant v (gchunk g) = Ok (i, k) ∧ gconsts g' = constants k
    ∧ gcode g' = gcode g ++ to_byte OP_CONSTANT :: operand_bytes OP_CONSTANT i.
Proof.
  intros ((i & k & Ek & (u1 & k1 & [= _ <-] & E2)%st_bind_Ok)%st_bind_Ok & -> & _)%on_chunk_Ok.
  destruct (AddConstant_index _ _ _ _ Ek) as (Ec & Hp & _). unfold WriteOperand in E2. injection E2 as _ <-. cbn.
  split_and!; [done|done|]. exists i, k. split_and!; [done|done|]. by rewrite Ec -app_assoc.
Qed.

(** The constants of the function in the end. *)
Section pool.
Context (K : list Value) (HK : (Z.of_nat (length K) ≤ 2 ^ 16)%Z) (Hlit : Forall literal K).

Lemma write_constant_fetch C v g u g' : literal v → gconsts g' `prefix_of` K →
  write_constant v g = Ok (u, g') → placed C g g' →
  ∃ n, fetch C (here g) = Ok (Fetched (MkInstruction OP_CONSTANT (Z.of_nat n)) (here g')) ∧ K !! n = Some v.
Proof.
  intros Hv Hp (_ & _ & i & k & Ea & Ek & E)%write_constant_Ok Hpl. rewrite Ek in Hp.
  destruct (AddConstant_index _ _ _ _ Ea) as (_ & _ & _ & Hn). destruct Hp as [rest EK].
  pose proof Hlit as Hl. pose proof HK as HK'. rewrite EK in Hl, HK'. apply Forall_app in Hl as [Hl _]. rewrite length_app in HK'.
  destruct Hn as (n & -> & Hlt & Hn); [lia|done|done|].
  exists n. split; [|rewrite EK; by apply lookup_app_l_Some]. apply (placed_fetch C g g' OP_CONSTANT (Z.of_nat n)); [done|unfold uint16; lia|done..].
Qed.
End pool.

Lemma EmitBinaryOp_Ok op g u g' : op ∈ binary_operators → on_chunk (EmitBinaryOp op) g = Ok (u, g') →
  ∃ code, (op, code) ∈ binary_table ∧ named code ∧ GetOperandSize code = None_ ∧ write code g = Ok (u, g').
Proof.
  intros ([op' code] & -> & Hop)%list_elem_of_fmap E. exists code. cbn in E.
  assert (H : named code ∧ GetOperandSize code = None_ ∧ EmitBinaryOp op' = Write code).
  { revert Hop. unfold binary_table. intros Hop. repeat (apply elem_of_cons in Hop as [[= -> ->]|Hop]; [done|]).
    by apply elem_of_nil in Hop. }
  destruct H as (Hn & Hs & H). split_and!; try done. unfold write. by rewrite -H.
Qed.

(** *** Conditionals and loops *)

Lemma EmitJump_Ok op g j g' : on_chunk (EmitJump op) g = Ok (j, g') →
  j = here g + 1 ∧ gcode g' = gcode g ++ [to_byte op; 0xff%Z; 0xff%Z] ∧ gconsts g' = gconsts g ∧ gsyms g' = gsyms g.
Proof. intros (E & -> & _)%on_chunk_Ok. rewrite EmitJump_run in E. by injection E as <- <-. Qed.

(** The placeholder of a jump behind [pre] is filled with the distance over
    [rest]. *)
Lemma PatchJump_Ok g u g' pre op rest : gcode g = pre ++ [to_byte op; 0xff%Z; 0xff%Z] ++ rest →
  on_chunk (PatchJump (length pre + 1)) g = Ok (u, g') → GetOperandSize op = Uint16 →
  gcode g' = pre ++ jump_bytes op (Z.of_nat (length rest)) ++ rest ∧ gconsts g' = gconsts g ∧ gsyms g' = gsyms g.
Proof.
  intros Ec (E & -> & _)%on_chunk_Ok Hs. destruct (gchunk g) as [bytes k d] eqn:Eg. cbn in Ec. subst bytes.
  pose proof (PatchJump_run (pre ++ [to_byte op]) 0xff%Z 0xff%Z rest k d) as H. rewrite length_app -!app_assoc /= in H.
  cbn in E. rewrite H in E. injection E as _ <-. unfold jump_bytes, operand_bytes. rewrite Hs. cbn. by rewrite -?app_assoc.
Qed.

(** Only the code changes. *)
Definition coded (g g' : t) : Prop := gsyms g' = gsyms g ∧ gconsts g' = gconsts g ∧ (usual g → usual g').

Lemma EmitJump_coded op g j g' : on_chunk (EmitJump op) g = Ok (j, g') → usual g →
  coded g g' ∧ j = here g + 1 ∧ gcode g' = gcode g ++ [to_byte op; 0xff%Z; 0xff%Z] ∧ here g' = here g + 3.
Proof.
  intros E Hg. destruct (EmitJump_Ok _ _ _ _ E) as (-> & Ec & Ek & Es). split; [split_and!; try done|].
  - intros _. by apply on_chunk_Ok in E as (_ & _ & H); apply H.
  - unfold here. by rewrite Ec length_app.
Qed.
Lemma PatchJump_coded g u g' pre op rest : gcode g = pre ++ [to_byte op; 0xff%Z; 0xff%Z] ++ rest →
  GetOperandSize op = Uint16 → on_chunk (PatchJump (length pre + 1)) g = Ok (u, g') →
  coded g g' ∧ gcode g' = pre ++ jump_bytes op (Z.of_nat (length rest)) ++ rest ∧ here g' = here g.
Proof.
  intros Ec Hs E. destruct (PatchJump_Ok _ _ _ _ _ _ Ec E Hs) as (Ec' & Ek & Es). split; [split_and!; try done|].
  - by apply on_chunk_Ok in E as (_ & _ & H).
  - split; [done|]. unfold here. rewrite Ec' Ec. unfold jump_bytes, operand_bytes. rewrite Hs. by rewrite !length_app.
Qed.
Lemma EmitLoop_coded start g u g' : start ≤ here g → on_chunk (EmitLoop start) g = Ok (u, g') →
  coded g g' ∧ gcode g' = gcode g ++ jump_bytes OP_LOOP (Z.of_nat (here g - start + 3)) ∧ here g' = here g + 3.
Proof.
  intros Hl (E & Es & Hu)%on_chunk_Ok. destruct (gchunk g) as [bytes k d] eqn:Eg. unfold here in *. rewrite Eg in Hl |- *.
  cbn in Hl. pose proof (EmitLoop_run (take start bytes) (drop start bytes) k d) as H.
  rewrite take_drop length_take_le // length_drop in H. rewrite H in E. injection E as _ E.
  assert (Ec : gcode g' = bytes ++ jump_bytes OP_LOOP (Z.of_nat (length bytes - start + 3))).
  { rewrite -E. cbn. rewrite app_assoc take_drop. unfold jump_bytes. by rewrite Nat2Z.inj_add. }
  split; [split_and!; [done|by rewrite -E Eg|done]|]. split; [done|]. rewrite Ec length_app. done.
Qed.

Section layout.
Context (cond body : gen unit) (Hcond : anywhere cond) (Hbody : anywhere body).

Lemma anywhere_code {A} (m : gen A) g u g' : anywhere m → usual g → m g = Ok (u, g') →
  usual g' ∧ ∃ bytes, gcode g' = gcode g ++ bytes ∧ here g' = here g + length bytes.
Proof.
  intros Hm Hg E. assert (H : grown g g') by (eapply anywhere_run; [exact Hm|by apply usual_not_empty|exact E]).
  split; [by eapply usual_grown|]. destruct (prefix_grown g g' (usual_not_empty g Hg) H) as [[bytes Eb] _].
  exists bytes. split; [done|]. unfold here. by rewrite Eb length_app.
Qed.

(** The common part: the condition, the jump over the body, the body. *)
Lemma test_layout g u1 g1 j g2 u3 g3 : usual g →
  cond g = Ok (u1, g1) → on_chunk (EmitJump OP_JUMP_IF_FALSE) g1 = Ok (j, g2) → body g2 = Ok (u3, g3) →
  ∃ bc bb, usual g1 ∧ coded g1 g2 ∧ usual g3 ∧ j = here g1 + 1 ∧ here g1 = here g + length bc ∧ here g2 = here g1 + 3
    ∧ here g3 = here g2 + length bb ∧ gcode g1 = gcode g ++ bc
    ∧ gcode g3 = gcode g1 ++ [to_byte OP_JUMP_IF_FALSE; 0xff%Z; 0xff%Z] ++ bb ∧ gcode g3 = gcode g2 ++ bb.
Proof.
  intros Hg E1 E2 E3. destruct (anywhere_code _ _ _ _ Hcond Hg E1) as (H1 & bc & Ec1 & Eh1).
  destruct (EmitJump_coded _ _ _ _ E2 H1) as (Hc & -> & Ec2 & Eh2). assert (H2 : usual g2) by by apply Hc.
  destruct (anywhere_code _ _ _ _ Hbody H2 E3) as (H3 & bb & Ec3 & Eh3).
  exists bc, bb. split_and!; try done. by rewrite Ec3 Ec2 -app_assoc.
Qed.

(** Splitting the code of a statement at a known place. *)
Lemma placed_parts C g g' g1 bc rest : gcode g1 = gcode g ++ bc → gcode g' = gcode g ++ bc ++ rest → placed C g g' →
  placed C g g1 ∧ at_place C (here g1) rest.
Proof.
  intros E1 E (b & Eb & Hb). rewrite E in Eb. apply (app_inv_head (gcode g)) in Eb as <-. apply at_place_app in Hb as [Ha Hr].
  split; [by exists bc|]. unfold here. by rewrite E1 length_app.
Qed.
Lemma placed_at C g g' bytes : gcode g' = gcode g ++ bytes → at_place C (here g) bytes → placed C g g'.
Proof. intros E H. by exists bytes. Qed.

Lemma if_layout g u g' : usual g → VisitIf (@on_chunk) cond body None g = Ok (u, g') →
  ∃ g1 g2 g3, cond g = Ok (tt, g1) ∧ body g2 = Ok (tt, g3) ∧ coded g1 g2 ∧ coded g3 g' ∧ usual g1 ∧ usual g3
    ∧ here g2 = here g1 + 3 ∧ here g' = here g3
    ∧ ∀ C, placed C g g' → placed C g g1 ∧ placed C g2 g3
        ∧ at_place C (here g1) (jump_bytes OP_JUMP_IF_FALSE (Z.of_nat (here g3 - here g2))).
Proof.
  intros Hg ([] & g1 & E1 & (j & g2 & E2 & ([] & g3 & E3 & E4)%st_bind_Ok)%st_bind_Ok)%st_bind_Ok.
  destruct (test_layout _ _ _ _ _ _ _ Hg E1 E2 E3) as (bc & bb & H1 & Hc12 & H3 & -> & Eh1 & Eh2 & Eh3 & Ec1 & Ec3 & Ec3').
  destruct (PatchJump_coded g3 _ _ (gcode g1) OP_JUMP_IF_FALSE bb Ec3 eq_refl E4) as (Hc34 & Ec' & Eh').
  exists g1, g2, g3. split_and!; try done. intros C Hp.
  rewrite Ec1 -app_assoc in Ec'. destruct (placed_parts C g g' g1 bc _ Ec1 Ec' Hp) as [Hp1 [Hj Hb]%at_place_app].
  split_and!; [done| |].
  - eapply placed_at; [exact Ec3'|]. rewrite Eh2. exact Hb.
  - by rewrite Eh3 Nat.add_comm Nat.add_sub.
Qed.

Lemma if_else_layout (other : gen unit) g u g' : anywhere other → usual g →
  VisitIf (@on_chunk) cond body (Some other) g = Ok (u, g') →
  ∃ g1 g2 g3 g5 g6, cond g = Ok (tt, g1) ∧ body g2 = Ok (tt, g3) ∧ other g5 = Ok (tt, g6)
    ∧ coded g1 g2 ∧ coded g3 g5 ∧ coded g6 g' ∧ usual g1 ∧ usual g3 ∧ usual g6
    ∧ here g2 = here g1 + 3 ∧ here g5 = here g3 + 3 ∧ here g' = here g6
    ∧ ∀ C, placed C g g' → placed C g g1 ∧ placed C g2 g3 ∧ placed C g5 g6
        ∧ at_place C (here g1) (jump_bytes OP_JUMP_IF_FALSE (Z.of_nat (here g5 - here g2)))
        ∧ at_place C (here g3) (jump_bytes OP_JUMP (Z.of_nat (here g6 - here g5))).
Proof.
  intros Hother Hg ([] & g1 & E1 & (j & g2 & E2 & ([] & g3 & E3 & E)%st_bind_Ok)%st_bind_Ok)%st_bind_Ok.
  apply st_bind_Ok in E as (j' & g4 & E4 & ([] & g5 & E5 & ([] & g6 & E6 & E7)%st_bind_Ok)%st_bind_Ok).
  destruct (test_layout _ _ _ _ _ _ _ Hg E1 E2 E3) as (bc & bb & H1 & Hc12 & H3 & -> & Eh1 & Eh2 & Eh3 & Ec1 & Ec3 & Ec3').
  destruct (EmitJump_coded _ _ _ _ E4 H3) as (Hc34 & -> & Ec4 & Eh4). rewrite Ec3 -!app_assoc in Ec4.
  destruct (PatchJump_coded g4 _ _ (gcode g1) OP_JUMP_IF_FALSE (bb ++ [to_byte OP_JUMP; 0xff%Z; 0xff%Z]) Ec4 eq_refl E5)
    as (Hc45 & Ec5 & Eh5).
  assert (Hc35 : coded g3 g5).
  { destruct Hc34 as (? & ? & ?), Hc45 as (? & ? & ?). split_and!; [congruence|congruence|auto]. }
  assert (H5 : usual g5) by by apply Hc35. destruct (anywhere_code _ _ _ _ Hother H5 E6) as (H6 & be & Ec6 & Eh6).
  set (pre := gcode g1 ++ jump_bytes OP_JUMP_IF_FALSE (Z.of_nat (length (bb ++ [to_byte OP_JUMP; 0xff%Z; 0xff%Z]))) ++ bb).
  assert (Ec6' : gcode g6 = pre ++ [to_byte OP_JUMP; 0xff%Z; 0xff%Z] ++ be) by (rewrite Ec6 Ec5 /pre -!app_assoc //).
  assert (Hpre : length pre = here g3).
  { unfold pre, here. rewrite Ec3 !length_app. unfold jump_bytes, operand_bytes. cbn. lia. }
  rewrite -Hpre in E7. destruct (PatchJump_coded g6 _ _ pre OP_JUMP be Ec6' eq_refl E7) as (Hc67 & Ec' & Eh').
  exists g1, g2, g3, g5, g6. split_and!; try done; [lia|]. intros C Hp. unfold pre in Ec'. rewrite Ec1 -!app_assoc in Ec'.
  destruct (placed_parts C g g' g1 bc _ Ec1 Ec' Hp) as [Hp1 [Hj [Hb [Hj' Hbe]%at_place_app]%at_place_app]%at_place_app].
  change (length (jump_bytes _ _)) with 3 in Hb, Hj', Hbe. rewrite -Eh2 in Hb Hj' Hbe. rewrite -Eh3 in Hj' Hbe.
  split_and!; [done|by eapply placed_at| | |].
  - eapply placed_at; [exact Ec6|]. by rewrite Eh5 Eh4.
  - rewrite (_ : here g5 - here g2 = length (bb ++ [to_byte OP_JUMP; 0xff%Z; 0xff%Z])) //. rewrite length_app /=. lia.
  - by rewrite Eh6 Nat.add_comm Nat.add_sub.
Qed.

Lemma while_layout g u g' : usual g → VisitWhile (@on_chunk) cond body g = Ok (u, g') →
  ∃ g1 g2 g3, cond g = Ok (tt, g1) ∧ body g2 = Ok (tt, g3) ∧ coded g1 g2 ∧ coded g3 g' ∧ usual g1 ∧ usual g3
    ∧ here g2 = here g1 + 3 ∧ here g' = here g3 + 3 ∧ here g ≤ here g3
    ∧ ∀ C, placed C g g' → placed C g g1 ∧ placed C g2 g3
        ∧ at_place C (here g1) (jump_bytes OP_JUMP_IF_FALSE (Z.of_nat (here g' - here g2)))
        ∧ at_place C (here g3) (jump_bytes OP_LOOP (Z.of_nat (here g' - here g))).
Proof.
  intros Hg (k0 & g0 & E0 & ([] & g1 & E1 & (j & g2 & E2 & ([] & g3 & E3 & E)%st_bind_Ok)%st_bind_Ok)%st_bind_Ok)%st_bind_Ok.
  assert (g0 = g ∧ k0 = gchunk g) as [-> ->].
  { apply on_context_Ok in E0 as (c & cs & c' & Ec & E' & ->). injection E' as <- <-. unfold gchunk. rewrite Ec. split; [|done].
    destruct g. cbn in Ec. subst. by destruct c as [[] ? ? ? ? ? ? ? ? ? ? ?]. }
  apply st_bind_Ok in E as ([] & g4 & E4 & E5). change (length (gcode g)) with (here g) in E4.
  destruct (test_layout _ _ _ _ _ _ _ Hg E1 E2 E3) as (bc & bb & H1 & Hc12 & H3 & -> & Eh1 & Eh2 & Eh3 & Ec1 & Ec3 & Ec3').
  destruct (EmitLoop_coded (here g) g3 _ _ ltac:(lia) E4) as (Hc34 & Ec4 & Eh4). rewrite Ec3 -!app_assoc in Ec4.
  set (loop := jump_bytes OP_LOOP _) in Ec4.
  destruct (PatchJump_coded g4 _ _ (gcode g1) OP_JUMP_IF_FALSE (bb ++ loop) Ec4 eq_refl E5) as (Hc45 & Ec' & Eh').
  exists g1, g2, g3. split_and!; try done; [|lia..|].
  { destruct Hc34 as (? & ? & ?), Hc45 as (? & ? & ?). split_and!; [congruence|congruence|auto]. }
  intros C Hp. rewrite Ec1 -!app_assoc in Ec'.
  destruct (placed_parts C g g' g1 bc _ Ec1 Ec' Hp) as [Hp1 [Hj [Hb Hl]%at_place_app]%at_place_app].
  change (length (jump_bytes _ _)) with 3 in Hb, Hl. rewrite -Eh2 in Hb Hl. rewrite -Eh3 in Hl.
  split_and!; [done|by eapply placed_at| |].
  - rewrite (_ : here g' - here g2 = length (bb ++ loop)) //. rewrite length_app. change (length loop) with 3. lia.
  - unfold loop in Hl. rewrite (_ : here g' - here g = here g3 - here g + 3) //. lia.
Qed.
End layout.

(** *** Computations without code *)

Definition still {A} (m : gen A) : Prop := ∀ g a g', m g = Ok (a, g') → gchunk g' = gchunk g.

Lemma still_bind {A B} (m : gen A) (k : A → gen B) : still m → (∀ a, still (k a)) → still (m ≫= k).
Proof. intros Hm Hk g b g' (a & g1 & E & E')%st_bind_Ok. by rewrite (Hk _ _ _ _ E') (Hm _ _ _ E). Qed.
Lemma still_quiet {A} (m : gen A) : quiet m → still m.
Proof. intros Hm g a g' E. destruct (Hm _ _ _ E) as [Ec _]. unfold gchunk. by rewrite Ec. Qed.
Lemma still_modify_context f : (∀ c, function (f c) = function c) → still (modify_context f).
Proof. intros Hf g a g' (c & cs & c' & E & [= _ <-] & ->)%on_context_Ok. unfold gchunk. cbn. by rewrite E Hf. Qed.
Lemma still_bind_opt {A} (bind : string → A → FunctionContext → FunctionContext) name type :
  (∀ n a c, function (bind n a c) = function c) → still (bind_opt bind name type).
Proof. intros Hb. destruct type; [by apply still_modify_context|by apply still_quiet, quiet_ret]. Qed.
Lemma still_record_types name type initializer : still (record_types name type initializer).
Proof.
  unfold record_types. repeat (lazymatch goal with |- still (_ ≫= _) => apply still_bind; [|intros ?] end);
    first [ by apply still_bind_opt
          | apply still_quiet; first [solve [eauto with gen]|apply quiet_variable_type; eauto with gen
                                     |apply quiet_variable_enum|apply quiet_variable_interface] ].
Qed.

Lemma CurrentContext_Ok g c g' : CurrentContext g = Ok (c, g') → g' = g ∧ head (m_contexts g) = Some c.
Proof. intros (c1 & cs & c' & E & [= <- <-] & ->)%on_context_Ok. rewrite E. split; [|done]. by rewrite -E; destruct g. Qed.
Lemma no_self_field name g i g' : usual g → ResolveSelfFieldIndex name g = Ok (i, g') → i = None ∧ g' = g.
Proof.
  intros Hg (c & g1 & [-> Hc]%CurrentContext_Ok & E)%st_bind_Ok. destruct (us_self g Hg c Hc) as [H1 H2].
  apply st_bind_Ok in E as (g2 & ? & [= <- <-] & E). rewrite H1 H2 in E. by injection E as <- <-.
Qed.

Lemma define_local_Ok x g i g' : define_local x g = Ok (i, g') → ∃ s,
  SymbolTable.Define x (gsyms g) = Ok (i, s) ∧ gsyms g' = s ∧ gconsts g' = gconsts g
  ∧ gcode g' = gcode g ++ [to_byte OP_SET_LOCAL; (i mod 2 ^ 8)%Z].
Proof.
  intros (j & g1 & E1 & (u & g2 & (Ec & Ek & Es)%write_byte_Ok & [= -> ->])%st_bind_Ok)%st_bind_Ok.
  apply on_context_Ok in E1 as (c & cs & c' & E & ([j' s] & Ed & [= <- <-])%result_bind_Ok & ->).
  exists s. unfold gsyms, gchunk in *. rewrite E. by rewrite Es Ek Ec.
Qed.
