(* ===== verification/CompileSpec.v ===== *)
(** * The compiled code does what the evaluator says

    For the simple programs of [GeneratorRun]: the code that the visitors of
    the bytecode generator emit for a function, run by the virtual machine,
    gives the result that the evaluator of compile-time expressions gives for
    the body of the function.  The variables of the evaluator, in nested maps,
    are the values above the base of the frame; the symbol table says where. *)

From S2P Require Import Prelude SyncRuntime Transactions Value Bytecode BytecodeSpec Execution Support DataOps Machine MachineSpec MachineRun.
From S2P Require Import Ast SymbolTable TypeNames GenState Resolver Generator GeneratorSpec GeneratorRun Comptime.
From Stdlib Require Import Lia SpecFloat.

Import Value Bytecode Ast GenState Resolver Generator.

(** ** Variables *)

(** The value of a name defined in the scope [ns], above [base] others. *)
Fixpoint env (bs : list (gmap string Value)) (names : list (list string)) (stk : list Value) : Prop :=
  match bs, names with
  | [], _ => concat names = []
  | b :: bs, ns :: names =>
      (∀ x, b !! x = SymbolTable.slot x ns ≫= λ p, stk !! (p + length (concat names))) ∧ env bs names stk
  | _ :: _, [] => False
  end.

Lemma env_find x stk : ∀ bs names, env bs names stk → length (concat names) ≤ length stk →
  Comptime.find_binding x bs = SymbolTable.slot x (concat names) ≫= λ p, stk !! p.
Proof.
  induction bs as [|b bs IH]; intros names H Hl; [cbn in H; by rewrite H|].
  destruct names as [|ns names]; [done|]. destruct H as [Hb H]. cbn in Hl |- *. rewrite length_app in Hl.
  rewrite SymbolTable.slot_app Hb. destruct (SymbolTable.slot x ns) as [p|] eqn:Hp; cbn.
  - apply SymbolTable.slot_lt in Hp. destruct (lookup_lt_is_Some_2 stk (p + length (concat names))) as [v ->]; [lia|done].
  - apply IH; [done|lia].
Qed.

Lemma env_prefix stk stk' : ∀ bs names, env bs names stk →
  (∀ p, p < length (concat names) → stk' !! p = stk !! p) → env bs names stk'.
Proof.
  induction bs as [|b bs IH]; intros [|ns names] H Hs; try done. destruct H as [Hb H]. cbn in Hs. rewrite length_app in Hs.
  split; [|by apply IH; [|intros p Hp; apply Hs; lia]]. intros x. rewrite Hb.
  destruct (SymbolTable.slot x ns) as [p|] eqn:Hp; [|done]. cbn. apply SymbolTable.slot_lt in Hp. symmetry. apply Hs. lia.
Qed.

(** A new variable on top of the stack. *)
Lemma env_bind b bs ns names stk x v :
  env (b :: bs) (ns :: names) stk → length stk = length (concat (ns :: names)) →
  env (<[x := v]> b :: bs) ((x :: ns) :: names) (stk ++ [v]).
Proof.
  intros [Hb H] Hl. cbn in Hl. rewrite length_app in Hl. split.
  - intros y. cbn. case_decide as Hxy.
    + subst. rewrite lookup_insert_eq. cbn. by rewrite -Hl list_lookup_middle.
    + rewrite lookup_insert_ne // Hb. destruct (SymbolTable.slot y ns) as [p|] eqn:Hp; [|done]. cbn.
      apply SymbolTable.slot_lt in Hp. rewrite lookup_app_l; [done|lia].
  - eapply env_prefix; [exact H|]. intros p Hp. rewrite lookup_app_l; [done|lia].
Qed.

(** The innermost binding of a name is the value in its slot. *)
Lemma env_update x v stk : ∀ bs names p, env bs names stk → length (concat names) ≤ length stk →
  SymbolTable.slot x (concat names) = Some p → env (update_innermost x v bs) names (<[p := v]> stk).
Proof.
  induction bs as [|b bs IH]; intros names p H Hl Hx; [cbn in H; by rewrite H in Hx|].
  destruct names as [|ns names]; [done|]. destruct H as [Hb H]. cbn in Hl, Hx |- *. rewrite length_app in Hl.
  rewrite SymbolTable.slot_app in Hx. rewrite Hb. destruct (SymbolTable.slot x ns) as [q|] eqn:Hq; cbn.
  - injection Hx as <-. pose proof (SymbolTable.slot_lt _ _ _ Hq) as Hlt.
    destruct (lookup_lt_is_Some_2 stk (q + length (concat names))) as [w ->]; [lia|]. split.
    + intros y. destruct (decide (x = y)) as [<-|Hxy].
      * rewrite lookup_insert_eq Hq. cbn. rewrite list_lookup_insert_eq; [done|lia].
      * rewrite lookup_insert_ne // Hb. destruct (SymbolTable.slot y ns) as [r|] eqn:Hr; [|done]. cbn.
        rewrite list_lookup_insert_ne //. intros E. apply Hxy. eapply (SymbolTable.slot_inj x y ns q); [done|].
        rewrite Hr. f_equal. lia.
    + eapply env_prefix; [exact H|]. intros r Hr. rewrite list_lookup_insert_ne //. lia.
  - pose proof (SymbolTable.slot_lt _ _ _ Hx) as Hlt. split; [|by apply IH; [|lia|]]. intros y. rewrite Hb.
    destruct (SymbolTable.slot y ns) as [r|] eqn:Hr; [|done]. cbn. rewrite list_lookup_insert_ne //. lia.
Qed.

Lemma slot_elem x names : x ∈ names → ∃ p, SymbolTable.slot x names = Some p.
Proof.
  induction names as [|y names IH]; [by intros ?%elem_of_nil|]. cbn. case_decide; [by eexists|].
  intros [->|Hx]%elem_of_cons; [done|by apply IH].
Qed.

(** The evaluator, the generator and the machine agree on the variables. *)
Record fits (names : list (list string)) (bs : list (gmap string Value)) (stk : list Value) : Prop := {
  fit_env : env bs names stk;
  fit_size : length (concat names) ≤ length stk;
  fit_count : length (concat names) ≤ 255;
  fit_scalar : Forall (λ v, scalar v = true) stk;
}.

Lemma fits_push names bs stk v : fits names bs stk → scalar v = true → fits names bs (stk ++ [v]).
Proof.
  intros [He Hs Hc Hv] H. split; [|rewrite length_app; lia|done|by apply Forall_app_2; [|constructor]].
  eapply env_prefix; [exact He|]. intros p Hp. rewrite lookup_app_l; [done|lia].
Qed.
Lemma fits_lookup names bs stk x v : fits names bs stk → Comptime.find_binding x bs = Some v →
  ∃ p, SymbolTable.slot x (concat names) = Some p ∧ p < 255 ∧ stk !! p = Some v ∧ scalar v = true.
Proof.
  intros [He Hs Hc Hv]. rewrite (env_find x stk bs names) //. destruct (SymbolTable.slot x _) as [p|] eqn:Hp; [|done]. cbn.
  intros E. exists p. apply SymbolTable.slot_lt in Hp as Hlt. split_and!; [done|lia|done|]. by eapply Forall_lookup_1 in Hv.
Qed.

Lemma fits_bind ns names bs stk x v : fits (ns :: names) bs stk → bs ≠ [] → length stk = length (concat (ns :: names)) →
  length stk < 255 → scalar v = true → fits ((x :: ns) :: names) (Comptime.bind_local x v bs) (stk ++ [v]).
Proof.
  intros [He Hs Hcount Hsc] Hbs Hlen Hlt Hv. destruct bs as [|b bs]; [done|]. split.
  - by apply env_bind.
  - cbn in *. rewrite !length_app /=. rewrite length_app in Hlen. lia.
  - cbn in *. lia.
  - by apply Forall_app_2; [|constructor].
Qed.
Lemma fits_update names bs stk x v p : fits names bs stk → SymbolTable.slot x (concat names) = Some p → scalar v = true →
  fits names (update_innermost x v bs) (<[p := v]> stk).
Proof.
  intros [He Hs Hcount Hsc] Hp Hv. split; [by apply env_update|by rewrite length_insert|done|by apply Forall_insert].
Qed.
Lemma length_update x v bs : length (update_innermost (A := Value) x v bs) = length bs.
Proof. induction bs as [|b bs IH]; cbn; [done|]. destruct (b !! x); cbn; by rewrite ?IH. Qed.

Lemma fits_defined x names bs stk : fits names bs stk → x ∈ concat names →
  ∃ p w, SymbolTable.slot x (concat names) = Some p ∧ p < 255 ∧ p < length stk ∧ Comptime.find_binding x bs = Some w.
Proof.
  intros [He Hs Hcount Hsc] [p Hp]%slot_elem. apply SymbolTable.slot_lt in Hp as Hlt.
  destruct (lookup_lt_is_Some_2 stk p) as [w Hw]; [lia|]. exists p, w. rewrite (env_find x stk bs names) // Hp. cbn.
  split_and!; [done|lia|lia|done].
Qed.

(** ** Operators on values without objects *)

Lemma Negate_scalar a v : Negate a = Ok v → scalar v = true.
Proof. unfold Negate, PerformUnaryArithmetic. destruct (primitive a); [by intros [= <-]|done]. Qed.
Lemma not_scalar a v : PerformUnaryLogic a = Ok v → scalar v = true.
Proof. by intros (b & _ & [= <-])%result_bind_Ok. Qed.
Lemma eval_unary_scalar op a v : Comptime.eval_unary op a = Ok v → scalar a = true → scalar v = true.
Proof.
  unfold Comptime.eval_unary. case_decide; [intros E _; by eapply Negate_scalar|].
  case_decide; [intros E _; by eapply not_scalar|by intros [= <-]].
Qed.
Lemma arithmetic_scalar a b f v : PerformBinaryArithmetic a b f = Ok v → scalar v = true.
Proof.
  unfold PerformBinaryArithmetic. destruct (primitive a), (primitive b); try done.
  by intros (d & _ & [= <-])%result_bind_Ok.
Qed.
Lemma logic_scalar a b f v : PerformBinaryLogic a b f = Ok v → scalar v = true.
Proof. by intros (x & _ & (y & _ & [= <-])%result_bind_Ok)%result_bind_Ok. Qed.
Lemma DivideInt_scalar a b v : DivideInt a b = Ok v → scalar v = true.
Proof.
  unfold DivideInt. destruct (as_int64 a), (as_int64 b); try done. intros (y & _ & E)%result_bind_Ok.
  case_decide; [done|]. apply result_bind_Ok in E as (x & _ & E). destruct (int64_ok _); by simplify_eq.
Qed.
Lemma Modulo_scalar a b v : Modulo a b = Ok v → scalar v = true.
Proof.
  unfold Modulo. destruct (as_int64 a), (as_int64 b); try done. intros (y & _ & E)%result_bind_Ok.
  case_decide; [done|]. apply result_bind_Ok in E as (x & _ & E). destruct (int64_ok _); by simplify_eq.
Qed.
Lemma Add_is_scalar fuel h a b v : Add fuel h a b = Ok v → scalar v = true.
Proof.
  unfold Add. destruct (_ || _); [|apply arithmetic_scalar].
  by intros (x & _ & (y & _ & [= <-])%result_bind_Ok)%result_bind_Ok.
Qed.
(** A comparison is a boolean, which the virtual machine and the evaluator
    negate in the same way. *)
Lemma comparison_bool a b f : ∃ c, PerformBinaryComparison a b f = VBool c.
Proof. unfold PerformBinaryComparison. destruct (primitive a), (primitive b); by eexists. Qed.

(** The instruction of an operator computes what the evaluator does. *)
Section operators.
Context (natives : nat → Machine.NativeFunction) (others : DataOps.peers) (next : nat → Execution.vm (option Value)) (print_fuel pf : nat).

Lemma pure2_dispatch op a b v (f : Value → Value → result Value) :
  (∀ n l, Machine.Dispatch natives others (S print_fuel) next (MkInstruction op 0) n l = Machine.pure2 f) →
  f a b = Ok v → scalar v = true →
  scalar v = true ∧ ∃ f, (∀ n l, Machine.Dispatch natives others (S print_fuel) next (MkInstruction op 0) n l = Machine.pop2 f)
    ∧ ∀ s, f a b s = (s, Ok v).
Proof. intros Hd Hv Hs. split; [done|]. eexists. split; [exact Hd|]. intros s. unfold est_lift. cbn. by rewrite Hv. Qed.

Lemma binary_dispatch op code h a b v :
  (op, code) ∈ binary_table → scalar a = true → scalar b = true → Comptime.eval_binary (S pf) h op a b = Ok v →
  scalar v = true ∧ ∃ f, (∀ n l, Machine.Dispatch natives others (S print_fuel) next (MkInstruction code 0) n l = Machine.pop2 f)
    ∧ ∀ s, f a b s = (s, Ok v).
Proof.
  intros Hop Ha Hb E. unfold binary_table in Hop.
  repeat (apply elem_of_cons in Hop as [[= -> ->]|Hop]; [|]); [..|by apply elem_of_nil in Hop].
  - change (Add (S pf) h a b = Ok v) in E. split; [by eapply Add_is_scalar|]. eexists. split; [done|]. intros s. unfold mbind, est_bind, est_get, est_lift.
    f_equal. rewrite -E. by apply Add_scalar.
  - change (Subtract a b = Ok v) in E. eapply pure2_dispatch; [done|exact E|by eapply arithmetic_scalar].
  - change (Multiply a b = Ok v) in E. eapply pure2_dispatch; [done|exact E|by eapply arithmetic_scalar].
  - change (Divide a b = Ok v) in E. eapply pure2_dispatch; [done|exact E|by eapply arithmetic_scalar].
  - change (DivideInt a b = Ok v) in E. eapply pure2_dispatch; [done|exact E|by eapply DivideInt_scalar].
  - change (Modulo a b = Ok v) in E. eapply pure2_dispatch; [done|exact E|by eapply Modulo_scalar].
  - change (Ok (VBool (Equal h a b)) = Ok v) in E. injection E as <-. split; [done|]. eexists. split; [done|]. intros s.
    unfold mbind, est_bind, est_get. by rewrite (Equal_scalar _ h).
  - change (Ok (VBool (negb (Equal h a b))) = Ok v) in E. injection E as <-. split; [done|]. eexists. split; [done|]. intros s.
    unfold mbind, est_bind, est_get. by rewrite (Equal_scalar _ h).
  - change (Ok (Greater a b) = Ok v) in E. destruct (comparison_bool a b (λ a b, SFltb b a)) as [c Hc]. eapply pure2_dispatch; [done|exact E|].
    injection E as <-. unfold Greater. by rewrite Hc.
  - change (Ok (Less a b) = Ok v) in E. destruct (comparison_bool a b SFltb) as [c Hc]. eapply pure2_dispatch; [done|exact E|].
    injection E as <-. unfold Less. by rewrite Hc.
  - change (Comptime.not_comparison (Less a b) = Ok v) in E. destruct (comparison_bool a b SFltb) as [c Hc]. unfold Less in E. rewrite Hc in E. injection E as <-.
    eapply pure2_dispatch; [done| |done]. unfold Less. by rewrite Hc.
  - change (Comptime.not_comparison (Greater a b) = Ok v) in E. destruct (comparison_bool a b (λ a b, SFltb b a)) as [c Hc]. unfold Greater in E. rewrite Hc in E. injection E as <-.
    eapply pure2_dispatch; [done| |done]. unfold Greater. by rewrite Hc.
  - change (PerformBinaryLogic a b andb = Ok v) in E. eapply pure2_dispatch; [done|exact E|by eapply logic_scalar].
  - change (PerformBinaryLogic a b orb = Ok v) in E. eapply pure2_dispatch; [done|exact E|by eapply logic_scalar].
Qed.
End operators.

(** ** Expressions *)

Lemma ResolveLocal_run name g : m_contexts g ≠ [] → ResolveLocal name g = Ok (SymbolTable.Resolve name (gsyms g), g).
Proof.
  intros Hg. unfold ResolveLocal, on_context, gsyms. destruct g as [[|c cs] ? ? ? ? ? ? ? ? ? ?]; [done|].
  by destruct c as [[] ? ? ? ? ? ? ? ? ? ? ?].
Qed.
Lemma emit_variable_local a b c d x names p g : m_contexts g ≠ [] → SymbolTable.refines names (gsyms g) →
  SymbolTable.slot x (concat names) = Some p → p < 255 → emit_variable a b c d x g = write_byte a (Z.of_nat p) g.
Proof.
  intros Hg [Hm _] Hp Hlt. unfold emit_variable. rewrite (st_bind_run _ _ _ _ _ (ResolveLocal_run x g Hg)).
  unfold SymbolTable.Resolve. rewrite (SymbolTable.resolve_matches _ _ _ _ Hm) Hp. cbn.
  rewrite SymbolTable.byte_small; [done|lia].
Qed.
Lemma EmitGetVariable_local x names p g : usual g → SymbolTable.refines names (gsyms g) →
  SymbolTable.slot x (concat names) = Some p → p < 255 → EmitGetVariable x g = write_byte OP_GET_LOCAL (Z.of_nat p) g.
Proof.
  intros Hg Hn Hp Hlt. unfold EmitGetVariable.
  assert (E : asks (result_slot x) g = Ok (None, g)).
  { unfold asks, result_slot. case_decide; [|done]. by rewrite (us_slot g Hg). }
  rewrite (st_bind_run _ _ _ _ _ E). eapply emit_variable_local; [by apply usual_not_empty|done..].
Qed.

Lemma simple_expr_room room names e : simple_expr room names e = true → 1 ≤ room.
Proof.
  revert room. induction e; intros room He; try done; cbn [simple_expr] in He; rewrite ?andb_true_iff ?Nat.leb_le in He; naive_solver.
Qed.

Section simulation.
Context (natives : nat → Machine.NativeFunction) (others : DataOps.peers) (next : nat → Execution.vm (option Value)) (print_fuel pf entry : nat).
Context (interpret : heap → Chunk → result (heap * (string + Value))).
Context (σ : Execution.t) (F : Execution.CallFrame) (below : list Value).
Context (Hframe : last (Execution.m_frames σ) = Some F) (Hbase : Execution.stackBase F = length below)
        (Hentry : entry ≤ length (Execution.m_frames σ)).
Abbreviation C := (Support.code_of (Execution.function F)).
Abbreviation K := (Support.constants_of (Execution.function F)).
Context (HK : (Z.of_nat (length K) ≤ 2 ^ 16)%Z) (Hlit : Forall literal K) (HC : (Z.of_nat (length C) < 2 ^ 16)%Z).
Abbreviation go := (goes natives others (S print_fuel) next entry σ F below).
Abbreviation Visit := (Generator.Visit interpret).
Abbreviation Eval := (Comptime.Eval (S pf)).

(** The code that was written from [g] to [g'] is that of the frame. *)
Record compiles (names : list (list string)) (g g' : t) : Prop := {
  cp_usual : usual g;
  cp_names : SymbolTable.refines names (gsyms g);
  cp_placed : placed C g g';
  cp_consts : gconsts g' `prefix_of` K;
}.

Lemma compiles_seq {A B} (m1 : gen A) (m2 : gen B) names g a g1 b g' :
  anywhere m1 → anywhere m2 → calming true m1 → m1 g = Ok (a, g1) → m2 g1 = Ok (b, g') →
  compiles names g g' → compiles names g g1 ∧ compiles names g1 g'.
Proof.
  intros H1 H2 Hcalm E1 E2 [Hg Hn Hp Hk]. destruct (Hcalm _ _ _ Hg E1) as [Hu Hs _]. specialize (Hu Hg).
  pose proof (usual_not_empty g Hg) as N. pose proof (usual_not_empty g1 Hu) as N1.
  destruct (prefix_grown g g1 N (anywhere_run _ _ _ _ H1 N E1)) as [Pc1 Pk1].
  destruct (prefix_grown g1 g' N1 (anywhere_run _ _ _ _ H2 N1 E2)) as [Pc2 Pk2].
  destruct (placed_trans C g g1 g' Pc1 Pc2 Hp). split; split; try done; [by etrans|by rewrite Hs].
Qed.

Lemma sim_constant names g g' u v stk : compiles names g g' → literal v → length below + length stk < Execution.STACK_MAX →
  write_constant v g = Ok (u, g') → go stk (here g) (stk ++ [v]) (here g').
Proof.
  intros [Hg Hn Hp Hk] Hv Hl E. destruct (write_constant_fetch K HK Hlit C v g u g' Hv Hk E Hp) as (n & Hf & Hn').
  by eapply go_constant.
Qed.

Lemma sim_identifier names g g' u x v bs stk : compiles names g g' → fits names bs stk →
  length below + length stk < Execution.STACK_MAX → Comptime.find_binding x bs = Some v →
  EmitGetVariable x g = Ok (u, g') → go stk (here g) (stk ++ [v]) (here g') ∧ scalar v = true.
Proof.
  intros [Hg Hn Hp Hk] Hf Hl Hx E. destruct (fits_lookup _ _ _ _ _ Hf Hx) as (p & Hs & Hlt & Hv & Hsc).
  rewrite (EmitGetVariable_local x names p) // in E. split; [|done].
  eapply go_get_local; [done..| |exact Hv|done]. eapply write_byte_fetch; [done|done|lia|exact E|done].
Qed.

(** One operand, and an instruction on it. *)
Lemma sim_pop1 names g g' u op f a v stk : compiles names g g' → named op → GetOperandSize op = None_ →
  (∀ n l, Machine.Dispatch natives others (S print_fuel) next (MkInstruction op 0) n l = Machine.pop1 f) → f a = Ok v →
  length below + length stk < Execution.STACK_MAX → write op g = Ok (u, g') →
  go (stk ++ [a]) (here g) (stk ++ [v]) (here g').
Proof.
  intros [Hg Hn Hp Hk] Hop Hs Hd Hf Hl E. eapply go_pop1; [done..|exact Hd|done| |done]. by eapply write_fetch.
Qed.

Lemma anywhere_write op : anywhere (write op).
Proof. intros g0. grow. Qed.

(** What the evaluator makes of an expression. *)
Definition pushes (names : list (list string)) (room : nat) (e : Node) : Prop :=
  ∀ fv s stk g g', compiles names g g' → fits names (Comptime.m_comptimeBindings s) stk →
    simple_expr room (concat names) e = true → length below + length stk + room ≤ Execution.STACK_MAX →
    Visit fv e g = Ok (tt, g') → ∀ fe r s', Eval fe e s = Ok (r, s') →
    s' = s ∧ Comptime.didReturn r = false ∧ scalar (Comptime.value r) = true
    ∧ go stk (here g) (stk ++ [Comptime.value r]) (here g').

Lemma pushes_unary names room op a : (∀ room, pushes names room a) → pushes names room (UnaryExprNode op a).
Proof.
  intros IH fv s stk g g' Hc Hf Hs Hl E fe r s' EE. destruct fv as [|fv], fe as [|fe]; try done.
  cbn in Hs. apply andb_prop in Hs as [Hop Hs]. apply bool_decide_eq_true in Hop.
  pose proof (simple_expr_room _ _ _ Hs) as Hroom. cbn [Comptime.Eval Comptime.eval_node] in EE.
  apply st_bind_Ok in EE as (w & s1 & (ra & sa & Ea & Ew)%st_bind_Ok & (v & s2 & Ev & Er)%st_bind_Ok).
  injection Ew as <- <-. injection Er as <- <-. unfold Comptime.lift in Ev. apply result_bind_Ok in Ev as (v' & Ev & E2).
  injection E2 as -> <-. cbn [Generator.Visit dispatch] in E. unfold VisitUnary in E.
  assert (Hplain : op = "+" → Visit fv a g = Ok (tt, g')) by (intros ->; exact E).
  assert (Hcode : op ≠ "+" → ∃ code f, named code ∧ GetOperandSize code = None_
    ∧ (∀ n l, Machine.Dispatch natives others (S print_fuel) next (MkInstruction code 0) n l = Machine.pop1 f)
    ∧ f (Comptime.value ra) = Ok v ∧ (_ ← Visit fv a; write code) g = Ok (tt, g')).
  { intros Hne. unfold unary_operators in Hop. unfold Comptime.eval_unary in Ev.
    repeat (apply elem_of_cons in Hop as [->|Hop]; [first [done|exists OP_NEGATE, Negate; split_and!; [done|done|done|exact Ev|exact E]
      |exists OP_NOT, PerformUnaryLogic; split_and!; [done|done|done|exact Ev|exact E]]|]). by apply elem_of_nil in Hop. }
  destruct (decide (op = "+")) as [->|Hne].
  - destruct (IH room fv s stk g g' Hc Hf Hs Hl (Hplain eq_refl) _ _ _ Ea) as (-> & Hr & Hv & Hgo).
    injection Ev as <-. done.
  - destruct (Hcode Hne) as (code & f & Hn & Hsz & Hd & Hfv & E').
    apply st_bind_Ok in E' as ([] & g1 & E1 & E2).
    destruct (compiles_seq (Visit fv a) (write code) names g tt g1 tt g') as [Hc1 Hc2]; try done;
      [apply anywhere_Visit|apply anywhere_write|by eapply calming_simple_expr|].
    destruct (IH room fv s stk g g1 Hc1 Hf Hs Hl E1 _ _ _ Ea) as (-> & Hr & Hv & Hgo).
    split_and!; [done|done|by eapply eval_unary_scalar|]. cbn. eapply goes_trans; [exact Hgo|].
    eapply sim_pop1; [exact Hc2|done|done|exact Hd|done|lia|done].
Qed.

Lemma anywhere_bind {A B} (m : gen A) (k : A → gen B) : anywhere m → (∀ a, anywhere (k a)) → anywhere (m ≫= k).
Proof. intros Hm Hk g0. apply ext_bind; [apply Hm|intros a; apply Hk]. Qed.

Lemma pushes_binary names room l op r : (∀ room, pushes names room l) → (∀ room, pushes names room r) →
  pushes names room (BinaryExprNode l op r).
Proof.
  intros IHl IHr fv s stk g g' Hc Hf Hs Hl E fe res s' EE. destruct fv as [|fv], fe as [|fe]; try done.
  pose proof (simple_expr_room _ _ _ Hs) as Hroom. cbn [simple_expr] in Hs.
  apply andb_prop in Hs as [[Hop Hsl]%andb_prop Hsr]. apply bool_decide_eq_true in Hop.
  cbn [Comptime.Eval Comptime.eval_node] in EE.
  apply st_bind_Ok in EE as (vl & s1 & (rl & sl & El & Ewl)%st_bind_Ok & EE). injection Ewl as <- <-.
  apply st_bind_Ok in EE as (vr & s2 & (rr & sr & Er & Ewr)%st_bind_Ok & EE). injection Ewr as <- <-.
  apply st_bind_Ok in EE as (s3 & ? & [= <- <-] & (v & s4 & Ev & [= <- <-])%st_bind_Ok).
  unfold Comptime.lift in Ev. apply result_bind_Ok in Ev as (v' & Ev & [= -> <-]).
  cbn [Generator.Visit dispatch] in E. apply st_bind_Ok in E as ([] & g1 & E1 & E).
  assert (Hop' : anywhere (on_chunk (EmitBinaryOp op))) by (intros g0; grow).
  destruct (compiles_seq (Visit fv l) (_ ← Visit fv r; on_chunk (EmitBinaryOp op)) names g tt g1 tt g') as [Hc1 Hc1'];
    try done; [apply anywhere_Visit|apply anywhere_bind; [apply anywhere_Visit|done]|by eapply calming_simple_expr|].
  apply st_bind_Ok in E as ([] & g2 & E2 & E3).
  destruct (compiles_seq (Visit fv r) (on_chunk (EmitBinaryOp op)) names g1 tt g2 tt g') as [Hc2 Hc3];
    try done; [apply anywhere_Visit|by eapply calming_simple_expr|].
  destruct (IHl room fv s stk g g1 Hc1 Hf Hsl Hl E1 _ _ _ El) as (-> & _ & Hvl & Hgl).
  destruct (IHr (room - 1) fv s (stk ++ [Comptime.value rl]) g1 g2 Hc2 (fits_push _ _ _ _ Hf Hvl) Hsr) with (3 := Er)
    as (-> & _ & Hvr & Hgr); [rewrite length_app /=; lia|done|].
  destruct (EmitBinaryOp_Ok _ _ _ _ Hop E3) as (code & Hin & Hn & Hsz & E3').
  destruct (binary_dispatch natives others next print_fuel pf op code _ _ _ _ Hin Hvl Hvr Ev) as (Hv & f & Hd & Hfv).
  split_and!; [done|done|done|]. cbn. eapply goes_trans; [exact Hgl|]. eapply goes_trans; [exact Hgr|].
  rewrite -app_assoc. destruct Hc3. eapply go_pop2; [done..|exact Hd|exact Hfv| |lia]. by eapply write_fetch.
Qed.

Lemma pushes_constant names room e v : literal v → scalar v = true →
  (∀ fv g, Visit (S fv) e g = write_constant v g) →
  (∀ fe s, Eval (S fe) e s = Ok (Comptime.plain v, s)) → (simple_expr room (concat names) e = true → 1 ≤ room) →
  pushes names room e.
Proof.
  intros Hv Hsc HV HE Hroom fv s stk g g' Hc Hf Hs Hl E fe r s' EE. destruct fv as [|fv], fe as [|fe]; try done.
  rewrite HE in EE. injection EE as <- <-. rewrite HV in E. specialize (Hroom Hs).
  split_and!; [done..|]. eapply sim_constant; [exact Hc|done|lia|exact E].
Qed.

Lemma pushes_simple names e : ∀ room, pushes names room e.
Proof.
  induction e; intros room; try (intros fv s stk g g' Hc Hf Hs; done).
  - apply (pushes_constant _ _ _ (VInt64 value)); try done. apply simple_expr_room.
  - destruct (is_minus_zero value) eqn:Hz.
    { destruct value as [[]| | |]; try done. intros fv s stk g g' Hc Hf Hs. cbn [simple_expr] in Hs. by apply andb_prop in Hs as [_ ?]. }
    apply (pushes_constant _ _ _ (VDouble value)); try done; [by intros [= ->]|apply simple_expr_room].
  - apply (pushes_constant _ _ _ (VString (Some value))); try done. apply simple_expr_room.
  - destruct (decide (type = "true")) as [->|H1].
    { apply (pushes_constant _ _ _ (VBool true)); try done. apply simple_expr_room. }
    destruct (decide (type = "false")) as [->|H2].
    { apply (pushes_constant _ _ _ (VBool false)); try done. apply simple_expr_room. }
    destruct (decide (type = "null")) as [->|H3].
    { apply (pushes_constant _ _ _ VMonostate); try done. apply simple_expr_room. }
    intros fv s stk g g' Hc Hf Hs. cbn [simple_expr] in Hs. apply andb_prop in Hs as [_ Hs].
    apply bool_decide_eq_true in Hs. set_solver.
  - intros fv s stk g g' Hc Hf Hs Hl E fe r s' EE. destruct fv as [|fv], fe as [|fe]; try done.
    apply simple_expr_room in Hs. cbn [Comptime.Eval Comptime.eval_node] in EE.
    apply st_bind_Ok in EE as (v & s1 & Ev & [= <- <-]). unfold Comptime.Resolve in Ev.
    destruct (Comptime.find_binding name _) as [w|] eqn:Hx; [|done]. injection Ev as -> <-.
    destruct (sim_identifier names g g' tt name v _ stk Hc Hf ltac:(lia) Hx E) as [Hgo Hsc]. done.
  - by apply pushes_unary.
  - by apply pushes_binary.
Qed.

(** ** Statements *)

(** An expression that may be left out, in a statement [k] of the evaluator. *)
Lemma sim_opt names room e fv s stk g g' : compiles names g g' → fits names (Comptime.m_comptimeBindings s) stk →
  simple_opt room (concat names) e = true → length below + length stk + room ≤ Execution.STACK_MAX →
  (if is_null e then write_constant VMonostate else Visit fv e) g = Ok (tt, g') →
  ∀ fe v s', (if is_null e then mret VMonostate else Comptime.eval_value (Eval fe) e) s = Ok (v, s') →
  s' = s ∧ scalar v = true ∧ go stk (here g) (stk ++ [v]) (here g').
Proof.
  intros Hc Hf Hs Hl E fe v s'. unfold simple_opt in Hs. destruct (is_null e).
  - intros [= <- <-]. apply Nat.leb_le in Hs. split_and!; [done|done|]. eapply sim_constant; [exact Hc|done|lia|exact E].
  - intros (r & s1 & Er & [= <- <-])%st_bind_Ok.
    by destruct (pushes_simple names e room fv s stk g g' Hc Hf Hs Hl E fe r s1 Er) as (-> & _ & Hv & Hgo).
Qed.
Lemma simple_opt_room room names e : simple_opt room names e = true → 1 ≤ room.
Proof. unfold simple_opt. destruct (is_null e); [apply Nat.leb_le|apply simple_expr_room]. Qed.

(** The run comes to a return with the value [v] on the stack. *)
Definition returns (stk : list Value) (i : nat) (v : Value) : Prop :=
  scalar v = true ∧ ∃ l j j', go stk i (l ++ [v]) j ∧ fetch C j = Ok (Fetched (MkInstruction OP_RETURN 0) j')
    ∧ length below + length l < Execution.STACK_MAX.

(** It ends as the evaluator does: at a return, or at the place [i'] with the
    new values of the variables. *)
Definition ends (names : list (list string)) (stk : list Value) (i i' : nat) (r : Comptime.Result)
    (bs bs' : list (gmap string Value)) : Prop :=
  if Comptime.didReturn r then returns stk i (Comptime.value r)
  else ∃ stk', go stk i stk' i' ∧ length stk' = length stk ∧ fits names bs' stk' ∧ length bs' = length bs.

Lemma returns_go stk i stk1 i1 v : go stk i stk1 i1 → returns stk1 i1 v → returns stk i v.
Proof.
  intros H (Hv & l & j & j' & Hgo & Hf & Hl). split; [done|]. exists l, j, j'. split_and!; [by eapply goes_trans|done|done].
Qed.
Lemma ends_go names stk i i1 i' r bs bs' : go stk i stk i1 → ends names stk i1 i' r bs bs' → ends names stk i i' r bs bs'.
Proof.
  intros H. unfold ends. destruct (Comptime.didReturn r); [by apply returns_go|].
  intros (stk' & Hgo & Hrest). exists stk'. split; [by eapply goes_trans|done].
Qed.

Definition statement (fe : nat) : Prop := ∀ names room n fv s stk g g', compiles names g g' →
  fits names (Comptime.m_comptimeBindings s) stk → length stk = length (concat names) →
  simple room (concat names) n = true → length below + length stk + room ≤ Execution.STACK_MAX →
  Visit fv n g = Ok (tt, g') → ∀ r s', Eval fe n s = Ok (r, s') →
  ends names stk (here g) (here g') r (Comptime.m_comptimeBindings s) (Comptime.m_comptimeBindings s').

Lemma sim_return names room e fv s stk g g' : compiles names g g' → fits names (Comptime.m_comptimeBindings s) stk →
  simple_opt room (concat names) e = true → length below + length stk + room ≤ Execution.STACK_MAX →
  VisitReturn (Visit fv) e g = Ok (tt, g') → ∀ fe v s', (if is_null e then mret VMonostate else Comptime.eval_value (Eval fe) e) s = Ok (v, s') →
  returns stk (here g) v.
Proof.
  intros Hc Hf Hs Hl E fe v s' Ev. destruct (VisitReturn_Ok _ _ _ _ _ E) as ([] & g1 & E1 & E2).
  pose proof (calming_simple_opt interpret true _ fv _ e Hs g tt g1 (cp_usual _ _ _ Hc) E1) as [Hu _ _].
  specialize (Hu (cp_usual _ _ _ Hc)). specialize (E2 Hu).
  assert (Ha : anywhere (if is_null e then write_constant VMonostate else Visit fv e)).
  { destruct (is_null e); [intros g0; grow|apply anywhere_Visit]. }
  destruct (compiles_seq _ _ names g tt g1 tt g' Ha (anywhere_write OP_RETURN) (calming_simple_opt _ _ _ _ _ _ Hs) E1 E2 Hc) as [Hc1 Hc2].
  destruct (sim_opt names room e fv s stk g g1 Hc1 Hf Hs Hl E1 fe v s' Ev) as (-> & Hv & Hgo).
  split; [done|]. apply simple_opt_room in Hs. exists stk, (here g1), (here g').
  split_and!; [exact Hgo|by eapply write_fetch; [..|exact E2|apply Hc2]|lia].
Qed.

(** The parts of a conditional and of a loop. *)
Lemma compiles_part names g g1 g2 g3 g4 : compiles names g g4 → usual g1 → gsyms g1 = gsyms g → coded g1 g2 →
  placed C g2 g3 → gconsts g3 `prefix_of` gconsts g4 → compiles names g2 g3.
Proof.
  intros [Hg Hn Hp Hk] Hu Hs (Es & _ & Hu2) Hp2 Hk3. split; [by apply Hu2|by rewrite Es Hs|done|by etrans].
Qed.
Lemma jump_fetch i op d : named op → GetOperandSize op = Uint16 → at_place C i (jump_bytes op (Z.of_nat d)) → d ≤ length C →
  fetch C i = Ok (Fetched (MkInstruction op (Z.of_nat d)) (i + 3)).
Proof.
  intros Hop Hs Ha Hd. unfold jump_bytes in Ha. rewrite Z.mod_small in Ha; [|lia].
  apply fetch_at_place in Ha; [|done|unfold uint16; lia]. rewrite Ha. unfold kept, operand_bytes. cbn [opcode operand].
  by rewrite Hs.
Qed.
Lemma placed_le g g' : placed C g g' → here g ≤ here g' ≤ length C.
Proof. intros (b & E & Ha%at_place_le). unfold here in *. rewrite E length_app. lia. Qed.

(** The condition, and the jump on it. *)
Lemma sim_test names room c fv s stk g g1 d : compiles names g g1 → fits names (Comptime.m_comptimeBindings s) stk →
  simple_expr room (concat names) c = true → length below + length stk + room ≤ Execution.STACK_MAX →
  Visit fv c g = Ok (tt, g1) → at_place C (here g1) (jump_bytes OP_JUMP_IF_FALSE (Z.of_nat d)) → here g1 + 3 + d ≤ length C →
  ∀ fe v s1 b, Comptime.eval_value (Eval fe) c s = Ok (v, s1) → as_bool v = Ok b →
  s1 = s ∧ go stk (here g) stk (if b then here g1 + 3 else here g1 + 3 + d).
Proof.
  intros Hc Hf Hs Hl E Ha Hd fe v s1 b (r & s2 & Er & [= <- <-])%st_bind_Ok Hb.
  destruct (pushes_simple names c room fv s stk g g1 Hc Hf Hs Hl E fe r s2 Er) as (-> & _ & Hv & Hgo). split; [done|].
  eapply goes_trans; [exact Hgo|]. eapply go_jump_if_false; [done..| |exact Hb|lia].
  apply jump_fetch; [done|done|exact Ha|lia].
Qed.

Lemma visit_calm_consts {A} (m : gen A) g a g' : anywhere m → usual g → m g = Ok (a, g') → gconsts g `prefix_of` gconsts g'.
Proof.
  intros Hm Hg E. apply usual_not_empty in Hg. by apply (prefix_grown g g' Hg), (anywhere_run m g a g').
Qed.

Lemma ends_nothing names stk i i' s : go stk i stk i' → fits names (Comptime.m_comptimeBindings s) stk →
  ends names stk i i' Comptime.nothing (Comptime.m_comptimeBindings s) (Comptime.m_comptimeBindings s).
Proof. intros Hgo Hf. by exists stk. Qed.

Section control.
Context (fe : nat) (IH : statement fe).
Context (names : list (list string)) (room : nat) (fv : nat).

Lemma sim_if c n s stk g g' : compiles names g g' → fits names (Comptime.m_comptimeBindings s) stk →
  length stk = length (concat names) → simple_expr room (concat names) c = true → simple room (concat names) n = true →
  length below + length stk + room ≤ Execution.STACK_MAX →
  VisitIf (@on_chunk) (Visit fv c) (Visit fv n) None g = Ok (tt, g') →
  ∀ r s', Comptime.eval_if (Eval fe) c n NullNode s = Ok (r, s') →
  ends names stk (here g) (here g') r (Comptime.m_comptimeBindings s) (Comptime.m_comptimeBindings s').
Proof.
  intros Hc Hf Hlen Hsc Hsn Hl E r s' EE. pose proof (cp_usual _ _ _ Hc) as Hu.
  destruct (if_layout _ _ (anywhere_Visit interpret fv c) (anywhere_Visit interpret fv n) g tt g' Hu E)
    as (g1 & g2 & g3 & E1 & E3 & H12 & H34 & Hu1 & Hu3 & Eh2 & Eh' & Hplace).
  destruct (Hplace C (cp_placed _ _ _ Hc)) as (Hp1 & Hp23 & Ha). destruct (placed_le g2 g3 Hp23) as [L1 L2].
  assert (Hs1 : gsyms g1 = gsyms g) by (by apply (calming_simple_expr interpret true _ fv room c Hsc g tt g1 Hu E1)).
  assert (Hk3 : gconsts g3 `prefix_of` gconsts g') by (destruct H34 as (_ & -> & _); done).
  assert (Hu2 : usual g2) by by apply H12.
  pose proof (visit_calm_consts _ _ _ _ (anywhere_Visit interpret fv n) Hu2 E3) as Hk2.
  assert (Hc1 : compiles names g g1).
  { destruct Hc as [_ Hn _ Hk]. split; [done|done|done|]. destruct H12 as (_ & Ek & _). rewrite Ek in Hk2. by repeat (etrans; [done|]). }
  assert (Hc3 : compiles names g2 g3) by by eapply (compiles_part names g g1 g2 g3 g').
  unfold Comptime.eval_if in EE. apply st_bind_Ok in EE as (v & s1 & Ev & (b & s2 & Eb & EE)%st_bind_Ok).
  unfold Comptime.lift in Eb. apply result_bind_Ok in Eb as (b' & Eb & [= -> <-]).
  destruct (sim_test names room c fv s stk g g1 (here g3 - here g2) Hc1 Hf Hsc Hl E1 Ha ltac:(lia) fe v s1 b Ev Eb) as (-> & Hgo).
  destruct b.
  - rewrite -Eh2 in Hgo. eapply ends_go; [exact Hgo|]. rewrite Eh'. by eapply IH.
  - cbn in EE. injection EE as <- <-. apply ends_nothing; [|done].
    by rewrite (_ : here g1 + 3 + (here g3 - here g2) = here g') in Hgo; [|lia].
Qed.

Lemma sim_if_else c n e s stk g g' : compiles names g g' → fits names (Comptime.m_comptimeBindings s) stk →
  length stk = length (concat names) → simple_expr room (concat names) c = true → simple room (concat names) n = true →
  simple room (concat names) e = true → is_null e = false → length below + length stk + room ≤ Execution.STACK_MAX →
  VisitIf (@on_chunk) (Visit fv c) (Visit fv n) (Some (Visit fv e)) g = Ok (tt, g') →
  ∀ r s', Comptime.eval_if (Eval fe) c n e s = Ok (r, s') →
  ends names stk (here g) (here g') r (Comptime.m_comptimeBindings s) (Comptime.m_comptimeBindings s').
Proof.
  intros Hc Hf Hlen Hsc Hsn Hse Hnull Hl E r s' EE. pose proof (cp_usual _ _ _ Hc) as Hu.
  destruct (if_else_layout _ _ (anywhere_Visit interpret fv c) (anywhere_Visit interpret fv n) _ g tt g'
    (anywhere_Visit interpret fv e) Hu E)
    as (g1 & g2 & g3 & g5 & g6 & E1 & E3 & E6 & H12 & H35 & H67 & Hu1 & Hu3 & Hu6 & Eh2 & Eh5 & Eh' & Hplace).
  destruct (Hplace C (cp_placed _ _ _ Hc)) as (Hp1 & Hp23 & Hp56 & Ha & Ha').
  destruct (placed_le g2 g3 Hp23) as [L1 L2]. destruct (placed_le g5 g6 Hp56) as [L3 L4].
  assert (Hs1 : gsyms g1 = gsyms g) by (by apply (calming_simple_expr interpret true _ fv room c Hsc g tt g1 Hu E1)).
  assert (Hu2 : usual g2) by by apply H12. assert (Hu5 : usual g5) by by apply H35.
  assert (Hs3 : gsyms g3 = gsyms g).
  { rewrite -Hs1. destruct H12 as (<- & _). by apply (calming_simple interpret fv _ _ n Hsn g2 tt g3 Hu2 E3). }
  pose proof (visit_calm_consts _ _ _ _ (anywhere_Visit interpret fv n) Hu2 E3) as Hk2.
  pose proof (visit_calm_consts _ _ _ _ (anywhere_Visit interpret fv e) Hu5 E6) as Hk5.
  assert (Hk6 : gconsts g6 `prefix_of` gconsts g') by (destruct H67 as (_ & -> & _); done).
  assert (Hk3 : gconsts g3 `prefix_of` gconsts g') by (destruct H35 as (_ & E35 & _); rewrite E35 in Hk5; by etrans).
  assert (Hc1 : compiles names g g1).
  { destruct Hc as [_ Hn _ Hk]. split; [done|done|done|]. destruct H12 as (_ & Ek & _). rewrite Ek in Hk2. by repeat (etrans; [done|]). }
  assert (Hc3 : compiles names g2 g3) by by eapply (compiles_part names g g1 g2 g3 g').
  assert (Hc6 : compiles names g5 g6) by by eapply (compiles_part names g g3 g5 g6 g').
  unfold Comptime.eval_if in EE. apply st_bind_Ok in EE as (v & s1 & Ev & (b & s2 & Eb & EE)%st_bind_Ok).
  unfold Comptime.lift in Eb. apply result_bind_Ok in Eb as (b' & Eb & [= -> <-]).
  destruct (sim_test names room c fv s stk g g1 (here g5 - here g2) Hc1 Hf Hsc Hl E1 Ha ltac:(lia) fe v s1 b Ev Eb) as (-> & Hgo).
  destruct b.
  - rewrite -Eh2 in Hgo. eapply ends_go; [exact Hgo|]. pose proof (IH _ _ _ _ _ _ _ _ Hc3 Hf Hlen Hsn Hl E3 _ _ EE) as H.
    unfold ends in H |- *. destruct (Comptime.didReturn r); [done|]. destruct H as (stk' & Hgo' & Hrest).
    exists stk'. split; [|done]. eapply goes_trans; [exact Hgo'|]. rewrite (_ : here g' = here g3 + 3 + (here g6 - here g5)); [|lia].
    eapply go_jump; [done..| |lia]. apply jump_fetch; [done|done|exact Ha'|lia].
  - rewrite Hnull in EE. rewrite (_ : here g1 + 3 + (here g5 - here g2) = here g5) in Hgo; [|lia].
    eapply ends_go; [exact Hgo|]. rewrite Eh'. by eapply IH.
Qed.

Lemma sim_while c n g g' : compiles names g g' → simple_expr room (concat names) c = true → simple room (concat names) n = true →
  VisitWhile (@on_chunk) (Visit fv c) (Visit fv n) g = Ok (tt, g') →
  ∀ k s stk, fits names (Comptime.m_comptimeBindings s) stk → length stk = length (concat names) →
  length below + length stk + room ≤ Execution.STACK_MAX →
  ∀ r s', Comptime.eval_while (Eval fe) k c n s = Ok (r, s') →
  ends names stk (here g) (here g') r (Comptime.m_comptimeBindings s) (Comptime.m_comptimeBindings s').
Proof.
  intros Hc Hsc Hsn E. pose proof (cp_usual _ _ _ Hc) as Hu.
  destruct (while_layout _ _ (anywhere_Visit interpret fv c) (anywhere_Visit interpret fv n) g tt g' Hu E)
    as (g1 & g2 & g3 & E1 & E3 & H12 & H34 & Hu1 & Hu3 & Eh2 & Eh' & Hle & Hplace).
  destruct (Hplace C (cp_placed _ _ _ Hc)) as (Hp1 & Hp23 & Ha & Ha'). destruct (placed_le g2 g3 Hp23) as [L1 L2].
  destruct (placed_le g g' (cp_placed _ _ _ Hc)) as [L3 L4].
  assert (Hs1 : gsyms g1 = gsyms g) by (by apply (calming_simple_expr interpret true _ fv room c Hsc g tt g1 Hu E1)).
  assert (Hk3 : gconsts g3 `prefix_of` gconsts g') by (destruct H34 as (_ & -> & _); done).
  assert (Hu2 : usual g2) by by apply H12.
  pose proof (visit_calm_consts _ _ _ _ (anywhere_Visit interpret fv n) Hu2 E3) as Hk2.
  assert (Hc1 : compiles names g g1).
  { destruct Hc as [_ Hn _ Hk]. split; [done|done|done|]. destruct H12 as (_ & Ek & _). rewrite Ek in Hk2. by repeat (etrans; [done|]). }
  assert (Hc3 : compiles names g2 g3) by by eapply (compiles_part names g g1 g2 g3 g').
  induction k as [|k IHk]; intros s stk Hf Hlen Hl r s' EE; cbn [Comptime.eval_while] in EE;
    apply st_bind_Ok in EE as (v & s1 & Ev & (b & s2 & Eb & EE)%st_bind_Ok);
    unfold Comptime.lift in Eb; apply result_bind_Ok in Eb as (b' & Eb & [= -> <-]);
    destruct (sim_test names room c fv s stk g g1 (here g' - here g2) Hc1 Hf Hsc Hl E1 Ha ltac:(lia) fe v s1 b Ev Eb) as (-> & Hgo);
    (destruct b; cbn [negb] in EE; [|injection EE as <- <-; apply ends_nothing; [|done];
      by rewrite (_ : here g1 + 3 + (here g' - here g2) = here g') in Hgo; [|lia]]); [done|].
  apply st_bind_Ok in EE as (r1 & s1 & Er & EE). rewrite -Eh2 in Hgo.
  pose proof (IH _ _ _ _ _ _ _ _ Hc3 Hf Hlen Hsn Hl E3 _ _ Er) as H. eapply ends_go; [exact Hgo|]. unfold ends in H.
  destruct (Comptime.didReturn r1) eqn:Hr; [injection EE as <- <-; unfold ends; by rewrite Hr|].
  destruct H as (stk' & Hgo' & Hlen' & Hf' & Hbs). pose proof (IHk s1 stk' Hf' ltac:(congruence) ltac:(lia) r s' EE) as H.
  assert (Hback : go stk (here g2) stk' (here g)).
  { eapply goes_trans; [exact Hgo'|]. rewrite (_ : here g = here g3 + 3 - (here g' - here g)); [|lia].
    eapply go_loop; [done..| |lia]. apply jump_fetch; [done|done|exact Ha'|lia]. }
  unfold ends in H |- *. destruct (Comptime.didReturn r); [by eapply returns_go|].
  destruct H as (stk2 & Hgo2 & Hlen2 & Hf2 & Hbs2). exists stk2. split_and!; [by eapply goes_trans|congruence|done|congruence].
Qed.
End control.

(** *** Declarations and assignments *)

(** The value of an assignment stays on the stack. *)
Lemma sim_assignment names room x m v fv s stk g g' : compiles names g g' → fits names (Comptime.m_comptimeBindings s) stk →
  x ∈ concat names → simple_expr room (concat names) v = true → length below + length stk + room ≤ Execution.STACK_MAX →
  EmitAssignment (Visit fv) x NullNode m NullNode v NullNode g = Ok (tt, g') →
  ∀ fe r s', Comptime.eval_assignment (Eval fe) x v s = Ok (r, s') →
  Comptime.didReturn r = false ∧ length (Comptime.m_comptimeBindings s') = length (Comptime.m_comptimeBindings s)
  ∧ ∃ stk' w, length stk' = length stk ∧ fits names (Comptime.m_comptimeBindings s') stk'
      ∧ go stk (here g) (stk' ++ [w]) (here g').
Proof.
  intros Hc Hf Hx Hsv Hl E fe r s' EE. pose proof (cp_usual _ _ _ Hc) as Hu.
  assert (Hself : ∃ g0, (if decide (x = "") then mret None else ResolveSelfFieldIndex x) g = Ok (None, g0) ∧ g0 = g
    ∧ (_ ← Visit fv v; _ ← EmitSetVariable x; existing ← asks (ResolveInterfaceBinding x);
       match existing with
       | None => mret tt
       | Some existing =>
           binding ← InferInterfaceBinding v (interfaceName existing);
           match binding with
           | None => mret tt
           | Some binding => modify_context (λ c, set_scopes (structVarScopes c) (enumVarScopes c) (actorVarScopes c)
                               (update_innermost x binding (interfaceVarScopes c)) c)
           end
       end) g = Ok (tt, g')).
  { unfold EmitAssignment in E. cbn [is_null negb] in E. apply st_bind_Ok in E as (i & g0 & Ei & E).
    assert (i = None ∧ g0 = g) as [-> ->]; [|by exists g].
    revert Ei. case_decide; [by intros [= <- <-]|by apply no_self_field]. }
  destruct Hself as (g0 & _ & _ & E'). clear E g0. rename E' into E.
  set (rest := λ _ : unit, _ ← EmitSetVariable x; _) in E.
  assert (Hrest : ∀ u, anywhere (rest u)).
  { intros u g0. unfold rest. grow. apply ext_modify_context. intros c. apply inner_scopes. }
  apply st_bind_Ok in E as ([] & g1 & E1 & E).
  destruct (compiles_seq (Visit fv v) (rest tt) names g tt g1 tt g' (anywhere_Visit _ _ _) (Hrest tt)
    (calming_simple_expr _ _ _ _ _ _ Hsv) E1 E Hc) as [Hc1 Hc2].
  unfold Comptime.eval_assignment in EE. apply st_bind_Ok in EE as (w & s1 & (rw & sw & Ew & [= <- <-])%st_bind_Ok & EE).
  destruct (pushes_simple names v room fv s stk g g1 Hc1 Hf Hsv Hl E1 fe rw sw Ew) as (-> & _ & Hw & Hgo).
  revert EE. case_decide; [done|]. intros (u & s2 & [= <- <-] & [= <- <-])%st_bind_Ok.
  destruct (fits_defined x _ _ _ Hf Hx) as (p & w0 & Hp & Hlt & Hps & Hfind).
  cbn [Comptime.m_comptimeBindings Comptime.set_bindings]. unfold Comptime.assign. rewrite Hfind.
  split; [done|]. split; [by rewrite length_update|]. exists (<[p := Comptime.value rw]> stk), (Comptime.value rw).
  split; [by rewrite length_insert|]. split; [by apply fits_update|].
  unfold rest in E. apply st_bind_Ok in E as ([] & g2 & E2 & E3). eapply goes_trans; [exact Hgo|].
  unfold EmitSetVariable in E2. destruct Hc2 as [Hu1 Hn1 Hp1 Hk1].
  rewrite (emit_variable_local _ _ _ _ x names p g1 (usual_not_empty _ Hu1) Hn1 Hp Hlt) in E2.
  assert (Hstill : gchunk g' = gchunk g2).
  { revert E3. apply still_bind; [apply still_quiet; eauto with gen|intros e]. destruct e; [|apply still_quiet; eauto with gen].
    apply still_bind; [apply still_quiet; eauto with gen|intros b]. destruct b; [by apply still_modify_context|].
    apply still_quiet; eauto with gen. }
  assert (Hp12 : placed C g1 g2) by (unfold placed in *; by rewrite -Hstill).
  rewrite (_ : here g' = here g2); [|unfold here; by rewrite Hstill].
  rewrite -insert_app_l //. eapply go_set_local; [done..| |rewrite length_app; lia].
  eapply write_byte_fetch; [done|done|lia|exact E2|done].
Qed.

(** A declared variable is the value that its initializer leaves. *)
Lemma sim_declaration ns names room x type init storage fv s stk g g' : compiles (ns :: names) g g' →
  fits (ns :: names) (Comptime.m_comptimeBindings s) stk → length stk = length (concat (ns :: names)) → length stk < 255 →
  Comptime.m_comptimeBindings s ≠ [] → simple_opt room (concat (ns :: names)) init = true →
  length below + length stk + room ≤ Execution.STACK_MAX → VisitVarDecl (Visit fv) x type init storage g = Ok (tt, g') →
  ∀ fe r s', Comptime.eval_var_decl (Eval fe) x init s = Ok (r, s') →
  Comptime.didReturn r = false ∧ length (Comptime.m_comptimeBindings s') = length (Comptime.m_comptimeBindings s)
  ∧ usual g' ∧ SymbolTable.refines ((x :: ns) :: names) (gsyms g')
  ∧ ∃ v, fits ((x :: ns) :: names) (Comptime.m_comptimeBindings s') (stk ++ [v]) ∧ go stk (here g) (stk ++ [v]) (here g').
Proof.
  intros Hc Hf Hlen Hlt Hbs Hs Hl E fe r s' EE. pose proof (cp_usual _ _ _ Hc) as Hu.
  apply st_bind_Ok in E as ([] & g1 & E1 & (i & g2 & E2 & (g0 & ? & [= <- <-] & E)%st_bind_Ok)%st_bind_Ok).
  assert (C1 : calm true g g1) by by eapply (calming_simple_opt interpret true).
  assert (Hu1 : usual g1) by by apply C1. assert (Hu2 : usual g2) by (by apply (calming_define_local x g1 i g2 Hu1)).
  rewrite bool_decide_eq_false_2 in E; [|pose proof (us_depth g2 Hu2); lia]. cbn [andb] in E.
  apply st_bind_Ok in E as (u & ? & [= <- <-] & E3).
  pose proof (calming_record_types true _ _ _ g2 _ g' Hu2 E3) as C3. pose proof (still_record_types _ _ _ _ _ _ E3) as Hstill.
  destruct (define_local_Ok x g1 i g2 E2) as (sy & Ed & Es2 & Ek2 & Ec2).
  destruct Hc as [_ Hn Hp Hk]. assert (Hn1 : SymbolTable.refines (ns :: names) (gsyms g1)) by (by rewrite (calm_syms _ _ _ C1 eq_refl)).
  destruct (SymbolTable.Define_refines x ns names (gsyms g1) Hn1) as (sy' & Ed' & Hn2). rewrite Ed' in Ed. injection Ed as <- <-.
  assert (Hi : SymbolTable.m_nextIndex (gsyms g1) = Z.of_nat (length stk)).
  { destruct Hn1 as [_ ->]. rewrite -Hlen SymbolTable.byte_small //. lia. }
  rewrite Hi in E2, Ec2. clear Hi.
  assert (Hg' : here g' = here g2) by (unfold here; by rewrite Hstill).
  assert (H1 : anywhere (if is_null init then write_constant VMonostate else Visit fv init)).
  { destruct (is_null init); [intros g0; grow|apply anywhere_Visit]. }
  destruct (prefix_grown g g1 (usual_not_empty g Hu) (anywhere_run _ _ _ _ H1 (usual_not_empty g Hu) E1)) as [P1 P2].
  destruct (placed_trans C g g1 g' P1) as [Hp1 Hp2]; [rewrite Hstill Ec2; by eexists|done|].
  assert (Hp12 : placed C g1 g2) by (unfold placed in *; by rewrite -Hstill).
  assert (Hc1 : compiles (ns :: names) g g1) by (split; [done|done|done|by rewrite Hstill Ek2 in Hk]).
  unfold Comptime.eval_var_decl in EE. apply st_bind_Ok in EE as (v & s1 & Ev & EE).
  destruct (sim_opt _ room init fv s stk g g1 Hc1 Hf Hs Hl E1 fe v s1 Ev) as (-> & Hv & Hgo).
  apply st_bind_Ok in EE as (u1 & s2 & [= <- <-] & (ty & s3 & E4 & (u2 & s4 & E5 & [= <- <-])%st_bind_Ok)%st_bind_Ok).
  assert (Hb : Comptime.m_comptimeBindings s4 = Comptime.bind_local x v (Comptime.m_comptimeBindings s)).
  { unfold Comptime.on_generator in E4. apply result_bind_Ok in E4 as ([a gg] & _ & [= <- <-]).
    destruct a; [|by injection E5 as _ <-]. by injection E5 as _ <-. }
  split; [done|]. rewrite Hb. split; [by destruct (Comptime.m_comptimeBindings s)|]. split; [by apply C3|].
  split; [by rewrite (calm_syms _ _ _ C3 eq_refl) Es2|]. exists v. split; [by apply fits_bind|].
  rewrite Hg'. eapply goes_trans; [exact Hgo|].
  rewrite -{2}(list_insert_id (stk ++ [v]) (length stk) v); [|by rewrite list_lookup_middle].
  eapply go_set_local; [done..| |rewrite length_app /=; lia]. eapply byte_fetch; [done|done|lia|exact Ec2|done].
Qed.
(** *** Blocks *)

(** The variables between two statements of a block: those of the block are
    [ns]. *)
Record settled (ns : list string) (names : list (list string)) (g : t) (bs : list (gmap string Value)) (stk : list Value) : Prop := {
  se_usual : usual g;
  se_names : SymbolTable.refines (ns :: names) (gsyms g);
  se_fits : fits (ns :: names) bs stk;
  se_size : length stk = length (concat (ns :: names));
}.

(** A statement and the pop behind it lead to the next statement, whose block
    is checked with what is left of the room. *)
Definition item_ends (ns : list string) (names : list (list string)) (room : nat) (st : Node) (l : list Node) (stk : list Value)
    (i : nat) (g' : t) (r : Comptime.Result) (bs bs' : list (gmap string Value)) : Prop :=
  if Comptime.didReturn r then returns stk i (Comptime.value r)
  else ∃ ns' stk' room', go stk i stk' (here g') ∧ settled ns' names g' bs' stk' ∧ length bs' = length bs
    ∧ length ns' = length ns + (if is_var_decl st then 1 else 0)
    ∧ simple_block simple room' (concat (ns' :: names)) l = true ∧ length stk' + room' ≤ length stk + room.

Definition block_ends (names : list (list string)) (stk : list Value) (i : nat) (g' : t) (n : Z) (r : Comptime.Result)
    (bs bs' : list (gmap string Value)) : Prop :=
  if Comptime.didReturn r then returns stk i (Comptime.value r)
  else ∃ ns' stk', go stk i stk' (here g') ∧ settled ns' names g' bs' stk' ∧ length bs' = length bs ∧ n = Z.of_nat (length ns').

Lemma compiles_first {A B} (m1 : gen A) (m2 : gen B) names g a g1 b g' :
  anywhere m1 → anywhere m2 → m1 g = Ok (a, g1) → m2 g1 = Ok (b, g') → usual g1 →
  compiles names g g' → compiles names g g1 ∧ placed C g1 g'.
Proof.
  intros H1 H2 E1 E2 Hu [Hg Hn Hp Hk]. pose proof (usual_not_empty g Hg) as N. pose proof (usual_not_empty g1 Hu) as N1.
  destruct (prefix_grown g g1 N (anywhere_run _ _ _ _ H1 N E1)) as [Pc1 Pk1].
  destruct (prefix_grown g1 g' N1 (anywhere_run _ _ _ _ H2 N1 E2)) as [Pc2 Pk2].
  destruct (placed_trans C g g1 g' Pc1 Pc2 Hp). split; [|done]. split; try done. by etrans.
Qed.

(** The pop takes what the expression left. *)
Lemma sim_pop g g' stk v : placed C g g' → write OP_POP g = Ok (tt, g') → go (stk ++ [v]) (here g) stk (here g').
Proof. intros Hp E. eapply go_pop; [done..|]. by eapply write_fetch. Qed.

Section items.
Context (fe fv : nat) (IH : statement fe) (names : list (list string)).

Lemma item_var ns room x type init isConst storage l s stk g g1 : compiles (ns :: names) g g1 →
  settled ns names g (Comptime.m_comptimeBindings s) stk → Comptime.m_comptimeBindings s ≠ [] →
  length below + length stk + room ≤ Execution.STACK_MAX → length (concat (ns :: names)) < 255 →
  simple_opt room (concat (ns :: names)) init = true → simple_block simple (room - 1) (x :: concat (ns :: names)) l = true →
  VisitVarDecl (Visit fv) x type init storage g = Ok (tt, g1) → ∀ r s', Comptime.eval_var_decl (Eval fe) x init s = Ok (r, s') →
  item_ends ns names room (VarDeclNode x type init isConst storage) l stk (here g) g1 r
    (Comptime.m_comptimeBindings s) (Comptime.m_comptimeBindings s').
Proof.
  intros Hc [Hu Hn Hf Hlen] Hbs Hroom Hlt Hi Hl E r s' EE. rewrite -Hlen in Hlt.
  destruct (sim_declaration ns names room x type init storage fv s stk g g1 Hc Hf Hlen Hlt Hbs Hi Hroom E fe r s' EE)
    as (Hr & Hbs' & Hu' & Hn' & v & Hf' & Hgo). unfold item_ends. rewrite Hr. exists (x :: ns), (stk ++ [v]), (room - 1).
  apply simple_opt_room in Hi. rewrite length_app /=.
  split_and!; [exact Hgo|split; [done|done|done|rewrite length_app Hlen /=; lia]|done|cbn; lia|done|lia].
Qed.

Lemma item_assign ns room x m v l s stk g g1 g2 : compiles (ns :: names) g g1 →
  placed C g1 g2 → settled ns names g (Comptime.m_comptimeBindings s) stk →
  length below + length stk + room ≤ Execution.STACK_MAX → x ∈ concat (ns :: names) →
  simple_expr room (concat (ns :: names)) v = true → simple_block simple room (concat (ns :: names)) l = true →
  EmitAssignment (Visit fv) x NullNode m NullNode v NullNode g = Ok (tt, g1) → write OP_POP g1 = Ok (tt, g2) →
  ∀ r s', Comptime.eval_assignment (Eval fe) x v s = Ok (r, s') →
  item_ends ns names room (AssignmentNode x NullNode m NullNode v NullNode) l stk (here g) g2 r
    (Comptime.m_comptimeBindings s) (Comptime.m_comptimeBindings s').
Proof.
  intros Hc Hp [Hu Hn Hf Hlen] Hroom Hx Hv Hl E E2 r s' EE.
  destruct (sim_assignment _ room x m v fv s stk g g1 Hc Hf Hx Hv Hroom E fe r s' EE)
    as (Hr & Hbs' & stk' & w & Hlen' & Hf' & Hgo).
  pose proof (calming_assignment interpret true room _ fv x m v Hv g tt g1 Hu E) as C1.
  pose proof (calming_write true OP_POP g1 tt g2 (calm_usual _ _ _ C1 Hu) E2) as C2.
  assert (C12 : calm true g g2) by by etrans.
  unfold item_ends. rewrite Hr. exists ns, stk', room. split_and!; try done; [| |lia..].
  - eapply goes_trans; [exact Hgo|by apply sim_pop].
  - split; [by apply C12|by rewrite (calm_syms _ _ _ C12 eq_refl)|done|congruence].
Qed.

Lemma item_expr ns room e l s stk g g1 g2 : compiles (ns :: names) g g1 →
  placed C g1 g2 → settled ns names g (Comptime.m_comptimeBindings s) stk →
  length below + length stk + room ≤ Execution.STACK_MAX → is_var_decl e = false →
  simple_expr room (concat (ns :: names)) e = true → simple_block simple room (concat (ns :: names)) l = true →
  Visit fv e g = Ok (tt, g1) → write OP_POP g1 = Ok (tt, g2) → ∀ r s', Eval fe e s = Ok (r, s') →
  item_ends ns names room e l stk (here g) g2 r (Comptime.m_comptimeBindings s) (Comptime.m_comptimeBindings s').
Proof.
  intros Hc Hp [Hu Hn Hf Hlen] Hroom Hd He Hl E E2 r s' EE.
  destruct (pushes_simple _ e room fv s stk g g1 Hc Hf He Hroom E fe r s' EE) as (-> & Hr & Hv & Hgo).
  pose proof (calming_simple_expr interpret true _ fv room e He g tt g1 Hu E) as C1.
  pose proof (calming_write true OP_POP g1 tt g2 (calm_usual _ _ _ C1 Hu) E2) as C2.
  assert (C12 : calm true g g2) by by etrans.
  unfold item_ends. rewrite Hr Hd. exists ns, stk, room. split_and!; try done; [| |lia..].
  - eapply goes_trans; [exact Hgo|by apply sim_pop].
  - split; [by apply C12|by rewrite (calm_syms _ _ _ C12 eq_refl)|done|done].
Qed.

Lemma item_closed ns room st l s stk g g1 : compiles (ns :: names) g g1 →
  settled ns names g (Comptime.m_comptimeBindings s) stk →
  length below + length stk + room ≤ Execution.STACK_MAX → is_var_decl st = false →
  simple room (concat (ns :: names)) st = true → simple_block simple room (concat (ns :: names)) l = true →
  Visit fv st g = Ok (tt, g1) → ∀ r s', Eval fe st s = Ok (r, s') →
  item_ends ns names room st l stk (here g) g1 r (Comptime.m_comptimeBindings s) (Comptime.m_comptimeBindings s').
Proof.
  intros Hc [Hu Hn Hf Hlen] Hroom Hd Hs Hl E r s' EE.
  pose proof (IH _ room st fv s stk g g1 Hc Hf Hlen Hs Hroom E r s' EE) as H. unfold ends in H. unfold item_ends.
  destruct (Comptime.didReturn r); [done|]. destruct H as (stk' & Hgo & Hlen' & Hf' & Hbs).
  pose proof (calming_simple interpret fv _ _ st Hs g tt g1 Hu E) as C1. rewrite Hd.
  exists ns, stk', room. split_and!; try done; [|lia..].
  split; [by apply C1|by rewrite (calm_syms _ _ _ C1 eq_refl)|done|congruence].
Qed.
End items.

Section statements.
Context (fe fv : nat) (IH : statement fe) (names : list (list string)).

(** The places of a statement, of the pop behind it and of the rest. *)
Lemma visit_parts st l room ns g g1 g2 g' vars n : block_case simple room (concat (ns :: names)) st l → usual g →
  is_null st = false → placed C g g' → Visit fv st g = Ok (tt, g1) →
  (if ShouldPopStatementResult st then write OP_POP else mret tt) g1 = Ok (tt, g2) →
  visit_statements (Visit fv) l vars g2 = Ok (n, g') →
  placed C g g1 ∧ placed C g1 g2 ∧ placed C g2 g' ∧ gconsts g1 `prefix_of` gconsts g'.
Proof.
  intros Hcase Hu Hnull Hp Ev Ep Er.
  assert (A1 : anywhere (Visit fv st)) by apply anywhere_Visit.
  assert (A2 : anywhere (if ShouldPopStatementResult st then write OP_POP else mret tt)).
  { destruct (ShouldPopStatementResult st); [apply anywhere_write|intros g0; grow]. }
  assert (A3 : anywhere (visit_statements (Visit fv) l vars)).
  { intros g0. apply ext_visit_statements. intros. apply ext_Visit. }
  destruct (anywhere_code _ _ _ _ A1 Hu Ev) as (Hu1 & b1 & Eb1 & _). destruct (anywhere_code _ _ _ _ A2 Hu1 Ep) as (Hu2 & b2 & Eb2 & _).
  destruct (anywhere_code _ _ _ _ A3 Hu2 Er) as (Hu3 & b3 & Eb3 & _).
  destruct (placed_trans C g g1 g') as [Hp1 Hp23]; [by exists b1|exists (b2 ++ b3); by rewrite Eb3 Eb2 -app_assoc|done|].
  destruct (placed_trans C g1 g2 g') as [Hp2 Hp3]; [by exists b2|by exists b3|done|]. split_and!; try done.
  etrans; [by eapply (visit_calm_consts _ g1 tt g2 A2)|by eapply (visit_calm_consts _ g2 n g' A3)].
Qed.

(** One statement of a block, from the cases of its check. *)
Lemma sim_item ns room st l s stk g g1 g2 : is_null st = false → block_case simple room (concat (ns :: names)) st l →
  settled ns names g (Comptime.m_comptimeBindings s) stk → Comptime.m_comptimeBindings s ≠ [] →
  placed C g g1 → placed C g1 g2 → gconsts g1 `prefix_of` K → length below + length stk + room ≤ Execution.STACK_MAX →
  Visit fv st g = Ok (tt, g1) → (if ShouldPopStatementResult st then write OP_POP else mret tt) g1 = Ok (tt, g2) →
  ∀ r s', Eval fe st s = Ok (r, s') →
  item_ends ns names room st l stk (here g) g2 r (Comptime.m_comptimeBindings s) (Comptime.m_comptimeBindings s').
Proof.
  intros Hnull Hcase Hst Hbs Hp1 Hp2 Hk Hroom E E2 r s' EE. destruct Hst as [Hu Hn Hf Hlen].
  assert (Hc : compiles (ns :: names) g g1) by done. assert (Hst : settled ns names g (Comptime.m_comptimeBindings s) stk) by done.
  destruct Hcase as [l Hl|x type init c storage l Hlt Hi Hl|x m v l Hx Hv Hl|e l Hp Hd He Hse Hl|s1 l Hn1 Hd Hp Hs Hl];
    [done|..]; try rewrite Hp in E2.
  - injection E2 as <-. destruct fv as [|fv'], fe as [|fe']; [done..|]. eapply item_var; [done..|exact E|exact EE].
  - destruct fv as [|fv'], fe as [|fe']; [done..|]. eapply (item_assign _ _ _ ns room x m v l s stk g g1 g2); [done..|exact E|done|exact EE].
  - by eapply item_expr.
  - injection E2 as <-. by eapply item_closed.
Qed.

Lemma block_step ns room st l stk i g2 g' n r1 r bs bs1 bs' : item_ends ns names room st l stk i g2 r1 bs bs1 →
  length below + length stk + room ≤ Execution.STACK_MAX → (Comptime.didReturn r1 = true → r = r1) →
  (∀ ns' stk' room', Comptime.didReturn r1 = false → settled ns' names g2 bs1 stk' →
     length ns' = length ns + (if is_var_decl st then 1 else 0) → length bs1 = length bs →
     simple_block simple room' (concat (ns' :: names)) l = true → length below + length stk' + room' ≤ Execution.STACK_MAX →
     block_ends names stk' (here g2) g' n r bs1 bs') →
  block_ends names stk i g' n r bs bs'.
Proof.
  intros H Hroom Hret Hrest. unfold item_ends in H. unfold block_ends. destruct (Comptime.didReturn r1) eqn:Hr1.
  - rewrite (Hret eq_refl) Hr1. done.
  - destruct H as (ns' & stk' & room' & Hgo & Hst & Hbs & Hns & Hl & Hle).
    pose proof (Hrest ns' stk' room' eq_refl Hst Hns Hbs Hl ltac:(lia)) as H. unfold block_ends in H.
    destruct (Comptime.didReturn r); [by eapply returns_go|]. destruct H as (ns2 & stk2 & Hgo2 & Hst2 & Hbs2 & Hn).
    exists ns2, stk2. split_and!; [by eapply goes_trans|done|congruence|done].
Qed.

Lemma sim_statements l : ∀ ns room s stk g g' n last,
  settled ns names g (Comptime.m_comptimeBindings s) stk → Comptime.m_comptimeBindings s ≠ [] →
  placed C g g' → gconsts g' `prefix_of` K → simple_block simple room (concat (ns :: names)) l = true →
  length below + length stk + room ≤ Execution.STACK_MAX →
  visit_statements (Visit fv) l (Z.of_nat (length ns)) g = Ok (n, g') → Comptime.didReturn last = false →
  ∀ r s', Comptime.eval_statements (Eval fe) l last s = Ok (r, s') →
  block_ends names stk (here g) g' n r (Comptime.m_comptimeBindings s) (Comptime.m_comptimeBindings s').
Proof.
  induction l as [|st l IHl]; intros ns room s stk g g' n last Hst Hbs Hp Hk Hs Hroom E Hlast r s' EE.
  { injection E as <- <-. injection EE as <- <-. unfold block_ends. rewrite Hlast. exists ns, stk.
    split_and!; [apply goes_refl|done|done|done]. }
  cbn [Comptime.eval_statements] in EE. apply st_bind_Ok in EE as (r1 & s1 & E1 & EE).
  destruct (is_null st) eqn:Hnull.
  { destruct st; try done. assert (r1 = Comptime.nothing ∧ s1 = s) as [-> ->] by (destruct fe; [done|by injection E1 as <- <-]).
    exact (IHl ns room s stk g g' n Comptime.nothing Hst Hbs Hp Hk Hs Hroom E eq_refl r s' EE). }
  apply simple_block_cases in Hs.
  rewrite visit_statements_cons // in E. set (vars := if is_var_decl st then _ else _) in E.
  apply st_bind_Ok in E as ([] & g1 & Ev & ([] & g2 & Ep & Erest)%st_bind_Ok).
  destruct (visit_parts st l room ns g g1 g2 g' vars n Hs (se_usual _ _ _ _ _ Hst) Hnull Hp Ev Ep Erest) as (Hp1 & Hp2 & Hp3 & Hk1).
  eapply (block_step ns room st l stk (here g) g2 g' n r1);
    [by eapply (sim_item ns room st l s stk g g1 g2); try done; etrans|done| |].
  - intros Hr. rewrite Hr in EE. by injection EE as <- <-.
  - intros ns' stk' room' Hr1 Hst' Hns Hlb Hl Hroom'. rewrite Hr1 in EE. eapply IHl; try done.
    + intros E0. rewrite E0 in Hlb. by destruct (Comptime.m_comptimeBindings s).
    + assert (vars = Z.of_nat (length ns')) as <-; [|done]. pose proof (fit_count _ _ _ (se_fits _ _ _ _ _ Hst')) as Hcount.
      cbn in Hcount. rewrite length_app in Hcount. unfold vars. destruct (is_var_decl st); [|f_equal; lia].
      rewrite Z.mod_small; lia.
Qed.
End statements.

(** The values of a block go at its end. *)
Lemma sim_pops n : ∀ g g' stk vs, length vs = n → usual g → placed C g g' → repeat_write n OP_POP g = Ok (tt, g') →
  go (stk ++ vs) (here g) stk (here g').
Proof.
  induction n as [|n IHn]; intros g g' stk vs Hlen Hu Hp E.
  { destruct vs; [|done]. injection E as <-. rewrite app_nil_r. apply goes_refl. }
  destruct vs as [|v vs' _] using rev_ind; [done|]. rewrite length_app Nat.add_1_r in Hlen. injection Hlen as Hlen.
  apply st_bind_Ok in E as ([] & g1 & E1 & E2).
  assert (A2 : anywhere (repeat_write n OP_POP)) by (intros g0; grow).
  destruct (anywhere_code _ _ _ _ (anywhere_write OP_POP) Hu E1) as (Hu1 & b1 & Eb1 & _).
  destruct (anywhere_code _ _ _ _ A2 Hu1 E2) as (_ & b2 & Eb2 & _).
  destruct (placed_trans C g g1 g') as [Hp1 Hp2]; [by exists b1|by exists b2|done|].
  rewrite app_assoc. eapply goes_trans; [by apply sim_pop|by eapply IHn].
Qed.

Lemma fits_scope names bs stk : fits names bs stk → fits ([] :: names) (∅ :: bs) stk.
Proof. intros [He Hs Hcount Hsc]. split; [|done..]. split; [|done]. intros x. by rewrite lookup_empty. Qed.
Lemma env_tail b bs ns names stk stk' : env (b :: bs) (ns :: names) stk → length (concat names) ≤ length stk' →
  stk' `prefix_of` stk → env bs names stk'.
Proof.
  intros [_ H] Hl [rest ->]. eapply env_prefix; [exact H|]. intros p Hp. rewrite lookup_app_l; [done|lia].
Qed.

Lemma sim_block fe fv names room l s stk g g' : statement fe → compiles names g g' →
  fits names (Comptime.m_comptimeBindings s) stk → length stk = length (concat names) →
  simple_block simple room (concat names) l = true → length below + length stk + room ≤ Execution.STACK_MAX →
  VisitBlock (Visit fv) l g = Ok (tt, g') →
  ∀ r s', Comptime.scoped (Comptime.eval_statements (Eval fe) l Comptime.nothing) s = Ok (r, s') →
  ends names stk (here g) (here g') r (Comptime.m_comptimeBindings s) (Comptime.m_comptimeBindings s').
Proof.
  intros IH [Hu Hn Hp Hk] Hf Hlen Hs Hroom E r s' EE.
  apply st_bind_Ok in E as ([] & g1 & E1 & ([] & g3 & (n & g2 & E2 & E3)%st_bind_Ok & E4)%st_bind_Ok).
  apply st_bind_Ok in EE as ([] & s1 & Epush & (r1 & s2 & EE & ([] & s3 & Epop & [= <- <-])%st_bind_Ok)%st_bind_Ok).
  injection Epush as <-. injection Epop as <-.
  destruct (push_scope_Ok _ _ _ (usual_not_empty g Hu) E1) as [Hch1 Hsy1]. destruct (pop_scope_Ok _ _ _ E4) as [Hch4 _].
  pose proof (calm_usual _ _ _ (calming_push_scope g tt g1 Hu E1) Hu) as Hu1.
  assert (A2 : anywhere (visit_statements (Visit fv) l 0)) by (intros g0; apply ext_visit_statements; intros; apply ext_Visit).
  assert (A3 : anywhere (repeat_write (Z.to_nat n) OP_POP)) by (intros g0; grow).
  destruct (anywhere_code _ _ _ _ A2 Hu1 E2) as (Hu2 & b2 & Eb2 & _). destruct (anywhere_code _ _ _ _ A3 Hu2 E3) as (_ & b3 & Eb3 & _).
  assert (Hp13 : placed C g1 g3) by (unfold placed, here in *; by rewrite -Hch4 Hch1).
  destruct (placed_trans C g1 g2 g3) as [Hp12 Hp23]; [by exists b2|by exists b3|done|].
  assert (Hk2 : gconsts g2 `prefix_of` K).
  { etrans; [by eapply (visit_calm_consts _ g2 tt g3 A3)|by rewrite -Hch4]. }
  assert (Hst : settled [] names g1 (∅ :: Comptime.m_comptimeBindings s) stk).
  { split; [done| |by apply fits_scope|done]. rewrite Hsy1. destruct Hn as [Hm Hi]. split; [by split_and!|done]. }
  pose proof (sim_statements fe fv IH names l [] room (Comptime.set_struct_bindings _ (Comptime.set_bindings _ _)) stk g1 g2 n Comptime.nothing Hst ltac:(done) Hp12 Hk2 Hs Hroom E2 eq_refl r1 _ EE) as H.
  rewrite (_ : here g = here g1); [|unfold here; by rewrite Hch1]. rewrite (_ : here g' = here g3); [|unfold here; by rewrite Hch4].
  unfold block_ends in H. unfold ends. destruct (Comptime.didReturn r1); [done|].
  destruct H as (ns & stk' & Hgo & [_ _ Hf' Hlen'] & Hbs & ->). cbn in Hbs.
  rewrite Nat2Z.id in E3. cbn in Hlen'. rewrite length_app in Hlen'.
  exists (take (length stk) stk'). split_and!.
  - eapply goes_trans; [exact Hgo|]. rewrite -{1}(take_drop (length stk) stk'). eapply sim_pops; [|done..].
    rewrite length_drop. lia.
  - rewrite length_take. lia.
  - destruct Hf' as [He Hsz Hcount Hsc]. cbn in Hcount, Hsz. rewrite length_app in Hcount Hsz.
    cbn. destruct (Comptime.m_comptimeBindings s2) as [|b bs] eqn:Hb; [done|].
    split; [|rewrite length_take; lia|lia|by apply Forall_take].
    eapply env_tail; [exact He|rewrite length_take; lia|apply prefix_take].
  - cbn. destruct (Comptime.m_comptimeBindings s2); [done|]. cbn in Hbs. cbn. lia.
Qed.

(** ** The simulation *)

Lemma simulation fe : statement fe.
Proof.
  induction fe as [|fe IH]; [done|]. intros names room n fv s stk g g' Hc Hf Hlen Hs Hroom E r s' EE.
  destruct fv as [|fv]; [done|]. destruct n; try done; cbn [Generator.Visit dispatch] in E; cbn [Comptime.Eval Comptime.eval_node] in EE; cbn [simple] in Hs.
  - apply bool_decide_eq_true in Hs. unfold constant_names in Hs. revert E EE.
    do 3 (case_decide; [subst; set_solver|]). intros [= <-] [= <- <-]. by apply ends_nothing; [apply goes_refl|].
  - by eapply sim_block.
  - apply andb_prop in Hs as [[Hc1 Ht]%andb_prop He]. destruct (is_null n3) eqn:Hnull.
    + destruct n3; try done. exact (sim_if fe IH names room fv n1 n2 s stk g g' Hc Hf Hlen Hc1 Ht Hroom E r s' EE).
    + exact (sim_if_else fe IH names room fv n1 n2 n3 s stk g g' Hc Hf Hlen Hc1 Ht He Hnull Hroom E r s' EE).
  - apply andb_prop in Hs as [Hc1 Ht].
    exact (sim_while fe IH names room fv n1 n2 g g' Hc Hc1 Ht E Comptime.iteration_limit s stk Hf Hlen Hroom r s' EE).
  - apply st_bind_Ok in EE as (v & s1 & Ev & [= <- <-]). by eapply sim_return.
Qed.
End simulation.
