(* ===== verification/FunctionSpec.v ===== *)
(** * A compiled function returns what the evaluator says

    From the parameters of a function to its return: the context that the
    generator opens for it, the frame that the virtual machine opens for a
    call, and between them the simulation of [CompileSpec]. *)

From S2P Require Import Prelude SyncRuntime Transactions Value Bytecode BytecodeSpec Execution Support DataOps Machine MachineSpec MachineRun.
From S2P Require Import Ast SymbolTable TypeNames GenState Resolver Generator GeneratorSpec GeneratorRun Comptime CompileSpec.
From Stdlib Require Import Lia SpecFloat.

Import Value Bytecode Ast GenState Resolver Generator.

(** ** The context of the function *)

(** A context in which only parameters were declared, [xs] with the last one
    first. *)
Record opening (xs : list string) (c : FunctionContext) : Prop := {
  op_chunk : b_chunk (function c) = MkChunk [] [] "";
  op_arity : b_arity (function c) = Z.of_nat (length xs);
  op_symbols : SymbolTable.refines [xs; []] (symbols c);
  op_self : methodSelfStructType c = None ∧ actorSelfType c = None;
}.

Lemma opening_first name b : opening [] (set_isEffectHandler b (InitializeFunctionContext name)).
Proof. split; [done|done|by split_and!|done]. Qed.

Lemma define_parameter_opening x xs c c' g g' : opening xs c → define_parameter x c g = Ok (c', g') → opening (x :: xs) c'.
Proof.
  intros [Hk Ha Hs Hf] (r & g1 & E & [= <- <-])%st_bind_Ok. apply result_bind_Ok in E as (r' & E & [= -> ->]).
  destruct (SymbolTable.Define_refines x xs [[]] _ Hs) as (s' & Hd & Hs'). rewrite Hd in E. injection E as <-.
  split; [done|cbn; lia|done|done].
Qed.

Lemma declare_params_opening params : ∀ xs c c' g g', opening xs c → declare_params params c g = Ok (c', g') →
  opening (rev (p_name <$> params) ++ xs) c'.
Proof.
  induction params as [|param params IH]; intros xs c c' g g' Hc E; [by injection E as <- _|].
  apply st_bind_Ok in E as (c1 & g1 & E1 & (st & g2 & E2 & (it & g3 & E3 & E)%st_bind_Ok)%st_bind_Ok).
  apply (define_parameter_opening _ xs) in E1; [|done]. cbn. rewrite -app_assoc. cbn.
  eapply IH; [|exact E]. by destruct st, it, E1; split.
Qed.

Lemma function_context_opening name params b g c g' : function_context name params [] b g = Ok (c, g') →
  opening (rev (p_name <$> params)) c ∧ b_variadic (function c) = existsb isVariadic params
  ∧ m_contexts g' = m_contexts g ∧ same_active g g'.
Proof.
  intros (c0 & g0 & [= <- <-] & (c1 & g1 & E & [= <- <-])%st_bind_Ok)%st_bind_Ok.
  pose proof (quiet_declare_params params _ _ _ _ E) as [Hc Ha].
  apply (declare_params_opening _ []) in E; [|apply opening_first]. rewrite app_nil_r in E.
  split; [by destruct E; split|done].
Qed.

Section function.
Context (interpret : heap → Chunk → result (heap * (string + Value))) (fv : nat).
Abbreviation Visit := (Generator.Visit interpret fv).

(** The code of a function without contracts is its body, and the return of
    null. *)
Lemma compile_in_context_Ok xs room c name raised body g c' g' : opening xs c → m_contexts g ≠ [] →
  simple room xs body = true → compile_in_context Visit c name raised [] body g = Ok (c', g') →
  ∃ g1 g2 g3 g4, usual g1 ∧ gchunk g1 = MkChunk [] [] "" ∧ gsyms g1 = symbols c
    ∧ Visit body g1 = Ok (tt, g2) ∧ write_constant VMonostate g2 = Ok (tt, g3) ∧ write OP_RETURN g3 = Ok (tt, g4)
    ∧ same_header c c' ∧ gchunk g4 = b_chunk (function c').
Proof.
  intros [Hk Ha Hs Hf] Hg Hbody (u1 & g1 & [= <- <-] & (u2 & g2 & [= <- <-] & E)%st_bind_Ok)%st_bind_Ok.
  apply st_bind_Ok in E as (slot & g3 & [= <- <-] & (u4 & g4 & [= <- <-] & (u5 & g5 & E5 & E6)%st_bind_Ok)%st_bind_Ok).
  set (g1 := set_active _ _ _ _ _) in E5.
  assert (Hu1 : usual g1).
  { split; [cbn; by destruct (m_contexts g); cbn; [|lia]|by intros ? [= <-]|done|done]. }
  assert (Hgrown : grown g1 g5) by (eapply anywhere_run; [intros g0; apply ext_function_code; apply ext_Visit|by apply usual_not_empty|exact E5]).
  apply st_bind_Ok in E5 as (u6 & g6 & [= <- <-] & (u7 & g7 & E7 & ([] & g8 & E8 & E9)%st_bind_Ok)%st_bind_Ok).
  destruct u7, u5. unfold visit_opt in E7. destruct (is_null body) eqn:Hnull; [by destruct body|].
  exists g1, g7, g8, g5. unfold gchunk, gsyms. destruct Hgrown as [Hc _]. unfold contexts_grow in Hc. cbn in Hc.
  unfold pop_context in E6. destruct (m_contexts g5) as [|c5 cs5]; [done|]. injection E6 as <- <-.
  split_and!; try done. by destruct Hc as [[Hh _ _ _] _].
Qed.
End function.

(** ** The arguments *)

(** The parameters bound in order, the last one innermost. *)
Definition bind_parameters (xs : list string) (args : list Value) : list (gmap string Value) :=
  foldl (λ bs b, Comptime.bind_local b.1 b.2 bs) [∅] (zip xs args).

Lemma fits_arguments xs : ∀ args bs done stk, length args = length xs → bs ≠ [] → fits [done; []] bs stk →
  length stk = length done → length stk + length xs ≤ 255 → Forall (λ v, scalar v = true) args →
  fits [rev xs ++ done; []] (foldl (λ bs b, Comptime.bind_local b.1 b.2 bs) bs (zip xs args)) (stk ++ args).
Proof.
  induction xs as [|x xs IH]; intros [|v args] bs ds stk Hl Hbs Hf Hlen Hmax Hs; try done; [by rewrite app_nil_r|].
  apply Forall_cons in Hs as [Hv Hs]. cbn in Hl, Hmax. cbn [zip zip_with foldl fst snd rev].
  rewrite -app_assoc (_ : stk ++ v :: args = (stk ++ [v]) ++ args); [|by rewrite -app_assoc].
  apply IH; [lia|by destruct bs| |rewrite length_app /=; lia|rewrite length_app /=; lia|done].
  apply fits_bind; [done|done|cbn; rewrite app_nil_r; lia|lia|done].
Qed.
Lemma fits_parameters xs args : length args = length xs → length xs ≤ 255 → Forall (λ v, scalar v = true) args →
  fits [rev xs; []] (bind_parameters xs args) args.
Proof.
  intros Hl Hmax Hs. rewrite -(app_nil_r (rev xs)). apply (fits_arguments xs args [∅] [] []); try done.
  split; cbn; [|lia|lia|done]. split; [|done]. intros x. by rewrite lookup_empty.
Qed.

(** ** The call *)

(** A caller in the state [s] that is about to call the closure [p] of [f],
    with room for what the callee needs. *)
Record call_site (entry : nat) (s : Execution.t) (below : list Value) (p : nat) (f : Function) (args : list Value) (room : nat) : Prop := {
  cs_stack : Execution.m_valueStack s = below ++ VPtr ClosurePtr (Some p) :: args;
  cs_closure : ∃ captures, Execution.m_heap s !! p = Some (OClosure (Some f) captures);
  cs_limits : limits s;
  cs_frames : length (Execution.m_frames s) < Execution.FRAMES_MAX;
  cs_entry : entry ≤ length (Execution.m_frames s);
  cs_caller : Execution.m_frames s ≠ [];
  cs_floor : Execution.floor s ≤ length below;
  cs_room : S (length below) + length args + room ≤ Execution.STACK_MAX;
  cs_scalar : Forall (λ v, scalar v = true) args;
}.

Section call.
Context (natives : nat → Machine.NativeFunction) (others : DataOps.peers) (next : nat → Execution.vm (option Value)) (print_fuel entry : nat).
Context (s : Execution.t) (below : list Value) (p : nat) (f : Function) (args : list Value) (room : nat).
Context (Hsite : call_site entry s below p f args room).
Abbreviation C := (Support.code_of f).
Definition callee : Execution.CallFrame := callee_frame s f p (S (length below)).
Definition called : Execution.t := Execution.set_frames (Execution.m_frames s ++ [callee]) s.
Definition under : list Value := below ++ [VPtr ClosurePtr (Some p)].
Abbreviation go := (goes natives others (S print_fuel) next entry called callee under).

Lemma called_frame : last (Execution.m_frames called) = Some callee.
Proof. by rewrite last_snoc. Qed.
Lemma called_base : Execution.stackBase callee = length under.
Proof. unfold under. rewrite length_app. cbn. lia. Qed.

#[local] Set Default Proof Using "Hsite".
Lemma called_entry : entry ≤ length (Execution.m_frames called).
Proof. cbn. rewrite length_app. pose proof (cs_entry _ _ _ _ _ _ _ Hsite). lia. Qed.
Lemma called_conf : conf called callee under args 0 = called.
Proof.
  unfold conf, called, under. cbn. rewrite pop_back_snoc. destruct s as [stk fr sc hd hp cx]. cbn.
  rewrite -app_assoc. by rewrite -(cs_stack _ _ _ _ _ _ _ Hsite).
Qed.

(** A return with [v] on the stack ends the call. *)
Lemma call_returns l v j j' : length under + length l < Execution.STACK_MAX →
  fetch C j = Ok (Fetched (MkInstruction OP_RETURN 0) j') → j' ≤ length C →
  step natives others (S print_fuel) next entry (conf called callee under (l ++ [v]) j) (Execution.set_stack (below ++ [v]) s).
Proof.
  intros Hl Hf Hj. destruct Hsite as [Hs _ [L1 L2 L3] Hfr Hen Hcaller Hfloor Hroom _].
  unfold step, Machine.run_round. rewrite length_frames_conf; [|apply called_frame].
  rewrite (proj2 (Nat.ltb_ge _ _)); [|apply called_entry]. rewrite frame_conf. cbn [Execution.function Execution.set_ip Execution.ip callee callee_frame].
  rewrite Hf SetIp_conf. cbn [fst Machine.Dispatch opcode operand].
  set (s1 := conf _ _ _ _ j').
  assert (E : Machine.HandleReturn s1 = (Execution.set_stack (below ++ [v]) s, Ok true)).
  { rewrite (HandleReturn_run s1 (Execution.m_frames s) (Execution.set_ip j' callee) below (VPtr ClosurePtr (Some p)) (l ++ [v])).
    - cbn. rewrite last_snoc take_ge //.
    - cbn. by rewrite pop_back_snoc.
    - done.
    - cbn. unfold under. by rewrite -app_assoc.
    - done.
    - unfold Execution.floor in *. done.
    - split; cbn.
      + unfold Execution.StackSize. cbn. unfold under in *. rewrite !length_app /= in Hl |- *. lia.
      + rewrite pop_back_snoc length_app /=. lia.
      + rewrite pop_back_snoc. by apply Forall_app_2; [|constructor]. }
  unfold Machine.catch. rewrite E. unfold Machine.after_dispatch. cbn [negb Execution.set_stack Execution.m_frames].
  rewrite (proj2 (Nat.ltb_ge _ _)) // bool_decide_eq_false_2 //.
Qed.
End call.

(** ** The function *)

(** The code of the body and of the return of null behind it are all of the
    code of the function. *)
Section body.
Context (interpret : heap → Chunk → result (heap * (string + Value))) (fv : nat).
Abbreviation Visit := (Generator.Visit interpret fv).
Context (room : nat) (xs : list string) (body : Node) (Hbody : simple room xs body = true).

Lemma body_placed g1 g2 g3 g4 : usual g1 → gchunk g1 = MkChunk [] [] "" →
  Visit body g1 = Ok (tt, g2) → write_constant VMonostate g2 = Ok (tt, g3) → write OP_RETURN g3 = Ok (tt, g4) →
  let C := gcode g4 in let K := gconsts g4 in
  calm true g1 g2 ∧ usual g3 ∧ Forall literal K ∧ placed C g1 g2 ∧ placed C g2 g3 ∧ placed C g3 g4
  ∧ gconsts g2 `prefix_of` K ∧ gconsts g3 `prefix_of` K.
Proof using Hbody.
  intros Hu Hk E1 E2 E3 C K. pose proof (calming_simple interpret fv room xs body Hbody _ _ _ Hu E1) as C1.
  pose proof (calm_usual _ _ _ C1 Hu) as Hu2. pose proof (calming_write_constant true VMonostate ltac:(done) _ _ _ Hu2 E2) as C2.
  pose proof (calm_usual _ _ _ C2 Hu2) as Hu3. pose proof (calming_write true OP_RETURN _ _ _ Hu3 E3) as C3.
  assert (A1 : anywhere (Visit body)) by apply anywhere_Visit.
  assert (A2 : anywhere (write_constant VMonostate)) by (intros g0; grow).
  destruct (anywhere_code _ _ _ _ A1 Hu E1) as (_ & b1 & Eb1 & _). destruct (anywhere_code _ _ _ _ A2 Hu2 E2) as (_ & b2 & Eb2 & _).
  destruct (write_Ok _ _ _ _ E3) as (Eb3 & Ek3 & _).
  assert (Hall : placed C g1 g4).
  { exists C. unfold here, C. rewrite Hk. cbn. split; [done|]. split; [lia|]. by rewrite drop_0. }
  destruct (placed_trans C g1 g2 g4) as [Hp1 Hp]; [by exists b1|by rewrite Eb3 Eb2 -app_assoc; eexists|done|].
  destruct (placed_trans C g2 g3 g4) as [Hp2 Hp3]; [by exists b2|by rewrite Eb3; eexists|done|].
  pose proof (visit_calm_consts _ g2 tt g3 A2 Hu2 E2) as Hk23. unfold K. rewrite Ek3. split_and!; try done.
  rewrite -Ek3. apply C3, C2, C1. unfold clean. by rewrite Hk.
Qed.
End body.

Section theorem.
Context (interpret : heap → Chunk → result (heap * (string + Value))).
Context (natives : nat → Machine.NativeFunction) (others : DataOps.peers) (next : nat → Execution.vm (option Value)) (print_fuel pf entry fv fe : nat).

Lemma body_runs room xs c name raised body g c' g' f s below p args s0 s0' r : opening xs c → m_contexts g ≠ [] →
  simple room xs body = true → compile_in_context (Generator.Visit interpret fv) c name raised [] body g = Ok (c', g') → 1 ≤ room →
  Support.code_of f = code (b_chunk (function c')) → Support.constants_of f = constants (b_chunk (function c')) →
  (Z.of_nat (length (Support.constants_of f)) ≤ 2 ^ 16)%Z → (Z.of_nat (length (Support.code_of f)) < 2 ^ 16)%Z →
  call_site entry s below p f args room → length args = length xs →
  fits [xs; []] (Comptime.m_comptimeBindings s0) args → Comptime.Eval (S pf) fe body s0 = Ok (r, s0') →
  rtc (step natives others (S print_fuel) next entry) (called s below p f)
    (Execution.set_stack (below ++ [if Comptime.didReturn r then Comptime.value r else VMonostate]) s).
Proof.
  intros Hop Hg Hbody E Hroom HC HK HKmax HCmax Hsite Hlen Hf Er.
  destruct (compile_in_context_Ok interpret fv xs room c name raised body g c' g' Hop Hg Hbody E)
    as (g1 & g2 & g3 & g4 & Hu & Hk1 & Hs1 & E1 & E2 & E3 & _ & Hk4).
  rewrite -Hk4 in HC HK. destruct (body_placed interpret fv room xs body Hbody g1 g2 g3 g4 Hu Hk1 E1 E2 E3)
    as (C1 & Hu3 & Hlit & Hp1 & Hp2 & Hp3 & Hk2 & Hk3). rewrite -HC -HK in Hlit Hp1 Hp2 Hp3 Hk2 Hk3.
  pose proof (cs_room _ _ _ _ _ _ _ Hsite) as Hmax.
  assert (Hunder : length (under below p) = S (length below)) by (unfold under; rewrite length_app /=; lia).
  pose proof (called_frame s below p f) as Hframe. pose proof (called_base s below p f) as Hbase.
  pose proof (called_entry _ _ _ _ _ _ _ Hsite) as Hentry.
  assert (H0 : here g1 = 0) by (unfold here; by rewrite Hk1).
  assert (Hc : compiles (callee s below p f) [xs; []] g1 g2) by (split; [done|rewrite Hs1; apply Hop|done|done]).
  pose proof (simulation natives others next print_fuel pf entry interpret _ _ _ Hframe Hbase Hentry HKmax Hlit HCmax fe
    [xs; []] room body fv s0 args g1 g2 Hc Hf) as H. cbn [concat] in H. rewrite !app_nil_r in H.
  specialize (H Hlen Hbody ltac:(lia) E1 r s0' Er). rewrite H0 in H.
  rewrite -{1}(called_conf _ _ _ _ _ _ _ Hsite). unfold ends in H. destruct (Comptime.didReturn r).
  - destruct H as (_ & l & j & j' & Hgo & Hfetch & Hl). etrans; [exact Hgo|]. apply rtc_once.
    eapply (call_returns _ _ _ _ _ _ _ _ _ _ room Hsite); [exact Hl|exact Hfetch|]. by apply (fetch_at _ _ _ _ Hfetch).
  - destruct H as (stk' & Hgo & Hlen' & _). etrans; [exact Hgo|].
    assert (Hgo2 : goes natives others (S print_fuel) next entry (called s below p f) (callee s below p f) (under below p) stk' (here g2) (stk' ++ [VMonostate]) (here g3)).
    { destruct (write_constant_fetch _ HKmax Hlit _ VMonostate g2 tt g3 ltac:(done) Hk3 E2 Hp2) as (n & Hfetch & Hn).
      eapply go_constant; [done..|exact Hfetch|exact Hn|lia]. }
    etrans; [exact Hgo2|]. apply rtc_once.
    assert (Hfetch : fetch (Support.code_of f) (here g3) = Ok (Fetched (MkInstruction OP_RETURN 0) (here g4))) by by eapply write_fetch.
    eapply (call_returns _ _ _ _ _ _ _ _ _ _ room Hsite); [lia|exact Hfetch|]. by apply (fetch_at _ _ _ _ Hfetch).
Qed.
End theorem.

(** C1. A function without contracts and effects on values without objects, whose
    body is in the fragment of [simple]: called with as many arguments as it
    has parameters, its code runs back to the caller and leaves what the
    evaluator returns for the body, or null when the body comes to its end.
    The jumps are right while the code is shorter than 65536 bytes. *)
Theorem compiled_function_correct interpret natives others next print_fuel pf entry fv fe name params raised body handler g c g'
    address f s below p args room s0 s0' r :
  compiled_function (Generator.Visit interpret fv) name params [] raised [] body handler g = Ok (c, g') →
  m_contexts g ≠ [] → existsb isVariadic params = false → length params ≤ 255 →
  simple room (rev (p_name <$> params)) body = true → 1 ≤ room →
  (Z.of_nat (length (constants (b_chunk (function c)))) ≤ 2 ^ 16)%Z →
  (Z.of_nat (length (code (b_chunk (function c)))) < 2 ^ 16)%Z →
  function_value address (function c) = VFunction (Some f) →
  call_site entry s below p f args room → length args = length params →
  Comptime.m_comptimeBindings s0 = bind_parameters (p_name <$> params) args →
  Comptime.Eval (S pf) fe body s0 = Ok (r, s0') →
  ∃ s1, Machine.HandleCall natives (length args) s = (s1, Ok true)
    ∧ rtc (step natives others (S print_fuel) next entry) s1
        (Execution.set_stack (below ++ [if Comptime.didReturn r then Comptime.value r else VMonostate]) s).
Proof.
  intros (c0 & g0 & E0 & E)%st_bind_Ok Hg Hvar Hparams Hbody Hroom HK HC Hf Hsite Hlen Hb Er. injection Hf as <-.
  destruct (function_context_opening _ _ _ _ _ _ E0) as (Hop & Hvar' & Hg0 & _).
  assert (Hlen' : length args = length (rev (p_name <$> params))) by (by rewrite length_rev length_fmap).
  rewrite -Hg0 in Hg.
  destruct (compile_in_context_Ok interpret fv _ room c0 name raised body g0 c g' Hop Hg Hbody E)
    as (_ & _ & _ & _ & _ & _ & _ & _ & _ & _ & (_ & Ha & _ & Hv & _) & _).
  destruct (cs_closure _ _ _ _ _ _ _ Hsite) as [captures Hp]. eexists. split.
  - eapply HandleCall_run; [apply Hsite|exact Hp| |apply Hsite|apply Hsite].
    split; [by rewrite Hv Hvar'|]. by rewrite Ha (op_arity _ _ Hop) Hlen'.
  - eapply body_runs; [exact Hop|exact Hg|exact Hbody|exact E|done|done|done|exact HK|exact HC|exact Hsite|exact Hlen'| |exact Er].
    rewrite Hb. apply fits_parameters; [|by rewrite length_fmap|apply Hsite]. by rewrite Hlen length_fmap.
Qed.

(** *** Witness: a sum in a loop *)

(** [fn sum(n) { let s = 0; while (n > 0) { let m = n; s = s + m; n = n - 1; } return s; }] *)
Definition sum_params : list Parameter_ := [MkParameter "n" "" NullNode false].
Definition sum_body : Node :=
  BlockNode [LeafNode "{" "{";
    VarDeclNode "s" "" (IntegerLiteralNode 0) false Default_;
    WhileStatementNode (BinaryExprNode (IdentifierNode "n") ">" (IntegerLiteralNode 0))
      (BlockNode [LeafNode "{" "{";
        VarDeclNode "m" "" (IdentifierNode "n") false Default_;
        AssignmentNode "s" NullNode "" NullNode (BinaryExprNode (IdentifierNode "s") "+" (IdentifierNode "m")) NullNode;
        AssignmentNode "n" NullNode "" NullNode (BinaryExprNode (IdentifierNode "n") "-" (IntegerLiteralNode 1)) NullNode]);
    ReturnNode (IdentifierNode "s")].
Definition no_interpreter : heap → Chunk → result (heap * (string + Value)) := λ h _, Ok (h, inl ""%string).
Definition sum_generator : GenState.t := set_contexts [top_level_context "demo"] Generator.initial.
Abbreviation sum_compiled :=
  (compiled_function (Generator.Visit no_interpreter 8) "sum" sum_params [] [] [] sum_body false sum_generator).
Definition sum_function : Function :=
  match sum_compiled with
  | Ok (c, _) => match function_value 7 (function c) with VFunction (Some f) => f | _ => MkFunction 0 "" None 0 0 false [] end
  | _ => MkFunction 0 "" None 0 0 false []
  end.
Definition sum_caller : Execution.t :=
  Execution.Mk [VMonostate; VPtr ClosurePtr (Some 3); VInt64 4] [Execution.MkFrame demo_callee None 0 0 0 0] [] []
    {[ 3 := OClosure (Some sum_function) [] ]} (Execution.m_ctx demo_context) "" (Execution.MkRegistry 0 ∅).
Definition sum_state : Comptime.t := Comptime.Mk sum_generator (bind_parameters ["n"%string] [VInt64 4]) [∅] ∅.

Lemma result_test {A} (m : result A) (test : A → bool) :
  match m with Ok a => test a | _ => false end = true → ∃ a, m = Ok a ∧ test a = true.
Proof. destruct m as [a| |]; [by exists a|done..]. Qed.
Lemma sum_compiles : ∃ c g', sum_compiled = Ok (c, g')
  ∧ (Z.of_nat (length (constants (b_chunk (function c)))) ≤ 2 ^ 16)%Z
  ∧ (Z.of_nat (length (code (b_chunk (function c)))) < 2 ^ 16)%Z.
Proof.
  destruct (result_test sum_compiled (λ r, let k := b_chunk (function r.1) in
    (Z.of_nat (length (constants k)) <=? 2 ^ 16) && (Z.of_nat (length (code k)) <? 2 ^ 16))%Z) as ([c g'] & E & H).
  { vm_compute. reflexivity. }
  apply andb_prop in H as [HK%Z.leb_le HC%Z.ltb_lt]. exists c, g'. exact (conj E (conj HK HC)).
Qed.
Lemma sum_object c g' : sum_compiled = Ok (c, g') → function_value 7 (function c) = VFunction (Some sum_function).
Proof. intros E. unfold sum_function. by rewrite E. Qed.
Lemma sum_evaluates : ∃ s0', Comptime.Eval 4 8 sum_body sum_state
  = Ok (Comptime.MkResult (VDouble (int64_to_double 10)) true, s0').
Proof.
  assert (E : (λ r, r.1) <$> Comptime.Eval 4 8 sum_body sum_state = Ok (Comptime.MkResult (VDouble (int64_to_double 10)) true))
    by (vm_compute; reflexivity).
  revert E. generalize (Comptime.Eval 4 8 sum_body sum_state). intros [[r s0']| |] E; [|done..]. injection E as ->. by exists s0'.
Qed.
Lemma sum_simple : simple 8 ["n"%string] sum_body = true.
Proof. vm_compute. reflexivity. Qed.
Lemma sum_site : call_site 1 sum_caller [VMonostate] 3 sum_function [VInt64 4] 8.
Proof.
  split; [done|by exists []|split; [| |by repeat constructor]|..|by repeat constructor].
  all: lazymatch goal with |- _ ≠ _ => done | |- _ < _ => apply Nat.ltb_lt | |- _ => apply Nat.leb_le end; vm_compute; reflexivity.
Qed.

Lemma compiled_function_correct_witness :
  ∃ s1, Machine.HandleCall demo_natives 1 sum_caller = (s1, Ok true)
    ∧ rtc (step demo_natives demo_others 5 demo_next 1) s1 (Execution.set_stack [VMonostate; VDouble (int64_to_double 10)] sum_caller).
Proof.
  destruct sum_compiles as (c & g' & Ec & HK & HC). destruct sum_evaluates as (s0' & Er).
  pose proof (sum_object c g' Ec) as Ef.
  exact (compiled_function_correct no_interpreter demo_natives demo_others demo_next 4 3 1 8 8 "sum" sum_params [] sum_body false sum_generator c g'
    7 _ sum_caller [VMonostate] 3 [VInt64 4] 8 sum_state s0' _ Ec ltac:(done) eq_refl ltac:(cbn; lia) sum_simple ltac:(lia) HK HC Ef
    sum_site eq_refl eq_refl Er).
Defined.
