(* ===== verification/Programs.v ===== *)
(** * Whole programs

    Trees that the generator compiles and the virtual machine runs, from
    [BytecodeGenerator::Compile] to the end of [VirtualMachine::Interpret]: what
    a few programs print, and where the two sides disagree with each other or
    with what a program means.  The values of the examples are computed by the
    kernel from the definitions. *)

From S2P Require Import Prelude SyncRuntime Transactions Value Bytecode Execution Support DataOps Machine MachineSpec.
From S2P Require Import Ast SymbolTable TypeNames GenState Resolver Generator Serialize Comptime.

Import Value Bytecode Ast GenState Generator.

(** ** Running *)

Inductive outcome :=
  | Done (success : bool) (error output : string) (height : nat) (top : Value)
  | Undef (what : string)
  | Refused (what : exn)
  | Endless.

Definition outcome_of (r : Machine.round) : outcome :=
  match r with
  | Machine.Returned b s =>
      Done b (Ctx.m_errorMessage (Execution.m_ctx s)) (Execution.m_output s) (Execution.StackSize s)
        (default VMonostate (last (Execution.m_valueStack s)))
  | Machine.Running _ => Endless
  | Machine.Undefined w => Undef w
  end.
Definition run_chunk (fuel : nat) (k : Chunk) : outcome :=
  outcome_of (Machine.Interpret demo_natives demo_others 5 fuel k demo_context).

(** The programs here evaluate nothing at compile time. *)
Definition no_comptime : heap → Chunk → result (heap * (string + Value)) := λ h _, Ok (h, inl "no machine"%string).
Definition run_program (fuel : nat) (root : Node) : outcome :=
  match Compile no_comptime 12 root with
  | Ok (k, _) => run_chunk fuel k
  | Throw e => Refused e
  | Diverge => Endless
  end.

Abbreviation num := IntegerLiteralNode.
Abbreviation ident := IdentifierNode.
Definition var (x : string) (e : Node) : Node := VarDeclNode x "" e false Default_.
Definition typed (x type : string) (e : Node) : Node := VarDeclNode x type e false Default_.
Definition assign (x : string) (e : Node) : Node := AssignmentNode x NullNode "" NullNode e NullNode.
Definition par (x : string) : Parameter_ := MkParameter x "" NullNode false.
Definition fn (f : string) (params : list Parameter_) (body : list Node) : Node :=
  FunctionDeclNode f "" false [] params [] [] [] (BlockNode body).
Definition lambda (x : string) (e : Node) : Node := FunctionExprNode "" "" [par x] [] (BlockNode [ReturnNode e]).
Definition lines (l : list string) : string := foldr (λ x s, x +:+ String (ascii_of_nat 10) s) "" l.

(** ** What programs do *)

Definition data_program : Node := BlockNode [
  StructDeclNode "P" [] [MkStructField "x" "int"; MkStructField "y" "int"] [] [] [];
  typed "p" "P" (CallNode (ident "P") [num 1; num 2]);
  PrintNode (MemberAccessNode (ident "p") "y");
  var "m" (MapLiteralNode "string" "int" [(StringLiteralNode "k", num 4)]);
  PrintNode (IndexNode (ident "m") (StringLiteralNode "k"));
  var "a" (ArrayLiteralNode [num 1; num 2; num 3]);
  IterNode "v" (ident "a")
    [(Filter, lambda "q" (BinaryExprNode (ident "q") "<" (num 3)));
     (Transform, lambda "q" (BinaryExprNode (ident "q") "*" (num 10))); (Reverse_, NullNode)]
    (BlockNode [PrintNode (ident "v")])].
Example data_program_runs : run_program 400 data_program = Done true "" (lines ["2"; "4"; "20"; "10"]%string) 1 VMonostate.
Proof. vm_compute. reflexivity. Qed.

(** A handler answers the operation that a function performs. *)
Definition effect_program : Node := BlockNode [
  EffectDeclNode "E" [MkInterfaceMethod "ask" "int" [MkParameter "n" "int" NullNode false] []];
  FunctionDeclNode "g" "int" false [] [] [] ["E"] []
    (BlockNode [ReturnNode (BinaryExprNode (CallNode (ident "ask") [num 20]) "+" (num 1))]);
  PrintNode (HandleNode (CallNode (ident "g") [])
    [MkHandlerCase "ask" "" [MkParameter "n" "int" NullNode false]
       (BlockNode [ReturnNode (BinaryExprNode (ident "n") "*" (num 2))])])].
Example effect_program_runs : run_program 400 effect_program = Done true "" (lines ["41"]%string) 1 VMonostate.
Proof. vm_compute. reflexivity. Qed.

(** ** Calls with omitted arguments *)

(** [fn f(a = 1, r...)] called as [f()]: the default of [a] is pushed, and the
    operand of the call does not count it. *)
Example variadic_default_not_counted :
  run_program 100 (BlockNode [FunctionDeclNode "f" "" false [] [MkParameter "a" "" (num 1) false; MkParameter "r" "" NullNode true]
                                [] [] [] (BlockNode []); CallNode (ident "f") []])
  = Done false "Can only call functions [in top_level]" "" 3 (VInt64 1).
Proof. vm_compute. reflexivity. Qed.

(** A method with a context and a parameter [d = 5], called without [d]: the
    context is passed and the default is not, and the operand counts both. *)
Example method_context_default_missing :
  run_program 100 (BlockNode [
    StructDeclNode "S" [] [] [] [MkStructMethod "m" "" [MkParameter "d" "" (num 5) false] [MkContextBinding "c" "C"]
                                   [] [] (BlockNode [])] [];
    typed "s" "S" (CallNode (ident "S") []); typed "c" "C" (num 0);
    CallNode (MemberAccessNode (ident "s") "m") []])
  = Done false "Can only call functions [in top_level]" "" 6 (VInt64 0).
Proof. vm_compute. reflexivity. Qed.

(** ** Statements *)

(** The statement [null;] leaves its value on the stack, so that a loop around
    it ends when the stack is full. *)
Definition spin (n : Z) : Node := BlockNode [
  var "i" (num 0);
  WhileStatementNode (BinaryExprNode (ident "i") "<" (num n))
    (BlockNode [LeafNode "null" ""; assign "i" (BinaryExprNode (ident "i") "+" (num 1))])].
Example null_statement_fills_stack :
  ∃ top, run_program (N.to_nat 60000) (spin 5000) = Done false "Value stack overflow" "" 4096 top.
Proof. eexists. vm_compute. reflexivity. Qed.

(** A package that is imported is a constant of the chunk, and such a chunk
    cannot be written. *)
Example import_not_serializable :
  ((λ r, Serialize.SerializeChunk r.1) <$> Compile no_comptime 9 (BlockNode [ImportDeclNode "std.core" ""]))
  = Ok (Throw (runtime_error "Unsupported constant type in bytecode serialization")).
Proof. vm_compute. reflexivity. Qed.

(** ** Pointers *)

(** The address of a local outlives its function and leads to whatever is in
    its slot: the pointer to [x = 1] reads [y = 7]. *)
Example pointer_to_local_dangles :
  run_program 300 (BlockNode [
    fn "f" [] [var "x" (num 1); ReturnNode (UnaryExprNode "&" (ident "x"))];
    var "p" (CallNode (ident "f") []); var "y" (num 7); var "z" (num 8);
    PrintNode (UnaryExprNode "*" (ident "p"))])
  = Done true "" (lines ["7"]%string) 1 VMonostate.
Proof. vm_compute. reflexivity. Qed.

(** The address of a captured variable reads the captures of the frame that
    dereferences it. *)
Example pointer_to_upvalue_moves :
  run_program 300 (BlockNode [
    var "x" (num 1); fn "f" [] [ReturnNode (UnaryExprNode "&" (ident "x"))];
    var "p" (CallNode (ident "f") []); PrintNode (UnaryExprNode "*" (ident "p"))])
  = Done false "Upvalue index out of bounds" "" 3 (VPtr PointerPtr (Some 2)).
Proof. vm_compute. reflexivity. Qed.

(** ** Bytecode *)

(** A reversed iterator without values reads its empty buffer when it is asked
    a second time. *)
Example reversed_empty_iterator :
  run_chunk 50 (MkChunk (assemble [(OP_BUILD_ARRAY, 0); (OP_MAKE_ITER, 0); (OP_ITER_REVERSE, 0); (OP_CONSTANT, 0);
                                   (OP_ITER_DROP, 0); (OP_ITER_NEXT, 0); (OP_RETURN, 0)]%Z) [VInt64 1] "")
  = Undef "vector index out of range".
Proof. vm_compute. reflexivity. Qed.

(** The second operand of [OP_BUILD_ENUM] is read past the end of the code. *)
Example truncated_enum_reads_on : run_chunk 50 (MkChunk (assemble [(OP_BUILD_ENUM, 1)]%Z) [] "") = Undef "vector index out of range".
Proof. vm_compute. reflexivity. Qed.

(** Zero and minus zero share a constant. *)
Example zero_constants_shared :
  Bytecode.AddConstant (VDouble (SpecFloat.S754_zero true)) (MkChunk [] [VDouble (SpecFloat.S754_zero false)] "")
  = Ok (0%Z, MkChunk [] [VDouble (SpecFloat.S754_zero false)] "").
Proof. vm_compute. reflexivity. Qed.

(** [return;] as the builder makes it: the function returns its local. *)
Example return_nothing_returns_local :
  run_program 100 (BlockNode [
    fn "f" [] [LeafNode "{" "{"; var "x" (num 5); ReturnNode (RawNode "expression_opt" [])];
    PrintNode (CallNode (ident "f") [])])
  = Done true "" (lines ["5"]%string) 1 VMonostate.
Proof. vm_compute. reflexivity. Qed.
