(* ===== verification/Crypto.v ===== *)
(** * The native modules of cryptography and base64

    [src/vm/runtime/stdlib/crypto/CryptoModule.cpp] and
    [src/vm/runtime/stdlib/base64/Base64Module.cpp] up to their native functions,
    which are in [NativeModules]: SHA-256 over a buffer of 64 bytes, HMAC, base64url
    in both directions and the comparison without early exit.  A byte is a [Z] from
    0 to 255, a [uint32_t] a [Z] reduced modulo 2^32. *)

From S2P Require Import Prelude.

Module Bytes.

Definition of_ascii (c : ascii) : Z := Z.of_N (N_of_ascii c).
(** [static_cast<char>] *)
Definition to_ascii (z : Z) : ascii := ascii_of_N (Z.to_N (z mod 256)).
Definition of_string (s : string) : list Z := of_ascii <$> String.list_ascii_of_string s.
Definition to_string (l : list Z) : string := String.string_of_list_ascii (to_ascii <$> l).
Definition is_byte (z : Z) : Prop := (0 ≤ z < 256)%Z.

End Bytes.

Module CryptoModule.
Import Bytes.
Local Open Scope Z_scope.

Definition uint32 (z : Z) : Z := z mod 2 ^ 32.
Definition uint64 (z : Z) : Z := z mod 2 ^ 64.

(** ** SHA-256 *)

(** [std::array<uint32_t, 8>] *)
Record words := MkWords { w_a : Z; w_b : Z; w_c : Z; w_d : Z; w_e : Z; w_f : Z; w_g : Z; w_h : Z }.

Record Sha256State := MkState { hash : words; buffer : list Z; bitLength : Z; bufferSize : nat }.

Definition initial_hash : words :=
  MkWords 0x6a09e667 0xbb67ae85 0x3c6ef372 0xa54ff53a 0x510e527f 0x9b05688c 0x1f83d9ab 0x5be0cd19.
(** [Sha256State state;] *)
Definition initial_state : Sha256State := MkState initial_hash (replicate 64 0) 0 0.

(** The table, a row of eight words at a time: each literal is a row of the
    source without the commas. *)
Definition eight_words (row : Z) : list Z :=
  (λ i : nat, uint32 (Z.shiftr row (32 * (7 - Z.of_nat i)))) <$> seq 0 8.
Definition Sha256Constants : list Z :=
  Eval vm_compute in
  [ 0x428a2f9871374491b5c0fbcfe9b5dba53956c25b59f111f1923f82a4ab1c5ed5;
    0xd807aa9812835b01243185be550c7dc372be5d7480deb1fe9bdc06a7c19bf174;
    0xe49b69c1efbe47860fc19dc6240ca1cc2de92c6f4a7484aa5cb0a9dc76f988da;
    0x983e5152a831c66db00327c8bf597fc7c6e00bf3d5a7914706ca635114292967;
    0x27b70a852e1b21384d2c6dfc53380d13650a7354766a0abb81c2c92e92722c85;
    0xa2bfe8a1a81a664bc24b8b70c76c51a3d192e819d6990624f40e3585106aa070;
    0x19a4c1161e376c082748774c34b0bcb5391c0cb34ed8aa4a5b9cca4f682e6ff3;
    0x748f82ee78a5636f84c878148cc7020890befffaa4506cebbef9a3f7c67178f2 ] ≫= eight_words.

Definition RotateRight (value bits : Z) : Z :=
  Z.lor (Z.shiftr value bits) (uint32 (Z.shiftl value (32 - bits))).

(** The first sixteen words, in big endian. *)
Definition first_word (chunk : list Z) (i : nat) : Z :=
  Z.lor (Z.lor (Z.lor (Z.shiftl (chunk !!! (i * 4)%nat) 24) (Z.shiftl (chunk !!! (i * 4 + 1)%nat) 16))
           (Z.shiftl (chunk !!! (i * 4 + 2)%nat) 8))
    (chunk !!! (i * 4 + 3)%nat).
(** The other words, from those before. *)
Definition extend (schedule : list Z) (i : nat) : list Z :=
  let w k := schedule !!! (i - k)%nat in
  let s0 := Z.lxor (Z.lxor (RotateRight (w 15%nat) 7) (RotateRight (w 15%nat) 18)) (Z.shiftr (w 15%nat) 3) in
  let s1 := Z.lxor (Z.lxor (RotateRight (w 2%nat) 17) (RotateRight (w 2%nat) 19)) (Z.shiftr (w 2%nat) 10) in
  <[i := uint32 (w 16%nat + s0 + w 7%nat + s1)]> schedule.
Definition make_schedule (chunk : list Z) : list Z :=
  foldl extend ((first_word chunk <$> seq 0 16) ++ replicate 48 0) (seq 16 48).

(** A round; [(~e) & g] on [uint32_t]. *)
Definition sha_round (v : words) (kw : Z * Z) : words :=
  let 'MkWords a b c d e f g h := v in
  let s1 := Z.lxor (Z.lxor (RotateRight e 6) (RotateRight e 11)) (RotateRight e 25) in
  let choice := Z.lxor (Z.land e f) (Z.land (Z.lxor e (2 ^ 32 - 1)) g) in
  let temp1 := uint32 (h + s1 + choice + kw.1 + kw.2) in
  let s0 := Z.lxor (Z.lxor (RotateRight a 2) (RotateRight a 13)) (RotateRight a 22) in
  let majority := Z.lxor (Z.lxor (Z.land a b) (Z.land a c)) (Z.land b c) in
  let temp2 := uint32 (s0 + majority) in
  MkWords (uint32 (temp1 + temp2)) a b c (uint32 (d + temp1)) e f g.

Definition add_words (v w : words) : words :=
  MkWords (uint32 (w_a v + w_a w)) (uint32 (w_b v + w_b w)) (uint32 (w_c v + w_c w)) (uint32 (w_d v + w_d w))
    (uint32 (w_e v + w_e w)) (uint32 (w_f v + w_f w)) (uint32 (w_g v + w_g w)) (uint32 (w_h v + w_h w)).

(** What a chunk of 64 bytes makes of the eight words. *)
Definition TransformSha256 (hash : words) (chunk : list Z) : words :=
  add_words hash (foldl sha_round hash (zip Sha256Constants (make_schedule chunk))).

(** [state.buffer[state.bufferSize++] = byte] *)
Definition write_byte (byte : Z) (s : Sha256State) : result Sha256State :=
  if (bufferSize s <? 64)%nat
  then Ok (MkState (hash s) (<[bufferSize s := byte]> (buffer s)) (bitLength s) (S (bufferSize s)))
  else Throw (undefined_behaviour "buffer index out of range").
(** [TransformSha256(state, state.buffer.data())], and the buffer is empty again. *)
Definition transform_buffer (s : Sha256State) : Sha256State :=
  MkState (TransformSha256 (hash s) (buffer s)) (buffer s) (bitLength s) 0.

Definition update_byte (s : Sha256State) (byte : Z) : result Sha256State :=
  s ← write_byte byte s;
  if (bufferSize s =? 64)%nat
  then Ok (let s := transform_buffer s in MkState (hash s) (buffer s) (uint64 (bitLength s + 512)) (bufferSize s))
  else Ok s.
Fixpoint UpdateSha256 (s : Sha256State) (data : list Z) : result Sha256State :=
  match data with
  | [] => Ok s
  | byte :: data => s ← update_byte s byte; UpdateSha256 s data
  end.

(** [while (state.bufferSize < ...) state.buffer[state.bufferSize++] = 0] with
    the number of its rounds, and the writes of the length. *)
Fixpoint write_bytes (l : list Z) (s : Sha256State) : result Sha256State :=
  match l with [] => Ok s | byte :: l => s ← write_byte byte s; write_bytes l s end.
Definition fill_to (n : nat) (s : Sha256State) : result Sha256State :=
  write_bytes (replicate (n - bufferSize s) 0) s.

(** The bytes of a word of [k] bytes, in big endian. *)
Definition big_endian (k : nat) (z : Z) : list Z :=
  (λ i, Z.land (Z.shiftr z (Z.of_nat i * 8)) 0xFF) <$> reverse (seq 0 k).
Definition digest_of (v : words) : list Z :=
  big_endian 4 (w_a v) ++ big_endian 4 (w_b v) ++ big_endian 4 (w_c v) ++ big_endian 4 (w_d v)
  ++ big_endian 4 (w_e v) ++ big_endian 4 (w_f v) ++ big_endian 4 (w_g v) ++ big_endian 4 (w_h v).

Definition FinalizeSha256 (s : Sha256State) : result (list Z) :=
  let s := MkState (hash s) (buffer s) (uint64 (bitLength s + uint64 (Z.of_nat (bufferSize s)) * 8)) (bufferSize s) in
  s ← write_byte 0x80 s;
  s ← (if (56 <? bufferSize s)%nat then s ← fill_to 64 s; Ok (transform_buffer s) else Ok s);
  s ← fill_to 56 s;
  s ← write_bytes (big_endian 8 (bitLength s)) s;
  Ok (digest_of (hash (transform_buffer s))).

Definition Sha256 (data : list Z) : result (list Z) :=
  s ← UpdateSha256 initial_state data; FinalizeSha256 s.

(** ** HMAC *)

(** [std::memcpy] to the front of an array of 64 zeros. *)
Definition block_key (key : list Z) : result (list Z) :=
  k ← (if (64 <? length key)%nat then Sha256 key else Ok key);
  Ok (k ++ replicate (64 - length k) 0).

Definition HmacSha256 (key data : list Z) : result (list Z) :=
  blockKey ← block_key key;
  let innerPad := (λ b, Z.lxor b 0x36) <$> blockKey in
  let outerPad := (λ b, Z.lxor b 0x5c) <$> blockKey in
  innerState ← UpdateSha256 initial_state innerPad;
  innerState ← UpdateSha256 innerState data;
  innerDigest ← FinalizeSha256 innerState;
  outerState ← UpdateSha256 initial_state outerPad;
  outerState ← UpdateSha256 outerState innerDigest;
  FinalizeSha256 outerState.

(** ** Comparison *)

Fixpoint compare_bytes (diff : Z) (l r : list Z) (size : nat) : Z :=
  match size with
  | O => diff
  | S size =>
      compare_bytes (Z.lor diff (Z.lxor (default 0 (head l)) (default 0 (head r)))) (tail l) (tail r) size
  end.
Definition ConstantTimeEqual (l r : list Z) : bool :=
  let maxSize := (length l `max` length r)%nat in
  let diff := Z.lxor (Z.of_nat (length l)) (Z.of_nat (length r)) mod 256 in
  compare_bytes diff l r maxSize =? 0.

(** ** Base64url *)

Definition alphabet : string := "ABCDEFGHIJKLMNOPQRSTUVWXYZabcdefghijklmnopqrstuvwxyz0123456789-_".
(** [alphabet[(block >> shift) & 0x3F]] *)
Definition symbol (block shift : Z) : ascii :=
  default "A"%char (String.list_ascii_of_string alphabet !! Z.to_nat (Z.land (Z.shiftr block shift) 0x3F)).
Definition block_of (a b c : Z) : Z := Z.lor (Z.lor (Z.shiftl a 16) (Z.shiftl b 8)) c.

Fixpoint encode (data : list Z) : list ascii :=
  match data with
  | a :: b :: c :: data =>
      let block := block_of a b c in
      symbol block 18 :: symbol block 12 :: symbol block 6 :: symbol block 0 :: encode data
  | [a; b] => let block := block_of a b 0 in [symbol block 18; symbol block 12; symbol block 6]
  | [a] => let block := block_of a 0 0 in [symbol block 18; symbol block 12]
  | [] => []
  end.
Definition Base64UrlEncode (data : list Z) : string := String.string_of_list_ascii (encode data).

End CryptoModule.

Module Base64Module.
Import Bytes.
Local Open Scope Z_scope.

(** The table [alphabet]. *)
Definition alphabet (c : ascii) : Z :=
  let z := of_ascii c in
  if (65 <=? z) && (z <=? 90) then z - 65
  else if (97 <=? z) && (z <=? 122) then 26 + (z - 97)
  else if (48 <=? z) && (z <=? 57) then 52 + (z - 48)
  else if bool_decide (c = "-"%char) then 62
  else if bool_decide (c = "_"%char) then 63
  else if bool_decide (c = "="%char) then 0
  else -1.

Definition pad_char : ascii := "="%char.
(** The loop that appends [=]. *)
Definition normalize (input : list ascii) : list ascii :=
  input ++ replicate ((4 - length input mod 4) mod 4)%nat pad_char.

(** What four characters add to the output, [None] for an invalid one. *)
Definition decode_block (c0 c1 c2 c3 : ascii) : option (list ascii) :=
  let v0 := alphabet c0 in let v1 := alphabet c1 in let v2 := alphabet c2 in let v3 := alphabet c3 in
  if (v0 <? 0) || (v1 <? 0) || (v2 <? 0) || (v3 <? 0) then None
  else
    let block := Z.lor (Z.lor (Z.lor (Z.shiftl v0 18) (Z.shiftl v1 12)) (Z.shiftl v2 6)) v3 in
    Some ([to_ascii (Z.land (Z.shiftr block 16) 0xFF)]
          ++ (if bool_decide (c2 = pad_char) then [] else [to_ascii (Z.land (Z.shiftr block 8) 0xFF)])
          ++ (if bool_decide (c3 = pad_char) then [] else [to_ascii (Z.land block 0xFF)])).

Fixpoint decode (normalized : list ascii) : option (list ascii) :=
  match normalized with
  | c0 :: c1 :: c2 :: c3 :: rest =>
      out ← decode_block c0 c1 c2 c3; more ← decode rest; Some (out ++ more)
  | _ => Some []
  end.

(** The output, or the text of the error. *)
Definition DecodeBase64Url (input : string) : string + string :=
  let l := String.list_ascii_of_string input in
  match l with
  | [] => inl ""
  | _ =>
      if (length l mod 4 =? 1)%nat then inr "invalid base64url length"
      else match decode (normalize l) with
           | Some output => inl (String.string_of_list_ascii output)
           | None => inr "invalid base64url character"
           end
  end.

End Base64Module.
