(* ===== verification/Fips.v ===== *)
(** * The secure hash standard

    FIPS 180-4 for SHA-256 and RFC 2104 for HMAC, written from the standards and
    without the program: words are numbers below 2^32, the logical functions act
    bit by bit, the constants are computed from the roots of the primes.
    [CryptoSpec] compares the program with it. *)

From S2P Require Import Prelude.
From Stdlib Require Import Lia.

Module Fips.
Local Open Scope Z_scope.

(** ** Words (sections 2.2 and 3.2) *)

(** The number whose bit [i] is [f i], for [i] below [n]. *)
Fixpoint of_bits (n : nat) (f : nat → bool) : Z :=
  match n with O => 0 | S n => 2 * of_bits n (λ i, f (S i)) + Z.b2z (f O) end.
Definition bit (x : Z) (i : nat) : bool := Z.testbit x (Z.of_nat i).

(** A function of the bits of three words. *)
Definition bitwise (f : bool → bool → bool → bool) (x y z : Z) : Z :=
  of_bits 32 (λ i, f (bit x i) (bit y i) (bit z i)).
(** Bit [i] of a word rotated right by [n] is its bit [i + n], around the end. *)
Definition ROTR (n : nat) (x : Z) : Z := of_bits 32 (λ i, bit x ((i + n) mod 32)%nat).
Definition SHR (n : nat) (x : Z) : Z := x / 2 ^ Z.of_nat n.
Definition add (x y : Z) : Z := (x + y) mod 2 ^ 32.

(** ** Functions (section 4.1.2) *)

Definition parity : Z → Z → Z → Z := bitwise (λ x y z, xorb x (xorb y z)).
Definition Ch : Z → Z → Z → Z := bitwise (λ x y z, if x then y else z).
Definition Maj : Z → Z → Z → Z := bitwise (λ x y z, x && y || x && z || y && z).
Definition Sigma0 (x : Z) : Z := parity (ROTR 2 x) (ROTR 13 x) (ROTR 22 x).
Definition Sigma1 (x : Z) : Z := parity (ROTR 6 x) (ROTR 11 x) (ROTR 25 x).
Definition sigma0 (x : Z) : Z := parity (ROTR 7 x) (ROTR 18 x) (SHR 3 x).
Definition sigma1 (x : Z) : Z := parity (ROTR 17 x) (ROTR 19 x) (SHR 10 x).

(** ** Constants (sections 4.2.2 and 5.3.3) *)

Definition is_prime (n : nat) : bool :=
  (1 <? n)%nat && forallb (λ d, negb (n mod d =? 0)%nat) (seq 2 (n - 2)).
(** The first 64 primes end with 311. *)
Definition primes : list Z := Z.of_nat <$> List.filter is_prime (seq 0 312).

(** The cube root of [n], rounded down, by its [k] bits. *)
Fixpoint cube_root_from (r : Z) (k : nat) (n : Z) : Z :=
  match k with
  | O => r
  | S k => let r' := r + 2 ^ Z.of_nat k in cube_root_from (if r' ^ 3 <=? n then r' else r) k n
  end.
Definition cube_root (n : Z) : Z := cube_root_from 0 36 n.

(** The first 32 bits of the fractional parts of the roots. *)
Definition K : list Z := (λ p, cube_root (p * 2 ^ 96) mod 2 ^ 32) <$> primes.
Definition H0 : list Z := (λ p, Z.sqrt (p * 2 ^ 64) mod 2 ^ 32) <$> take 8 primes.

(** ** Padding (section 5.1.1)

    The bit 1, the fewest zeros that leave 64 bits of a block, and the length of
    the message in bits. *)

Definition bytes_of (k : nat) (z : Z) : list Z := (λ i, z / 256 ^ Z.of_nat i mod 256) <$> reverse (seq 0 k).
Definition pad (message : list Z) : list Z :=
  let l := Z.of_nat (length message) in
  message ++ [128] ++ replicate (Z.to_nat ((55 - l) mod 64)) 0 ++ bytes_of 8 (8 * l).

(** ** The hash computation (section 6.2) *)

Definition word_of (bytes : list Z) : Z := foldl (λ acc b, 256 * acc + b) 0 bytes.

(** The message schedule: sixteen words of the block, and each other one from
    those before. *)
Fixpoint expand (n : nat) (W : list Z) : list Z :=
  match n with
  | O => W
  | S n =>
      let w k := W !!! (length W - k)%nat in
      expand n (W ++ [add (add (add (sigma1 (w 2%nat)) (w 7%nat)) (sigma0 (w 15%nat))) (w 16%nat)])
  end.
Definition schedule (block : list Z) : list Z :=
  expand 48 ((λ t, word_of (take 4 (drop (4 * t) block))) <$> seq 0 16).

Definition step (v : list Z) (KW : Z * Z) : list Z :=
  match v with
  | [a; b; c; d; e; f; g; h] =>
      let T1 := add (add (add (add h (Sigma1 e)) (Ch e f g)) KW.1) KW.2 in
      let T2 := add (Sigma0 a) (Maj a b c) in
      [add T1 T2; a; b; c; add d T1; e; f; g]
  | _ => v
  end.

Definition compress (H : list Z) (block : list Z) : list Z :=
  zip_with add (foldl step H (zip K (schedule block))) H.

Fixpoint parse (n : nat) (l : list Z) : list (list Z) :=
  match n with O => [] | S n => take 64 l :: parse n (drop 64 l) end.

Definition sha256 (message : list Z) : list Z :=
  let p := pad message in
  foldl compress H0 (parse (length p / 64) p) ≫= bytes_of 4.

(** ** HMAC (RFC 2104), for a hash of blocks of 64 bytes *)

Definition hmac (H : list Z → list Z) (key message : list Z) : list Z :=
  let k := if (64 <? length key)%nat then H key else key in
  let k := k ++ replicate (64 - length k) 0 in
  let xor_with x := (λ b, Z.lxor b x) <$> k in
  H (xor_with 0x5c ++ H (xor_with 0x36 ++ message)).

(** ** Lemmas *)

Definition word (x : Z) : Prop := 0 ≤ x < 2 ^ 32.

Lemma of_bits_testbit n f i : 0 ≤ i →
  Z.testbit (of_bits n f) i = if decide (i < Z.of_nat n) then f (Z.to_nat i) else false.
Proof.
  intros Hi. revert f i Hi. induction n as [|n IH]; intros f i Hi; cbn [of_bits].
  { rewrite decide_False; [apply Z.bits_0|lia]. }
  destruct (decide (i = 0)) as [->|Hne].
  { rewrite Z.testbit_0_r. case_decide; [done|lia]. }
  rewrite -(Z.succ_pred i) Z.testbit_succ_r; [|lia]. rewrite IH; [|lia].
  repeat case_decide; try lia; try done. f_equal. lia.
Qed.

Lemma of_bits_range n f : 0 ≤ of_bits n f < 2 ^ Z.of_nat n.
Proof.
  revert f. induction n as [|n IH]; intros f; cbn [of_bits]; [done|].
  specialize (IH (λ i, f (S i))). rewrite Nat2Z.inj_succ Z.pow_succ_r; [|lia]. destruct (f O); cbn [Z.b2z]; lia.
Qed.

Lemma word_high x i : word x → 32 ≤ i → Z.testbit x i = false.
Proof. intros Hx Hi. by rewrite -(Z.mod_small x (2 ^ 32)) // Z.mod_pow2_bits_high. Qed.

(** A number is known by its first 32 bits when the others are zero. *)
Lemma of_bits_eq x f : (∀ i, 0 ≤ i → Z.testbit x i = if decide (i < 32) then f (Z.to_nat i) else false) →
  x = of_bits 32 f.
Proof. intros Hx. apply Z.bits_inj'. intros i Hi. by rewrite Hx // of_bits_testbit. Qed.

Lemma bitwise_eq e f x y z : word x → word y → word z → f false false false = false →
  (∀ i, 0 ≤ i < 32 → Z.testbit e i = f (Z.testbit x i) (Z.testbit y i) (Z.testbit z i)) →
  (∀ i, 32 ≤ i → Z.testbit e i = false) → e = bitwise f x y z.
Proof.
  intros Hx Hy Hz Hf He Hhigh. apply of_bits_eq. intros i Hi. case_decide; [|apply Hhigh; lia].
  rewrite He /bit ?Z2Nat.id //.
Qed.

Lemma bitwise_word f x y z : word (bitwise f x y z).
Proof. apply (of_bits_range 32). Qed.
Lemma ROTR_word n x : word (ROTR n x).
Proof. apply (of_bits_range 32). Qed.
Lemma SHR_word n x : word x → word (SHR n x).
Proof.
  intros Hx. unfold word, SHR in *. assert (0 < 2 ^ Z.of_nat n) by (apply Z.pow_pos_nonneg; lia).
  split; [apply Z.div_pos; lia|]. apply Z.div_lt_upper_bound; [done|]. nia.
Qed.
Lemma add_word x y : word (add x y).
Proof. by apply Z.mod_pos_bound. Qed.

(** The cube root is the cube root. *)
Lemma cube_root_from_spec k : ∀ r n, 0 ≤ r → r ^ 3 ≤ n < (r + 2 ^ Z.of_nat k) ^ 3 →
  let s := cube_root_from r k n in 0 ≤ s ∧ s ^ 3 ≤ n < (s + 1) ^ 3.
Proof.
  induction k as [|k IH]; intros r n Hr Hn; cbn [cube_root_from]; [done|].
  rewrite Nat2Z.inj_succ Z.pow_succ_r in Hn; [|lia]. assert (0 < 2 ^ Z.of_nat k) by (apply Z.pow_pos_nonneg; lia).
  destruct (Z.leb_spec ((r + 2 ^ Z.of_nat k) ^ 3) n); apply IH; lia.
Qed.

Lemma cube_root_spec n : 0 ≤ n < 2 ^ 108 → 0 ≤ cube_root n ∧ cube_root n ^ 3 ≤ n < (cube_root n + 1) ^ 3.
Proof. intros Hn. apply (cube_root_from_spec 36 0 n); [done|]. cbn. lia. Qed.

Lemma primes_length : length primes = 64%nat.
Proof. by vm_compute. Qed.

End Fips.
