(* ===== verification/CryptoSpec.v ===== *)
(** * Correctness of SHA-256, HMAC, base64url and the comparison

    The compression of a block is that of [Fips], word by word; the buffer of 64
    bytes that [UpdateSha256] fills and [FinalizeSha256] pads is a way to compute
    the hash in one pass.  [Sha256_correct] puts them together, for HMAC too.  The decoder of base64url inverts the encoder, with and without
    padding.  The comparison tests every byte, but the lengths modulo 256 only. *)

From S2P Require Import Prelude Crypto Fips.
From Stdlib Require Import Lia.

Module CryptoSpec.
Import Bytes CryptoModule.

(** ** The hash over the whole message *)

(** The message, the bit 1, zeros up to eight bytes before a multiple of 64, and
    the length in bits. *)
Definition padded (message : list Z) : list Z :=
  message ++ [0x80]%Z ++ replicate (63 - (length message + 8) mod 64) 0%Z
  ++ big_endian 8 (uint64 (8 * Z.of_nat (length message))).
Fixpoint blocks (n : nat) (l : list Z) : list (list Z) :=
  match n with O => [] | S n => take 64 l :: blocks n (drop 64 l) end.
Definition sha256 (message : list Z) : list Z :=
  let p := padded message in
  digest_of (foldl TransformSha256 initial_hash (blocks (length p / 64) p)).

(** RFC 2104, for a hash of blocks of 64 bytes. *)
Definition hmac (H : list Z → list Z) (key message : list Z) : list Z :=
  let k := if 64 <? length key then H key else key in
  let k := k ++ replicate (64 - length k) 0%Z in
  H (((λ b, Z.lxor b 0x5c) <$> k) ++ H (((λ b, Z.lxor b 0x36) <$> k) ++ message)).

(** ** One block

    The words of the program are those of the standard: [TransformSha256] is the
    compression of [Fips] on words below 2^32 and blocks of 64 bytes. *)

Lemma lor_shift x y k : (0 ≤ k)%Z → (0 ≤ y < 2 ^ k)%Z → Z.lor (Z.shiftl x k) y = (x * 2 ^ k + y)%Z.
Proof.
  intros Hk Hy. rewrite -Z.shiftl_mul_pow2 // Z.add_nocarry_lor //. apply Z.bits_inj_iff'. intros i Hi.
  rewrite Z.land_spec Z.bits_0 Z.shiftl_spec //.
  destruct (decide (i < k)%Z); [by rewrite Z.testbit_neg_r; [|lia]|].
  rewrite -(Z.mod_small y (2 ^ k)) // Z.mod_pow2_bits_high; [by rewrite andb_false_r|lia].
Qed.

(** [RotateRight] turns the 32 bits of a word. *)
Lemma RotateRight_bits v b i : (0 ≤ v < 2 ^ 32)%Z → (0 < b < 32)%Z → (0 ≤ i < 32)%Z →
  Z.testbit (RotateRight v b) i = Z.testbit v ((i + b) mod 32).
Proof.
  intros Hv Hb Hi. unfold RotateRight, uint32. rewrite Z.lor_spec Z.shiftr_spec; [|lia].
  rewrite Z.mod_pow2_bits_low; [|lia]. rewrite Z.shiftl_spec; [|lia].
  destruct (decide (i + b < 32)%Z).
  - rewrite (Z.mod_small (i + b)); [|lia]. rewrite (Z.testbit_neg_r v (i - _)); [|lia]. by rewrite orb_false_r.
  - replace ((i + b) mod 32)%Z with (i - (32 - b))%Z.
    + rewrite -{1}(Z.mod_small v (2 ^ 32)) // Z.mod_pow2_bits_high; [done|lia].
    + apply (Z.mod_unique _ _ 1); lia.
Qed.


Import Fips(word).
#[local] Opaque Fips.of_bits.

Lemma RotateRight_ROTR n v : word v → (0 < n < 32)%nat → RotateRight v (Z.of_nat n) = Fips.ROTR n v.
Proof.
  intros Hv Hn. apply Fips.of_bits_eq. intros i Hi. case_decide as Hlt.
  - rewrite RotateRight_bits //; [|lia..]. unfold Fips.bit. f_equal.
    rewrite Nat2Z.inj_mod Nat2Z.inj_add Z2Nat.id //.
  - unfold RotateRight, uint32. rewrite Z.lor_spec Z.shiftr_spec // Z.mod_pow2_bits_high; [|lia].
    rewrite Fips.word_high //. lia.
Qed.

Lemma SHR_shiftr n v : Z.shiftr v (Z.of_nat n) = Fips.SHR n v.
Proof. rewrite Z.shiftr_div_pow2 //. lia. Qed.

Lemma lxor_parity x y z : word x → word y → word z → Z.lxor (Z.lxor x y) z = Fips.parity x y z.
Proof.
  intros Hx Hy Hz. apply Fips.bitwise_eq; try done; intros i Hi; rewrite !Z.lxor_spec.
  - apply xorb_assoc.
  - by rewrite !Fips.word_high.
Qed.

Lemma choice_Ch x y z : word x → word y → word z →
  Z.lxor (Z.land x y) (Z.land (Z.lxor x (2 ^ 32 - 1)) z) = Fips.Ch x y z.
Proof.
  intros Hx Hy Hz. change (2 ^ 32 - 1)%Z with (Z.ones 32).
  apply Fips.bitwise_eq; try done; intros i Hi; rewrite Z.lxor_spec !Z.land_spec Z.lxor_spec.
  - rewrite Z.ones_spec_low //. by do 3 case: (Z.testbit _ i).
  - by rewrite !(Fips.word_high _ i) // Z.ones_spec_high.
Qed.

Lemma majority_Maj x y z : word x → word y → word z →
  Z.lxor (Z.lxor (Z.land x y) (Z.land x z)) (Z.land y z) = Fips.Maj x y z.
Proof.
  intros Hx Hy Hz.
  apply Fips.bitwise_eq; try done; intros i Hi; rewrite !Z.lxor_spec !Z.land_spec.
  - by do 3 case: (Z.testbit _ i).
  - by rewrite !(Fips.word_high _ i).
Qed.

(** Sums that are reduced once or at each addition. *)
Lemma add_four a b c d : Fips.add (Fips.add (Fips.add a b) c) d = uint32 (a + b + c + d).
Proof. unfold Fips.add, uint32. by rewrite Zplus_mod_idemp_l -(Z.add_assoc _ c d) Zplus_mod_idemp_l !Z.add_assoc. Qed.
Lemma add_five a b c d e :
  Fips.add (Fips.add (Fips.add (Fips.add a b) c) d) e = uint32 (a + b + c + d + e).
Proof. by rewrite (add_four a b c d) /Fips.add /uint32 Zplus_mod_idemp_l. Qed.

(** *** The schedule *)

Lemma is_byte_pow b : is_byte b → (0 ≤ b < 2 ^ 8)%Z.
Proof. done. Qed.

Lemma take_four (l : list Z) n : n + 4 ≤ length l →
  take 4 (drop n l) = [l !!! n; l !!! (n + 1); l !!! (n + 2); l !!! (n + 3)].
Proof.
  intros Hn. assert (∀ k m, m < length l → take (S k) (drop m l) = l !!! m :: take k (drop (S m) l)) as Hs.
  { intros k m Hm. rewrite (drop_S l (l !!! m) m) //. by apply list_lookup_lookup_total_lt. }
  rewrite !Hs; [|lia..]. by rewrite take_0 !Nat.add_succ_r Nat.add_0_r.
Qed.

Lemma first_word_block chunk t : Forall is_byte chunk → length chunk = 64 → t < 16 →
  first_word chunk t = Fips.word_of (take 4 (drop (4 * t) chunk)) ∧ word (first_word chunk t).
Proof.
  intros Hb Hl Ht. rewrite (Nat.mul_comm 4 t) take_four; [|lia].
  assert (∀ k, k < 64 → is_byte (chunk !!! k)) as Hc.
  { intros k Hk. rewrite Forall_forall in Hb. apply Hb, list_elem_of_lookup_total_2. lia. }
  unfold first_word. pose proof (Hc (t * 4)) as H0. pose proof (Hc (t * 4 + 1)) as H1.
  pose proof (Hc (t * 4 + 2)) as H2. pose proof (Hc (t * 4 + 3)) as H3. unfold is_byte in *.
  rewrite -!Z.lor_assoc (lor_shift _ _ 8) // ; [|lia]. rewrite (lor_shift _ _ 16) //; [|lia].
  rewrite (lor_shift _ _ 24) //; [|lia]. unfold Fips.word_of, word. cbn [foldl]. split; lia.
Qed.

Lemma extend_word (W : list Z) n : 16 ≤ length W → Forall word W →
  let w k := W !!! (length W - k) in
  extend (W ++ replicate (S n) 0%Z) (length W)
  = (W ++ [Fips.add (Fips.add (Fips.add (Fips.sigma1 (w 2)) (w 7)) (Fips.sigma0 (w 15))) (w 16)]) ++ replicate n 0%Z.
Proof.
  intros Hl HW w. assert (∀ k, 0 < k ≤ 16 → (W ++ replicate (S n) 0%Z) !!! (length W - k) = w k ∧ word (w k)) as Hw.
  { intros k Hk. rewrite lookup_total_app_l; [|lia]. split; [done|]. rewrite Forall_forall in HW.
    apply HW, list_elem_of_lookup_total_2. lia. }
  unfold extend. destruct (Hw 2) as [-> H2]; [lia|]. destruct (Hw 7) as [-> H7]; [lia|].
  destruct (Hw 15) as [-> H15]; [lia|]. destruct (Hw 16) as [-> H16]; [lia|].
  rewrite -app_assoc -{1}(Nat.add_0_r (length W)) insert_app_r. apply (f_equal (λ y, W ++ y :: replicate n 0%Z)).
  change 7%Z with (Z.of_nat 7). change 18%Z with (Z.of_nat 18). change 3%Z with (Z.of_nat 3).
  change 17%Z with (Z.of_nat 17). change 19%Z with (Z.of_nat 19). change 10%Z with (Z.of_nat 10).
  rewrite !RotateRight_ROTR // ?SHR_shiftr; try lia.
  rewrite !lxor_parity; try apply Fips.ROTR_word; try by apply Fips.SHR_word.
  rewrite add_four. unfold Fips.sigma0, Fips.sigma1. f_equal. lia.
Qed.

Lemma foldl_extend n W : 16 ≤ length W → Forall word W →
  foldl extend (W ++ replicate n 0%Z) (seq (length W) n) = Fips.expand n W ∧ Forall word (Fips.expand n W).
Proof.
  revert W. induction n as [|n IH]; intros W Hl HW; cbn [seq foldl Fips.expand]; [by rewrite app_nil_r|].
  rewrite extend_word //. set (x := Fips.add _ _).
  destruct (IH (W ++ [x])) as [E Hall]; [rewrite length_app; lia| |by rewrite length_app Nat.add_1_r in E].
  apply Forall_app. split; [done|]. constructor; [apply Fips.add_word|constructor].
Qed.

Lemma make_schedule_Fips chunk : Forall is_byte chunk → length chunk = 64 →
  make_schedule chunk = Fips.schedule chunk ∧ Forall word (make_schedule chunk).
Proof.
  intros Hb Hl. unfold make_schedule, Fips.schedule.
  assert (Forall word (first_word chunk <$> seq 0 16)) as Hw.
  { apply Forall_fmap, Forall_seq. intros t Ht. apply first_word_block; [done..|lia]. }
  destruct (foldl_extend 48 (first_word chunk <$> seq 0 16)) as [E Hall]; [by rewrite length_fmap length_seq|done|].
  rewrite length_fmap length_seq in E. rewrite E. split; [|done]. f_equal.
  apply list_fmap_ext. intros i t [-> Ht]%lookup_seq. apply first_word_block; [done..|lia].
Qed.

(** *** The rounds *)

Definition list_of (v : words) : list Z := [w_a v; w_b v; w_c v; w_d v; w_e v; w_f v; w_g v; w_h v].

Lemma sha_round_step v kw : Forall word (list_of v) →
  list_of (sha_round v kw) = Fips.step (list_of v) kw ∧ Forall word (list_of (sha_round v kw)).
Proof.
  destruct v as [a b c d e f g h]. unfold list_of. cbn [w_a w_b w_c w_d w_e w_f w_g w_h].
  rewrite !Forall_cons. intros (Ha & Hb & Hc & Hd & He & Hf & Hg & Hh & _).
  unfold sha_round, Fips.step. cbn [w_a w_b w_c w_d w_e w_f w_g w_h]. split.
  2: { split_and!; try done; apply Fips.add_word. }
  change 6%Z with (Z.of_nat 6). change 11%Z with (Z.of_nat 11). change 25%Z with (Z.of_nat 25).
  change (RotateRight a 2) with (RotateRight a (Z.of_nat 2)). change 13%Z with (Z.of_nat 13). change 22%Z with (Z.of_nat 22).
  rewrite !RotateRight_ROTR //; try lia. rewrite choice_Ch // majority_Maj //.
  rewrite !lxor_parity; try apply Fips.ROTR_word. by rewrite (add_five h).
Qed.

(** *** The compression *)

Lemma constants_K : Sha256Constants = Fips.K.
Proof. vm_compute. reflexivity. Qed.
Lemma initial_H0 : list_of initial_hash = Fips.H0.
Proof. vm_compute. reflexivity. Qed.
Lemma initial_words : Forall word (list_of initial_hash).
Proof. repeat (apply Forall_cons; split; [by split|]). constructor. Qed.
#[local] Opaque Sha256Constants Fips.K Fips.H0.

Lemma foldl_step l v : Forall word (list_of v) →
  list_of (foldl sha_round v l) = foldl Fips.step (list_of v) l ∧ Forall word (list_of (foldl sha_round v l)).
Proof.
  revert v. induction l as [|kw l IH]; intros v Hv; [done|]. cbn [foldl].
  destruct (sha_round_step v kw Hv) as [<- Hv']. by apply IH.
Qed.

Lemma TransformSha256_compress v chunk : Forall word (list_of v) → Forall is_byte chunk → length chunk = 64 →
  list_of (TransformSha256 v chunk) = Fips.compress (list_of v) chunk ∧ Forall word (list_of (TransformSha256 v chunk)).
Proof.
  intros Hv Hc Hl. destruct (make_schedule_Fips chunk Hc Hl) as [Es _].
  unfold TransformSha256, Fips.compress. rewrite Es constants_K.
  destruct (foldl_step (zip Fips.K (Fips.schedule chunk)) v Hv) as [<- _].
  generalize (foldl sha_round v (zip Fips.K (Fips.schedule chunk))). intros r. split.
  - unfold list_of, add_words. cbn [zip_with w_a w_b w_c w_d w_e w_f w_g w_h]. unfold uint32, Fips.add.
    rewrite (Z.add_comm (w_a r)) (Z.add_comm (w_b r)) (Z.add_comm (w_c r)) (Z.add_comm (w_d r)).
    by rewrite (Z.add_comm (w_e r)) (Z.add_comm (w_f r)) (Z.add_comm (w_g r)) (Z.add_comm (w_h r)).
  - unfold list_of, add_words. cbn [w_a w_b w_c w_d w_e w_f w_g w_h].
    repeat (apply Forall_cons; split; [apply (Fips.add_word _ _)|]). constructor.
Qed.

Lemma foldl_compress l v : Forall word (list_of v) → Forall (λ b, Forall is_byte b ∧ length b = 64) l →
  list_of (foldl TransformSha256 v l) = foldl Fips.compress (list_of v) l
  ∧ Forall word (list_of (foldl TransformSha256 v l)).
Proof.
  intros Hv Hl. revert v Hv. induction Hl as [|b l [Hb Hlen] _ IH]; intros v Hv; [done|]. cbn [foldl].
  destruct (TransformSha256_compress v b Hv Hb Hlen) as [<- Hv']. by apply IH.
Qed.

(** *** Padding and digest *)

Lemma byte_of_word z i : Z.land (Z.shiftr z (Z.of_nat i * 8)) 0xFF = (z / 256 ^ Z.of_nat i mod 256)%Z.
Proof.
  change 0xFF%Z with (Z.ones 8). rewrite Z.land_ones // Z.shiftr_div_pow2; [|lia].
  change 256%Z with (2 ^ 8)%Z at 1. rewrite -Z.pow_mul_r; [|lia..]. by rewrite Z.mul_comm.
Qed.

Lemma big_endian_bytes k z : big_endian k z = Fips.bytes_of k z.
Proof. unfold big_endian, Fips.bytes_of. apply list_fmap_ext. intros _ i _. apply byte_of_word. Qed.

Lemma big_endian_uint64 z : big_endian 8 (uint64 z) = Fips.bytes_of 8 z.
Proof.
  rewrite -big_endian_bytes. unfold big_endian. apply list_fmap_ext.
  intros j i Hi%list_elem_of_lookup_2%elem_of_reverse%elem_of_seq. apply Z.bits_inj'. intros n Hn.
  rewrite !Z.land_spec !Z.shiftr_spec //. change 0xFF%Z with (Z.ones 8). destruct (decide (n < 8)%Z).
  - unfold uint64. rewrite Z.mod_pow2_bits_low; [done|lia].
  - rewrite Z.ones_spec_high ?andb_false_r //. lia.
Qed.

Lemma padded_pad message : padded message = Fips.pad message.
Proof.
  unfold padded, Fips.pad. rewrite big_endian_uint64. do 4 f_equal.
  pose proof (Nat.mod_upper_bound (length message + 8) 64). apply Nat2Z.inj.
  rewrite Nat2Z.inj_sub; [|lia]. rewrite Nat2Z.inj_mod Nat2Z.inj_add Z2Nat.id; [|by apply Z.mod_pos_bound].
  cbn. Z.to_euclidean_division_equations. lia.
Qed.

Lemma digest_of_bytes v : digest_of v = list_of v ≫= Fips.bytes_of 4.
Proof. unfold digest_of. by rewrite !big_endian_bytes. Qed.

Lemma bytes_of_byte k z : Forall is_byte (Fips.bytes_of k z).
Proof. apply Forall_fmap, Forall_true. intros i. by apply Z.mod_pos_bound. Qed.

Lemma pad_bytes message : Forall is_byte message → Forall is_byte (Fips.pad message).
Proof.
  intros Hm. unfold Fips.pad. repeat (apply Forall_app; split); [done|by repeat constructor| |apply bytes_of_byte].
  by apply Forall_replicate.
Qed.

Lemma blocks_parse n l : blocks n l = Fips.parse n l.
Proof. revert l. induction n as [|n IH]; intros l; cbn; [done|by rewrite IH]. Qed.

Lemma parse_blocks n l : Forall is_byte l → 64 * n ≤ length l →
  Forall (λ b, Forall is_byte b ∧ length b = 64) (Fips.parse n l).
Proof.
  revert l. induction n as [|n IH]; intros l Hl Hlen; cbn [Fips.parse]; constructor.
  - split; [by apply Forall_take|]. rewrite length_take. lia.
  - apply IH; [by apply Forall_drop|]. rewrite length_drop. lia.
Qed.

Lemma sha256_Fips message : Forall is_byte message → sha256 message = Fips.sha256 message.
Proof.
  intros Hm. unfold sha256, Fips.sha256. rewrite padded_pad blocks_parse digest_of_bytes -initial_H0.
  set (p := Fips.pad message). destruct (foldl_compress (Fips.parse (length p / 64) p) initial_hash) as [<- _]; [| |done].
  - apply initial_words.
  - apply parse_blocks; [by apply pad_bytes|]. apply Nat.Div0.mul_div_le.
Qed.

Lemma sha256_bytes message : Forall is_byte (Fips.sha256 message).
Proof.
  unfold Fips.sha256. apply Forall_forall. intros b (z & Hb & _)%list_elem_of_bind.
  pose proof (bytes_of_byte 4 z) as H. rewrite Forall_forall in H. by apply H.
Qed.

Lemma xor_bytes l x : Forall is_byte l → is_byte x → Forall is_byte ((λ b, Z.lxor b x) <$> l).
Proof.
  intros Hl Hx. apply Forall_fmap. eapply Forall_impl; [exact Hl|]. intros b Hb. cbn. unfold is_byte in *.
  split; [apply Z.lxor_nonneg; lia|]. apply (Z.log2_lt_cancel _ (2 ^ 8)).
  eapply Z.le_lt_trans; [apply Z.log2_lxor; lia|].
  assert (∀ y, 0 ≤ y < 256 → Z.log2 y < 8)%Z as Hlog.
  { intros y Hy. destruct (decide (y = 0)%Z) as [->|]; [done|]. apply Z.log2_lt_pow2; lia. }
  rewrite Z.log2_pow2 //. apply Z.max_lub_lt; by apply Hlog.
Qed.

Lemma hmac_Fips key message : Forall is_byte key → Forall is_byte message →
  hmac sha256 key message = Fips.hmac Fips.sha256 key message.
Proof.
  intros Hk Hm. unfold hmac, Fips.hmac.
  set (k := (if 64 <? length key then sha256 key else key) ++ _).
  assert (Forall is_byte k) as Hkb.
  { apply Forall_app. split; [|by apply Forall_replicate]. case_match; [|done].
    rewrite sha256_Fips //. apply sha256_bytes. }
  assert (k = (if 64 <? length key then Fips.sha256 key else key)
    ++ replicate (64 - length (if 64 <? length key then Fips.sha256 key else key)) 0%Z) as <-.
  { unfold k. by rewrite sha256_Fips. }
  assert (∀ m x, Forall is_byte m → is_byte x → sha256 (((λ b, Z.lxor b x) <$> k) ++ m)
    = Fips.sha256 (((λ b, Z.lxor b x) <$> k) ++ m)) as Hs.
  { intros m x Hmb Hx. apply sha256_Fips, Forall_app. split; [by apply xor_bytes|done]. }
  rewrite (Hs message) //. apply Hs; [apply sha256_bytes|done].
Qed.

#[local] Opaque TransformSha256 digest_of big_endian replicate.

(** ** The buffer *)

(** The words of [s] are [h] and the front of its buffer is [p]. *)
Record holds (s : Sha256State) (h : words) (p : list Z) : Prop := {
  holds_hash : hash s = h;
  holds_front : take (bufferSize s) (buffer s) = p;
  holds_size : bufferSize s = length p;
  holds_length : length (buffer s) = 64
}.

Lemma holds_initial : holds initial_state initial_hash [].
Proof. by constructor. Qed.

Lemma write_byte_holds s h p b : holds s h p → length p < 64 →
  ∃ s', write_byte b s = Ok s' ∧ holds s' h (p ++ [b]) ∧ bitLength s' = bitLength s.
Proof.
  intros [Hh Hp Hn Hl] H. unfold write_byte. rewrite (proj2 (Nat.ltb_lt _ _)); [|lia].
  eexists. split; [done|]. split; [|done]. constructor; cbn.
  - done.
  - rewrite (take_S_r _ _ b); [|apply list_lookup_insert_eq; lia].
    by rewrite take_insert_ge ?Hp.
  - rewrite length_app Hn /=. lia.
  - by rewrite length_insert.
Qed.

Lemma write_bytes_holds l : ∀ s h p, holds s h p → length p + length l ≤ 64 →
  ∃ s', write_bytes l s = Ok s' ∧ holds s' h (p ++ l) ∧ bitLength s' = bitLength s.
Proof.
  induction l as [|b l IH]; intros s h p Hs H; cbn in *.
  - exists s. by rewrite app_nil_r.
  - destruct (write_byte_holds s h p b Hs) as (s1 & -> & H1 & E1); [lia|]. cbn.
    destruct (IH s1 h (p ++ [b]) H1) as (s2 & -> & H2 & E2); [rewrite length_app /=; lia|].
    exists s2. rewrite -app_assoc in H2. by rewrite E2.
Qed.

Lemma fill_to_holds s h p n : holds s h p → length p ≤ n → n ≤ 64 →
  ∃ s', fill_to n s = Ok s' ∧ holds s' h (p ++ replicate (n - length p) 0%Z) ∧ bitLength s' = bitLength s.
Proof.
  intros Hs H1 H2. unfold fill_to. rewrite (holds_size _ _ _ Hs).
  apply (write_bytes_holds _ _ _ _ Hs). rewrite length_replicate. lia.
Qed.

Lemma transform_holds s h p : holds s h p → length p = 64 →
  holds (transform_buffer s) (TransformSha256 h p) [] ∧ bitLength (transform_buffer s) = bitLength s.
Proof.
  intros [Hh Hp Hn Hl] H. split; [|done]. constructor; cbn; try done.
  rewrite Hh -Hp take_ge //. lia.
Qed.

(** ** Absorbed data *)

(** [s] has taken in [data]: its whole blocks are in the words, the rest waits. *)
Definition absorbed (s : Sha256State) (data : list Z) : Prop := ∃ full p,
  data = concat full ++ p ∧ Forall (λ b, length b = 64) full ∧ length p < 64
  ∧ holds s (foldl TransformSha256 initial_hash full) p
  ∧ bitLength s = uint64 (512 * Z.of_nat (length full)).

Lemma absorbed_initial : absorbed initial_state [].
Proof. exists [], []. split_and!; [done|done|cbn; lia|apply holds_initial|done]. Qed.

Lemma update_byte_absorbed s data b : absorbed s data →
  ∃ s', update_byte s b = Ok s' ∧ absorbed s' (data ++ [b]).
Proof.
  intros (full & p & -> & Hf & Hp & Hs & Hb). unfold update_byte.
  destruct (write_byte_holds _ _ _ b Hs Hp) as (s1 & -> & H1 & E1). cbn -[Nat.eqb transform_buffer].
  rewrite (holds_size _ _ _ H1) length_app /=.
  destruct (Nat.eqb_spec (length p + 1) 64) as [H|H].
  - eexists. split; [done|].
    destruct (transform_holds _ _ _ H1) as [[T1 T2 T3 T4] Et]; [by rewrite length_app|].
    exists (full ++ [p ++ [b]]), []. split_and!.
    + by rewrite concat_app /= !app_nil_r app_assoc.
    + apply Forall_app. split; [done|]. repeat constructor. by rewrite length_app.
    + cbn; lia.
    + rewrite foldl_app. by constructor.
    + cbn [bitLength] in *. cbn. rewrite E1 Hb length_app /= /uint64.
      rewrite Zplus_mod_idemp_l. f_equal. lia.
  - eexists. split; [done|]. exists full, (p ++ [b]). rewrite length_app /= E1. split_and!; try done; [|lia].
    by rewrite app_assoc.
Qed.

Lemma UpdateSha256_absorbed l : ∀ s data, absorbed s data →
  ∃ s', UpdateSha256 s l = Ok s' ∧ absorbed s' (data ++ l).
Proof.
  induction l as [|b l IH]; intros s data Hs; cbn.
  - exists s. by rewrite app_nil_r.
  - destruct (update_byte_absorbed s data b Hs) as (s1 & -> & H1). cbn.
    destruct (IH s1 _ H1) as (s2 & -> & H2). exists s2. by rewrite -app_assoc in H2.
Qed.

(** ** The blocks of a message *)

Lemma blocks_concat full : ∀ n l, Forall (λ b, length b = 64) full →
  blocks (length full + n) (concat full ++ l) = full ++ blocks n l.
Proof.
  induction full as [|b full IH]; intros n l Hf; [done|]. apply Forall_cons in Hf as [Hb Hf].
  cbn. rewrite -app_assoc take_app_length' // drop_app_length' // IH //.
Qed.

Lemma length_concat_blocks full : Forall (λ b : list Z, length b = 64) full → length (concat full) = 64 * length full.
Proof. induction 1 as [|b full Hb _ IH]; [done|]. rewrite length_app IH /=. lia. Qed.

Lemma length_big_endian k z : length (big_endian k z) = k.
Proof. by rewrite length_fmap length_reverse length_seq. Qed.

(** The padding of a message is that of its last block, which is not full. *)
Lemma sha256_tail full p : Forall (λ b, length b = 64) full → length p < 64 →
  let size := big_endian 8 (uint64 (8 * Z.of_nat (64 * length full + length p))) in
  sha256 (concat full ++ p) =
  digest_of (foldl TransformSha256 (foldl TransformSha256 initial_hash full)
    (if length p <=? 55 then [p ++ [0x80]%Z ++ replicate (55 - length p) 0%Z ++ size]
     else [p ++ [0x80]%Z ++ replicate (63 - length p) 0%Z; replicate 56 0%Z ++ size])).
Proof.
  intros Hf Hp size. unfold sha256. rewrite -foldl_app. do 2 f_equal.
  pose proof (length_concat_blocks full Hf) as Hl. unfold padded. rewrite !length_app Hl -/size.
  rewrite -!app_assoc. assert (length size = 8) as Hsize by apply length_big_endian. clearbody size.
  replace ((64 * length full + length p + 8) mod 64) with ((length p + 8) mod 64);
    [|by rewrite -Nat.add_assoc (Nat.add_comm (64 * length full)) (Nat.mul_comm 64) Nat.Div0.mod_add].
  rewrite length_replicate Hsize. change (length [128%Z]) with 1.
  destruct (Nat.leb_spec (length p) 55) as [H|H].
  - rewrite (Nat.mod_small (length p + 8)); [|lia].
    replace (_ / 64) with (length full + 1).
    { rewrite blocks_concat //. f_equal. cbn [blocks].
      replace (63 - (length p + 8)) with (55 - length p) by lia.
      rewrite take_ge //. rewrite !length_app length_replicate Hsize /=. lia. }
    apply (Nat.div_unique _ _ _ 0); lia.
  - replace ((length p + 8) mod 64) with (length p + 8 - 64).
    2:{ apply (Nat.mod_unique _ _ 1); lia. }
    replace (_ / 64) with (length full + 2).
    2:{ apply (Nat.div_unique _ _ _ 0); lia. }
    rewrite blocks_concat //. f_equal. cbn [blocks].
    replace (63 - (length p + 8 - 64)) with ((63 - length p) + 56) by lia. rewrite replicate_add -!app_assoc.
    assert (length (p ++ [0x80]%Z ++ replicate (63 - length p) 0%Z) = 64) as H64.
    { rewrite !length_app length_replicate /=. lia. }
    rewrite (app_assoc [_]) (app_assoc p) take_app_length' // drop_app_length' // take_ge //.
    rewrite length_app length_replicate Hsize. lia.
Qed.

Lemma write_size s h p z : holds s h p → length p = 56 → bitLength s = z →
  ∃ s', write_bytes (big_endian 8 (bitLength s)) s = Ok s'
  ∧ hash (transform_buffer s') = TransformSha256 h (p ++ big_endian 8 z).
Proof.
  intros Hs Hp <-. destruct (write_bytes_holds (big_endian 8 (bitLength s)) s h p Hs) as (s' & -> & Hs' & _).
  { rewrite length_big_endian. lia. }
  exists s'. split; [done|]. apply transform_holds; [done|]. rewrite length_app length_big_endian. lia.
Qed.

(** The zeros up to 56 bytes, the length and the last block. *)
Lemma last_block s h p : holds s h p → length p ≤ 56 →
  (s ← fill_to 56 s; s ← write_bytes (big_endian 8 (bitLength s)) s;
   Ok (digest_of (hash (transform_buffer s)))) =
  Ok (digest_of (TransformSha256 h (p ++ replicate (56 - length p) 0%Z ++ big_endian 8 (bitLength s)))).
Proof.
  intros Hs Hp. destruct (fill_to_holds s h p 56 Hs Hp) as (s1 & -> & H1 & E1); [lia|].
  destruct (write_size s1 _ _ (bitLength s) H1) as (s2 & E & E2).
  { rewrite length_app length_replicate. lia. }
  { done. }
  cbn [mbind result_bind]. rewrite E. cbn [mbind result_bind]. by rewrite E2 app_assoc.
Qed.

Lemma last_block_empty s h : holds s h [] →
  (s ← fill_to 56 s; s ← write_bytes (big_endian 8 (bitLength s)) s;
   Ok (digest_of (hash (transform_buffer s)))) =
  Ok (digest_of (TransformSha256 h (replicate 56 0%Z ++ big_endian 8 (bitLength s)))).
Proof. intros Hs. rewrite (last_block s h [] Hs) ?app_nil_l //. cbn. lia. Qed.

(** The block that is filled when the length does not fit any more. *)
Lemma fill_block s h p : holds s h p → length p ≤ 64 →
  ∃ s', fill_to 64 s = Ok s'
  ∧ holds (transform_buffer s') (TransformSha256 h (p ++ replicate (64 - length p) 0%Z)) []
  ∧ bitLength (transform_buffer s') = bitLength s.
Proof.
  intros Hs Hp. destruct (fill_to_holds s h p 64 Hs Hp) as (s1 & -> & H1 & E1); [lia|].
  exists s1. split; [done|]. destruct (transform_holds _ _ _ H1) as [H2 E2].
  { rewrite length_app length_replicate. lia. }
  split; [done|by rewrite E2].
Qed.

(** Steps of a computation as equations: by conversion the kernel would unfold
    [TransformSha256]. *)
Lemma bind_Ok {A B} (a : A) (f : A → result B) : (Ok a ≫= f) = f a.
Proof. done. Qed.
Lemma foldl_one {A B} (f : A → B → A) a x : foldl f a [x] = f a x.
Proof. done. Qed.
Lemma foldl_two {A B} (f : A → B → A) a x y : foldl f a [x; y] = f (f a x) y.
Proof. done. Qed.

(** What follows the byte 0x80: the zeros, the length, and the last one or two
    blocks. *)
Lemma finalize_blocks s h p : holds s h (p ++ [0x80]%Z) → length p < 64 →
  (s ← (if 56 <? bufferSize s then s ← fill_to 64 s; Ok (transform_buffer s) else Ok s);
   s ← fill_to 56 s; s ← write_bytes (big_endian 8 (bitLength s)) s;
   Ok (digest_of (hash (transform_buffer s)))) =
  let size := big_endian 8 (bitLength s) in
  Ok (digest_of (foldl TransformSha256 h
    (if length p <=? 55 then [p ++ [0x80]%Z ++ replicate (55 - length p) 0%Z ++ size]
     else [p ++ [0x80]%Z ++ replicate (63 - length p) 0%Z; replicate 56 0%Z ++ size]))).
Proof.
  intros Hs Hp. cbv zeta. assert (length (p ++ [0x80]%Z) = S (length p)) as Hn by (rewrite length_app; cbn; lia).
  rewrite (holds_size _ _ _ Hs) Hn. destruct (Nat.leb_spec (length p) 55) as [H|H].
  - rewrite (proj2 (Nat.ltb_ge _ _)); [|lia]. rewrite (bind_Ok s).
    rewrite (last_block s _ _ Hs); [|lia]. rewrite Hn -app_assoc foldl_one.
    replace (56 - S (length p)) with (55 - length p) by lia. reflexivity.
  - rewrite (proj2 (Nat.ltb_lt _ _)); [|lia].
    destruct (fill_block s _ _ Hs) as (s1 & -> & H1 & E1); [lia|]. rewrite (bind_Ok s1) (bind_Ok (transform_buffer s1)).
    rewrite (last_block_empty _ _ H1) Hn E1 -app_assoc foldl_two.
    replace (64 - S (length p)) with (63 - length p) by lia. reflexivity.
Qed.

Lemma FinalizeSha256_absorbed s data : absorbed s data → FinalizeSha256 s = Ok (sha256 data).
Proof.
  intros (full & p & -> & Hf & Hp & Hs & Hb). unfold FinalizeSha256.
  set (s0 := MkState _ _ _ _).
  assert (holds s0 (foldl TransformSha256 initial_hash full) p) as H0 by (destruct Hs; by constructor).
  destruct (write_byte_holds _ _ _ 0x80 H0 Hp) as (s1 & -> & H1 & E1). cbn [mbind result_bind].
  etrans; [apply (finalize_blocks s1 _ _ H1 Hp)|].
  rewrite sha256_tail // E1. replace (bitLength s0) with (uint64 (8 * Z.of_nat (64 * length full + length p))); [done|].
  cbn. rewrite Hb (holds_size _ _ _ Hs) /uint64 Zplus_mod_idemp_l -Zplus_mod_idemp_r Zmult_mod_idemp_l Zplus_mod_idemp_r.
  f_equal. lia.
Qed.

(** ** The hashes *)

Lemma Sha256_reference data : Sha256 data = Ok (sha256 data).
Proof.
  unfold Sha256. destruct (UpdateSha256_absorbed data _ _ absorbed_initial) as (s & -> & Hs).
  by apply FinalizeSha256_absorbed.
Qed.

Lemma hash_two l k :
  (s ← UpdateSha256 initial_state l; s ← UpdateSha256 s k; FinalizeSha256 s) = Ok (sha256 (l ++ k)).
Proof.
  destruct (UpdateSha256_absorbed l _ _ absorbed_initial) as (s & -> & Hs). cbn.
  destruct (UpdateSha256_absorbed k _ _ Hs) as (s' & -> & Hs'). by apply FinalizeSha256_absorbed.
Qed.

Lemma HmacSha256_reference key data : HmacSha256 key data = Ok (hmac sha256 key data).
Proof.
  unfold HmacSha256, block_key, hmac.
  assert ((if 64 <? length key then Sha256 key else Ok key) = Ok (if 64 <? length key then sha256 key else key)) as ->.
  { case_match; [apply Sha256_reference|done]. }
  cbn [mbind result_bind]. set (k := (if 64 <? length key then sha256 key else key) ++ _).
  pose proof (hash_two ((λ b, Z.lxor b 0x36) <$> k) data) as E.
  destruct (UpdateSha256 initial_state ((λ b, Z.lxor b 0x36) <$> k)) as [s| |]; [|done|done]. cbn [mbind result_bind] in *.
  destruct (UpdateSha256 s data) as [s'| |]; [|done|done]. cbn [mbind result_bind] in *. rewrite E. cbn [mbind result_bind].
  apply hash_two.
Qed.

Lemma of_string_bytes s : Forall is_byte (of_string s).
Proof.
  apply Forall_fmap, Forall_true. intros c. unfold is_byte, of_ascii. cbn. pose proof (N_ascii_bounded c). lia.
Qed.

(** C36. [Sha256], which takes in one byte after the other, computes the hash of
    FIPS 180-4, and [HmacSha256] what RFC 2104 makes of it, for every key and
    message of bytes, and neither ever writes past its buffer.  The standard is
    [Fips], which has no definition of the program: its padding, message
    schedule, compression function, constants and digest are its own.  The
    length in bits counts modulo 2^64 in both. *)
Theorem Sha256_correct key data :
  Forall is_byte key → Forall is_byte data →
  Sha256 data = Ok (Fips.sha256 data) ∧ HmacSha256 key data = Ok (Fips.hmac Fips.sha256 key data).
Proof.
  intros Hk Hd. rewrite -sha256_Fips // -hmac_Fips //. split; [apply Sha256_reference|apply HmacSha256_reference].
Qed.

Lemma Sha256_correct_witness :
  Sha256 (of_string "abc") = Ok (Fips.sha256 (of_string "abc"))
  ∧ HmacSha256 (of_string "Jefe") (of_string "abc") = Ok (Fips.hmac Fips.sha256 (of_string "Jefe") (of_string "abc")).
Proof. apply (Sha256_correct (of_string "Jefe") (of_string "abc")); apply of_string_bytes. Defined.

(** ** Base64url *)

Lemma block_of_sum a b c : is_byte a → is_byte b → is_byte c → block_of a b c = (a * 65536 + b * 256 + c)%Z.
Proof.
  unfold is_byte, block_of. intros Ha Hb Hc.
  rewrite (Z.shiftl_mul_pow2 b 8) //. rewrite (lor_shift a (b * 2 ^ 8) 16); [|lia|lia].
  replace (a * 2 ^ 16 + b * 2 ^ 8)%Z with (Z.shiftl (a * 256 + b) 8) by (rewrite Z.shiftl_mul_pow2; lia).
  rewrite (lor_shift _ c 8); lia.
Qed.

Definition letter (v : Z) : ascii :=
  default "A"%char (String.list_ascii_of_string alphabet !! Z.to_nat v).
Lemma symbol_letter block k : (0 ≤ k)%Z → symbol block k = letter ((block / 2 ^ k) mod 64).
Proof. intros Hk. unfold symbol, letter. by rewrite (Z.land_ones _ 6) // Z.shiftr_div_pow2. Qed.

Lemma alphabet_letter v : (0 ≤ v < 64)%Z → Base64Module.alphabet (letter v) = v ∧ letter v ≠ Base64Module.pad_char.
Proof.
  intros Hv. rewrite -(Z2Nat.id v); [|lia]. assert (Z.to_nat v ∈ seq 0 64) as Hin by (apply elem_of_seq; lia).
  revert Hin. generalize (Z.to_nat v). clear v Hv. apply Forall_forall.
  assert (Forall (λ n, bool_decide (Base64Module.alphabet (letter (Z.of_nat n)) = Z.of_nat n
                                    ∧ letter (Z.of_nat n) ≠ Base64Module.pad_char) = true) (seq 0 64)) as H.
  { repeat constructor. }
  eapply Forall_impl; [exact H|]. cbn. intros n. by rewrite bool_decide_eq_true.
Qed.

(** What three bytes become and are again. *)
Lemma decode_block_letters v0 v1 v2 v3 : (0 ≤ v0 < 64)%Z → (0 ≤ v1 < 64)%Z → (0 ≤ v2 < 64)%Z → (0 ≤ v3 < 64)%Z →
  let block := (v0 * 2 ^ 18 + v1 * 2 ^ 12 + v2 * 2 ^ 6 + v3)%Z in
  Base64Module.decode_block (letter v0) (letter v1) (letter v2) (letter v3)
    = Some [to_ascii (block / 65536 mod 256); to_ascii (block / 256 mod 256); to_ascii (block mod 256)]
  ∧ Base64Module.decode_block (letter v0) (letter v1) (letter v2) Base64Module.pad_char
    = Some [to_ascii ((block - v3) / 65536 mod 256); to_ascii ((block - v3) / 256 mod 256)]
  ∧ Base64Module.decode_block (letter v0) (letter v1) Base64Module.pad_char Base64Module.pad_char
    = Some [to_ascii ((block - v2 * 2 ^ 6 - v3) / 65536 mod 256)].
Proof.
  intros H0 H1 H2 H3 block.
  destruct (alphabet_letter v0 H0) as [E0 N0], (alphabet_letter v1 H1) as [E1 N1],
    (alphabet_letter v2 H2) as [E2 N2], (alphabet_letter v3 H3) as [E3 N3].
  unfold Base64Module.decode_block. rewrite E0 E1 E2 E3.
  assert (∀ v, (0 ≤ v < 64)%Z → (v <? 0)%Z = false) as Hn by (intros; lia).
  change (Base64Module.alphabet Base64Module.pad_char) with 0%Z.
  assert (∀ x y, (0 ≤ x < 64)%Z → (0 ≤ y < 64)%Z →
    Z.lor (Z.lor (Z.lor (Z.shiftl v0 18) (Z.shiftl v1 12)) (Z.shiftl x 6)) y
    = (v0 * 2 ^ 18 + v1 * 2 ^ 12 + x * 2 ^ 6 + y)%Z) as Hlor.
  { intros x y Hx Hy. rewrite (Z.shiftl_mul_pow2 v1) // (lor_shift v0 _ 18); [|lia|lia].
    replace (v0 * 2 ^ 18 + v1 * 2 ^ 12)%Z with (Z.shiftl (v0 * 64 + v1) 12) by (rewrite Z.shiftl_mul_pow2; lia).
    rewrite (Z.shiftl_mul_pow2 x) // (lor_shift _ _ 12); [|lia|lia].
    replace ((v0 * 64 + v1) * 2 ^ 12 + x * 2 ^ 6)%Z with (Z.shiftl ((v0 * 64 + v1) * 64 + x) 6)
      by (rewrite Z.shiftl_mul_pow2; lia).
    rewrite (lor_shift _ y 6) ?Z.shiftl_mul_pow2; lia. }
  rewrite !Hn // !(Z.land_ones _ 8) // !Z.shiftr_div_pow2 // !Hlor //.
  rewrite (bool_decide_eq_false_2 _ N2) (bool_decide_eq_false_2 _ N3) (bool_decide_eq_true_2 (_ = _)) //.
  unfold block. split_and!; cbn [orb app]; repeat f_equal; lia.
Qed.

Lemma bytes_of_sum a b c n : is_byte a → is_byte b → is_byte c → n = (a * 65536 + b * 256 + c)%Z →
  ((n / 65536) mod 256)%Z = a ∧ ((n / 256) mod 256)%Z = b ∧ (n mod 256)%Z = c.
Proof. unfold is_byte. intros Ha Hb Hc ->. split_and!; Z.to_euclidean_division_equations; lia. Qed.

Lemma encode_three a b c : is_byte a → is_byte b → is_byte c →
  let block := block_of a b c in
  Base64Module.decode_block (symbol block 18) (symbol block 12) (symbol block 6) (symbol block 0)
    = Some [to_ascii a; to_ascii b; to_ascii c]
  ∧ (c = 0%Z → Base64Module.decode_block (symbol block 18) (symbol block 12) (symbol block 6) Base64Module.pad_char
               = Some [to_ascii a; to_ascii b])
  ∧ (b = 0%Z → c = 0%Z →
     Base64Module.decode_block (symbol block 18) (symbol block 12) Base64Module.pad_char Base64Module.pad_char
     = Some [to_ascii a]).
Proof.
  intros Ha Hb Hc block. rewrite !symbol_letter //. unfold block. rewrite block_of_sum //.
  set (n := (a * 65536 + b * 256 + c)%Z).
  destruct (bytes_of_sum a b c n Ha Hb Hc eq_refl) as (Ea & Eb & Ec). unfold is_byte in *.
  assert (0 ≤ n < 2 ^ 24)%Z as Hn by lia.
  destruct (decode_block_letters ((n / 2 ^ 18) mod 64) ((n / 2 ^ 12) mod 64) ((n / 2 ^ 6) mod 64) ((n / 2 ^ 0) mod 64))
    as (E1 & E2 & E3); [apply Z.mod_pos_bound; lia..|].
  assert (((n / 2 ^ 18) mod 64 * 2 ^ 18 + (n / 2 ^ 12) mod 64 * 2 ^ 12 + (n / 2 ^ 6) mod 64 * 2 ^ 6
           + (n / 2 ^ 0) mod 64)%Z = n) as E by (Z.to_euclidean_division_equations; lia).
  rewrite E in E1, E2, E3. rewrite E1 Ea Eb Ec. split_and!; [done| |].
  - intros Hc0. assert ((n / 2 ^ 0) mod 64 = 0)%Z as H0 by (Z.to_euclidean_division_equations; lia).
    by rewrite E2 H0 Z.sub_0_r Ea Eb.
  - intros Hb0 Hc0. assert ((n / 2 ^ 0) mod 64 = 0)%Z as H0 by (Z.to_euclidean_division_equations; lia).
    assert ((n / 2 ^ 6) mod 64 = 0)%Z as H6 by (Z.to_euclidean_division_equations; lia).
    by rewrite E3 H0 H6 !Z.sub_0_r Ea.
Qed.

Definition padding (data : list Z) : nat :=
  match length data mod 3 with 1 => 2 | 2 => 1 | _ => 0 end.

Lemma decode_encode data : Forall is_byte data →
  Base64Module.decode (encode data ++ replicate (padding data) Base64Module.pad_char) = Some (to_ascii <$> data).
Proof.
  revert data. fix IH 1. intros [|a [|b [|c data]]] Hd.
  - reflexivity.
  - apply Forall_cons in Hd as [Ha _].
    destruct (encode_three a 0 0 Ha) as (_ & _ & E); [done|done|].
    change (replicate _ _) with [Base64Module.pad_char; Base64Module.pad_char].
    cbn [encode app Base64Module.decode]. by rewrite E.
  - apply Forall_cons in Hd as [Ha [Hb _]%Forall_cons].
    destruct (encode_three a b 0 Ha Hb) as (_ & E & _); [done|].
    change (replicate _ _) with [Base64Module.pad_char].
    cbn [encode app Base64Module.decode]. by rewrite E.
  - apply Forall_cons in Hd as [Ha [Hb [Hc Hd]%Forall_cons]%Forall_cons].
    destruct (encode_three a b c Ha Hb Hc) as (E & _ & _).
    assert (padding (a :: b :: c :: data) = padding data) as ->.
    { unfold padding. cbn [length]. replace (S (S (S (length data)))) with (length data + 1 * 3) by lia.
      by rewrite Nat.Div0.mod_add. }
    cbn [encode app Base64Module.decode]. rewrite E. cbn [mbind option_bind]. by rewrite (IH data Hd).
Qed.

Lemma length_encode data : length (encode data) mod 4 = (4 - padding data) mod 4 ∧ (data = [] ↔ encode data = []).
Proof.
  revert data. fix IH 1. intros [|a [|b [|c data]]]; [clear IH; done..|]. destruct (IH data) as [E _]. split; [|done].
  assert (padding (a :: b :: c :: data) = padding data) as ->.
  { unfold padding. cbn [length]. replace (S (S (S (length data)))) with (length data + 1 * 3) by lia.
    by rewrite Nat.Div0.mod_add. }
  cbn [encode length]. replace (S (S (S (S (length (encode data)))))) with (length (encode data) + 1 * 4) by lia.
  by rewrite Nat.Div0.mod_add.
Qed.

Lemma string_of_list_app l k :
  String.string_of_list_ascii l +:+ String.string_of_list_ascii k = String.string_of_list_ascii (l ++ k).
Proof. induction l as [|c l IH]; [done|]. cbn. by rewrite -IH. Qed.

(** A text whose length is right is decoded after its padding. *)
Lemma DecodeBase64Url_list l : length l mod 4 ≠ 1 →
  Base64Module.DecodeBase64Url (String.string_of_list_ascii l) =
  match Base64Module.decode (Base64Module.normalize l) with
  | Some output => inl (String.string_of_list_ascii output)
  | None => inr "invalid base64url character"
  end.
Proof.
  intros Hl. unfold Base64Module.DecodeBase64Url. rewrite String.list_ascii_of_string_of_list_ascii.
  destruct l as [|c l]; [done|]. by rewrite (proj2 (Nat.eqb_neq _ _) Hl).
Qed.

(** C37. Decoding what [Base64UrlEncode] writes gives the bytes back, as it is written
    and with the padding of the standard after it. *)
Theorem base64url_roundtrip data : Forall is_byte data →
  Base64Module.DecodeBase64Url (Base64UrlEncode data) = inl (to_string data)
  ∧ Base64Module.DecodeBase64Url
      (Base64UrlEncode data +:+ String.string_of_list_ascii (replicate (padding data) Base64Module.pad_char))
    = inl (to_string data).
Proof.
  intros Hd. pose proof (decode_encode data Hd) as E. destruct (length_encode data) as [Hl _].
  assert (padding data < 3) as Hp by (unfold padding; repeat case_match; lia).
  unfold Base64UrlEncode. rewrite string_of_list_app. split; rewrite DecodeBase64Url_list.
  - unfold Base64Module.normalize. rewrite Hl. replace ((4 - (4 - padding data) mod 4) mod 4) with (padding data).
    { by rewrite E. }
    destruct (padding data) as [|[|[|n]]]; [done..|lia].
  - rewrite Hl. destruct (padding data) as [|[|[|n]]]; cbn; lia.
  - unfold Base64Module.normalize. rewrite length_app length_replicate.
    replace ((length (encode data) + padding data) mod 4) with 0; [by rewrite /= app_nil_r E|].
    rewrite Nat.Div0.add_mod Hl. destruct (padding data) as [|[|[|n]]]; [done..|lia].
  - rewrite length_app length_replicate Nat.Div0.add_mod Hl. destruct (padding data) as [|[|[|n]]]; cbn; lia.
Qed.

Lemma base64url_roundtrip_witness :
  Base64UrlEncode [1; 2; 3; 255]%Z = "AQID_w"
  ∧ Base64Module.DecodeBase64Url "AQID_w" = inl (to_string [1; 2; 3; 255]%Z)
  ∧ Base64Module.DecodeBase64Url "AQID_w==" = inl (to_string [1; 2; 3; 255]%Z).
Proof.
  split; [vm_compute; reflexivity|]. apply (base64url_roundtrip [1; 2; 3; 255]%Z). repeat constructor; done.
Defined.

(** The sign [=] is the letter of the number 0 wherever it stands, a length that
    no text can have passes with it, and bits that no byte uses are dropped:
    several texts decode to one. *)
Example base64url_lenient :
  Base64Module.DecodeBase64Url "=A==" = inl (to_string [0]%Z)
  ∧ Base64Module.DecodeBase64Url "A===" = inl (to_string [0]%Z)
  ∧ Base64Module.DecodeBase64Url "QR" = Base64Module.DecodeBase64Url "QQ"
  ∧ Base64Module.DecodeBase64Url "QQ==QQ" = inl "AA".
Proof. split_and!; vm_compute; reflexivity. Qed.

(** ** The comparison without early exit *)

Lemma compare_bytes_spec size : ∀ diff l r, (0 ≤ diff)%Z → Forall is_byte l → Forall is_byte r →
  compare_bytes diff l r size = 0%Z ↔
  diff = 0%Z ∧ ∀ i, i < size → default 0%Z (l !! i) = default 0%Z (r !! i).
Proof.
  induction size as [|size IH]; intros diff l r Hdiff Hl Hr; cbn [compare_bytes].
  { split; [intros ->; split; [done|lia]|by intros [-> _]]. }
  assert (∀ k, Forall is_byte k → (0 ≤ default 0 (head k))%Z) as Hhead.
  { intros [|x k] Hk; [done|]. apply Forall_cons in Hk as [[Hx _] _]. done. }
  assert (∀ k : list Z, Forall is_byte k → Forall is_byte (tail k)) as Htail by (intros ? []; done).
  rewrite IH; [|apply Z.lor_nonneg; split; [done|apply Z.lxor_nonneg; split; auto]|auto|auto].
  rewrite Z.lor_eq_0_iff Z.lxor_eq_0_iff.
  assert (∀ k : list Z, default 0%Z (head k) = default 0%Z (k !! 0)) as H0 by (by intros []).
  assert (∀ (k : list Z) i, default 0%Z (tail k !! i) = default 0%Z (k !! S i)) as HS by (by intros []).
  rewrite !H0. split.
  - intros [[-> H] Hi]. split; [done|]. intros [|i] Hlt; [done|]. rewrite -!HS. apply Hi. lia.
  - intros [-> Hi]. split; [split; [done|apply Hi; lia]|]. intros i Hlt. rewrite !HS. apply Hi. lia.
Qed.

(** [ConstantTimeEqual] answers true exactly when the shorter text, followed by
    zero bytes, is the longer one, and the lengths are congruent in the sense of
    their exclusive or modulo 256: on texts of one length, and on texts shorter
    than 256 bytes, this is equality. *)
Theorem ConstantTimeEqual_correct l r : Forall is_byte l → Forall is_byte r →
  (ConstantTimeEqual l r = true ↔
   (Z.lxor (Z.of_nat (length l)) (Z.of_nat (length r)) mod 256 = 0)%Z
   ∧ ∀ i, default 0%Z (l !! i) = default 0%Z (r !! i))
  ∧ (length l = length r ∨ length l < 256 ∧ length r < 256 → ConstantTimeEqual l r = true ↔ l = r).
Proof.
  intros Hl Hr.
  assert (ConstantTimeEqual l r = true ↔
   (Z.lxor (Z.of_nat (length l)) (Z.of_nat (length r)) mod 256 = 0)%Z
   ∧ ∀ i, default 0%Z (l !! i) = default 0%Z (r !! i)) as Hiff.
  { unfold ConstantTimeEqual. rewrite Z.eqb_eq compare_bytes_spec //; [|apply Z.mod_pos_bound; lia].
    apply and_iff_compat_l. split; [|auto]. intros H i. destruct (decide (i < length l `max` length r)); [auto|].
    rewrite !lookup_ge_None_2 //; lia. }
  split; [done|]. intros Hlen. rewrite Hiff. split; [|intros ->; by rewrite Z.lxor_nilpotent].
  intros [Hx H]. assert (length l = length r) as E.
  { destruct Hlen as [E|[H1 H2]]; [done|]. apply Nat2Z.inj, Z.lxor_eq_0_iff.
    rewrite -Hx Z.mod_small //. split; [apply Z.lxor_nonneg; lia|].
    destruct (decide (Z.lxor (Z.of_nat (length l)) (Z.of_nat (length r)) = 0%Z)) as [->|Hne]; [done|].
    apply (Z.log2_lt_pow2 _ 8); [pose proof (proj2 (Z.lxor_nonneg (Z.of_nat (length l)) (Z.of_nat (length r)))); lia|].
    eapply Z.le_lt_trans; [apply Z.log2_lxor; lia|].
    apply Z.max_lub_lt.
    - destruct (decide (length l = 0)) as [->|]; [done|]. apply Z.log2_lt_pow2; lia.
    - destruct (decide (length r = 0)) as [->|]; [done|]. apply Z.log2_lt_pow2; lia. }
  apply list_eq. intros i. specialize (H i). destruct (l !! i) as [x|] eqn:Ex, (r !! i) as [y|] eqn:Ey; cbn in H.
  - by rewrite H.
  - apply lookup_lt_Some in Ex. apply lookup_ge_None in Ey. lia.
  - apply lookup_lt_Some in Ey. apply lookup_ge_None in Ex. lia.
  - done.
Qed.

Lemma ConstantTimeEqual_correct_witness :
  ConstantTimeEqual [1; 2]%Z [1; 2]%Z = true ∧ ConstantTimeEqual [1; 2]%Z [1; 3]%Z = false.
Proof.
  assert (Forall is_byte [1; 2]%Z ∧ Forall is_byte [1; 3]%Z) as [H2 H3] by (repeat constructor; done).
  split; [apply (ConstantTimeEqual_correct _ _ H2 H2); [left|]; reflexivity|].
  destruct (ConstantTimeEqual [1; 2]%Z [1; 3]%Z) eqn:E; [|reflexivity].
  apply (ConstantTimeEqual_correct _ _ H2 H3) in E; [discriminate E|left; reflexivity].
Defined.

(** No text at all and 256 zero bytes. *)
Example constant_time_lengths : ConstantTimeEqual [] (replicate 256 0%Z) = true.
Proof. vm_compute. reflexivity. Qed.

(** ** Test vectors: FIPS 180-4 on [abc], RFC 4231 on its second case *)

Example sha256_abc :
  Base64UrlEncode <$> Sha256 (of_string "abc") = Ok "ungWv48Bz-pBQUDeXa4iI7ADYaOWF3qctBD_YfIAFa0".
Proof. vm_compute. reflexivity. Qed.
Example hmac_rfc4231 :
  Base64UrlEncode <$> HmacSha256 (of_string "Jefe") (of_string "what do ya want for nothing?")
  = Ok "W9zBRr9gdU5qBCQmCJV1x1oAPwidJzmDnexYuWTsOEM".
Proof. vm_compute. reflexivity. Qed.

End CryptoSpec.
