(* ===== verification/Json.v ===== *)
(** * The native module of JSON

    [src/vm/runtime/stdlib/json/JsonModuleParser.cpp] and [JsonModule.cpp]: the
    parser that checks a text and removes its white space, the cache of its
    answers, the lookup of a field of an object, and strings in both directions.

    The parser's state is [source.substr(index)], the text that is left; a parse
    that fails gives [None], since no caller looks at the parser after it.
    [ParseValue] recurses and loops over the text: it has fuel, and [JsonSpec]
    shows how much is enough. *)

From S2P Require Import Prelude Crypto.

Module JsonModule.

Definition text : Type := list ascii.
Definition quote : ascii := "034".
Definition backslash : ascii := "092".

(** [std::isspace], [std::isdigit] and [std::isxdigit] in the "C" locale. *)
Definition isspace (c : ascii) : bool :=
  bool_decide (c ∈ [" "; "009"; "010"; "011"; "012"; "013"]%char).
Definition isdigit (c : ascii) : bool :=
  bool_decide (c ∈ String.list_ascii_of_string "0123456789").
Definition isxdigit (c : ascii) : bool :=
  bool_decide (c ∈ String.list_ascii_of_string "0123456789abcdefABCDEF").
(** [static_cast<unsigned char>(ch) < 0x20] *)
Definition iscontrol (c : ascii) : bool := (Bytes.of_ascii c <? 32)%Z.

(** ** The parser *)

Definition SkipWhitespace (l : text) : text := dropWhile isspace l.
Definition Peek (l : text) : ascii := default "000"%char (head l).
(** What is left when the next character is the expected one. *)
Definition Consume (expected : ascii) (l : text) : option text :=
  match l with c :: l => if decide (c = expected) then Some l else None | [] => None end.

(** The characters that may follow a backslash, but for [u]. *)
Definition escapes : list ascii := [quote; backslash; "/"; "b"; "f"; "n"; "r"; "t"]%char.

(** The loop of [ParseStringToken]: the token up to the closing quote, and what
    follows. *)
Fixpoint string_token (l : text) : option (text * text) :=
  match l with
  | [] => None
  | ch :: l =>
      if decide (ch = quote) then Some ([ch], l)
      else if decide (ch = backslash) then
        match l with
        | [] => None
        | escaped :: l =>
            if decide (escaped ∈ escapes) then
              '(token, rest) ← string_token l; Some (ch :: escaped :: token, rest)
            else if decide (escaped = "u"%char) then
              match l with
              | h1 :: h2 :: h3 :: h4 :: l =>
                  if isxdigit h1 && isxdigit h2 && isxdigit h3 && isxdigit h4
                  then '(token, rest) ← string_token l; Some (ch :: escaped :: h1 :: h2 :: h3 :: h4 :: token, rest)
                  else None
              | _ => None
              end
            else None
        end
      else if iscontrol ch then None
      else '(token, rest) ← string_token l; Some (ch :: token, rest)
  end.
Definition ParseStringToken (l : text) : option (text * text) :=
  l ← Consume quote l; '(token, rest) ← string_token l; Some (quote :: token, rest).

(** What an escaped character stands for. *)
Definition unescape (escaped : ascii) : ascii :=
  if decide (escaped = "b"%char) then "008"%char
  else if decide (escaped = "f"%char) then "012"%char
  else if decide (escaped = "n"%char) then "010"%char
  else if decide (escaped = "r"%char) then "013"%char
  else if decide (escaped = "t"%char) then "009"%char
  else escaped.

(** The loop of [ParseStringValue]: the decoded text, and what follows. *)
Fixpoint string_value (l : text) : option (text * text) :=
  match l with
  | [] => None
  | ch :: l =>
      if decide (ch = quote) then Some ([], l)
      else if decide (ch = backslash) then
        match l with
        | [] => None
        | escaped :: l =>
            if decide (escaped ∈ escapes) then
              '(decoded, rest) ← string_value l; Some (unescape escaped :: decoded, rest)
            else if decide (escaped = "u"%char) then
              match l with
              | h1 :: h2 :: h3 :: h4 :: l =>
                  if isxdigit h1 && isxdigit h2 && isxdigit h3 && isxdigit h4
                  then '(decoded, rest) ← string_value l; Some ("?"%char :: decoded, rest)
                  else None
              | _ => None
              end
            else None
        end
      else if iscontrol ch then None
      else '(decoded, rest) ← string_value l; Some (ch :: decoded, rest)
  end.
Definition ParseStringValue (l : text) : option (text * text) :=
  l ← Consume quote l; string_value l.

Definition ParseLiteral (literal : string) (l : text) : option (text * text) :=
  let k := String.list_ascii_of_string literal in
  if decide (take (length k) l = k) then Some (k, drop (length k) l) else None.

(** One digit or more: the digits, and what follows. *)
Definition digits (l : text) : option (text * text) :=
  match l with
  | c :: _ => if isdigit c then Some (takeWhile isdigit l, dropWhile isdigit l) else None
  | [] => None
  end.

(** The parts of [ParseNumber], each with the text it has passed. *)
Definition number_sign (l : text) : option (text * text) :=
  match Consume "-" l with
  | Some [] => None
  | Some rest => Some (["-"%char], rest)
  | None => Some ([], l)
  end.
Definition number_integer (l : text) : option (text * text) :=
  match Consume "0" l with
  | Some rest => if isdigit (Peek rest) then None else Some (["0"%char], rest)
  | None => digits l
  end.
Definition number_fraction (l : text) : option (text * text) :=
  match Consume "." l with
  | Some rest => '(d, rest) ← digits rest; Some ("."%char :: d, rest)
  | None => Some ([], l)
  end.
Definition exponent_sign (l : text) : text * text :=
  match l with
  | s :: rest => if decide (s = "+"%char ∨ s = "-"%char) then ([s], rest) else ([], l)
  | [] => ([], [])
  end.
Definition number_exponent (l : text) : option (text * text) :=
  match l with
  | e :: rest =>
      if decide (e = "e"%char ∨ e = "E"%char) then
        let '(sign, rest) := exponent_sign rest in
        '(d, rest) ← digits rest; Some (e :: sign ++ d, rest)
      else Some ([], l)
  | [] => Some ([], [])
  end.
Definition ParseNumber (l : text) : option (text * text) :=
  '(sign, l) ← number_sign l;
  '(integer, l) ← number_integer l;
  '(fraction, l) ← number_fraction l;
  '(exponent, l) ← number_exponent l;
  Some (sign ++ integer ++ fraction ++ exponent, l).

(** A value, an array from its first element, an object from its first member.
    The loops end with the closing bracket, and put a comma before what follows
    the first element. *)
Definition parsed : Type := result (option (text * text)).
Definition fails : parsed := Ok None.
Definition or_fail {A} (o : option A) (k : A → parsed) : parsed :=
  match o with Some a => k a | None => fails end.

(** What follows an element or a member: the end, or a comma and the loop. *)
Definition close_or_continue (closing : ascii) (compact : text) (loop : text → parsed) (l : text) : parsed :=
  let l := SkipWhitespace l in
  match Consume closing l with
  | Some rest => Ok (Some (compact ++ [closing], rest))
  | None => or_fail (Consume "," l) (λ l,
      r ← loop (SkipWhitespace l);
      or_fail r (λ '(more, rest), Ok (Some (compact ++ ","%char :: more, rest))))
  end.

Fixpoint ParseValue (fuel : nat) (l : text) : parsed :=
  match fuel with
  | 0 => Diverge
  | S fuel =>
      let l := SkipWhitespace l in
      match l with
      | [] => fails
      | c :: _ =>
          if decide (c = "{"%char) then ParseObject fuel l
          else if decide (c = "["%char) then ParseArray fuel l
          else if decide (c = quote) then Ok (ParseStringToken l)
          else if decide (c = "t"%char) then Ok (ParseLiteral "true" l)
          else if decide (c = "f"%char) then Ok (ParseLiteral "false" l)
          else if decide (c = "n"%char) then Ok (ParseLiteral "null" l)
          else if bool_decide (c = "-"%char) || isdigit c then Ok (ParseNumber l)
          else fails
      end
  end
with ParseArray (fuel : nat) (l : text) : parsed :=
  match fuel with
  | 0 => Diverge
  | S fuel =>
      or_fail (Consume "[" l) (λ l,
        let l := SkipWhitespace l in
        match Consume "]" l with
        | Some rest => Ok (Some (["["; "]"]%char, rest))
        | None => r ← array_loop fuel l; or_fail r (λ '(compact, rest), Ok (Some ("["%char :: compact, rest)))
        end)
  end
with array_loop (fuel : nat) (l : text) : parsed :=
  match fuel with
  | 0 => Diverge
  | S fuel =>
      r ← ParseValue fuel l;
      or_fail r (λ '(value, l), close_or_continue "]" value (array_loop fuel) l)
  end
with ParseObject (fuel : nat) (l : text) : parsed :=
  match fuel with
  | 0 => Diverge
  | S fuel =>
      or_fail (Consume "{" l) (λ l,
        let l := SkipWhitespace l in
        match Consume "}" l with
        | Some rest => Ok (Some (["{"; "}"]%char, rest))
        | None => r ← object_loop fuel l; or_fail r (λ '(compact, rest), Ok (Some ("{"%char :: compact, rest)))
        end)
  end
with object_loop (fuel : nat) (l : text) : parsed :=
  match fuel with
  | 0 => Diverge
  | S fuel =>
      or_fail (ParseStringToken l) (λ '(key, l),
      or_fail (Consume ":" (SkipWhitespace l)) (λ l,
      r ← ParseValue fuel (SkipWhitespace l);
      or_fail r (λ '(value, l), close_or_continue "}" (key ++ ":"%char :: value) (object_loop fuel) l)))
  end.

(** ** The functions over a whole text *)

(** Enough for every text: see [JsonSpec]. *)
Definition enough (l : text) : nat := 3 * length l + 3.

Definition ParseCompactJson (input : text) : result (option text) :=
  r ← ParseValue (enough input) input;
  match r with
  | Some (compact, rest) => Ok (match SkipWhitespace rest with [] => Some compact | _ => None end)
  | None => Ok None
  end.

(** [g_jsonCache]: the answers so far, [None] for a text that is not valid. *)
Abbreviation cache := (gmap string (option text)).
Definition LookupCompactJson (input : string) : st cache (option text) := λ c,
  match c !! input with
  | Some entry => Ok (entry, c)
  | None =>
      match ParseCompactJson (String.list_ascii_of_string input) with
      | Ok entry => Ok (entry, <[input := entry]> c)
      | Throw e => Throw e
      | Diverge => Diverge
      end
  end.
Definition IsValidJsonText (input : string) : st cache bool :=
  entry ← LookupCompactJson input; mret (bool_decide (is_Some entry)).
Definition CompactJsonText (input : string) : st cache (option text) := LookupCompactJson input.

(** [ParseJsonString], which [DecodeJsonString] calls. *)
Definition DecodeJsonString (rawJsonString : text) : option text :=
  '(decoded, rest) ← ParseStringValue rawJsonString;
  match SkipWhitespace rest with [] => Some decoded | _ => None end.

(** The loop of [LookupObjectField], and the function. *)
Fixpoint lookup_loop (fuel : nat) (fieldName : text) (l : text) : result (option text) :=
  match fuel with
  | 0 => Diverge
  | S fuel =>
      match ParseStringValue l with
      | None => Ok None
      | Some (decodedKey, l) =>
          match Consume ":" (SkipWhitespace l) with
          | None => Ok None
          | Some l =>
              let l := SkipWhitespace l in
              r ← ParseValue (enough l) l;
              match r with
              | None => Ok None
              | Some (currentValue, l) =>
                  if decide (decodedKey = fieldName) then Ok (Some currentValue) else
                  let l := SkipWhitespace l in
                  match Consume "}" l, Consume "," l with
                  | Some _, _ | None, None => Ok None
                  | None, Some l => lookup_loop fuel fieldName (SkipWhitespace l)
                  end
              end
          end
      end
  end.
Definition LookupTopLevelField (objectJson fieldName : text) : result (option text) :=
  match Consume "{" (SkipWhitespace objectJson) with
  | None => Ok None
  | Some l =>
      let l := SkipWhitespace l in
      match Consume "}" l with
      | Some _ => Ok None
      | None => lookup_loop (S (length l)) fieldName l
      end
  end.

(** ** Strings *)

(** A digit of [std::hex << std::uppercase]. *)
Definition hex_digit (n : nat) : ascii :=
  default "0"%char (String.list_ascii_of_string "0123456789ABCDEF" !! n).
Definition escape (c : ascii) : text :=
  if decide (c = quote) then [backslash; quote]
  else if decide (c = backslash) then [backslash; backslash]
  else if decide (c = "008"%char) then [backslash; "b"%char]
  else if decide (c = "012"%char) then [backslash; "f"%char]
  else if decide (c = "010"%char) then [backslash; "n"%char]
  else if decide (c = "013"%char) then [backslash; "r"%char]
  else if decide (c = "009"%char) then [backslash; "t"%char]
  else if iscontrol c then
    let n := Z.to_nat (Bytes.of_ascii c) in
    [backslash; "u"; "0"; "0"; hex_digit (n / 16); hex_digit (n mod 16)]%char
  else [c].
Definition EscapeJsonString (input : text) : text := [quote] ++ (input ≫= escape) ++ [quote].

(** ** Numbers and truth values *)

Definition digit_value (c : ascii) : Z := (Bytes.of_ascii c - 48)%Z.
(** [std::from_chars] on an [int64_t] that reaches the end of the text. *)
Definition ParseJsonInt (rawValue : text) : option Z :=
  let '(sign, l) := match Consume "-" rawValue with Some l => ((-1)%Z, l) | None => (1%Z, rawValue) end in
  if bool_decide (l = []) || negb (forallb isdigit l) then None else
  let z := (sign * foldl (λ z c, z * 10 + digit_value c) 0 l)%Z in
  if (- 2 ^ 63 <=? z)%Z && (z <? 2 ^ 63)%Z then Some z else None.
Definition ParseJsonBool (rawValue : string) : option bool :=
  if decide (rawValue = "true") then Some true
  else if decide (rawValue = "false") then Some false
  else None.

End JsonModule.
