(* ===== verification/JsonSpec.v ===== *)
(** * Correctness of the parser of JSON

    A grammar of JSON texts with their compact forms, written without the parser:
    [ParseCompactJson] returns on every text, accepts exactly the texts of the
    grammar, and its answer is the compact form, which it leaves as it is.  The
    cache does not change the answers.  Strings come back from [EscapeJsonString],
    but for the control characters that only have the form of four digits. *)

From S2P Require Import Prelude Crypto Json.

Module JsonSpec.
Import JsonModule.

(** ** The grammar *)

Definition spaces (l : text) : Prop := Forall (λ c, isspace c = true) l.
Definition all_digits (l : text) : Prop := l ≠ [] ∧ Forall (λ c, isdigit c = true) l.

(** The inside of a string and its closing quote. *)
Inductive chars : text → Prop :=
  | chars_end : chars [quote]
  | chars_plain c l : c ≠ quote → c ≠ backslash → iscontrol c = false → chars l → chars (c :: l)
  | chars_escape e l : e ∈ escapes → chars l → chars (backslash :: e :: l)
  | chars_unicode a b c d l : isxdigit a && isxdigit b && isxdigit c && isxdigit d = true → chars l →
      chars (backslash :: "u"%char :: a :: b :: c :: d :: l).

(** Numbers: no leading zero, and digits on both sides of the point. *)
Definition is_sign (l : text) : Prop := l = [] ∨ l = ["-"%char].
Definition is_integer (l : text) : Prop := l = ["0"%char] ∨ all_digits l ∧ head l ≠ Some "0"%char.
Definition is_fraction (l : text) : Prop := l = [] ∨ ∃ d, l = "."%char :: d ∧ all_digits d.
Definition is_exponent (l : text) : Prop := l = [] ∨ ∃ e s d,
  l = e :: s ++ d ∧ (e = "e"%char ∨ e = "E"%char) ∧ (s = [] ∨ s = ["+"%char] ∨ s = ["-"%char]) ∧ all_digits d.
Definition number (l : text) : Prop := ∃ s i f e,
  l = s ++ i ++ f ++ e ∧ is_sign s ∧ is_integer i ∧ is_fraction f ∧ is_exponent e.

(** A text and its compact form: a value without spaces around it; the rest of
    an array from its first element on; the rest of an object. *)
Definition literal (s : string) : text := String.list_ascii_of_string s.
Inductive value : text → text → Prop :=
  | v_literal s : s ∈ ["true"; "false"; "null"] → value (literal s) (literal s)
  | v_string l : chars l → value (quote :: l) (quote :: l)
  | v_number l : number l → value l l
  | v_empty_array ws : spaces ws → value ("["%char :: ws ++ ["]"%char]) ["["; "]"]%char
  | v_array ws t c : spaces ws → elements t c → value ("["%char :: ws ++ t) ("["%char :: c)
  | v_empty_object ws : spaces ws → value ("{"%char :: ws ++ ["}"%char]) ["{"; "}"]%char
  | v_object ws t c : spaces ws → members t c → value ("{"%char :: ws ++ t) ("{"%char :: c)
with elements : text → text → Prop :=
  | e_last t c ws : value t c → spaces ws → elements (t ++ ws ++ ["]"%char]) (c ++ ["]"%char])
  | e_more t c ws ws' t' c' : value t c → spaces ws → spaces ws' → elements t' c' →
      elements (t ++ ws ++ ","%char :: ws' ++ t') (c ++ ","%char :: c')
with members : text → text → Prop :=
  | m_last k ws1 ws2 t c ws : chars k → spaces ws1 → spaces ws2 → value t c → spaces ws →
      members (quote :: k ++ ws1 ++ ":"%char :: ws2 ++ t ++ ws ++ ["}"%char])
              ((quote :: k ++ ":"%char :: c) ++ ["}"%char])
  | m_more k ws1 ws2 t c ws ws' t' c' : chars k → spaces ws1 → spaces ws2 → value t c → spaces ws → spaces ws' →
      members t' c' →
      members (quote :: k ++ ws1 ++ ":"%char :: ws2 ++ t ++ ws ++ ","%char :: ws' ++ t')
              ((quote :: k ++ ":"%char :: c) ++ ","%char :: c').

Scheme value_ind' := Induction for value Sort Prop
  with elements_ind' := Induction for elements Sort Prop
  with members_ind' := Induction for members Sort Prop.
Combined Scheme json_ind from value_ind', elements_ind', members_ind'.

(** ** White space *)

(** The first character, if there is one, satisfies [p]. *)
Definition starts (p : ascii → bool) (l : text) : bool := match l with c :: _ => p c | [] => false end.

Lemma SkipWhitespace_split l : ∃ ws, spaces ws ∧ l = ws ++ SkipWhitespace l ∧ starts isspace (SkipWhitespace l) = false.
Proof.
  exists (takeWhile isspace l). unfold SkipWhitespace. split_and!; [apply takeWhile_Forall|by rewrite takeWhile_dropWhile|].
  destruct (dropWhile isspace l) as [|c k] eqn:E; [done|]. by apply dropWhile_head in E.
Qed.
Lemma SkipWhitespace_app ws l : spaces ws → starts isspace l = false → SkipWhitespace (ws ++ l) = l.
Proof.
  intros Hws Hl. unfold SkipWhitespace. induction Hws as [|c ws Hc _ IH]; cbn; [|by rewrite Hc].
  destruct l as [|c l]; [done|]. cbn in *. by rewrite Hl.
Qed.
Lemma SkipWhitespace_id l : starts isspace l = false → SkipWhitespace l = l.
Proof. intros H. by apply (SkipWhitespace_app [] l (Forall_nil_2 _)) in H. Qed.
Lemma Consume_Some c l rest : Consume c l = Some rest → l = c :: rest.
Proof. destruct l as [|d l]; cbn; [done|]. case_decide; [|done]. intros [= <-]. by subst. Qed.
Lemma Consume_cons c l : Consume c (c :: l) = Some l.
Proof. cbn. by rewrite decide_True. Qed.
Lemma Consume_other c l : starts (λ d, bool_decide (d = c)) l = false → Consume c l = None.
Proof. destruct l as [|d l]; cbn; [done|]. rewrite bool_decide_eq_false. intros H. by rewrite decide_False. Qed.

(** ** Strings *)

Lemma string_token_sound l t rest : string_token l = Some (t, rest) → chars t ∧ l = t ++ rest.
Proof.
  revert l t rest. fix IH 1. intros [|ch l] t rest H; [discriminate H|]. cbn [string_token] in H.
  destruct (decide (ch = quote)) as [Hq|Hq]; [injection H as <- <-; rewrite Hq; split; [apply chars_end|reflexivity]|].
  destruct (decide (ch = backslash)) as [Hb|Hb].
  - destruct l as [|e l]; [discriminate H|]. destruct (decide (e ∈ escapes)) as [He|He].
    + destruct (string_token l) as [[t' r']|] eqn:E; [|discriminate H]. injection H as <- <-.
      destruct (IH _ _ _ E) as [Hc ->]. rewrite Hb. split; [by apply chars_escape|reflexivity].
    + destruct (decide (e = "u"%char)) as [Hu|Hu]; [|discriminate H].
      destruct l as [|a [|b [|c [|d l]]]]; try discriminate H.
      destruct (isxdigit a && _ && _ && _) eqn:Hx; [|discriminate H].
      destruct (string_token l) as [[t' r']|] eqn:E; [|discriminate H]. injection H as <- <-.
      destruct (IH _ _ _ E) as [Hc ->]. rewrite Hb Hu. split; [by apply chars_unicode|reflexivity].
  - destruct (iscontrol ch) eqn:Hc; [discriminate H|].
    destruct (string_token l) as [[t' r']|] eqn:E; [|discriminate H]. injection H as <- <-.
    destruct (IH _ _ _ E) as [Ht ->]. split; [by apply chars_plain|reflexivity].
Qed.

Lemma string_token_u l : string_token (backslash :: "u"%char :: l) =
  match l with
  | a :: b :: c :: d :: l =>
      if isxdigit a && isxdigit b && isxdigit c && isxdigit d
      then '(token, rest) ← string_token l; Some (backslash :: "u"%char :: a :: b :: c :: d :: token, rest)
      else None
  | _ => None
  end.
Proof. reflexivity. Qed.
Lemma string_token_complete t rest : chars t → string_token (t ++ rest) = Some (t, rest).
Proof.
  induction 1 as [|c l Hq Hb Hc _ IH|e l He _ IH|a b c d l Hx _ IH].
  - done.
  - cbn [app string_token]. by rewrite (decide_False (P := c = quote)) // (decide_False (P := c = backslash)) // Hc IH.
  - cbn [app string_token]. by rewrite (decide_True (P := e ∈ escapes)) // IH.
  - change ((backslash :: "u"%char :: a :: b :: c :: d :: l) ++ rest)
      with (backslash :: "u"%char :: a :: b :: c :: d :: l ++ rest).
    by rewrite string_token_u Hx IH.
Qed.

(** ** Numbers *)

(** What stops a number. *)
Definition number_char (c : ascii) : bool := isdigit c || bool_decide (c ∈ ["."; "e"; "E"]%char).
Definition ends (l : text) : Prop := starts number_char l = false.

Lemma digits_sound l d rest : digits l = Some (d, rest) → all_digits d ∧ l = d ++ rest.
Proof.
  destruct l as [|c l]; cbn; [done|]. destruct (isdigit c) eqn:Hc; [|done]. intros [= <- <-].
  split; [|by rewrite /= takeWhile_dropWhile]. split; [done|]. constructor; [done|]. apply takeWhile_Forall.
Qed.
Lemma digits_complete d rest : all_digits d → starts isdigit rest = false → digits (d ++ rest) = Some (d, rest).
Proof.
  intros [Hne Hd] Hr.
  assert (takeWhile isdigit (d ++ rest) = d ∧ dropWhile isdigit (d ++ rest) = rest) as [Ht Hdr].
  { clear Hne. induction Hd as [|c d Hc _ [IH1 IH2]]; cbn.
    - destruct rest as [|c rest]; [done|]. cbn in *. by rewrite Hr.
    - by rewrite Hc IH1 IH2. }
  destruct d as [|c d]; [done|]. apply Forall_cons in Hd as [Hc _]. unfold digits. cbn [app] in *. by rewrite Hc Ht Hdr.
Qed.
Lemma all_digits_starts d l : all_digits d → ∃ c k, d ++ l = c :: k ∧ isdigit c = true.
Proof. intros [Hne Hd]. destruct d as [|c d]; [done|]. apply Forall_cons in Hd as [Hc _]. by exists c, (d ++ l). Qed.

Lemma number_sign_sound l s rest : number_sign l = Some (s, rest) → is_sign s ∧ l = s ++ rest.
Proof.
  unfold number_sign. destruct (Consume "-" l) as [k|] eqn:E; [|intros [= <- <-]; by split; [left|]].
  apply Consume_Some in E as ->. destruct k; [done|]. intros [= <- <-]. by split; [right|].
Qed.
Lemma number_integer_sound l i rest : number_integer l = Some (i, rest) → is_integer i ∧ l = i ++ rest.
Proof.
  unfold number_integer. destruct (Consume "0" l) as [k|] eqn:E.
  - apply Consume_Some in E as ->. destruct (isdigit (Peek k)); [done|]. intros [= <- <-]. by split; [left|].
  - intros [Hd ->]%digits_sound. split; [|done]. right. split; [done|].
    destruct Hd as [Hne _]. destruct i as [|c i]; [done|]. intros [= ->]. by rewrite Consume_cons in E.
Qed.
Lemma number_fraction_sound l f rest : number_fraction l = Some (f, rest) → is_fraction f ∧ l = f ++ rest.
Proof.
  unfold number_fraction. destruct (Consume "." l) as [k|] eqn:E; [|intros [= <- <-]; by split; [left|]].
  apply Consume_Some in E as ->. destruct (digits k) as [[d k']|] eqn:Ed; [|done]. intros [= <- <-].
  apply digits_sound in Ed as [Hd ->]. split; [right; by exists d|done].
Qed.
Lemma exponent_sign_sound l s rest :
  exponent_sign l = (s, rest) → (s = [] ∨ s = ["+"%char] ∨ s = ["-"%char]) ∧ l = s ++ rest.
Proof.
  destruct l as [|c l]; cbn; [intros [= <- <-]; auto|]. case_decide as Hc; intros [= <- <-]; naive_solver.
Qed.
Lemma exponent_sign_complete s l :
  s = [] ∧ starts isdigit l = true ∨ s = ["+"%char] ∨ s = ["-"%char] → exponent_sign (s ++ l) = (s, l).
Proof.
  intros [[-> Hl]|[->| ->]]; [|done..]. destruct l as [|c l]; [done|]. cbn in *.
  rewrite decide_False //. intros [->| ->]; by vm_compute in Hl.
Qed.
Lemma number_exponent_sound l e rest : number_exponent l = Some (e, rest) → is_exponent e ∧ l = e ++ rest.
Proof.
  unfold number_exponent. destruct l as [|c l]; [intros [= <- <-]; by split; [left|]|].
  destruct (decide (c = "e"%char ∨ c = "E"%char)) as [Hc|_]; [|intros [= <- <-]; by split; [left|]].
  destruct (exponent_sign l) as [s k] eqn:Es. apply exponent_sign_sound in Es as [Hs ->].
  destruct (digits k) as [[d k']|] eqn:Ed; [|done]. intros [= <- <-]. apply digits_sound in Ed as [Hd ->].
  split; [right; by exists c, s, d|]. by rewrite /= -assoc.
Qed.
Lemma ParseNumber_sound l t rest : ParseNumber l = Some (t, rest) → number t ∧ l = t ++ rest.
Proof.
  unfold ParseNumber.
  destruct (number_sign l) as [[s l1]|] eqn:E1; [|done]. apply number_sign_sound in E1 as [Hs ->]. cbn.
  destruct (number_integer l1) as [[i l2]|] eqn:E2; [|done]. apply number_integer_sound in E2 as [Hi ->]. cbn.
  destruct (number_fraction l2) as [[f l3]|] eqn:E3; [|done]. apply number_fraction_sound in E3 as [Hf ->]. cbn.
  destruct (number_exponent l3) as [[e l4]|] eqn:E4; [|done]. apply number_exponent_sound in E4 as [He ->]. cbn.
  intros [= <- <-]. split; [by exists s, i, f, e|]. by rewrite -!assoc.
Qed.

Lemma starts_weaken (p q : ascii → bool) l : (∀ c, p c = true → q c = true) → starts q l = false → starts p l = false.
Proof. destruct l as [|c l]; cbn; [done|]. intros H Hq. destruct (p c) eqn:E; [|done]. by rewrite (H _ E) in Hq. Qed.
Lemma ends_no_digit l : ends l → starts isdigit l = false.
Proof. apply starts_weaken. intros c Hc. unfold number_char. by rewrite Hc. Qed.
Lemma ends_not c l : ends l → number_char c = true → Consume c l = None.
Proof.
  intros Hl Hc. apply Consume_other. revert Hl. apply starts_weaken.
  intros d Hd%bool_decide_eq_true. by rewrite Hd.
Qed.
Lemma isdigit_not c d : isdigit c = true → isdigit d = false → c ≠ d.
Proof. intros Hc Hd ->. congruence. Qed.
Lemma number_exponent_complete e rest : is_exponent e → ends rest → number_exponent (e ++ rest) = Some (e, rest).
Proof.
  intros [->|(c & s & d & -> & Hc & Hs & Hd)] Hr.
  - destruct rest as [|c rest]; [done|]. cbn. rewrite decide_False //. intros Hc. unfold ends in Hr. cbn in Hr.
    destruct Hc as [->| ->]; by vm_compute in Hr.
  - cbn. rewrite decide_True // -assoc.
    rewrite exponent_sign_complete; [rewrite digits_complete; [by rewrite ?app_comm_cons|done|by apply ends_no_digit]|].
    destruct (all_digits_starts d rest Hd) as (x & k & -> & Hx). naive_solver.
Qed.
Lemma is_exponent_no_digit e rest : is_exponent e → ends rest →
  starts isdigit (e ++ rest) = false ∧ Consume "." (e ++ rest) = None.
Proof.
  intros [->|(c & s & d & -> & Hc & _)] Hr; [split; [by apply ends_no_digit|by apply ends_not]|].
  by destruct Hc as [->| ->].
Qed.
Lemma number_fraction_complete f e rest : is_fraction f → is_exponent e → ends rest →
  number_fraction (f ++ e ++ rest) = Some (f, e ++ rest).
Proof.
  intros Hf He Hr. destruct (is_exponent_no_digit e rest He Hr) as [Hd Hp].
  destruct Hf as [->|(d & -> & Hf)]; unfold number_fraction; [by rewrite Hp|].
  cbn [app]. rewrite Consume_cons. by rewrite digits_complete.
Qed.
Lemma is_fraction_no_digit f e rest : is_fraction f → is_exponent e → ends rest →
  starts isdigit (f ++ e ++ rest) = false.
Proof. intros [->|(d & -> & _)] He Hr; [apply (is_exponent_no_digit e rest He Hr)|done]. Qed.
Lemma number_integer_complete i l : is_integer i → starts isdigit l = false → number_integer (i ++ l) = Some (i, l).
Proof.
  unfold number_integer. intros [->|[Hd Hz]] Hl.
  - cbn [app]. rewrite Consume_cons. destruct l as [|c l]; [done|]. cbn in *. by rewrite Hl.
  - rewrite Consume_other; [by apply digits_complete|]. destruct Hd as [Hne _]. destruct i as [|c i]; [done|].
    cbn in *. apply bool_decide_eq_false. naive_solver.
Qed.
Lemma is_integer_starts i l : is_integer i → starts isdigit (i ++ l) = true.
Proof.
  intros [->|[Hd _]]; [done|]. by destruct (all_digits_starts i l Hd) as (c & k & -> & ?).
Qed.
Lemma number_sign_complete s l : is_sign s → starts isdigit l = true → number_sign (s ++ l) = Some (s, l).
Proof.
  unfold number_sign. intros [->| ->] Hl; destruct l as [|c l]; try done. cbn in *. rewrite decide_False //.
  intros ->. by vm_compute in Hl.
Qed.
Lemma ParseNumber_complete t rest : number t → ends rest → ParseNumber (t ++ rest) = Some (t, rest).
Proof.
  intros (s & i & f & e & -> & Hs & Hi & Hf & He) Hr. rewrite -!assoc. unfold ParseNumber.
  rewrite number_sign_complete //; [|by apply is_integer_starts]. cbn.
  rewrite number_integer_complete //; [|by apply is_fraction_no_digit]. cbn.
  by rewrite number_fraction_complete //= number_exponent_complete.
Qed.
Lemma number_starts t l : number t → starts (λ c, bool_decide (c = "-"%char) || isdigit c) (t ++ l) = true.
Proof.
  intros (s & i & f & e & -> & Hs & Hi & _). rewrite -!assoc.
  pose proof (is_integer_starts i (f ++ e ++ l) Hi) as H. destruct Hs as [->| ->]; [|done].
  cbn [app]. destruct (i ++ f ++ e ++ l); [done|]. cbn in *. by rewrite H orb_true_r.
Qed.

(** ** Soundness: what the parser accepts is in the grammar *)

Lemma or_fail_Some {A} (o : option A) k x : or_fail o k = Ok (Some x) → ∃ a, o = Some a ∧ k a = Ok (Some x).
Proof. destruct o as [a|]; [by exists a|done]. Qed.
Lemma loop_Some (r : parsed) (k : text * text → parsed) x : (o ← r; or_fail o k) = Ok (Some x) →
  ∃ c rest, r = Ok (Some (c, rest)) ∧ k (c, rest) = Ok (Some x).
Proof. destruct r as [[[c rest]|]| |]; try done. by exists c, rest. Qed.
Lemma ParseStringToken_sound l t rest : ParseStringToken l = Some (t, rest) → ∃ k, chars k ∧ t = quote :: k ∧ l = t ++ rest.
Proof.
  unfold ParseStringToken. destruct (Consume quote l) as [l'|] eqn:E; [|done]. apply Consume_Some in E as ->. cbn.
  destruct (string_token l') as [[k r]|] eqn:E; [|done]. apply string_token_sound in E as [Hk ->].
  intros [= <- <-]. by exists k.
Qed.
Lemma ParseLiteral_sound s l t rest : ParseLiteral s l = Some (t, rest) → t = literal s ∧ l = t ++ rest.
Proof.
  unfold ParseLiteral. case_decide as H; [|done]. intros [= <- <-]. split; [done|].
  by rewrite -{1}H take_drop.
Qed.

Lemma close_or_continue_sound closing compact loop l c rest :
  close_or_continue closing compact loop l = Ok (Some (c, rest)) → ∃ ws, spaces ws ∧
    (l = ws ++ closing :: rest ∧ c = compact ++ [closing] ∨
     ∃ ws' k more, spaces ws' ∧ l = ws ++ ","%char :: ws' ++ k ∧ loop k = Ok (Some (more, rest)) ∧
       c = compact ++ ","%char :: more).
Proof.
  unfold close_or_continue. destruct (SkipWhitespace_split l) as (ws & Hws & Hl & _). exists ws. split; [done|].
  destruct (Consume closing (SkipWhitespace l)) as [k|] eqn:E.
  - apply Consume_Some in E. injection H as <- <-. left. by rewrite -E.
  - right. apply or_fail_Some in H as (k & Hk & H). apply Consume_Some in Hk.
    apply loop_Some in H as (more & rest' & Hm & [= <- <-]).
    destruct (SkipWhitespace_split k) as (ws' & Hws' & Hk' & _).
    exists ws', (SkipWhitespace k), more. by rewrite -Hk' -Hk.
Qed.

(** What a successful call of each of the five functions says of its text. *)
Definition sound (fuel : nat) : Prop :=
  (∀ l c rest, ParseValue fuel l = Ok (Some (c, rest)) → ∃ ws t, spaces ws ∧ value t c ∧ l = ws ++ t ++ rest) ∧
  (∀ l c rest, ParseArray fuel l = Ok (Some (c, rest)) → ∃ t, value t c ∧ l = t ++ rest) ∧
  (∀ l c rest, array_loop fuel l = Ok (Some (c, rest)) → ∃ ws t, spaces ws ∧ elements t c ∧ l = ws ++ t ++ rest) ∧
  (∀ l c rest, ParseObject fuel l = Ok (Some (c, rest)) → ∃ t, value t c ∧ l = t ++ rest) ∧
  (∀ l c rest, object_loop fuel l = Ok (Some (c, rest)) → ∃ t, members t c ∧ l = t ++ rest).

(** Both sides of an equation of texts, bracketed to the right. *)
Ltac flat := repeat first [progress cbn [app] | rewrite <- app_assoc].

Lemma spaces_app k l : spaces k → spaces l → spaces (k ++ l).
Proof. by apply Forall_app_2. Qed.

Lemma ParseValue_sound fuel l c rest : sound fuel → ParseValue (S fuel) l = Ok (Some (c, rest)) →
  ∃ ws t, spaces ws ∧ value t c ∧ l = ws ++ t ++ rest.
Proof.
  intros (_ & HA & _ & HO & _) H. cbn [ParseValue] in H.
  destruct (SkipWhitespace_split l) as (ws & Hws & Hl & _). exists ws.
  assert (∃ t, value t c ∧ SkipWhitespace l = t ++ rest) as (t & Ht & E); [|exists t; by rewrite -E].
  destruct (SkipWhitespace l) as [|x k] eqn:E; [done|]. clear E Hl.
  generalize dependent (bool_decide (x = "-"%char) || isdigit x). intros b H.
  repeat case_decide; [by apply HO in H|by apply HA in H|..].
  - injection H as H. apply ParseStringToken_sound in H as (k' & Hk & -> & ->). eexists. split; [by apply v_string|done].
  - injection H as H. apply ParseLiteral_sound in H as [-> ->]. eexists. split; [by apply v_literal; set_solver|done].
  - injection H as H. apply ParseLiteral_sound in H as [-> ->]. eexists. split; [by apply v_literal; set_solver|done].
  - injection H as H. apply ParseLiteral_sound in H as [-> ->]. eexists. split; [by apply v_literal; set_solver|done].
  - destruct b; [|done]. injection H as H. apply ParseNumber_sound in H as [Hn ->].
    eexists. split; [by apply v_number|done].
Qed.
Lemma ParseArray_sound fuel l c rest : sound fuel → ParseArray (S fuel) l = Ok (Some (c, rest)) →
  ∃ t, value t c ∧ l = t ++ rest.
Proof.
  intros (_ & _ & HL & _) H. cbn [ParseArray] in H. apply or_fail_Some in H as (k & ->%Consume_Some & H).
  destruct (SkipWhitespace_split k) as (ws & Hws & Hk & _).
  destruct (Consume "]" (SkipWhitespace k)) as [k'|] eqn:E.
  - apply Consume_Some in E. injection H as <- <-. eexists. split; [by apply (v_empty_array ws)|].
    by rewrite Hk E /= -assoc.
  - apply loop_Some in H as (c' & r' & H & [= <- <-]). apply HL in H as (ws' & t & Hws' & Ht & E').
    eexists. split; [by apply (v_array (ws ++ ws')), Ht; apply spaces_app|]. by rewrite Hk E' /= -!assoc.
Qed.
Lemma array_loop_sound fuel l c rest : sound fuel → array_loop (S fuel) l = Ok (Some (c, rest)) →
  ∃ ws t, spaces ws ∧ elements t c ∧ l = ws ++ t ++ rest.
Proof.
  intros (HV & _ & HL & _) H. cbn [array_loop] in H. apply loop_Some in H as (v & k & Hv & H).
  apply HV in Hv as (ws0 & t & Hws0 & Ht & ->). exists ws0.
  apply close_or_continue_sound in H as (ws & Hws & [[-> ->]|(ws' & k' & more & Hws' & -> & H & ->)]).
  - eexists. split_and!; [done|by apply e_last|]. by rewrite -!assoc.
  - apply HL in H as (ws'' & t' & Hws'' & Ht' & ->). eexists. split_and!; [done| |].
    + apply (e_more t v ws (ws' ++ ws'') t' more); [done..|by apply spaces_app|done].
    + by flat.
Qed.
Lemma ParseObject_sound fuel l c rest : sound fuel → ParseObject (S fuel) l = Ok (Some (c, rest)) →
  ∃ t, value t c ∧ l = t ++ rest.
Proof.
  intros (_ & _ & _ & _ & HL) H. cbn [ParseObject] in H. apply or_fail_Some in H as (k & ->%Consume_Some & H).
  destruct (SkipWhitespace_split k) as (ws & Hws & Hk & _).
  destruct (Consume "}" (SkipWhitespace k)) as [k'|] eqn:E.
  - apply Consume_Some in E. injection H as <- <-. eexists. split; [by apply (v_empty_object ws)|].
    by rewrite Hk E /= -assoc.
  - apply loop_Some in H as (c' & r' & H & [= <- <-]). apply HL in H as (t & Ht & E').
    eexists. split; [by apply (v_object ws), Ht|]. by rewrite Hk E' /= -!assoc.
Qed.
Lemma object_loop_sound fuel l c rest : sound fuel → object_loop (S fuel) l = Ok (Some (c, rest)) →
  ∃ t, members t c ∧ l = t ++ rest.
Proof.
  intros (HV & _ & _ & _ & HL) H. cbn [object_loop] in H.
  apply or_fail_Some in H as ([key k] & Hk & H). apply ParseStringToken_sound in Hk as (ch & Hch & -> & ->).
  apply or_fail_Some in H as (k1 & Hk1 & H). apply Consume_Some in Hk1.
  destruct (SkipWhitespace_split k) as (ws1 & Hws1 & Ek & _). rewrite Hk1 in Ek.
  destruct (SkipWhitespace_split k1) as (ws2 & Hws2 & Ek1 & _).
  apply loop_Some in H as (v & k2 & Hv & H). apply HV in Hv as (ws3 & t & Hws3 & Ht & E).
  rewrite E assoc in Ek1. clear E Hk1. subst k1 k.
  apply close_or_continue_sound in H as (ws & Hws & [[-> ->]|(ws' & k' & more & Hws' & -> & H & ->)]).
  - eexists. split; [apply (m_last ch ws1 (ws2 ++ ws3) t v ws); auto using spaces_app|].
    by flat.
  - apply HL in H as (t' & Ht' & ->).
    eexists. split; [apply (m_more ch ws1 (ws2 ++ ws3) t v ws ws' t' more); auto using spaces_app|].
    by flat.
Qed.
Lemma parser_sound fuel : sound fuel.
Proof.
  induction fuel as [|fuel IH]; [by split_and!|]. unfold sound. split_and!.
  - intros l c rest. by apply ParseValue_sound.
  - intros l c rest. by apply ParseArray_sound.
  - intros l c rest. by apply array_loop_sound.
  - intros l c rest. by apply ParseObject_sound.
  - intros l c rest. by apply object_loop_sound.
Qed.

(** ** The parser returns *)

Definition returns {A} (r : result A) : Prop := ∃ a, r = Ok a.

Lemma value_nonempty t c : value t c → t ≠ [].
Proof.
  destruct 1 as [s Hs|l _|l (s & i & f & e & -> & _ & Hi & _)|ws _|ws t c _ _|ws _|ws t c _ _]; try done.
  - repeat (apply elem_of_cons in Hs as [->|Hs]; [done|]). by apply elem_of_nil in Hs.
  - intros H. apply app_eq_nil in H as [_ H]. pose proof (is_integer_starts i (f ++ e) Hi) as Hs. by rewrite H in Hs.
Qed.
Lemma ParseValue_shorter fuel l c rest : ParseValue fuel l = Ok (Some (c, rest)) → length rest < length l.
Proof.
  intros (ws & t & _ & Ht & ->)%(proj1 (parser_sound fuel)). apply value_nonempty in Ht.
  destruct t; [done|]. rewrite !length_app /=. lia.
Qed.
Lemma SkipWhitespace_length l : length (SkipWhitespace l) ≤ length l.
Proof. destruct (SkipWhitespace_split l) as (ws & _ & E & _). rewrite {2}E length_app. lia. Qed.

Lemma returns_or_fail {A} (o : option A) k : (∀ a, o = Some a → returns (k a)) → returns (or_fail o k).
Proof. destruct o as [a|]; intros H; [by apply H|by eexists]. Qed.
Lemma returns_loop (r : parsed) (k : text * text → parsed) : returns r →
  (∀ c rest, r = Ok (Some (c, rest)) → returns (k (c, rest))) → returns (o ← r; or_fail o k).
Proof. intros [[[c rest]|] ->] H; [by apply H|by eexists]. Qed.
Lemma close_or_continue_returns closing compact loop l :
  (∀ k, length k < length l → returns (loop k)) → returns (close_or_continue closing compact loop l).
Proof.
  intros Hloop. unfold close_or_continue. destruct (Consume closing _) as [k|]; [by eexists|].
  apply returns_or_fail. intros k Hk%Consume_Some. apply returns_loop; [|by eexists].
  apply Hloop. pose proof (SkipWhitespace_length k). pose proof (SkipWhitespace_length l). rewrite Hk /= in H0. lia.
Qed.

Definition total (fuel : nat) : Prop :=
  (∀ l, 3 * length l + 1 ≤ fuel → returns (ParseValue fuel l)) ∧
  (∀ l, l ≠ [] → 3 * length l ≤ fuel → returns (ParseArray fuel l)) ∧
  (∀ l, 3 * length l + 2 ≤ fuel → returns (array_loop fuel l)) ∧
  (∀ l, l ≠ [] → 3 * length l ≤ fuel → returns (ParseObject fuel l)) ∧
  (∀ l, 3 * length l + 2 ≤ fuel → returns (object_loop fuel l)).

Lemma ParseValue_total fuel l : total fuel → 3 * length l + 1 ≤ S fuel → returns (ParseValue (S fuel) l).
Proof.
  intros (_ & HA & _ & HO & _) Hf. cbn [ParseValue]. pose proof (SkipWhitespace_length l) as Hl.
  destruct (SkipWhitespace l) as [|x k]; [by eexists|].
  generalize (bool_decide (x = "-"%char) || isdigit x). intros b.
  repeat case_decide; [apply HO; [done|lia]|apply HA; [done|lia]|try by eexists..]. by destruct b; eexists.
Qed.
Lemma object_loop_total fuel l : total fuel → 3 * length l + 2 ≤ S fuel → returns (object_loop (S fuel) l).
Proof.
  intros (HV & _ & _ & _ & HL) Hf. cbn [object_loop]. apply returns_or_fail. intros [key k] Hk.
  apply ParseStringToken_sound in Hk as (ch & _ & -> & ->).
  apply returns_or_fail. intros k1 Hk1%Consume_Some. pose proof (SkipWhitespace_length k) as H1.
  pose proof (SkipWhitespace_length k1) as H2. rewrite Hk1 /= length_app /= in H1, Hf.
  apply returns_loop; [apply HV; lia|]. intros v k2 Hv%ParseValue_shorter.
  apply close_or_continue_returns. intros k' Hk'. apply HL. lia.
Qed.
Lemma parser_total fuel : total fuel.
Proof.
  induction fuel as [|fuel IH]; [by split_and!; intros [|x l]; cbn; try lia|]. unfold total. split_and!.
  - intros l. by apply ParseValue_total.
  - intros l Hl Hf. cbn [ParseArray]. apply returns_or_fail. intros k ->%Consume_Some.
    destruct (Consume "]" _); [by eexists|]. apply returns_loop; [|by eexists].
    apply IH. pose proof (SkipWhitespace_length k). cbn in Hf. lia.
  - intros l Hf. cbn [array_loop]. apply returns_loop; [apply IH; lia|]. intros v k Hk%ParseValue_shorter.
    apply close_or_continue_returns. intros k' Hk'. apply IH. lia.
  - intros l Hl Hf. cbn [ParseObject]. apply returns_or_fail. intros k ->%Consume_Some.
    destruct (Consume "}" _); [by eexists|]. apply returns_loop; [|by eexists].
    apply IH. pose proof (SkipWhitespace_length k). cbn in Hf. lia.
  - intros l. by apply object_loop_total.
Qed.

(** ** Completeness: every text of the grammar is accepted *)

(** The answer, unless the fuel runs out. *)
Definition fits {A} (r : result (option A)) (a : A) : Prop := r = Diverge ∨ r = Ok (Some a).

Lemma fits_loop (r : parsed) (k : text * text → parsed) x y :
  fits r x → fits (k x) y → fits (o ← r; or_fail o k) y.
Proof. intros [->| ->] H; [by left|done]. Qed.

(** The first character of a value. *)
Definition value_first (c : ascii) : bool :=
  bool_decide (c ∈ ["{"; "["; quote; "t"; "f"; "n"; "-"]%char) || isdigit c.
Lemma starts_app p t l : starts p t = true → starts p (t ++ l) = true.
Proof. by destruct t. Qed.
Lemma value_starts t c : value t c → starts value_first t = true.
Proof.
  destruct 1 as [s Hs|l _|l Hn|ws _|ws t c _ _|ws _|ws t c _ _]; try done.
  - repeat (apply elem_of_cons in Hs as [->|Hs]; [done|]). by apply elem_of_nil in Hs.
  - apply (number_starts l []) in Hn. rewrite app_nil_r in Hn. destruct l as [|x l]; [done|]. cbn in *.
    apply orb_true_iff in Hn as [->%bool_decide_eq_true|Hn]; [done|]. unfold value_first. by rewrite Hn orb_true_r.
Qed.
Lemma elements_starts t c : elements t c → starts value_first t = true.
Proof. by destruct 1 as [t c ws Ht%value_starts _|t c ws ws' t' c' Ht%value_starts _ _ _]; apply starts_app. Qed.
Lemma value_first_spec c : value_first c = true → isspace c = false ∧ c ≠ "]"%char.
Proof.
  intros H. apply orb_true_iff in H as [H|H]; apply bool_decide_eq_true in H;
    repeat (apply elem_of_cons in H as [->|H]; [done|]); by apply elem_of_nil in H.
Qed.
Lemma value_first_not_space l : starts value_first l = true → starts isspace l = false.
Proof. destruct l as [|c l]; [done|]. cbn. by intros [? _]%value_first_spec. Qed.
Lemma isspace_not_number c : isspace c = true → number_char c = false.
Proof.
  intros H. apply bool_decide_eq_true in H.
  repeat (apply elem_of_cons in H as [->|H]; [done|]); by apply elem_of_nil in H.
Qed.
Lemma ends_spaces ws l : spaces ws → ends l → ends (ws ++ l).
Proof. intros [|c k Hc%isspace_not_number _]; done. Qed.

Lemma ParseStringToken_complete k rest : chars k → ParseStringToken (quote :: k ++ rest) = Some (quote :: k, rest).
Proof. intros Hk. unfold ParseStringToken. by rewrite Consume_cons /= string_token_complete. Qed.
Lemma ParseLiteral_complete s rest : ParseLiteral s (literal s ++ rest) = Some (literal s, rest).
Proof. unfold ParseLiteral. by rewrite take_app_length drop_app_length decide_True. Qed.

Lemma close_complete closing compact loop ws rest : spaces ws → isspace closing = false →
  fits (close_or_continue closing compact loop (ws ++ closing :: rest)) (compact ++ [closing], rest).
Proof. intros Hws Hc. right. unfold close_or_continue. by rewrite SkipWhitespace_app // Consume_cons. Qed.
Lemma continue_complete closing compact loop ws ws' l more rest :
  spaces ws → spaces ws' → closing ≠ ","%char → starts isspace l = false → fits (loop l) (more, rest) →
  fits (close_or_continue closing compact loop (ws ++ ","%char :: ws' ++ l)) (compact ++ ","%char :: more, rest).
Proof.
  intros Hws Hws' Hc Hl H. unfold close_or_continue. rewrite SkipWhitespace_app //.
  rewrite Consume_other; [|by apply bool_decide_eq_false]. rewrite Consume_cons /= SkipWhitespace_app //.
  by apply (fits_loop _ _ (more, rest)); [|right].
Qed.

Definition value_complete (t c : text) : Prop := ∀ fuel ws rest,
  spaces ws → ends rest → fits (ParseValue fuel (ws ++ t ++ rest)) (c, rest).
Definition elements_complete (t c : text) : Prop := ∀ fuel rest, fits (array_loop fuel (t ++ rest)) (c, rest).
Definition members_complete (t c : text) : Prop := ∀ fuel rest, fits (object_loop fuel (t ++ rest)) (c, rest).

(** After the white space, the first character chooses the function. *)
Lemma ParseValue_skip fuel ws l : spaces ws → starts isspace l = false →
  ParseValue fuel (ws ++ l) = ParseValue fuel l.
Proof.
  intros Hws Hl. destruct fuel as [|fuel]; [done|]. cbn [ParseValue]. rewrite SkipWhitespace_app //.
  by rewrite SkipWhitespace_id.
Qed.
Lemma ParseValue_quote fuel l : ParseValue (S fuel) (quote :: l) = Ok (ParseStringToken (quote :: l)).
Proof. reflexivity. Qed.
Lemma ParseValue_array fuel l : ParseValue (S fuel) ("["%char :: l) = ParseArray fuel ("["%char :: l).
Proof. reflexivity. Qed.
Lemma ParseValue_object fuel l : ParseValue (S fuel) ("{"%char :: l) = ParseObject fuel ("{"%char :: l).
Proof. reflexivity. Qed.
Lemma ParseValue_literal fuel s l : s ∈ ["true"; "false"; "null"] →
  ParseValue (S fuel) (literal s ++ l) = Ok (ParseLiteral s (literal s ++ l)).
Proof. intros H. repeat (apply elem_of_cons in H as [->|H]; [reflexivity|]). by apply elem_of_nil in H. Qed.
Lemma ParseValue_number fuel l : starts (λ c, bool_decide (c = "-"%char) || isdigit c) l = true →
  ParseValue (S fuel) l = Ok (ParseNumber l).
Proof.
  destruct l as [|c l]; [done|]. cbn [starts]. intros [->%bool_decide_eq_true|H]%orb_true_iff; [reflexivity|].
  apply bool_decide_eq_true in H. cbn in H.
  repeat (apply elem_of_cons in H as [->|H]; [reflexivity|]). by apply elem_of_nil in H.
Qed.

(** An array and an object, after their brackets. *)
Lemma array_complete fuel ws t c rest : spaces ws → starts value_first t = true → elements_complete t c →
  fits (ParseArray fuel ("["%char :: ws ++ t ++ rest)) ("["%char :: c, rest).
Proof.
  intros Hws Ht H. destruct fuel as [|fuel]; [by left|]. cbn [ParseArray]. rewrite Consume_cons. cbn [or_fail].
  destruct t as [|x t]; [done|]. apply value_first_spec in Ht as [Hx Hb].
  rewrite SkipWhitespace_app //. rewrite Consume_other; [|by apply bool_decide_eq_false].
  by apply (fits_loop _ _ (c, rest)); [apply H|right].
Qed.
Lemma object_complete fuel ws t c rest : spaces ws → starts (λ c, bool_decide (c = quote)) t = true →
  members_complete t c → fits (ParseObject fuel ("{"%char :: ws ++ t ++ rest)) ("{"%char :: c, rest).
Proof.
  intros Hws Ht H. destruct fuel as [|fuel]; [by left|]. cbn [ParseObject]. rewrite Consume_cons. cbn [or_fail].
  destruct t as [|x t]; [done|]. cbn in Ht. apply bool_decide_eq_true in Ht as ->.
  rewrite SkipWhitespace_app //. rewrite Consume_other; [|done].
  by apply (fits_loop _ _ (c, rest)); [apply H|right].
Qed.
Lemma members_starts t c : members t c → starts (λ c, bool_decide (c = quote)) t = true.
Proof. by destruct 1. Qed.

(** A member up to its value, whatever follows it. *)
Lemma member_complete fuel k ws1 ws2 t c l rest x : chars k → spaces ws1 → spaces ws2 →
  starts value_first t = true → value_complete t c → ends l →
  fits (close_or_continue "}" (quote :: k ++ ":"%char :: c) (object_loop fuel) l) (x, rest) →
  fits (object_loop (S fuel) (quote :: k ++ ws1 ++ ":"%char :: ws2 ++ t ++ l)) (x, rest).
Proof.
  intros Hk Hws1 Hws2 Hs Ht Hl H. cbn [object_loop].
  rewrite (ParseStringToken_complete k (ws1 ++ ":"%char :: ws2 ++ t ++ l)) //. cbn [or_fail].
  rewrite (SkipWhitespace_app ws1) // Consume_cons. cbn [or_fail].
  rewrite SkipWhitespace_app //; [|by apply value_first_not_space, starts_app].
  apply (fits_loop _ _ (c, l)); [|done]. by apply (Ht fuel []); [apply Forall_nil_2|].
Qed.

Lemma value_complete_skip t c : starts value_first t = true →
  (∀ fuel rest, ends rest → fits (ParseValue (S fuel) (t ++ rest)) (c, rest)) → value_complete t c.
Proof.
  intros Ht H fuel ws rest Hws Hr. rewrite ParseValue_skip //; [|by apply value_first_not_space, starts_app].
  destruct fuel as [|fuel]; [by left|by apply H].
Qed.

Lemma members_not_space t c l : members t c → starts isspace (t ++ l) = false.
Proof. by destruct 1. Qed.
Lemma empty_complete ws fuel rest : spaces ws →
  fits (ParseArray fuel ("["%char :: ws ++ "]"%char :: rest)) (["["; "]"]%char, rest) ∧
  fits (ParseObject fuel ("{"%char :: ws ++ "}"%char :: rest)) (["{"; "}"]%char, rest).
Proof.
  intros Hws. destruct fuel as [|fuel]; [split; by left|]. cbn [ParseArray ParseObject].
  rewrite !Consume_cons. cbn [or_fail]. rewrite !SkipWhitespace_app // !Consume_cons. split; by right.
Qed.

(** An element and what follows it. *)
Lemma element_complete fuel t c l x rest : value_complete t c → ends l →
  fits (close_or_continue "]" c (array_loop fuel) l) (x, rest) → fits (array_loop (S fuel) (t ++ l)) (x, rest).
Proof.
  intros Ht Hl H. cbn [array_loop]. apply (fits_loop _ _ (c, l)); [|done].
  by apply (Ht fuel []); [apply Forall_nil_2|].
Qed.

Lemma grammar_complete : (∀ t c, value t c → value_complete t c) ∧
  (∀ t c, elements t c → elements_complete t c) ∧ (∀ t c, members t c → members_complete t c).
Proof.
  apply json_ind.
  - intros s Hs. apply value_complete_skip; [by eapply value_starts, v_literal|].
    intros fuel rest _. right. by rewrite ParseValue_literal // ParseLiteral_complete.
  - intros l Hl. apply value_complete_skip; [done|]. intros fuel rest _. right. cbn [app].
    by rewrite ParseValue_quote ParseStringToken_complete.
  - intros l Hl. apply value_complete_skip; [by eapply value_starts, v_number|].
    intros fuel rest Hr. right. rewrite ParseValue_number; [|by apply number_starts]. by rewrite ParseNumber_complete.
  - intros ws Hws. apply value_complete_skip; [done|]. intros fuel rest _. flat. rewrite ParseValue_array.
    by apply empty_complete.
  - intros ws t c Hws Ht IH. apply value_complete_skip; [done|]. intros fuel rest _. flat. rewrite ParseValue_array.
    by apply array_complete; [|eapply elements_starts|].
  - intros ws Hws. apply value_complete_skip; [done|]. intros fuel rest _. flat. rewrite ParseValue_object.
    by apply empty_complete.
  - intros ws t c Hws Ht IH. apply value_complete_skip; [done|]. intros fuel rest _. flat. rewrite ParseValue_object.
    by apply object_complete; [|eapply members_starts|].
  - intros t c ws Ht IH Hws [|fuel] rest; [by left|]. flat.
    apply (element_complete _ _ c); [done|by apply ends_spaces|by apply close_complete].
  - intros t c ws ws' t' c' Ht IH Hws Hws' Ht' IH' [|fuel] rest; [by left|]. flat.
    apply (element_complete _ _ c); [done|by apply ends_spaces|]. apply continue_complete; [done..| |apply IH'].
    by eapply value_first_not_space, starts_app, elements_starts.
  - intros k ws1 ws2 t c ws Hk H1 H2 Ht IH Hws [|fuel] rest; [by left|]. flat.
    eapply member_complete; [done..|by eapply value_starts|done|by apply ends_spaces|].
    replace (quote :: k ++ ":"%char :: c ++ ["}"%char]) with ((quote :: k ++ ":"%char :: c) ++ ["}"%char]) by by flat.
    by apply close_complete.
  - intros k ws1 ws2 t c ws ws' t' c' Hk H1 H2 Ht IH Hws Hws' Ht' IH' [|fuel] rest; [by left|]. flat.
    eapply member_complete; [done..|by eapply value_starts|done|by apply ends_spaces|].
    replace (quote :: k ++ ":"%char :: c ++ ","%char :: c') with ((quote :: k ++ ":"%char :: c) ++ ","%char :: c') by by flat.
    apply continue_complete; [done..|by eapply members_not_space|apply IH'].
Qed.

(** ** A whole text *)

(** A text is JSON with the compact form [c]. *)
Definition json (input c : text) : Prop := ∃ ws t ws', spaces ws ∧ spaces ws' ∧ value t c ∧ input = ws ++ t ++ ws'.

Lemma ParseCompactJson_returns input : returns (ParseCompactJson input).
Proof.
  unfold ParseCompactJson. destruct (proj1 (parser_total (enough input)) input) as [[[c rest]|] ->];
    [unfold enough; lia|by eexists..].
Qed.
Lemma ParseCompactJson_json input c : ParseCompactJson input = Ok (Some c) ↔ json input c.
Proof.
  unfold ParseCompactJson. split.
  - destruct (ParseValue _ _) as [[[c' rest]|]| |] eqn:E; try done. cbn [mbind].
    apply (parser_sound (enough input)) in E as (ws & t & Hws & Ht & ->). intros [= H].
    destruct (SkipWhitespace_split rest) as (ws' & Hws' & Hr & _).
    destruct (SkipWhitespace rest); [|done]. injection H as ->. rewrite app_nil_r in Hr. subst rest.
    by exists ws, t, ws'.
  - intros (ws & t & ws' & Hws & Hws' & Ht & ->).
    destruct (proj1 (parser_total (enough (ws ++ t ++ ws'))) (ws ++ t ++ ws')) as [o Ho]; [unfold enough; lia|].
    assert (ends ws') as He by (rewrite -(app_nil_r ws'); by apply ends_spaces).
    destruct (proj1 grammar_complete t c Ht (enough (ws ++ t ++ ws')) ws ws' Hws He) as [H|H];
      rewrite H in Ho; [done|]. rewrite H. cbn.
    by rewrite -(app_nil_r ws') SkipWhitespace_app.
Qed.
Lemma compact_value : (∀ t c, value t c → value c c) ∧
  (∀ t c, elements t c → elements c c) ∧ (∀ t c, members t c → members c c).
Proof.
  apply json_ind; intros; try (by constructor).
  - by apply (v_empty_array []), Forall_nil_2.
  - by apply (v_array []); [apply Forall_nil_2|].
  - by apply (v_empty_object []), Forall_nil_2.
  - by apply (v_object []); [apply Forall_nil_2|].
  - by apply (e_last c c []); [|apply Forall_nil_2].
  - by apply (e_more c c [] []); [|apply Forall_nil_2..|].
  - assert ((quote :: k ++ ":"%char :: c) ++ ["}"%char] =
      quote :: k ++ [] ++ ":"%char :: [] ++ c ++ [] ++ ["}"%char]) as E by by flat.
    rewrite {1}E. apply m_last; done || apply Forall_nil_2.
  - assert ((quote :: k ++ ":"%char :: c) ++ ","%char :: c' =
      quote :: k ++ [] ++ ":"%char :: [] ++ c ++ [] ++ ","%char :: [] ++ c') as E by by flat.
    rewrite {1}E. apply m_more; done || apply Forall_nil_2.
Qed.

(** C34. [ParseCompactJson] returns; it accepts exactly the texts of the grammar with
    their compact form; and a compact form is its own. *)
Theorem ParseCompactJson_correct input : ∃ o, ParseCompactJson input = Ok o ∧
  (∀ c, o = Some c ↔ json input c) ∧ (∀ c, o = Some c → ParseCompactJson c = Ok (Some c)).
Proof.
  destruct (ParseCompactJson_returns input) as [o Ho]. exists o. split; [done|]. split.
  - intros c. rewrite -ParseCompactJson_json Ho. split; [by intros ->|by intros [= ->]].
  - intros c ->. apply ParseCompactJson_json in Ho as (_ & t & _ & _ & _ & Ht & _).
    apply ParseCompactJson_json. exists [], c, []. rewrite app_nil_r.
    split_and!; [apply Forall_nil_2..|by apply (proj1 compact_value t)|done].
Qed.

(** An array with white space in it. *)
Lemma ParseCompactJson_correct_witness :
  ParseCompactJson (literal " [ 1 , true ] ") = Ok (Some (literal "[1,true]")) ∧
  ParseCompactJson (literal "[1,true]") = Ok (Some (literal "[1,true]")).
Proof.
  destruct (ParseCompactJson_correct (literal " [ 1 , true ] ")) as (o & Ho & _ & H). vm_compute in Ho.
  injection Ho as <-. split; [vm_compute; reflexivity|exact (H _ eq_refl)].
Defined.

(** ** The cache *)

Definition coherent (c : cache) : Prop := ∀ input entry,
  c !! input = Some entry → ParseCompactJson (String.list_ascii_of_string input) = Ok entry.

(** A lookup gives the parser's answer, keeps every entry and stays right; the
    cache starts empty. *)
Lemma LookupCompactJson_coherent input c : coherent c → ∃ entry c',
  LookupCompactJson input c = Ok (entry, c') ∧
  ParseCompactJson (String.list_ascii_of_string input) = Ok entry ∧ coherent c' ∧ c ⊆ c' ∧ c' !! input = Some entry.
Proof.
  intros Hc. unfold LookupCompactJson. destruct (c !! input) as [entry|] eqn:E.
  { exists entry, c. split_and!; [done|by apply Hc|done..]. }
  destruct (ParseCompactJson_returns (String.list_ascii_of_string input)) as [entry He]. rewrite He.
  exists entry, (<[input := entry]> c). split_and!; [done..| |by apply insert_subseteq|by rewrite lookup_insert_eq].
  intros k x [[<- <-]|[_ H]]%lookup_insert_Some; [done|by apply Hc].
Qed.

(** ** Strings *)

(** What comes back: the control characters without a short form are lost. *)
Definition shown (c : ascii) : ascii :=
  if iscontrol c && bool_decide (c ∉ ["008"; "012"; "010"; "013"; "009"]%char) then "?"%char else c.

Lemma string_value_escape c l :
  string_value (escape c ++ l) = '(decoded, rest) ← string_value l; Some (shown c :: decoded, rest).
Proof. by destruct c as [[] [] [] [] [] [] [] []]. Qed.
Lemma string_value_escaped input :
  string_value ((input ≫= escape) ++ [quote]) = Some (shown <$> input, []).
Proof.
  induction input as [|c input IH]; [done|]. cbn [mbind list_bind fmap list_fmap].
  rewrite -assoc. by rewrite string_value_escape IH.
Qed.
Lemma chars_escape_one c l : chars l → chars (escape c ++ l).
Proof.
  intros Hl. destruct c as [[] [] [] [] [] [] [] []];
    first [by apply (chars_plain _ l) | by apply (chars_unicode _ _ _ _ l)
          | apply (chars_escape _ l); [unfold escapes; set_solver|done]].
Qed.
Lemma chars_escaped input : chars ((input ≫= escape) ++ [quote]).
Proof.
  induction input as [|c input IH]; [apply chars_end|]. cbn [mbind list_bind]. rewrite -assoc.
  by apply chars_escape_one.
Qed.

Lemma shown_all input : shown <$> input = input ↔ Forall (λ c, shown c = c) input.
Proof.
  induction input as [|c l IH]; cbn; [done|]. rewrite Forall_cons -IH. split; [by intros [= Hc Hl]|].
  by intros [-> ->].
Qed.

Lemma DecodeJsonString_escaped input : DecodeJsonString (EscapeJsonString input) = Some (shown <$> input).
Proof.
  unfold DecodeJsonString, ParseStringValue, EscapeJsonString. cbn [app]. rewrite Consume_cons. cbn [mbind option_bind].
  by rewrite string_value_escaped.
Qed.

(** [EscapeJsonString] writes a JSON text in compact form, and [DecodeJsonString]
    reads the same text from it, with a question mark for every control character
    that has no short form. *)
Theorem EscapeJsonString_roundtrip input :
  ParseCompactJson (EscapeJsonString input) = Ok (Some (EscapeJsonString input)) ∧
  DecodeJsonString (EscapeJsonString input) = Some (shown <$> input) ∧
  (Forall (λ c, shown c = c) input ↔ DecodeJsonString (EscapeJsonString input) = Some input).
Proof.
  pose proof (DecodeJsonString_escaped input) as Hd.
  split; [|split; [done|]].
  - apply ParseCompactJson_json. exists [], (EscapeJsonString input), [].
    rewrite app_nil_r. split_and!; [apply Forall_nil_2..|apply v_string, chars_escaped|done].
  - rewrite Hd -shown_all. split; [by intros ->|by intros [= ->]].
Qed.

(** ** The lookup of a field *)

(** The members of an object as the keys they decode to and their compact
    values, in their order; an object with all its white space. *)
Inductive fields : text → list (text * text) → Prop :=
  | f_last k key ws1 ws2 t c ws : chars k → string_value k = Some (key, []) →
      spaces ws1 → spaces ws2 → value t c → spaces ws →
      fields (quote :: k ++ ws1 ++ ":"%char :: ws2 ++ t ++ ws ++ ["}"%char]) [(key, c)]
  | f_more k key ws1 ws2 t c ws ws' t' fs : chars k → string_value k = Some (key, []) →
      spaces ws1 → spaces ws2 → value t c → spaces ws → spaces ws' → fields t' fs →
      fields (quote :: k ++ ws1 ++ ":"%char :: ws2 ++ t ++ ws ++ ","%char :: ws' ++ t') ((key, c) :: fs).
Inductive object : text → list (text * text) → Prop :=
  | o_empty ws ws' rest : spaces ws → spaces ws' → object (ws ++ "{"%char :: ws' ++ "}"%char :: rest) []
  | o_fields ws ws' t fs rest : spaces ws → spaces ws' → fields t fs → object (ws ++ "{"%char :: ws' ++ t ++ rest) fs.
(** The value of the first field with the name. *)
Definition first_field (name : text) (fs : list (text * text)) : option text :=
  head (omap (λ '(key, c), if decide (key = name) then Some c else None) fs).

(** A string reads the same whatever follows it. *)
Lemma string_value_u l : string_value (backslash :: "u"%char :: l) =
  match l with
  | a :: b :: c :: d :: l =>
      if isxdigit a && isxdigit b && isxdigit c && isxdigit d
      then '(decoded, rest) ← string_value l; Some ("?"%char :: decoded, rest)
      else None
  | _ => None
  end.
Proof. reflexivity. Qed.
Lemma string_value_complete k rest : chars k → ∃ key, string_value k = Some (key, []) ∧ string_value (k ++ rest) = Some (key, rest).
Proof.
  induction 1 as [|c l Hq Hb Hc _ (key & IH & IH')|e l He _ (key & IH & IH')|a b c d l Hx _ (key & IH & IH')].
  - by exists [].
  - exists (c :: key). cbn [app string_value].
    by rewrite !(decide_False (P := c = quote)) // !(decide_False (P := c = backslash)) // Hc IH IH'.
  - exists (unescape e :: key). cbn [app string_value]. by rewrite !(decide_True (P := e ∈ escapes)) // IH IH'.
  - exists ("?"%char :: key). flat. by rewrite !string_value_u Hx IH IH'.
Qed.
Lemma ParseStringValue_complete k key rest : chars k → string_value k = Some (key, []) →
  ParseStringValue (quote :: k ++ rest) = Some (key, rest).
Proof.
  intros Hk Hs. destruct (string_value_complete k rest Hk) as (key' & Hs' & H). rewrite Hs in Hs'.
  injection Hs' as <-. unfold ParseStringValue. by rewrite Consume_cons.
Qed.
(** Every object has its fields. *)
Lemma members_fields t c : members t c → ∃ fs, fields t fs.
Proof.
  induction 1 as [k ws1 ws2 t c ws Hk|k ws1 ws2 t c ws ws' t' c' Hk ? ? ? ? ? _ [fs IH]];
    destruct (string_value_complete k [] Hk) as (key & Hs & _); eexists; [by apply (f_last k key)|by apply (f_more k key)].
Qed.

Lemma ParseValue_complete t c l : value t c → ends l → ParseValue (enough (t ++ l)) (t ++ l) = Ok (Some (c, l)).
Proof.
  intros Ht Hl. destruct (proj1 (parser_total (enough (t ++ l))) (t ++ l)) as [o Ho]; [unfold enough; lia|].
  by destruct (proj1 grammar_complete t c Ht (enough (t ++ l)) [] l (Forall_nil_2 _) Hl) as [H|H]; cbn [app] in H;
    rewrite H in Ho.
Qed.

Lemma string_value_shorter l key rest : string_value l = Some (key, rest) → length rest < length l.
Proof.
  revert l key rest. fix IH 1. intros [|ch l] t rest H; [discriminate H|]. cbn [string_value] in H.
  destruct (decide (ch = quote)) as [_|_]; [injection H as <- <-; clear; cbn; lia|].
  destruct (decide (ch = backslash)) as [_|_].
  - destruct l as [|e l]; [discriminate H|]. destruct (decide (e ∈ escapes)) as [_|_].
    + destruct (string_value l) as [[t' r']|] eqn:E; [|discriminate H]. injection H as <- <-.
      apply IH in E. clear IH. cbn. lia.
    + destruct (decide (e = "u"%char)) as [_|_]; [|discriminate H].
      destruct l as [|a [|b [|c [|d l]]]]; try discriminate H.
      destruct (isxdigit a && _ && _ && _); [|discriminate H].
      destruct (string_value l) as [[t' r']|] eqn:E; [|discriminate H]. injection H as <- <-.
      apply IH in E. clear IH. cbn. lia.
  - destruct (iscontrol ch); [discriminate H|].
    destruct (string_value l) as [[t' r']|] eqn:E; [|discriminate H]. injection H as <- <-.
    apply IH in E. clear IH. cbn. lia.
Qed.
Lemma ParseStringValue_shorter l key rest : ParseStringValue l = Some (key, rest) → length rest < length l.
Proof.
  unfold ParseStringValue. destruct (Consume quote l) as [k|] eqn:E; [|done]. apply Consume_Some in E as ->.
  intros H%string_value_shorter. cbn. lia.
Qed.

(** One round of the loop. *)
Lemma lookup_step fuel name k key ws1 ws2 t c ws l : chars k → string_value k = Some (key, []) →
  spaces ws1 → spaces ws2 → value t c → spaces ws → ends l → starts isspace l = false →
  lookup_loop (S fuel) name (quote :: k ++ ws1 ++ ":"%char :: ws2 ++ t ++ ws ++ l) =
    if decide (key = name) then Ok (Some c) else
    match Consume "}" l, Consume "," l with
    | Some _, _ | None, None => Ok None
    | None, Some l => lookup_loop fuel name (SkipWhitespace l)
    end.
Proof.
  intros Hk Hs H1 H2 Ht Hws Hl Hl'. cbn [lookup_loop]. rewrite (ParseStringValue_complete k key) //.
  rewrite (SkipWhitespace_app ws1) // Consume_cons.
  rewrite (SkipWhitespace_app ws2); [|done|by eapply value_first_not_space, starts_app, value_starts].
  rewrite (ParseValue_complete t c); [|done|by apply ends_spaces]. cbn [result_bind mbind].
  by rewrite (SkipWhitespace_app ws).
Qed.
Lemma fields_not_space t fs l : fields t fs → starts isspace (t ++ l) = false.
Proof. by destruct 1. Qed.
Lemma lookup_fields t fs name fuel rest : fields t fs → length fs ≤ fuel →
  lookup_loop fuel name (t ++ rest) = Ok (first_field name fs).
Proof.
  intros H. revert fuel. induction H as [k key ws1 ws2 t c ws Hk Hs H1 H2 Ht Hws|
    k key ws1 ws2 t c ws ws' t' fs Hk Hs H1 H2 Ht Hws Hws' Hf IH]; intros [|fuel] Hfuel; cbn in Hfuel; try lia; flat.
  - rewrite (lookup_step fuel name k key ws1 ws2 t c) //. unfold first_field. cbn. by case_decide.
  - rewrite (lookup_step fuel name k key ws1 ws2 t c) //. unfold first_field. cbn [omap list_omap].
    case_decide; [done|]. rewrite Consume_other // Consume_cons.
    rewrite SkipWhitespace_app; [|done|by eapply fields_not_space]. apply IH. lia.
Qed.
Lemma fields_length t fs : fields t fs → length fs ≤ length t.
Proof. induction 1; cbn; rewrite ?length_app /= ?length_app /= ?length_app /=; lia. Qed.

Lemma lookup_returns fuel name l : length l < fuel → returns (lookup_loop fuel name l).
Proof.
  revert l. induction fuel as [|fuel IH]; intros l Hl; [lia|]. cbn [lookup_loop].
  destruct (ParseStringValue l) as [[key k]|] eqn:E; [|by eexists].
  assert (length k < length l) as Hk by by eapply ParseStringValue_shorter.
  destruct (Consume ":" _) as [k1|] eqn:E1; [|by eexists]. apply Consume_Some in E1.
  pose proof (SkipWhitespace_length k) as Hs. rewrite E1 /= in Hs.
  destruct (proj1 (parser_total (enough (SkipWhitespace k1))) (SkipWhitespace k1)) as [o Ho]; [unfold enough; lia|].
  rewrite Ho. cbn [result_bind mbind]. destruct o as [[c k2]|]; [|by eexists]. apply ParseValue_shorter in Ho.
  case_decide; [by eexists|]. destruct (Consume "}" _); [by eexists|].
  destruct (Consume "," _) as [k3|] eqn:E3; [|by eexists]. apply Consume_Some in E3. apply IH.
  pose proof (SkipWhitespace_length k1). pose proof (SkipWhitespace_length k2) as H2. rewrite E3 /= in H2.
  pose proof (SkipWhitespace_length k3). lia.
Qed.

Lemma LookupTopLevelField_returns objectJson name : returns (LookupTopLevelField objectJson name).
Proof.
  unfold LookupTopLevelField. destruct (Consume "{" _) as [l|]; [|by eexists].
  destruct (Consume "}" _); [by eexists|]. apply lookup_returns. lia.
Qed.
Lemma LookupTopLevelField_object objectJson name fs :
  object objectJson fs → LookupTopLevelField objectJson name = Ok (first_field name fs).
Proof.
  unfold LookupTopLevelField.
  destruct 1 as [ws ws' rest H1 H2|ws ws' t fs rest H1 H2 Hf]; rewrite (SkipWhitespace_app ws) // Consume_cons.
  - by rewrite SkipWhitespace_app // Consume_cons.
  - rewrite SkipWhitespace_app; [|done|by eapply fields_not_space].
    rewrite Consume_other; [|by destruct Hf]. apply lookup_fields; [done|].
    rewrite length_app. pose proof (fields_length t fs Hf). lia.
Qed.

(** [LookupTopLevelField] returns on every text, and on an object it gives the
    compact value of the first field with the name, whatever follows the object. *)
Theorem LookupTopLevelField_correct objectJson name : returns (LookupTopLevelField objectJson name) ∧
  ∀ fs, object objectJson fs → LookupTopLevelField objectJson name = Ok (first_field name fs).
Proof. split; [apply LookupTopLevelField_returns|apply LookupTopLevelField_object]. Qed.

(** A key with a space after it, given twice. *)
Lemma LookupTopLevelField_correct_witness :
  let one := quote :: ("a"%char :: [quote]) ++ [" "%char] ++ ":"%char :: [] ++ literal "true" ++ [] in
  LookupTopLevelField ([] ++ "{"%char :: [] ++ (one ++ ","%char :: [] ++
    quote :: ("a"%char :: [quote]) ++ [] ++ ":"%char :: [] ++ literal "null" ++ [] ++ ["}"%char]) ++ [])
    ["a"%char] = Ok (Some (literal "true")).
Proof.
  intros one.
  assert (chars ("a"%char :: [quote])) as Hk by by apply chars_plain; [..|apply chars_end].
  assert (∀ s, s ∈ ["true"; "false"; "null"] → value (literal s) (literal s)) as Hv by by intros; apply v_literal.
  refine (eq_trans (proj2 (LookupTopLevelField_correct _ _)
    [(["a"%char], literal "true"); (["a"%char], literal "null")] _) eq_refl).
  apply o_fields; [apply Forall_nil_2..|].
  apply (f_more ["a"%char; quote] ["a"%char] [" "%char] [] (literal "true") (literal "true") [] []);
    [done|done|by repeat constructor|apply Forall_nil_2|apply Hv; set_solver|apply Forall_nil_2..|].
  apply (f_last ["a"%char; quote] ["a"%char] [] []); [done|done|apply Forall_nil_2..|apply Hv; set_solver|apply Forall_nil_2].
Defined.

(** U+0001 does not come back. *)
Example control_character_lost :
  DecodeJsonString (EscapeJsonString ["001"]%char) = Some ["?"]%char.
Proof. reflexivity. Qed.

End JsonSpec.
