(* ===== verification/NativeModules.v ===== *)
(** * The native functions of text, JSON, base64 and cryptography

    [src/vm/runtime/NativeModuleSupport.h], [src/vm/runtime/stdlib/string/],
    [json/JsonModuleInstall.cpp], and the functions [Install] of
    [base64/Base64Module.cpp] and [crypto/CryptoModule.cpp]: what the machine calls
    under the names of these modules.  The conversions [to_int] and [to_float] of
    texts are left out. *)

From S2P Require Import Prelude SyncRuntime Transactions Value Bytecode Execution Support DataOps Machine Crypto Json.
From stdpp Require Import pretty.

Module NativeModules.
Import Value Execution Support Machine.

(** ** What the functions share *)

Definition text : Type := list ascii.
Definition chars (s : string) : text := String.list_ascii_of_string s.
Definition shared_string (l : text) : Value := VString (Some (String.string_of_list_ascii l)).

(** [args[i]] *)
Definition arg (i : nat) (args : list Value) : vm Value :=
  match args !! i with Some v => mret v | None => est_throw (undefined_behaviour "vector index out of range") end.
Definition RequireString (value : Value) (error : string) : vm (option string) :=
  match value with VString (Some s) => mret (Some s) | _ => _ ← RaiseError error; mret None end.
(** [ctx.RaiseError(message); return std::monostate{};] *)
Definition refuse (message : string) : vm Value := _ ← RaiseError message; mret VMonostate.
Definition with_string (i : nat) (error : string) (k : string → vm Value) (args : list Value) : vm Value :=
  v ← arg i args; s ← RequireString v error; match s with Some s => k s | None => mret VMonostate end.
(** Two texts, one after the other. *)
Definition with_strings (error0 error1 : string) (k : string → string → vm Value) (args : list Value) : vm Value :=
  with_string 0 error0 (λ a, with_string 1 error1 (k a) args) args.

Definition ConvertToBool (value : Value) (domain : string) : vm Value :=
  let error := refuse (domain +:+ ".to_bool cannot convert value to bool") in
  match value with
  | VBool b => mret (VBool b)
  | VInt64 z => mret (VBool (negb (z =? 0)%Z))
  | VDouble d => mret (VBool (negb (double_is_zero d)))
  | VString (Some s) =>
      let lowered := (λ c : ascii, if (65 <=? Bytes.of_ascii c)%Z && (Bytes.of_ascii c <=? 90)%Z
                                   then Bytes.to_ascii (Bytes.of_ascii c + 32) else c) <$> chars s in
      if decide (lowered = chars "true" ∨ lowered = chars "1") then mret (VBool true)
      else if decide (lowered = chars "false" ∨ lowered = chars "0") then mret (VBool false)
      else error
  | _ => error
  end.

(** ** Texts *)

(** [l.starts_with(needle)] and [l.find(needle)]. *)
Definition starts_with (needle l : text) : bool := bool_decide (take (length needle) l = needle).
Fixpoint find (needle l : text) : option nat :=
  if starts_with needle l then Some 0 else
  match l with [] => None | _ :: l => S <$> find needle l end.

(** The loop of [split] from the cursor on: the next delimiter is searched in
    what is left.  Its fuel is enough for a delimiter that is not empty. *)
Fixpoint split_loop (fuel : nat) (delimiter l : text) : result (list text) :=
  match fuel with
  | 0 => Diverge
  | S fuel =>
      match find delimiter l with
      | None => Ok [l]
      | Some pos => parts ← split_loop fuel delimiter (drop (pos + length delimiter) l); Ok (take pos l :: parts)
      end
  end.
Definition split_text (delimiter l : text) : result (list text) :=
  match delimiter with
  | [] => Ok ((λ c, [c]) <$> l)
  | _ => split_loop (S (length l)) delimiter l
  end.

Section natives.
(** The depth to which values print, and the cache of the module of JSON at the
    time of the call: see [JsonSpec.LookupCompactJson_coherent]. *)
Context (print_fuel : nat) (jsonCache : JsonModule.cache).

Definition ToText (v : Value) : vm Value :=
  s ← est_get; t ← est_lift (ToString print_fuel (object_heap s) v); mret (VString (Some t)).

Definition text_len : list Value → vm Value :=
  with_string 0 "std.text.len expects a string" (λ s, mret (VInt64 (Z.of_nat (String.length s)))).
Definition text_concat : list Value → vm Value :=
  with_strings "std.text.concat expects a string lhs" "std.text.concat expects a string rhs"
    (λ a b, mret (VString (Some (a +:+ b)))).
Definition text_contains : list Value → vm Value :=
  with_strings "std.text.contains expects a string haystack" "std.text.contains expects a string needle"
    (λ a b, mret (VBool (bool_decide (is_Some (find (chars b) (chars a)))))).
Definition text_starts_with : list Value → vm Value :=
  with_strings "std.text.starts_with expects a string haystack" "std.text.starts_with expects a string prefix"
    (λ a b, mret (VBool (starts_with (chars b) (chars a)))).
Definition text_index_of : list Value → vm Value :=
  with_strings "std.text.index_of expects a string haystack" "std.text.index_of expects a string needle"
    (λ a b, mret (VInt64 (match find (chars b) (chars a) with Some pos => Z.of_nat pos | None => -1 end))).
Definition text_slice (args : list Value) : vm Value :=
  with_string 0 "std.text.slice expects a string" (λ s,
    v1 ← arg 1 args; start ← as_index v1;
    v2 ← arg 2 args; len ← as_index v2;
    if (start <? 0)%Z || (len <? 0)%Z || (Z.of_nat (String.length s) <? start)%Z
    then refuse "std.text.slice expects valid start and length"
    else mret (shared_string (take (Z.to_nat len) (drop (Z.to_nat start) (chars s))))) args.
Definition text_split : list Value → vm Value :=
  with_strings "std.text.split expects a string value" "std.text.split expects a string delimiter"
    (λ a b, parts ← est_lift (split_text (chars b) (chars a));
            p ← new_array (shared_string <$> parts); mret (VPtr ArrayPtr (Some p))).
Definition text_to_string (args : list Value) : vm Value := v ← arg 0 args; ToText v.
Definition text_to_bool (args : list Value) : vm Value := v ← arg 0 args; ConvertToBool v "std.text".

(** ** JSON *)

Definition json_lookup (input : string) : vm (option JsonModule.text) :=
  est_lift (fst <$> JsonModule.CompactJsonText input jsonCache).
Definition is_valid : list Value → vm Value :=
  with_string 0 "std.json.is_valid expects a string"
    (λ s, b ← est_lift (fst <$> JsonModule.IsValidJsonText s jsonCache); mret (VBool b)).
Definition compact : list Value → vm Value :=
  with_string 0 "std.json.compact expects a string" (λ s,
    r ← json_lookup s;
    match r with
    | Some c => mret (shared_string c)
    | None => refuse "std.json.compact expects valid JSON"
    end).
Definition json_quote : list Value → vm Value :=
  with_string 0 "std.json.quote expects a string" (λ s, mret (shared_string (JsonModule.EscapeJsonString (chars s)))).

Definition isfinite (d : double) : bool :=
  match d with SpecFloat.S754_zero _ | SpecFloat.S754_finite _ _ _ => true | _ => false end.
Definition encode_number (args : list Value) : vm Value :=
  v ← arg 0 args;
  match v with
  | VInt64 z => mret (VString (Some (pretty z)))
  | VDouble d => if isfinite d then ToText v else refuse "std.json.encode_number expects a finite number"
  | _ => refuse "std.json.encode_number expects an int or float"
  end.

(** The field of an object, for [has_key] and for the three functions that read
    it: the raw value, if there is one, and what is made of it. *)
Definition with_field (name : string) (k : option JsonModule.text → vm Value) : list Value → vm Value :=
  with_strings (name +:+ " expects an object JSON string") (name +:+ " expects a string key") (λ json key,
    r ← est_lift (JsonModule.LookupTopLevelField (chars json) (chars key)); k r).
Definition read_field (name type : string) (decode : JsonModule.text → option Value) : list Value → vm Value :=
  with_field name (λ r,
    match r with
    | None => refuse (name +:+ " could not find the requested field")
    | Some raw => match decode raw with
                  | Some v => mret v
                  | None => refuse (name +:+ " expects the field value to be " +:+ type)
                  end
    end).
Definition has_key : list Value → vm Value :=
  with_field "std.json.has_key" (λ r, mret (VBool (bool_decide (is_Some r)))).
Definition get_string : list Value → vm Value :=
  read_field "std.json.get_string" "a JSON string" (λ raw, shared_string <$> JsonModule.DecodeJsonString raw).
Definition get_int : list Value → vm Value :=
  read_field "std.json.get_int" "an integer" (λ raw, VInt64 <$> JsonModule.ParseJsonInt raw).
Definition get_bool : list Value → vm Value :=
  read_field "std.json.get_bool" "a boolean"
    (λ raw, VBool <$> JsonModule.ParseJsonBool (String.string_of_list_ascii raw)).

(** ** Base64 and cryptography *)

Definition MakeDecodeResult (ok : bool) (value error : string) : vm Value :=
  p ← new_array [VBool ok; VString (Some value); VString (Some error)]; mret (VPtr ArrayPtr (Some p)).
Definition try_url_decode : list Value → vm Value :=
  with_string 0 "std.base64.try_url_decode expects a string" (λ s,
    match Base64Module.DecodeBase64Url s with
    | inl decoded => MakeDecodeResult true decoded ""
    | inr error => MakeDecodeResult false "" error
    end).

(** Both texts are looked at before either is used. *)
Definition with_both (error0 error1 : string) (k : string → string → vm Value) (args : list Value) : vm Value :=
  v0 ← arg 0 args; a ← RequireString v0 error0;
  v1 ← arg 1 args; b ← RequireString v1 error1;
  match a, b with Some a, Some b => k a b | _, _ => mret VMonostate end.
Definition hmac_sha256_base64url : list Value → vm Value :=
  with_both "std.crypto.hmac_sha256_base64url expects a string key"
    "std.crypto.hmac_sha256_base64url expects a string payload" (λ key data,
    digest ← est_lift (CryptoModule.HmacSha256 (Bytes.of_string key) (Bytes.of_string data));
    mret (VString (Some (CryptoModule.Base64UrlEncode digest)))).
Definition constant_time_equal : list Value → vm Value :=
  with_both "std.crypto.constant_time_equal expects a string" "std.crypto.constant_time_equal expects a string"
    (λ a b, mret (VBool (CryptoModule.ConstantTimeEqual (Bytes.of_string a) (Bytes.of_string b)))).

(** ** The functions [Install] *)

Definition native (arity : Z) (f : list Value → vm Value) : NativeFunction := MkNative arity false f.
Definition StringModule_Install : list (string * NativeFunction) :=
  [ ("len", native 1 text_len); ("concat", native 2 text_concat); ("contains", native 2 text_contains);
    ("starts_with", native 2 text_starts_with); ("index_of", native 2 text_index_of); ("slice", native 3 text_slice);
    ("split", native 2 text_split); ("to_string", native 1 text_to_string); ("to_bool", native 1 text_to_bool) ].
Definition JsonModule_Install : list (string * NativeFunction) :=
  [ ("is_valid", native 1 is_valid); ("compact", native 1 compact); ("quote", native 1 json_quote);
    ("encode_number", native 1 encode_number); ("has_key", native 2 has_key); ("get_string", native 2 get_string);
    ("get_int", native 2 get_int); ("get_bool", native 2 get_bool) ].
Definition Base64Module_Install : list (string * NativeFunction) := [("try_url_decode", native 1 try_url_decode)].
Definition CryptoModule_Install : list (string * NativeFunction) :=
  [ ("hmac_sha256_base64url", native 2 hmac_sha256_base64url); ("constant_time_equal", native 2 constant_time_equal) ].

End natives.

End NativeModules.
