(* ===== verification/NativeModulesSpec.v ===== *)
(** * What the native functions answer

    [split] and its inverse; the functions of JSON, base64 and cryptography answer
    on every list of arguments of their length, or raise one error; and a text that
    [std.json.quote] writes into an object is what [std.json.get_string] reads. *)

From S2P Require Import Prelude SyncRuntime Transactions Value Execution Support DataOps Machine MachineSpec Crypto CryptoSpec Json JsonSpec NativeModules.

Module NativeModulesSpec.
Import Value Transactions Execution Support Machine NativeModules.

(** ** Splitting *)

Lemma starts_with_app needle l : starts_with needle l = true ↔ ∃ rest, l = needle ++ rest.
Proof.
  unfold starts_with. rewrite bool_decide_eq_true. split.
  - intros H. exists (drop (length needle) l). by rewrite -{1}H take_drop.
  - intros [rest ->]. by rewrite take_app_length.
Qed.
Lemma find_Some needle l pos : find needle l = Some pos → l = take pos l ++ needle ++ drop (pos + length needle) l.
Proof.
  revert pos. induction l as [|c l IH]; intros pos; cbn [find];
    (destruct (starts_with needle _) eqn:E; [apply starts_with_app in E as [rest E]; intros [= <-]; cbn [take app Nat.add]|]).
  - by rewrite {2}E drop_app_length.
  - done.
  - by rewrite {2}E drop_app_length.
  - destruct (find needle l) as [p|]; [|done]. intros [= <-]. cbn. f_equal. by apply IH.
Qed.
Lemma find_before needle l pos : needle ≠ [] → find needle l = Some pos → find needle (take pos l) = None.
Proof.
  intros Hn. revert pos. induction l as [|c l IH]; intros pos; cbn [find].
  - destruct (starts_with needle []) eqn:E; [|done]. apply starts_with_app in E as [rest E].
    symmetry in E. by apply app_eq_nil in E as [-> _].
  - destruct (starts_with needle (c :: l)) eqn:E.
    + intros [= <-]. cbn. destruct (starts_with needle []) eqn:E'; [|done].
      apply starts_with_app in E' as [rest E']. symmetry in E'. by apply app_eq_nil in E' as [-> _].
    + destruct (find needle l) as [p|] eqn:F; [|done]. intros [= <-]. cbn [take find fmap option_fmap option_map].
      destruct (starts_with needle (c :: take p l)) eqn:E'; [|by rewrite IH].
      apply starts_with_app in E' as [rest E'].
      assert (starts_with needle (c :: l) = true) as Ht; [|congruence].
      apply starts_with_app. exists (rest ++ drop p l).
      by rewrite app_assoc -E' /= take_drop.
Qed.

(** The parts with the delimiter between them. *)
Fixpoint join_text (delimiter : text) (parts : list text) : text :=
  match parts with
  | [] => []
  | [p] => p
  | p :: parts => p ++ delimiter ++ join_text delimiter parts
  end.

Lemma split_loop_correct delimiter fuel l : delimiter ≠ [] → length l < fuel → ∃ parts,
  split_loop fuel delimiter l = Ok parts ∧ parts ≠ [] ∧ join_text delimiter parts = l ∧
  Forall (λ p, find delimiter p = None) parts.
Proof.
  intros Hd. revert l. induction fuel as [|fuel IH]; intros l Hl; [lia|]. cbn [split_loop].
  destruct (find delimiter l) as [pos|] eqn:F; [|by exists [l]; split_and!; [..|by constructor]].
  pose proof (find_Some _ _ _ F) as E. pose proof (find_before _ _ _ Hd F) as Hb.
  destruct (IH (drop (pos + length delimiter) l)) as (parts & -> & Hne & Hj & Hp).
  { rewrite E !length_app in Hl. destruct delimiter; [done|]. cbn in *. lia. }
  exists (take pos l :: parts). split_and!; [done|done| |by constructor].
  destruct parts as [|q parts]; [done|]. cbn [join_text] in *. by rewrite Hj -E.
Qed.

(** [split] returns, its parts joined by the delimiter are the text, and no part
    contains a delimiter that is not empty. *)
Theorem split_text_correct delimiter l : ∃ parts, split_text delimiter l = Ok parts ∧
  join_text delimiter parts = l ∧ (delimiter ≠ [] → Forall (λ p, find delimiter p = None) parts).
Proof.
  unfold split_text. destruct delimiter as [|c delimiter].
  - exists ((λ c, [c]) <$> l). split_and!; [done| |done].
    induction l as [|x l IH]; [done|]. cbn in *. destruct l; [done|]. cbn in *. by rewrite IH.
  - destruct (split_loop_correct (c :: delimiter) (S (length l)) l) as (parts & H & _ & Hj & Hp); [done|lia|].
    by exists parts.
Qed.
Lemma split_text_correct_witness :
  split_text (chars ", ") (chars "a, b") = Ok [chars "a"; chars "b"] ∧ find (chars ", ") (chars "a") = None.
Proof.
  destruct (split_text_correct (chars ", ") (chars "a, b")) as (parts & H & _ & Hp). vm_compute in H.
  injection H as <-. split; [vm_compute; reflexivity|].
  assert (chars ", " ≠ []) as Hd by discriminate. specialize (Hp Hd). by apply Forall_inv in Hp.
Defined.

(** ** Every call answers *)

(** A value and the state as it was; one error and [null]; or a new array. *)
Inductive answered (s : t) : t → Value → Prop :=
  | answer_value v : answered s s v
  | answer_error message : answered s (RaiseError message s).1 VMonostate
  | answer_array elements s' p : new_array elements s = (s', Ok p) → answered s s' (VPtr ArrayPtr (Some p)).
Definition answers (m : vm Value) : Prop := ∀ s, ∃ s' v, m s = (s', Ok v) ∧ answered s s' v.

Lemma answers_value v : answers (mret v).
Proof. intros s. exists s, v. by split; [|constructor]. Qed.
Lemma answers_refuse message : answers (refuse message).
Proof. intros s. exists (RaiseError message s).1, VMonostate. by split; [|constructor]. Qed.
Lemma answers_bind {A} (m : vm A) a (k : A → vm Value) : (∀ s, m s = (s, Ok a)) → answers (k a) → answers (x ← m; k x).
Proof. intros Hm Hk s. unfold mbind, est_bind. rewrite Hm. apply Hk. Qed.
Lemma arg_ok i args v : args !! i = Some v → ∀ s, arg i args s = (s, Ok v).
Proof. intros H s. unfold arg. by rewrite H. Qed.
Lemma answers_string i error k args v : args !! i = Some v → (∀ s, answers (k s)) → answers (with_string i error k args).
Proof.
  intros Hv Hk. apply (answers_bind _ v); [by apply arg_ok|].
  destruct v as [| | | |[w|]| |]; try exact (answers_refuse error).
  by apply (answers_bind _ (Some w)).
Qed.
Lemma answers_strings error0 error1 k args v0 v1 : args !! 0 = Some v0 → args !! 1 = Some v1 →
  (∀ a b, answers (k a b)) → answers (with_strings error0 error1 k args).
Proof. intros H0 H1 Hk. apply (answers_string _ _ _ _ v0); [done|]. intros a. by apply (answers_string _ _ _ _ v1). Qed.

(** A second error is not kept. *)
Lemma RaiseError_twice m m' s : m ≠ "" → RaiseError m' (RaiseError m s).1 = ((RaiseError m s).1, Ok tt).
Proof.
  intros Hm. unfold RaiseError, est_modify. cbn. f_equal. unfold Ctx.RaiseError. destruct s as [a b c d e ctx g h]. cbn.
  unfold set_ctx. cbn. f_equal. 
  destruct (decide (Ctx.m_errorMessage ctx = "")) as [H|H]; cbn; by rewrite decide_False.
Qed.
Lemma RequireString_cases v error :
  (∃ s, RequireString v error = mret (Some s)) ∨ RequireString v error = (_ ← RaiseError error; mret None).
Proof. destruct v as [| | | |[w|]| |]; try (by right). left. by exists w. Qed.
Lemma answers_both error0 error1 k args v0 v1 : args !! 0 = Some v0 → args !! 1 = Some v1 → error0 ≠ "" →
  (∀ a b, answers (k a b)) → answers (with_both error0 error1 k args).
Proof.
  intros H0 H1 He Hk. unfold with_both. apply (answers_bind _ v0); [by apply arg_ok|].
  assert (∀ s message, answered s (RaiseError message s).1 VMonostate) as Hr by by constructor.
  destruct (RequireString_cases v0 error0) as [[a ->]| ->], (RequireString_cases v1 error1) as [[b E1]|E1].
  - apply (answers_bind _ (Some a)); [done|]. apply (answers_bind _ v1); [by apply arg_ok|]. rewrite E1.
    by apply (answers_bind _ (Some b)).
  - apply (answers_bind _ (Some a)); [done|]. apply (answers_bind _ v1); [by apply arg_ok|]. rewrite E1.
    intros s. by exists (RaiseError error1 s).1, VMonostate.
  - intros s. exists (RaiseError error0 s).1, VMonostate. split; [|done].
    unfold mbind, est_bind. cbn. by rewrite (arg_ok _ _ _ H1) E1.
  - intros s. exists (RaiseError error0 s).1, VMonostate. split; [|done].
    unfold mbind, est_bind. cbn. rewrite (arg_ok _ _ _ H1) E1. unfold mbind, est_bind. by rewrite RaiseError_twice.
Qed.

Lemma answers_array elements : answers (p ← new_array elements; mret (VPtr ArrayPtr (Some p))).
Proof.
  intros s. exists (new_array elements s).1, (VPtr ArrayPtr (Some (fresh_address s))).
  split; [done|by eapply answer_array].
Qed.

(** [LookupTopLevelField] and the functions over it. *)
Lemma answers_field name k args v0 v1 : args !! 0 = Some v0 → args !! 1 = Some v1 →
  (∀ r, answers (k r)) → answers (with_field name k args).
Proof.
  intros H0 H1 Hk. apply (answers_strings _ _ _ _ v0 v1); [done..|]. intros json key.
  destruct (JsonSpec.LookupTopLevelField_returns (chars json) (chars key)) as [r ->]. by apply (answers_bind _ r).
Qed.
Lemma answers_read name type decode args v0 v1 : args !! 0 = Some v0 → args !! 1 = Some v1 →
  answers (read_field name type decode args).
Proof.
  intros H0 H1. apply (answers_field _ _ _ v0 v1); [done..|]. intros [raw|]; [|apply answers_refuse].
  destruct (decode raw); [apply answers_value|apply answers_refuse].
Qed.

(** A cache as the program fills it. *)
Lemma json_answers cache input : JsonSpec.coherent cache →
  ∃ r, fst <$> JsonModule.LookupCompactJson input cache = Ok r ∧
       fst <$> JsonModule.IsValidJsonText input cache = Ok (bool_decide (is_Some r)).
Proof.
  intros Hc. destruct (JsonSpec.LookupCompactJson_coherent input cache Hc) as (r & c & H & _). exists r.
  unfold JsonModule.IsValidJsonText. unfold mbind, st_bind. by rewrite H.
Qed.

Definition natives (print_fuel : nat) (cache : JsonModule.cache) : list (string * NativeFunction) :=
  JsonModule_Install print_fuel cache ++ Base64Module_Install ++ CryptoModule_Install.

(** One argument, and two. *)
Definition native_answers (f : NativeFunction) : Prop :=
  ∀ args, n_arity f = Z.of_nat (length args) → answers (invoke f args).
Lemma native_unary f : (∀ v, answers (f [v])) → native_answers (native 1 f).
Proof. intros H [|v [|]] Ha; cbn in Ha; [lia|apply H|lia]. Qed.
Lemma native_binary f : (∀ v w, answers (f [v; w])) → native_answers (native 2 f).
Proof. intros H [|v [|w [|]]] Ha; cbn in Ha; [lia|lia|apply H|lia]. Qed.
(** What [std::to_string] prints of a number. *)
Lemma answers_text print_fuel d : 0 < print_fuel → answers (ToText print_fuel (VDouble d)).
Proof. intros H. destruct print_fuel; [lia|]. intros s. eexists s, _. by split; [|constructor]. Qed.

Lemma json_native_answers print_fuel cache : 0 < print_fuel → JsonSpec.coherent cache →
  Forall (λ p, native_answers p.2) (JsonModule_Install print_fuel cache).
Proof.
  intros Hp Hc. repeat apply Forall_cons_2; [..|by apply Forall_nil_2]; cbn [snd].
  - apply native_unary. intros v. apply (answers_string _ _ _ _ v); [done|]. intros s.
    destruct (json_answers cache s Hc) as (r & _ & H). apply (answers_bind _ (bool_decide (is_Some r))); [|apply answers_value].
    intros st. by rewrite H.
  - apply native_unary. intros v. apply (answers_string _ _ _ _ v); [done|]. intros s.
    destruct (json_answers cache s Hc) as (r & H & _). apply (answers_bind _ r).
    + intros st. unfold json_lookup, JsonModule.CompactJsonText. by rewrite H.
    + destruct r; [apply answers_value|apply answers_refuse].
  - apply native_unary. intros v. apply (answers_string _ _ _ _ v); [done|]. intros s. apply answers_value.
  - apply native_unary. intros v. apply (answers_bind _ v); [done|].
    destruct v as [| |z|d| | |]; try apply answers_refuse; [apply answers_value|].
    destruct (isfinite d); [by apply answers_text|apply answers_refuse].
  - apply native_binary. intros v w. apply (answers_field _ _ _ v w); [done..|]. intros r. apply answers_value.
  - apply native_binary. intros v w. by apply (answers_read _ _ _ _ v w).
  - apply native_binary. intros v w. by apply (answers_read _ _ _ _ v w).
  - apply native_binary. intros v w. by apply (answers_read _ _ _ _ v w).
Qed.
Lemma crypto_native_answers : Forall (λ p, native_answers p.2) (Base64Module_Install ++ CryptoModule_Install).
Proof.
  repeat apply Forall_cons_2; [..|by apply Forall_nil_2]; cbn [snd].
  - apply native_unary. intros v. apply (answers_string _ _ _ _ v); [done|]. intros s.
    destruct (Base64Module.DecodeBase64Url s); apply answers_array.
  - apply native_binary. intros v w. apply (answers_both _ _ _ _ v w); [done..|]. intros key data.
    rewrite CryptoSpec.HmacSha256_reference. by eapply answers_bind; [|apply answers_value].
  - apply native_binary. intros v w. apply (answers_both _ _ _ _ v w); [done..|]. intros a b. apply answers_value.
Qed.

(** Called with as many arguments as it takes, of any types, every native function
    of the three modules returns: a value, or [null] with one error, or a new
    array.  No exception of the C++ library escapes from one. *)
Theorem native_modules_answer print_fuel cache name f args :
  0 < print_fuel → JsonSpec.coherent cache → (name, f) ∈ natives print_fuel cache → n_arity f = Z.of_nat (length args) →
  answers (invoke f args).
Proof.
  intros Hp Hc Hf.
  assert (Forall (λ p, native_answers p.2) (natives print_fuel cache)) as H
    by (apply Forall_app_2; [by apply json_native_answers|apply crypto_native_answers]).
  rewrite Forall_forall in H. exact (H (name, f) Hf args).
Qed.
Lemma native_modules_answer_witness : answers (has_key [VString (Some "{}"); VInt64 0]).
Proof.
  apply (native_modules_answer 1 ∅ "has_key" (native 2 has_key) [VString (Some "{}"); VInt64 0]).
  - lia.
  - intros input entry H. by rewrite lookup_empty in H.
  - do 4 apply list_elem_of_further. apply list_elem_of_here.
  - reflexivity.
Defined.

(** ** From [quote] to [get_string] *)

(** [{key:value}] over two texts that [std.json.quote] wrote. *)
Definition quoted_object (key value : string) : string :=
  String.string_of_list_ascii ("{"%char :: JsonModule.EscapeJsonString (chars key) ++ ":"%char
    :: JsonModule.EscapeJsonString (chars value) ++ ["}"%char]).

Lemma quoted_object_fields key value : Forall (λ c, JsonSpec.shown c = c) (chars key) →
  JsonSpec.object (chars (quoted_object key value)) [(chars key, JsonModule.EscapeJsonString (chars value))].
Proof.
  unfold quoted_object, chars. intros Hk. rewrite String.list_ascii_of_string_of_list_ascii.
  set (k := String.list_ascii_of_string key) in *. set (v := String.list_ascii_of_string value).
  pose proof (JsonSpec.o_fields [] [] (JsonModule.EscapeJsonString k ++ ":"%char :: JsonModule.EscapeJsonString v ++ ["}"%char])
    [(k, JsonModule.EscapeJsonString v)] []) as H.
  rewrite app_nil_r in H. apply H; [apply Forall_nil_2..|].
  pose proof (JsonSpec.f_last ((k ≫= JsonModule.escape) ++ [JsonModule.quote]) k [] [] (JsonModule.EscapeJsonString v)
    (JsonModule.EscapeJsonString v) []) as H'.
  unfold JsonModule.EscapeJsonString at 1. cbn [app] in *. apply H'; try apply Forall_nil_2.
  - apply JsonSpec.chars_escaped.
  - rewrite JsonSpec.string_value_escaped. apply JsonSpec.shown_all in Hk. by rewrite Hk.
  - apply JsonSpec.v_string, JsonSpec.chars_escaped.
Qed.

Lemma one_member k w : JsonSpec.chars k → JsonSpec.value w w →
  JsonSpec.members (JsonModule.quote :: k ++ ":"%char :: w ++ ["}"%char]) (JsonModule.quote :: k ++ ":"%char :: w ++ ["}"%char]).
Proof.
  intros Hk Hw. pose proof (JsonSpec.m_last k [] [] w w [] Hk (Forall_nil_2 _) (Forall_nil_2 _) Hw (Forall_nil_2 _)) as H.
  cbn [app] in H. by rewrite -app_assoc in H.
Qed.
Lemma quoted_object_json key value : JsonSpec.json (chars (quoted_object key value)) (chars (quoted_object key value)).
Proof.
  unfold quoted_object, chars. rewrite String.list_ascii_of_string_of_list_ascii.
  eexists [], _, []. rewrite app_nil_r. split_and!; [apply Forall_nil_2..| |reflexivity].
  apply (JsonSpec.v_object []); [apply Forall_nil_2|].
  by apply one_member; [apply JsonSpec.chars_escaped|apply JsonSpec.v_string, JsonSpec.chars_escaped].
Qed.
Lemma with_field_texts name k json key r s : JsonModule.LookupTopLevelField (chars json) (chars key) = Ok r →
  with_field name k [VString (Some json); VString (Some key)] s = k r s.
Proof.
  intros H. unfold with_field, with_strings, with_string. unfold mbind, est_bind. cbn. unfold est_bind. by rewrite H.
Qed.
Lemma compact_accepts cache input c s : JsonSpec.coherent cache →
  JsonModule.ParseCompactJson (chars input) = Ok (Some c) →
  compact cache [VString (Some input)] s = (s, Ok (shared_string c)).
Proof.
  intros Hc H. destruct (JsonSpec.LookupCompactJson_coherent input cache Hc) as (r & c' & Hl & Hp & _).
  unfold chars in H. rewrite H in Hp. injection Hp as <-.
  unfold compact, with_string, json_lookup, JsonModule.CompactJsonText. unfold mbind, est_bind. cbn. unfold est_bind.
  by rewrite Hl.
Qed.

(** C35. A text that [quote] writes as a field of an object is what [get_string] reads
    from it, and [compact] and [is_valid] accept the object as it is, unless a
    control character without a short form is in the texts. *)
Theorem quote_get_string key value cache : JsonSpec.coherent cache →
  Forall (λ c, JsonSpec.shown c = c) (chars key) → Forall (λ c, JsonSpec.shown c = c) (chars value) → ∀ s,
  json_quote [VString (Some value)] s = (s, Ok (shared_string (JsonModule.EscapeJsonString (chars value)))) ∧
  get_string [VString (Some (quoted_object key value)); VString (Some key)] s = (s, Ok (VString (Some value))) ∧
  has_key [VString (Some (quoted_object key value)); VString (Some key)] s = (s, Ok (VBool true)) ∧
  compact cache [VString (Some (quoted_object key value))] s = (s, Ok (shared_string (chars (quoted_object key value)))).
Proof.
  intros Hc Hk Hv s. split; [done|].
  pose proof (quoted_object_fields key value Hk) as Ho.
  pose proof (JsonSpec.LookupTopLevelField_object _ (chars key) _ Ho) as Hl.
  unfold JsonSpec.first_field in Hl. cbn [omap list_omap] in Hl. rewrite decide_True // in Hl. cbn [head] in Hl.
  split_and!.
  - unfold get_string, read_field. rewrite (with_field_texts _ _ _ _ _ _ Hl) JsonSpec.DecodeJsonString_escaped.
    apply JsonSpec.shown_all in Hv. rewrite Hv. cbn. unfold shared_string, chars.
    by rewrite String.string_of_list_ascii_of_string.
  - unfold has_key. by rewrite (with_field_texts _ _ _ _ _ _ Hl).
  - apply compact_accepts; [done|]. apply JsonSpec.ParseCompactJson_json, quoted_object_json.
Qed.
(** A thread that has done nothing yet. *)
Definition new_thread : Execution.t :=
  Execution.Mk [] [] [] [] ∅ (Ctx.Mk [] (Ctx.MkStore ∅ ∅ ∅ ∅) Sync.init 0 "") "" (MkRegistry 0 ∅).
Lemma quote_get_string_witness :
  get_string [VString (Some (quoted_object "a" "b c")); VString (Some "a")] new_thread
  = (new_thread, Ok (VString (Some "b c"))).
Proof.
  refine (proj1 (proj2 (quote_get_string "a" "b c" ∅ _ _ _ new_thread))).
  - intros input entry H. by rewrite lookup_empty in H.
  - by repeat constructor.
  - by repeat constructor.
Defined.

(** ** The limits of the machine

    The functions of the modules neither push nor pop a value or a frame: they are
    native functions as [machine_limits] expects them. *)

Definition installed (print_fuel : nat) (cache : JsonModule.cache) : list (string * NativeFunction) :=
  StringModule_Install print_fuel ++ JsonModule_Install print_fuel cache ++ Base64Module_Install ++ CryptoModule_Install.

Lemma installed_keeps I `{!JumpInv I} print_fuel cache name f args :
  (name, f) ∈ installed print_fuel cache → keeps I (invoke f args).
Proof.
  unfold installed, StringModule_Install, JsonModule_Install, Base64Module_Install, CryptoModule_Install. cbn [app].
  rewrite !elem_of_cons elem_of_nil. intros H. repeat destruct H as [[= _ ->]|H]; [..|done]; cbn [invoke native];
    unfold text_len, text_concat, text_contains, text_starts_with, text_index_of, text_slice, text_split, text_to_string,
      text_to_bool, ConvertToBool, is_valid, compact, json_lookup, json_quote, encode_number, has_key, get_string, get_int,
      get_bool, read_field, with_field, try_url_decode, MakeDecodeResult, hmac_sha256_base64url, constant_time_equal,
      with_both, with_strings, with_string, RequireString, ToText, refuse, arg; keep.
Qed.

Lemma installed_well_behaved natives print_fuel cache :
  (∀ p, ∃ name, (name, natives p) ∈ installed print_fuel cache) → well_behaved limits natives.
Proof.
  intros Hn. split.
  - intros p args. destruct (Hn p) as [name Hp]. by apply (installed_keeps limits print_fuel cache name).
  - intros p args s s' v E _. destruct (Hn p) as [name Hp].
    pose proof (installed_keeps (λ s1, callers s1 = callers s) print_fuel cache name _ args Hp s eq_refl) as H. by rewrite E in H.
Qed.

End NativeModulesSpec.
